(* ===== verification/_CoqProject ===== *)
-Q . S2P
Prelude.v
Number.v
NumberSpec.v
NumberParse.v
NumberProps.v
Temporal.v
TemporalProps.v
TemporalFormat.v
Allocator.v
AllocatorProps.v
Unicode.v
UnicodeProps.v
Errors.v
Projection.v
ProjectionProps.v
Selector.v
Cursor.v
CursorProps.v
SelectorLex.v
SelectorLexProps.v
SelectorParse.v
SelectorParseProps.v
SelectorJson.v
SelectorJsonProps.v
SelectorShorthand.v
SelectorJsonScan.v
SelectorJsonScanProps.v
SelectorJsonEvents.v
SelectorJsonRoundtrip.v
ScanTerm.v
ScanNumber.v
JsonSpool.v
ScanState.v
ScanInput.v
ScanMatch.v
JsonScan.v
FlatProgram.v
ScanSpan.v
ScanContains.v
ScanNumberProps.v
SpoolProps.v
JsonGrammar.v
ScanLogic.v
ScanReads.v
ScanWrites.v
ScanSound.v
ScanStatus.v
ScanStream.v
SelectorIndex.v
FlatProgramProps.v
JsonTree.v
ScanFeed.v
ScanFed.v
ScanMatches.v
ScanText.v
ScanKeys.v
ScanGains.v
ScanHits.v
ScanValues.v
ScanSelect.v
StreamProjection.v
Stream.v
StreamBatch.v
StreamApply.v
StreamProps.v
StreamFilter.v
ScanTotal.v
ScanTotalTerms.v
ScanTotalValues.v
ScanTotalScan.v
StreamTotal.v
NumberFloat.v
SelectorBuild.v
Mutation.v
MutationProps.v
MutationText.v
MutationEmit.v
MutationWalk.v
MutationEmitProps.v
MutationPath.v
