(* ===== verification/Prelude.v ===== *)
(** * liblql: verification development

    liblql is a C library that parses LQL selectors and projections and applies
    them to streams of JSON documents.  This development models its core in Rocq,
    file by file, and proves what the parts promise.  It opens with this file,
    which is both the documentation and the prelude (bytes, C strings, tactics and
    the lemmas the components share).

    ** The program and its parts

    A receiver ([lql_new], src/lql.c) owns an allocator with a quota
    (src/lql_allocator.c), which every parser uses.  A selector is parsed from text
    or from JSON, or built by calls (src/lql_selector.c), into a tree of
    [lql_selector] nodes (src/lql_internal.h); clients inspect it through cursors
    and write it back as JSON (src/lql.c).  Its literals are dates
    (src/lql_temporal.c) and JSON numbers compared exactly (src/lql_number.c);
    case-insensitive search lower-cases UTF-8 (src/lql_unicode_lower.c).  A
    projection is a list of JSON Pointers (src/lql_projection.c).  Streams are then
    scanned and filtered (src/lql_json_scan.c, src/lql_stream.c,
    src/lql_stream_flat_eq.c) and values spooled (src/lql_json_spool.c).  A mutation
    is parsed (src/lql_direct_actions.c) into actions that set, increment or remove
    the values at their paths, and the records of a stream are written with its
    actions applied (src/lql_stream_flat_eq.c); files are rewritten through a stream
    (src/lql_file.c).

    ** Files

    - [Number] models the decimal half of src/lql_number.c; [NumberSpec] is the grammar
      and exact value of a JSON number and the digit-string arithmetic; [NumberParse]
      relates the decimal parser to it; [NumberProps] has the properties.
      [NumberFloat] models its floating point half, [lql_number_parse_json] with the
      arithmetic of an 80-bit long double and [lql_number_format_json], and has what
      they accept and write.
    - [Temporal] models src/lql_temporal.c; [TemporalProps] counts days of the civil
      calendar and has the parsers, [TemporalFormat] the formatter, the comparison
      and the calendar.
    - [Allocator] models src/lql_allocator.c with [lql_new] and [receiver_destroy];
      [AllocatorProps] has its invariant and properties.
    - [Unicode] models src/lql_unicode_lower.c; [UnicodeProps] has its properties.
    - [Errors] models statuses and error objects, and has the monad of allocation
      outcomes.
    - [Projection] models src/lql_projection.c; [ProjectionProps] has its
      specification and the refinement.
    - [Selector] is [struct lql_selector]; [Cursor] models the inspection interface
      and capability flags of src/lql.c, [CursorProps] their agreement.
    - [SelectorLex] and [SelectorParse] model the text parser of src/lql_selector.c:
      tokens, quotes and paths in the first, predicates, shorthands, wrappers and
      indexed groups in the second.  [SelectorLexProps], [SelectorParseProps] and
      [SelectorShorthand] have the properties.  [SelectorBuild] models the builders of
      selectors from terms and from other selectors, with the copies and clean-up they
      share, and has what holds of all that is built.
    - [SelectorJson] models the JSON writer of src/lql.c; [SelectorJsonProps] has
      the AST it implements.  [SelectorJsonScan] models the JSON scanner and
      [SelectorJsonEvents] the event machine that reads a selector from JSON, with
      the refinement between them; [SelectorJsonScanProps] has its termination and
      [SelectorJsonRoundtrip] the round trip with the writer.
    - The streaming scanner, src/lql_json_scan.c: [ScanTerm] (terms and numeric
      literals), [ScanNumber] (number tokens and their comparison), [ScanState]
      (the state and its monad), [ScanInput] (refill, bytes, UTF-8, output),
      [ScanMatch] (paths and terms) and [JsonScan] (values, containers, records,
      the loop over a stream).  [JsonSpool] models src/lql_json_spool.c.
    - What it reads: [JsonGrammar] is the grammar of JSON texts and [JsonTree] the
      values they denote, one per text;
      [ScanLogic] is a program logic for the scanner, [ScanReads], [ScanWrites] and
      [ScanSound] show that what it accepts is JSON and what it writes the compact
      text, [ScanStatus] and [ScanStream] that a stream is read to its end;
      [ScanStream] also has runs that go wrong.
      [SpoolProps] has the spool, [ScanSpan], [ScanContains] and [ScanNumberProps]
      the fast routines.
    - What it selects: [ScanFeed] and [ScanFed] follow the terms while a text is fed,
      [ScanMatches], [ScanText] and [ScanKeys] the paths and the keys, [ScanGains],
      [ScanHits], [ScanValues] and [ScanSelect] the hits of a value and of a record.
    - That it ends: [JsonGrammar] measures how deep a text nests, [ScanTotal] has the
      rules for computations that give a result, and [ScanTotalTerms],
      [ScanTotalValues] and [ScanTotalScan] apply them from the refill of the buffer
      to the stream.
    - [FlatProgram] models the compilation of a selector in
      src/lql_stream_flat_eq.c; [SelectorIndex] has its hash table,
      [FlatProgramProps] the rest.
    - The application of a selector to a stream, src/lql_stream.c and
      src/lql_stream_flat_eq.c: [Stream] models a request, its counters and the
      work on one decided record, [StreamProjection] the output of a projection,
      [StreamBatch] selectors of more than 64 terms, [StreamApply] the tests of a
      request, its plan and both entry points.  [StreamProps] and [StreamFilter] have
      the properties of the whole, from the bytes read to the records written,
      [StreamTotal] that it always ends.
    - Mutations: [Mutation] models the parser of src/lql_direct_actions.c,
      [MutationProps] has what expressions denote and the refinement, [MutationText]
      the types of actions and the round trip of lists of them.  [MutationEmit]
      models the output of a mutated record in src/lql_stream_flat_eq.c, from the
      walks over a spooled text to the groups of actions on one key; [MutationWalk]
      has a program logic for it and the compact texts, [MutationEmitProps] that what
      is written is JSON, and all of it or nothing, [MutationPath] what an action
      with an exact path does.

    The names are those of the C functions; a helper that stands for a loop or a
    part of a function is named after it.

    ** How the C code is represented

    Bytes are [Z] and buffers [list Z].  A NUL-terminated string is the list of its
    bytes; a pointer into it is the rest of the text, and reading at its end reads
    the NUL ([at_]).  Machine integers are [Z] with the wrap-around or the clamps of
    the code written out where they can matter ([size_t] in [Allocator], [long] and
    [unsigned long] in [Number], [unsigned] in [Temporal], the 64 bits of the masks
    of terms and of [ScanSpan]).  An error return is [option] or a sum with the
    status and the message.  Storage is modelled where it is the subject:
    [Allocator] has a world of live blocks, in which touching a dead block is
    [None]; [Projection] and [Number] run under an arbitrary outcome of every
    allocation and [Projection] counts live blocks; [SelectorJson] runs under an
    arbitrary outcome of every write, and reading through NULL is [None]; [JsonSpool]
    runs over a file whose every operation may fail or fall short; [Mutation] and the
    builders of compounds in [SelectorBuild] run under an arbitrary outcome of every
    allocation and count live blocks, a clean-up that goes through a dangling or NULL
    array of children being [None];
    [MutationEmit] runs over the spools it reads and fills, with file openers that
    answer through a list; the scanner takes
    the chunks of its reader and the answers of its cancel test as lists and has
    every array access outside the bounds as [None].  In the selector parsers and the
    builders of predicates allocations are assumed to succeed.

    A recursion that is not structural has fuel.  In the decimal and digit loops,
    the paths and the UTF-8 search the fuel is the length of the input or of the
    table.  In the selector parser the fuel is the length of the text of a wrapper,
    each of which removes at least three characters; in the JSON parser of selectors
    it is twice the length of the text and one; running out is [None], and theorems
    show that it does not happen.  The scanner has the bytes that remain of its input
    as fuel of its byte loops and the bound on the nesting for values.  A loop over
    the nodes, terms or captures has their number, a batched scan one round more than
    there are terms, the reading of a spool one more than its size.  The walks over a
    record have the length of the text they are in and the number of segments, and the
    output of a record is shown never to run out of it.

    Parameters of the model: the system allocator ([upstream], whose hypothesis
    [upstream_ok] says that a fresh block is distinct from the live ones), the
    outcomes of allocations, reads, writes and flushes, the callbacks of a request, the
    reading of a number by [lql_number_parse_json] in the scanner ([parse_double],
    modelled in [NumberFloat]) and the doubles kept beside the texts of bounds
    ([range_double]), the addresses of selector nodes, and in the writer the text of a
    double that no parsed selector holds; for mutations [getenv], [time] and the clock
    callback, and the file openers and readers.  A record callback of a request is a
    function of what it is handed; it does not modify the spool.  In [Stream] the
    output of a mutation is a parameter; [MutationEmit.stream_step] turns an emission
    into such a step.

    ** What is shown

    - Streams: an application counts as matched exactly the records whose JSON value
      the selector holds of, whatever the chunks, callbacks and limits, and writes
      exactly the selected records, each as a compact line with the same value, when
      the terms of the selector compare bytes along plain object keys (strings, bools,
      nulls, presence, case-sensitive prefixes and substrings) and at most 64 of them
      differ.  For other selectors the scan of a term is not related to its meaning:
      hits of recursive paths depend on the chunks and an escaped path can lose a hit
      ([ScanStream]).  Every
      application ends with a status, also when its input is no JSON, if brackets nest
      less than 128 deep; in deeper input a record that fails can leave the scanner
      past its arrays ([ScanStream]).  The
      scanner accepts JSON texts only, hands over the records in order and copies
      them compactly.  The flat program of a selector evaluates as the selector, its
      index is a map, its terms fit the tables, a term is scanned as itself or as an
      equal one, a record is left early only when its
      outcome is settled.
    - Selectors: the text parser terminates on every input and returns well-formed
      trees only; splitting loses nothing; paths are normalised; shorthands are read
      as the AST they stand for; the writer hands the file exactly the JSON text of
      the AST or reports an I/O error after a prefix of it, and the JSON parser reads
      it back; the capability flags are those of the traversal.
      What is built from terms, allocations succeeding, and from other selectors is
      well formed too; a builder of compounds copies its children faithfully and leaks
      nothing under any outcome of its allocations, and where a refused one makes its
      clean-up go wrong is shown.
    - Projections: the parser implements its specification under every allocation
      outcome, without leaks; pointers round-trip.
    - Mutations: the parser implements what expressions denote under every allocation
      outcome, without leaks; every action it gives is well typed; lists of plain
      actions written one per line are read back.  The output of a record with any
      usable actions ends, and is one line with a JSON object or a reported failure;
      a program whose output is rendered first hands over a whole line or a prefix
      of one that the writer refused; an action with an exact path writes the record
      with that action applied to its tree.
    - Memory: no valid sequence of calls touches a dead block, the account of every
      receiver is exact and within its limit, and nothing is leaked.  A spool holds
      the bytes appended to it whatever its file does.
    - Numbers: the comparison is that of the exact values, whatever the size of the
      exponents, its fast path agrees, and a failed allocation never gives a wrong
      answer.  A finite double is written as the JSON number of 17 digits nearest to it.
    - Dates: the strict parser accepts exactly RFC 3339, fast and general paths
      agree, formatting and parsing are inverse, comparison is that of instants.
    - Unicode: the codec is a bijection with the scalar values, the table search is
      a lookup, lower-casing is what the table says, character by character.

    ** Not modelled

    Refused allocations in the selector parsers and the builders of predicates; the
    doubles kept beside the texts of bounds; the release of the programs and
    spools, which frees or closes what the models above drop.  src/lql_file.c is
    temporary files, permissions and renames around a stream, and src/tools and
    src/lua are the command-line tool, a benchmark and a binding: they hold no logic
    of the language beyond calls into the functions modelled.  Where several actions
    touch one key, or a path has wildcards, the theorems say that the output is a
    JSON object, not which one. *)

From stdpp Require Export base tactics numbers list strings option.
From Stdlib Require Export ZArith Lia Bool.
From Stdlib Require Import Ascii.

#[global] Open Scope Z_scope.

(** ** Bytes and C strings

    A byte is a [Z] between 0 and 255; a byte buffer [(ptr, len)] and a
    NUL-terminated C string are both a [list Z] (the NUL is not an element). *)

Abbreviation bytes := (list Z).

(** [bs] turns a string literal into its bytes. *)
Definition bs (s : string) : bytes :=
  map (fun a => Z.of_N (N_of_ascii a)) (String.list_ascii_of_string s).

Abbreviation ch_tab := 9.
Abbreviation ch_nl := 10.
Abbreviation ch_cr := 13.
Abbreviation ch_space := 32.
Abbreviation ch_bang := 33.
Abbreviation ch_quote := 34.
Abbreviation ch_apos := 39.
Abbreviation ch_plus := 43.
Abbreviation ch_comma := 44.
Abbreviation ch_minus := 45.
Abbreviation ch_dot := 46.
Abbreviation ch_slash := 47.
Abbreviation ch_0 := 48.
Abbreviation ch_1 := 49.
Abbreviation ch_9 := 57.
Abbreviation ch_colon := 58.
Abbreviation ch_lt := 60.
Abbreviation ch_eq := 61.
Abbreviation ch_gt := 62.
Abbreviation ch_A := 65.
Abbreviation ch_E := 69.
Abbreviation ch_F := 70.
Abbreviation ch_T := 84.
Abbreviation ch_Z := 90.
Abbreviation ch_lbracket := 91.
Abbreviation ch_backslash := 92.
Abbreviation ch_rbracket := 93.
Abbreviation ch_underscore := 95.
Abbreviation ch_a := 97.
Abbreviation ch_e := 101.
Abbreviation ch_f := 102.
Abbreviation ch_z := 122.
Abbreviation ch_lbrace := 123.
Abbreviation ch_bar := 124.
Abbreviation ch_rbrace := 125.
Abbreviation ch_tilde := 126.

Definition is_byte (c : Z) : bool := (0 <=? c) && (c <? 256).
Definition is_digit (c : Z) : bool := (ch_0 <=? c) && (c <=? ch_9).

(** The C locale's [isspace]: space, \t, \n, \v, \f, \r. *)
Definition isspace (c : Z) : bool := (c =? 32) || ((9 <=? c) && (c <=? 13)).

(** [at_ s i] is [s[i]] of a NUL-terminated string: the NUL at its end. *)
Definition at_ (s : bytes) (i : nat) : Z := nth i s 0.

(** [span p l] splits [l] at its first element that [p] rejects. *)
Fixpoint span {A} (p : A -> bool) (l : list A) : list A * list A :=
  match l with
  | [] => ([], [])
  | x :: t => if p x then let '(a, b) := span p t in (x :: a, b) else ([], l)
  end.

(** [drop_while p l] is the rest of [l] after its longest prefix in [p]. *)
Definition drop_while {A} (p : A -> bool) (l : list A) : list A := snd (span p l).

(** [memcmp] of two equal-length buffers: the sign of the first difference. *)
Fixpoint memcmp (a b : bytes) : Z :=
  match a, b with
  | x :: a', y :: b' => if x <? y then -1 else if y <? x then 1 else memcmp a' b'
  | _, _ => 0
  end.

(** [strcmp a b == 0] and [memcmp] equality. *)
Definition bytes_eqb (a b : bytes) : bool := bool_decide (a = b).

(** [strncmp(s, prefix, strlen(prefix)) == 0]. *)
Fixpoint has_prefix (p s : bytes) : bool :=
  match p, s with
  | [], _ => true
  | x :: p', y :: s' => (x =? y) && has_prefix p' s'
  | _ :: _, [] => false
  end.

(** The segments of a path (a JSON Pointer without its leading slash). *)
Fixpoint split_slash (s : bytes) : list bytes :=
  match s with
  | [] => [[]]
  | c :: t =>
      if c =? ch_slash then [] :: split_slash t
      else match split_slash t with
           | seg :: segs => (c :: seg) :: segs
           | [] => [[c]]
           end
  end.

(** The sign of a [comparison], as the C comparators return it. *)
Definition sgn_of (c : comparison) : Z :=
  match c with Lt => -1 | Eq => 0 | Gt => 1 end.

(** ** Tactics *)

(** Turn every boolean comparison of the context into its proposition. *)
Ltac bool_hyps :=
  repeat match goal with
  | H : _ && _ = true |- _ => apply andb_true_iff in H as [? ?]
  | H : _ || _ = false |- _ => apply orb_false_iff in H as [? ?]
  | H : negb _ = true |- _ => apply negb_true_iff in H
  | H : negb _ = false |- _ => apply negb_false_iff in H
  | H : (_ =? _) = true |- _ => apply Z.eqb_eq in H
  | H : (_ =? _) = false |- _ => apply Z.eqb_neq in H
  | H : (_ <? _) = true |- _ => apply Z.ltb_lt in H
  | H : (_ <? _) = false |- _ => apply Z.ltb_ge in H
  | H : (_ <=? _) = true |- _ => apply Z.leb_le in H
  | H : (_ <=? _) = false |- _ => apply Z.leb_gt in H
  end.

(** Split the first [if] of the goal on a boolean test. *)
Ltac case_if :=
  match goal with |- context [if ?b then _ else _] => destruct b eqn:? end.

(** Invert equations between constructors in the context. *)
Ltac inv_some := simplify_eq/=.

(** ** Generic lemmas *)

Lemma span_app {A} (p : A -> bool) l a b : span p l = (a, b) -> l = a ++ b.
Proof.
  revert a b; induction l as [|x t IH]; intros a b; simpl; [naive_solver|].
  destruct (p x); [|naive_solver].
  destruct (span p t) as [a' b']. intros [= <- <-]. simpl. f_equal. by apply IH.
Qed.

Lemma span_forall {A} (p : A -> bool) l a b :
  span p l = (a, b) -> Forall (fun x => p x = true) a.
Proof.
  revert a b; induction l as [|x t IH]; intros a b; simpl.
  - intros [= <- <-]. constructor.
  - destruct (p x) eqn:E; [|intros [= <- <-]; constructor].
    destruct (span p t) as [a' b'] eqn:E'. intros [= <- <-]. eauto.
Qed.

Lemma span_stop {A} (p : A -> bool) l a x b : span p l = (a, x :: b) -> p x = false.
Proof.
  revert a; induction l as [|y t IH]; intros a; simpl; [done|].
  destruct (p y) eqn:E; [|naive_solver].
  destruct (span p t) as [a' b'] eqn:E'. intros [= <- ->]. eauto.
Qed.

(** A block accepted by [p] followed by something that stops it is split there. *)
Lemma span_block {A} (p : A -> bool) a b :
  Forall (fun x => p x = true) a ->
  match b with [] => True | x :: _ => p x = false end ->
  span p (a ++ b) = (a, b).
Proof.
  induction 1 as [|x a Hx Ha IH]; intros Hb; simpl.
  - destruct b as [|y b]; simpl; [done|]. by rewrite Hb.
  - rewrite Hx, IH; done.
Qed.

Lemma drop_while_app {A} (p : A -> bool) l :
  exists a, l = a ++ drop_while p l /\ Forall (fun x => p x = true) a.
Proof.
  unfold drop_while. destruct (span p l) as [a b] eqn:E. exists a. simpl.
  eauto using span_app, span_forall.
Qed.

Lemma drop_while_stop {A} (p : A -> bool) l x t :
  drop_while p l = x :: t -> p x = false.
Proof.
  unfold drop_while. destruct (span p l) as [a b] eqn:E. simpl. intros ->.
  by eapply span_stop.
Qed.

Lemma memcmp_range a b : memcmp a b = -1 \/ memcmp a b = 0 \/ memcmp a b = 1.
Proof. revert b; induction a; intros [|]; simpl; repeat case_if; auto. Qed.

Lemma bytes_eqb_eq a b : bytes_eqb a b = true <-> a = b.
Proof. unfold bytes_eqb. apply bool_decide_eq_true. Qed.

Lemma bytes_eqb_refl a : bytes_eqb a a = true.
Proof. by apply bytes_eqb_eq. Qed.

Lemma has_prefix_spec p s : has_prefix p s = true <-> exists t, s = p ++ t.
Proof.
  revert s; induction p as [|x p IH]; intros [|y s]; simpl.
  - split; eauto.
  - split; eauto.
  - split; [done|]. intros [t [=]].
  - rewrite andb_true_iff, IH, Z.eqb_eq. naive_solver.
Qed.

Lemma drop_nth {A} (l : list A) i d :
  (i < length l)%nat -> drop i l = nth i l d :: drop (S i) l.
Proof. intros H. apply drop_S. destruct (nth_lookup_or_length l i d); [done|lia]. Qed.

Lemma split_slash_nonempty s : split_slash s <> [].
Proof. destruct s as [|c s]; [done|]. cbn. case_if; [done|]. by destruct (split_slash s). Qed.

Lemma split_slash_span s :
  let '(raw, rest) := span (fun c => negb (c =? ch_slash)) s in
  split_slash s = raw :: match rest with [] => [] | _ :: t => split_slash t end.
Proof.
  induction s as [|c s IH]; [done|]. cbn [span split_slash]. destruct (c =? ch_slash); [done|].
  cbn [negb]. destruct (span _ s) as [raw rest]. by rewrite IH.
Qed.

Create HintDb lql.
#[export] Hint Resolve bytes_eqb_refl : lql.
