(* ===== verification/Number.v ===== *)
(** * Decimal numbers (src/lql_number.c)

    The arbitrary-precision comparison of JSON number texts: the digit-string
    arithmetic on exponents, the decimal parser, [lql_number_compare_json] with
    its fast path for plain integers, and the integer case of
    [lql_number_parse_json].  Number texts are byte lists; a pointer into a
    text with a length is the sublist it denotes. *)

From S2P Require Import Prelude.

(** ** Machine integers (LP64) *)

Definition LONG_MAX : Z := 2 ^ 63 - 1.
Definition LONG_MIN : Z := - 2 ^ 63.
Definition ULONG_MOD : Z := 2 ^ 64.

Record lql_number_decimal := mk_decimal {
  integer : bytes;
  fraction : bytes;
  exponent : bytes;
  leading_skip : nat;
  coeff_len : nat;
  decimal_adjust : Z;
  exponent_negative : bool;
  negative : bool;
  zero : bool
}.

Definition lql_number_clamp_add (left right : Z) : Z :=
  if (0 <? right) && (LONG_MAX - right <? left) then LONG_MAX
  else if (right <? 0) && (left <? LONG_MIN - right) then LONG_MIN
  else left + right.

(** The stored value; the C result flag is not used by any caller. *)
Definition lql_number_size_to_long (value : Z) : Z :=
  if LONG_MAX <? value then LONG_MAX else value.

Definition lql_number_digit_at (number : lql_number_decimal) (index : nat) : Z :=
  let raw_index := (leading_skip number + index)%nat in
  if (raw_index <? length (integer number))%nat then nth raw_index (integer number) 0
  else nth (raw_index - length (integer number)) (fraction number) 0.

(** On the text from [*pos] on: the sign, the digits after the leading zeros
    and the text after the exponent; [None] is the C result 0. *)
Definition lql_number_parse_exponent (text : bytes) : option (bool * bytes * bytes) :=
  match text with
  | c :: t =>
      if (c =? ch_e) || (c =? ch_E) then
        let '(neg, t) :=
          match t with
          | s :: t' => if (s =? ch_plus) || (s =? ch_minus) then (s =? ch_minus, t') else (false, t)
          | [] => (false, t)
          end in
        match t with
        | d :: _ =>
            if is_digit d then
              let '(run, rest) := span is_digit t in
              let digits := drop_while (fun x => x =? ch_0) run in
              Some (if (length digits =? 0)%nat then false else neg, digits, rest)
            else None
        | [] => None
        end
      else Some (false, [], text)
  | [] => Some (false, [], text)
  end.

(** The do-while loop of [lql_number_ulong_text]; the fuel is [tmp]'s size. *)
Fixpoint ulong_text_loop (fuel : nat) (value : Z) (acc : bytes) : bytes :=
  match fuel with
  | O => acc
  | S fuel =>
      let acc := (ch_0 + value mod 10) :: acc in
      let value := value / 10 in
      if value =? 0 then acc else ulong_text_loop fuel value acc
  end.

Definition lql_number_ulong_text (value : Z) : bytes := ulong_text_loop 32 value [].

Definition lql_number_compare_digits (left right : bytes) : Z :=
  if (length left <? length right)%nat then -1
  else if (length right <? length left)%nat then 1
  else memcmp left right.

(** The digits, the sign and the zero flag of a plain JSON integer. *)
Definition lql_number_plain_integer (text : bytes) : option (bytes * bool * bool) :=
  match text with
  | [] => None
  | c :: t =>
      let '(neg, text) := if c =? ch_minus then (true, t) else (false, text) in
      match text with
      | [] => None
      | d :: rest =>
          if d =? ch_0 then
            match rest with [] => Some ([d], false, true) | _ :: _ => None end
          else if (d <? ch_1) || (ch_9 <? d) then None
          else
            let '(run, rest) := span is_digit text in
            match rest with [] => Some (run, neg, false) | _ :: _ => None end
      end
  end.

Definition lql_number_compare_plain_integer (left right : bytes) : option Z :=
  match lql_number_plain_integer left, lql_number_plain_integer right with
  | Some (left_digits, left_negative, left_zero),
    Some (right_digits, right_negative, right_zero) =>
      if left_zero && right_zero then Some 0
      else if negb (Bool.eqb left_zero right_zero) then
        Some (if left_zero then (if right_negative then 1 else -1)
              else (if left_negative then -1 else 1))
      else if negb (Bool.eqb left_negative right_negative) then
        Some (if left_negative then -1 else 1)
      else
        let cmp := lql_number_compare_digits left_digits right_digits in
        Some (if left_negative then - cmp else cmp)
  | _, _ => None
  end.

(** [while (digits[0] == '0' && digits[1] != '\0') ++digits;] *)
Fixpoint strip_zeros (digits : bytes) : bytes :=
  match digits with
  | d :: (_ :: _) as t => if d =? ch_0 then strip_zeros t else digits
  | _ => digits
  end.

(** The addition loop, [n] iterations from the last digits on; [li] and
    [ri] are the digits of [left] and [right] not read yet, last digit first. *)
Fixpoint add_digits_loop (n : nat) (li ri : bytes) (carry : Z) (acc : bytes) : bytes :=
  match n with
  | O => acc
  | S n =>
      let sum := carry in
      let '(sum, li) := match li with d :: l => (sum + (d - ch_0), l) | [] => (sum, []) end in
      let '(sum, ri) := match ri with d :: r => (sum + (d - ch_0), r) | [] => (sum, []) end in
      add_digits_loop n li ri (Z.quot sum 10) ((ch_0 + Z.rem sum 10) :: acc)
  end.

(** The subtraction loop, one iteration per digit of [left]. *)
Fixpoint sub_digits_loop (li ri : bytes) (borrow : Z) (acc : bytes) : bytes :=
  match li with
  | [] => acc
  | d :: li =>
      let diff := d - ch_0 - borrow in
      let '(diff, ri) := match ri with r :: rs => (diff - (r - ch_0), rs) | [] => (diff, []) end in
      let '(diff, borrow) := if diff <? 0 then (diff + 10, 1) else (diff, 0) in
      sub_digits_loop li ri borrow ((ch_0 + diff) :: acc)
  end.

(** ** Operations that allocate

    [alloc_ok k n] tells whether the [k]-th allocation of a comparison, of [n]
    bytes, succeeds. *)

Section alloc.
Variable alloc_ok : nat -> Z -> bool.

Definition lql_number_add_digits (k : nat) (left right : bytes) (neg : bool) : option bytes :=
  let max_len := Nat.max (length left) (length right) in
  if negb (alloc_ok k (Z.of_nat max_len + 3)) then None
  else
    let digits := add_digits_loop (S max_len) (rev left) (rev right) 0 [] in
    let digits := strip_zeros digits in
    Some (if neg then ch_minus :: digits else digits).

Definition lql_number_sub_digits (k : nat) (left right : bytes) (neg : bool) : option bytes :=
  if negb (alloc_ok k (Z.of_nat (length left) + 2)) then None
  else
    let digits := sub_digits_loop (rev left) (rev right) 0 [] in
    let digits := strip_zeros digits in
    let neg := if bytes_eqb digits [ch_0] then false else neg in
    Some (if neg then ch_minus :: digits else digits).

Definition lql_number_adjusted_exponent (k : nat) (number : lql_number_decimal) : option bytes :=
  let small := decimal_adjust number in
  let '(small_mag, small_negative) :=
    if small <? 0 then (- (small + 1) + 1, true) else (small, false) in
  let small_digits := lql_number_ulong_text small_mag in
  let '(base_digits, base_negative) :=
    if (length (exponent number) =? 0)%nat then ([ch_0], false)
    else (exponent number, exponent_negative number) in
  let small_digits := if small_mag =? 0 then [ch_0] else small_digits in
  if bytes_eqb base_digits [ch_0] then
    lql_number_add_digits k [ch_0] small_digits small_negative
  else if (small_mag =? 0) || Bool.eqb base_negative small_negative then
    lql_number_add_digits k base_digits small_digits base_negative
  else
    let cmp := lql_number_compare_digits base_digits small_digits in
    if cmp =? 0 then lql_number_sub_digits k [ch_0] [ch_0] false
    else if 0 <? cmp then lql_number_sub_digits k base_digits small_digits base_negative
    else lql_number_sub_digits k small_digits base_digits small_negative.

Definition lql_number_compare_signed_decimal (left right : bytes) : Z :=
  let left_negative := at_ left 0 =? ch_minus in
  let right_negative := at_ right 0 =? ch_minus in
  let left_digits := if left_negative then tail left else left in
  let right_digits := if right_negative then tail right else right in
  if negb (Bool.eqb left_negative right_negative) then (if left_negative then -1 else 1)
  else
    let cmp := lql_number_compare_digits left_digits right_digits in
    if left_negative then - cmp else cmp.

(** The integer digits at the head of [text] and the rest: a lone [0], or a
    run that starts with a nonzero digit. *)
Definition decimal_parse_integer (text : bytes) : option (bytes * bytes) :=
  match text with
  | [] => None
  | d :: t =>
      if d =? ch_0 then
        match t with
        | x :: _ => if is_digit x then None else Some ([d], t)
        | [] => Some ([d], t)
        end
      else if (ch_1 <=? d) && (d <=? ch_9) then Some (span is_digit text)
      else None
  end.

Definition decimal_parse_fraction (text : bytes) : option (bytes * bytes) :=
  match text with
  | c :: t =>
      if c =? ch_dot then
        match t with
        | x :: _ => if is_digit x then Some (span is_digit t) else None
        | [] => None
        end
      else Some ([], text)
  | [] => Some ([], text)
  end.

(** The first-nonzero loop, [fuel] the number of digits left. *)
Fixpoint first_nonzero_loop (out : lql_number_decimal) (fuel first_nonzero : nat) : nat :=
  match fuel with
  | O => first_nonzero
  | S fuel =>
      if lql_number_digit_at out first_nonzero =? ch_0
      then first_nonzero_loop out fuel (S first_nonzero) else first_nonzero
  end.

(** The last-nonzero loop, [fuel] the digits above [first_nonzero]. *)
Fixpoint last_nonzero_loop (out : lql_number_decimal) (fuel last_nonzero : nat) : nat :=
  match fuel with
  | O => last_nonzero
  | S fuel =>
      if lql_number_digit_at out last_nonzero =? ch_0
      then last_nonzero_loop out fuel (last_nonzero - 1) else last_nonzero
  end.

(** The second half of [lql_number_decimal_parse]: the significant digits and
    the decimal adjustment of the scanned parts. *)
Definition decimal_parse_finish (neg : bool) (integer fraction exponent : bytes)
    (exponent_negative : bool) : lql_number_decimal :=
  let out := mk_decimal integer fraction [] 0 0 0 false neg false in
  let total_digits := (length integer + length fraction)%nat in
  let first_nonzero := first_nonzero_loop out total_digits 0 in
  if (first_nonzero =? total_digits)%nat then
    mk_decimal integer fraction [] 0 0 0 false false true
  else
    let last_nonzero :=
      last_nonzero_loop out (total_digits - 1 - first_nonzero) (total_digits - 1) in
    let coeff := (last_nonzero - first_nonzero + 1)%nat in
    let coeff_len := lql_number_size_to_long (Z.of_nat coeff) in
    let fraction_len := lql_number_size_to_long (Z.of_nat (length fraction)) in
    let trailing_zeroes :=
      lql_number_size_to_long (Z.of_nat (total_digits - 1 - last_nonzero)) in
    mk_decimal integer fraction exponent first_nonzero coeff
      (lql_number_clamp_add
         (lql_number_clamp_add coeff_len (- fraction_len)) trailing_zeroes)
      exponent_negative neg false.

Definition lql_number_decimal_parse (text : bytes) : option lql_number_decimal :=
  match text with
  | [] => None
  | c :: t =>
      let '(neg, text) := if c =? ch_minus then (true, t) else (false, text) in
      match decimal_parse_integer text with
      | None => None
      | Some (integer, text) =>
        match decimal_parse_fraction text with
        | None => None
        | Some (fraction, text) =>
          match lql_number_parse_exponent text with
          | Some (exponent_negative, exponent, []) =>
              Some (decimal_parse_finish neg integer fraction exponent exponent_negative)
          | _ => None
          end
        end
      end
  end.

(** The coefficient loop of [lql_number_compare_abs] at index [i], with [n]
    iterations left. *)
Fixpoint compare_coefficients (left right : lql_number_decimal) (n i : nat) : Z :=
  match n with
  | O => 0
  | S n =>
      let a := if (i <? coeff_len left)%nat then lql_number_digit_at left i else ch_0 in
      let b := if (i <? coeff_len right)%nat then lql_number_digit_at right i else ch_0 in
      if a <? b then -1 else if b <? a then 1 else compare_coefficients left right n (S i)
  end.

Definition lql_number_compare_abs (left right : lql_number_decimal) : option Z :=
  match lql_number_adjusted_exponent 0 left, lql_number_adjusted_exponent 1 right with
  | Some left_adjusted, Some right_adjusted =>
      let adjusted_cmp := lql_number_compare_signed_decimal left_adjusted right_adjusted in
      if adjusted_cmp <? 0 then Some (-1)
      else if 0 <? adjusted_cmp then Some 1
      else Some (compare_coefficients left right (Nat.max (coeff_len left) (coeff_len right)) 0)
  | _, _ => None
  end.

(** [lql_number_compare_json] after its fast path has declined. *)
Definition compare_json_decimal (left right : bytes) : option Z :=
  match lql_number_decimal_parse left, lql_number_decimal_parse right with
  | Some a, Some b =>
      if zero a && zero b then Some 0
      else if negb (Bool.eqb (zero a) (zero b)) then
        Some (if zero a then (if negative b then 1 else -1)
              else (if negative a then -1 else 1))
      else if negb (Bool.eqb (negative a) (negative b)) then
        Some (if negative a then -1 else 1)
      else
        match lql_number_compare_abs a b with
        | Some cmp => Some (if negative a then - cmp else cmp)
        | None => None
        end
  | _, _ => None
  end.

(** The stored comparison, or [None] when the C function returns 0. *)
Definition lql_number_compare_json (left right : bytes) : option Z :=
  match lql_number_compare_plain_integer left right with
  | Some cmp => Some cmp
  | None => compare_json_decimal left right
  end.

End alloc.

Definition lql_number_is_json (text : bytes) : bool :=
  match lql_number_decimal_parse text with Some _ => true | None => false end.

(** The accumulation loop of [lql_number_parse_integer]. *)
Fixpoint parse_integer_loop (text : bytes) (limit value : Z) : option Z :=
  match text with
  | [] => Some value
  | c :: t =>
      if (c <? ch_0) || (ch_9 <? c) then None
      else
        let digit := c - ch_0 in
        if (limit - digit) / 10 <? value then None
        else parse_integer_loop t limit ((value * 10 + digit) mod ULONG_MOD)
  end.

(** The value that [lql_number_parse_integer] converts to a double. *)
Definition lql_number_parse_integer (text : bytes) : option Z :=
  match text with
  | [] => None
  | c :: t =>
      let '(neg, text) := if c =? ch_minus then (true, t) else (false, text) in
      match text with
      | [] => None
      | d :: rest =>
          if (d =? ch_0) && negb (length rest =? 0)%nat then None
          else
            let limit := if neg then LONG_MAX + 1 else LONG_MAX in
            match parse_integer_loop text limit 0 with
            | None => None
            | Some value =>
                Some (if neg then (if value =? LONG_MAX + 1 then LONG_MIN else - value)
                      else value)
            end
      end
  end.
