(* ===== verification/NumberSpec.v ===== *)
(** * What a JSON number text means, and decimal digit arithmetic

    The grammar of RFC 8259 numbers with the exact value [m * 10^e] of each
    text, the comparison of such values, and the lemmas that relate the
    digit-string arithmetic of [Number] to integers. *)

From S2P Require Import Prelude.
From S2P Require Import Number.

(** ** Specification *)

Abbreviation all_digits := (Forall (fun c => is_digit c = true)).

(** The value of a digit string, most significant digit first. *)
Fixpoint digits_value_from (acc : Z) (l : bytes) : Z :=
  match l with
  | [] => acc
  | d :: t => digits_value_from (acc * 10 + (d - ch_0)) t
  end.

Definition digits_value (l : bytes) : Z := digits_value_from 0 l.

(** The same value, least significant digit first. *)
Fixpoint digits_value_le (l : bytes) : Z :=
  match l with
  | [] => 0
  | d :: t => (d - ch_0) + 10 * digits_value_le t
  end.

(** A digit string without leading zeros. *)
Definition canonical (l : bytes) : Prop :=
  all_digits l /\ match l with [] => False | [_] => True | d :: _ => d <> ch_0 end.

(** [int = zero / (digit1-9 *DIGIT)] *)
Definition int_text (i : bytes) : Prop := canonical i.

(** [frac = decimal-point 1*DIGIT], optional; [fd] are its digits. *)
Definition frac_text (f fd : bytes) : Prop :=
  (f = [] /\ fd = []) \/ (f = ch_dot :: fd /\ fd <> [] /\ all_digits fd).

(** [exp = e [minus / plus] 1*DIGIT], optional; [v] is its value. *)
Definition exp_text (x : bytes) (v : Z) : Prop :=
  (x = [] /\ v = 0) \/
  exists c s ed, x = c :: s ++ ed /\ (c = ch_e \/ c = ch_E) /\
    ed <> [] /\ all_digits ed /\
    ((s = [] \/ s = [ch_plus]) /\ v = digits_value ed \/
     s = [ch_minus] /\ v = - digits_value ed).

(** [number = [minus] int [frac] [exp]]; the text denotes [m * 10^e]. *)
Definition json_number (text : bytes) (m e : Z) : Prop :=
  exists (neg : bool) i f fd x v,
    text = (if neg then [ch_minus] else []) ++ i ++ f ++ x /\
    int_text i /\ frac_text f fd /\ exp_text x v /\
    m = (if neg then - digits_value (i ++ fd) else digits_value (i ++ fd)) /\
    e = v - Z.of_nat (length fd).

(** The order of [m1 * 10^e1] and [m2 * 10^e2], both scaled to integers. *)
Definition decimal_compare (m1 e1 m2 e2 : Z) : comparison :=
  let e := Z.min e1 e2 in (m1 * 10 ^ (e1 - e)) ?= (m2 * 10 ^ (e2 - e)).

(** [r] is the decimal text of [z], without leading zeros. *)
Definition signed_text (r : bytes) (z : Z) : Prop :=
  exists d, canonical d /\ digits_value d = Z.abs z /\
    r = if z <? 0 then ch_minus :: d else d.

(** ** Digit values *)

Lemma is_digit_spec c : is_digit c = true <-> 48 <= c <= 57.
Proof. unfold is_digit. lia. Qed.

Lemma digits_value_from_eq l a :
  digits_value_from a l = a * 10 ^ Z.of_nat (length l) + digits_value l.
Proof.
  unfold digits_value. revert a.
  induction l as [|d l IH]; intros a; cbn [digits_value_from length]; [lia|].
  rewrite (IH (a * 10 + _)), (IH (0 * 10 + _)), Nat2Z.inj_succ, Z.pow_succ_r by lia. lia.
Qed.

Lemma digits_value_cons d l :
  digits_value (d :: l) = (d - ch_0) * 10 ^ Z.of_nat (length l) + digits_value l.
Proof. unfold digits_value at 1. cbn [digits_value_from]. rewrite digits_value_from_eq. lia. Qed.

Lemma digits_value_app a b :
  digits_value (a ++ b) = digits_value a * 10 ^ Z.of_nat (length b) + digits_value b.
Proof.
  induction a as [|d a IH]; [done|]. cbn [app].
  rewrite !digits_value_cons, IH, length_app, Nat2Z.inj_add, Z.pow_add_r by lia. lia.
Qed.

Lemma digits_value_snoc a d : digits_value (a ++ [d]) = digits_value a * 10 + (d - ch_0).
Proof. rewrite digits_value_app, digits_value_cons. cbn. change (digits_value []) with 0. lia. Qed.

Lemma digits_value_le_rev l : digits_value_le l = digits_value (rev l).
Proof.
  induction l as [|d l IH]; [done|]. cbn [digits_value_le rev].
  rewrite digits_value_snoc, IH. lia.
Qed.

Lemma pow10_pos n : 0 <= n -> 0 < 10 ^ n.
Proof. intros. apply Z.pow_pos_nonneg; lia. Qed.

Lemma digits_value_bounds l :
  all_digits l -> 0 <= digits_value l < 10 ^ Z.of_nat (length l).
Proof.
  induction 1 as [|d l Hd Hl IH]; [by cbn|].
  rewrite digits_value_cons. apply is_digit_spec in Hd.
  cbn [length]. rewrite Nat2Z.inj_succ, Z.pow_succ_r by lia. nia.
Qed.

Lemma digits_value_lower d l :
  all_digits (d :: l) -> d <> ch_0 -> 10 ^ Z.of_nat (length l) <= digits_value (d :: l).
Proof.
  intros H Hd. inversion_clear H as [|?? H1 H2]. apply is_digit_spec in H1.
  apply digits_value_bounds in H2. rewrite digits_value_cons. nia.
Qed.

Lemma all_digits_nonneg l : all_digits l -> 0 <= digits_value l.
Proof. intros H. apply digits_value_bounds in H. lia. Qed.

Lemma memcmp_digits a b :
  all_digits a -> all_digits b -> length a = length b ->
  memcmp a b = sgn_of (digits_value a ?= digits_value b).
Proof.
  intros Ha. revert b. induction Ha as [|x a Hx Ha IH]; intros [|y b] Hb [=]; [done|].
  inversion_clear Hb as [|?? Hy Hb']. cbn [memcmp].
  rewrite !digits_value_cons, H0. pose proof (digits_value_bounds a Ha) as Va.
  pose proof (digits_value_bounds b Hb'). rewrite H0 in Va.
  apply is_digit_spec in Hx, Hy.
  destruct (x <? y) eqn:?; bool_hyps; [|destruct (y <? x) eqn:?; bool_hyps].
  - replace (_ ?= _) with Lt; [done|]. symmetry. apply Z.compare_lt_iff. nia.
  - replace (_ ?= _) with Gt; [done|]. symmetry. apply Z.compare_gt_iff. nia.
  - assert (y = x) as -> by lia. rewrite (IH b Hb' H0).
    f_equal. symmetry. apply Z.add_compare_mono_l.
Qed.

Lemma canonical_digits l : canonical l -> all_digits l.
Proof. by intros [? _]. Qed.

(** A longer canonical string denotes a larger number. *)
Lemma canonical_length_lt a b :
  canonical a -> canonical b -> (length a < length b)%nat -> digits_value a < digits_value b.
Proof.
  intros [Ha Ha'] [Hb Hb'] Hlen. apply digits_value_bounds in Ha.
  destruct b as [|y [|z b]]; [done| |].
  - destruct a; [done|]. cbn in Hlen. lia.
  - pose proof (digits_value_lower y (z :: b) Hb Hb').
    enough (10 ^ Z.of_nat (length a) <= 10 ^ Z.of_nat (length (z :: b))) by lia.
    apply Z.pow_le_mono_r; cbn [length] in *; lia.
Qed.

Lemma compare_digits_canonical a b :
  canonical a -> canonical b ->
  lql_number_compare_digits a b = sgn_of (digits_value a ?= digits_value b).
Proof.
  intros Ha Hb. unfold lql_number_compare_digits.
  destruct (Nat.ltb_spec (length a) (length b)) as [H|H].
  { pose proof (canonical_length_lt a b Ha Hb H). by rewrite (proj2 (Z.compare_lt_iff _ _)). }
  destruct (Nat.ltb_spec (length b) (length a)) as [H'|H'].
  { pose proof (canonical_length_lt b a Hb Ha H'). by rewrite (proj2 (Z.compare_gt_iff _ _)). }
  apply memcmp_digits; eauto using canonical_digits. lia.
Qed.

(** ** Digit-string arithmetic *)

Lemma is_digit_offset d : 0 <= d < 10 -> is_digit (ch_0 + d) = true.
Proof. intros. apply is_digit_spec. lia. Qed.

Lemma digits_value_le_bounds l :
  all_digits l -> 0 <= digits_value_le l < 10 ^ Z.of_nat (length l).
Proof.
  intros H. rewrite digits_value_le_rev. apply Forall_rev in H.
  rewrite <- length_rev. by apply digits_value_bounds.
Qed.

(** One column of a decimal addition or subtraction. *)
Lemma column_mod s q n : 0 <= n ->
  (s + 10 * q) mod 10 ^ (n + 1) = s mod 10 + 10 * ((s / 10 + q) mod 10 ^ n).
Proof.
  intros Hn. rewrite Z.add_1_r, Z.pow_succ_r by lia.
  rewrite Z.rem_mul_r by (try lia; apply pow10_pos; lia).
  replace (s + 10 * q) with (s + q * 10) by lia.
  rewrite Z_mod_plus_full, Z.div_add by lia. done.
Qed.

Lemma add_digits_loop_spec n li ri carry acc :
  all_digits li -> all_digits ri -> 0 <= carry <= 1 ->
  exists X, add_digits_loop n li ri carry acc = X ++ acc /\ length X = n /\ all_digits X /\
    digits_value X =
      (digits_value_le li + digits_value_le ri + carry) mod 10 ^ Z.of_nat n.
Proof.
  revert li ri carry acc. induction n as [|n IH]; intros li ri carry acc Hl Hr Hc.
  { exists []. rewrite Z.mod_1_r. by repeat split. }
  cbn [add_digits_loop].
  set (dl := match li with [] => 0 | d :: _ => d - ch_0 end).
  set (dr := match ri with [] => 0 | d :: _ => d - ch_0 end).
  assert (Hdl : 0 <= dl <= 9 /\ all_digits (tail li) /\
    digits_value_le li = dl + 10 * digits_value_le (tail li)).
  { subst dl. destruct Hl as [|d l Hd Hl']; cbn; [split; [lia|done]|].
    apply is_digit_spec in Hd. split; [lia|done]. }
  assert (Hdr : 0 <= dr <= 9 /\ all_digits (tail ri) /\
    digits_value_le ri = dr + 10 * digits_value_le (tail ri)).
  { subst dr. destruct Hr as [|d l Hd Hr']; cbn; [split; [lia|done]|].
    apply is_digit_spec in Hd. split; [lia|done]. }
  set (s := carry + dl + dr).
  replace (let '(_, _) := match li with [] => _ | d :: l => _ end in _) with
    (add_digits_loop n (tail li) (tail ri) (Z.quot s 10) ((ch_0 + Z.rem s 10) :: acc)).
  2: { subst s dl dr. destruct li, ri; cbn [tail]; rewrite ?Z.add_0_r; done. }
  rewrite Z.quot_div_nonneg, Z.rem_mod_nonneg by lia.
  destruct (IH (tail li) (tail ri) (s / 10) ((ch_0 + s mod 10) :: acc)) as (X & E & Len & HX & V);
    [tauto|tauto|subst s; Z.to_euclidean_division_equations; lia|].
  exists (X ++ [ch_0 + s mod 10]). rewrite E, <- app_assoc. split; [done|].
  pose proof (Z.mod_pos_bound s 10 ltac:(lia)) as Hs.
  split; [rewrite length_app; cbn; lia|].
  split; [apply Forall_app; eauto using is_digit_offset|].
  rewrite digits_value_snoc, V, (proj2 (proj2 Hdl)), (proj2 (proj2 Hdr)).
  replace (Z.of_nat (S n)) with (Z.of_nat n + 1) by lia.
  replace (dl + _ + _ + carry) with
    (s + 10 * (digits_value_le (tail li) + digits_value_le (tail ri))) by (subst s; lia).
  rewrite column_mod by lia. replace (_ + s / 10) with (s / 10 + (digits_value_le (tail li) + digits_value_le (tail ri))) by lia. lia.
Qed.

Lemma sub_digits_loop_spec li ri borrow acc :
  all_digits li -> all_digits ri -> (length ri <= length li)%nat -> 0 <= borrow <= 1 ->
  exists X, sub_digits_loop li ri borrow acc = X ++ acc /\ length X = length li /\
    all_digits X /\
    digits_value X =
      (digits_value_le li - digits_value_le ri - borrow) mod 10 ^ Z.of_nat (length li).
Proof.
  intros Hl. revert ri borrow acc.
  induction Hl as [|d li Hd Hl IH]; intros ri borrow acc Hr Hlen Hb.
  { exists []. rewrite Z.mod_1_r. by repeat split. }
  cbn [sub_digits_loop]. apply is_digit_spec in Hd.
  set (dr := match ri with [] => 0 | d :: _ => d - ch_0 end).
  assert (Hdr : 0 <= dr <= 9 /\ all_digits (tail ri) /\ (length (tail ri) <= length li)%nat /\
    digits_value_le ri = dr + 10 * digits_value_le (tail ri)).
  { subst dr. destruct Hr as [|x l Hx Hr']; cbn in *; [repeat split; lia || done|].
    apply is_digit_spec in Hx. repeat split; lia || done. }
  set (s := d - ch_0 - borrow - dr).
  replace (let '(_, _) := match ri with [] => _ | r :: rs => _ end in _) with
    (sub_digits_loop li (tail ri) (if s <? 0 then 1 else 0) ((ch_0 + s mod 10) :: acc)).
  2: { subst s dr. destruct ri as [|r rs]; cbn [tail]; rewrite ?Z.sub_0_r;
       case_if; bool_hyps; (rewrite ?Z.mod_small by lia; done) ||
       (f_equal; f_equal; f_equal; Z.to_euclidean_division_equations; lia). }
  destruct (IH (tail ri) (if s <? 0 then 1 else 0) ((ch_0 + s mod 10) :: acc))
    as (X & E & Len & HX & V); [tauto|tauto|case_if; lia|].
  exists (X ++ [ch_0 + s mod 10]). rewrite E, <- app_assoc. split; [done|].
  pose proof (Z.mod_pos_bound s 10 ltac:(lia)) as Hs.
  split; [rewrite length_app; cbn; lia|].
  split; [apply Forall_app; eauto using is_digit_offset|].
  rewrite digits_value_snoc, V. destruct Hdr as (? & ? & ? & ->). cbn [digits_value_le length].
  replace (Z.of_nat (S _)) with (Z.of_nat (length li) + 1) by lia.
  replace (_ - borrow) with
    (s + 10 * (digits_value_le li - digits_value_le (tail ri))) by (subst s; lia).
  rewrite column_mod by lia.
  replace (s / 10) with (- (if s <? 0 then 1 else 0)).
  2: { case_if; bool_hyps; Z.to_euclidean_division_equations; lia. }
  replace (_ - (if s <? 0 then 1 else 0)) with (- (if s <? 0 then 1 else 0) + (digits_value_le li - digits_value_le (tail ri))) by lia. lia.
Qed.

Lemma strip_zeros_spec l :
  all_digits l -> l <> [] ->
  canonical (strip_zeros l) /\ digits_value (strip_zeros l) = digits_value l.
Proof.
  induction 1 as [|d l Hd Hl IH]; intros Hne; [done|].
  destruct l as [|x l]; [by repeat constructor|].
  change (strip_zeros (d :: x :: l)) with (if d =? ch_0 then strip_zeros (x :: l) else d :: x :: l).
  destruct (d =? ch_0) eqn:E; bool_hyps.
  - subst d. destruct (IH ltac:(done)) as [Hc Hv]. split; [done|].
    rewrite (digits_value_cons ch_0). lia.
  - split; [|done]. split; [by constructor|done].
Qed.

Lemma canonical_zero l : canonical l -> digits_value l = 0 -> l = [ch_0].
Proof.
  intros [Hd Hc] Hv. destruct l as [|d [|x l]]; [done| |].
  - f_equal. rewrite digits_value_cons in Hv. inversion_clear Hd as [|?? H1 _].
    apply is_digit_spec in H1. cbn in Hv. change (digits_value []) with 0 in Hv. lia.
  - apply digits_value_lower in Hd; [|done].
    pose proof (pow10_pos (Z.of_nat (length (x :: l)))). lia.
Qed.

Lemma compare_signed_decimal_spec a b x y :
  signed_text a x -> signed_text b y ->
  lql_number_compare_signed_decimal a b = sgn_of (x ?= y).
Proof.
  assert (Hhd : forall r z d, canonical d -> r = (if z <? 0 then ch_minus :: d else d) ->
    (at_ r 0 =? ch_minus) = (z <? 0) /\ (if z <? 0 then tail r else r) = d).
  { intros r z d [Hd Hc] ->. destruct (z <? 0); [done|]. split; [|done].
    destruct d as [|c d]; [done|]. inversion_clear Hd as [|?? H1 _].
    apply is_digit_spec in H1. apply Z.eqb_neq. cbn. lia. }
  intros (da & Ca & Va & Ea) (db & Cb & Vb & Eb). unfold lql_number_compare_signed_decimal.
  destruct (Hhd a x da Ca Ea) as [-> ->], (Hhd b y db Cb Eb) as [-> ->].
  rewrite compare_digits_canonical, Va, Vb by done.
  destruct (x <? 0) eqn:Ex, (y <? 0) eqn:Ey; cbn [Bool.eqb negb]; bool_hyps.
  - rewrite !Z.abs_neq, Z.compare_opp, (Z.compare_antisym x y) by lia.
    by destruct (x ?= y).
  - by rewrite (proj2 (Z.compare_lt_iff x y)) by lia.
  - by rewrite (proj2 (Z.compare_gt_iff x y)) by lia.
  - by rewrite !Z.abs_eq by lia.
Qed.

(** ** The adjusted exponent *)

Lemma ulong_text_loop_spec fuel v acc :
  0 <= v < 10 ^ Z.of_nat fuel -> (0 < fuel)%nat ->
  exists X, ulong_text_loop fuel v acc = X ++ acc /\ canonical X /\ digits_value X = v /\
    (length X <= fuel)%nat.
Proof.
  revert v acc. induction fuel as [|fuel IH]; intros v acc Hv Hf; [lia|].
  cbn [ulong_text_loop]. pose proof (Z.mod_pos_bound v 10 ltac:(lia)) as Hm.
  destruct (v / 10 =? 0) eqn:E; bool_hyps.
  - exists [ch_0 + v mod 10]. split; [done|]. split.
    { repeat constructor. by apply is_digit_offset. }
    split; [|cbn; lia]. rewrite digits_value_cons. change (digits_value []) with 0. cbn [length].
    Z.to_euclidean_division_equations; lia.
  - assert (0 <= v / 10) by (apply Z.div_pos; lia).
    rewrite Nat2Z.inj_succ, Z.pow_succ_r in Hv by lia.
    destruct (IH (v / 10) ((ch_0 + v mod 10) :: acc)) as (X & EX & CX & VX & LX).
    { split; [lia|]. apply Z.div_lt_upper_bound; lia. }
    { destruct fuel; [|lia]. cbn in Hv. Z.to_euclidean_division_equations; lia. }
    exists (X ++ [ch_0 + v mod 10]). rewrite EX, <- app_assoc. split; [done|].
    split; [|rewrite digits_value_snoc, VX, length_app; cbn; split;
             [Z.to_euclidean_division_equations; lia|lia]].
    destruct CX as [DX NX]. split; [apply Forall_app; eauto using is_digit_offset|].
    destruct X as [|x [|y X]]; cbn; try done. intros ->.
    cbn in VX. change (digits_value [ch_0]) with 0 in VX. lia.
Qed.

Lemma ulong_text_spec v :
  0 <= v < 10 ^ 20 ->
  canonical (lql_number_ulong_text v) /\ digits_value (lql_number_ulong_text v) = v.
Proof.
  intros Hv. destruct (ulong_text_loop_spec 32 v []) as (X & E & C & V & _); [|lia|].
  { split; [lia|]. transitivity (10 ^ 20); [lia|]. by apply Z.ltb_lt. }
  unfold lql_number_ulong_text. by rewrite E, app_nil_r.
Qed.

Section exponents.
Variable alloc_ok : nat -> Z -> bool.

Lemma add_digits_spec k a b neg r :
  canonical a -> canonical b -> (neg = true -> digits_value a + digits_value b <> 0) ->
  lql_number_add_digits alloc_ok k a b neg = Some r ->
  signed_text r ((if neg then -1 else 1) * (digits_value a + digits_value b)).
Proof.
  intros [Ha _] [Hb _] Hneg. unfold lql_number_add_digits. cbv zeta.
  set (n := S (Nat.max (length a) (length b))).
  case_if; [done|]. intros E'. apply (inj Some) in E' as <-.
  destruct (add_digits_loop_spec n (rev a) (rev b) 0 []) as (X & E & Len & HX & V);
    [by apply Forall_rev| by apply Forall_rev|lia|].
  rewrite E, app_nil_r.
  rewrite !digits_value_le_rev, !rev_involutive, Z.add_0_r in V.
  apply digits_value_bounds in Ha as Ba, Hb as Bb.
  rewrite Z.mod_small in V.
  2: { subst n. split; [lia|].
       rewrite Nat2Z.inj_succ, Z.pow_succ_r by lia.
       pose proof (Z.pow_le_mono_r 10 (Z.of_nat (length a)) (Z.of_nat (Nat.max (length a) (length b)))).
       pose proof (Z.pow_le_mono_r 10 (Z.of_nat (length b)) (Z.of_nat (Nat.max (length a) (length b)))).
       lia. }
  destruct (strip_zeros_spec X HX) as [CX VX]; [destruct X; done|].
  exists (strip_zeros X). rewrite VX, V. split; [done|]. destruct neg.
  - rewrite (proj2 (Z.ltb_lt _ 0)) by lia. split; [lia|done].
  - rewrite (proj2 (Z.ltb_ge _ 0)) by lia. split; [lia|done].
Qed.

Lemma sub_digits_spec k a b neg r :
  canonical a -> canonical b -> (length b <= length a)%nat -> digits_value b <= digits_value a ->
  lql_number_sub_digits alloc_ok k a b neg = Some r ->
  signed_text r ((if neg then -1 else 1) * (digits_value a - digits_value b)).
Proof.
  intros [Ha Na] [Hb _] Hlen Hle. unfold lql_number_sub_digits. cbv zeta.
  case_if; [done|]. intros E'. apply (inj Some) in E' as <-.
  destruct (sub_digits_loop_spec (rev a) (rev b) 0 []) as (X & E & Len & HX & V);
    [by apply Forall_rev| by apply Forall_rev|by rewrite !length_rev|lia|].
  rewrite E, app_nil_r.
  rewrite !digits_value_le_rev, !rev_involutive, Z.sub_0_r, length_rev in V.
  rewrite length_rev in Len.
  apply digits_value_bounds in Ha as Ba, Hb as Bb. rewrite Z.mod_small in V by lia.
  destruct (strip_zeros_spec X HX) as [CX VX]; [destruct X, a; done|].
  exists (strip_zeros X). rewrite VX, V. split; [done|].
  destruct (bytes_eqb (strip_zeros X) [ch_0]) eqn:Ez.
  - apply bytes_eqb_eq in Ez. rewrite Ez in VX. change (digits_value [ch_0]) with 0 in VX.
    replace (digits_value a - digits_value b) with 0 by lia. by destruct neg.
  - assert (digits_value X <> 0).
    { intros H0. rewrite <- VX in H0. apply canonical_zero in H0; [|done].
      rewrite H0 in Ez. done. }
    destruct neg.
    + rewrite (proj2 (Z.ltb_lt _ 0)) by lia. split; [lia|done].
    + rewrite (proj2 (Z.ltb_ge _ 0)) by lia. split; [lia|done].
Qed.

Lemma canonical_length_le a b :
  canonical a -> canonical b -> digits_value b <= digits_value a -> (length b <= length a)%nat.
Proof.
  intros Ha Hb Hle. destruct (Nat.le_gt_cases (length b) (length a)); [done|].
  pose proof (canonical_length_lt a b Ha Hb). lia.
Qed.

(** The exponent field of a parsed number and its value. *)
Definition exponent_ok (n : lql_number_decimal) : Prop :=
  exponent n = [] \/ (canonical (exponent n) /\ digits_value (exponent n) <> 0).

Definition exponent_value (n : lql_number_decimal) : Z :=
  (if exponent_negative n then -1 else 1) * digits_value (exponent n).

Lemma adjusted_exponent_spec k n r :
  exponent_ok n -> LONG_MIN <= decimal_adjust n <= LONG_MAX ->
  lql_number_adjusted_exponent alloc_ok k n = Some r ->
  signed_text r (exponent_value n + decimal_adjust n).
Proof.
  intros Hok Hadj. unfold lql_number_adjusted_exponent, exponent_value.
  set (small := decimal_adjust n) in *.
  assert (Hs : exists smn, (if small <? 0 then (- (small + 1) + 1, true) else (small, false))
    = (Z.abs small, smn) /\ small = (if smn then -1 else 1) * Z.abs small /\
      (smn = true -> small < 0)).
  { destruct (small <? 0) eqn:E; bool_hyps; eexists; (split; [f_equal; lia|]); split; lia || done. }
  destruct Hs as (smn & -> & Hsmall & Hsmn). cbn iota beta.
  destruct (ulong_text_spec (Z.abs small)) as [Cs Vs]; [unfold LONG_MIN, LONG_MAX in *; lia|].
  set (sd := if Z.abs small =? 0 then [ch_0] else lql_number_ulong_text (Z.abs small)).
  assert (Hsd : canonical sd /\ digits_value sd = Z.abs small).
  { subst sd. case_if; [|done]. bool_hyps. split; [by repeat constructor|by rewrite Heqb]. }
  clearbody sd. clear Cs Vs. destruct Hsd as [Cs Vs].
  destruct Hok as [Hnil|[Cb Vb]].
  { rewrite Hnil. cbn [length Nat.eqb]. change (bytes_eqb [ch_0] [ch_0]) with true. cbn iota.
    change (digits_value []) with 0. intros H.
    apply add_digits_spec in H; [|by repeat constructor|done|].
    - change (digits_value [ch_0]) with 0 in H. rewrite Vs in H. destruct smn; rewrite Hsmall;
        destruct (exponent_negative n); eapply eq_rect; try exact H; lia.
    - intros ->. change (digits_value [ch_0]) with 0. lia. }
  destruct (length (exponent n) =? 0)%nat eqn:El.
  { apply Nat.eqb_eq, nil_length_inv in El. rewrite El in Cb. by destruct Cb. }
  cbn iota beta. destruct (bytes_eqb (exponent n) [ch_0]) eqn:Ez.
  { apply bytes_eqb_eq in Ez. rewrite Ez in Vb. done. }
  pose proof (all_digits_nonneg _ (canonical_digits _ Cb)) as Pb.
  set (bn := exponent_negative n). set (b := exponent n) in *.
  destruct ((Z.abs small =? 0) || Bool.eqb bn smn) eqn:Esame.
  { intros H. apply add_digits_spec in H; [|done|done|lia].
    eapply eq_rect; [exact H|]. rewrite Vs.
    apply orb_true_iff in Esame as [E|E]; [bool_hyps; lia|].
    apply eqb_prop in E. rewrite E. destruct smn; lia. }
  apply orb_false_iff in Esame as [Esmall Ebn]. bool_hyps.
  assert (Hopp : exponent_value n + small =
    (if bn then -1 else 1) * (digits_value b - Z.abs small)).
  { unfold exponent_value. fold bn b. destruct bn, smn; try done; lia. }
  fold b in Hopp. unfold exponent_value in Hopp. fold bn b in Hopp. rewrite Hopp.
  rewrite compare_digits_canonical, Vs by done.
  destruct (Z.compare_spec (digits_value b) (Z.abs small)) as [E|E|E]; cbn -[lql_number_sub_digits].
  - intros H. apply sub_digits_spec in H; [|by repeat constructor|by repeat constructor|done|done].
    change (digits_value [ch_0]) with 0 in H. eapply eq_rect; [exact H|].
    destruct bn; lia.
  - intros H. apply sub_digits_spec in H; [|done|done|apply canonical_length_le; [done|done|lia]|lia].
    rewrite Vs in H. eapply eq_rect; [exact H|]. destruct bn, smn; try done; lia.
  - intros H. apply sub_digits_spec in H; [|done|done|apply canonical_length_le; [done|done|lia]|lia].
    rewrite Vs in H. exact H.
Qed.

End exponents.
