(* ===== verification/NumberParse.v ===== *)
(** * The decimal parser meets the JSON number grammar

    [lql_number_decimal_parse] accepts exactly the texts of [json_number], and
    the record it fills represents the text's value: a coefficient without
    leading or trailing zeros and an adjusted exponent. *)

From S2P Require Import Prelude.
From S2P Require Import Number.
From S2P Require Import NumberSpec.

(** ** Specification of the parsed record *)

Definition number_digits (n : lql_number_decimal) : bytes := integer n ++ fraction n.

(** The significant digits of a parsed number. *)
Definition coefficient (n : lql_number_decimal) : bytes :=
  take (coeff_len n) (drop (leading_skip n) (number_digits n)).

(** The record [n] stands for [m * 10^e]: [m = 0], or [|m|] is the coefficient
    with [tz] zeros appended and the decimal point sits [adjusted] digits after
    the coefficient's start. *)
Definition represents (n : lql_number_decimal) (m e : Z) : Prop :=
  (zero n = true -> m = 0) /\
  (zero n = false ->
     m <> 0 /\ (negative n = true <-> m < 0) /\ exponent_ok n /\
     LONG_MIN <= decimal_adjust n <= LONG_MAX /\
     (leading_skip n + coeff_len n <= length (number_digits n))%nat /\
     canonical (coefficient n) /\ coefficient n <> [ch_0] /\
     exists tz, 0 <= tz /\ Z.abs m = digits_value (coefficient n) * 10 ^ tz /\
       exponent_value n + decimal_adjust n = Z.of_nat (coeff_len n) + tz + e).

(** ** The pieces of a number text *)

Definition stops_digits (t : bytes) : Prop :=
  match t with [] => True | c :: _ => is_digit c = false end.

Lemma frac_text_stops f fd x v : frac_text f fd -> exp_text x v -> stops_digits (f ++ x).
Proof.
  intros [[-> ->]|(-> & _)] Hx; cbn; [|done].
  destruct Hx as [[-> _]|(c & s & ed & -> & [-> | ->] & _)]; done.
Qed.

Lemma parse_integer_complete i t :
  int_text i -> stops_digits t -> decimal_parse_integer (i ++ t) = Some (i, t).
Proof.
  intros [Hd Hc] Ht. destruct i as [|d i]; [done|]. cbn [app decimal_parse_integer].
  inversion Hd as [|?? Hd1 Hd2]; subst. destruct (d =? ch_0) eqn:E; bool_hyps.
  - subst d. destruct i as [|x i]; [|done]. cbn. destruct t as [|y t]; [done|].
    cbn in Ht. by rewrite Ht.
  - apply is_digit_spec in Hd1 as ?. rewrite (proj2 (andb_true_iff _ _)) by lia.
    change (d :: i ++ t) with ((d :: i) ++ t). by rewrite span_block.
Qed.

Lemma parse_integer_sound t i r :
  decimal_parse_integer t = Some (i, r) -> t = i ++ r /\ int_text i.
Proof.
  destruct t as [|d t]; [done|]. cbn [decimal_parse_integer].
  destruct (d =? ch_0) eqn:E; bool_hyps.
  - subst d. intros H. assert (i = [ch_0] /\ r = t) as [-> ->].
    { destruct t as [|x t]; [by inv_some|]. destruct (is_digit x); by inv_some. }
    split; [done|]. by repeat constructor.
  - destruct ((ch_1 <=? d) && (d <=? ch_9)) eqn:E'; [|done]. intros H; apply (inj Some) in H.
    split; [by apply span_app in H|]. bool_hyps.
    assert (is_digit d = true) as Hd by (apply is_digit_spec; lia).
    split; [by apply span_forall in H|]. cbn in H. rewrite Hd in H.
    destruct (span is_digit t). inv_some. by destruct l.
Qed.

Lemma parse_fraction_complete f fd x v :
  frac_text f fd -> exp_text x v -> decimal_parse_fraction (f ++ x) = Some (fd, x).
Proof.
  intros Hf Hx.
  assert (Hx' : stops_digits x).
  { by destruct Hx as [[-> _]|(c & s & ed & -> & [-> | ->] & _)]. }
  destruct Hf as [[-> ->]|(-> & Hne & Hd)]; cbn [app].
  - destruct x as [|c x]; [done|]. cbn.
    destruct Hx as [[[=] _]|(c' & s & ed & [= -> ->] & [-> | ->] & _)]; done.
  - cbn. rewrite span_block by done. destruct fd as [|y fd]; [done|]. cbn.
    inversion_clear Hd as [|?? Hy _]. by rewrite Hy.
Qed.

Lemma parse_fraction_sound t fd r :
  decimal_parse_fraction t = Some (fd, r) -> exists f, t = f ++ r /\ frac_text f fd.
Proof.
  destruct t as [|c t]; cbn; [intros [= <- <-]; exists []; split; [done|by left]|].
  destruct (c =? ch_dot) eqn:E; bool_hyps.
  - subst c. destruct t as [|y t]; [done|]. destruct (is_digit y) eqn:Ey; [|done].
    intros H; apply (inj Some) in H. exists (ch_dot :: fd). pose proof (span_app _ _ _ _ H) as ->.
    split; [done|]. right. split; [done|].
    split; [|by apply span_forall in H].
    intros ->. cbn in H. rewrite Ey in H. by destruct (span is_digit t).
  - intros [= <- <-]. exists []. split; [done|by left].
Qed.

Lemma drop_zeros_spec l :
  all_digits l ->
  digits_value (drop_while (fun x => x =? ch_0) l) = digits_value l /\
  (drop_while (fun x => x =? ch_0) l = [] \/
   (canonical (drop_while (fun x => x =? ch_0) l) /\
    digits_value (drop_while (fun x => x =? ch_0) l) <> 0)).
Proof.
  induction 1 as [|d l Hd Hl IH]; [split; [done|by left]|].
  unfold drop_while in *. cbn [span]. destruct (d =? ch_0) eqn:E; bool_hyps.
  - subst d. destruct (span _ l) as [a b] eqn:Es. cbn [snd] in *.
    rewrite (digits_value_cons ch_0). destruct IH as [-> ?]. split; [lia|done].
  - cbn [snd]. split; [done|]. right.
    assert (all_digits (d :: l)) as Hdl by by constructor.
    split; [split; [done|by destruct l]|].
    apply digits_value_lower in Hdl; [|done].
    pose proof (pow10_pos (Z.of_nat (length l))). lia.
Qed.

(** The result of the exponent parser against the grammar. *)
Definition exponent_parsed (v : Z) (neg : bool) (ds : bytes) : Prop :=
  v = (if neg then -1 else 1) * digits_value ds /\
  (ds = [] \/ (canonical ds /\ digits_value ds <> 0)).

Lemma exponent_digits_parsed ed v (neg : bool) :
  all_digits ed -> v = (if neg then - digits_value ed else digits_value ed) ->
  let ds := drop_while (fun x => x =? ch_0) ed in
  exponent_parsed v (if (length ds =? 0)%nat then false else neg) ds.
Proof.
  intros Hd -> ds. destruct (drop_zeros_spec ed Hd) as [Hv Hc]. fold ds in Hv, Hc.
  split; [|done]. rewrite <- Hv. destruct ds as [|d ds'] eqn:E.
  - change (digits_value []) with 0. by destruct neg.
  - rewrite <- E in *. cbn [length Nat.eqb]. subst ds. rewrite E. cbn [length Nat.eqb].
    rewrite <- E. destruct neg; lia.
Qed.

Lemma parse_exponent_complete x v :
  exp_text x v ->
  exists neg ds, lql_number_parse_exponent x = Some (neg, ds, []) /\ exponent_parsed v neg ds.
Proof.
  intros [[-> ->]|(c & s & ed & -> & Hc & Hne & Hd & Hs)].
  { exists false, []. split; [done|]. split; [done|by left]. }
  assert (Hce : (c =? ch_e) || (c =? ch_E) = true) by lia.
  assert (Hspan : span is_digit ed = (ed, [])).
  { rewrite <- (app_nil_r ed) at 1. by apply span_block. }
  destruct ed as [|y ed]; [done|]. inversion Hd as [|?? Hy Hd']; subst.
  apply is_digit_spec in Hy as Hy'.
  assert (Hsign : (y =? ch_plus) || (y =? ch_minus) = false) by lia.
  eexists _, _. split; [|apply exponent_digits_parsed with (ed := y :: ed)
    (neg := bool_decide (s = [ch_minus])); [done|]].
  - unfold lql_number_parse_exponent. rewrite Hce.
    destruct Hs as [[[-> | ->] _]|[-> _]]; cbn [app]; rewrite ?Hsign; cbn -[span];
      rewrite ?Hy, ?Hspan; done.
  - destruct Hs as [[[-> | ->] ->]|[-> ->]]; done.
Qed.

Lemma parse_exponent_sound x neg ds :
  lql_number_parse_exponent x = Some (neg, ds, []) ->
  exists v, exp_text x v /\ exponent_parsed v neg ds.
Proof.
  destruct x as [|c t]; cbn -[span drop_while].
  { intros [= <- <-]. exists 0. split; [by left|]. split; [done|by left]. }
  destruct ((c =? ch_e) || (c =? ch_E)) eqn:Ec; [|done].
  set (sn := match t with [] => _ | _ => _ end). destruct sn as [sneg t'] eqn:Esn.
  destruct t' as [|y t']; [done|]. destruct (is_digit y) eqn:Ey; [|done].
  destruct (span is_digit (y :: t')) as [run rest] eqn:Es. intros H.
  apply (inj Some) in H. apply (inj2 pair) in H as [H ->]. apply (inj2 pair) in H as [<- <-].
  pose proof (span_app _ _ _ _ Es) as Erun. rewrite app_nil_r in Erun.
  pose proof (span_forall _ _ _ _ Es) as Hrun. rewrite <- Erun in *.
  exists (if sneg then - digits_value (y :: t') else digits_value (y :: t')).
  split; [|by apply exponent_digits_parsed].
  right. subst sn.
  assert (Hce : c = ch_e \/ c = ch_E) by lia.
  destruct t as [|s t]; [by inv_some|].
  destruct ((s =? ch_plus) || (s =? ch_minus)) eqn:Esg.
  - apply (inj2 pair) in Esn as [<- ->]. exists c, [s], (y :: t').
    repeat split; try done. destruct (s =? ch_minus) eqn:Em; bool_hyps.
    + subst s. by right.
    + left. split; [right; f_equal; lia|done].
  - apply (inj2 pair) in Esn as [<- Et]. exists c, [], (y :: t'). rewrite Et.
    repeat split; try done. left. split; [by left|done].
Qed.

(** ** The significant digits *)

Abbreviation all_zeros := (Forall (fun c => c = ch_0)).

Lemma digit_at_nth n i :
  lql_number_digit_at n i = nth (leading_skip n + i) (number_digits n) 0.
Proof.
  unfold lql_number_digit_at, number_digits.
  destruct (Nat.ltb_spec (leading_skip n + i) (length (integer n))).
  - by rewrite app_nth1.
  - by rewrite app_nth2 by lia.
Qed.

Lemma zeros_value z : all_zeros z -> digits_value z = 0.
Proof. induction 1 as [|c z -> Hz IH]; [done|]. rewrite digits_value_cons, IH. lia. Qed.

Lemma zeros_take (D : bytes) n :
  (n <= length D)%nat -> (forall j, (j < n)%nat -> nth j D 0 = ch_0) -> all_zeros (take n D).
Proof.
  revert D. induction n as [|n IH]; intros D Hn Hj; [constructor|].
  destruct D as [|d D]; [cbn in Hn; lia|]. cbn [take firstn]. constructor.
  - apply (Hj 0%nat). lia.
  - apply IH; [cbn in Hn; lia|]. intros j Hlt. apply (Hj (S j)). lia.
Qed.

Lemma first_nonzero_spec out fuel k :
  leading_skip out = 0%nat -> (k + fuel = length (number_digits out))%nat ->
  let f := first_nonzero_loop out fuel k in
  (k <= f <= k + fuel)%nat /\
  (forall j, (k <= j < f)%nat -> nth j (number_digits out) 0 = ch_0) /\
  ((f < k + fuel)%nat -> nth f (number_digits out) 0 <> ch_0).
Proof.
  intros Hs. revert k. induction fuel as [|fuel IH]; intros k Hk; cbn -[Nat.add].
  { repeat split; lia. }
  rewrite digit_at_nth, Hs. cbn [Nat.add]. destruct (nth k _ 0 =? ch_0) eqn:E; bool_hyps.
  - destruct (IH (S k)) as (H1 & H2 & H3); [lia|]. split; [lia|]. split.
    + intros j Hj. destruct (decide (j = k)) as [->|]; [done|]. apply H2. lia.
    + intros Hlt. apply H3. lia.
  - split; [lia|]. split; [lia|]. done.
Qed.

Lemma last_nonzero_spec out fuel l :
  leading_skip out = 0%nat -> (fuel <= l)%nat ->
  let r := last_nonzero_loop out fuel l in
  (l - fuel <= r <= l)%nat /\
  (forall j, (r < j <= l)%nat -> nth j (number_digits out) 0 = ch_0) /\
  ((l - fuel < r)%nat -> nth r (number_digits out) 0 <> ch_0).
Proof.
  intros Hs. revert l. induction fuel as [|fuel IH]; intros l Hl; cbn -[Nat.sub].
  { repeat split; lia. }
  rewrite digit_at_nth, Hs. cbn [Nat.add]. destruct (nth l _ 0 =? ch_0) eqn:E; bool_hyps.
  - destruct (IH (l - 1)%nat) as (H1 & H2 & H3); [lia|]. split; [lia|]. split.
    + intros j Hj. destruct (decide (j = l)) as [->|]; [done|]. apply H2. lia.
    + intros Hlt. apply H3. lia.
  - split; [lia|]. split; [lia|]. done.
Qed.

(** A digit string cut around its significant digits. *)
Lemma significant_value (D : bytes) f k :
  (f + k <= length D)%nat ->
  all_zeros (take f D) -> all_zeros (drop (f + k) D) ->
  digits_value D =
    digits_value (take k (drop f D)) * 10 ^ Z.of_nat (length D - (f + k)).
Proof.
  intros Hlen Hf Hk.
  rewrite <- (take_drop f D) at 1. rewrite <- (take_drop k (drop f D)) at 1.
  rewrite drop_drop, !digits_value_app.
  rewrite (zeros_value _ Hf), (zeros_value _ Hk), length_drop. lia.
Qed.

Lemma canonical_take (D : bytes) f k :
  all_digits D -> (f + k <= length D)%nat -> (0 < k)%nat -> nth f D 0 <> ch_0 ->
  canonical (take k (drop f D)) /\ take k (drop f D) <> [ch_0].
Proof.
  intros HD Hlen Hk Hf. pose proof (nth_skipn f D 0 0) as Hn. rewrite Nat.add_0_r in Hn.
  rewrite <- Hn in Hf.
  assert (Hd : all_digits (drop f D)) by by apply Forall_drop.
  destruct (drop f D) as [|d t] eqn:E.
  { apply (f_equal length) in E. rewrite length_drop in E. cbn in E. lia. }
  destruct k as [|k]; [lia|]. cbn [take firstn]. cbn in Hf. split; [split|].
  - inversion_clear Hd. constructor; [done|]. by apply Forall_take.
  - by destruct (firstn k t).
  - by intros [= ->].
Qed.

Lemma size_to_long_id v : v <= LONG_MAX -> lql_number_size_to_long v = v.
Proof. intros. unfold lql_number_size_to_long. case_if; bool_hyps; lia. Qed.

Lemma clamp_add_id a b :
  LONG_MIN <= a + b <= LONG_MAX -> lql_number_clamp_add a b = a + b.
Proof. intros. unfold lql_number_clamp_add. repeat (case_if; bool_hyps; try lia). Qed.

(** ** The parser *)

Lemma decimal_parse_finish_represents (neg : bool) i fd ds eneg v :
  int_text i -> all_digits fd -> exponent_parsed v eneg ds ->
  Z.of_nat (length i + length fd) <= LONG_MAX ->
  represents (decimal_parse_finish neg i fd ds eneg)
    (if neg then - digits_value (i ++ fd) else digits_value (i ++ fd))
    (v - Z.of_nat (length fd)).
Proof.
  intros [Hi Ni] Hfd [Hv Hds] Hmax. unfold decimal_parse_finish. cbv zeta.
  set (out := mk_decimal i fd [] 0 0 0 false neg false).
  assert (HD : all_digits (i ++ fd)) by by apply Forall_app.
  rewrite <- length_app in *. set (D := i ++ fd) in *.
  destruct (first_nonzero_spec out (length D) 0 eq_refl eq_refl) as (F1 & F2 & F3).
  set (f := first_nonzero_loop out (length D) 0) in *.
  change (number_digits out) with D in *. cbn [Nat.add] in F1, F3.
  assert (Zf : all_zeros (take f D)) by (apply zeros_take; [lia|]; intros; apply F2; lia).
  destruct (f =? length D)%nat eqn:Ef; [apply Nat.eqb_eq in Ef|apply Nat.eqb_neq in Ef].
  - split; [|done]. intros _.
    assert (digits_value D = 0) as ->; [|by destruct neg].
    apply zeros_value. by rewrite <- (firstn_all D), <- Ef.
  - destruct (last_nonzero_spec out (length D - 1 - f) (length D - 1) eq_refl) as (L1 & L2 & L3);
      [lia|].
    set (l := last_nonzero_loop out _ _) in *. change (number_digits out) with D in *.
    set (k := (l - f + 1)%nat).
    assert (Zl : all_zeros (drop (f + k) D)).
    { rewrite <- (firstn_all (drop (f + k) D)). apply zeros_take; [done|]. intros j Hj.
      rewrite length_drop in Hj. rewrite nth_skipn. apply L2. subst k. lia. }
    pose proof (significant_value D f k ltac:(subst k; lia) Zf Zl) as HV.
    destruct (canonical_take D f k HD) as [Cc Nc]; [subst k; lia|subst k; lia|apply F3; lia|].
    assert (Hpos : 0 < digits_value (take k (drop f D))).
    { pose proof (all_digits_nonneg _ (canonical_digits _ Cc)).
      destruct (Z.eq_dec (digits_value (take k (drop f D))) 0) as [E|]; [|lia].
      apply canonical_zero in E; done. }
    assert (HVpos : 0 < digits_value D).
    { rewrite HV. pose proof (pow10_pos (Z.of_nat (length D - (f + k)))). nia. }
    assert (length fd <= length D)%nat by (subst D; rewrite length_app; lia).
    split; [done|]. intros _. unfold exponent_ok, coefficient, exponent_value, number_digits.
    cbn [zero negative exponent decimal_adjust leading_skip coeff_len integer fraction
      exponent_negative]. fold D.
    assert (Hadj : lql_number_clamp_add
        (lql_number_clamp_add (lql_number_size_to_long (Z.of_nat k))
           (- lql_number_size_to_long (Z.of_nat (length fd))))
        (lql_number_size_to_long (Z.of_nat (length D - 1 - l)))
      = Z.of_nat k - Z.of_nat (length fd) + Z.of_nat (length D - (f + k))).
    { rewrite !size_to_long_id by (subst k; lia).
      rewrite (clamp_add_id (Z.of_nat k) _), clamp_add_id;
        subst k; unfold LONG_MIN, LONG_MAX in *; lia. }
    rewrite Hadj.
    split; [destruct neg; lia|]. split; [destruct neg; lia|]. split; [done|].
    split; [subst k; unfold LONG_MIN, LONG_MAX in *; lia|].
    split; [subst k; lia|]. split; [done|]. split; [done|].
    exists (Z.of_nat (length D - (f + k))). split; [lia|].
    split; [rewrite <- HV; destruct neg; lia|]. rewrite Hv. lia.
Qed.

Lemma frac_text_digits f fd : frac_text f fd -> all_digits fd.
Proof. by intros [[-> ->]|(_ & _ & ?)]. Qed.

Lemma minus_not_digit i t : int_text i -> exists d t', i ++ t = d :: t' /\ (d =? ch_minus) = false.
Proof.
  intros [Hd Hc]. destruct i as [|d i]; [done|]. exists d, (i ++ t). split; [done|].
  inversion_clear Hd as [|?? H1 _]. apply is_digit_spec in H1. lia.
Qed.

(** Every JSON number is parsed into a record that stands for its value. *)
Lemma decimal_parse_complete text m e :
  json_number text m e ->
  exists n, lql_number_decimal_parse text = Some n /\
    (Z.of_nat (length text) <= LONG_MAX -> represents n m e).
Proof.
  intros (neg & i & f & fd & x & v & -> & Hi & Hf & Hx & -> & ->).
  destruct (parse_exponent_complete x v Hx) as (en & ds & Ex & Px).
  exists (decimal_parse_finish neg i fd ds en). split.
  - assert (Hbody : match decimal_parse_integer (i ++ f ++ x) with
      | None => None
      | Some (i, t) => match decimal_parse_fraction t with
        | None => None
        | Some (fd, t) => match lql_number_parse_exponent t with
          | Some (en, ds, []) => Some (decimal_parse_finish neg i fd ds en)
          | _ => None end end end
      = Some (decimal_parse_finish neg i fd ds en)).
    { rewrite parse_integer_complete by eauto using frac_text_stops.
      by rewrite (parse_fraction_complete f fd x v), Ex. }
    destruct (minus_not_digit i (f ++ x) Hi) as (d & t' & Ed & Hd).
    unfold lql_number_decimal_parse. destruct neg; cbn [app]; [done|].
    rewrite Ed in *. rewrite Hd. done.
  - intros Hlen. apply decimal_parse_finish_represents; eauto using frac_text_digits.
    rewrite !length_app in Hlen. destruct Hf as [[-> ->]|(-> & _)]; cbn in *; lia.
Qed.

(** Nothing but a JSON number is parsed. *)
Lemma decimal_parse_sound text n :
  lql_number_decimal_parse text = Some n -> exists m e, json_number text m e.
Proof.
  destruct text as [|c t]; [done|]. unfold lql_number_decimal_parse.
  set (sn := if c =? ch_minus then _ else _). destruct sn as [neg t'] eqn:Esn.
  destruct (decimal_parse_integer t') as [[i r]|] eqn:Ei; [|done].
  destruct (decimal_parse_fraction r) as [[fd x]|] eqn:Ef; [|done].
  destruct (lql_number_parse_exponent x) as [[[en ds] [|]]|] eqn:Ex; [|done..].
  intros _. apply parse_integer_sound in Ei as [-> Hi].
  apply parse_fraction_sound in Ef as (f & -> & Hf).
  apply parse_exponent_sound in Ex as (v & Hx & _).
  eexists _, _. exists neg, i, f, fd, x, v. split; [|by split_and!].
  subst sn. destruct (c =? ch_minus) eqn:Ec; bool_hyps; simplify_eq; done.
Qed.
