(* ===== verification/NumberProps.v ===== *)
(** * Correctness of the number comparison

    [lql_number_compare_json] orders JSON numbers by their exact values,
    whatever the spelling and the size of the exponents; a failed allocation
    never yields a wrong answer. *)

From S2P Require Import Prelude.
From S2P Require Import Number.
From S2P Require Import NumberSpec.
From S2P Require Import NumberParse.

(** An allocator that never fails. *)
Definition always_ok (k : nat) (n : Z) : bool := true.

(** ** Comparison of absolute values *)

Lemma digit_at_coefficient n i :
  (i < coeff_len n)%nat -> lql_number_digit_at n i = nth i (coefficient n) 0.
Proof.
  intros Hi. rewrite digit_at_nth. unfold coefficient.
  by rewrite nth_firstn, (proj2 (Nat.ltb_lt _ _) Hi), nth_skipn.
Qed.

(** The coefficient padded on the right to [M] digits. *)
Definition padded (M : nat) (c : bytes) : bytes := c ++ repeat ch_0 (M - length c).

Lemma padded_length M c : (length c <= M)%nat -> length (padded M c) = M.
Proof. intros. unfold padded. rewrite length_app, repeat_length. lia. Qed.

Lemma zeros_repeat n : all_zeros (repeat ch_0 n).
Proof. induction n; by constructor. Qed.

Lemma padded_value M c :
  (length c <= M)%nat ->
  digits_value (padded M c) = digits_value c * 10 ^ Z.of_nat (M - length c).
Proof.
  intros. unfold padded. rewrite digits_value_app, repeat_length.
  rewrite (zeros_value (repeat _ _)) by apply zeros_repeat. lia.
Qed.

Lemma padded_digits M c : all_digits c -> all_digits (padded M c).
Proof.
  intros. unfold padded. apply Forall_app. split; [done|].
  eapply List.Forall_impl; [|apply zeros_repeat]. by intros ? ->.
Qed.

Lemma padded_nth M c i :
  (i < M)%nat -> nth i (padded M c) 0 = if (i <? length c)%nat then nth i c 0 else ch_0.
Proof.
  intros. unfold padded. destruct (Nat.ltb_spec i (length c)).
  - by rewrite app_nth1.
  - rewrite app_nth2 by lia. by rewrite nth_repeat_lt by lia.
Qed.

Lemma compare_coefficients_memcmp a b n i M :
  length (coefficient a) = coeff_len a -> length (coefficient b) = coeff_len b ->
  (coeff_len a <= M)%nat -> (coeff_len b <= M)%nat -> (i + n = M)%nat ->
  compare_coefficients a b n i =
    memcmp (drop i (padded M (coefficient a))) (drop i (padded M (coefficient b))).
Proof.
  intros Ha Hb Hla Hlb. revert i. induction n as [|n IH]; intros i HM.
  { rewrite !drop_ge; [done|rewrite padded_length; lia..]. }
  rewrite !(drop_nth (padded M _) i 0) by (rewrite padded_length; lia).
  rewrite !padded_nth by lia. cbn [compare_coefficients memcmp].
  rewrite IH, Ha, Hb by lia.
  repeat match goal with |- context [(i <? coeff_len ?x)%nat] =>
    destruct (Nat.ltb_spec i (coeff_len x)); [rewrite digit_at_coefficient by done|] end; done.
Qed.

Lemma compare_coefficients_spec a b :
  length (coefficient a) = coeff_len a -> length (coefficient b) = coeff_len b ->
  all_digits (coefficient a) -> all_digits (coefficient b) ->
  let M := Nat.max (coeff_len a) (coeff_len b) in
  compare_coefficients a b M 0 =
    sgn_of (digits_value (coefficient a) * 10 ^ Z.of_nat (M - coeff_len a) ?=
            digits_value (coefficient b) * 10 ^ Z.of_nat (M - coeff_len b)).
Proof.
  intros Ha Hb Da Db M. rewrite (compare_coefficients_memcmp _ _ _ _ M) by lia.
  rewrite !drop_0, memcmp_digits by (rewrite ?padded_length; eauto using padded_digits; lia).
  by rewrite !padded_value, Ha, Hb by lia.
Qed.

(** ** The order of scaled values *)

Lemma compare_mul_pos p x y : 0 < p -> (x * p ?= y * p) = (x ?= y).
Proof. intros. rewrite <- Zmult_compare_compat_r by lia. done. Qed.

Lemma decimal_compare_scale m1 e1 m2 e2 e :
  e <= e1 -> e <= e2 ->
  decimal_compare m1 e1 m2 e2 = (m1 * 10 ^ (e1 - e) ?= m2 * 10 ^ (e2 - e)).
Proof.
  intros H1 H2. unfold decimal_compare. set (e' := Z.min e1 e2).
  replace (e1 - e) with ((e1 - e') + (e' - e)) by lia.
  replace (e2 - e) with ((e2 - e') + (e' - e)) by lia.
  rewrite !Z.pow_add_r, !Z.mul_assoc by lia. symmetry. apply compare_mul_pos, pow10_pos. lia.
Qed.

Lemma decimal_compare_neg m1 e1 m2 e2 :
  m1 < 0 -> m2 < 0 ->
  sgn_of (decimal_compare m1 e1 m2 e2) = - sgn_of (decimal_compare (- m1) e1 (- m2) e2).
Proof.
  intros. unfold decimal_compare. rewrite !Z.mul_opp_l, Z.compare_opp.
  rewrite (Z.compare_antisym (m1 * _)). by destruct (_ ?= _).
Qed.

Lemma decimal_compare_signs m1 e1 m2 e2 :
  (m1 < 0 /\ 0 <= m2) \/ (m1 <= 0 /\ 0 < m2) -> decimal_compare m1 e1 m2 e2 = Lt.
Proof.
  intros H. unfold decimal_compare. apply Z.compare_lt_iff.
  pose proof (pow10_pos (e1 - Z.min e1 e2)). pose proof (pow10_pos (e2 - Z.min e1 e2)). nia.
Qed.

Lemma decimal_compare_antisym m1 e1 m2 e2 :
  decimal_compare m2 e2 m1 e1 = CompOpp (decimal_compare m1 e1 m2 e2).
Proof. unfold decimal_compare. rewrite Z.min_comm. apply Z.compare_antisym. Qed.

(** A coefficient [c] of [k] digits with its point [adj] digits after its
    start is below one with a larger [adj]. *)
Lemma adjusted_lt c1 k1 t1 e1 c2 k2 t2 e2 m1 m2 :
  0 < c1 < 10 ^ k1 -> 10 ^ (k2 - 1) <= c2 -> 0 <= k1 -> 0 < k2 -> 0 <= t1 -> 0 <= t2 ->
  m1 = c1 * 10 ^ t1 -> m2 = c2 * 10 ^ t2 -> k1 + t1 + e1 < k2 + t2 + e2 ->
  decimal_compare m1 e1 m2 e2 = Lt.
Proof.
  intros H1 H2 Hk1 Hk2 Ht1 Ht2 -> -> Hlt. unfold decimal_compare. set (e := Z.min e1 e2).
  apply Z.compare_lt_iff. rewrite <- !Z.mul_assoc, <- !Z.pow_add_r by lia.
  set (x := t1 + (e1 - e)). set (y := t2 + (e2 - e)).
  assert (0 <= x) by lia. assert (0 <= y) by lia.
  assert (10 ^ (k1 + x) <= 10 ^ (k2 - 1 + y)) by (apply Z.pow_le_mono_r; lia).
  rewrite !Z.pow_add_r in H3 by lia.
  pose proof (pow10_pos x ltac:(lia)). pose proof (pow10_pos y ltac:(lia)). nia.
Qed.

(** Equal adjustments: the padded coefficients decide. *)
Lemma adjusted_eq c1 k1 t1 e1 c2 k2 t2 e2 m1 m2 M :
  0 <= t1 -> 0 <= t2 -> k1 <= M -> k2 <= M ->
  m1 = c1 * 10 ^ t1 -> m2 = c2 * 10 ^ t2 -> k1 + t1 + e1 = k2 + t2 + e2 ->
  decimal_compare m1 e1 m2 e2 = (c1 * 10 ^ (M - k1) ?= c2 * 10 ^ (M - k2)).
Proof.
  intros Ht1 Ht2 Hk1 Hk2 -> -> Heq.
  set (adj := k1 + t1 + e1) in *.
  set (e := Z.min (Z.min e1 e2) (adj - M)).
  rewrite (decimal_compare_scale _ _ _ _ e) by lia.
  rewrite <- !Z.mul_assoc, <- !Z.pow_add_r by lia.
  replace (t1 + (e1 - e)) with ((M - k1) + (adj - M - e)) by lia.
  replace (t2 + (e2 - e)) with ((M - k2) + (adj - M - e)) by lia.
  rewrite !Z.pow_add_r, !Z.mul_assoc by lia. apply compare_mul_pos, pow10_pos. lia.
Qed.

(** ** Comparing two nonzero numbers *)

Lemma canonical_lower c :
  canonical c -> c <> [ch_0] ->
  10 ^ (Z.of_nat (length c) - 1) <= digits_value c < 10 ^ Z.of_nat (length c) /\
  0 < Z.of_nat (length c).
Proof.
  intros [Hd Hc] Hne. pose proof (digits_value_bounds c Hd).
  destruct c as [|d c]; [done|].
  assert (d <> ch_0) as Hd0 by (destruct c; [congruence|done]).
  pose proof (digits_value_lower d c Hd Hd0). cbn [length] in *.
  replace (Z.of_nat (S (length c)) - 1) with (Z.of_nat (length c)) by lia. lia.
Qed.

Section compare_abs.
Variable alloc_ok : nat -> Z -> bool.

Lemma coefficient_length n :
  (leading_skip n + coeff_len n <= length (number_digits n))%nat ->
  length (coefficient n) = coeff_len n.
Proof. intros. unfold coefficient. rewrite length_take, length_drop. lia. Qed.

Lemma compare_abs_spec a b m1 e1 m2 e2 c :
  represents a m1 e1 -> represents b m2 e2 -> zero a = false -> zero b = false ->
  lql_number_compare_abs alloc_ok a b = Some c ->
  c = sgn_of (decimal_compare (Z.abs m1) e1 (Z.abs m2) e2).
Proof.
  intros [_ Ra] [_ Rb] Za Zb.
  destruct (Ra Za) as (_ & _ & Ea & Ja & La & Ca & Na & t1 & Ht1 & V1 & A1).
  destruct (Rb Zb) as (_ & _ & Eb & Jb & Lb & Cb & Nb & t2 & Ht2 & V2 & A2).
  clear Ra Rb. unfold lql_number_compare_abs.
  destruct (lql_number_adjusted_exponent alloc_ok 0 a) as [ra|] eqn:Xa; [|done].
  destruct (lql_number_adjusted_exponent alloc_ok 1 b) as [rb|] eqn:Xb; [|done].
  apply adjusted_exponent_spec in Xa; [|done..]. apply adjusted_exponent_spec in Xb; [|done..].
  rewrite (compare_signed_decimal_spec _ _ _ _ Xa Xb). clear Xa Xb.
  rewrite A1, A2. clear A1 A2.
  apply coefficient_length in La, Lb.
  destruct (canonical_lower _ Ca Na) as [Ba Pa], (canonical_lower _ Cb Nb) as [Bb Pb].
  rewrite La in Ba, Pa. rewrite Lb in Bb, Pb.
  set (x := Z.of_nat (coeff_len a) + t1 + e1). set (y := Z.of_nat (coeff_len b) + t2 + e2).
  assert (Hpa : 0 < digits_value (coefficient a)).
  { pose proof (pow10_pos (Z.of_nat (coeff_len a) - 1) ltac:(lia)). lia. }
  assert (Hpb : 0 < digits_value (coefficient b)).
  { pose proof (pow10_pos (Z.of_nat (coeff_len b) - 1) ltac:(lia)). lia. }
  destruct (Z.compare_spec x y) as [E|E|E]; cbn; intros [= <-].
  - rewrite compare_coefficients_spec by eauto using canonical_digits.
    f_equal. symmetry. rewrite !Nat2Z.inj_sub by lia.
    apply (adjusted_eq _ _ t1 _ _ _ t2); try done; lia.
  - rewrite (adjusted_lt (digits_value (coefficient a)) (Z.of_nat (coeff_len a)) t1 e1
      (digits_value (coefficient b)) (Z.of_nat (coeff_len b)) t2 e2); try done; lia.
  - rewrite decimal_compare_antisym.
    rewrite (adjusted_lt (digits_value (coefficient b)) (Z.of_nat (coeff_len b)) t2 e2
      (digits_value (coefficient a)) (Z.of_nat (coeff_len a)) t1 e1); try done; lia.
Qed.

Lemma compare_decimal_spec l r m1 e1 m2 e2 c :
  json_number l m1 e1 -> json_number r m2 e2 ->
  Z.of_nat (length l) <= LONG_MAX -> Z.of_nat (length r) <= LONG_MAX ->
  compare_json_decimal alloc_ok l r = Some c ->
  c = sgn_of (decimal_compare m1 e1 m2 e2).
Proof.
  intros Hl Hr Ll Lr. unfold compare_json_decimal.
  destruct (decimal_parse_complete l m1 e1 Hl) as (a & -> & Ra).
  destruct (decimal_parse_complete r m2 e2 Hr) as (b & -> & Rb).
  specialize (Ra Ll). specialize (Rb Lr).
  destruct (zero a) eqn:Za, (zero b) eqn:Zb; cbn [andb Bool.eqb negb].
  - rewrite (proj1 Ra Za), (proj1 Rb Zb). intros [= <-]. unfold decimal_compare.
    by rewrite !Z.mul_0_l.
  - rewrite (proj1 Ra Za). destruct (proj2 Rb Zb) as (H0 & Hn & _). intros [= <-].
    destruct (negative b).
    + rewrite decimal_compare_antisym, decimal_compare_signs by lia. done.
    + rewrite decimal_compare_signs by lia. done.
  - rewrite (proj1 Rb Zb). destruct (proj2 Ra Za) as (H0 & Hn & _). intros [= <-].
    destruct (negative a).
    + rewrite decimal_compare_signs by lia. done.
    + rewrite decimal_compare_antisym, decimal_compare_signs by lia. done.
  - destruct (proj2 Ra Za) as (H0 & Hn & _), (proj2 Rb Zb) as (H0' & Hn' & _).
    destruct (lql_number_compare_abs alloc_ok a b) as [d|] eqn:E.
    + apply (compare_abs_spec a b m1 e1 m2 e2) in E; [|done..]. subst d.
      destruct (negative a) eqn:Na, (negative b) eqn:Nb; cbn [Bool.eqb negb]; intros [= <-].
      * rewrite !Z.abs_neq by lia. symmetry. apply decimal_compare_neg; lia.
      * rewrite decimal_compare_signs by lia. done.
      * rewrite decimal_compare_antisym, decimal_compare_signs by lia. done.
      * by rewrite !Z.abs_eq by lia.
    + destruct (negative a) eqn:Na, (negative b) eqn:Nb; cbn [Bool.eqb negb]; try done;
        intros [= <-].
      * rewrite decimal_compare_signs by lia. done.
      * rewrite decimal_compare_antisym, decimal_compare_signs by lia. done.
Qed.

End compare_abs.

Lemma adjusted_exponent_always_ok k n :
  exists r, lql_number_adjusted_exponent always_ok k n = Some r.
Proof.
  unfold lql_number_adjusted_exponent, lql_number_add_digits, lql_number_sub_digits.
  cbn [negb always_ok].
  destruct (if decimal_adjust n <? 0 then _ else _) as [mag neg].
  destruct (if (length (exponent n) =? 0)%nat then _ else _) as [bd bneg].
  repeat case_if; eauto.
Qed.

Lemma compare_decimal_always_ok l r a b :
  lql_number_decimal_parse l = Some a -> lql_number_decimal_parse r = Some b ->
  exists c, compare_json_decimal always_ok l r = Some c.
Proof.
  intros Ha Hb. unfold compare_json_decimal, lql_number_compare_abs. rewrite Ha, Hb.
  destruct (adjusted_exponent_always_ok 0 a) as [ra ->].
  destruct (adjusted_exponent_always_ok 1 b) as [rb ->].
  repeat case_if; eauto.
Qed.

(** ** Plain integers *)

Lemma plain_integer_sound t ds neg z :
  lql_number_plain_integer t = Some (ds, neg, z) ->
  canonical ds /\ (z = true <-> ds = [ch_0]) /\ (z = true -> neg = false) /\
  json_number t ((if neg then -1 else 1) * digits_value ds) 0.
Proof.
  destruct t as [|c t]; [done|]. unfold lql_number_plain_integer.
  set (sn := if c =? ch_minus then _ else _). destruct sn as [sg t'] eqn:Esn.
  assert (Et : c :: t = (if sg then [ch_minus] else []) ++ t').
  { subst sn. destruct (c =? ch_minus) eqn:Ec; bool_hyps; by simplify_eq. }
  clear Esn sn. rewrite Et. clear Et c t.
  assert (Hjson : forall i (neg : bool), canonical i ->
    json_number ((if neg then [ch_minus] else []) ++ i) ((if neg then -1 else 1) * digits_value i) 0).
  { intros i n Hi. exists n, i, [], [], [], 0. rewrite !app_nil_r.
    repeat (split; [done || (by left) || (by destruct n; lia)|]). done. }
  destruct t' as [|d t']; [done|]. destruct (d =? ch_0) eqn:Ed; bool_hyps.
  - subst d. destruct t'; [|done]. intros [= <- <- <-].
    assert (canonical [ch_0]) as C0 by by repeat constructor.
    split; [done|]. split; [done|]. split; [done|].
    replace (_ * _) with ((if sg then -1 else 1) * digits_value [ch_0]) by by destruct sg.
    by apply Hjson.
  - destruct ((d <? ch_1) || (ch_9 <? d)) eqn:E; [done|].
    destruct (span is_digit (d :: t')) as [run rest] eqn:Es.
    destruct rest; [|done]. intros H. apply (inj Some) in H.
    apply (inj2 pair) in H as [H <-]. apply (inj2 pair) in H as [<- <-].
    pose proof (span_app _ _ _ _ Es) as Erun. rewrite app_nil_r in Erun.
    apply span_forall in Es. rewrite <- Erun in *.
    assert (canonical (d :: t')) as C by (split; [done|by destruct t']).
    split; [done|]. split; [split; [done|congruence]|]. split; [done|]. by apply Hjson.
Qed.

Lemma plain_integer_spec l r c :
  lql_number_compare_plain_integer l r = Some c ->
  exists m1 m2, json_number l m1 0 /\ json_number r m2 0 /\ c = sgn_of (m1 ?= m2).
Proof.
  unfold lql_number_compare_plain_integer.
  destruct (lql_number_plain_integer l) as [[[ld ln] lz]|] eqn:El; [|done].
  destruct (lql_number_plain_integer r) as [[[rd rn] rz]|] eqn:Er; [|done].
  apply plain_integer_sound in El as (Cl & Zl & Nl & Jl).
  apply plain_integer_sound in Er as (Cr & Zr & Nr & Jr).
  intros H. eexists _, _. split; [exact Jl|]. split; [exact Jr|]. clear Jl Jr.
  assert (Pos : forall ds z, canonical ds -> (z = true <-> ds = [ch_0]) ->
    z = false -> 0 < digits_value ds).
  { intros ds z C Z ->. pose proof (all_digits_nonneg _ (canonical_digits _ C)).
    destruct (Z.eq_dec (digits_value ds) 0) as [E|]; [|lia].
    apply canonical_zero in E; [|done]. apply Z in E. done. }
  rewrite compare_digits_canonical in H by done.
  pose proof (Pos _ _ Cl Zl) as Pl. pose proof (Pos _ _ Cr Zr) as Pr. clear Pos.
  destruct lz.
  { rewrite (proj1 Zl eq_refl), (Nl eq_refl) in *. change (digits_value [ch_0]) with 0 in *.
    destruct rz; cbn in H; apply (inj Some) in H as <-.
    - rewrite (proj1 Zr eq_refl). by destruct rn.
    - specialize (Pr eq_refl). destruct rn; symmetry;
        [rewrite (proj2 (Z.compare_gt_iff _ _)) by lia|rewrite (proj2 (Z.compare_lt_iff _ _)) by lia];
        done. }
  destruct rz.
  { rewrite (proj1 Zr eq_refl), (Nr eq_refl) in *. change (digits_value [ch_0]) with 0 in *.
    cbn in H. apply (inj Some) in H as <-. specialize (Pl eq_refl). destruct ln; symmetry;
        [rewrite (proj2 (Z.compare_lt_iff _ _)) by lia|rewrite (proj2 (Z.compare_gt_iff _ _)) by lia];
        done. }
  specialize (Pl eq_refl). specialize (Pr eq_refl). cbn [andb Bool.eqb negb] in H.
  destruct ln, rn; cbn [Bool.eqb negb] in H; apply (inj Some) in H as <-.
  - replace (-1 * digits_value ld) with (- digits_value ld) by lia.
    replace (-1 * digits_value rd) with (- digits_value rd) by lia.
    rewrite Z.compare_opp, (Z.compare_antisym (digits_value ld)). by destruct (_ ?= _).
  - by rewrite (proj2 (Z.compare_lt_iff _ _)) by lia.
  - by rewrite (proj2 (Z.compare_gt_iff _ _)) by lia.
  - by rewrite !Z.mul_1_l.
Qed.

Lemma decimal_compare_integers m1 m2 : decimal_compare m1 0 m2 0 = (m1 ?= m2).
Proof. unfold decimal_compare. cbn. by rewrite !Z.mul_1_r. Qed.

(** The fast path gives what the decimal path gives. *)
Lemma plain_integer_decimal l r c :
  Z.of_nat (length l) <= LONG_MAX -> Z.of_nat (length r) <= LONG_MAX ->
  lql_number_compare_plain_integer l r = Some c ->
  compare_json_decimal always_ok l r = Some c.
Proof.
  intros Ll Lr H. apply plain_integer_spec in H as (m1 & m2 & Hl & Hr & ->).
  destruct (decimal_parse_complete _ _ _ Hl) as (a & Ea & _).
  destruct (decimal_parse_complete _ _ _ Hr) as (b & Eb & _).
  destruct (compare_decimal_always_ok _ _ _ _ Ea Eb) as [c E]. rewrite E. f_equal.
  rewrite (compare_decimal_spec _ _ _ _ _ _ _ _ Hl Hr Ll Lr E).
  by rewrite decimal_compare_integers.
Qed.

Lemma compare_json_spec alloc_ok l r m1 e1 m2 e2 c :
  json_number l m1 e1 -> json_number r m2 e2 ->
  Z.of_nat (length l) <= LONG_MAX -> Z.of_nat (length r) <= LONG_MAX ->
  lql_number_compare_json alloc_ok l r = Some c ->
  c = sgn_of (decimal_compare m1 e1 m2 e2).
Proof.
  intros Hl Hr Ll Lr. unfold lql_number_compare_json.
  destruct (lql_number_compare_plain_integer l r) as [c'|] eqn:E.
  - intros [= <-]. apply plain_integer_decimal in E; [|done..].
    by apply (compare_decimal_spec always_ok l r).
  - by apply compare_decimal_spec.
Qed.

(** ** The integer case of [lql_number_parse_json] *)

Lemma forallb_digits t : forallb is_digit t = true <-> all_digits t.
Proof. by rewrite forallb_forall, List.Forall_forall. Qed.

Lemma parse_integer_loop_spec t limit v :
  0 <= v <= limit -> 9 <= limit < ULONG_MOD ->
  parse_integer_loop t limit v =
    if forallb is_digit t && (digits_value_from v t <=? limit)
    then Some (digits_value_from v t) else None.
Proof.
  revert v. induction t as [|c t IH]; intros v Hv Hl; cbn [parse_integer_loop forallb digits_value_from].
  { by rewrite (proj2 (Z.leb_le v limit)) by lia. }
  destruct (is_digit c) eqn:Ed; cbn [andb].
  2: by replace ((c <? ch_0) || (ch_9 <? c)) with true by (unfold is_digit in Ed; lia).
  apply is_digit_spec in Ed as Hd.
  replace ((c <? ch_0) || (ch_9 <? c)) with false by lia. cbv zeta.
  destruct ((limit - (c - ch_0)) / 10 <? v) eqn:E; bool_hyps.
  - assert (limit < v * 10 + (c - ch_0)) as Hov by (Z.to_euclidean_division_equations; lia).
    destruct (forallb is_digit t) eqn:Ef; [|done]. cbn [andb].
    rewrite (proj2 (Z.leb_gt _ _)); [done|]. rewrite digits_value_from_eq.
    apply forallb_digits in Ef. pose proof (all_digits_nonneg t Ef).
    pose proof (pow10_pos (Z.of_nat (length t)) ltac:(lia)). nia.
  - assert (v * 10 + (c - ch_0) <= limit) by (Z.to_euclidean_division_equations; lia).
    rewrite Z.mod_small by lia. apply IH; lia.
Qed.

Lemma parse_integer_spec t v :
  lql_number_parse_integer t = Some v <->
  exists (neg : bool) i, t = (if neg then [ch_minus] else []) ++ i /\ int_text i /\
    v = (if neg then - digits_value i else digits_value i) /\ LONG_MIN <= v <= LONG_MAX.
Proof.
  assert (Hbody : forall (neg : bool) i,
    match i with
    | [] => None
    | d :: rest =>
        if (d =? ch_0) && negb (length rest =? 0)%nat then None
        else
          match parse_integer_loop i (if neg then LONG_MAX + 1 else LONG_MAX) 0 with
          | None => None
          | Some value =>
              Some (if neg then (if value =? LONG_MAX + 1 then LONG_MIN else - value) else value)
          end
    end = Some v <->
    int_text i /\ v = (if neg then - digits_value i else digits_value i) /\ LONG_MIN <= v <= LONG_MAX).
  { intros neg i. rewrite parse_integer_loop_spec by (destruct neg; unfold LONG_MAX, ULONG_MOD; lia).
    change (digits_value_from 0 i) with (digits_value i).
    destruct i as [|d r]; [split; [done|by intros [[_ []] _]]|].
    set (i := d :: r). destruct ((d =? ch_0) && negb (length r =? 0)%nat) eqn:E0.
    { split; [done|]. intros [[_ Hc] _]. subst i. destruct r; bool_hyps; [done|congruence]. }
    destruct (forallb is_digit i) eqn:Ef; cbn [andb].
    2: { split; [done|]. intros [[Hd _] _]. apply forallb_digits in Hd. congruence. }
    apply forallb_digits in Ef. pose proof (all_digits_nonneg i Ef) as Hp.
    assert (int_text i) as Hi.
    { split; [done|]. subst i. destruct r; [done|]. cbn in E0.
      destruct (d =? ch_0) eqn:?; bool_hyps; [done|congruence]. }
    destruct (digits_value i <=? (if neg then LONG_MAX + 1 else LONG_MAX)) eqn:El; bool_hyps.
    - split.
      + intros H. apply (inj Some) in H. split; [done|]. unfold LONG_MIN, LONG_MAX in *.
        destruct neg; [|lia]. destruct (digits_value i =? _) eqn:Em in H; bool_hyps; lia.
      + intros (_ & -> & _). f_equal. destruct neg; [|done].
        unfold LONG_MIN, LONG_MAX in *. case_if; bool_hyps; lia.
    - split; [done|]. intros (_ & -> & Hb). unfold LONG_MIN, LONG_MAX in *. destruct neg; lia. }
  destruct t as [|c t].
  { split; [done|]. intros (neg & i & E & [_ Hi] & _). destruct neg, i; done. }
  unfold lql_number_parse_integer. destruct (c =? ch_minus) eqn:Ec; bool_hyps.
  - subst c. rewrite (Hbody true t). split.
    + intros (Hi & Hv). by exists true, t.
    + intros ([] & i & E & Hi & Hv); [by simplify_eq/=|].
      destruct (minus_not_digit i [] Hi) as (d & t' & E' & Hd).
      rewrite app_nil_r in E'. rewrite E' in E. simplify_eq/=.
  - rewrite (Hbody false (c :: t)). split.
    + intros (Hi & Hv). by exists false, (c :: t).
    + intros ([] & i & E & Hi & Hv); simplify_eq/=; done.
Qed.

(** ** Theorems *)

(** C26. For two JSON number texts of exact values m1*10^e1 and m2*10^e2,
    [lql_number_compare_json] stores the sign of their comparison: -1, 0 or 1,
    for every spelling and exponent size, when allocation succeeds. *)
Theorem compare_json_correct l r m1 e1 m2 e2 :
  json_number l m1 e1 -> json_number r m2 e2 ->
  Z.of_nat (length l) <= LONG_MAX -> Z.of_nat (length r) <= LONG_MAX ->
  lql_number_compare_json always_ok l r = Some (sgn_of (decimal_compare m1 e1 m2 e2)).
Proof.
  intros Hl Hr Ll Lr.
  assert (exists c, lql_number_compare_json always_ok l r = Some c) as [c E].
  { destruct (decimal_parse_complete l m1 e1 Hl) as (a & Ea & _).
    destruct (decimal_parse_complete r m2 e2 Hr) as (b & Eb & _).
    unfold lql_number_compare_json. destruct (lql_number_compare_plain_integer l r); [eauto|].
    by eapply compare_decimal_always_ok. }
  rewrite E. f_equal. by apply (compare_json_spec always_ok l r).
Qed.

Lemma json_number_12_5 : json_number (bs "12.5") 125 (-1).
Proof. exists false, (bs "12"), (bs ".5"), (bs "5"), [], 0. split_and!; try done; [by repeat constructor|right; by repeat constructor|by left]. Defined.

Lemma json_number_125em1 : json_number (bs "-125E-01") (-125) (-1).
Proof. exists true, (bs "125"), [], [], (bs "E-01"), (-1). split_and!; try done; [by repeat constructor|by left|]. right. exists ch_E, [ch_minus], (bs "01"). split_and!; try done; [by right|by repeat constructor|by right]. Defined.

Lemma compare_json_correct_witness :
  json_number (bs "12.5") 125 (-1) /\ json_number (bs "-125E-01") (-125) (-1) /\
  lql_number_compare_json always_ok (bs "12.5") (bs "-125E-01") = Some 1.
Proof.
  split; [apply json_number_12_5|]. split; [apply json_number_125em1|].
  apply (compare_json_correct (bs "12.5") (bs "-125E-01") 125 (-1) (-125) (-1));
    [apply json_number_12_5|apply json_number_125em1|vm_compute; discriminate|vm_compute; discriminate].
Defined.

(** Whatever allocations fail, a comparison that reports success reports
    the order of the exact values: memory exhaustion never gives a wrong
    answer. *)
Theorem compare_json_oom_sound alloc_ok l r m1 e1 m2 e2 c :
  json_number l m1 e1 -> json_number r m2 e2 ->
  Z.of_nat (length l) <= LONG_MAX -> Z.of_nat (length r) <= LONG_MAX ->
  lql_number_compare_json alloc_ok l r = Some c ->
  c = sgn_of (decimal_compare m1 e1 m2 e2).
Proof. apply compare_json_spec. Qed.

Lemma compare_json_oom_sound_witness :
  lql_number_compare_json (fun k n => n <? 5) (bs "12.5") (bs "-125E-01") = Some 1 /\
  1 = sgn_of (decimal_compare 125 (-1) (-125) (-1)).
Proof.
  split; [vm_compute; reflexivity|].
  apply (compare_json_oom_sound (fun k n => n <? 5) (bs "12.5") (bs "-125E-01") 125 (-1) (-125) (-1) 1);
    [apply json_number_12_5|apply json_number_125em1|vm_compute; discriminate|vm_compute; discriminate|
     vm_compute; reflexivity].
Defined.

(** A comparison with a text that is not a JSON number fails, whatever
    the allocator does. *)
Theorem compare_json_rejects alloc_ok l r c :
  lql_number_compare_json alloc_ok l r = Some c ->
  (exists m e, json_number l m e) /\ (exists m e, json_number r m e).
Proof.
  unfold lql_number_compare_json.
  destruct (lql_number_compare_plain_integer l r) as [c'|] eqn:E.
  - intros _. apply plain_integer_spec in E as (m1 & m2 & ? & ? & _). eauto 6.
  - unfold compare_json_decimal. destruct (lql_number_decimal_parse l) eqn:El; [|done].
    destruct (lql_number_decimal_parse r) eqn:Er; [|done]. intros _.
    eauto using decimal_parse_sound.
Qed.

Lemma compare_json_rejects_witness :
  lql_number_compare_json always_ok (bs "1e2") (bs "100") = Some 0 /\
  ((exists m e, json_number (bs "1e2") m e) /\ (exists m e, json_number (bs "100") m e)).
Proof.
  split; [vm_compute; reflexivity|].
  apply (compare_json_rejects always_ok (bs "1e2") (bs "100") 0). vm_compute. reflexivity.
Defined.

(** [lql_number_is_json] accepts exactly the RFC 8259 number texts. *)
Theorem is_json_iff t :
  lql_number_is_json t = true <-> exists m e, json_number t m e.
Proof.
  unfold lql_number_is_json. split.
  - destruct (lql_number_decimal_parse t) eqn:E; [|done]. intros _.
    eauto using decimal_parse_sound.
  - intros (m & e & H). by destruct (decimal_parse_complete t m e H) as (n & -> & _).
Qed.

(** The plain-integer fast path agrees with the arbitrary-precision path
    wherever it answers. *)
Theorem plain_integer_fast_path l r c :
  Z.of_nat (length l) <= LONG_MAX -> Z.of_nat (length r) <= LONG_MAX ->
  lql_number_compare_plain_integer l r = Some c ->
  compare_json_decimal always_ok l r = Some c.
Proof. apply plain_integer_decimal. Qed.

Lemma plain_integer_fast_path_witness :
  lql_number_compare_plain_integer (bs "-70") (bs "-8") = Some (-1) /\
  compare_json_decimal always_ok (bs "-70") (bs "-8") = Some (-1).
Proof.
  split; [vm_compute; reflexivity|].
  apply (plain_integer_fast_path (bs "-70") (bs "-8") (-1));
    [vm_compute; discriminate|vm_compute; discriminate|vm_compute; reflexivity].
Defined.

(** [lql_number_parse_integer] succeeds exactly on the plain JSON integers
    within [LONG_MIN, LONG_MAX], with their value: its unsigned accumulator
    never wraps. *)
Theorem parse_integer_exact t v :
  lql_number_parse_integer t = Some v <->
  exists (neg : bool) i, t = (if neg then [ch_minus] else []) ++ i /\ int_text i /\
    v = (if neg then - digits_value i else digits_value i) /\ LONG_MIN <= v <= LONG_MAX.
Proof. apply parse_integer_spec. Qed.

(** The decimal text of an [unsigned long] has at most 20 digits, no
    leading zero and the right value: the 32-byte buffers always suffice. *)
Theorem ulong_text_fits v :
  0 <= v < ULONG_MOD ->
  canonical (lql_number_ulong_text v) /\ digits_value (lql_number_ulong_text v) = v /\
  (length (lql_number_ulong_text v) <= 20)%nat.
Proof.
  intros Hv. destruct (ulong_text_spec v) as [C V]; [unfold ULONG_MOD in Hv; lia|].
  split; [done|]. split; [done|].
  destruct (Nat.le_gt_cases (length (lql_number_ulong_text v)) 20) as [|Hlen]; [done|].
  destruct (canonical_lower _ C) as [[Hlo _] _].
  { intros E. rewrite E in Hlen. cbn in Hlen. lia. }
  pose proof (Z.pow_le_mono_r 10 20 (Z.of_nat (length (lql_number_ulong_text v)) - 1)).
  unfold ULONG_MOD in Hv. lia.
Qed.

Lemma ulong_text_fits_witness :
  0 <= 18446744073709551615 < ULONG_MOD /\
  (length (lql_number_ulong_text 18446744073709551615) <= 20)%nat.
Proof.
  split; [vm_compute; split; [discriminate|reflexivity]|].
  apply (ulong_text_fits 18446744073709551615). vm_compute; split; [discriminate|reflexivity].
Defined.
