(* ===== verification/Temporal.v ===== *)
(** * Dates and timestamps (src/lql_temporal.c)

    The civil calendar arithmetic, the two parsers of date and RFC 3339
    literals (the fixed-layout fast path and the general one), the comparison
    and equality of temporal values, and the RFC 3339 formatter.  Character
    pointers into a literal are the suffix of the literal they point at. *)

From S2P Require Import Prelude.
From S2P Require Import Number.

(** Conversion to [unsigned] (32 bits). *)
Definition u32 (x : Z) : Z := x mod 2 ^ 32.

Record lql_temporal := mk_temporal {
  seconds : Z;
  nanoseconds : Z;
  year : Z;
  month : Z;
  day : Z;
  date_only : bool
}.

Definition digit_value (c : Z) : Z :=
  if (ch_0 <=? c) && (c <=? ch_9) then c - ch_0 else -1.

(** [parse_ndigits]: the value of the next [n] digits and the text after. *)
Fixpoint parse_ndigits_loop (n : nat) (q : bytes) (v : Z) : option (Z * bytes) :=
  match n with
  | O => Some (v, q)
  | S n =>
      match q with
      | [] => None
      | c :: q =>
          let digit := digit_value c in
          if digit <? 0 then None else parse_ndigits_loop n q (v * 10 + digit)
      end
  end.

Definition parse_ndigits (p : bytes) (n : nat) : option (Z * bytes) :=
  parse_ndigits_loop n p 0.

Definition parse_2_at (p : bytes) : option Z :=
  let hi := digit_value (at_ p 0) in
  let lo := digit_value (at_ p 1) in
  if (hi <? 0) || (lo <? 0) then None else Some (hi * 10 + lo).

Definition parse_4_at (p : bytes) : option Z :=
  let a := digit_value (at_ p 0) in
  let b := digit_value (at_ p 1) in
  let c := digit_value (at_ p 2) in
  let d := digit_value (at_ p 3) in
  if (a <? 0) || (b <? 0) || (c <? 0) || (d <? 0) then None
  else Some (((a * 10 + b) * 10 + c) * 10 + d).

Definition is_leap (y : Z) : bool :=
  ((Z.rem y 4 =? 0) && negb (Z.rem y 100 =? 0)) || (Z.rem y 400 =? 0).

Definition days : list Z := [31; 28; 31; 30; 31; 30; 31; 31; 30; 31; 30; 31].

Definition valid_ymd (y m d : Z) : bool :=
  if (m <? 1) || (12 <? m) || (d <? 1) then false
  else
    let max_day := nth (Z.to_nat (m - 1)) days 0 in
    let max_day := if (m =? 2) && is_leap y then 29 else max_day in
    d <=? max_day.

Definition days_from_civil (y m d : Z) : Z :=
  let y := if m <=? 2 then y - 1 else y in
  let era := Z.quot (if 0 <=? y then y else y - 399) 400 in
  let yoe := u32 (y - era * 400) in
  let doy := u32 (Z.quot (153 * (m + (if 2 <? m then -3 else 9)) + 2) 5 + d - 1) in
  let doe := u32 (yoe * 365 + yoe / 4 - yoe / 100 + doy) in
  era * 146097 + doe - 719468.

Definition civil_from_days (z : Z) : option (Z * Z * Z) :=
  let z := z + 719468 in
  let era := Z.quot (if 0 <=? z then z else z - 146096) 146097 in
  let doe := u32 (z - era * 146097) in
  let yoe := u32 (doe - doe / 1460 + doe / 36524 - doe / 146096) / 365 in
  let doy := u32 (doe - (365 * yoe + yoe / 4 - yoe / 100)) in
  let mp := u32 (5 * doy + 2) / 153 in
  let d := u32 (doy - u32 (153 * mp + 2) / 5 + 1) in
  let m := u32 (mp + (if mp <? 10 then 3 else u32 (-9))) in
  let y := yoe + era * 400 in
  let y := y + (if m <=? 2 then 1 else 0) in
  if (y <? 0) || (9999 <? y) then None else Some (y, m, d).

(** Days and second of the day of an epoch second, as both users compute it. *)
Definition split_days (seconds : Z) : Z * Z :=
  let days := Z.quot seconds 86400 in
  let rem := Z.rem seconds 86400 in
  if rem <? 0 then (days - 1, rem + 86400) else (days, rem).

Definition temporal_from_seconds (seconds : Z) (date_only : bool) : option lql_temporal :=
  let '(days, _) := split_days seconds in
  match civil_from_days days with
  | None => None
  | Some (y, m, d) =>
      Some (mk_temporal (if date_only then days * 86400 else seconds) 0 y m d date_only)
  end.

(** The fraction loop: digits beyond the ninth are read and ignored. *)
Fixpoint frac_loop (p : bytes) (nanos : Z) (frac_digits : nat) : Z * nat * bytes :=
  match p with
  | [] => (nanos, frac_digits, p)
  | c :: t =>
      let digit := digit_value c in
      if digit <? 0 then (nanos, frac_digits, p)
      else frac_loop t (if (frac_digits <? 9)%nat then nanos * 10 + digit else nanos) (S frac_digits)
  end.

(** [while (frac_digits < 9) { nanos *= 10; ++frac_digits; }] *)
Definition frac_pad (nanos : Z) (frac_digits : nat) : Z :=
  Nat.iter (9 - frac_digits) (fun v => v * 10) nanos.

(** The optional fraction at [p]: [None] for a point without a digit. *)
Definition parse_fraction (p : bytes) : option (Z * bytes) :=
  match p with
  | c :: t =>
      if c =? ch_dot then
        if digit_value (at_ t 0) <? 0 then None
        else
          let '(nanos, frac_digits, p) := frac_loop t 0 0 in
          Some (frac_pad nanos frac_digits, p)
      else Some (0, p)
  | [] => Some (0, p)
  end.

Definition civil_seconds (y mo d h mi s offset : Z) : Z :=
  days_from_civil y mo d * 86400 + (h * 3600 + mi * 60 + s - offset).

(** The zone suffix as [parse_temporal_fast] reads it: its offset in seconds
    and the text after it. *)
Definition fast_zone (p : bytes) (allow_naive_datetime : bool) : option (Z * bytes) :=
  if at_ p 0 =? ch_Z then Some (0, drop 1 p)
  else if (at_ p 0 =? ch_plus) || (at_ p 0 =? ch_minus) then
    let off_sign := if at_ p 0 =? ch_minus then -1 else 1 in
    let p := drop 1 p in
    if (length p <? 5)%nat then None
    else
      match parse_2_at p with
      | None => None
      | Some off_h =>
          if negb (at_ p 2 =? ch_colon) then None
          else
            match parse_2_at (drop 3 p) with
            | None => None
            | Some off_m =>
                if (23 <? off_h) || (59 <? off_m) then None
                else Some (off_sign * (off_h * 3600 + off_m * 60), drop 5 p)
            end
      end
  else if negb allow_naive_datetime then None
  else Some (0, p).

Definition parse_temporal_fast (raw : bytes) (allow_date_only allow_naive_datetime : bool)
    : option lql_temporal :=
  let len := length raw in
  if negb (len =? 10)%nat && (len <? 19)%nat then None
  else
    match parse_4_at raw with
    | None => None
    | Some y =>
      if negb (at_ raw 4 =? ch_minus) then None
      else
        match parse_2_at (drop 5 raw) with
        | None => None
        | Some mo =>
          if negb (at_ raw 7 =? ch_minus) then None
          else
            match parse_2_at (drop 8 raw) with
            | None => None
            | Some d =>
              if negb (valid_ymd y mo d) then None
              else if at_ raw 10 =? 0 then
                if negb allow_date_only then None
                else Some (mk_temporal (days_from_civil y mo d * 86400) 0 y mo d true)
              else if negb (at_ raw 10 =? ch_T) then None
              else
                match parse_2_at (drop 11 raw) with
                | None => None
                | Some h =>
                  if negb (at_ raw 13 =? ch_colon) then None
                  else
                    match parse_2_at (drop 14 raw) with
                    | None => None
                    | Some mi =>
                      if negb (at_ raw 16 =? ch_colon) then None
                      else
                        match parse_2_at (drop 17 raw) with
                        | None => None
                        | Some s =>
                          if (23 <? h) || (59 <? mi) || (59 <? s) then None
                          else
                            match parse_fraction (drop 19 raw) with
                            | None => None
                            | Some (nanos, p) =>
                              match fast_zone p allow_naive_datetime with
                              | None => None
                              | Some (offset, p) =>
                                if negb (at_ p 0 =? 0) then None
                                else Some (mk_temporal (civil_seconds y mo d h mi s offset)
                                             nanos y mo d false)
                              end
                            end
                        end
                    end
                end
            end
        end
    end.

(** [*p++ == c] on the rest of the literal. *)
Definition take_char (c : Z) (p : bytes) : option bytes :=
  match p with x :: t => if x =? c then Some t else None | [] => None end.

(** The zone suffix as the general parser reads it. *)
Definition general_zone (p : bytes) (allow_naive_datetime : bool) : option (Z * bytes) :=
  match p with
  | c :: t =>
      if c =? ch_Z then Some (0, t)
      else if (c =? ch_plus) || (c =? ch_minus) then
        let off_sign := if c =? ch_minus then -1 else 1 in
        '(off_h, p) ← parse_ndigits t 2;
        p ← take_char ch_colon p;
        '(off_m, p) ← parse_ndigits p 2;
        if (23 <? off_h) || (59 <? off_m) then None
        else Some (off_sign * (off_h * 3600 + off_m * 60), p)
      else if negb allow_naive_datetime then None
      else Some (0, p)
  | [] => if negb allow_naive_datetime then None else Some (0, p)
  end.

(** The rest of the general parser after the date [y]-[mo]-[d]. *)
Definition general_after_date (p : bytes) (y mo d : Z)
    (allow_date_only allow_naive_datetime allow_outer_space : bool) : option lql_temporal :=
  let date := mk_temporal (days_from_civil y mo d * 86400) 0 y mo d true in
  let finish p := if at_ p 0 =? 0 then (if negb allow_date_only then None else Some date) else None in
  if negb (at_ p 0 =? 0) && isspace (at_ p 0) then
    if negb allow_outer_space then None
    else finish (drop_while isspace p)
  else if at_ p 0 =? 0 then finish p
  else
    p ← take_char ch_T p;
    '(h, p) ← parse_ndigits p 2;
    p ← take_char ch_colon p;
    '(mi, p) ← parse_ndigits p 2;
    p ← take_char ch_colon p;
    '(s, p) ← parse_ndigits p 2;
    if (23 <? h) || (59 <? mi) || (59 <? s) then None
    else
      '(nanos, p) ← parse_fraction p;
      '(offset, p) ← general_zone p allow_naive_datetime;
      if negb allow_outer_space && isspace (at_ p 0) then None
      else
        let p := drop_while isspace p in
        if negb (at_ p 0 =? 0) then None
        else Some (mk_temporal (civil_seconds y mo d h mi s offset) nanos y mo d false).

(** The general parser, after the fast path has declined. *)
Definition parse_temporal_general (raw : bytes)
    (allow_date_only allow_naive_datetime allow_outer_space : bool) : option lql_temporal :=
  if negb allow_outer_space && isspace (at_ raw 0) then None
  else
    let raw := drop_while isspace raw in
    '(y, p) ← parse_ndigits raw 4;
    p ← take_char ch_minus p;
    '(mo, p) ← parse_ndigits p 2;
    p ← take_char ch_minus p;
    '(d, p) ← parse_ndigits p 2;
    if negb (valid_ymd y mo d) then None
    else general_after_date p y mo d allow_date_only allow_naive_datetime allow_outer_space.

Definition parse_temporal_literal_with_options (raw : bytes)
    (allow_date_only allow_naive_datetime allow_outer_space : bool) : option lql_temporal :=
  match parse_temporal_fast raw allow_date_only allow_naive_datetime with
  | Some out => Some out
  | None => parse_temporal_general raw allow_date_only allow_naive_datetime allow_outer_space
  end.

Definition lql_parse_temporal_literal (raw : bytes) : option lql_temporal :=
  parse_temporal_literal_with_options raw true true true.

Definition lql_parse_temporal_rfc3339_literal (raw : bytes) : option lql_temporal :=
  parse_temporal_literal_with_options raw false false false.

Definition lql_temporal_compare (left right : lql_temporal) : Z :=
  if seconds left <? seconds right then -1
  else if seconds right <? seconds left then 1
  else if nanoseconds left <? nanoseconds right then -1
  else if nanoseconds right <? nanoseconds left then 1
  else 0.

Definition lql_temporal_equal (left right : lql_temporal) : bool :=
  if date_only left || date_only right then
    (year left =? year right) && (month left =? month right) && (day left =? day right)
  else lql_temporal_compare left right =? 0.

(** [printf]'s [%0<w>d] of a nonnegative [int]. *)
Definition printf_0d (w : nat) (v : Z) : bytes :=
  let d := lql_number_ulong_text v in repeat ch_0 (w - length d) ++ d.

(** [while (frac_len > 0 && frac[frac_len - 1] == '0') --frac_len;] *)
Definition strip_trailing_zeros (frac : bytes) : bytes :=
  rev (drop_while (fun c => c =? ch_0) (rev frac)).

Definition format_datetime (y m d h mi s : Z) : bytes :=
  printf_0d 4 y ++ [ch_minus] ++ printf_0d 2 m ++ [ch_minus] ++ printf_0d 2 d ++ [ch_T] ++
  printf_0d 2 h ++ [ch_colon] ++ printf_0d 2 mi ++ [ch_colon] ++ printf_0d 2 s.

(** The text written to [buf], or [None] for the C result 0. *)
Definition lql_temporal_format_rfc3339_nano (value : lql_temporal) (buf_len : Z) : option bytes :=
  if (buf_len <? 31) || date_only value || (nanoseconds value <? 0) ||
     (999999999 <? nanoseconds value) then None
  else
    let '(days, rem) := split_days (seconds value) in
    match civil_from_days days with
    | None => None
    | Some (y, m, d) =>
        let h := Z.quot rem 3600 in
        let rem := Z.rem rem 3600 in
        let mi := Z.quot rem 60 in
        let s := Z.rem rem 60 in
        if nanoseconds value =? 0 then Some (format_datetime y m d h mi s ++ [ch_Z])
        else
          Some (format_datetime y m d h mi s ++ [ch_dot] ++
                strip_trailing_zeros (printf_0d 9 (nanoseconds value)) ++ [ch_Z])
    end.

Definition lql_temporal_from_time_t (value : Z) (date_only : bool) : option lql_temporal :=
  temporal_from_seconds value date_only.

Definition lql_temporal_from_seconds (seconds : Z) (date_only : bool) : option lql_temporal :=
  temporal_from_seconds seconds date_only.
