(* ===== verification/TemporalProps.v ===== *)
(** * The civil calendar of the temporal code

    [days_from_civil] and [civil_from_days] against the Gregorian calendar: the
    arithmetic on 400-year cycles and March-based years, with no wrap-around of
    the unsigned intermediates.  Then the parsers against RFC 3339. *)

From S2P Require Import Prelude.
From S2P Require Import Number.
From S2P Require Import NumberSpec.
From S2P Require Import NumberParse.
From S2P Require Import Temporal.

(** ** Specification *)

(** The day after a valid date of the proleptic Gregorian calendar. *)
Definition next_day (y m d : Z) : Z * Z * Z :=
  if valid_ymd y m (d + 1) then (y, m, d + 1)
  else if m <? 12 then (y, m + 1, 1)
  else (y + 1, 1, 1).

Ltac zdiv := Z.to_euclidean_division_equations; lia.

(** The days before a year since year 1, by the leap years before it. *)
Definition days_before_year (y : Z) : Z := 365 * (y - 1) + (y - 1) / 4 - (y - 1) / 100 + (y - 1) / 400.

(** The days of a year before a month. *)
Definition days_before_month (leap : bool) (m : Z) : Z :=
  nth (Z.to_nat (m - 1)) [0; 31; 59; 90; 120; 151; 181; 212; 243; 273; 304; 334] 0 +
  (if leap && (2 <? m) then 1 else 0).

(** The Gregorian rule. *)
Definition leap_year (y : Z) : bool := (y mod 4 =? 0) && negb (y mod 100 =? 0) || (y mod 400 =? 0).

(** The days from 1970-01-01 to a date. *)
Definition epoch_day (y m d : Z) : Z :=
  days_before_year y - days_before_year 1970 + days_before_month (leap_year y) m + (d - 1).

(** The seconds from 1970-01-01T00:00:00Z to a civil date and time that is [offset]
    seconds ahead of UTC. *)
Definition epoch_seconds (y mo d h mi s offset : Z) : Z :=
  86400 * epoch_day y mo d + 3600 * h + 60 * mi + s - offset.

(** ** The civil calendar *)

(** The day of a March-based year that starts month [mp] (0 is March). *)
Definition month_start (mp : Z) : Z := (153 * mp + 2) / 5.

Definition month_index (m : Z) : Z := if 2 <? m then m - 3 else m + 9.

Lemma u32_id x : 0 <= x < 2 ^ 32 -> u32 x = x.
Proof. apply Z.mod_small. Qed.

Lemma era_floor y k j :
  0 < k -> j = k - 1 -> Z.quot (if 0 <=? y then y else y - j) k = y / k.
Proof. intros ? ->. case_if; bool_hyps; Z.to_euclidean_division_equations; nia. Qed.

(** A March-based year of the 400-year cycle and a day of it: day 365 exists
    in the years whose February has 29 days. *)
Definition cycle_day (yoe doy : Z) : Prop :=
  0 <= yoe <= 399 /\ 0 <= doy <= 365 /\
  (doy = 365 -> (yoe + 1) mod 4 = 0 /\ ((yoe + 1) mod 100 <> 0 \/ (yoe + 1) mod 400 = 0)).

Definition day_of_cycle (yoe doy : Z) : Z := yoe * 365 + yoe / 4 - yoe / 100 + doy.

Definition year_of_cycle (doe : Z) : Z :=
  (doe - doe / 1460 + doe / 36524 - doe / 146096) / 365.

Lemma day_of_cycle_bounds yoe doy : cycle_day yoe doy -> 0 <= day_of_cycle yoe doy < 146097.
Proof. unfold cycle_day, day_of_cycle. intros. zdiv. Qed.

Lemma year_of_day_of_cycle yoe doy :
  cycle_day yoe doy -> year_of_cycle (day_of_cycle yoe doy) = yoe.
Proof. unfold cycle_day, year_of_cycle, day_of_cycle. intros. zdiv. Qed.

Lemma cycle_day_of_doe doe :
  0 <= doe < 146097 ->
  let yoe := year_of_cycle doe in
  cycle_day yoe (doe - (365 * yoe + yoe / 4 - yoe / 100)).
Proof.
  unfold cycle_day, year_of_cycle. intros H. cbv zeta.
  set (yoe := (doe - doe / 1460 + doe / 36524 - doe / 146096) / 365).
  assert (0 <= yoe <= 399) by (subst yoe; zdiv).
  split; [done|].
  assert (0 <= doe - (365 * yoe + yoe / 4 - yoe / 100) <= 365) by (subst yoe; zdiv).
  split; [done|]. intros E. subst yoe. zdiv.
Qed.

Definition month_len (y m : Z) : Z :=
  if (m =? 2) && is_leap y then 29 else nth (Z.to_nat (m - 1)) days 0.

Lemma valid_ymd_spec y m d :
  valid_ymd y m d = true <-> 1 <= m <= 12 /\ 1 <= d <= month_len y m.
Proof.
  unfold valid_ymd, month_len. cbv zeta.
  destruct ((m <? 1) || (12 <? m) || (d <? 1)) eqn:E; [split; [done|lia]|].
  rewrite Z.leb_le. lia.
Qed.

Lemma months m : 1 <= m <= 12 ->
  m = 1 \/ m = 2 \/ m = 3 \/ m = 4 \/ m = 5 \/ m = 6 \/ m = 7 \/ m = 8 \/ m = 9 \/ m = 10 \/
  m = 11 \/ m = 12.
Proof. lia. Qed.

Ltac each_month H := destruct (months _ H) as
  [-> |[-> |[-> |[-> |[-> |[-> |[-> |[-> |[-> |[-> |[-> | ->]]]]]]]]]]].

(** Evaluate the month functions at a literal month. *)
Ltac eval_const f c :=
  let v := eval vm_compute in (f c) in change (f c) with v in *.

Ltac eval_months := repeat match goal with
  | |- context [month_index ?c] => is_ground c; eval_const month_index c
  | |- context [month_start ?c] => is_ground c; eval_const month_start c
  | H : context [month_index ?c] |- _ => is_ground c; eval_const month_index c
  | H : context [month_start ?c] |- _ => is_ground c; eval_const month_start c
  end.

Lemma days_nth m : 1 <= m <= 12 ->
  nth (Z.to_nat (m - 1)) days 0 =
    if m =? 2 then 28
    else if (m =? 4) || (m =? 6) || (m =? 9) || (m =? 11) then 30 else 31.
Proof. intros H. by each_month H. Qed.

Lemma month_len_spec y m : 1 <= m <= 12 ->
  28 <= month_len y m <= 31 /\ (m = 2 -> month_len y m = if is_leap y then 29 else 28) /\
  (m = 4 \/ m = 6 \/ m = 9 \/ m = 11 -> month_len y m = 30) /\
  (m = 2 \/ m = 4 \/ m = 6 \/ m = 9 \/ m = 11 \/ month_len y m = 31).
Proof.
  intros Hm. unfold month_len. rewrite days_nth by done.
  repeat (case_if; try lia); repeat split; intros; try lia.
Qed.

Lemma is_leap_mod y : 0 <= y ->
  is_leap y = ((y mod 4 =? 0) && negb (y mod 100 =? 0)) || (y mod 400 =? 0).
Proof. intros. unfold is_leap. by rewrite !Z.rem_mod_nonneg by lia. Qed.

(** The March-based year of a date. *)
Definition shifted_year (y m : Z) : Z := if m <=? 2 then y - 1 else y.

Lemma date_cycle_day y m d :
  0 <= y -> valid_ymd y m d = true ->
  cycle_day (shifted_year y m mod 400) (month_start (month_index m) + d - 1).
Proof.
  intros Hy [Hm Hd]%valid_ymd_spec. pose proof (month_len_spec y m Hm) as (L1 & L2 & L3 & L4).
  unfold cycle_day. split; [zdiv|].
  assert (Hstart : 0 <= month_start (month_index m) <= 337 /\
    (m = 2 -> month_start (month_index m) = 337) /\
    (m <> 2 -> month_start (month_index m) + month_len y m - 1 < 365)).
  { clear L2. each_month Hm; eval_months; lia. }
  split; [destruct (is_leap y); lia|]. intros Ed.
  assert (m = 2) as -> by lia. specialize (L2 eq_refl).
  rewrite is_leap_mod in L2 by done. unfold shifted_year.
  destruct (_ || _) eqn:E in L2; [|lia]. clear Hd L1 L3 L4 Hstart L2 Ed. cbn. zdiv.
Qed.

Lemma days_from_civil_eq y m d :
  0 <= y -> valid_ymd y m d = true ->
  days_from_civil y m d =
    shifted_year y m / 400 * 146097 +
    day_of_cycle (shifted_year y m mod 400) (month_start (month_index m) + d - 1) - 719468.
Proof.
  intros Hy Hv. pose proof (date_cycle_day y m d Hy Hv) as (H1 & H2 & H3).
  pose proof (day_of_cycle_bounds _ _ (conj H1 (conj H2 H3))) as Hb.
  apply valid_ymd_spec in Hv as [Hm Hd].
  unfold days_from_civil. fold (shifted_year y m). set (y' := shifted_year y m) in *. cbv zeta.
  rewrite (era_floor y' 400) by lia.
  replace (y' - y' / 400 * 400) with (y' mod 400) by zdiv.
  rewrite (u32_id (y' mod 400)) by lia.
  replace (Z.quot (153 * (m + (if 2 <? m then -3 else 9)) + 2) 5) with (month_start (month_index m)).
  2: { unfold month_start, month_index. each_month Hm; done. }
  rewrite (u32_id (month_start _ + _ - 1)) by lia.
  unfold day_of_cycle in *. rewrite u32_id by lia. lia.
Qed.

(** Month and day of a day of the March-based year. *)
Lemma month_of_doy y m d :
  valid_ymd y m d = true ->
  let doy := month_start (month_index m) + d - 1 in
  (5 * doy + 2) / 153 = month_index m /\ doy - month_start (month_index m) + 1 = d.
Proof.
  intros [Hm Hd]%valid_ymd_spec. cbv zeta. split; [|lia].
  pose proof (month_len_spec y m Hm) as (L1 & L2 & L3 & L4).
  assert (1 <= d <= 31 /\ (m = 2 -> d <= 29) /\ (m = 4 \/ m = 6 \/ m = 9 \/ m = 11 -> d <= 30)) as Hd'.
  { destruct (is_leap y); lia. }
  clear Hd L1 L2 L3 L4. each_month Hm; eval_months; zdiv.
Qed.

Lemma civil_from_days_eq yoe doy era :
  cycle_day yoe doy ->
  civil_from_days (era * 146097 + day_of_cycle yoe doy - 719468) =
    let mp := (5 * doy + 2) / 153 in
    let m := if mp <? 10 then mp + 3 else mp - 9 in
    let y := yoe + era * 400 + (if m <=? 2 then 1 else 0) in
    if (y <? 0) || (9999 <? y) then None else Some (y, m, doy - month_start mp + 1).
Proof.
  intros Hc. pose proof (day_of_cycle_bounds _ _ Hc) as Hb.
  pose proof (year_of_day_of_cycle _ _ Hc) as Hy. destruct Hc as (H1 & H2 & _).
  unfold civil_from_days. set (doe := day_of_cycle yoe doy) in *. cbv zeta.
  replace (era * 146097 + doe - 719468 + 719468) with (doe + era * 146097) by lia.
  rewrite (era_floor _ 146097), Z.div_add, (Z.div_small doe) by lia.
  replace (doe + era * 146097 - (0 + era) * 146097) with doe by lia.
  rewrite !(u32_id doe) by lia. rewrite (u32_id (doe - _ + _ - _)) by zdiv.
  change ((doe - doe / 1460 + doe / 36524 - doe / 146096) / 365) with (year_of_cycle doe).
  rewrite Hy.
  replace (doe - (365 * yoe + yoe / 4 - yoe / 100)) with doy by (subst doe; unfold day_of_cycle; lia).
  rewrite (u32_id doy), (u32_id (5 * doy + 2)) by lia.
  set (mp := (5 * doy + 2) / 153). assert (0 <= mp <= 11) as Hmp by (subst mp; zdiv).
  assert (0 <= doy - (153 * mp + 2) / 5 + 1 <= 31) as Hd by (subst mp; zdiv).
  rewrite (u32_id (153 * mp + 2)), (u32_id (doy - _ + 1)) by lia.
  replace (u32 (mp + (if mp <? 10 then 3 else u32 (-9)))) with (if mp <? 10 then mp + 3 else mp - 9).
  - unfold month_start. by rewrite Z.add_0_l.
  - assert (mp = 0 \/ mp = 1 \/ mp = 2 \/ mp = 3 \/ mp = 4 \/ mp = 5 \/ mp = 6 \/ mp = 7 \/
      mp = 8 \/ mp = 9 \/ mp = 10 \/ mp = 11) as E by lia. clearbody mp.
    destruct E as [-> |[-> |[-> |[-> |[-> |[-> |[-> |[-> |[-> |[-> |[-> | ->]]]]]]]]]]]; done.
Qed.

(** The arithmetic on cycles counts the days. *)
Lemma cycles_years y : y / 400 * 146097 + ((y mod 400) * 365 + y mod 400 / 4 - y mod 400 / 100) = days_before_year (y + 1).
Proof. unfold days_before_year. replace (y + 1 - 1) with y by lia. zdiv. Qed.

Lemma year_step y : days_before_year (y + 1) = days_before_year y + 365 + (if leap_year y then 1 else 0).
Proof.
  unfold days_before_year, leap_year. replace (y + 1 - 1) with y by lia.
  destruct (Z.eqb_spec (y mod 4) 0), (Z.eqb_spec (y mod 100) 0), (Z.eqb_spec (y mod 400) 0); cbn [andb orb negb]; zdiv.
Qed.

Lemma month_table leap m : 1 <= m <= 12 -> days_before_month leap m =
  month_start (month_index m) + (if m <=? 2 then -306 else 59 + (if leap then 1 else 0)).
Proof. intros Hm. destruct leap; by each_month Hm. Qed.

Lemma days_from_civil_epoch y m d : 0 <= y -> valid_ymd y m d = true -> days_from_civil y m d = epoch_day y m d.
Proof.
  intros Hy Hv. rewrite days_from_civil_eq by done. apply valid_ymd_spec in Hv as [Hm _].
  pose proof (cycles_years (shifted_year y m)) as Hc. pose proof (year_step y) as Hs.
  unfold epoch_day. rewrite month_table by done. change (days_before_year 1970) with 719162.
  unfold day_of_cycle, shifted_year in *. destruct (m <=? 2); [rewrite Z.sub_add in Hc|]; lia.
Qed.

Lemma civil_seconds_epoch y mo d h mi s offset : 0 <= y -> valid_ymd y mo d = true ->
  civil_seconds y mo d h mi s offset = epoch_seconds y mo d h mi s offset.
Proof. intros Hy Hv. unfold civil_seconds, epoch_seconds. rewrite days_from_civil_epoch by done. lia. Qed.

Lemma civil_days_roundtrip y m d :
  0 <= y <= 9999 -> valid_ymd y m d = true ->
  civil_from_days (days_from_civil y m d) = Some (y, m, d).
Proof.
  intros Hy Hv. rewrite days_from_civil_eq, civil_from_days_eq by (done || lia || by apply date_cycle_day; [lia|]).
  cbv zeta. destruct (month_of_doy y m d Hv) as [-> ->].
  apply valid_ymd_spec in Hv as [Hm _].
  replace (if month_index m <? 10 then month_index m + 3 else month_index m - 9) with m
    by (unfold month_index; each_month Hm; done).
  replace (shifted_year y m mod 400 + shifted_year y m / 400 * 400 + (if m <=? 2 then 1 else 0)) with y.
  - by rewrite (proj2 (orb_false_iff _ _)) by lia.
  - unfold shifted_year. case_if; zdiv.
Qed.

(** Every day of the March-based year lies in its month. *)
Lemma day_in_month doy :
  0 <= doy <= 365 ->
  let mp := (5 * doy + 2) / 153 in
  let m := if mp <? 10 then mp + 3 else mp - 9 in
  let d := doy - month_start mp + 1 in
  1 <= m <= 12 /\ month_index m = mp /\ 1 <= d <= 31 /\
  (m = 2 -> d <= 29 /\ (d = 29 -> doy = 365)) /\
  (m = 4 \/ m = 6 \/ m = 9 \/ m = 11 -> d <= 30).
Proof.
  intros H. cbv zeta. unfold month_index, month_start.
  set (mp := (5 * doy + 2) / 153). assert (0 <= mp <= 11) by (subst mp; zdiv).
  destruct (mp <? 10) eqn:E; bool_hyps.
  - rewrite (proj2 (Z.ltb_lt 2 (mp + 3))) by lia. repeat split; try lia; subst mp; zdiv.
  - rewrite (proj2 (Z.ltb_ge 2 (mp - 9))) by lia. repeat split; try lia; subst mp; zdiv.
Qed.

Lemma civil_from_days_inv z y m d :
  civil_from_days z = Some (y, m, d) ->
  0 <= y <= 9999 /\ valid_ymd y m d = true /\ days_from_civil y m d = z.
Proof.
  set (era := (z + 719468) / 146097). set (doe := (z + 719468) mod 146097).
  assert (0 <= doe < 146097) as Hdoe by (subst doe; zdiv).
  pose proof (cycle_day_of_doe doe Hdoe) as Hc. cbv zeta in Hc.
  set (yoe := year_of_cycle doe) in *. set (doy := doe - (365 * yoe + yoe / 4 - yoe / 100)) in *.
  assert (Ez : z = era * 146097 + day_of_cycle yoe doy - 719468).
  { unfold day_of_cycle. subst doy era doe. zdiv. }
  clearbody era yoe doy. clear doe Hdoe. rewrite Ez. rewrite civil_from_days_eq by done. cbv zeta.
  destruct Hc as (H1 & H2 & H3). destruct (day_in_month doy H2) as (Hm & Hmi & Hd & Hd2 & Hd30).
  set (mp := (5 * doy + 2) / 153) in *. set (m' := if mp <? 10 then mp + 3 else mp - 9) in *.
  set (y' := yoe + era * 400 + (if m' <=? 2 then 1 else 0)).
  destruct ((y' <? 0) || (9999 <? y')) eqn:Ey; [done|].
  intros [= <- <- <-]. assert (0 <= y' <= 9999) as Hy by lia. split; [done|].
  assert (Hsy : shifted_year y' m' = yoe + era * 400)
    by (unfold shifted_year; subst y'; case_if; lia).
  assert (Hv : valid_ymd y' m' (doy - month_start mp + 1) = true).
  { apply valid_ymd_spec. split; [done|]. split; [lia|].
    destruct (month_len_spec y' m' Hm) as (L1 & L2 & L3 & L4). rewrite is_leap_mod in L2 by lia.
    destruct (Z.eq_dec m' 2) as [E2|]; [|destruct L4; lia].
    destruct (Hd2 E2) as [Hd29 H365]. specialize (L2 E2).
    destruct (_ || _) eqn:E in L2; [lia|].
    enough (doy - month_start mp + 1 <> 29) by lia. intros E29. apply H365 in E29.
    destruct (H3 E29) as [Q1 Q2]. subst y'. rewrite E2 in E.
    change (if 2 <=? 2 then 1 else 0) with 1 in E. apply orb_false_iff in E as [E1 E3].
    replace (yoe + era * 400 + 1) with (yoe + 1 + era * 400) in * by lia.
    rewrite Z.mod_add in E3 by lia. bool_hyps.
    assert ((yoe + 1 + era * 400) mod 4 = 0) by zdiv.
    assert ((yoe + 1 + era * 400) mod 100 <> 0) by zdiv. lia.
  }
  split; [done|]. rewrite days_from_civil_eq by (done || lia).
  rewrite Hmi, Hsy, Z.div_add, Z.mod_add, Z.div_small, Z.mod_small by lia.
  replace (month_start mp + (doy - month_start mp + 1) - 1) with doy by lia. lia.
Qed.

Lemma month_start_next m : 1 <= m <= 11 -> m <> 2 -> forall y,
  month_start (month_index (m + 1)) = month_start (month_index m) + month_len y m /\
  shifted_year y (m + 1) = shifted_year y m.
Proof.
  intros Hm H2 y. unfold month_len. rewrite days_nth by lia.
  rewrite (proj2 (Z.eqb_neq m 2)) by done. cbn [andb].
  assert (1 <= m <= 12) as Hm' by lia. each_month Hm'; try lia; done.
Qed.

Lemma next_day_spec y m d :
  0 <= y -> valid_ymd y m d = true ->
  let '(y', m', d') := next_day y m d in
  valid_ymd y' m' d' = true /\ days_from_civil y' m' d' = days_from_civil y m d + 1.
Proof.
  intros Hy Hv. unfold next_day. destruct (valid_ymd y m (d + 1)) eqn:Hn.
  { split; [done|]. rewrite !days_from_civil_eq by done. unfold day_of_cycle. lia. }
  assert (Hlast : d = month_len y m).
  { apply valid_ymd_spec in Hv as [Hm Hd]. destruct (Z.eq_dec d (month_len y m)); [done|].
    assert (valid_ymd y m (d + 1) = true); [|congruence]. apply valid_ymd_spec. lia. }
  pose proof Hv as [Hm Hd]%valid_ymd_spec.
  assert (Hfirst : forall y' m', 1 <= m' <= 12 -> valid_ymd y' m' 1 = true).
  { intros. apply valid_ymd_spec. split; [done|].
    destruct (month_len_spec y' m') as [? _]; [done|]. lia. }
  destruct (m <? 12) eqn:E12; bool_hyps.
  - assert (valid_ymd y (m + 1) 1 = true) by (apply Hfirst; lia). split; [done|].
    rewrite !days_from_civil_eq by done. subst d.
    destruct (Z.eq_dec m 2) as [->|H2].
    + destruct (month_len_spec y 2) as (_ & L & _); [lia|]. rewrite L by done.
      rewrite is_leap_mod by done. change (2 + 1) with 3. eval_months.
      change (shifted_year y 3) with y. change (shifted_year y 2) with (y - 1).
      unfold day_of_cycle. destruct (_ || _) eqn:El; zdiv.
    + destruct (month_start_next m ltac:(lia) H2 y) as [-> ->]. unfold day_of_cycle. lia.
  - assert (m = 12) as -> by lia. split; [by apply Hfirst|].
    rewrite !days_from_civil_eq by (done || lia || by apply Hfirst). subst d.
    change (shifted_year (y + 1) 1) with (y + 1 - 1). change (shifted_year y 12) with y.
    replace (y + 1 - 1) with y by lia. change (month_len y 12) with 31. eval_months.
    unfold day_of_cycle. lia.
Qed.

(** ** Correctness of the timestamp parsers and formatter

    The grammar of RFC 3339 timestamps with the instant each denotes, the
    agreement of the two parsers, the parser against the grammar, and the
    round trip through the formatter. *)

(** *** Reading fields *)

Lemma digit_value_digit c : is_digit c = true -> digit_value c = c - ch_0.
Proof. intros H. unfold digit_value. fold (is_digit c). by rewrite H. Qed.

Lemma digit_value_neg c : (digit_value c <? 0) = negb (is_digit c).
Proof. unfold digit_value, is_digit. case_if; bool_hyps; lia. Qed.

Lemma parse_ndigits_loop_spec n p acc v rest :
  parse_ndigits_loop n p acc = Some (v, rest) <->
  exists X, p = X ++ rest /\ length X = n /\ all_digits X /\ v = digits_value_from acc X.
Proof.
  revert p acc. induction n as [|n IH]; intros p acc; cbn [parse_ndigits_loop].
  - split; [intros [= <- <-]; by exists []|]. intros (X & -> & HX & _ & ->). by destruct X.
  - destruct p as [|c p].
    { split; [done|]. intros (X & E & HX & _). by destruct X. }
    cbv zeta. rewrite digit_value_neg. destruct (is_digit c) eqn:Ec; cbn [negb].
    + rewrite digit_value_digit, IH by done. split.
      * intros (X & -> & HX & HD & ->). exists (c :: X). cbn. split_and!; [done|lia|by constructor|done].
      * intros ([|x X] & E & HX & HD & ->); [done|]. inversion_clear HD. simplify_eq/=.
        exists X. split_and!; done.
    + split; [done|]. intros ([|x X] & E & HX & HD & ->); [done|].
      inversion_clear HD. simplify_eq/=. congruence.
Qed.

Lemma parse_ndigits_spec p n v rest :
  parse_ndigits p n = Some (v, rest) <->
  exists X, p = X ++ rest /\ length X = n /\ all_digits X /\ v = digits_value X.
Proof. apply parse_ndigits_loop_spec. Qed.

Lemma parse_ndigits_app X rest n :
  all_digits X -> length X = n -> parse_ndigits (X ++ rest) n = Some (digits_value X, rest).
Proof. intros. apply parse_ndigits_spec. eauto. Qed.

Lemma take_char_spec c p t : take_char c p = Some t <-> p = c :: t.
Proof.
  destruct p as [|x p]; cbn; [done|]. case_if; bool_hyps; split; intros; simplify_eq; done.
Qed.

Lemma take_char_at c p n : at_ p n = c -> c <> 0 -> take_char c (drop n p) = Some (drop (S n) p).
Proof.
  intros H Hc. apply take_char_spec. unfold at_ in H.
  destruct (Nat.lt_ge_cases n (length p)) as [Hl|Hl].
  - rewrite <- H. by apply drop_nth.
  - rewrite nth_overflow in H by done. congruence.
Qed.

Lemma at_drop p n k : at_ (drop n p) k = at_ p (n + k).
Proof. apply nth_skipn. Qed.

Lemma at_digit p : is_digit (at_ p 0) = true -> exists t, p = at_ p 0 :: t.
Proof. destruct p; cbn; [done|eauto]. Qed.

Lemma parse_2_at_ndigits p v : parse_2_at p = Some v -> parse_ndigits p 2 = Some (v, drop 2 p).
Proof.
  unfold parse_2_at. cbv zeta. rewrite !digit_value_neg.
  destruct (is_digit (at_ p 0)) eqn:E0, (is_digit (at_ p 1)) eqn:E1; try done. cbn [negb orb].
  rewrite !digit_value_digit by done. intros [= <-].
  destruct p as [|a [|b p]]; try done. unfold at_ in *. cbn [nth] in *.
  apply parse_ndigits_spec. exists [a; b]. split_and!; [done|done|by repeat constructor|].
  cbn. lia.
Qed.

Lemma parse_4_at_ndigits p v : parse_4_at p = Some v -> parse_ndigits p 4 = Some (v, drop 4 p).
Proof.
  unfold parse_4_at. cbv zeta. rewrite !digit_value_neg.
  destruct (is_digit (at_ p 0)) eqn:E0, (is_digit (at_ p 1)) eqn:E1,
    (is_digit (at_ p 2)) eqn:E2, (is_digit (at_ p 3)) eqn:E3; try done. cbn [negb orb].
  rewrite !digit_value_digit by done. intros [= <-].
  destruct p as [|a [|b [|c [|d p]]]]; try done. unfold at_ in *. cbn [nth] in *.
  apply parse_ndigits_spec. exists [a; b; c; d]. split_and!; [done|done|by repeat constructor|].
  cbn. lia.
Qed.

(** *** The two parsers agree *)

Lemma fast_zone_general p naive o p' :
  fast_zone p naive = Some (o, p') -> general_zone p naive = Some (o, p').
Proof.
  unfold fast_zone, general_zone. destruct p as [|c t]; [by cbn; destruct naive|].
  unfold at_. cbn [nth]. change (drop 1 (c :: t)) with t.
  destruct (c =? ch_Z) eqn:EZ; [done|].
  destruct ((c =? ch_plus) || (c =? ch_minus)) eqn:Es; [|done].
  destruct (length t <? 5)%nat; [done|].
  destruct (parse_2_at t) as [oh|] eqn:Eh; [|done].
  destruct (negb (nth 2 t 0 =? ch_colon)) eqn:Ec; [done|]. apply negb_false_iff, Z.eqb_eq in Ec.
  destruct (parse_2_at (drop 3 t)) as [om|] eqn:Em; [|done].
  apply parse_2_at_ndigits in Eh, Em. rewrite drop_drop in Em.
  rewrite Eh. cbn [mbind option_bind].
  rewrite (take_char_at ch_colon t 2) by done. cbn [mbind option_bind].
  rewrite Em. cbn [mbind option_bind]. done.
Qed.

Lemma drop_while_stopped (p : bytes) : isspace (at_ p 0) = false -> drop_while isspace p = p.
Proof. destruct p as [|c p]; [done|]. unfold drop_while, at_. cbn. by intros ->. Qed.

Lemma digit_not_space c : is_digit c = true -> isspace c = false.
Proof. rewrite is_digit_spec. unfold isspace. lia. Qed.

Lemma parse_ndigits_first p n v rest :
  parse_ndigits p n = Some (v, rest) -> (0 < n)%nat -> is_digit (at_ p 0) = true.
Proof.
  intros (X & -> & <- & HD & _)%parse_ndigits_spec Hn. destruct HD; [cbn in Hn; lia|done].
Qed.

(** Reading a field by position is reading it from the suffix. *)
Ltac field2 E := apply parse_2_at_ndigits in E; rewrite ?drop_drop in E; cbn [Nat.add] in E.
Ltac field_char H n :=
  apply negb_false_iff, Z.eqb_eq in H;
  eapply (take_char_at _ _ n) in H; [|done].

Lemma fast_general raw date naive space t :
  parse_temporal_fast raw date naive = Some t ->
  parse_temporal_general raw date naive space = Some t.
Proof.
  unfold parse_temporal_fast. destruct (_ && _); [done|].
  destruct (parse_4_at raw) as [y|] eqn:Ey; [|done]. apply parse_4_at_ndigits in Ey.
  destruct (negb (at_ raw 4 =? _)) eqn:E4; [done|]. field_char E4 4%nat.
  destruct (parse_2_at (drop 5 raw)) as [mo|] eqn:Emo; [|done]. field2 Emo.
  destruct (negb (at_ raw 7 =? _)) eqn:E7; [done|]. field_char E7 7%nat.
  destruct (parse_2_at (drop 8 raw)) as [d|] eqn:Ed; [|done]. field2 Ed.
  destruct (negb (valid_ymd y mo d)) eqn:Ev; [done|]. intros H.
  unfold parse_temporal_general.
  pose proof (digit_not_space _ (parse_ndigits_first _ _ _ _ Ey ltac:(lia))) as Hsp.
  rewrite Hsp, andb_false_r, drop_while_stopped, Ey by done. cbn [mbind option_bind].
  rewrite E4. cbn [mbind option_bind]. rewrite Emo. cbn [mbind option_bind].
  rewrite E7. cbn [mbind option_bind]. rewrite Ed. cbn [mbind option_bind]. rewrite Ev.
  clear Ey E4 Emo E7 Ed Ev Hsp. unfold general_after_date. cbv zeta.
  rewrite !at_drop. cbn [Nat.add].
  destruct (at_ raw 10 =? 0) eqn:E10.
  { cbn [negb andb]. by rewrite H. }
  destruct (negb (at_ raw 10 =? ch_T)) eqn:ET; [done|].
  pose proof ET as ET'. apply negb_false_iff, Z.eqb_eq in ET'. rewrite ET' in E10 |- *. cbn [negb andb].
  change (isspace ch_T) with false. cbn iota. field_char ET 10%nat.
  rewrite ET. cbn [mbind option_bind].
  destruct (parse_2_at (drop 11 raw)) as [h|] eqn:Eh; [|done]. field2 Eh.
  destruct (negb (at_ raw 13 =? _)) eqn:E13; [done|]. field_char E13 13%nat.
  destruct (parse_2_at (drop 14 raw)) as [mi|] eqn:Emi; [|done]. field2 Emi.
  destruct (negb (at_ raw 16 =? _)) eqn:E16; [done|]. field_char E16 16%nat.
  destruct (parse_2_at (drop 17 raw)) as [s|] eqn:Es; [|done]. field2 Es.
  rewrite Eh. cbn [mbind option_bind]. rewrite E13. cbn [mbind option_bind].
  rewrite Emi. cbn [mbind option_bind]. rewrite E16. cbn [mbind option_bind].
  rewrite Es. cbn [mbind option_bind].
  destruct ((23 <? h) || (59 <? mi) || (59 <? s)); [done|].
  destruct (parse_fraction (drop 19 raw)) as [[nanos p]|]; [|done]. cbn [mbind option_bind].
  destruct (fast_zone p naive) as [[o p']|] eqn:Ez; [|done].
  apply fast_zone_general in Ez. rewrite Ez. cbn [mbind option_bind].
  destruct (negb (at_ p' 0 =? 0)) eqn:E0; [done|].
  pose proof E0 as E0'. apply negb_false_iff, Z.eqb_eq in E0'.
  rewrite E0'. change (isspace 0) with false. rewrite andb_false_r.
  rewrite drop_while_stopped by (by rewrite E0'). by rewrite E0.
Qed.

(** *** The grammar of RFC 3339 timestamps *)

(** A field of exactly [n] digits and its value. *)
Definition field (n : nat) (X : bytes) (v : Z) : Prop :=
  length X = n /\ all_digits X /\ v = digits_value X.

(** [time-secfrac]: absent, or a point and digits; the value is in nanoseconds,
    digits beyond the ninth being dropped. *)
Definition secfrac (F : bytes) (ns : Z) : Prop :=
  (F = [] /\ ns = 0) \/
  exists X, F = ch_dot :: X /\ X <> [] /\ all_digits X /\
    ns = digits_value (take 9 (X ++ repeat ch_0 9)).

(** [time-offset]: [Z], or a sign and [hh:mm]; the value is in seconds. *)
Definition time_offset (O : bytes) (o : Z) : Prop :=
  (O = [ch_Z] /\ o = 0) \/
  exists sign H M h m, (sign = ch_plus \/ sign = ch_minus) /\
    O = sign :: H ++ ch_colon :: M /\ field 2 H h /\ field 2 M m /\ h <= 23 /\ m <= 59 /\
    o = (if sign =? ch_minus then -1 else 1) * (h * 3600 + m * 60).

(** [full-date "T" full-time], with the temporal value it denotes.  A leap
    second (second 60) is not accepted. *)
Definition rfc3339 (raw : bytes) (t : lql_temporal) : Prop :=
  exists Y MO D H MI S F O y mo d h mi s ns o,
    raw = Y ++ ch_minus :: MO ++ ch_minus :: D ++ ch_T ::
          H ++ ch_colon :: MI ++ ch_colon :: S ++ F ++ O /\
    field 4 Y y /\ field 2 MO mo /\ field 2 D d /\ valid_ymd y mo d = true /\
    field 2 H h /\ field 2 MI mi /\ field 2 S s /\ h <= 23 /\ mi <= 59 /\ s <= 59 /\
    secfrac F ns /\ time_offset O o /\
    t = mk_temporal (epoch_seconds y mo d h mi s o) ns y mo d false.

(** *** The general parser against the grammar *)

Lemma ndigits_field p n v rest :
  parse_ndigits p n = Some (v, rest) <-> exists X, p = X ++ rest /\ field n X v.
Proof. rewrite parse_ndigits_spec. unfold field. naive_solver. Qed.

Lemma field_parse n X v rest : field n X v -> parse_ndigits (X ++ rest) n = Some (v, rest).
Proof. intros H. apply ndigits_field. eauto. Qed.

Lemma take_char_cons c p : take_char c (c :: p) = Some p.
Proof. by apply take_char_spec. Qed.

Lemma frac_loop_spec X rest v k :
  all_digits X -> is_digit (at_ rest 0) = false ->
  frac_loop (X ++ rest) v k =
    (digits_value_from v (take (9 - k) X), (k + length X)%nat, rest).
Proof.
  intros HX Hr. revert v k. induction HX as [|c X Hc HX IH]; intros v k.
  - rewrite take_nil. cbn. rewrite Nat.add_0_r. destruct rest as [|c rest]; [done|].
    cbn. rewrite digit_value_neg. unfold at_ in Hr. cbn in Hr. by rewrite Hr.
  - cbn [app frac_loop]. cbv zeta. rewrite digit_value_neg, Hc. cbn [negb].
    rewrite IH, digit_value_digit by done. cbn [length].
    replace (S k + length X)%nat with (k + S (length X))%nat by lia.
    destruct (k <? 9)%nat eqn:Ek.
    + apply Nat.ltb_lt in Ek. replace (9 - k)%nat with (S (9 - S k)) by lia. done.
    + apply Nat.ltb_ge in Ek. by replace (9 - k)%nat with 0%nat by lia; replace (9 - S k)%nat with 0%nat by lia.
Qed.

Lemma frac_pad_spec v k : frac_pad v k = digits_value_from v (repeat ch_0 (9 - k)).
Proof.
  unfold frac_pad. generalize (9 - k)%nat as n. intros n. revert v.
  induction n as [|n IH]; intros v; [done|].
  rewrite Nat.iter_succ_r, IH. cbn. f_equal. lia.
Qed.

Lemma digits_value_from_app v a b :
  digits_value_from v (a ++ b) = digits_value_from (digits_value_from v a) b.
Proof. revert v. induction a as [|d a IH]; intros v; [done|]. apply IH. Qed.

Lemma take_9_pad X : take 9 (X ++ repeat ch_0 9) = take 9 X ++ repeat ch_0 (9 - length X).
Proof. rewrite take_app. f_equal. by do 10 (destruct X as [|? X]; [done|]). Qed.

Lemma fraction_spec X rest :
  all_digits X -> X <> [] -> is_digit (at_ rest 0) = false ->
  parse_fraction (ch_dot :: X ++ rest) =
    Some (digits_value (take 9 (X ++ repeat ch_0 9)), rest).
Proof.
  intros HX Hn Hr. cbn [parse_fraction]. change (ch_dot =? ch_dot) with true. cbn iota.
  rewrite digit_value_neg. destruct HX as [|c X Hc HX]; [done|].
  change (at_ ((c :: X) ++ rest) 0) with c. rewrite Hc. cbn [negb].
  rewrite frac_loop_spec by (done || by constructor).
  rewrite frac_pad_spec, <- digits_value_from_app, take_9_pad. done.
Qed.

Lemma secfrac_parse F ns rest :
  secfrac F ns -> is_digit (at_ rest 0) = false -> at_ rest 0 <> ch_dot ->
  parse_fraction (F ++ rest) = Some (ns, rest).
Proof.
  intros [[-> ->]|(X & -> & Hn & HX & ->)] Hr Hd.
  - destruct rest as [|c rest]; [done|]. cbn. unfold at_ in Hd. cbn in Hd.
    by rewrite (proj2 (Z.eqb_neq c ch_dot)).
  - by apply fraction_spec.
Qed.

Lemma parse_secfrac p ns rest :
  parse_fraction p = Some (ns, rest) -> exists F, p = F ++ rest /\ secfrac F ns.
Proof.
  destruct p as [|c t]; cbn; [intros [= <- <-]; exists []; split; [done|by left]|].
  destruct (c =? ch_dot) eqn:Ec; [|intros [= <- <-]; exists []; split; [done|by left]].
  bool_hyps. subst c. rewrite digit_value_neg.
  destruct (is_digit (at_ t 0)) eqn:Ed; [cbn [negb]|done].
  destruct (span is_digit t) as [X r] eqn:Es.
  pose proof (span_app _ _ _ _ Es) as ->. pose proof (span_forall _ _ _ _ Es) as HX.
  assert (is_digit (at_ r 0) = false) as Hr.
  { destruct r as [|x r]; [done|]. by eapply span_stop. }
  assert (X <> []) as Hn by (intros ->; change ([] ++ r) with r in Ed; congruence).
  intros H. pose proof (fraction_spec X r HX Hn Hr) as Hf. cbn [parse_fraction] in Hf.
  change (ch_dot =? ch_dot) with true in Hf. cbn iota in Hf.
  rewrite digit_value_neg, Ed in Hf. cbn [negb] in Hf. rewrite H in Hf.
  injection Hf as -> ->. exists (ch_dot :: X). split; [done|]. right. eauto 6.
Qed.

Lemma zone_spec p o rest :
  general_zone p false = Some (o, rest) <-> exists O, p = O ++ rest /\ time_offset O o.
Proof.
  split.
  - destruct p as [|c t]; [done|]. cbn [general_zone].
    destruct (c =? ch_Z) eqn:EZ.
    { bool_hyps. subst c. intros [= <- <-]. exists [ch_Z]. split; [done|by left]. }
    destruct ((c =? ch_plus) || (c =? ch_minus)) eqn:Es; [|done].
    intros ([h p] & (H & -> & Hh)%ndigits_field & E)%bind_Some.
    apply bind_Some in E as (p' & ->%take_char_spec & E).
    apply bind_Some in E as ([m p] & (M & -> & Hm)%ndigits_field & E).
    destruct ((23 <? h) || (59 <? m)) eqn:Eb; [done|]. injection E as <- <-.
    exists (c :: H ++ ch_colon :: M). split; [cbn; by rewrite <- app_assoc|].
    right. exists c, H, M, h, m. split_and!; try done; lia.
  - intros (O & -> & [[-> ->]|(sg & H & M & h & m & Hs & -> & Hh & Hm & ? & ? & ->)]); [done|].
    cbn [app general_zone]. rewrite <- app_assoc.
    rewrite (proj2 (Z.eqb_neq sg ch_Z)) by lia.
    rewrite (proj2 (orb_true_iff (sg =? ch_plus) (sg =? ch_minus))) by lia.
    rewrite (field_parse _ _ _ _ Hh). cbn [mbind option_bind app]. rewrite take_char_cons.
    cbn [mbind option_bind]. rewrite (field_parse _ _ _ _ Hm). cbn [mbind option_bind].
    by rewrite (proj2 (orb_false_iff (23 <? h) (59 <? m))) by lia.
Qed.

Lemma time_offset_first O o rest :
  time_offset O o -> is_digit (at_ (O ++ rest) 0) = false /\ at_ (O ++ rest) 0 <> ch_dot.
Proof.
  intros [[-> _]|(sg & H & M & h & m & Hs & -> & _)]; [done|].
  change (at_ _ 0) with sg. by destruct Hs as [-> | ->].
Qed.

Lemma at_nonzero_nil p : Forall (fun c => c <> 0) p -> at_ p 0 = 0 -> p = [].
Proof. destruct 1 as [|c p Hc Hp]; [done|]. cbn. done. Qed.

(** *** Strict parsing *)

Lemma general_strict_sound raw t :
  Forall (fun c => c <> 0) raw ->
  parse_temporal_general raw false false false = Some t -> rfc3339 raw t.
Proof.
  intros Hnz. unfold parse_temporal_general. cbn [negb andb].
  destruct (isspace (at_ raw 0)) eqn:Esp; [done|]. rewrite drop_while_stopped by done.
  intros ([y p] & (Y & -> & HY)%ndigits_field & E)%bind_Some.
  apply bind_Some in E as (p1 & ->%take_char_spec & E).
  apply bind_Some in E as ([mo p2] & (MO & -> & HMO)%ndigits_field & E).
  apply bind_Some in E as (p3 & ->%take_char_spec & E).
  apply bind_Some in E as ([d p4] & (D & -> & HD)%ndigits_field & E).
  destruct (valid_ymd y mo d) eqn:Ev; [cbn [negb] in E|done].
  unfold general_after_date in E. cbv zeta in E.
  destruct (negb (at_ p4 0 =? 0) && isspace (at_ p4 0)) eqn:E1; [done|].
  destruct (at_ p4 0 =? 0) eqn:E2; [done|].
  apply bind_Some in E as (p5 & ->%take_char_spec & E).
  apply bind_Some in E as ([h p6] & (H & -> & HH)%ndigits_field & E).
  apply bind_Some in E as (p7 & ->%take_char_spec & E).
  apply bind_Some in E as ([mi p8] & (MI & -> & HMI)%ndigits_field & E).
  apply bind_Some in E as (p9 & ->%take_char_spec & E).
  apply bind_Some in E as ([s p10] & (S & -> & HS)%ndigits_field & E).
  destruct ((23 <? h) || (59 <? mi) || (59 <? s)) eqn:E3; [done|].
  apply bind_Some in E as ([ns p11] & (F & -> & HF)%parse_secfrac & E).
  apply bind_Some in E as ([o p12] & (O & -> & HO)%zone_spec & E).
  destruct (isspace (at_ p12 0)) eqn:E4; [done|]. cbn [negb andb] in E.
  rewrite drop_while_stopped in E by done.
  destruct (at_ p12 0 =? 0) eqn:E5; [|done]. cbn [negb] in E. injection E as <-.
  apply Z.eqb_eq in E5.
  assert (p12 = []) as ->.
  { apply at_nonzero_nil; [|done]. rewrite Forall_forall in Hnz. apply Forall_forall.
    intros c Hc. apply Hnz. repeat first [apply in_or_app; right | apply in_cons]. done. }
  assert (0 <= y) by (destruct HY as (_ & HY & ->); by apply all_digits_nonneg).
  rewrite app_nil_r. do 16 eexists. split; [reflexivity|]. rewrite civil_seconds_epoch by done. split_and!; try done; lia.
Qed.

Lemma general_strict_complete raw t :
  rfc3339 raw t -> parse_temporal_general raw false false false = Some t.
Proof.
  intros (Y & MO & D & H & MI & S & F & O & y & mo & d & h & mi & s & ns & o & -> & HY & HMO & HD
    & Hv & HH & HMI & HS & ? & ? & ? & HF & HO & ->).
  pose proof (field_parse 4 Y y (ch_minus :: MO ++ ch_minus :: D ++ ch_T ::
    H ++ ch_colon :: MI ++ ch_colon :: S ++ F ++ O) HY) as EY.
  unfold parse_temporal_general. cbn [negb andb].
  pose proof (digit_not_space _ (parse_ndigits_first _ _ _ _ EY ltac:(lia))) as Hsp.
  rewrite Hsp, drop_while_stopped, EY by done. cbn [mbind option_bind].
  rewrite take_char_cons. cbn [mbind option_bind].
  rewrite (field_parse _ _ _ _ HMO). cbn [mbind option_bind].
  rewrite take_char_cons. cbn [mbind option_bind].
  rewrite (field_parse _ _ _ _ HD). cbn [mbind option_bind]. rewrite Hv. cbn [negb].
  unfold general_after_date. change (at_ (ch_T :: _) 0) with ch_T.
  change (isspace ch_T) with false. change (ch_T =? 0) with false. cbn [negb andb].
  rewrite take_char_cons. cbn [mbind option_bind].
  rewrite (field_parse _ _ _ _ HH). cbn [mbind option_bind].
  rewrite take_char_cons. cbn [mbind option_bind].
  rewrite (field_parse _ _ _ _ HMI). cbn [mbind option_bind].
  rewrite take_char_cons. cbn [mbind option_bind].
  rewrite (field_parse _ _ _ _ HS). cbn [mbind option_bind].
  rewrite (proj2 (orb_false_iff _ (59 <? s))) by lia.
  destruct (time_offset_first O o [] HO) as [Ho1 Ho2]. rewrite app_nil_r in Ho1, Ho2.
  rewrite (secfrac_parse F ns O) by done. cbn [mbind option_bind].
  rewrite (proj2 (zone_spec O o [])) by (exists O; by rewrite app_nil_r).
  rewrite <- civil_seconds_epoch by (destruct HY as (_ & HY & ->); by apply all_digits_nonneg) || done. done.
Qed.

(** *** Agreement with the fast path *)

(** C38. The fixed-layout fast path is an optimisation: whatever the options,
    [parse_temporal_literal_with_options] (fast path first, general parser when
    it declines) returns exactly what the general parser alone returns. *)
Theorem parse_literal_fast_path raw date naive space :
  parse_temporal_literal_with_options raw date naive space =
  parse_temporal_general raw date naive space.
Proof.
  unfold parse_temporal_literal_with_options.
  destruct (parse_temporal_fast raw date naive) as [t|] eqn:E; [|done].
  symmetry. by apply fast_general.
Qed.

(** C28. The strict parser accepts exactly the RFC 3339 timestamps (without leap
    seconds), and returns the instant the text denotes: the seconds from the epoch, by
    the Gregorian calendar and the time of day less the offset, and the first nine
    digits of the fraction. *)
Theorem parse_rfc3339_iff raw t :
  Forall (fun c => c <> 0) raw ->
  (lql_parse_temporal_rfc3339_literal raw = Some t <-> rfc3339 raw t).
Proof.
  intros Hnz. unfold lql_parse_temporal_rfc3339_literal, parse_temporal_literal_with_options.
  split.
  - destruct (parse_temporal_fast raw false false) as [t'|] eqn:E; [|by apply general_strict_sound].
    intros [= <-]. apply general_strict_sound; [done|]. by apply fast_general.
  - intros Ht%general_strict_complete.
    destruct (parse_temporal_fast raw false false) as [t'|] eqn:E; [|done].
    apply fast_general with (space := false) in E. congruence.
Qed.
