(* ===== verification/TemporalFormat.v ===== *)
(** * The RFC 3339 formatter, temporal comparison and ranges

    The formatter against the grammar of TemporalProps, its round trip through
    the strict parser, the instants it covers and the buffer it needs; the
    order [lql_temporal_compare] decides; the ranges of parsed values. *)

From S2P Require Import Prelude.
From S2P Require Import Number.
From S2P Require Import NumberSpec.
From S2P Require Import Temporal.
From S2P Require Import TemporalProps.

(** ** Fixed-width fields *)

Lemma canonical_length_bound l w :
  canonical l -> (0 < w)%nat -> digits_value l < 10 ^ Z.of_nat w -> (length l <= w)%nat.
Proof.
  intros [Hd Hc] Hw Hv. destruct l as [|d [|x l]]; [done|cbn; lia|].
  pose proof (digits_value_lower d (x :: l) Hd Hc) as Hl.
  destruct (Nat.le_gt_cases (length (d :: x :: l)) w) as [|Hg]; [done|].
  assert (10 ^ Z.of_nat w <= 10 ^ Z.of_nat (length (x :: l))); [|lia].
  apply Z.pow_le_mono_r; cbn [length] in *; lia.
Qed.

Lemma all_digits_zeros n : all_digits (repeat ch_0 n).
Proof. induction n; by constructor. Qed.

Lemma digits_value_zeros n l : digits_value (repeat ch_0 n ++ l) = digits_value l.
Proof. induction n as [|n IH]; [done|]. cbn [repeat app]. rewrite digits_value_cons, IH. lia. Qed.

Lemma printf_field w v :
  (0 < w)%nat -> (w <= 20)%nat -> 0 <= v < 10 ^ Z.of_nat w -> field w (printf_0d w v) v.
Proof.
  intros Hw Hw' Hv. unfold printf_0d. cbv zeta.
  assert (10 ^ Z.of_nat w <= 10 ^ 20) by (apply Z.pow_le_mono_r; lia).
  destruct (ulong_text_spec v) as [Hc Hd]; [lia|].
  pose proof (canonical_length_bound _ w Hc Hw ltac:(lia)).
  split_and!.
  - rewrite length_app, repeat_length. lia.
  - apply Forall_app. split; [apply all_digits_zeros|by apply canonical_digits].
  - by rewrite digits_value_zeros.
Qed.

Lemma strip_trailing_spec X :
  exists n, X = strip_trailing_zeros X ++ repeat ch_0 n.
Proof.
  unfold strip_trailing_zeros. destruct (drop_while_app (fun c => c =? ch_0) (rev X)) as (Z & E & HZ).
  exists (length Z). set (R := drop_while _ (rev X)) in *. clearbody R.
  rewrite <- (rev_involutive X), E, rev_app_distr. f_equal.
  assert (Z = repeat ch_0 (length Z)) as EZ.
  { clear -HZ. induction HZ as [|c Z Hc HZ IH]; [done|]. bool_hyps. cbn. by rewrite <- IH, Hc. }
  rewrite EZ at 1. by rewrite rev_repeat.
Qed.

(** The nine-digit fraction without its trailing zeros denotes the same
    number of nanoseconds. *)
Lemma stripped_secfrac ns :
  0 < ns <= 999999999 ->
  secfrac (ch_dot :: strip_trailing_zeros (printf_0d 9 ns)) ns /\
  (length (strip_trailing_zeros (printf_0d 9 ns)) <= 9)%nat.
Proof.
  intros Hns. destruct (printf_field 9 ns) as (HL & HD & HV); [lia|lia|lia|].
  destruct (strip_trailing_spec (printf_0d 9 ns)) as [n E].
  set (X := strip_trailing_zeros (printf_0d 9 ns)) in *.
  assert (length X + n = 9)%nat as HX by (rewrite E, length_app, repeat_length in HL; lia).
  split; [|lia]. right. exists X. split_and!; [done| | |].
  - intros E0. rewrite HV, E, E0, <- (app_nil_r (repeat ch_0 n)) in Hns. cbn [app] in Hns.
    rewrite digits_value_zeros in Hns. cbn in Hns. lia.
  - rewrite E in HD. by apply Forall_app in HD as [? _].
  - rewrite HV at 1. f_equal. rewrite take_app, take_ge by lia. rewrite E at 1. f_equal.
    replace (9 - length X)%nat with n by lia. assert (n <= 9)%nat as Hn by lia. clear -Hn.
    do 10 (destruct n as [|n]; [done|]). lia.
Qed.

(** ** Format *)

Lemma split_days_spec x : split_days x = (x / 86400, x mod 86400).
Proof. unfold split_days. cbv zeta. case_if; bool_hyps; f_equal; Z.to_euclidean_division_equations; lia. Qed.

Lemma clock_fields r h mi s :
  0 <= r < 86400 -> h = Z.quot r 3600 -> mi = Z.quot (Z.rem r 3600) 60 ->
  s = Z.rem (Z.rem r 3600) 60 ->
  0 <= h <= 23 /\ 0 <= mi <= 59 /\ 0 <= s <= 59 /\ h * 3600 + mi * 60 + s = r.
Proof. intros. subst. Z.to_euclidean_division_equations. lia. Qed.

Lemma format_sound v n text :
  lql_temporal_format_rfc3339_nano v n = Some text ->
  exists y m d, civil_from_days (seconds v / 86400) = Some (y, m, d) /\
    rfc3339 text (mk_temporal (seconds v) (nanoseconds v) y m d false) /\
    (length text <= 30)%nat.
Proof.
  unfold lql_temporal_format_rfc3339_nano. destruct (_ || _) eqn:Eg; [done|]. bool_hyps.
  rewrite split_days_spec. destruct (civil_from_days (seconds v / 86400)) as [[[y m] d]|] eqn:Ec; [|done].
  cbv zeta. intros E. exists y, m, d. split; [done|].
  destruct (civil_from_days_inv _ _ _ _ Ec) as (Hy & Hv & Hd).
  pose proof Hv as [Hm Hdd]%valid_ymd_spec. pose proof (month_len_spec y m Hm) as [Hml _].
  pose proof (Z.mod_pos_bound (seconds v) 86400 ltac:(lia)) as Hr.
  set (r := seconds v mod 86400) in *.
  set (h := Z.quot r 3600) in *. set (mi := Z.quot (Z.rem r 3600) 60) in *.
  set (s := Z.rem (Z.rem r 3600) 60) in *.
  destruct (clock_fields r h mi s) as (Hh & Hmi & Hs & Hsum); [done..|].
  assert (seconds v = epoch_seconds y m d h mi s 0) as Esec.
  { rewrite <- civil_seconds_epoch by (lia || done). unfold civil_seconds. rewrite Hd, Z.sub_0_r, Hsum. subst r. zdiv. }
  pose proof (printf_field 4 y ltac:(lia) ltac:(lia) ltac:(lia)) as FY.
  pose proof (printf_field 2 m ltac:(lia) ltac:(lia) ltac:(lia)) as FM.
  pose proof (printf_field 2 d ltac:(lia) ltac:(lia) ltac:(lia)) as FD.
  pose proof (printf_field 2 h ltac:(lia) ltac:(lia) ltac:(lia)) as FH.
  pose proof (printf_field 2 mi ltac:(lia) ltac:(lia) ltac:(lia)) as FMI.
  pose proof (printf_field 2 s ltac:(lia) ltac:(lia) ltac:(lia)) as FS.
  unfold format_datetime in E.
  set (Y := printf_0d 4 y) in *. set (MO := printf_0d 2 m) in *. set (D := printf_0d 2 d) in *.
  set (HH := printf_0d 2 h) in *. set (MI := printf_0d 2 mi) in *. set (S := printf_0d 2 s) in *.
  clearbody Y MO D HH MI S.
  assert (forall F, secfrac F (nanoseconds v) -> (length F <= 10)%nat ->
    text = (Y ++ [ch_minus] ++ MO ++ [ch_minus] ++ D ++ [ch_T] ++ HH ++ [ch_colon] ++ MI ++
      [ch_colon] ++ S) ++ F ++ [ch_Z] ->
    rfc3339 text (mk_temporal (seconds v) (nanoseconds v) y m d false) /\
    (length text <= 30)%nat) as K.
  { intros F HF HFl ->. split.
    - exists Y, MO, D, HH, MI, S, F, [ch_Z], y, m, d, h, mi, s, (nanoseconds v), 0.
      split; [cbn [app]; by repeat (rewrite <- app_assoc; cbn [app])|].
      rewrite Esec. split_and!; first [assumption|lia|by left|reflexivity].
    - rewrite !length_app.
      destruct FY as [-> _], FM as [-> _], FD as [-> _], FH as [-> _], FMI as [-> _], FS as [-> _].
      cbn. lia. }
  destruct (nanoseconds v =? 0) eqn:En; injection E as <-; bool_hyps.
  - apply (K []); [by left|cbn; lia|done].
  - destruct (stripped_secfrac (nanoseconds v)) as [HF HL]; [lia|].
    apply (K (ch_dot :: strip_trailing_zeros (printf_0d 9 (nanoseconds v)))); [done|cbn [length]; lia|done].
Qed.

(** The days the calendar covers: 0000-01-01 to 9999-12-31. *)
Lemma civil_from_days_total z :
  -719528 <= z <= 2932896 -> exists ymd, civil_from_days z = Some ymd.
Proof.
  intros Hz. set (era := (z + 719468) / 146097). set (doe := (z + 719468) mod 146097).
  assert (0 <= doe < 146097) as Hdoe by (subst doe; zdiv).
  pose proof (cycle_day_of_doe doe Hdoe) as Hc. cbv zeta in Hc.
  set (yoe := year_of_cycle doe) in *. set (doy := doe - (365 * yoe + yoe / 4 - yoe / 100)) in *.
  assert (doe = day_of_cycle yoe doy) as Ed by (unfold day_of_cycle; subst doy; lia).
  assert (z = era * 146097 + doe - 719468) as Ez by (subst era doe; zdiv).
  clearbody era doe yoe doy. rewrite Ez, Ed. rewrite civil_from_days_eq by done. cbv zeta.
  destruct Hc as (H1 & H2 & _). destruct (day_in_month doy H2) as (Hm & _).
  set (mp := (5 * doy + 2) / 153) in *. set (m' := if mp <? 10 then mp + 3 else mp - 9) in *.
  assert (era = -1 \/ 0 <= era <= 23 \/ era = 24) as He by lia.
  rewrite (proj2 (orb_false_iff _ _)); [eauto|].
  unfold day_of_cycle in Ed. destruct He as [-> | [He | ->]].
  - assert (yoe = 399) by zdiv. subst yoe. assert (10 <= mp <= 11) by (subst mp; zdiv).
    assert (m' <= 2) by (subst m'; case_if; bool_hyps; lia).
    rewrite (proj2 (Z.leb_le m' 2)) by done. lia.
  - case_if; lia.
  - assert (yoe < 399 \/ yoe = 399) as [Hy| ->] by lia; [case_if; lia|].
    assert (0 <= mp < 10) by (subst mp; zdiv).
    assert (3 <= m') by (subst m'; case_if; bool_hyps; lia).
    rewrite (proj2 (Z.leb_gt m' 2)) by lia. lia.
Qed.

Lemma format_total v n :
  31 <= n -> date_only v = false -> 0 <= nanoseconds v <= 999999999 ->
  -62167219200 <= seconds v <= 253402300799 ->
  exists text, lql_temporal_format_rfc3339_nano v n = Some text.
Proof.
  intros Hn Hd Hns Hs. unfold lql_temporal_format_rfc3339_nano.
  rewrite Hd, (proj2 (Z.ltb_ge n 31)), (proj2 (Z.ltb_ge (nanoseconds v) 0)),
    (proj2 (Z.ltb_ge 999999999 (nanoseconds v))) by lia. cbn [orb].
  rewrite split_days_spec.
  destruct (civil_from_days_total (seconds v / 86400)) as [[[y m] d] ->]; [zdiv|].
  cbv zeta. case_if; eauto.
Qed.

(** ** Ranges of parsed values *)

(** A temporal value the parsers may produce: a real date of the years 0 to
    9999, nanoseconds within the second, and seconds within a day of the
    date's own. *)
Definition temporal_ok (t : lql_temporal) : Prop :=
  0 <= year t <= 9999 /\ valid_ymd (year t) (month t) (day t) = true /\
  0 <= nanoseconds t <= 999999999 /\
  let midnight := days_from_civil (year t) (month t) (day t) * 86400 in
  if date_only t then nanoseconds t = 0 /\ seconds t = midnight
  else midnight - 86400 < seconds t < midnight + 2 * 86400.

Lemma field_bounds n X v : field n X v -> 0 <= v < 10 ^ Z.of_nat n.
Proof. intros (<- & HX & ->). by apply digits_value_bounds. Qed.

Lemma secfrac_bounds F ns : secfrac F ns -> 0 <= ns <= 999999999.
Proof.
  intros [[_ ->]|(X & _ & _ & HX & ->)]; [lia|].
  pose proof (digits_value_bounds (take 9 (X ++ repeat ch_0 9))) as H.
  rewrite length_take_le in H by (rewrite length_app, repeat_length; lia).
  assert (all_digits (take 9 (X ++ repeat ch_0 9))) as HD; [|apply H in HD; lia].
  apply Forall_take, Forall_app. split; [done|apply all_digits_zeros].
Qed.

Lemma ndigits_bounds p n v r : parse_ndigits p n = Some (v, r) -> 0 <= v < 10 ^ Z.of_nat n.
Proof. intros (X & _ & HX)%ndigits_field. by apply field_bounds in HX. Qed.

Lemma zone_bounds p naive o r : general_zone p naive = Some (o, r) -> -86400 < o < 86400.
Proof.
  destruct p as [|c t]; cbn [general_zone].
  { destruct naive; [intros [= <- <-]; lia|done]. }
  case_if; [intros [= <- <-]; lia|]. case_if; [|destruct naive; [intros [= <- <-]; lia|done]].
  intros ([h p] & Hh%ndigits_bounds & E)%bind_Some. apply bind_Some in E as (p' & _ & E).
  apply bind_Some in E as ([m q] & Hm%ndigits_bounds & E).
  destruct (_ || _) eqn:Eb in E; [done|]. injection E as <- <-. destruct (c =? ch_minus); lia.
Qed.

Lemma general_after_date_ok p y mo d a b c t :
  0 <= y <= 9999 -> valid_ymd y mo d = true ->
  general_after_date p y mo d a b c = Some t -> temporal_ok t.
Proof.
  intros Hy Hv. unfold general_after_date. cbv zeta.
  set (D := mk_temporal (days_from_civil y mo d * 86400) 0 y mo d true).
  assert (temporal_ok D) as HD by (unfold temporal_ok; cbn -[days_from_civil]; split_and!; (done || lia)).
  assert (forall q t', (if at_ q 0 =? 0 then if negb a then None else Some D else None) = Some t' ->
    temporal_ok t') as HF by (intros q t'; do 2 (case_if; try done); by intros [= <-]).
  case_if; [case_if; [done|]; apply HF|]. case_if; [intros E; apply (HF p); by rewrite Heqb1|].
  intros (p1 & _ & E)%bind_Some.
  apply bind_Some in E as ([h p2] & Hh%ndigits_bounds & E). apply bind_Some in E as (p3 & _ & E).
  apply bind_Some in E as ([mi p4] & Hmi%ndigits_bounds & E). apply bind_Some in E as (p5 & _ & E).
  apply bind_Some in E as ([s p6] & Hs%ndigits_bounds & E).
  destruct (_ || _) eqn:Eb in E; [done|].
  apply bind_Some in E as ([ns p7] & (F & _ & HFr%secfrac_bounds)%parse_secfrac & E).
  apply bind_Some in E as ([o p8] & Ho%zone_bounds & E).
  destruct (_ && _) in E; [done|]. destruct (negb _) in E; [done|]. injection E as <-.
  unfold temporal_ok. cbn -[days_from_civil civil_seconds]. unfold civil_seconds. split_and!; (done || lia).
Qed.

(** ** The properties *)

(** Every value the literal parser accepts, whatever the options, is a
    real date with its nanoseconds in range and its seconds within a day of that
    date: no field overflows. *)
Theorem parse_literal_ok raw a b c t :
  parse_temporal_literal_with_options raw a b c = Some t -> temporal_ok t.
Proof.
  intros H. assert (parse_temporal_general raw a b c = Some t) as G.
  { unfold parse_temporal_literal_with_options in H.
    destruct (parse_temporal_fast raw a b) as [t'|] eqn:E; [|done].
    injection H as <-. by apply fast_general. }
  clear H. unfold parse_temporal_general in G. destruct (_ && _) in G; [done|].
  apply bind_Some in G as ([y p] & Hy%ndigits_bounds & E). apply bind_Some in E as (p1 & _ & E).
  apply bind_Some in E as ([mo p2] & _ & E). apply bind_Some in E as (p3 & _ & E).
  apply bind_Some in E as ([d p4] & _ & E). destruct (valid_ymd y mo d) eqn:Ev; [|done].
  cbn [negb] in E. eapply general_after_date_ok; [|done|done]. lia.
Qed.

(** C33. What the formatter writes fits the 31-byte buffer it asks for, and the
    strict parser reads it back: same seconds and nanoseconds, with the UTC
    calendar date of that instant. *)
Theorem format_parse_roundtrip v n text :
  lql_temporal_format_rfc3339_nano v n = Some text ->
  (length text + 1 <= 31)%nat /\
  exists y m d, civil_from_days (seconds v / 86400) = Some (y, m, d) /\
    lql_parse_temporal_rfc3339_literal text =
      Some (mk_temporal (seconds v) (nanoseconds v) y m d false).
Proof.
  intros (y & m & d & Hc & Hr & Hl)%format_sound. split; [lia|]. exists y, m, d. split; [done|].
  unfold lql_parse_temporal_rfc3339_literal, parse_temporal_literal_with_options.
  apply general_strict_complete in Hr.
  destruct (parse_temporal_fast text false false) as [t|] eqn:E; [|done].
  apply fast_general with (space := false) in E. congruence.
Qed.

(** The formatter succeeds exactly on full timestamps of the years 0 to
    9999 with nanoseconds in range and a buffer of at least 31 bytes. *)
Theorem format_succeeds_iff v n :
  is_Some (lql_temporal_format_rfc3339_nano v n) <->
  31 <= n /\ date_only v = false /\ 0 <= nanoseconds v <= 999999999 /\
  -62167219200 <= seconds v <= 253402300799.
Proof.
  split.
  - intros [text H]. pose proof (format_sound _ _ _ H) as (y & m & d & Hc & _).
    revert H. unfold lql_temporal_format_rfc3339_nano. destruct (_ || _) eqn:Eg; [done|]. intros _.
    bool_hyps. split_and!; try done; try lia.
    all: apply civil_from_days_inv in Hc as (Hy & Hv & Hd).
    all: rewrite days_from_civil_eq in Hd by (done || lia).
    all: pose proof (day_of_cycle_bounds _ _ (date_cycle_day y m d ltac:(lia) Hv)) as Hb.
    all: pose proof Hv as [Hm Hdd]%valid_ymd_spec; pose proof (month_len_spec y m Hm) as [Hml _].
    all: unfold day_of_cycle in *; set (yoe := shifted_year y m mod 400) in *.
    all: set (era := shifted_year y m / 400) in *.
    all: assert (era * 400 + yoe = shifted_year y m) by (subst era yoe; zdiv).
    all: assert (0 <= yoe < 400) by (subst yoe; zdiv).
    all: unfold shifted_year in *; unfold month_start, month_index in *.
    all: destruct (m <=? 2) eqn:E2, (2 <? m) eqn:E3; bool_hyps; try lia; clearbody era yoe; zdiv.
  - intros (H1 & H2 & H3 & H4). by apply format_total.
Qed.

(** The instant of a temporal value, in nanoseconds since the epoch. *)
Definition instant (t : lql_temporal) : Z := seconds t * 1000000000 + nanoseconds t.

(** On values with nanoseconds in range, [lql_temporal_compare] orders
    instants, and [lql_temporal_equal] of two full timestamps is equality of
    instants; when either is a plain date it is equality of the written dates. *)
Theorem temporal_compare_instants a b :
  0 <= nanoseconds a <= 999999999 -> 0 <= nanoseconds b <= 999999999 ->
  lql_temporal_compare a b = sgn_of (instant a ?= instant b) /\
  (lql_temporal_equal a b = true <->
   if date_only a || date_only b then (year a, month a, day a) = (year b, month b, day b)
   else instant a = instant b).
Proof.
  intros Ha Hb.
  assert (lql_temporal_compare a b = sgn_of (instant a ?= instant b)) as Hc.
  { unfold lql_temporal_compare, instant.
    destruct (Z.compare_spec (seconds a * 1000000000 + nanoseconds a)
      (seconds b * 1000000000 + nanoseconds b)); cbn [sgn_of];
    repeat (case_if; bool_hyps; try lia). }
  split; [done|]. unfold lql_temporal_equal. destruct (_ || _).
  - rewrite !andb_true_iff, !Z.eqb_eq. split; [intros [[-> ->] ->]; done|by intros [= -> -> ->]].
  - rewrite Hc, Z.eqb_eq. destruct (Z.compare_spec (instant a) (instant b)); cbn; lia.
Qed.

(** [civil_from_days] inverts [days_from_civil] on the real dates of the
    years 0 to 9999 and yields nothing else; day 0 is 1970-01-01, and counting a
    day forward from [n] is the next calendar day of the Gregorian rules. *)
Theorem calendar_days z y m d :
  (civil_from_days z = Some (y, m, d) <->
   0 <= y <= 9999 /\ valid_ymd y m d = true /\ days_from_civil y m d = z) /\
  civil_from_days 0 = Some (1970, 1, 1) /\
  (civil_from_days z = Some (y, m, d) -> next_day y m d <> (10000, 1, 1) ->
   civil_from_days (z + 1) = Some (next_day y m d)).
Proof.
  split_and!; [split; [apply civil_from_days_inv|]|by vm_compute|].
  - intros (Hy & Hv & <-). by apply civil_days_roundtrip.
  - intros (Hy & Hv & <-)%civil_from_days_inv Hn. pose proof (next_day_spec y m d) as Hs.
    revert Hn Hs. unfold next_day. destruct (valid_ymd y m (d + 1)); [|case_if]; bool_hyps; intros Hn Hs.
    all: destruct Hs as [Hv' <-]; [lia|done|]; apply civil_days_roundtrip; [|done]; try lia.
    assert (y <> 9999) by (intros ->; by apply Hn). lia.
Qed.

(** ** Witnesses *)

Definition sample_timestamp : bytes := bs "2024-02-29T23:30:05.0625-01:30".

Definition sample_instant : lql_temporal := mk_temporal 1709254805 62500000 2024 2 29 false.

Lemma parse_rfc3339_iff_witness : rfc3339 sample_timestamp sample_instant.
Proof.
  apply (parse_rfc3339_iff sample_timestamp sample_instant); [|by vm_compute].
  unfold sample_timestamp. vm_compute. repeat constructor; done.
Defined.

Lemma parse_literal_ok_witness : temporal_ok (mk_temporal 1709164800 0 2024 2 29 true).
Proof. apply (parse_literal_ok (bs " 2024-02-29 ") true true true). by vm_compute. Defined.

Lemma format_parse_roundtrip_witness :
  lql_parse_temporal_rfc3339_literal (bs "2024-03-01T01:00:05.0625Z") =
    Some (mk_temporal 1709254805 62500000 2024 3 1 false).
Proof.
  destruct (format_parse_roundtrip sample_instant 31 (bs "2024-03-01T01:00:05.0625Z"))
    as (_ & y & m & d & Hc & E); [by vm_compute|].
  vm_compute in Hc. injection Hc as <- <- <-. exact E.
Defined.

Lemma temporal_compare_instants_witness :
  lql_temporal_compare sample_instant (mk_temporal 1709254805 0 2024 3 1 false) = 1.
Proof.
  destruct (temporal_compare_instants sample_instant (mk_temporal 1709254805 0 2024 3 1 false))
    as [-> _]; [cbn; lia|cbn; lia|by vm_compute].
Defined.

Lemma calendar_days_witness : civil_from_days 19782 = Some (2024, 2, 29).
Proof.
  destruct (calendar_days 19781 2024 2 28) as (_ & _ & H).
  apply H; [by vm_compute|by vm_compute].
Defined.
