(* ===== verification/Allocator.v ===== *)
(** * The per-receiver quota allocator (src/lql_allocator.c, [lql_new],
      [receiver_destroy] of src/lql.c)

    A world is the set of live upstream blocks: the [lql_impl] structures, the
    quota blocks (a header in front of the caller's bytes) and, for the quota
    blocks that hold a receiver, its [impl] pointer.  Addresses are [Z], 0 is
    NULL.  An operation returns [None] when the code would touch a block that is
    not live, which is the undefined behaviour the theorems exclude.  The
    upstream allocator is a parameter. *)

From stdpp Require Import fin_maps gmap.
From S2P Require Import Prelude.

Definition SIZE_MAX : Z := 2 ^ 64 - 1.

(** Arithmetic on [size_t]. *)
Definition size_add (a b : Z) : Z := (a + b) mod 2 ^ 64.
Definition size_sub (a b : Z) : Z := (a - b) mod 2 ^ 64.
Definition size_mul (a b : Z) : Z := (a * b) mod 2 ^ 64.

Definition LQL_INSTANCE_MEMORY_LIMIT_BYTES : Z := 8 * 1024 * 1024.

(** [sizeof(lql_quota_header)], [sizeof(lql_impl)] and [sizeof(lql)]: a
    16-byte union; a pointer, six pointers, two [size_t] and an [int]; 42
    pointers (LP64). *)
Definition sizeof_header : Z := 16.
Definition sizeof_impl : Z := 80.
Definition sizeof_lql : Z := 336.

(** A quota block: its header and the bytes handed to the caller. *)
Record lql_quota_block := mk_block { size : Z; owner : Z; payload : bytes }.

Record lql_impl := mk_impl {
  live_bytes : Z;
  quota_allocation_count : Z;
  receiver_destroyed : bool
}.

Record world := mk_world {
  impls : gmap Z lql_impl;
  blocks : gmap Z lql_quota_block;
  receivers : gmap Z Z
}.

Definition set_impl (w : world) (i : Z) (impl : lql_impl) : world :=
  mk_world (<[i := impl]> (impls w)) (blocks w) (receivers w).
Definition set_block (w : world) (h : Z) (b : lql_quota_block) : world :=
  mk_world (impls w) (<[h := b]> (blocks w)) (receivers w).

(** The upstream allocator: the address of a new block of [n] bytes, the
    address after resizing a block, and what fresh bytes hold. *)
Record upstream := mk_upstream {
  up_alloc : world -> Z -> option Z;
  up_realloc : world -> Z -> Z -> option Z;
  up_bytes : world -> Z -> bytes
}.

(** [upstream->destroy] of an impl or of a quota block. *)
Definition free_impl (w : world) (i : Z) : option world :=
  if decide (is_Some (impls w !! i)) then Some (mk_world (delete i (impls w)) (blocks w) (receivers w))
  else None.
Definition free_block (w : world) (h : Z) : option world :=
  if decide (is_Some (blocks w !! h)) then
    Some (mk_world (impls w) (delete h (blocks w)) (delete (h + sizeof_header) (receivers w)))
  else None.

Definition lql_allocator_instance_release_if_idle (w : world) (i : Z) : option world :=
  impl ← impls w !! i;
  if receiver_destroyed impl && (quota_allocation_count impl =? 0) then free_impl w i else Some w.

Section ops.
Context (up : upstream).

(** [self] is the allocator's [impl] pointer (0 also for a NULL allocator). *)
Definition quota_alloc (w : world) (self n : Z) : option (world * Z) :=
  if (self =? 0) || (SIZE_MAX - sizeof_header <? n) then Some (w, 0)
  else
    impl ← impls w !! self;
    let charge := size_add sizeof_header n in
    if size_sub LQL_INSTANCE_MEMORY_LIMIT_BYTES (live_bytes impl) <? charge then Some (w, 0)
    else
      match up_alloc up w charge with
      | None => Some (w, 0)
      | Some h =>
          let impl := mk_impl (size_add (live_bytes impl) charge)
                        (size_add (quota_allocation_count impl) 1) (receiver_destroyed impl) in
          Some (set_impl (set_block w h (mk_block n self (up_bytes up w n))) self impl,
                h + sizeof_header)
      end.

(** [memset] and [memcpy] of a whole fresh payload. *)
Definition fill_payload (w : world) (p : Z) (data : bytes) : option world :=
  b ← blocks w !! (p - sizeof_header);
  Some (set_block w (p - sizeof_header) (mk_block (size b) (owner b) data)).

Definition quota_calloc (w : world) (self count n : Z) : option (world * Z) :=
  if negb (count =? 0) && (SIZE_MAX / count <? n) then Some (w, 0)
  else
    '(w, out) ← quota_alloc w self (size_mul count n);
    if out =? 0 then Some (w, out)
    else
      w ← fill_payload w out (repeat 0 (Z.to_nat (size_mul count n)));
      Some (w, out).

Definition quota_realloc (w : world) (self ptr n : Z) : option (world * Z) :=
  if ptr =? 0 then quota_alloc w self n
  else if (self =? 0) || (SIZE_MAX - sizeof_header <? n) then Some (w, 0)
  else
    impl ← impls w !! self;
    let h := ptr - sizeof_header in
    header ← blocks w !! h;
    if negb (owner header =? self) then Some (w, 0)
    else
      let old_charge := size_add sizeof_header (size header) in
      let new_charge := size_add sizeof_header n in
      if n =? 0 then
        let impl := mk_impl (size_sub (live_bytes impl) old_charge)
                      (size_sub (quota_allocation_count impl) 1) (receiver_destroyed impl) in
        w ← free_block (set_impl w self impl) h;
        w ← lql_allocator_instance_release_if_idle w self;
        Some (w, 0)
      else if (old_charge <? new_charge) &&
              (size_sub LQL_INSTANCE_MEMORY_LIMIT_BYTES (live_bytes impl) <?
               size_sub new_charge old_charge) then Some (w, 0)
      else
        match up_realloc up w h new_charge with
        | None => Some (w, 0)
        | Some next =>
            w1 ← free_block w h;
            let kept := take (Z.to_nat n) (payload header) in
            let data := kept ++ drop (length kept) (up_bytes up w n) in
            let impl := mk_impl (size_add (size_sub (live_bytes impl) old_charge) new_charge)
                          (quota_allocation_count impl) (receiver_destroyed impl) in
            Some (set_impl (set_block w1 next (mk_block n self data)) self impl,
                  next + sizeof_header)
        end.

Definition quota_destroy (w : world) (self ptr : Z) : option world :=
  if (self =? 0) || (ptr =? 0) then Some w
  else
    let h := ptr - sizeof_header in
    header ← blocks w !! h;
    let i := owner header in
    if i =? 0 then Some w
    else
      impl ← impls w !! i;
      let impl := mk_impl (size_sub (live_bytes impl) (size_add sizeof_header (size header)))
                    (size_sub (quota_allocation_count impl) 1) (receiver_destroyed impl) in
      w ← free_block (set_impl w i impl) h;
      lql_allocator_instance_release_if_idle w i.

Definition quota_strdup (w : world) (self : Z) (text : bytes) : option (world * Z) :=
  let len := Z.of_nat (length text) in
  if len =? SIZE_MAX then Some (w, 0)
  else
    '(w, out) ← quota_alloc w self (size_add len 1);
    if out =? 0 then Some (w, out)
    else
      w ← fill_payload w out (text ++ [0]);
      Some (w, out).

(** [lql_allocator_from_receiver]: [self->impl], NULL for a NULL receiver. *)
Definition lql_allocator_from_receiver (w : world) (self : Z) : option Z :=
  if self =? 0 then Some 0 else receivers w !! self.

(** [lql_new]: the receiver, or 0 for [LQL_STATUS_NO_MEMORY]. *)
Definition lql_new (w : world) : option (world * Z) :=
  match up_alloc up w sizeof_impl with
  | None => Some (w, 0)
  | Some i =>
      '(w, ctx) ← quota_calloc (set_impl w i (mk_impl sizeof_impl 0 false)) i 1 sizeof_lql;
      if ctx =? 0 then
        w ← free_impl w i;
        Some (w, 0)
      else Some (mk_world (impls w) (blocks w) (<[ctx := i]> (receivers w)), ctx)
  end.

Definition receiver_destroy (w : world) (self : Z) : option world :=
  if self =? 0 then Some w
  else
    i ← receivers w !! self;
    if i =? 0 then Some w
    else
      w ← quota_destroy w i self;
      impl ← impls w !! i;
      lql_allocator_instance_release_if_idle
        (set_impl w i (mk_impl (live_bytes impl) (quota_allocation_count impl) true)) i.
End ops.
