(* ===== verification/AllocatorProps.v ===== *)
(** * Safety and accounting of the quota allocator

    The accounting invariant, its preservation by every operation, and the
    lifetime of receivers: no operation of a client that keeps its pointers live
    touches a dead block, and nothing is leaked when everything is released. *)

From stdpp Require Import fin_maps gmap.
From S2P Require Import Prelude.
From S2P Require Import Allocator.

(** ** Sums over a finite map *)

Definition msum {A} (f : A -> Z) (m : gmap Z A) : Z := map_fold (fun _ a acc => f a + acc) 0 m.

Section msum.
Context {A : Type} (f : A -> Z).

Lemma msum_empty : msum f ∅ = 0.
Proof. apply map_fold_empty. Qed.

Lemma msum_insert m k a : m !! k = None -> msum f (<[k := a]> m) = f a + msum f m.
Proof. intros H. unfold msum. rewrite (map_fold_insert_L (fun _ a acc => f a + acc)); [done|intros; lia|done]. Qed.

Lemma msum_delete m k a : m !! k = Some a -> msum f m = f a + msum f (delete k m).
Proof.
  intros H. rewrite <- (insert_delete_id m k a H) at 1. apply msum_insert. apply lookup_delete_eq.
Qed.

Lemma msum_nonneg m : (forall k a, m !! k = Some a -> 0 <= f a) -> 0 <= msum f m.
Proof.
  induction m as [|k a m Hk IH] using map_ind; intros H; [by rewrite msum_empty|].
  rewrite msum_insert by done.
  assert (0 <= f a) by (apply (H k); by rewrite lookup_insert_eq).
  assert (0 <= msum f m); [|lia]. apply IH. intros k' a' Hk'.
  apply (H k'). rewrite lookup_insert_ne by congruence. done.
Qed.
End msum.

(** What the blocks of owner [i] charge, and how many there are. *)
Definition charge_of (i : Z) (b : lql_quota_block) : Z :=
  if owner b =? i then sizeof_header + size b else 0.
Definition count_of (i : Z) (b : lql_quota_block) : Z := if owner b =? i then 1 else 0.

(** ** Invariants *)

Definition impl_ok (w : world) (i : Z) (impl : lql_impl) : Prop :=
  i <> 0 /\ live_bytes impl = sizeof_impl + msum (charge_of i) (blocks w) /\
  quota_allocation_count impl = msum (count_of i) (blocks w) /\
  live_bytes impl <= LQL_INSTANCE_MEMORY_LIMIT_BYTES.

Definition block_ok (w : world) (h : Z) (b : lql_quota_block) : Prop :=
  0 < h /\ 0 <= size b /\ is_Some (impls w !! owner b).

(** The accounting of every instance is exact and within its limit. *)
Definition accounts (w : world) : Prop :=
  map_Forall (impl_ok w) (impls w) /\ map_Forall (block_ok w) (blocks w).

(** A live receiver is a live block of an instance not yet marked destroyed, and
    the only receiver of it. *)
Definition receiver_ok (w : world) (ctx i : Z) : Prop :=
  (exists b, blocks w !! (ctx - sizeof_header) = Some b /\ owner b = i) /\
  exists impl, impls w !! i = Some impl /\ receiver_destroyed impl = false.

(** An instance is alive because its receiver is, or because a block is. *)
Definition impl_held (w : world) (i : Z) (impl : lql_impl) : Prop :=
  if receiver_destroyed impl then 0 < quota_allocation_count impl
  else exists ctx, receivers w !! ctx = Some i.

Definition receivers_unique (w : world) : Prop :=
  forall c1 c2 i, receivers w !! c1 = Some i -> receivers w !! c2 = Some i -> c1 = c2.

(** Soundness of the world, where instance [x] may not be held yet; no instance
    has address 0. *)
Definition world_ok_but (x : Z) (w : world) : Prop :=
  accounts w /\ map_Forall (receiver_ok w) (receivers w) /\
  (forall j impl, impls w !! j = Some impl -> j <> x -> impl_held w j impl) /\
  receivers_unique w.

Abbreviation world_ok := (world_ok_but 0).

(** What the code relies on of the upstream allocator: it returns addresses that
    are not in use, a resized block keeps its address or gets an unused one. *)
Record upstream_ok (up : upstream) : Prop := mk_upstream_ok {
  up_alloc_fresh w n h : up_alloc up w n = Some h ->
    0 < h /\ impls w !! h = None /\ blocks w !! h = None;
  up_realloc_fresh w h n a : up_realloc up w h n = Some a ->
    0 < a /\ impls w !! a = None /\ (a = h \/ blocks w !! a = None)
}.

(** ** Accounting of one instance *)

Section account.
Context (w : world) (i : Z) (impl : lql_impl).
Hypothesis Hw : accounts w.
Hypothesis Hi : impls w !! i = Some impl.

Lemma account_bounds :
  i <> 0 /\ 0 <= msum (charge_of i) (blocks w) /\
  0 <= quota_allocation_count impl /\
  sizeof_impl <= live_bytes impl <= LQL_INSTANCE_MEMORY_LIMIT_BYTES /\
  quota_allocation_count impl * sizeof_header <= live_bytes impl.
Proof.
  destruct Hw as [HI HB]. destruct (HI _ _ Hi) as (H0 & HL & HC & HM).
  assert (forall k b, blocks w !! k = Some b -> 0 <= size b) as Hs by (intros k b Hk; by apply HB in Hk as (_ & ? & _)).
  assert (0 <= msum (charge_of i) (blocks w)).
  { apply msum_nonneg. intros k b Hk%Hs. unfold charge_of, sizeof_header. case_if; lia. }
  assert (0 <= msum (count_of i) (blocks w)).
  { apply msum_nonneg. intros k b _. unfold count_of. case_if; lia. }
  assert (msum (count_of i) (blocks w) * sizeof_header <= msum (charge_of i) (blocks w)).
  { clear -Hs. revert Hs. generalize (blocks w) as m. intros m.
    induction m as [|k b m Hk IH] using map_ind; intros Hs; [done|].
    rewrite !msum_insert by done.
    assert (0 <= size b) by (apply (Hs k); by rewrite lookup_insert_eq).
    assert (forall k' b', m !! k' = Some b' -> 0 <= size b') as Hm.
    { intros k' b' Hk'. apply (Hs k'). rewrite lookup_insert_ne by congruence. done. }
    apply IH in Hm. unfold charge_of at 1, count_of at 1. unfold sizeof_header in *. case_if; lia. }
  unfold sizeof_impl in *. split_and!; lia.
Qed.

(** A block of this instance is charged to it. *)
Lemma account_block h b :
  blocks w !! h = Some b -> owner b = i ->
  0 <= size b /\ sizeof_impl + sizeof_header + size b <= live_bytes impl /\
  1 <= quota_allocation_count impl.
Proof.
  intros Hb Ho. destruct Hw as [HI HB]. destruct (HI _ _ Hi) as (H0 & HL & HC & HM).
  pose proof (HB _ _ Hb) as (_ & Hs & _). rewrite HL, HC.
  rewrite !(msum_delete _ _ _ _ Hb). unfold charge_of at 1, count_of at 1.
  rewrite Ho, Z.eqb_refl.
  assert (0 <= msum (charge_of i) (delete h (blocks w))).
  { apply msum_nonneg. intros k b' Hk. apply lookup_delete_Some in Hk as [_ Hk].
    apply HB in Hk as (_ & ? & _). unfold charge_of, sizeof_header. case_if; lia. }
  assert (0 <= msum (count_of i) (delete h (blocks w))).
  { apply msum_nonneg. intros k b' _. unfold count_of. case_if; lia. }
  lia.
Qed.
End account.

(** [size_t] arithmetic of charges does not wrap. *)
Lemma size_add_id a b : 0 <= a + b <= SIZE_MAX -> size_add a b = a + b.
Proof. intros. apply Z.mod_small. unfold SIZE_MAX in *. lia. Qed.
Lemma size_sub_id a b : 0 <= a - b <= SIZE_MAX -> size_sub a b = a - b.
Proof. intros. apply Z.mod_small. unfold SIZE_MAX in *. lia. Qed.

Lemma charge_other i j b : owner b = i -> i <> j -> charge_of j b = 0 /\ count_of j b = 0.
Proof. intros <- H. unfold charge_of, count_of. by rewrite (proj2 (Z.eqb_neq _ _)). Qed.

Lemma charge_own i b : owner b = i -> charge_of i b = sizeof_header + size b /\ count_of i b = 1.
Proof. intros <-. unfold charge_of, count_of. by rewrite Z.eqb_refl. Qed.

Lemma accounts_add w i impl h b rcv :
  accounts w -> impls w !! i = Some impl -> 0 < h -> blocks w !! h = None ->
  owner b = i -> 0 <= size b ->
  live_bytes impl + (sizeof_header + size b) <= LQL_INSTANCE_MEMORY_LIMIT_BYTES ->
  accounts (mk_world (<[i := mk_impl (live_bytes impl + (sizeof_header + size b))
      (quota_allocation_count impl + 1) (receiver_destroyed impl)]> (impls w))
    (<[h := b]> (blocks w)) rcv).
Proof.
  intros [HI HB] Hi Hh Hf Ho Hn HL. split; intros j x Hj; cbn [impls blocks] in *.
  - apply lookup_insert_Some in Hj as [[<- <-]|[Hne Hj]].
    + destruct (HI _ _ Hi) as (H0 & H1 & H2 & H3). unfold impl_ok. cbn [live_bytes quota_allocation_count impls blocks].
      rewrite !msum_insert by done. destruct (charge_own i b Ho) as [-> ->].
      split_and!; [done|lia..].
    + destruct (HI _ _ Hj) as (H0 & H1 & H2 & H3). unfold impl_ok. cbn [blocks].
      rewrite !msum_insert by done. destruct (charge_other i j b Ho Hne) as [-> ->]. split_and!; [done|lia..].
  - unfold block_ok. cbn [impls]. apply lookup_insert_Some in Hj as [[<- <-]|[Hne Hj]].
    + split_and!; [done..|]. rewrite Ho, lookup_insert_eq. done.
    + apply HB in Hj as (H1 & H2 & H3). split_and!; [done..|]. by apply lookup_insert_is_Some'; right.
Qed.

Lemma accounts_remove w i impl h b rd rcv :
  accounts w -> impls w !! i = Some impl -> blocks w !! h = Some b -> owner b = i ->
  accounts (mk_world (<[i := mk_impl (live_bytes impl - (sizeof_header + size b))
      (quota_allocation_count impl - 1) rd]> (impls w)) (delete h (blocks w)) rcv).
Proof.
  intros [HI HB] Hi Hb Ho. split; intros j x Hj; cbn [impls blocks] in *.
  - unfold impl_ok. cbn [blocks].
    apply lookup_insert_Some in Hj as [[<- <-]|[Hne Hj]].
    + destruct (HI _ _ Hi) as (H0 & H1 & H2 & H3). cbn [live_bytes quota_allocation_count].
      rewrite (msum_delete _ _ _ _ Hb) in H1. rewrite (msum_delete _ _ _ _ Hb) in H2. destruct (charge_own i b Ho) as [E1 E2].
      rewrite E1 in H1. rewrite E2 in H2. apply HB in Hb as (_ & Hs & _).
      unfold sizeof_header in *. split_and!; [done|lia..].
    + destruct (HI _ _ Hj) as (H0 & H1 & H2 & H3).
      rewrite (msum_delete _ _ _ _ Hb) in H1. rewrite (msum_delete _ _ _ _ Hb) in H2. destruct (charge_other i j b Ho Hne) as [E1 E2].
      rewrite E1 in H1. rewrite E2 in H2. split_and!; [done|lia..].
  - unfold block_ok. cbn [impls]. apply lookup_delete_Some in Hj as [_ Hj].
    apply HB in Hj as (H1 & H2 & H3). split_and!; [done..|]. by apply lookup_insert_is_Some'; right.
Qed.

(** A marked, blockless instance can go. *)
Lemma accounts_release w i impl rcv :
  accounts w -> impls w !! i = Some impl -> quota_allocation_count impl = 0 ->
  accounts (mk_world (delete i (impls w)) (blocks w) rcv).
Proof.
  intros Hw Hi Hc. pose proof Hw as [HI HB]. split; intros j x Hj; cbn [impls blocks] in *.
  - apply lookup_delete_Some in Hj as [_ Hj]. by apply HI in Hj.
  - apply HB in Hj as Hx. destruct Hx as (H1 & H2 & H3).
    split_and!; [done..|]. cbn [impls]. rewrite lookup_delete_ne; [done|]. intros Ho.
    destruct (account_block w i impl Hw Hi j x Hj (eq_sym Ho)) as (_ & _ & H4). lia.
Qed.

Lemma msum_same {A} (f : A -> Z) m k a a' :
  m !! k = Some a -> f a' = f a -> msum f (<[k := a']> m) = msum f m.
Proof.
  intros Hk Hf. rewrite (msum_delete f m k a Hk), (msum_delete f (<[k := a']> m) k a')
    by apply lookup_insert_eq.
  by rewrite delete_insert_eq, Hf.
Qed.

(** Rewriting a payload changes no account. *)
Lemma fill_payload_ok x w p b data :
  world_ok_but x w -> blocks w !! (p - sizeof_header) = Some b ->
  let b' := mk_block (size b) (owner b) data in
  fill_payload w p data = Some (set_block w (p - sizeof_header) b') /\
  world_ok_but x (set_block w (p - sizeof_header) b').
Proof.
  intros ([HI HB] & HR & HH & HU) Hb b'. unfold fill_payload. rewrite Hb. split; [done|].
  unfold set_block. split_and!.
  - split; intros j y Hj; cbn [impls blocks] in *.
    + unfold impl_ok. cbn [blocks]. rewrite !(msum_same _ _ _ _ _ Hb) by done. by apply HI.
    + apply lookup_insert_Some in Hj as [[<- <-]|[_ Hj]]; [exact (HB _ _ Hb)|exact (HB _ _ Hj)].
  - intros ctx i Hc. cbn [receivers] in Hc. destruct (HR _ _ Hc) as [(b0 & Hb0 & Ho) Hi].
    split; [|done]. cbn [blocks]. destruct (decide (ctx - sizeof_header = p - sizeof_header)) as [E|E].
    + rewrite E in Hb0 |- *. rewrite lookup_insert_eq. exists b'. split; [done|].
      cbn. congruence.
    + exists b0. rewrite lookup_insert_ne by done. done.
  - exact HH.
  - exact HU.
Qed.

(** ** Allocation *)

Section alloc.
Context (up : upstream) (Hup : upstream_ok up) (x : Z).

(** What [quota_alloc] does on an instance of a sound world. *)
Lemma quota_alloc_cases w i impl n :
  world_ok_but x w -> impls w !! i = Some impl -> 0 <= n ->
  if LQL_INSTANCE_MEMORY_LIMIT_BYTES <? live_bytes impl + (sizeof_header + n) then
    quota_alloc up w i n = Some (w, 0)
  else
    match up_alloc up w (sizeof_header + n) with
    | None => quota_alloc up w i n = Some (w, 0)
    | Some h =>
        let b := mk_block n i (up_bytes up w n) in
        quota_alloc up w i n =
          Some (mk_world (<[i := mk_impl (live_bytes impl + (sizeof_header + n))
              (quota_allocation_count impl + 1) (receiver_destroyed impl)]> (impls w))
            (<[h := b]> (blocks w)) (receivers w), h + sizeof_header)
    end.
Proof.
  intros (Hw & _) Hi Hn. destruct (account_bounds w i impl Hw Hi) as (H0 & _ & Hc & HL & HcL).
  unfold quota_alloc. rewrite (proj2 (Z.eqb_neq i 0)) by done. cbn [orb].
  unfold LQL_INSTANCE_MEMORY_LIMIT_BYTES, sizeof_impl, sizeof_header in *.
  destruct (SIZE_MAX - 16 <? n) eqn:Eb; bool_hyps; unfold SIZE_MAX in Eb.
  { rewrite (proj2 (Z.ltb_lt _ _)) by lia. done. }
  rewrite Hi. cbn [mbind option_bind]. rewrite size_add_id, size_sub_id by (unfold SIZE_MAX; lia).
  destruct (8 * 1024 * 1024 <? live_bytes impl + (16 + n)) eqn:E; bool_hyps.
  { rewrite (proj2 (Z.ltb_lt _ _)) by lia. done. }
  rewrite (proj2 (Z.ltb_ge _ _)) by lia.
  destruct (up_alloc up w (16 + n)) as [h|]; [|done].
  by rewrite !size_add_id by (unfold SIZE_MAX; lia).
Qed.

(** A new block in a sound world. *)
Lemma world_ok_add w i impl h b :
  world_ok_but x w -> impls w !! i = Some impl -> 0 < h -> blocks w !! h = None ->
  owner b = i -> 0 <= size b ->
  live_bytes impl + (sizeof_header + size b) <= LQL_INSTANCE_MEMORY_LIMIT_BYTES ->
  world_ok_but x (mk_world (<[i := mk_impl (live_bytes impl + (sizeof_header + size b))
      (quota_allocation_count impl + 1) (receiver_destroyed impl)]> (impls w))
    (<[h := b]> (blocks w)) (receivers w)).
Proof.
  intros (Hw & HR & HH & HU) Hi Hh Hf Ho Hn HL. split_and!.
  - by apply accounts_add.
  - intros ctx j Hc. destruct (HR _ _ Hc) as [(b0 & Hb0 & Ho0) (im & Him & Hd)].
    split; cbn [impls blocks].
    + exists b0. rewrite lookup_insert_ne by congruence. done.
    + destruct (decide (i = j)) as [<-|Hne].
      * rewrite lookup_insert_eq. eexists. split; [done|]. cbn. congruence.
      * rewrite lookup_insert_ne by done. eauto.
  - intros j y Hj Hx. cbn [impls] in Hj. unfold impl_held. cbn [receivers].
    apply lookup_insert_Some in Hj as [[<- <-]|[_ Hj]]; [|exact (HH _ _ Hj Hx)].
    specialize (HH _ _ Hi Hx). unfold impl_held in HH. cbn [receiver_destroyed quota_allocation_count].
    destruct (receiver_destroyed impl); [lia|done].
  - exact HU.
Qed.

(** The same instances are marked destroyed. *)
Definition flags_kept (w w' : world) : Prop :=
  forall j, receiver_destroyed <$> impls w' !! j = receiver_destroyed <$> impls w !! j.

(** A result of an allocation: NULL and nothing changed, or a new block of the
    instance, of the requested size. *)
Definition allocated (w : world) (i n : Z) (data : bytes -> Prop) (w' : world) (p : Z) : Prop :=
  (p = 0 /\ w' = w) \/
  (p <> 0 /\ blocks w !! (p - sizeof_header) = None /\ receivers w' = receivers w /\
   flags_kept w w' /\
   exists d, blocks w' = <[p - sizeof_header := mk_block n i d]> (blocks w) /\ data d).

Lemma quota_alloc_ok w i n :
  world_ok_but x w -> is_Some (impls w !! i) -> 0 <= n ->
  exists w' p, quota_alloc up w i n = Some (w', p) /\ world_ok_but x w' /\
    allocated w i n (fun _ => True) w' p.
Proof.
  intros Hw [impl Hi] Hn. pose proof (quota_alloc_cases w i impl n Hw Hi Hn) as H. revert H.
  case_if; [intros ->; exists w, 0; split_and!; [done|done|by left]|]. bool_hyps.
  destruct (up_alloc up w (sizeof_header + n)) as [h|] eqn:Eh;
    [|intros ->; exists w, 0; split_and!; [done|done|by left]].
  apply (up_alloc_fresh up Hup) in Eh as (Hh & _ & Hf). intros ->.
  eexists _, _. split_and!; [done| |].
  - by apply (world_ok_add w i impl h (mk_block n i (up_bytes up w n))).
  - right. unfold sizeof_header in *. replace (h + 16 - 16) with h by lia.
    split_and!; [lia|done|done| |eexists; split; done]. intros j. cbn [impls].
    destruct (decide (i = j)) as [<-|Hne]; [by rewrite lookup_insert_eq, Hi|].
    by rewrite lookup_insert_ne.
Qed.

(** Filling what was just allocated. *)
Lemma alloc_filled w i n w' p data :
  allocated w i n (fun _ => True) w' p -> p <> 0 -> world_ok_but x w' ->
  exists w'', fill_payload w' p data = Some w'' /\ world_ok_but x w'' /\
    allocated w i n (fun d => d = data) w'' p.
Proof.
  intros [[? _]|(Hp & Hf & HR & HF & d & HB & _)] Hp' Hw'; [done|].
  destruct (fill_payload_ok x w' p (mk_block n i d) data) as [-> Hok];
    [done|by rewrite HB, lookup_insert_eq|].
  eexists. split_and!; [done|done|]. right. split_and!; [done..|]. exists data. split; [|done].
  cbn [blocks set_block size owner]. by rewrite HB, insert_insert_eq.
Qed.

Lemma quota_calloc_ok w i count n :
  world_ok_but x w -> is_Some (impls w !! i) -> 0 <= count -> 0 <= n ->
  exists w' p, quota_calloc up w i count n = Some (w', p) /\ world_ok_but x w' /\
    allocated w i (count * n) (fun d => d = repeat 0 (Z.to_nat (count * n))) w' p.
Proof.
  intros Hw Hi Hc Hn. unfold quota_calloc.
  destruct (negb (count =? 0) && (SIZE_MAX / count <? n)) eqn:E.
  { exists w, 0. split_and!; [done|done|by left]. }
  assert (0 <= count * n <= SIZE_MAX) as Hm.
  { destruct (Z.eq_dec count 0) as [->|Hc0]; [by cbn|]. rewrite (proj2 (Z.eqb_neq _ _)) in E by done.
    cbn [negb andb] in E. bool_hyps. split; [nia|].
    pose proof (Z.mul_div_le SIZE_MAX count ltac:(lia)). nia. }
  assert (size_mul count n = count * n) as ->.
  { unfold size_mul, SIZE_MAX in *. apply Z.mod_small. lia. }
  destruct (quota_alloc_ok w i (count * n)) as (w' & p & -> & Hw' & Ha); [done..|lia|].
  cbn [mbind option_bind]. destruct (p =? 0) eqn:Ep; bool_hyps.
  { destruct Ha as [[-> ->]|[? _]]; [|done]. eexists _, _. split_and!; [done|done|by left]. }
  destruct (alloc_filled w i (count * n) w' p (repeat 0 (Z.to_nat (count * n)))) as (w'' & -> & ? & ?);
    [done..|]. cbn [mbind option_bind]. eauto.
Qed.

Lemma quota_strdup_ok w i text :
  world_ok_but x w -> is_Some (impls w !! i) -> Z.of_nat (length text) <= SIZE_MAX ->
  exists w' p, quota_strdup up w i text = Some (w', p) /\ world_ok_but x w' /\
    allocated w i (Z.of_nat (length text) + 1) (fun d => d = text ++ [0]) w' p.
Proof.
  intros Hw Hi Hl. unfold quota_strdup. destruct (_ =? SIZE_MAX) eqn:E; bool_hyps.
  { exists w, 0. split_and!; [done|done|by left]. }
  rewrite size_add_id by lia.
  destruct (quota_alloc_ok w i (Z.of_nat (length text) + 1)) as (w' & p & -> & Hw' & Ha); [done..|lia|].
  cbn [mbind option_bind]. destruct (p =? 0) eqn:Ep; bool_hyps.
  { destruct Ha as [[-> ->]|[? _]]; [|done]. eexists _, _. split_and!; [done|done|by left]. }
  destruct (alloc_filled w i (Z.of_nat (length text) + 1) w' p (text ++ [0])) as (w'' & -> & ? & ?);
    [done..|]. cbn [mbind option_bind]. eauto.
Qed.
End alloc.

(** ** Release *)

(** Dropping an idle instance: [w] is sound but for [i], which may be marked
    destroyed and left without blocks. *)
Lemma release_ok w i impl :
  accounts w -> map_Forall (receiver_ok w) (receivers w) -> receivers_unique w ->
  impls w !! i = Some impl ->
  (receiver_destroyed impl = false -> exists ctx, receivers w !! ctx = Some i) ->
  (forall j x, j <> i -> impls w !! j = Some x -> impl_held w j x) ->
  exists w', lql_allocator_instance_release_if_idle w i = Some w' /\ world_ok w' /\
    blocks w' = blocks w /\ receivers w' = receivers w /\
    impls w' = if receiver_destroyed impl && (quota_allocation_count impl =? 0)
               then delete i (impls w) else impls w.
Proof.
  intros Hw HR HU Hi Hd Hh. unfold lql_allocator_instance_release_if_idle, free_impl. rewrite Hi.
  cbn [mbind option_bind]. rewrite decide_True by done.
  destruct (account_bounds w i impl Hw Hi) as (_ & _ & Hc & _).
  destruct (receiver_destroyed impl) eqn:Ed; cbn [andb].
  - destruct (quota_allocation_count impl =? 0) eqn:Ec; bool_hyps.
    + eexists. split_and!; [done| |done..]. split_and!.
      * by eapply accounts_release.
      * intros ctx j Hj. destruct (HR _ _ Hj) as [Hb (im & Him & Hdi)]. split; [done|].
        exists im. cbn [impls]. rewrite lookup_delete_ne by congruence. done.
      * intros j x Hj _. cbn [impls] in Hj. apply lookup_delete_Some in Hj as [Hne Hj].
        exact (Hh j x (not_eq_sym Hne) Hj).
      * exact HU.
    + exists w. split_and!; try done. split_and!; try done. intros j x Hj _.
      destruct (decide (j = i)) as [->|Hne]; [|by apply Hh].
      rewrite Hi in Hj. injection Hj as <-. unfold impl_held. rewrite Ed. lia.
  - exists w. split_and!; try done. split_and!; try done. intros j x Hj _.
    destruct (decide (j = i)) as [->|Hne]; [|by apply Hh].
    rewrite Hi in Hj. injection Hj as <-. unfold impl_held. rewrite Ed. by apply Hd.
Qed.

(** Releasing a block that is not a receiver, as [quota_destroy] and
    [quota_realloc] to size 0 do. *)
Lemma drop_block_ok w i impl h b :
  world_ok w -> impls w !! i = Some impl -> blocks w !! h = Some b -> owner b = i ->
  receivers w !! (h + sizeof_header) = None ->
  let im := mk_impl (size_sub (live_bytes impl) (size_add sizeof_header (size b)))
              (size_sub (quota_allocation_count impl) 1) (receiver_destroyed impl) in
  exists w1 w', free_block (set_impl w i im) h = Some w1 /\
    lql_allocator_instance_release_if_idle w1 i = Some w' /\ world_ok w' /\
    blocks w' = delete h (blocks w) /\ receivers w' = receivers w /\
    impls w' = (if receiver_destroyed impl && (quota_allocation_count impl =? 1)
                then delete i (impls w) else <[i := im]> (impls w)).
Proof.
  intros (Hw & HR & HH & HU) Hi Hb Ho Hrec im. subst im.
  destruct (account_bounds w i impl Hw Hi) as (H0 & _ & Hc & HL & HcL).
  destruct (account_block w i impl Hw Hi h b Hb Ho) as (Hs & HsL & Hc1).
  unfold LQL_INSTANCE_MEMORY_LIMIT_BYTES in *.
  rewrite (size_add_id sizeof_header (size b)), !size_sub_id
    by (unfold sizeof_header, sizeof_impl, SIZE_MAX in *; lia).
  set (im := mk_impl _ _ _).
  unfold free_block, set_impl. cbn [blocks impls receivers]. rewrite decide_True by done.
  rewrite (delete_id _ _ Hrec). set (w1 := mk_world _ _ _).
  assert (accounts w1) as HA by (by apply accounts_remove).
  assert (map_Forall (receiver_ok w1) (receivers w1)) as HR1.
  { intros ctx j Hj. cbn [receivers w1] in Hj. destruct (HR _ _ Hj) as [(b0 & Hb0 & Ho0) (im0 & Him & Hd)].
    split; cbn [impls blocks w1].
    - exists b0. rewrite lookup_delete_ne; [done|]. intros ->.
      replace (ctx - sizeof_header + sizeof_header) with ctx in Hrec by lia. congruence.
    - destruct (decide (i = j)) as [<-|Hne].
      + rewrite lookup_insert_eq. eexists. split; [done|]. cbn. congruence.
      + rewrite lookup_insert_ne by done. eauto. }
  destruct (release_ok w1 i im) as (w' & Hrel & Hok & HB & HRr & HI); [done..| | | |].
  - cbn [impls w1]. apply lookup_insert_eq.
  - cbn [receiver_destroyed im]. intros Hd. specialize (HH _ _ Hi H0). unfold impl_held in HH.
    rewrite Hd in HH. done.
  - intros j x Hne Hj. cbn [impls w1] in Hj. rewrite lookup_insert_ne in Hj by done.
    apply (HH _ _ Hj). destruct Hw as [HI0 _]. by apply HI0 in Hj as [? _].
  - exists w1, w'. split_and!; try done. rewrite HI. cbn [receiver_destroyed quota_allocation_count im].
    assert ((quota_allocation_count impl - 1 =? 0) = (quota_allocation_count impl =? 1)) as -> by lia.
    unfold w1; cbn [impls]. clear HI. destruct (_ && _); [|done]. by rewrite delete_insert_eq.
Qed.

Definition client_block (w : world) (p : Z) : Prop :=
  p <> 0 /\ is_Some (blocks w !! (p - sizeof_header)) /\ receivers w !! p = None.

Lemma block_owner w h b : world_ok w -> blocks w !! h = Some b ->
  exists impl, impls w !! owner b = Some impl /\ owner b <> 0.
Proof.
  intros ((HI & HB) & _) Hb. destruct (HB _ _ Hb) as (_ & _ & [impl Hi]).
  exists impl. split; [done|]. by apply HI in Hi as [? _].
Qed.

Lemma quota_destroy_ok w i p :
  world_ok w -> i <> 0 -> p = 0 \/ client_block w p ->
  exists w', quota_destroy w i p = Some w' /\ world_ok w' /\ receivers w' = receivers w /\
    blocks w' = if p =? 0 then blocks w else delete (p - sizeof_header) (blocks w).
Proof.
  intros Hw Hi [->|(Hp & [b Hb] & Hrec)]; unfold quota_destroy;
    rewrite (proj2 (Z.eqb_neq i 0)) by done; cbn [orb]; [by exists w|].
  rewrite (proj2 (Z.eqb_neq p 0)) by done. rewrite Hb. cbn [mbind option_bind].
  destruct (block_owner w _ b Hw Hb) as (impl & Him & Ho).
  rewrite (proj2 (Z.eqb_neq _ 0)), Him by done. cbn [mbind option_bind].
  destruct (drop_block_ok w (owner b) impl (p - sizeof_header) b) as (w1 & w' & -> & Hr & ? & ? & ? & ?);
    [done..| |].
  { by replace (p - sizeof_header + sizeof_header) with p by lia. }
  cbn [mbind option_bind]. exists w'. done.
Qed.

(** ** Resizing *)

(** The outcomes of [quota_realloc] on a block [b] of the receiver's instance:
    refused or freed (size 0), or moved with its first bytes kept. *)
Definition reallocated (w : world) (p n : Z) (b : lql_quota_block) (w' : world) (q : Z) : Prop :=
  (q = 0 /\ w' = w) \/
  (q = 0 /\ n = 0 /\ receivers w' = receivers w /\
   blocks w' = delete (p - sizeof_header) (blocks w)) \/
  (q <> 0 /\ 0 < n /\ receivers w' = receivers w /\
   exists d, blocks w' = <[q - sizeof_header := mk_block n (owner b) d]>
                           (delete (p - sizeof_header) (blocks w)) /\
     take (Z.to_nat n) (payload b) `prefix_of` d).

Section realloc.
Context (up : upstream) (Hup : upstream_ok up).

Lemma free_client_block w p b rd :
  world_ok w -> client_block w p -> blocks w !! (p - sizeof_header) = Some b ->
  forall impl, impls w !! owner b = Some impl ->
  free_block w (p - sizeof_header) =
    Some (mk_world (impls w) (delete (p - sizeof_header) (blocks w)) (receivers w)) /\
  accounts (mk_world (<[owner b := mk_impl (live_bytes impl - (sizeof_header + size b))
    (quota_allocation_count impl - 1) rd]> (impls w))
    (delete (p - sizeof_header) (blocks w)) (receivers w)).
Proof.
  intros Hw (Hp & _ & Hrec) Hb impl Hi. split.
  - unfold free_block. rewrite decide_True by done.
    replace (p - sizeof_header + sizeof_header) with p by lia. by rewrite (delete_id _ _ Hrec).
  - apply accounts_remove; [by destruct Hw|done..].
Qed.

Lemma world_ok_move w p b impl next d n :
  world_ok w -> client_block w p -> blocks w !! (p - sizeof_header) = Some b ->
  impls w !! owner b = Some impl -> 0 < next ->
  delete (p - sizeof_header) (blocks w) !! next = None -> 0 <= n ->
  live_bytes impl - (sizeof_header + size b) + (sizeof_header + n)
    <= LQL_INSTANCE_MEMORY_LIMIT_BYTES ->
  world_ok (mk_world
    (<[owner b := mk_impl (live_bytes impl - (sizeof_header + size b) + (sizeof_header + n))
         (quota_allocation_count impl) (receiver_destroyed impl)]> (impls w))
    (<[next := mk_block n (owner b) d]> (delete (p - sizeof_header) (blocks w)))
    (receivers w)).
Proof.
  intros Hw Hp Hb Hi Hnx Hf Hn HL.
  destruct (free_client_block w p b (receiver_destroyed impl) Hw Hp Hb impl Hi) as [_ HA].
  destruct Hp as (Hp0 & _ & Hrec). destruct Hw as (_ & HR & HH & HU). split_and!.
  - eapply accounts_add with (h := next) (b := mk_block n (owner b) d) in HA;
      [|apply lookup_insert_eq|done..].
    cbn [impls blocks live_bytes quota_allocation_count receiver_destroyed size owner] in HA.
    rewrite insert_insert_eq in HA.
    by replace (quota_allocation_count impl - 1 + 1) with (quota_allocation_count impl) in HA by lia.
  - intros ctx j Hc. destruct (HR _ _ Hc) as [(b0 & Hb0 & Ho0) (im & Him & Hd)].
    assert (ctx <> p) as Hne by (intros ->; cbn [receivers] in Hc; congruence).
    assert (delete (p - sizeof_header) (blocks w) !! (ctx - sizeof_header) = Some b0) as Hb1
      by (rewrite lookup_delete_ne by lia; done).
    split; cbn [impls blocks].
    + exists b0. rewrite lookup_insert_ne by congruence. done.
    + destruct (decide (owner b = j)) as [<-|Hne'].
      * rewrite lookup_insert_eq. eexists. split; [done|]. cbn. congruence.
      * rewrite lookup_insert_ne by done. eauto.
  - intros j y Hj Hj0. cbn [impls] in Hj. unfold impl_held. cbn [receivers].
    apply lookup_insert_Some in Hj as [[<- <-]|[_ Hj]]; [|exact (HH _ _ Hj Hj0)].
    exact (HH _ _ Hi Hj0).
  - exact HU.
Qed.

Lemma quota_realloc_ok w i p n b :
  world_ok w -> is_Some (impls w !! i) -> client_block w p -> 0 <= n ->
  blocks w !! (p - sizeof_header) = Some b ->
  exists w' q, quota_realloc up w i p n = Some (w', q) /\ world_ok w' /\
    reallocated w p n b w' q.
Proof.
  intros Hw [impl Hi] Hc Hn Hb. pose proof Hc as (Hp & _ & Hrec).
  pose proof Hw as (HA & _). destruct (account_bounds w i impl HA Hi) as (H0 & _ & Hcn & HL & HcL).
  unfold quota_realloc. rewrite (proj2 (Z.eqb_neq p 0)), (proj2 (Z.eqb_neq i 0)) by done. cbn [orb].
  assert (world_ok w /\ reallocated w p n b w 0) as Hno by (split; [done|by left]).
  case_if; [eauto|]. bool_hyps. rewrite Hi. cbn [mbind option_bind]. rewrite Hb. cbn [mbind option_bind].
  destruct (owner b =? i) eqn:Eo; [|cbn [negb]; eauto]. bool_hyps. cbn [negb]. subst i.
  destruct (account_block w _ impl HA Hi _ b Hb eq_refl) as (Hs & HsL & Hc1).
  destruct (n =? 0) eqn:En.
  { bool_hyps. subst n.
    destruct (drop_block_ok w (owner b) impl (p - sizeof_header) b) as (w1 & w' & -> & Hr & Hok & HB & HRr & _);
      [done..|by replace (p - sizeof_header + sizeof_header) with p by lia|].
    cbn [mbind option_bind]. rewrite Hr. cbn [mbind option_bind].
    exists w', 0. split_and!; [done..|]. right. left. split_and!; done. }
  bool_hyps. unfold sizeof_header, sizeof_impl, LQL_INSTANCE_MEMORY_LIMIT_BYTES, SIZE_MAX in *.
  rewrite !(size_add_id 16), (size_sub_id _ (live_bytes impl)) by (unfold SIZE_MAX; lia).
  destruct (_ && _) eqn:Elim; [eauto|].
  assert (live_bytes impl - (16 + size b) + (16 + n) <= 8 * 1024 * 1024) as Hfit.
  { apply andb_false_iff in Elim as [Elim|Elim]; bool_hyps; [lia|].
    destruct (Z.le_gt_cases (size b) n); [|lia].
    rewrite size_sub_id in Elim by (unfold SIZE_MAX; lia). lia. }
  destruct (up_realloc up w (p - 16) (16 + n)) as [next|] eqn:Er; [|eauto].
  apply (up_realloc_fresh up Hup) in Er as (Hnx & _ & Hnf).
  destruct (free_client_block w p b false Hw Hc Hb impl Hi) as [Efree _].
  unfold sizeof_header in Efree. rewrite Efree.
  cbn [mbind option_bind].
  rewrite size_sub_id, size_add_id by (unfold SIZE_MAX; lia).
  eexists _, _. split; [done|]. split.
  - apply (world_ok_move w p b impl next); try done.
    unfold sizeof_header. destruct Hnf as [->|Hnf]; [apply lookup_delete_eq|].
    apply lookup_delete_None. by right.
  - right. right. unfold sizeof_header. replace (next + 16 - 16) with next by lia.
    split_and!; [lia|lia|done|]. eexists. split; [done|]. by apply prefix_app_r.
Qed.
End realloc.

(** ** Receivers *)

Section receivers.
Context (up : upstream) (Hup : upstream_ok up).

Lemma accounts_new w i :
  accounts w -> i <> 0 -> impls w !! i = None ->
  accounts (set_impl w i (mk_impl sizeof_impl 0 false)).
Proof.
  intros [HI HB] H0 Hi.
  assert (forall j b, blocks w !! j = Some b -> owner b <> i) as Hno.
  { intros j b (_ & _ & [im Him])%HB Ho. congruence. }
  split; intros j y Hj; cbn [impls blocks set_impl] in *.
  - apply lookup_insert_Some in Hj as [[<- <-]|[_ Hj]]; [|exact (HI _ _ Hj)].
    assert (msum (charge_of i) (blocks w) = 0 /\ msum (count_of i) (blocks w) = 0) as [E1 E2].
    { clear -Hno. revert Hno. generalize (blocks w) as m. intros m.
      induction m as [|k b m Hk IH] using map_ind; intros Hno; [done|].
      rewrite !msum_insert by done.
      destruct (charge_other (owner b) i b eq_refl) as [-> ->];
        [apply (Hno k); apply lookup_insert_eq|].
      apply IH. intros k' b' Hk'. apply (Hno k'). rewrite lookup_insert_ne by congruence. done. }
    unfold impl_ok. cbn [blocks set_impl live_bytes quota_allocation_count]. rewrite E1, E2.
    split_and!; done.
  - apply HB in Hj as (H1 & H2 & H3). split_and!; [done..|]. by apply lookup_insert_is_Some'; right.
Qed.

Lemma lql_new_ok w :
  world_ok w -> exists w' ctx, lql_new up w = Some (w', ctx) /\ world_ok w' /\
    (ctx <> 0 -> exists i, receivers w' = <[ctx := i]> (receivers w) /\ receivers w !! ctx = None).
Proof.
  intros (HA & HR & HH & HU). unfold lql_new.
  destruct (up_alloc up w sizeof_impl) as [i|] eqn:Eu; [|by exists w, 0].
  apply (up_alloc_fresh up Hup) in Eu as (Hi & Hfi & _).
  assert (i <> 0) as Hi0 by lia. pose proof (accounts_new w i HA Hi0 Hfi) as HA1.
  set (w1 := set_impl w i (mk_impl sizeof_impl 0 false)) in *.
  assert (Hfresh : forall c, receivers w !! c = Some i -> False).
  { intros c Hc. destruct (HR _ _ Hc) as [_ (im & Him & _)]. congruence. }
  assert (world_ok_but i w1) as Hw1.
  { split_and!; [done| | |done].
    - intros ctx j Hc. destruct (HR _ _ Hc) as [Hb (im & Him & Hd)]. split; [done|].
      exists im. cbn [impls w1 set_impl]. rewrite lookup_insert_ne by congruence. done.
    - intros j y Hj Hne. unfold w1, set_impl in Hj. cbn [impls] in Hj.
      rewrite lookup_insert_ne in Hj by done. apply (HH _ _ Hj).
      destruct HA as [HI _]. by apply HI in Hj as [? _]. }
  destruct (quota_calloc_ok up Hup i w1 i 1 sizeof_lql) as (w2 & ctx & -> & Hw2 & Hal);
    [done|by unfold w1, set_impl; cbn [impls]; rewrite lookup_insert_eq|done|done|].
  cbn [mbind option_bind].
  destruct (ctx =? 0) eqn:Ec; bool_hyps.
  - destruct Hal as [[_ ->]|[? _]]; [|done]. unfold free_impl. rewrite decide_True
      by (cbn; by rewrite lookup_insert_eq). cbn [mbind option_bind].
    eexists _, 0. split_and!; [done| |done]. unfold w1, set_impl. cbn [impls blocks receivers].
    rewrite delete_insert_id by done. destruct w. done.
  - destruct Hal as [[? _]|(_ & Hnb & HRr & HF & d & HB & _)]; [done|].
    eexists _, ctx. split; [done|]. destruct Hw2 as (HA2 & HR2 & HH2 & HU2).
    assert (receivers w2 !! ctx = None) as Hnew.
    { destruct (receivers w2 !! ctx) as [j|] eqn:E; [|done]. rewrite HRr in E.
      destruct (HR _ _ E) as [(b & Hb & _) _]. cbn in Hnb. congruence. }
    split; [split_and!|].
    + exact HA2.
    + intros c j Hc. cbn [receivers] in Hc.
      apply lookup_insert_Some in Hc as [[<- <-]|[_ Hc]]; [|exact (HR2 _ _ Hc)].
      split; cbn [impls blocks].
      { exists (mk_block (1 * sizeof_lql) i d). by rewrite HB, lookup_insert_eq. }
      destruct (HA2) as [HI2 HB2].
      destruct (HB2 (ctx - sizeof_header) (mk_block (1 * sizeof_lql) i d)) as (_ & _ & [im Him]);
        [by rewrite HB, lookup_insert_eq|]. cbn [owner] in Him. exists im. split; [done|].
      specialize (HF i). rewrite Him in HF. unfold w1, set_impl in HF. cbn [impls] in HF.
      rewrite lookup_insert_eq in HF. by injection HF.
    + intros j y Hj Hj0. unfold impl_held. cbn [receivers].
      destruct (decide (j = i)) as [->|Hne].
      * specialize (HF i). cbn [impls] in Hj. rewrite Hj in HF. unfold w1, set_impl in HF.
        cbn [impls] in HF. rewrite lookup_insert_eq in HF. injection HF as ->.
        exists ctx. apply lookup_insert_eq.
      * specialize (HH2 j y Hj Hne). unfold impl_held in HH2. destruct (receiver_destroyed y); [done|].
        destruct HH2 as [c Hc]. exists c. rewrite lookup_insert_ne by congruence. done.
    + intros c1 c2 j H1 H2. cbn [receivers] in *.
      apply lookup_insert_Some in H1 as [[<- <-]|[? H1]], H2 as [[<- H2]|[? H2]]; try done.
      * rewrite HRr in H2. by apply Hfresh in H2.
      * subst j. rewrite HRr in H1. by apply Hfresh in H1.
      * by apply (HU2 _ _ _ H1).
    + intros _. exists i. cbn [receivers]. rewrite HRr in Hnew |- *. done.
Qed.
End receivers.

Lemma release_busy w i impl :
  impls w !! i = Some impl -> receiver_destroyed impl = false ->
  lql_allocator_instance_release_if_idle w i = Some w.
Proof. intros Hi Hd. unfold lql_allocator_instance_release_if_idle. rewrite Hi. cbn. by rewrite Hd. Qed.

Lemma receiver_destroy_ok w ctx :
  world_ok w -> ctx = 0 \/ is_Some (receivers w !! ctx) ->
  exists w', receiver_destroy w ctx = Some w' /\ world_ok w' /\
    (ctx <> 0 -> receivers w' = delete ctx (receivers w) /\
      blocks w' = delete (ctx - sizeof_header) (blocks w)).
Proof.
  intros Hw Hc. unfold receiver_destroy. destruct (ctx =? 0) eqn:E0; bool_hyps; [by exists w|].
  destruct Hc as [->|[i Hi]]; [done|]. rewrite Hi. cbn [mbind option_bind].
  destruct Hw as (HA & HR & HH & HU). destruct (HR _ _ Hi) as [(b & Hb & Ho) (impl & Him & Hd)].
  destruct (account_bounds w i impl HA Him) as (H0 & _ & Hc & HL & HcL).
  destruct (account_block w i impl HA Him _ b Hb Ho) as (Hs & HsL & Hc1).
  rewrite (proj2 (Z.eqb_neq i 0)) by done. unfold quota_destroy.
  rewrite (proj2 (Z.eqb_neq i 0)), (proj2 (Z.eqb_neq ctx 0)) by done. cbn [orb].
  rewrite Hb. cbn [mbind option_bind]. rewrite Ho, (proj2 (Z.eqb_neq i 0)), Him by done.
  cbn [mbind option_bind]. rewrite Hd.
  rewrite (size_add_id sizeof_header (size b)), !size_sub_id
    by (unfold sizeof_header, sizeof_impl, SIZE_MAX, LQL_INSTANCE_MEMORY_LIMIT_BYTES in *; lia).
  unfold free_block, set_impl. cbn [blocks impls receivers]. rewrite decide_True by done.
  replace (ctx - sizeof_header + sizeof_header) with ctx by lia. cbn [mbind option_bind].
  erewrite release_busy by (apply lookup_insert_eq || done).
  cbn [mbind option_bind impls]. rewrite lookup_insert_eq.
  cbn [mbind option_bind live_bytes quota_allocation_count blocks receivers].
  rewrite insert_insert_eq. set (im := mk_impl _ _ true). set (w2 := mk_world _ _ _).
  destruct (release_ok w2 i im) as (w' & Hrel & Hok & HB & HRr & _).
  - by apply accounts_remove.
  - intros c j Hj. cbn [receivers w2] in Hj. apply lookup_delete_Some in Hj as [Hne Hj].
    destruct (HR _ _ Hj) as [(b0 & Hb0 & Ho0) (im0 & Him0 & Hd0)]. split; cbn [blocks impls w2].
    + exists b0. rewrite lookup_delete_ne by lia. done.
    + exists im0. split; [|done]. rewrite lookup_insert_ne; [done|]. intros <-. by apply Hne, (HU _ _ i).
  - intros c1 c2 j H1 H2. cbn [receivers w2] in *.
    apply lookup_delete_Some in H1 as [_ H1], H2 as [_ H2]. by apply (HU _ _ j).
  - apply lookup_insert_eq.
  - done.
  - intros j y Hne Hj. cbn [impls w2] in Hj. rewrite lookup_insert_ne in Hj by done.
    destruct HA as [HI HB']. assert (j <> 0) as Hj0 by (by apply HI in Hj as [? _]).
    specialize (HH _ _ Hj Hj0). unfold impl_held in *. destruct (receiver_destroyed y); [done|].
    destruct HH as [c Hc']. exists c. cbn [receivers w2].
    rewrite lookup_delete_ne; [done|]. intros <-. congruence.
  - exists w'. split_and!; done.
Qed.

(** ** Client calls *)

(** The calls of a client, through a receiver (0 is NULL). *)
Inductive call :=
  | New
  | DestroyReceiver (ctx : Z)
  | Alloc (ctx n : Z)
  | Calloc (ctx count n : Z)
  | Realloc (ctx p n : Z)
  | Destroy (ctx p : Z)
  | Strdup (ctx : Z) (text : bytes).

(** A valid call passes live pointers: a receiver that was not destroyed, and
    NULL or a block the allocator returned that was not released since (it may
    belong to another receiver, destroyed or not). *)
Definition valid_call (w : world) (c : call) : Prop :=
  let receiver ctx := is_Some (receivers w !! ctx) in
  let pointer p := p = 0 \/ client_block w p in
  match c with
  | New => True
  | DestroyReceiver ctx => ctx = 0 \/ receiver ctx
  | Alloc ctx n => receiver ctx /\ 0 <= n
  | Calloc ctx count n => receiver ctx /\ 0 <= count /\ 0 <= n
  | Realloc ctx p n => receiver ctx /\ pointer p /\ 0 <= n
  | Destroy ctx p => receiver ctx /\ pointer p
  | Strdup ctx text => receiver ctx /\ Z.of_nat (length text) <= SIZE_MAX
  end.

Definition no_result (o : option world) : option (world * Z) := w ← o; Some (w, 0).

Definition exec (up : upstream) (w : world) (c : call) : option (world * Z) :=
  match c with
  | New => lql_new up w
  | DestroyReceiver ctx => no_result (receiver_destroy w ctx)
  | Alloc ctx n => i ← lql_allocator_from_receiver w ctx; quota_alloc up w i n
  | Calloc ctx count n => i ← lql_allocator_from_receiver w ctx; quota_calloc up w i count n
  | Realloc ctx p n => i ← lql_allocator_from_receiver w ctx; quota_realloc up w i p n
  | Destroy ctx p => i ← lql_allocator_from_receiver w ctx; no_result (quota_destroy w i p)
  | Strdup ctx text => i ← lql_allocator_from_receiver w ctx; quota_strdup up w i text
  end.

(** The worlds a client can reach by valid calls from the empty one. *)
Inductive reachable (up : upstream) : world -> Prop :=
  | reachable_start : reachable up (mk_world ∅ ∅ ∅)
  | reachable_call w c w' r :
      reachable up w -> valid_call w c -> exec up w c = Some (w', r) -> reachable up w'.

Section calls.
Context (up : upstream) (Hup : upstream_ok up).

Lemma live_receiver w ctx :
  world_ok w -> is_Some (receivers w !! ctx) ->
  exists i, lql_allocator_from_receiver w ctx = Some i /\ is_Some (impls w !! i) /\ i <> 0.
Proof.
  intros ([HI HB] & HR & _) [i Hi]. destruct (HR _ _ Hi) as [(b & Hb & _) (im & Him & _)].
  exists i. unfold lql_allocator_from_receiver.
  assert (ctx <> 0) as Hc by (apply HB in Hb as (? & _); unfold sizeof_header in *; lia).
  rewrite (proj2 (Z.eqb_neq ctx 0)) by done. split_and!; [done|done|]. by apply HI in Him as [? _].
Qed.

Lemma exec_ok w c :
  world_ok w -> valid_call w c -> exists w' r, exec up w c = Some (w', r) /\ world_ok w'.
Proof.
  intros Hw Hv. destruct c; cbn [valid_call exec] in *.
  - destruct (lql_new_ok up Hup w Hw) as (w' & ctx & -> & ? & _). eauto.
  - destruct (receiver_destroy_ok w ctx Hw Hv) as (w' & -> & ? & _). cbn. eauto.
  - destruct Hv as [Hr Hn]. destruct (live_receiver w ctx Hw Hr) as (i & -> & Hi & _). cbn [mbind option_bind].
    destruct (quota_alloc_ok up Hup 0 w i n) as (w' & p & -> & ? & _); eauto.
  - destruct Hv as (Hr & Hc & Hn). destruct (live_receiver w ctx Hw Hr) as (i & -> & Hi & _). cbn [mbind option_bind].
    destruct (quota_calloc_ok up Hup 0 w i count n) as (w' & p & -> & ? & _); eauto.
  - destruct Hv as (Hr & [->|Hp] & Hn); destruct (live_receiver w ctx Hw Hr) as (i & -> & Hi & _); cbn [mbind option_bind].
    + unfold quota_realloc. cbn. destruct (quota_alloc_ok up Hup 0 w i n) as (w' & q & -> & ? & _); eauto.
    + pose proof Hp as (_ & [b Hb] & _).
      destruct (quota_realloc_ok up Hup w i p n b) as (w' & q & -> & ? & _); eauto.
  - destruct Hv as (Hr & Hp). destruct (live_receiver w ctx Hw Hr) as (i & -> & Hi & H0). cbn [mbind option_bind].
    destruct (quota_destroy_ok w i p Hw H0 Hp) as (w' & -> & ? & _). cbn. eauto.
  - destruct Hv as (Hr & Hn). destruct (live_receiver w ctx Hw Hr) as (i & -> & Hi & _). cbn [mbind option_bind].
    destruct (quota_strdup_ok up Hup 0 w i text) as (w' & p & -> & ? & _); eauto.
Qed.

Lemma reachable_ok w : reachable up w -> world_ok w.
Proof.
  induction 1 as [|w c w' r _ IH Hv He].
  - split_and!; [split; by intros ??|by intros ??|by intros ??|by intros ???].
  - destruct (exec_ok w c IH Hv) as (w1 & r1 & He1 & Hok). congruence.
Qed.
End calls.

(** ** The properties *)

Section properties.
Context (up : upstream) (Hup : upstream_ok up).

(** C25. No use after free, no double free: whatever valid calls a client has
    made, on any number of receivers and with blocks released through another
    receiver or after their own receiver was destroyed, the next valid call
    touches live blocks only and leaves every account sound. *)
Theorem allocator_safe w c :
  reachable up w -> valid_call w c -> exists w' r, exec up w c = Some (w', r) /\ world_ok w'.
Proof. intros Hw%reachable_ok Hv; [|done]. by apply exec_ok. Qed.

(** C31. An instance never holds more than 8 MiB, and its [live_bytes] is
    exactly its own structure plus header and size of each of its blocks. *)
Theorem allocator_quota w i impl :
  reachable up w -> impls w !! i = Some impl ->
  live_bytes impl = sizeof_impl + msum (charge_of i) (blocks w) /\
  live_bytes impl <= LQL_INSTANCE_MEMORY_LIMIT_BYTES /\
  quota_allocation_count impl = msum (count_of i) (blocks w).
Proof.
  intros Hw%reachable_ok Hi; [|done]. destruct Hw as ([HI _] & _).
  destruct (HI _ _ Hi) as (_ & H1 & H2 & H3). done.
Qed.

(** C34. Nothing is leaked: when every receiver is destroyed and every block
    released, no instance is left; and an instance whose receiver is destroyed
    lives only as long as it has blocks. *)
Theorem allocator_no_leak w :
  reachable up w ->
  (blocks w = ∅ -> impls w = ∅) /\
  (forall i impl, impls w !! i = Some impl -> receiver_destroyed impl = true ->
     exists h b, blocks w !! h = Some b /\ owner b = i).
Proof.
  intros Hw%reachable_ok; [|done]. pose proof Hw as ([HI HB] & HR & HH & HU).
  assert (forall i impl, impls w !! i = Some impl ->
    exists h b, blocks w !! h = Some b /\ owner b = i) as K.
  { intros i impl Hi. pose proof (HI _ _ Hi) as (H0 & _ & Hc & _).
    specialize (HH _ _ Hi H0). unfold impl_held in HH. destruct (receiver_destroyed impl).
    - rewrite Hc in HH. clear -HH. revert HH. generalize (blocks w) as m. intros m.
      induction m as [|k b m Hk IH] using map_ind; intros H; [by cbn in H|].
      rewrite msum_insert in H by done. destruct (decide (owner b = i)) as [Ho|Hne].
      + exists k, b. by rewrite lookup_insert_eq.
      + destruct (charge_other (owner b) i b eq_refl Hne) as [_ Ez]. rewrite Ez in H.
        destruct IH as (h & b' & Hb' & Ho'); [lia|]. exists h, b'.
        rewrite lookup_insert_ne by congruence. done.
    - destruct HH as [ctx Hc']. destruct (HR _ _ Hc') as [(b & Hb & Ho) _]. eauto. }
  split.
  - intros E. apply map_empty. intros i. destruct (impls w !! i) as [impl|] eqn:Hi; [|done].
    destruct (K i impl Hi) as (h & b & Hb & _). rewrite E, lookup_empty in Hb. done.
  - intros i impl Hi _. by apply (K i impl).
Qed.

(** [quota_strdup] and [quota_calloc] either return NULL and change
    nothing, or a fresh block of the receiver's instance holding the text with
    its NUL, or all zeros; a product that would overflow is refused. *)
Theorem strdup_calloc_contents w ctx i text count n :
  reachable up w -> receivers w !! ctx = Some i ->
  Z.of_nat (length text) <= SIZE_MAX -> 0 <= count -> 0 <= n ->
  (exists w' p, exec up w (Strdup ctx text) = Some (w', p) /\
     allocated w i (Z.of_nat (length text) + 1) (fun d => d = text ++ [0]) w' p) /\
  (exists w' p, exec up w (Calloc ctx count n) = Some (w', p) /\
     (SIZE_MAX < count * n -> p = 0) /\
     allocated w i (count * n) (fun d => d = repeat 0 (Z.to_nat (count * n))) w' p).
Proof.
  intros Hw%reachable_ok Hr Ht Hc Hn; [|done]. cbn [exec].
  destruct (live_receiver w ctx Hw) as (i' & E & Hi & H0); [done|].
  assert (i' = i) as ->.
  { unfold lql_allocator_from_receiver in E. destruct (ctx =? 0) in E; simplify_eq; done. }
  rewrite E. cbn [mbind option_bind]. split.
  - destruct (quota_strdup_ok up Hup 0 w i text) as (w' & p & -> & _ & Ha); eauto.
  - destruct (quota_calloc_ok up Hup 0 w i count n) as (w' & p & Ec & _ & Ha); [done..|].
    rewrite Ec. exists w', p. split_and!; [done| |done]. intros Ho. unfold quota_calloc in Ec.
    assert (SIZE_MAX / count < n) as Hlt.
    { apply Z.div_lt_upper_bound; unfold SIZE_MAX in *; nia. }
    rewrite (proj2 (Z.eqb_neq count 0)), (proj2 (Z.ltb_lt _ _)) in Ec by (unfold SIZE_MAX in *; nia).
    by injection Ec.
Qed.
End properties.

(** ** Witnesses: a bump allocator upstream *)

Definition top {A} (m : gmap Z A) : Z := map_fold (fun k _ acc => Z.max k acc) 0 m.

Lemma top_spec {A} (m : gmap Z A) : 0 <= top m /\ forall k, is_Some (m !! k) -> k <= top m.
Proof.
  unfold top. apply (map_fold_weak_ind (fun acc m => 0 <= acc /\ forall k, is_Some (m !! k) -> k <= acc)).
  - split; [lia|]. intros k [? Hk]. by rewrite lookup_empty in Hk.
  - intros i x m' r Hi [H0 H]. split; [lia|]. intros k Hk.
    destruct (decide (i = k)) as [->|Hne]; [lia|]. rewrite lookup_insert_ne in Hk by done.
    apply H in Hk. lia.
Qed.

Lemma above_top {A} (m : gmap Z A) k : top m < k -> m !! k = None.
Proof.
  intros H. destruct (m !! k) eqn:E; [|done]. destruct (top_spec m) as [_ Ht].
  specialize (Ht k ltac:(by rewrite E)). lia.
Qed.

Definition bump_next (w : world) : Z := 1 + Z.max (top (impls w)) (top (blocks w)).

Definition bump : upstream :=
  mk_upstream (fun w _ => Some (bump_next w)) (fun w _ _ => Some (bump_next w))
    (fun _ n => repeat 170 (Z.to_nat n)).

Lemma bump_ok : upstream_ok bump.
Proof.
  assert (forall w, 0 < bump_next w /\ impls w !! bump_next w = None /\ blocks w !! bump_next w = None) as H.
  { intros w. unfold bump_next. pose proof (top_spec (impls w)) as [? _].
    split_and!; [lia|apply above_top; lia..]. }
  split; [intros w n h [= <-]; apply H|]. intros w h n a [= <-].
  destruct (H w) as (? & ? & ?). split_and!; [done|done|by right].
Qed.

#[export] Instance valid_call_dec w c : Decision (valid_call w c).
Proof. destruct c; cbn [valid_call]; unfold client_block; apply _. Defined.

(** Running calls, each checked to be valid. *)
Fixpoint run (up : upstream) (w : world) (cs : list call) : option world :=
  match cs with
  | [] => Some w
  | c :: cs =>
      if decide (valid_call w c) then '(w, _) ← exec up w c; run up w cs else None
  end.

Lemma run_reachable up cs w w' : reachable up w -> run up w cs = Some w' -> reachable up w'.
Proof.
  revert w. induction cs as [|c cs IH]; intros w Hw; cbn [run]; [by intros [= <-]|].
  destruct (decide (valid_call w c)) as [Hv|]; [|done].
  intros ([w1 r] & He & Hrun)%bind_Some. apply (IH w1); [|done]. by eapply reachable_call.
Qed.

Definition start : world := mk_world ∅ ∅ ∅.

(** The world after some calls from the empty one. *)
Definition after (cs : list call) : world := default start (run bump start cs).

Lemma after_reachable cs : is_Some (run bump start cs) -> reachable bump (after cs).
Proof.
  intros [w H]. unfold after. rewrite H. by apply (run_reachable bump cs start); [constructor|].
Qed.

(** A receiver (at 18), a string of its (at 35), and the receiver destroyed. *)
Definition sample_calls : list call := [New; Strdup 18 (bs "lql"); DestroyReceiver 18].

Lemma allocator_safe_witness :
  exists w' r, exec bump (after [New; Strdup 18 (bs "lql")]) (DestroyReceiver 18) = Some (w', r) /\
    world_ok w'.
Proof.
  apply (allocator_safe bump bump_ok).
  - apply after_reachable. vm_compute. eauto.
  - right. vm_compute. eauto.
Defined.

Lemma allocator_quota_witness :
  live_bytes (mk_impl 452 2 false) <= LQL_INSTANCE_MEMORY_LIMIT_BYTES.
Proof.
  refine (proj1 (proj2 (allocator_quota bump bump_ok (after [New; Strdup 18 (bs "lql")]) 1 _ _ _))).
  - apply after_reachable. vm_compute. eauto.
  - by vm_compute.
Defined.

Lemma allocator_no_leak_witness :
  exists h b, blocks (after sample_calls) !! h = Some b /\ owner b = 1.
Proof.
  destruct (allocator_no_leak bump bump_ok (after sample_calls)) as [_ H].
  - apply after_reachable. vm_compute. eauto.
  - apply (H 1 (mk_impl 100 1 true)); by vm_compute.
Defined.

Lemma strdup_calloc_contents_witness :
  exists w' p, exec bump (after [New]) (Strdup 18 (bs "lql")) = Some (w', p) /\
    allocated (after [New]) 1 4 (fun d => d = bs "lql" ++ [0]) w' p.
Proof.
  destruct (strdup_calloc_contents bump bump_ok (after [New]) 18 1 (bs "lql") 2 SIZE_MAX) as [H _].
  - apply after_reachable. vm_compute. eauto.
  - by vm_compute.
  - by vm_compute.
  - lia.
  - by vm_compute.
  - exact H.
Defined.
