(* ===== verification/Unicode.v ===== *)
(** * Unicode lower-casing and UTF-8 (src/lql_unicode_lower.c)

    The range table and its binary search, the UTF-8 decoder and encoder, and
    the lower-casing of a UTF-8 text into a buffer of given capacity.  The
    decoder's [input] and [offset] are the rest of the input. *)

From S2P Require Import Prelude.

Definition LQL_UNICODE_UPPER_LOWER : Z := 1114112.

Record lql_unicode_lower_range := R { first : Z; last : Z; lower_delta : Z }.

Definition lql_unicode_lower_ranges : list lql_unicode_lower_range :=
  [
    R 0x0041 0x005A 32; R 0x0061 0x007A 0; R 0x00B5 0x00B5 0; R 0x00C0 0x00D6 32;
    R 0x00D8 0x00DE 32; R 0x00E0 0x00F6 0; R 0x00F8 0x00FE 0; R 0x00FF 0x00FF 0;
    R 0x0100 0x012F 1114112; R 0x0130 0x0130 (-199); R 0x0131 0x0131 0;
    R 0x0132 0x0137 1114112; R 0x0139 0x0148 1114112; R 0x014A 0x0177 1114112;
    R 0x0178 0x0178 (-121); R 0x0179 0x017E 1114112; R 0x017F 0x017F 0; R 0x0180 0x0180 0;
    R 0x0181 0x0181 210; R 0x0182 0x0185 1114112; R 0x0186 0x0186 206;
    R 0x0187 0x0188 1114112; R 0x0189 0x018A 205; R 0x018B 0x018C 1114112;
    R 0x018E 0x018E 79; R 0x018F 0x018F 202; R 0x0190 0x0190 203; R 0x0191 0x0192 1114112;
    R 0x0193 0x0193 205; R 0x0194 0x0194 207; R 0x0195 0x0195 0; R 0x0196 0x0196 211;
    R 0x0197 0x0197 209; R 0x0198 0x0199 1114112; R 0x019A 0x019A 0; R 0x019C 0x019C 211;
    R 0x019D 0x019D 213; R 0x019E 0x019E 0; R 0x019F 0x019F 214; R 0x01A0 0x01A5 1114112;
    R 0x01A6 0x01A6 218; R 0x01A7 0x01A8 1114112; R 0x01A9 0x01A9 218;
    R 0x01AC 0x01AD 1114112; R 0x01AE 0x01AE 218; R 0x01AF 0x01B0 1114112;
    R 0x01B1 0x01B2 217; R 0x01B3 0x01B6 1114112; R 0x01B7 0x01B7 219;
    R 0x01B8 0x01B9 1114112; R 0x01BC 0x01BD 1114112; R 0x01BF 0x01BF 0; R 0x01C4 0x01C4 2;
    R 0x01C5 0x01C5 1; R 0x01C6 0x01C6 0; R 0x01C7 0x01C7 2; R 0x01C8 0x01C8 1;
    R 0x01C9 0x01C9 0; R 0x01CA 0x01CA 2; R 0x01CB 0x01CB 1; R 0x01CC 0x01CC 0;
    R 0x01CD 0x01DC 1114112; R 0x01DD 0x01DD 0; R 0x01DE 0x01EF 1114112; R 0x01F1 0x01F1 2;
    R 0x01F2 0x01F2 1; R 0x01F3 0x01F3 0; R 0x01F4 0x01F5 1114112; R 0x01F6 0x01F6 (-97);
    R 0x01F7 0x01F7 (-56); R 0x01F8 0x021F 1114112; R 0x0220 0x0220 (-130);
    R 0x0222 0x0233 1114112; R 0x023A 0x023A 10795; R 0x023B 0x023C 1114112;
    R 0x023D 0x023D (-163); R 0x023E 0x023E 10792; R 0x023F 0x0240 0;
    R 0x0241 0x0242 1114112; R 0x0243 0x0243 (-195); R 0x0244 0x0244 69; R 0x0245 0x0245 71;
    R 0x0246 0x024F 1114112; R 0x0250 0x0250 0; R 0x0251 0x0251 0; R 0x0252 0x0252 0;
    R 0x0253 0x0253 0; R 0x0254 0x0254 0; R 0x0256 0x0257 0; R 0x0259 0x0259 0;
    R 0x025B 0x025B 0; R 0x025C 0x025C 0; R 0x0260 0x0260 0; R 0x0261 0x0261 0;
    R 0x0263 0x0263 0; R 0x0265 0x0265 0; R 0x0266 0x0266 0; R 0x0268 0x0268 0;
    R 0x0269 0x0269 0; R 0x026A 0x026A 0; R 0x026B 0x026B 0; R 0x026C 0x026C 0;
    R 0x026F 0x026F 0; R 0x0271 0x0271 0; R 0x0272 0x0272 0; R 0x0275 0x0275 0;
    R 0x027D 0x027D 0; R 0x0280 0x0280 0; R 0x0282 0x0282 0; R 0x0283 0x0283 0;
    R 0x0287 0x0287 0; R 0x0288 0x0288 0; R 0x0289 0x0289 0; R 0x028A 0x028B 0;
    R 0x028C 0x028C 0; R 0x0292 0x0292 0; R 0x029D 0x029D 0; R 0x029E 0x029E 0;
    R 0x0345 0x0345 0; R 0x0370 0x0373 1114112; R 0x0376 0x0377 1114112; R 0x037B 0x037D 0;
    R 0x037F 0x037F 116; R 0x0386 0x0386 38; R 0x0388 0x038A 37; R 0x038C 0x038C 64;
    R 0x038E 0x038F 63; R 0x0391 0x03A1 32; R 0x03A3 0x03AB 32; R 0x03AC 0x03AC 0;
    R 0x03AD 0x03AF 0; R 0x03B1 0x03C1 0; R 0x03C2 0x03C2 0; R 0x03C3 0x03CB 0;
    R 0x03CC 0x03CC 0; R 0x03CD 0x03CE 0; R 0x03CF 0x03CF 8; R 0x03D0 0x03D0 0;
    R 0x03D1 0x03D1 0; R 0x03D5 0x03D5 0; R 0x03D6 0x03D6 0; R 0x03D7 0x03D7 0;
    R 0x03D8 0x03EF 1114112; R 0x03F0 0x03F0 0; R 0x03F1 0x03F1 0; R 0x03F2 0x03F2 0;
    R 0x03F3 0x03F3 0; R 0x03F4 0x03F4 (-60); R 0x03F5 0x03F5 0; R 0x03F7 0x03F8 1114112;
    R 0x03F9 0x03F9 (-7); R 0x03FA 0x03FB 1114112; R 0x03FD 0x03FF (-130);
    R 0x0400 0x040F 80; R 0x0410 0x042F 32; R 0x0430 0x044F 0; R 0x0450 0x045F 0;
    R 0x0460 0x0481 1114112; R 0x048A 0x04BF 1114112; R 0x04C0 0x04C0 15;
    R 0x04C1 0x04CE 1114112; R 0x04CF 0x04CF 0; R 0x04D0 0x052F 1114112; R 0x0531 0x0556 48;
    R 0x0561 0x0586 0; R 0x10A0 0x10C5 7264; R 0x10C7 0x10C7 7264; R 0x10CD 0x10CD 7264;
    R 0x10D0 0x10FA 0; R 0x10FD 0x10FF 0; R 0x13A0 0x13EF 38864; R 0x13F0 0x13F5 8;
    R 0x13F8 0x13FD 0; R 0x1C80 0x1C80 0; R 0x1C81 0x1C81 0; R 0x1C82 0x1C82 0;
    R 0x1C83 0x1C84 0; R 0x1C85 0x1C85 0; R 0x1C86 0x1C86 0; R 0x1C87 0x1C87 0;
    R 0x1C88 0x1C88 0; R 0x1C90 0x1CBA (-3008); R 0x1CBD 0x1CBF (-3008); R 0x1D79 0x1D79 0;
    R 0x1D7D 0x1D7D 0; R 0x1D8E 0x1D8E 0; R 0x1E00 0x1E95 1114112; R 0x1E9B 0x1E9B 0;
    R 0x1E9E 0x1E9E (-7615); R 0x1EA0 0x1EFF 1114112; R 0x1F00 0x1F07 0;
    R 0x1F08 0x1F0F (-8); R 0x1F10 0x1F15 0; R 0x1F18 0x1F1D (-8); R 0x1F20 0x1F27 0;
    R 0x1F28 0x1F2F (-8); R 0x1F30 0x1F37 0; R 0x1F38 0x1F3F (-8); R 0x1F40 0x1F45 0;
    R 0x1F48 0x1F4D (-8); R 0x1F51 0x1F51 0; R 0x1F53 0x1F53 0; R 0x1F55 0x1F55 0;
    R 0x1F57 0x1F57 0; R 0x1F59 0x1F59 (-8); R 0x1F5B 0x1F5B (-8); R 0x1F5D 0x1F5D (-8);
    R 0x1F5F 0x1F5F (-8); R 0x1F60 0x1F67 0; R 0x1F68 0x1F6F (-8); R 0x1F70 0x1F71 0;
    R 0x1F72 0x1F75 0; R 0x1F76 0x1F77 0; R 0x1F78 0x1F79 0; R 0x1F7A 0x1F7B 0;
    R 0x1F7C 0x1F7D 0; R 0x1F80 0x1F87 0; R 0x1F88 0x1F8F (-8); R 0x1F90 0x1F97 0;
    R 0x1F98 0x1F9F (-8); R 0x1FA0 0x1FA7 0; R 0x1FA8 0x1FAF (-8); R 0x1FB0 0x1FB1 0;
    R 0x1FB3 0x1FB3 0; R 0x1FB8 0x1FB9 (-8); R 0x1FBA 0x1FBB (-74); R 0x1FBC 0x1FBC (-9);
    R 0x1FBE 0x1FBE 0; R 0x1FC3 0x1FC3 0; R 0x1FC8 0x1FCB (-86); R 0x1FCC 0x1FCC (-9);
    R 0x1FD0 0x1FD1 0; R 0x1FD8 0x1FD9 (-8); R 0x1FDA 0x1FDB (-100); R 0x1FE0 0x1FE1 0;
    R 0x1FE5 0x1FE5 0; R 0x1FE8 0x1FE9 (-8); R 0x1FEA 0x1FEB (-112); R 0x1FEC 0x1FEC (-7);
    R 0x1FF3 0x1FF3 0; R 0x1FF8 0x1FF9 (-128); R 0x1FFA 0x1FFB (-126); R 0x1FFC 0x1FFC (-9);
    R 0x2126 0x2126 (-7517); R 0x212A 0x212A (-8383); R 0x212B 0x212B (-8262);
    R 0x2132 0x2132 28; R 0x214E 0x214E 0; R 0x2160 0x216F 16; R 0x2170 0x217F 0;
    R 0x2183 0x2184 1114112; R 0x24B6 0x24CF 26; R 0x24D0 0x24E9 0; R 0x2C00 0x2C2F 48;
    R 0x2C30 0x2C5F 0; R 0x2C60 0x2C61 1114112; R 0x2C62 0x2C62 (-10743);
    R 0x2C63 0x2C63 (-3814); R 0x2C64 0x2C64 (-10727); R 0x2C65 0x2C65 0; R 0x2C66 0x2C66 0;
    R 0x2C67 0x2C6C 1114112; R 0x2C6D 0x2C6D (-10780); R 0x2C6E 0x2C6E (-10749);
    R 0x2C6F 0x2C6F (-10783); R 0x2C70 0x2C70 (-10782); R 0x2C72 0x2C73 1114112;
    R 0x2C75 0x2C76 1114112; R 0x2C7E 0x2C7F (-10815); R 0x2C80 0x2CE3 1114112;
    R 0x2CEB 0x2CEE 1114112; R 0x2CF2 0x2CF3 1114112; R 0x2D00 0x2D25 0; R 0x2D27 0x2D27 0;
    R 0x2D2D 0x2D2D 0; R 0xA640 0xA66D 1114112; R 0xA680 0xA69B 1114112;
    R 0xA722 0xA72F 1114112; R 0xA732 0xA76F 1114112; R 0xA779 0xA77C 1114112;
    R 0xA77D 0xA77D (-35332); R 0xA77E 0xA787 1114112; R 0xA78B 0xA78C 1114112;
    R 0xA78D 0xA78D (-42280); R 0xA790 0xA793 1114112; R 0xA794 0xA794 0;
    R 0xA796 0xA7A9 1114112; R 0xA7AA 0xA7AA (-42308); R 0xA7AB 0xA7AB (-42319);
    R 0xA7AC 0xA7AC (-42315); R 0xA7AD 0xA7AD (-42305); R 0xA7AE 0xA7AE (-42308);
    R 0xA7B0 0xA7B0 (-42258); R 0xA7B1 0xA7B1 (-42282); R 0xA7B2 0xA7B2 (-42261);
    R 0xA7B3 0xA7B3 928; R 0xA7B4 0xA7C3 1114112; R 0xA7C4 0xA7C4 (-48);
    R 0xA7C5 0xA7C5 (-42307); R 0xA7C6 0xA7C6 (-35384); R 0xA7C7 0xA7CA 1114112;
    R 0xA7D0 0xA7D1 1114112; R 0xA7D6 0xA7D9 1114112; R 0xA7F5 0xA7F6 1114112;
    R 0xAB53 0xAB53 0; R 0xAB70 0xABBF 0; R 0xFF21 0xFF3A 32; R 0xFF41 0xFF5A 0;
    R 0x10400 0x10427 40; R 0x10428 0x1044F 0; R 0x104B0 0x104D3 40; R 0x104D8 0x104FB 0;
    R 0x10570 0x1057A 39; R 0x1057C 0x1058A 39; R 0x1058C 0x10592 39; R 0x10594 0x10595 39;
    R 0x10597 0x105A1 0; R 0x105A3 0x105B1 0; R 0x105B3 0x105B9 0; R 0x105BB 0x105BC 0;
    R 0x10C80 0x10CB2 64; R 0x10CC0 0x10CF2 0; R 0x118A0 0x118BF 32; R 0x118C0 0x118DF 0;
    R 0x16E40 0x16E5F 32; R 0x16E60 0x16E7F 0; R 0x1E900 0x1E921 34; R 0x1E922 0x1E943 0
  ].

(** What a range does with a value of it. *)
Definition range_lower (range : lql_unicode_lower_range) (value : Z) : Z :=
  if lower_delta range =? LQL_UNICODE_UPPER_LOWER then
    first range + Z.lor (value - first range) 1
  else value + lower_delta range.

(** The binary search; [fuel] bounds its rounds. *)
Fixpoint lower_search (fuel lo hi : nat) (value : Z) : option Z :=
  if (lo <? hi)%nat then
    match fuel with
    | O => None
    | S fuel =>
        let middle := (lo + (hi - lo) / 2)%nat in
        let range := nth middle lql_unicode_lower_ranges (R 0 0 0) in
        if value <? first range then lower_search fuel lo middle value
        else if last range <? value then lower_search fuel (middle + 1) hi value
        else Some (range_lower range value)
    end
  else Some value.

Definition lql_unicode_simple_lower (value : Z) : Z :=
  if (ch_A <=? value) && (value <=? ch_Z) then value + (ch_a - ch_A)
  else
    let n := length lql_unicode_lower_ranges in
    default value (lower_search n 0 n value).

(** The continuation bytes: [n] more, six bits each. *)
Fixpoint decode_tail (n : nat) (input : bytes) (value : Z) : option (Z * bytes) :=
  match n with
  | O => Some (value, input)
  | S n =>
      match input with
      | [] => None
      | next :: input =>
          if (next <? 0x80) || (0xbf <? next) then None
          else decode_tail n input (Z.lor (Z.shiftl value 6) (Z.land next 0x3f))
      end
  end.

(** The width and leading bits of a multi-byte sequence. *)
Definition decode_lead (first : Z) : option (nat * Z) :=
  if (0xc2 <=? first) && (first <=? 0xdf) then Some (2%nat, Z.land first 0x1f)
  else if (0xe0 <=? first) && (first <=? 0xef) then Some (3%nat, Z.land first 0x0f)
  else if (0xf0 <=? first) && (first <=? 0xf4) then Some (4%nat, Z.land first 0x07)
  else None.

Definition lql_unicode_utf8_decode (input : bytes) : option (Z * bytes) :=
  match input with
  | [] => None
  | first :: rest =>
      if first <? 0x80 then Some (first, rest)
      else
        '(width, value) ← decode_lead first;
        if (length input <? width)%nat then None
        else
          '(value, rest) ← decode_tail (width - 1) rest value;
          if ((0xd800 <=? value) && (value <=? 0xdfff)) || (0x10ffff <? value) ||
             ((first =? 0xe0) && (value <? 0x800)) || ((first =? 0xf0) && (value <? 0x10000))
          then None
          else Some (value, rest)
  end.

(** The bytes of a code point; [None] outside the scalar values. *)
Definition utf8_bytes (value : Z) : option bytes :=
  if (0x10ffff <? value) || ((0xd800 <=? value) && (value <=? 0xdfff)) then None
  else if value <? 0x80 then Some [value]
  else if value <? 0x800 then
    Some [Z.lor 0xc0 (Z.shiftr value 6); Z.lor 0x80 (Z.land value 0x3f)]
  else if value <? 0x10000 then
    Some [Z.lor 0xe0 (Z.shiftr value 12); Z.lor 0x80 (Z.land (Z.shiftr value 6) 0x3f);
          Z.lor 0x80 (Z.land value 0x3f)]
  else
    Some [Z.lor 0xf0 (Z.shiftr value 18); Z.lor 0x80 (Z.land (Z.shiftr value 12) 0x3f);
          Z.lor 0x80 (Z.land (Z.shiftr value 6) 0x3f); Z.lor 0x80 (Z.land value 0x3f)].

(** Append to [output], which has room for [capacity] bytes in all. *)
Definition lql_unicode_utf8_append (value : Z) (output : bytes) (capacity : nat) : option bytes :=
  b ← utf8_bytes value;
  if (capacity - length output <? length b)%nat then None else Some (output ++ b).

Definition lql_unicode_utf8_decode_one (input : bytes) : option Z :=
  '(value, rest) ← lql_unicode_utf8_decode input;
  match rest with [] => Some value | _ => None end.

(** The encoded bytes; the C length 0 is [None]. *)
Definition lql_unicode_utf8_encode (value : Z) : option bytes :=
  lql_unicode_utf8_append value [] 4.

(** The loop over the input; it consumes at least a byte per round, so the
    length of the input is enough fuel. *)
Fixpoint lower_loop (fuel : nat) (input output : bytes) (capacity : nat) : option bytes :=
  match input with
  | [] => Some output
  | _ =>
      match fuel with
      | O => None
      | S fuel =>
          '(value, rest) ← lql_unicode_utf8_decode input;
          output ← lql_unicode_utf8_append (lql_unicode_simple_lower value) output capacity;
          lower_loop fuel rest output capacity
      end
  end.

Definition lql_unicode_utf8_lower (input : bytes) (output_capacity : nat) : option bytes :=
  lower_loop (length input) input [] output_capacity.
