(* ===== verification/UnicodeProps.v ===== *)
(** * Correctness of the UTF-8 codec and of lower-casing

    The decoder and encoder are inverse on the scalar values, the binary search
    of the case table is the lookup of its range, and lower-casing a text
    lower-cases its code points, within twice its length. *)

From Stdlib Require Import Sorting.Sorted.
From S2P Require Import Prelude.
From S2P Require Import Unicode.

(** ** Bit operations as arithmetic *)

Lemma lor_add k a b : 0 <= k -> 0 <= b < 2 ^ k -> Z.lor (a * 2 ^ k) b = a * 2 ^ k + b.
Proof.
  intros Hk Hb. assert (Z.land (a * 2 ^ k) b = 0) as E.
  { apply Z.bits_inj'. intros n Hn. rewrite Z.land_spec, Z.bits_0.
    destruct (Z.lt_ge_cases n k).
    - by rewrite Z.mul_pow2_bits_low.
    - replace (Z.testbit b n) with false; [by rewrite andb_false_r|].
      symmetry. destruct (Z.eq_dec b 0) as [->|]; [apply Z.bits_0|].
      apply Z.bits_above_log2; [lia|]. apply Z.log2_lt_pow2; [lia|].
      apply Z.lt_le_trans with (2 ^ k); [lia|]. apply Z.pow_le_mono_r; lia. }
  pose proof (Z.add_lor_land (a * 2 ^ k) b) as H. lia.
Qed.

Lemma land_63 x : Z.land x 0x3f = x mod 64.
Proof. apply (Z.land_ones x 6). lia. Qed.
Lemma land_31 x : Z.land x 0x1f = x mod 32.
Proof. apply (Z.land_ones x 5). lia. Qed.
Lemma land_15 x : Z.land x 0x0f = x mod 16.
Proof. apply (Z.land_ones x 4). lia. Qed.
Lemma land_7 x : Z.land x 0x07 = x mod 8.
Proof. apply (Z.land_ones x 3). lia. Qed.
Lemma shiftr_6 x : Z.shiftr x 6 = x / 64.
Proof. by rewrite Z.shiftr_div_pow2. Qed.
Lemma shiftr_12 x : Z.shiftr x 12 = x / 4096.
Proof. by rewrite Z.shiftr_div_pow2. Qed.
Lemma shiftr_18 x : Z.shiftr x 18 = x / 262144.
Proof. by rewrite Z.shiftr_div_pow2. Qed.
Lemma lor_continuation x : 0 <= x < 64 -> Z.lor 0x80 x = 128 + x.
Proof. intros. by apply (lor_add 6 2). Qed.
Lemma lor_lead2 x : 0 <= x < 32 -> Z.lor 0xc0 x = 192 + x.
Proof. intros. apply (lor_add 5 6); lia. Qed.
Lemma lor_lead3 x : 0 <= x < 16 -> Z.lor 0xe0 x = 224 + x.
Proof. intros. by apply (lor_add 4 14). Qed.
Lemma lor_lead4 x : 0 <= x < 8 -> Z.lor 0xf0 x = 240 + x.
Proof. intros. by apply (lor_add 3 30). Qed.
Lemma shift_or v x : Z.lor (Z.shiftl v 6) (Z.land x 0x3f) = v * 64 + x mod 64.
Proof.
  rewrite land_63, Z.shiftl_mul_pow2 by lia. apply (lor_add 6); [lia|].
  apply Z.mod_pos_bound. lia.
Qed.

(** ** Encoder and decoder *)

Definition scalar (v : Z) : Prop := 0 <= v <= 0x10ffff /\ ~ (0xd800 <= v <= 0xdfff).

(** The encoding of a scalar value, with arithmetic instead of bits. *)
Definition utf8_arith (v : Z) : bytes :=
  if v <? 0x80 then [v]
  else if v <? 0x800 then [192 + v / 64; 128 + v mod 64]
  else if v <? 0x10000 then [224 + v / 4096; 128 + v / 64 mod 64; 128 + v mod 64]
  else [240 + v / 262144; 128 + v / 4096 mod 64; 128 + v / 64 mod 64; 128 + v mod 64].

Ltac zdivs := Z.to_euclidean_division_equations; lia.

Lemma utf8_bytes_arith v : scalar v -> utf8_bytes v = Some (utf8_arith v).
Proof.
  intros [Hv Hs]. unfold utf8_bytes, utf8_arith.
  rewrite (proj2 (orb_false_iff _ _)) by lia.
  rewrite !land_63, shiftr_6, shiftr_12, shiftr_18.
  repeat case_if; bool_hyps; [done|..];
    rewrite ?lor_lead2, ?lor_lead3, ?lor_lead4, ?lor_continuation by zdivs; done.
Qed.

Lemma utf8_bytes_scalar v b : 0 <= v -> utf8_bytes v = Some b -> scalar v.
Proof. intros Hv. unfold utf8_bytes. destruct (_ || _) eqn:E; [done|]. intros _. unfold scalar. lia. Qed.

Lemma decode_tail_step n next rest v :
  0 <= next < 64 -> decode_tail (S n) (128 + next :: rest) v = decode_tail n rest (v * 64 + next).
Proof.
  intros H. cbn [decode_tail]. rewrite (proj2 (orb_false_iff _ _)) by lia.
  rewrite shift_or. f_equal. zdivs.
Qed.

Lemma decode_arith v rest :
  scalar v -> lql_unicode_utf8_decode (utf8_arith v ++ rest) = Some (v, rest).
Proof.
  intros [Hv Hs]. unfold utf8_arith, lql_unicode_utf8_decode.
  destruct (v <? 128) eqn:E1; [cbn [app]; by rewrite E1|]. bool_hyps.
  destruct (v <? 2048) eqn:E2; [|destruct (v <? 65536) eqn:E3]; bool_hyps; cbn [app];
    rewrite (proj2 (Z.ltb_ge _ 128)) by zdivs; unfold decode_lead.
  - rewrite (proj2 (andb_true_iff _ _)) by (split; apply Z.leb_le; zdivs).
    cbn [mbind option_bind length Nat.ltb Nat.leb Nat.sub].
    rewrite decode_tail_step by zdivs. cbn [decode_tail mbind option_bind].
    rewrite land_31. replace ((192 + v / 64) mod 32 * 64 + v mod 64) with v by zdivs.
    by rewrite !(proj2 (orb_false_iff _ _)) by zdivs.
  - rewrite (proj2 (andb_false_iff (0xc2 <=? _) _)) by (right; apply Z.leb_gt; zdivs).
    rewrite (proj2 (andb_true_iff _ _)) by (split; apply Z.leb_le; zdivs).
    cbn [mbind option_bind length Nat.ltb Nat.leb Nat.sub].
    rewrite !decode_tail_step by zdivs. cbn [decode_tail mbind option_bind].
    rewrite land_15.
    replace (((224 + v / 4096) mod 16 * 64 + v / 64 mod 64) * 64 + v mod 64) with v by zdivs.
    by rewrite !(proj2 (orb_false_iff _ _)) by zdivs.
  - rewrite (proj2 (andb_false_iff (0xc2 <=? _) _)) by (right; apply Z.leb_gt; zdivs).
    rewrite (proj2 (andb_false_iff (0xe0 <=? _) _)) by (right; apply Z.leb_gt; zdivs).
    rewrite (proj2 (andb_true_iff _ _)) by (split; apply Z.leb_le; zdivs).
    cbn [mbind option_bind length Nat.ltb Nat.leb Nat.sub].
    rewrite !decode_tail_step by zdivs. cbn [decode_tail mbind option_bind].
    rewrite land_7.
    replace ((((240 + v / 262144) mod 8 * 64 + v / 4096 mod 64) * 64 + v / 64 mod 64) * 64 + v mod 64)
      with v by zdivs.
    by rewrite !(proj2 (orb_false_iff _ _)) by zdivs.
Qed.

Lemma decode_tail_inv n input v r rest :
  decode_tail (S n) input v = Some (r, rest) ->
  exists next input', input = 128 + next :: input' /\ 0 <= next < 64 /\
    decode_tail n input' (v * 64 + next) = Some (r, rest).
Proof.
  cbn [decode_tail]. destruct input as [|next input]; [done|].
  destruct (_ || _) eqn:E; [done|]. rewrite shift_or. intros H.
  exists (next - 128), input. replace (128 + (next - 128)) with next by lia.
  replace (next mod 64) with (next - 128) in H by zdivs. split_and!; [done|lia|lia|done].
Qed.

Lemma decode_sound input v rest :
  Forall (fun c => 0 <= c) input ->
  lql_unicode_utf8_decode input = Some (v, rest) ->
  scalar v /\ input = utf8_arith v ++ rest.
Proof.
  intros Hb. unfold lql_unicode_utf8_decode. destruct input as [|f input]; [done|].
  inversion_clear Hb as [|? ? Hf _]. destruct (f <? 128) eqn:E1; bool_hyps.
  { intros [= <- <-]. unfold scalar, utf8_arith. rewrite (proj2 (Z.ltb_lt f 128)) by done.
    split; [lia|done]. }
  unfold decode_lead. repeat (destruct (_ && _) eqn:? in |- *; [bool_hyps|]); cbn [mbind option_bind]; try done;
    destruct (Nat.ltb _ _); try done; cbn [Nat.sub]; intros ([r rest'] & Ht & G)%bind_Some;
    destruct (_ || _) eqn:Eg in G; try done; injection G as -> ->; bool_hyps;
    repeat match goal with
    | H : decode_tail (S _) _ _ = Some _ |- _ => apply decode_tail_inv in H as (? & ? & -> & ? & H)
    end; cbn [decode_tail] in Ht; injection Ht as Ht ->.
  - rewrite land_31 in Ht. unfold scalar, utf8_arith.
    rewrite (proj2 (Z.ltb_ge v 128)), (proj2 (Z.ltb_lt v 2048)) by zdivs.
    split; [zdivs|]. cbn [app]. repeat f_equal; zdivs.
  - rewrite land_15 in Ht. unfold scalar, utf8_arith.
    assert (2048 <= v < 65536) by (destruct (f =? 224) eqn:Ef; cbn [andb] in *; bool_hyps; zdivs).
    rewrite (proj2 (Z.ltb_ge v 128)), (proj2 (Z.ltb_ge v 2048)), (proj2 (Z.ltb_lt v 65536)) by lia.
    split; [split; [lia|]|cbn [app]; repeat f_equal; zdivs].
    lia.
  - rewrite land_7 in Ht. unfold scalar, utf8_arith.
    assert (65536 <= v) by (destruct (f =? 240) eqn:Ef; cbn [andb] in *; bool_hyps; zdivs).
    rewrite (proj2 (Z.ltb_ge v 128)), (proj2 (Z.ltb_ge v 2048)), (proj2 (Z.ltb_ge v 65536)) by lia.
    split; [lia|]. cbn [app]. repeat f_equal; zdivs.
Qed.

(** ** The case table *)

Definition in_range (v : Z) (r : lql_unicode_lower_range) : bool :=
  (first r <=? v) && (v <=? last r).

(** The table's meaning: the range that holds the value decides. *)
Definition table_lower (v : Z) : Z :=
  match find (in_range v) lql_unicode_lower_ranges with
  | Some r => range_lower r v
  | None => v
  end.

Definition range_before (r1 r2 : lql_unicode_lower_range) : Prop :=
  first r1 <= last r1 < first r2.

Fixpoint adjacent_before (l : list lql_unicode_lower_range) : bool :=
  match l with
  | r1 :: (r2 :: _) as t => (first r1 <=? last r1) && (last r1 <? first r2) && adjacent_before t
  | _ => true
  end.

Lemma adjacent_sorted l : adjacent_before l = true -> Sorted range_before l.
Proof.
  induction l as [|r1 [|r2 l] IH]; intros H; [constructor|by repeat constructor|].
  cbn [adjacent_before] in H. bool_hyps. constructor; [by apply IH|]. by constructor.
Qed.

Lemma strongly_sorted_nth {A} (P : A -> A -> Prop) l d i j :
  StronglySorted P l -> (i < j < length l)%nat -> P (nth i l d) (nth j l d).
Proof.
  intros H. revert i j. induction H as [|a l Hl IH Ha]; intros i j Hij; [cbn in Hij; lia|].
  destruct j as [|j]; [lia|]. cbn [length] in Hij. destruct i as [|i]; cbn [nth]; [|apply IH; lia].
  rewrite List.Forall_forall in Ha. apply Ha, nth_In. lia.
Qed.

Lemma ranges_sorted i j :
  (i < j < length lql_unicode_lower_ranges)%nat ->
  range_before (nth i lql_unicode_lower_ranges (R 0 0 0)) (nth j lql_unicode_lower_ranges (R 0 0 0)).
Proof.
  intros H. apply (strongly_sorted_nth range_before); [|done].
  apply Sorted_StronglySorted; [|apply adjacent_sorted; by vm_compute].
  intros r1 r2 r3. unfold range_before. lia.
Qed.

Lemma find_nth {A} (f : A -> bool) l d m :
  (m < length l)%nat -> f (nth m l d) = true ->
  (forall i, (i < m)%nat -> f (nth i l d) = false) -> find f l = Some (nth m l d).
Proof.
  revert m. induction l as [|a l IH]; intros [|m] Hm Hf Hi; cbn in *; try lia; [by rewrite Hf|].
  pose proof (Hi 0%nat ltac:(lia)) as H0. cbn in H0. rewrite H0. apply IH; [lia|done|]. intros i ?. apply (Hi (S i)). lia.
Qed.

Lemma find_none {A} (f : A -> bool) l d :
  (forall i, (i < length l)%nat -> f (nth i l d) = false) -> find f l = None.
Proof.
  induction l as [|a l IH]; intros H; cbn; [done|].
  pose proof (H 0%nat ltac:(cbn; lia)) as H0. cbn in H0. rewrite H0.
  apply IH. intros i Hi. apply (H (S i)). cbn. lia.
Qed.

Lemma lower_search_spec fuel lo hi v :
  (hi - lo <= fuel)%nat -> (hi <= length lql_unicode_lower_ranges)%nat ->
  (forall i, (i < lo)%nat -> last (nth i lql_unicode_lower_ranges (R 0 0 0)) < v) ->
  (forall i, (hi <= i < length lql_unicode_lower_ranges)%nat ->
     v < first (nth i lql_unicode_lower_ranges (R 0 0 0))) ->
  lower_search fuel lo hi v = Some (table_lower v).
Proof.
  revert lo hi. induction fuel as [|fuel IH]; intros lo hi Hf Hhi Hlo Hup; cbn [lower_search];
    destruct (lo <? hi)%nat eqn:E; (apply Nat.ltb_lt in E || apply Nat.ltb_ge in E); try lia.
  1, 3: unfold table_lower; rewrite (find_none _ _ (R 0 0 0)); [done|]; intros i Hi; unfold in_range;
    destruct (Nat.lt_ge_cases i lo) as [Hl|Hl]; [specialize (Hlo i Hl)|specialize (Hup i ltac:(lia))]; lia.
  cbv zeta. pose proof (Nat.div_lt (hi - lo) 2 ltac:(lia) ltac:(lia)) as Hd.
  set (m := (lo + (hi - lo) / 2)%nat) in *. assert (lo <= m < hi)%nat as Hm by lia. clearbody m.
  destruct (v <? first (nth m lql_unicode_lower_ranges (R 0 0 0))) eqn:E1; bool_hyps.
  { apply IH; [lia|lia|done|]. intros i Hi. destruct (decide (i = m)) as [->|]; [done|].
    destruct (Nat.lt_ge_cases i hi) as [Hl|Hl]; [|apply Hup; lia].
    pose proof (ranges_sorted m i ltac:(lia)).
    unfold range_before in *. lia. }
  destruct (last (nth m lql_unicode_lower_ranges (R 0 0 0)) <? v) eqn:E2; bool_hyps.
  { apply IH; [lia|lia| |done]. intros i Hi. destruct (decide (i = m)) as [->|]; [done|].
    destruct (Nat.lt_ge_cases i lo) as [Hl|Hl]; [by apply Hlo|].
    pose proof (ranges_sorted i m ltac:(lia)). unfold range_before in *. lia. }
  f_equal. unfold table_lower. rewrite (find_nth _ _ (R 0 0 0) m); [done|lia|unfold in_range; lia|].
  intros i Hi. pose proof (ranges_sorted i m ltac:(lia)). unfold in_range, range_before in *. lia.
Qed.

(** The values of a list of consecutive integers. *)
Definition interval (a b : Z) : list Z := map (fun k => a + Z.of_nat k) (seq 0 (Z.to_nat (b - a + 1))).

Lemma interval_in a b v : a <= v <= b -> In v (interval a b).
Proof.
  intros H. apply in_map_iff. exists (Z.to_nat (v - a)). split; [lia|]. apply in_seq. lia.
Qed.

(** Every value of the table: its lower case is a scalar value when it is one,
    and is its own lower case. *)
Definition lowered_ok (v : Z) : bool :=
  let w := lql_unicode_simple_lower v in
  (0 <=? w) && (w <=? 0x10ffff) && negb ((0xd800 <=? w) && (w <=? 0xdfff)) &&
  (lql_unicode_simple_lower w =? w) && ((128 <=? v) || (w <? 128)).

Lemma table_lowered_ok :
  forallb (fun r => forallb lowered_ok (interval (first r) (last r))) lql_unicode_lower_ranges = true.
Proof. by vm_compute. Qed.

Lemma ascii_range : find (in_range ch_A) lql_unicode_lower_ranges = Some (R 0x41 0x5A 32).
Proof. by vm_compute. Qed.

Lemma simple_lower_table v : lql_unicode_simple_lower v = table_lower v.
Proof.
  unfold lql_unicode_simple_lower. cbv zeta. destruct (_ && _) eqn:E.
  - unfold table_lower. rewrite (find_nth _ _ (R 0 0 0) 0); cbn -[in_range lql_unicode_lower_ranges].
    + change (nth 0 lql_unicode_lower_ranges (R 0 0 0)) with (R 0x41 0x5A 32).
      unfold range_lower. by cbn [lower_delta].
    + vm_compute. lia.
    + change (nth 0 lql_unicode_lower_ranges (R 0 0 0)) with (R 0x41 0x5A 32).
      unfold in_range. cbn [first last]. lia.
    + intros i Hi. lia.
  - rewrite lower_search_spec; [done|lia|lia| |]; intros i Hi; lia.
Qed.

(** Outside the table nothing changes; inside, the check above applies. *)
Lemma lower_cases v :
  lql_unicode_simple_lower v = v \/ lowered_ok v = true.
Proof.
  rewrite simple_lower_table. unfold table_lower.
  destruct (find (in_range v) lql_unicode_lower_ranges) as [r|] eqn:E; [right|by left].
  apply find_some in E as [Hin Hr]. pose proof table_lowered_ok as H.
  rewrite forallb_forall in H. specialize (H r Hin). cbn beta in H. rewrite forallb_forall in H.
  apply H, interval_in. unfold in_range in Hr. lia.
Qed.

Lemma lower_scalar v : scalar v -> scalar (lql_unicode_simple_lower v).
Proof.
  intros Hv. destruct (lower_cases v) as [->|H]; [done|]. unfold lowered_ok in H. cbv zeta in H.
  unfold scalar. lia.
Qed.

Lemma lower_ascii v : v < 128 -> lql_unicode_simple_lower v < 128.
Proof.
  intros Hv. destruct (lower_cases v) as [->|H]; [done|]. unfold lowered_ok in H. cbv zeta in H. lia.
Qed.

(** ** Texts *)

(** The UTF-8 text of a list of code points. *)
Definition utf8_text (cs : list Z) : bytes := concat (map utf8_arith cs).

Lemma utf8_arith_length v : (1 <= length (utf8_arith v) <= 4)%nat.
Proof. unfold utf8_arith. repeat case_if; cbn; lia. Qed.

Lemma append_spec v out cap :
  scalar v ->
  lql_unicode_utf8_append v out cap =
    if (cap - length out <? length (utf8_arith v))%nat then None else Some (out ++ utf8_arith v).
Proof. intros H. unfold lql_unicode_utf8_append. by rewrite utf8_bytes_arith. Qed.

Lemma lower_loop_spec cs : Forall scalar cs -> forall fuel out cap,
  (length (utf8_text cs) <= fuel)%nat -> (length out <= cap)%nat ->
  lower_loop fuel (utf8_text cs) out cap =
    let res := out ++ utf8_text (map lql_unicode_simple_lower cs) in
    if (cap <? length res)%nat then None else Some res.
Proof.
  induction 1 as [|c cs Hc Hcs IH]; intros fuel out cap Hf Ho.
  - cbn [utf8_text map concat]. rewrite app_nil_r. cbv zeta.
    rewrite (proj2 (Nat.ltb_ge _ _)) by done. by destruct fuel.
  - pose proof (utf8_arith_length c) as Hl. unfold utf8_text in *. cbn [map concat] in *.
    rewrite length_app in Hf. cbv zeta. rewrite app_assoc.
    destruct (utf8_arith c ++ concat (map utf8_arith cs)) as [|x t] eqn:E.
    { apply app_eq_nil in E as [E _]. rewrite E in Hl. cbn in Hl. lia. }
    destruct fuel as [|fuel]; [lia|]. cbn [lower_loop]. rewrite <- E. clear E x t.
    rewrite decode_arith by done. cbn [mbind option_bind].
    rewrite append_spec by (by apply lower_scalar).
    destruct (_ <? _)%nat eqn:Ec; cbn [mbind option_bind].
    + apply Nat.ltb_lt in Ec. rewrite (proj2 (Nat.ltb_lt _ _)); [done|]. rewrite !length_app. lia.
    + apply Nat.ltb_ge in Ec. rewrite IH; [done|lia|rewrite length_app; lia].
Qed.

Lemma lower_loop_decodes fuel input out cap res :
  Forall (fun c => 0 <= c) input -> lower_loop fuel input out cap = Some res ->
  exists cs, Forall scalar cs /\ input = utf8_text cs.
Proof.
  revert input out. induction fuel as [|fuel IH]; intros [|x t] out Hb; cbn [lower_loop];
    try (intros _; by exists []); [done|].
  intros ([v rest] & Hd & H)%bind_Some. apply decode_sound in Hd as [Hv E]; [|done].
  apply bind_Some in H as (out' & _ & H). rewrite E in Hb |- *. apply Forall_app in Hb as [_ Hb].
  destruct (IH rest out' Hb H) as (cs & Hcs & ->). exists (v :: cs). split; [by constructor|done].
Qed.

Lemma lower_length cs :
  Forall scalar cs ->
  (length (utf8_text (map lql_unicode_simple_lower cs)) <= 2 * length (utf8_text cs))%nat.
Proof.
  induction 1 as [|c cs Hc Hcs IH]; [cbn; lia|]. unfold utf8_text in *. cbn [map concat].
  rewrite !length_app.
  enough (length (utf8_arith (lql_unicode_simple_lower c)) <= 2 * length (utf8_arith c))%nat by lia.
  pose proof (utf8_arith_length (lql_unicode_simple_lower c)).
  destruct (Z.lt_ge_cases c 128) as [Hl|Hl].
  - pose proof (lower_ascii c Hl). unfold utf8_arith.
    rewrite !(proj2 (Z.ltb_lt _ 128)) by lia. cbn. lia.
  - assert (2 <= length (utf8_arith c))%nat; [|lia].
    unfold utf8_arith. rewrite (proj2 (Z.ltb_ge c 128)) by lia. repeat case_if; cbn; lia.
Qed.

(** ** The properties *)

(** C39. The UTF-8 codec is a bijection between the scalar values and their
    shortest encodings: decoding an encoding gives the value back, and whatever
    the decoder accepts is the encoding of its result, so overlong forms,
    surrogates and values above U+10FFFF are rejected. *)
Theorem utf8_codec_roundtrip v input :
  (scalar v -> exists b, lql_unicode_utf8_encode v = Some b /\
     lql_unicode_utf8_decode_one b = Some v) /\
  (Forall (fun c => 0 <= c) input -> lql_unicode_utf8_decode_one input = Some v ->
     scalar v /\ lql_unicode_utf8_encode v = Some input).
Proof.
  assert (forall v, scalar v -> lql_unicode_utf8_encode v = Some (utf8_arith v)) as He.
  { intros u Hu. unfold lql_unicode_utf8_encode. rewrite append_spec by done.
    pose proof (utf8_arith_length u). rewrite (proj2 (Nat.ltb_ge _ _)); [done|cbn [length]; lia]. }
  split.
  - intros Hv. exists (utf8_arith v). split; [by apply He|].
    unfold lql_unicode_utf8_decode_one. pose proof (decode_arith v [] Hv) as E.
    rewrite app_nil_r in E. by rewrite E.
  - intros Hb. unfold lql_unicode_utf8_decode_one.
    intros ([u rest] & Hd & H)%bind_Some. destruct rest; [|done]. injection H as ->.
    apply decode_sound in Hd as [Hv ->]; [|done]. rewrite app_nil_r. split; [done|by apply He].
Qed.

(** C40. The binary search finds the range that holds the value: lower-casing a
    code point is looking it up in the table. *)
Theorem simple_lower_is_lookup v :
  lql_unicode_simple_lower v =
  match find (in_range v) lql_unicode_lower_ranges with
  | Some r => range_lower r v
  | None => v
  end.
Proof. apply simple_lower_table. Qed.

(** Lower-casing is idempotent and maps scalar values to scalar values. *)
Theorem simple_lower_idempotent v :
  lql_unicode_simple_lower (lql_unicode_simple_lower v) = lql_unicode_simple_lower v /\
  (scalar v -> scalar (lql_unicode_simple_lower v)).
Proof.
  split; [|apply lower_scalar]. destruct (lower_cases v) as [E|H]; [by rewrite !E|].
  unfold lowered_ok in H. cbv zeta in H. lia.
Qed.

(** C30. Lower-casing a text succeeds exactly on valid UTF-8 whose lower-cased
    code points fit the capacity, and gives their encoding; a capacity of twice
    the input and one byte, which the compiler of case-insensitive terms
    allocates, is always enough. *)
Theorem utf8_lower_spec input cap out :
  Forall (fun c => 0 <= c) input ->
  (lql_unicode_utf8_lower input cap = Some out <->
   exists cs, Forall scalar cs /\ input = utf8_text cs /\
     out = utf8_text (map lql_unicode_simple_lower cs) /\ (length out <= cap)%nat) /\
  (forall cs, Forall scalar cs -> input = utf8_text cs -> (2 * length input + 1 <= cap)%nat ->
     is_Some (lql_unicode_utf8_lower input cap)).
Proof.
  intros Hb. unfold lql_unicode_utf8_lower. split; [split|].
  - intros H. destruct (lower_loop_decodes _ _ _ _ _ Hb H) as (cs & Hcs & ->).
    exists cs. rewrite lower_loop_spec in H by (done || cbn; lia). cbv zeta in H. cbn [app] in H.
    destruct (_ <? _)%nat eqn:E in H; [done|]. apply Nat.ltb_ge in E. injection H as <-. done.
  - intros (cs & Hcs & -> & -> & Hl). rewrite lower_loop_spec by (done || cbn; lia). cbv zeta.
    cbn [app]. by rewrite (proj2 (Nat.ltb_ge _ _)).
  - intros cs Hcs -> Hcap. rewrite lower_loop_spec by (done || cbn; lia). cbv zeta. cbn [app].
    pose proof (lower_length cs Hcs). rewrite (proj2 (Nat.ltb_ge _ _)) by lia. done.
Qed.

(** ** Witnesses *)

Lemma utf8_codec_roundtrip_witness : scalar 0x20AC /\ lql_unicode_utf8_encode 0x20AC = Some [0xe2; 0x82; 0xac].
Proof.
  destruct (utf8_codec_roundtrip 0x20AC [0xe2; 0x82; 0xac]) as [_ H].
  apply H; [repeat constructor; lia|by vm_compute].
Defined.

Lemma simple_lower_idempotent_witness : scalar (lql_unicode_simple_lower 0x23a).
Proof. apply (simple_lower_idempotent 0x23a). unfold scalar. lia. Defined.

(** U+023A grows from two bytes to three. *)
Lemma utf8_lower_spec_witness : lql_unicode_utf8_lower [0xc8; 0xba; 65] 7 = Some [0xe2; 0xb1; 0xa5; 97].
Proof.
  apply (utf8_lower_spec [0xc8; 0xba; 65] 7 [0xe2; 0xb1; 0xa5; 97]); [repeat constructor; lia|].
  exists [0x23a; 65]. split_and!; [repeat constructor; unfold scalar; lia|by vm_compute..|cbn; lia].
Defined.
