(* ===== verification/Errors.v ===== *)
(** * Statuses, error objects and allocation failure

    [lql_status], [lql_error] and [lql_set_error] (include/lql/lql.h,
    src/lql.c), and the monad in which a component that handles allocation
    failure is modelled: an oracle says which of its requests succeed, and the
    state counts requests and live blocks. *)

From S2P Require Import Prelude.

Inductive lql_status :=
  | LQL_STATUS_OK
  | LQL_STATUS_INVALID_ARGUMENT
  | LQL_STATUS_NO_MEMORY
  | LQL_STATUS_PARSE_ERROR
  | LQL_STATUS_JSON_ERROR
  | LQL_STATUS_UNSUPPORTED
  | LQL_STATUS_STOP
  | LQL_STATUS_CALLBACK_ERROR
  | LQL_STATUS_IO_ERROR.

#[export] Instance lql_status_eq_dec : EqDecision lql_status.
Proof. solve_decision. Defined.

Record lql_error := mk_error { code : lql_status; message : bytes }.

(** [sizeof(error->message)] *)
Definition sizeof_message : nat := 256.

Definition lql_error_init : lql_error := mk_error LQL_STATUS_OK [].

Definition lql_set_error (status : lql_status) (msg : option bytes) : lql_error :=
  match msg with
  | None => mk_error status []
  | Some m =>
      let len := length m in
      let len := if (sizeof_message <=? len)%nat then (sizeof_message - 1)%nat else len in
      mk_error status (take len m)
  end.

Definition lql_status_string (status : lql_status) : string :=
  match status with
  | LQL_STATUS_OK => "ok"
  | LQL_STATUS_INVALID_ARGUMENT => "invalid argument"
  | LQL_STATUS_NO_MEMORY => "out of memory"
  | LQL_STATUS_PARSE_ERROR => "parse error"
  | LQL_STATUS_JSON_ERROR => "json error"
  | LQL_STATUS_UNSUPPORTED => "unsupported"
  | LQL_STATUS_STOP => "stop"
  | LQL_STATUS_CALLBACK_ERROR => "callback error"
  | LQL_STATUS_IO_ERROR => "I/O error"
  end.

(** A failure: the status returned and the message set. *)
Definition failure : Type := lql_status * string.

(** ** Allocation failure *)

Record mem := mk_mem { requests : nat; live : Z }.

Definition M (A : Type) : Type := mem -> A * mem.

#[export] Instance M_ret : MRet M := fun A a m => (a, m).
#[export] Instance M_bind : MBind M := fun A B f x m => let '(a, m) := x m in f a m.

Section mem.
(** The oracle: whether the [k]-th request is granted. *)
Context (alloc_ok : nat -> bool).

(** [alloc] and [calloc]: whether a block was returned. *)
Definition mem_alloc : M bool := fun m =>
  let ok := alloc_ok (requests m) in
  (ok, mk_mem (S (requests m)) (if ok then live m + 1 else live m)).

(** [realloc] to a larger size of a block that is NULL or not. *)
Definition mem_grow (present : bool) : M bool := fun m =>
  let ok := alloc_ok (requests m) in
  (ok, mk_mem (S (requests m)) (if ok && negb present then live m + 1 else live m)).
End mem.

(** [destroy] of a pointer that is NULL or not. *)
Definition mem_destroy (present : bool) : M unit := fun m =>
  (tt, mk_mem (requests m) (if present then live m - 1 else live m)).

(** [for (i = 0; i < n; ++i) destroy(p[i]);] of non-NULL pointers. *)
Fixpoint mem_destroy_n (n : nat) : M unit :=
  match n with O => mret tt | S n => mem_destroy true ≫= fun _ => mem_destroy_n n end.

Lemma mem_destroy_n_run n m : mem_destroy_n n m = (tt, mk_mem (requests m) (live m - Z.of_nat n)).
Proof.
  revert m. induction n as [|n IH]; intros m; cbn.
  - destruct m; cbn. by rewrite Z.sub_0_r.
  - unfold mbind, M_bind, mem_destroy. rewrite IH. cbn. f_equal. f_equal. lia.
Qed.

(** ** Reasoning: the outcome of a computation from a state *)

Definition outcome {A} (c : M A) (m : mem) (P : A -> mem -> Prop) : Prop :=
  let '(a, m') := c m in P a m'.

Lemma outcome_ret {A} (a : A) m P : P a m -> outcome (mret a : M A) m P.
Proof. done. Qed.

Lemma outcome_bind {A B} (c : M A) (f : A -> M B) m (P : _ -> mem -> Prop) :
  outcome c m (fun a m' => outcome (f a) m' P) -> outcome (c ≫= f) m P.
Proof. unfold outcome, mbind, M_bind. by destruct (c m). Qed.

Lemma outcome_mono {A} (c : M A) m (P Q : A -> mem -> Prop) :
  outcome c m P -> (forall a m', P a m' -> Q a m') -> outcome c m Q.
Proof. unfold outcome. destruct (c m). auto. Qed.

Lemma outcome_destroy (b : bool) m (P : _ -> mem -> Prop) :
  P tt (mk_mem (requests m) (live m - (if b then 1 else 0))) -> outcome (mem_destroy b) m P.
Proof.
  unfold outcome, mem_destroy. intros H.
  replace (if b then live m - 1 else live m) with (live m - (if b then 1 else 0)); [done|].
  destruct b; lia.
Qed.

Lemma outcome_destroy_n n m (P : _ -> mem -> Prop) :
  P tt (mk_mem (requests m) (live m - Z.of_nat n)) -> outcome (mem_destroy_n n) m P.
Proof. intros H. unfold outcome. by rewrite mem_destroy_n_run. Qed.

Section outcomes.
Context (alloc_ok : nat -> bool).

(** A request was refused between two states. *)
Definition refused (m m' : mem) : Prop :=
  exists k, (requests m <= k < requests m')%nat /\ alloc_ok k = false.

Lemma outcome_alloc m (P : _ -> mem -> Prop) :
  (alloc_ok (requests m) = true -> P true (mk_mem (S (requests m)) (live m + 1))) ->
  (alloc_ok (requests m) = false -> P false (mk_mem (S (requests m)) (live m))) ->
  outcome (mem_alloc alloc_ok) m P.
Proof. unfold outcome, mem_alloc. intros H1 H2. destruct (alloc_ok (requests m)); auto. Qed.

Lemma outcome_grow (b : bool) m (P : _ -> mem -> Prop) :
  (alloc_ok (requests m) = true ->
     P true (mk_mem (S (requests m)) (live m + (if b then 0 else 1)))) ->
  (alloc_ok (requests m) = false -> P false (mk_mem (S (requests m)) (live m))) ->
  outcome (mem_grow alloc_ok b) m P.
Proof.
  unfold outcome, mem_grow. intros H1 H2. destruct (alloc_ok (requests m)); [|by apply H2].
  destruct b; cbn [negb andb]; specialize (H1 eq_refl); [by rewrite Z.add_0_r in H1|done].
Qed.

Lemma refused_now m n l : alloc_ok (requests m) = false -> (requests m < n)%nat ->
  refused m (mk_mem n l).
Proof. intros Ha Hn. exists (requests m). cbn. split; [lia|done]. Qed.

Lemma refused_later m m1 m' : (requests m <= requests m1)%nat ->
  refused m1 m' -> refused m m'.
Proof. intros Hr (k & Hk & Ha). exists k. split; [lia|done]. Qed.
End outcomes.
