(* ===== verification/Projection.v ===== *)
(** * Projections (src/lql_projection.c)

    The normalisation and compilation of projection paths, with its allocations:
    every [alloc], [calloc], [realloc] and [destroy] of the code is one in the
    model, so that leaks and double releases on the error paths show. *)

From S2P Require Import Prelude.
From S2P Require Import Errors.

(** A compiled path: its decoded segments ([lql_projection_path]); a projection:
    its normalised paths and their compiled forms, in order. *)
Definition lql_projection_path : Type := list bytes.

Record lql_projection := mk_projection {
  paths : list bytes;
  compiled_paths : list lql_projection_path
}.

Definition projection_is_space (ch : Z) : bool :=
  (ch =? ch_space) || (ch =? ch_tab) || (ch =? ch_cr) || (ch =? ch_nl).

Definition projection_valid_pointer (path : bytes) : bool :=
  negb (negb (at_ path 0 =? ch_slash) || (at_ path 1 =? 0)).

(** The decoding loop of one raw segment. *)
Fixpoint decode_segment (part : bytes) : bytes :=
  match part with
  | c :: rest =>
      if c =? ch_tilde then
        match rest with
        | d :: rest' =>
            if (d =? ch_0) || (d =? ch_1) then
              (if d =? ch_0 then ch_tilde else ch_slash) :: decode_segment rest'
            else c :: decode_segment rest
        | [] => [c]
        end
      else c :: decode_segment rest
  | [] => []
  end.

Section alloc.
Context (alloc_ok : nat -> bool).

Definition projection_path_cleanup (path : lql_projection_path) : M unit :=
  mem_destroy_n (length path) ≫= fun _ =>
  mem_destroy (negb (bool_decide (path = []))).

(** A round of the loop of [projection_decode_path]: [segments] so far (their
    array has [capacity] slots, 0 for a NULL array), the text from [part] on;
    [next] is the rest of the loop. *)
Definition decode_round
    (next : bytes -> list bytes -> nat -> M (failure + lql_projection_path))
    (part : bytes) (segments : list bytes) (capacity : nat) : M (failure + lql_projection_path) :=
  let fail : M (failure + lql_projection_path) :=
    mem_destroy_n (length segments) ≫= fun _ =>
    mem_destroy (negb (capacity =? 0)%nat) ≫= fun _ =>
    mret (inl (LQL_STATUS_NO_MEMORY, "out of memory"%string)) in
  let '(raw, slash) := span (fun c => negb (c =? ch_slash)) part in
  ok ← mem_alloc alloc_ok;
  if negb ok then fail
  else
    let decoded := decode_segment raw in
    grown ← (if (length segments =? capacity)%nat then mem_grow alloc_ok (negb (capacity =? 0)%nat)
             else mret true);
    if negb grown then mem_destroy true ≫= fun _ => fail
    else
      let capacity :=
        if (length segments =? capacity)%nat
        then (if (capacity =? 0)%nat then 4%nat else (capacity * 2)%nat) else capacity in
      match slash with
      | [] => mret (inr (segments ++ [decoded]))
      | _ :: part => next part (segments ++ [decoded]) capacity
      end.

(** A round ends at a slash or at the end of the text, so the length of the
    text bounds the rounds. *)
Fixpoint decode_loop (fuel : nat) : bytes -> list bytes -> nat -> M (failure + lql_projection_path) :=
  decode_round
    match fuel with
    | O => fun _ segments _ => mret (inr segments)
    | S fuel => decode_loop fuel
    end.

Definition projection_decode_path (path : bytes) : M (failure + lql_projection_path) :=
  decode_loop (length path) (drop 1 path) [] 0.

Definition projection_leading_index (path : lql_projection_path) : bool :=
  match path with
  | [] => false
  | segment :: _ => negb (bool_decide (segment = [])) && forallb is_digit segment
  end.

Definition projection_conflicts (left right : bytes) : bool :=
  if bytes_eqb left right then false
  else
    let left_len := length left in
    let right_len := length right in
    ((left_len <? right_len)%nat && (at_ right left_len =? ch_slash) &&
     bytes_eqb (take left_len left) (take left_len right)) ||
    ((right_len <? left_len)%nat && (at_ left right_len =? ch_slash) &&
     bytes_eqb (take right_len left) (take right_len right)).

Fixpoint destroy_paths (ps : list bytes) (cs : list lql_projection_path) : M unit :=
  match ps, cs with
  | _ :: ps, c :: cs =>
      mem_destroy true ≫= fun _ => projection_path_cleanup c ≫= fun _ => destroy_paths ps cs
  | _, _ => mret tt
  end.

Definition lql_projection_destroy_internal (p : lql_projection) : M unit :=
  destroy_paths (paths p) (compiled_paths p) ≫= fun _ =>
  mem_destroy true ≫= fun _ => mem_destroy true ≫= fun _ => mem_destroy true.

(** The two trimming loops. *)
Definition projection_trim (path : bytes) : bytes :=
  let s := drop_while projection_is_space path in
  rev (drop_while projection_is_space (rev s)).

(** The scan of the paths kept so far: a duplicate, a conflict, or neither. *)
Inductive scan_result := Duplicate | Conflict | Fresh.

Fixpoint projection_scan (copy : bytes) (kept : list bytes) : scan_result :=
  match kept with
  | [] => Fresh
  | k :: kept =>
      if bytes_eqb copy k then Duplicate
      else if projection_conflicts copy k then Conflict
      else projection_scan copy kept
  end.

(** One round of the main loop, on the trimmed non-empty path [path]. *)
Definition projection_add (projection : lql_projection) (path : bytes)
    : M (failure + lql_projection) :=
  let fail (e : failure) : M (failure + lql_projection) :=
    lql_projection_destroy_internal projection ≫= fun _ => mret (inl e) in
  copied ← mem_alloc alloc_ok;
  if negb copied then fail (LQL_STATUS_NO_MEMORY, "out of memory"%string)
  else if negb (projection_valid_pointer path) then
    mem_destroy true ≫= fun _ => fail (LQL_STATUS_PARSE_ERROR, "projection path is invalid"%string)
  else
    match projection_scan path (paths projection) with
    | Duplicate => mem_destroy true ≫= fun _ => mret (inr projection)
    | Conflict =>
        mem_destroy true ≫= fun _ =>
        fail (LQL_STATUS_PARSE_ERROR, "projection paths have a parent-child conflict"%string)
    | Fresh =>
        status ← projection_decode_path path;
        match status with
        | inl e =>
            projection_path_cleanup [] ≫= fun _ => mem_destroy true ≫= fun _ => fail e
        | inr compiled =>
            if projection_leading_index compiled then
              projection_path_cleanup compiled ≫= fun _ => mem_destroy true ≫= fun _ =>
              fail (LQL_STATUS_PARSE_ERROR, "projection path is invalid"%string)
            else
              mret (inr (mk_projection (paths projection ++ [path])
                           (compiled_paths projection ++ [compiled])))
        end
    end.

Fixpoint projection_loop (inputs : list (option bytes)) (projection : lql_projection)
    : M (failure + lql_projection) :=
  match inputs with
  | [] => mret (inr projection)
  | None :: inputs => projection_loop inputs projection
  | Some input :: inputs =>
      let path := projection_trim input in
      if bool_decide (path = []) then projection_loop inputs projection
      else
        r ← projection_add projection path;
        match r with
        | inl e => mret (inl e)
        | inr projection => projection_loop inputs projection
        end
  end.

(** [receiver]: [self] has an allocator; [inputs]: [paths], NULL or an array
    of [path_count] pointers; [out_given]: [out != NULL]. *)
Definition lql_projection_parse_internal (receiver : bool) (inputs : option (list (option bytes)))
    (path_count : nat) (out_given : bool) : M (failure + lql_projection) :=
  if negb out_given || (bool_decide (inputs = None) && negb (path_count =? 0)%nat) then
    mret (inl (LQL_STATUS_INVALID_ARGUMENT, "projection paths and out are required"%string))
  else if (path_count =? 0)%nat then
    mret (inl (LQL_STATUS_PARSE_ERROR, "projection paths required"%string))
  else if negb receiver then
    mret (inl (LQL_STATUS_INVALID_ARGUMENT, "projection receiver required"%string))
  else
    projection ← mem_alloc alloc_ok;
    if negb projection then mret (inl (LQL_STATUS_NO_MEMORY, "out of memory"%string))
    else
      ps ← mem_alloc alloc_ok;
      cs ← mem_alloc alloc_ok;
      if negb ps || negb cs then
        mem_destroy cs ≫= fun _ => mem_destroy ps ≫= fun _ => mem_destroy true ≫= fun _ =>
        mret (inl (LQL_STATUS_NO_MEMORY, "out of memory"%string))
      else
        r ← projection_loop (default [] inputs) (mk_projection [] []);
        match r with
        | inl e => mret (inl e)
        | inr p =>
            if bool_decide (paths p = []) then
              lql_projection_destroy_internal p ≫= fun _ =>
              mret (inl (LQL_STATUS_PARSE_ERROR, "projection paths required"%string))
            else mret (inr p)
        end.
End alloc.
