(* ===== verification/ProjectionProps.v ===== *)
(** * Correctness of projection parsing

    The pure specification of projection parsing, the refinement to it under any
    pattern of allocation failures with no leak and no double release, the
    round trip of JSON Pointer segments, and the absence of conflicts. *)

From S2P Require Import Prelude.
From S2P Require Import Errors.
From S2P Require Import Projection.

(** ** Specification *)

Definition compile_path (path : bytes) : lql_projection_path :=
  map decode_segment (split_slash (drop 1 path)).

Definition invalid_path : failure := (LQL_STATUS_PARSE_ERROR, "projection path is invalid"%string).
Definition conflicting_path : failure :=
  (LQL_STATUS_PARSE_ERROR, "projection paths have a parent-child conflict"%string).
Definition paths_required : failure := (LQL_STATUS_PARSE_ERROR, "projection paths required"%string).
Definition out_of_memory : failure := (LQL_STATUS_NO_MEMORY, "out of memory"%string).

(** Adding one path to the projection, without allocations. *)
Definition spec_add (p : lql_projection) (path : bytes) : failure + lql_projection :=
  if negb (projection_valid_pointer path) then inl invalid_path
  else
    match projection_scan path (paths p) with
    | Duplicate => inr p
    | Conflict => inl conflicting_path
    | Fresh =>
        if projection_leading_index (compile_path path) then inl invalid_path
        else inr (mk_projection (paths p ++ [path]) (compiled_paths p ++ [compile_path path]))
    end.

Fixpoint spec_loop (inputs : list (option bytes)) (p : lql_projection) : failure + lql_projection :=
  match inputs with
  | [] => inr p
  | None :: inputs => spec_loop inputs p
  | Some input :: inputs =>
      if bool_decide (projection_trim input = []) then spec_loop inputs p
      else match spec_add p (projection_trim input) with
           | inl e => inl e
           | inr p => spec_loop inputs p
           end
  end.

Definition projection_spec (inputs : list (option bytes)) : failure + lql_projection :=
  match spec_loop inputs (mk_projection [] []) with
  | inl e => inl e
  | inr p => if bool_decide (paths p = []) then inl paths_required else inr p
  end.

(** ** Blocks owned *)

(** The blocks a compiled path owns: its segments and their array. *)
Definition path_blocks (c : lql_projection_path) : Z :=
  Z.of_nat (length c) + (if bool_decide (c = []) then 0 else 1).

(** A kept path owns its text and its compiled form. *)
Definition kept_blocks (cs : list lql_projection_path) : Z :=
  foldr (fun c acc => 1 + path_blocks c + acc) 0 cs.

(** A projection owns its structure and two arrays besides. *)
Definition projection_blocks (p : lql_projection) : Z := 3 + kept_blocks (compiled_paths p).

Definition projection_wf (p : lql_projection) : Prop := length (paths p) = length (compiled_paths p).

Lemma kept_blocks_snoc cs c : kept_blocks (cs ++ [c]) = kept_blocks cs + 1 + path_blocks c.
Proof. unfold kept_blocks. induction cs as [|d cs IH]; cbn in *; lia. Qed.

(** ** Refinement *)

Section refine.
Context (alloc_ok : nat -> bool).

(** A result against its specification: the specified one, with the live
    blocks that belong to it, or out of memory after a refused request, with
    nothing kept; [base] is what was live before. *)
Definition refines {A} (spec : failure + A) (owned : A -> Z) (base : Z) (m : mem)
    (r : failure + A) (m' : mem) : Prop :=
  (requests m <= requests m')%nat /\
  match r with
  | inr a => spec = inr a /\ live m' = base + owned a
  | inl e => live m' = base /\ (spec = inl e \/ (e = out_of_memory /\ refused alloc_ok m m'))
  end.

Lemma cleanup_outcome c m P :
  P tt (mk_mem (requests m) (live m - path_blocks c)) -> outcome (projection_path_cleanup c) m P.
Proof.
  intros H. unfold projection_path_cleanup. apply outcome_bind, outcome_destroy_n, outcome_destroy.
  cbn [requests live]. unfold path_blocks in H.
  replace (live m - Z.of_nat (length c) - _) with
    (live m - (Z.of_nat (length c) + (if bool_decide (c = []) then 0 else 1))); [done|].
  case_bool_decide; cbn; lia.
Qed.

Lemma destroy_paths_outcome ps cs m P :
  length ps = length cs ->
  P tt (mk_mem (requests m) (live m - kept_blocks cs)) -> outcome (destroy_paths ps cs) m P.
Proof.
  revert cs m. induction ps as [|p ps IH]; intros [|c cs] m HL HP; try done.
  - cbn in *. rewrite Z.sub_0_r in HP. by destruct m.
  - cbn [destroy_paths]. apply outcome_bind, outcome_destroy, outcome_bind, cleanup_outcome, IH;
      [by injection HL|]. cbn [requests live].
    unfold kept_blocks in *. cbn [foldr] in HP.
    match goal with |- P _ (mk_mem _ ?a) => match type of HP with P _ (mk_mem _ ?b) =>
      replace a with b by lia end end. done.
Qed.

Lemma destroy_outcome p m P :
  projection_wf p -> P tt (mk_mem (requests m) (live m - projection_blocks p)) ->
  outcome (lql_projection_destroy_internal p) m P.
Proof.
  intros Hw HP. unfold lql_projection_destroy_internal.
  apply outcome_bind, destroy_paths_outcome; [done|].
  do 2 apply outcome_bind, outcome_destroy. apply outcome_destroy. cbn [requests live].
  unfold projection_blocks in HP.
  match goal with |- P _ (mk_mem _ ?a) => match type of HP with P _ (mk_mem _ ?b) =>
    replace a with b by lia end end. done.
Qed.

Definition owned_so_far (segments : list bytes) (capacity : nat) : Z :=
  Z.of_nat (length segments) + (if (capacity =? 0)%nat then 0 else 1).

(** What the rest of the loop promises is what a round of it promises. *)
Lemma decode_round_outcome next part segments capacity m :
  (capacity = 0%nat -> segments = []) ->
  (forall part' segs cap m1, (length part' < length part)%nat -> cap <> 0%nat ->
     outcome (next part' segs cap) m1
       (refines (inr (segs ++ map decode_segment (split_slash part'))) path_blocks
          (live m1 - owned_so_far segs cap) m1)) ->
  outcome (decode_round alloc_ok next part segments capacity) m
    (refines (inr (segments ++ map decode_segment (split_slash part))) path_blocks
       (live m - owned_so_far segments capacity) m).
Proof.
  intros Hc Hnext. unfold decode_round. pose proof (split_slash_span part) as Hsp.
  destruct (span _ part) as [raw slash] eqn:Espan. rewrite Hsp. apply span_app in Espan.
  assert (forall b m1, (requests m < requests m1)%nat ->
    live m1 - (if b : bool then 1 else 0) = live m -> refused alloc_ok m m1 ->
    outcome (mem_destroy_n (length segments) ≫= fun _ =>
      mem_destroy (negb (capacity =? 0)%nat) ≫= fun _ =>
      mret (inl (LQL_STATUS_NO_MEMORY, "out of memory"%string)) :
        M (failure + lql_projection_path)) (mk_mem (requests m1) (live m))
      (refines (inr (segments ++ map decode_segment
         (raw :: match slash with [] => [] | _ :: t => split_slash t end))) path_blocks
         (live m - owned_so_far segments capacity) m)) as Hfail.
  { intros b m1 Hr Hl (k & Hk & Hk'). apply outcome_bind, outcome_destroy_n, outcome_bind, outcome_destroy, outcome_ret.
    cbn [requests live]. split; [cbn [requests]; lia|]. cbn [live]. split.
    - unfold owned_so_far. destruct (capacity =? 0)%nat; cbn [negb]; lia.
    - right. split; [done|]. exists k. done. }
  apply outcome_bind, outcome_alloc; intros Ha; cbn [negb].
  2:{ apply (Hfail false (mk_mem (S (requests m)) (live m))); cbn; [lia|lia|].
      by apply refused_now; [|lia]. }
  apply outcome_bind.
  assert (forall m1 cap, (requests m < requests m1)%nat -> cap <> 0%nat ->
    live m1 = live m - owned_so_far segments capacity + (Z.of_nat (length segments) + 2) ->
    outcome (match slash with
      | [] => mret (inr (segments ++ [decode_segment raw]))
      | _ :: part => next part (segments ++ [decode_segment raw]) cap
      end) m1 (refines (inr (segments ++ map decode_segment
         (raw :: match slash with [] => [] | _ :: t => split_slash t end))) path_blocks
         (live m - owned_so_far segments capacity) m)) as Hgo.
  { intros m1 cap Hr Hcap Hl. destruct slash as [|c part'].
    - apply outcome_ret. split; [lia|]. split; [done|]. unfold path_blocks.
      rewrite bool_decide_eq_false_2 by (by destruct segments). rewrite length_app. cbn [length]. lia.
    - eapply outcome_mono; [apply Hnext; [rewrite Espan, length_app; cbn; lia|done]|].
      intros r m' [Hr' H]. cbn [map]. rewrite <- app_assoc in H. cbn [app] in H. split; [lia|].
      unfold owned_so_far in H at 1 2. rewrite length_app in H. cbn [length] in H.
      rewrite (proj2 (Nat.eqb_neq cap 0)) in H by done. destruct r as [e|a].
      + destruct H as [HL [H|[He Href]]]; [done|]. split; [lia|]. right. split; [done|].
        by apply (refused_later alloc_ok m m1); [lia|].
      + destruct H as [He HL]. split; [done|lia]. }
  destruct (length segments =? capacity)%nat eqn:Ecap.
  - apply Nat.eqb_eq in Ecap. apply outcome_grow; intros Hg; cbn [negb requests live].
    + apply Hgo; cbn [requests live].
      * lia.
      * destruct (capacity =? 0)%nat eqn:E0; [lia|apply Nat.eqb_neq in E0; lia].
      * unfold owned_so_far. destruct (capacity =? 0)%nat; cbn [negb]; lia.
    + apply outcome_bind, outcome_destroy. cbn [requests live].
      replace (live m + 1 - 1) with (live m) by lia.
      apply (Hfail false (mk_mem (S (S (requests m))) (live m))); cbn; [lia|lia|].
      exists (S (requests m)). cbn. split; [lia|done].
  - apply Nat.eqb_neq in Ecap. apply outcome_ret. cbn [negb].
    assert (capacity <> 0%nat) as Hc0 by (intros E; apply Ecap; by rewrite (Hc E), E).
    apply Hgo; cbn [requests live]; [lia|done|].
    unfold owned_so_far. rewrite (proj2 (Nat.eqb_neq capacity 0)) by done. lia.
Qed.

Lemma decode_loop_outcome fuel part segments capacity m :
  (length part <= fuel)%nat -> (capacity = 0%nat -> segments = []) ->
  outcome (decode_loop alloc_ok fuel part segments capacity) m
    (refines (inr (segments ++ map decode_segment (split_slash part))) path_blocks
       (live m - owned_so_far segments capacity) m).
Proof.
  revert part segments capacity m. induction fuel as [|fuel IH]; intros part segments capacity m Hf Hc;
    cbn [decode_loop]; apply decode_round_outcome; try done; intros part' segs cap m1 HL Hcap; [lia|].
  apply IH; [lia|done].
Qed.

Lemma decode_path_outcome path m :
  outcome (projection_decode_path alloc_ok path) m
    (refines (inr (compile_path path)) path_blocks (live m) m).
Proof.
  unfold projection_decode_path, compile_path.
  pose proof (decode_loop_outcome (length path) (drop 1 path) [] 0 m) as H.
  unfold owned_so_far in H. cbn [length Nat.eqb app] in H.
  replace (live m - (Z.of_nat 0 + 0)) with (live m) in H by lia. apply H; [|done].
  rewrite length_drop. lia.
Qed.

Lemma spec_add_wf p path p' : projection_wf p -> spec_add p path = inr p' -> projection_wf p'.
Proof.
  unfold spec_add, projection_wf. intros Hw. case_if; [done|]. destruct (projection_scan _ _); try done.
  - by intros [= <-].
  - case_if; [done|]. intros [= <-]. cbn [paths compiled_paths]. rewrite !length_app. cbn. lia.
Qed.

Lemma compile_path_nonempty path : compile_path path <> [].
Proof.
  unfold compile_path. intros H%map_eq_nil. by apply split_slash_nonempty in H.
Qed.

Lemma add_outcome p path m :
  projection_wf p ->
  outcome (projection_add alloc_ok p path) m
    (refines (spec_add p path) projection_blocks (live m - projection_blocks p) m).
Proof.
  intros Hw. unfold projection_add, spec_add.
  assert (forall e m1 (spec : failure + lql_projection), (requests m <= requests m1)%nat -> live m1 = live m ->
    spec = inl e \/ (e = out_of_memory /\ refused alloc_ok m m1) ->
    outcome (lql_projection_destroy_internal p ≫= fun _ => mret (inl e)) m1
      (refines spec projection_blocks (live m - projection_blocks p) m)) as Hfail.
  { intros e m1 spec Hr Hl He. apply outcome_bind, destroy_outcome; [done|]. apply outcome_ret.
    split; [done|]. cbn [live]. split; [lia|]. destruct He as [He|[He (k & Hk)]]; [by left|].
    right. split; [done|]. by exists k. }
  apply outcome_bind, outcome_alloc; intros Ha; cbn [negb].
  2:{ apply Hfail; cbn [requests live]; [lia|done|]. right. split; [done|]. by apply refused_now; [|lia]. }
  destruct (projection_valid_pointer path); cbn [negb].
  2:{ apply outcome_bind, outcome_destroy. apply Hfail; cbn [requests live]; [lia|lia|by left]. }
  destruct (projection_scan path (paths p)).
  - apply outcome_bind, outcome_destroy, outcome_ret. cbn [requests live].
    split; [cbn; lia|]. cbn [live]. split; [done|lia].
  - apply outcome_bind, outcome_destroy. apply Hfail; cbn [requests live]; [lia|lia|by left].
  - apply outcome_bind. eapply outcome_mono; [apply decode_path_outcome|].
    intros [e|c] m' [Hr H]; cbn [requests live] in *.
    + destruct H as [Hl [H|[-> Href]]]; [done|].
      apply outcome_bind, cleanup_outcome, outcome_bind, outcome_destroy.
      apply Hfail; cbn [requests live]; [lia|change (path_blocks []) with 0; lia|]. right. split; [done|].
      destruct Href as (k & Hk & Hk'). cbn [requests] in Hk. exists k. cbn [requests]. split; [lia|done].
    + destruct H as [[= <-] Hl]. destruct (projection_leading_index (compile_path path)).
      * apply outcome_bind, cleanup_outcome, outcome_bind, outcome_destroy.
        apply Hfail; cbn [requests live]; [lia|lia|by left].
      * apply outcome_ret. split; [lia|]. split; [done|]. unfold projection_blocks.
        cbn [compiled_paths]. rewrite kept_blocks_snoc. lia.
Qed.

Lemma loop_outcome inputs p m :
  projection_wf p ->
  outcome (projection_loop alloc_ok inputs p) m
    (fun r m' => refines (spec_loop inputs p) projection_blocks (live m - projection_blocks p) m r m' /\
       match r with inr p' => projection_wf p' | inl _ => True end).
Proof.
  revert p m. induction inputs as [|[input|] inputs IH]; intros p m Hw; cbn [projection_loop spec_loop].
  - apply outcome_ret. split; [|done]. split; [lia|]. split; [done|lia].
  - case_bool_decide; [by apply IH|]. apply outcome_bind.
    eapply outcome_mono; [by apply add_outcome|]. intros [e|p1] m1 [Hr Hm].
    + apply outcome_ret. split; [|done]. split; [done|]. destruct Hm as [Hl Hd]. split; [done|].
      destruct Hd as [->|Hd]; [by left|by right].
    + destruct Hm as [Hs Hl]. rewrite Hs. eapply outcome_mono; [apply IH; by apply spec_add_wf in Hs|].
      intros r m' [[Hr' Hd] Hwf]. split; [|done]. split; [lia|].
      replace (live m1 - projection_blocks p1) with (live m - projection_blocks p) in Hd by lia.
      destruct r as [e|a]; [|done]. destruct Hd as [Hl' [Hd|[He Hd]]]; split; try done; [by left|].
      right. split; [done|]. by apply (refused_later alloc_ok m m1).
  - by apply IH.
Qed.

(** The whole parse, on a proper call: [path_count] paths, a receiver, [out]. *)
Lemma parse_outcome inputs m :
  inputs <> [] ->
  outcome (lql_projection_parse_internal alloc_ok true (Some inputs) (length inputs) true) m
    (fun r m' => refines (projection_spec inputs) projection_blocks (live m) m r m' /\
       match r with inr p' => projection_wf p' | inl _ => True end).
Proof.
  intros Hne. unfold lql_projection_parse_internal. rewrite bool_decide_eq_false_2 by done.
  assert ((length inputs =? 0)%nat = false) as -> by (by destruct inputs). cbn [negb orb andb].
  assert (forall m1, (requests m < requests m1)%nat -> live m1 = live m -> refused alloc_ok m m1 ->
    refines (projection_spec inputs) projection_blocks (live m) m
      (inl (LQL_STATUS_NO_MEMORY, "out of memory"%string)) m1) as Hoom.
  { intros m1 Hr Hl Href. split; [lia|]. split; [done|]. by right. }
  apply outcome_bind, outcome_alloc; intros Ha; cbn [negb].
  2:{ apply outcome_ret. split; [|done]. apply Hoom; cbn; [lia|lia|by apply refused_now; [|lia]]. }
  apply outcome_bind, outcome_alloc; intros Hp; apply outcome_bind, outcome_alloc; intros Hc;
    cbn [negb orb requests live] in *.
  2-4: do 2 apply outcome_bind, outcome_destroy; apply outcome_bind, outcome_destroy, outcome_ret;
    cbn [requests live]; split; [|done]; apply Hoom; cbn [requests live]; [lia|lia|].
  2: exists (S (S (requests m))); cbn; split; [lia|done].
  2, 3: exists (S (requests m)); cbn; split; [lia|done].
  change (default [] (Some inputs)) with inputs.
  apply outcome_bind. eapply outcome_mono; [by apply loop_outcome|]. cbn [requests live].
  replace (live m + 1 + 1 + 1 - projection_blocks (mk_projection [] [])) with (live m)
    by (unfold projection_blocks, kept_blocks; cbn; lia).
  unfold projection_spec. intros [e|p] m' [[Hr H] Hwf]; cbn [requests] in Hr.
  - apply outcome_ret. split; [|done]. split; [lia|]. destruct H as [Hl H]. split; [done|].
    destruct H as [->|[He Href]]; [by left|]. right. split; [done|].
    destruct Href as (k & Hk & Hk'). cbn [requests] in Hk. exists k. split; [lia|done].
  - destruct H as [-> Hl]. case_bool_decide.
    + apply outcome_bind, destroy_outcome; [done|]. apply outcome_ret. split; [|done].
      split; [cbn; lia|]. cbn [live]. split; [lia|by left].
    + apply outcome_ret. split; [|done]. split; [lia|]. split; [done|lia].
Qed.
End refine.

(** ** Conflicts *)

Lemma conflicts_spec a b :
  projection_conflicts a b = true <->
  (exists t, b = a ++ ch_slash :: t) \/ (exists t, a = b ++ ch_slash :: t).
Proof.
  assert (K : forall a b, (length a <? length b)%nat && (at_ b (length a) =? ch_slash) &&
    bytes_eqb (take (length a) a) (take (length a) b) = true <-> exists t, b = a ++ ch_slash :: t).
  { clear. intros a b. split.
    - intros H. apply andb_true_iff in H as [[H1 H2]%andb_true_iff H3].
      apply Nat.ltb_lt in H1. apply Z.eqb_eq in H2. apply bytes_eqb_eq in H3.
      exists (drop (S (length a)) b). rewrite <- H2. unfold at_. rewrite <- (drop_nth b (length a) 0) by done.
      rewrite take_ge in H3 by lia. by rewrite H3 at 1; rewrite take_drop.
    - intros [t ->]. rewrite length_app. cbn [length]. rewrite (proj2 (Nat.ltb_lt _ _)) by lia.
      unfold at_. rewrite app_nth2, Nat.sub_diag by lia. cbn [nth andb].
      rewrite take_ge, take_app_length by lia. apply bytes_eqb_refl. }
  unfold projection_conflicts. destruct (bytes_eqb a b) eqn:E.
  - apply bytes_eqb_eq in E as ->. split; [done|].
    intros [[t H]|[t H]]; apply (f_equal length) in H; rewrite length_app in H; cbn in H; lia.
  - cbv zeta. rewrite orb_true_iff, K.
    assert (bytes_eqb (take (length b) a) (take (length b) b) =
      bytes_eqb (take (length b) b) (take (length b) a)) as ->.
    { unfold bytes_eqb. apply bool_decide_ext. done. }
    by rewrite K.
Qed.

(** No two kept paths are equal, and none is a parent of another. *)
Definition conflict_free (ps : list bytes) : Prop :=
  NoDup ps /\ forall a b, a ∈ ps -> b ∈ ps -> projection_conflicts a b = false.

Lemma scan_fresh path ps :
  projection_scan path ps = Fresh ->
  path ∉ ps /\ forall b, b ∈ ps -> projection_conflicts path b = false.
Proof.
  induction ps as [|k ps IH]; cbn [projection_scan]; intros H; [split; [by apply not_elem_of_nil|by intros b ?%not_elem_of_nil]|].
  destruct (bytes_eqb path k) eqn:E1; [done|]. destruct (projection_conflicts path k) eqn:E2; [done|].
  destruct (IH H) as [H1 H2]. split.
  - rewrite elem_of_cons. intros [->|?]; [|done]. by rewrite bytes_eqb_refl in E1.
  - intros b [->|?]%elem_of_cons; [done|by apply H2].
Qed.

Lemma conflicts_sym a b : projection_conflicts a b = projection_conflicts b a.
Proof.
  apply eq_bool_prop_intro. rewrite !Is_true_true, !conflicts_spec. tauto.
Qed.

Lemma conflict_free_add ps path :
  conflict_free ps -> projection_scan path ps = Fresh -> conflict_free (ps ++ [path]).
Proof.
  intros [HN HC] [H1 H2]%scan_fresh. split.
  - apply list.NoDup_app. split_and!; [done| |by apply NoDup_singleton].
    intros x Hx ->%list_elem_of_singleton. done.
  - intros a b [Ha| ->%list_elem_of_singleton]%elem_of_app [Hb| ->%list_elem_of_singleton]%elem_of_app.
    + by apply HC.
    + rewrite conflicts_sym. by apply H2.
    + by apply H2.
    + unfold projection_conflicts. by rewrite bytes_eqb_refl.
Qed.

(** ** What is accepted *)

(** The requested paths: trimmed, the empty and NULL ones dropped. *)
Definition requested (inputs : list (option bytes)) : list bytes :=
  filter (fun p => p <> []) (map projection_trim (omap id inputs)).

Definition path_ok (path : bytes) : Prop :=
  projection_valid_pointer path = true /\ projection_leading_index (compile_path path) = false.

(** A projection the loop may have built. *)
Definition built (p : lql_projection) : Prop :=
  conflict_free (paths p) /\ Forall path_ok (paths p) /\
  compiled_paths p = map compile_path (paths p).

Lemma scan_conflict path ps :
  projection_scan path ps = Conflict -> exists b, b ∈ ps /\ projection_conflicts path b = true.
Proof.
  induction ps as [|k ps IH]; cbn [projection_scan]; [done|]. destruct (bytes_eqb path k); [done|].
  destruct (projection_conflicts path k) eqn:E.
  - intros _. exists k. split; [apply list_elem_of_here|done].
  - intros H. destruct (IH H) as (b & Hb & Hc). exists b. split; [by apply list_elem_of_further|done].
Qed.

Lemma scan_duplicate path ps : projection_scan path ps = Duplicate -> path ∈ ps.
Proof.
  induction ps as [|k ps IH]; cbn [projection_scan]; [done|]. destruct (bytes_eqb path k) eqn:E.
  - apply bytes_eqb_eq in E as ->. intros _. apply list_elem_of_here.
  - destruct (projection_conflicts path k); [done|]. intros H. by apply list_elem_of_further, IH.
Qed.

Lemma spec_add_built p path p' :
  built p -> spec_add p path = inr p' ->
  built p' /\ forall x, x ∈ paths p' <-> x ∈ paths p \/ x = path.
Proof.
  intros (HC & HO & HM). unfold spec_add. destruct (projection_valid_pointer path) eqn:Ev; [|done].
  cbn [negb]. destruct (projection_scan path (paths p)) eqn:Es; try done.
  - intros [= <-]. split; [done|]. apply scan_duplicate in Es. intros x. split; [by left|].
    by intros [?| ->].
  - destruct (projection_leading_index (compile_path path)) eqn:El; [done|]. intros [= <-].
    unfold built. cbn [paths compiled_paths]. split_and!.
    + by apply conflict_free_add.
    + apply list.Forall_app. split; [done|]. by repeat constructor.
    + by rewrite HM, map_app.
    + intros x. rewrite elem_of_app, list_elem_of_singleton. done.
Qed.

Lemma spec_loop_built inputs p p' :
  built p -> spec_loop inputs p = inr p' ->
  built p' /\ forall x, x ∈ paths p' <-> x ∈ paths p \/ x ∈ requested inputs.
Proof.
  revert p. induction inputs as [|[input|] inputs IH]; intros p Hb; cbn [spec_loop].
  - intros [= <-]. split; [done|]. intros x. split; [by left|]. intros [?|?%elem_of_nil]; done.
  - unfold requested. cbn [omap list_omap id map]. case_bool_decide as Et.
    + rewrite filter_cons_False by naive_solver. apply (IH p Hb).
    + rewrite filter_cons_True by done. destruct (spec_add p _) as [e|p1] eqn:Ea; [done|].
      destruct (spec_add_built _ _ _ Hb Ea) as [Hb1 H1]. intros Hl.
      destruct (IH p1 Hb1 Hl) as [Hb' H']. split; [done|]. intros x.
      rewrite H', H1, elem_of_cons. unfold requested. tauto.
  - apply (IH p Hb).
Qed.

Lemma spec_loop_total inputs p :
  built p -> (forall x, x ∈ requested inputs -> path_ok x) ->
  (forall a b, a ∈ paths p \/ a ∈ requested inputs -> b ∈ paths p \/ b ∈ requested inputs ->
     projection_conflicts a b = false) ->
  exists p', spec_loop inputs p = inr p'.
Proof.
  revert p. induction inputs as [|[input|] inputs IH]; intros p Hb; cbn [spec_loop]; [eauto| |].
  - unfold requested. cbn [omap list_omap id map]. case_bool_decide as Et.
    + rewrite filter_cons_False by naive_solver. apply (IH p Hb).
    + rewrite filter_cons_True by done. fold (requested inputs). intros HO HC.
      set (path := projection_trim input) in *.
      destruct (HO path) as [Hv Hl]; [apply list_elem_of_here|].
      assert (exists p1, spec_add p path = inr p1) as [p1 E1].
      { unfold spec_add. rewrite Hv. cbn [negb]. destruct (projection_scan path (paths p)) eqn:Es; [eauto| |].
        - apply scan_conflict in Es as (b & Hin & Hc). rewrite HC in Hc; [done| |by left].
          right. apply list_elem_of_here.
        - rewrite Hl. eauto. }
      rewrite E1. destruct (spec_add_built _ _ _ Hb E1) as [Hb1 H1]. apply (IH p1 Hb1).
      * intros x Hx. apply HO. by apply list_elem_of_further.
      * intros a b Ha Hb'. rewrite !H1 in *. apply HC; rewrite elem_of_cons; tauto.
  - apply (IH p Hb).
Qed.

Lemma built_empty : built (mk_projection [] []).
Proof.
  split_and!; [|by constructor|done]. split; [by apply list.NoDup_nil|]. by intros a b ?%elem_of_nil.
Qed.

(** ** JSON Pointer segments *)

(** Escaping of a segment (RFC 6901): [~0] and [~1]. *)
Definition encode_segment (seg : bytes) : bytes :=
  flat_map (fun c => if c =? ch_tilde then [ch_tilde; ch_0]
                     else if c =? ch_slash then [ch_tilde; ch_1] else [c]) seg.

Definition pointer_text (segs : list bytes) : bytes :=
  flat_map (fun seg => ch_slash :: encode_segment seg) segs.

Lemma decode_encode seg : decode_segment (encode_segment seg) = seg.
Proof.
  induction seg as [|c seg IH]; [done|]. unfold encode_segment in *. cbn [flat_map].
  destruct (c =? ch_tilde) eqn:E1; [|destruct (c =? ch_slash) eqn:E2]; bool_hyps; subst; cbn [app].
  - cbn [decode_segment]. change (ch_tilde =? ch_tilde) with true. cbn [orb]. by rewrite IH.
  - cbn [decode_segment]. by rewrite IH.
  - cbn [decode_segment]. rewrite (proj2 (Z.eqb_neq c ch_tilde)) by done. by rewrite IH.
Qed.

Lemma split_encoded seg t :
  split_slash (encode_segment seg ++ ch_slash :: t) = encode_segment seg :: split_slash t /\
  split_slash (encode_segment seg) = [encode_segment seg].
Proof.
  assert (Forall (fun c => (c =? ch_slash) = false) (encode_segment seg)) as H.
  { induction seg as [|c seg IH]; [constructor|]. unfold encode_segment in *. cbn [flat_map].
    apply list.Forall_app. split; [|done]. repeat case_if; repeat constructor; done. }
  revert H. generalize (encode_segment seg) as s. intros s. induction 1 as [|c s Hc Hs [IH1 IH2]].
  - done.
  - cbn [app split_slash]. rewrite Hc, IH1, IH2. done.
Qed.

Lemma compile_pointer seg segs : compile_path (pointer_text (seg :: segs)) = seg :: segs.
Proof.
  unfold compile_path, pointer_text. cbn [flat_map app skipn]. rewrite drop_0. revert seg.
  induction segs as [|seg' segs IH]; intros seg; cbn [flat_map].
  - rewrite app_nil_r. destruct (split_encoded seg []) as [_ ->]. cbn. by rewrite decode_encode.
  - destruct (split_encoded seg (encode_segment seg' ++
      flat_map (fun s => ch_slash :: encode_segment s) segs)) as [E _].
    cbn [app]. rewrite E. cbn [map]. by rewrite decode_encode, IH.
Qed.

(** ** The properties *)

(** C27. Under every pattern of allocation failures, parsing a projection either
    returns what the failure-free specification returns, or out of memory after a
    request was refused; an error leaves no block live (nothing leaked, nothing
    released twice), and a projection holds exactly its own blocks, all of which
    [lql_projection_destroy_internal] releases. *)
Theorem projection_parse_refines alloc_ok inputs m :
  inputs <> [] ->
  let '(r, m') := lql_projection_parse_internal alloc_ok true (Some inputs) (length inputs) true m in
  match r with
  | inr p =>
      projection_spec inputs = inr p /\ live m' = live m + projection_blocks p /\
      live (snd (lql_projection_destroy_internal p m')) = live m
  | inl e =>
      live m' = live m /\
      (projection_spec inputs = inl e \/
       (e = (LQL_STATUS_NO_MEMORY, "out of memory"%string) /\ exists k, alloc_ok k = false))
  end.
Proof.
  intros Hne. pose proof (parse_outcome alloc_ok inputs m Hne) as H. unfold outcome in H.
  destruct (lql_projection_parse_internal _ _ _ _ _ m) as [r m'].
  destruct H as [[Hr H] Hw]. destruct r as [e|p].
  - destruct H as [Hl H]. split; [done|]. destruct H as [H|[He (k & _ & Hk)]]; [by left|eauto].
  - destruct H as [Hs Hl]. split_and!; [done..|].
    pose proof (destroy_outcome p m' (fun _ m'' => live m'' = live m) Hw) as D.
    unfold outcome in D. destruct (lql_projection_destroy_internal p m'). cbn [snd].
    apply D. cbn [live]. lia.
Qed.

(** Projection parsing accepts exactly the lists with at least one path
    left after trimming whose paths are pointers, name a first segment that is not
    an index, and are pairwise neither parent nor child; the result keeps each
    requested path once, compiled, and nothing else. *)
Theorem projection_spec_accepts inputs :
  ((exists p, projection_spec inputs = inr p) <->
   requested inputs <> [] /\ (forall x, x ∈ requested inputs -> path_ok x) /\
   forall a b, a ∈ requested inputs -> b ∈ requested inputs -> projection_conflicts a b = false) /\
  forall p, projection_spec inputs = inr p ->
    NoDup (paths p) /\ (forall x, x ∈ paths p <-> x ∈ requested inputs) /\
    compiled_paths p = map compile_path (paths p).
Proof.
  assert (forall p, projection_spec inputs = inr p ->
    built p /\ (forall x, x ∈ paths p <-> x ∈ requested inputs) /\ paths p <> []) as K.
  { intros p. unfold projection_spec. destruct (spec_loop _ _) as [e|q] eqn:E; [done|].
    case_bool_decide as Eq; [done|]. intros [= <-].
    destruct (spec_loop_built _ _ _ built_empty E) as [Hb Hx]. split_and!; [done| |done].
    intros x. rewrite Hx. cbn [paths]. split; [intros [?%elem_of_nil|?]; done|by right]. }
  split; [split|].
  - intros [p Hp]. destruct (K p Hp) as ((HC & HO & _) & Hx & Hne). split_and!.
    + intros E. destruct (paths p) as [|x ps] eqn:Ep; [done|].
      assert (x ∈ requested inputs) as H by (apply Hx; apply list_elem_of_here).
      rewrite E in H. by apply elem_of_nil in H.
    + intros x Hin%Hx. rewrite list.Forall_forall in HO. by apply HO.
    + intros a b Ha%Hx Hb%Hx. by apply HC.
  - intros (Hne & HO & HC).
    destruct (spec_loop_total inputs (mk_projection [] []) built_empty HO) as [p Hp].
    { intros a b [?%elem_of_nil|Ha] [?%elem_of_nil|Hb]; [done..|]. by apply HC. }
    exists p. unfold projection_spec. rewrite Hp. rewrite bool_decide_eq_false_2; [done|].
    destruct (spec_loop_built _ _ _ built_empty Hp) as [_ Hx]. intros E.
    destruct (requested inputs) as [|x l]; [done|].
    assert (x ∈ paths p) as H by (apply Hx; right; apply list_elem_of_here).
    rewrite E in H. by apply elem_of_nil in H.
  - intros p Hp. destruct (K p Hp) as ((HC & _ & HM) & Hx & _). split_and!; [apply HC|done|done].
Qed.

(** Compiling the JSON Pointer of a list of segments (RFC 6901 escaping)
    gives the segments back, and two distinct lists that are one a prefix of the
    other are reported as a conflict. *)
Theorem projection_pointer_roundtrip seg segs more :
  compile_path (pointer_text (seg :: segs)) = seg :: segs /\
  (more <> [] ->
   projection_conflicts (pointer_text (seg :: segs)) (pointer_text ((seg :: segs) ++ more)) = true).
Proof.
  split; [apply compile_pointer|]. intros Hm. apply conflicts_spec. left.
  destruct more as [|m more]; [done|]. unfold pointer_text. rewrite flat_map_app.
  cbn [flat_map app]. eexists. done.
Qed.

(** ** Witnesses *)

Definition sample_inputs : list (option bytes) :=
  [Some (bs " /user/name "); None; Some (bs "/items"); Some (bs "/user/name"); Some (bs "/a~1b")].

Lemma projection_parse_refines_witness :
  live (snd (lql_projection_parse_internal (fun k => negb (k =? 9)%nat) true (Some sample_inputs) 5 true
    (mk_mem 0 40))) = 40.
Proof.
  pose proof (projection_parse_refines (fun k => negb (k =? 9)%nat) sample_inputs (mk_mem 0 40)
    ltac:(discriminate)) as H.
  destruct (lql_projection_parse_internal _ _ _ _ _ _) as [r m'] eqn:E in H.
  vm_compute in E. injection E as <- <-. destruct H as [H _]. vm_compute in H. exact H.
Defined.

Lemma projection_spec_accepts_witness :
  compiled_paths (mk_projection [bs "/user/name"; bs "/items"; bs "/a~1b"]
      [[bs "user"; bs "name"]; [bs "items"]; [bs "a/b"]]) =
    map compile_path [bs "/user/name"; bs "/items"; bs "/a~1b"].
Proof.
  destruct (projection_spec_accepts sample_inputs) as [_ H].
  apply (H (mk_projection [bs "/user/name"; bs "/items"; bs "/a~1b"]
      [[bs "user"; bs "name"]; [bs "items"]; [bs "a/b"]])). by vm_compute.
Defined.

Lemma projection_pointer_roundtrip_witness :
  projection_conflicts (bs "/a~0") (bs "/a~0/b") = true.
Proof. apply (projection_pointer_roundtrip (bs "a~") [] [bs "b"]). discriminate. Defined.
