(* ===== verification/Selector.v ===== *)
(** * The selector tree (src/lql_internal.h) and its inspection (src/lql.c)

    The node structure of a parsed selector, the public cursor over it
    ([selector_root], [selector_node_*]) and the capability summary.  The binary
    value of a numeric range bound ([range_gt] and the like), which the code
    recomputes from the bound's text, is not a field of the model. *)

From S2P Require Import Prelude.
From S2P Require Import Temporal.
From S2P Require Import Errors.

Inductive lql_selector_kind :=
  | LQL_SELECTOR_KIND_ALL
  | LQL_SELECTOR_KIND_AND
  | LQL_SELECTOR_KIND_OR
  | LQL_SELECTOR_KIND_NOT
  | LQL_SELECTOR_KIND_EQ
  | LQL_SELECTOR_KIND_NE
  | LQL_SELECTOR_KIND_CONTAINS
  | LQL_SELECTOR_KIND_ICONTAINS
  | LQL_SELECTOR_KIND_PREFIX
  | LQL_SELECTOR_KIND_IPREFIX
  | LQL_SELECTOR_KIND_RANGE
  | LQL_SELECTOR_KIND_DATE
  | LQL_SELECTOR_KIND_IN
  | LQL_SELECTOR_KIND_EXISTS.

Inductive lql_selector_literal_kind :=
  | LQL_SELECTOR_LITERAL_STRING
  | LQL_SELECTOR_LITERAL_NUMBER
  | LQL_SELECTOR_LITERAL_BOOL
  | LQL_SELECTOR_LITERAL_NULL.

Inductive lql_since_macro :=
  | LQL_SINCE_NONE
  | LQL_SINCE_NOW
  | LQL_SINCE_TODAY
  | LQL_SINCE_YESTERDAY.

#[export] Instance lql_selector_kind_eq_dec : EqDecision lql_selector_kind.
Proof. solve_decision. Defined.
#[export] Instance literal_kind_eq_dec : EqDecision lql_selector_literal_kind.
Proof. solve_decision. Defined.
#[export] Instance since_macro_eq_dec : EqDecision lql_since_macro.
Proof. solve_decision. Defined.

(** The four bounds of a range: the C fields [..._gt], [..._gte], [..._lt] and
    [..._lte]. *)
Inductive bound_key := Gt | Gte | Lt | Lte.

Record bounds (A : Type) := mk_bounds { b_gt : A; b_gte : A; b_lt : A; b_lte : A }.
Arguments mk_bounds {A}.
Arguments b_gt {A}.
Arguments b_gte {A}.
Arguments b_lt {A}.
Arguments b_lte {A}.

Definition bound {A} (k : bound_key) (b : bounds A) : A :=
  match k with Gt => b_gt b | Gte => b_gte b | Lt => b_lt b | Lte => b_lte b end.

Definition set_bound {A} (k : bound_key) (v : A) (b : bounds A) : bounds A :=
  match k with
  | Gt => mk_bounds v (b_gte b) (b_lt b) (b_lte b)
  | Gte => mk_bounds (b_gt b) v (b_lt b) (b_lte b)
  | Lt => mk_bounds (b_gt b) (b_gte b) v (b_lte b)
  | Lte => mk_bounds (b_gt b) (b_gte b) (b_lt b) v
  end.

Definition all_bounds {A} (v : A) : bounds A := mk_bounds v v v v.

(** One value of [any], with its kind and origin. *)
Record any_value := mk_any {
  any_text : bytes;
  any_kind : lql_selector_literal_kind;
  any_from_json : bool
}.

(** [struct lql_selector]; a NULL text is [None], [has_temporal_gt] and
    [temporal_gt] are one option, and so on for the other bounds. *)
Inductive lql_selector := mk_selector {
  kind : lql_selector_kind;
  field : option bytes;
  value : option bytes;
  value_set : bool;
  value_is_string : bool;
  value_from_json : bool;
  value_kind : lql_selector_literal_kind;
  value_is_temporal : bool;
  ignore_case : bool;
  any : list any_value;
  range_text : bounds (option bytes);
  date_value_text : option bytes;
  date_since_text : option bytes;
  date_after_text : option bytes;
  date_before_text : option bytes;
  date_text : bounds (option bytes);
  temporal_eq : option lql_temporal;
  temporal : bounds (option lql_temporal);
  has_range : bounds bool;
  has_temporal_eq : bool;
  range_is_temporal : bool;
  since_macro : lql_since_macro;
  children : list lql_selector
}.

(** A zeroed selector with its kind set. *)
Definition selector_zero (k : lql_selector_kind) : lql_selector :=
  mk_selector k None None false false false LQL_SELECTOR_LITERAL_STRING false false []
    (all_bounds None) None None None None (all_bounds None) None (all_bounds None)
    (all_bounds false) false false LQL_SINCE_NONE [].

(** ** Assignments to fields *)

Section assign.
Context (s : lql_selector).

Definition with_kind k := mk_selector k (field s) (value s) (value_set s) (value_is_string s)
  (value_from_json s) (value_kind s) (value_is_temporal s) (ignore_case s) (any s) (range_text s)
  (date_value_text s) (date_since_text s) (date_after_text s) (date_before_text s) (date_text s)
  (temporal_eq s) (temporal s) (has_range s) (has_temporal_eq s) (range_is_temporal s)
  (since_macro s) (children s).
Definition with_field f := mk_selector (kind s) f (value s) (value_set s) (value_is_string s)
  (value_from_json s) (value_kind s) (value_is_temporal s) (ignore_case s) (any s) (range_text s)
  (date_value_text s) (date_since_text s) (date_after_text s) (date_before_text s) (date_text s)
  (temporal_eq s) (temporal s) (has_range s) (has_temporal_eq s) (range_is_temporal s)
  (since_macro s) (children s).
(** [value], [value_len], [value_set] and [value_kind] together. *)
Definition with_value v set k := mk_selector (kind s) (field s) v set (value_is_string s)
  (value_from_json s) k (value_is_temporal s) (ignore_case s) (any s) (range_text s)
  (date_value_text s) (date_since_text s) (date_after_text s) (date_before_text s) (date_text s)
  (temporal_eq s) (temporal s) (has_range s) (has_temporal_eq s) (range_is_temporal s)
  (since_macro s) (children s).
Definition with_value_is_string b := mk_selector (kind s) (field s) (value s) (value_set s) b
  (value_from_json s) (value_kind s) (value_is_temporal s) (ignore_case s) (any s) (range_text s)
  (date_value_text s) (date_since_text s) (date_after_text s) (date_before_text s) (date_text s)
  (temporal_eq s) (temporal s) (has_range s) (has_temporal_eq s) (range_is_temporal s)
  (since_macro s) (children s).
(** [value_is_temporal] and the [temporal_eq] it goes with. *)
Definition with_value_temporal b t := mk_selector (kind s) (field s) (value s) (value_set s)
  (value_is_string s) (value_from_json s) (value_kind s) b (ignore_case s) (any s) (range_text s)
  (date_value_text s) (date_since_text s) (date_after_text s) (date_before_text s) (date_text s)
  t (temporal s) (has_range s) (has_temporal_eq s) (range_is_temporal s)
  (since_macro s) (children s).
Definition with_ignore_case b := mk_selector (kind s) (field s) (value s) (value_set s)
  (value_is_string s) (value_from_json s) (value_kind s) (value_is_temporal s) b (any s)
  (range_text s) (date_value_text s) (date_since_text s) (date_after_text s) (date_before_text s)
  (date_text s) (temporal_eq s) (temporal s) (has_range s) (has_temporal_eq s)
  (range_is_temporal s) (since_macro s) (children s).
Definition with_any l := mk_selector (kind s) (field s) (value s) (value_set s)
  (value_is_string s) (value_from_json s) (value_kind s) (value_is_temporal s) (ignore_case s) l
  (range_text s) (date_value_text s) (date_since_text s) (date_after_text s) (date_before_text s)
  (date_text s) (temporal_eq s) (temporal s) (has_range s) (has_temporal_eq s)
  (range_is_temporal s) (since_macro s) (children s).
(** A range bound: its text, and either its instant or its number flag. *)
Definition with_range k text t num isT := mk_selector (kind s) (field s) (value s) (value_set s)
  (value_is_string s) (value_from_json s) (value_kind s) (value_is_temporal s) (ignore_case s)
  (any s) (set_bound k (Some text) (range_text s)) (date_value_text s) (date_since_text s)
  (date_after_text s) (date_before_text s) (date_text s) (temporal_eq s)
  (match t with Some t => set_bound k (Some t) (temporal s) | None => temporal s end)
  (if num : bool then set_bound k true (has_range s) else has_range s) (has_temporal_eq s)
  (if isT : bool then true else range_is_temporal s) (since_macro s) (children s).
Definition with_date_value text t := mk_selector (kind s) (field s) (value s) (value_set s)
  (value_is_string s) (value_from_json s) (value_kind s) (value_is_temporal s) (ignore_case s)
  (any s) (range_text s) (Some text) (date_since_text s) (date_after_text s) (date_before_text s)
  (date_text s) (Some t) (temporal s) (has_range s) true (range_is_temporal s) (since_macro s)
  (children s).
Definition with_since text m t := mk_selector (kind s) (field s) (value s) (value_set s)
  (value_is_string s) (value_from_json s) (value_kind s) (value_is_temporal s) (ignore_case s)
  (any s) (range_text s) (date_value_text s) (Some text) (date_after_text s) (date_before_text s)
  (date_text s) (temporal_eq s)
  (match t with Some t => set_bound Gte (Some t) (temporal s) | None => temporal s end)
  (has_range s) (has_temporal_eq s) (range_is_temporal s)
  (match m with Some m => m | None => since_macro s end) (children s).
Definition with_after text t := mk_selector (kind s) (field s) (value s) (value_set s)
  (value_is_string s) (value_from_json s) (value_kind s) (value_is_temporal s) (ignore_case s)
  (any s) (range_text s) (date_value_text s) (date_since_text s) (Some text) (date_before_text s)
  (date_text s) (temporal_eq s) (set_bound Gt (Some t) (temporal s)) (has_range s)
  (has_temporal_eq s) (range_is_temporal s) (since_macro s) (children s).
Definition with_before text t := mk_selector (kind s) (field s) (value s) (value_set s)
  (value_is_string s) (value_from_json s) (value_kind s) (value_is_temporal s) (ignore_case s)
  (any s) (range_text s) (date_value_text s) (date_since_text s) (date_after_text s) (Some text)
  (date_text s) (temporal_eq s) (set_bound Lt (Some t) (temporal s)) (has_range s)
  (has_temporal_eq s) (range_is_temporal s) (since_macro s) (children s).
Definition with_date k text t := mk_selector (kind s) (field s) (value s) (value_set s)
  (value_is_string s) (value_from_json s) (value_kind s) (value_is_temporal s) (ignore_case s)
  (any s) (range_text s) (date_value_text s) (date_since_text s) (date_after_text s)
  (date_before_text s) (set_bound k (Some text) (date_text s)) (temporal_eq s)
  (set_bound k (Some t) (temporal s)) (has_range s) (has_temporal_eq s) (range_is_temporal s)
  (since_macro s) (children s).
Definition with_value_from_json b := mk_selector (kind s) (field s) (value s) (value_set s)
  (value_is_string s) b (value_kind s) (value_is_temporal s) (ignore_case s) (any s) (range_text s)
  (date_value_text s) (date_since_text s) (date_after_text s) (date_before_text s) (date_text s)
  (temporal_eq s) (temporal s) (has_range s) (has_temporal_eq s) (range_is_temporal s)
  (since_macro s) (children s).
Definition with_children l := mk_selector (kind s) (field s) (value s) (value_set s)
  (value_is_string s) (value_from_json s) (value_kind s) (value_is_temporal s) (ignore_case s)
  (any s) (range_text s) (date_value_text s) (date_since_text s) (date_after_text s)
  (date_before_text s) (date_text s) (temporal_eq s) (temporal s) (has_range s)
  (has_temporal_eq s) (range_is_temporal s) (since_macro s) l.
End assign.

(** The nested induction principle: a property of a node may be proved from the
    property of its children. *)
Section induction.
Context (P : lql_selector -> Prop).
Hypothesis step : forall s, Forall P (children s) -> P s.

Fixpoint selector_ind' (s : lql_selector) : P s :=
  step s
    ((fix go (l : list lql_selector) : Forall P l :=
        match l with
        | [] => Forall_nil P
        | c :: l => @Forall_cons _ P c l (selector_ind' c) (go l)
        end) (children s)).
End induction.
