(* ===== verification/Cursor.v ===== *)
(** * Selector inspection: the public cursor and the capability summary
      (src/lql.c)

    A cursor is a node kind and a pointer into the tree; a NE node shows as a
    NOT node whose child is the same node seen as EQ.  A string view is an
    optional byte string ([None] for a NULL [data]); [out_given] is
    [out != NULL]. *)

From S2P Require Import Prelude.
From S2P Require Import Errors.
From S2P Require Import Selector.

Inductive lql_selector_node_kind :=
  | LQL_SELECTOR_NODE_ALL
  | LQL_SELECTOR_NODE_AND
  | LQL_SELECTOR_NODE_OR
  | LQL_SELECTOR_NODE_NOT
  | LQL_SELECTOR_NODE_EQ
  | LQL_SELECTOR_NODE_CONTAINS
  | LQL_SELECTOR_NODE_ICONTAINS
  | LQL_SELECTOR_NODE_PREFIX
  | LQL_SELECTOR_NODE_IPREFIX
  | LQL_SELECTOR_NODE_RANGE
  | LQL_SELECTOR_NODE_DATE
  | LQL_SELECTOR_NODE_IN
  | LQL_SELECTOR_NODE_EXISTS.

#[export] Instance node_kind_eq_dec : EqDecision lql_selector_node_kind.
Proof. solve_decision. Defined.

Record lql_selector_node := mk_node { node_kind : lql_selector_node_kind; impl : option lql_selector }.

Definition selector_is_empty_method (selector : option lql_selector) : bool :=
  match selector with
  | None => true
  | Some s => bool_decide (kind s = LQL_SELECTOR_KIND_ALL)
  end.

Definition selector_cursor_kind (kind : lql_selector_kind) : lql_selector_node_kind :=
  match kind with
  | LQL_SELECTOR_KIND_ALL => LQL_SELECTOR_NODE_ALL
  | LQL_SELECTOR_KIND_AND => LQL_SELECTOR_NODE_AND
  | LQL_SELECTOR_KIND_OR => LQL_SELECTOR_NODE_OR
  | LQL_SELECTOR_KIND_NOT => LQL_SELECTOR_NODE_NOT
  | LQL_SELECTOR_KIND_EQ => LQL_SELECTOR_NODE_EQ
  | LQL_SELECTOR_KIND_NE => LQL_SELECTOR_NODE_NOT
  | LQL_SELECTOR_KIND_CONTAINS => LQL_SELECTOR_NODE_CONTAINS
  | LQL_SELECTOR_KIND_ICONTAINS => LQL_SELECTOR_NODE_ICONTAINS
  | LQL_SELECTOR_KIND_PREFIX => LQL_SELECTOR_NODE_PREFIX
  | LQL_SELECTOR_KIND_IPREFIX => LQL_SELECTOR_NODE_IPREFIX
  | LQL_SELECTOR_KIND_RANGE => LQL_SELECTOR_NODE_RANGE
  | LQL_SELECTOR_KIND_DATE => LQL_SELECTOR_NODE_DATE
  | LQL_SELECTOR_KIND_IN => LQL_SELECTOR_NODE_IN
  | LQL_SELECTOR_KIND_EXISTS => LQL_SELECTOR_NODE_EXISTS
  end.

Definition selector_cursor_from_selector (selector : option lql_selector) : lql_selector_node :=
  match selector with
  | None => mk_node LQL_SELECTOR_NODE_ALL None
  | Some s => mk_node (selector_cursor_kind (kind s)) (Some s)
  end.

(** [strlen]: a C string ends at its first NUL. *)
Definition cstr (text : bytes) : bytes := fst (span (fun c => negb (c =? 0)) text).

Definition lql_view_cstr (text : option bytes) : option bytes := cstr <$> text.

Definition cursor_is_string_predicate (kind : lql_selector_node_kind) : bool :=
  bool_decide (kind = LQL_SELECTOR_NODE_EQ) || bool_decide (kind = LQL_SELECTOR_NODE_CONTAINS) ||
  bool_decide (kind = LQL_SELECTOR_NODE_ICONTAINS) || bool_decide (kind = LQL_SELECTOR_NODE_PREFIX) ||
  bool_decide (kind = LQL_SELECTOR_NODE_IPREFIX).

(** [node.kind] is AND, OR or NOT. *)
Definition cursor_is_compound (kind : lql_selector_node_kind) : bool :=
  bool_decide (kind = LQL_SELECTOR_NODE_AND) || bool_decide (kind = LQL_SELECTOR_NODE_OR) ||
  bool_decide (kind = LQL_SELECTOR_NODE_NOT).

Definition invalid {A} (msg : string) : failure + A := inl (LQL_STATUS_INVALID_ARGUMENT, msg).

Definition selector_root_method (selector : option lql_selector) (out_given : bool)
    : failure + lql_selector_node :=
  if negb out_given then invalid "out selector node required"
  else inr (selector_cursor_from_selector selector).

Definition selector_node_child_count_method (node : lql_selector_node) (out_given : bool)
    : failure + nat :=
  if negb out_given then invalid "out child count required"
  else
    match impl node with
    | None => inr 0%nat
    | Some internal =>
        if negb (cursor_is_compound (node_kind node)) then inr 0%nat
        else if bool_decide (kind internal = LQL_SELECTOR_KIND_NE) then inr 1%nat
        else inr (length (children internal))
    end.

Definition selector_node_child_method (node : lql_selector_node) (index : nat) (out_given : bool)
    : failure + lql_selector_node :=
  if negb out_given then invalid "out selector node required"
  else
    match impl node with
    | None => invalid "selector node has no children"
    | Some internal =>
        if negb (cursor_is_compound (node_kind node)) then invalid "selector node has no children"
        else if bool_decide (kind internal = LQL_SELECTOR_KIND_NE) then
          if negb (index =? 0)%nat then invalid "selector child index out of range"
          else inr (mk_node LQL_SELECTOR_NODE_EQ (Some internal))
        else
          match children internal !! index with
          | None => invalid "selector child index out of range"
          | Some child => inr (selector_cursor_from_selector (Some child))
          end
    end.

(** ** Terms *)

Record lql_selector_string_term := mk_string_term {
  st_field : option bytes;
  st_value_present : bool;
  st_value : option bytes;
  st_ignore_case : bool;
  st_any_count : nat
}.

(** [value_set || (value != NULL && value_len != 0)] *)
Definition value_present (s : lql_selector) : bool :=
  value_set s || match value s with Some (_ :: _) => true | _ => false end.

Definition selector_node_string_term_method (node : lql_selector_node) (out_given : bool)
    : failure + lql_selector_string_term :=
  if negb out_given then invalid "out selector string term required"
  else
    match impl node with
    | None => invalid "selector node is not a string term"
    | Some internal =>
        if negb (cursor_is_string_predicate (node_kind node)) then
          invalid "selector node is not a string term"
        else
          inr (mk_string_term (lql_view_cstr (field internal)) (value_present internal)
                 (value internal) (ignore_case internal) (length (any internal)))
    end.

(** The accessor of one [any] value, for the kinds that [is_term] accepts. *)
Definition node_any (is_term : lql_selector_node_kind -> bool) (not_term : string)
    (node : lql_selector_node) (index : nat) (out_given : bool) : failure + bytes :=
  if negb out_given then invalid "out selector any value required"
  else
    match impl node with
    | None => invalid not_term
    | Some internal =>
        if negb (is_term (node_kind node)) then invalid not_term
        else
          match any internal !! index with
          | None => invalid "selector any index out of range"
          | Some v => inr (any_text v)
          end
    end.

Definition selector_node_string_term_any_method :=
  node_any cursor_is_string_predicate "selector node is not a string term".

Inductive lql_selector_range_bound :=
  | LQL_SELECTOR_BOUND_ABSENT
  | LQL_SELECTOR_BOUND_NUMBER (number_text : option bytes)
  | LQL_SELECTOR_BOUND_DATETIME (datetime : option bytes).

(** The bound of one key as the inspection and the writer read it. *)
Definition range_bound (s : lql_selector) (k : bound_key) : lql_selector_range_bound :=
  if bool_decide (is_Some (bound k (temporal s))) then
    LQL_SELECTOR_BOUND_DATETIME (lql_view_cstr (bound k (range_text s)))
  else if bound k (has_range s) then
    LQL_SELECTOR_BOUND_NUMBER (lql_view_cstr (bound k (range_text s)))
  else LQL_SELECTOR_BOUND_ABSENT.

Record lql_selector_range_term := mk_range_term {
  rt_field : option bytes;
  rt_bounds : bounds lql_selector_range_bound
}.

Definition selector_node_range_term_method (node : lql_selector_node) (out_given : bool)
    : failure + lql_selector_range_term :=
  if negb out_given then invalid "out selector range term required"
  else
    match impl node with
    | None => invalid "selector node is not a range term"
    | Some internal =>
        if negb (bool_decide (node_kind node = LQL_SELECTOR_NODE_RANGE)) then
          invalid "selector node is not a range term"
        else
          inr (mk_range_term (lql_view_cstr (field internal))
                 (mk_bounds (range_bound internal Gt) (range_bound internal Gte)
                    (range_bound internal Lt) (range_bound internal Lte)))
    end.

Inductive lql_selector_since_kind :=
  | LQL_SELECTOR_SINCE_NONE
  | LQL_SELECTOR_SINCE_NOW
  | LQL_SELECTOR_SINCE_TODAY
  | LQL_SELECTOR_SINCE_YESTERDAY
  | LQL_SELECTOR_SINCE_LITERAL.

Definition public_since_kind (selector : option lql_selector) : lql_selector_since_kind :=
  match selector with
  | None => LQL_SELECTOR_SINCE_NONE
  | Some s =>
      match date_since_text s with
      | None => LQL_SELECTOR_SINCE_NONE
      | Some _ =>
          match since_macro s with
          | LQL_SINCE_NOW => LQL_SELECTOR_SINCE_NOW
          | LQL_SINCE_TODAY => LQL_SELECTOR_SINCE_TODAY
          | LQL_SINCE_YESTERDAY => LQL_SELECTOR_SINCE_YESTERDAY
          | LQL_SINCE_NONE => LQL_SELECTOR_SINCE_LITERAL
          end
      end
  end.

Record lql_selector_date_term := mk_date_term {
  dt_field : option bytes;
  dt_value : option bytes;
  dt_since : option bytes;
  dt_since_kind : lql_selector_since_kind;
  dt_after : option bytes;
  dt_before : option bytes;
  dt_bounds : bounds (option bytes)
}.

Definition selector_node_date_term_method (node : lql_selector_node) (out_given : bool)
    : failure + lql_selector_date_term :=
  if negb out_given then invalid "out selector date term required"
  else
    match impl node with
    | None => invalid "selector node is not a date term"
    | Some internal =>
        if negb (bool_decide (node_kind node = LQL_SELECTOR_NODE_DATE)) then
          invalid "selector node is not a date term"
        else
          inr (mk_date_term (lql_view_cstr (field internal)) (lql_view_cstr (date_value_text internal))
                 (lql_view_cstr (date_since_text internal)) (public_since_kind (Some internal))
                 (lql_view_cstr (date_after_text internal)) (lql_view_cstr (date_before_text internal))
                 (mk_bounds (lql_view_cstr (b_gt (date_text internal)))
                    (lql_view_cstr (b_gte (date_text internal)))
                    (lql_view_cstr (b_lt (date_text internal)))
                    (lql_view_cstr (b_lte (date_text internal)))))
    end.

Definition is_in_node (kind : lql_selector_node_kind) : bool :=
  bool_decide (kind = LQL_SELECTOR_NODE_IN).

Definition selector_node_in_term_method (node : lql_selector_node) (out_given : bool)
    : failure + (option bytes * nat) :=
  if negb out_given then invalid "out selector in term required"
  else
    match impl node with
    | None => invalid "selector node is not an in term"
    | Some internal =>
        if negb (is_in_node (node_kind node)) then invalid "selector node is not an in term"
        else inr (lql_view_cstr (field internal), length (any internal))
    end.

Definition selector_node_in_term_any_method :=
  node_any is_in_node "selector node is not an in term".

Definition selector_node_exists_path_method (node : lql_selector_node) (out_given : bool)
    : failure + option bytes :=
  if negb out_given then invalid "out selector exists path required"
  else
    match impl node with
    | None => invalid "selector node is not an exists term"
    | Some internal =>
        if negb (bool_decide (node_kind node = LQL_SELECTOR_NODE_EXISTS)) then
          invalid "selector node is not an exists term"
        else inr (lql_view_cstr (field internal))
    end.

(** ** Capabilities *)

Record lql_selector_capabilities := mk_capabilities {
  and_ : bool; or_ : bool; not_ : bool; eq_ : bool; range_ : bool; date_ : bool; in_ : bool;
  prefix_ : bool; contains_ : bool; exists_ : bool; wildcard_path : bool; recursive_path : bool
}.

Definition no_capabilities : lql_selector_capabilities :=
  mk_capabilities false false false false false false false false false false false false.

Definition set_path_flags (w r : bool) (c : lql_selector_capabilities) : lql_selector_capabilities :=
  mk_capabilities (and_ c) (or_ c) (not_ c) (eq_ c) (range_ c) (date_ c) (in_ c) (prefix_ c)
    (contains_ c) (exists_ c) (wildcard_path c || w) (recursive_path c || r).

Definition set_kind_flag (k : lql_selector_kind) (c : lql_selector_capabilities)
    : lql_selector_capabilities :=
  let '(mk_capabilities a o n e r d i p ct x w rc) := c in
  match k with
  | LQL_SELECTOR_KIND_ALL => c
  | LQL_SELECTOR_KIND_AND => mk_capabilities true o n e r d i p ct x w rc
  | LQL_SELECTOR_KIND_OR => mk_capabilities a true n e r d i p ct x w rc
  | LQL_SELECTOR_KIND_NOT => mk_capabilities a o true e r d i p ct x w rc
  | LQL_SELECTOR_KIND_EQ => mk_capabilities a o n true r d i p ct x w rc
  | LQL_SELECTOR_KIND_NE => mk_capabilities a o true true r d i p ct x w rc
  | LQL_SELECTOR_KIND_CONTAINS => mk_capabilities a o n e r d i p true x w rc
  | LQL_SELECTOR_KIND_ICONTAINS => mk_capabilities a o n e r d i p true x w rc
  | LQL_SELECTOR_KIND_PREFIX => mk_capabilities a o n e r d i true ct x w rc
  | LQL_SELECTOR_KIND_IPREFIX => mk_capabilities a o n e r d i true ct x w rc
  | LQL_SELECTOR_KIND_RANGE => mk_capabilities a o n e true d i p ct x w rc
  | LQL_SELECTOR_KIND_DATE => mk_capabilities a o n e r true i p ct x w rc
  | LQL_SELECTOR_KIND_IN => mk_capabilities a o n e r d true p ct x w rc
  | LQL_SELECTOR_KIND_EXISTS => mk_capabilities a o n e r d i p ct true w rc
  end.

Definition segment_is_wildcard (seg : bytes) : bool :=
  bytes_eqb seg (bs "*") || bytes_eqb seg (bs "[]") || bytes_eqb seg (bs "**") ||
  bytes_eqb seg (bs "...").

Definition segment_is_recursive (seg : bytes) : bool :=
  bytes_eqb seg (bs "**") || bytes_eqb seg (bs "...").

(** The loop over the segments from [segment] on; a round ends at a slash or at
    the end, so the length of the text bounds the rounds. *)
Fixpoint path_segments_visit (fuel : nat) (segment : bytes) (out : lql_selector_capabilities)
    : lql_selector_capabilities :=
  match segment with
  | [] => out
  | _ =>
      let '(seg, slash) := span (fun c => negb (c =? ch_slash)) segment in
      let out := set_path_flags (segment_is_wildcard seg) (segment_is_recursive seg) out in
      match slash, fuel with
      | _ :: segment, S fuel => path_segments_visit fuel segment out
      | _, _ => out
      end
  end.

Definition selector_path_capabilities_visit (out : lql_selector_capabilities) (path : option bytes)
    : lql_selector_capabilities :=
  match path with
  | Some (c :: p) => if c =? ch_slash then path_segments_visit (length p) p out else out
  | _ => out
  end.

Fixpoint selector_capabilities_visit (out : lql_selector_capabilities) (selector : lql_selector)
    : lql_selector_capabilities :=
  let out := selector_path_capabilities_visit out (field selector) in
  let out := set_kind_flag (kind selector) out in
  fold_left selector_capabilities_visit (children selector) out.

Definition selector_capabilities_get_method (selector : option lql_selector)
    : lql_selector_capabilities :=
  match selector with
  | None => no_capabilities
  | Some s =>
      if bool_decide (kind s = LQL_SELECTOR_KIND_ALL) then no_capabilities
      else selector_capabilities_visit no_capabilities s
  end.
