(* ===== verification/CursorProps.v ===== *)
(** * The capability summary against cursor traversal *)

From S2P Require Import Prelude.
From S2P Require Import Errors.
From S2P Require Import Selector.
From S2P Require Import Cursor.

(** ** The shape of a selector tree *)

(** Only AND, OR and NOT nodes have children; an ALL node has no path. *)
Definition node_shape (s : lql_selector) : Prop :=
  match kind s with
  | LQL_SELECTOR_KIND_ALL => children s = [] /\ field s = None
  | LQL_SELECTOR_KIND_AND | LQL_SELECTOR_KIND_OR | LQL_SELECTOR_KIND_NOT => True
  | _ => children s = []
  end.

Inductive tree_shape : lql_selector -> Prop :=
  | tree_shape_node s : node_shape s -> Forall tree_shape (children s) -> tree_shape s.

(** ** Capability flags, one by one *)

Inductive cap :=
  | CapAnd | CapOr | CapNot | CapEq | CapRange | CapDate | CapIn | CapPrefix | CapContains | CapExists
  | CapWildcard | CapRecursive.

#[export] Instance cap_eq_dec : EqDecision cap.
Proof. solve_decision. Defined.

Definition get_cap (c : cap) (x : lql_selector_capabilities) : bool :=
  match c with
  | CapAnd => and_ x | CapOr => or_ x | CapNot => not_ x | CapEq => eq_ x | CapRange => range_ x
  | CapDate => date_ x | CapIn => in_ x | CapPrefix => prefix_ x | CapContains => contains_ x
  | CapExists => exists_ x | CapWildcard => wildcard_path x | CapRecursive => recursive_path x
  end.

(** What one node contributes to a flag. *)
Definition kind_has (c : cap) (k : lql_selector_kind) : bool := get_cap c (set_kind_flag k no_capabilities).

Definition path_has (c : cap) (path : option bytes) : bool :=
  match path with
  | Some (d :: p) =>
      (d =? ch_slash) &&
      match c with
      | CapWildcard => existsb segment_is_wildcard (split_slash p)
      | CapRecursive => existsb segment_is_recursive (split_slash p)
      | _ => false
      end
  | _ => false
  end.

Lemma set_kind_flag_get c k x : get_cap c (set_kind_flag k x) = get_cap c x || kind_has c k.
Proof. destruct x, k, c; cbn; by rewrite ?orb_true_r, ?orb_false_r. Qed.

Lemma set_path_flags_get c w r x :
  get_cap c (set_path_flags w r x) =
  get_cap c x || match c with CapWildcard => w | CapRecursive => r | _ => false end.
Proof. destruct x, c; cbn; by rewrite ?orb_false_r. Qed.

Lemma path_segments_get c fuel p x :
  (length p <= fuel)%nat ->
  get_cap c (path_segments_visit fuel p x) =
  get_cap c x || match c with
    | CapWildcard => existsb segment_is_wildcard (split_slash p)
    | CapRecursive => existsb segment_is_recursive (split_slash p)
    | _ => false
    end.
Proof.
  revert p x. induction fuel as [|fuel IH]; intros [|d p] x Hf; cbn [path_segments_visit];
    try (cbn in Hf; lia); try (by destruct c; cbn; rewrite orb_false_r).
  pose proof (split_slash_span (d :: p)) as Hs.
  destruct (span _ (d :: p)) as [seg slash] eqn:E. rewrite Hs. apply span_app in E.
  destruct slash as [|e rest].
  - rewrite set_path_flags_get. destruct c; cbn [existsb]; by rewrite ?orb_false_r.
  - rewrite IH, set_path_flags_get.
    + destruct c; cbn [existsb]; by rewrite ?orb_false_r, ?orb_assoc.
    + apply (f_equal length) in E. rewrite length_app in E. cbn [length] in *. lia.
Qed.

Lemma path_visit_get c path x :
  get_cap c (selector_path_capabilities_visit x path) = get_cap c x || path_has c path.
Proof.
  destruct path as [[|d p]|]; cbn [selector_path_capabilities_visit path_has]; try by rewrite orb_false_r.
  destruct (d =? ch_slash); cbn [andb]; [|by rewrite orb_false_r]. by apply path_segments_get.
Qed.

(** ** The visit is a disjunction over the tree *)

Fixpoint tree_any (p : lql_selector -> bool) (s : lql_selector) : bool :=
  p s || existsb (tree_any p) (children s).

Lemma visit_unfold x s :
  selector_capabilities_visit x s =
  fold_left selector_capabilities_visit (children s)
    (set_kind_flag (kind s) (selector_path_capabilities_visit x (field s))).
Proof. by destruct s. Qed.

Lemma tree_any_unfold p s : tree_any p s = p s || existsb (tree_any p) (children s).
Proof. by destruct s. Qed.

Lemma visit_get c s x :
  get_cap c (selector_capabilities_visit x s) =
  get_cap c x || tree_any (fun t => path_has c (field t) || kind_has c (kind t)) s.
Proof.
  revert x. induction s as [s IH] using selector_ind'. intros x.
  assert (forall x, get_cap c (fold_left selector_capabilities_visit (children s) x) =
    get_cap c x || existsb (tree_any (fun t => path_has c (field t) || kind_has c (kind t))) (children s)) as Hf.
  { induction IH as [|t l Ht _ IHl]; intros y; cbn [fold_left existsb]; [by rewrite orb_false_r|].
    by rewrite IHl, Ht, orb_assoc. }
  rewrite visit_unfold, tree_any_unfold.
  rewrite Hf, set_kind_flag_get, path_visit_get. by rewrite !orb_assoc.
Qed.

(** [t] is a subtree of [s]. *)
Inductive subtree (s : lql_selector) : lql_selector -> Prop :=
  | subtree_here : subtree s s
  | subtree_child t u : subtree s t -> In u (children t) -> subtree s u.

Lemma subtree_trans s t u : subtree s t -> subtree t u -> subtree s u.
Proof. intros H1 H2. revert H1. induction H2; eauto using subtree. Qed.

Lemma tree_any_subtree p s : tree_any p s = true <-> exists t, subtree s t /\ p t = true.
Proof.
  induction s as [s IH] using selector_ind'. rewrite List.Forall_forall in IH.
  rewrite tree_any_unfold, orb_true_iff, existsb_exists. split.
  - intros [H|(u & Hu & H)]; [eauto using subtree|]. apply (IH u Hu) in H as (t & Ht & Hp).
    exists t. split; [|done]. apply (subtree_trans s u); [|done]. eauto using subtree.
  - intros (t & Ht & Hp). enough (t = s \/ exists u, In u (children s) /\ subtree u t) as [->|(u & Hu & H)].
    + by left.
    + right. exists u. split; [done|]. apply (IH u Hu). eauto.
    + clear Hp. induction Ht as [|t u Ht [->|(v & Hv & H)] Hu]; [by left| |]; right; eauto using subtree.
Qed.

Lemma tree_shape_subtree s t : tree_shape s -> subtree s t -> tree_shape t.
Proof.
  intros Hs. induction 1 as [|t u _ IH Hu]; [done|]. inversion IH as [? _ HF]; subst.
  rewrite List.Forall_forall in HF. by apply HF.
Qed.

(** ** Traversal *)

(** The cursors a client reaches from the root with the child accessor. *)
Inductive visited (s : lql_selector) : lql_selector_node -> Prop :=
  | visited_root n : selector_root_method (Some s) true = inr n -> visited s n
  | visited_child n i n' :
      visited s n -> selector_node_child_method n i true = inr n' -> visited s n'.

(** What a client sees of a flag at a node. *)
Definition shows (c : cap) (n : lql_selector_node) : Prop :=
  let k := node_kind n in
  match c with
  | CapAnd => k = LQL_SELECTOR_NODE_AND
  | CapOr => k = LQL_SELECTOR_NODE_OR
  | CapNot => k = LQL_SELECTOR_NODE_NOT
  | CapEq => k = LQL_SELECTOR_NODE_EQ
  | CapRange => k = LQL_SELECTOR_NODE_RANGE
  | CapDate => k = LQL_SELECTOR_NODE_DATE
  | CapIn => k = LQL_SELECTOR_NODE_IN
  | CapPrefix => k = LQL_SELECTOR_NODE_PREFIX \/ k = LQL_SELECTOR_NODE_IPREFIX
  | CapContains => k = LQL_SELECTOR_NODE_CONTAINS \/ k = LQL_SELECTOR_NODE_ICONTAINS
  | CapExists => k = LQL_SELECTOR_NODE_EXISTS
  | CapWildcard | CapRecursive => exists t, impl n = Some t /\ path_has c (field t) = true
  end.

(** The cursors over a tree: each subtree's own, and the EQ side of a NE. *)
Lemma visited_subtree s n :
  visited s n -> exists t, subtree s t /\ impl n = Some t /\
    (node_kind n = selector_cursor_kind (kind t) \/
     (kind t = LQL_SELECTOR_KIND_NE /\ node_kind n = LQL_SELECTOR_NODE_EQ)).
Proof.
  induction 1 as [n H|n i n' _ (t & Ht & Hi & Hk) H].
  - injection H as <-. exists s. split_and!; [constructor|done|by left].
  - unfold selector_node_child_method in H. cbn [negb] in H. rewrite Hi in H.
    destruct (cursor_is_compound (node_kind n)); [|done]. cbn [negb] in H. case_bool_decide as En.
    + destruct (i =? 0)%nat; [|done]. injection H as <-. exists t. split_and!; [done|done|by right].
    + destruct (children t !! i) as [u|] eqn:Eu; [|done]. injection H as <-.
      exists u. split_and!; [|done|by left]. eapply subtree_child; [done|].
      apply list_elem_of_In. by eapply list_elem_of_lookup_2.
Qed.

Lemma subtree_visited s t :
  tree_shape s -> subtree s t -> visited s (selector_cursor_from_selector (Some t)).
Proof.
  intros Hs. induction 1 as [|t u Ht IH Hu]; [by constructor|].
  assert (tree_shape t) as Hsh by (by eapply tree_shape_subtree).
  apply list_elem_of_In in Hu as Hu'. apply list_elem_of_lookup_1 in Hu' as [i Hi].
  apply (visited_child s (selector_cursor_from_selector (Some t)) i); [done|].
  inversion Hsh as [? Hn _]; subst. unfold node_shape in Hn.
  unfold selector_node_child_method. cbn [negb selector_cursor_from_selector impl node_kind].
  assert (children t <> []) as Hne by (intros E; by rewrite E in Hu).
  destruct (kind t) eqn:Ek; try tauto; cbn; rewrite Hi; done.
Qed.

(** C29. The capability summary reports exactly what a traversal finds: a flag is
    set if and only if some cursor reachable from the root with the child accessor
    shows that node kind, or a path with such a segment. *)
Theorem capabilities_match_traversal s c :
  tree_shape s ->
  (get_cap c (selector_capabilities_get_method (Some s)) = true <->
   exists n, visited s n /\ shows c n).
Proof.
  intros Hs. assert (get_cap c (selector_capabilities_get_method (Some s)) =
    tree_any (fun t => path_has c (field t) || kind_has c (kind t)) s) as ->.
  { unfold selector_capabilities_get_method. case_bool_decide as Ek; [|by rewrite visit_get; destruct c].
    inversion Hs as [? Hn _]; subst. unfold node_shape in Hn. rewrite Ek in Hn. destruct Hn as [Hc Hf].
    destruct s; cbn in *; subst. by destruct c. }
  rewrite tree_any_subtree. split.
  - intros (t & Ht & H). pose proof (subtree_visited s t Hs Ht) as Hv.
    apply orb_true_iff in H as [H|H].
    + exists (selector_cursor_from_selector (Some t)). split; [done|].
      destruct c; cbn [shows impl selector_cursor_from_selector]; eauto;
        destruct (field t) as [[|d p]|]; cbn in H; try done; by rewrite andb_false_r in H.
    + destruct (decide (c = CapEq /\ kind t = LQL_SELECTOR_KIND_NE)) as [[-> Ek]|Hne].
      * exists (mk_node LQL_SELECTOR_NODE_EQ (Some t)). split; [|done].
        apply (visited_child s (selector_cursor_from_selector (Some t)) 0); [done|].
        unfold selector_node_child_method. cbn [negb selector_cursor_from_selector impl node_kind].
        by rewrite Ek.
      * exists (selector_cursor_from_selector (Some t)). split; [done|].
        destruct c, (kind t) eqn:Ek; cbn in H |- *; rewrite ?Ek; try done; auto; exfalso; auto.
  - intros (n & Hv & Hsh). apply visited_subtree in Hv as (t & Ht & Hi & Hk).
    exists t. split; [done|]. apply orb_true_iff.
    destruct c; cbn [shows] in Hsh.
    11, 12: left; destruct Hsh as (t' & Ht' & Hp); congruence.
    all: right; destruct Hk as [Hk|[Hne Hk]]; [rewrite Hk in Hsh|rewrite Hk, ?Hne in *];
      try (destruct (kind t); (done || by destruct Hsh)); try done; by destruct Hsh.
Qed.

(** ** Witness *)

(** [/a/*!=x,or.exists{/b}] *)
Definition sample_tree : lql_selector :=
  with_children (selector_zero LQL_SELECTOR_KIND_AND)
    [with_field (selector_zero LQL_SELECTOR_KIND_NE) (Some (bs "/a/*"));
     with_field (selector_zero LQL_SELECTOR_KIND_EXISTS) (Some (bs "/b"))].

Lemma capabilities_match_traversal_witness :
  exists n, visited sample_tree n /\ shows CapEq n.
Proof.
  apply (capabilities_match_traversal sample_tree CapEq); [|by vm_compute].
  repeat constructor.
Defined.
