(* ===== verification/SelectorLex.v ===== *)
(** * Selector text: splitting, quoting and path normalisation
      (src/lql_selector.c)

    The lexical helpers of the selector parser.  A character pointer is the rest
    of the text it points at; a token under construction is kept reversed.
    Allocations are assumed to succeed. *)

From S2P Require Import Prelude.
From S2P Require Import Errors.

Definition ascii_lower_byte (c : Z) : Z :=
  if (ch_A <=? c) && (c <=? ch_Z) then c + (ch_a - ch_A) else c.

(** [trim_dup] *)
Definition trim (src : bytes) : bytes :=
  rev (drop_while isspace (rev (drop_while isspace src))).

Definition parse_error {A} (msg : string) : failure + A := inl (LQL_STATUS_PARSE_ERROR, msg).

(** Trim the token [start..p) and push it unless it is empty. *)
Definition push_token (cur : bytes) (acc : list bytes) : list bytes :=
  let item := trim (rev cur) in
  match item with [] => acc | _ => acc ++ [item] end.

Definition is_quote (c : Z) : bool := (c =? ch_quote) || (c =? ch_apos).

(** The loop of [split_top] from [p] on: the token so far, the brace depth, the
    open quote and the tokens found. *)
Fixpoint split_top_loop (p cur : bytes) (depth : nat) (quote : option Z) (acc : list bytes)
    : failure + list bytes :=
  match p with
  | [] =>
      if bool_decide (quote <> None) || negb (depth =? 0)%nat then
        parse_error "unterminated selector expression"
      else inr (push_token cur acc)
  | c :: rest =>
      match quote with
      | Some q =>
          if c =? ch_backslash then
            match rest with
            | d :: rest' => split_top_loop rest' (d :: c :: cur) depth quote acc
            | [] => split_top_loop rest (c :: cur) depth (if c =? q then None else quote) acc
            end
          else split_top_loop rest (c :: cur) depth (if c =? q then None else quote) acc
      | None =>
          if is_quote c then split_top_loop rest (c :: cur) depth (Some c) acc
          else if c =? ch_lbrace then split_top_loop rest (c :: cur) (S depth) None acc
          else if c =? ch_rbrace then
            match depth with
            | O => parse_error "unexpected selector }"
            | S depth => split_top_loop rest (c :: cur) depth None acc
            end
          else if ((c =? ch_comma) || (c =? ch_nl)) && (depth =? 0)%nat then
            split_top_loop rest [] depth None (push_token cur acc)
          else split_top_loop rest (c :: cur) depth None acc
      end
  end.

Definition split_top (expr : bytes) : failure + list bytes := split_top_loop expr [] 0 None [].

Definition is_alpha (c : Z) : bool :=
  ((ch_A <=? c) && (c <=? ch_Z)) || ((ch_a <=? c) && (c <=? ch_z)).

(** A separator of assignments at [p]: a comma, a newline, or white space before
    an identifier and an equals sign. *)
Definition selector_assignment_separator (p : bytes) : bool :=
  match p with
  | [] => false
  | c :: _ =>
      if (c =? ch_comma) || (c =? ch_nl) then true
      else if negb (isspace c) then false
      else
        match drop_while isspace p with
        | [] => false
        | k :: q =>
            if negb (is_alpha k || (k =? ch_underscore)) then false
            else
              let q := drop_while (fun c => is_alpha c || is_digit c || (c =? ch_underscore) ||
                                            (c =? ch_dot)) q in
              at_ (drop_while isspace q) 0 =? ch_eq
        end
  end.

(** The loop of [split_assignments]; [skip] is its inner loop over the commas
    and white space after a separator. *)
Fixpoint split_assignments_loop (p cur : bytes) (depth : nat) (quote : option Z) (skip : bool)
    (acc : list bytes) : failure + list bytes :=
  match p with
  | [] =>
      if bool_decide (quote <> None) || negb (depth =? 0)%nat then
        parse_error "unterminated selector expression"
      else inr (push_token cur acc)
  | c :: rest =>
      if skip && ((c =? ch_comma) || isspace c) then
        split_assignments_loop rest cur depth quote true acc
      else
        match quote with
        | Some q =>
            if c =? ch_backslash then
              match rest with
              | d :: rest' => split_assignments_loop rest' (d :: c :: cur) depth quote false acc
              | [] => split_assignments_loop rest (c :: cur) depth (if c =? q then None else quote) false acc
              end
            else split_assignments_loop rest (c :: cur) depth (if c =? q then None else quote) false acc
        | None =>
            if is_quote c then split_assignments_loop rest (c :: cur) depth (Some c) false acc
            else if c =? ch_lbrace then split_assignments_loop rest (c :: cur) (S depth) None false acc
            else if c =? ch_rbrace then
              match depth with
              | O => parse_error "unexpected selector }"
              | S depth => split_assignments_loop rest (c :: cur) depth None false acc
              end
            else if (depth =? 0)%nat && selector_assignment_separator p then
              split_assignments_loop rest [] depth None true (push_token cur acc)
            else split_assignments_loop rest (c :: cur) depth None false acc
        end
  end.

Definition split_assignments (expr : bytes) : failure + list bytes :=
  split_assignments_loop expr [] 0 None false [].

Definition unquote (value : bytes) : bytes :=
  match value, rev value with
  | c :: _ :: _, d :: _ =>
      if is_quote c && (c =? d) then removelast (tl value) else value
  | _, _ => value
  end.

(** [find_shorthand_operator]: the text before the first unquoted operator
    (reversed in [before]) and the text from it on. *)
Fixpoint find_operator_loop (p before : bytes) (quote : option Z) : option (bytes * bytes) :=
  match p with
  | [] => None
  | c :: rest =>
      match quote with
      | Some q =>
          if c =? ch_backslash then
            match rest with
            | d :: rest' => find_operator_loop rest' (d :: c :: before) quote
            | [] => find_operator_loop rest (c :: before) (if c =? q then None else quote)
            end
          else find_operator_loop rest (c :: before) (if c =? q then None else quote)
      | None =>
          if is_quote c then find_operator_loop rest (c :: before) (Some c)
          else if ((c =? ch_bang) || (c =? ch_gt) || (c =? ch_lt)) && (at_ rest 0 =? ch_eq) then
            Some (rev before, p)
          else if (c =? ch_eq) || (c =? ch_gt) || (c =? ch_lt) then Some (rev before, p)
          else find_operator_loop rest (c :: before) None
      end
  end.

Definition find_shorthand_operator (expr : bytes) : option (bytes * bytes) :=
  find_operator_loop expr [] None.

(** ** Paths *)

Definition raw_segment_is (seg lit : bytes) : bool := bytes_eqb seg lit.

(** [while (base_len > 2 && the segment ends in "[]")], on the reversed segment:
    the reversed base and the number of [[]] suffixes removed. *)
Fixpoint strip_brackets (r : bytes) (count : nat) : bytes * nat :=
  match r with
  | c :: (d :: ((_ :: _) as rest)) =>
      if (c =? ch_rbracket) && (d =? ch_lbracket) then strip_brackets rest (S count) else (r, count)
  | _ => (r, count)
  end.

(** The base of a segment and its number of [[]] suffixes. *)
Definition segment_base (seg : bytes) : bytes * nat :=
  if raw_segment_is seg [] || raw_segment_is seg (bs "[]") || raw_segment_is seg (bs "*") ||
     raw_segment_is seg (bs "**") || raw_segment_is seg (bs "...")
  then (seg, 0%nat)
  else let '(r, count) := strip_brackets (rev seg) 0 in (rev r, count).

(** What one round appends to [out]. *)
Definition normalize_append (out seg : bytes) : bytes :=
  let '(base, count) := segment_base seg in
  (if (1 <? length out)%nat then out ++ [ch_slash] else out) ++ base ++
  concat (repeat (bs "/[]") count).

(** The loop of [normalize_field_path] from [seg] on; a round ends at a slash or
    at the end, so the length of the text bounds the rounds. *)
Fixpoint normalize_loop (fuel : nat) (seg out : bytes) : bytes :=
  match seg with
  | [] => out
  | _ =>
      let '(s, slash) := span (fun c => negb (c =? ch_slash)) seg in
      let out := normalize_append out s in
      match slash, fuel with
      | _ :: seg, S fuel => normalize_loop fuel seg out
      | _, _ => out
      end
  end.

Definition normalize_field_path (field : bytes) : option bytes :=
  match field with
  | c :: seg => if c =? ch_slash then Some (normalize_loop (length seg) seg [ch_slash]) else None
  | [] => None
  end.
