(* ===== verification/SelectorLexProps.v ===== *)
(** * Splitting, quoting and normalising selector text

    The tokens [split_top] returns, the round trip with joining, the quoting of
    values and the normal form of paths. *)

From S2P Require Import Prelude.
From S2P Require Import Errors.
From S2P Require Import SelectorLex.

(** ** Trimming *)

(** No white space at either end. *)
Definition trimmed (s : bytes) : Prop := isspace (at_ s 0) = false /\ isspace (at_ (rev s) 0) = false.

Lemma at_isspace_nil : isspace (at_ [] 0) = false.
Proof. done. Qed.

Lemma drop_while_id (s : bytes) : isspace (at_ s 0) = false -> drop_while isspace s = s.
Proof. destruct s as [|c s]; [done|]. unfold drop_while, at_. cbn. by intros ->. Qed.

Lemma drop_while_at (s : bytes) : isspace (at_ (drop_while isspace s) 0) = false.
Proof.
  destruct (drop_while isspace s) as [|c t] eqn:E; [done|]. cbn. by apply drop_while_stop in E.
Qed.

Lemma trim_trimmed s : trimmed (trim s).
Proof.
  unfold trim. set (a := drop_while isspace s). split.
  - destruct (drop_while_app isspace (rev a)) as (p & E & Hp).
    set (b := drop_while isspace (rev a)) in *.
    destruct (rev b) as [|c t] eqn:Eb; [done|].
    assert (a = rev b ++ rev p) as Ea by (rewrite <- rev_app_distr, <- E; by rewrite rev_involutive).
    pose proof (drop_while_at s) as H. fold a in H. rewrite Ea, Eb in H. done.
  - rewrite rev_involutive. apply drop_while_at.
Qed.

Lemma trim_id s : trimmed s -> trim s = s.
Proof.
  intros [H1 H2]. unfold trim. rewrite (drop_while_id s), (drop_while_id (rev s)) by done.
  apply rev_involutive.
Qed.

Lemma trim_idem s : trim (trim s) = trim s.
Proof. apply trim_id, trim_trimmed. Qed.

Lemma trim_parts s : exists a b, s = a ++ trim s ++ b /\
  Forall (fun c => isspace c = true) a /\ Forall (fun c => isspace c = true) b.
Proof.
  unfold trim. destruct (drop_while_app isspace s) as (a & E & Ha).
  set (t := drop_while isspace s) in *. destruct (drop_while_app isspace (rev t)) as (b & E' & Hb).
  exists a, (rev b). split_and!; [|done|by apply Forall_rev].
  rewrite E at 1. f_equal. rewrite <- rev_app_distr, <- E'. by rewrite rev_involutive.
Qed.

(** Induction over a text two characters at a time. *)
Lemma list_ind2 (P : bytes -> Prop) :
  P [] -> (forall c, P [c]) -> (forall c d l, P l -> P (d :: l) -> P (c :: d :: l)) -> forall l, P l.
Proof.
  intros H0 H1 H2 l. enough (P l /\ forall c, P (c :: l)) by tauto.
  induction l as [|c l [IH1 IH2]]; [split; auto|]. split; [apply IH2|]. intros d. apply H2; auto.
Qed.

(** ** Tokens *)

(** Reading one character of a token, other than a backslash in quotes: the
    brace depth and open quote after it. *)
Definition token_step (d : nat) (q : option Z) (c : Z) : option (nat * option Z) :=
  match q with
  | Some q' => if c =? ch_backslash then None else Some (d, if c =? q' then None else q)
  | None =>
      if is_quote c then Some (d, Some c)
      else if c =? ch_lbrace then Some (S d, None)
      else if c =? ch_rbrace then match d with O => None | S d => Some (d, None) end
      else if ((c =? ch_comma) || (c =? ch_nl)) && (d =? 0)%nat then None
      else Some (d, None)
  end.

(** Reading a text with no separator of its own: commas and newlines only inside
    quotes and braces, backslashes in quotes with the character they escape. *)
Inductive reads : nat -> option Z -> bytes -> nat -> option Z -> Prop :=
  | reads_nil d q : reads d q [] d q
  | reads_char d q c d1 q1 t d' q' :
      token_step d q c = Some (d1, q1) -> reads d1 q1 t d' q' -> reads d q (c :: t) d' q'
  | reads_escape d q e t d' q' :
      reads d (Some q) t d' q' -> reads d (Some q) (ch_backslash :: e :: t) d' q'.

(** A token: not empty, trimmed, with every quote and brace closed. *)
Definition token (t : bytes) : Prop := t <> [] /\ trimmed t /\ reads 0 None t 0 None.

Lemma reads_app d q a d1 q1 b d2 q2 :
  reads d q a d1 q1 -> reads d1 q1 b d2 q2 -> reads d q (a ++ b) d2 q2.
Proof. induction 1; cbn [app]; eauto using reads. Qed.

(** The loop carries such a text into the token under construction. *)
Lemma split_reads d q p d' q' rest cur acc :
  reads d q p d' q' -> (q' = None \/ rest <> []) ->
  split_top_loop (p ++ rest) cur d q acc = split_top_loop rest (rev p ++ cur) d' q' acc.
Proof.
  intros H Hq. revert cur. induction H as [d q|d q c d1 q1 t d' q' Hs _ IH|d q e t d' q' _ IH]; intros cur.
  - done.
  - cbn [app rev]. rewrite <- app_assoc. cbn [app]. rewrite <- IH by done. cbn [split_top_loop].
    unfold token_step in Hs. destruct q as [q|].
    + destruct (c =? ch_backslash); [done|]. by injection Hs as <- <-.
    + destruct (is_quote c); [by injection Hs as <- <-|].
      destruct (c =? ch_lbrace); [by injection Hs as <- <-|].
      destruct (c =? ch_rbrace); [destruct d; [done|by injection Hs as <- <-]|].
      destruct (_ && _); [done|]. by injection Hs as <- <-.
  - cbn [app rev split_top_loop]. change (ch_backslash =? ch_backslash) with true. cbn iota.
    rewrite IH by done. by rewrite <- !app_assoc.
Qed.

Lemma push_token_token t acc : token t -> push_token (rev t) acc = acc ++ [t].
Proof.
  intros (Hn & Ht & _). unfold push_token. rewrite rev_involutive, trim_id by done. by destruct t.
Qed.

Definition join_tokens (ts : list bytes) : bytes :=
  match ts with [] => [] | t :: ts => t ++ flat_map (fun u => ch_comma :: u) ts end.

Lemma split_join_loop ts t acc :
  Forall token (t :: ts) ->
  split_top_loop (t ++ flat_map (fun u => ch_comma :: u) ts) [] 0 None acc = inr (acc ++ t :: ts).
Proof.
  revert t acc. induction ts as [|u ts IH]; intros t acc HF; inversion_clear HF as [|? ? Ht Hts].
  all: pose proof Ht as (_ & _ & Hr); rewrite (split_reads _ _ _ _ _ _ _ _ Hr), app_nil_r by (by left).
  - cbn [flat_map split_top_loop]. rewrite push_token_token by done. done.
  - cbn [flat_map app split_top_loop]. change (is_quote ch_comma) with false.
    change (ch_comma =? ch_lbrace) with false. change (ch_comma =? ch_rbrace) with false.
    change (ch_comma =? ch_comma) with true. cbn [orb andb Nat.eqb]. cbn iota.
    rewrite push_token_token by done. rewrite (IH u) by done. by rewrite <- app_assoc.
Qed.

(** The open quote is a quote character. *)
Definition quote_ok (q : option Z) : Prop := match q with Some x => is_quote x = true | None => True end.

Lemma token_step_quote d q c d1 q1 : quote_ok q -> token_step d q c = Some (d1, q1) -> quote_ok q1.
Proof.
  unfold token_step. destruct q as [q|]; intros Hq.
  - destruct (c =? ch_backslash); [done|]. intros [= <- <-]. by destruct (c =? q).
  - destruct (is_quote c) eqn:E; [by intros [= <- <-]|].
    destruct (c =? ch_lbrace); [by intros [= <- <-]|].
    destruct (c =? ch_rbrace); [destruct d; [done|by intros [= <- <-]]|].
    destruct (_ && _); [done|by intros [= <- <-]].
Qed.

(** White space changes no state. *)
Lemma space_step d q c d1 q1 :
  quote_ok q -> isspace c = true -> token_step d q c = Some (d1, q1) -> d1 = d /\ q1 = q.
Proof.
  intros Hq H. assert (c = 32 \/ 9 <= c <= 13) as Hc by (unfold isspace in H; lia).
  unfold token_step. destruct q as [q|].
  - cbn in Hq. unfold is_quote in Hq. rewrite (proj2 (Z.eqb_neq c ch_backslash)) by lia.
    rewrite (proj2 (Z.eqb_neq c q)) by lia. by intros [= <- <-].
  - assert (is_quote c = false) as -> by (unfold is_quote; lia).
    rewrite (proj2 (Z.eqb_neq c ch_lbrace)), (proj2 (Z.eqb_neq c ch_rbrace)) by lia.
    destruct (_ && _); [done|]. by intros [= <- <-].
Qed.

Lemma reads_spaces d q b d' q' :
  quote_ok q -> Forall (fun c => isspace c = true) b -> reads d q b d' q' -> d' = d /\ q' = q.
Proof.
  intros Hq Hb H. induction H as [d q|d q c d1 q1 u d' q' Hs Hr IH|d q e u d' q' Hr IH]; [done| |].
  - inversion_clear Hb as [|? ? Hc Hu]. destruct (space_step _ _ _ _ _ Hq Hc Hs) as [-> ->]. by apply IH.
  - inversion_clear Hb as [|? ? H1 _]. by vm_compute in H1.
Qed.

Lemma reads_space_prefix a d t d' q' :
  Forall (fun c => isspace c = true) a -> reads d None (a ++ t) d' q' -> reads d None t d' q'.
Proof.
  induction 1 as [|c a Hc _ IH]; cbn [app]; [done|]. intros H. apply IH.
  inversion H as [|? ? ? d1 q1 ? ? ? Hs Hr|]; subst.
  by destruct (space_step d None c d1 q1 I Hc Hs) as [-> ->].
Qed.

Lemma reads_space_suffix t b d q d' :
  quote_ok q -> Forall (fun c => isspace c = true) b -> reads d q (t ++ b) d' None ->
  reads d q t d' None.
Proof.
  intros Hq Hb H. remember (t ++ b) as s eqn:Es. remember None as q' eqn:Eq in H.
  revert t Es. induction H as [d q|d q c d1 q1 u d' q' Hs Hr IH|d q e u d' q' Hr IH]; intros t Es; try subst q'.
  - symmetry in Es. apply app_eq_nil in Es as [-> ->]. rewrite Eq. constructor.
  - destruct t as [|c' t].
    + cbn in Es. subst b.
      destruct (reads_spaces d q (c :: u) d' None Hq Hb) as [-> ->]; [by econstructor|constructor].
    + injection Es as -> ->. econstructor; [done|]. apply IH; [|done|done].
      by eapply token_step_quote.
  - destruct t as [|c' [|e' t]].
    + cbn in Es. subst b. inversion_clear Hb as [|? ? H1 _]. by vm_compute in H1.
    + injection Es as <- Es. cbn in Es. subst b. exfalso. inversion_clear Hb as [|? ? _ Hu].
      by destruct (reads_spaces d (Some q) u d' None Hq Hu Hr).
    + injection Es as <- <- ->. constructor. by apply IH.
Qed.

(** Trimming a closed text leaves a token, unless nothing is left. *)
Lemma trim_token t : reads 0 None t 0 None -> trim t <> [] -> token (trim t).
Proof.
  intros Hr Hn. split_and!; [done|apply trim_trimmed|].
  destruct (trim_parts t) as (a & b & E & Ha & Hb). rewrite E in Hr.
  apply reads_space_prefix in Hr; [|done]. by apply reads_space_suffix in Hr.
Qed.

(** Carry a character into the token: [IH] is about the rest of the text. *)
Ltac carry_char IH :=
  let Hk := fresh in let Hok := fresh in let G := fresh in
  intros Hk Hok G; refine (IH _ _ _ _ (Hk _ _ eq_refl) (Hok _ _ eq_refl) _ G); assumption.

(** What [split_top] collects are tokens. *)
Lemma split_top_tokens p cur d q acc ts :
  reads 0 None (rev cur) d q -> quote_ok q -> Forall token acc ->
  split_top_loop p cur d q acc = inr ts -> Forall token ts.
Proof.
  revert cur d q acc.
  assert (Hpush : forall cur acc, reads 0 None (rev cur) 0 None -> Forall token acc ->
    Forall token (push_token cur acc)).
  { intros c a Hc Ha. unfold push_token. destruct (trim (rev c)) as [|x t] eqn:E; [done|].
    apply Forall_app. split; [done|]. constructor; [|constructor]. rewrite <- E.
    apply trim_token; [done|by rewrite E]. }
  assert (Hcons : forall cur c d q d1 q1, reads 0 None (rev cur) d q ->
    token_step d q c = Some (d1, q1) -> reads 0 None (rev (c :: cur)) d1 q1).
  { intros. cbn [rev]. eapply reads_app; [done|]. econstructor; [done|constructor]. }
  assert (Hstep : forall c r, (forall cur d q acc, reads 0 None (rev cur) d q -> quote_ok q ->
      Forall token acc -> split_top_loop r cur d q acc = inr ts -> Forall token ts) ->
    forall cur d q acc, reads 0 None (rev cur) d q -> quote_ok q -> Forall token acc ->
    (q <> None -> c <> ch_backslash) ->
    split_top_loop (c :: r) cur d q acc = inr ts -> Forall token ts).
  { intros c r IH cur d q acc Hr Hq Ha Hc. cbn [split_top_loop].
    pose proof (fun d1 q1 => Hcons cur c d q d1 q1 Hr) as Hk.
    pose proof (fun (d1 : nat) q1 => token_step_quote d q c d1 q1 Hq) as Hok. revert Hk Hok. unfold token_step.
    destruct q as [q|].
    - rewrite (proj2 (Z.eqb_neq c ch_backslash)) by (by apply Hc). carry_char IH.
    - destruct (is_quote c); [carry_char IH|].
      destruct (c =? ch_lbrace); [carry_char IH|].
      destruct (c =? ch_rbrace); [destruct d; [done|carry_char IH]|].
      destruct (((c =? ch_comma) || (c =? ch_nl)) && (d =? 0)%nat) eqn:Es; [|carry_char IH].
      apply andb_true_iff in Es as [_ ->%Nat.eqb_eq]. intros _ _.
      apply IH; [constructor|done|by apply Hpush]. }
  induction p as [|c|c e p IH1 IH2] using list_ind2; intros cur d q acc Hr Hq Ha.
  - cbn [split_top_loop]. case_bool_decide as En; cbn [orb]; [done|]. destruct q; [done|].
    destruct (d =? 0)%nat eqn:Ed; [|done]. apply Nat.eqb_eq in Ed as ->. intros [= <-]. by apply Hpush.
  - destruct (decide (q <> None /\ c = ch_backslash)) as [[Hn ->]|Hb].
    + destruct q as [q|]; [|done]. cbn [split_top_loop]. change (ch_backslash =? ch_backslash) with true.
      cbn iota. assert ((ch_backslash =? q) = false) as ->.
      { cbn in Hq. unfold is_quote in Hq. lia. }
      by rewrite bool_decide_eq_true_2.
    + apply (Hstep c []); try done; [|tauto]. intros cur' d0 q0 acc0 Hr0 Hq0 Ha0. cbn [split_top_loop].
      case_bool_decide as En; cbn [orb]; [done|]. destruct q0; [done|].
      destruct (d0 =? 0)%nat eqn:Ed; [|done]. apply Nat.eqb_eq in Ed as ->. intros [= <-]. by apply Hpush.
  - destruct (decide (q <> None /\ c = ch_backslash)) as [[Hn ->]|Hb].
    + destruct q as [q|]; [|done]. cbn [split_top_loop]. change (ch_backslash =? ch_backslash) with true.
      cbn iota. apply IH1; try done. cbn [rev]. rewrite <- app_assoc. eapply reads_app; [done|].
      cbn [app]. repeat constructor.
    + apply (Hstep c (e :: p)); try done. tauto.
Qed.

(** ** Quoting *)

Lemma unquote_quoted q s : is_quote q = true -> unquote (q :: s ++ [q]) = s.
Proof.
  intros Hq. assert (rev (q :: s ++ [q]) = q :: rev s ++ [q]) as Er.
  { cbn [rev]. by rewrite rev_app_distr. }
  pose proof (removelast_last s q) as Hl. unfold unquote.
  destruct (s ++ [q]) as [|x t]; [by destruct s|]. rewrite Er, Hq, Z.eqb_refl. by cbn [andb tl].
Qed.

Lemma unquote_plain s : is_quote (at_ s 0) = false -> unquote s = s.
Proof.
  intros Hq. unfold unquote. destruct s as [|c [|d s]]; [done..|]. unfold at_ in Hq. cbn [nth] in Hq.
  destruct (rev (c :: d :: s)); [done|]. by rewrite Hq.
Qed.

(** ** The normal form of paths *)

(** The path of a list of segments. *)
Definition path_text (segs : list bytes) : bytes := flat_map (fun s => ch_slash :: s) segs.

(** A segment a path may have between slashes. *)
Definition plain_segment (s : bytes) : Prop := s <> [] /\ Forall (fun c => c <> ch_slash) s.

(** A segment with its [[]] suffixes made segments of their own. *)
Definition expand_segment (s : bytes) : list bytes :=
  let '(base, count) := segment_base s in base :: repeat (bs "[]") count.

Lemma path_text_app a b : path_text (a ++ b) = path_text a ++ path_text b.
Proof. apply flat_map_app. Qed.

Lemma path_text_expand s :
  path_text (expand_segment s) =
  let '(base, count) := segment_base s in ch_slash :: base ++ concat (repeat (bs "/[]") count).
Proof.
  unfold expand_segment. destruct (segment_base s) as [base count]. unfold path_text. cbn [flat_map app].
  do 2 f_equal. induction count as [|n IH]; [done|]. cbn [repeat flat_map concat]. by rewrite IH.
Qed.

Lemma strip_brackets_spec r n r' n' :
  strip_brackets r n = (r', n') ->
  (n <= n')%nat /\ r = concat (repeat (rev (bs "[]")) (n' - n)) ++ r' /\ (r <> [] -> r' <> []) /\
  forall k, strip_brackets r' k = (r', k).
Proof.
  revert n. induction r as [|c|c d r IH1 IH2] using list_ind2; intros n; cbn [strip_brackets].
  - intros [= <- <-]. rewrite Nat.sub_diag. done.
  - intros [= <- <-]. rewrite Nat.sub_diag. done.
  - destruct r as [|e r]; [intros [= <- <-]; rewrite Nat.sub_diag; done|].
    destruct ((c =? ch_rbracket) && (d =? ch_lbracket)) eqn:E.
    + intros H. destruct (IH1 (S n) H) as (Hn & Hr & Hne & Hk). bool_hyps. subst c d.
      split_and!; [lia| |by intros _; apply Hne|done].
      replace (n' - n)%nat with (S (n' - S n)) by lia. cbn [repeat concat]. rewrite <- app_assoc, <- Hr. done.
    + intros [= <- <-]. rewrite Nat.sub_diag. split_and!; [lia|done|done|].
      intros k. cbn [strip_brackets]. by rewrite E.
Qed.

Lemma segment_base_plain s :
  plain_segment s -> let '(base, count) := segment_base s in plain_segment base /\ segment_base base = (base, 0%nat).
Proof.
  intros [Hn Hs]. unfold segment_base. destruct (_ || _) eqn:E; [by rewrite E|].
  destruct (strip_brackets (rev s) 0) as [r count] eqn:Er.
  apply strip_brackets_spec in Er as (_ & Hr & Hne & Hk). rewrite rev_involutive, Hk.
  assert (rev s <> []) as Hn' by (intros H; apply Hn; by rewrite <- (rev_involutive s), H).
  split; [split|].
  - intros H. apply (Hne Hn'). by rewrite <- (rev_involutive r), H.
  - apply Forall_rev. apply Forall_rev in Hs. rewrite Hr in Hs. by apply Forall_app in Hs as [_ Hs].
  - by case_if.
Qed.

Lemma expand_segment_plain s :
  plain_segment s ->
  Forall plain_segment (expand_segment s) /\ flat_map expand_segment (expand_segment s) = expand_segment s.
Proof.
  intros H. pose proof (segment_base_plain s H) as Hb.
  assert (Hbb : expand_segment (bs "[]") = [bs "[]"]) by (by vm_compute).
  destruct (segment_base s) as [base count] eqn:Es. destruct Hb as [Hp Hb].
  assert (Ex : expand_segment s = base :: repeat (bs "[]") count) by (unfold expand_segment; by rewrite Es).
  assert (Eb : expand_segment base = [base]) by (unfold expand_segment; by rewrite Hb). rewrite Ex.
  assert (plain_segment (bs "[]")) as Hbr by (split; [done|by repeat constructor]).
  split.
  - constructor; [done|]. clear Ex Es. induction count as [|n IH]; cbn [repeat]; [done|by constructor].
  - cbn [flat_map]. rewrite Eb. cbn [app]. f_equal. clear Ex Es.
    induction count as [|n IH]; [done|]. cbn [repeat flat_map]. by rewrite IH, Hbb.
Qed.

Lemma span_segment s rest :
  plain_segment s -> match rest with [] => True | c :: _ => c = ch_slash end ->
  span (fun c => negb (c =? ch_slash)) (s ++ rest) = (s, rest).
Proof.
  intros [_ Hs] Hr. apply span_block.
  - eapply List.Forall_impl; [|exact Hs]. cbn. intros c Hc. by rewrite (proj2 (Z.eqb_neq _ _)).
  - destruct rest as [|c rest]; [done|]. by subst c.
Qed.

Lemma normalize_append_first s :
  normalize_append [ch_slash] s = path_text (expand_segment s).
Proof.
  rewrite path_text_expand. unfold normalize_append. by destruct (segment_base s).
Qed.

Lemma normalize_append_next out s :
  (1 < length out)%nat -> normalize_append out s = out ++ path_text (expand_segment s).
Proof.
  intros H. rewrite path_text_expand. unfold normalize_append. destruct (segment_base s) as [base count].
  rewrite (proj2 (Nat.ltb_lt _ _)) by done. by rewrite <- app_assoc.
Qed.

Lemma path_text_expand_long s : plain_segment s -> (1 < length (path_text (expand_segment s)))%nat.
Proof.
  intros H. pose proof (segment_base_plain s H) as Hb. rewrite path_text_expand.
  destruct (segment_base s) as [[|c base] count]; destruct Hb as [[Hn _] _]; [done|]. cbn [length app]. lia.
Qed.

Lemma normalize_loop_spec segs : forall s fuel out,
  Forall plain_segment (s :: segs) -> (length (s ++ path_text segs) <= fuel)%nat ->
  normalize_loop fuel (s ++ path_text segs) out =
    normalize_append out s ++ path_text (flat_map expand_segment segs) \/
  (length (normalize_append out s) <= 1)%nat.
Proof.
  induction segs as [|t segs IH]; intros s fuel out HF Hf; inversion_clear HF as [|? ? Hs HF'].
  - left. cbn [path_text flat_map]. rewrite !app_nil_r in *. destruct s as [|c s]; [by destruct Hs|].
    destruct fuel; [cbn in Hf; lia|]. cbn [normalize_loop].
    pose proof (span_segment (c :: s) [] Hs I) as E. rewrite app_nil_r in E. by rewrite E.
  - cbn [path_text flat_map] in *. fold (path_text segs) in *.
    pose proof (span_segment s (ch_slash :: t ++ path_text segs) Hs eq_refl) as E.
    destruct (Nat.le_gt_cases (length (normalize_append out s)) 1) as [|Hl]; [by right|left].
    assert (s ++ ch_slash :: t ++ path_text segs = s ++ (ch_slash :: t) ++ path_text segs) as Ea by done.
    destruct s as [|c s]; [by destruct Hs|]. destruct fuel as [|fuel]; [cbn in Hf; lia|].
    cbn [app normalize_loop] in *. rewrite E.
    assert (length (t ++ path_text segs) <= fuel)%nat as Hf'.
    { cbn [length] in Hf. rewrite length_app in Hf. cbn [length] in Hf. lia. }
    destruct (IH t fuel (normalize_append out (c :: s)) HF' Hf') as [H|H].
    + rewrite H. rewrite normalize_append_next by done. by rewrite path_text_app, <- app_assoc.
    + rewrite normalize_append_next in H by done. rewrite length_app in H. lia.
Qed.

Lemma normalize_segments s segs :
  Forall plain_segment (s :: segs) ->
  normalize_field_path (path_text (s :: segs)) = Some (path_text (flat_map expand_segment (s :: segs))).
Proof.
  intros HF. cbn [path_text flat_map app normalize_field_path]. fold (path_text segs).
  change (ch_slash =? ch_slash) with true. cbn iota. f_equal.
  inversion HF as [|? ? Hs _]; subst.
  destruct (normalize_loop_spec segs s (length (s ++ path_text segs)) [ch_slash] HF ltac:(lia)) as [H|H].
  - rewrite H, normalize_append_first. by rewrite path_text_app.
  - rewrite normalize_append_first in H. pose proof (path_text_expand_long s Hs). lia.
Qed.

Lemma normalize_loop_prefix fuel seg out :
  out <> [] -> exists t, normalize_loop fuel seg out = out ++ t.
Proof.
  revert seg out. induction fuel as [|fuel IH]; intros [|c seg] out Ho; cbn [normalize_loop];
    try by (exists []; rewrite app_nil_r).
  all: destruct (span _ (c :: seg)) as [s slash]; unfold normalize_append;
    destruct (segment_base s) as [base count].
  1: destruct slash; case_if; rewrite <- ?app_assoc; eauto.
  destruct slash as [|d slash]; [case_if; rewrite <- ?app_assoc; eauto|].
  match goal with |- context [normalize_loop fuel slash ?o] => destruct (IH slash o) as [t E] end.
  { case_if; rewrite <- ?app_assoc; by destruct out. }
  rewrite E. case_if; rewrite <- ?app_assoc; eauto.
Qed.

(** A normalised path is a pointer. *)
Lemma normalize_slash f p : normalize_field_path f = Some p -> at_ p 0 = ch_slash.
Proof.
  destruct f as [|c f]; cbn [normalize_field_path]; [done|]. destruct (c =? ch_slash); [|done].
  intros [= <-]. destruct (normalize_loop_prefix (length f) f [ch_slash]) as [t ->]; done.
Qed.

Lemma normalize_is_some c f : c = ch_slash -> is_Some (normalize_field_path (c :: f)).
Proof. intros ->. by eexists. Qed.

(** ** The properties *)

(** C32. Splitting a selector expression: every token returned is non-empty,
    trimmed and closed (quotes and braces), and joining closed tokens with commas
    and splitting gives exactly them back, so splitting loses and invents
    nothing. *)
Theorem split_top_roundtrip expr ts :
  (split_top expr = inr ts -> Forall token ts) /\
  (Forall token ts -> ts <> [] -> split_top (join_tokens ts) = inr ts).
Proof.
  split.
  - unfold split_top. intros H. refine (split_top_tokens _ _ _ _ _ _ _ _ _ H); constructor.
  - intros HF Hn. destruct ts as [|t ts]; [done|]. unfold split_top, join_tokens.
    by apply (split_join_loop ts t []).
Qed.

(** On a path of non-empty segments, normalisation makes every [[]] suffix a
    segment of its own and changes nothing else; it is idempotent there. *)
Theorem normalize_plain_path s segs :
  Forall plain_segment (s :: segs) ->
  exists t ts, flat_map expand_segment (s :: segs) = t :: ts /\
    normalize_field_path (path_text (s :: segs)) = Some (path_text (t :: ts)) /\
    normalize_field_path (path_text (t :: ts)) = Some (path_text (t :: ts)).
Proof.
  intros HF. pose proof (normalize_segments s segs HF) as HN.
  destruct (flat_map expand_segment (s :: segs)) as [|t ts] eqn:E.
  { cbn [flat_map] in E. unfold expand_segment in E. by destruct (segment_base s). }
  exists t, ts. split_and!; [done|done|].
  assert (Forall plain_segment (t :: ts) /\ flat_map expand_segment (t :: ts) = t :: ts) as [HP HE].
  { rewrite <- E. clear E HN. induction HF as [|u us Hu _ [IH1 IH2]]; [done|]. cbn [flat_map].
    destruct (expand_segment_plain u Hu) as [H1 H2]. split; [by apply Forall_app|].
    by rewrite flat_map_app, H2, IH2. }
  rewrite normalize_segments by done. by rewrite HE.
Qed.

(** With an empty segment normalisation is not idempotent: [/a//] becomes [/a/],
    which becomes [/a]. *)
Lemma normalize_empty_segments :
  normalize_field_path (bs "/a//") = Some (bs "/a/") /\
  normalize_field_path (bs "/a/") = Some (bs "/a").
Proof. by vm_compute. Qed.

(** ** Witnesses *)

Lemma split_top_roundtrip_witness :
  Forall token [bs "/a=1"; bs "in{f=/b,any=x|y}"; bs "/c='p,q'"].
Proof.
  destruct (split_top_roundtrip (bs "/a=1 , in{f=/b,any=x|y},/c='p,q'")
    [bs "/a=1"; bs "in{f=/b,any=x|y}"; bs "/c='p,q'"]) as [H _].
  apply H. by vm_compute.
Defined.

Lemma normalize_plain_path_witness :
  exists t ts, flat_map expand_segment [bs "a[][]"; bs "b"] = t :: ts /\
    normalize_field_path (path_text [bs "a[][]"; bs "b"]) = Some (path_text (t :: ts)) /\
    normalize_field_path (path_text (t :: ts)) = Some (path_text (t :: ts)).
Proof.
  apply (normalize_plain_path (bs "a[][]") [bs "b"]).
  repeat constructor; discriminate.
Defined.
