(* ===== verification/SelectorParse.v ===== *)
(** * The selector text parser (src/lql_selector.c)

    Predicates and their key-value bodies, shorthands, wrappers, indexed groups
    and the entry point.  A C string modified in place ([*eq = 0]) is the pieces
    it is cut into.  Allocations are assumed to succeed; a recursion on a shorter
    text has fuel and returns [None] when it runs out, which the theorems
    exclude. *)

From S2P Require Import Prelude.
From S2P Require Import Number.
From S2P Require Import Temporal.
From S2P Require Import Errors.
From S2P Require Import Selector.
From S2P Require Import Cursor.
From S2P Require Import SelectorLex.

(** ** Keys *)

Definition key_is (key : bytes) (names : list string) : bool :=
  existsb (fun n => bytes_eqb key (bs n)) names.

Definition parse_bool_value (value : bytes) : option bool :=
  if key_is value ["true"%string; "t"%string] then Some true
  else if key_is value ["false"%string; "f"%string] then Some false
  else None.

Definition key_is_field (key : bytes) : bool := key_is key ["field"%string; "f"%string].
Definition key_is_value (key : bytes) : bool := key_is key ["value"%string; "v"%string].
Definition key_is_any (key : bytes) : bool := key_is key ["any"%string; "a"%string].
Definition key_is_ignore_case (key : bytes) : bool :=
  key_is key ["ignoreCase"%string; "ignorecase"%string; "ic"%string].
Definition key_is_range_bound (key : bytes) : bool :=
  key_is key ["gt"%string; "gte"%string; "lt"%string; "lte"%string].
Definition key_is_after (key : bytes) : bool := key_is key ["after"%string; "a"%string].
Definition key_is_before (key : bytes) : bool := key_is key ["before"%string; "b"%string].
Definition key_is_since (key : bytes) : bool := key_is key ["since"%string].

Definition key_allowed_for_kind (kind : lql_selector_kind) (key : bytes) : bool :=
  if key_is_field key then true
  else
    match kind with
    | LQL_SELECTOR_KIND_EQ => key_is_value key
    | LQL_SELECTOR_KIND_CONTAINS | LQL_SELECTOR_KIND_ICONTAINS =>
        key_is_value key || key_is_any key || key_is_ignore_case key
    | LQL_SELECTOR_KIND_PREFIX | LQL_SELECTOR_KIND_IPREFIX =>
        key_is_value key || key_is_ignore_case key
    | LQL_SELECTOR_KIND_RANGE => key_is_range_bound key
    | LQL_SELECTOR_KIND_DATE =>
        key_is_value key || key_is_after key || key_is_before key || key_is_range_bound key ||
        key_is_since key
    | LQL_SELECTOR_KIND_IN => key_is_any key
    | _ => false
    end.

Definition kind_from_name (name : bytes) : lql_selector_kind :=
  if bytes_eqb name (bs "and") then LQL_SELECTOR_KIND_AND
  else if bytes_eqb name (bs "or") then LQL_SELECTOR_KIND_OR
  else if bytes_eqb name (bs "not") then LQL_SELECTOR_KIND_NOT
  else if bytes_eqb name (bs "eq") then LQL_SELECTOR_KIND_EQ
  else if bytes_eqb name (bs "contains") then LQL_SELECTOR_KIND_CONTAINS
  else if bytes_eqb name (bs "icontains") then LQL_SELECTOR_KIND_ICONTAINS
  else if bytes_eqb name (bs "prefix") then LQL_SELECTOR_KIND_PREFIX
  else if bytes_eqb name (bs "iprefix") then LQL_SELECTOR_KIND_IPREFIX
  else if bytes_eqb name (bs "range") then LQL_SELECTOR_KIND_RANGE
  else if bytes_eqb name (bs "date") then LQL_SELECTOR_KIND_DATE
  else if bytes_eqb name (bs "in") then LQL_SELECTOR_KIND_IN
  else if bytes_eqb name (bs "exists") then LQL_SELECTOR_KIND_EXISTS
  else LQL_SELECTOR_KIND_ALL.

(** ** Values *)

Definition selector_literal_kind (raw : bytes) : lql_selector_literal_kind :=
  if bytes_eqb raw (bs "true") || bytes_eqb raw (bs "false") then LQL_SELECTOR_LITERAL_BOOL
  else if bytes_eqb raw (bs "null") then LQL_SELECTOR_LITERAL_NULL
  else if lql_number_is_json raw then LQL_SELECTOR_LITERAL_NUMBER
  else LQL_SELECTOR_LITERAL_STRING.

Definition selector_kind_uses_textual_needles (kind : lql_selector_kind) : bool :=
  match kind with
  | LQL_SELECTOR_KIND_CONTAINS | LQL_SELECTOR_KIND_ICONTAINS
  | LQL_SELECTOR_KIND_PREFIX | LQL_SELECTOR_KIND_IPREFIX => true
  | _ => false
  end.

(** The pieces between the bars ([strchr(cursor, '|')]). *)
Fixpoint split_bars (s : bytes) : list bytes :=
  match s with
  | [] => [[]]
  | c :: t =>
      if c =? ch_bar then [] :: split_bars t
      else match split_bars t with
           | p :: ps => (c :: p) :: ps
           | [] => [[c]]
           end
  end.

Fixpoint any_values_loop (pieces : list bytes) (reject_surrounding_whitespace textual_needles : bool)
    (acc : list any_value) : failure + list any_value :=
  match pieces with
  | [] => inr acc
  | cursor :: pieces =>
      let item := trim cursor in
      if reject_surrounding_whitespace && negb (bool_decide (item = [])) &&
         negb (length item =? length cursor)%nat then
        parse_error "selector any values must not have surrounding whitespace"
      else
        let acc :=
          match item with
          | [] => acc
          | _ =>
              let kind := if textual_needles then LQL_SELECTOR_LITERAL_STRING
                          else selector_literal_kind item in
              acc ++ [mk_any item kind false]
          end in
        any_values_loop pieces reject_surrounding_whitespace textual_needles acc
  end.

Definition parse_any_values (decoded : bytes) (selector : lql_selector)
    (reject_surrounding_whitespace textual_needles : bool) : failure + lql_selector :=
  match any_values_loop (split_bars decoded) reject_surrounding_whitespace textual_needles
          (any selector) with
  | inl e => inl e
  | inr [] => parse_error "selector any requires values"
  | inr vs => inr (with_any selector vs)
  end.

Definition ascii_equal_ignore_case (a b : bytes) : bool :=
  bytes_eqb (map ascii_lower_byte a) (map ascii_lower_byte b).

(** The bound a key names; any other key is taken as [lte]. *)
Definition bound_of_key (key : bytes) : bound_key :=
  if bytes_eqb key (bs "gt") then Gt
  else if bytes_eqb key (bs "gte") then Gte
  else if bytes_eqb key (bs "lt") then Lt
  else Lte.

Definition set_range_bound (selector : lql_selector) (key decoded : bytes) : failure + lql_selector :=
  let trimmed := trim decoded in
  match lql_parse_temporal_literal trimmed with
  | Some temporal =>
      inr (with_range selector (bound_of_key key) trimmed (Some temporal) false true)
  | None =>
      if negb (lql_number_is_json trimmed) then parse_error "range selector bound invalid"
      else inr (with_range selector (bound_of_key key) trimmed None true false)
  end.

(** The slots of a date selector. *)
Inductive date_slot := SlotValue | SlotSince | SlotAfter | SlotBefore | SlotBound (k : bound_key).

Definition since_macro_of (decoded : bytes) : option lql_since_macro :=
  if ascii_equal_ignore_case decoded (bs "now") then Some LQL_SINCE_NOW
  else if ascii_equal_ignore_case decoded (bs "today") then Some LQL_SINCE_TODAY
  else if ascii_equal_ignore_case decoded (bs "yesterday") then Some LQL_SINCE_YESTERDAY
  else None.

Definition set_date_bound (selector : lql_selector) (slot : date_slot) (decoded : bytes)
    : failure + lql_selector :=
  let literal (f : lql_temporal -> lql_selector) : failure + lql_selector :=
    match lql_parse_temporal_literal decoded with
    | None => parse_error "date selector bound invalid"
    | Some temporal => inr (f temporal)
    end in
  match slot with
  | SlotSince =>
      match since_macro_of decoded with
      | Some m => inr (with_since selector decoded (Some m) None)
      | None => literal (fun t => with_since selector decoded None (Some t))
      end
  | SlotValue => literal (with_date_value selector decoded)
  | SlotAfter => literal (with_after selector decoded)
  | SlotBefore => literal (with_before selector decoded)
  | SlotBound k => literal (with_date selector k decoded)
  end.

Definition prepare_selector_value_temporal (selector : lql_selector) : lql_selector :=
  let selector := with_value_temporal selector false (temporal_eq selector) in
  match kind selector, value selector with
  | (LQL_SELECTOR_KIND_EQ | LQL_SELECTOR_KIND_NE), Some v =>
      if (length v =? length (cstr v))%nat then
        match lql_parse_temporal_literal v with
        | Some t => with_value_temporal selector true (Some t)
        | None => selector
        end
      else selector
  | _, _ => selector
  end.

(** ** Key-value bodies *)

(** The [seen_*] variables. *)
Inductive seen_slot :=
  | SeenField | SeenValue | SeenAny | SeenIgnoreCase | SeenGt | SeenGte | SeenLt | SeenLte
  | SeenAfter | SeenBefore | SeenSince.

#[export] Instance seen_slot_eq_dec : EqDecision seen_slot.
Proof. solve_decision. Defined.

(** The slots already set, with the raw text of each. *)
Definition seen_values : Type := list (seen_slot * bytes).

Definition seen_get (seen : seen_values) (slot : seen_slot) : option bytes :=
  snd <$> find (fun '(s, _) => bool_decide (s = slot)) seen.

Definition seen_set (seen : seen_values) (slot : seen_slot) : bool := bool_decide (is_Some (seen_get seen slot)).

Definition slot_of_key (kind : lql_selector_kind) (key : bytes) : option seen_slot :=
  let date := bool_decide (kind = LQL_SELECTOR_KIND_DATE) in
  if key_is_field key then Some SeenField
  else if key_is_value key then Some SeenValue
  else if date && key_is_after key then Some SeenAfter
  else if date && key_is_before key then Some SeenBefore
  else if date && key_is_since key then Some SeenSince
  else if key_is_any key then Some SeenAny
  else if key_is_ignore_case key then Some SeenIgnoreCase
  else if bytes_eqb key (bs "gt") then Some SeenGt
  else if bytes_eqb key (bs "gte") then Some SeenGte
  else if bytes_eqb key (bs "lt") then Some SeenLt
  else if bytes_eqb key (bs "lte") then Some SeenLte
  else if key_is_after key then Some SeenAfter
  else if key_is_before key then Some SeenBefore
  else if key_is_since key then Some SeenSince
  else None.

(** What a key with its decoded text does to the selector; [raw] is the text
    before unquoting. *)
Definition set_field (selector : lql_selector) (decoded : bytes) : failure + lql_selector :=
  match decoded with
  | [] => parse_error "selector field required"
  | c :: _ =>
      if negb (c =? ch_slash) then parse_error "selector field must be a JSON pointer"
      else
        match normalize_field_path decoded with
        | None => inl (LQL_STATUS_NO_MEMORY, "")
        | Some normalized => inr (with_field selector (Some normalized))
        end
  end.

Definition apply_key (kind : lql_selector_kind) (key raw decoded : bytes) (selector : lql_selector)
    : failure + lql_selector :=
  let date := bool_decide (kind = LQL_SELECTOR_KIND_DATE) in
  if key_is_field key then set_field selector decoded
  else if date && key_is_value key then set_date_bound selector SlotValue decoded
  else if key_is_value key then
    if bool_decide (decoded = []) && bool_decide (raw = []) && selector_kind_uses_textual_needles kind
    then inr (with_value selector None false LQL_SELECTOR_LITERAL_STRING)
    else inr (with_value selector (Some decoded) true
                (if selector_kind_uses_textual_needles kind then LQL_SELECTOR_LITERAL_STRING
                 else selector_literal_kind raw))
  else if date && (key_is_after key || key_is_before key || key_is_since key) then
    set_date_bound selector
      (if key_is_after key then SlotAfter else if key_is_before key then SlotBefore else SlotSince)
      decoded
  else if key_is_any key then
    parse_any_values decoded selector (bool_decide (kind = LQL_SELECTOR_KIND_IN))
      (selector_kind_uses_textual_needles kind)
  else if key_is_ignore_case key then
    match parse_bool_value decoded with
    | None => parse_error "selector ignoreCase must be true/false/t/f"
    | Some b => inr (with_ignore_case selector b)
    end
  else if key_is_range_bound key then
    if date then set_date_bound selector (SlotBound (bound_of_key key)) decoded
    else set_range_bound selector key decoded
  else inr selector.

(** One round of the loop of [parse_key_values]. *)
Definition key_value_round (kind : lql_selector_kind) (item : bytes)
    (state : lql_selector * seen_values) : failure + (lql_selector * seen_values) :=
  let '(selector, seen) := state in
  let '(before, eq) := span (fun c => negb (c =? ch_eq)) item in
  match eq with
  | [] => parse_error "selector predicate requires key=value"
  | _ :: val =>
      let key := trim before in
      let value_had_leading_space := isspace (at_ val 0) in
      if negb (key_allowed_for_kind kind key) then parse_error "selector operator does not support key"
      else
        let raw_value := trim val in
        if bool_decide (kind = LQL_SELECTOR_KIND_IN) && key_is_any key && value_had_leading_space &&
           negb (bool_decide (raw_value = [])) then
          parse_error "selector any values must not have surrounding whitespace"
        else
          match slot_of_key kind key with
          | None => parse_error "selector operator does not support key"
          | Some slot =>
              match seen_get seen slot with
              | Some old =>
                  if bytes_eqb old raw_value then inr (selector, seen)
                  else parse_error "selector expression has duplicate key"
              | None =>
                  match apply_key kind key raw_value (unquote raw_value) selector with
                  | inl e => inl e
                  | inr selector => inr (selector, (slot, raw_value) :: seen)
                  end
              end
          end
  end.

Fixpoint key_values_loop (kind : lql_selector_kind) (items : list bytes)
    (state : lql_selector * seen_values) : failure + (lql_selector * seen_values) :=
  match items with
  | [] => inr state
  | item :: items =>
      match key_value_round kind item state with
      | inl e => inl e
      | inr state => key_values_loop kind items state
      end
  end.

Definition is_some {A} (o : option A) : bool := match o with Some _ => true | None => false end.

Definition any_number_bound (s : lql_selector) : bool :=
  b_gt (has_range s) || b_gte (has_range s) || b_lt (has_range s) || b_lte (has_range s).

Definition any_temporal_bound (s : lql_selector) : bool :=
  is_some (b_gt (temporal s)) || is_some (b_gte (temporal s)) || is_some (b_lt (temporal s)) ||
  is_some (b_lte (temporal s)).

(** The checks after the loop, in their order. *)
Definition key_values_check (kind : lql_selector_kind) (selector : lql_selector) (seen : seen_values)
    : failure + lql_selector :=
  let isk k := bool_decide (kind = k) in
  if negb (is_some (field selector)) then parse_error "selector field required"
  else if isk LQL_SELECTOR_KIND_DATE && seen_set seen SeenSince &&
          existsb (seen_set seen)
            [SeenValue; SeenAfter; SeenBefore; SeenGt; SeenGte; SeenLt; SeenLte] then
    parse_error "date selector since cannot be combined with other bounds"
  else if isk LQL_SELECTOR_KIND_DATE && seen_set seen SeenAfter && seen_set seen SeenGt then
    parse_error "date selector cannot combine after and gt"
  else if isk LQL_SELECTOR_KIND_DATE && seen_set seen SeenBefore && seen_set seen SeenLt then
    parse_error "date selector cannot combine before and lt"
  else if negb (bool_decide (any selector = [])) &&
          negb (isk LQL_SELECTOR_KIND_CONTAINS || isk LQL_SELECTOR_KIND_ICONTAINS || isk LQL_SELECTOR_KIND_IN) then
    parse_error "selector operator does not support any"
  else if negb (bool_decide (any selector = [])) && negb (isk LQL_SELECTOR_KIND_IN) &&
          (value_set selector || is_some (value selector)) then
    parse_error "selector cannot set both value and any"
  else if isk LQL_SELECTOR_KIND_IN && bool_decide (any selector = []) then
    parse_error "in selector requires any values"
  else if isk LQL_SELECTOR_KIND_RANGE && negb (any_number_bound selector) &&
          negb (any_temporal_bound selector) then
    parse_error "range selector requires at least one bound"
  else if isk LQL_SELECTOR_KIND_RANGE && any_number_bound selector && any_temporal_bound selector then
    parse_error "range selector cannot mix numeric and datetime bounds"
  else if isk LQL_SELECTOR_KIND_DATE && negb (has_temporal_eq selector) &&
          negb (any_temporal_bound selector) && bool_decide (since_macro selector = LQL_SINCE_NONE) then
    parse_error "date selector requires at least one bound"
  else inr (prepare_selector_value_temporal selector).

Definition parse_key_values (body : bytes) (kind : lql_selector_kind) : failure + lql_selector :=
  match split_assignments body with
  | inl e => inl e
  | inr parts =>
      match key_values_loop kind parts (selector_zero kind, []) with
      | inl e => inl e
      | inr (selector, seen) => key_values_check kind selector seen
      end
  end.

(** ** Predicates *)

Definition string_predicate_is_match_all_alias (kind : lql_selector_kind) (selector : lql_selector) : bool :=
  let textual := selector_kind_uses_textual_needles kind in
  let contains := bool_decide (kind = LQL_SELECTOR_KIND_CONTAINS) ||
                  bool_decide (kind = LQL_SELECTOR_KIND_ICONTAINS) in
  if negb textual then false
  else
    match field selector, any selector with
    | Some f, [] =>
        let empty_value :=
          (negb (value_set selector) && negb (is_some (value selector))) ||
          (value_set selector && bool_decide (value selector = Some [])) in
        if negb empty_value then false
        else if bytes_eqb f (bs "/") then true
        else contains && (bytes_eqb f (bs "/*") || bytes_eqb f (bs "/..."))
    | _, _ => false
    end.

Definition parse_exists_body (body : bytes) : failure + lql_selector :=
  match split_top body with
  | inl e => inl e
  | inr [part] =>
      if existsb (Z.eqb ch_eq) part then parse_error "exists selector requires exactly one path"
      else
        match unquote part with
        | [] => parse_error "exists selector requires exactly one path"
        | c :: decoded =>
            if negb (c =? ch_slash) then parse_error "selector field must be a JSON pointer"
            else
              match normalize_field_path (c :: decoded) with
              | None => inl (LQL_STATUS_NO_MEMORY, "")
              | Some normalized => inr (with_field (selector_zero LQL_SELECTOR_KIND_EXISTS) (Some normalized))
              end
        end
  | inr _ => parse_error "exists selector requires exactly one path"
  end.

(** The shorthand [field op value]: [before] is the text before the operator,
    [op] the text from it on. *)
Definition parse_shorthand (before op : bytes) : failure + lql_selector :=
  let op0 := at_ op 0 in
  let op2 := (at_ op 1 =? ch_eq) || (op0 =? ch_bang) in
  let raw_field := trim before in
  let raw_value := trim (drop (if op2 then 2 else 1)%nat op) in
  match normalize_field_path raw_field with
  | None => inl (LQL_STATUS_NO_MEMORY, "")
  | Some f =>
      let v := unquote raw_value in
      let quoted := is_quote (at_ raw_value 0) in
      let out := with_field (selector_zero LQL_SELECTOR_KIND_ALL) (Some f) in
      let out := with_value_is_string out quoted in
      let out := with_value out (Some v) true
                   (if quoted then LQL_SELECTOR_LITERAL_STRING else selector_literal_kind v) in
      if op0 =? ch_bang then
        inr (prepare_selector_value_temporal (with_kind out LQL_SELECTOR_KIND_NE))
      else if (op0 =? ch_gt) || (op0 =? ch_lt) then
        let bound_key :=
          if op0 =? ch_gt then (if op2 then "gte"%string else "gt"%string)
          else (if op2 then "lte"%string else "lt"%string) in
        match set_range_bound out (bs bound_key) v with
        | inl e => inl e
        | inr out => inr (with_kind out LQL_SELECTOR_KIND_RANGE)
        end
      else inr (prepare_selector_value_temporal (with_kind out LQL_SELECTOR_KIND_EQ))
  end.

(** [strchr(copy, '{')] and [strrchr(body, '}')] when that brace ends the text:
    the name and the body. *)
Definition braced (copy : bytes) : option (bytes * bytes) :=
  match span (fun c => negb (c =? ch_lbrace)) copy with
  | (name, _ :: body) =>
      match rev body with
      | d :: r => if d =? ch_rbrace then Some (name, rev r) else None
      | [] => None
      end
  | _ => None
  end.

Definition parse_braced (name body : bytes) : failure + lql_selector :=
  match kind_from_name name with
  | LQL_SELECTOR_KIND_ALL => parse_error "unknown selector operator"
  | LQL_SELECTOR_KIND_EXISTS => parse_exists_body body
  | k =>
      match parse_key_values body k with
      | inl e => inl e
      | inr out =>
          if string_predicate_is_match_all_alias (kind out) out
          then inr (selector_zero LQL_SELECTOR_KIND_ALL) else inr out
      end
  end.

(** [and.], [or.] and [not.] prefixes: the kind and the text after. *)
Definition parse_simple_wrapper (token : bytes) : option (lql_selector_kind * bytes) :=
  if has_prefix (bs "and.") token then Some (LQL_SELECTOR_KIND_AND, drop 4 token)
  else if has_prefix (bs "or.") token then Some (LQL_SELECTOR_KIND_OR, drop 3 token)
  else if has_prefix (bs "not.") token then Some (LQL_SELECTOR_KIND_NOT, drop 4 token)
  else None.

(** [parse_one]; a wrapper recurses on a shorter text. *)
Fixpoint parse_one (fuel : nat) (expr : bytes) : option (failure + lql_selector) :=
  if bytes_eqb expr (bs "/") || bytes_eqb expr (bs ".") || bytes_eqb expr (bs "{}") then
    Some (inr (selector_zero LQL_SELECTOR_KIND_ALL))
  else
    match parse_simple_wrapper expr with
    | Some (wrapper, rest) =>
        match fuel with
        | O => None
        | S fuel =>
            match parse_one fuel rest with
            | None => None
            | Some (inl e) => Some (inl e)
            | Some (inr child) => Some (inr (with_children (selector_zero wrapper) [child]))
            end
        end
    | None =>
        match (if at_ expr 0 =? ch_slash then find_shorthand_operator expr else None) with
        | Some (before, op) => Some (parse_shorthand before op)
        | None =>
            match braced expr with
            | Some (name, body) => Some (parse_braced name body)
            | None => Some (parse_error "invalid selector expression")
            end
        end
    end.

(** ** Indexed groups *)

Definition selector_is_predicate (selector : lql_selector) : bool :=
  match kind selector with
  | LQL_SELECTOR_KIND_ALL | LQL_SELECTOR_KIND_AND | LQL_SELECTOR_KIND_OR | LQL_SELECTOR_KIND_NOT => false
  | _ => true
  end.

Definition append_selector (parent child : lql_selector) : lql_selector :=
  with_children parent (children parent ++ [child]).

Inductive indexed_group := mk_group {
  indexed : bool;
  wrapper : lql_selector_kind;
  index : bytes;
  selector : lql_selector;
  or_group : lql_selector;
  groups : list indexed_group
}.

Definition group_zero : indexed_group :=
  mk_group false LQL_SELECTOR_KIND_ALL [] (selector_zero LQL_SELECTOR_KIND_ALL)
    (selector_zero LQL_SELECTOR_KIND_ALL) [].

Definition with_selector (g : indexed_group) (s : lql_selector) : indexed_group :=
  mk_group (indexed g) (wrapper g) (index g) s (or_group g) (groups g).
Definition with_or_group (g : indexed_group) (s : lql_selector) : indexed_group :=
  mk_group (indexed g) (wrapper g) (index g) (selector g) s (groups g).
Definition with_groups (g : indexed_group) (l : list indexed_group) : indexed_group :=
  mk_group (indexed g) (wrapper g) (index g) (selector g) (or_group g) l.

(** [and.<digits>.] and [or.<digits>.]: the kind, the index and the text after. *)
Definition parse_indexed_wrapper (token : bytes) : option (lql_selector_kind * bytes * bytes) :=
  match
    (if has_prefix (bs "and.") token then Some (LQL_SELECTOR_KIND_AND, drop 4 token)
     else if has_prefix (bs "or.") token then Some (LQL_SELECTOR_KIND_OR, drop 3 token)
     else None)
  with
  | None => None
  | Some (wrapper, p) =>
      match span is_digit p with
      | (idx, c :: rest) =>
          if negb (bool_decide (idx = [])) && (c =? ch_dot) then Some (wrapper, idx, rest) else None
      | _ => None
      end
  end.

Definition same_group (wrapper' : lql_selector_kind) (index' : bytes) (g : indexed_group) : bool :=
  bool_decide (wrapper g = wrapper') && bytes_eqb (index g) index'.

(** [find_indexed_group], as the position of the group. *)
Fixpoint find_indexed_group (gs : list indexed_group) (wrapper' : lql_selector_kind) (index' : bytes)
    : option nat :=
  match gs with
  | [] => None
  | g :: gs =>
      if same_group wrapper' index' g then Some 0%nat
      else S <$> find_indexed_group gs wrapper' index'
  end.

(** The groups with the one asked for, and its position. *)
Definition ensure_indexed_group (gs : list indexed_group) (wrapper' : lql_selector_kind) (index' : bytes)
    : list indexed_group * nat :=
  match find_indexed_group gs wrapper' index' with
  | Some i => (gs, i)
  | None =>
      (gs ++ [mk_group true wrapper' index' (selector_zero LQL_SELECTOR_KIND_AND)
                (selector_zero LQL_SELECTOR_KIND_ALL) []], length gs)
  end.

Definition selector_conflicts_with_child (s child : lql_selector) : bool :=
  if negb (selector_is_predicate child) && negb (bool_decide (kind child = LQL_SELECTOR_KIND_NOT))
  then false
  else existsb (fun current => bool_decide (kind current = kind child)) (children s).

Definition conflicting_clauses {A} : failure + A :=
  parse_error "selector expression has conflicting indexed clauses".

Definition append_plain_group_node (group : indexed_group) (child : lql_selector)
    : failure + indexed_group :=
  match (if bool_decide (kind child = LQL_SELECTOR_KIND_OR) then children child else []) with
  | [only] =>
      let org := or_group group in
      let org := if bool_decide (kind org = LQL_SELECTOR_KIND_ALL)
                 then with_kind org LQL_SELECTOR_KIND_OR else org in
      if indexed group && selector_conflicts_with_child org only then conflicting_clauses
      else inr (with_or_group group (append_selector org only))
  | _ =>
      if indexed group && selector_conflicts_with_child (selector group) child then conflicting_clauses
      else inr (with_selector group (append_selector (selector group) child))
  end.

Definition append_finalized_indexed_selector (parent child : lql_selector) : lql_selector :=
  match (if bool_decide (kind child = LQL_SELECTOR_KIND_AND) then children child else []) with
  | [only] => append_selector parent only
  | _ => append_selector parent child
  end.

(** Where a finalized subgroup goes: the OR group, or the selector. *)
Definition attach_subgroup (root_or_mode : bool) (group : indexed_group) (sub : indexed_group)
    : indexed_group :=
  if negb root_or_mode && bool_decide (wrapper sub = LQL_SELECTOR_KIND_OR) then
    with_or_group group (append_finalized_indexed_selector (or_group group) (selector sub))
  else if negb (indexed group) && bool_decide (wrapper sub = LQL_SELECTOR_KIND_AND) then
    with_selector group (append_finalized_indexed_selector (selector group) (selector sub))
  else with_selector group (append_selector (selector group) (selector sub)).

Fixpoint finalize_indexed_group (group : indexed_group) (root_or_mode : bool) : indexed_group :=
  let org := or_group group in
  let group1 :=
    if bool_decide (kind org = LQL_SELECTOR_KIND_ALL)
    then with_or_group group (with_kind org LQL_SELECTOR_KIND_OR) else group in
  let subs := map (fun g => finalize_indexed_group g false) (groups group) in
  let group2 := fold_left (attach_subgroup root_or_mode) subs group1 in
  let group3 :=
    if negb (bool_decide (children (or_group group2) = [])) then
      if negb (indexed group2) && bool_decide (kind (selector group2) = LQL_SELECTOR_KIND_AND) &&
         bool_decide (children (selector group2) = []) then
        mk_group (indexed group2) (wrapper group2) (index group2) (or_group group2)
          (selector_zero LQL_SELECTOR_KIND_ALL) (groups group2)
      else with_selector group2 (append_selector (selector group2) (or_group group2))
    else group2 in
  with_groups group3 [].

(** [append_token_to_group]; every recursion is on a shorter text. *)
Fixpoint append_token_to_group (fuel : nat) (group : indexed_group) (token : bytes)
    : option (failure + indexed_group) :=
  match parse_indexed_wrapper token with
  | Some (wrapper', index', rest) =>
      match fuel with
      | O => None
      | S fuel =>
          let '(gs, i) := ensure_indexed_group (groups group) wrapper' index' in
          match gs !! i with
          | None => None
          | Some child_group =>
              match append_token_to_group fuel child_group rest with
              | None => None
              | Some (inl e) => Some (inl e)
              | Some (inr child_group) => Some (inr (with_groups group (<[i := child_group]> gs)))
              end
          end
      end
  | None =>
      match parse_simple_wrapper token with
      | Some (wrapper', rest) =>
          match fuel with
          | O => None
          | S fuel =>
              match append_token_to_group fuel (with_selector group_zero (selector_zero wrapper')) rest with
              | None => None
              | Some (inl e) => Some (inl e)
              | Some (inr wrapped) =>
                  let wrapped := finalize_indexed_group wrapped
                                   (bool_decide (wrapper' = LQL_SELECTOR_KIND_OR)) in
                  Some (append_plain_group_node group (selector wrapped))
              end
          end
      | None =>
          match parse_one (length token) token with
          | None => None
          | Some (inl e) => Some (inl e)
          | Some (inr child) => Some (append_plain_group_node group child)
          end
      end
  end.

Fixpoint append_tokens (group : indexed_group) (tokens : list bytes) : option (failure + indexed_group) :=
  match tokens with
  | [] => Some (inr group)
  | token :: tokens =>
      match append_token_to_group (length token) group token with
      | Some (inr group) => append_tokens group tokens
      | r => r
      end
  end.

Definition parse_group_tokens (tokens : list bytes) (or_mode : bool) : option (failure + lql_selector) :=
  let group := with_selector group_zero
    (selector_zero (if or_mode then LQL_SELECTOR_KIND_OR else LQL_SELECTOR_KIND_AND)) in
  match append_tokens group tokens with
  | None => None
  | Some (inl e) => Some (inl e)
  | Some (inr group) => Some (inr (selector (finalize_indexed_group group or_mode)))
  end.

(** [token_contains_indexed_wrapper]; the recursion is on a shorter text. *)
Fixpoint token_contains_indexed_wrapper (fuel : nat) (token : bytes) : option bool :=
  match parse_indexed_wrapper token with
  | Some _ => Some true
  | None =>
      match parse_simple_wrapper token with
      | Some (_, rest) =>
          match fuel with
          | O => None
          | S fuel => token_contains_indexed_wrapper fuel rest
          end
      | None => Some false
      end
  end.

(** [lql_parse_selector_internal]; [expr] is [None] for NULL. *)
Definition lql_parse_selector_internal (receiver : bool) (expr : option bytes) (or_mode out_given : bool)
    : option (failure + lql_selector) :=
  if negb out_given then Some (inl (LQL_STATUS_INVALID_ARGUMENT, "out selector required"%string))
  else if negb receiver then
    Some (inl (LQL_STATUS_INVALID_ARGUMENT, "selector parser receiver required"%string))
  else
    match expr with
    | None | Some [] => Some (inr (selector_zero LQL_SELECTOR_KIND_ALL))
    | Some expr =>
        match split_top expr with
        | inl e => Some (inl e)
        | inr [] => Some (inr (selector_zero LQL_SELECTOR_KIND_ALL))
        | inr ([token] as tokens) =>
            match parse_indexed_wrapper token with
            | Some _ => parse_group_tokens tokens or_mode
            | None =>
                match token_contains_indexed_wrapper (length token) token with
                | None => None
                | Some false => parse_one (length token) token
                | Some true => parse_group_tokens tokens or_mode
                end
            end
        | inr tokens => parse_group_tokens tokens or_mode
        end
    end.
