(* ===== verification/SelectorParseProps.v ===== *)
(** * The selector text parser returns well-formed trees

    Termination of the parser, and the invariant of the trees it builds: what
    each kind of node carries, the consistency of bounds with their texts, and
    the shape the cursors and the JSON writer rely on. *)

From S2P Require Import Prelude.
From S2P Require Import Number.
From S2P Require Import Temporal.
From S2P Require Import Errors.
From S2P Require Import Selector.
From S2P Require Import Cursor.
From S2P Require Import CursorProps.
From S2P Require Import SelectorLex.
From S2P Require Import SelectorLexProps.
From S2P Require Import SelectorParse.

(** ** Termination *)

Lemma has_prefix_length p s : has_prefix p s = true -> (length p <= length s)%nat.
Proof. intros [t ->]%has_prefix_spec. rewrite length_app. lia. Qed.

Lemma simple_wrapper_shorter t k r :
  parse_simple_wrapper t = Some (k, r) -> (length r < length t)%nat /\
  (k = LQL_SELECTOR_KIND_AND \/ k = LQL_SELECTOR_KIND_OR \/ k = LQL_SELECTOR_KIND_NOT).
Proof.
  unfold parse_simple_wrapper.
  destruct (has_prefix (bs "and.") t) eqn:E1; [apply has_prefix_length in E1; intros [= <- <-]|
    destruct (has_prefix (bs "or.") t) eqn:E2; [apply has_prefix_length in E2; intros [= <- <-]|
      destruct (has_prefix (bs "not.") t) eqn:E3; [apply has_prefix_length in E3; intros [= <- <-]|done]]].
  all: rewrite length_drop; cbn [length bs map String.list_ascii_of_string] in *; split; [lia|auto].
Qed.

Lemma indexed_wrapper_shorter t k i r :
  parse_indexed_wrapper t = Some (k, i, r) -> (length r < length t)%nat /\
  (k = LQL_SELECTOR_KIND_AND \/ k = LQL_SELECTOR_KIND_OR).
Proof.
  unfold parse_indexed_wrapper. intros H.
  assert (exists n, (k = LQL_SELECTOR_KIND_AND \/ k = LQL_SELECTOR_KIND_OR) /\
    match span is_digit (drop n t) with
    | (idx, c :: rest) => if negb (bool_decide (idx = [])) && (c =? ch_dot) then Some (k, idx, rest) else None
    | _ => None
    end = Some (k, i, r)) as (n & Hk & Hs).
  { destruct (has_prefix (bs "and.") t); [exists 4%nat|destruct (has_prefix (bs "or.") t); [exists 3%nat|done]].
    all: destruct (span is_digit (drop _ t)) as [idx [|c rest]]; try done.
    all: destruct (negb _ && _); [|done]; injection H as <- <- <-; auto. }
  split; [|done]. destruct (span is_digit (drop n t)) as [idx [|c rest]] eqn:Es; [done|].
  destruct (negb _ && _); [|done]. injection Hs as <- <-. apply span_app in Es.
  apply (f_equal length) in Es. rewrite length_drop, length_app in Es. cbn [length] in Es. lia.
Qed.

Lemma parse_one_total fuel expr : (length expr <= fuel)%nat -> is_Some (parse_one fuel expr).
Proof.
  revert expr. induction fuel as [|fuel IH]; intros expr Hf; cbn [parse_one]; case_if; try by eexists.
  all: destruct (parse_simple_wrapper expr) as [[k r]|] eqn:Ew.
  - apply simple_wrapper_shorter in Ew as [Hl _]. lia.
  - destruct (if _ : bool then _ else _) as [[? ?]|]; [by eexists|]. destruct (braced expr) as [[? ?]|]; by eexists.
  - apply simple_wrapper_shorter in Ew as [Hl _]. destruct (IH r ltac:(lia)) as [[e|c] ->]; by eexists.
  - destruct (if _ : bool then _ else _) as [[? ?]|]; [by eexists|]. destruct (braced expr) as [[? ?]|]; by eexists.
Qed.

Lemma contains_indexed_total fuel t :
  (length t <= fuel)%nat -> is_Some (token_contains_indexed_wrapper fuel t).
Proof.
  revert t. induction fuel as [|fuel IH]; intros t Hf; cbn [token_contains_indexed_wrapper];
    (destruct (parse_indexed_wrapper t); [by eexists|]);
    destruct (parse_simple_wrapper t) as [[k r]|] eqn:Ew; try by eexists.
  all: apply simple_wrapper_shorter in Ew as [Hl _].
  - lia.
  - apply IH. lia.
Qed.

Lemma find_group_lookup gs k i n : find_indexed_group gs k i = Some n -> is_Some (gs !! n).
Proof.
  revert n. induction gs as [|g gs IH]; intros n; cbn [find_indexed_group]; [done|].
  destruct (same_group k i g); [intros [= <-]; by eexists|].
  destruct (find_indexed_group gs k i) as [m|]; [|done]. intros [= <-]. by apply IH.
Qed.

Lemma ensure_group_lookup gs k i gs' n : ensure_indexed_group gs k i = (gs', n) -> is_Some (gs' !! n).
Proof.
  unfold ensure_indexed_group. destruct (find_indexed_group gs k i) as [m|] eqn:E.
  - intros [= <- <-]. by eapply find_group_lookup.
  - intros [= <- <-]. rewrite lookup_app_r, Nat.sub_diag by done. by eexists.
Qed.

Lemma append_token_total fuel g t : (length t <= fuel)%nat -> is_Some (append_token_to_group fuel g t).
Proof.
  revert g t. induction fuel as [|fuel IH]; intros g t Hf; cbn [append_token_to_group].
  all: destruct (parse_indexed_wrapper t) as [[[k i] r]|] eqn:Ei;
    [apply indexed_wrapper_shorter in Ei as [Hl _]; try lia|].
  all: try (destruct (parse_simple_wrapper t) as [[k r]|] eqn:Ew;
    [apply simple_wrapper_shorter in Ew as [Hl _]; try lia|];
    try (destruct (parse_one_total (length t) t (le_n _)) as [[e|c] ->]; by eexists)).
  - destruct (ensure_indexed_group (groups g) k i) as [gs n] eqn:Ee.
    destruct (ensure_group_lookup _ _ _ _ _ Ee) as [cg ->].
    destruct (IH cg r ltac:(lia)) as [[e|c] ->]; by eexists.
  - destruct (IH (with_selector group_zero (selector_zero k)) r ltac:(lia)) as [[e|c] ->]; by eexists.
Qed.

Lemma append_tokens_total ts g : is_Some (append_tokens g ts).
Proof.
  revert g. induction ts as [|t ts IH]; intros g; cbn [append_tokens]; [by eexists|].
  destruct (append_token_total (length t) g t (le_n _)) as [[e|g'] ->]; [by eexists|apply IH].
Qed.

Lemma parse_group_total ts m : is_Some (parse_group_tokens ts m).
Proof.
  unfold parse_group_tokens. match goal with |- context [append_tokens ?g ts] =>
    destruct (append_tokens_total ts g) as [[e|g'] ->] end; by eexists.
Qed.

(** ** Well-formed nodes *)

Definition path_field (s : lql_selector) : Prop := exists f, field s = Some f /\ at_ f 0 = ch_slash.

(** A literal's kind is the one its text has, unless it is a string. *)
Definition literal_ok (text : bytes) (k : lql_selector_literal_kind) : Prop :=
  k = LQL_SELECTOR_LITERAL_STRING \/ selector_literal_kind text = k.

Definition any_value_ok (v : any_value) : Prop :=
  any_text v <> [] /\ trimmed (any_text v) /\ literal_ok (any_text v) (any_kind v).

Definition value_ok (s : lql_selector) : Prop :=
  match value s with
  | Some v => value_set s = true /\ literal_ok v (value_kind s)
  | None => value_set s = false
  end.

(** A bound is absent, or an instant with the trimmed text it was read from, or a
    number with a JSON number as its text. *)
Definition range_bound_ok (text : option bytes) (t : option lql_temporal) (num : bool) : Prop :=
  match text with
  | None => t = None /\ num = false
  | Some x =>
      trimmed x /\
      ((exists u, lql_parse_temporal_literal x = Some u /\ t = Some u /\ num = false) \/
      (lql_number_is_json x = true /\ t = None /\ num = true))
  end.

Definition ranges_ok (s : lql_selector) : Prop :=
  forall k, range_bound_ok (bound k (range_text s)) (bound k (temporal s)) (bound k (has_range s)).

(** Every date text but a [since] macro is a date or timestamp. *)
Definition dates_ok (s : lql_selector) : Prop :=
  (forall x, date_value_text s = Some x -> is_Some (lql_parse_temporal_literal x)) /\
  (forall x, date_after_text s = Some x -> is_Some (lql_parse_temporal_literal x)) /\
  (forall x, date_before_text s = Some x -> is_Some (lql_parse_temporal_literal x)) /\
  (forall k x, bound k (date_text s) = Some x -> is_Some (lql_parse_temporal_literal x)) /\
  (forall x, date_since_text s = Some x ->
     since_macro_of x = Some (since_macro s) \/
     (since_macro s = LQL_SINCE_NONE /\ is_Some (lql_parse_temporal_literal x))).

(** The texts other than [since]. *)
Definition other_dates (s : lql_selector) : list (option bytes) :=
  [date_value_text s; date_after_text s; date_before_text s; b_gt (date_text s); b_gte (date_text s);
   b_lt (date_text s); b_lte (date_text s)].

(** [since] stands alone, and a bound is not given under both of its names. *)
Definition dates_exclusive (s : lql_selector) : Prop :=
  (date_since_text s = None \/ Forall (fun t => t = None) (other_dates s)) /\
  (date_after_text s = None \/ b_gt (date_text s) = None) /\
  (date_before_text s = None \/ b_lt (date_text s) = None).

Definition date_given (s : lql_selector) : Prop :=
  is_Some (date_since_text s) \/ Exists (fun t => is_Some t) (other_dates s).

(** A compound written with braces ([and{field=/a}]) has a path and no child. *)
Definition bare_compound (s : lql_selector) : Prop := children s = [] /\ path_field s.

Definition node_ok (s : lql_selector) : Prop :=
  match kind s with
  | LQL_SELECTOR_KIND_ALL => s = selector_zero LQL_SELECTOR_KIND_ALL
  | LQL_SELECTOR_KIND_AND | LQL_SELECTOR_KIND_OR =>
      (field s = None /\ children s <> []) \/ bare_compound s
  | LQL_SELECTOR_KIND_NOT => (field s = None /\ length (children s) = 1%nat) \/ bare_compound s
  | LQL_SELECTOR_KIND_EQ | LQL_SELECTOR_KIND_NE =>
      children s = [] /\ path_field s /\ value_ok s /\ any s = [] /\ ignore_case s = false
  | LQL_SELECTOR_KIND_CONTAINS | LQL_SELECTOR_KIND_ICONTAINS =>
      children s = [] /\ path_field s /\ value_ok s /\ Forall any_value_ok (any s) /\
      (any s = [] \/ value s = None) /\ value_kind s = LQL_SELECTOR_LITERAL_STRING /\
      Forall (fun v => any_kind v = LQL_SELECTOR_LITERAL_STRING) (any s) /\
      string_predicate_is_match_all_alias (kind s) s = false
  | LQL_SELECTOR_KIND_PREFIX | LQL_SELECTOR_KIND_IPREFIX =>
      children s = [] /\ path_field s /\ value_ok s /\ any s = [] /\
      value_kind s = LQL_SELECTOR_LITERAL_STRING /\
      string_predicate_is_match_all_alias (kind s) s = false
  | LQL_SELECTOR_KIND_RANGE =>
      children s = [] /\ path_field s /\ ranges_ok s /\
      any_number_bound s = negb (any_temporal_bound s)
  | LQL_SELECTOR_KIND_DATE =>
      children s = [] /\ path_field s /\ dates_ok s /\
      (has_temporal_eq s = true \/ any_temporal_bound s = true \/ since_macro s <> LQL_SINCE_NONE) /\
      dates_exclusive s /\ date_given s
  | LQL_SELECTOR_KIND_IN =>
      children s = [] /\ path_field s /\ any s <> [] /\ Forall any_value_ok (any s)
  | LQL_SELECTOR_KIND_EXISTS => children s = [] /\ path_field s
  end.

Inductive tree_ok : lql_selector -> Prop :=
  | tree_ok_node s : node_ok s -> Forall tree_ok (children s) -> tree_ok s.

Lemma tree_ok_shape s : tree_ok s -> tree_shape s.
Proof.
  induction s as [s IH] using selector_ind'. intros H. inversion H as [? Hn HC]; subst. constructor.
  - unfold node_ok in Hn. unfold node_shape. destruct (kind s); try tauto. by rewrite Hn.
  - clear Hn H. induction HC as [|c l Hc _ IHl]; [constructor|]. inversion_clear IH as [|? ? H1 H2].
    constructor; [by apply H1|by apply IHl].
Qed.

Lemma leaf_ok s : children s = [] -> node_ok s -> tree_ok s.
Proof. intros E H. constructor; [done|]. rewrite E. constructor. Qed.

(** ** Key-value bodies *)

Lemma quoted_not_number q t : is_quote q = true -> lql_number_is_json (q :: t) = false.
Proof.
  intros H. assert (q = ch_quote \/ q = ch_apos) as [-> | ->] by (unfold is_quote in H; lia); by vm_compute.
Qed.

Lemma quoted_is_string q t :
  is_quote q = true -> selector_literal_kind (q :: t) = LQL_SELECTOR_LITERAL_STRING.
Proof.
  intros H. unfold selector_literal_kind. rewrite (quoted_not_number q t H).
  assert (forall s : string, is_quote (at_ (bs s) 0) = false -> bytes_eqb (q :: t) (bs s) = false) as K.
  { intros s Hs. destruct (bytes_eqb (q :: t) (bs s)) eqn:E; [|done]. apply bytes_eqb_eq in E.
    rewrite <- E in Hs. cbn in Hs. congruence. }
  by rewrite !K.
Qed.

(** Unquoting keeps the literal kind: quoted text is a string. *)
Lemma literal_unquote raw : literal_ok (unquote raw) (selector_literal_kind raw).
Proof.
  unfold literal_ok. destruct (is_quote (at_ raw 0)) eqn:E; [left|right; by rewrite unquote_plain].
  destruct raw as [|q t]; [done|]. by apply quoted_is_string.
Qed.

Definition slot_of_bound (k : bound_key) : seen_slot :=
  match k with Gt => SeenGt | Gte => SeenGte | Lt => SeenLt | Lte => SeenLte end.

Lemma key_is_in key names : key_is key names = true -> exists n, In n names /\ key = bs n.
Proof.
  unfold key_is. rewrite existsb_exists. intros (n & Hn & E). apply bytes_eqb_eq in E. eauto.
Qed.

Lemma range_key_slot kind key :
  key_is_range_bound key = true -> slot_of_key kind key = Some (slot_of_bound (bound_of_key key)).
Proof.
  intros (n & Hn & ->)%key_is_in. cbn [In] in Hn.
  destruct Hn as [<-|[<-|[<-|[<-|[]]]]]; destruct kind; by vm_compute.
Qed.

Lemma seen_get_cons s raw seen s' :
  seen_get ((s, raw) :: seen) s' = if bool_decide (s = s') then Some raw else seen_get seen s'.
Proof. unfold seen_get. cbn [find]. by case_bool_decide. Qed.

#[export] Instance bound_key_eq_dec : EqDecision bound_key.
Proof. solve_decision. Defined.

Lemma bound_set {A} k k' (v : A) b :
  bound k' (set_bound k v b) = if decide (k = k') then v else bound k' b.
Proof. by destruct k, k'. Qed.


Definition slot_of_date (d : date_slot) : seen_slot :=
  match d with
  | SlotValue => SeenValue | SlotSince => SeenSince | SlotAfter => SeenAfter | SlotBefore => SeenBefore
  | SlotBound k => slot_of_bound k
  end.

(** The text a slot holds. *)
Definition date_slot_text (s : lql_selector) (d : date_slot) : option bytes :=
  match d with
  | SlotValue => date_value_text s | SlotSince => date_since_text s
  | SlotAfter => date_after_text s | SlotBefore => date_before_text s
  | SlotBound k => bound k (date_text s)
  end.

(** The loop invariant: the selector under construction against the slots set. *)
Record kv_inv (k : lql_selector_kind) (s : lql_selector) (seen : seen_values) : Prop := mk_kv_inv {
  inv_kind : kind s = k;
  inv_children : children s = [];
  inv_field : forall f, field s = Some f -> at_ f 0 = ch_slash;
  inv_value : value_ok s;
  inv_any : Forall any_value_ok (any s);
  inv_textual : selector_kind_uses_textual_needles k = true ->
    value_kind s = LQL_SELECTOR_LITERAL_STRING /\
    Forall (fun v => any_kind v = LQL_SELECTOR_LITERAL_STRING) (any s);
  inv_ranges : k <> LQL_SELECTOR_KIND_DATE -> ranges_ok s;
  inv_unset : k <> LQL_SELECTOR_KIND_DATE -> forall b, seen_get seen (slot_of_bound b) = None ->
    bound b (range_text s) = None;
  inv_dates : k = LQL_SELECTOR_KIND_DATE -> dates_ok s;
  inv_since : k = LQL_SELECTOR_KIND_DATE -> seen_get seen SeenSince = None ->
    date_since_text s = None /\ since_macro s = LQL_SINCE_NONE;
  inv_date_unset : k = LQL_SELECTOR_KIND_DATE -> forall d, seen_get seen (slot_of_date d) = None ->
    date_slot_text s d = None;
  inv_given : k = LQL_SELECTOR_KIND_DATE -> date_given s \/
    (has_temporal_eq s, temporal s, since_macro s) = (false, all_bounds None, LQL_SINCE_NONE);
  inv_ignore : ignore_case s = true -> selector_kind_uses_textual_needles k = true
}.

Lemma kv_inv_start k : kv_inv k (selector_zero k) [].
Proof.
  split; cbn; try done.
  - intros _ b. by destruct b.
  - intros _ b _. by destruct b.
  - intros _. split_and!; try done. by intros [].
  - intros _ d _. by destruct d as [| | | |[]].
  - intros _. by right.
Qed.

(** Changes of a selector that touch neither bounds nor dates. *)
Lemma kv_inv_plain k s s' seen slot raw :
  kv_inv k s seen -> kind s' = kind s -> children s' = children s ->
  (forall f, field s' = Some f -> at_ f 0 = ch_slash) -> value_ok s' -> Forall any_value_ok (any s') ->
  (selector_kind_uses_textual_needles k = true -> value_kind s' = LQL_SELECTOR_LITERAL_STRING /\
    Forall (fun v => any_kind v = LQL_SELECTOR_LITERAL_STRING) (any s')) ->
  (range_text s', temporal s', has_range s') = (range_text s, temporal s, has_range s) ->
  (date_value_text s', date_after_text s', date_before_text s', date_text s', date_since_text s',
    since_macro s', has_temporal_eq s') =
  (date_value_text s, date_after_text s, date_before_text s, date_text s, date_since_text s, since_macro s,
    has_temporal_eq s) ->
  (ignore_case s' = true -> selector_kind_uses_textual_needles k = true) ->
  kv_inv k s' ((slot, raw) :: seen).
Proof.
  intros [] Hk Hc Hf Hv Ha Ht [= H1 H2 H3] [= H4 H5 H6 H7 H8 H9 H10] Hi. split; try done; try congruence.
  - intros Hd b. rewrite H1, H2, H3. by apply inv_ranges0.
  - intros Hd b. rewrite H1, seen_get_cons. case_bool_decide; [done|]. by apply inv_unset0.
  - intros Hd. unfold dates_ok. rewrite H4, H5, H6, H7, H8, H9. by apply inv_dates0.
  - intros Hd. rewrite seen_get_cons, H8, H9. case_bool_decide; [done|]. by apply inv_since0.
  - intros Hd d. rewrite seen_get_cons. case_bool_decide; [done|]. intros Hn. rewrite <- (inv_date_unset0 Hd d Hn).
    destruct d; cbn [date_slot_text]; congruence.
  - intros Hd. unfold date_given, other_dates. rewrite H2, H4, H5, H6, H7, H8, H9, H10. by apply inv_given0.
Qed.

Lemma slot_given s d : is_Some (date_slot_text s d) -> date_given s.
Proof.
  intros H. unfold date_given, other_dates. rewrite !Exists_cons. destruct d as [| | | |[]]; cbn in H; tauto.
Qed.

#[export] Instance date_slot_eq_dec : EqDecision date_slot.
Proof. solve_decision. Defined.

(** Setting the text of a date slot. *)
Lemma kv_inv_date s s' seen d raw :
  kv_inv LQL_SELECTOR_KIND_DATE s seen -> kind s' = kind s -> children s' = children s ->
  field s' = field s ->
  (value s', value_set s', value_kind s', any s', ignore_case s') =
    (value s, value_set s, value_kind s, any s, ignore_case s) ->
  dates_ok s' -> (d = SlotSince \/ (date_since_text s', since_macro s') = (date_since_text s, since_macro s)) ->
  is_Some (date_slot_text s' d) -> (forall d', d' <> d -> date_slot_text s' d' = date_slot_text s d') ->
  kv_inv LQL_SELECTOR_KIND_DATE s' ((slot_of_date d, raw) :: seen).
Proof.
  intros [] Hk Hc Hf [= H1 H2 H3 H4 H5] Hd Hs Hg Hu. split; try done; try congruence.
  - intros f. rewrite Hf. apply inv_field0.
  - unfold value_ok. by rewrite H1, H2, H3.
  - intros _. rewrite seen_get_cons. case_bool_decide as E; [done|].
    destruct Hs as [-> |[= -> ->]]; [done|]. by apply inv_since0.
  - intros _ d'. rewrite seen_get_cons. case_bool_decide as E; [done|]. intros Hn.
    rewrite Hu by (by intros ->). by apply inv_date_unset0.
  - intros _. left. by eapply slot_given.
  - by rewrite H5.
Qed.

Lemma set_date_bound_ok s seen d raw text s' :
  kv_inv LQL_SELECTOR_KIND_DATE s seen -> seen_get seen (slot_of_date d) = None ->
  set_date_bound s d text = inr s' ->
  kv_inv LQL_SELECTOR_KIND_DATE s' ((slot_of_date d, raw) :: seen).
Proof.
  intros Hi Hn H. pose proof (inv_dates _ _ _ Hi eq_refl) as (D1 & D2 & D3 & D4 & D5).
  unfold set_date_bound in H. destruct d as [| | | |k].
  - destruct (lql_parse_temporal_literal text) as [t|] eqn:E; [|done]. injection H as <-.
    apply (kv_inv_date s); try done; try (by left); try (by right); try (by intros []).
    split_and!; cbn; eauto. intros x [= <-]. by rewrite E.
  - destruct (inv_since _ _ _ Hi eq_refl Hn) as [Hs1 Hs2].
    destruct (since_macro_of text) as [m|] eqn:Em.
    + injection H as <-. apply (kv_inv_date s); try done; try (by left); try (by right); try (by intros []).
      split_and!; cbn; eauto. intros x [= <-]. by left.
    + destruct (lql_parse_temporal_literal text) as [t|] eqn:E; [|done]. injection H as <-.
      apply (kv_inv_date s); try done; try (by left); try (by right); try (by intros []).
      split_and!; cbn; eauto. intros x [= <-]. right. by rewrite E.
  - destruct (lql_parse_temporal_literal text) as [t|] eqn:E; [|done]. injection H as <-.
    apply (kv_inv_date s); try done; try (by left); try (by right); try (by intros []).
    split_and!; cbn; eauto. intros x [= <-]. by rewrite E.
  - destruct (lql_parse_temporal_literal text) as [t|] eqn:E; [|done]. injection H as <-.
    apply (kv_inv_date s); try done; try (by left); try (by right); try (by intros []).
    split_and!; cbn; eauto. intros x [= <-]. by rewrite E.
  - destruct (lql_parse_temporal_literal text) as [t|] eqn:E; [|done]. injection H as <-.
    apply (kv_inv_date s); try done; try (by right).
    + split_and!; cbn; eauto. intros k' x. rewrite bound_set. case_decide; [|by apply D4]. intros [= <-]. by rewrite E.
    + cbn. rewrite bound_set, decide_True by done. by eexists.
    + intros [] Hne; try done. cbn. rewrite bound_set, decide_False by congruence. done.
Qed.

Lemma any_values_loop_ok pieces r textual acc vs :
  Forall any_value_ok acc ->
  (textual = true -> Forall (fun v => any_kind v = LQL_SELECTOR_LITERAL_STRING) acc) ->
  any_values_loop pieces r textual acc = inr vs ->
  Forall any_value_ok vs /\ (textual = true -> Forall (fun v => any_kind v = LQL_SELECTOR_LITERAL_STRING) vs).
Proof.
  revert acc. induction pieces as [|p pieces IH]; intros acc Ha Ht; cbn [any_values_loop]; [by intros [= <-]|].
  destruct (_ && _ && _); [done|]. apply IH.
  - destruct (trim p) as [|c t] eqn:E; [done|]. apply Forall_app. split; [done|]. constructor; [|constructor].
    split; [done|split].
    + rewrite <- E. apply trim_trimmed.
    + unfold literal_ok. cbn [any_text any_kind]. destruct textual; [by left|by right].
  - intros Hx. destruct (trim p) as [|c t]; [by apply Ht|]. apply Forall_app. split; [by apply Ht|].
    repeat constructor. by rewrite Hx.
Qed.

Lemma set_range_bound_ok k s seen slot raw key text s' :
  kv_inv k s seen -> k <> LQL_SELECTOR_KIND_DATE -> seen_get seen slot = None ->
  slot = slot_of_bound (bound_of_key key) -> set_range_bound s key text = inr s' ->
  kv_inv k s' ((slot, raw) :: seen).
Proof.
  intros Hi Hd Hn -> H. pose proof (inv_ranges _ _ _ Hi Hd) as HR. pose proof (inv_unset _ _ _ Hi Hd) as HU.
  set (b := bound_of_key key) in *. assert (Hb : bound b (range_text s) = None) by (by apply HU).
  pose proof (HR b) as Hrb. unfold range_bound_ok in Hrb. rewrite Hb in Hrb. destruct Hrb as [Hb1 Hb2]. pose proof (trim_trimmed text) as Htr.
  assert (exists t num isT, s' = with_range s b (trim text) t num isT /\
    range_bound_ok (Some (trim text)) t num) as (t & num & isT & -> & Hok).
  { unfold set_range_bound in H. destruct (lql_parse_temporal_literal (trim text)) as [u|] eqn:E.
    - injection H as <-. exists (Some u), false, true. split; [done|]. split; [done|]. left. eauto.
    - destruct (lql_number_is_json (trim text)) eqn:Ej; [|done]. injection H as <-.
      exists None, true, false. split; [done|]. split; [done|]. by right. }
  destruct Hi. split; try done.
  - intros _ k'. cbn [range_text temporal has_range with_range]. specialize (HR k').
    destruct (decide (b = k')) as [<-|Hne].
    + rewrite bound_set, decide_True by done. destruct t as [u|], num; cbn in Hok |- *;
        rewrite ?bound_set, ?decide_True, ?Hb1, ?Hb2 by done; done.
    + rewrite bound_set, decide_False by done.
      destruct t, num; rewrite ?bound_set, ?decide_False by done; done.
  - intros _ k'. cbn [range_text with_range]. rewrite seen_get_cons, bound_set.
    case_bool_decide as E; [done|]. rewrite decide_False by (by intros <-). by apply HU.
Qed.

(** Only kinds with textual needles have an [ignoreCase] key. *)
Lemma ignore_case_textual k key :
  key_is_ignore_case key = true -> key_allowed_for_kind k key = true -> selector_kind_uses_textual_needles k = true.
Proof.
  intros (n & Hn & ->)%key_is_in. cbn [In] in Hn.
  destruct Hn as [<-|[<-|[<-|[]]]]; by destruct k.
Qed.

(** A key that sets neither the path nor a date, in any kind of selector. *)
Lemma apply_plain_key_ok k key raw s seen slot s' :
  kv_inv k s seen -> key_allowed_for_kind k key = true -> slot_of_key k key = Some slot ->
  seen_get seen slot = None ->
  (if key_is_any key then
     parse_any_values (unquote raw) s (bool_decide (k = LQL_SELECTOR_KIND_IN))
       (selector_kind_uses_textual_needles k)
   else if key_is_ignore_case key then
     match parse_bool_value (unquote raw) with
     | None => parse_error "selector ignoreCase must be true/false/t/f"
     | Some b => inr (with_ignore_case s b)
     end
   else if key_is_range_bound key then
     if bool_decide (k = LQL_SELECTOR_KIND_DATE)
     then set_date_bound s (SlotBound (bound_of_key key)) (unquote raw)
     else set_range_bound s key (unquote raw)
   else inr s) = inr s' ->
  kv_inv k s' ((slot, raw) :: seen).
Proof.
  intros Hi Hal Hslot Hn H. destruct (key_is_any key).
  { unfold parse_any_values in H. destruct (any_values_loop _ _ _ _) as [e|[|v vs]] eqn:E; [done..|].
    injection H as <-. destruct Hi.
    apply any_values_loop_ok in E as [E1 E2]; [|done|by apply inv_textual0].
    apply (kv_inv_plain _ s); try done. intros Ht. split; [by apply inv_textual0|by apply E2]. }
  destruct (key_is_ignore_case key) eqn:Kic.
  { destruct (parse_bool_value (unquote raw)) as [b|]; [|done]. injection H as <-. destruct Hi.
    apply (kv_inv_plain _ s); try done. intros _. by eapply ignore_case_textual. }
  destruct (key_is_range_bound key) eqn:Kr.
  - pose proof (range_key_slot k key Kr) as Hs. rewrite Hslot in Hs. injection Hs as ->.
    case_bool_decide as Ed.
    + subst k. by apply (set_date_bound_ok s seen (SlotBound (bound_of_key key)) raw (unquote raw)).
    + by eapply set_range_bound_ok.
  - injection H as <-. destruct Hi. by apply (kv_inv_plain _ s).
Qed.

Lemma apply_key_ok k key raw s seen slot s' :
  kv_inv k s seen -> key_allowed_for_kind k key = true -> slot_of_key k key = Some slot ->
  seen_get seen slot = None -> apply_key k key raw (unquote raw) s = inr s' -> kv_inv k s' ((slot, raw) :: seen).
Proof.
  intros Hi Hal Hslot Hn H. unfold apply_key in H. cbv zeta in H.
  destruct (key_is_field key) eqn:Kf.
  { unfold set_field in H. destruct (unquote raw) as [|c d]; [done|].
    destruct (c =? ch_slash); [cbn [negb] in H|done].
    destruct (normalize_field_path (c :: d)) as [p|] eqn:Ep; [|done]. injection H as <-.
    apply normalize_slash in Ep. destruct Hi. apply (kv_inv_plain _ s); try done. intros f. cbn. by intros [= <-]. }
  destruct (bool_decide (k = LQL_SELECTOR_KIND_DATE)) eqn:Ed; cbn [andb] in H.
  - apply bool_decide_eq_true in Ed as Ek.
    assert (forall d, slot = slot_of_date d -> set_date_bound s d (unquote raw) = inr s' ->
      kv_inv k s' ((slot, raw) :: seen)) as Hdate.
    { intros d -> Hs. rewrite Ek in *. by eapply set_date_bound_ok. }
    pose proof Hslot as Hslot'. unfold slot_of_key in Hslot'. rewrite Kf, Ed in Hslot'. cbn [andb] in Hslot'.
    destruct (key_is_value key); [injection Hslot' as <-; by apply (Hdate SlotValue)|].
    destruct (key_is_after key); [injection Hslot' as <-; by apply (Hdate SlotAfter)|].
    destruct (key_is_before key); [injection Hslot' as <-; by apply (Hdate SlotBefore)|].
    destruct (key_is_since key); [injection Hslot' as <-; by apply (Hdate SlotSince)|].
    cbn [orb] in H. eapply apply_plain_key_ok; [done|done|done|done|]. by rewrite Ed.
  - destruct (key_is_value key).
    + destruct (_ && _ && selector_kind_uses_textual_needles k); injection H as <-; destruct Hi.
      * apply (kv_inv_plain _ s); try done. intros Ht. split; [done|by apply inv_textual0].
      * apply (kv_inv_plain _ s); try done.
        -- unfold value_ok. cbn [value with_value value_set value_kind]. split; [done|].
           destruct (selector_kind_uses_textual_needles k); [by left|apply literal_unquote].
        -- intros Ht. cbn [value_kind with_value any]. rewrite Ht. split; [done|by apply inv_textual0].
    + eapply apply_plain_key_ok; [done|done|done|done|]. by rewrite Ed.
Qed.

Lemma key_values_loop_ok k items s seen s' seen' :
  kv_inv k s seen -> key_values_loop k items (s, seen) = inr (s', seen') -> kv_inv k s' seen'.
Proof.
  revert s seen. induction items as [|item items IH]; intros s seen Hi; cbn [key_values_loop];
    [by intros [= <- <-]|].
  unfold key_value_round. destruct (span _ item) as [before [|e val]]; [done|].
  destruct (key_allowed_for_kind _ _) eqn:Eal; [cbn [negb]|done]. destruct (_ && _ && _ && _); [done|].
  destruct (slot_of_key k (trim before)) as [slot|] eqn:Es; [|done].
  destruct (seen_get seen slot) as [old|] eqn:Eg.
  - destruct (bytes_eqb _ _); [|done]. by apply IH.
  - destruct (apply_key _ _ _ _ _) as [e'|s1] eqn:Ea; [done|]. apply IH. by eapply apply_key_ok.
Qed.

Lemma prepare_value_temporal s : exists b t, prepare_selector_value_temporal s = with_value_temporal s b t.
Proof.
  unfold prepare_selector_value_temporal. cbv zeta.
  assert (forall r, r = with_value_temporal s false (temporal_eq s) ->
    exists b t, r = with_value_temporal s b t) as K by eauto.
  repeat first [ by eapply K | match goal with |- context [match ?x with _ => _ end] => destruct x end ];
    by eexists _, _.
Qed.

Lemma value_temporal_fields s :
  let s' := prepare_selector_value_temporal s in
  kind s' = kind s /\ children s' = children s /\ field s' = field s /\ value s' = value s /\
  value_set s' = value_set s /\ value_kind s' = value_kind s /\ any s' = any s /\
  range_text s' = range_text s /\ temporal s' = temporal s /\ has_range s' = has_range s /\
  date_value_text s' = date_value_text s /\ date_after_text s' = date_after_text s /\
  date_before_text s' = date_before_text s /\ date_text s' = date_text s /\
  date_since_text s' = date_since_text s /\ since_macro s' = since_macro s /\
  has_temporal_eq s' = has_temporal_eq s /\ ignore_case s' = ignore_case s.
Proof.
  cbv zeta. destruct (prepare_value_temporal s) as (b & t & ->). split_and!; reflexivity.
Qed.

(** The checks on the slots of a date selector make its texts exclusive. *)
Lemma dates_exclusive_checks s seen :
  kv_inv LQL_SELECTOR_KIND_DATE s seen ->
  seen_set seen SeenSince && existsb (seen_set seen)
    [SeenValue; SeenAfter; SeenBefore; SeenGt; SeenGte; SeenLt; SeenLte] = false ->
  seen_set seen SeenAfter && seen_set seen SeenGt = false ->
  seen_set seen SeenBefore && seen_set seen SeenLt = false -> dates_exclusive s.
Proof.
  intros Hi C1 C2 C3.
  assert (forall d, seen_set seen (slot_of_date d) = false -> date_slot_text s d = None) as K.
  { intros d Hd. apply (inv_date_unset _ _ _ Hi eq_refl). unfold seen_set in Hd.
    apply bool_decide_eq_false in Hd. by destruct (seen_get seen (slot_of_date d)); [destruct Hd; eexists|]. }
  split_and!.
  - apply andb_false_iff in C1 as [C|C]; [left; by apply (K SlotSince)|right].
    rewrite <- not_true_iff_false, existsb_exists in C.
    assert (forall d, In (slot_of_date d) [SeenValue; SeenAfter; SeenBefore; SeenGt; SeenGte; SeenLt; SeenLte] ->
      date_slot_text s d = None) as K2.
    { intros d Hd. apply K. apply not_true_iff_false. intros E. apply C. eauto. }
    unfold other_dates. repeat apply Forall_cons_2; try apply Forall_nil_2.
    + apply (K2 SlotValue). cbn; tauto.
    + apply (K2 SlotAfter). cbn; tauto.
    + apply (K2 SlotBefore). cbn; tauto.
    + apply (K2 (SlotBound Gt)). cbn; tauto.
    + apply (K2 (SlotBound Gte)). cbn; tauto.
    + apply (K2 (SlotBound Lt)). cbn; tauto.
    + apply (K2 (SlotBound Lte)). cbn; tauto.
  - apply andb_false_iff in C2 as [C|C]; [left; by apply (K SlotAfter)|right; by apply (K (SlotBound Gt))].
  - apply andb_false_iff in C3 as [C|C]; [left; by apply (K SlotBefore)|right; by apply (K (SlotBound Lt))].
Qed.

(** What the checks after the loop establish. *)
Lemma key_values_check_ok k s seen s' :
  kv_inv k s seen -> k <> LQL_SELECTOR_KIND_ALL -> k <> LQL_SELECTOR_KIND_EXISTS ->
  key_values_check k s seen = inr s' ->
  kind s' = k /\ (string_predicate_is_match_all_alias k s' = false -> tree_ok s').
Proof.
  intros Hi HA HE. unfold key_values_check. cbv zeta.
  destruct (field s) as [f|] eqn:Ef; cbn [is_some negb]; [|done].
  destruct (bool_decide (k = LQL_SELECTOR_KIND_DATE) && _ && existsb _ _) eqn:D1; [done|].
  destruct (bool_decide (k = LQL_SELECTOR_KIND_DATE) && _ && _) eqn:D2 in |- *; [done|].
  destruct (bool_decide (k = LQL_SELECTOR_KIND_DATE) && _ && _) eqn:D3 in |- *; [done|].
  assert (k = LQL_SELECTOR_KIND_DATE -> dates_exclusive s) as HX.
  { intros ->. by eapply dates_exclusive_checks. }
  clear D1 D2 D3.
  destruct (negb (bool_decide (any s = [])) && negb _) eqn:C1; [done|].
  destruct (negb (bool_decide (any s = [])) && negb (bool_decide (k = LQL_SELECTOR_KIND_IN)) && _) eqn:C2; [done|].
  destruct (bool_decide (k = LQL_SELECTOR_KIND_IN) && _) eqn:C3; [done|].
  destruct (bool_decide (k = LQL_SELECTOR_KIND_RANGE) && negb (any_number_bound s) && _) eqn:C4; [done|].
  destruct (bool_decide (k = LQL_SELECTOR_KIND_RANGE) && any_number_bound s && _) eqn:C5; [done|].
  destruct (bool_decide (k = LQL_SELECTOR_KIND_DATE) && _ && _ && _) eqn:C6; [done|]. intros [= <-].
  destruct (value_temporal_fields s) as
    (F1 & F2 & F3 & F4 & F5 & F6 & F7 & F8 & F9 & F10 & F11 & F12 & F13 & F14 & F15 & F16 & F17 & F18).
  set (s' := prepare_selector_value_temporal s) in *. clearbody s'. destruct Hi.
  assert (children s' = []) as Hc by congruence.
  assert (path_field s') as Hp by (exists f; split; [congruence|by apply inv_field0]).
  assert (value_ok s') as Hv by (unfold value_ok; by rewrite F4, F5, F6).
  split; [congruence|]. intros Hal.
  apply leaf_ok; [done|]. unfold node_ok. rewrite F1, inv_kind0.
  assert (k <> LQL_SELECTOR_KIND_CONTAINS -> k <> LQL_SELECTOR_KIND_ICONTAINS ->
    k <> LQL_SELECTOR_KIND_IN -> any s' = []) as Hany.
  { intros N1 N2 N3. rewrite F7. rewrite (bool_decide_eq_false_2 _ N1), (bool_decide_eq_false_2 _ N2),
      (bool_decide_eq_false_2 _ N3) in C1. destruct (any s); [done|]. by cbn in C1. }
  assert (k <> LQL_SELECTOR_KIND_IN -> any s' = [] \/ value s' = None) as Hone.
  { intros N. rewrite F7, F4. rewrite (bool_decide_eq_false_2 _ N) in C2.
    destruct (any s); [by left|right]. destruct (value_set s), (value s); by cbn in C2. }
  assert (selector_kind_uses_textual_needles k = true -> value_kind s' = LQL_SELECTOR_LITERAL_STRING /\
    Forall (fun v => any_kind v = LQL_SELECTOR_LITERAL_STRING) (any s')) as Htext.
  { intros Ht. rewrite F6, F7. by apply inv_textual0. }
  assert (selector_kind_uses_textual_needles k = false -> ignore_case s' = false) as Hic.
  { intros Ht. rewrite F18. apply not_true_iff_false. intros E. apply inv_ignore0 in E. congruence. }
  clear C1 C2 Ef inv_unset0 inv_since0 inv_date_unset0.
  destruct k; try done; try (right; split; done).
  - split_and!; [done..|by apply Hany|by apply Hic].
  - split_and!; [done..|by apply Hany|by apply Hic].
  - destruct (Htext eq_refl). split_and!; try done; [by rewrite F7|by apply Hone].
  - destruct (Htext eq_refl). split_and!; try done; [by rewrite F7|by apply Hone].
  - destruct (Htext eq_refl). split_and!; try done. by apply Hany.
  - destruct (Htext eq_refl). split_and!; try done. by apply Hany.
  - split_and!; try done.
    + intros b. rewrite F8, F9, F10. by apply inv_ranges0.
    + unfold any_number_bound, any_temporal_bound in *. rewrite F9, F10.
      destruct (_ || _) in C4, C5 |- *; destruct (_ || _) in C4, C5 |- *; done.
  - split_and!; try done.
    + unfold dates_ok. rewrite F11, F12, F13, F14, F15, F16. by apply inv_dates0.
    + unfold any_temporal_bound in *. rewrite F9, F16, F17.
      destruct (has_temporal_eq s); [by left|]. destruct (_ || _) in C6 |- *; [by right; left|].
      right; right. intros E. rewrite E in C6. by vm_compute in C6.
    + unfold dates_exclusive, other_dates. rewrite F11, F12, F13, F14, F15. by apply HX.
    + unfold date_given, other_dates. rewrite F11, F12, F13, F14, F15.
      destruct (inv_given0 eq_refl) as [G|[= G1 G2 G3]]; [done|].
      unfold any_temporal_bound in C6. by rewrite G1, G2, G3 in C6.
  - split_and!; try done; [|by rewrite F7]. rewrite F7. by destruct (any s).
Qed.

Lemma parse_key_values_ok body k out :
  k <> LQL_SELECTOR_KIND_ALL -> k <> LQL_SELECTOR_KIND_EXISTS ->
  parse_key_values body k = inr out ->
  kind out = k /\ (string_predicate_is_match_all_alias k out = false -> tree_ok out).
Proof.
  intros HA HE. unfold parse_key_values. destruct (split_assignments body) as [e|parts]; [done|].
  destruct (key_values_loop k parts (selector_zero k, [])) as [e|[s seen]] eqn:E; [done|].
  intros H. eapply key_values_check_ok; [|done|done|done]. eapply key_values_loop_ok; [|done].
  apply kv_inv_start.
Qed.

Lemma zero_all_ok : tree_ok (selector_zero LQL_SELECTOR_KIND_ALL).
Proof. by apply leaf_ok. Qed.

Lemma parse_exists_ok body out : parse_exists_body body = inr out -> tree_ok out.
Proof.
  unfold parse_exists_body. destruct (split_top body) as [e|[|part [|]]]; try done.
  destruct (existsb _ _); [done|]. destruct (unquote part) as [|c d]; [done|].
  destruct (c =? ch_slash); [cbn [negb]|done].
  destruct (normalize_field_path (c :: d)) as [n|] eqn:E; [|done]. intros [= <-].
  apply leaf_ok; [done|]. split; [done|]. exists n. split; [done|]. by eapply normalize_slash.
Qed.

Lemma parse_braced_ok name body out : parse_braced name body = inr out -> tree_ok out.
Proof.
  unfold parse_braced. destruct (kind_from_name name) eqn:Ek; try done; try by apply parse_exists_ok.
  all: destruct (parse_key_values body _) as [e|s] eqn:E; [done|];
    apply parse_key_values_ok in E as [Ek' E]; [|done..]; rewrite Ek';
    destruct (string_predicate_is_match_all_alias _ _); intros [= <-]; [apply zero_all_ok|]; by apply E.
Qed.

Lemma prepared_value_ok s :
  (kind s = LQL_SELECTOR_KIND_EQ \/ kind s = LQL_SELECTOR_KIND_NE) -> children s = [] -> path_field s ->
  value_ok s -> any s = [] -> ignore_case s = false -> tree_ok (prepare_selector_value_temporal s).
Proof.
  intros Hk Hc Hf Hv Ha Hi. destruct (prepare_value_temporal s) as (b & t & ->). apply leaf_ok; [done|].
  unfold node_ok. cbn [kind with_value_temporal]. by destruct Hk as [-> | ->].
Qed.

(** A single bound makes a well-formed range. *)
Lemma single_bound_ok s key text s' :
  children s = [] -> path_field s -> range_text s = all_bounds None -> temporal s = all_bounds None ->
  has_range s = all_bounds false -> set_range_bound s key text = inr s' ->
  tree_ok (with_kind s' LQL_SELECTOR_KIND_RANGE).
Proof.
  intros Hc Hf H1 H2 H3. unfold set_range_bound.
  destruct (lql_parse_temporal_literal (trim text)) as [u|] eqn:E; [|
    destruct (lql_number_is_json (trim text)) eqn:Ej; [cbn [negb]|done]]; intros [= <-];
    (apply leaf_ok; [done|]; split; [done|split; [done|split]]).
  - intros k. cbn [range_text temporal has_range with_kind with_range]. rewrite H1, H2, H3, !bound_set.
    case_decide; [split; [apply trim_trimmed|left; exists u; by destruct k]|by destruct k].
  - unfold any_number_bound, any_temporal_bound. cbn. rewrite H2, H3. by destruct (bound_of_key key).
  - intros k. cbn [range_text temporal has_range with_kind with_range]. rewrite H1, H2, H3, !bound_set.
    case_decide; [split; [apply trim_trimmed|right; split; [done|by destruct k]]|by destruct k].
  - unfold any_number_bound, any_temporal_bound. cbn. rewrite H2, H3. by destruct (bound_of_key key).
Qed.

Lemma parse_shorthand_ok before op out : parse_shorthand before op = inr out -> tree_ok out.
Proof.
  unfold parse_shorthand. cbv zeta. destruct (normalize_field_path (trim before)) as [f|] eqn:Ef; [|done].
  apply normalize_slash in Ef.
  set (rv := trim (drop _ op)). set (k := if is_quote (at_ rv 0) then _ else _).
  set (s := with_value _ _ _ _).
  assert (path_field s) as Hp by by exists f.
  assert (literal_ok (unquote rv) k) as Hl.
  { subst k. destruct (is_quote (at_ rv 0)); [by left|by right]. }
  assert (value_ok s) as Hv by by split.
  destruct (at_ op 0 =? ch_bang).
  { intros [= <-]. apply prepared_value_ok; [by right|done|done|exact Hv|done|done]. }
  destruct ((at_ op 0 =? ch_gt) || (at_ op 0 =? ch_lt)).
  - destruct (set_range_bound s _ (unquote rv)) as [e|s'] eqn:E; [done|]. intros [= <-].
    eapply single_bound_ok; [..|exact E]; done.
  - intros [= <-]. apply prepared_value_ok; [by left|done|done|exact Hv|done|done].
Qed.

Lemma wrap_ok k c :
  k = LQL_SELECTOR_KIND_AND \/ k = LQL_SELECTOR_KIND_OR \/ k = LQL_SELECTOR_KIND_NOT ->
  tree_ok c -> tree_ok (with_children (selector_zero k) [c]).
Proof.
  intros Hk Hc. constructor; [|by apply Forall_cons]. unfold node_ok. cbn.
  destruct Hk as [-> |[-> | ->]]; by left.
Qed.

Lemma parse_one_ok fuel expr out : parse_one fuel expr = Some (inr out) -> tree_ok out.
Proof.
  revert expr out. induction fuel as [|fuel IH]; intros expr out; cbn [parse_one];
    (case_if; [intros [= <-]; apply zero_all_ok|]);
    destruct (parse_simple_wrapper expr) as [[k r]|] eqn:Ew; try done.
  2: { apply simple_wrapper_shorter in Ew as [_ Hk]. destruct (parse_one fuel r) as [[e|c]|] eqn:E; try done.
       intros [= <-]. apply wrap_ok; [done|by eapply IH]. }
  all: destruct (if _ : bool then _ else _) as [[before op]|];
    [intros [= H]; by eapply parse_shorthand_ok|];
    destruct (braced expr) as [[name body]|]; [intros [= H]; by eapply parse_braced_ok|done].
Qed.

(** ** Indexed groups *)

Section group_induction.
Context (P : indexed_group -> Prop).
Hypothesis step : forall g, Forall P (groups g) -> P g.

Fixpoint group_ind' (g : indexed_group) : P g :=
  step g
    ((fix go (l : list indexed_group) : Forall P l :=
        match l with
        | [] => Forall_nil P
        | c :: l => @Forall_cons _ P c l (group_ind' c) (go l)
        end) (groups g)).
End group_induction.

(** A compound under construction: no path, and well-formed children. *)
Definition open_ok (s : lql_selector) : Prop := field s = None /\ Forall tree_ok (children s).

Definition wrapper_kind (k : lql_selector_kind) : Prop :=
  k = LQL_SELECTOR_KIND_AND \/ k = LQL_SELECTOR_KIND_OR \/ k = LQL_SELECTOR_KIND_NOT.

(** The OR group is still zero, or an OR under construction. *)
Definition or_ok (s : lql_selector) : Prop :=
  open_ok s /\ (kind s = LQL_SELECTOR_KIND_OR \/ (kind s = LQL_SELECTOR_KIND_ALL /\ children s = [])).

(** How many children the group has still to give to its selector. *)
Definition pending (g : indexed_group) : nat :=
  (length (children (selector g)) + length (children (or_group g)) + length (groups g))%nat.

Inductive group_ok : indexed_group -> Prop :=
  | group_ok_intro g :
      wrapper_kind (kind (selector g)) -> open_ok (selector g) -> or_ok (or_group g) ->
      Forall (fun sub => group_ok sub /\ (1 <= pending sub)%nat /\
                         kind (selector sub) = LQL_SELECTOR_KIND_AND) (groups g) ->
      group_ok g.

Lemma append_open s c : open_ok s -> tree_ok c -> open_ok (append_selector s c).
Proof. intros [H1 H2] Hc. split; [done|]. apply list.Forall_app. split; [done|]. by apply Forall_cons. Qed.

Lemma append_count s c : length (children (append_selector s c)) = S (length (children s)).
Proof. cbn. rewrite length_app. cbn. lia. Qed.

Lemma open_tree_ok s :
  wrapper_kind (kind s) -> open_ok s -> children s <> [] ->
  (kind s = LQL_SELECTOR_KIND_NOT -> length (children s) = 1%nat) -> tree_ok s.
Proof.
  intros Hk [H1 H2] Hc Hn. constructor; [|done]. unfold node_ok.
  destruct Hk as [E|[E|E]]; rewrite E; left; [done..|by split; [|apply Hn]].
Qed.

(** [append_finalized_indexed_selector] adds the child, or the only child of an AND. *)
Lemma append_finalized_ok s c : tree_ok c ->
  exists c', tree_ok c' /\ append_finalized_indexed_selector s c = append_selector s c'.
Proof.
  intros Hc. unfold append_finalized_indexed_selector. case_bool_decide; [|by exists c].
  destruct (children c) as [|x [|y l]] eqn:E; [by exists c| |by exists c].
  exists x. split; [|done]. inversion Hc as [? _ HF]. subst. rewrite E in HF. by inversion HF.
Qed.

(** What attaching finalized subgroups keeps, and what it counts. *)
Definition attach_inv (k : lql_selector_kind) (n : nat) (g : indexed_group) : Prop :=
  kind (selector g) = k /\ open_ok (selector g) /\ kind (or_group g) = LQL_SELECTOR_KIND_OR /\
  open_ok (or_group g) /\ (length (children (selector g)) + length (children (or_group g)))%nat = n.

Lemma attach_subgroup_ok b k n g sub :
  attach_inv k n g -> tree_ok (selector sub) -> attach_inv k (S n) (attach_subgroup b g sub).
Proof.
  intros (H1 & H2 & H3 & H4 & H5) Hs. unfold attach_subgroup, attach_inv.
  destruct (append_finalized_ok (or_group g) _ Hs) as (c & Hc & ->).
  destruct (append_finalized_ok (selector g) _ Hs) as (d & Hd & ->).
  destruct (negb b && _); [|destruct (negb (indexed g) && _)];
    cbn [selector or_group with_selector with_or_group]; rewrite append_count; split_and!;
    try done; try (by apply append_open); lia.
Qed.

Lemma attach_all_ok b subs : forall k n g,
  attach_inv k n g -> Forall (fun sub => tree_ok (selector sub)) subs ->
  attach_inv k (n + length subs) (fold_left (attach_subgroup b) subs g).
Proof.
  induction subs as [|sub subs IH]; intros k n g Hg Hs; cbn [fold_left length];
    [by rewrite Nat.add_0_r|].
  inversion_clear Hs. rewrite <- Nat.add_succ_comm. apply IH; [|done]. by apply attach_subgroup_ok.
Qed.

Lemma finalize_ok g b :
  group_ok g -> (1 <= pending g)%nat -> (kind (selector g) = LQL_SELECTOR_KIND_NOT -> pending g = 1%nat) ->
  tree_ok (selector (finalize_indexed_group g b)).
Proof.
  revert b. induction g as [g IH] using group_ind'. intros b Hg Hp Hn.
  inversion Hg as [? Hk Ho [Hr1 Hr2] Hsub]; subst. destruct g as [ix w i sel org gs].
  cbn [finalize_indexed_group groups or_group].
  set (g1 := if bool_decide (kind org = _) then _ else _).
  set (subs := map _ gs).
  assert (attach_inv (kind sel) (length (children sel) + length (children org)) g1) as H1.
  { subst g1. unfold attach_inv. cbn in *. case_bool_decide; cbn; split_and!; try done.
    destruct Hr2 as [?|[??]]; congruence. }
  assert (Forall (fun sub => tree_ok (selector sub)) subs) as H2.
  { subst subs. apply Forall_map. cbn [groups] in *. clear -IH Hsub.
    induction Hsub as [|g gs (S1 & S2 & S3) _ IHl]; [constructor|]. inversion_clear IH as [|? ? J1 J2].
    constructor; [|by apply IHl]. apply J1; [done..|]. by rewrite S3. }
  pose proof (attach_all_ok b subs _ _ _ H1 H2) as (A1 & A2 & A3 & A4 & A5).
  replace (length subs) with (length gs) in A5 by (subst subs; by rewrite length_map).
  unfold pending in Hp, Hn. cbn [selector or_group groups] in *.
  set (g2 := fold_left _ subs g1) in *. clearbody g2.
  destruct (bool_decide (children (or_group g2) = [])) eqn:E1; cbn [negb].
  - apply bool_decide_eq_true in E1. rewrite E1 in A5. cbn [length] in A5.
    cbn [with_groups selector]. apply open_tree_ok; [by rewrite A1|done| |rewrite A1; intros Ek; specialize (Hn Ek); lia].
    intros E. rewrite E in A5. cbn in A5. lia.
  - apply bool_decide_eq_false in E1.
    assert (tree_ok (or_group g2)) as Hor.
    { apply open_tree_ok; [by right; left|done|done|by rewrite A3]. }
    destruct (_ && _ && _) eqn:E2; cbn [with_groups selector with_selector]; [done|].
    apply open_tree_ok; [cbn [append_selector kind with_children]; by rewrite A1|by apply append_open| |].
    + cbn. by destruct (children (selector g2)).
    + cbn [append_selector kind with_children]. rewrite A1. intros Ek. specialize (Hn Ek).
      rewrite append_count. destruct (children (or_group g2)); [done|]. cbn [length] in A5. lia.
Qed.

Lemma zero_group_ok b w i k : wrapper_kind k ->
  group_ok (mk_group b w i (selector_zero k) (selector_zero LQL_SELECTOR_KIND_ALL) []).
Proof. intros Hk. constructor; [done|by split|by split; [split|right]|constructor]. Qed.

Lemma plain_group_node_ok g c g' :
  group_ok g -> tree_ok c -> append_plain_group_node g c = inr g' ->
  group_ok g' /\ kind (selector g') = kind (selector g) /\ pending g' = S (pending g).
Proof.
  intros Hg Hc. inversion Hg as [? Hk Ho [Hr1 Hr2] Hsub]; subst. unfold append_plain_group_node.
  assert ((if indexed g && selector_conflicts_with_child (selector g) c then conflicting_clauses
     else inr (with_selector g (append_selector (selector g) c))) = inr g' ->
    group_ok g' /\ kind (selector g') = kind (selector g) /\ pending g' = S (pending g)) as Hdef.
  { destruct (_ && _); [done|]. intros [= <-]. split; [|split; [done|]].
    - constructor; [done|by apply append_open|by split|done].
    - unfold pending. cbn [selector with_selector or_group groups]. rewrite append_count. lia. }
  case_bool_decide; [|done]. destruct (children c) as [|x [|y l]] eqn:Ec; [done| |done]. clear Hdef.
  inversion Hc as [? _ HF]. subst. rewrite Ec in HF. inversion_clear HF.
  set (org := if bool_decide _ then _ else _). cbv zeta. destruct (_ && _); [done|]. intros [= <-].
  assert (open_ok org /\ kind org = LQL_SELECTOR_KIND_OR /\ children org = children (or_group g))
    as (O1 & O2 & O3).
  { subst org. case_bool_decide; [done|]. split_and!; try done. by destruct Hr2 as [?|[??]]. }
  split; [|split; [done|]].
  - constructor; [done|done| |done]. split; [by apply append_open|by left].
  - unfold pending. cbn [selector with_or_group or_group groups]. rewrite append_count, O3. lia.
Qed.

Lemma append_token_ok fuel g t g' :
  group_ok g -> append_token_to_group fuel g t = Some (inr g') ->
  group_ok g' /\ kind (selector g') = kind (selector g) /\ (1 <= pending g' <= S (pending g))%nat.
Proof.
  revert g t g'. induction fuel as [|fuel IH]; intros g t g' Hg; cbn [append_token_to_group].
  all: destruct (parse_indexed_wrapper t) as [[[k i] r]|]; try done.
  all: try (destruct (parse_simple_wrapper t) as [[k r]|] eqn:Ew; try done).
  all: try (destruct (parse_one (length t) t) as [[e|c]|] eqn:E1; try done; intros [= H];
    apply parse_one_ok in E1; destruct (plain_group_node_ok _ _ _ Hg E1 H) as (A & B & C);
    split_and!; [done|done|lia|lia]).
  - destruct (ensure_indexed_group (groups g) k i) as [gs n] eqn:Ee.
    inversion Hg as [? Hk Ho Hr Hsub]; subst.
    assert (exists cg, gs !! n = Some cg /\ group_ok cg /\ kind (selector cg) = LQL_SELECTOR_KIND_AND /\
      (length gs <= S (length (groups g)))%nat /\
      forall x, group_ok x /\ (1 <= pending x)%nat /\ kind (selector x) = LQL_SELECTOR_KIND_AND ->
        Forall (fun sub => group_ok sub /\ (1 <= pending sub)%nat /\
                         kind (selector sub) = LQL_SELECTOR_KIND_AND) (<[n := x]> gs))
      as (cg & Hcg & Hcok & Hck & Hlen & Hins).
    { unfold ensure_indexed_group in Ee. destruct (find_indexed_group (groups g) k i) as [m|] eqn:Ef.
      - injection Ee as <- <-. destruct (find_group_lookup _ _ _ _ Ef) as [cg Hcg]. exists cg.
        rewrite list.Forall_lookup in Hsub. destruct (Hsub _ _ Hcg) as (? & ? & ?). split_and!; try done; [lia|].
        intros x Hx. by apply Forall_insert; [rewrite list.Forall_lookup|].
      - injection Ee as <- <-. eexists. rewrite lookup_app_r, Nat.sub_diag by done.
        split_and!; [done|by apply zero_group_ok; left|done| |].
        + rewrite length_app. cbn. lia.
        + intros x Hx. rewrite insert_app_r_alt, Nat.sub_diag by done. cbn.
          apply list.Forall_app. split; [done|]. by apply Forall_cons. }
    rewrite Hcg. destruct (append_token_to_group fuel cg r) as [[e|cg']|] eqn:Er; try done. intros [= <-].
    destruct (IH _ _ _ Hcok Er) as (A & B & C).
    split; [constructor; [done..|]|split; [done|]].
    + cbn [groups with_groups]. apply Hins. split_and!; [done|lia|congruence].
    + unfold pending. cbn [selector or_group groups with_groups]. rewrite length_insert.
      apply lookup_lt_Some in Hcg. lia.
  - apply simple_wrapper_shorter in Ew as [_ Hk].
    destruct (append_token_to_group fuel _ r) as [[e|w]|] eqn:Er; try done. intros [= H].
    destruct (IH _ _ _ (zero_group_ok _ _ _ k Hk) Er) as (A & B & C). cbn in C.
    assert (tree_ok (selector (finalize_indexed_group w (bool_decide (k = LQL_SELECTOR_KIND_OR))))) as Hw.
    { apply finalize_ok; [done|lia|intros _; lia]. }
    destruct (plain_group_node_ok _ _ _ Hg Hw H) as (A' & B' & C'). split_and!; [done|done|lia|lia].
Qed.

Lemma append_tokens_ok ts : forall g g', group_ok g -> append_tokens g ts = Some (inr g') ->
  group_ok g' /\ kind (selector g') = kind (selector g) /\ (ts <> [] \/ 1 <= pending g -> 1 <= pending g')%nat.
Proof.
  induction ts as [|t ts IH]; intros g g' Hg; cbn [append_tokens].
  { intros [= <-]. split_and!; try done. by intros [?|?]. }
  destruct (append_token_to_group (length t) g t) as [[e|g1]|] eqn:E; try done. intros H.
  destruct (append_token_ok _ _ _ _ Hg E) as (A & B & C). destruct (IH _ _ A H) as (A' & B' & C').
  split_and!; [done|congruence|]. intros _. apply C'. lia.
Qed.

Lemma parse_group_tokens_ok ts m out :
  ts <> [] -> parse_group_tokens ts m = Some (inr out) -> tree_ok out.
Proof.
  intros Hts. unfold parse_group_tokens. cbv zeta.
  set (g := with_selector group_zero _).
  assert (group_ok g) as Hg by (apply zero_group_ok; destruct m; [by right; left|by left]).
  destruct (append_tokens g ts) as [[e|g']|] eqn:E; try done. intros [= <-].
  destruct (append_tokens_ok _ _ _ Hg E) as (A & B & C). apply finalize_ok; [done|by apply C; left|].
  rewrite B. by destruct m.
Qed.

Lemma parsed_tree_ok receiver expr or_mode out_given out :
  lql_parse_selector_internal receiver expr or_mode out_given = Some (inr out) -> tree_ok out.
Proof.
  unfold lql_parse_selector_internal. destruct (negb out_given); [done|]. destruct (negb receiver); [done|].
  destruct expr as [[|c e]|]; try by intros [= <-]; apply zero_all_ok.
  destruct (split_top (c :: e)) as [er|[|t [|t' ts]]]; [done|by intros [= <-]; apply zero_all_ok| |].
  - destruct (parse_indexed_wrapper t); [by apply parse_group_tokens_ok|].
    destruct (token_contains_indexed_wrapper (length t) t) as [[|]|]; [by apply parse_group_tokens_ok| |done].
    apply parse_one_ok.
  - by apply parse_group_tokens_ok.
Qed.

(** C13. Every selector the text parser returns is well formed: at each node of the
    tree, the path of a predicate is an absolute pointer, the literal kinds are those
    of the texts, a range holds numbers or instants but not both and each bound has
    the text it was read from, a date predicate has a bound and its texts are dates, a
    value excludes a list of needles, an [in] has values, a compound has children
    and a negation exactly one, unless the compound was written with braces. *)
Theorem parse_selector_well_formed receiver expr or_mode out_given out :
  lql_parse_selector_internal receiver expr or_mode out_given = Some (inr out) -> tree_ok out.
Proof. apply parsed_tree_ok. Qed.

Lemma parse_selector_well_formed_witness :
  exists out, lql_parse_selector_internal true
      (Some (bs "/a>=3,or.eq{f=/b,v=x},or.in{f=/c,any=1|2},not.exists{/d},and.1.date{f=/t,since=now}"))
      false true = Some (inr out) /\ length (children out) = 4%nat /\ tree_ok out.
Proof.
  eexists. split; [vm_compute; reflexivity|]. split; [vm_compute; reflexivity|].
  apply (parse_selector_well_formed true
    (Some (bs "/a>=3,or.eq{f=/b,v=x},or.in{f=/c,any=1|2},not.exists{/d},and.1.date{f=/t,since=now}"))
    false true). vm_compute. reflexivity.
Defined.

(** C37. The text parser terminates on every input: a status with its message, or a
    selector; the recursions of wrappers and groups are on shorter texts. *)
Theorem parse_selector_total receiver expr or_mode out_given :
  is_Some (lql_parse_selector_internal receiver expr or_mode out_given).
Proof.
  unfold lql_parse_selector_internal. destruct (negb out_given); [by eexists|].
  destruct (negb receiver); [by eexists|]. destruct expr as [[|c e]|]; try by eexists.
  destruct (split_top (c :: e)) as [er|[|t [|t' ts]]]; try by eexists.
  - destruct (parse_indexed_wrapper t); [apply parse_group_total|].
    destruct (contains_indexed_total (length t) t (le_n _)) as [[|] ->];
      [apply parse_group_total|by apply parse_one_total].
  - apply parse_group_total.
Qed.
