(* ===== verification/SelectorJson.v ===== *)
(** * Writing a selector as JSON (src/lql.c)

    The writer of the selector AST: strings with their escapes, literals, the
    objects of the predicates and the tree.  The output file is a parameter: an
    oracle says which of the writes falls short and after how many bytes.  A
    computation returns [None] when the code would read through a NULL pointer. *)

From S2P Require Import Prelude.
From S2P Require Import Errors.
From S2P Require Import Selector.
From S2P Require Import Cursor.

(** ** The output file *)

Record sink := mk_sink { written : bytes; writes : nat }.

Definition W (A : Type) : Type := sink -> option ((failure + A) * sink).

#[export] Instance W_ret : MRet W := fun A a k => Some (inr a, k).
#[export] Instance W_bind : MBind W := fun A B f x k =>
  match x k with
  | None => None
  | Some (inl e, k) => Some (inl e, k)
  | Some (inr a, k) => f a k
  end.

Definition w_fail {A} (e : failure) : W A := fun k => Some (inl e, k).
Definition undefined {A} : W A := fun _ => None.

Notation "a ;; b" := (mbind (M := W) (fun _ => b) a)
  (at level 100, b at level 200, right associativity, only parsing).

Definition io_failure : failure := (LQL_STATUS_IO_ERROR, "selector JSON write failed").

(** A lower-case hexadecimal digit. *)
Definition hex_digit (d : Z) : Z := if d <? 10 then ch_0 + d else ch_a + (d - 10).

(** [printf("%04x")] of a number below 65536. *)
Definition hex4 (v : Z) : bytes :=
  map hex_digit [v / 4096 mod 16; v / 256 mod 16; v / 16 mod 16; v mod 16].

Section writer.
(** How many bytes the [n]-th write accepts when it falls short. *)
Context (short : nat -> option nat).

(** The text [lql_number_format_json] gives for the double of a bound, which the
    selectors of the model do not hold. *)
Context (number_json : lql_selector -> bound_key -> option bytes).

(** [fwrite] and [fprintf] of a non-empty text: whether all of it was accepted. *)
Definition fwrite (data : bytes) : W bool := fun k =>
  match short (writes k) with
  | None => Some (inr true, mk_sink (written k ++ data) (S (writes k)))
  | Some n =>
      Some (inr false,
            mk_sink (written k ++ take (Nat.min n (length data - 1)) data) (S (writes k)))
  end.

Definition write_or_fail (data : bytes) : W unit :=
  ok ← fwrite data;
  if ok : bool then mret tt else w_fail io_failure.

Definition selector_json_write (data : bytes) : W unit :=
  match data with [] => mret tt | _ => write_or_fail data end.

Definition selector_json_putc (ch : Z) : W unit := selector_json_write [ch].

Definition selector_json_literal (text : bytes) : W unit := selector_json_write text.

(** A round of the loop of [selector_json_string]. *)
Definition selector_json_char (ch : Z) : W unit :=
  if ch =? ch_quote then selector_json_literal [ch_backslash; ch_quote]
  else if ch =? ch_backslash then selector_json_literal [ch_backslash; ch_backslash]
  else if ch =? 8 then selector_json_literal (bs "\b")
  else if ch =? 12 then selector_json_literal (bs "\f")
  else if ch =? 10 then selector_json_literal (bs "\n")
  else if ch =? 13 then selector_json_literal (bs "\r")
  else if ch =? 9 then selector_json_literal (bs "\t")
  else if ch <? 32 then write_or_fail (bs "\u" ++ hex4 ch)
  else selector_json_putc ch.

Fixpoint selector_json_chars (data : bytes) : W unit :=
  match data with
  | [] => mret tt
  | ch :: data => selector_json_char ch ;; selector_json_chars data
  end.

Definition selector_json_string (data : option bytes) : W unit :=
  selector_json_putc ch_quote ;;
  selector_json_chars (default [] data) ;;
  selector_json_putc ch_quote.

Definition selector_json_key (key : string) : W unit :=
  selector_json_string (Some (bs key)) ;; selector_json_putc ch_colon.

(** [*first] before and after. *)
Definition selector_json_comma (first : bool) : W bool :=
  if first then mret false else selector_json_putc ch_comma ;; mret false.

Definition selector_json_number (formatted : option bytes) : W unit :=
  match formatted with
  | None => w_fail (LQL_STATUS_JSON_ERROR, "selector JSON number is not finite"%string)
  | Some buffer => write_or_fail buffer
  end.

Definition selector_json_number_text (value : option bytes) : W unit :=
  match value with
  | None | Some [] => w_fail (LQL_STATUS_JSON_ERROR, "selector JSON number text is empty"%string)
  | Some value => write_or_fail value
  end.

(** ** Predicates *)

Definition write_selector_literal_json (value : option bytes) (kind : lql_selector_literal_kind)
    : W unit :=
  if bool_decide (kind = LQL_SELECTOR_LITERAL_STRING) then selector_json_string value
  else selector_json_literal (cstr (default [] value)).

(** [selector->field] with its [strlen]. *)
Definition write_field (selector : lql_selector) : W unit :=
  match field selector with
  | None => undefined
  | Some f => selector_json_string (Some (cstr f))
  end.

(** The loop over the [any] values. *)
Fixpoint write_any_values (first : bool) (values : list any_value) : W unit :=
  match values with
  | [] => mret tt
  | v :: values =>
      (if first then mret tt else selector_json_putc ch_comma) ;;
      write_selector_literal_json (Some (any_text v)) (any_kind v) ;;
      write_any_values false values
  end.

Definition write_string_predicate_json (selector : lql_selector) : W unit :=
  selector_json_putc ch_lbrace ;;
  first ← selector_json_comma true;
  selector_json_key "field" ;;
  write_field selector ;;
  first ← (if value_present selector then
             first ← selector_json_comma first;
             selector_json_key "value" ;;
             write_selector_literal_json (value selector) (value_kind selector) ;;
             mret first
           else mret first);
  first ← (match any selector with
           | [] => mret first
           | values =>
               first ← selector_json_comma first;
               selector_json_key "any" ;;
               selector_json_putc ch_lbracket ;;
               write_any_values true values ;;
               selector_json_putc ch_rbracket ;;
               mret first
           end);
  (if ignore_case selector then
     selector_json_comma first ;;
     selector_json_key "ignoreCase" ;;
     selector_json_literal (bs "true")
   else mret tt) ;;
  selector_json_putc ch_rbrace.

Definition write_range_bound_json (b : lql_selector_range_bound) (formatted : option bytes) : W unit :=
  match b with
  | LQL_SELECTOR_BOUND_NUMBER (Some text) => selector_json_number_text (Some text)
  | LQL_SELECTOR_BOUND_NUMBER None => selector_json_number formatted
  | LQL_SELECTOR_BOUND_DATETIME text => selector_json_string text
  | LQL_SELECTOR_BOUND_ABSENT => mret tt
  end.

Definition write_range_bound_member (key : string) (b : lql_selector_range_bound)
    (formatted : option bytes) (first : bool) : W bool :=
  match b with
  | LQL_SELECTOR_BOUND_ABSENT => mret first
  | _ =>
      first ← selector_json_comma first;
      selector_json_key key ;;
      write_range_bound_json b formatted ;;
      mret first
  end.

Definition write_range_predicate_json (selector : lql_selector) : W unit :=
  let bound_member key k first :=
    write_range_bound_member key (range_bound selector k) (number_json selector k) first in
  selector_json_putc ch_lbrace ;;
  first ← selector_json_comma true;
  selector_json_key "field" ;;
  write_field selector ;;
  first ← bound_member "gt"%string Gt first;
  first ← bound_member "gte"%string Gte first;
  first ← bound_member "lt"%string Lt first;
  first ← bound_member "lte"%string Lte first;
  selector_json_putc ch_rbrace.

Definition write_optional_string_member (key : string) (value : option bytes) (first : bool) : W bool :=
  match value with
  | None => mret first
  | Some _ =>
      first ← selector_json_comma first;
      selector_json_key key ;;
      selector_json_string value ;;
      mret first
  end.

Definition write_date_predicate_json (selector : lql_selector) : W unit :=
  let bound_text k := lql_view_cstr (bound k (date_text selector)) in
  selector_json_putc ch_lbrace ;;
  first ← selector_json_comma true;
  selector_json_key "field" ;;
  write_field selector ;;
  first ← write_optional_string_member "value" (lql_view_cstr (date_value_text selector)) first;
  first ← write_optional_string_member "since" (lql_view_cstr (date_since_text selector)) first;
  first ← write_optional_string_member "after" (lql_view_cstr (date_after_text selector)) first;
  first ← write_optional_string_member "before" (lql_view_cstr (date_before_text selector)) first;
  first ← write_optional_string_member "gte" (bound_text Gte) first;
  first ← write_optional_string_member "gt" (bound_text Gt) first;
  first ← write_optional_string_member "lte" (bound_text Lte) first;
  first ← write_optional_string_member "lt" (bound_text Lt) first;
  selector_json_putc ch_rbrace.

(** The C string literal [{"field":]. *)
Definition field_opening : bytes := [ch_lbrace; ch_quote] ++ bs "field" ++ [ch_quote; ch_colon].
(** The C string literal [,"any":[]. *)
Definition any_opening : bytes :=
  [ch_comma; ch_quote] ++ bs "any" ++ [ch_quote; ch_colon; ch_lbracket].

Definition write_in_predicate_json (selector : lql_selector) : W unit :=
  selector_json_literal field_opening ;;
  write_field selector ;;
  selector_json_literal any_opening ;;
  write_any_values true (any selector) ;;
  selector_json_literal (bs "]}").

(** ** The tree *)

(** The loop over the children; [write] writes one. *)
Fixpoint write_children_loop (write : lql_selector -> W unit) (first : bool)
    (l : list lql_selector) : W unit :=
  match l with
  | [] => mret tt
  | child :: l =>
      (if first then mret tt else selector_json_putc ch_comma) ;;
      write child ;;
      write_children_loop write false l
  end.

Definition write_selector_children_json (write : lql_selector -> W unit) (selector : lql_selector)
    : W unit :=
  selector_json_putc ch_lbracket ;;
  write_children_loop write true (children selector) ;;
  selector_json_putc ch_rbracket.

Definition selector_json_operator (kind : lql_selector_kind) : option string :=
  match kind with
  | LQL_SELECTOR_KIND_ALL => None
  | LQL_SELECTOR_KIND_AND => Some "and"%string
  | LQL_SELECTOR_KIND_OR => Some "or"%string
  | LQL_SELECTOR_KIND_NOT => Some "not"%string
  | LQL_SELECTOR_KIND_EQ => Some "eq"%string
  | LQL_SELECTOR_KIND_NE => Some "not"%string
  | LQL_SELECTOR_KIND_CONTAINS => Some "contains"%string
  | LQL_SELECTOR_KIND_ICONTAINS => Some "icontains"%string
  | LQL_SELECTOR_KIND_PREFIX => Some "prefix"%string
  | LQL_SELECTOR_KIND_IPREFIX => Some "iprefix"%string
  | LQL_SELECTOR_KIND_RANGE => Some "range"%string
  | LQL_SELECTOR_KIND_DATE => Some "date"%string
  | LQL_SELECTOR_KIND_IN => Some "in"%string
  | LQL_SELECTOR_KIND_EXISTS => Some "exists"%string
  end.

(** [write_selector_json] of NULL. *)
Definition write_no_selector : W unit := selector_json_putc ch_lbrace ;; selector_json_putc ch_rbrace.

(** [write_selector_json] of a node, given the writer of its children and the
    writer of the EQ form of an NE node. *)
Definition write_selector_node (write : lql_selector -> W unit) (write_eq : W unit)
    (selector : lql_selector) : W unit :=
  selector_json_putc ch_lbrace ;;
  (match selector_json_operator (kind selector) with
   | None => mret tt
   | Some key =>
       selector_json_key key ;;
       match kind selector with
       | LQL_SELECTOR_KIND_AND | LQL_SELECTOR_KIND_OR => write_selector_children_json write selector
       | LQL_SELECTOR_KIND_NOT =>
           match children selector with
           | [] => write_no_selector
           | child :: _ => write child
           end
       | LQL_SELECTOR_KIND_NE => write_eq
       | LQL_SELECTOR_KIND_EQ | LQL_SELECTOR_KIND_CONTAINS | LQL_SELECTOR_KIND_ICONTAINS
       | LQL_SELECTOR_KIND_PREFIX | LQL_SELECTOR_KIND_IPREFIX => write_string_predicate_json selector
       | LQL_SELECTOR_KIND_RANGE => write_range_predicate_json selector
       | LQL_SELECTOR_KIND_DATE => write_date_predicate_json selector
       | LQL_SELECTOR_KIND_IN => write_in_predicate_json selector
       | LQL_SELECTOR_KIND_EXISTS => write_field selector
       | LQL_SELECTOR_KIND_ALL => mret tt
       end
   end) ;;
  selector_json_putc ch_rbrace.

(** [eq_selector]: an EQ node has no child to write and no EQ form. *)
Definition write_eq_selector (selector : lql_selector) : W unit :=
  write_selector_node (fun _ => undefined) undefined (with_kind selector LQL_SELECTOR_KIND_EQ).

Fixpoint write_selector_json (selector : lql_selector) : W unit :=
  write_selector_node write_selector_json (write_eq_selector selector) selector.

(** [flush_ok]: [fflush] succeeds; [out_given]: [out != NULL]. *)
Definition selector_write_json_method (selector : option lql_selector) (out_given flush_ok : bool)
    : W unit :=
  if negb out_given then w_fail (LQL_STATUS_INVALID_ARGUMENT, "output file required"%string)
  else
    match selector with
    | None => write_no_selector
    | Some s => write_selector_json s
    end ;;
    if negb flush_ok then w_fail io_failure else mret tt.
End writer.
