(* ===== verification/SelectorJsonProps.v ===== *)
(** * The JSON writer implements the selector AST

    What the writer hands to the file, as the text of a JSON value, and what it
    leaves there when a write falls short. *)

From S2P Require Import Prelude.
From S2P Require Import Number.
From S2P Require Import NumberSpec.
From S2P Require Import NumberParse.
From S2P Require Import Temporal.
From S2P Require Import Errors.
From S2P Require Import Selector.
From S2P Require Import Cursor.
From S2P Require Import CursorProps.
From S2P Require Import SelectorLex.
From S2P Require Import SelectorLexProps.
From S2P Require Import SelectorParse.
From S2P Require Import SelectorParseProps.
From S2P Require Import SelectorJson.

(** ** JSON values and their text *)

Inductive json :=
  | JNull
  | JBool (b : bool)
  | JNumber (text : bytes)
  | JString (s : bytes)
  | JArray (l : list json)
  | JObject (l : list (bytes * json)).

Definition escape_char (c : Z) : bytes :=
  if (c =? ch_quote) || (c =? ch_backslash) then [ch_backslash; c]
  else if c <? 32 then
    match c with
    | 8 => bs "\b" | 9 => bs "\t" | 10 => bs "\n" | 12 => bs "\f" | 13 => bs "\r"
    | _ => bs "\u" ++ hex4 c
    end
  else [c].

Definition string_text (s : bytes) : bytes := ch_quote :: flat_map escape_char s ++ [ch_quote].

(** Texts with commas between. *)
Fixpoint commas (l : list bytes) : bytes :=
  match l with
  | [] => []
  | [t] => t
  | t :: l => t ++ ch_comma :: commas l
  end.

Fixpoint json_text (j : json) : bytes :=
  match j with
  | JNull => bs "null"
  | JBool b => bs (if b then "true" else "false")
  | JNumber t => t
  | JString s => string_text s
  | JArray l => ch_lbracket :: commas (map json_text l) ++ [ch_rbracket]
  | JObject l =>
      ch_lbrace :: commas (map (fun m => string_text (fst m) ++ ch_colon :: json_text (snd m)) l) ++
      [ch_rbrace]
  end.

(** ** The AST of a selector *)

Definition literal_json (kind : lql_selector_literal_kind) (text : bytes) : json :=
  match kind with
  | LQL_SELECTOR_LITERAL_STRING => JString text
  | LQL_SELECTOR_LITERAL_NUMBER => JNumber text
  | LQL_SELECTOR_LITERAL_BOOL => JBool (bool_decide (text = bs "true"))
  | LQL_SELECTOR_LITERAL_NULL => JNull
  end.

Definition optional_member (key : string) (v : option json) : list (bytes * json) :=
  match v with None => [] | Some j => [(bs key, j)] end.

Definition field_member (s : lql_selector) : bytes * json :=
  (bs "field", JString (cstr (default [] (field s)))).

Definition any_json (s : lql_selector) : json :=
  JArray (map (fun v => literal_json (any_kind v) (any_text v)) (any s)).

Definition string_predicate (s : lql_selector) : json :=
  JObject
    (field_member s ::
     optional_member "value" (literal_json (value_kind s) <$> value s) ++
     optional_member "any" (match any s with [] => None | _ => Some (any_json s) end) ++
     optional_member "ignoreCase" (if ignore_case s then Some (JBool true) else None)).

(** A bound is a string when it is an instant, and a number otherwise. *)
Definition bound_json (s : lql_selector) (k : bound_key) : option json :=
  match bound k (range_text s), bound k (temporal s) with
  | Some text, Some _ => Some (JString (cstr text))
  | Some text, None => Some (JNumber text)
  | None, _ => None
  end.

Definition range_predicate (s : lql_selector) : json :=
  JObject
    (field_member s ::
     optional_member "gt" (bound_json s Gt) ++ optional_member "gte" (bound_json s Gte) ++
     optional_member "lt" (bound_json s Lt) ++ optional_member "lte" (bound_json s Lte)).

Definition text_member (key : string) (t : option bytes) : list (bytes * json) :=
  optional_member key (JString ∘ cstr <$> t).

Definition date_predicate (s : lql_selector) : json :=
  JObject
    (field_member s ::
     text_member "value" (date_value_text s) ++ text_member "since" (date_since_text s) ++
     text_member "after" (date_after_text s) ++ text_member "before" (date_before_text s) ++
     text_member "gte" (bound Gte (date_text s)) ++ text_member "gt" (bound Gt (date_text s)) ++
     text_member "lte" (bound Lte (date_text s)) ++ text_member "lt" (bound Lt (date_text s))).

Definition operator (key : string) (j : json) : json := JObject [(bs key, j)].

(** The AST: the match-all selector is the empty object, a not-equal is the
    negation of an equality. *)
Fixpoint selector_json (s : lql_selector) : json :=
  match kind s with
  | LQL_SELECTOR_KIND_ALL => JObject []
  | LQL_SELECTOR_KIND_AND => operator "and" (JArray (map selector_json (children s)))
  | LQL_SELECTOR_KIND_OR => operator "or" (JArray (map selector_json (children s)))
  | LQL_SELECTOR_KIND_NOT =>
      operator "not" (match children s with [] => JObject [] | c :: _ => selector_json c end)
  | LQL_SELECTOR_KIND_NE => operator "not" (operator "eq" (string_predicate s))
  | LQL_SELECTOR_KIND_EQ => operator "eq" (string_predicate s)
  | LQL_SELECTOR_KIND_CONTAINS => operator "contains" (string_predicate s)
  | LQL_SELECTOR_KIND_ICONTAINS => operator "icontains" (string_predicate s)
  | LQL_SELECTOR_KIND_PREFIX => operator "prefix" (string_predicate s)
  | LQL_SELECTOR_KIND_IPREFIX => operator "iprefix" (string_predicate s)
  | LQL_SELECTOR_KIND_RANGE => operator "range" (range_predicate s)
  | LQL_SELECTOR_KIND_DATE => operator "date" (date_predicate s)
  | LQL_SELECTOR_KIND_IN => operator "in" (JObject [field_member s; (bs "any", any_json s)])
  | LQL_SELECTOR_KIND_EXISTS => operator "exists" (JString (cstr (default [] (field s))))
  end.

(** The numbers of a value are JSON numbers. *)
Inductive json_wf : json -> Prop :=
  | wf_null : json_wf JNull
  | wf_bool b : json_wf (JBool b)
  | wf_number t : lql_number_is_json t = true -> json_wf (JNumber t)
  | wf_string s : json_wf (JString s)
  | wf_array l : Forall json_wf l -> json_wf (JArray l)
  | wf_object l : Forall (fun m => json_wf (snd m)) l -> json_wf (JObject l).

(** ** Texts *)

Lemma commas_cons t l : commas (t :: l) = t ++ flat_map (fun u => ch_comma :: u) l.
Proof.
  revert t. induction l as [|u l IH]; intros t; [cbn; by rewrite app_nil_r|].
  change (commas (t :: u :: l)) with (t ++ ch_comma :: commas (u :: l)). by rewrite IH.
Qed.

(** Members after the first one of an object. *)
Definition members_text (l : list (bytes * json)) : bytes :=
  flat_map (fun m => ch_comma :: string_text (fst m) ++ ch_colon :: json_text (snd m)) l.

Lemma members_text_app a b : members_text (a ++ b) = members_text a ++ members_text b.
Proof. apply flat_map_app. Qed.

Lemma object_text m l :
  json_text (JObject (m :: l)) =
  ch_lbrace :: string_text (fst m) ++ ch_colon :: json_text (snd m) ++ members_text l ++ [ch_rbrace].
Proof.
  cbn [json_text map]. rewrite commas_cons. unfold members_text.
  rewrite flat_map_concat_map, map_map, <- flat_map_concat_map. by rewrite <- !app_assoc.
Qed.

Lemma array_text j l :
  json_text (JArray (j :: l)) =
  ch_lbracket :: json_text j ++ flat_map (fun i => ch_comma :: json_text i) l ++ [ch_rbracket].
Proof.
  cbn [json_text map]. rewrite commas_cons, flat_map_concat_map, map_map, <- flat_map_concat_map.
  by rewrite <- !app_assoc.
Qed.

(** The characters of a JSON number. *)
Definition number_char (c : Z) : bool :=
  is_digit c || (c =? ch_plus) || (c =? ch_minus) || (c =? ch_dot) || (c =? ch_e) || (c =? ch_E).

Lemma digits_chars l : all_digits l -> Forall (fun c => number_char c = true) l.
Proof. apply Forall_impl. intros c Hc. unfold number_char. by rewrite Hc. Qed.

Lemma json_number_chars t m e : json_number t m e -> Forall (fun c => number_char c = true) t.
Proof.
  intros (neg & i & f & fd & x & v & -> & [Hi _] & Hf & Hx & _). rewrite !list.Forall_app.
  split_and!; [destruct neg; repeat constructor|by apply digits_chars| |].
  - destruct Hf as [[-> _]|(-> & _ & Hd)]; [constructor|]. constructor; [done|by apply digits_chars].
  - destruct Hx as [[-> _]|(c & s & ed & -> & Hc & _ & Hd & Hs)]; [constructor|].
    constructor; [by destruct Hc as [-> | ->]|]. apply list.Forall_app. split; [|by apply digits_chars].
    destruct Hs as [[[-> | ->] _]|[-> _]]; repeat constructor.
Qed.

Lemma is_json_number t : lql_number_is_json t = true -> exists m e, json_number t m e.
Proof.
  unfold lql_number_is_json. destruct (lql_number_decimal_parse t) eqn:E; [|done]. intros _.
  by eapply decimal_parse_sound.
Qed.

Lemma is_json_chars t : lql_number_is_json t = true -> Forall (fun c => number_char c = true) t.
Proof. intros (m & e & H)%is_json_number. by eapply json_number_chars. Qed.

Lemma number_char_spec c : number_char c = true -> 43 <= c <= 101 /\ c <> 44.
Proof. unfold number_char, is_digit. lia. Qed.

Lemma number_no_nul t : lql_number_is_json t = true -> Forall (fun c => c <> 0) t.
Proof.
  intros H%is_json_chars. eapply Forall_impl; [|exact H]. intros c Hc%number_char_spec. lia.
Qed.

(** A text without NUL is its C string. *)
Lemma cstr_id t : Forall (fun c => c <> 0) t -> cstr t = t.
Proof.
  unfold cstr. induction 1 as [|c t Hc _ IH]; [done|]. cbn [span].
  assert ((c =? 0) = false) as -> by lia. cbn [negb]. destruct (span _ t) as [a b]. cbn in *. by rewrite IH.
Qed.

(** ** What a computation emits *)

Section emits.
Context (short : nat -> option nat).
Context (number_json : lql_selector -> bound_key -> option bytes).

(** Run from any state of the file, [m] hands exactly [t] to it and returns [a]; or a
    write falls short, [m] fails with the write error, and a prefix of [t] was
    handed over. *)
Definition emits {A} (m : W A) (t : bytes) (a : A) : Prop :=
  forall k,
    match m k with
    | Some (inr a', k') => a' = a /\ written k' = written k ++ t
    | Some (inl e, k') =>
        e = io_failure /\ (exists n, short n <> None) /\
        exists p, p `prefix_of` t /\ written k' = written k ++ p
    | None => False
    end.

Lemma emits_ret {A} (a : A) : emits (mret a) [] a.
Proof. intros k. cbn. by rewrite app_nil_r. Qed.

Lemma emits_bind {A B} (m : W A) (f : A -> W B) t1 t2 a b :
  emits m t1 a -> emits (f a) t2 b -> emits (m ≫= f) (t1 ++ t2) b.
Proof.
  intros H1 H2 k. specialize (H1 k). unfold mbind, W_bind.
  destruct (m k) as [[[e|a'] k1]|]; [| |done].
  - destruct H1 as (-> & Hs & p & Hp & Hw). split_and!; [done|done|]. exists p. split; [|done].
    by apply prefix_app_r.
  - destruct H1 as [-> Hw]. specialize (H2 k1). destruct (f a k1) as [[[e|b'] k2]|]; [| |done].
    + destruct H2 as (-> & Hs & p & Hp & Hw2). split_and!; [done|done|]. exists (t1 ++ p).
      split; [by apply prefix_app|]. by rewrite Hw2, Hw, app_assoc.
    + destruct H2 as [-> Hw2]. by rewrite Hw2, Hw, app_assoc.
Qed.

Lemma emits_eq {A} (m : W A) t t' a : emits m t a -> t = t' -> emits m t' a.
Proof. by intros H <-. Qed.

Lemma emits_seq {A} (m : W unit) (n : W A) t1 t2 t a :
  emits m t1 tt -> emits n t2 a -> t = t1 ++ t2 -> emits (m ;; n) t a.
Proof. intros H1 H2 ->. by apply (emits_bind m (fun _ => n) t1 t2 tt). Qed.

Lemma emits_write_or_fail data : data <> [] -> emits (write_or_fail short data) data tt.
Proof.
  intros Hd k. unfold write_or_fail, mbind, W_bind, fwrite.
  destruct (short (writes k)) as [n|] eqn:E; cbn; [|done].
  split_and!; [done|by exists (writes k); rewrite E|]. eexists. split; [|done].
  exists (drop (Nat.min n (length data - 1)) data). by rewrite take_drop.
Qed.

Lemma emits_write data : emits (selector_json_write short data) data tt.
Proof. destruct data; [apply emits_ret|by apply emits_write_or_fail]. Qed.

Lemma emits_char c : emits (selector_json_char short c) (escape_char c) tt.
Proof.
  unfold selector_json_char, escape_char.
  destruct (c =? ch_quote) eqn:E1; [apply Z.eqb_eq in E1 as ->; apply emits_write|].
  destruct (c =? ch_backslash) eqn:E2; [apply Z.eqb_eq in E2 as ->; apply emits_write|]. cbn [orb].
  destruct (c =? 8) eqn:E3; [apply Z.eqb_eq in E3 as ->; apply emits_write|].
  destruct (c =? 12) eqn:E4; [apply Z.eqb_eq in E4 as ->; apply emits_write|].
  destruct (c =? 10) eqn:E5; [apply Z.eqb_eq in E5 as ->; apply emits_write|].
  destruct (c =? 13) eqn:E6; [apply Z.eqb_eq in E6 as ->; apply emits_write|].
  destruct (c =? 9) eqn:E7; [apply Z.eqb_eq in E7 as ->; apply emits_write|].
  destruct (c <? 32); [|apply emits_write].
  eapply emits_eq; [by apply emits_write_or_fail|].
  assert (c <> 8 /\ c <> 9 /\ c <> 10 /\ c <> 12 /\ c <> 13) as (? & ? & ? & ? & ?) by lia.
  destruct c as [|p|p]; try done. do 4 (destruct p as [p|p|]; try done).
Qed.

Lemma emits_string o : emits (selector_json_string short o) (string_text (default [] o)) tt.
Proof.
  unfold selector_json_string, string_text. eapply emits_seq; [apply emits_write| |reflexivity].
  assert (forall d, emits (selector_json_chars short d) (flat_map escape_char d) tt) as Hc.
  { induction d as [|c d IH]; [apply emits_ret|]. cbn. eapply emits_seq; [apply emits_char|apply IH|done]. }
  eapply emits_seq; [apply Hc|apply emits_write|done].
Qed.

Lemma emits_key key : emits (selector_json_key short key) (string_text (bs key) ++ [ch_colon]) tt.
Proof. eapply emits_seq; [apply emits_string|apply emits_write|done]. Qed.

Lemma emits_comma first : emits (selector_json_comma short first) (if first then [] else [ch_comma]) false.
Proof.
  destruct first; [apply emits_ret|]. eapply emits_seq; [apply emits_write|apply emits_ret|done].
Qed.

(** A member after the first, from the writer of its value. *)
Lemma emits_member key (w : W unit) j t :
  emits w (json_text j) tt -> t = members_text [(bs key, j)] ->
  emits (first ← selector_json_comma short false; selector_json_key short key ;; w ;; mret first) t false.
Proof.
  intros Hw ->. eapply emits_eq; [eapply emits_bind; [apply emits_comma|]|].
  - eapply emits_seq; [apply emits_key| |done]. eapply emits_seq; [apply Hw|apply emits_ret|done].
  - cbn. by rewrite !app_nil_r, <- app_assoc.
Qed.

Lemma emits_field s : is_Some (field s) ->
  emits (write_field short s) (json_text (snd (field_member s))) tt.
Proof. intros [f E]. unfold write_field, field_member. rewrite E. apply emits_string. Qed.

Lemma emits_optional_text key v :
  emits (write_optional_string_member short key (lql_view_cstr v) false)
    (members_text (text_member key v)) false.
Proof.
  destruct v as [v|]; cbn [lql_view_cstr fmap option_fmap option_map text_member optional_member compose].
  - apply (emits_member _ _ (JString (cstr v))); [apply emits_string|done].
  - apply emits_ret.
Qed.

(** ** Literals *)

Lemma emits_separator (first : bool) :
  emits (if first then mret tt else selector_json_putc short ch_comma)
    (if first then [] else [ch_comma]) tt.
Proof. destruct first; [apply emits_ret|apply emits_write]. Qed.

Lemma literal_cstr k t :
  selector_literal_kind t = k -> k <> LQL_SELECTOR_LITERAL_STRING ->
  cstr t = json_text (literal_json k t) /\ json_wf (literal_json k t).
Proof.
  unfold selector_literal_kind. intros <-.
  destruct (bytes_eqb t (bs "true")) eqn:E1; [apply bytes_eqb_eq in E1 as ->; intros _; split; [done|constructor]|].
  destruct (bytes_eqb t (bs "false")) eqn:E2; [apply bytes_eqb_eq in E2 as ->; intros _; split; [done|constructor]|].
  destruct (bytes_eqb t (bs "null")) eqn:E3; [apply bytes_eqb_eq in E3 as ->; intros _; split; [done|constructor]|].
  cbn [orb]. destruct (lql_number_is_json t) eqn:E; [|done]. intros _. split; [|by constructor].
  by apply cstr_id, number_no_nul.
Qed.

Lemma literal_wf k t : literal_ok t k -> json_wf (literal_json k t).
Proof.
  intros [-> |H]; [constructor|]. destruct k; [constructor|..]; by eapply literal_cstr.
Qed.

Lemma emits_literal k t : literal_ok t k ->
  emits (write_selector_literal_json short (Some t) k) (json_text (literal_json k t)) tt.
Proof.
  intros H. unfold write_selector_literal_json. case_bool_decide as E; [subst k; apply emits_string|].
  destruct H as [?|H]; [done|]. destruct (literal_cstr k t H E) as [<- _]. apply emits_write.
Qed.

Lemma emits_any_values first vs : Forall any_value_ok vs ->
  emits (write_any_values short first vs)
    (match vs with
     | [] => []
     | v :: vs' =>
         (if first then [] else [ch_comma]) ++ json_text (literal_json (any_kind v) (any_text v)) ++
         flat_map (fun v => ch_comma :: json_text (literal_json (any_kind v) (any_text v))) vs'
     end) tt.
Proof.
  intros HF. revert first. induction HF as [|v vs Hv _ IH]; intros first; [apply emits_ret|].
  cbn [write_any_values]. eapply emits_seq; [|eapply emits_seq; [by apply emits_literal, Hv|apply IH|reflexivity]|].
  - apply emits_separator.
  - by destruct vs; [rewrite !app_nil_r|].
Qed.

Lemma any_text_json s : any s <> [] ->
  json_text (any_json s) =
  match any s with
  | [] => []
  | v :: vs =>
      ch_lbracket :: json_text (literal_json (any_kind v) (any_text v)) ++
      flat_map (fun v => ch_comma :: json_text (literal_json (any_kind v) (any_text v))) vs ++
      [ch_rbracket]
  end.
Proof.
  unfold any_json. destruct (any s) as [|v vs]; [done|]. intros _. cbn [map]. rewrite array_text.
  rewrite (flat_map_concat_map (fun i => ch_comma :: json_text i)), map_map.
  by rewrite <- flat_map_concat_map.
Qed.

(** The whole [any] array. *)
Lemma emits_any s : Forall any_value_ok (any s) -> any s <> [] ->
  emits (selector_json_putc short ch_lbracket ;; write_any_values short true (any s) ;;
         selector_json_putc short ch_rbracket) (json_text (any_json s)) tt.
Proof.
  intros HF Hn. rewrite any_text_json by done.
  eapply emits_seq; [apply emits_write| |].
  - eapply emits_seq; [by apply emits_any_values|apply emits_write|reflexivity].
  - destruct (any s); [done|]. cbn. by rewrite <- app_assoc.
Qed.

(** ** Predicates *)

(** An optional member after the first. *)
Lemma emits_optional_member (b : bool) key (w : W unit) j t :
  (b = true -> emits w (json_text j) tt) ->
  t = members_text (if b then [(bs key, j)] else []) ->
  emits (if b then first ← selector_json_comma short false; selector_json_key short key ;; w ;; mret first
         else mret false) t false.
Proof.
  intros Hw ->. destruct b; [by apply (emits_member key w j); [apply Hw|]|apply emits_ret].
Qed.

Definition opening : W bool :=
  selector_json_putc short ch_lbrace ;; selector_json_comma short true.

(** The opening of an object with the field member. *)
Lemma emits_object {A} s (rest : bool -> W A) members t (a : A) :
  is_Some (field s) ->
  emits (rest false) (members_text members ++ [ch_rbrace]) a ->
  t = json_text (JObject (field_member s :: members)) ->
  emits (selector_json_putc short ch_lbrace ;;
         first ← selector_json_comma short true;
         selector_json_key short "field" ;; write_field short s ;; rest first) t a.
Proof.
  intros Hf Hr ->. rewrite object_text. eapply emits_seq; [apply emits_write| |reflexivity].
  eapply emits_eq; [eapply emits_bind; [apply emits_comma|]|].
  - eapply emits_seq; [apply emits_key| |reflexivity]. eapply emits_seq; [by apply emits_field|apply Hr|reflexivity].
  - by rewrite <- !app_assoc.
Qed.

Lemma emits_string_predicate s :
  is_Some (field s) -> value_ok s -> Forall any_value_ok (any s) ->
  emits (write_string_predicate_json short s) (json_text (string_predicate s)) tt.
Proof.
  intros Hf Hv Ha. unfold write_string_predicate_json, string_predicate.
  eapply (emits_object s); [done| |reflexivity]. rewrite !members_text_app, <- !app_assoc.
  eapply emits_bind with (a := false).
  { unfold value_ok in Hv. destruct (value s) as [v|] eqn:Ev.
    - assert (value_present s = true) as -> by (unfold value_present; by destruct Hv as [-> _]).
      apply (emits_member "value" _ (literal_json (value_kind s) v)); [|done].
      apply emits_literal. apply Hv.
    - assert (value_present s = false) as -> by (unfold value_present; by rewrite Hv, Ev). apply emits_ret. }
  eapply emits_bind with (a := false).
  { destruct (any s) as [|v vs] eqn:Ea; [apply emits_ret|].
    eapply emits_eq; [eapply emits_bind; [apply emits_comma|]|].
    - eapply emits_seq; [apply emits_key| |reflexivity]. eapply emits_seq; [apply emits_write| |reflexivity].
      eapply emits_seq; [by apply emits_any_values| |reflexivity].
      eapply emits_seq; [apply emits_write|apply emits_ret|reflexivity].
    - cbn [optional_member members_text flat_map fst snd]. rewrite any_text_json, Ea by congruence. cbn [app].
      by rewrite ?app_nil_r, <- !app_assoc. }
  eapply emits_seq; [|apply emits_write|reflexivity].
  destruct (ignore_case s); [|apply emits_ret].
  eapply emits_eq; [eapply emits_bind; [apply emits_comma|]|].
  - eapply emits_seq; [apply emits_key|apply emits_write|reflexivity].
  - by vm_compute.
Qed.

Lemma bound_json_member s k key : range_bound_ok (bound k (range_text s)) (bound k (temporal s)) (bound k (has_range s)) ->
  emits (write_range_bound_member short key (range_bound s k) (number_json s k) false)
    (members_text (optional_member key (bound_json s k))) false /\
  (forall j, bound_json s k = Some j -> json_wf j).
Proof.
  unfold range_bound_ok, range_bound, bound_json, write_range_bound_member.
  destruct (bound k (range_text s)) as [x|]; cycle 1.
  { intros [-> ->]. split; [apply emits_ret|done]. }
  intros [_ [(u & _ & -> & ->)|(Hx & -> & ->)]]; (split; [|by intros j [= <-]; constructor]);
    cbn [bool_decide decide lql_view_cstr fmap option_fmap option_map].
  - rewrite bool_decide_eq_true_2 by done. apply (emits_member key _ (JString (cstr x))); [|done].
    apply emits_string.
  - rewrite bool_decide_eq_false_2 by (by intros [? ?]).
    rewrite cstr_id by by apply number_no_nul.
    apply (emits_member key _ (JNumber x)); [|done]. cbn [write_range_bound_json selector_json_number_text].
    destruct x as [|c x]; [by vm_compute in Hx|]. by apply emits_write_or_fail.
Qed.

Lemma emits_range_predicate s :
  is_Some (field s) -> ranges_ok s ->
  emits (write_range_predicate_json short number_json s) (json_text (range_predicate s)) tt.
Proof.
  intros Hf Hr. unfold write_range_predicate_json, range_predicate. cbv zeta.
  eapply (emits_object s); [done| |reflexivity]. rewrite !members_text_app, <- !app_assoc.
  do 4 (eapply emits_bind; [apply bound_json_member, Hr|]). apply emits_write.
Qed.

Lemma emits_date_predicate s :
  is_Some (field s) -> emits (write_date_predicate_json short s) (json_text (date_predicate s)) tt.
Proof.
  intros Hf. unfold write_date_predicate_json, date_predicate. cbv zeta.
  eapply (emits_object s); [done| |reflexivity]. rewrite !members_text_app, <- !app_assoc.
  do 8 (eapply emits_bind; [apply emits_optional_text|]). apply emits_write.
Qed.

Lemma emits_in_predicate s :
  is_Some (field s) -> Forall any_value_ok (any s) -> any s <> [] ->
  emits (write_in_predicate_json short s) (json_text (JObject [field_member s; (bs "any", any_json s)])) tt.
Proof.
  intros Hf Ha Hn. unfold write_in_predicate_json. eapply emits_eq.
  - eapply emits_seq; [apply emits_write| |reflexivity].
    eapply emits_seq; [by apply emits_field| |reflexivity].
    eapply emits_seq; [apply emits_write| |reflexivity].
    eapply emits_seq; [by apply emits_any_values|apply emits_write|reflexivity].
  - rewrite object_text. cbn [members_text flat_map fst snd]. rewrite any_text_json by done.
    destruct (any s) as [|v vs]; [done|]. unfold field_opening, any_opening.
    set (tl := flat_map _ vs). set (tf := json_text (snd _)). set (tv := json_text _).
    change (fst (field_member s)) with (bs "field"). unfold string_text. rewrite app_nil_r.
    repeat (rewrite <- app_assoc || rewrite <- app_comm_cons). reflexivity.
Qed.

(** ** The tree *)

Lemma emits_operator key w j :
  emits w (json_text j) tt ->
  emits (selector_json_putc short ch_lbrace ;; (selector_json_key short key ;; w) ;;
         selector_json_putc short ch_rbrace) (json_text (operator key j)) tt.
Proof.
  intros Hw. unfold operator. rewrite object_text. cbn [fst snd members_text flat_map app].
  eapply emits_seq; [apply emits_write| |reflexivity].
  eapply emits_seq; [eapply emits_seq; [apply emits_key|exact Hw|reflexivity]|apply emits_write|].
  by rewrite <- !app_assoc.
Qed.

Lemma emits_children write l first :
  Forall (fun c => emits (write c) (json_text (selector_json c)) tt) l ->
  emits (write_children_loop short write first l)
    (match l with
     | [] => []
     | c :: l' =>
         (if first then [] else [ch_comma]) ++ json_text (selector_json c) ++
         flat_map (fun c => ch_comma :: json_text (selector_json c)) l'
     end) tt.
Proof.
  intros HF. revert first. induction HF as [|c l Hc _ IH]; intros first; [apply emits_ret|].
  cbn [write_children_loop]. eapply emits_seq; [apply emits_separator|eapply emits_seq; [exact Hc|apply IH|reflexivity]|].
  by destruct l; [rewrite !app_nil_r|].
Qed.

Lemma emits_children_array write s :
  Forall (fun c => emits (write c) (json_text (selector_json c)) tt) (children s) ->
  emits (write_selector_children_json short write s)
    (json_text (JArray (map selector_json (children s)))) tt.
Proof.
  intros HF. unfold write_selector_children_json. eapply emits_eq.
  - eapply emits_seq; [apply emits_write| |reflexivity].
    eapply emits_seq; [by apply emits_children|apply emits_write|reflexivity].
  - destruct (children s) as [|c l]; [done|]. cbn [map]. rewrite array_text.
    rewrite (flat_map_concat_map _ (map selector_json l)), map_map, <- flat_map_concat_map.
    cbn [app]. by rewrite <- !app_assoc.
Qed.

Lemma emits_no_selector : emits (write_no_selector short) (json_text (JObject [])) tt.
Proof. eapply emits_seq; [apply emits_write|apply emits_write|reflexivity]. Qed.

Lemma path_field_some s : path_field s -> is_Some (field s).
Proof. intros (f & -> & _). by eexists. Qed.

Lemma emits_eq_selector s :
  path_field s -> value_ok s -> Forall any_value_ok (any s) ->
  emits (write_eq_selector short number_json s) (json_text (operator "eq" (string_predicate s))) tt.
Proof.
  intros Hf Hv Ha. unfold write_eq_selector, write_selector_node.
  apply emits_operator. by apply (emits_string_predicate (with_kind s LQL_SELECTOR_KIND_EQ)); [apply path_field_some| |].
Qed.

Lemma write_selector_unfold s :
  write_selector_json short number_json s =
  write_selector_node short number_json (write_selector_json short number_json)
    (write_eq_selector short number_json s) s.
Proof. by destruct s. Qed.

Lemma selector_json_unfold s :
  selector_json s =
  match kind s with
  | LQL_SELECTOR_KIND_ALL => JObject []
  | LQL_SELECTOR_KIND_AND => operator "and" (JArray (map selector_json (children s)))
  | LQL_SELECTOR_KIND_OR => operator "or" (JArray (map selector_json (children s)))
  | LQL_SELECTOR_KIND_NOT =>
      operator "not" (match children s with [] => JObject [] | c :: _ => selector_json c end)
  | LQL_SELECTOR_KIND_NE => operator "not" (operator "eq" (string_predicate s))
  | LQL_SELECTOR_KIND_EQ => operator "eq" (string_predicate s)
  | LQL_SELECTOR_KIND_CONTAINS => operator "contains" (string_predicate s)
  | LQL_SELECTOR_KIND_ICONTAINS => operator "icontains" (string_predicate s)
  | LQL_SELECTOR_KIND_PREFIX => operator "prefix" (string_predicate s)
  | LQL_SELECTOR_KIND_IPREFIX => operator "iprefix" (string_predicate s)
  | LQL_SELECTOR_KIND_RANGE => operator "range" (range_predicate s)
  | LQL_SELECTOR_KIND_DATE => operator "date" (date_predicate s)
  | LQL_SELECTOR_KIND_IN => operator "in" (JObject [field_member s; (bs "any", any_json s)])
  | LQL_SELECTOR_KIND_EXISTS => operator "exists" (JString (cstr (default [] (field s))))
  end.
Proof. by destruct s as [[] ? ? ? ? ? ? ? ? ? ? ? ? ? ? ? ? ? ? ? ? ? ?]. Qed.

(** The writer emits the AST of a well-formed tree. *)
Lemma emits_selector s :
  tree_ok s -> emits (write_selector_json short number_json s) (json_text (selector_json s)) tt.
Proof.
  induction s as [s IH] using selector_ind'. intros Hs. inversion Hs as [? Hn HC]; subst.
  assert (Forall (fun c => emits (write_selector_json short number_json c) (json_text (selector_json c)) tt)
            (children s)) as Hkids.
  { rewrite List.Forall_forall in IH, HC |- *. auto. }
  rewrite write_selector_unfold, selector_json_unfold. unfold write_selector_node, node_ok in *.
  destruct (kind s) eqn:Ek; cbn [selector_json_operator]; try apply emits_operator.
  - eapply emits_seq; [apply emits_write| |reflexivity].
    eapply emits_seq; [apply emits_ret|apply emits_write|reflexivity].
  - by apply emits_children_array.
  - by apply emits_children_array.
  - destruct (children s); [apply emits_no_selector|by inversion Hkids].
  - destruct Hn as (_ & Hf & Hv & Ha & _). apply emits_string_predicate; [by apply path_field_some|done|by rewrite Ha].
  - destruct Hn as (_ & Hf & Hv & Ha & _). apply emits_eq_selector; [done..|by rewrite Ha].
  - destruct Hn as (_ & Hf & Hv & Ha & _). apply emits_string_predicate; [by apply path_field_some|done..].
  - destruct Hn as (_ & Hf & Hv & Ha & _). apply emits_string_predicate; [by apply path_field_some|done..].
  - destruct Hn as (_ & Hf & Hv & Ha & _). apply emits_string_predicate; [by apply path_field_some|done|by rewrite Ha].
  - destruct Hn as (_ & Hf & Hv & Ha & _). apply emits_string_predicate; [by apply path_field_some|done|by rewrite Ha].
  - destruct Hn as (_ & Hf & Hr & _). apply emits_range_predicate; [by apply path_field_some|done].
  - destruct Hn as (_ & Hf & _). apply emits_date_predicate. by apply path_field_some.
  - destruct Hn as (_ & Hf & Ha & Hv). apply emits_in_predicate; [by apply path_field_some|done..].
  - destruct Hn as (_ & Hf). destruct (path_field_some s Hf) as [f E].
    unfold write_field. rewrite E. apply emits_string.
Qed.
End emits.

(** The numbers in the AST of a well-formed tree are JSON numbers. *)
Lemma optional_wf key v : (forall j, v = Some j -> json_wf j) -> Forall (fun m => json_wf (snd m)) (optional_member key v).
Proof. intros H. destruct v as [j|]; [|constructor]. repeat constructor. by apply H. Qed.

Lemma text_member_wf key t : Forall (fun m => json_wf (snd m)) (text_member key t).
Proof. apply optional_wf. intros j. destruct t; intros [= <-]. constructor. Qed.

Lemma any_json_wf s : Forall any_value_ok (any s) -> json_wf (any_json s).
Proof.
  intros H. constructor. apply Forall_map. eapply Forall_impl; [|exact H].
  intros v (_ & _ & Hl). by apply literal_wf.
Qed.

Lemma string_predicate_wf s : value_ok s -> Forall any_value_ok (any s) -> json_wf (string_predicate s).
Proof.
  intros Hv Ha. constructor. constructor; [constructor|]. rewrite !list.Forall_app. split_and!; apply optional_wf.
  - intros j. unfold value_ok in Hv. destruct (value s) as [v|]; intros [= <-].
    by apply literal_wf, Hv.
  - intros j. pose proof (any_json_wf s Ha). destruct (any s); [done|]. by intros [= <-].
  - intros j. destruct (ignore_case s); intros [= <-]. constructor.
Qed.

Lemma range_predicate_wf s : ranges_ok s -> json_wf (range_predicate s).
Proof.
  intros Hr. constructor. constructor; [constructor|]. rewrite !list.Forall_app.
  split_and!; apply optional_wf; apply (bound_json_member (fun _ => None) (fun _ _ => None) _ _ ""), Hr.
Qed.

Lemma operator_wf key j : json_wf j -> json_wf (operator key j).
Proof. intros H. constructor. by apply Forall_cons. Qed.

Lemma selector_json_wf s : tree_ok s -> json_wf (selector_json s).
Proof.
  induction s as [s IH] using selector_ind'. intros Hs. inversion Hs as [? Hn HC]; subst.
  assert (Forall json_wf (map selector_json (children s))) as Hkids.
  { apply Forall_map. rewrite List.Forall_forall in IH, HC |- *. auto. }
  rewrite selector_json_unfold. unfold node_ok in Hn.
  destruct (kind s); try apply operator_wf; try (by constructor).
  - destruct (children s); [by constructor|]. by inversion Hkids.
  - destruct Hn as (_ & _ & Hv & Ha & _). apply string_predicate_wf; [done|by rewrite Ha].
  - apply operator_wf. destruct Hn as (_ & _ & Hv & Ha & _). apply string_predicate_wf; [done|by rewrite Ha].
  - destruct Hn as (_ & _ & Hv & Ha & _). by apply string_predicate_wf.
  - destruct Hn as (_ & _ & Hv & Ha & _). by apply string_predicate_wf.
  - destruct Hn as (_ & _ & Hv & Ha & _). apply string_predicate_wf; [done|by rewrite Ha].
  - destruct Hn as (_ & _ & Hv & Ha & _). apply string_predicate_wf; [done|by rewrite Ha].
  - destruct Hn as (_ & _ & Hr & _). by apply range_predicate_wf.
  - constructor. constructor; [constructor|]. rewrite !list.Forall_app. split_and!; apply text_member_wf.
  - destruct Hn as (_ & _ & _ & Ha). constructor. constructor; [constructor|]. constructor; [|constructor].
    by apply any_json_wf.
Qed.

(** ** The properties *)

(** C23. Writing a well-formed selector, or no selector: either the call succeeds and
    the file has been handed exactly the text of the selector's AST, a JSON value
    whose numbers are JSON numbers; or a write or the flush failed, the status is
    an I/O error, and the file has been handed a prefix of that text.  No pointer
    of the selector is read while NULL. *)
Theorem write_json_correct short number_json s k flush_ok :
  (forall t, s = Some t -> tree_ok t) ->
  let ast := match s with None => JObject [] | Some t => selector_json t end in
  json_wf ast /\
  exists st k', selector_write_json_method short number_json s true flush_ok k = Some (st, k') /\
    ((st = inr tt /\ flush_ok = true /\ written k' = written k ++ json_text ast) \/
     (st = inl io_failure /\ (flush_ok = false \/ exists n, short n <> None) /\
      exists p, p `prefix_of` json_text ast /\ written k' = written k ++ p)).
Proof.
  intros Hs ast. split.
  { destruct s as [t|]; [by apply selector_json_wf, Hs|by constructor]. }
  assert (emits short match s with
    | None => write_no_selector short
    | Some t => write_selector_json short number_json t end (json_text ast) tt) as He.
  { destruct s as [t|]; [by apply emits_selector, Hs|apply emits_no_selector]. }
  unfold selector_write_json_method. cbn [negb].
  match type of He with emits _ ?c _ _ => set (m := c) in * end. clearbody m. specialize (He k).
  unfold mbind, W_bind. destruct (m k) as [[[e|[]] k']|]; [| |done].
  - destruct He as (-> & Hn & Hp). eexists _, _. split; [done|]. right. split_and!; auto.
  - destruct He as [_ Hw]. destruct flush_ok; cbn [negb].
    + eexists _, _. split; [done|]. by left.
    + eexists _, _. split; [done|]. right. split_and!; [done|by left|]. exists (json_text ast).
      split; [done|]. done.
Qed.

Definition write_example : lql_selector :=
  with_children (selector_zero LQL_SELECTOR_KIND_AND)
    [with_field (selector_zero LQL_SELECTOR_KIND_EXISTS) (Some (bs "/a"))].

Lemma write_json_correct_witness :
  tree_ok write_example /\
  json_text (selector_json write_example) =
    [123; 34; 97; 110; 100; 34; 58; 91; 123; 34; 101; 120; 105; 115; 116; 115; 34; 58; 34; 47; 97; 34;
     125; 93; 125] /\
  exists st k',
    selector_write_json_method (fun _ => None) (fun _ _ => None) (Some write_example) true true (mk_sink [] 0) =
      Some (st, k').
Proof.
  assert (tree_ok write_example) as H.
  { apply wrap_ok; [by left|]. apply leaf_ok; [done|]. split; [done|]. by exists (bs "/a"). }
  split; [exact H|]. split; [vm_compute; reflexivity|].
  destruct (write_json_correct (fun _ => None) (fun _ _ => None) (Some write_example) (mk_sink [] 0) true)
    as (_ & st & k' & E & _); [intros t Ht; injection Ht as <-; exact H|].
  exists st, k'. exact E.
Defined.
