(* ===== verification/SelectorShorthand.v ===== *)
(** * Shorthand predicates, from text to AST

    The shorthands [path=value], [path!=value] and [path<op>number] are read by
    the whole text parser as the predicates they stand for. *)

From S2P Require Import Prelude.
From S2P Require Import Number.
From S2P Require Import NumberSpec.
From S2P Require Import NumberParse.
From S2P Require Import Temporal.
From S2P Require Import TemporalProps.
From S2P Require Import Errors.
From S2P Require Import Selector.
From S2P Require Import Cursor.
From S2P Require Import SelectorLex.
From S2P Require Import SelectorLexProps.
From S2P Require Import SelectorParse.
From S2P Require Import SelectorParseProps.
From S2P Require Import SelectorJson.
From S2P Require Import SelectorJsonProps.

(** ** Plain texts *)

(** A character with no meaning of its own for the tokenizer or the operators. *)
Definition plain_char (c : Z) : bool :=
  negb (isspace c) && negb (is_quote c) && negb (c =? ch_lbrace) && negb (c =? ch_rbrace) &&
  negb (c =? ch_comma) && negb (c =? ch_eq) && negb (c =? ch_lt) && negb (c =? ch_gt) &&
  negb (c =? ch_bang) && negb (c =? 0).

Abbreviation plain := (Forall (fun c => plain_char c = true)).

(** A path segment of a shorthand. *)
Definition shorthand_segment (s : bytes) : Prop := plain_segment s /\ plain s.

Lemma plain_reads t : plain t -> reads 0 None t 0 None.
Proof.
  induction 1 as [|c t Hc _ IH]; [constructor|]. econstructor; [|exact IH].
  unfold token_step. unfold plain_char, isspace in Hc.
  assert (is_quote c = false) as -> by (destruct (is_quote c); lia).
  assert ((c =? ch_lbrace) = false) as -> by lia. assert ((c =? ch_rbrace) = false) as -> by lia.
  by assert (((c =? ch_comma) || (c =? ch_nl)) = false) as -> by lia.
Qed.

Lemma plain_path segs : Forall shorthand_segment segs -> plain (path_text segs).
Proof.
  induction 1 as [|s segs [_ Hs] _ IH]; [constructor|]. cbn [path_text flat_map].
  change (flat_map _ segs) with (path_text segs). constructor; [done|]. by apply list.Forall_app.
Qed.

Lemma number_plain t : lql_number_is_json t = true -> plain t.
Proof.
  intros H%is_json_chars. eapply Forall_impl; [|exact H]. intros c Hc.
  unfold plain_char, isspace, is_quote. unfold number_char, is_digit in Hc. lia.
Qed.

Lemma plain_trimmed t : plain t -> trimmed t.
Proof.
  intros H. assert (forall l, plain l -> isspace (at_ l 0) = false) as K.
  { intros l [|c l' Hc _]; [done|]. unfold plain_char in Hc. cbn. destruct (isspace c); done. }
  split; apply K; [done|]. by apply Forall_rev.
Qed.

(** ** The operator *)

Lemma find_operator_plain p rest before : plain p ->
  find_operator_loop (p ++ rest) before None = find_operator_loop rest (rev p ++ before) None.
Proof.
  intros H. revert before. induction H as [|c p Hc _ IH]; intros before; [done|].
  cbn [app find_operator_loop rev]. unfold plain_char in Hc.
  assert (is_quote c = false) as -> by (destruct (is_quote c); lia).
  assert (((c =? ch_bang) || (c =? ch_gt) || (c =? ch_lt)) = false) as -> by lia.
  assert (((c =? ch_eq) || (c =? ch_gt) || (c =? ch_lt)) = false) as -> by lia.
  cbn [andb]. rewrite IH. by rewrite <- app_assoc.
Qed.

(** The operators of the shorthands. *)
Inductive shorthand_op := OpEq | OpNe | OpBound (k : bound_key).

Definition op_text (o : shorthand_op) : bytes :=
  match o with
  | OpEq => bs "=" | OpNe => bs "!="
  | OpBound Gt => bs ">" | OpBound Gte => bs ">=" | OpBound Lt => bs "<" | OpBound Lte => bs "<="
  end.

Lemma find_operator_here o value before :
  at_ value 0 <> ch_eq ->
  find_operator_loop (op_text o ++ value) before None = Some (rev before, op_text o ++ value).
Proof.
  intros Hv. assert ((at_ value 0 =? ch_eq) = false) as K by lia. unfold at_ in K.
  destruct o as [| |[]]; cbn; rewrite ?K; destruct value; reflexivity.
Qed.

(** ** One shorthand *)

Lemma slash_no_wrapper t :
  at_ t 0 = ch_slash -> parse_simple_wrapper t = None /\ parse_indexed_wrapper t = None.
Proof. destruct t as [|c t]; [done|]. cbn [at_ nth]. by intros ->. Qed.

Lemma parse_one_shorthand fuel t before op :
  at_ t 0 = ch_slash -> (2 <= length t)%nat -> find_shorthand_operator t = Some (before, op) ->
  parse_one fuel t = Some (parse_shorthand before op).
Proof.
  intros H0 Hl Hop. destruct (slash_no_wrapper t H0) as [Hs _].
  assert (bytes_eqb t (bs "/") || bytes_eqb t (bs ".") || bytes_eqb t (bs "{}") = false) as Ha.
  { unfold bytes_eqb. destruct t as [|c [|d t]]; [done|cbn in Hl; lia|]. cbn in H0. subst c.
    rewrite !bool_decide_eq_false_2 by done. done. }
  destruct fuel; cbn [parse_one]; rewrite Ha, Hs, H0, Hop; done.
Qed.

Lemma parse_single t before op or_mode :
  token t -> at_ t 0 = ch_slash -> (2 <= length t)%nat ->
  find_shorthand_operator t = Some (before, op) ->
  lql_parse_selector_internal true (Some t) or_mode true = Some (parse_shorthand before op).
Proof.
  intros Ht H0 Hl Hop. unfold lql_parse_selector_internal. cbn [negb].
  assert (split_top t = inr [t]) as ->.
  { unfold split_top. pose proof (split_join_loop [] t [] ltac:(by apply Forall_cons)) as H.
    cbn [flat_map] in H. by rewrite app_nil_r in H. }
  destruct (slash_no_wrapper t H0) as [Hs Hi]. rewrite Hi.
  assert (token_contains_indexed_wrapper (length t) t = Some false) as ->.
  { destruct (length t); cbn [token_contains_indexed_wrapper]; by rewrite Hi, Hs. }
  destruct t as [|c t]; [done|]. by apply parse_one_shorthand.
Qed.

(** A shorthand with a path of plain segments. *)
Lemma parse_shorthand_text s segs o value or_mode :
  Forall shorthand_segment (s :: segs) -> value <> [] -> isspace (at_ (rev value) 0) = false ->
  reads 0 None value 0 None -> at_ value 0 <> ch_eq ->
  lql_parse_selector_internal true (Some (path_text (s :: segs) ++ op_text o ++ value)) or_mode true =
  Some (parse_shorthand (path_text (s :: segs)) (op_text o ++ value)).
Proof.
  intros HF Hv Hsp Hr Heq. pose proof (plain_path _ HF) as Hp. apply parse_single.
  - split; [done|]. split.
    + split; [done|]. rewrite !rev_app_distr. destruct (rev value) as [|c r] eqn:E; [|done].
      apply (f_equal (@rev Z)) in E. rewrite rev_involutive in E. done.
    + eapply reads_app; [by apply plain_reads|]. eapply reads_app; [|exact Hr].
      destruct o as [| |[]]; repeat (econstructor; [vm_compute; reflexivity|]); constructor.
  - done.
  - cbn [path_text flat_map app length]. rewrite !length_app. destruct value; [done|]. cbn [length]. lia.
  - unfold find_shorthand_operator. rewrite find_operator_plain, find_operator_here by done.
    by rewrite app_nil_r, rev_involutive.
Qed.

Lemma shorthand_path s segs : Forall shorthand_segment (s :: segs) ->
  normalize_field_path (trim (path_text (s :: segs))) = Some (path_text (flat_map expand_segment (s :: segs))).
Proof.
  intros HF. rewrite trim_id by by apply plain_trimmed, plain_path. apply normalize_segments.
  eapply Forall_impl; [|exact HF]. by intros x [? _].
Qed.

(** ** Quoted values *)

(** A text that may stand between two quotes [q]. *)
Definition quotable (q : Z) (v : bytes) : Prop := Forall (fun c => c <> q /\ c <> ch_backslash /\ c <> 0) v.

Lemma quote_step q : is_quote q = true -> token_step 0 None q = Some (0%nat, Some q).
Proof. intros H. unfold token_step. by rewrite H. Qed.

Lemma quoted_reads q v : is_quote q = true -> quotable q v -> reads 0 None (q :: v ++ [q]) 0 None.
Proof.
  intros Hq Hv. econstructor; [by apply quote_step|].
  assert ((q =? ch_backslash) = false) as Hqb by (unfold is_quote in Hq; lia).
  induction Hv as [|c v (H1 & H2 & _) _ IH].
  - econstructor; [|constructor]. cbn [token_step]. by rewrite Hqb, Z.eqb_refl.
  - cbn [app]. econstructor; [|exact IH]. cbn [token_step].
    assert ((c =? ch_backslash) = false) as -> by lia. by assert ((c =? q) = false) as -> by lia.
Qed.

Lemma quoted_rev q v : at_ (rev (q :: v ++ [q])) 0 = q.
Proof. cbn [rev]. by rewrite rev_app_distr. Qed.

Lemma quote_not_space q : is_quote q = true -> isspace q = false.
Proof. unfold is_quote, isspace. lia. Qed.

(** ** The normal path has no NUL *)

Lemma segment_base_chars s base n : plain s -> segment_base s = (base, n) -> plain base.
Proof.
  intros Hs. unfold segment_base. destruct (_ || _ || _ || _ || _); [by intros [= <- _]|].
  destruct (strip_brackets (rev s) 0) as [r k] eqn:E. intros [= <- _].
  apply strip_brackets_spec in E as (_ & E & _). apply Forall_rev.
  apply Forall_rev in Hs. rewrite E in Hs. by apply list.Forall_app in Hs as [_ Hs].
Qed.

Lemma expanded_plain segs : Forall shorthand_segment segs -> plain (path_text (flat_map expand_segment segs)).
Proof.
  induction 1 as [|s segs [_ Hs] _ IH]; [constructor|]. cbn [flat_map]. rewrite path_text_app.
  apply list.Forall_app. split; [|exact IH]. rewrite path_text_expand.
  destruct (segment_base s) as [base n] eqn:E. constructor; [done|]. apply list.Forall_app.
  split; [by apply (segment_base_chars s base n)|]. clear. induction n as [|n IH]; [constructor|].
  cbn [repeat concat]. apply list.Forall_app. split; [|exact IH]. repeat (constructor; [by vm_compute|]). constructor.
Qed.

Lemma plain_cstr t : plain t -> cstr t = t.
Proof.
  intros H. apply cstr_id. eapply Forall_impl; [|exact H]. intros c Hc. unfold plain_char in Hc. lia.
Qed.

(** The normal path of the segments, as the AST holds it. *)
Definition path_json (segs : list bytes) : bytes * json :=
  (bs "field", JString (path_text (flat_map expand_segment segs))).

Lemma prepared_predicate s : string_predicate (prepare_selector_value_temporal s) = string_predicate s.
Proof. by destruct (prepare_value_temporal s) as (b & t & ->). Qed.

Lemma quoted_value q v : is_quote q = true ->
  trim (q :: v ++ [q]) = q :: v ++ [q] /\ unquote (q :: v ++ [q]) = v /\ is_quote (at_ (q :: v ++ [q]) 0) = true.
Proof.
  intros Hq. split_and!; [|by apply unquote_quoted|done]. apply trim_id. split; [by apply quote_not_space|].
  rewrite quoted_rev. by apply quote_not_space.
Qed.

(** The value text of a numeric bound is trimmed, unquoted and typed. *)
Lemma number_first t : lql_number_is_json t = true ->
  exists c r, t = c :: r /\ number_char c = true /\ is_quote c = false /\ c <> ch_eq.
Proof.
  intros H. pose proof (is_json_chars t H) as HF. destruct t as [|c r]; [by vm_compute in H|].
  inversion HF as [|? ? Hc _]; subst. exists c, r. split_and!; [done|done| |];
    unfold number_char, is_digit, is_quote in *; lia.
Qed.

(** A JSON number is no date: a date has a minus sign after four digits. *)
Lemma number_not_temporal t u : lql_parse_temporal_literal t = Some u -> lql_number_is_json t = false.
Proof.
  intros Hp. destruct (lql_number_is_json t) eqn:Hj; [exfalso|done].
  assert (parse_temporal_general t true true true = Some u) as Hg.
  { unfold lql_parse_temporal_literal, parse_temporal_literal_with_options in Hp.
    destruct (parse_temporal_fast t true true) as [w|] eqn:E; [|done]. injection Hp as <-.
    by apply fast_general. }
  clear Hp. unfold parse_temporal_general in Hg. cbn [negb andb] in Hg.
  rewrite drop_while_stopped in Hg by by apply plain_trimmed, number_plain.
  destruct (parse_ndigits t 4) as [[y p]|] eqn:E1; [|done]. cbn in Hg.
  destruct (take_char ch_minus p) as [p'|] eqn:E2; [|done]. clear Hg.
  apply take_char_spec in E2 as ->. apply ndigits_field in E1 as (X & -> & Hl & Hd & _).
  apply is_json_number in Hj as (m & e & neg & i & f & fd & x & v & Et & Hi & Hf & Hx & _).
  assert (forall (l : bytes) r, all_digits l -> stops_digits r -> span is_digit (l ++ r) = (l, r)) as Hspan.
  { intros l r Hl' Hr. induction Hl' as [|c l Hc _ IH]; [|cbn; by rewrite Hc, IH].
    destruct r as [|c r]; [done|]. cbn in Hr |- *. by rewrite Hr. }
  destruct neg; cbn [app] in Et.
  - destruct X as [|c X]; [done|]. injection Et as -> _. by inversion Hd.
  - apply (f_equal (span is_digit)) in Et. rewrite Hspan in Et by done.
    rewrite Hspan in Et by (first [apply Hi | by eapply frac_text_stops]). injection Et as _ Et.
    destruct Hf as [[-> _]|(-> & _)]; [|done]. destruct Hx as [[-> _]|(c & sg & ed & -> & [-> | ->] & _)]; done.
Qed.

(** ** The parse of a shorthand *)

Definition bound_name (k : bound_key) : string :=
  match k with Gt => "gt" | Gte => "gte" | Lt => "lt" | Lte => "lte" end.

Lemma parse_shorthand_op before o raw f :
  normalize_field_path (trim before) = Some f -> at_ raw 0 <> ch_eq ->
  parse_shorthand before (op_text o ++ raw) =
  (let rv := trim raw in
   let v := unquote rv in
   let quoted := is_quote (at_ rv 0) in
   let out := with_value (with_value_is_string (with_field (selector_zero LQL_SELECTOR_KIND_ALL) (Some f)) quoted)
                (Some v) true (if quoted then LQL_SELECTOR_LITERAL_STRING else selector_literal_kind v) in
   match o with
   | OpEq => inr (prepare_selector_value_temporal (with_kind out LQL_SELECTOR_KIND_EQ))
   | OpNe => inr (prepare_selector_value_temporal (with_kind out LQL_SELECTOR_KIND_NE))
   | OpBound k =>
       match set_range_bound out (bs (bound_name k)) v with
       | inl e => inl e
       | inr out => inr (with_kind out LQL_SELECTOR_KIND_RANGE)
       end
   end).
Proof.
  intros Hf Hr. unfold parse_shorthand. rewrite Hf. cbv zeta.
  assert ((at_ raw 0 =? ch_eq) = false) as K by lia. unfold at_ in K.
  change (op_text OpNe) with [ch_bang; ch_eq].
  destruct o as [| |k]; [change (op_text OpEq) with [ch_eq]|change (op_text OpNe) with [ch_bang; ch_eq]|destruct k;
    [change (op_text (OpBound Gt)) with [ch_gt]|change (op_text (OpBound Gte)) with [ch_gt; ch_eq]
    |change (op_text (OpBound Lt)) with [ch_lt]|change (op_text (OpBound Lte)) with [ch_lt; ch_eq]]];
    unfold at_; cbn [app nth]; rewrite ?K; reflexivity.
Qed.

(** ** The properties *)

(** C24. Equality shorthands, from text to AST: [path="v"] and [path!="v"], with either
    quote, on any path of plain segments and any value without the quote, are
    read as the (negated) equality of the normalised path and the string between
    the quotes, never as a typed literal. *)
Theorem shorthand_equality s segs (negated : bool) q v or_mode :
  Forall shorthand_segment (s :: segs) -> is_quote q = true -> quotable q v ->
  exists out,
    lql_parse_selector_internal true
      (Some (path_text (s :: segs) ++ op_text (if negated then OpNe else OpEq) ++ q :: v ++ [q]))
      or_mode true = Some (inr out) /\
    selector_json out =
      (let eq := operator "eq" (JObject [path_json (s :: segs); (bs "value", JString v)]) in
       if negated then operator "not" eq else eq).
Proof.
  intros HF Hq Hv. rewrite parse_shorthand_text;
    [|done|done|by rewrite quoted_rev; apply quote_not_space|by apply quoted_reads|
     unfold is_quote in Hq; cbn; lia].
  assert (at_ (q :: v ++ [q]) 0 <> ch_eq) as Hqe by (unfold is_quote in Hq; cbn; lia).
  rewrite (parse_shorthand_op _ _ _ _ (shorthand_path s segs HF) Hqe). cbv zeta.
  destruct (quoted_value q v Hq) as (-> & -> & ->).
  pose proof (plain_cstr _ (expanded_plain _ HF)) as Ec. unfold path_json.
  set (path := path_text (flat_map expand_segment (s :: segs))) in *. clearbody path.
  assert (forall k, string_predicate (with_kind (with_value (with_value_is_string (with_field
      (selector_zero LQL_SELECTOR_KIND_ALL) (Some path)) true) (Some v) true LQL_SELECTOR_LITERAL_STRING) k) =
    JObject [(bs "field", JString path); (bs "value", JString v)]) as Hpred.
  { intros k. unfold string_predicate, field_member. cbn. by rewrite Ec. }
  destruct negated; cbv iota; (eexists; split; [reflexivity|]); rewrite selector_json_unfold.
  - destruct (value_temporal_fields (with_kind (with_value (with_value_is_string (with_field
      (selector_zero LQL_SELECTOR_KIND_ALL) (Some path)) true) (Some v) true LQL_SELECTOR_LITERAL_STRING)
      LQL_SELECTOR_KIND_NE)) as [-> _]. by rewrite prepared_predicate, Hpred.
  - destruct (value_temporal_fields (with_kind (with_value (with_value_is_string (with_field
      (selector_zero LQL_SELECTOR_KIND_ALL) (Some path)) true) (Some v) true LQL_SELECTOR_LITERAL_STRING)
      LQL_SELECTOR_KIND_EQ)) as [-> _]. by rewrite prepared_predicate, Hpred.
Qed.

(** Comparison shorthands, from text to AST: [path>n], [path>=n], [path<n] and
    [path<=n] with a JSON number, whatever its size, are read as the range with
    that one bound, whose text is kept as written. *)
Theorem shorthand_range s segs k n or_mode :
  Forall shorthand_segment (s :: segs) -> lql_number_is_json n = true ->
  exists out,
    lql_parse_selector_internal true (Some (path_text (s :: segs) ++ op_text (OpBound k) ++ n))
      or_mode true = Some (inr out) /\
    selector_json out =
      operator "range" (JObject [path_json (s :: segs); (bs (bound_name k), JNumber n)]).
Proof.
  intros HF Hn. pose proof (number_plain n Hn) as Hp. pose proof (plain_trimmed n Hp) as [Ht1 Ht2].
  destruct (number_first n Hn) as (c & r & Ec & _ & Hcq & Hce).
  assert (at_ n 0 <> ch_eq) as Hne by by rewrite Ec.
  assert (is_quote (at_ n 0) = false) as Hnq by by rewrite Ec.
  rewrite parse_shorthand_text by (first [done | by rewrite Ec | by apply plain_reads]).
  rewrite (parse_shorthand_op _ _ _ _ (shorthand_path s segs HF) Hne). cbv zeta.
  rewrite (trim_id n) by done. rewrite unquote_plain by done. rewrite Hnq.
  unfold set_range_bound. rewrite (trim_id n) by done. rewrite Hn.
  destruct (lql_parse_temporal_literal n) as [u|] eqn:Et.
  { apply number_not_temporal in Et. congruence. }
  cbn [negb]. eexists. split; [reflexivity|]. rewrite selector_json_unfold.
  cbn [kind with_kind with_range]. unfold range_predicate, field_member, path_json, operator.
  pose proof (plain_cstr _ (expanded_plain _ HF)) as Ep. cbn [field with_kind with_range with_value default].
  destruct k; cbn -[path_text cstr flat_map]; by rewrite Ep.
Qed.

Lemma shorthand_equality_witness :
  exists out,
    lql_parse_selector_internal true (Some (bs "/user/tags[]!='it is'")) false true = Some (inr out) /\
    selector_json out =
      operator "not" (operator "eq" (JObject
        [(bs "field", JString (bs "/user/tags/[]")); (bs "value", JString (bs "it is"))])).
Proof.
  apply (shorthand_equality (bs "user") [bs "tags[]"] true ch_apos (bs "it is") false).
  - repeat constructor; done.
  - reflexivity.
  - repeat constructor; done.
Defined.

Lemma shorthand_range_witness :
  exists out,
    lql_parse_selector_internal true (Some (bs "/price<=1.5e3")) true true = Some (inr out) /\
    selector_json out =
      operator "range" (JObject [(bs "field", JString (bs "/price")); (bs "lte", JNumber (bs "1.5e3"))]).
Proof.
  apply (shorthand_range (bs "price") [] Lte (bs "1.5e3") true).
  - repeat constructor; done.
  - vm_compute. reflexivity.
Defined.
