(* ===== verification/SelectorJsonScan.v ===== *)
(** * Parsing a selector from JSON (src/lql_selector.c)

    The event machine that builds a selector from JSON events, the JSON scanner
    that drives it, and [lql_parse_selector_json_internal].  The selector under
    construction is one tree; the [selector] pointer of a frame is the path of
    child indices to its node, so frames that share a node share it here too.
    Allocations are assumed to succeed.  A computation returns [None] when it
    runs out of fuel or follows a path to no node, which the theorems exclude. *)

From S2P Require Import Prelude.
From S2P Require Import Number.
From S2P Require Import Errors.
From S2P Require Import Selector.
From S2P Require Import Cursor.
From S2P Require Import SelectorLex.
From S2P Require Import SelectorParse.

(** ** Results and state *)

Definition R (A : Type) : Type := option (failure + A).

#[export] Instance R_ret : MRet R := fun A a => Some (inr a).
#[export] Instance R_bind : MBind R := fun A B f x =>
  match x with
  | None => None
  | Some (inl e) => Some (inl e)
  | Some (inr a) => f a
  end.

Definition fail {A} (status : lql_status) (message : string) : R A := Some (inl (status, message)).
Definition parse_fail {A} (message : string) : R A := fail LQL_STATUS_PARSE_ERROR message.
Definition selector_json_scan_fail {A} (message : string) : R A := fail LQL_STATUS_JSON_ERROR message.

Inductive selector_json_frame_kind :=
  | SELECTOR_JSON_FRAME_SELECTOR
  | SELECTOR_JSON_FRAME_CHILD_ARRAY
  | SELECTOR_JSON_FRAME_PREDICATE
  | SELECTOR_JSON_FRAME_ANY_ARRAY.

#[export] Instance frame_kind_eq_dec : EqDecision selector_json_frame_kind.
Proof. solve_decision. Defined.

(** A frame; [key_count] is 0 or 1, [seen] are the [seen_*] flags that are set. *)
Record selector_json_frame := mk_frame {
  frame_kind : selector_json_frame_kind;
  frame_selector : list nat;
  pending_key : option bytes;
  key_count : bool;
  seen : list seen_slot
}.

(** [frames] has the top first. *)
Record selector_json_state := mk_state {
  root : lql_selector;
  frames : list selector_json_frame;
  text : bytes
}.

(** The node at a path, and the tree with another node there. *)
Fixpoint node_at (s : lql_selector) (path : list nat) {struct path} : option lql_selector :=
  match path with
  | [] => Some s
  | i :: path => c ← children s !! i; node_at c path
  end.

Fixpoint set_node (s : lql_selector) (path : list nat) (x : lql_selector) {struct path}
    : lql_selector :=
  match path with
  | [] => x
  | i :: path => with_children s (alter (fun c => set_node c path x) i (children s))
  end.

(** [*frame->selector] *)
Definition deref (state : selector_json_state) (frame : selector_json_frame) : R lql_selector :=
  match node_at (root state) (frame_selector frame) with
  | Some s => mret s
  | None => None
  end.

(** [*frame->selector = x] *)
Definition assign (state : selector_json_state) (frame : selector_json_frame) (x : lql_selector)
    : selector_json_state :=
  mk_state (set_node (root state) (frame_selector frame) x) (frames state) (text state).

Definition with_frames (state : selector_json_state) (fs : list selector_json_frame) :=
  mk_state (root state) fs (text state).
Definition with_text (state : selector_json_state) (t : bytes) :=
  mk_state (root state) (frames state) t.

Definition with_pending (frame : selector_json_frame) (key : option bytes) : selector_json_frame :=
  mk_frame (frame_kind frame) (frame_selector frame) key (key_count frame) (seen frame).

Definition selector_json_push_frame (state : selector_json_state) (kind : selector_json_frame_kind)
    (selector : list nat) : selector_json_state :=
  with_frames state (mk_frame kind selector None false [] :: frames state).

Definition selector_json_pop_frame (state : selector_json_state) : selector_json_state :=
  with_frames state (tail (frames state)).

(** The top frame replaced; [rest] are the frames under it. *)
Definition set_top (state : selector_json_state) (frame : selector_json_frame)
    (rest : list selector_json_frame) : selector_json_state :=
  with_frames state (frame :: rest).

Definition contains_nul (t : bytes) : bool := existsb (Z.eqb 0) t.

(** A step on strings, numbers and keys: [selector_json_reset_text] at the
    beginning, [selector_json_append_text] of each chunk. *)
Definition selector_json_set_text := with_text.

(** ** Keys *)

Definition selector_json_kind_is_valid_operator (kind : lql_selector_kind) : bool :=
  match kind with
  | LQL_SELECTOR_KIND_ALL | LQL_SELECTOR_KIND_NE => false
  | _ => true
  end.

(** The slot of a key in a predicate of kind [kind]; [None] for no slot. *)
Definition json_slot (kind : lql_selector_kind) (key : bytes) : option seen_slot :=
  let date := bool_decide (kind = LQL_SELECTOR_KIND_DATE) in
  if key_is_field key then Some SeenField
  else if key_is_value key then Some SeenValue
  else if key_is_ignore_case key then Some SeenIgnoreCase
  else if bytes_eqb key (bs "gt") then Some SeenGt
  else if bytes_eqb key (bs "gte") then Some SeenGte
  else if bytes_eqb key (bs "lt") then Some SeenLt
  else if bytes_eqb key (bs "lte") then Some SeenLte
  else if key_is_after key && date then Some SeenAfter
  else if key_is_before key && date then Some SeenBefore
  else if key_is_since key then Some SeenSince
  else if key_is_any key then Some SeenAny
  else None.

Definition has_seen (seen : list seen_slot) (slot : seen_slot) : bool := bool_decide (slot ∈ seen).

(** [selector_json_mark_seen]: the flags after, [None] for a duplicate. *)
Definition selector_json_mark_seen (kind : lql_selector_kind) (seen : list seen_slot) (key : bytes)
    : option (list seen_slot) :=
  match json_slot kind key with
  | None => Some seen
  | Some slot => if has_seen seen slot then None else Some (slot :: seen)
  end.

Definition selector_json_end_key (state : selector_json_state) : R selector_json_state :=
  if contains_nul (text state) then parse_fail "selector JSON key contains NUL"
  else
    match frames state with
    | [] => parse_fail "unexpected selector JSON object key"
    | frame :: rest =>
        match frame_kind frame with
        | SELECTOR_JSON_FRAME_CHILD_ARRAY | SELECTOR_JSON_FRAME_ANY_ARRAY =>
            parse_fail "unexpected selector JSON object key"
        | SELECTOR_JSON_FRAME_SELECTOR =>
            let kind := kind_from_name (text state) in
            if negb (selector_json_kind_is_valid_operator kind) then
              parse_fail "unknown selector JSON operator"
            else if key_count frame then parse_fail "selector JSON object has multiple operators"
            else
              selector ← deref state frame;
              let state := assign state frame (with_kind selector kind) in
              mret (set_top state
                      (mk_frame (frame_kind frame) (frame_selector frame) (Some (text state)) true
                         (seen frame)) rest)
        | SELECTOR_JSON_FRAME_PREDICATE =>
            selector ← deref state frame;
            if negb (key_allowed_for_kind (kind selector) (text state)) then
              parse_fail "selector operator does not support key"
            else
              match selector_json_mark_seen (kind selector) (seen frame) (text state) with
              | None => parse_fail "selector expression has duplicate key"
              | Some seen =>
                  mret (set_top state
                          (mk_frame (frame_kind frame) (frame_selector frame) (Some (text state))
                             (key_count frame) seen) rest)
              end
        end
    end.

(** ** Objects and arrays *)

(** Append a zeroed child to the node of [frame] and push a frame for it. *)
Definition selector_json_append_child (state : selector_json_state) (frame : selector_json_frame)
    : R selector_json_state :=
  selector ← deref state frame;
  let path := frame_selector frame ++ [length (children selector)] in
  let state := assign state frame (append_selector selector (selector_zero LQL_SELECTOR_KIND_ALL)) in
  mret (selector_json_push_frame state SELECTOR_JSON_FRAME_SELECTOR path).

Definition selector_json_object_begin (state : selector_json_state) : R selector_json_state :=
  match frames state with
  | [] => mret (selector_json_push_frame state SELECTOR_JSON_FRAME_SELECTOR [])
  | frame :: rest =>
      if bool_decide (frame_kind frame = SELECTOR_JSON_FRAME_CHILD_ARRAY) then
        selector_json_append_child state frame
      else if negb (bool_decide (frame_kind frame = SELECTOR_JSON_FRAME_SELECTOR)) ||
              negb (is_some (pending_key frame)) then
        parse_fail "unexpected selector JSON object"
      else
        selector ← deref state frame;
        if bool_decide (kind selector = LQL_SELECTOR_KIND_NOT) then
          selector_json_append_child (set_top state (with_pending frame None) rest) frame
        else if selector_is_predicate selector &&
                negb (bool_decide (kind selector = LQL_SELECTOR_KIND_EXISTS)) then
          mret (selector_json_push_frame (set_top state (with_pending frame None) rest)
                  SELECTOR_JSON_FRAME_PREDICATE (frame_selector frame))
        else parse_fail "unexpected selector JSON object"
  end.

(** The checks at the end of a predicate, in their order. *)
Definition selector_json_validate_predicate (selector : lql_selector) (seen : list seen_slot)
    : failure + lql_selector :=
  let isk k := bool_decide (kind selector = k) in
  if negb (is_some (field selector)) then parse_error "selector field required"
  else if isk LQL_SELECTOR_KIND_IN && bool_decide (any selector = []) then
    parse_error "in selector requires any values"
  else if (isk LQL_SELECTOR_KIND_CONTAINS || isk LQL_SELECTOR_KIND_ICONTAINS) &&
          negb (bool_decide (any selector = [])) && (value_set selector || is_some (value selector)) then
    parse_error "selector cannot set both value and any"
  else if isk LQL_SELECTOR_KIND_RANGE && negb (any_number_bound selector) &&
          negb (any_temporal_bound selector) then
    parse_error "range selector requires at least one bound"
  else if isk LQL_SELECTOR_KIND_RANGE && any_number_bound selector && any_temporal_bound selector then
    parse_error "range selector cannot mix numeric and datetime bounds"
  else if isk LQL_SELECTOR_KIND_DATE && has_seen seen SeenSince &&
          existsb (has_seen seen)
            [SeenValue; SeenAfter; SeenBefore; SeenGt; SeenGte; SeenLt; SeenLte] then
    parse_error "date selector since cannot be combined with other bounds"
  else if isk LQL_SELECTOR_KIND_DATE && has_seen seen SeenAfter && has_seen seen SeenGt then
    parse_error "date selector cannot combine after and gt"
  else if isk LQL_SELECTOR_KIND_DATE && has_seen seen SeenBefore && has_seen seen SeenLt then
    parse_error "date selector cannot combine before and lt"
  else if isk LQL_SELECTOR_KIND_DATE && negb (has_temporal_eq selector) &&
          negb (any_temporal_bound selector) && bool_decide (since_macro selector = LQL_SINCE_NONE) then
    parse_error "date selector requires at least one bound"
  else inr (prepare_selector_value_temporal selector).

Definition lift {A} (r : failure + A) : R A := Some r.

Definition selector_json_object_end (state : selector_json_state) : R selector_json_state :=
  match frames state with
  | [] => parse_fail "unexpected selector JSON object end"
  | frame :: rest =>
      if negb (bool_decide (frame_kind frame = SELECTOR_JSON_FRAME_SELECTOR) ||
               bool_decide (frame_kind frame = SELECTOR_JSON_FRAME_PREDICATE)) then
        parse_fail "unexpected selector JSON object end"
      else if is_some (pending_key frame) then parse_fail "selector JSON key has no value"
      else if bool_decide (frame_kind frame = SELECTOR_JSON_FRAME_SELECTOR) then
        selector ← deref state frame;
        let selector :=
          if key_count frame then selector else with_kind selector LQL_SELECTOR_KIND_ALL in
        if bool_decide (kind selector = LQL_SELECTOR_KIND_NOT) &&
           negb (length (children selector) =? 1)%nat then
          parse_fail "not selector requires one child"
        else mret (selector_json_pop_frame (assign state frame selector))
      else
        selector ← deref state frame;
        selector ← lift (selector_json_validate_predicate selector (seen frame));
        let selector :=
          if string_predicate_is_match_all_alias (kind selector) selector
          then selector_zero LQL_SELECTOR_KIND_ALL else selector in
        mret (selector_json_pop_frame (assign state frame selector))
  end.

Definition selector_json_array_begin (state : selector_json_state) : R selector_json_state :=
  match frames state with
  | frame :: rest =>
      match pending_key frame with
      | Some key =>
          selector ← deref state frame;
          let state' := set_top state (with_pending frame None) rest in
          if bool_decide (frame_kind frame = SELECTOR_JSON_FRAME_SELECTOR) &&
             (bool_decide (kind selector = LQL_SELECTOR_KIND_AND) ||
              bool_decide (kind selector = LQL_SELECTOR_KIND_OR)) then
            mret (selector_json_push_frame state' SELECTOR_JSON_FRAME_CHILD_ARRAY (frame_selector frame))
          else if bool_decide (frame_kind frame = SELECTOR_JSON_FRAME_PREDICATE) && key_is_any key then
            mret (selector_json_push_frame state' SELECTOR_JSON_FRAME_ANY_ARRAY (frame_selector frame))
          else parse_fail "unexpected selector JSON array"
      | None => parse_fail "unexpected selector JSON array"
      end
  | [] => parse_fail "unexpected selector JSON array"
  end.

Definition selector_json_array_end (state : selector_json_state) : R selector_json_state :=
  match frames state with
  | frame :: _ =>
      if bool_decide (frame_kind frame = SELECTOR_JSON_FRAME_CHILD_ARRAY) ||
         bool_decide (frame_kind frame = SELECTOR_JSON_FRAME_ANY_ARRAY)
      then mret (selector_json_pop_frame state)
      else parse_fail "unexpected selector JSON array end"
  | [] => parse_fail "unexpected selector JSON array end"
  end.

(** ** Strings and scalars *)

(** [selector_json_store_field] *)
Definition selector_json_store_field (selector : lql_selector) (value : bytes) : failure + lql_selector :=
  set_field selector value.

Definition textual_kind (selector : lql_selector) (kind' : lql_selector_literal_kind) :=
  if selector_kind_uses_textual_needles (kind selector) then LQL_SELECTOR_LITERAL_STRING else kind'.

Definition selector_json_store_value (selector : lql_selector) (value : bytes)
    (kind : lql_selector_literal_kind) : lql_selector :=
  let kind := textual_kind selector kind in
  with_value_from_json
    (with_value_is_string (with_value selector (Some value) true kind)
       (bool_decide (kind = LQL_SELECTOR_LITERAL_STRING))) true.

Definition selector_json_push_any (selector : lql_selector) (value : bytes)
    (kind : lql_selector_literal_kind) : lql_selector :=
  with_any selector (any selector ++ [mk_any value (textual_kind selector kind) true]).

(** [selector_json_store_predicate_string]: what a string does to the predicate
    under its pending key. *)
Definition predicate_string (selector : lql_selector) (key text : bytes) : failure + lql_selector :=
  let date := bool_decide (kind selector = LQL_SELECTOR_KIND_DATE) in
  if key_is_field key then
    if contains_nul text then parse_error "selector field contains NUL"
    else selector_json_store_field selector text
  else if date && key_is_value key then
    if contains_nul text then parse_error "date selector bound contains NUL"
    else set_date_bound selector SlotValue text
  else if key_is_value key then
    inr (selector_json_store_value selector text LQL_SELECTOR_LITERAL_STRING)
  else if date && (key_is_after key || key_is_before key || key_is_since key) then
    if contains_nul text then parse_error "date selector bound contains NUL"
    else
      set_date_bound selector
        (if key_is_after key then SlotAfter else if key_is_before key then SlotBefore else SlotSince) text
  else if key_is_any key then
    if contains_nul text then parse_error "selector any contains NUL"
    else
      parse_any_values text selector (bool_decide (kind selector = LQL_SELECTOR_KIND_IN))
        (selector_kind_uses_textual_needles (kind selector))
  else if key_is_ignore_case key then
    if contains_nul text then parse_error "selector ignoreCase contains NUL"
    else
      match parse_bool_value text with
      | None => parse_error "selector ignoreCase must be true/false/t/f"
      | Some b => inr (with_ignore_case selector b)
      end
  else if key_is_range_bound key then
    if contains_nul text then parse_error "range selector bound contains NUL"
    else if date then set_date_bound selector (SlotBound (bound_of_key key)) text
    else set_range_bound selector key text
  else inr selector.

Definition selector_json_string_end (state : selector_json_state) : R selector_json_state :=
  match frames state with
  | [] => parse_fail "unexpected selector JSON string"
  | frame :: rest =>
      selector ← deref state frame;
      let done selector := mret (set_top (assign state frame selector) (with_pending frame None) rest) in
      match frame_kind frame, pending_key frame with
      | SELECTOR_JSON_FRAME_SELECTOR, Some _ =>
          if bool_decide (kind selector = LQL_SELECTOR_KIND_EXISTS) then
            if at_ (text state) 0 =? 0 then parse_fail "exists selector requires exactly one path"
            else if contains_nul (text state) then parse_fail "exists selector path contains NUL"
            else
              selector ← lift (selector_json_store_field selector (text state));
              done selector
          else parse_fail "unexpected selector JSON string"
      | SELECTOR_JSON_FRAME_PREDICATE, Some key =>
          selector ← lift (predicate_string selector key (text state));
          done selector
      | SELECTOR_JSON_FRAME_ANY_ARRAY, _ =>
          mret (assign state frame
                  (selector_json_push_any selector (text state) LQL_SELECTOR_LITERAL_STRING))
      | _, _ => parse_fail "unexpected selector JSON string"
      end
  end.

(** [selector_json_store_scalar]: a number, boolean or null in the place of a value
    or of an [any] value. *)
Definition selector_json_store_scalar (frame : selector_json_frame) (selector : lql_selector)
    (value : bytes) (kind' : lql_selector_literal_kind) : failure + lql_selector :=
  if bool_decide (kind' = LQL_SELECTOR_LITERAL_NUMBER) && negb (lql_number_is_json value) then
    parse_error "selector JSON number is invalid"
  else
    match frame_kind frame, pending_key frame with
    | SELECTOR_JSON_FRAME_PREDICATE, Some key =>
        if key_is_value key && negb (bool_decide (kind selector = LQL_SELECTOR_KIND_DATE))
        then inr (selector_json_store_value selector value kind')
        else parse_error "unexpected selector JSON scalar"
    | SELECTOR_JSON_FRAME_ANY_ARRAY, _ => inr (selector_json_push_any selector value kind')
    | _, _ => parse_error "unexpected selector JSON scalar"
    end.

(** The end of a scalar: [store] on the node of the top frame, whose key is then
    consumed. *)
Definition store_on_top (state : selector_json_state)
    (store : selector_json_frame -> lql_selector -> failure + lql_selector) : R selector_json_state :=
  match frames state with
  | [] => parse_fail "unexpected selector JSON scalar"
  | frame :: rest =>
      selector ← deref state frame;
      selector ← lift (store frame selector);
      mret (set_top (assign state frame selector) (with_pending frame None) rest)
  end.

(** The top frame is a predicate with a pending key that [test] accepts. *)
Definition pending_is (frame : selector_json_frame) (test : bytes -> bool) : bool :=
  match frame_kind frame, pending_key frame with
  | SELECTOR_JSON_FRAME_PREDICATE, Some key => test key
  | _, _ => false
  end.

Definition selector_json_number_end (state : selector_json_state) : R selector_json_state :=
  store_on_top state (fun frame selector =>
    if pending_is frame key_is_range_bound && bool_decide (kind selector = LQL_SELECTOR_KIND_RANGE)
    then set_range_bound selector (default [] (pending_key frame)) (text state)
    else selector_json_store_scalar frame selector (text state) LQL_SELECTOR_LITERAL_NUMBER).

Definition selector_json_boolean (state : selector_json_state) (value : bool) : R selector_json_state :=
  store_on_top state (fun frame selector =>
    if pending_is frame key_is_ignore_case then inr (with_ignore_case selector value)
    else selector_json_store_scalar frame selector (bs (if value then "true" else "false"))
           LQL_SELECTOR_LITERAL_BOOL).

Definition selector_json_null (state : selector_json_state) : R selector_json_state :=
  store_on_top state (fun frame selector =>
    selector_json_store_scalar frame selector (bs "null") LQL_SELECTOR_LITERAL_NULL).

(** ** The scanner *)

(** [selector_json_scan_ws] *)
Definition json_space (c : Z) : bool := (c =? 32) || (c =? 9) || (c =? 13) || (c =? 10).
Definition selector_json_scan_ws (s : bytes) : bytes := drop_while json_space s.

Definition selector_json_hex_value (c : Z) : option Z :=
  if (ch_0 <=? c) && (c <=? ch_9) then Some (c - ch_0)
  else if (ch_a <=? c) && (c <=? ch_f) then Some (c - ch_a + 10)
  else if (ch_A <=? c) && (c <=? ch_F) then Some (c - ch_A + 10)
  else None.

(** The value of four digits; [value << 4 | digit]. *)
Definition selector_json_scan_hex4 (a b c d : Z) : option Z :=
  a ← selector_json_hex_value a;
  b ← selector_json_hex_value b;
  c ← selector_json_hex_value c;
  d ← selector_json_hex_value d;
  let push v d := Z.lor (Z.shiftl v 4) d in
  Some (push (push (push a b) c) d).

Definition selector_json_utf8_encode (cp : Z) : bytes :=
  if cp <=? 0x7f then [cp]
  else if cp <=? 0x7ff then
    [Z.lor 0xc0 (Z.shiftr cp 6); Z.lor 0x80 (Z.land cp 0x3f)]
  else if cp <=? 0xffff then
    [Z.lor 0xe0 (Z.shiftr cp 12); Z.lor 0x80 (Z.land (Z.shiftr cp 6) 0x3f);
     Z.lor 0x80 (Z.land cp 0x3f)]
  else
    [Z.lor 0xf0 (Z.shiftr cp 18); Z.lor 0x80 (Z.land (Z.shiftr cp 12) 0x3f);
     Z.lor 0x80 (Z.land (Z.shiftr cp 6) 0x3f); Z.lor 0x80 (Z.land cp 0x3f)].

(** The continuation bytes a lead byte asks for, with the range of the first. *)
Definition utf8_lead (c : Z) : option (nat * Z * Z) :=
  if (0xc2 <=? c) && (c <=? 0xdf) then Some (1%nat, 0x80, 0xbf)
  else if (0xe0 <=? c) && (c <=? 0xef) then
    Some (2%nat, if c =? 0xe0 then 0xa0 else 0x80, if c =? 0xed then 0x9f else 0xbf)
  else if (0xf0 <=? c) && (c <=? 0xf4) then
    Some (3%nat, if c =? 0xf0 then 0x90 else 0x80, if c =? 0xf4 then 0x8f else 0xbf)
  else None.

(** The escapes of one character. *)
Definition simple_escape (c : Z) : option Z :=
  if (c =? ch_quote) || (c =? ch_backslash) || (c =? ch_slash) then Some c
  else if c =? 98 then Some 8
  else if c =? ch_f then Some 12
  else if c =? 110 then Some 10
  else if c =? 114 then Some 13
  else if c =? 116 then Some 9
  else None.

Abbreviation bad_utf8 := (selector_json_scan_fail "invalid UTF-8 in JSON string").

(** The loop of [selector_json_scan_string] from the position after the opening
    quote: the text read so far (reversed) and the continuation bytes still due
    with the range of the next one; the text and the rest after the closing quote.
    A chunk is appended to the text when it ends; here character by character. *)
Fixpoint scan_string_loop (s acc : bytes) (due : nat * Z * Z) : R (bytes * bytes) :=
  match due, s with
  | (S remaining, lo, hi), [] => bad_utf8
  | (S remaining, lo, hi), c :: s =>
      if (c <? lo) || (hi <? c) then bad_utf8
      else scan_string_loop s (c :: acc) (remaining, 0x80, 0xbf)
  | (O, _, _), [] => selector_json_scan_fail "unterminated JSON string"
  | (O, _, _), c :: s =>
      if c =? ch_quote then mret (rev acc, s)
      else if c <? 0x20 then selector_json_scan_fail "JSON string contains control byte"
      else if negb (c =? ch_backslash) then
        if c <? 0x80 then scan_string_loop s (c :: acc) due
        else
          match utf8_lead c with
          | None => bad_utf8
          | Some due => scan_string_loop s (c :: acc) due
          end
      else
        match s with
        | [] => selector_json_scan_fail "JSON string escape is truncated"
        | e :: s =>
            if e =? 117 then
              match s with
              | h1 :: h2 :: h3 :: h4 :: s =>
                  match selector_json_scan_hex4 h1 h2 h3 h4 with
                  | None => selector_json_scan_fail "invalid JSON unicode escape"
                  | Some cp =>
                      if (0xd800 <=? cp) && (cp <=? 0xdbff) then
                        match s with
                        | b :: u :: l1 :: l2 :: l3 :: l4 :: s =>
                            match (if (b =? ch_backslash) && (u =? 117)
                                   then selector_json_scan_hex4 l1 l2 l3 l4 else None) with
                            | Some low =>
                                if (low <? 0xdc00) || (0xdfff <? low) then
                                  selector_json_scan_fail "JSON high surrogate is unpaired"
                                else
                                  let cp := 0x10000 + Z.lor (Z.shiftl (cp - 0xd800) 10) (low - 0xdc00) in
                                  scan_string_loop s (rev_append (selector_json_utf8_encode cp) acc) due
                            | None => selector_json_scan_fail "JSON high surrogate is unpaired"
                            end
                        | _ => selector_json_scan_fail "JSON high surrogate is unpaired"
                        end
                      else if (0xdc00 <=? cp) && (cp <=? 0xdfff) then
                        selector_json_scan_fail "JSON low surrogate is unpaired"
                      else scan_string_loop s (rev_append (selector_json_utf8_encode cp) acc) due
                  end
              | _ => selector_json_scan_fail "invalid JSON unicode escape"
              end
            else
              match simple_escape e with
              | None => selector_json_scan_fail "invalid JSON string escape"
              | Some c => scan_string_loop s (c :: acc) due
              end
        end
  end.

(** [selector_json_scan_string] *)
Definition selector_json_scan_string (key : bool) (state : selector_json_state) (s : bytes)
    : R (selector_json_state * bytes) :=
  match s with
  | [] => selector_json_scan_fail "JSON string expected"
  | c :: s =>
      if negb (c =? ch_quote) then selector_json_scan_fail "JSON string expected"
      else
        '(t, s) ← scan_string_loop s [] (0%nat, 0x80, 0xbf);
        let state := with_text state t in
        state ← (if key then selector_json_end_key state else selector_json_string_end state);
        mret (state, s)
  end.

(** ** Numbers *)

Definition invalid_number {A} : R A := selector_json_scan_fail "invalid JSON number".

(** One digit or more. *)
Definition scan_digits (s : bytes) : R (bytes * bytes) :=
  match span is_digit s with
  | ([], _) => invalid_number
  | r => mret r
  end.

Definition scan_integer (s : bytes) : R (bytes * bytes) :=
  match s with
  | c :: t => if c =? ch_0 then mret ([c], t) else scan_digits s
  | [] => invalid_number
  end.

Definition scan_fraction (s : bytes) : R (bytes * bytes) :=
  match s with
  | c :: t =>
      if c =? ch_dot then '(d, r) ← scan_digits t; mret (c :: d, r) else mret ([], s)
  | [] => mret ([], s)
  end.

Definition scan_exponent (s : bytes) : R (bytes * bytes) :=
  match s with
  | c :: t =>
      if (c =? ch_e) || (c =? ch_E) then
        let '(sign, t) :=
          match t with
          | d :: t' => if (d =? ch_plus) || (d =? ch_minus) then ([d], t') else ([], t)
          | [] => ([], t)
          end in
        '(d, r) ← scan_digits t;
        mret (c :: sign ++ d, r)
      else mret ([], s)
  | [] => mret ([], s)
  end.

Definition scan_number_text (s : bytes) : R (bytes * bytes) :=
  let '(sign, s) :=
    match s with
    | c :: t => if c =? ch_minus then ([c], t) else ([], s)
    | [] => ([], s)
    end in
  '(i, s) ← scan_integer s;
  '(f, s) ← scan_fraction s;
  '(x, s) ← scan_exponent s;
  mret (sign ++ i ++ f ++ x, s).

Definition selector_json_scan_number (state : selector_json_state) (s : bytes)
    : R (selector_json_state * bytes) :=
  '(t, s) ← scan_number_text s;
  state ← selector_json_number_end (with_text state t);
  mret (state, s).

(** ** Values *)

Definition selector_json_match_literal (literal : string) (s : bytes) : option bytes :=
  if has_prefix (bs literal) s then Some (drop (length (bs literal)) s) else None.

Definition invalid_value {A} : R A := selector_json_scan_fail "invalid JSON value".

Definition scan_event (r : R selector_json_state) (s : bytes) : R (selector_json_state * bytes) :=
  state ← r; mret (state, s).

(** A value that starts neither an array nor an object. *)
Definition scan_scalar (state : selector_json_state) (c : Z) (s : bytes)
    : R (selector_json_state * bytes) :=
  if c =? ch_quote then selector_json_scan_string false state s
  else if c =? 116 then
    match selector_json_match_literal "true" s with
    | Some s => scan_event (selector_json_boolean state true) s
    | None => invalid_value
    end
  else if c =? ch_f then
    match selector_json_match_literal "false" s with
    | Some s => scan_event (selector_json_boolean state false) s
    | None => invalid_value
    end
  else if c =? 110 then
    match selector_json_match_literal "null" s with
    | Some s => scan_event (selector_json_null state) s
    | None => invalid_value
    end
  else if (c =? ch_minus) || is_digit c then selector_json_scan_number state s
  else invalid_value.

(** [selector_json_scan_value] with the loops of [selector_json_scan_array] (from
    an item on) and of [selector_json_scan_object] (from a key on). *)
Fixpoint selector_json_scan_value (fuel : nat) (state : selector_json_state) (s : bytes)
    : R (selector_json_state * bytes) :=
  match fuel with
  | O => None
  | S fuel =>
      match selector_json_scan_ws s with
      | [] => selector_json_scan_fail "JSON value expected"
      | c :: t =>
          if c =? ch_lbrace then
            state ← selector_json_object_begin state;
            match selector_json_scan_ws t with
            | d :: r =>
                if d =? ch_rbrace then scan_event (selector_json_object_end state) r
                else scan_object_loop fuel state (d :: r)
            | [] => scan_object_loop fuel state []
            end
          else if c =? ch_lbracket then
            state ← selector_json_array_begin state;
            match selector_json_scan_ws t with
            | d :: r =>
                if d =? ch_rbracket then scan_event (selector_json_array_end state) r
                else scan_array_loop fuel state (d :: r)
            | [] => scan_array_loop fuel state []
            end
          else scan_scalar state c (c :: t)
      end
  end
with scan_array_loop (fuel : nat) (state : selector_json_state) (s : bytes)
    : R (selector_json_state * bytes) :=
  match fuel with
  | O => None
  | S fuel =>
      '(state, s) ← selector_json_scan_value fuel state s;
      match selector_json_scan_ws s with
      | [] => selector_json_scan_fail "unterminated JSON array"
      | c :: r =>
          if c =? ch_rbracket then scan_event (selector_json_array_end state) r
          else if negb (c =? ch_comma) then selector_json_scan_fail "JSON array comma expected"
          else scan_array_loop fuel state (selector_json_scan_ws r)
      end
  end
with scan_object_loop (fuel : nat) (state : selector_json_state) (s : bytes)
    : R (selector_json_state * bytes) :=
  match fuel with
  | O => None
  | S fuel =>
      '(state, s) ← selector_json_scan_string true state s;
      match selector_json_scan_ws s with
      | c :: r =>
          if negb (c =? ch_colon) then selector_json_scan_fail "JSON object colon expected"
          else
            '(state, s) ← selector_json_scan_value fuel state (selector_json_scan_ws r);
            match selector_json_scan_ws s with
            | [] => selector_json_scan_fail "unterminated JSON object"
            | c :: r =>
                if c =? ch_rbrace then scan_event (selector_json_object_end state) r
                else if negb (c =? ch_comma) then selector_json_scan_fail "JSON object comma expected"
                else scan_object_loop fuel state (selector_json_scan_ws r)
            end
      | [] => selector_json_scan_fail "JSON object colon expected"
      end
  end.

(** A value takes at most two nested calls per character. *)
Definition scan_fuel (s : bytes) : nat := (2 * length s + 1)%nat.

Definition selector_json_scan_document (state : selector_json_state) (json : bytes)
    : R selector_json_state :=
  let s := selector_json_scan_ws json in
  match s with
  | [] => selector_json_scan_fail "JSON value expected"
  | _ =>
      '(state, s) ← selector_json_scan_value (scan_fuel s) state s;
      match selector_json_scan_ws s with
      | [] => mret state
      | _ => selector_json_scan_fail "trailing data after JSON value"
      end
  end.

(** [lql_parse_selector_json_internal]; [json] is [None] for NULL, whose length is
    then [json_len]. *)
Definition lql_parse_selector_json_internal (receiver : bool) (json : option bytes) (json_len : nat)
    (out_given : bool) : R lql_selector :=
  if negb out_given then fail LQL_STATUS_INVALID_ARGUMENT "out selector required"
  else if bool_decide (json = None) && negb (json_len =? 0)%nat then
    fail LQL_STATUS_INVALID_ARGUMENT "selector JSON required"
  else if negb receiver then fail LQL_STATUS_INVALID_ARGUMENT "selector parser receiver required"
  else
    state ← selector_json_scan_document (mk_state (selector_zero LQL_SELECTOR_KIND_ALL) [] [])
              (default [] json);
    match frames state with
    | [] => mret (root state)
    | _ => parse_fail "selector JSON ended inside a value"
    end.
