(* ===== verification/SelectorJsonScanProps.v ===== *)
(** * The JSON parser of selectors terminates

    Paths of frames always lead to a node, events keep that, and the scanner's
    fuel is enough for every text. *)

From S2P Require Import Prelude.
From S2P Require Import Number.
From S2P Require Import Errors.
From S2P Require Import Selector.
From S2P Require Import Cursor.
From S2P Require Import SelectorLex.
From S2P Require Import SelectorParse.
From S2P Require Import SelectorJsonScan.

(** ** Nodes and paths *)

Lemma node_at_app s p q : node_at s (p ++ q) = node_at s p ≫= fun c => node_at c q.
Proof.
  revert s. induction p as [|i p IH]; intros s; [done|]. cbn [app node_at].
  destruct (children s !! i) as [c|]; [apply IH|done].
Qed.

Lemma node_at_set s p x y : node_at s p = Some y -> node_at (set_node s p x) p = Some x.
Proof.
  revert s. induction p as [|i p IH]; intros s; [done|]. cbn [node_at set_node].
  destruct (children s !! i) as [c|] eqn:E; [|done]. cbn. intros H.
  cbn [children with_children]. rewrite list_lookup_alter, E. rewrite decide_True by done. cbn. by apply IH.
Qed.

Lemma set_set s p x y : set_node (set_node s p x) p y = set_node s p y.
Proof.
  revert s. induction p as [|i p IH]; intros s; [done|]. cbn [set_node children with_children].
  rewrite list_alter_alter_eq. unfold with_children. cbn. f_equal.
  apply list_alter_ext; [|done]. intros c _. apply IH.
Qed.

(** Replacing a child, from the path of its parent. *)
Lemma set_node_app s p a i x : node_at s p = Some a ->
  set_node s (p ++ [i]) x = set_node s p (with_children a (alter (fun _ => x) i (children a))).
Proof.
  revert s. induction p as [|j p IH]; intros s; cbn [app node_at set_node]; [by intros [= ->]|].
  destruct (children s !! j) as [c|] eqn:E; [|done]. cbn. intros H.
  unfold with_children. f_equal. apply list_alter_ext; [|done].
  intros d Hd. rewrite E in Hd. injection Hd as <-. by apply IH.
Qed.

Lemma node_at_prefix s p q x : node_at s p = Some x -> q `prefix_of` p -> is_Some (node_at s q).
Proof. intros H [r ->]. rewrite node_at_app in H. destruct (node_at s q); [by eexists|done]. Qed.

Lemma node_at_set_prefix s p q x : is_Some (node_at s p) -> q `prefix_of` p -> is_Some (node_at (set_node s p x) q).
Proof. intros [y H] Hq. eapply node_at_prefix; [|exact Hq]. by eapply node_at_set. Qed.

(** ** The invariant of the frames *)

(** Each path is a prefix of the path of the frame above. *)
Fixpoint chain (fs : list selector_json_frame) : Prop :=
  match fs with
  | f :: ((g :: _) as rest) => frame_selector g `prefix_of` frame_selector f /\ chain rest
  | _ => True
  end.

Definition state_ok (st : selector_json_state) : Prop :=
  chain (frames st) /\
  match frames st with [] => True | f :: _ => is_Some (node_at (root st) (frame_selector f)) end.

Definition event_ok (r : R selector_json_state) : Prop :=
  match r with None => False | Some (inl _) => True | Some (inr st) => state_ok st end.

Lemma event_fail e m : event_ok (fail e m).
Proof. done. Qed.
Lemma event_ret st : state_ok st -> event_ok (mret st).
Proof. done. Qed.

Lemma chain_top f g rest : chain (f :: rest) -> frame_selector g = frame_selector f -> chain (g :: rest).
Proof. intros H E. destruct rest; [done|]. cbn in *. by rewrite E. Qed.

Lemma chain_tail f rest : chain (f :: rest) -> chain rest.
Proof. destruct rest; [done|]. by intros [_ H]. Qed.

(** What the top frame refers to. *)
Lemma deref_ok st f rest : state_ok st -> frames st = f :: rest -> exists x, deref st f = mret x /\
  node_at (root st) (frame_selector f) = Some x.
Proof.
  intros [_ H] E. rewrite E in H. destruct H as [x H]. exists x. unfold deref. by rewrite H.
Qed.

(** Changing the node of the top frame and the frame but for its path. *)
Lemma set_top_ok st f rest g x :
  state_ok st -> frames st = f :: rest -> frame_selector g = frame_selector f ->
  state_ok (set_top (assign st f x) g rest).
Proof.
  intros [Hc Hn] E Eg. rewrite E in *. split; [by eapply chain_top|]. cbn. rewrite Eg.
  destruct Hn as [y Hy]. eexists. by eapply node_at_set.
Qed.

Lemma set_top_same_ok st f rest g :
  state_ok st -> frames st = f :: rest -> frame_selector g = frame_selector f ->
  state_ok (set_top st g rest).
Proof. intros [Hc Hn] E Eg. rewrite E in *. split; [by eapply chain_top|]. cbn. by rewrite Eg. Qed.

Lemma pop_ok st f rest x :
  state_ok st -> frames st = f :: rest -> state_ok (selector_json_pop_frame (assign st f x)).
Proof.
  intros [Hc Hn] E. unfold selector_json_pop_frame. cbn. rewrite E in *. split; [by eapply chain_tail|].
  cbn. destruct rest as [|g rest]; [done|]. destruct Hc as [Hp _]. by apply node_at_set_prefix.
Qed.

Lemma pop_same_ok st f rest :
  state_ok st -> frames st = f :: rest -> state_ok (selector_json_pop_frame st).
Proof.
  intros [Hc Hn] E. unfold selector_json_pop_frame. cbn. rewrite E in *. split; [by eapply chain_tail|].
  cbn. destruct rest as [|g rest]; [done|]. destruct Hc as [Hp _]. destruct Hn as [y Hy].
  by eapply node_at_prefix.
Qed.

Lemma push_ok st f rest kind :
  state_ok st -> frames st = f :: rest -> state_ok (selector_json_push_frame st kind (frame_selector f)).
Proof. intros [Hc Hn] E. split; cbn; rewrite E in *; [by split|done]. Qed.

Lemma append_child_ok st f rest g :
  state_ok st -> frames st = g :: rest -> frame_selector g = frame_selector f ->
  event_ok (selector_json_append_child st f).
Proof.
  intros Hs E Eg. unfold selector_json_append_child.
  destruct (deref_ok st g rest Hs E) as (x & Hx & Hn). unfold deref in *. rewrite <- Eg, Hn. cbn.
  destruct Hs as [Hc _]. split.
  - cbn. rewrite E in *. split; [|done]. by exists [length (children x)].
  - cbn. rewrite node_at_app. unfold assign. rewrite <- Eg.
    erewrite node_at_set by done. cbn. rewrite lookup_app_r, Nat.sub_diag by done. by eexists.
Qed.

(** ** Every event *)

Ltac event_step :=
  match goal with
  | |- event_ok (fail _ _) => exact I
  | |- event_ok (parse_fail _) => exact I
  | |- event_ok (if ?b then _ else _) => destruct b
  | |- context [match ?x with inl _ => _ | inr _ => _ end] => destruct x; cbn
  | |- context [match ?x with Some _ => _ | None => _ end] => destruct x; cbn
  end.

(** The node of the top frame is there. *)
Ltac use_deref Hs Ef :=
  let x := fresh "x" in let Hx := fresh "Hx" in let Hn := fresh "Hn" in
  destruct (deref_ok _ _ _ Hs Ef) as (x & Hx & Hn); rewrite Hx; cbn [mbind R_bind mret R_ret].

Lemma set_text_ok st t : state_ok st -> state_ok (with_text st t).
Proof. done. Qed.

Lemma end_key_ok st : state_ok st -> event_ok (selector_json_end_key st).
Proof.
  intros Hs. unfold selector_json_end_key. event_step; [done|].
  destruct (frames st) as [|f rest] eqn:Ef; [done|]. destruct (frame_kind f); try done.
  - do 2 (event_step; [done|]). use_deref Hs Ef. by eapply set_top_ok.
  - use_deref Hs Ef. event_step; [done|]. destruct (selector_json_mark_seen _ _ _); [|done].
    by eapply set_top_same_ok.
Qed.

Lemma object_begin_ok st : state_ok st -> event_ok (selector_json_object_begin st).
Proof.
  intros Hs. unfold selector_json_object_begin. destruct (frames st) as [|f rest] eqn:Ef.
  { split; [|by eexists]. cbn. by rewrite Ef. }
  event_step; [by eapply append_child_ok|]. event_step; [done|]. use_deref Hs Ef.
  assert (state_ok (set_top st (with_pending f None) rest)) as Hs' by by eapply set_top_same_ok.
  event_step; [by eapply (append_child_ok _ _ rest (with_pending f None))|]. event_step; [|done].
  by eapply (push_ok _ (with_pending f None) rest).
Qed.

Lemma object_end_ok st : state_ok st -> event_ok (selector_json_object_end st).
Proof.
  intros Hs. unfold selector_json_object_end. destruct (frames st) as [|f rest] eqn:Ef; [done|].
  do 2 (event_step; [done|]). event_step; use_deref Hs Ef.
  - event_step; [done|]. by eapply pop_ok.
  - unfold lift. destruct (selector_json_validate_predicate x (seen f)); cbn; [done|]. by eapply pop_ok.
Qed.

Lemma array_begin_ok st : state_ok st -> event_ok (selector_json_array_begin st).
Proof.
  intros Hs. unfold selector_json_array_begin. destruct (frames st) as [|f rest] eqn:Ef; [done|].
  destruct (pending_key f); [|done]. use_deref Hs Ef.
  assert (state_ok (set_top st (with_pending f None) rest)) as Hs' by by eapply set_top_same_ok.
  do 2 (event_step; [by eapply (push_ok _ (with_pending f None) rest)|]). done.
Qed.

Lemma array_end_ok st : state_ok st -> event_ok (selector_json_array_end st).
Proof.
  intros Hs. unfold selector_json_array_end. destruct (frames st) as [|f rest] eqn:Ef; [done|].
  event_step; [by eapply pop_same_ok|done].
Qed.

Lemma assign_ok st f rest x : state_ok st -> frames st = f :: rest -> state_ok (assign st f x).
Proof.
  intros Hs E. pose proof (set_top_ok st f rest f x Hs E eq_refl) as H. unfold set_top, with_frames in H.
  cbn in H. by rewrite <- E in H.
Qed.

Lemma string_end_ok st : state_ok st -> event_ok (selector_json_string_end st).
Proof.
  intros Hs. unfold selector_json_string_end. destruct (frames st) as [|f rest] eqn:Ef; [done|].
  use_deref Hs Ef. destruct (frame_kind f), (pending_key f) as [key|]; try done; unfold lift.
  - do 3 (event_step; [|try done]; try done).
    destruct (selector_json_store_field x (text st)); cbn; [done|]. by eapply set_top_ok.
  - destruct (predicate_string x key (text st)); cbn; [done|]. by eapply set_top_ok.
  - by eapply assign_ok.
  - by eapply assign_ok.
Qed.

Lemma store_on_top_ok st store : state_ok st -> event_ok (store_on_top st store).
Proof.
  intros Hs. unfold store_on_top. destruct (frames st) as [|f rest] eqn:Ef; [done|]. use_deref Hs Ef.
  unfold lift. destruct (store f x); cbn; [done|]. by eapply set_top_ok.
Qed.

(** ** The scanner *)

(** A scan from [s]: an error, or a state with valid frames and a shorter rest. *)
Definition scan_ok (s : bytes) (r : R (selector_json_state * bytes)) : Prop :=
  match r with
  | None => False
  | Some (inl _) => True
  | Some (inr (st, s')) => state_ok st /\ (length s' < length s)%nat
  end.

Lemma scan_event_ok s r t : event_ok r -> (length t < length s)%nat -> scan_ok s (scan_event r t).
Proof. unfold scan_event. destruct r as [[e|st]|]; cbn; [done| |done]. by intros. Qed.

Lemma scan_ws_length s : (length (selector_json_scan_ws s) <= length s)%nat.
Proof.
  unfold selector_json_scan_ws. destruct (drop_while_app json_space s) as (a & E & _).
  rewrite E at 2. rewrite length_app. lia.
Qed.

(** The string loop ends, with a rest after the closing quote. *)
Definition text_ok (s : bytes) (r : R (bytes * bytes)) : Prop :=
  match r with
  | None => False
  | Some (inl _) => True
  | Some (inr (_, s')) => (length s' < length s)%nat
  end.

Lemma text_ok_mono s t r : text_ok t r -> (length t <= length s)%nat -> text_ok s r.
Proof. destruct r as [[e|[a b]]|]; cbn; [done| |done]. lia. Qed.

Lemma string_loop_ok s : forall acc due, text_ok s (scan_string_loop s acc due).
Proof.
  induction s as [s IH] using (well_founded_induction (well_founded_ltof _ (@length Z))). unfold ltof in IH.
  intros acc [[[|r] lo] hi]; destruct s as [|c s]; cbn [scan_string_loop]; try done.
  - assert (forall t a d, (length t <= length s)%nat -> text_ok (c :: s) (scan_string_loop t a d)) as K.
    { intros t a d Ht. eapply text_ok_mono; [apply IH|]; cbn [length]; lia. }
    case_if; [cbn; lia|]. case_if; [done|]. case_if; [case_if; [by apply K|];
      destruct (utf8_lead c); [by apply K|done]|].
    destruct s as [|e s]; [done|]. assert (length s <= length (e :: s))%nat as L1 by (cbn; lia).
    case_if; [|destruct (simple_escape e); [by apply K|done]].
    destruct s as [|h1 [|h2 [|h3 [|h4 s]]]]; try done.
    destruct (selector_json_scan_hex4 h1 h2 h3 h4); [|done]. cbn [length] in K.
    case_if; [|case_if; [done|apply K; cbn; lia]].
    destruct s as [|b [|u [|l1 [|l2 [|l3 [|l4 s]]]]]]; try done.
    destruct (if _ : bool then _ else _); [|done]. case_if; [done|]. apply K. cbn. lia.
  - case_if; [done|]. eapply text_ok_mono; [apply IH|]; cbn [length]; lia.
Qed.

Lemma scan_string_ok key st s : state_ok st -> scan_ok s (selector_json_scan_string key st s).
Proof.
  intros Hs. unfold selector_json_scan_string. destruct s as [|c s]; [done|]. case_if; [done|].
  pose proof (string_loop_ok s [] (0%nat, 0x80, 0xbf)) as H.
  destruct (scan_string_loop s [] _) as [[e|[t r]]|]; [done| |done]. cbn in H. cbn [mbind R_bind].
  assert (event_ok (if key then selector_json_end_key (with_text st t)
                    else selector_json_string_end (with_text st t))) as He.
  { destruct key; [by apply end_key_ok|by apply string_end_ok]. }
  destruct (if key then _ else _) as [[e|st']|]; [done| |done]. cbn. split; [done|lia].
Qed.

Lemma scan_digits_ok s : text_ok s (scan_digits s).
Proof.
  unfold scan_digits. destruct (span is_digit s) as [[|d ds] r] eqn:E; [done|].
  apply span_app in E as ->. cbn. rewrite length_app. lia.
Qed.

Lemma scan_number_text_ok s : text_ok s (scan_number_text s).
Proof.
  unfold scan_number_text.
  set (sg := match s with [] => _ | _ => _ end).
  assert (length (snd sg) <= length s)%nat as H0 by (subst sg; destruct s; [done|]; case_if; cbn; lia).
  destruct sg as [sign s1]. cbn in H0.
  assert (text_ok s1 (scan_integer s1)) as H1.
  { unfold scan_integer. destruct s1 as [|c t]; [done|]. case_if; [cbn; lia|apply scan_digits_ok]. }
  destruct (scan_integer s1) as [[e|[i s2]]|]; [done| |done]. cbn in H1. cbn [mbind R_bind].
  assert (match scan_fraction s2 with None => False | Some (inl _) => True
    | Some (inr (_, s')) => (length s' <= length s2)%nat end) as H2.
  { unfold scan_fraction. destruct s2 as [|c t]; [cbn; lia|]. case_if; [|cbn; lia].
    pose proof (scan_digits_ok t). destruct (scan_digits t) as [[e|[d r]]|]; cbn in *; [done|lia|done]. }
  destruct (scan_fraction s2) as [[e|[f s3]]|]; [done| |done]. cbn [mbind R_bind].
  assert (match scan_exponent s3 with None => False | Some (inl _) => True
    | Some (inr (_, s')) => (length s' <= length s3)%nat end) as H3.
  { unfold scan_exponent. destruct s3 as [|c t]; [cbn; lia|]. case_if; [|cbn; lia].
    set (sg' := match t with [] => _ | _ => _ end).
    assert (length (snd sg') <= length t)%nat as Ht by (subst sg'; destruct t; [done|]; case_if; cbn; lia).
    destruct sg' as [sign' t']. pose proof (scan_digits_ok t').
    destruct (scan_digits t') as [[e|[d r]]|]; cbn in *; [done|lia|done]. }
  destruct (scan_exponent s3) as [[e|[x s4]]|]; [done| |done]. cbn. lia.
Qed.

Lemma scan_scalar_ok st c t : state_ok st -> scan_ok (c :: t) (scan_scalar st c (c :: t)).
Proof.
  intros Hs. unfold scan_scalar. case_if; [by apply scan_string_ok|].
  assert (forall l s', selector_json_match_literal l (c :: t) = Some s' -> l <> ""%string ->
    (length s' < length (c :: t))%nat) as Hlit.
  { intros l s'. unfold selector_json_match_literal. case_if; [|done]. intros [= <-] Hl.
    rewrite length_drop. destruct l; [done|]. cbn. lia. }
  case_if; [destruct (selector_json_match_literal "true" _) eqn:E; [|done];
    apply scan_event_ok; [by apply store_on_top_ok|by eapply Hlit]|].
  case_if; [destruct (selector_json_match_literal "false" _) eqn:E; [|done];
    apply scan_event_ok; [by apply store_on_top_ok|by eapply Hlit]|].
  case_if; [destruct (selector_json_match_literal "null" _) eqn:E; [|done];
    apply scan_event_ok; [by apply store_on_top_ok|by eapply Hlit]|].
  case_if; [|done]. unfold selector_json_scan_number. pose proof (scan_number_text_ok (c :: t)) as H.
  destruct (scan_number_text (c :: t)) as [[e|[n r]]|]; [done| |done]. cbn in H. cbn [mbind R_bind].
  pose proof (store_on_top_ok (with_text st n)) as He. unfold selector_json_number_end.
  specialize (fun store => He store Hs). 
  match goal with |- context [store_on_top ?a ?b] => specialize (He b); destruct (store_on_top a b) as [[e|st']|] end;
    [done| |done]. cbn. split; [done|lia].
Qed.

Lemma scan_ok_mono s t r : scan_ok t r -> (length t <= length s)%nat -> scan_ok s r.
Proof. destruct r as [[e|[a b]]|]; cbn; [done| |done]. intros [? ?] ?. split; [done|lia]. Qed.

Lemma scan_ws_cons s c t : selector_json_scan_ws s = c :: t -> (S (length t) <= length s)%nat.
Proof. intros E. pose proof (scan_ws_length s) as H. rewrite E in H. exact H. Qed.

(** One call of each function, given the calls with less fuel. *)
Section scan_step.
Variable fuel : nat.
Hypothesis value_ok : forall st s, state_ok st -> (2 * length s + 1 <= fuel)%nat ->
  scan_ok s (selector_json_scan_value fuel st s).
Hypothesis array_ok : forall st s, state_ok st -> (2 * length s + 2 <= fuel)%nat ->
  scan_ok s (scan_array_loop fuel st s).
Hypothesis object_ok : forall st s, state_ok st -> (2 * length s + 1 <= fuel)%nat ->
  scan_ok s (scan_object_loop fuel st s).

Lemma value_step st s : state_ok st -> (2 * length s + 1 <= S fuel)%nat ->
  scan_ok s (selector_json_scan_value (S fuel) st s).
Proof.
  intros Hs Hf. cbn [selector_json_scan_value]. destruct (selector_json_scan_ws s) as [|c t] eqn:E; [done|].
  apply scan_ws_cons in E. case_if; [|case_if].
  - pose proof (object_begin_ok st Hs) as H. destruct (selector_json_object_begin st) as [[e|st1]|]; [done| |done].
    cbn in H. cbn [mbind R_bind]. destruct (selector_json_scan_ws t) as [|d r] eqn:E2.
    { eapply scan_ok_mono; [apply object_ok; [done|]|]; cbn; lia. }
    apply scan_ws_cons in E2. case_if; [apply scan_event_ok; [by apply object_end_ok|lia]|].
    eapply scan_ok_mono; [apply object_ok; [done|]|]; cbn; lia.
  - pose proof (array_begin_ok st Hs) as H. destruct (selector_json_array_begin st) as [[e|st1]|]; [done| |done].
    cbn in H. cbn [mbind R_bind]. destruct (selector_json_scan_ws t) as [|d r] eqn:E2.
    { eapply scan_ok_mono; [apply array_ok; [done|]|]; cbn; lia. }
    apply scan_ws_cons in E2. case_if; [apply scan_event_ok; [by apply array_end_ok|lia]|].
    eapply scan_ok_mono; [apply array_ok; [done|]|]; cbn; lia.
  - eapply scan_ok_mono; [by apply scan_scalar_ok|]. cbn. lia.
Qed.

Lemma array_step st s : state_ok st -> (2 * length s + 2 <= S fuel)%nat ->
  scan_ok s (scan_array_loop (S fuel) st s).
Proof.
  intros Hs Hf. cbn [scan_array_loop]. pose proof (value_ok st s Hs ltac:(lia)) as H.
  destruct (selector_json_scan_value fuel st s) as [[e|[st1 s1]]|]; [done| |done].
  destruct H as [Hs1 L1]. cbn [mbind R_bind].
  destruct (selector_json_scan_ws s1) as [|c r] eqn:E; [done|]. apply scan_ws_cons in E.
  case_if; [apply scan_event_ok; [by apply array_end_ok|lia]|]. case_if; [done|].
  pose proof (scan_ws_length r). eapply scan_ok_mono; [apply array_ok; [done|]|]; lia.
Qed.

Lemma object_step st s : state_ok st -> (2 * length s + 1 <= S fuel)%nat ->
  scan_ok s (scan_object_loop (S fuel) st s).
Proof.
  intros Hs Hf. cbn [scan_object_loop]. pose proof (scan_string_ok true st s Hs) as H.
  destruct (selector_json_scan_string true st s) as [[e|[st1 s1]]|]; [done| |done].
  destruct H as [Hs1 L1]. cbn [mbind R_bind].
  destruct (selector_json_scan_ws s1) as [|c r] eqn:E; [done|]. apply scan_ws_cons in E.
  case_if; [done|]. pose proof (scan_ws_length r) as L.
  pose proof (value_ok st1 (selector_json_scan_ws r) Hs1 ltac:(lia)) as H2.
  destruct (selector_json_scan_value fuel st1 _) as [[e|[st2 s2]]|]; [done| |done].
  destruct H2 as [Hs2 L2]. cbn [mbind R_bind].
  destruct (selector_json_scan_ws s2) as [|c2 r2] eqn:E2; [done|]. apply scan_ws_cons in E2.
  case_if; [apply scan_event_ok; [by apply object_end_ok|lia]|]. case_if; [done|].
  pose proof (scan_ws_length r2). eapply scan_ok_mono; [apply object_ok; [done|]|]; lia.
Qed.
End scan_step.

Lemma scan_total fuel :
  (forall st s, state_ok st -> (2 * length s + 1 <= fuel)%nat ->
     scan_ok s (selector_json_scan_value fuel st s)) /\
  (forall st s, state_ok st -> (2 * length s + 2 <= fuel)%nat -> scan_ok s (scan_array_loop fuel st s)) /\
  (forall st s, state_ok st -> (2 * length s + 1 <= fuel)%nat -> scan_ok s (scan_object_loop fuel st s)).
Proof.
  induction fuel as [|fuel (V & A & O)]; [repeat split; intros; lia|].
  repeat split; intros; [by apply value_step|by apply array_step|by apply object_step].
Qed.

Lemma initial_ok s : state_ok (mk_state s [] []).
Proof. done. Qed.

Lemma scan_document_ok st json : state_ok st -> event_ok (selector_json_scan_document st json).
Proof.
  intros Hs. unfold selector_json_scan_document. destruct (selector_json_scan_ws json) as [|c t]; [done|].
  pose proof (proj1 (scan_total (scan_fuel (c :: t))) st (c :: t) Hs (Nat.le_refl _)) as H.
  destruct (selector_json_scan_value _ st (c :: t)) as [[e|[st1 s1]]|]; [done| |done].
  destruct H as [H _]. cbn [mbind R_bind]. by destruct (selector_json_scan_ws s1).
Qed.

(** C35. The JSON parser of selectors ends on every text, whatever its arguments: the
    scanner's fuel is enough, and every frame's node exists when an event uses it. *)
Theorem parse_selector_json_total receiver json json_len out_given :
  is_Some (lql_parse_selector_json_internal receiver json json_len out_given).
Proof.
  unfold lql_parse_selector_json_internal. do 3 (case_if; [by eexists|]).
  pose proof (scan_document_ok _ (default [] json) (initial_ok (selector_zero LQL_SELECTOR_KIND_ALL))) as H.
  destruct (selector_json_scan_document _ _) as [[e|st]|]; [by eexists| |done].
  cbn [mbind R_bind]. destruct (frames st); by eexists.
Qed.
