(* ===== verification/SelectorJsonEvents.v ===== *)
(** * The JSON scanner of selectors against JSON values

    The events of a JSON value, and the theorem that scanning the text of the value
    hands the event machine exactly these events. *)

From S2P Require Import Prelude.
From S2P Require Import Number.
From S2P Require Import NumberSpec.
From S2P Require Import NumberParse.
From S2P Require Import Unicode.
From S2P Require Import UnicodeProps.
From S2P Require Import Errors.
From S2P Require Import Selector.
From S2P Require Import SelectorParse.
From S2P Require Import SelectorJson.
From S2P Require Import SelectorJsonProps.
From S2P Require Import SelectorJsonScan.
From S2P Require Import SelectorJsonScanProps.

(** ** The events of a value *)

(** A step for each item, from left to right. *)
Section fold.
Context {A : Type} (step : A -> selector_json_state -> R selector_json_state).

Fixpoint fold_events (l : list A) (st : selector_json_state) : R selector_json_state :=
  match l with
  | [] => mret st
  | x :: l => st ← step x st; fold_events l st
  end.
End fold.

Fixpoint run_json (j : json) (st : selector_json_state) : R selector_json_state :=
  match j with
  | JNull => selector_json_null st
  | JBool b => selector_json_boolean st b
  | JNumber t => selector_json_number_end (with_text st t)
  | JString s => selector_json_string_end (with_text st s)
  | JArray l =>
      st ← selector_json_array_begin st;
      st ← fold_events run_json l st;
      selector_json_array_end st
  | JObject l =>
      st ← selector_json_object_begin st;
      st ← fold_events (fun m st =>
             st ← selector_json_end_key (with_text st (fst m)); run_json (snd m) st) l st;
      selector_json_object_end st
  end.

(** The event of a key and then those of its value. *)
Definition run_member (m : bytes * json) (st : selector_json_state) : R selector_json_state :=
  st ← selector_json_end_key (with_text st (fst m)); run_json (snd m) st.

Lemma run_member_eq m st :
  run_member m st = (st ← selector_json_end_key (with_text st (fst m)); run_json (snd m) st).
Proof. done. Qed.

(** Texts a JSON document can hold: UTF-8. *)
Definition utf8 (s : bytes) : Prop := exists cs, Forall scalar cs /\ s = utf8_text cs.

Lemma utf8_ascii s : Forall (fun c => 0 <= c < 128) s -> utf8 s.
Proof.
  intros H. exists s. split; [eapply Forall_impl; [|exact H]; unfold scalar; lia|].
  induction H as [|c s Hc _ IH]; [done|]. unfold utf8_text in *. cbn [map concat].
  unfold utf8_arith at 1. by rewrite (proj2 (Z.ltb_lt c 0x80)), <- IH by lia.
Qed.

(** Values whose text is JSON: UTF-8 strings and keys, JSON numbers. *)
Inductive printable : json -> Prop :=
  | print_null : printable JNull
  | print_bool b : printable (JBool b)
  | print_number t : lql_number_is_json t = true -> printable (JNumber t)
  | print_string s : utf8 s -> printable (JString s)
  | print_array l : Forall printable l -> printable (JArray l)
  | print_object l : Forall (fun m => utf8 (fst m) /\ printable (snd m)) l -> printable (JObject l).

Section induction.
Context (P : json -> Prop).
Hypothesis null_case : P JNull.
Hypothesis bool_case : forall b, P (JBool b).
Hypothesis number_case : forall t, P (JNumber t).
Hypothesis string_case : forall s, P (JString s).
Hypothesis array_case : forall l, Forall P l -> P (JArray l).
Hypothesis object_case : forall l, Forall (fun m => P (snd m)) l -> P (JObject l).

Fixpoint json_ind' (j : json) : P j :=
  match j with
  | JNull => null_case
  | JBool b => bool_case b
  | JNumber t => number_case t
  | JString s => string_case s
  | JArray l =>
      array_case l
        ((fix go (l : list json) : Forall P l :=
            match l with [] => Forall_nil P | j :: l => @Forall_cons _ P j l (json_ind' j) (go l) end) l)
  | JObject l =>
      object_case l
        ((fix go (l : list (bytes * json)) : Forall (fun m => P (snd m)) l :=
            match l with
            | [] => Forall_nil _
            | m :: l => @Forall_cons _ (fun m => P (snd m)) m l (json_ind' (snd m)) (go l)
            end) l)
  end.
End induction.

(** ** Strings *)

Definition start : nat * Z * Z := (0%nat, 0x80, 0xbf).

Lemma hex4_scan c : 0 <= c < 32 -> exists a b d e, hex4 c = [a; b; d; e] /\
  selector_json_scan_hex4 a b d e = Some c.
Proof.
  intros H. destruct c as [|p|p]; [|do 5 (try destruct p as [p|p|]); try lia|lia].
  all: do 4 eexists; split; [reflexivity|by vm_compute].
Qed.

Lemma utf8_encode_ascii c : 0 <= c < 128 -> selector_json_utf8_encode c = [c].
Proof. intros H. unfold selector_json_utf8_encode. by rewrite (proj2 (Z.leb_le _ _)) by lia. Qed.

Lemma scan_ascii c rest acc : 0 <= c < 128 ->
  scan_string_loop (escape_char c ++ rest) acc start = scan_string_loop rest (c :: acc) start.
Proof.
  intros Hc. unfold escape_char. destruct (_ || _) eqn:E1.
  { assert (c = ch_quote \/ c = ch_backslash) as [-> | ->] by (bool_hyps; lia); done. }
  apply orb_false_iff in E1 as [E1 E2].
  destruct (c <? 32) eqn:E3; bool_hyps.
  - assert (forall e, simple_escape e = Some c -> e <> 117 ->
      scan_string_loop ([ch_backslash; e] ++ rest) acc start = scan_string_loop rest (c :: acc) start) as K.
    { intros e He Hn. cbn [app scan_string_loop start]. cbn. rewrite (proj2 (Z.eqb_neq e 117)) by done.
      by rewrite He. }
    assert (scan_string_loop ((bs "\u" ++ hex4 c) ++ rest) acc start =
            scan_string_loop rest (c :: acc) start) as U.
    { destruct (hex4_scan c ltac:(lia)) as (a & b & d & e & -> & He). cbn. rewrite He.
      rewrite (proj2 (andb_false_iff _ _)) by (left; apply Z.leb_gt; lia).
      rewrite (proj2 (andb_false_iff _ _)) by (left; apply Z.leb_gt; lia).
      by rewrite utf8_encode_ascii by lia. }
    destruct c as [|p|p]; [exact U| |lia].
    do 4 (try destruct p as [p|p|]; try exact U); by apply K.
  - cbn [app]. cbn [scan_string_loop start]. rewrite (proj2 (Z.eqb_neq c ch_quote)), (proj2 (Z.eqb_neq c ch_backslash)),
      (proj2 (Z.ltb_ge c 0x20)), (proj2 (Z.ltb_lt c 0x80)) by lia.
    done.
Qed.

Lemma escape_high c : 128 <= c -> escape_char c = [c].
Proof.
  intros H. unfold escape_char. rewrite (proj2 (orb_false_iff _ _)), (proj2 (Z.ltb_ge c 32)) by lia. done.
Qed.

Lemma scan_lead c rest acc due : utf8_lead c = Some due ->
  scan_string_loop (c :: rest) acc start = scan_string_loop rest (c :: acc) due.
Proof.
  intros H. assert (0xc2 <= c <= 0xf4) as Hc.
  { revert H. unfold utf8_lead. repeat case_if; bool_hyps; intros ?; try done; lia. }
  cbn [scan_string_loop start]. rewrite (proj2 (Z.eqb_neq c ch_quote)), (proj2 (Z.ltb_ge c 0x20)),
    (proj2 (Z.eqb_neq c ch_backslash)), (proj2 (Z.ltb_ge c 0x80)) by lia. cbn [negb]. by rewrite H.
Qed.

Lemma scan_continuation c rest acc n lo hi : lo <= c <= hi ->
  scan_string_loop (c :: rest) acc (S n, lo, hi) = scan_string_loop rest (c :: acc) (n, 0x80, 0xbf).
Proof. intros H. cbn [scan_string_loop]. by rewrite (proj2 (orb_false_iff _ _)) by lia. Qed.

Lemma lead2 c : 0xc2 <= c <= 0xdf -> utf8_lead c = Some (1%nat, 0x80, 0xbf).
Proof. intros H. unfold utf8_lead. by rewrite (proj2 (andb_true_iff _ _)) by lia. Qed.

Lemma lead3 c : 0xe0 <= c <= 0xef ->
  utf8_lead c = Some (2%nat, if c =? 0xe0 then 0xa0 else 0x80, if c =? 0xed then 0x9f else 0xbf).
Proof.
  intros H. unfold utf8_lead. rewrite (proj2 (andb_false_iff (0xc2 <=? c) _)) by lia.
  by rewrite (proj2 (andb_true_iff _ _)) by lia.
Qed.

Lemma lead4 c : 0xf0 <= c <= 0xf4 ->
  utf8_lead c = Some (3%nat, if c =? 0xf0 then 0x90 else 0x80, if c =? 0xf4 then 0x8f else 0xbf).
Proof.
  intros H. unfold utf8_lead. rewrite (proj2 (andb_false_iff (0xc2 <=? c) _)) by lia.
  rewrite (proj2 (andb_false_iff (0xe0 <=? c) _)) by lia. by rewrite (proj2 (andb_true_iff _ _)) by lia.
Qed.

Lemma scan_char v rest acc : scalar v ->
  scan_string_loop (flat_map escape_char (utf8_arith v) ++ rest) acc start =
  scan_string_loop rest (rev (utf8_arith v) ++ acc) start.
Proof.
  intros [Hv Hs]. unfold utf8_arith.
  destruct (v <? 0x80) eqn:E1; [|destruct (v <? 0x800) eqn:E2; [|destruct (v <? 0x10000) eqn:E3]]; bool_hyps.
  - cbn [flat_map]. rewrite app_nil_r. apply scan_ascii. lia.
  - cbn [flat_map]. rewrite !escape_high by zdivs. cbn [app rev].
    rewrite (scan_lead _ _ _ _ (lead2 (192 + v / 64) ltac:(zdivs))), scan_continuation by zdivs. done.
  - cbn [flat_map]. rewrite !escape_high by zdivs. cbn [app rev]. set (c := 224 + v / 4096).
    rewrite (scan_lead c _ _ _ (lead3 c ltac:(subst c; zdivs))), !scan_continuation; [done|zdivs|].
    destruct (c =? 0xe0) eqn:Ea; destruct (c =? 0xed) eqn:Eb; bool_hyps; subst c; zdivs.
  - cbn [flat_map]. rewrite !escape_high by zdivs. cbn [app rev]. set (c := 240 + v / 262144).
    rewrite (scan_lead c _ _ _ (lead4 c ltac:(subst c; zdivs))), !scan_continuation; [done|zdivs|zdivs|].
    destruct (c =? 0xf0) eqn:Ea; destruct (c =? 0xf4) eqn:Eb; bool_hyps; subst c; zdivs.
Qed.

Lemma scan_utf8 s : utf8 s -> forall rest acc,
  scan_string_loop (flat_map escape_char s ++ rest) acc start = scan_string_loop rest (rev s ++ acc) start.
Proof.
  intros (cs & H & ->). induction H as [|v cs Hv _ IH]; intros rest acc; [done|].
  unfold utf8_text in *. cbn [map concat]. rewrite flat_map_app, <- app_assoc, scan_char by done.
  by rewrite IH, rev_app_distr, app_assoc.
Qed.

(** A key or a string, up to the event at its end. *)
Lemma scan_string_text key st s rest : utf8 s ->
  selector_json_scan_string key st (string_text s ++ rest) =
  (st ← (if key then selector_json_end_key (with_text st s) else selector_json_string_end (with_text st s));
   mret (st, rest)).
Proof.
  intros H. unfold string_text. cbn [app selector_json_scan_string]. cbn [negb].
  rewrite <- app_assoc. pose proof (scan_utf8 s H ([ch_quote] ++ rest) []) as E. unfold start in E. rewrite E.
  cbn. rewrite app_nil_r, rev_involutive. done.
Qed.

(** ** Numbers *)

(** What may follow a value: no character of a number. *)
Definition stops (rest : bytes) : Prop :=
  match rest with [] => True | c :: _ => number_char c = false end.

Lemma stops_cons c rest : stops (c :: rest) ->
  is_digit c = false /\ c <> ch_dot /\ c <> ch_e /\ c <> ch_E.
Proof. unfold stops, number_char. intros H. rewrite !orb_false_iff, !Z.eqb_neq in H. tauto. Qed.

Lemma digits_then ds rest : ds <> [] -> all_digits ds ->
  match rest with [] => True | c :: _ => is_digit c = false end ->
  scan_digits (ds ++ rest) = mret (ds, rest).
Proof.
  intros Hn Hd Hr. unfold scan_digits. rewrite (span_block is_digit ds rest Hd Hr). by destruct ds.
Qed.

Lemma integer_then i rest : int_text i ->
  match rest with [] => True | c :: _ => is_digit c = false end ->
  scan_integer (i ++ rest) = mret (i, rest).
Proof.
  intros [Hd Hc] Hr. destruct i as [|d i]; [done|]. cbn [app scan_integer].
  destruct (d =? ch_0) eqn:E; [bool_hyps; subst d|by apply (digits_then (d :: i))].
  by destruct i.
Qed.

Lemma fraction_then f fd rest : frac_text f fd ->
  match rest with [] => True | c :: _ => is_digit c = false /\ c <> ch_dot end ->
  scan_fraction (f ++ rest) = mret (f, rest).
Proof.
  intros [[-> ->]|(-> & Hn & Hd)] Hr.
  - cbn [app]. unfold scan_fraction. destruct rest as [|c rest]; [done|].
    by rewrite (proj2 (Z.eqb_neq c ch_dot)) by tauto.
  - cbn [app scan_fraction]. cbn. rewrite digits_then; [done|done|done|]. destruct rest; [done|apply Hr].
Qed.

Lemma exponent_then x v rest : exp_text x v -> stops rest -> scan_exponent (x ++ rest) = mret (x, rest).
Proof.
  intros [[-> _]|(c & s & ed & -> & Hc & Hn & Hd & Hs)] Hr.
  - cbn [app]. unfold scan_exponent. destruct rest as [|c rest]; [done|].
    apply stops_cons in Hr. by rewrite (proj2 (orb_false_iff _ _)) by lia.
  - cbn [app scan_exponent]. rewrite (proj2 (orb_true_iff _ _)) by (destruct Hc as [-> | ->]; auto).
    rewrite <- app_assoc.
    assert (scan_digits (ed ++ rest) = mret (ed, rest)) as E.
    { apply digits_then; [done|done|]. destruct rest as [|d rest]; [done|].
      apply stops_cons in Hr. tauto. }
    assert (s = [] \/ s = [ch_plus] \/ s = [ch_minus]) as [-> | [-> | ->]] by tauto; cbn [app].
    + destruct ed as [|d ed]; [done|]. inversion_clear Hd as [|? ? H1 _]. cbn [app] in *.
      rewrite (proj2 (orb_false_iff _ _)) by (unfold is_digit in H1; lia). by rewrite E.
    + cbn. by rewrite E.
    + cbn. by rewrite E.
Qed.

Lemma scan_number_then t rest : lql_number_is_json t = true -> stops rest ->
  scan_number_text (t ++ rest) = mret (t, rest).
Proof.
  intros (m & e & neg & i & f & fd & x & v & -> & Hi & Hf & Hx & _)%is_json_number Hr.
  assert (match x ++ rest with [] => True | c :: _ => is_digit c = false /\ c <> ch_dot end) as Hxr.
  { destruct Hx as [[-> _]|(c & s & ed & -> & [-> | ->] & _)]; [|done|done]. cbn.
    destruct rest as [|c rest]; [done|]. apply stops_cons in Hr. tauto. }
  assert (match f ++ x ++ rest with [] => True | c :: _ => is_digit c = false end) as Hfr.
  { destruct Hf as [[-> _]|(-> & _)]; [|done]. cbn. destruct (x ++ rest); [done|apply Hxr]. }
  assert (scan_integer (i ++ f ++ x ++ rest) = mret (i, f ++ x ++ rest)) as Ei by by apply integer_then.
  assert (exists d t, i = d :: t /\ d <> ch_minus) as (d & t & Ed & Hd).
  { destruct Hi as [Hd Hc]. destruct i as [|d t]; [done|]. inversion_clear Hd as [|? ? H1 _].
    exists d, t. split; [done|]. unfold is_digit in H1. lia. }
  unfold scan_number_text.
  assert ((match (((if neg then [ch_minus] else []) ++ i ++ f ++ x) ++ rest) with
           | c :: t => if c =? ch_minus then ([c], t) else ([], ((if neg then [ch_minus] else []) ++ i ++ f ++ x) ++ rest)
           | [] => ([], ((if neg then [ch_minus] else []) ++ i ++ f ++ x) ++ rest)
           end) = (if neg then [ch_minus] else [], i ++ f ++ x ++ rest)) as ->.
  { destruct neg; cbn [app]; rewrite <- !app_assoc; [done|]. rewrite Ed. cbn [app].
    by rewrite (proj2 (Z.eqb_neq d ch_minus)). }
  rewrite Ei. cbn [mbind R_bind mret R_ret]. erewrite fraction_then by done. cbn [mbind R_bind mret R_ret].
  by erewrite exponent_then by done.
Qed.

(** ** More fuel gives the same result *)

Lemma scan_mono fuel :
  (forall st s r, selector_json_scan_value fuel st s = Some r ->
     selector_json_scan_value (S fuel) st s = Some r) /\
  (forall st s r, scan_array_loop fuel st s = Some r -> scan_array_loop (S fuel) st s = Some r) /\
  (forall st s r, scan_object_loop fuel st s = Some r -> scan_object_loop (S fuel) st s = Some r).
Proof.
  induction fuel as [|fuel (V & A & O)]; [done|]. split_and!; intros st s r.
  - remember (S fuel) as n. cbn [selector_json_scan_value]. subst n. cbn [selector_json_scan_value].
    destruct (selector_json_scan_ws s) as [|c t]; [done|]. case_if; [|case_if; [|done]].
    + destruct (selector_json_object_begin st) as [[e|st1]|]; [done| |done]. cbn [mbind R_bind].
      destruct (selector_json_scan_ws t); [apply O|]. case_if; [done|apply O].
    + destruct (selector_json_array_begin st) as [[e|st1]|]; [done| |done]. cbn [mbind R_bind].
      destruct (selector_json_scan_ws t); [apply A|]. case_if; [done|apply A].
  - remember (S fuel) as n. cbn [scan_array_loop]. subst n. cbn [scan_array_loop].
    destruct (selector_json_scan_value fuel st s) as [x|] eqn:E; [|done]. rewrite (V _ _ _ E).
    destruct x as [e|[st1 s1]]; [done|]. cbn [mbind R_bind].
    destruct (selector_json_scan_ws s1); [done|]. do 2 (case_if; [done|]). apply A.
  - remember (S fuel) as n. cbn [scan_object_loop]. subst n. cbn [scan_object_loop].
    destruct (selector_json_scan_string true st s) as [[e|[st1 s1]]|]; [done| |done]. cbn [mbind R_bind].
    destruct (selector_json_scan_ws s1); [done|]. case_if; [done|].
    destruct (selector_json_scan_value fuel st1 _) as [x|] eqn:E; [|done]. rewrite (V _ _ _ E).
    destruct x as [e|[st2 s2]]; [done|]. cbn [mbind R_bind].
    destruct (selector_json_scan_ws s2); [done|]. do 2 (case_if; [done|]). apply O.
Qed.

Lemma scan_value_mono fuel fuel' st s r : (fuel <= fuel')%nat ->
  selector_json_scan_value fuel st s = Some r -> selector_json_scan_value fuel' st s = Some r.
Proof. induction 1 as [|n _ IH]; [done|]. intros H. by apply (scan_mono n), IH. Qed.

(** ** Values *)

(** With enough fuel, scanning the text of [j] runs the events of [j]. *)
Definition scans (j : json) : Prop :=
  exists n, forall fuel st rest, (n <= fuel)%nat -> stops rest ->
    selector_json_scan_value fuel st (json_text j ++ rest) = (st ← run_json j st; mret (st, rest)).

Lemma number_head t : lql_number_is_json t = true -> exists d u, t = d :: u /\ (d = ch_minus \/ is_digit d = true).
Proof.
  intros (m & e & neg & i & f & fd & x & v & -> & [Hi Hc] & _)%is_json_number.
  destruct neg; [by eexists _, _; split; [|left]|]. destruct i as [|d i]; [done|].
  inversion_clear Hi. eexists d, _. by split; [|right].
Qed.

(** How a text begins: neither with a space nor with a closing bracket. *)
Lemma text_first j : printable j -> exists c t, json_text j = c :: t /\ json_space c = false /\
  c <> ch_rbracket /\ c <> ch_rbrace.
Proof.
  intros H. destruct j; try by do 2 eexists.
  - destruct b; by do 2 eexists.
  - inversion_clear H as [| |? Ht| | |]. destruct (number_head text Ht) as (d & u & -> & Hd). exists d, u.
    split; [done|]. unfold json_space, is_digit in *. split_and!; lia.
Qed.

Lemma scan_ws_text j rest : printable j -> selector_json_scan_ws (json_text j ++ rest) = json_text j ++ rest.
Proof.
  intros (c & t & -> & Hc & _)%text_first. unfold selector_json_scan_ws, drop_while. cbn. by rewrite Hc.
Qed.

Lemma scans_number t : lql_number_is_json t = true -> scans (JNumber t).
Proof.
  intros Ht. exists 1%nat. intros [|fuel] st rest Hf Hr; [lia|]. cbn [selector_json_scan_value json_text run_json].
  pose proof (scan_ws_text (JNumber t) rest (print_number t Ht)) as E. cbn [json_text] in E. rewrite E.
  pose proof (scan_number_then t rest Ht Hr) as Et. destruct (number_head t Ht) as (d & u & -> & Hd). cbn [app] in *.
  assert (d <> ch_lbrace /\ d <> ch_lbracket /\ d <> ch_quote /\ d <> 116 /\ d <> ch_f /\ d <> 110) as
    (N1 & N2 & N3 & N4 & N5 & N6) by (unfold is_digit in Hd; lia).
  rewrite !(proj2 (Z.eqb_neq _ _)) by done. unfold scan_scalar. rewrite !(proj2 (Z.eqb_neq d _)) by done.
  rewrite (proj2 (orb_true_iff _ _)) by (by destruct Hd as [-> | ->]; [left|right]).
  unfold selector_json_scan_number. by rewrite Et.
Qed.

Lemma scans_string s : utf8 s -> scans (JString s).
Proof.
  intros Hs. exists 1%nat. intros [|fuel] st rest Hf Hr; [lia|].
  exact (scan_string_text false st s rest Hs).
Qed.

Lemma array_loop_scans j l : Forall printable (j :: l) -> Forall scans (j :: l) ->
  exists n, forall fuel st rest, (n <= fuel)%nat ->
    scan_array_loop fuel st (json_text j ++ flat_map (fun i => ch_comma :: json_text i) l ++ ch_rbracket :: rest) =
    (st ← fold_events run_json (j :: l) st; st ← selector_json_array_end st; mret (st, rest)).
Proof.
  revert j. induction l as [|i l IH]; intros j HP HS; inversion_clear HS as [|? ? [n Hj] HS'];
    inversion_clear HP as [|? ? P1 P2].
  - exists (S n). intros [|fuel] st rest Hf; [lia|]. cbn [scan_array_loop flat_map app fold_events].
    rewrite Hj by (done || lia). destruct (run_json j st) as [[e|st1]|]; done.
  - destruct (IH i P2 HS') as [n' Hl]. exists (S (Nat.max n n')). intros [|fuel] st rest Hf; [lia|].
    cbn [scan_array_loop flat_map app]. rewrite Hj by (done || lia). cbn [fold_events].
    destruct (run_json j st) as [[e|st1]|]; [done| |done]. cbn [mbind R_bind mret R_ret].
    inversion_clear P2 as [|? ? P3 _]. rewrite <- app_assoc.
    change (selector_json_scan_ws (ch_comma :: ?t)) with (ch_comma :: t). cbn -[selector_json_scan_ws scan_array_loop].
    rewrite scan_ws_text by done. by rewrite Hl by lia.
Qed.

Lemma scans_array l : Forall printable l -> Forall scans l -> scans (JArray l).
Proof.
  intros HP HS. destruct l as [|j l].
  - exists 1%nat. intros [|fuel] st rest Hf Hr; [lia|]. cbn [run_json fold_events].
    change (json_text (JArray [])) with [ch_lbracket; ch_rbracket].
    cbn. destruct (selector_json_array_begin st) as [[e|st1]|]; done.
  - destruct (array_loop_scans j l HP HS) as [n Hl]. exists (S n). intros [|fuel] st rest Hf Hr; [lia|].
    rewrite array_text. cbn [app]. rewrite <- !app_assoc. cbn [run_json].
    inversion_clear HP as [|? ? Hj _]. cbn [selector_json_scan_value].
    change (selector_json_scan_ws (ch_lbracket :: ?t)) with (ch_lbracket :: t).
    change (ch_lbracket =? ch_lbrace) with false. change (ch_lbracket =? ch_lbracket) with true. cbv iota.
    destruct (selector_json_array_begin st) as [[e|st1]|]; [done| |done]. cbn [mbind R_bind].
    rewrite scan_ws_text by done. specialize (Hl fuel st1 rest ltac:(lia)).
    destruct (text_first j Hj) as (c & t & Ec & _ & Hc & _). rewrite Ec in *. cbn [app] in *.
    rewrite (proj2 (Z.eqb_neq c ch_rbracket)) by done. rewrite Hl.
    destruct (fold_events run_json (j :: l) st1) as [[e|st2]|]; done.
Qed.

Lemma object_loop_scans m l :
  Forall (fun m => utf8 (fst m) /\ printable (snd m)) (m :: l) -> Forall (fun m => scans (snd m)) (m :: l) ->
  exists n, forall fuel st rest, (n <= fuel)%nat ->
    scan_object_loop fuel st
      (string_text (fst m) ++ ch_colon :: json_text (snd m) ++ members_text l ++ ch_rbrace :: rest) =
    (st ← fold_events run_member (m :: l) st; st ← selector_json_object_end st; mret (st, rest)).
Proof.
  revert m. induction l as [|i l IH]; intros m HP HS; inversion_clear HS as [|? ? [n Hm] HS'];
    inversion_clear HP as [|? ? [P1 P1'] P2].
  - exists (S n). intros [|fuel] st rest Hf; [lia|].
    cbn [scan_object_loop members_text flat_map app fold_events]. rewrite (run_member_eq m).
    rewrite scan_string_text by done. cbn [fst snd].
    destruct (selector_json_end_key (with_text st (fst m))) as [[e|st1]|]; [done| |done].
    cbn [mbind R_bind mret R_ret].
    change (selector_json_scan_ws (ch_colon :: ?t)) with (ch_colon :: t). cbn -[selector_json_scan_ws].
    rewrite scan_ws_text by done. rewrite Hm by (done || lia).
    destruct (run_json (snd m) st1) as [[e|st2]|]; done.
  - destruct (IH i P2 HS') as [n' Hl]. exists (S (Nat.max n n')). intros [|fuel] st rest Hf; [lia|].
    cbn [scan_object_loop fold_events]. rewrite (run_member_eq m).
    rewrite scan_string_text by done. cbn [fst snd].
    destruct (selector_json_end_key (with_text st (fst m))) as [[e|st1]|]; [done| |done].
    cbn [mbind R_bind mret R_ret].
    change (selector_json_scan_ws (ch_colon :: ?t)) with (ch_colon :: t).
    cbn -[selector_json_scan_ws scan_object_loop selector_json_scan_value].
    rewrite scan_ws_text by done. rewrite Hm by (done || lia).
    destruct (run_json (snd m) st1) as [[e|st2]|]; [done| |done]. cbn [mbind R_bind mret R_ret].
    rewrite <- !app_assoc. cbn [app].
    change (selector_json_scan_ws (ch_comma :: ?t)) with (ch_comma :: t).
    cbn -[selector_json_scan_ws scan_object_loop].
    change (selector_json_scan_ws (?q :: ?t)) with (q :: t).
    specialize (Hl fuel st2 rest ltac:(lia)). unfold string_text at 1 in Hl. cbn [app] in Hl.
    rewrite <- app_assoc in Hl. exact Hl.
Qed.

Lemma scans_object l :
  Forall (fun m => utf8 (fst m) /\ printable (snd m)) l -> Forall (fun m => scans (snd m)) l -> scans (JObject l).
Proof.
  intros HP HS. destruct l as [|m l].
  - exists 1%nat. intros [|fuel] st rest Hf Hr; [lia|]. cbn [run_json fold_events].
    change (json_text (JObject [])) with [ch_lbrace; ch_rbrace].
    cbn. destruct (selector_json_object_begin st) as [[e|st1]|]; done.
  - destruct (object_loop_scans m l HP HS) as [n Hl]. exists (S n). intros [|fuel] st rest Hf Hr; [lia|].
    rewrite object_text. cbn [app]. rewrite <- !app_assoc. cbn [app]. rewrite <- !app_assoc. cbn [run_json].
    cbn [selector_json_scan_value].
    change (selector_json_scan_ws (ch_lbrace :: ?t)) with (ch_lbrace :: t).
    change (ch_lbrace =? ch_lbrace) with true. cbv iota.
    destruct (selector_json_object_begin st) as [[e|st1]|]; [done| |done]. cbn [mbind R_bind].
    specialize (Hl fuel st1 rest ltac:(lia)). fold run_member.
    destruct (fold_events run_member (m :: l) st1) as [[e|st2]|]; done.
Qed.

Lemma scans_all j : printable j -> scans j.
Proof.
  induction j as [|b|t|s|l IH|l IH] using json_ind'; intros H; inversion_clear H as [| |? H'|? H'|? H'|? H'].
  - exists 1%nat. intros [|fuel] st rest Hf Hr; [lia|]. done.
  - exists 1%nat. intros [|fuel] st rest Hf Hr; [lia|]. by destruct b.
  - by apply scans_number.
  - by apply scans_string.
  - apply scans_array; [done|]. rewrite Forall_forall in *. eauto.
  - apply scans_object; [done|]. rewrite Forall_forall in *. intros m Hm. apply IH; [done|]. by apply H'.
Qed.

(** ** The document *)

Lemma run_not_none j st : printable j -> state_ok st -> run_json j st <> None.
Proof.
  intros Hj Hs E. destruct (scans_all j Hj) as [n Hn].
  set (s := json_text j ++ []). set (fuel := Nat.max n (2 * length s + 1)).
  pose proof (proj1 (scan_total fuel) st s Hs ltac:(lia)) as H.
  subst s. rewrite Hn in H by (done || lia). by rewrite E in H.
Qed.

Lemma scan_value_runs j st rest fuel : printable j -> state_ok st -> stops rest ->
  (2 * length (json_text j ++ rest) + 1 <= fuel)%nat ->
  selector_json_scan_value fuel st (json_text j ++ rest) = (st ← run_json j st; mret (st, rest)).
Proof.
  intros Hj Hs Hr Hf. destruct (scans_all j Hj) as [n Hn].
  pose proof (proj1 (scan_total fuel) st _ Hs Hf) as H.
  destruct (selector_json_scan_value fuel st (json_text j ++ rest)) as [r|] eqn:E; [|done].
  rewrite <- (Hn (Nat.max n fuel) st rest) by (done || lia). symmetry.
  eapply scan_value_mono; [|exact E]. lia.
Qed.

Lemma ws_skip a s : Forall (fun c => json_space c = true) a ->
  match s with [] => True | c :: _ => json_space c = false end -> selector_json_scan_ws (a ++ s) = s.
Proof. intros Ha Hs. unfold selector_json_scan_ws, drop_while. by rewrite span_block. Qed.

Lemma space_stops c rest : json_space c = true -> stops (c :: rest).
Proof.
  unfold json_space, stops. intros H.
  assert (c = 32 \/ c = 9 \/ c = 13 \/ c = 10) as [-> | [-> | [-> | ->]]] by lia; done.
Qed.

Lemma scan_document_runs j st a b :
  printable j -> state_ok st ->
  Forall (fun c => json_space c = true) a -> Forall (fun c => json_space c = true) b ->
  selector_json_scan_document st (a ++ json_text j ++ b) = run_json j st.
Proof.
  intros Hj Hs Ha Hb. unfold selector_json_scan_document.
  destruct (text_first j Hj) as (c & t & Ec & Hc & _).
  rewrite ws_skip by (done || by rewrite Ec). cbv zeta.
  assert (exists d u, json_text j ++ b = d :: u) as (d & u & Ed) by (rewrite Ec; by do 2 eexists).
  rewrite Ed. rewrite <- Ed.
  rewrite scan_value_runs; [|done|done| |unfold scan_fuel; by rewrite Ed].
  - pose proof (run_not_none j st Hj Hs). destruct (run_json j st) as [[e|st']|]; [done| |done].
    cbn [mbind R_bind mret R_ret]. pose proof (ws_skip b [] Hb I) as E. rewrite app_nil_r in E. by rewrite E.
  - destruct Hb; [done|by apply space_stops].
Qed.

(** C36. The JSON scanner refines its event machine: for every JSON value with UTF-8
    strings, scanning the text of the value, whatever white space is around it, has
    the outcome (a state, or the error) of the events of the value, run in order. *)
Theorem scan_refines_events j st a b :
  printable j -> state_ok st ->
  Forall (fun c => json_space c = true) a -> Forall (fun c => json_space c = true) b ->
  selector_json_scan_document st (a ++ json_text j ++ b) = run_json j st.
Proof. apply scan_document_runs. Qed.

Lemma scan_refines_events_witness :
  selector_json_scan_document (mk_state (selector_zero LQL_SELECTOR_KIND_ALL) [] [])
    ([32; 10] ++ json_text (JObject [(bs "exists", JString (bs "/a"))]) ++ [13]) =
  mret (mk_state (with_field (selector_zero LQL_SELECTOR_KIND_EXISTS) (Some (bs "/a"))) [] (bs "/a")).
Proof.
  rewrite scan_refines_events.
  - by vm_compute.
  - repeat first [apply print_object | apply print_string | apply Forall_nil_2 | apply Forall_cons_2 | split];
      apply utf8_ascii; repeat (apply Forall_cons_2; [cbn; lia|]); apply Forall_nil_2.
  - apply initial_ok.
  - repeat constructor.
  - repeat constructor.
Defined.
