(* ===== verification/SelectorJsonRoundtrip.v ===== *)
(** * Importing an exported selector

    The JSON parser run on the JSON writer's text of a well-formed selector: it
    accepts it, and the tree it builds has the same AST. *)

From S2P Require Import Prelude.
From S2P Require Import Number.
From S2P Require Import Temporal.
From S2P Require Import Errors.
From S2P Require Import Selector.
From S2P Require Import Cursor.
From S2P Require Import CursorProps.
From S2P Require Import SelectorLex.
From S2P Require Import SelectorLexProps.
From S2P Require Import SelectorParse.
From S2P Require Import SelectorParseProps.
From S2P Require Import SelectorShorthand.
From S2P Require Import SelectorJson.
From S2P Require Import SelectorJsonProps.
From S2P Require Import SelectorJsonScan.
From S2P Require Import SelectorJsonScanProps.
From S2P Require Import SelectorJsonEvents.

(** ** What the texts of a selector must be for JSON to carry them *)

(** A C string a JSON document can hold. *)
Definition clean (t : bytes) : Prop := utf8 t /\ Forall (fun c => c <> 0) t.
Definition clean_opt (t : option bytes) : Prop := match t with Some x => clean x | None => True end.

(** Paths in normal form, texts in UTF-8. *)
Definition node_ready (s : lql_selector) : Prop :=
  (forall f, field s = Some f -> clean f /\ normalize_field_path f = Some f) /\
  (forall v, value s = Some v -> utf8 v) /\ Forall (fun v => utf8 (any_text v)) (any s) /\
  (forall k, clean_opt (bound k (range_text s))) /\ (forall d, clean_opt (date_slot_text s d)).

Inductive ready : lql_selector -> Prop :=
  | ready_node s : node_ready s -> Forall ready (children s) -> ready s.

(** ** Paths *)

Lemma set_node_same s p x : node_at s p = Some x -> set_node s p x = s.
Proof.
  revert s. induction p as [|i p IH]; intros s; cbn [node_at set_node]; [by intros [= ->]|].
  destruct (children s !! i) as [c|] eqn:E; [|done]. cbn. intros H.
  replace (alter (fun c => set_node c p x) i (children s)) with (children s); [by destruct s|].
  apply list_eq. intros j. rewrite list_lookup_alter. case_decide as Ej; [|done]. subst j.
  rewrite E. cbn. by rewrite IH.
Qed.

(** ** Operators *)

(** The frame of a selector object before its operator, with the operator's key
    pending, and after its value. *)
Definition fresh (p : list nat) : selector_json_frame :=
  mk_frame SELECTOR_JSON_FRAME_SELECTOR p None false [].
Definition keyed (p : list nat) (key : bytes) : selector_json_frame :=
  mk_frame SELECTOR_JSON_FRAME_SELECTOR p (Some key) true [].
Definition closed (p : list nat) : selector_json_frame :=
  mk_frame SELECTOR_JSON_FRAME_SELECTOR p None true [].

Lemma operator_key key k tree p rest :
  contains_nul (bs key) = false -> kind_from_name (bs key) = k -> selector_json_kind_is_valid_operator k = true ->
  node_at tree p = Some (selector_zero LQL_SELECTOR_KIND_ALL) ->
  selector_json_end_key (mk_state tree (fresh p :: rest) (bs key)) =
  mret (mk_state (set_node tree p (selector_zero k)) (keyed p (bs key) :: rest) (bs key)).
Proof.
  intros Hn Hk Hv Hr. unfold selector_json_end_key. cbn [text frames frame_kind fresh]. rewrite Hn.
  rewrite Hk, Hv. cbn [negb key_count]. unfold deref. cbn [root frame_selector fresh]. by rewrite Hr.
Qed.

Lemma close_object tree p rest t x :
  node_at tree p = Some x -> (kind x = LQL_SELECTOR_KIND_NOT -> length (children x) = 1%nat) ->
  selector_json_object_end (mk_state tree (closed p :: rest) t) = mret (mk_state tree rest t).
Proof.
  intros Hx Hn. unfold selector_json_object_end. cbn [frames frame_kind closed pending_key is_some negb key_count].
  rewrite !(bool_decide_eq_true_2 (SELECTOR_JSON_FRAME_SELECTOR = _)) by done. cbn [orb negb].
  unfold deref. cbn [root frame_selector closed]. rewrite Hx. cbn [mbind R_bind mret R_ret].
  assert (bool_decide (kind x = LQL_SELECTOR_KIND_NOT) && negb (length (children x) =? 1)%nat = false) as ->.
  { case_bool_decide as E; [by rewrite Hn|done]. }
  unfold selector_json_pop_frame, assign, with_frames. cbn [root frames text frame_selector closed tail].
  by rewrite (set_node_same tree p x).
Qed.

(** The members and the end of a selector object build the tree [s'] at the node of
    the object's frame. *)
Definition builds (l : list (bytes * json)) (s' : lql_selector) : Prop :=
  forall tree p rest t, node_at tree p = Some (selector_zero LQL_SELECTOR_KIND_ALL) ->
    exists t', (st ← fold_events run_member l (mk_state tree (fresh p :: rest) t); selector_json_object_end st) =
      mret (mk_state (set_node tree p s') rest t').

Lemma builds_all : builds [] (selector_zero LQL_SELECTOR_KIND_ALL).
Proof.
  intros tree p rest t H. exists t. cbn. unfold selector_json_object_end. cbn. unfold deref. cbn. rewrite H. done.
Qed.

(** One operator with its value: what the value must do. *)
Lemma builds_operator key k j s' :
  contains_nul (bs key) = false -> kind_from_name (bs key) = k -> selector_json_kind_is_valid_operator k = true ->
  (kind s' = LQL_SELECTOR_KIND_NOT -> length (children s') = 1%nat) ->
  (forall tree p rest t, node_at tree p = Some (selector_zero k) ->
    exists t', run_json j (mk_state tree (keyed p (bs key) :: rest) t) =
      mret (mk_state (set_node tree p s') (closed p :: rest) t')) ->
  builds [(bs key, j)] s'.
Proof.
  intros Hn Hk Hv Hc Hj tree p rest t Hr. cbn [fold_events]. rewrite run_member_eq. cbn [fst snd with_text].
  unfold with_text. cbn [root frames].
  rewrite (operator_key key k) by done. cbn [mbind R_bind mret R_ret].
  destruct (Hj (set_node tree p (selector_zero k)) p rest (bs key)) as [t' E]; [by eapply node_at_set|].
  rewrite E. exists t'. cbn [mbind R_bind mret R_ret]. rewrite set_set.
  rewrite (close_object _ _ _ _ s'); [done|by eapply node_at_set|done].
Qed.

(** ** Compounds *)

(** A child object: where it goes and what it leaves. *)
Lemma append_child_run tree p f rest t x :
  node_at tree p = Some x -> frame_selector f = p ->
  selector_json_append_child (mk_state tree rest t) f =
  mret (mk_state (set_node tree p (append_selector x (selector_zero LQL_SELECTOR_KIND_ALL)))
          (fresh (p ++ [length (children x)]) :: rest) t).
Proof.
  intros Hx Ef. unfold selector_json_append_child, deref. rewrite Ef. cbn. rewrite Hx. cbn.
  unfold assign. by rewrite Ef.
Qed.

Lemma child_builds l c tree p rest t x :
  builds l c -> node_at tree p = Some x ->
  exists t',
    (st ← fold_events run_member l
            (mk_state (set_node tree p (append_selector x (selector_zero LQL_SELECTOR_KIND_ALL)))
               (fresh (p ++ [length (children x)]) :: rest) t);
     selector_json_object_end st) =
    mret (mk_state (set_node tree p (append_selector x c)) rest t').
Proof.
  intros Hb Hx.
  set (tree1 := set_node tree p (append_selector x (selector_zero LQL_SELECTOR_KIND_ALL))).
  assert (node_at tree1 p = Some (append_selector x (selector_zero LQL_SELECTOR_KIND_ALL))) as H1
    by by eapply node_at_set.
  destruct (Hb tree1 (p ++ [length (children x)]) rest t) as [t' E].
  { rewrite node_at_app, H1. cbn. by rewrite lookup_app_r, Nat.sub_diag. }
  exists t'. rewrite E.
  enough (set_node tree1 (p ++ [length (children x)]) c = set_node tree p (append_selector x c)) as -> by done.
  rewrite (set_node_app _ _ _ _ _ H1). subst tree1. rewrite set_set. f_equal. unfold append_selector, with_children. cbn [children]. f_equal.
  rewrite alter_app_r_alt by done. by rewrite Nat.sub_diag.
Qed.

(** The objects of a child array. *)
Lemma children_run tree p rest t x js cs :
  Forall2 (fun j c => exists l, j = JObject l /\ builds l c) js cs ->
  node_at tree p = Some x ->
  exists t',
    fold_events run_json js
      (mk_state tree (mk_frame SELECTOR_JSON_FRAME_CHILD_ARRAY p None false [] :: rest) t) =
    mret (mk_state (set_node tree p (with_children x (children x ++ cs)))
            (mk_frame SELECTOR_JSON_FRAME_CHILD_ARRAY p None false [] :: rest) t').
Proof.
  intros H. revert tree x t. induction H as [|j c js cs (l & -> & Hb) _ IH]; intros tree x t Hx.
  - exists t. cbn. rewrite app_nil_r. rewrite set_node_same; [done|]. rewrite Hx. by destruct x.
  - cbn [fold_events run_json]. unfold selector_json_object_begin. cbn [frames frame_kind].
    rewrite bool_decide_eq_true_2 by done.
    rewrite (append_child_run tree p _ _ t x) by done. cbn [mbind R_bind mret R_ret]. fold run_member.
    destruct (child_builds l c tree p
      (mk_frame SELECTOR_JSON_FRAME_CHILD_ARRAY p None false [] :: rest) t x Hb Hx) as [t1 E].
    change (fun m st => st ← selector_json_end_key (with_text st (fst m)); run_json (snd m) st) with run_member.
    rewrite E. cbn [mbind R_bind mret R_ret].
    destruct (IH (set_node tree p (append_selector x c)) (append_selector x c) t1) as [t2 E2];
      [by eapply node_at_set|].
    exists t2. rewrite E2, set_set.
    enough (with_children (append_selector x c) (children (append_selector x c) ++ cs) =
            with_children x (children x ++ c :: cs)) as -> by done. unfold append_selector, with_children. cbn.
    by rewrite <- app_assoc.
Qed.

Lemma builds_children key k js cs :
  k = LQL_SELECTOR_KIND_AND \/ k = LQL_SELECTOR_KIND_OR ->
  contains_nul (bs key) = false -> kind_from_name (bs key) = k ->
  Forall2 (fun j c => exists l, j = JObject l /\ builds l c) js cs ->
  builds [(bs key, JArray js)] (with_children (selector_zero k) cs).
Proof.
  intros Hk Hn Ek Hcs. apply (builds_operator key k); [done|done|by destruct Hk as [-> | ->]| |].
  { cbn. by destruct Hk as [-> | ->]. }
  intros tree p rest t Hr. cbn [run_json]. unfold selector_json_array_begin. cbn [frames keyed pending_key].
  unfold deref. cbn [root frame_selector keyed]. rewrite Hr. cbn [mbind R_bind mret R_ret frame_kind kind].
  assert (bool_decide (kind (selector_zero k) = LQL_SELECTOR_KIND_AND) ||
          bool_decide (kind (selector_zero k) = LQL_SELECTOR_KIND_OR) = true) as ->
    by by destruct Hk as [-> | ->].
  rewrite bool_decide_eq_true_2 by done. cbn [andb].
  unfold selector_json_push_frame, with_frames, set_top. cbn [root frames text with_frames].
  destruct (children_run tree p (closed p :: rest) t (selector_zero k) js cs Hcs Hr) as [t' E].
  exists t'. change (with_pending (keyed p (bs key)) None) with (closed p).
  cbn [mbind R_bind mret R_ret frame_selector keyed] in *. rewrite E. done.
Qed.

Lemma builds_not l c : builds l c -> builds [(bs "not", JObject l)] (with_children (selector_zero LQL_SELECTOR_KIND_NOT) [c]).
Proof.
  intros Hb. apply (builds_operator "not" LQL_SELECTOR_KIND_NOT); try done.
  intros tree p rest t Hr. cbn [run_json]. unfold selector_json_object_begin. cbn [frames frame_kind keyed].
  rewrite (bool_decide_eq_false_2 (_ = SELECTOR_JSON_FRAME_CHILD_ARRAY)) by done.
  rewrite (bool_decide_eq_true_2 (SELECTOR_JSON_FRAME_SELECTOR = _)) by done.
  cbn [negb orb is_some pending_key keyed]. unfold deref. cbn [root frame_selector keyed]. rewrite Hr.
  cbn [mbind R_bind mret R_ret kind selector_zero]. rewrite bool_decide_eq_true_2 by done.
  change (set_top (mk_state tree (keyed p (bs "not") :: rest) t) (with_pending (keyed p (bs "not")) None) rest)
    with (mk_state tree (closed p :: rest) t).
  rewrite (append_child_run tree p _ _ t (selector_zero LQL_SELECTOR_KIND_NOT)) by done. cbn [mbind R_bind mret R_ret].
  apply (child_builds l c tree p (closed p :: rest) t (selector_zero LQL_SELECTOR_KIND_NOT) Hb Hr).
Qed.

(** ** Predicates *)

(** The frame of a predicate object between members. *)
Definition pframe (p : list nat) (seen : list seen_slot) : selector_json_frame :=
  mk_frame SELECTOR_JSON_FRAME_PREDICATE p None false seen.
Definition pkeyed (p : list nat) (key : bytes) (seen : list seen_slot) : selector_json_frame :=
  mk_frame SELECTOR_JSON_FRAME_PREDICATE p (Some key) false seen.

(** A member takes the predicate and its flags from [x] to [y]. *)
Definition stores (x : lql_selector * list seen_slot) (m : bytes * json) (y : lql_selector * list seen_slot) : Prop :=
  forall tree p rest t, node_at tree p = Some (fst x) ->
    exists t', run_member m (mk_state tree (pframe p (snd x) :: rest) t) =
      mret (mk_state (set_node tree p (fst y)) (pframe p (snd y) :: rest) t').

Inductive stores_all : lql_selector * list seen_slot -> list (bytes * json) -> lql_selector * list seen_slot -> Prop :=
  | stores_nil x : stores_all x [] x
  | stores_cons x m y l z : stores x m y -> stores_all y l z -> stores_all x (m :: l) z.

Lemma stores_all_app x l y l' z : stores_all x l y -> stores_all y l' z -> stores_all x (l ++ l') z.
Proof. induction 1; [done|]. intros. econstructor; eauto. Qed.

Lemma stores_one x m y : stores x m y -> stores_all x [m] y.
Proof. intros. econstructor; [done|constructor]. Qed.

Lemma stores_all_run x l y : stores_all x l y -> forall tree p rest t, node_at tree p = Some (fst x) ->
  exists t', fold_events run_member l (mk_state tree (pframe p (snd x) :: rest) t) =
    mret (mk_state (set_node tree p (fst y)) (pframe p (snd y) :: rest) t').
Proof.
  induction 1 as [x|x m y l z Hm _ IH]; intros tree p rest t Hx.
  - exists t. cbn. by rewrite (set_node_same tree p (fst x)).
  - destruct (Hm tree p rest t Hx) as [t1 E]. cbn [fold_events]. rewrite E. cbn [mbind R_bind mret R_ret].
    destruct (IH (set_node tree p (fst y)) p rest t1) as [t2 E2]; [by eapply node_at_set|].
    exists t2. rewrite E2. by rewrite set_set.
Qed.

Lemma not_seen seen slot : slot ∉ seen -> has_seen seen slot = false.
Proof. intros H. by apply bool_decide_eq_false. Qed.

(** The key of a member. *)
Lemma member_key key x seen slot tree p rest :
  contains_nul (bs key) = false -> key_allowed_for_kind (kind x) (bs key) = true ->
  json_slot (kind x) (bs key) = Some slot -> has_seen seen slot = false -> node_at tree p = Some x ->
  selector_json_end_key (mk_state tree (pframe p seen :: rest) (bs key)) =
  mret (mk_state tree (pkeyed p (bs key) (slot :: seen) :: rest) (bs key)).
Proof.
  intros Hn Hk Hs Hsn Hx. unfold selector_json_end_key. cbn [text frames frame_kind pframe]. rewrite Hn.
  unfold deref. cbn [root frame_selector pframe]. rewrite Hx. cbn [mbind R_bind mret R_ret].
  rewrite Hk. cbn [negb]. unfold selector_json_mark_seen. rewrite Hs. cbn [SelectorJsonScan.seen pframe].
  by rewrite Hsn.
Qed.

Lemma stores_value key x seen slot j y :
  contains_nul (bs key) = false -> key_allowed_for_kind (kind x) (bs key) = true ->
  json_slot (kind x) (bs key) = Some slot -> has_seen seen slot = false ->
  (forall tree p rest t, node_at tree p = Some x ->
     exists t', run_json j (mk_state tree (pkeyed p (bs key) (slot :: seen) :: rest) t) =
       mret (mk_state (set_node tree p y) (pframe p (slot :: seen) :: rest) t')) ->
  stores (x, seen) (bs key, j) (y, slot :: seen).
Proof.
  intros Hn Hk Hs Hsn Hj tree p rest t Hx. rewrite run_member_eq. cbn [fst snd] in *.
  unfold with_text. cbn [root frames]. rewrite (member_key key x seen slot) by done.
  cbn [mbind R_bind mret R_ret]. by apply Hj.
Qed.

Lemma string_value key x y t0 seen tree p rest t :
  predicate_string x (bs key) t0 = inr y -> node_at tree p = Some x ->
  exists t', run_json (JString t0) (mk_state tree (pkeyed p (bs key) seen :: rest) t) =
    mret (mk_state (set_node tree p y) (pframe p seen :: rest) t').
Proof.
  intros Hp Hx. exists t0. cbn [run_json]. unfold selector_json_string_end, with_text, deref.
  cbn [frames root frame_selector pkeyed]. rewrite Hx.
  cbn [mbind R_bind mret R_ret frame_kind pending_key pkeyed SelectorJsonScan.text]. by rewrite Hp.
Qed.

Lemma scalar_value st store f rest x y :
  frames st = f :: rest -> node_at (root st) (frame_selector f) = Some x -> store f x = inr y ->
  store_on_top st store = mret (mk_state (set_node (root st) (frame_selector f) y)
    (with_pending f None :: rest) (text st)).
Proof. intros Ef Hx Hs. unfold store_on_top, deref. rewrite Ef, Hx. cbn. by rewrite Hs. Qed.

(** The text of a literal in the tree. *)
Definition literal_text (k : lql_selector_literal_kind) (t : bytes) : Prop :=
  match k with
  | LQL_SELECTOR_LITERAL_STRING => True
  | LQL_SELECTOR_LITERAL_NUMBER => lql_number_is_json t = true
  | LQL_SELECTOR_LITERAL_BOOL => t = bs "true" \/ t = bs "false"
  | LQL_SELECTOR_LITERAL_NULL => t = bs "null"
  end.

Lemma literal_ok_text k t : literal_ok t k -> literal_text k t.
Proof.
  intros [-> | <-]; [done|]. unfold selector_literal_kind.
  destruct (bytes_eqb t (bs "true")) eqn:E1; [by left; apply bytes_eqb_eq|].
  destruct (bytes_eqb t (bs "false")) eqn:E2; [by right; apply bytes_eqb_eq|]. cbn [orb].
  destruct (bytes_eqb t (bs "null")) eqn:E3; [by apply bytes_eqb_eq|].
  by destruct (lql_number_is_json t) eqn:E4.
Qed.

(** A literal in a place where strings and scalars do the same. *)
Lemma literal_value f rest k t0 tree t x y :
  literal_text k t0 -> node_at tree (frame_selector f) = Some x -> pending_is f key_is_ignore_case = false ->
  (pending_is f key_is_range_bound && bool_decide (kind x = LQL_SELECTOR_KIND_RANGE) = false) ->
  (k <> LQL_SELECTOR_LITERAL_STRING -> selector_json_store_scalar f x t0 k = inr y) ->
  (k = LQL_SELECTOR_LITERAL_STRING -> selector_json_string_end (mk_state tree (f :: rest) t0) =
    mret (mk_state (set_node tree (frame_selector f) y) (with_pending f None :: rest) t0)) ->
  exists t', run_json (literal_json k t0) (mk_state tree (f :: rest) t) =
    mret (mk_state (set_node tree (frame_selector f) y) (with_pending f None :: rest) t').
Proof.
  intros Ht Hx Hi Hr Hs Hstr. destruct k; cbn [literal_json run_json literal_text] in *.
  - exists t0. by apply Hstr.
  - exists t0. unfold selector_json_number_end, with_text.
    rewrite (scalar_value _ _ f rest x y); [done|done|done|]. rewrite Hr. by apply Hs.
  - exists t. unfold selector_json_boolean.
    rewrite (scalar_value _ _ f rest x y); [done|done|done|]. rewrite Hi.
    destruct Ht as [-> | ->]; by apply Hs.
  - exists t. unfold selector_json_null. rewrite (scalar_value _ _ f rest x y); [done|done|done|].
    subst t0. by apply Hs.
Qed.

(** The members of the AST, one by one. *)
Lemma stores_field x f : clean f -> at_ f 0 = ch_slash -> normalize_field_path f = Some f ->
  stores (x, []) (bs "field", JString (cstr f)) (with_field x (Some f), [SeenField]).
Proof.
  intros [_ Hc] Hs Hn. rewrite cstr_id by done. apply stores_value; try done.
  intros tree p rest t Hx. apply (string_value _ x); [|done]. unfold predicate_string.
  change (key_is_field (bs "field")) with true. cbv iota.
  assert (contains_nul f = false) as ->.
  { unfold contains_nul. apply not_true_iff_false. rewrite existsb_exists. intros (c & Hin & E).
    rewrite List.Forall_forall in Hc. apply Hc in Hin. lia. }
  unfold selector_json_store_field, set_field. destruct f as [|c f]; [done|]. cbn in Hs. subst c.
  change (negb (ch_slash =? ch_slash)) with false. cbv iota. by rewrite Hn.
Qed.

Lemma stores_value_member x seen v k :
  literal_text k v -> kind x <> LQL_SELECTOR_KIND_DATE -> key_allowed_for_kind (kind x) (bs "value") = true ->
  has_seen seen SeenValue = false ->
  stores (x, seen) (bs "value", literal_json k v) (selector_json_store_value x v k, SeenValue :: seen).
Proof.
  intros Ht Hd Hk Hs. apply stores_value; try done.
  intros tree p rest t Hx.
  apply (literal_value (pkeyed p (bs "value") (SeenValue :: seen)) rest k v tree t x); try done.
  - intros Hns. unfold selector_json_store_scalar.
    assert (bool_decide (k = LQL_SELECTOR_LITERAL_NUMBER) && negb (lql_number_is_json v) = false) as ->.
    { case_bool_decide; [|done]. subst k. cbn in Ht. by rewrite Ht. }
    cbn [frame_kind pending_key pkeyed]. change (key_is_value (bs "value")) with true.
    by rewrite bool_decide_eq_false_2.
  - intros ->. unfold selector_json_string_end, deref. cbn [frames root frame_selector pkeyed]. rewrite Hx.
    cbn [mbind R_bind mret R_ret frame_kind pending_key pkeyed SelectorJsonScan.text]. unfold predicate_string.
    change (key_is_field (bs "value")) with false. change (key_is_value (bs "value")) with true.
    by rewrite bool_decide_eq_false_2.
Qed.

(** The frame of an [any] array. *)
Definition aframe (p : list nat) : selector_json_frame :=
  mk_frame SELECTOR_JSON_FRAME_ANY_ARRAY p None false [].

Definition push_any (x : lql_selector) (v : any_value) : lql_selector :=
  selector_json_push_any x (any_text v) (any_kind v).

Lemma any_items_run vs tree p rest t x :
  Forall (fun v => literal_text (any_kind v) (any_text v)) vs -> node_at tree p = Some x ->
  exists t', fold_events run_json (map (fun v => literal_json (any_kind v) (any_text v)) vs)
      (mk_state tree (aframe p :: rest) t) =
    mret (mk_state (set_node tree p (fold_left push_any vs x)) (aframe p :: rest) t').
Proof.
  intros H. revert tree t x. induction H as [|v vs Hv _ IH]; intros tree t x Hx.
  { exists t. cbn. by rewrite (set_node_same tree p x). }
  cbn [map fold_events fold_left].
  destruct (literal_value (aframe p) rest (any_kind v) (any_text v) tree t x (push_any x v)) as [t1 E]; try done.
  - intros Hns. unfold selector_json_store_scalar.
    assert (bool_decide (any_kind v = LQL_SELECTOR_LITERAL_NUMBER) && negb (lql_number_is_json (any_text v)) = false) as ->.
    { case_bool_decide as E; [|done]. rewrite E in Hv. cbn in Hv. by rewrite Hv. }
    done.
  - intros E. unfold selector_json_string_end, deref. cbn [frames root frame_selector aframe]. rewrite Hx.
    cbn [mbind R_bind mret R_ret frame_kind pending_key aframe SelectorJsonScan.text]. unfold push_any. by rewrite E.
  - change (frame_selector (aframe p)) with p in E. change (with_pending (aframe p) None) with (aframe p) in E.
    rewrite E. cbn [mbind R_bind mret R_ret].
    destruct (IH (set_node tree p (push_any x v)) t1 (push_any x v)) as [t2 E2]; [by eapply node_at_set|].
    exists t2. rewrite E2. by rewrite set_set.
Qed.

Lemma stores_any x seen vs :
  Forall (fun v => literal_text (any_kind v) (any_text v)) vs -> kind x <> LQL_SELECTOR_KIND_DATE ->
  key_allowed_for_kind (kind x) (bs "any") = true -> has_seen seen SeenAny = false ->
  stores (x, seen) (bs "any", JArray (map (fun v => literal_json (any_kind v) (any_text v)) vs))
    (fold_left push_any vs x, SeenAny :: seen).
Proof.
  intros Hv Hd Hk Hs. apply stores_value; try done.
  intros tree p rest t Hx. cbn [run_json]. unfold selector_json_array_begin.
  cbn [frames pending_key pkeyed]. unfold deref. cbn [root frame_selector pkeyed]. rewrite Hx.
  cbn [mbind R_bind mret R_ret frame_kind pkeyed].
  rewrite (bool_decide_eq_false_2 (_ = SELECTOR_JSON_FRAME_SELECTOR)) by done.
  rewrite (bool_decide_eq_true_2 (_ = SELECTOR_JSON_FRAME_PREDICATE)) by done.
  change (key_is_any (bs "any")) with true. cbn [andb].
  destruct (any_items_run vs tree p (pframe p (SeenAny :: seen) :: rest) t x Hv Hx) as [t' E].
  exists t'. cbn [mret R_ret] in *. unfold selector_json_push_frame, set_top, with_frames, with_pending.
  cbn [root frames SelectorJsonScan.text frame_selector frame_kind key_count SelectorJsonScan.seen mbind R_bind pkeyed].
  change (mk_frame SELECTOR_JSON_FRAME_PREDICATE p None false (SeenAny :: seen)) with (pframe p (SeenAny :: seen)).
  change (mk_frame SELECTOR_JSON_FRAME_ANY_ARRAY p None false []) with (aframe p). cbn [mbind R_bind mret R_ret]. by rewrite E.
Qed.

Lemma stores_ignore x seen :
  key_allowed_for_kind (kind x) (bs "ignoreCase") = true -> has_seen seen SeenIgnoreCase = false ->
  stores (x, seen) (bs "ignoreCase", JBool true) (with_ignore_case x true, SeenIgnoreCase :: seen).
Proof.
  intros Hk Hs. apply stores_value; try done. intros tree p rest t Hx. exists t. cbn [run_json].
  unfold selector_json_boolean. by rewrite (scalar_value _ _ (pkeyed p (bs "ignoreCase") (SeenIgnoreCase :: seen)) rest x (with_ignore_case x true)).
Qed.

Lemma close_predicate tree p rest t x y seen :
  node_at tree p = Some x -> selector_json_validate_predicate x seen = inr y ->
  string_predicate_is_match_all_alias (kind y) y = false ->
  selector_json_object_end (mk_state tree (pframe p seen :: rest) t) = mret (mk_state (set_node tree p y) rest t).
Proof.
  intros Hx Hval Hal. unfold selector_json_object_end. cbn [frames frame_kind pframe pending_key is_some].
  rewrite (bool_decide_eq_false_2 (_ = SELECTOR_JSON_FRAME_SELECTOR)) by done.
  rewrite (bool_decide_eq_true_2 (_ = SELECTOR_JSON_FRAME_PREDICATE)) by done. cbn [negb orb].
  unfold deref. cbn [root frame_selector pframe]. rewrite Hx.
  cbn [mbind R_bind mret R_ret SelectorJsonScan.seen pframe]. unfold lift. rewrite Hval.
  cbn [mbind R_bind]. by rewrite Hal.
Qed.

(** An operator with a predicate object. *)
Lemma builds_predicate key k ms x seen y :
  contains_nul (bs key) = false -> kind_from_name (bs key) = k -> selector_json_kind_is_valid_operator k = true ->
  selector_is_predicate (selector_zero k) = true -> k <> LQL_SELECTOR_KIND_EXISTS ->
  stores_all (selector_zero k, []) ms (x, seen) ->
  selector_json_validate_predicate x seen = inr y -> kind y = k ->
  string_predicate_is_match_all_alias (kind y) y = false ->
  builds [(bs key, JObject ms)] y.
Proof.
  intros Hn Hk Hv Hp He Hm Hval Ey Hal. apply (builds_operator key k); [done..| |].
  { intros E. rewrite Ey in E. subst k. by rewrite E in Hp. }
  intros tree p rest t Hr. cbn [run_json]. unfold selector_json_object_begin. cbn [frames frame_kind keyed].
  rewrite (bool_decide_eq_false_2 (_ = SELECTOR_JSON_FRAME_CHILD_ARRAY)) by done.
  rewrite (bool_decide_eq_true_2 (SELECTOR_JSON_FRAME_SELECTOR = _)) by done.
  cbn [negb orb is_some pending_key keyed]. unfold deref. cbn [root frame_selector keyed]. rewrite Hr.
  cbn [mbind R_bind mret R_ret]. change (kind (selector_zero k)) with k.
  rewrite (bool_decide_eq_false_2 (k = LQL_SELECTOR_KIND_NOT)) by (by intros ->).
  rewrite (bool_decide_eq_false_2 (k = LQL_SELECTOR_KIND_EXISTS)), Hp by done. cbn [andb negb].
  change (with_pending (keyed p (bs key)) None) with (closed p).
  unfold selector_json_push_frame, set_top, with_frames. cbn [root frames SelectorJsonScan.text mbind R_bind mret R_ret].
  change (mk_frame SELECTOR_JSON_FRAME_PREDICATE p None false []) with (pframe p []).
  destruct (stores_all_run _ _ _ Hm tree p (closed p :: rest) t Hr) as [t' E]. cbn [fst snd mret R_ret] in E.
  change (fun m st => st ← selector_json_end_key (with_text st (fst m)); run_json (snd m) st) with run_member.
  rewrite E. exists t'. cbn [mbind R_bind mret R_ret].
  rewrite (close_predicate _ _ _ _ x y); [by rewrite set_set|by eapply node_at_set|done..].
Qed.

(** ** String predicates *)

Lemma fold_push_any vs x :
  fold_left push_any vs x =
  with_any x (any x ++ map (fun v => mk_any (any_text v) (textual_kind x (any_kind v)) true) vs).
Proof.
  revert x. induction vs as [|v vs IH]; intros x; cbn [fold_left map].
  - rewrite app_nil_r. by destruct x.
  - rewrite IH. unfold push_any, selector_json_push_any. cbn [any with_any].
    rewrite <- app_assoc. by destruct x.
Qed.

(** The predicate after its members, from the one exported. *)
Definition import_value (x s : lql_selector) : lql_selector :=
  match value s with Some v => selector_json_store_value x v (value_kind s) | None => x end.

Definition import_string (k : lql_selector_kind) (s : lql_selector) : lql_selector :=
  let x := with_field (selector_zero k) (field s) in
  let x := import_value x s in
  let x := fold_left push_any (any s) x in
  if ignore_case s then with_ignore_case x true else x.

(** What a string predicate of kind [k] may carry. *)
Definition string_ok (k : lql_selector_kind) (s : lql_selector) : Prop :=
  value_ok s /\ Forall any_value_ok (any s) /\ (any s = [] \/ value s = None) /\
  (any s = [] \/ k = LQL_SELECTOR_KIND_CONTAINS \/ k = LQL_SELECTOR_KIND_ICONTAINS) /\
  (selector_kind_uses_textual_needles k = true -> value_kind s = LQL_SELECTOR_LITERAL_STRING /\
    Forall (fun v => any_kind v = LQL_SELECTOR_LITERAL_STRING) (any s)) /\
  (k = LQL_SELECTOR_KIND_EQ -> ignore_case s = false) /\
  (k = LQL_SELECTOR_KIND_EQ \/ selector_kind_uses_textual_needles k = true).

Lemma string_kind k s : string_ok k s ->
  key_allowed_for_kind k (bs "value") = true /\ k <> LQL_SELECTOR_KIND_DATE /\ k <> LQL_SELECTOR_KIND_IN /\
  k <> LQL_SELECTOR_KIND_RANGE /\
  (any s <> [] -> key_allowed_for_kind k (bs "any") = true) /\
  (ignore_case s = true -> key_allowed_for_kind k (bs "ignoreCase") = true).
Proof.
  intros (_ & _ & _ & Ha & _ & Hi & Hk). destruct k; destruct Hk as [Hk|Hk]; try done; split_and!; try done;
    intros E; try (by destruct Ha as [?|[?|?]]); by rewrite Hi in E.
Qed.

Lemma stores_string k s f :
  string_ok k s -> field s = Some f -> clean f -> at_ f 0 = ch_slash -> normalize_field_path f = Some f ->
  exists seen, stores_all (selector_zero k, [])
    (field_member s ::
     optional_member "value" (literal_json (value_kind s) <$> value s) ++
     optional_member "any" (match any s with [] => None | _ => Some (any_json s) end) ++
     optional_member "ignoreCase" (if ignore_case s then Some (JBool true) else None))
    (import_string k s, seen).
Proof.
  intros Hs Ef Hc Hf Hn. destruct (string_kind k s Hs) as (K1 & K2 & K3 & K4 & K5 & K6).
  destruct Hs as (Hv & Ha & _ & _ & Ht & _ & _). unfold import_string, field_member. rewrite Ef. cbn [default].
  set (x0 := with_field (selector_zero k) (Some f)).
  exists ((if ignore_case s then [SeenIgnoreCase] else []) ++ (match any s with [] => [] | _ => [SeenAny] end) ++
    (match value s with None => [] | _ => [SeenValue] end) ++ [SeenField]).
  econstructor; [by apply stores_field|].
  eapply stores_all_app with (y := (import_value x0 s, (match value s with None => [] | _ => [SeenValue] end) ++ [SeenField])).
  { unfold import_value, value_ok in *. destruct (value s) as [v|]; [|constructor].
    apply stores_one, stores_value_member; [by apply literal_ok_text, Hv|done..]. }
  assert (forall sl, sl <> SeenField -> sl <> SeenValue ->
    has_seen ((match value s with None => [] | _ => [SeenValue] end) ++ [SeenField]) sl = false) as S1.
  { intros sl N1 N2. by destruct (value s), sl. }
  assert (kind (import_value x0 s) = k) as E1 by (unfold import_value; by destruct (value s)).
  eapply stores_all_app with (y := (fold_left push_any (any s) (import_value x0 s),
    (match any s with [] => [] | _ => [SeenAny] end) ++ (match value s with None => [] | _ => [SeenValue] end) ++ [SeenField])).
  { destruct (any s) as [|v vs] eqn:Ea; [constructor|]. cbn [optional_member app]. apply stores_one.
    unfold any_json. rewrite Ea. apply stores_any; [|by rewrite E1| |by apply S1].
    - eapply Forall_impl; [|exact Ha]. intros w (_ & _ & Hw). by apply literal_ok_text.
    - rewrite E1. by apply K5. }
  destruct (ignore_case s) eqn:Ei; [|constructor]. apply stores_one, stores_ignore.
  - rewrite fold_push_any. cbn [kind with_any]. rewrite E1. by apply K6.
  - by destruct (any s), (value s).
Qed.

Lemma textual_same k x kd : kind x = k ->
  (selector_kind_uses_textual_needles k = true -> kd = LQL_SELECTOR_LITERAL_STRING) -> textual_kind x kd = kd.
Proof. intros <- H. unfold textual_kind. destruct (selector_kind_uses_textual_needles (kind x)); [|done]. by rewrite H. Qed.

(** The import has the same members. *)
Lemma import_string_members k s : string_ok k s ->
  let y := prepare_selector_value_temporal (import_string k s) in
  kind y = k /\ field y = field s /\ string_predicate y = string_predicate s /\
  string_predicate_is_match_all_alias k y = string_predicate_is_match_all_alias k s.
Proof.
  intros Hs. cbv zeta.
  destruct (value_temporal_fields (import_string k s)) as
    (F1 & _ & F3 & F4 & F5 & F6 & F7 & _ & _ & _ & _ & _ & _ & _ & _ & _ & _ & F18).
  set (y := prepare_selector_value_temporal (import_string k s)) in *. clearbody y.
  destruct Hs as (Hv & _ & _ & _ & Ht & _ & _). unfold import_string in *. rewrite fold_push_any in *.
  set (x0 := with_field (selector_zero k) (field s)) in *.
  assert (kind (import_value x0 s) = k /\ field (import_value x0 s) = field s /\ any (import_value x0 s) = [] /\
    ignore_case (import_value x0 s) = false /\ value (import_value x0 s) = value s /\
    value_set (import_value x0 s) = value_set s /\
    (value s <> None -> value_kind (import_value x0 s) = value_kind s)) as (I1 & I2 & I3 & I4 & I5 & I6 & I7).
  { unfold import_value, value_ok in *. destruct (value s) as [v|]; [|by split_and!].
    destruct Hv as [-> _]. split_and!; try done. intros _. cbn. apply (textual_same k); [done|]. by apply Ht. }
  set (x1 := import_value x0 s) in *. clearbody x1. rewrite I3 in *. cbn [app] in *.
  assert (kind y = k /\ field y = field s /\ value y = value s /\ value_set y = value_set s /\
    (value s <> None -> value_kind y = value_kind s) /\ ignore_case y = ignore_case s /\
    any y = map (fun v => mk_any (any_text v) (any_kind v) true) (any s)) as (Y1 & Y2 & Y3 & Y4 & Y5 & Y6 & Y7).
  { rewrite F1, F3, F4, F5, F6, F7, F18.
    assert (map (fun v => mk_any (any_text v) (textual_kind x1 (any_kind v)) true) (any s) =
            map (fun v => mk_any (any_text v) (any_kind v) true) (any s)) as ->.
    { apply map_ext_in. intros v Hin. f_equal. apply (textual_same k); [done|]. intros E.
      destruct (Ht E) as [_ Ha]. rewrite List.Forall_forall in Ha. by apply Ha. }
    by destruct (ignore_case s); split_and!. }
  split_and!; [done|done| |].
  - unfold string_predicate, field_member, any_json. rewrite Y2, Y3, Y6, Y7. do 2 f_equal. f_equal; [|f_equal].
    + destruct (value s) eqn:E; [|done]. cbn. by rewrite Y5.
    + destruct (any s) as [|v vs]; [done|]. cbn [map]. by rewrite map_map.
  - unfold string_predicate_is_match_all_alias. rewrite Y2, Y3, Y4, Y7. by destruct (any s).
Qed.

Lemma builds_string key k s f :
  contains_nul (bs key) = false -> kind_from_name (bs key) = k ->
  string_ok k s -> field s = Some f -> clean f -> at_ f 0 = ch_slash -> normalize_field_path f = Some f ->
  string_predicate_is_match_all_alias k s = false ->
  exists y, (exists ms, string_predicate s = JObject ms /\ builds [(bs key, JObject ms)] y) /\
    kind y = k /\ string_predicate y = string_predicate s.
Proof.
  intros Hn Hk Hs Ef Hc Hf Hnf Hal. destruct (import_string_members k s Hs) as (Y1 & Y2 & Y3 & Y4).
  destruct (stores_string k s f Hs Ef Hc Hf Hnf) as [seen Hst]. destruct (string_kind k s Hs) as (_ & K2 & K3 & K4 & _).
  exists (prepare_selector_value_temporal (import_string k s)). split; [|done]. eexists. split; [reflexivity|].
  destruct Hs as (Hv & _ & Hone & Hany & _ & _ & Hkk).
  apply (builds_predicate key k _ (import_string k s) seen); try done.
  - destruct Hkk as [->|Ht]; [done|]. by destruct k.
  - destruct Hkk as [->|Ht]; [done|]. by destruct k.
  - destruct Hkk as [->|Ht]; [done|]. by destruct k.
  - destruct (value_temporal_fields (import_string k s)) as (F1 & _ & F3 & F4 & F5 & _ & F7 & _).
    unfold selector_json_validate_predicate. cbv zeta. rewrite <- F1, Y1, <- F3, Y2, Ef. cbn [is_some negb].
    rewrite !(bool_decide_eq_false_2 (k = LQL_SELECTOR_KIND_IN)), !(bool_decide_eq_false_2 (k = LQL_SELECTOR_KIND_RANGE)),
      !(bool_decide_eq_false_2 (k = LQL_SELECTOR_KIND_DATE)) by done. cbn [andb].
    assert ((bool_decide (k = LQL_SELECTOR_KIND_CONTAINS) || bool_decide (k = LQL_SELECTOR_KIND_ICONTAINS)) &&
      negb (bool_decide (any (import_string k s) = [])) &&
      (value_set (import_string k s) || is_some (value (import_string k s))) = false) as ->; [|done].
    unfold import_string. rewrite fold_push_any. unfold import_value, value_ok in *.
    destruct Hone as [-> | Hnone]; [by destruct (ignore_case s), (value s); cbn; rewrite ?andb_false_r|].
    rewrite Hnone. by destruct (ignore_case s); cbn; rewrite ?andb_false_r.
  - by rewrite Y1, Y4.
Qed.

(** ** Ranges *)

Definition bound_name (k : bound_key) : string :=
  match k with Gt => "gt" | Gte => "gte" | Lt => "lt" | Lte => "lte" end.

(** The bounds read so far are those of [s], the others are not set. *)
Record range_upto (s x : lql_selector) (seen : list seen_slot) (ks : list bound_key) : Prop := mk_range_upto {
  ru_kind : kind x = LQL_SELECTOR_KIND_RANGE;
  ru_field : field x = field s;
  ru_in : forall k, k ∈ ks -> (bound k (range_text x), bound k (temporal x), bound k (has_range x)) =
    (bound k (range_text s), bound k (temporal s), bound k (has_range s));
  ru_out : forall k, k ∉ ks ->
    (bound k (range_text x), bound k (temporal x), bound k (has_range x)) = (None, None, false) /\
    has_seen seen (slot_of_bound k) = false
}.

Lemma bound_of_name k : bound_of_key (bs (bound_name k)) = k.
Proof. by destruct k. Qed.

Lemma no_nul t : clean t -> contains_nul t = false.
Proof.
  intros [_ H]. unfold contains_nul. apply not_true_iff_false. rewrite existsb_exists. intros (c & Hc & E).
  rewrite List.Forall_forall in H. apply H in Hc. lia.
Qed.

Lemma set_range_bound_text x k t u num :
  trimmed t -> (lql_parse_temporal_literal t = Some u /\ num = false) \/
    (lql_number_is_json t = true /\ lql_parse_temporal_literal t = None /\ num = true) ->
  set_range_bound x (bs (bound_name k)) t =
  inr (with_range x k t (lql_parse_temporal_literal t) num (is_some (lql_parse_temporal_literal t))).
Proof.
  intros Ht H. unfold set_range_bound. rewrite bound_of_name. cbv zeta. rewrite trim_id by done.
  destruct H as [[-> ->]|(Hj & -> & ->)]; [done|]. by rewrite Hj.
Qed.

Lemma range_member s x seen ks k :
  ranges_ok s -> clean_opt (bound k (range_text s)) -> range_upto s x seen ks -> k ∉ ks ->
  exists y seen', stores_all (x, seen) (optional_member (bound_name k) (bound_json s k)) (y, seen') /\
    range_upto s y seen' (k :: ks).
Proof.
  intros Hr Hc [Rk Rf Ri Ro] Hk. specialize (Hr k). destruct (Ro k Hk) as [[= O1 O2 O3] O4].
  unfold range_bound_ok, bound_json in *. destruct (bound k (range_text s)) as [t|] eqn:Et; cycle 1.
  { destruct Hr as [E1 E2]. exists x, seen. split; [constructor|]. split; try done.
    - intros k' [->|Hin]%elem_of_cons; [by rewrite O1, O2, O3, Et, E1, E2|by apply Ri].
    - intros k' Hn. apply Ro. rewrite not_elem_of_cons in Hn. tauto. }
  destruct Hr as [Htr Hr]. cbn [clean_opt default from_option] in *.
  set (y := with_range x k t (lql_parse_temporal_literal t) (bound k (has_range s)) (is_some (lql_parse_temporal_literal t))).
  assert (lql_parse_temporal_literal t = bound k (temporal s)) as Ep.
  { destruct Hr as [(u & Hu & -> & _)|(Hj & E & _)]; [done|]. rewrite E.
    destruct (lql_parse_temporal_literal t) as [u|] eqn:Eu; [|done]. apply number_not_temporal in Eu. congruence. }
  exists y, (slot_of_bound k :: seen). split.
  - assert (set_range_bound x (bs (bound_name k)) t = inr y) as Hset.
    { apply (set_range_bound_text x k t (default (mk_temporal 0 0 0 0 0 false) (bound k (temporal s)))); [done|].
      destruct Hr as [(u & Hu & E & ->)|(Hj & E & ->)]; [left; by rewrite Hu, E|right].
      split; [done|]. split; [by rewrite Ep|done]. }
    assert (forall j, (forall tree p rest t0, node_at tree p = Some x ->
      exists t', run_json j (mk_state tree (pkeyed p (bs (bound_name k)) (slot_of_bound k :: seen) :: rest) t0) =
       mret (mk_state (set_node tree p y) (pframe p (slot_of_bound k :: seen) :: rest) t')) ->
      stores_all (x, seen) [(bs (bound_name k), j)] (y, slot_of_bound k :: seen)) as K.
    { intros j Hj. apply stores_one, stores_value; try done; rewrite ?Rk; by destruct k. }
    destruct Hr as [(u & Hu & Eu & _)|(Hj & Eu & _)]; rewrite Eu; apply K; intros tree p rest t0 Hx.
    + rewrite cstr_id by apply Hc. apply (string_value _ x); [|done]. unfold predicate_string.
      rewrite Rk, (no_nul t Hc). by destruct k; cbn.
    + exists t. cbn [run_json]. unfold selector_json_number_end, with_text.
      rewrite (scalar_value _ _ (pkeyed p (bs (bound_name k)) (slot_of_bound k :: seen)) rest x y); [done|done|done|].
      unfold pending_is. cbn [frame_kind pkeyed pending_key default from_option SelectorJsonScan.text].
      rewrite Rk, bool_decide_eq_true_2 by done.
      assert (key_is_range_bound (bs (bound_name k)) = true) as -> by by destruct k. done.
  - split; [done|done| |].
    + intros k' Hk'. subst y. cbn [range_text temporal has_range with_range]. rewrite Ep.
      destruct (decide (k = k')) as [<-|Hne].
      * rewrite bound_set, decide_True by done. rewrite Et.
        destruct Hr as [(u & Hu & E & Hh)|(Hj & E & Hh)]; rewrite E, Hh;
          rewrite ?bound_set, ?decide_True by done; by rewrite ?O2, ?O3.
      * apply elem_of_cons in Hk' as [->|Hk']; [done|]. rewrite <- (Ri k' Hk').
        rewrite bound_set, decide_False by done.
        destruct (bound k (temporal s)), (bound k (has_range s)); by rewrite ?bound_set, ?decide_False by done.
    + intros k' Hn. rewrite not_elem_of_cons in Hn. destruct Hn as [Hne Hn]. destruct (Ro k' Hn) as [E1 E2].
      rewrite <- E1. subst y. cbn [range_text temporal has_range with_range]. rewrite Ep, bound_set, decide_False by done.
      split; [destruct (bound k (temporal s)), (bound k (has_range s)); by rewrite ?bound_set, ?decide_False by done|].
      unfold has_seen in *. apply bool_decide_eq_false in E2. apply bool_decide_eq_false.
      rewrite not_elem_of_cons. split; [|done]. by destruct k, k'.
Qed.

Lemma prepare_fields x : kind x <> LQL_SELECTOR_KIND_EQ -> kind x <> LQL_SELECTOR_KIND_NE ->
  prepare_selector_value_temporal x = with_value_temporal x false (temporal_eq x).
Proof.
  intros H1 H2. unfold prepare_selector_value_temporal. cbv zeta.
  change (kind (with_value_temporal x false (temporal_eq x))) with (kind x). by destruct (kind x).
Qed.

Lemma builds_range s f :
  ranges_ok s -> any_number_bound s = negb (any_temporal_bound s) -> (forall k, clean_opt (bound k (range_text s))) ->
  field s = Some f -> clean f -> at_ f 0 = ch_slash -> normalize_field_path f = Some f ->
  exists y, (exists ms, range_predicate s = JObject ms /\ builds [(bs "range", JObject ms)] y) /\
    kind y = LQL_SELECTOR_KIND_RANGE /\ range_predicate y = range_predicate s.
Proof.
  intros Hr Hm Hc Ef Hcf Hf Hn.
  set (x0 := with_field (selector_zero LQL_SELECTOR_KIND_RANGE) (Some f)).
  assert (range_upto s x0 [SeenField] []) as U0.
  { split; [done|by rewrite Ef|by intros k ?%elem_of_nil|]. intros k _. split; by destruct k. }
  destruct (range_member s x0 _ [] Gt Hr (Hc Gt) U0) as (x1 & s1 & M1 & U1); [by intros ?%elem_of_nil|].
  destruct (range_member s x1 _ _ Gte Hr (Hc Gte) U1) as (x2 & s2 & M2 & U2); [by rewrite !elem_of_cons, elem_of_nil; intuition|].
  destruct (range_member s x2 _ _ Lt Hr (Hc Lt) U2) as (x3 & s3 & M3 & U3); [by rewrite !elem_of_cons, elem_of_nil; intuition|].
  destruct (range_member s x3 _ _ Lte Hr (Hc Lte) U3) as (x4 & s4 & M4 & U4); [by rewrite !elem_of_cons, elem_of_nil; intuition|].
  destruct U4 as [Rk Rf Ri _].
  assert (forall k, (bound k (range_text x4), bound k (temporal x4), bound k (has_range x4)) =
    (bound k (range_text s), bound k (temporal s), bound k (has_range s))) as RA.
  { intros k. apply Ri. rewrite !elem_of_cons. destruct k; tauto. }
  assert (any_number_bound x4 = any_number_bound s /\ any_temporal_bound x4 = any_temporal_bound s) as [N1 N2].
  { unfold any_number_bound, any_temporal_bound.
    pose proof (RA Gt) as [= _ -> ->]. pose proof (RA Gte) as [= _ -> ->].
    pose proof (RA Lt) as [= _ -> ->]. pose proof (RA Lte) as [= _ -> ->]. done. }
  exists (prepare_selector_value_temporal x4). rewrite prepare_fields by (by rewrite Rk). split_and!.
  - eexists. split; [reflexivity|]. apply (builds_predicate "range" LQL_SELECTOR_KIND_RANGE _ x4 s4); try done.
    + unfold field_member. rewrite Ef. cbn [default]. econstructor; [by apply stores_field|].
      eapply stores_all_app; [exact M1|]. eapply stores_all_app; [exact M2|].
      by eapply stores_all_app; [exact M3|].
    + unfold selector_json_validate_predicate. cbv zeta. rewrite Rf, Ef, Rk, N1, N2, Hm.
      rewrite <- prepare_fields by (by rewrite Rk). by destruct (any_temporal_bound s).
    + cbn [kind with_value_temporal]. by rewrite Rk.
  - done.
  - unfold range_predicate, field_member, bound_json. cbn [field range_text temporal with_value_temporal bound].
    rewrite Rf. pose proof (RA Gt) as [= -> -> _]. pose proof (RA Gte) as [= -> -> _].
    pose proof (RA Lt) as [= -> -> _]. pose proof (RA Lte) as [= -> -> _]. done.
Qed.

(** ** Dates *)

Definition date_name (d : date_slot) : string :=
  match d with
  | SlotValue => "value" | SlotSince => "since" | SlotAfter => "after" | SlotBefore => "before"
  | SlotBound k => bound_name k
  end.

Definition date_set (x : lql_selector) : Prop :=
  has_temporal_eq x = true \/ any_temporal_bound x = true \/ since_macro x <> LQL_SINCE_NONE.

(** The texts read so far are those of [s], the others are not set, and the flags
    tell them apart. *)
Record date_upto (s x : lql_selector) (seen : list seen_slot) (ds : list date_slot) : Prop := mk_date_upto {
  du_kind : kind x = LQL_SELECTOR_KIND_DATE;
  du_field : field x = field s;
  du_text : forall d, date_slot_text x d = if decide (d ∈ ds) then date_slot_text s d else None;
  du_seen : forall d, has_seen seen (slot_of_date d) = is_some (date_slot_text x d);
  du_set : (exists d, is_Some (date_slot_text x d)) -> date_set x
}.

Lemma any_temporal_set k u s : is_some (bound k (temporal s)) = true -> u = s -> any_temporal_bound u = true.
Proof. intros H ->. unfold any_temporal_bound. destruct k; cbn in H; rewrite H; by rewrite ?orb_true_r. Qed.

(** Setting a slot with a text the tree holds. *)
Lemma set_date_text s x d t : dates_ok s -> date_slot_text s d = Some t ->
  exists y, set_date_bound x d t = inr y /\ kind y = kind x /\ field y = field x /\ date_set y /\
    forall d', date_slot_text y d' = if decide (d = d') then Some t else date_slot_text x d'.
Proof.
  intros (D1 & D2 & D3 & D4 & D5) Hd.
  assert (since_macro_of t = None \/ d <> SlotSince -> is_Some (lql_parse_temporal_literal t)) as Hp.
  { destruct d; cbn in Hd; eauto. intros [E|?]; [|done]. destruct (D5 t Hd) as [?|[_ ?]]; [congruence|done]. }
  unfold set_date_bound. destruct d as [| | | |k].
  2: { destruct (since_macro_of t) as [m|] eqn:Em.
       - eexists. split_and!; try done; [|by intros [| | | |[]]].
         right; right. cbn. unfold since_macro_of in Em. repeat case_match; simplify_eq; done.
       - destruct (Hp (or_introl eq_refl)) as [u ->]. eexists. split_and!; try done; [|by intros [| | | |[]]].
         right; left. unfold any_temporal_bound. cbn. by rewrite !orb_true_r. }
  all: destruct Hp as [u ->]; [by right|]; eexists; split_and!; try done.
  - by left.
  - by intros [| | | |[]].
  - by right; left.
  - by intros [| | | |[]].
  - right; left. unfold any_temporal_bound. cbn. by rewrite !orb_true_r.
  - by intros [| | | |[]].
  - right; left. unfold any_temporal_bound. cbn. destruct k; cbn; by rewrite ?orb_true_r.
  - destruct k; by intros [| | | |[]].
Qed.

Lemma date_member s x seen ds d :
  dates_ok s -> clean_opt (date_slot_text s d) -> date_upto s x seen ds -> d ∉ ds ->
  exists y seen', stores_all (x, seen) (text_member (date_name d) (date_slot_text s d)) (y, seen') /\
    date_upto s y seen' (d :: ds).
Proof.
  intros Hok Hc [Dk Df Dt Ds Dn] Hd. destruct (date_slot_text s d) as [t|] eqn:Et; cycle 1.
  { exists x, seen. split; [constructor|]. split; try done. intros d'. rewrite Dt.
    destruct (decide (d' = d)) as [->|Hne]; [rewrite decide_False by done; rewrite decide_True by (by left); done|].
    destruct (decide (d' ∈ ds)), (decide (d' ∈ d :: ds)) as [Hin|Hin]; try done.
    - rewrite elem_of_cons in Hin. tauto.
    - apply elem_of_cons in Hin as [?|?]; done. }
  destruct (set_date_text s x d t Hok Et) as (y & Hy & Ky & Fy & Sy & Ty).
  exists y, (slot_of_date d :: seen). split.
  - unfold text_member, optional_member. cbn [fmap option_fmap option_map compose]. rewrite cstr_id by apply Hc.
    apply stores_one, stores_value.
    + by destruct d as [| | | |[]].
    + rewrite Dk. by destruct d as [| | | |[]].
    + rewrite Dk. by destruct d as [| | | |[]].
    + rewrite Ds, Dt. by rewrite decide_False.
    + intros tree p rest t0 Hx. apply (string_value _ x); [|done]. unfold predicate_string.
      rewrite Dk, (no_nul t Hc). rewrite <- Hy. by destruct d as [| | | |[]].
  - split; [by rewrite Ky|by rewrite Fy| | |done].
    + intros d'. rewrite Ty, Dt. destruct (decide (d = d')) as [<-|Hne].
      * rewrite decide_True by (by left). done.
      * destruct (decide (d' ∈ ds)), (decide (d' ∈ d :: ds)) as [Hin|Hin]; try done.
        -- rewrite elem_of_cons in Hin. tauto.
        -- apply elem_of_cons in Hin as [?|?]; done.
    + intros d'. rewrite Ty. destruct (decide (d = d')) as [<-|Hne]; [apply bool_decide_eq_true; by left|].
      rewrite <- Ds. unfold has_seen. apply bool_decide_ext. rewrite elem_of_cons. split; [|by right].
      intros [E|E]; [|done]. destruct Hne. by destruct d as [| | | |[]], d' as [| | | |[]].
Qed.

Definition all_slots : list date_slot :=
  [SlotBound Lt; SlotBound Lte; SlotBound Gt; SlotBound Gte; SlotBefore; SlotAfter; SlotSince; SlotValue].

Lemma all_slots_in d : d ∈ all_slots.
Proof. unfold all_slots. rewrite !elem_of_cons. destruct d as [| | | |[]]; tauto. Qed.

(** Members one after the other. *)
Lemma date_members s ds : dates_ok s -> (forall d, clean_opt (date_slot_text s d)) ->
  forall done x seen, date_upto s x seen done -> NoDup (rev ds ++ done) ->
  exists y seen', stores_all (x, seen) (flat_map (fun d => text_member (date_name d) (date_slot_text s d)) ds) (y, seen') /\
    date_upto s y seen' (rev ds ++ done).
Proof.
  intros Hok Hc. induction ds as [|d ds IH]; intros dn x seen Hx Hn.
  { exists x, seen. split; [constructor|done]. }
  cbn [rev flat_map] in *. rewrite <- app_assoc in *. cbn [app] in *.
  destruct (date_member s x seen dn d Hok (Hc d) Hx) as (y & s1 & M1 & U1).
  { apply list.NoDup_app in Hn as (_ & _ & Hn). by inversion Hn. }
  destruct (IH (d :: dn) y s1 U1 Hn) as (z & s2 & M2 & U2). exists z, s2. split; [|done].
  by eapply stores_all_app.
Qed.

Lemma validate_date s x seen ds :
  date_upto s x seen ds -> (forall d, d ∈ ds) -> is_Some (field s) -> dates_exclusive s -> date_given s ->
  selector_json_validate_predicate x seen = inr (prepare_selector_value_temporal x).
Proof.
  intros [Dk Df Dt Ds Dn] Hall [f Ef] (X1 & X2 & X3) Hg.
  assert (forall d, date_slot_text x d = date_slot_text s d) as T.
  { intros d. rewrite Dt. by rewrite decide_True by apply Hall. }
  assert (forall d, has_seen seen (slot_of_date d) = is_some (date_slot_text s d)) as S by (intros d; by rewrite Ds, T).
  unfold selector_json_validate_predicate. cbv zeta. rewrite Df, Ef, Dk. cbn [is_some negb].
  repeat match goal with |- context [bool_decide (LQL_SELECTOR_KIND_DATE = ?k)] =>
    let b := eval vm_compute in (bool_decide (LQL_SELECTOR_KIND_DATE = k)) in
    change (bool_decide (LQL_SELECTOR_KIND_DATE = k)) with b end.
  cbn [andb orb].
  change SeenSince with (slot_of_date SlotSince). change SeenValue with (slot_of_date SlotValue).
  change SeenAfter with (slot_of_date SlotAfter). change SeenBefore with (slot_of_date SlotBefore).
  change SeenGt with (slot_of_date (SlotBound Gt)). change SeenGte with (slot_of_date (SlotBound Gte)).
  change SeenLt with (slot_of_date (SlotBound Lt)). change SeenLte with (slot_of_date (SlotBound Lte)).
  cbn [existsb]. rewrite !S. cbn [date_slot_text bound].
  assert (date_set x) as Hset.
  { apply Dn. destruct Hg as [?|He]; [exists SlotSince; by rewrite T|].
    unfold other_dates in He. rewrite !Exists_cons, Exists_nil in He.
    destruct He as [?|[?|[?|[?|[?|[?|[?|[]]]]]]]].
    - exists SlotValue; by rewrite T. - exists SlotAfter; by rewrite T. - exists SlotBefore; by rewrite T.
    - exists (SlotBound Gt); by rewrite T. - exists (SlotBound Gte); by rewrite T.
    - exists (SlotBound Lt); by rewrite T. - exists (SlotBound Lte); by rewrite T. }
  match goal with |- context [is_some (date_since_text s) && ?e] =>
    assert (is_some (date_since_text s) && e = false) as -> end.
  { destruct X1 as [-> |HF]; [done|]. unfold other_dates in HF.
    repeat match goal with H : Forall _ (_ :: _) |- _ => apply list.Forall_cons in H as [? H] end.
    by destruct (date_value_text s), (date_after_text s), (date_before_text s), (b_gt (date_text s)),
      (b_gte (date_text s)), (b_lt (date_text s)), (b_lte (date_text s)); destruct (date_since_text s). }
  assert (is_some (date_after_text s) && is_some (b_gt (date_text s)) = false) as E2.
  { destruct X2 as [-> | ->]; [done|]. apply andb_false_r. }
  assert (is_some (date_before_text s) && is_some (b_lt (date_text s)) = false) as E3.
  { destruct X3 as [-> | ->]; [done|]. apply andb_false_r. }
  rewrite E2, E3, <- andb_assoc.
  assert (negb (has_temporal_eq x) && (negb (any_temporal_bound x) && bool_decide (since_macro x = LQL_SINCE_NONE)) = false) as ->.
  { destruct Hset as [-> |[-> |Hne]]; [done|by destruct (has_temporal_eq x)|].
    rewrite (bool_decide_eq_false_2 _ Hne). by rewrite !andb_false_r. }
  done.
Qed.

Lemma builds_date s f :
  dates_ok s -> (forall d, clean_opt (date_slot_text s d)) -> dates_exclusive s -> date_given s ->
  field s = Some f -> clean f -> at_ f 0 = ch_slash -> normalize_field_path f = Some f ->
  exists y, (exists ms, date_predicate s = JObject ms /\ builds [(bs "date", JObject ms)] y) /\
    kind y = LQL_SELECTOR_KIND_DATE /\ date_predicate y = date_predicate s.
Proof.
  intros Hok Hc Hx Hg Ef Hcf Hf Hn.
  set (x0 := with_field (selector_zero LQL_SELECTOR_KIND_DATE) (Some f)).
  assert (date_upto s x0 [SeenField] []) as U0.
  { split; [done|by rewrite Ef| | |].
    - intros d. rewrite decide_False by by intros ?%elem_of_nil. by destruct d as [| | | |[]].
    - by intros [| | | |[]].
    - intros [[| | | |[]] [t Ht]]; done. }
  destruct (date_members s [SlotValue; SlotSince; SlotAfter; SlotBefore; SlotBound Gte; SlotBound Gt;
    SlotBound Lte; SlotBound Lt] Hok Hc [] x0 _ U0) as (x & seen & M & U).
  { refine (bool_decide_unpack (base.NoDup _) _). by vm_compute. }
  change (date_upto s x seen all_slots) in U.
  pose proof (validate_date s x seen all_slots U all_slots_in (ex_intro _ f Ef) Hx Hg) as Hval.
  destruct U as [Dk Df Dt _ _].
  exists (prepare_selector_value_temporal x). rewrite prepare_fields in * by (by rewrite Dk). split_and!.
  - eexists. split; [reflexivity|]. apply (builds_predicate "date" LQL_SELECTOR_KIND_DATE _ x seen); try done.
    + unfold field_member. rewrite Ef. cbn [default]. econstructor; [by apply stores_field|].
      cbn [flat_map] in M. rewrite app_nil_r in M. exact M.
    + cbn [kind with_value_temporal]. by rewrite Dk.
  - done.
  - assert (forall d, date_slot_text x d = date_slot_text s d) as T.
    { intros d. rewrite Dt. by rewrite decide_True by apply all_slots_in. }
    unfold date_predicate, field_member.
    cbn [field date_value_text date_since_text date_after_text date_before_text date_text with_value_temporal bound].
    rewrite Df, (T SlotValue : date_value_text x = date_value_text s),
      (T SlotSince : date_since_text x = date_since_text s), (T SlotAfter : date_after_text x = date_after_text s),
      (T SlotBefore : date_before_text x = date_before_text s),
      (T (SlotBound Gt) : b_gt (date_text x) = b_gt (date_text s)),
      (T (SlotBound Gte) : b_gte (date_text x) = b_gte (date_text s)),
      (T (SlotBound Lt) : b_lt (date_text x) = b_lt (date_text s)),
      (T (SlotBound Lte) : b_lte (date_text x) = b_lte (date_text s)). done.
Qed.

(** ** In and exists *)

Lemma builds_in s f :
  any s <> [] -> Forall any_value_ok (any s) ->
  field s = Some f -> clean f -> at_ f 0 = ch_slash -> normalize_field_path f = Some f ->
  exists y, builds [(bs "in", JObject [field_member s; (bs "any", any_json s)])] y /\
    kind y = LQL_SELECTOR_KIND_IN /\ field_member y = field_member s /\ any_json y = any_json s.
Proof.
  intros Hne Ha Ef Hcf Hf Hn.
  set (x0 := with_field (selector_zero LQL_SELECTOR_KIND_IN) (Some f)).
  set (x := fold_left push_any (any s) x0).
  assert (any x = map (fun v => mk_any (any_text v) (any_kind v) true) (any s)) as Ex by (subst x; by rewrite fold_push_any).
  assert (kind x = LQL_SELECTOR_KIND_IN /\ field x = Some f) as [Ek Exf] by (subst x; by rewrite fold_push_any).
  exists (prepare_selector_value_temporal x). rewrite prepare_fields by (by rewrite Ek). split_and!.
  - apply (builds_predicate "in" LQL_SELECTOR_KIND_IN _ x [SeenAny; SeenField]); try done.
    + unfold field_member. rewrite Ef. cbn [default]. econstructor; [by apply stores_field|].
      apply stores_one, stores_any; try done. eapply Forall_impl; [|exact Ha].
      intros w (_ & _ & Hw). by apply literal_ok_text.
    + unfold selector_json_validate_predicate. cbv zeta. rewrite Exf, Ek, Ex.
      rewrite (bool_decide_eq_false_2 (map _ _ = [])) by (by destruct (any s)).
      rewrite <- prepare_fields by (by rewrite Ek). done.
    + cbn [kind with_value_temporal]. by rewrite Ek.
  - done.
  - unfold field_member. cbn [field with_value_temporal]. by rewrite Exf, Ef.
  - unfold any_json. cbn [any with_value_temporal]. by rewrite Ex, map_map.
Qed.

Lemma builds_exists f : clean f -> at_ f 0 = ch_slash -> normalize_field_path f = Some f ->
  builds [(bs "exists", JString (cstr f))] (with_field (selector_zero LQL_SELECTOR_KIND_EXISTS) (Some f)).
Proof.
  intros Hc Hf Hn. rewrite cstr_id by apply Hc. apply (builds_operator "exists" LQL_SELECTOR_KIND_EXISTS); try done.
  intros tree p rest t Hr. exists f. cbn [run_json]. unfold selector_json_string_end, with_text, deref.
  cbn [frames root frame_selector keyed]. rewrite Hr.
  cbn [mbind R_bind mret R_ret frame_kind pending_key keyed SelectorJsonScan.text kind selector_zero].
  rewrite bool_decide_eq_true_2 by done. rewrite Hf. change (ch_slash =? 0) with false. cbv iota.
  rewrite (no_nul f Hc). unfold selector_json_store_field, set_field. destruct f as [|c f]; [done|].
  cbn in Hf. subst c. change (negb (ch_slash =? ch_slash)) with false. cbv iota. by rewrite Hn.
Qed.

(** ** Trees *)

Definition imports (s s' : lql_selector) : Prop :=
  exists l, selector_json s = JObject l /\ builds l s' /\ selector_json s' = selector_json s.

Lemma ready_path s : node_ready s -> path_field s -> exists f, field s = Some f /\ clean f /\
  at_ f 0 = ch_slash /\ normalize_field_path f = Some f.
Proof. intros (Hf & _) (f & E & Hs). destruct (Hf f E). by exists f. Qed.

(** A leaf whose AST is [operator key] of its members. *)
Lemma import_leaf (members : lql_selector -> json) key k s y ms :
  (forall x, kind x = k -> selector_json x = operator key (members x)) -> kind s = k ->
  members s = JObject ms -> builds [(bs key, JObject ms)] y -> kind y = k -> members y = members s ->
  imports s y.
Proof.
  intros Hj Ks E B Ky Em. exists [(bs key, members s)]. rewrite (Hj s Ks), (Hj y Ky), Em.
  split_and!; [done|by rewrite E|done].
Qed.

Lemma import_string_builds key k s :
  contains_nul (bs key) = false -> kind_from_name (bs key) = k -> string_ok k s ->
  string_predicate_is_match_all_alias k s = false -> node_ready s -> path_field s ->
  exists y ms, string_predicate s = JObject ms /\ builds [(bs key, JObject ms)] y /\ kind y = k /\
    string_predicate y = string_predicate s.
Proof.
  intros Hn Hk Hs Hal Hr Hp. destruct (ready_path s Hr Hp) as (f & Ef & Hc & Hf & Hnf).
  destruct (builds_string key k s f Hn Hk Hs Ef Hc Hf Hnf Hal) as (y & (ms & E & B) & K & P). by exists y, ms.
Qed.

Lemma import_string_leaf key k s :
  contains_nul (bs key) = false -> kind_from_name (bs key) = k -> string_ok k s ->
  string_predicate_is_match_all_alias k s = false -> node_ready s -> path_field s -> kind s = k ->
  (forall x, kind x = k -> selector_json x = operator key (string_predicate x)) -> exists s', imports s s'.
Proof.
  intros Hn Hk Hs Hal Hr Hp Ks Hj. destruct (import_string_builds key k s) as (y & ms & E & B & K & P); [done..|].
  exists y. by eapply (import_leaf string_predicate).
Qed.

Lemma import_not c l s :
  builds l c -> selector_json c = JObject l -> selector_json s = operator "not" (JObject l) -> exists s', imports s s'.
Proof.
  intros B J E. exists (with_children (selector_zero LQL_SELECTOR_KIND_NOT) [c]), [(bs "not", JObject l)].
  split_and!; [done|by apply builds_not|]. rewrite E. rewrite selector_json_unfold.
  cbn [kind children with_children selector_zero]. by rewrite J.
Qed.

Lemma import_compound key k s cs :
  k = LQL_SELECTOR_KIND_AND \/ k = LQL_SELECTOR_KIND_OR -> contains_nul (bs key) = false ->
  kind_from_name (bs key) = k -> kind s = k ->
  (forall x, kind x = k -> selector_json x = operator key (JArray (map selector_json (children x)))) ->
  Forall2 (fun j c => exists l, j = JObject l /\ builds l c) (map selector_json (children s)) cs ->
  map selector_json cs = map selector_json (children s) -> exists s', imports s s'.
Proof.
  intros Hk Hn Kn Ks Hj Hcs Mcs. exists (with_children (selector_zero k) cs). eexists.
  split_and!; [by apply Hj|by apply (builds_children key k)|].
  rewrite (Hj s Ks), (Hj (with_children (selector_zero k) cs) eq_refl). cbn [children with_children]. by rewrite Mcs.
Qed.

Lemma import_children s : Forall (fun c => exists c', imports c c') (children s) ->
  exists cs, Forall2 (fun j c => exists l, j = JObject l /\ builds l c) (map selector_json (children s)) cs /\
    map selector_json cs = map selector_json (children s).
Proof.
  induction 1 as [|c l (c' & lc & E & B & J) _ (cs & F & M)]; [by exists []|].
  exists (c' :: cs). split; [constructor; [by exists lc|done]|]. cbn. by rewrite J, M.
Qed.

Lemma import_tree s : tree_ok s -> ready s -> exists s', imports s s'.
Proof.
  induction s as [s IH] using selector_ind'. intros Hs Hr.
  inversion Hs as [? Hn HC]; subst. inversion Hr as [? Hnr HR]; subst.
  assert (Forall (fun c => exists c', imports c c') (children s)) as Hkids.
  { rewrite List.Forall_forall in *. auto. }
  destruct (import_children s Hkids) as (cs & Hcs & Mcs).
  pose proof selector_json_unfold as U. unfold node_ok in Hn. destruct (kind s) eqn:Ek.
  - exists (selector_zero LQL_SELECTOR_KIND_ALL), []. rewrite U, Ek. split_and!; [done|apply builds_all|done].
  - apply (import_compound "and" LQL_SELECTOR_KIND_AND s cs); try done; [by left|]. intros x Hx. by rewrite U, Hx.
  - apply (import_compound "or" LQL_SELECTOR_KIND_OR s cs); try done; [by right|]. intros x Hx. by rewrite U, Hx.
  - destruct (children s) as [|c l] eqn:Ec.
    + apply (import_not (selector_zero LQL_SELECTOR_KIND_ALL) []); [apply builds_all|done|by rewrite U, Ek, Ec].
    + inversion_clear Hkids as [|? ? (c' & lc & E & B & J) _]. apply (import_not c' lc); [done|congruence|].
      by rewrite U, Ek, Ec, E.
  - destruct Hn as (_ & Hp & Hv & Ha & Hi). eapply (import_string_leaf "eq" LQL_SELECTOR_KIND_EQ); try done.
    + unfold string_ok. rewrite Ha. split_and!; try done; by left.
    + intros x Hx. by rewrite U, Hx.
  - destruct Hn as (_ & Hp & Hv & Ha & Hi).
    destruct (import_string_builds "eq" LQL_SELECTOR_KIND_EQ s) as (y & ms & E & B & K & P); try done.
    { unfold string_ok. rewrite Ha. split_and!; try done; by left. }
    apply (import_not y [(bs "eq", JObject ms)]); [done|by rewrite U, K, P, E|by rewrite U, Ek, E].
  - destruct Hn as (_ & Hp & Hv & Ha & Ho & Hk & Hak & Hal).
    eapply (import_string_leaf "contains" LQL_SELECTOR_KIND_CONTAINS); try done; [|intros x Hx; by rewrite U, Hx].
    unfold string_ok. split_and!; try done; right; by (left || done).
  - destruct Hn as (_ & Hp & Hv & Ha & Ho & Hk & Hak & Hal).
    eapply (import_string_leaf "icontains" LQL_SELECTOR_KIND_ICONTAINS); try done; [|intros x Hx; by rewrite U, Hx].
    unfold string_ok. split_and!; try done; right; by (right || done).
  - destruct Hn as (_ & Hp & Hv & Ha & Hk & Hal).
    eapply (import_string_leaf "prefix" LQL_SELECTOR_KIND_PREFIX); try done; [|intros x Hx; by rewrite U, Hx].
    unfold string_ok. rewrite Ha. split_and!; try done; try (by left); by right.
  - destruct Hn as (_ & Hp & Hv & Ha & Hk & Hal).
    eapply (import_string_leaf "iprefix" LQL_SELECTOR_KIND_IPREFIX); try done; [|intros x Hx; by rewrite U, Hx].
    unfold string_ok. rewrite Ha. split_and!; try done; try (by left); by right.
  - destruct Hn as (_ & Hp & Hrg & Hm). destruct (ready_path s Hnr Hp) as (f & Ef & Hc & Hf & Hnf).
    destruct (builds_range s f Hrg Hm) as (y & (ms & E & B) & K & P); try done; [apply Hnr|].
    exists y. eapply (import_leaf range_predicate); try done. intros x Hx. by rewrite U, Hx.
  - destruct Hn as (_ & Hp & Hd & _ & Hx & Hg). destruct (ready_path s Hnr Hp) as (f & Ef & Hc & Hf & Hnf).
    destruct (builds_date s f Hd) as (y & (ms & E & B) & K & P); try done; [apply Hnr|].
    exists y. eapply (import_leaf date_predicate); try done. intros x Hk. by rewrite U, Hk.
  - destruct Hn as (_ & Hp & Hne & Ha). destruct (ready_path s Hnr Hp) as (f & Ef & Hc & Hf & Hnf).
    destruct (builds_in s f Hne Ha) as (y & B & K & P1 & P2); try done.
    exists y. eapply (import_leaf (fun x => JObject [field_member x; (bs "any", any_json x)])); try done;
      [intros x Hk; by rewrite U, Hk|by rewrite P1, P2].
  - destruct Hn as (_ & Hp). destruct (ready_path s Hnr Hp) as (f & Ef & Hc & Hf & Hnf).
    exists (with_field (selector_zero LQL_SELECTOR_KIND_EXISTS) (Some f)). eexists. rewrite !U, Ek, Ef.
    split_and!; [reflexivity|by apply builds_exists|done].
Qed.

(** ** The text of the AST *)

Lemma cstr_utf8 t : clean t -> utf8 (cstr t).
Proof. intros [Hu Hn]. by rewrite cstr_id. Qed.

Lemma name_utf8 (key : string) : forallb (fun c => (0 <=? c) && (c <? 128)) (bs key) = true -> utf8 (bs key).
Proof.
  intros H. apply utf8_ascii. rewrite forallb_forall in H. apply List.Forall_forall. intros c Hc. apply H in Hc. lia.
Qed.

Lemma literal_printable k t : literal_text k t -> utf8 t -> printable (literal_json k t).
Proof. intros H Hu. destruct k; by constructor. Qed.

Definition member_ok (m : bytes * json) : Prop := utf8 (fst m) /\ printable (snd m).

Lemma optional_printable key v :
  forallb (fun c => (0 <=? c) && (c <? 128)) (bs key) = true -> (forall j, v = Some j -> printable j) ->
  Forall member_ok (optional_member key v).
Proof.
  intros Hk H. destruct v as [j|]; [|apply Forall_nil_2]. apply Forall_cons_2; [|apply Forall_nil_2].
  split; [by apply name_utf8|by apply H].
Qed.

Lemma text_printable key t :
  forallb (fun c => (0 <=? c) && (c <? 128)) (bs key) = true -> clean_opt t -> Forall member_ok (text_member key t).
Proof.
  intros Hk H. apply optional_printable; [done|]. intros j. destruct t as [x|]; intros [= <-].
  constructor. by apply cstr_utf8.
Qed.

Lemma operator_printable key j :
  forallb (fun c => (0 <=? c) && (c <? 128)) (bs key) = true -> printable j -> printable (operator key j).
Proof. intros Hk Hj. constructor. apply Forall_cons_2; [|apply Forall_nil_2]. split; [by apply name_utf8|done]. Qed.

Lemma any_printable s : Forall any_value_ok (any s) -> node_ready s -> printable (any_json s).
Proof.
  intros Ha (_ & _ & Hu & _). constructor. apply Forall_map. rewrite List.Forall_forall in *.
  intros v Hv. apply literal_printable; [by apply literal_ok_text, Ha|by apply Hu].
Qed.

Lemma string_predicate_printable s :
  value_ok s -> Forall any_value_ok (any s) -> node_ready s -> member_ok (field_member s) ->
  printable (string_predicate s).
Proof.
  intros Hv Ha Hr Hf. constructor. apply Forall_cons_2; [done|]. rewrite !list.Forall_app.
  split_and!; apply optional_printable; try done.
  - intros j. unfold value_ok in Hv. destruct (value s) as [v|] eqn:E; intros [= <-].
    apply literal_printable; [by apply literal_ok_text, Hv|by apply Hr].
  - intros j. pose proof (any_printable s Ha Hr). destruct (any s); [done|]. by intros [= <-].
  - intros j. destruct (ignore_case s); intros [= <-]. constructor.
Qed.

Lemma bound_printable s k : ranges_ok s -> clean_opt (bound k (range_text s)) ->
  forall j, bound_json s k = Some j -> printable j.
Proof.
  intros Hr Hc j. specialize (Hr k). unfold bound_json, range_bound_ok in *.
  destruct (bound k (range_text s)) as [t|]; [|done].
  destruct Hr as [_ [(u & _ & -> & _)|(Hj & -> & _)]]; intros [= <-]; constructor; [by apply cstr_utf8|done].
Qed.

Lemma selector_printable s : tree_ok s -> ready s -> printable (selector_json s).
Proof.
  induction s as [s IH] using selector_ind'. intros Hs Hr.
  inversion Hs as [? Hn HC]; subst. inversion Hr as [? Hnr HR]; subst.
  assert (Forall printable (map selector_json (children s))) as Hkids.
  { apply Forall_map. rewrite List.Forall_forall in *. auto. }
  assert (path_field s -> member_ok (field_member s)) as Hf.
  { intros Hp. destruct (ready_path s Hnr Hp) as (f & Ef & Hc & _). unfold field_member. rewrite Ef.
    split; [by apply name_utf8|]. constructor. by apply cstr_utf8. }
  rewrite selector_json_unfold. unfold node_ok in Hn.
  destruct (kind s); try (apply operator_printable; [done|]).
  - constructor. apply Forall_nil_2.
  - by constructor.
  - by constructor.
  - destruct (children s); [constructor; apply Forall_nil_2|]. by inversion Hkids.
  - destruct Hn as (_ & Hp & Hv & Ha & _). apply string_predicate_printable; auto. by rewrite Ha.
  - apply operator_printable; [done|]. destruct Hn as (_ & Hp & Hv & Ha & _).
    apply string_predicate_printable; auto. by rewrite Ha.
  - destruct Hn as (_ & Hp & Hv & Ha & _). apply string_predicate_printable; auto.
  - destruct Hn as (_ & Hp & Hv & Ha & _). apply string_predicate_printable; auto.
  - destruct Hn as (_ & Hp & Hv & Ha & _). apply string_predicate_printable; auto. by rewrite Ha.
  - destruct Hn as (_ & Hp & Hv & Ha & _). apply string_predicate_printable; auto. by rewrite Ha.
  - destruct Hn as (_ & Hp & Hrg & _). constructor. apply Forall_cons_2; [by apply Hf|].
    rewrite !list.Forall_app. split_and!; apply optional_printable; try done;
      (apply bound_printable; [done|apply Hnr]).
  - destruct Hn as (_ & Hp & _). constructor. apply Forall_cons_2; [by apply Hf|].
    destruct Hnr as (_ & _ & _ & _ & Hd). rewrite !list.Forall_app. split_and!; apply text_printable; try done;
      [apply (Hd SlotValue)|apply (Hd SlotSince)|apply (Hd SlotAfter)|apply (Hd SlotBefore)|apply (Hd (SlotBound Gte))|
       apply (Hd (SlotBound Gt))|apply (Hd (SlotBound Lte))|apply (Hd (SlotBound Lt))].
  - destruct Hn as (_ & Hp & Hne & Ha). constructor. apply Forall_cons_2; [by apply Hf|].
    apply Forall_cons_2; [|apply Forall_nil_2]. split; [by apply name_utf8|by apply any_printable].
  - destruct Hn as (_ & Hp). destruct (ready_path s Hnr Hp) as (f & Ef & Hc & _). rewrite Ef.
    constructor. by apply cstr_utf8.
Qed.

(** ** The property *)

(** C22. An exported selector can be imported: on the text that the JSON writer hands
    out for a well-formed selector with UTF-8 texts and normal paths, the JSON parser
    succeeds, and the selector it returns has the same AST, so it is written as the
    same text again. *)
Theorem export_import s n :
  tree_ok s -> ready s ->
  exists s', lql_parse_selector_json_internal true (Some (json_text (selector_json s))) n true = mret s' /\
    selector_json s' = selector_json s.
Proof.
  intros Hs Hr. destruct (import_tree s Hs Hr) as (s' & l & E & B & J). exists s'. split; [|done].
  unfold lql_parse_selector_json_internal. cbn [negb default from_option]. rewrite bool_decide_eq_false_2 by done.
  cbn [andb].
  pose proof (scan_document_runs (selector_json s) (mk_state (selector_zero LQL_SELECTOR_KIND_ALL) [] []) [] []
    (selector_printable s Hs Hr) (initial_ok _) (Forall_nil_2 _) (Forall_nil_2 _)) as K.
  rewrite app_nil_r in K. cbn [app] in K. change id with (fun x : bytes => x) in *. cbv beta. rewrite K, E.
  cbn [run_json]. unfold selector_json_object_begin. cbn [frames mbind R_bind mret R_ret].
  change (selector_json_push_frame (mk_state (selector_zero LQL_SELECTOR_KIND_ALL) [] []) SELECTOR_JSON_FRAME_SELECTOR [])
    with (mk_state (selector_zero LQL_SELECTOR_KIND_ALL) [fresh []] []).
  change (fun m st => st ← selector_json_end_key (with_text st (fst m)); run_json (snd m) st) with run_member.
  destruct (B (selector_zero LQL_SELECTOR_KIND_ALL) [] [] [] eq_refl) as [t' Eb]. rewrite Eb. done.
Qed.

Definition export_example : lql_selector :=
  with_children (selector_zero LQL_SELECTOR_KIND_NOT)
    [with_range (with_field (selector_zero LQL_SELECTOR_KIND_RANGE) (Some (bs "/a"))) Gte (bs "3") None true false].

Lemma export_import_witness :
  exists s', lql_parse_selector_json_internal true (Some (json_text (selector_json export_example))) 0 true = mret s' /\
    selector_json s' = selector_json export_example.
Proof.
  assert (clean (bs "/a") /\ clean (bs "3")) as [C1 C2].
  { split; (split; [by apply name_utf8|]); repeat (apply Forall_cons_2; [by vm_compute|]); apply Forall_nil_2. }
  apply (export_import export_example 0).
  - constructor; [by left|]. apply Forall_cons_2; [|apply Forall_nil_2]. constructor; [|apply Forall_nil_2].
    split_and!; [done|by exists (bs "/a")| |done].
    intros []; cbn; try done. split; [done|by right].
  - constructor; [|apply Forall_cons_2; [|apply Forall_nil_2]].
    + split_and!; try done; try apply Forall_nil_2; [by intros []|by intros [| | | |[]]].
    + constructor; [|apply Forall_nil_2]. split_and!; try done; try apply Forall_nil_2;
        [|by intros []|by intros [| | | |[]]]. intros f [= <-]. split; [done|by vm_compute].
Defined.
