(* ===== verification/ScanTerm.v ===== *)
(** * Terms of the streaming scanner (src/lql_json_scan.h, src/lql_json_scan.c)

    A term is one predicate on one path; the scanner follows up to 64 of them at
    once and keeps sets of terms as the bits of an [unsigned long].  This file has
    the term, those sets, and the functions of lql_json_scan.c that only look at a
    term: its path segments, the JSON Pointer escapes of a segment, wildcards and
    recursive segments. *)

From S2P Require Import Prelude.
From S2P Require Import Temporal.
From Stdlib Require Export Floats.SpecFloat.

(** ** Sets of terms *)

(** [sizeof(unsigned long) * CHAR_BIT] *)
Definition LQL_JSON_FLAT_TERM_CAPACITY : nat := 64.
Definition LQL_JSON_PATH_SEGMENT_CAPACITY : nat := 64.
Definition LQL_JSON_MAX_DEPTH : nat := 128.

Definition SIZE_MAX : Z := 2 ^ 64 - 1.

(** [1ul << i] *)
Definition bit (i : nat) : Z := Z.shiftl 1 (Z.of_nat i).

(** [(mask & (1ul << i)) != 0ul] *)
Definition has (mask : Z) (i : nat) : bool := Z.testbit mask (Z.of_nat i).

Definition is_empty (mask : Z) : bool := mask =? 0.

(** The loop [for (i...) if (p i) matches |= 1ul << i] from index [i] on. *)
Fixpoint mask_from {A} (i : nat) (p : nat -> A -> bool) (l : list A) : Z :=
  match l with
  | [] => 0
  | x :: t => Z.lor (if p i x then bit i else 0) (mask_from (S i) p t)
  end.

Definition mask_of {A} (p : nat -> A -> bool) (l : list A) : Z := mask_from 0 p l.

(** ** The term *)

Inductive lql_json_flat_term_kind :=
  | LQL_JSON_FLAT_TERM_EQ
  | LQL_JSON_FLAT_TERM_EXISTS
  | LQL_JSON_FLAT_TERM_PREFIX
  | LQL_JSON_FLAT_TERM_NUMBER_EQ
  | LQL_JSON_FLAT_TERM_BOOL_EQ
  | LQL_JSON_FLAT_TERM_NULL_EQ
  | LQL_JSON_FLAT_TERM_CONTAINS
  | LQL_JSON_FLAT_TERM_ICONTAINS
  | LQL_JSON_FLAT_TERM_IPREFIX
  | LQL_JSON_FLAT_TERM_NUMBER_RANGE
  | LQL_JSON_FLAT_TERM_TEMPORAL_RANGE
  | LQL_JSON_FLAT_TERM_TEXT_EQ
  | LQL_JSON_FLAT_TERM_VALUELESS_PRESENT.

#[export] Instance flat_term_kind_eq_dec : EqDecision lql_json_flat_term_kind.
Proof. solve_decision. Defined.

(** A numeric bound: the double, the text it was written as, and its value when
    the text is an integer that fits an [unsigned long]. *)
Record term_bound := mk_term_bound {
  bound_double : spec_float;
  bound_text : option bytes;
  bound_unsigned : option Z
}.

(** A pointer with its length is the bytes it denotes; a bound whose [has_] flag
    is not set is [None]. *)
Record lql_json_flat_eq_term := mk_term {
  term_kind : lql_json_flat_term_kind;
  term_field : bytes;
  term_value : bytes;
  term_path : option bytes;
  path_segment_count : nat;
  path_array_segments : Z;
  path_object_wildcards : Z;
  path_array_wildcards : Z;
  path_any_wildcards : Z;
  path_recursive_segments : Z;
  path_recursive_match : option bytes;
  path_recursive_match_segment : nat;
  term_range_gt : option term_bound;
  term_range_gte : option term_bound;
  term_range_lt : option term_bound;
  term_range_lte : option term_bound;
  term_temporal_gt : option lql_temporal;
  term_temporal_gte : option lql_temporal;
  term_temporal_lt : option lql_temporal;
  term_temporal_lte : option lql_temporal;
  term_temporal_eq : option lql_temporal;
  contains_failure : option (list nat);
  path_array_index_cache : Z;
  path_array_index_values : list Z;
  field_plain : bool;
  path_recursive_match_plain : bool
}.

Definition kind_is (term : lql_json_flat_eq_term) (kind : lql_json_flat_term_kind) : bool :=
  bool_decide (term_kind term = kind).

(** ** Path segments *)

(** [n] times [start = strchr(start, '/') + 1]; [None] when there is no slash. *)
Fixpoint skip_segments (n : nat) (start : bytes) : option bytes :=
  match n with
  | O => Some start
  | S n =>
      match snd (Prelude.span (fun c => negb (c =? ch_slash)) start) with
      | [] => None
      | _ :: rest => skip_segments n rest
      end
  end.

(** The segment of a path of more than one, found from its text. *)
Definition path_text_segment (path : bytes) (segment : nat) : option bytes :=
  start ← skip_segments segment (tail path);
  Some (fst (Prelude.span (fun c => negb (c =? ch_slash)) start)).

(** The text of path segment [segment]. *)
Definition lql_json_term_path_segment (term : lql_json_flat_eq_term) (segment : nat)
    : option bytes :=
  match term_path term with
  | Some path =>
      if (path_segment_count term =? 0)%nat then
        if (segment =? 0)%nat then Some (term_field term) else None
      else if bool_decide (is_Some (path_recursive_match term)) &&
              (segment =? path_recursive_match_segment term)%nat then path_recursive_match term
      else if (path_segment_count term <=? segment)%nat || negb (at_ path 0 =? ch_slash) then None
      else if (segment =? 0)%nat then Some (term_field term)
      else path_text_segment path segment
  | None => if (segment =? 0)%nat then Some (term_field term) else None
  end.

(** [*out] and [*advance] at [target[pos]]. *)
Definition lql_json_pointer_target_byte (target : bytes) (pos : nat) : option (Z * nat) :=
  match drop pos target with
  | [] => None
  | c :: d :: _ =>
      if (c =? ch_tilde) && ((d =? ch_0) || (d =? ch_1)) then
        Some (if d =? ch_0 then ch_tilde else ch_slash, 2%nat)
      else Some (c, 1%nat)
  | [c] => Some (c, 1%nat)
  end.

(** The loop of [lql_json_pointer_segment_equal], structural on the key. *)
Fixpoint pointer_segment_loop (target : bytes) (pos : nat) (key : bytes) : bool :=
  match key with
  | [] => (pos =? length target)%nat
  | k :: key =>
      if (pos <? length target)%nat then
        match lql_json_pointer_target_byte target pos with
        | Some (c, advance) =>
            if c =? k then pointer_segment_loop target (pos + advance) key else false
        | None => false
        end
      else false
  end.

Definition lql_json_pointer_segment_equal (target key : bytes) : bool :=
  pointer_segment_loop target 0 key.

Fixpoint lql_json_pointer_segment_has_escape (target : bytes) : bool :=
  match target with
  | c :: (d :: _) as t =>
      (c =? ch_tilde) && ((d =? ch_0) || (d =? ch_1)) || lql_json_pointer_segment_has_escape t
  | _ => false
  end.

Definition lql_json_plain_segment_equal (target : bytes) (target_plain : bool) (key : bytes)
    : bool :=
  if target_plain then bytes_eqb target key else lql_json_pointer_segment_equal target key.

(** The 64 segment numbers of the loops over [path_recursive_segments]. *)
Definition all_segments : list nat := seq 0 LQL_JSON_PATH_SEGMENT_CAPACITY.

Definition lql_json_term_recursive_segment (term : lql_json_flat_eq_term) : option nat :=
  List.find (has (path_recursive_segments term)) all_segments.

(** The recursive segment that ends the path, in the loops of
    [lql_json_term_value_at] and [lql_json_term_terminal_recursive_anchor]. *)
Definition terminal_recursive_segment (term : lql_json_flat_eq_term) (i : nat) : bool :=
  has (path_recursive_segments term) i && (path_segment_count term =? S i)%nat.

Definition lql_json_term_value_at (term : lql_json_flat_eq_term) (path_segment : nat) : bool :=
  match List.find (terminal_recursive_segment term) all_segments with
  | Some i => (i <=? path_segment)%nat || (S path_segment =? i)%nat
  | None =>
      if (path_segment_count term =? 0)%nat then (path_segment =? 0)%nat
      else (path_segment_count term =? S path_segment)%nat
  end.

Definition lql_json_term_terminal_recursive_anchor (term : lql_json_flat_eq_term)
    (path_segment : nat) : bool :=
  existsb (fun i => terminal_recursive_segment term i && (S path_segment =? i)%nat) all_segments.

(** Decimal digits with the overflow test of [size_t]; the loops of
    [lql_json_term_array_index] and [lql_json_capture_array_index]. *)
Fixpoint size_digits (value : Z) (text : bytes) : option Z :=
  match text with
  | [] => Some value
  | c :: text =>
      if is_digit c then
        let digit := c - ch_0 in
        if (SIZE_MAX - digit) / 10 <? value then None else size_digits (value * 10 + digit) text
      else None
  end.

Definition lql_json_term_array_index (term : lql_json_flat_eq_term) (path_segment : nat)
    : option Z :=
  if (path_segment <? LQL_JSON_PATH_SEGMENT_CAPACITY)%nat &&
     has (path_array_index_cache term) path_segment
  then path_array_index_values term !! path_segment
  else
    match lql_json_term_path_segment term path_segment with
    | None | Some [] => None
    | Some text => size_digits 0 text
    end.

(** The loop over repeated recursive segments, at most 64 rounds. *)
Fixpoint skip_recursive (fuel : nat) (term : lql_json_flat_eq_term) (segment : nat) : nat :=
  match fuel with
  | O => segment
  | S fuel =>
      if (segment <? path_segment_count term)%nat &&
         (segment <? LQL_JSON_PATH_SEGMENT_CAPACITY)%nat &&
         has (path_recursive_segments term) segment
      then skip_recursive fuel term (S segment) else segment
  end.

Definition lql_json_next_recursive_path_segment (term : lql_json_flat_eq_term)
    (recursive_segment : nat) : nat :=
  skip_recursive LQL_JSON_PATH_SEGMENT_CAPACITY term (S recursive_segment).

Definition lql_json_path_segments_equal (term : lql_json_flat_eq_term) (left right : nat) : bool :=
  match lql_json_term_path_segment term left, lql_json_term_path_segment term right with
  | Some l, Some r => bytes_eqb l r
  | _, _ => false
  end.

(** The wildcards that stand for an object member, with the recursive segments. *)
Definition object_wildcard_segments (term : lql_json_flat_eq_term) : Z :=
  Z.lor (path_object_wildcards term) (path_any_wildcards term).

Definition lql_json_term_segment_matches_object_key (term : lql_json_flat_eq_term) (segment : nat)
    (key : bytes) : bool :=
  if (LQL_JSON_PATH_SEGMENT_CAPACITY <=? segment)%nat then false
  else if has (Z.lor (object_wildcard_segments term) (path_recursive_segments term)) segment
  then true
  else if has (path_array_wildcards term) segment then false
  else if (segment =? 0)%nat then
    lql_json_plain_segment_equal (term_field term) (field_plain term) key
  else
    match lql_json_term_path_segment term segment with
    | None => false
    | Some target =>
        if bool_decide (is_Some (path_recursive_match term)) &&
           (segment =? path_recursive_match_segment term)%nat && path_recursive_match_plain term
        then bytes_eqb target key
        else lql_json_pointer_segment_equal target key
    end.
