(* ===== verification/ScanNumber.v ===== *)
(** * Number tokens of the streaming scanner (src/lql_json_scan.c)

    The scanner compares a number of the stream with the literals of its terms
    while it reads it.  A token that fits the match buffer is compared exactly; of a
    longer one only a summary is kept (its sign, the prefixes of its digits, how
    many digits, zeros and fraction digits it has) with the first difference
    between its digits and those of each literal. *)

From S2P Require Import Prelude.
From S2P Require Import Number.

Definition LQL_JSON_NUMBER_MATCH_BYTES : Z := 8192.
Definition LQL_JSON_NUMBER_MATCH_HEAP_LIMIT : Z := 128 * 1024.
Definition LQL_JSON_NUMBER_COEFF_PREFIX_BYTES : Z := 1024.
Definition LQL_JSON_NUMBER_EXP_PREFIX_BYTES : Z := 1024.

Definition ULONG_MAX : Z := 2 ^ 64 - 1.

(** ** The summary *)

(** A prefix has its bytes; the counts and the exponent are the C integers. *)
Record lql_json_number_summary := mk_summary {
  coeff_prefix : bytes;
  exponent_prefix : bytes;
  coeff_len_raw : Z;
  exponent_digit_count : Z;
  trailing_zeroes : Z;
  fraction_digits : Z;
  sum_exponent : Z;
  sum_negative : bool;
  sum_zero : bool;
  in_fraction : bool;
  in_exponent : bool;
  exponent_sign_allowed : bool;
  sum_exponent_negative : bool;
  exponent_started : bool;
  exponent_clamped : bool
}.

Definition lql_json_number_summary_start : lql_json_number_summary :=
  mk_summary [] [] 0 0 0 0 0 false false false false false false false false.

Inductive digit_kind := LQL_JSON_NUMBER_EMIT_COEFF | LQL_JSON_NUMBER_EMIT_EXPONENT.

(** What a digit emits: its kind, its index and itself. *)
Definition emission : Type := digit_kind * Z * Z.

Definition prefix_push (limit : Z) (prefix : bytes) (value : Z) : bytes :=
  if Z.of_nat (length prefix) <? limit then prefix ++ [value] else prefix.

(** The exponent of a summary after the digit [value], and whether it is clamped. *)
Definition summary_exponent_digit (s : lql_json_number_summary) (value : Z) : Z * bool :=
  if exponent_clamped s then (sum_exponent s, true)
  else
    let digit := value - ch_0 in
    if (LONG_MAX - digit) / 10 <? sum_exponent s then (LONG_MAX, true)
    else (sum_exponent s * 10 + digit, false).

Definition lql_json_number_summary_digit (s : lql_json_number_summary) (value : Z)
    : lql_json_number_summary * option emission :=
  if in_exponent s then
    if (value =? ch_0) && negb (exponent_started s) then (s, None)
    else
      let '(exponent, clamped) := summary_exponent_digit s value in
      (mk_summary (coeff_prefix s)
         (prefix_push LQL_JSON_NUMBER_EXP_PREFIX_BYTES (exponent_prefix s) value)
         (coeff_len_raw s) (exponent_digit_count s + 1) (trailing_zeroes s) (fraction_digits s)
         exponent (sum_negative s) (sum_zero s) (in_fraction s) (in_exponent s)
         (exponent_sign_allowed s) (sum_exponent_negative s) true clamped,
       Some (LQL_JSON_NUMBER_EMIT_EXPONENT, exponent_digit_count s, value))
  else
    let fraction_digits := fraction_digits s + (if in_fraction s then 1 else 0) in
    if negb (value =? ch_0) || negb (coeff_len_raw s =? 0) then
      (mk_summary (prefix_push LQL_JSON_NUMBER_COEFF_PREFIX_BYTES (coeff_prefix s) value)
         (exponent_prefix s) (coeff_len_raw s + 1) (exponent_digit_count s)
         (if value =? ch_0 then trailing_zeroes s + 1 else 0) fraction_digits
         (sum_exponent s) (sum_negative s) (sum_zero s) (in_fraction s) (in_exponent s)
         (exponent_sign_allowed s) (sum_exponent_negative s) (exponent_started s)
         (exponent_clamped s),
       Some (LQL_JSON_NUMBER_EMIT_COEFF, coeff_len_raw s, value))
    else
      (mk_summary (coeff_prefix s) (exponent_prefix s) (coeff_len_raw s) (exponent_digit_count s)
         (trailing_zeroes s) fraction_digits (sum_exponent s) (sum_negative s) (sum_zero s)
         (in_fraction s) (in_exponent s) (exponent_sign_allowed s) (sum_exponent_negative s)
         (exponent_started s) (exponent_clamped s), None).

(** The flags of a summary replaced. *)
Definition with_flags (s : lql_json_number_summary)
    (negative in_fraction in_exponent sign_allowed exponent_negative : bool)
    : lql_json_number_summary :=
  mk_summary (coeff_prefix s) (exponent_prefix s) (coeff_len_raw s) (exponent_digit_count s)
    (trailing_zeroes s) (fraction_digits s) (sum_exponent s) negative (sum_zero s)
    in_fraction in_exponent sign_allowed exponent_negative (exponent_started s)
    (exponent_clamped s).

Definition lql_json_number_summary_byte (s : lql_json_number_summary) (value : Z)
    : lql_json_number_summary * option emission :=
  if is_digit value then
    let '(s, emitted) := lql_json_number_summary_digit s value in
    (with_flags s (sum_negative s) (in_fraction s) (in_exponent s) false
       (sum_exponent_negative s), emitted)
  else if (value =? ch_minus) && (coeff_len_raw s =? 0) && negb (in_fraction s) &&
          negb (in_exponent s) then
    (with_flags s true (in_fraction s) (in_exponent s) (exponent_sign_allowed s)
       (sum_exponent_negative s), None)
  else if value =? ch_dot then
    (with_flags s (sum_negative s) true (in_exponent s) (exponent_sign_allowed s)
       (sum_exponent_negative s), None)
  else if (value =? ch_e) || (value =? ch_E) then
    (with_flags s (sum_negative s) (in_fraction s) true true (sum_exponent_negative s), None)
  else if in_exponent s && exponent_sign_allowed s && (value =? ch_minus) then
    (with_flags s (sum_negative s) (in_fraction s) (in_exponent s) false true, None)
  else if in_exponent s && exponent_sign_allowed s && (value =? ch_plus) then
    (with_flags s (sum_negative s) (in_fraction s) (in_exponent s) false
       (sum_exponent_negative s), None)
  else (s, None).

Definition with_exponent (s : lql_json_number_summary) (exponent : Z)
    (negative zero exponent_negative : bool) : lql_json_number_summary :=
  mk_summary (coeff_prefix s) (exponent_prefix s) (coeff_len_raw s) (exponent_digit_count s)
    (trailing_zeroes s) (fraction_digits s) exponent negative zero (in_fraction s)
    (in_exponent s) (exponent_sign_allowed s) exponent_negative (exponent_started s)
    (exponent_clamped s).

Definition lql_json_number_summary_finish (s : lql_json_number_summary)
    : lql_json_number_summary :=
  if coeff_len_raw s =? 0 then with_exponent s 0 false true false
  else if sum_exponent_negative s && negb (sum_exponent s =? LONG_MAX) then
    with_exponent s (- sum_exponent s) (sum_negative s) (sum_zero s) true
  else if sum_exponent_negative s then
    with_exponent s LONG_MIN (sum_negative s) (sum_zero s) true
  else s.

(** [lql_json_clamp_add_long] *)
Definition lql_json_clamp_add_long (left right : Z) : Z :=
  if (0 <? right) && (LONG_MAX - right <? left) then LONG_MAX
  else if (right <? 0) && (left <? LONG_MIN - right) then LONG_MIN
  else left + right.

(** [value > (size_t)LONG_MAX ? LONG_MAX : (long)value], and its negation clamped
    to LONG_MIN. *)
Definition size_to_long (value : Z) : Z := if LONG_MAX <? value then LONG_MAX else value.
Definition size_to_minus_long (value : Z) : Z := if LONG_MAX <? value then LONG_MIN else - value.

Definition lql_json_number_summary_adjusted (s : lql_json_number_summary) : Z :=
  if sum_zero s then 0
  else
    let coeff_len := coeff_len_raw s - trailing_zeroes s in
    let adjust := size_to_long coeff_len in
    let adjust := lql_json_clamp_add_long adjust (size_to_minus_long (fraction_digits s)) in
    let adjust := lql_json_clamp_add_long adjust (size_to_long (trailing_zeroes s)) in
    lql_json_clamp_add_long adjust (sum_exponent s).

Definition lql_json_number_summary_delta (s : lql_json_number_summary) : Z :=
  lql_json_clamp_add_long (size_to_long (coeff_len_raw s))
    (size_to_minus_long (fraction_digits s)).

(** ** Decimal strings *)

(** [while (len > 1u && text[0] == '0')] *)
Definition lql_json_decimal_strip : bytes -> bytes := strip_zeros.

Definition lql_json_decimal_cmp (left right : bytes) : Z :=
  let left := lql_json_decimal_strip left in
  let right := lql_json_decimal_strip right in
  if negb (length left =? length right)%nat then
    if (length left <? length right)%nat then -1 else 1
  else memcmp left right.

(** The do-while loop, [tmp] read backwards; the fuel is [tmp]'s size. *)
Fixpoint ulong_to_decimal_loop (fuel : nat) (value : Z) (out : bytes) : bytes :=
  match fuel with
  | O => out
  | S fuel =>
      let out := (ch_0 + value mod 10) :: out in
      let value := value / 10 in
      if value =? 0 then out else ulong_to_decimal_loop fuel value out
  end.

Definition lql_json_ulong_to_decimal (value : Z) : bytes := ulong_to_decimal_loop 32 value [].

Definition lql_json_number_summary_exponent_magnitude (s : lql_json_number_summary) : Z :=
  if negb (sum_exponent_negative s) then sum_exponent s mod 2 ^ 64
  else if sum_exponent s =? LONG_MIN then LONG_MAX + 1
  else (- sum_exponent s) mod 2 ^ 64.

(** The addition loop; [digits] and [addend] have the digits left, last first.  The
    digits are written last first and reversed at the end, so [out] is the number
    read so far.  [fuel] bounds the digits left and the carry. *)
Fixpoint decimal_add_loop (fuel : nat) (digits addend : bytes) (carry : Z) (out : bytes) : bytes :=
  match fuel with
  | O => out
  | S fuel =>
      if (length digits =? 0)%nat && (length addend =? 0)%nat && (carry =? 0) then out
      else
        let sum := carry in
        let sum := match digits with d :: _ => sum + (d - ch_0) | [] => sum end in
        let sum := match addend with d :: _ => sum + (d - ch_0) | [] => sum end in
        decimal_add_loop fuel (tail digits) (tail addend) (sum / 10) ((ch_0 + sum mod 10) :: out)
  end.

Definition lql_json_decimal_add_ulong (digits : bytes) (value : Z) : bytes :=
  let addend := lql_json_ulong_to_decimal value in
  decimal_add_loop (S (Nat.max (length digits) (length addend))) (rev digits) (rev addend) 0 [].

(** The subtraction loop, one round per digit of [digits]. *)
Fixpoint decimal_sub_loop (digits subtrahend : bytes) (borrow : Z) (out : bytes) : bytes :=
  match digits with
  | [] => out
  | d :: digits =>
      let digit := d - ch_0 - borrow in
      let digit := digit - (match subtrahend with s :: _ => s - ch_0 | [] => 0 end) in
      let '(digit, borrow) := if digit <? 0 then (digit + 10, 1) else (digit, 0) in
      decimal_sub_loop digits (tail subtrahend) borrow ((ch_0 + digit) :: out)
  end.

Definition lql_json_decimal_sub_ulong (digits : bytes) (value : Z) : bytes :=
  lql_json_decimal_strip
    (decimal_sub_loop (rev digits) (rev (lql_json_ulong_to_decimal value)) 0 []).

(** The sign and the digits of exponent plus [delta]; [None] for the C result 0. *)
Definition lql_json_number_summary_adjusted_decimal (s : lql_json_number_summary)
    : option (bool * bytes) :=
  if LQL_JSON_NUMBER_EXP_PREFIX_BYTES <? exponent_digit_count s then None
  else
    let delta := lql_json_number_summary_delta s in
    if delta =? LONG_MIN then None
    else
      let delta_negative := delta <? 0 in
      let delta_mag := if delta_negative then - delta else delta in
      if exponent_digit_count s =? 0 then
        Some (delta_negative && negb (delta_mag =? 0), lql_json_ulong_to_decimal delta_mag)
      else if negb (sum_exponent_negative s) && negb delta_negative then
        Some (false, lql_json_decimal_add_ulong (exponent_prefix s) delta_mag)
      else if sum_exponent_negative s && delta_negative then
        Some (true, lql_json_decimal_add_ulong (exponent_prefix s) delta_mag)
      else
        let delta_digits := lql_json_ulong_to_decimal delta_mag in
        let cmp := lql_json_decimal_cmp (exponent_prefix s) delta_digits in
        if cmp =? 0 then Some (false, [ch_0])
        else if negb (sum_exponent_negative s) then
          if 0 <? cmp then Some (false, lql_json_decimal_sub_ulong (exponent_prefix s) delta_mag)
          else Some (true, lql_json_decimal_sub_ulong delta_digits (sum_exponent s mod 2 ^ 64))
        else if 0 <? cmp then
          Some (true, lql_json_decimal_sub_ulong (exponent_prefix s) delta_mag)
        else
          Some (false, lql_json_decimal_sub_ulong delta_digits
                         (lql_json_number_summary_exponent_magnitude s)).

Definition lql_json_number_summary_compare_adjusted_decimal (left right : lql_json_number_summary)
    : option Z :=
  '(left_negative, left_digits) ← lql_json_number_summary_adjusted_decimal left;
  '(right_negative, right_digits) ← lql_json_number_summary_adjusted_decimal right;
  if negb (Bool.eqb left_negative right_negative) then Some (if left_negative then -1 else 1)
  else
    let cmp := lql_json_decimal_cmp left_digits right_digits in
    Some (if left_negative then - cmp else cmp).

(** [left < right ? -1 : (left > right ? 1 : 0)] *)
Definition three_way (left right : Z) : Z :=
  if left <? right then -1 else if right <? left then 1 else 0.

Definition lql_json_number_summary_compare_clamped_adjusted (left right : lql_json_number_summary)
    (exp_cmp : Z) : option Z :=
  if negb (exponent_clamped left) && negb (exponent_clamped right) then None
  else
    match lql_json_number_summary_compare_adjusted_decimal left right with
    | Some out => Some out
    | None =>
        if negb (Bool.eqb (sum_exponent_negative left) (sum_exponent_negative right)) then
          Some (if sum_exponent_negative left then -1 else 1)
        else if sum_exponent_negative left &&
                (exponent_digit_count left + 1 <? exponent_digit_count right) then Some 1
        else if sum_exponent_negative left &&
                (exponent_digit_count right + 1 <? exponent_digit_count left) then Some (-1)
        else
          let cmp :=
            if negb (exponent_digit_count left =? exponent_digit_count right) then
              if exponent_digit_count left <? exponent_digit_count right then -1 else 1
            else if negb (exp_cmp =? 0) then exp_cmp
            else three_way (lql_json_number_summary_delta left)
                   (lql_json_number_summary_delta right) in
          Some (if sum_exponent_negative left then - cmp else cmp)
    end.

(** The bytes of a token, one by one. *)
Fixpoint summary_bytes (s : lql_json_number_summary) (text : bytes) : lql_json_number_summary :=
  match text with
  | [] => s
  | c :: text => summary_bytes (fst (lql_json_number_summary_byte s c)) text
  end.

Definition lql_json_number_summary_parse (text : bytes) : option lql_json_number_summary :=
  if lql_number_is_json text then
    Some (lql_json_number_summary_finish (summary_bytes lql_json_number_summary_start text))
  else None.

Definition lql_json_number_summary_compare_with_coeff_cmp (left right : lql_json_number_summary)
    (coeff_cmp exp_cmp : Z) : Z :=
  if sum_zero left && sum_zero right then 0
  else if negb (Bool.eqb (sum_zero left) (sum_zero right)) then
    if sum_zero left then (if sum_negative right then 1 else -1)
    else (if sum_negative left then -1 else 1)
  else if negb (Bool.eqb (sum_negative left) (sum_negative right)) then
    if sum_negative left then -1 else 1
  else
    match lql_json_number_summary_compare_clamped_adjusted left right exp_cmp with
    | Some out => if sum_negative left then - out else out
    | None =>
        let left_adjusted := lql_json_number_summary_adjusted left in
        let right_adjusted := lql_json_number_summary_adjusted right in
        if negb (left_adjusted =? right_adjusted) then
          let out := if left_adjusted <? right_adjusted then -1 else 1 in
          if sum_negative left then - out else out
        else if negb (coeff_cmp =? 0) then
          if sum_negative left then - coeff_cmp else coeff_cmp
        else if (coeff_len_raw left <? coeff_len_raw right) &&
                (coeff_len_raw left <? coeff_len_raw right - trailing_zeroes right) then
          if sum_negative left then 1 else -1
        else 0
    end.

(** ** Cursors over the digits of a literal *)

Record lql_json_number_digit_cursor := mk_cursor {
  cursor_pos : nat;
  cursor_index : Z;
  cursor_started : bool;
  cursor_done : bool;
  cursor_in_exponent : bool;
  cursor_sign_allowed : bool
}.

Definition lql_json_number_digit_cursor_start : lql_json_number_digit_cursor :=
  mk_cursor 0 0 false false false false.

(** The end of the text: the digits after the last are zeros. *)
Definition cursor_end (c : lql_json_number_digit_cursor) (index : Z)
    : lql_json_number_digit_cursor * option Z :=
  if cursor_index c <=? index then
    (mk_cursor (cursor_pos c) (index + 1) (cursor_started c) true (cursor_in_exponent c)
       (cursor_sign_allowed c), Some ch_0)
  else
    (mk_cursor (cursor_pos c) (cursor_index c) (cursor_started c) true (cursor_in_exponent c)
       (cursor_sign_allowed c), None).

(** The loop of [lql_json_number_coeff_digit_next] on the text from [pos] on. *)
Fixpoint coeff_digit_loop (text : bytes) (c : lql_json_number_digit_cursor) (index : Z)
    : lql_json_number_digit_cursor * option Z :=
  let at_pos pos i started :=
    mk_cursor pos i started (cursor_done c) (cursor_in_exponent c) (cursor_sign_allowed c) in
  match text with
  | [] => cursor_end c index
  | ch :: text =>
      let pos := S (cursor_pos c) in
      if (ch =? ch_e) || (ch =? ch_E) then
        cursor_end (at_pos pos (cursor_index c) (cursor_started c)) index
      else if negb (is_digit ch) then
        coeff_digit_loop text (at_pos pos (cursor_index c) (cursor_started c)) index
      else if negb (cursor_started c) && (ch =? ch_0) then
        coeff_digit_loop text (at_pos pos (cursor_index c) (cursor_started c)) index
      else if cursor_index c =? index then (at_pos pos (cursor_index c + 1) true, Some ch)
      else coeff_digit_loop text (at_pos pos (cursor_index c + 1) true) index
  end.

Definition cursor_skip (c : lql_json_number_digit_cursor) (index : Z)
    : lql_json_number_digit_cursor :=
  mk_cursor (cursor_pos c) (index + 1) (cursor_started c) (cursor_done c) (cursor_in_exponent c)
    (cursor_sign_allowed c).

Definition lql_json_number_coeff_digit_next (text : bytes) (c : lql_json_number_digit_cursor)
    (index : Z) : lql_json_number_digit_cursor * option Z :=
  if cursor_done c then (cursor_skip c index, Some ch_0)
  else
    let rest := drop (cursor_pos c) text in
    if (cursor_pos c =? 0)%nat && (at_ text 0 =? ch_minus) then
      coeff_digit_loop (tail rest)
        (mk_cursor 1 (cursor_index c) (cursor_started c) (cursor_done c) (cursor_in_exponent c)
           (cursor_sign_allowed c)) index
    else coeff_digit_loop rest c index.

(** The loop of [lql_json_number_exponent_digit_next] on the text from [pos] on. *)
Fixpoint exponent_digit_loop (text : bytes) (c : lql_json_number_digit_cursor) (index : Z)
    : lql_json_number_digit_cursor * option Z :=
  match text with
  | [] => cursor_end c index
  | ch :: text =>
      let pos := S (cursor_pos c) in
      let i := cursor_index c in
      if negb (cursor_in_exponent c) then
        if (ch =? ch_e) || (ch =? ch_E) then
          exponent_digit_loop text (mk_cursor pos i (cursor_started c) (cursor_done c) true true) index
        else
          exponent_digit_loop text
            (mk_cursor pos i (cursor_started c) (cursor_done c) false (cursor_sign_allowed c)) index
      else if cursor_sign_allowed c && ((ch =? ch_plus) || (ch =? ch_minus)) then
        exponent_digit_loop text (mk_cursor pos i (cursor_started c) (cursor_done c) true false) index
      else if negb (is_digit ch) then
        cursor_end (mk_cursor pos i (cursor_started c) (cursor_done c) true false) index
      else if negb (cursor_started c) && (ch =? ch_0) then
        exponent_digit_loop text (mk_cursor pos i false (cursor_done c) true false) index
      else if i =? index then (mk_cursor pos (i + 1) true (cursor_done c) true false, Some ch)
      else exponent_digit_loop text (mk_cursor pos (i + 1) true (cursor_done c) true false) index
  end.

Definition lql_json_number_exponent_digit_next (text : bytes) (c : lql_json_number_digit_cursor)
    (index : Z) : lql_json_number_digit_cursor * option Z :=
  if cursor_done c then (cursor_skip c index, Some ch_0)
  else exponent_digit_loop (drop (cursor_pos c) text) c index.

(** The comparison of a literal with the digits read so far: the first difference
    of the coefficients and of the exponents, with a cursor for each. *)
Record track := mk_track {
  coeff_cmp : Z;
  coeff_cursor : lql_json_number_digit_cursor;
  exp_cmp : Z;
  exp_cursor : lql_json_number_digit_cursor
}.

Definition track_start : track :=
  mk_track 0 lql_json_number_digit_cursor_start 0 lql_json_number_digit_cursor_start.

Definition digit_order (digit other : Z) : Z :=
  if digit =? other then 0 else if digit <? other then -1 else 1.

(** [lql_json_number_track_one_cmp]; [right] is [None] for NULL. *)
Definition lql_json_number_track_one_cmp (right : option bytes) (index digit : Z) (t : track)
    : track :=
  match right with
  | Some text =>
      if negb (coeff_cmp t =? 0) then t
      else
        match lql_json_number_coeff_digit_next text (coeff_cursor t) index with
        | (c, Some other) => mk_track (digit_order digit other) c (exp_cmp t) (exp_cursor t)
        | (c, None) => mk_track (coeff_cmp t) c (exp_cmp t) (exp_cursor t)
        end
  | None => t
  end.

Definition lql_json_number_track_one_exp_cmp (right : option bytes) (index digit : Z) (t : track)
    : track :=
  match right with
  | Some text =>
      if negb (exp_cmp t =? 0) then t
      else
        match lql_json_number_exponent_digit_next text (exp_cursor t) index with
        | (c, Some other) => mk_track (coeff_cmp t) (coeff_cursor t) (digit_order digit other) c
        | (c, None) => mk_track (coeff_cmp t) (coeff_cursor t) (exp_cmp t) c
        end
  | None => t
  end.

(** A digit that the summary emitted. *)
Definition track_digit (right : option bytes) (e : emission) (t : track) : track :=
  match e with
  | (LQL_JSON_NUMBER_EMIT_COEFF, index, digit) => lql_json_number_track_one_cmp right index digit t
  | (LQL_JSON_NUMBER_EMIT_EXPONENT, index, digit) =>
      lql_json_number_track_one_exp_cmp right index digit t
  end.

(** ** Exact comparison of short tokens *)

Definition lql_json_number_overflow_integer_cmp (summary : lql_json_number_summary)
    (coeff_cmp exp_cmp : Z) (right : bytes) : option Z :=
  parsed ← lql_json_number_summary_parse right;
  Some (lql_json_number_summary_compare_with_coeff_cmp (lql_json_number_summary_finish summary)
          parsed coeff_cmp exp_cmp).

(** The accumulation of an [unsigned long], [None] for the C result 0. *)
Fixpoint ulong_digits (value : Z) (text : bytes) : option Z :=
  match text with
  | [] => Some value
  | c :: text =>
      if is_digit c then
        let digit := c - ch_0 in
        if (ULONG_MAX - digit) / 10 <? value then None else ulong_digits (value * 10 + digit) text
      else None
  end.

Definition lql_json_parse_unsigned_integer_token (text : bytes) : option Z :=
  match text with
  | [] => None
  | c :: rest =>
      if c =? ch_0 then match rest with [] => Some 0 | _ => None end
      else if (c <? ch_1) || (ch_9 <? c) then None
      else ulong_digits 0 text
  end.

(** The digits, the sign and whether it is zero. *)
Definition lql_json_plain_integer_span (text : bytes) : option (bytes * bool * bool) :=
  match text with
  | [] => None
  | c :: t =>
      let '(negative, digits) := if c =? ch_minus then (true, t) else (false, text) in
      match digits with
      | [] => None
      | d :: rest =>
          if d =? ch_0 then match rest with [] => Some (digits, false, true) | _ => None end
          else if (d <? ch_1) || (ch_9 <? d) then None
          else if forallb is_digit rest then Some (digits, negative, false) else None
      end
  end.

(** A plain unsigned integer token: [0], or digits that start with another. *)
Definition unsigned_integer_token (text : bytes) : bool :=
  match text with
  | [] => false
  | c :: rest =>
      (if c =? ch_0 then (length rest =? 0)%nat else (ch_1 <=? c) && (c <=? ch_9)) &&
      forallb is_digit rest
  end.

Definition lql_json_compare_unsigned_integer_tokens (left right : bytes) : option Z :=
  if unsigned_integer_token left && unsigned_integer_token right then
    if (length left <? length right)%nat then Some (-1)
    else if (length right <? length left)%nat then Some 1
    else Some (memcmp left right)
  else None.

Definition lql_json_compare_plain_integers (left right : bytes) : option Z :=
  match lql_json_plain_integer_span left, lql_json_plain_integer_span right with
  | Some (left_digits, left_negative, left_zero),
    Some (right_digits, right_negative, right_zero) =>
      if left_zero && right_zero then Some 0
      else if negb (Bool.eqb left_zero right_zero) then
        Some (if left_zero then (if right_negative then 1 else -1)
              else (if left_negative then -1 else 1))
      else if negb (Bool.eqb left_negative right_negative) then
        Some (if left_negative then -1 else 1)
      else
        let cmp :=
          if (length left_digits <? length right_digits)%nat then -1
          else if (length right_digits <? length left_digits)%nat then 1
          else memcmp left_digits right_digits in
        Some (if left_negative then - cmp else cmp)
  | _, _ => None
  end.
