(* ===== verification/JsonSpool.v ===== *)
(** * The JSON spool (src/lql_json_spool.c)

    Temporary storage for the compacted text of a record: a 64 KiB memory buffer
    that spills into a temporary file.  The C library answers through a list of
    outcomes, one per call that can fall short: how many bytes a write or a read
    moved when it did not move them all, and whether [tmpfile] and [fseeko]
    worked.  A writer callback answers statuses and what it is given is recorded. *)

From S2P Require Import Prelude.
From S2P Require Import Errors.

Definition LQL_JSON_SPOOL_MEMORY_BYTES : Z := 64 * 1024.
Definition LQL_JSON_SPOOL_IO_BUFFER_BYTES : Z := 4096.
Definition SIZE_LIMIT : Z := 2 ^ 64 - 1.

Definition len (data : bytes) : Z := Z.of_nat (length data).

(** An open temporary file: its bytes and its position. *)
Record spool_file := mk_file { file_bytes : bytes; file_pos : nat }.

(** [spool_memory] has the first [memory_len] bytes of the buffer; it is [None] when
    the buffer is NULL.  [read_cache] has the first [read_cache_len] bytes. *)
Record lql_json_spool := mk_spool {
  spool_memory : option bytes;
  spool_size : Z;
  spool_file_ : option spool_file;
  read_cache : option bytes;
  read_cache_offset : nat
}.

(** ** The environment of a call *)

(** How a call of the C library went: all right, or short after some bytes. *)
Definition io_outcome : Type := option nat.

Record spool_env := mk_env {
  io_outcomes : list io_outcome;
  alloc_outcomes : list bool;
  writer_outcomes : list lql_status;
  delivered : bytes
}.

Definition W (A : Type) : Type :=
  lql_json_spool -> spool_env -> (failure + A) * lql_json_spool * spool_env.

#[export] Instance W_ret : MRet W := fun A a s e => (inr a, s, e).
#[export] Instance W_bind : MBind W := fun A B f m s e =>
  match m s e with
  | (inr a, s, e) => f a s e
  | (inl x, s, e) => (inl x, s, e)
  end.

Definition lql_json_spool_error {A} (status : lql_status) (message : string) : W A :=
  fun s e => (inl (status, message), s, e).
Definition spool_get : W lql_json_spool := fun s e => (inr s, s, e).
Definition spool_put (s' : lql_json_spool) : W unit := fun _ e => (inr tt, s', e).

(** The next outcome of the C library, of an allocation, of the writer. *)
Definition next_io : W io_outcome := fun s e =>
  (inr (default None (head (io_outcomes e))), s,
   mk_env (tail (io_outcomes e)) (alloc_outcomes e) (writer_outcomes e) (delivered e)).
Definition next_alloc : W bool := fun s e =>
  (inr (default true (head (alloc_outcomes e))), s,
   mk_env (io_outcomes e) (tail (alloc_outcomes e)) (writer_outcomes e) (delivered e)).

(** [writer(writer_user, data, len, error)]: its status ends the call when it is
    not OK. *)
Definition call_writer (data : bytes) : W unit := fun s e =>
  let e' := mk_env (io_outcomes e) (alloc_outcomes e) (tail (writer_outcomes e))
              (delivered e ++ data) in
  match default LQL_STATUS_OK (head (writer_outcomes e)) with
  | LQL_STATUS_OK => (inr tt, s, e')
  | status => (inl (status, "writer callback"%string), s, e')
  end.

(** ** Files *)

(** [data] written at the position of a file. *)
Definition file_write (f : spool_file) (data : bytes) : spool_file :=
  mk_file (take (file_pos f) (file_bytes f) ++ data ++
           drop (file_pos f + length data) (file_bytes f))
    (file_pos f + length data).

Definition with_file (s : lql_json_spool) (f : option spool_file) : lql_json_spool :=
  mk_spool (spool_memory s) (spool_size s) f (read_cache s) (read_cache_offset s).
Definition with_size (s : lql_json_spool) (n : Z) : lql_json_spool :=
  mk_spool (spool_memory s) n (spool_file_ s) (read_cache s) (read_cache_offset s).
Definition with_memory (s : lql_json_spool) (m : option bytes) : lql_json_spool :=
  mk_spool m (spool_size s) (spool_file_ s) (read_cache s) (read_cache_offset s).
Definition with_cache (s : lql_json_spool) (c : option bytes) (offset : nat) : lql_json_spool :=
  mk_spool (spool_memory s) (spool_size s) (spool_file_ s) c offset.

(** [read_cache_len = 0] *)
Definition cache_clear (s : lql_json_spool) : lql_json_spool :=
  with_cache s ((fun _ => []) <$> read_cache s) (read_cache_offset s).

(** [fwrite(data, 1, len, file) == len] on the spool's file. *)
Definition spool_fwrite (data : bytes) : W bool :=
  o ← next_io;
  s ← spool_get;
  match spool_file_ s with
  | None => mret false
  | Some f =>
      match o with
      | None => spool_put (with_file s (Some (file_write f data))) ≫= fun _ => mret true
      | Some k =>
          if (k <? length data)%nat
          then spool_put (with_file s (Some (file_write f (take k data)))) ≫= fun _ => mret false
          else spool_put (with_file s (Some (file_write f data))) ≫= fun _ => mret true
      end
  end.

(** [fflush] and [lql_json_spool_seek], as one outcome. *)
Definition lql_json_spool_seek (offset : nat) : W bool :=
  o ← next_io;
  s ← spool_get;
  match o, spool_file_ s with
  | None, Some f => spool_put (with_file s (Some (mk_file (file_bytes f) offset))) ≫= fun _ => mret true
  | _, _ => mret false
  end.

(** [fread(buffer, 1, amount, file)]: the bytes read. *)
Definition spool_fread (amount : nat) : W bytes :=
  o ← next_io;
  s ← spool_get;
  match spool_file_ s with
  | None => mret []
  | Some f =>
      let amount := match o with None => amount | Some k => Nat.min k amount end in
      let data := take amount (drop (file_pos f) (file_bytes f)) in
      spool_put (with_file s (Some (mk_file (file_bytes f) (file_pos f + length data)))) ≫= fun _ =>
      mret data
  end.

(** ** Operations *)

Definition lql_json_spool_init_with_allocator : W unit :=
  ok ← next_alloc;
  spool_put (mk_spool (if (ok : bool) then Some [] else None) 0 None None 0) ≫= fun _ =>
  if (ok : bool) then mret tt else lql_json_spool_error LQL_STATUS_NO_MEMORY "out of memory".

Definition lql_json_spool_reset (s : lql_json_spool) : lql_json_spool :=
  mk_spool ((fun _ => []) <$> spool_memory s) 0 None ((fun _ => []) <$> read_cache s) 0.

Definition lql_json_spool_cleanup (s : lql_json_spool) : lql_json_spool :=
  let s := lql_json_spool_reset s in
  mk_spool None (spool_size s) (spool_file_ s) None (read_cache_offset s).

(** The memory moved to a new temporary file. *)
Definition lql_json_spool_spill (memory : bytes) : W unit :=
  o ← next_io;
  s ← spool_get;
  match o with
  | Some _ => lql_json_spool_error LQL_STATUS_IO_ERROR "unable to create JSON spool file"
  | None =>
      if (length memory =? 0)%nat then spool_put (with_file s (Some (mk_file [] 0)))
      else
        spool_put (with_file s (Some (mk_file [] 0))) ≫= fun _ =>
        ok ← spool_fwrite memory;
        if (ok : bool) then mret tt
        else
          (* fclose(file): the spool never had it *)
          spool_put s ≫= fun _ =>
          lql_json_spool_error LQL_STATUS_IO_ERROR "unable to write JSON spool file"
  end.

(** The bytes go to the file, which is made when there is none. *)
Definition append_to_file (memory data : bytes) : W unit :=
  s ← spool_get;
  (match spool_file_ s with None => lql_json_spool_spill memory | Some _ => mret tt end) ≫= fun _ =>
  s ← spool_get;
  spool_put (cache_clear s) ≫= fun _ =>
  if (length data =? 0)%nat then mret tt
  else
    ok ← spool_fwrite data;
    if (ok : bool) then mret tt
    else lql_json_spool_error LQL_STATUS_IO_ERROR "unable to write JSON spool file".

Definition lql_json_spool_append (data : bytes) : W unit :=
  s ← spool_get;
  match spool_memory s with
  | None => lql_json_spool_error LQL_STATUS_INVALID_ARGUMENT "JSON spool and data are required"
  | Some memory =>
      if SIZE_LIMIT - spool_size s <? len data then
        lql_json_spool_error LQL_STATUS_NO_MEMORY "JSON spool is too large"
      else
        (if bool_decide (spool_file_ s = None) &&
            (len data <=? LQL_JSON_SPOOL_MEMORY_BYTES - len memory)
         then spool_put (with_memory s (Some (memory ++ data)))
         else append_to_file memory data) ≫= fun _ =>
        s ← spool_get;
        spool_put (with_size s (spool_size s + len data))
  end.

Definition lql_json_spool_size (s : option lql_json_spool) : Z :=
  match s with None => 0 | Some s => spool_size s end.

(** ** Output

    What writes a record reads it from a spool, its source, and hands bytes to the
    writer it was given, here the one of the environment. *)
Class Output (F : Type -> Type) := {
  output_ret :: MRet F;
  output_bind :: MBind F;
  on_source : forall {A}, W A -> F A;
  write_bytes : bytes -> F unit
}.

Section output.
Context {F : Type -> Type} `{Output F}.

(** The copy loop of [lql_json_spool_write_slice]; each round moves at least a
    byte, so [n] is enough fuel. *)
Fixpoint write_slice_loop (fuel : nat) (capacity offset n : nat) : F unit :=
  match fuel, n with
  | O, _ | _, O => mret tt
  | S fuel, _ =>
      let amount := Nat.min n capacity in
      ok ← on_source (lql_json_spool_seek offset);
      if negb ok then
        on_source (lql_json_spool_error LQL_STATUS_IO_ERROR "unable to read JSON spool slice")
      else
        data ← on_source (spool_fread amount);
        if negb (length data =? amount)%nat then
          on_source (lql_json_spool_error LQL_STATUS_IO_ERROR "unable to read JSON spool slice")
        else
          write_bytes data ≫= fun _ =>
          write_slice_loop fuel capacity (offset + amount) (n - amount)
  end.

Definition lql_json_spool_write_slice (offset n : nat) : F unit :=
  s ← on_source spool_get;
  match spool_memory s with
  | None =>
      on_source (lql_json_spool_error LQL_STATUS_INVALID_ARGUMENT "JSON spool slice arguments are invalid")
  | Some memory =>
      if (spool_size s <? Z.of_nat offset) || (spool_size s - Z.of_nat offset <? Z.of_nat n) then
        on_source (lql_json_spool_error LQL_STATUS_INVALID_ARGUMENT "JSON spool slice arguments are invalid")
      else
        match spool_file_ s with
        | None => write_bytes (take n (drop offset memory))
        | Some _ =>
            if (n =? 0)%nat then mret tt
            else
              ok ← on_source next_alloc;
              if negb ok then
                on_source (lql_json_spool_error LQL_STATUS_NO_MEMORY "out of memory reading JSON spool")
              else
                write_slice_loop n (Nat.min n (Z.to_nat LQL_JSON_SPOOL_IO_BUFFER_BYTES)) offset n
        end
  end.

Definition lql_json_spool_write_to : F unit :=
  s ← on_source spool_get;
  lql_json_spool_write_slice 0 (Z.to_nat (spool_size s)).
End output.

#[global] Arguments lql_json_spool_write_slice : simpl never.
#[global] Arguments lql_json_spool_write_to : simpl never.

(** The writer is the one of the environment. *)
#[export] Instance W_output : Output W := {|
  on_source := fun A m => m;
  write_bytes := call_writer
|}.

(** The cache filled from [offset] with [amount] bytes. *)
Definition fill_cache (message : string) (offset amount : nat) : W bytes :=
  data ← spool_fread amount;
  s ← spool_get;
  if negb (length data =? amount)%nat then
    spool_put (cache_clear s) ≫= fun _ => lql_json_spool_error LQL_STATUS_IO_ERROR message
  else spool_put (with_cache s (Some data) offset) ≫= fun _ => mret data.

Definition cache_seek (message : string) (offset : nat) : W unit :=
  ok ← lql_json_spool_seek offset;
  if (ok : bool) then mret tt
  else
    s ← spool_get;
    spool_put (cache_clear s) ≫= fun _ => lql_json_spool_error LQL_STATUS_IO_ERROR message.

(** The cache made when there is none. *)
Definition need_cache : W bytes :=
  s ← spool_get;
  match read_cache s with
  | Some c => mret c
  | None =>
      ok ← next_alloc;
      if (ok : bool) then spool_put (with_cache s (Some []) (read_cache_offset s)) ≫= fun _ => mret []
      else lql_json_spool_error LQL_STATUS_NO_MEMORY "out of memory reading JSON spool"
  end.

Definition lql_json_spool_byte_at (offset : nat) : W Z :=
  s ← spool_get;
  match spool_memory s with
  | None => lql_json_spool_error LQL_STATUS_INVALID_ARGUMENT "JSON spool byte arguments are invalid"
  | Some memory =>
      if spool_size s <=? Z.of_nat offset then
        lql_json_spool_error LQL_STATUS_INVALID_ARGUMENT "JSON spool byte arguments are invalid"
      else
        match spool_file_ s with
        | None => mret (nth offset memory 0)
        | Some _ =>
            cache ← need_cache;
            let first := read_cache_offset s in
            if (first <=? offset)%nat && (offset <? first + length cache)%nat then
              mret (nth (offset - first) cache 0)
            else
              let amount := Nat.min (Z.to_nat (spool_size s) - offset)
                              (Z.to_nat LQL_JSON_SPOOL_IO_BUFFER_BYTES) in
              cache_seek "unable to read JSON spool byte" offset ≫= fun _ =>
              data ← fill_cache "unable to read JSON spool byte" offset amount;
              mret (nth 0 data 0)
        end
  end.

(** The [escaped] flag after the chunk, and the end of the string in it.  The C
    loop jumps to the next quote or backslash with [memchr]; the bytes between
    are neither. *)
Fixpoint string_chunk_loop (data : bytes) (offset : nat) (escaped : bool) : bool * option nat :=
  match data with
  | [] => (escaped, None)
  | c :: data =>
      if escaped then string_chunk_loop data (S offset) false
      else if c =? ch_quote then (false, Some (S offset))
      else string_chunk_loop data (S offset) (c =? ch_backslash)
  end.

Definition lql_json_spool_string_chunk_end (data : bytes) (escaped : bool) : bool * option nat :=
  string_chunk_loop data 0 escaped.

Definition unterminated {A} : W A :=
  lql_json_spool_error LQL_STATUS_JSON_ERROR "unterminated JSON spool string".

(** The loop over the chunks of the file; [fuel] bounds the bytes left. *)
Fixpoint find_string_loop (fuel : nat) (pos stop : nat) (escaped : bool) : W nat :=
  match fuel with
  | O => unterminated
  | S fuel =>
      if (stop <=? pos)%nat then unterminated
      else
        let amount := Nat.min (stop - pos) (Z.to_nat LQL_JSON_SPOOL_IO_BUFFER_BYTES) in
        data ← fill_cache "unable to scan JSON spool string" pos amount;
        match lql_json_spool_string_chunk_end data escaped with
        | (_, Some i) => mret (pos + i)%nat
        | (escaped, None) => find_string_loop fuel (pos + amount) stop escaped
        end
  end.

Definition lql_json_spool_find_string_end (offset stop : nat) : W nat :=
  s ← spool_get;
  if (stop <=? offset)%nat || (spool_size s <? Z.of_nat stop) then
    lql_json_spool_error LQL_STATUS_INVALID_ARGUMENT "JSON spool string scan arguments are invalid"
  else
    ch ← lql_json_spool_byte_at offset;
    if negb (ch =? ch_quote) then
      lql_json_spool_error LQL_STATUS_JSON_ERROR "JSON spool string scan expected quote"
    else
      let pos := S offset in
      match spool_file_ s with
      | None =>
          match lql_json_spool_string_chunk_end
                  (take (stop - pos) (drop pos (default [] (spool_memory s)))) false with
          | (_, Some i) => mret (pos + i)%nat
          | (_, None) => unterminated
          end
      | Some _ =>
          cache_seek "unable to scan JSON spool string" pos ≫= fun _ =>
          find_string_loop (S (stop - pos)) pos stop false
      end.

(** A reader over the spool is its offset. *)
Definition lql_json_spool_reader_init : W nat :=
  s ← spool_get;
  match spool_file_ s with
  | None => mret 0%nat
  | Some _ => lql_json_spool_seek 0 ≫= fun _ => mret 0%nat
  end.

(** [ferror(file)] after a read that returned nothing is the outcome of the read. *)
Definition lql_json_spool_read (reader capacity : nat) : W (nat * bytes) :=
  s ← spool_get;
  match spool_memory s with
  | None =>
      lql_json_spool_error LQL_STATUS_INVALID_ARGUMENT "JSON spool reader arguments are invalid"
  | Some memory =>
      if (capacity =? 0)%nat then
        lql_json_spool_error LQL_STATUS_INVALID_ARGUMENT "JSON spool reader arguments are invalid"
      else
        match spool_file_ s with
        | None =>
            let data := take capacity (drop reader memory) in
            mret ((reader + length data)%nat, data)
        | Some _ =>
            data ← spool_fread capacity;
            ferror ← next_io;
            if (length data =? 0)%nat && bool_decide (is_Some ferror) then
              lql_json_spool_error LQL_STATUS_IO_ERROR "unable to read JSON spool file"
            else mret ((reader + length data)%nat, data)
        end
  end.
