(* ===== verification/ScanState.v ===== *)
(** * State of the streaming scanner (src/lql_json_scan.c)

    [struct lql_json_scan] in parts: the input, the output, the term matcher, the
    captures, the number token and the temporal text, with what stays constant
    during a scan in [scan_config].  A computation threads the state, returns a
    value or the status that ends it, and is [None] when it runs out of fuel or
    accesses an array outside its bounds: a scan that is [None] gives no result.  That it
    is not [None] is shown in [ScanTotalScan]. *)

From S2P Require Import Prelude.
From S2P Require Import Temporal.
From S2P Require Import Errors.
From S2P Require Import JsonSpool.
From S2P Require Import ScanTerm.
From S2P Require Import ScanNumber.

(** ** Record update

    [r <| f := v |>] is [r] with field [f] replaced, for a record type with an
    instance of [Eta]. *)

Class Eta (R : Type) := eta : R -> R.
Class Update {R T : Type} (f : R -> T) := update : T -> R -> R.

Ltac solve_update f :=
  match type of f with
  | ?R -> ?T =>
      let e := constr:(eta : R -> R) in
      let e := eval hnf in e in
      match eval pattern f in e with
      | ?F _ => let u := constr:(fun (v : T) (r : R) => F (fun _ => v) r) in
                let u := eval cbv beta in u in exact u
      end
  end.

#[export] Hint Extern 1 (Update ?f) => solve_update f : typeclass_instances.

Declare Scope update_scope.
Delimit Scope update_scope with upd.
#[global] Open Scope update_scope.
Notation "r <| f := v |>" := (update (f := f) v r)
  (at level 1, left associativity, f constr at level 10, v at level 200,
   format "r  <| f  :=  v |>") : update_scope.

(** ** What stays constant *)

Record lql_json_capture_span := mk_span { span_offset : Z; span_len : Z; span_found : bool }.

(** [capture_keys]: the segments of each key. *)
Record scan_config := mk_config {
  writing : bool;
  spool_given : bool;
  flat_terms : list lql_json_flat_eq_term;
  capture_keys : list (list bytes);
  flat_eq_stop_on_hit : bool;
  flat_eq_stop_hit_mask : Z;
  flat_eq_has_array_terms : bool;
  flat_eq_has_object_wildcards : bool;
  flat_eq_has_recursive_terms : bool;
  flat_eq_has_repeated_recursive_terms : bool;
  flat_eq_leading_recursive_terms : Z;
  flat_eq_terminal_recursive_terms : Z;
  flat_eq_terminal_recursive_root_exists_terms : Z;
  flat_eq_valueless_present_terms : Z
}.

(** ** The parts of the state *)

(** One answer of the reader callback: its status, the error object when it set
    one, and the bytes it stored. *)
Record read_answer := mk_answer {
  answer_status : lql_status;
  answer_error : option lql_error;
  answer_data : bytes
}.

(** [buffer] has the bytes from [offset] to [length]; [reader] and [cancelled] are
    the answers the callbacks will give, the end of input and "no" after them. *)
Record scan_input := mk_input {
  reader : list read_answer;
  cancelled : list bool;
  out_cancelled : bool;
  buffer : bytes;
  bytes_read : nat;
  eof : bool;
  depth : nat;
  scan_error : lql_error;
  compact_range_active : bool;
  compact_range_ok : bool
}.

(** The emit buffer, the spool it is flushed to and the spool's environment. *)
Record scan_output := mk_output {
  emit_buffer : bytes;
  out_spool : lql_json_spool;
  out_env : spool_env
}.

Record scan_matcher := mk_matcher {
  flat_eq_active : bool;
  flat_eq_hits : Z;
  match_active : Z;
  match_failed : Z;
  match_contains : Z;
  match_icontains : Z;
  match_case_bytes : bytes;
  match_case_need : nat;
  match_pos : list nat;
  match_term_segment : list nat;
  key_term_segment : list nat;
  match_key : bool;
  match_path_segment : nat;
  path_active : list Z;
  recursive_active : list Z;
  recursive_term_segment : option (list nat);
  recursive_path_segment : option (list nat)
}.

Record scan_capture := mk_capture {
  capture_active : Z;
  capture_failed : Z;
  capture_pos : list nat;
  capture_segment : list nat;
  capture_path_active : list Z;
  capture_spans : list lql_json_capture_span
}.

(** The five literals a number term can have. *)
Record term_tracks := mk_tracks {
  track_eq : track;
  track_gt : track;
  track_gte : track;
  track_lt : track;
  track_lte : track
}.

Definition tracks_start : term_tracks :=
  mk_tracks track_start track_start track_start track_start track_start.

(** [number_match] has [number_match_len] bytes; [number_match_cap] is 0 while the
    pointer is NULL.  [reallocs] are the outcomes of the allocations. *)
Record scan_number := mk_number {
  number_range_active : Z;
  number_match : bytes;
  number_match_cap : Z;
  number_match_limit : Z;
  number_token_len : Z;
  number_unsigned : Z;
  number_unsigned_ready : bool;
  number_unsigned_overflow : bool;
  number_match_error : bool;
  number_match_overflow : bool;
  number_summary_active : bool;
  number_summary : lql_json_number_summary;
  number_tracks : list term_tracks;
  reallocs : list bool
}.

Record scan_temporal := mk_temporal_state {
  temporal_range_active : Z;
  temporal_range_failed : Z;
  temporal_match : bytes
}.

Record lql_json_scan := mk_scan {
  input : scan_input;
  output : scan_output;
  matcher : scan_matcher;
  capture : scan_capture;
  number : scan_number;
  timestamp : scan_temporal
}.

#[export] Instance eta_input : Eta scan_input := fun r =>
  mk_input (reader r) (cancelled r) (out_cancelled r) (buffer r) (bytes_read r) (eof r) (depth r)
    (scan_error r) (compact_range_active r) (compact_range_ok r).
#[export] Instance eta_output : Eta scan_output := fun r =>
  mk_output (emit_buffer r) (out_spool r) (out_env r).
#[export] Instance eta_matcher : Eta scan_matcher := fun r =>
  mk_matcher (flat_eq_active r) (flat_eq_hits r) (match_active r) (match_failed r)
    (match_contains r) (match_icontains r) (match_case_bytes r) (match_case_need r) (match_pos r)
    (match_term_segment r) (key_term_segment r) (match_key r) (match_path_segment r)
    (path_active r) (recursive_active r) (recursive_term_segment r) (recursive_path_segment r).
#[export] Instance eta_capture : Eta scan_capture := fun r =>
  mk_capture (capture_active r) (capture_failed r) (capture_pos r) (capture_segment r)
    (capture_path_active r) (capture_spans r).
#[export] Instance eta_tracks : Eta term_tracks := fun r =>
  mk_tracks (track_eq r) (track_gt r) (track_gte r) (track_lt r) (track_lte r).
#[export] Instance eta_number : Eta scan_number := fun r =>
  mk_number (number_range_active r) (number_match r) (number_match_cap r) (number_match_limit r)
    (number_token_len r) (number_unsigned r) (number_unsigned_ready r)
    (number_unsigned_overflow r) (number_match_error r) (number_match_overflow r)
    (number_summary_active r) (number_summary r) (number_tracks r) (reallocs r).
#[export] Instance eta_temporal : Eta scan_temporal := fun r =>
  mk_temporal_state (temporal_range_active r) (temporal_range_failed r) (temporal_match r).
#[export] Instance eta_scan : Eta lql_json_scan := fun r =>
  mk_scan (input r) (output r) (matcher r) (capture r) (number r) (timestamp r).

(** ** Computations *)

Definition Scan (A : Type) : Type :=
  lql_json_scan -> option ((A + lql_status) * lql_json_scan).

#[export] Instance Scan_ret : MRet Scan := fun A a s => Some (inl a, s).
#[export] Instance Scan_bind : MBind Scan := fun A B f m s =>
  match m s with
  | Some (inl a, s) => f a s
  | Some (inr status, s) => Some (inr status, s)
  | None => None
  end.

Notation "m ;; k" := (m ≫= fun _ => k) (at level 100, right associativity) : stdpp_scope.

Definition gets {A} (f : lql_json_scan -> A) : Scan A := fun s => Some (inl (f s), s).
Definition modify (f : lql_json_scan -> lql_json_scan) : Scan unit := fun s => Some (inl tt, f s).
(** A part of the matching that gives a value and the new state. *)
Definition state {A} (f : lql_json_scan -> A * lql_json_scan) : Scan A :=
  fun s => let '(a, s) := f s in Some (inl a, s).
(** [None] is an access outside an array. *)
Definition defined {A} (x : option A) : Scan A :=
  fun s => match x with Some a => Some (inl a, s) | None => None end.
(** A step of the matcher that may be undefined. *)
Definition run (f : lql_json_scan -> option lql_json_scan) : Scan unit :=
  fun s => s ← f s; Some (inl tt, s).
Definition stop {A} (status : lql_status) : Scan A := fun s => Some (inr status, s).
(** [status = m;] without the return: the status is [None] when it is OK. *)
Definition attempt {A} (m : Scan A) : Scan (A + lql_status) := fun s =>
  match m s with
  | Some (r, s) => Some (inl r, s)
  | None => None
  end.

(** [return status] of an attempt. *)
Definition finish {A} (r : A + lql_status) : Scan A :=
  match r with inl a => mret a | inr status => stop status end.

(** ** Errors *)

(** [lql_json_error] *)
Definition json_error (s : lql_json_scan) (message : string) : lql_json_scan :=
  s <| input := (input s) <| scan_error :=
    mk_error LQL_STATUS_JSON_ERROR (take (sizeof_message - 1) (bs message)) |> |>.

(** [lql_json_error(scan, message); return LQL_STATUS_JSON_ERROR;] *)
Definition lql_json_error {A} (message : string) : Scan A :=
  modify (fun s => json_error s message) ;; stop LQL_STATUS_JSON_ERROR.
