(* ===== verification/ScanInput.v ===== *)
(** * Input and output of the streaming scanner (src/lql_json_scan.c)

    The emit buffer, the read buffer with its refills, the word-at-a-time search
    for the end of plain text, and the [skip_*_fast] functions that validate a
    value without looking at it.  Loops over the input run on a fuel computed from
    what is left of it. *)

From S2P Require Import Prelude.
From S2P Require Import Errors.
From S2P Require Import JsonSpool.
From S2P Require Import ScanTerm.
From S2P Require Import ScanState.

Definition LQL_JSON_READ_BUFFER_SIZE : Z := 16384.
Definition LQL_JSON_EMIT_BUFFER_SIZE : Z := 4096.

Definition on_input (f : scan_input -> scan_input) (s : lql_json_scan) : lql_json_scan :=
  s <| input := f (input s) |>.
Definition on_output (f : scan_output -> scan_output) (s : lql_json_scan) : lql_json_scan :=
  s <| output := f (output s) |>.

(** ** Output *)

(** A call on the spool; a failure sets the scanner's error object. *)
Definition call_spool {A} (m : W A) : Scan A := fun s =>
  let o := output s in
  match m (out_spool o) (out_env o) with
  | (inr a, sp, e) => Some (inl a, s <| output := mk_output (emit_buffer o) sp e |>)
  | (inl (status, message), sp, e) =>
      Some (inr status,
            (s <| output := mk_output (emit_buffer o) sp e |>)
              <| input := (input s) <| scan_error := lql_set_error status (Some (bs message)) |> |>)
  end.

(** [lql_json_spool_write] *)
Definition lql_json_spool_write (data : bytes) : Scan unit := call_spool (lql_json_spool_append data).

Section config.
Context (cfg : scan_config).

(** The writer given the emit buffer, which is then empty. *)
Definition drain : Scan unit :=
  data ← gets (fun s => emit_buffer (output s));
  lql_json_spool_write data ;;
  modify (on_output (fun o => o <| emit_buffer := [] |>)).

(** [if (scan->emit_len == LQL_JSON_EMIT_BUFFER_SIZE)] ... *)
Definition make_room : Scan unit :=
  full ← gets (fun s => len (emit_buffer (output s)) =? LQL_JSON_EMIT_BUFFER_SIZE);
  if (full : bool) then drain else mret tt.

(** The copy loop; every round copies a byte at least, so the length of the data is
    enough fuel. *)
Fixpoint write_loop (fuel : nat) (data : bytes) : Scan unit :=
  match data, fuel with
  | [], _ => mret tt
  | _, O => defined None
  | _, S fuel =>
      make_room ;;
      room ← gets (fun s => LQL_JSON_EMIT_BUFFER_SIZE - len (emit_buffer (output s)));
      let amount := Z.to_nat (Z.min room (len data)) in
      modify (on_output (fun o => o <| emit_buffer := emit_buffer o ++ take amount data |>)) ;;
      write_loop fuel (drop amount data)
  end.

Definition lql_json_write (data : bytes) : Scan unit :=
  if writing cfg then write_loop (length data) data else mret tt.

Definition lql_json_write_byte (byte : Z) : Scan unit :=
  if writing cfg then
    make_room ;; modify (on_output (fun o => o <| emit_buffer := emit_buffer o ++ [byte] |>))
  else mret tt.

Definition lql_json_flush : Scan unit :=
  empty ← gets (fun s => (length (emit_buffer (output s)) =? 0)%nat);
  if (empty : bool) || negb (writing cfg) then
    modify (on_output (fun o => o <| emit_buffer := [] |>))
  else drain.

Definition lql_json_copy_byte (value : Z) : Scan unit :=
  if writing cfg then lql_json_write_byte value else mret tt.

Definition lql_json_output_offset (s : lql_json_scan) : Z :=
  if spool_given cfg then
    lql_json_spool_size (Some (out_spool (output s))) + len (emit_buffer (output s))
  else 0.

End config.

(** ** Input *)

(** The bytes and the reads that are left: fuel for the loops below. *)
Definition remaining (s : lql_json_scan) : nat :=
  (length (buffer (input s)) +
   list_sum (map (fun a => S (length (answer_data a))) (reader (input s))))%nat.

(** [scan->cancelled != NULL && scan->cancelled(scan->cancel_user)] *)
Definition ask_cancelled : Scan bool := fun s =>
  let i := input s in
  Some (inl (default false (head (cancelled i))), s <| input := i <| cancelled := tail (cancelled i) |> |>).

Definition set_cancelled : Scan unit := modify (on_input (fun i => i <| out_cancelled := true |>)).

(** A call of the reader: its status and the bytes; the error object is what it
    made of it. *)
Definition call_reader : Scan (lql_status * bytes) := fun s =>
  let i := input s in
  let a := default (mk_answer LQL_STATUS_OK None []) (head (reader i)) in
  Some (inl (answer_status a, answer_data a),
        s <| input := (i <| reader := tail (reader i) |>)
                        <| scan_error := default (scan_error i) (answer_error a) |> |>).

Definition lql_json_refill : Scan unit :=
  i ← gets input;
  if negb (length (buffer i) =? 0)%nat then mret tt
  else if eof i then mret tt
  else
    cancel ← ask_cancelled;
    if (cancel : bool) then set_cancelled ;; stop LQL_STATUS_STOP
    else
      '(status, data) ← call_reader;
      if negb (bool_decide (status = LQL_STATUS_OK)) then
        modify (on_input (fun i =>
          if bool_decide (code (scan_error i) = LQL_STATUS_OK)
          then i <| scan_error := lql_set_error status (Some (bs "JSON reader failed")) |> else i)) ;;
        stop status
      else if LQL_JSON_READ_BUFFER_SIZE <? len data then
        lql_json_error "JSON reader exceeded its buffer capacity"
      else
        modify (on_input (fun i =>
          ((i <| buffer := data |>) <| bytes_read := (bytes_read i + length data)%nat |>)
            <| eof := eof i || (length data =? 0)%nat |>)).

(** [lql_json_consumed] *)
Definition lql_json_consumed (s : lql_json_scan) : nat :=
  (bytes_read (input s) - length (buffer (input s)))%nat.

(** The next byte, [None] at the end. *)
Definition lql_json_peek : Scan (option Z) :=
  lql_json_refill ;; gets (fun s => head (buffer (input s))).

(** [++scan->offset] *)
Definition advance : Scan unit :=
  modify (on_input (fun i => i <| buffer := tail (buffer i) |>)).

Definition lql_json_take : Scan Z :=
  c ← lql_json_peek;
  match c with
  | None => lql_json_error "unexpected end of JSON input"
  | Some value => advance ;; mret value
  end.

Definition lql_json_take_expected (expected : Z) : Scan unit :=
  value ← lql_json_take;
  if negb (value =? expected) then lql_json_error "invalid JSON token" else mret tt.

Definition is_space (c : Z) : bool :=
  (c =? ch_space) || (c =? ch_tab) || (c =? ch_cr) || (c =? ch_nl).

Fixpoint skip_space_loop (fuel : nat) (skipped : bool) : Scan unit :=
  match fuel with
  | O => defined None
  | S fuel =>
      c ← lql_json_peek;
      match c with
      | None => mret tt
      | Some value =>
          if negb (is_space value) then
            modify (on_input (fun i =>
              if skipped && compact_range_active i then i <| compact_range_ok := false |> else i))
          else advance ;; skip_space_loop fuel true
      end
  end.

Definition lql_json_skip_space : Scan unit :=
  n ← gets remaining; skip_space_loop (S n) false.

Definition lql_json_hex_value (value : Z) : Z :=
  if is_digit value then value - ch_0
  else if (ch_a <=? value) && (value <=? ch_f) then value - ch_a + 10
  else if (ch_A <=? value) && (value <=? ch_F) then value - ch_A + 10
  else -1.

(** The loop of [lql_json_take_hex4], [n] digits left. *)
Fixpoint take_hex_loop (n : nat) (value : Z) (raw : bytes) : Scan (Z * bytes) :=
  match n with
  | O => mret (value, raw)
  | S n =>
      byte ← lql_json_take;
      let digit := lql_json_hex_value byte in
      if digit <? 0 then lql_json_error "invalid JSON Unicode escape"
      else take_hex_loop n (Z.lor (Z.shiftl value 4) digit) (raw ++ [byte])
  end.

(** The value and the four bytes. *)
Definition lql_json_take_hex4 : Scan (Z * bytes) := take_hex_loop 4 0 [].

(** ** Plain text *)

(** A byte of plain text: ASCII, no control, quote or backslash. *)
Definition plain_byte (c : Z) : bool :=
  negb (c =? ch_quote) && negb (c =? ch_backslash) && (0x20 <=? c) && (c <? 0x80).

Definition WORD : Z := 2 ^ 64.
(** [~0ul / 255ul], [ones * 128ul], [ones * 96ul] *)
Definition ones : Z := (WORD - 1) / 255.
Definition high : Z := (ones * 128) mod WORD.
Definition control_offset : Z := (ones * 96) mod WORD.

(** [~w] *)
Definition word_not (w : Z) : Z := WORD - 1 - w.

Definition lql_json_word_has_zero_byte (value : Z) : bool :=
  negb (Z.land (Z.land ((value - ones) mod WORD) (word_not value)) high =? 0).

(** [memcpy(&word, data, sizeof(word))] *)
Fixpoint load_word (n : nat) (data : bytes) : Z :=
  match n, data with
  | S n, c :: data => c + 256 * load_word n data
  | _, _ => 0
  end.

(** The test that ends the loop over words. *)
Definition word_stops (word : Z) : bool :=
  negb (Z.land word high =? 0) ||
  negb (Z.land (word_not ((word + control_offset) mod WORD)) high =? 0) ||
  lql_json_word_has_zero_byte (Z.lxor word ((ones * ch_quote) mod WORD)) ||
  lql_json_word_has_zero_byte (Z.lxor word ((ones * ch_backslash) mod WORD)).

Fixpoint lql_json_plain_key_span (data : bytes) : nat :=
  match data with
  | c :: data => if plain_byte c then S (lql_json_plain_key_span data) else 0
  | [] => 0
  end.

(** The loop over the words of [data], then over its bytes; every round takes
    eight bytes. *)
Fixpoint plain_words (fuel : nat) (data : bytes) : nat :=
  match fuel with
  | O => lql_json_plain_key_span data
  | S fuel =>
      if (8 <=? length data)%nat && negb (word_stops (load_word 8 data))
      then (8 + plain_words fuel (drop 8 data))%nat
      else lql_json_plain_key_span data
  end.

Definition lql_json_plain_ascii_span (data : bytes) : nat :=
  if (length data <? 8)%nat then lql_json_plain_key_span data
  else plain_words (length data) data.

(** ** Skipping a value *)

(** The continuation bytes of a UTF-8 lead: how many, and the bounds of the
    first. *)
Definition utf8_lead (value : Z) : option (nat * Z * Z) :=
  if (0xc2 <=? value) && (value <=? 0xdf) then Some (1%nat, 0x80, 0xbf)
  else if (0xe0 <=? value) && (value <=? 0xef) then
    Some (2%nat, if value =? 0xe0 then 0xa0 else 0x80, if value =? 0xed then 0x9f else 0xbf)
  else if (0xf0 <=? value) && (value <=? 0xf4) then
    Some (3%nat, if value =? 0xf0 then 0x90 else 0x80, if value =? 0xf4 then 0x8f else 0xbf)
  else None.

Definition simple_escape (next : Z) : bool :=
  (next =? ch_quote) || (next =? ch_backslash) || (next =? ch_slash) || (next =? 98) ||
  (next =? ch_f) || (next =? 110) || (next =? 114) || (next =? 116).

Definition is_high_surrogate (unicode : Z) : bool := (0xd800 <=? unicode) && (unicode <=? 0xdbff).
Definition is_low_surrogate (unicode : Z) : bool := (0xdc00 <=? unicode) && (unicode <=? 0xdfff).

(** [lql_json_error(...)] over a failed step, whose status is returned. *)
Definition or_error {A} (message : string) (r : A + lql_status) : Scan A :=
  match r with
  | inl a => mret a
  | inr status => modify (fun s => json_error s message) ;; stop status
  end.

(** A continuation byte between two bounds. *)
Definition take_continuation (low high : Z) : Scan Z :=
  r ← attempt lql_json_take;
  next ← or_error "invalid UTF-8 in JSON string" r;
  if (next <? low) || (high <? next) then lql_json_error "invalid UTF-8 in JSON string"
  else mret next.

Fixpoint skip_continuations (remaining : nat) (low high : Z) : Scan unit :=
  match remaining with
  | O => mret tt
  | S remaining => take_continuation low high ;; skip_continuations remaining 0x80 0xbf
  end.

(** What follows [backslash u]. *)
Definition skip_unicode_escape : Scan unit :=
  '(unicode, _) ← lql_json_take_hex4;
  if is_low_surrogate unicode then lql_json_error "unpaired low surrogate in JSON string"
  else if negb (is_high_surrogate unicode) then mret tt
  else
    lql_json_take_expected ch_backslash ;;
    lql_json_take_expected 117 ;;
    '(low, _) ← lql_json_take_hex4;
    if negb (is_low_surrogate low) then lql_json_error "unpaired high surrogate in JSON string"
    else mret tt.

(** [n] bytes of the buffer are passed. *)
Definition advance_by (n : nat) : Scan unit :=
  modify (on_input (fun i => i <| buffer := drop n (buffer i) |>)).

Fixpoint skip_string_loop (fuel : nat) : Scan unit :=
  match fuel with
  | O => defined None
  | S fuel =>
      lql_json_refill ;;
      data ← gets (fun s => buffer (input s));
      match data with
      | [] => lql_json_error "unterminated JSON string"
      | value :: _ =>
          let span_len := lql_json_plain_ascii_span data in
          if negb (span_len =? 0)%nat then advance_by span_len ;; skip_string_loop fuel
          else
            advance ;;
            if value =? ch_quote then mret tt
            else if value <? 0x20 then lql_json_error "unescaped control byte in JSON string"
            else if value =? ch_backslash then
              r ← attempt lql_json_take;
              next ← or_error "unterminated JSON escape" r;
              if simple_escape next then skip_string_loop fuel
              else if negb (next =? 117) then lql_json_error "invalid JSON escape"
              else skip_unicode_escape ;; skip_string_loop fuel
            else
              match utf8_lead value with
              | None => lql_json_error "invalid UTF-8 in JSON string"
              | Some (n, low, high) => skip_continuations n low high ;; skip_string_loop fuel
              end
      end
  end.

Definition lql_json_skip_string_fast : Scan unit :=
  lql_json_take_expected ch_quote ;;
  n ← gets remaining; skip_string_loop (S n).

(** The bytes of a literal, one by one. *)
Fixpoint lql_json_skip_literal_fast (literal : bytes) : Scan unit :=
  match literal with
  | [] => mret tt
  | c :: literal => lql_json_take_expected c ;; lql_json_skip_literal_fast literal
  end.

Definition digit_of (c : option Z) : bool :=
  match c with Some c => is_digit c | None => false end.
Definition byte_is (c : option Z) (value : Z) : bool :=
  match c with Some c => c =? value | None => false end.

(** The do-while loop over digits: [c], a digit, is under the cursor; the byte
    after the digits. *)
Fixpoint skip_digits_loop (fuel : nat) : Scan (option Z) :=
  match fuel with
  | O => defined None
  | S fuel =>
      advance ;;
      c ← lql_json_peek;
      if digit_of c then skip_digits_loop fuel else mret c
  end.

Definition skip_digits : Scan (option Z) := n ← gets remaining; skip_digits_loop (S n).

Definition skip_number_integer : Scan (option Z) :=
  c ← lql_json_peek;
  c ← (if byte_is c ch_minus then advance ;; lql_json_peek else mret c);
  if byte_is c ch_0 then advance ;; lql_json_peek
  else if digit_of c then skip_digits
  else lql_json_error "invalid JSON number".

Definition skip_number_fraction (c : option Z) : Scan (option Z) :=
  if byte_is c ch_dot then
    advance ;;
    r ← attempt lql_json_peek;
    c ← or_error "invalid JSON fraction" r;
    if digit_of c then skip_digits else lql_json_error "invalid JSON fraction"
  else mret c.

Definition skip_number_exponent (c : option Z) : Scan unit :=
  if byte_is c ch_e || byte_is c ch_E then
    advance ;;
    c ← lql_json_peek;
    c ← (if byte_is c ch_plus || byte_is c ch_minus then advance ;; lql_json_peek else mret c);
    if digit_of c then skip_digits ;; mret tt else lql_json_error "invalid JSON exponent"
  else mret tt.

Definition lql_json_skip_number_fast : Scan unit :=
  c ← skip_number_integer;
  c ← skip_number_fraction c;
  skip_number_exponent c.

Definition on_depth (f : nat -> nat) : Scan unit :=
  modify (on_input (fun i => i <| depth := f (depth i) |>)).

(** [if (scan->depth == LQL_JSON_MAX_DEPTH)] ... [++scan->depth] *)
Definition enter : Scan unit :=
  d ← gets (fun s => depth (input s));
  if (d =? LQL_JSON_MAX_DEPTH)%nat then
    lql_json_error "JSON nesting exceeds the scanner limit"
  else on_depth S.

Definition leave : Scan unit := on_depth Nat.pred.

(** [lql_json_skip_value_fast], [lql_json_skip_object_fast] and its loop from a
    key on, [lql_json_skip_array_fast] and its loop from an element on. *)
Fixpoint skip_value (fuel : nat) : Scan unit :=
  match fuel with
  | O => defined None
  | S fuel =>
      c ← lql_json_peek;
      if byte_is c ch_lbrace then
        enter ;;
        lql_json_take_expected ch_lbrace ;;
        lql_json_skip_space ;;
        c ← lql_json_peek;
        if byte_is c ch_rbrace then advance ;; leave else skip_members fuel c
      else if byte_is c ch_lbracket then
        enter ;;
        lql_json_take_expected ch_lbracket ;;
        lql_json_skip_space ;;
        c ← lql_json_peek;
        if byte_is c ch_rbracket then advance ;; leave else skip_elements fuel
      else if byte_is c ch_quote then lql_json_skip_string_fast
      else if byte_is c 116 then lql_json_skip_literal_fast (bs "true")
      else if byte_is c ch_f then lql_json_skip_literal_fast (bs "false")
      else if byte_is c 110 then lql_json_skip_literal_fast (bs "null")
      else lql_json_skip_number_fast
  end
with skip_members (fuel : nat) (c : option Z) : Scan unit :=
  match fuel with
  | O => defined None
  | S fuel =>
      if negb (byte_is c ch_quote) then lql_json_error "JSON object key must be a string"
      else
        lql_json_skip_string_fast ;;
        lql_json_skip_space ;;
        lql_json_take_expected ch_colon ;;
        lql_json_skip_space ;;
        skip_value fuel ;;
        lql_json_skip_space ;;
        value ← lql_json_take;
        if value =? ch_rbrace then leave
        else if negb (value =? ch_comma) then
          lql_json_error "JSON object member separator is missing"
        else
          lql_json_skip_space ;;
          c ← lql_json_peek;
          skip_members fuel c
  end
with skip_elements (fuel : nat) : Scan unit :=
  match fuel with
  | O => defined None
  | S fuel =>
      skip_value fuel ;;
      lql_json_skip_space ;;
      value ← lql_json_take;
      if value =? ch_rbracket then leave
      else if negb (value =? ch_comma) then lql_json_error "JSON array separator is missing"
      else lql_json_skip_space ;; skip_elements fuel
  end.

(** A value takes at most two nested calls per byte. *)
Definition value_fuel (s : lql_json_scan) : nat := (2 * remaining s + 1)%nat.

Definition lql_json_skip_value_fast : Scan unit := n ← gets value_fuel; skip_value n.
