(* ===== verification/ScanMatch.v ===== *)
(** * Term matching of the streaming scanner (src/lql_json_scan.c)

    What the scanner does with the decoded bytes of keys and values: it advances
    the position of every active term in its target, runs the contains matchers
    with their failure tables, collects the text of a timestamp, and follows the
    captures; then it tells which terms matched. *)

From S2P Require Import Prelude.
From S2P Require Import Temporal.
From S2P Require Import Unicode.
From S2P Require Import Errors.
From S2P Require Import ScanTerm.
From S2P Require Import ScanNumber.
From S2P Require Import ScanState.
From S2P Require Import ScanInput.

Definition on_matcher (f : scan_matcher -> scan_matcher) (s : lql_json_scan) : lql_json_scan :=
  s <| matcher := f (matcher s) |>.
Definition on_capture (f : scan_capture -> scan_capture) (s : lql_json_scan) : lql_json_scan :=
  s <| capture := f (capture s) |>.
Definition on_temporal (f : scan_temporal -> scan_temporal) (s : lql_json_scan) : lql_json_scan :=
  s <| timestamp := f (timestamp s) |>.

(** [flat_eq_hits |= hits] *)
Definition add_hits (hits : Z) (s : lql_json_scan) : lql_json_scan :=
  on_matcher (fun m => m <| flat_eq_hits := Z.lor (flat_eq_hits m) hits |>) s.

(** A loop over an array, with the index. *)
Fixpoint each_from {T A} (i : nat) (f : nat -> T -> A -> A) (l : list T) (a : A) : A :=
  match l with
  | [] => a
  | x :: l => each_from (S i) f l (f i x a)
  end.

Definition each {T A} (f : nat -> T -> A -> A) (l : list T) (a : A) : A := each_from 0 f l a.

(** The same when a round may be undefined. *)
Fixpoint try_each_from {T A} (i : nat) (f : nat -> T -> A -> option A) (l : list T) (a : A)
    : option A :=
  match l with
  | [] => Some a
  | x :: l => a ← f i x a; try_each_from (S i) f l a
  end.

Definition try_each {T A} (f : nat -> T -> A -> option A) (l : list T) (a : A) : option A :=
  try_each_from 0 f l a.

(** The loop that marks the terms for which [f] finds a path segment: the mask, and
    [match_term_segment] with the segments it sets. *)
Fixpoint choose_from {T} (i : nat) (f : nat -> T -> option (option nat)) (l : list T)
    (segments : list nat) : Z * list nat :=
  match l with
  | [] => (0, segments)
  | x :: l =>
      match f i x with
      | None => choose_from (S i) f l segments
      | Some segment =>
          let segments := match segment with Some s => <[i := s]> segments | None => segments end in
          let '(mask, segments) := choose_from (S i) f l segments in
          (Z.lor (bit i) mask, segments)
      end
  end.

Definition choose {T} (f : nat -> T -> option (option nat)) (l : list T) (m : scan_matcher)
    : Z * scan_matcher :=
  let '(mask, segments) := choose_from 0 f l (match_term_segment m) in
  (mask, m <| match_term_segment := segments |>).

Section config.
Context (cfg : scan_config).

(** ** Starting a match *)

(** [match_start] of a term that is active: its position and its segment. *)
Definition match_start_term (active : Z) (key : bool) (path_segment i : nat)
    (term : lql_json_flat_eq_term) (m : scan_matcher) : scan_matcher :=
  if has active i then
    let m := m <| match_pos := <[i := 0%nat]> (match_pos m) |> in
    let m := m <| match_term_segment := <[i := path_segment]> (match_term_segment m) |> in
    if negb key && (kind_is term LQL_JSON_FLAT_TERM_ICONTAINS ||
                    kind_is term LQL_JSON_FLAT_TERM_IPREFIX)
    then m <| match_icontains := Z.lor (match_icontains m) (bit i) |> else m
  else m.

Definition lql_json_match_start (active : Z) (key : bool) (path_segment : nat) (m : scan_matcher)
    : scan_matcher :=
  let m := m <| match_active := active |> <| match_failed := 0 |> <| match_contains := 0 |>
             <| match_icontains := 0 |> <| match_case_bytes := [] |> <| match_case_need := 0%nat |>
             <| match_key := key |> <| match_path_segment := path_segment |> in
  each (match_start_term active key path_segment) (flat_terms cfg) m.

(** [lql_json_stop_hit_ready] *)
Definition lql_json_stop_hit_ready (m : scan_matcher) : bool :=
  flat_eq_stop_on_hit cfg &&
  (let mask := flat_eq_stop_hit_mask cfg in
   if mask =? 0 then negb (flat_eq_hits m =? 0) else Z.land (flat_eq_hits m) mask =? mask).

(** ** Recursive segments of the open containers *)

(** [*slot] of [lql_json_recursive_term_segment_slot] and
    [lql_json_recursive_path_segment_slot]; [None] is a NULL slot. *)
Definition slot_index (depth term_index : nat) : option nat :=
  if (LQL_JSON_MAX_DEPTH <=? depth)%nat || (LQL_JSON_FLAT_TERM_CAPACITY <=? term_index)%nat
  then None else Some (depth * length (flat_terms cfg) + term_index)%nat.

Definition read_slot (slots : option (list nat)) (depth term_index : nat) : option nat :=
  l ← slots; i ← slot_index depth term_index; l !! i.

(** An [unsigned char] stored in a slot that is not NULL. *)
Definition write_slot (slots : option (list nat)) (depth term_index value : nat)
    : option (list nat) :=
  match slot_index depth term_index with
  | Some i => (fun l => <[i := (value mod 256)%nat]> l) <$> slots
  | None => slots
  end.

(** The segment a slot holds: its value less one, when it is not zero. *)
Definition slot_segment (slot : option nat) : option nat :=
  match slot with Some (S n) => Some n | _ => None end.

Definition lql_json_active_recursive_segment (m : scan_matcher) (term : lql_json_flat_eq_term)
    (term_index depth : nat) : option nat :=
  match slot_segment (read_slot (recursive_term_segment m) depth term_index) with
  | Some segment => Some segment
  | None => lql_json_term_recursive_segment term
  end.

Definition lql_json_active_path_segment (m : scan_matcher) (term : lql_json_flat_eq_term)
    (term_index depth fallback_segment : nat) : nat :=
  if is_empty (path_recursive_segments term) then fallback_segment
  else default fallback_segment (slot_segment (read_slot (recursive_path_segment m) depth term_index)).

Definition match_start_key_term (ordinary recursive : Z) (path_segment i : nat)
    (term : lql_json_flat_eq_term) (m : scan_matcher) : scan_matcher :=
  if has ordinary i then
    m <| match_term_segment :=
      <[i := lql_json_active_path_segment m term i path_segment path_segment]>
        (match_term_segment m) |>
  else if has recursive i then
    match lql_json_active_recursive_segment m term i path_segment with
    | Some recursive_segment =>
        m <| match_term_segment :=
          <[i := lql_json_next_recursive_path_segment term recursive_segment]>
            (match_term_segment m) |>
    | None => m
    end
  else m.

Definition lql_json_match_start_key (ordinary recursive : Z) (path_segment : nat)
    (m : scan_matcher) : scan_matcher :=
  each (match_start_key_term ordinary recursive path_segment) (flat_terms cfg)
    (lql_json_match_start (Z.lor ordinary recursive) true path_segment m).

(** ** The contains matchers *)

(** [while (pos != 0 && value != target[pos]) pos = failure[pos - 1];] *)
Fixpoint kmp_back (fuel : nat) (target : bytes) (failure : list nat) (value : Z) (pos : nat)
    : option nat :=
  match pos, fuel with
  | O, _ => Some 0%nat
  | S p, fuel =>
      c ← target !! pos;
      if c =? value then Some pos
      else match fuel with
           | O => None
           | S fuel => pos ← failure !! p; kmp_back fuel target failure value pos
           end
  end.

(** A byte: the new position and whether the target was found. *)
Definition kmp_step (target : bytes) (failure : list nat) (value : Z) (pos : nat)
    : option (nat * bool) :=
  pos ← kmp_back pos target failure value pos;
  c ← target !! pos;
  let pos := if c =? value then S pos else pos in
  if (pos =? length target)%nat then pos ← failure !! (pos - 1)%nat; Some (pos, true)
  else Some (pos, false).

Fixpoint kmp_bytes (target : bytes) (failure : list nat) (data : bytes) (pos : nat) (found : bool)
    : option (nat * bool) :=
  match data with
  | [] => Some (pos, found)
  | c :: data =>
      r ← kmp_step target failure c pos;
      kmp_bytes target failure data (fst r) (found || snd r)
  end.

(** What some bytes do to a term: its position, whether it fails, whether its value
    is found. *)
Record term_step := mk_step { step_pos : nat; step_failed : bool; step_found : bool }.

Definition apply_step (i : nat) (st : term_step) (m : scan_matcher) : scan_matcher :=
  let m := m <| match_pos := <[i := step_pos st]> (match_pos m) |> in
  let m := if step_failed st then m <| match_failed := Z.lor (match_failed m) (bit i) |> else m in
  if step_found st then m <| match_contains := Z.lor (match_contains m) (bit i) |> else m.

Definition position (m : scan_matcher) (i : nat) : nat := nth i (match_pos m) 0%nat.

Definition fail_term (i : nat) (m : scan_matcher) : scan_matcher :=
  m <| match_failed := Z.lor (match_failed m) (bit i) |>.
Definition found_term (i : nat) (m : scan_matcher) : scan_matcher :=
  m <| match_contains := Z.lor (match_contains m) (bit i) |>.

(** [if (pos < value_len && data[offset] != value[pos]) failed; if (pos <
    value_len) ++pos;] over the bytes. *)
Fixpoint iprefix_bytes (target data : bytes) (pos : nat) (failed : bool) : nat * bool :=
  match data with
  | [] => (pos, failed)
  | c :: data =>
      match target !! pos with
      | Some t => iprefix_bytes target data (S pos) (failed || negb (t =? c))
      | None => iprefix_bytes target data pos failed
      end
  end.

(** The loop over lower-cased bytes for a contains or prefix term. *)
Definition icontains_step (term : lql_json_flat_eq_term) (data : bytes) (pos : nat)
    : option term_step :=
  if kind_is term LQL_JSON_FLAT_TERM_IPREFIX then
    let '(pos, failed) := iprefix_bytes (term_value term) data pos false in
    Some (mk_step pos failed false)
  else if (length data =? 0)%nat then Some (mk_step pos false false)
  else if (length (term_value term) =? 0)%nat then Some (mk_step pos false true)
  else
    match contains_failure term with
    | None => Some (mk_step pos true false)
    | Some failure =>
        '(pos, found) ← kmp_bytes (term_value term) failure data pos false;
        Some (mk_step pos false found)
    end.

Definition lql_json_match_icontains_bytes (data : bytes) (m : scan_matcher) : option scan_matcher :=
  try_each (fun i term m =>
    if negb (has (match_active m) i) || match_key m ||
       negb (kind_is term LQL_JSON_FLAT_TERM_ICONTAINS || kind_is term LQL_JSON_FLAT_TERM_IPREFIX)
    then Some m
    else st ← icontains_step term data (position m i); Some (apply_step i st m))
  (flat_terms cfg) m.

Definition ascii_lower (c : Z) : Z := if (ch_A <=? c) && (c <=? ch_Z) then c + (ch_a - ch_A) else c.

Definition lql_json_match_icontains_ascii_span (data : bytes) (m : scan_matcher)
    : option scan_matcher :=
  if (length data =? 0)%nat || is_empty (match_icontains m) then Some m
  else
    try_each (fun i term m =>
      if negb (has (match_icontains m) i) || negb (has (match_active m) i) ||
         has (match_failed m) i
      then Some m
      else
        st ← icontains_step term (map ascii_lower data) (position m i); Some (apply_step i st m))
    (flat_terms cfg) m.

Definition lql_json_match_contains_ascii_span (active : Z) (data : bytes) (m : scan_matcher)
    : option scan_matcher :=
  if (length data =? 0)%nat || is_empty active then Some m
  else
    try_each (fun i term m =>
      if negb (has active i) || negb (has (match_active m) i) || has (match_failed m) i then Some m
      else if negb (kind_is term LQL_JSON_FLAT_TERM_CONTAINS) then Some (fail_term i m)
      else if (length (term_value term) =? 0)%nat then Some (found_term i m)
      else
        match contains_failure term with
        | None => Some (fail_term i m)
        | Some failure =>
            '(pos, found) ← kmp_bytes (term_value term) failure data (position m i) false;
            Some (apply_step i (mk_step pos false found) m)
        end)
    (flat_terms cfg) m.

(** The width a first byte announces. *)
Definition case_need (value : Z) : nat :=
  if value <? 0x80 then 1 else if value <? 0xe0 then 2 else if value <? 0xf0 then 3 else 4.

Definition lower_rune (rune : Z) : Z :=
  if (ch_A <=? rune) && (rune <=? ch_Z) then rune + (ch_a - ch_A)
  else if 0x80 <=? rune then lql_unicode_simple_lower rune else rune.

Definition lql_json_match_icontains_byte (value : Z) (m : scan_matcher) : option scan_matcher :=
  let m := if (match_case_need m =? 0)%nat
           then (m <| match_case_need := case_need value |>) <| match_case_bytes := [] |> else m in
  let m := m <| match_case_bytes := match_case_bytes m ++ [value] |> in
  if negb (length (match_case_bytes m) =? match_case_need m)%nat then Some m
  else
    m ← match lql_unicode_utf8_decode_one (match_case_bytes m) with
        | Some rune =>
            match lql_unicode_utf8_encode (lower_rune rune) with
            | Some lower => lql_json_match_icontains_bytes lower m
            | None => Some m
            end
        | None => Some m
        end;
    Some ((m <| match_case_bytes := [] |>) <| match_case_need := 0%nat |>).

(** ** Timestamps *)

Definition lql_json_temporal_range_start (active : Z) (t : scan_temporal) : scan_temporal :=
  mk_temporal_state active 0 [].

Definition lql_json_temporal_range_byte (value : Z) (t : scan_temporal) : scan_temporal :=
  if is_empty (temporal_range_active t) then t
  else if LQL_JSON_NUMBER_MATCH_BYTES <=? Z.of_nat (length (temporal_match t)) + 1 then
    t <| temporal_range_failed := Z.lor (temporal_range_failed t) (temporal_range_active t) |>
  else t <| temporal_match := temporal_match t ++ [value] |>.

Definition lql_json_temporal_range_bytes (data : bytes) (t : scan_temporal) : scan_temporal :=
  if is_empty (temporal_range_active t) || (length data =? 0)%nat then t
  else
    let active := Z.ldiff (temporal_range_active t) (temporal_range_failed t) in
    if is_empty active then t
    else
      let remaining := LQL_JSON_NUMBER_MATCH_BYTES - Z.of_nat (length (temporal_match t)) in
      if remaining <=? Z.of_nat (length data) then
        t <| temporal_range_failed := Z.lor (temporal_range_failed t) active |>
      else t <| temporal_match := temporal_match t ++ data |>.

(** A bound of a temporal term against the value. *)
Definition temporal_bound (bound : option lql_temporal) (ok : lql_temporal -> bool) : bool :=
  match bound with Some b => ok b | None => true end.

(** The C string ends at the first NUL. *)
Definition c_string (text : bytes) : bytes := fst (Prelude.span (fun c => negb (c =? 0)) text).

Definition lql_json_temporal_range_complete (t : scan_temporal) : Z :=
  if is_empty (temporal_range_active t) ||
     (LQL_JSON_NUMBER_MATCH_BYTES <=? Z.of_nat (length (temporal_match t)))
  then 0
  else
    match lql_parse_temporal_literal (c_string (temporal_match t)) with
    | None => 0
    | Some value =>
        mask_of (fun i term =>
          has (temporal_range_active t) i && negb (has (temporal_range_failed t) i) &&
          kind_is term LQL_JSON_FLAT_TERM_TEMPORAL_RANGE &&
          temporal_bound (term_temporal_eq term) (fun b => lql_temporal_equal value b) &&
          temporal_bound (term_temporal_gt term) (fun b => 0 <? lql_temporal_compare value b) &&
          temporal_bound (term_temporal_gte term) (fun b => 0 <=? lql_temporal_compare value b) &&
          temporal_bound (term_temporal_lt term) (fun b => lql_temporal_compare value b <? 0) &&
          temporal_bound (term_temporal_lte term) (fun b => lql_temporal_compare value b <=? 0))
        (flat_terms cfg)
    end.

(** ** Captures *)

Definition lql_json_capture_start (active : Z) (segment : nat) (c : scan_capture) : scan_capture :=
  each (fun i _ c =>
    if has active i then
      (c <| capture_pos := <[i := 0%nat]> (capture_pos c) |>)
        <| capture_segment := <[i := segment]> (capture_segment c) |>
    else c)
  (capture_keys cfg) ((c <| capture_active := active |>) <| capture_failed := 0 |>).

(** The segment a capture key is at, when it has it. *)
Definition capture_target (c : scan_capture) (i : nat) (key : list bytes) : option bytes :=
  key !! nth i (capture_segment c) 0%nat.

Definition lql_json_capture_complete (c : scan_capture) : Z :=
  mask_of (fun i key =>
    has (capture_active c) i && negb (has (capture_failed c) i) &&
    match capture_target c i key with
    | Some target => (nth i (capture_pos c) 0 =? length target)%nat
    | None => false
    end) (capture_keys cfg).

Definition lql_json_capture_array_index (key segment : nat) (index : Z) : bool :=
  match capture_keys cfg !! key with
  | None => false
  | Some segments =>
      match segments !! segment with
      | None | Some [] => false
      | Some text =>
          match size_digits 0 text with Some value => value =? index | None => false end
      end
  end.

Definition capture_byte (value : Z) (c : scan_capture) : scan_capture :=
  each (fun i key c =>
    if negb (has (capture_active c) i) || has (capture_failed c) i then c
    else
      let failed := c <| capture_failed := Z.lor (capture_failed c) (bit i) |> in
      match capture_target c i key with
      | None => failed
      | Some target =>
          let pos := nth i (capture_pos c) 0%nat in
          match target !! pos with
          | Some t =>
              if t =? value then c <| capture_pos := <[i := S pos]> (capture_pos c) |> else failed
          | None => failed
          end
      end)
  (capture_keys cfg) c.

(** ** Matching bytes *)

(** The segment of its path that a term compares with a key. *)
Definition key_target (m : scan_matcher) (term : lql_json_flat_eq_term) (i : nat) : option bytes :=
  let segment := nth i (match_term_segment m) 0%nat in
  if (segment =? 0)%nat then Some (term_field term) else lql_json_term_path_segment term segment.

(** A byte of a key for one term. *)
Definition match_key_byte (value : Z) (i : nat) (term : lql_json_flat_eq_term) (m : scan_matcher)
    : scan_matcher :=
  match key_target m term i with
  | None => fail_term i m
  | Some target =>
      match lql_json_pointer_target_byte target (position m i) with
      | Some (target_byte, advance) =>
          if target_byte =? value
          then m <| match_pos := <[i := (position m i + advance)%nat]> (match_pos m) |>
          else fail_term i m
      | None => fail_term i m
      end
  end.

(** A byte of a value for one term. *)
Definition match_value_byte (value : Z) (i : nat) (term : lql_json_flat_eq_term) (m : scan_matcher)
    : option scan_matcher :=
  let target := term_value term in
  if kind_is term LQL_JSON_FLAT_TERM_CONTAINS then
    if (length target =? 0)%nat then Some (found_term i m)
    else
      match contains_failure term with
      | None => Some (fail_term i m)
      | Some failure =>
          '(pos, found) ← kmp_step target failure value (position m i);
          Some (apply_step i (mk_step pos false found) m)
      end
  else if kind_is term LQL_JSON_FLAT_TERM_PREFIX && (position m i =? length target)%nat then Some m
  else
    match target !! position m i with
    | Some t =>
        if t =? value then Some (m <| match_pos := <[i := S (position m i)]> (match_pos m) |>)
        else Some (fail_term i m)
    | None => Some (fail_term i m)
    end.

Definition match_term_byte (value : Z) (i : nat) (term : lql_json_flat_eq_term) (m : scan_matcher)
    : option scan_matcher :=
  if negb (has (match_active m) i) || has (match_failed m) i then Some m
  else if negb (match_key m) && (kind_is term LQL_JSON_FLAT_TERM_ICONTAINS ||
                                 kind_is term LQL_JSON_FLAT_TERM_IPREFIX) then Some m
  else if match_key m then Some (match_key_byte value i term m)
  else match_value_byte value i term m.

Definition nothing_active (s : lql_json_scan) : bool :=
  is_empty (match_active (matcher s)) && is_empty (capture_active (capture s)) &&
  is_empty (temporal_range_active (timestamp s)).

Definition lql_json_match_byte (value : Z) (s : lql_json_scan) : option lql_json_scan :=
  if nothing_active s then Some s
  else
    let s := on_temporal (lql_json_temporal_range_byte value) s in
    if is_empty (match_active (matcher s)) && is_empty (capture_active (capture s)) then Some s
    else
      m ← (if is_empty (match_active (matcher s)) then Some (matcher s)
           else try_each (match_term_byte value) (flat_terms cfg) (matcher s));
      let s := s <| matcher := m |> in
      let s := if is_empty (capture_active (capture s)) then s
               else on_capture (capture_byte value) s in
      if is_empty (match_icontains (matcher s)) then Some s
      else m ← lql_json_match_icontains_byte value (matcher s); Some (s <| matcher := m |>).

(** [for (...; i < len && go(scan); ++i) lql_json_match_byte(scan, data[i]);] *)
Fixpoint match_bytes_while (go : lql_json_scan -> bool) (data : bytes) (s : lql_json_scan)
    : option lql_json_scan :=
  match data with
  | [] => Some s
  | c :: data => if go s then s ← lql_json_match_byte c s; match_bytes_while go data s else Some s
  end.

(** The state after the span for one term; [None] is the C result 0, with which
    the caller goes byte by byte. *)
Definition lql_json_match_span_term (m : scan_matcher) (term : lql_json_flat_eq_term) (i : nat)
    (data : bytes) : option scan_matcher :=
  if negb (match_key m) && (kind_is term LQL_JSON_FLAT_TERM_CONTAINS ||
                            kind_is term LQL_JSON_FLAT_TERM_ICONTAINS ||
                            kind_is term LQL_JSON_FLAT_TERM_IPREFIX) then None
  else
    match (if match_key m then key_target m term i else Some (term_value term)) with
    | None => Some (fail_term i m)
    | Some target =>
        if match_key m && lql_json_pointer_segment_has_escape target then None
        else
          let pos := position m i in
          let prefix := negb (match_key m) && kind_is term LQL_JSON_FLAT_TERM_PREFIX in
          if prefix && (pos =? length target)%nat then Some m
          else if (length target <? pos)%nat then Some (fail_term i m)
          else
            let remaining := Nat.min (length target - pos) (length data) in
            if negb (bytes_eqb (take remaining (drop pos target)) (take remaining data)) then
              Some (fail_term i m)
            else if negb (remaining =? length data)%nat && negb prefix then Some (fail_term i m)
            else Some (m <| match_pos := <[i := (pos + remaining)%nat]> (match_pos m) |>)
    end.

(** The terms that the span functions for lower-case and for plain contains have
    dealt with: the masks [ascii_icontains] and [ascii_contains]. *)
Definition contains_terms (mask : Z) : Z :=
  mask_of (fun i term => has mask i && kind_is term LQL_JSON_FLAT_TERM_CONTAINS) (flat_terms cfg).

(** The bytes of the span one by one, for all terms, while term [i] is in. *)
Definition match_span_bytes (ascii_icontains : Z) (i : nat) (data : bytes) (s : lql_json_scan)
    : option lql_json_scan :=
  let saved_temporal := temporal_range_active (timestamp s) in
  let saved_icontains := match_icontains (matcher s) in
  let s := on_temporal (fun t => t <| temporal_range_active := 0 |>) s in
  let s := if is_empty ascii_icontains then s
           else on_matcher (fun m => m <| match_icontains := 0 |>) s in
  s ← match_bytes_while (fun s => has (match_active (matcher s)) i &&
                                  negb (has (match_failed (matcher s)) i)) data s;
  let s := on_matcher (fun m => m <| match_icontains := saved_icontains |>) s in
  Some (on_temporal (fun t => t <| temporal_range_active := saved_temporal |>) s).

(** The loop over the terms from index [i] on; [true] when it ran to its end. *)
Fixpoint match_span_terms (ascii_contains ascii_icontains : Z) (i : nat)
    (terms : list lql_json_flat_eq_term) (data : bytes) (s : lql_json_scan)
    : option (bool * lql_json_scan) :=
  match terms with
  | [] => Some (true, s)
  | term :: terms =>
      let m := matcher s in
      if negb (has (match_active m) i) || has (match_failed m) i ||
         (negb (match_key m) && has (match_icontains m) i) ||
         (negb (match_key m) && has ascii_contains i)
      then match_span_terms ascii_contains ascii_icontains (S i) terms data s
      else
        match lql_json_match_span_term m term i data with
        | Some m =>
            match_span_terms ascii_contains ascii_icontains (S i) terms data (s <| matcher := m |>)
        | None => s ← match_span_bytes ascii_icontains i data s; Some (false, s)
        end
  end.

(** The captures of the span, with no term active. *)
Definition capture_span (data : bytes) (s : lql_json_scan) : option lql_json_scan :=
  let saved_active := match_active (matcher s) in
  let saved_icontains := match_icontains (matcher s) in
  let saved_temporal := temporal_range_active (timestamp s) in
  let s := on_matcher (fun m => (m <| match_active := 0 |>) <| match_icontains := 0 |>) s in
  let s := on_temporal (fun t => t <| temporal_range_active := 0 |>) s in
  s ← match_bytes_while (fun s => negb (is_empty (Z.ldiff (capture_active (capture s))
                                                    (capture_failed (capture s))))) data s;
  let s := on_matcher (fun m => (m <| match_active := saved_active |>)
                                  <| match_icontains := saved_icontains |>) s in
  Some (on_temporal (fun t => t <| temporal_range_active := saved_temporal |>) s).

Definition lql_json_match_span (data : bytes) (s : lql_json_scan) : option lql_json_scan :=
  if (length data =? 0)%nat || nothing_active s then Some s
  else
    let s := on_temporal (lql_json_temporal_range_bytes data) s in
    let m := matcher s in
    let ascii_contains :=
      if match_key m then 0
      else contains_terms (Z.ldiff (Z.ldiff (match_active m) (match_icontains m)) (match_failed m)) in
    m ← (if is_empty ascii_contains then Some m
         else lql_json_match_contains_ascii_span ascii_contains data m);
    let ascii_icontains :=
      if match_key m then 0
      else Z.ldiff (Z.land (match_active m) (match_icontains m)) (match_failed m) in
    m ← (if is_empty ascii_icontains then Some m
         else lql_json_match_icontains_ascii_span data m);
    let s := s <| matcher := m |> in
    '(done, s) ← (if is_empty (match_active m) then Some (true, s)
                  else match_span_terms ascii_contains ascii_icontains 0 (flat_terms cfg) data s);
    if negb done || is_empty (capture_active (capture s)) then Some s
    else capture_span data s.

(** ** Which terms matched *)

Definition lql_json_match_complete (m : scan_matcher) : Z :=
  mask_of (fun i term =>
    has (match_active m) i && negb (has (match_failed m) i) &&
    match (if match_key m then key_target m term i else Some (term_value term)) with
    | None => false
    | Some target =>
        let n := length target in
        let value_is kind := negb (match_key m) && kind_is term kind in
        (value_is LQL_JSON_FLAT_TERM_CONTAINS || value_is LQL_JSON_FLAT_TERM_ICONTAINS) &&
          has (match_contains m) i ||
        negb (value_is LQL_JSON_FLAT_TERM_PREFIX) && (position m i =? n)%nat ||
        value_is LQL_JSON_FLAT_TERM_PREFIX && (n <=? position m i)%nat ||
        value_is LQL_JSON_FLAT_TERM_IPREFIX && (n <=? position m i)%nat
    end) (flat_terms cfg).

(** The terms of [keys] of one kind whose path ends at the segment they are at. *)
Definition terms_at (segments : list nat) (keys : Z) (kind : lql_json_flat_eq_term -> bool) : Z :=
  mask_of (fun i term =>
    has keys i && lql_json_term_value_at term (nth i segments 0%nat) && kind term) (flat_terms cfg).

Definition lql_json_match_exists (m : scan_matcher) (keys : Z) : Z :=
  terms_at (key_term_segment m) keys (fun t => kind_is t LQL_JSON_FLAT_TERM_EXISTS).

Definition lql_json_match_valueless_present (m : scan_matcher) (keys : Z) : Z :=
  let keys := Z.land keys (flat_eq_valueless_present_terms cfg) in
  if is_empty keys then 0
  else terms_at (key_term_segment m) keys
         (fun t => kind_is t LQL_JSON_FLAT_TERM_VALUELESS_PRESENT).

Definition lql_json_match_terms_for_kind (m : scan_matcher) (keys : Z)
    (kind : lql_json_flat_term_kind) : Z :=
  terms_at (key_term_segment m) keys (fun t => kind_is t kind).

Definition textual (t : lql_json_flat_eq_term) : bool :=
  kind_is t LQL_JSON_FLAT_TERM_PREFIX || kind_is t LQL_JSON_FLAT_TERM_CONTAINS ||
  kind_is t LQL_JSON_FLAT_TERM_ICONTAINS || kind_is t LQL_JSON_FLAT_TERM_IPREFIX.

Definition lql_json_match_textual_value_terms (keys : Z) (segments : list nat) : Z :=
  terms_at segments keys textual.

Definition lql_json_scalar_literal_hits (terms : Z) (literal : bytes) : Z :=
  mask_of (fun i term => has terms i && bytes_eqb (term_value term) literal) (flat_terms cfg).

Definition lql_json_match_descendants (m : scan_matcher) (keys : Z) : Z :=
  mask_of (fun i term =>
    let segment := nth i (key_term_segment m) 0%nat in
    has keys i &&
    negb (lql_json_term_value_at term segment &&
          negb (lql_json_term_terminal_recursive_anchor term segment)) &&
    bool_decide (is_Some (lql_json_term_path_segment term (S segment)))) (flat_terms cfg).

(** [segment >= 64 || (mask & (1ul << segment)) == 0], and its negation. *)
Definition segment_in (segments : Z) (segment : nat) : bool :=
  (segment <? LQL_JSON_PATH_SEGMENT_CAPACITY)%nat && has segments segment.

Definition wildcard_segments (term : lql_json_flat_eq_term) : Z :=
  Z.lor (Z.lor (Z.lor (path_object_wildcards term) (path_array_wildcards term))
           (path_any_wildcards term)) (path_recursive_segments term).

Definition lql_json_match_object_terms (m : scan_matcher) (active : Z) (path_segment : nat) : Z :=
  mask_of (fun i term =>
    let segment := lql_json_active_path_segment m term i path_segment path_segment in
    has active i && negb (segment_in (wildcard_segments term) segment)) (flat_terms cfg).

(** The terms with a recursive segment here; their slots are set. *)
Definition lql_json_match_recursive_terms (active : Z) (path_segment : nat) (m : scan_matcher)
    : Z * scan_matcher :=
  if (LQL_JSON_PATH_SEGMENT_CAPACITY <=? path_segment)%nat then (0, m)
  else
    let here i term := has active i && has (path_recursive_segments term) path_segment in
    (mask_of here (flat_terms cfg),
     each (fun i term m =>
       if here i term then
         m <| recursive_term_segment :=
           write_slot (recursive_term_segment m) path_segment i (S path_segment) |>
       else m) (flat_terms cfg) m).

Definition lql_json_leading_recursive_terms : Z := flat_eq_leading_recursive_terms cfg.

Definition lql_json_match_terminal_recursive_terms (active : Z) (path_segment : nat)
    (m : scan_matcher) : Z * scan_matcher :=
  let active := Z.land active (flat_eq_terminal_recursive_terms cfg) in
  if is_empty active then (0, m)
  else choose (fun i term =>
    if has active i &&
       existsb (fun segment => terminal_recursive_segment term segment && (segment <=? path_segment)%nat)
         all_segments
    then Some (Some path_segment) else None) (flat_terms cfg) m.

(** [key_term_segment[i] = match_term_segment[i]] for the terms of a mask. *)
Definition key_segments_from_match (mask : Z) (m : scan_matcher) : scan_matcher :=
  each (fun i _ m =>
    if has mask i then
      m <| key_term_segment := <[i := nth i (match_term_segment m) 0%nat]> (key_term_segment m) |>
    else m) (flat_terms cfg) m.

Definition lql_json_match_root_terminal_recursive_exists (m : scan_matcher) : Z * scan_matcher :=
  let '(matches, m) :=
    lql_json_match_terminal_recursive_terms
      (flat_eq_terminal_recursive_root_exists_terms cfg) 0 m in
  let m := key_segments_from_match matches m in
  (Z.lor (lql_json_match_exists m matches) (lql_json_match_valueless_present m matches), m).

Definition lql_json_match_terminal_recursive_anchor_terms (active : Z) (path_segment : nat)
    (m : scan_matcher) : Z * scan_matcher :=
  choose (fun i term =>
    let r := path_recursive_segments term in
    if has active i && negb (is_empty (Z.land r ((r - 1) mod WORD))) &&
       lql_json_term_terminal_recursive_anchor term path_segment
    then Some (Some path_segment) else None) (flat_terms cfg) m.

Definition lql_json_match_object_wildcards (active : Z) (path_segment : nat) (m : scan_matcher)
    : Z * scan_matcher :=
  if (LQL_JSON_PATH_SEGMENT_CAPACITY <=? path_segment)%nat then (0, m)
  else choose (fun i term =>
    let segment := lql_json_active_path_segment m term i path_segment path_segment in
    if has active i && segment_in (object_wildcard_segments term) segment
    then Some (Some segment) else None) (flat_terms cfg) m.

Definition array_wildcard_segments (term : lql_json_flat_eq_term) : Z :=
  Z.lor (path_array_wildcards term) (path_any_wildcards term).

(** Segment [segment] of the path is the index [index]. *)
Definition array_index_is (term : lql_json_flat_eq_term) (segment : nat) (index : Z) : bool :=
  segment_in (path_array_segments term) segment &&
  match lql_json_term_array_index term segment with
  | Some expected => expected =? index
  | None => false
  end.

Definition lql_json_match_array_index (active : Z) (path_segment : nat) (index : Z)
    (m : scan_matcher) : Z * scan_matcher :=
  choose (fun i term =>
    let segment := lql_json_active_path_segment m term i path_segment path_segment in
    if has active i &&
       (segment_in (array_wildcard_segments term) segment || array_index_is term segment index)
    then Some (Some segment) else None) (flat_terms cfg) m.

(** The part the two functions below share: [f] decides at the segment after the
    recursive one. *)
Definition recursive_choice (recursive_terms : Z) (here : nat) (m : scan_matcher)
    (f : lql_json_flat_eq_term -> nat -> option (option nat)) : Z * scan_matcher :=
  choose (fun i term =>
    if has recursive_terms i then
      match lql_json_active_recursive_segment m term i here with
      | None => None
      | Some recursive_segment =>
          let segment := lql_json_next_recursive_path_segment term recursive_segment in
          if (path_segment_count term <=? segment)%nat && (recursive_segment <=? here)%nat
          then Some None
          else f term (lql_json_active_path_segment m term i here segment)
      end
    else None) (flat_terms cfg) m.

Definition lql_json_match_recursive_object_wildcards (recursive_terms : Z) (object_depth : nat)
    (m : scan_matcher) : Z * scan_matcher :=
  recursive_choice recursive_terms object_depth m (fun term segment =>
    if segment_in (Z.lor (object_wildcard_segments term) (path_recursive_segments term)) segment
    then Some (Some segment) else None).

Definition lql_json_match_recursive_array_terms (recursive_terms : Z) (array_segment : nat)
    (index : Z) (m : scan_matcher) : Z * scan_matcher :=
  recursive_choice recursive_terms array_segment m (fun term segment =>
    if segment_in (Z.lor (array_wildcard_segments term) (path_recursive_segments term)) segment
    then Some (Some segment)
    else if array_index_is term segment index then
      if segment_in (object_wildcard_segments term) (S segment) then None
      else Some (Some segment)
    else None).

(** The UTF-8 bytes of a code point, matched one by one. *)
Definition unicode_bytes (value : Z) : bytes :=
  if value <=? 0x7f then [value]
  else if value <=? 0x7ff then
    [Z.lor 0xc0 (Z.shiftr value 6); Z.lor 0x80 (Z.land value 0x3f)]
  else if value <=? 0xffff then
    [Z.lor 0xe0 (Z.shiftr value 12); Z.lor 0x80 (Z.land (Z.shiftr value 6) 0x3f);
     Z.lor 0x80 (Z.land value 0x3f)]
  else
    [Z.lor 0xf0 (Z.shiftr value 18); Z.lor 0x80 (Z.land (Z.shiftr value 12) 0x3f);
     Z.lor 0x80 (Z.land (Z.shiftr value 6) 0x3f); Z.lor 0x80 (Z.land value 0x3f)].

Definition lql_json_match_unicode (value : Z) (s : lql_json_scan) : option lql_json_scan :=
  match_bytes_while (fun _ => true) (unicode_bytes value) s.

(** ** Keys that lie in the buffer *)

(** The masks and segments of [lql_json_try_plain_key_match]. *)
Record key_match := mk_key_match {
  km_matches : Z;
  km_ordinary : Z;
  km_recursive : Z;
  km_ordinary_segments : list nat;
  km_recursive_segments : list nat
}.

#[export] Instance eta_key_match : Eta key_match := fun r =>
  mk_key_match (km_matches r) (km_ordinary r) (km_recursive r) (km_ordinary_segments r)
    (km_recursive_segments r).

Definition set_match_segment (i segment : nat) (m : scan_matcher) : scan_matcher :=
  m <| match_term_segment := <[i := segment]> (match_term_segment m) |>.

(** Term [i] matches as an ordinary term at [segment]. *)
Definition ordinary_match (i segment : nat) (r : key_match * scan_matcher)
    : key_match * scan_matcher :=
  let '(k, m) := r in
  (k <| km_ordinary_segments := <[i := segment]> (km_ordinary_segments k) |>
     <| km_ordinary := Z.lor (km_ordinary k) (bit i) |>
     <| km_matches := Z.lor (km_matches k) (bit i) |>,
   set_match_segment i segment m).

(** Term [i] matches below its recursive segment, at [segment]. *)
Definition recursive_match (i segment : nat) (r : key_match * scan_matcher)
    : key_match * scan_matcher :=
  let '(k, m) := r in
  let m := if has (km_matches k) i then m else set_match_segment i segment m in
  (k <| km_recursive_segments := <[i := segment]> (km_recursive_segments k) |>
     <| km_recursive := Z.lor (km_recursive k) (bit i) |>
     <| km_matches := Z.lor (km_matches k) (bit i) |>, m).

(** The end of a round, reached by the terms that did not [continue]. *)
Definition plain_key_fallback (key : bytes) (i segment : nat) (term : lql_json_flat_eq_term)
    (r : key_match * scan_matcher) : key_match * scan_matcher :=
  if lql_json_term_segment_matches_object_key term segment key then ordinary_match i segment r
  else r.

(** A round of the general loop. *)
Definition plain_key_term (ordinary_terms recursive_terms : Z) (object_depth : nat) (key : bytes)
    (i : nat) (term : lql_json_flat_eq_term) (r : key_match * scan_matcher)
    : key_match * scan_matcher :=
  if negb (has (Z.lor ordinary_terms recursive_terms) i) then r
  else
    let r :=
      if has ordinary_terms i then
        plain_key_fallback key i
          (lql_json_active_path_segment (snd r) term i object_depth object_depth) term r
      else r in
    if has recursive_terms i then
      match lql_json_active_recursive_segment (snd r) term i object_depth with
      | None => r
      | Some recursive_segment =>
          let recursive_next := lql_json_next_recursive_path_segment term recursive_segment in
          if (path_segment_count term <=? recursive_next)%nat &&
             (recursive_segment <=? object_depth)%nat
          then recursive_match i object_depth r
          else if lql_json_term_segment_matches_object_key term recursive_next key
          then recursive_match i recursive_next r
          else
            let segment :=
              lql_json_active_path_segment (snd r) term i object_depth recursive_next in
            if (segment =? recursive_next)%nat then r
            else plain_key_fallback key i segment term r
      end
    else plain_key_fallback key i object_depth term r.

(** A round at the root without recursive terms. *)
Definition plain_key_root_term (active : Z) (key : bytes) (i : nat) (term : lql_json_flat_eq_term)
    (r : key_match * scan_matcher) : key_match * scan_matcher :=
  if has active i &&
     lql_json_plain_segment_equal (term_field term) (field_plain term) key
  then ordinary_match i 0 r else r.

(** The key when it is plain and lies in the buffer up to its closing quote. *)
Definition plain_key (data : bytes) : option bytes :=
  match data with
  | c :: rest =>
      if c =? ch_quote then
        let n := lql_json_plain_key_span rest in
        match rest !! n with
        | Some e => if e =? ch_quote then Some (take n rest) else None
        | None => None
        end
      else None
  | [] => None
  end.

Definition lql_json_try_plain_key_match (ordinary_terms recursive_terms : Z) (object_depth : nat)
    (ordinary_segments recursive_segments : list nat) (s : lql_json_scan)
    : option (key_match * lql_json_scan) :=
  key ← plain_key (buffer (input s));
  let round :=
    if is_empty recursive_terms && (object_depth =? 0)%nat
    then plain_key_root_term (Z.lor ordinary_terms recursive_terms) key
    else plain_key_term ordinary_terms recursive_terms object_depth key in
  let '(k, m) := each round (flat_terms cfg)
                   (mk_key_match 0 0 0 ordinary_segments recursive_segments, matcher s) in
  Some (k, (s <| matcher := m |>)
             <| input := (input s) <| buffer := drop (length key + 2) (buffer (input s)) |> |>).

(** ** Recursive segments carried into a container *)

(** What [lql_json_carry_recursive_segments] stores in the child's path slot. *)
Definition child_path (matched_terms : Z) (i : nat) (term : lql_json_flat_eq_term)
    (m : scan_matcher) : nat :=
  let key_segment := nth i (key_term_segment m) 0%nat in
  if has matched_terms i && (S key_segment <? path_segment_count term)%nat
  then (key_segment + 2)%nat else 0%nat.

(** What it stores in the child's term slot. *)
Definition child_segment (matched_terms : Z) (parent_depth i : nat) (term : lql_json_flat_eq_term)
    (m : scan_matcher) : nat :=
  let key_segment := nth i (key_term_segment m) 0%nat in
  if has matched_terms i && segment_in (path_recursive_segments term) key_segment
  then S key_segment
  else
    match slot_segment (read_slot (recursive_term_segment m) parent_depth i) with
    | Some parent => S parent
    | None =>
        match lql_json_term_recursive_segment term with
        | Some segment => S segment
        | None => 0%nat
        end
    end.

Definition carry_term (parent_depth child_depth : nat) (recursive_terms matched_terms : Z) (i : nat)
    (term : lql_json_flat_eq_term) (m : scan_matcher) : scan_matcher :=
  match read_slot (recursive_term_segment m) child_depth i with
  | None => m
  | Some _ =>
      let set_slots term_value path_value :=
        (m <| recursive_term_segment :=
           write_slot (recursive_term_segment m) child_depth i term_value |>)
          <| recursive_path_segment :=
               write_slot (recursive_path_segment m) child_depth i path_value |> in
      if negb (has recursive_terms i) then set_slots 0%nat 0%nat
      else set_slots (child_segment matched_terms parent_depth i term m)
             (child_path matched_terms i term m)
  end.

Definition lql_json_carry_recursive_segments (parent_depth child_depth : nat)
    (recursive_terms matched_terms : Z) (m : scan_matcher) : scan_matcher :=
  if (LQL_JSON_MAX_DEPTH <=? parent_depth)%nat || (LQL_JSON_MAX_DEPTH <=? child_depth)%nat then m
  else each (carry_term parent_depth child_depth recursive_terms matched_terms) (flat_terms cfg) m.

End config.
