(* ===== verification/JsonScan.v ===== *)
(** * The streaming scanner (src/lql_json_scan.c)

    The number token with its comparisons, then the scanner itself: strings,
    objects, arrays, scalars and records, and the loop of
    [lql_json_scan_flat_eq_ndjson].  Number conversion to double is a parameter. *)

From S2P Require Import Prelude.
From S2P Require Import Number.
From S2P Require Import Temporal.
From S2P Require Import Errors.
From S2P Require Import JsonSpool.
From S2P Require Import ScanTerm.
From S2P Require Import ScanNumber.
From S2P Require Import ScanState.
From S2P Require Import ScanInput.
From S2P Require Import ScanMatch.

Definition on_number (f : scan_number -> scan_number) (s : lql_json_scan) : lql_json_scan :=
  s <| number := f (number s) |>.

Section config.
Context (cfg : scan_config).
(** [lql_number_parse_json] as a double. *)
Context (parse_double : bytes -> option spec_float).

(** ** Number tokens *)

Definition bound_text_of (b : option term_bound) : option bytes := b ← b; bound_text b.

(** The literals of a term, each with its track. *)
Definition track_term (e : emission) (term : lql_json_flat_eq_term) (t : term_tracks)
    : term_tracks :=
  if kind_is term LQL_JSON_FLAT_TERM_NUMBER_EQ then
    t <| track_eq := track_digit (Some (term_value term)) e (track_eq t) |>
  else if kind_is term LQL_JSON_FLAT_TERM_NUMBER_RANGE then
    mk_tracks (track_eq t)
      (track_digit (bound_text_of (term_range_gt term)) e (track_gt t))
      (track_digit (bound_text_of (term_range_gte term)) e (track_gte t))
      (track_digit (bound_text_of (term_range_lt term)) e (track_lt t))
      (track_digit (bound_text_of (term_range_lte term)) e (track_lte t))
  else t.

Definition tracks_at (n : scan_number) (i : nat) : term_tracks :=
  default tracks_start (number_tracks n !! i).

(** [lql_json_number_track_coeff_digit], [lql_json_number_track_exponent_digit] *)
Definition lql_json_number_track_summary_digit (e : emission) (n : scan_number) : scan_number :=
  if is_empty (number_range_active n) then n
  else each (fun i term n =>
    if has (number_range_active n) i then
      n <| number_tracks := <[i := track_term e term (tracks_at n i)]> (number_tracks n) |>
    else n) (flat_terms cfg) n.

Definition text_len (t : option bytes) : Z := match t with Some t => len t | None => 0 end.

(** The length of the longest literal of a term. *)
Definition literal_len (term : lql_json_flat_eq_term) : Z :=
  if kind_is term LQL_JSON_FLAT_TERM_NUMBER_EQ then len (term_value term)
  else if kind_is term LQL_JSON_FLAT_TERM_NUMBER_RANGE then
    Z.max (text_len (bound_text_of (term_range_gt term)))
      (Z.max (text_len (bound_text_of (term_range_gte term)))
         (Z.max (text_len (bound_text_of (term_range_lt term)))
            (text_len (bound_text_of (term_range_lte term)))))
  else 0.

Definition match_limit (active : Z) : Z :=
  let limit := each (fun i term limit =>
    if has active i then Z.max limit (literal_len term) else limit) (flat_terms cfg) 0 in
  Z.min (Z.max (limit + 64) LQL_JSON_NUMBER_MATCH_BYTES) LQL_JSON_NUMBER_MATCH_HEAP_LIMIT.

Definition lql_json_number_range_start (active : Z) (n : scan_number) : scan_number :=
  let n := n <| number_range_active := active |> in
  if is_empty active then
    n <| number_match := [] |> <| number_token_len := 0 |> <| number_match_error := false |>
      <| number_match_overflow := false |> <| number_summary_active := false |>
  else
    let n := if number_match_cap n =? 0
             then n <| number_match_cap := LQL_JSON_NUMBER_MATCH_BYTES |> else n in
    let n := each (fun i _ n =>
      if has active i then n <| number_tracks := <[i := tracks_start]> (number_tracks n) |> else n)
      (flat_terms cfg) n in
    n <| number_match_limit := match_limit active |> <| number_match := [] |>
      <| number_token_len := 0 |> <| number_match_error := false |>
      <| number_match_overflow := false |> <| number_unsigned := 0 |>
      <| number_unsigned_ready := true |> <| number_unsigned_overflow := false |>
      <| number_summary_active := false |> <| number_summary := lql_json_number_summary_start |>.

(** A byte of the token in the summary, tracked when it is a digit that counts. *)
Definition summary_step (value : Z) (n : scan_number) : scan_number :=
  let '(summary, emitted) := lql_json_number_summary_byte (number_summary n) value in
  let n := n <| number_summary := summary |> in
  match emitted with
  | Some e => lql_json_number_track_summary_digit e n
  | None => n
  end.

(** The value of the token while it is an unsigned integer. *)
Definition unsigned_step (value : Z) (n : scan_number) : scan_number :=
  if number_unsigned_ready n then
    if is_digit value then
      let digit := value - ch_0 in
      if (ULONG_MAX - digit) / 10 <? number_unsigned n
      then n <| number_unsigned_overflow := true |>
      else if negb (number_unsigned_overflow n)
      then n <| number_unsigned := number_unsigned n * 10 + digit |> else n
    else n <| number_unsigned_ready := false |>
  else n.

(** The next capacity of the match buffer. *)
Definition next_capacity (n : scan_number) : Z :=
  let length := len (number_match n) in
  let cap := number_match_cap n * 2 in
  let cap := if (cap <=? number_match_cap n) || (number_match_limit n <? cap)
             then number_match_limit n else cap in
  if cap <=? length + 1 then length + 2 else cap.

Definition lql_json_number_range_byte (value : Z) : Scan unit :=
  inactive ← gets (fun s => is_empty (number_range_active (number s)));
  if (inactive : bool) then mret tt
  else
    modify (on_number (fun n =>
      unsigned_step value (n <| number_token_len := number_token_len n + 1 |>))) ;;
    n ← gets number;
    if number_match_overflow n then
      if number_summary_active n then modify (on_number (summary_step value)) else mret tt
    else if number_match_cap n <=? len (number_match n) + 1 then
      if number_match_limit n <=? len (number_match n) + 1 then
        modify (on_number (fun n =>
          let n := n <| number_summary := lql_json_number_summary_start |> in
          let n := fold_left (fun n c => summary_step c n) (number_match n) n in
          (summary_step value n) <| number_summary_active := true |>
                                 <| number_match_overflow := true |>))
      else
        modify (on_number (fun n => n <| reallocs := tail (reallocs n) |>)) ;;
        if default true (head (reallocs n)) then
          modify (on_number (fun n =>
            n <| number_match_cap := next_capacity n |>
              <| number_match := number_match n ++ [value] |>))
        else
          modify (on_number (fun n => n <| number_match_error := true |>)) ;;
          modify (fun s => json_error s "out of memory") ;;
          stop LQL_STATUS_NO_MEMORY
    else modify (on_number (fun n => n <| number_match := number_match n ++ [value] |>)).

(** The exact comparison may allocate twice. *)
Definition compare_alloc (n : scan_number) (k : nat) (_ : Z) : bool := nth k (reallocs n) true.

Definition lql_json_number_compare_current (n : scan_number) (t : track) (right : bytes)
    : option Z :=
  if number_match_overflow n then
    lql_json_number_overflow_integer_cmp (number_summary n) (coeff_cmp t) (exp_cmp t) right
  else
    let slow :=
      match lql_json_compare_unsigned_integer_tokens (number_match n) right with
      | Some cmp => Some cmp
      | None =>
          match lql_json_compare_plain_integers (number_match n) right with
          | Some cmp => Some cmp
          | None => lql_number_compare_json (compare_alloc n) (number_match n) right
          end
      end in
    if number_unsigned_ready n && negb (number_unsigned_overflow n) then
      match lql_json_parse_unsigned_integer_token right with
      | Some right_unsigned => Some (three_way (number_unsigned n) right_unsigned)
      | None => slow
      end
    else slow.

(** The comparison as a step: it uses up its allocations. *)
Definition compare_current (t : track) (right : bytes) : Scan (option Z) :=
  n ← gets number;
  modify (on_number (fun n => n <| reallocs := drop 2 (reallocs n) |>)) ;;
  mret (lql_json_number_compare_current n t right).

(** What happens when it fails: [false] to go on with the next term. *)
Definition compare_failed : Scan bool :=
  overflow ← gets (fun s => number_match_overflow (number s));
  if (overflow : bool) then mret false
  else
    modify (on_input (fun i => i <| scan_error :=
      lql_set_error LQL_STATUS_NO_MEMORY (Some (bs "unable to compare JSON numbers")) |>)) ;;
    stop LQL_STATUS_NO_MEMORY.

(** One bound of a range: [pass] on the comparison of the number with it, [reject]
    on doubles when the bound has no text. *)
Definition range_bound (b : option term_bound) (t : track) (pass : Z -> bool)
    (reject : spec_float -> spec_float -> bool) : Scan bool :=
  match b with
  | None => mret true
  | Some b =>
      n ← gets number;
      match bound_unsigned b, bound_text b with
      | Some u, _ =>
          if number_unsigned_ready n && negb (number_unsigned_overflow n) then
            mret (pass (three_way (number_unsigned n) u))
          else
            match bound_text b with
            | Some text =>
                r ← compare_current t text;
                match r with Some cmp => mret (pass cmp) | None => compare_failed end
            | None => mret match parse_double (number_match n) with
                           | Some v => negb (reject v (bound_double b)) | None => false end
            end
      | None, Some text =>
          r ← compare_current t text;
          match r with Some cmp => mret (pass cmp) | None => compare_failed end
      | None, None => mret match parse_double (number_match n) with
                           | Some v => negb (reject v (bound_double b)) | None => false end
      end
  end.

(** The bounds of a term in turn, as long as they hold. *)
Definition range_term (term : lql_json_flat_eq_term) (t : term_tracks) : Scan bool :=
  gt ← range_bound (term_range_gt term) (track_gt t) (fun c => 0 <? c) SFleb;
  if negb gt then mret false
  else
    gte ← range_bound (term_range_gte term) (track_gte t) (fun c => 0 <=? c) SFltb;
    if negb gte then mret false
    else
      lt ← range_bound (term_range_lt term) (track_lt t) (fun c => c <? 0) (fun v b => SFleb b v);
      if negb lt then mret false
      else range_bound (term_range_lte term) (track_lte t) (fun c => c <=? 0) (fun v b => SFltb b v).

(** The loop over the terms of [mask] of one kind: the ones that [test] accepts. *)
Fixpoint number_hits (i : nat) (mask : Z) (kind : lql_json_flat_term_kind)
    (test : lql_json_flat_eq_term -> term_tracks -> Scan bool)
    (terms : list lql_json_flat_eq_term) (hits : Z) : Scan Z :=
  match terms with
  | [] => mret hits
  | term :: terms =>
      if has mask i && kind_is term kind then
        n ← gets number;
        hit ← test term (tracks_at n i);
        number_hits (S i) mask kind test terms (if (hit : bool) then Z.lor hits (bit i) else hits)
      else number_hits (S i) mask kind test terms hits
  end.

Definition lql_json_number_range_complete : Scan Z :=
  n ← gets number;
  if is_empty (number_range_active n) then mret 0
  else if number_match_error n then stop LQL_STATUS_NO_MEMORY
  else number_hits 0 (number_range_active n) LQL_JSON_FLAT_TERM_NUMBER_RANGE range_term
         (flat_terms cfg) 0.

Definition eq_term (term : lql_json_flat_eq_term) (t : term_tracks) : Scan bool :=
  r ← compare_current (track_eq t) (term_value term);
  match r with Some cmp => mret (cmp =? 0) | None => compare_failed end.

Definition lql_json_number_eq_complete (terms : Z) : Scan Z :=
  n ← gets number;
  if number_match_error n then stop LQL_STATUS_NO_MEMORY
  else if is_empty terms then mret 0
  else number_hits 0 terms LQL_JSON_FLAT_TERM_NUMBER_EQ eq_term (flat_terms cfg) 0.

(** ** Strings *)

(** Some term, capture or timestamp still wants the bytes. *)
Definition bytes_wanted (s : lql_json_scan) : bool :=
  negb (is_empty (Z.ldiff (match_active (matcher s)) (match_failed (matcher s)))) ||
  negb (is_empty (Z.ldiff (capture_active (capture s)) (capture_failed (capture s)))) ||
  negb (is_empty (Z.ldiff (temporal_range_active (timestamp s)) (temporal_range_failed (timestamp s)))).

Definition match_byte (value : Z) : Scan unit := run (lql_json_match_byte cfg value).
Definition match_unicode (value : Z) : Scan unit := run (lql_json_match_unicode cfg value).

Definition match_plain_span (data : bytes) : Scan unit :=
  wanted ← gets bytes_wanted;
  if (wanted : bool) then run (lql_json_match_span cfg data) else mret tt.

Fixpoint string_continuations (remaining : nat) (low high : Z) : Scan unit :=
  match remaining with
  | O => mret tt
  | S remaining =>
      next ← take_continuation low high;
      lql_json_copy_byte cfg next ;;
      match_byte next ;;
      string_continuations remaining 0x80 0xbf
  end.

(** What a two-character escape stands for. *)
Definition escaped_byte (next : Z) : Z :=
  if next =? 98 then 8 else if next =? ch_f then 12 else if next =? 110 then 10
  else if next =? 114 then 13 else if next =? 116 then 9 else next.

Definition string_unicode_escape : Scan unit :=
  lql_json_copy_byte cfg 117 ;;
  '(unicode, raw) ← lql_json_take_hex4;
  lql_json_write cfg raw ;;
  if is_low_surrogate unicode then lql_json_error "unpaired low surrogate in JSON string"
  else if negb (is_high_surrogate unicode) then match_unicode unicode
  else
    lql_json_take_expected ch_backslash ;;
    lql_json_copy_byte cfg ch_backslash ;;
    lql_json_take_expected 117 ;;
    lql_json_copy_byte cfg 117 ;;
    '(low, low_raw) ← lql_json_take_hex4;
    lql_json_write cfg low_raw ;;
    if negb (is_low_surrogate low) then lql_json_error "unpaired high surrogate in JSON string"
    else match_unicode (0x10000 + Z.shiftl (unicode - 0xd800) 10 + (low - 0xdc00)).

Fixpoint string_loop (fuel : nat) : Scan unit :=
  match fuel with
  | O => defined None
  | S fuel =>
      lql_json_refill ;;
      data ← gets (fun s => buffer (input s));
      match data with
      | [] => lql_json_error "unterminated JSON string"
      | value :: _ =>
          let span_len := lql_json_plain_ascii_span data in
          if negb (span_len =? 0)%nat then
            advance_by span_len ;;
            lql_json_write cfg (take span_len data) ;;
            match_plain_span (take span_len data) ;;
            string_loop fuel
          else
            advance ;;
            if value =? ch_quote then lql_json_copy_byte cfg value
            else if value <? 0x20 then lql_json_error "unescaped control byte in JSON string"
            else if value =? ch_backslash then
              lql_json_copy_byte cfg value ;;
              r ← attempt lql_json_take;
              next ← or_error "unterminated JSON escape" r;
              if simple_escape next then
                match_byte (escaped_byte next) ;;
                lql_json_copy_byte cfg next ;;
                string_loop fuel
              else if negb (next =? 117) then lql_json_error "invalid JSON escape"
              else string_unicode_escape ;; string_loop fuel
            else if value <? 0x80 then
              match_byte value ;;
              lql_json_copy_byte cfg value ;;
              string_loop fuel
            else
              match utf8_lead value with
              | None => lql_json_error "invalid UTF-8 in JSON string"
              | Some (n, low, high) =>
                  lql_json_copy_byte cfg value ;;
                  match_byte value ;;
                  string_continuations n low high ;;
                  string_loop fuel
              end
      end
  end.

Definition lql_json_string : Scan unit :=
  lql_json_take_expected ch_quote ;;
  lql_json_copy_byte cfg ch_quote ;;
  n ← gets remaining; string_loop (S n).

(** ** Literals and numbers *)

Definition lql_json_match_copy_byte (value : Z) : Scan unit :=
  wanted ← gets bytes_wanted;
  (if (wanted : bool) then match_byte value else mret tt) ;;
  lql_json_number_range_byte value ;;
  lql_json_copy_byte cfg value.

Fixpoint lql_json_literal (literal : bytes) : Scan unit :=
  match literal with
  | [] => mret tt
  | c :: literal =>
      lql_json_take_expected c ;; lql_json_match_copy_byte c ;; lql_json_literal literal
  end.

(** The byte under the cursor passed and copied, and the next one. *)
Definition copy_and_peek (c : option Z) : Scan (option Z) :=
  advance ;; lql_json_match_copy_byte (default 0 c) ;; lql_json_peek.

Fixpoint digits_loop (fuel : nat) (c : option Z) : Scan (option Z) :=
  match fuel with
  | O => defined None
  | S fuel =>
      c ← copy_and_peek c;
      if digit_of c then digits_loop fuel c else mret c
  end.

Definition digits (c : option Z) : Scan (option Z) := n ← gets remaining; digits_loop (S n) c.

Definition number_integer : Scan (option Z) :=
  c ← lql_json_peek;
  c ← (if byte_is c ch_minus then copy_and_peek c else mret c);
  if byte_is c ch_0 then copy_and_peek c
  else if digit_of c then digits c
  else lql_json_error "invalid JSON number".

Definition number_fraction (c : option Z) : Scan (option Z) :=
  if byte_is c ch_dot then
    r ← attempt (copy_and_peek c);
    c ← or_error "invalid JSON fraction" r;
    if digit_of c then digits c else lql_json_error "invalid JSON fraction"
  else mret c.

Definition number_exponent (c : option Z) : Scan unit :=
  if byte_is c ch_e || byte_is c ch_E then
    c ← copy_and_peek c;
    c ← (if byte_is c ch_plus || byte_is c ch_minus then copy_and_peek c else mret c);
    if digit_of c then digits c ;; mret tt else lql_json_error "invalid JSON exponent"
  else mret tt.

Definition lql_json_number : Scan unit :=
  c ← number_integer;
  c ← number_fraction c;
  number_exponent c.

(** ** Values of matched paths *)

Definition match_start (active : Z) : Scan unit :=
  modify (on_matcher (lql_json_match_start cfg active false 0)).
Definition temporal_start (active : Z) : Scan unit :=
  modify (on_temporal (lql_json_temporal_range_start active)).
Definition number_start (active : Z) : Scan unit :=
  modify (on_number (lql_json_number_range_start active)).

Definition string_kind (t : lql_json_flat_eq_term) : bool :=
  negb (kind_is t LQL_JSON_FLAT_TERM_TEMPORAL_RANGE) &&
  (kind_is t LQL_JSON_FLAT_TERM_EQ || kind_is t LQL_JSON_FLAT_TERM_TEXT_EQ || textual t).

(** A string for the terms [eq_terms] and [temporal_terms]. *)
Definition matched_string (eq_terms temporal_terms : Z) : Scan unit :=
  match_start eq_terms ;;
  temporal_start temporal_terms ;;
  r ← attempt lql_json_string;
  (match r with
   | inl _ =>
       modify (fun s => add_hits (lql_json_match_complete cfg (matcher s)) s) ;;
       modify (fun s => add_hits (lql_json_temporal_range_complete cfg (timestamp s)) s)
   | inr _ => mret tt
   end) ;;
  temporal_start 0 ;;
  match_start 0 ;;
  finish r.

(** A literal for the terms [textual_terms] and [scalar_terms]. *)
Definition matched_literal (literal : bytes) (textual_terms scalar_terms : Z) : Scan unit :=
  match_start textual_terms ;;
  r ← attempt (lql_json_literal literal);
  (match r with
   | inl _ =>
       modify (add_hits (lql_json_scalar_literal_hits cfg scalar_terms literal)) ;;
       modify (fun s => add_hits (lql_json_match_complete cfg (matcher s)) s)
   | inr _ => mret tt
   end) ;;
  match_start 0 ;;
  finish r.

(** The hits of a number that has been read. *)
Definition number_complete (number_eq_terms : Z) : Scan unit :=
  modify (fun s => add_hits (lql_json_match_complete cfg (matcher s)) s) ;;
  hits ← lql_json_number_range_complete;
  modify (add_hits hits) ;;
  hits ← lql_json_number_eq_complete number_eq_terms;
  modify (add_hits hits).

(** A value other than a string or a literal, read by [value], for numeric terms. *)
Definition matched_number (value : Scan unit) (active range_terms number_eq_terms : Z) : Scan unit :=
  match_start active ;;
  number_start (Z.lor range_terms number_eq_terms) ;;
  r ← attempt value;
  r ← (match r with
       | inl _ => attempt (number_complete number_eq_terms)
       | inr status => mret (inr status)
       end);
  number_start 0 ;;
  match_start 0 ;;
  finish r.

(** The kind and text of a literal by its first byte. *)
Definition scalar_literal (value : option Z) : option (lql_json_flat_term_kind * bytes) :=
  if byte_is value 116 then Some (LQL_JSON_FLAT_TERM_BOOL_EQ, bs "true")
  else if byte_is value ch_f then Some (LQL_JSON_FLAT_TERM_BOOL_EQ, bs "false")
  else if byte_is value 110 then Some (LQL_JSON_FLAT_TERM_NULL_EQ, bs "null")
  else None.

Definition is_container (value : option Z) : bool :=
  byte_is value ch_lbrace || byte_is value ch_lbracket.

(** The terms of [matches] at their segments that [kind] selects. *)
Definition matched_terms (segments : list nat) (matches : Z)
    (kind : lql_json_flat_eq_term -> bool) : Z := terms_at cfg segments matches kind.

Definition lql_json_matched_scalar_value (lql_json_value : Scan unit) (matches : Z)
    (value : option Z) : Scan unit :=
  modify (fun s => add_hits (lql_json_match_valueless_present cfg (matcher s) matches) s) ;;
  (if byte_is value 110 then mret tt
   else modify (fun s => add_hits
     (matched_terms (match_term_segment (matcher s)) matches
        (fun t => kind_is t LQL_JSON_FLAT_TERM_EXISTS)) s)) ;;
  segments ← gets (fun s => match_term_segment (matcher s));
  let terms kind := matched_terms segments matches kind in
  if byte_is value ch_quote then
    let temporal_terms := terms (fun t => kind_is t LQL_JSON_FLAT_TERM_TEMPORAL_RANGE) in
    let eq_terms := terms string_kind in
    if is_empty eq_terms && is_empty temporal_terms then lql_json_string
    else matched_string eq_terms temporal_terms
  else if negb (is_container value) then
    let textual_terms := if byte_is value 110 then 0 else terms textual in
    match scalar_literal value with
    | Some (scalar_kind, literal) =>
        let scalar_terms := terms (fun t => kind_is t scalar_kind) in
        if is_empty scalar_terms && is_empty textual_terms then lql_json_value
        else matched_literal literal textual_terms scalar_terms
    | None =>
        let range_terms := terms (fun t => kind_is t LQL_JSON_FLAT_TERM_NUMBER_RANGE) in
        let number_eq_terms := terms (fun t => kind_is t LQL_JSON_FLAT_TERM_NUMBER_EQ) in
        if is_empty textual_terms && is_empty range_terms && is_empty number_eq_terms
        then lql_json_value
        else matched_number lql_json_value textual_terms range_terms number_eq_terms
    end
  else lql_json_value.

(** ** Objects *)

(** What a key gave: the masks of the matches and of the captures. *)
Record key_result := mk_key_result {
  key_matches : Z;
  ordinary_key_matches : Z;
  recursive_key_matches : Z;
  recursive_key_segments : list nat;
  recursive_terms : Z;
  key_captures : Z
}.

(** [scan->array[depth]] within its bounds. *)
Definition at_depth (array : lql_json_scan -> list Z) (depth : nat) : Scan Z :=
  gets array ≫= fun l => defined (l !! depth).

(** The masks a key starts with: the ordinary terms, the recursive terms and the
    wildcards. *)
Definition key_terms (object_depth : nat) : Scan (Z * Z * Z) :=
  path ← at_depth (fun s => path_active (matcher s)) object_depth;
  inherited ← at_depth (fun s => recursive_active (matcher s)) object_depth;
  on ← gets (fun s => flat_eq_active (matcher s) && negb (lql_json_stop_hit_ready cfg (matcher s)));
  let key_source := if (on : bool) then path else 0 in
  let inherited := if on then inherited else 0 in
  recursive ← (if flat_eq_has_recursive_terms cfg then
                 here ← state (fun s =>
                   let '(mask, m) :=
                     lql_json_match_recursive_terms cfg key_source object_depth (matcher s) in
                   (mask, s <| matcher := m |>));
                 mret (Z.lor inherited (Z.lor here (lql_json_leading_recursive_terms cfg)))
               else mret inherited);
  key_active ← (if flat_eq_has_array_terms cfg
                then gets (fun s => lql_json_match_object_terms cfg (matcher s) key_source object_depth)
                else mret key_source);
  wildcards ← (if flat_eq_has_object_wildcards cfg then
                 state (fun s =>
                   let '(mask, m) :=
                     lql_json_match_object_wildcards cfg key_source object_depth (matcher s) in
                   (mask, s <| matcher := m |>))
               else mret 0);
  mret (key_active, recursive, wildcards).

(** A mask that a matcher function returns with the new matcher. *)
Definition matching (f : scan_matcher -> Z * scan_matcher) : Scan Z :=
  state (fun s => let '(mask, m) := f (matcher s) in (mask, s <| matcher := m |>)).

(** [if (scan->flat_eq_has_repeated_recursive_terms) key_matches |= ...] *)
Definition anchor_terms (active : Z) (segment : nat) : Scan Z :=
  if flat_eq_has_repeated_recursive_terms cfg
  then matching (lql_json_match_terminal_recursive_anchor_terms cfg active segment)
  else mret 0.

(** The key matched while it is read. *)
Definition slow_key (key_active recursive wildcards capture_source : Z) (object_depth : nat)
    : Scan (key_result * (unit + lql_status)) :=
  modify (on_capture (lql_json_capture_start cfg capture_source object_depth)) ;;
  modify (on_matcher (lql_json_match_start_key cfg key_active recursive object_depth)) ;;
  r ← attempt lql_json_string;
  complete ← gets (fun s => lql_json_match_complete cfg (matcher s));
  below ← matching (lql_json_match_recursive_object_wildcards cfg recursive object_depth);
  terminal ← matching (lql_json_match_terminal_recursive_terms cfg recursive object_depth);
  anchors ← anchor_terms key_active object_depth;
  captures ← gets (fun s => lql_json_capture_complete cfg (capture s));
  mret (mk_key_result
          (Z.lor (Z.lor (Z.lor (Z.lor complete wildcards) below) terminal) anchors)
          0 0 [] recursive captures, r).

(** The key matched in the buffer; [None] when it does not lie in it. *)
Definition fast_key (key_active recursive : Z) (object_depth : nat) : Scan (option key_match) :=
  fun s =>
    let zeros := repeat 0%nat (length (flat_terms cfg)) in
    match lql_json_try_plain_key_match cfg key_active recursive object_depth zeros zeros s with
    | Some (k, s) => Some (inl (Some k), s)
    | None => Some (inl None, s)
    end.

(** The key of a member: its matches, and the status of reading it. *)
Definition object_key (object_depth : nat) : Scan (key_result * (unit + lql_status)) :=
  '(key_active, recursive, wildcards) ← key_terms object_depth;
  capture_source ← at_depth (fun s => capture_path_active (capture s)) object_depth;
  fast ← (if negb (writing cfg) && is_empty capture_source
          then fast_key key_active recursive object_depth else mret None);
  match fast with
  | Some k =>
      anchors ← anchor_terms key_active object_depth;
      mret (mk_key_result (Z.lor (Z.lor (km_matches k) wildcards) anchors) (km_ordinary k)
              (km_recursive k) (km_recursive_segments k) recursive 0, inl tt)
  | None => slow_key key_active recursive wildcards capture_source object_depth
  end.

(** A container under a key that matched both ways: the recursive segment is kept
    where the value is not at its end. *)
Definition prefer_recursive (k : key_result) : scan_matcher -> scan_matcher :=
  each (fun i term m =>
    let segment := nth i (recursive_key_segments k) 0%nat in
    if has (Z.land (ordinary_key_matches k) (recursive_key_matches k)) i &&
       negb (lql_json_term_value_at term segment)
    then (m <| key_term_segment := <[i := segment]> (key_term_segment m) |>)
           <| match_term_segment := <[i := segment]> (match_term_segment m) |>
    else m) (flat_terms cfg).

(** A container under a key whose segment is also the one after the recursive
    segment. *)
Definition restart_recursive (k : key_result) (object_depth : nat) : scan_matcher -> scan_matcher :=
  each (fun i term m =>
    if has (Z.land (key_matches k) (recursive_terms k)) i then
      match lql_json_active_recursive_segment cfg m term i object_depth with
      | None => m
      | Some recursive_segment =>
          let next := lql_json_next_recursive_path_segment term recursive_segment in
          let segment := nth i (key_term_segment m) 0%nat in
          if (path_segment_count term <=? next)%nat || (next =? segment)%nat ||
             lql_json_term_value_at term next ||
             negb (lql_json_path_segments_equal term segment next)
          then m
          else (m <| key_term_segment := <[i := next]> (key_term_segment m) |>)
                 <| match_term_segment := <[i := next]> (match_term_segment m) |>
      end
    else m) (flat_terms cfg).

(** The captures that end at a segment and those that go on. *)
Definition captures_at (mask : Z) (segment : nat) : Z * Z :=
  (mask_of (fun i key => has mask i && (length key =? S segment)%nat) (capture_keys cfg),
   mask_of (fun i key => has mask i && negb (length key =? S segment)%nat) (capture_keys cfg)).

(** [array[depth] = value] for the three masks of a depth. *)
Definition set_path_active (d : nat) (v : Z) (s : lql_json_scan) : lql_json_scan :=
  on_matcher (fun m => m <| path_active := <[d := v]> (path_active m) |>) s.
Definition set_recursive_active (d : nat) (v : Z) (s : lql_json_scan) : lql_json_scan :=
  on_matcher (fun m => m <| recursive_active := <[d := v]> (recursive_active m) |>) s.
Definition set_capture_path (d : nat) (v : Z) (s : lql_json_scan) : lql_json_scan :=
  on_capture (fun c => c <| capture_path_active := <[d := v]> (capture_path_active c) |>) s.

(** The same as steps; a depth outside the array is undefined. *)
Definition set_depth (d : nat) (f : lql_json_scan -> lql_json_scan) : Scan unit :=
  if (d <? LQL_JSON_MAX_DEPTH)%nat then modify f else defined None.

(** The masks of the depth below cleared. *)
Definition clear_below (d : nat) : Scan unit :=
  set_depth d (fun s => set_capture_path d 0 (set_recursive_active d 0 (set_path_active d 0 s))).

(** The spans of the captures of [mask] set to the output since [start]. *)
Definition record_captures (mask : Z) (start : Z) (s : lql_json_scan) : lql_json_scan :=
  let stop := lql_json_output_offset cfg s in
  on_capture (fun c => c <| capture_spans :=
    each (fun i _ spans =>
      if has mask i then <[i := mk_span start (stop - start) true]> spans else spans)
      (capture_keys cfg) (capture_spans c) |>) s.

(** The masks of the value of a member set up for the depth below. *)
Definition open_below (k : key_result) (object_depth : nat) (container : bool)
    (descendants capture_descendants : Z) : Scan unit :=
  let below := S object_depth in
  if (below <? LQL_JSON_MAX_DEPTH)%nat then
    modify (set_path_active below (if container then descendants else 0)) ;;
    modify (set_recursive_active below (if container then recursive_terms k else 0)) ;;
    (if container && negb (is_empty (recursive_terms k)) then
       modify (on_matcher (lql_json_carry_recursive_segments cfg object_depth below
                             (recursive_terms k) (key_matches k)))
     else mret tt) ;;
    modify (set_capture_path below (if container then capture_descendants else 0))
  else mret tt.

(** The value of a member whose key matched. *)
Definition matched_member_value (lql_json_value : Scan unit) (k : key_result) (value : option Z)
    : Scan unit :=
  segments ← gets (fun s => key_term_segment (matcher s));
  let terms kind := matched_terms segments (key_matches k) kind in
  if byte_is value ch_quote then
    matched_string (terms string_kind)
      (terms (fun t => kind_is t LQL_JSON_FLAT_TERM_TEMPORAL_RANGE))
  else
    let textual_terms := if byte_is value 110 then 0 else terms textual in
    match scalar_literal value with
    | Some (scalar_kind, literal) =>
        matched_literal literal textual_terms (terms (fun t => kind_is t scalar_kind))
    | None =>
        if byte_is value ch_minus || digit_of value then
          matched_number lql_json_value textual_terms
            (terms (fun t => kind_is t LQL_JSON_FLAT_TERM_NUMBER_RANGE))
            (terms (fun t => kind_is t LQL_JSON_FLAT_TERM_NUMBER_EQ))
        else lql_json_value
    end.

(** The value of a member after its colon, [value] its first byte. *)
Definition member_value (lql_json_value : Scan unit) (object_depth : nat) (k : key_result)
    (exists_terms : Z) (value : option Z) : Scan unit :=
  let container := is_container value in
  (if container && negb (is_empty (Z.land (ordinary_key_matches k) (recursive_key_matches k)))
   then modify (on_matcher (prefer_recursive k)) else mret tt) ;;
  (if container && negb (is_empty (recursive_terms k))
   then modify (on_matcher (restart_recursive k object_depth)) else mret tt) ;;
  (if byte_is value 110 then mret tt else modify (add_hits exists_terms)) ;;
  descendants ← gets (fun s => if is_empty (key_matches k) then 0
                               else lql_json_match_descendants cfg (matcher s) (key_matches k));
  let '(capture_values, capture_descendants) := captures_at (key_captures k) object_depth in
  capture_start ← gets (fun s => if is_empty capture_values then 0 else lql_json_output_offset cfg s);
  open_below k object_depth container descendants capture_descendants ;;
  r ← attempt
        (if negb (is_empty (key_matches k)) then matched_member_value lql_json_value k value
         else if negb (writing cfg) && is_empty descendants && is_empty (recursive_terms k) &&
                 is_empty capture_values && is_empty capture_descendants
         then lql_json_skip_value_fast
         else lql_json_value);
  (match r with
   | inl _ => if is_empty capture_values then mret tt
              else modify (record_captures capture_values capture_start)
   | inr _ => mret tt
   end) ;;
  (if (S object_depth <? LQL_JSON_MAX_DEPTH)%nat then clear_below (S object_depth) else mret tt) ;;
  finish r.

(** A member from its key on. *)
Definition member (lql_json_value : Scan unit) (object_depth : nat) : Scan unit :=
  '(k, r) ← object_key object_depth;
  (if is_empty (key_matches k) then mret tt
   else modify (on_matcher (key_segments_from_match cfg (key_matches k)))) ;;
  exists_terms ← gets (fun s => if is_empty (key_matches k) then 0
                                else lql_json_match_exists cfg (matcher s) (key_matches k));
  (if is_empty (key_matches k) then mret tt
   else modify (fun s => add_hits (lql_json_match_valueless_present cfg (matcher s) (key_matches k)) s)) ;;
  match_start 0 ;;
  finish r ;;
  lql_json_skip_space ;;
  lql_json_take_expected ch_colon ;;
  lql_json_copy_byte cfg ch_colon ;;
  lql_json_skip_space ;;
  value ← lql_json_peek;
  member_value lql_json_value object_depth k exists_terms value.

(** The terms are decided: the rest of the object is only validated. *)
Definition skip_rest (object_depth : nat) : Scan bool :=
  captures ← at_depth (fun s => capture_path_active (capture s)) object_depth;
  ready ← gets (fun s => lql_json_stop_hit_ready cfg (matcher s));
  mret (negb (writing cfg) && (ready : bool) && is_empty captures).

(** ** Arrays *)

(** The terms of element [index]: the mask, the recursive mask. *)
Definition element_terms (active recursive_terms : Z) (array_segment : nat) (index : Z)
    : Scan (Z * Z) :=
  direct ← matching (lql_json_match_array_index cfg active array_segment index);
  direct_segments ← gets (fun s => match_term_segment (matcher s));
  below ← matching (lql_json_match_recursive_array_terms cfg recursive_terms array_segment index);
  terminal ← matching (lql_json_match_terminal_recursive_terms cfg recursive_terms array_segment);
  anchors ← anchor_terms active array_segment;
  let element_active := Z.lor (Z.lor direct (Z.lor below terminal)) anchors in
  let carried := mask_of (fun i term =>
    has element_active i && negb (is_empty (path_recursive_segments term))) (flat_terms cfg) in
  modify (on_matcher (each (fun i _ m =>
    if has element_active i then
      let segment := if has direct i then nth i direct_segments 0%nat
                     else nth i (match_term_segment m) 0%nat in
      (m <| key_term_segment := <[i := segment]> (key_term_segment m) |>)
        <| match_term_segment := <[i := segment]> (match_term_segment m) |>
    else m) (flat_terms cfg))) ;;
  mret (element_active, Z.lor recursive_terms carried).

(** An element; [value] is the byte the C variable still holds: the first byte of
    the first element, and the comma for the others.  The masks are cleared at the
    depth the scanner is at afterwards, which is deeper when a value failed. *)
Definition element (lql_json_value : Scan unit) (active capture_active recursive_terms : Z)
    (array_segment : nat) (index : Z) (value : option Z) : Scan unit :=
  '(element_active, recursive_carry) ← element_terms active recursive_terms array_segment index;
  below ← gets (fun s => depth (input s));
  set_depth below (fun s => set_recursive_active below recursive_carry
                              (set_path_active below element_active s)) ;;
  (if is_container value && negb (is_empty recursive_carry) then
     modify (on_matcher (lql_json_carry_recursive_segments cfg array_segment below recursive_carry
                           element_active))
   else mret tt) ;;
  let here := mask_of (fun i _ =>
    has capture_active i && lql_json_capture_array_index cfg i array_segment index)
    (capture_keys cfg) in
  let '(capture_values, capture_descendants) := captures_at here array_segment in
  capture_start ← gets (fun s => if is_empty capture_values then 0 else lql_json_output_offset cfg s);
  set_depth below (set_capture_path below capture_descendants) ;;
  r ← attempt
        (if is_empty element_active then lql_json_value
         else value ← lql_json_peek; lql_json_matched_scalar_value lql_json_value element_active value);
  (match r with
   | inl _ => if is_empty capture_values then mret tt
              else modify (record_captures capture_values capture_start)
   | inr _ => mret tt
   end) ;;
  below ← gets (fun s => depth (input s));
  clear_below below ;;
  finish r.

(** The masks an array starts with. *)
Definition array_masks (array_segment : nat) : Scan (Z * Z * Z) :=
  active ← at_depth (fun s => path_active (matcher s)) array_segment;
  capture_active ← at_depth (fun s => capture_path_active (capture s)) array_segment;
  here ← matching (lql_json_match_recursive_terms cfg active array_segment);
  inherited ← at_depth (fun s => recursive_active (matcher s)) array_segment;
  (if (S array_segment <? LQL_JSON_MAX_DEPTH)%nat then
     modify (fun s => set_capture_path (S array_segment) 0 (set_path_active (S array_segment) 0 s))
   else mret tt) ;;
  mret (active, capture_active,
        Z.lor (Z.lor here inherited) (lql_json_leading_recursive_terms cfg)).

(** ** Values *)

(** [lql_json_value], [lql_json_object] and its loop from a key on,
    [lql_json_array] and its loop from an element on. *)
Fixpoint lql_json_value (fuel : nat) : Scan unit :=
  match fuel with
  | O => defined None
  | S fuel =>
      c ← lql_json_peek;
      if byte_is c ch_lbrace then
        object_depth ← gets (fun s => depth (input s));
        enter ;;
        lql_json_take_expected ch_lbrace ;;
        lql_json_copy_byte cfg ch_lbrace ;;
        lql_json_skip_space ;;
        c ← lql_json_peek;
        if byte_is c ch_rbrace then
          advance ;; r ← attempt (lql_json_copy_byte cfg ch_rbrace); leave ;; finish r
        else object_loop fuel object_depth c
      else if byte_is c ch_lbracket then
        array_segment ← gets (fun s => depth (input s));
        (if (array_segment =? LQL_JSON_MAX_DEPTH)%nat then
           lql_json_error "JSON nesting exceeds the scanner limit" else mret tt) ;;
        '(active, captures, recursive) ← array_masks array_segment;
        on_depth Nat.succ ;;
        lql_json_take_expected ch_lbracket ;;
        lql_json_copy_byte cfg ch_lbracket ;;
        lql_json_skip_space ;;
        c ← lql_json_peek;
        if byte_is c ch_rbracket then
          advance ;; r ← attempt (lql_json_copy_byte cfg ch_rbracket); leave ;; finish r
        else if (LQL_JSON_MAX_DEPTH <=? S array_segment)%nat then
          modify (fun s => json_error s "JSON nesting exceeds the scanner limit") ;;
          leave ;; stop LQL_STATUS_JSON_ERROR
        else array_loop fuel active captures recursive array_segment 0 c
      else if byte_is c ch_quote then lql_json_string
      else if byte_is c 116 then lql_json_literal (bs "true")
      else if byte_is c ch_f then lql_json_literal (bs "false")
      else if byte_is c 110 then lql_json_literal (bs "null")
      else lql_json_number
  end
with object_loop (fuel : nat) (object_depth : nat) (c : option Z) : Scan unit :=
  match fuel with
  | O => defined None
  | S fuel =>
      if negb (byte_is c ch_quote) then lql_json_error "JSON object key must be a string"
      else
        rest ← skip_rest object_depth;
        (if (rest : bool) then
           lql_json_skip_string_fast ;;
           lql_json_skip_space ;;
           lql_json_take_expected ch_colon ;;
           lql_json_skip_space ;;
           lql_json_skip_value_fast
         else member (lql_json_value fuel) object_depth) ;;
        lql_json_skip_space ;;
        value ← lql_json_take;
        if value =? ch_rbrace then
          r ← attempt (if (rest : bool) then mret tt else lql_json_copy_byte cfg ch_rbrace);
          leave ;; finish r
        else if negb (value =? ch_comma) then
          lql_json_error "JSON object member separator is missing"
        else
          (if (rest : bool) then mret tt else lql_json_copy_byte cfg ch_comma) ;;
          lql_json_skip_space ;;
          c ← lql_json_peek;
          object_loop fuel object_depth c
  end
with array_loop (fuel : nat) (active capture_active recursive_terms : Z) (array_segment : nat)
    (index : Z) (value : option Z) : Scan unit :=
  match fuel with
  | O => defined None
  | S fuel =>
      element (lql_json_value fuel) active capture_active recursive_terms array_segment index value ;;
      lql_json_skip_space ;;
      value ← lql_json_take;
      if value =? ch_rbracket then
        r ← attempt (lql_json_copy_byte cfg ch_rbracket); leave ;; finish r
      else if negb (value =? ch_comma) then lql_json_error "JSON array separator is missing"
      else
        lql_json_copy_byte cfg ch_comma ;;
        lql_json_skip_space ;;
        array_loop fuel active capture_active recursive_terms array_segment (index + 1) (Some value)
  end.

Definition json_value : Scan unit := n ← gets value_fuel; lql_json_value n.

(** ** Records *)

Fixpoint separator_loop (fuel : nat) : Scan (option Z) :=
  match fuel with
  | O => defined None
  | S fuel =>
      c ← lql_json_peek;
      if byte_is c ch_space || byte_is c ch_tab then advance ;; separator_loop fuel else mret c
  end.

Definition lql_json_record_separator : Scan unit :=
  n ← gets remaining;
  c ← separator_loop (S n);
  match c with
  | None => mret tt
  | Some value =>
      if value =? ch_nl then advance
      else if value =? ch_cr then advance ;; lql_json_take_expected ch_nl
      else lql_json_error "NDJSON record separator is missing"
  end.

(** What the record callback is given. *)
Record record_call := mk_record_call {
  record_index : nat;
  root_is_object : bool;
  record_hits : Z;
  record_spool : lql_json_spool;
  record_spans : list lql_json_capture_span;
  source_offset : nat;
  source_len : nat;
  source_compact : bool
}.

(** [count == 64 ? ~0ul : (1ul << count) - 1ul] *)
Definition all_ones (count : nat) : Z :=
  if (count =? LQL_JSON_FLAT_TERM_CAPACITY)%nat then WORD - 1 else bit count - 1.

(** The state at the start of a record. *)
Definition start_record (root_is_object : bool) (s : lql_json_scan) : lql_json_scan :=
  let s := if writing cfg
           then on_output (fun o => o <| out_spool := lql_json_spool_reset (out_spool o) |>) s else s in
  let s := on_input (fun i => (i <| compact_range_active := true |>)
                                <| compact_range_ok := true |>) s in
  let s := on_capture (fun c => c <| capture_spans :=
             repeat (mk_span 0 0 false) (length (capture_keys cfg)) |>) s in
  let s := on_matcher (fun m => (m <| flat_eq_active := root_is_object |>)
                                  <| flat_eq_hits := 0 |>) s in
  let s := set_path_active 0 (all_ones (length (flat_terms cfg))) s in
  let s := set_capture_path 0 (all_ones (length (capture_keys cfg))) s in
  on_matcher (lql_json_match_start cfg 0 false 0) s.

(** The hits of the root value itself. *)
Definition root_hits (root_is_object : bool) : Scan unit :=
  if root_is_object && negb (is_empty (flat_eq_terminal_recursive_root_exists_terms cfg)) then
    hits ← matching (lql_json_match_root_terminal_recursive_exists cfg);
    modify (add_hits hits)
  else mret tt.

(** The next record up to the callback; [None] at the end of the input. *)
Definition next_record (index : nat) : Scan (option record_call) :=
  lql_json_skip_space ;;
  value ← lql_json_peek;
  match value with
  | None => mret None
  | Some value =>
      if value =? ch_lbracket then
        lql_json_error "root JSON arrays are not valid NDJSON records"
      else
        let root_is_object := value =? ch_lbrace in
        record_start ← gets lql_json_consumed;
        modify (start_record root_is_object) ;;
        root_hits root_is_object ;;
        r ← attempt json_value;
        record_end ← gets lql_json_consumed;
        compact ← gets (fun s => compact_range_ok (input s));
        modify (on_input (fun i => i <| compact_range_active := false |>)) ;;
        finish r ;;
        lql_json_record_separator ;;
        lql_json_flush cfg ;;
        cancel ← ask_cancelled;
        if (cancel : bool) then set_cancelled ;; stop LQL_STATUS_STOP
        else
          s ← gets id;
          mret (Some (mk_record_call index root_is_object
                        (if root_is_object then flat_eq_hits (matcher s) else 0)
                        (out_spool (output s)) (capture_spans (capture s)) record_start
                        (record_end - record_start) compact))
  end.

(** ** The stream *)

Context {U : Type}.
(** The record callback. *)
Context (record : record_call -> U -> lql_status * U).
(** The limits, 0 for none, and whether the caller wants to know they stopped it. *)
Context (max_records max_bytes : nat) (out_limit_stop : bool).

(** The end of the loop: the status, the records, whether a limit stopped it. *)
Record scan_end := mk_scan_end {
  end_status : lql_status;
  end_records : nat;
  limit_stop : bool;
  end_user : U;
  end_state : lql_json_scan
}.

(** The loop of [lql_json_scan_flat_eq_ndjson]. *)
Fixpoint ndjson_loop (fuel : nat) (records : nat) (user : U) (s : lql_json_scan)
    : option scan_end :=
  if negb (max_records =? 0)%nat && (max_records <=? records)%nat then
    Some (mk_scan_end (if out_limit_stop then LQL_STATUS_STOP else LQL_STATUS_OK) records
            out_limit_stop user s)
  else
    match fuel with
    | O => None
    | S fuel =>
        match next_record records s with
        | None => None
        | Some (inr status, s) => Some (mk_scan_end status records false user s)
        | Some (inl None, s) => Some (mk_scan_end LQL_STATUS_OK records false user s)
        | Some (inl (Some call), s) =>
            let '(status, user) := record call user in
            if negb (bool_decide (status = LQL_STATUS_OK)) then
              Some (mk_scan_end status (S records) false user s)
            else if negb (max_bytes =? 0)%nat && (max_bytes <=? lql_json_consumed s)%nat then
              Some (mk_scan_end LQL_STATUS_STOP (S records) out_limit_stop user s)
            else ndjson_loop fuel (S records) user s
        end
    end.

End config.

(** ** Setting up a scan *)

(** The flags that [lql_json_scan_flat_eq_ndjson] computes from the terms. *)
Definition any_term (f : lql_json_flat_eq_term -> bool) (terms : list lql_json_flat_eq_term) : bool :=
  existsb f terms.

Definition leading_recursive (t : lql_json_flat_eq_term) : bool := has (path_recursive_segments t) 0.

Definition root_exists (t : lql_json_flat_eq_term) : bool :=
  leading_recursive t &&
  (kind_is t LQL_JSON_FLAT_TERM_EXISTS || kind_is t LQL_JSON_FLAT_TERM_VALUELESS_PRESENT) &&
  (path_segment_count t =? 1)%nat.

Definition terminal_recursive (t : lql_json_flat_eq_term) : bool :=
  negb (is_empty (path_recursive_segments t)) && negb (path_segment_count t =? 0)%nat &&
  (path_segment_count t <=? LQL_JSON_FLAT_TERM_CAPACITY)%nat &&
  has (path_recursive_segments t) (path_segment_count t - 1).

Definition repeated_recursive (t : lql_json_flat_eq_term) : bool :=
  let r := path_recursive_segments t in negb (is_empty (Z.land r ((r - 1) mod WORD))).

Definition array_term (t : lql_json_flat_eq_term) : bool :=
  negb (is_empty (path_array_segments t)) || negb (is_empty (path_object_wildcards t)) ||
  negb (is_empty (path_array_wildcards t)) || negb (is_empty (path_any_wildcards t)) ||
  negb (is_empty (path_recursive_segments t)).

(** The request; [req_spool] is [None] for NULL. *)
Record lql_json_flat_eq_request := mk_request {
  req_terms : list lql_json_flat_eq_term;
  req_spool : option lql_json_spool;
  req_capture : bool;
  stop_matching_on_hit : bool;
  stop_hit_mask : Z;
  req_capture_keys : list (list bytes);
  req_max_records : nat;
  req_max_bytes : nat;
  req_limit_stop : bool
}.

Definition scan_config_of (r : lql_json_flat_eq_request) : scan_config :=
  let terms := req_terms r in
  mk_config (req_capture r) (bool_decide (is_Some (req_spool r))) terms (req_capture_keys r)
    (stop_matching_on_hit r) (stop_hit_mask r)
    (any_term array_term terms)
    (any_term (fun t => negb (is_empty (path_object_wildcards t)) ||
                        negb (is_empty (path_any_wildcards t))) terms)
    (any_term (fun t => negb (is_empty (path_recursive_segments t))) terms)
    (any_term repeated_recursive terms)
    (mask_of (fun _ t => leading_recursive t) terms)
    (mask_of (fun _ t => terminal_recursive t) terms)
    (mask_of (fun _ t => root_exists t) terms)
    (mask_of (fun _ t => kind_is t LQL_JSON_FLAT_TERM_VALUELESS_PRESENT) terms).

(** [n] allocations, each of which must succeed. *)
Fixpoint allocate (n : nat) (allocs : list bool) : bool * list bool :=
  match n with
  | O => (true, allocs)
  | S n => if default true (head allocs) then allocate n (tail allocs) else (false, tail allocs)
  end.

(** The four of the number workspace are all tried. *)
Definition allocate_numbers (allocs : list bool) : bool * list bool :=
  (forallb id (take 4 allocs), drop 4 allocs).

Definition number_kind (t : lql_json_flat_eq_term) : bool :=
  kind_is t LQL_JSON_FLAT_TERM_NUMBER_EQ || kind_is t LQL_JSON_FLAT_TERM_NUMBER_RANGE.

(** The allocations of [lql_json_scan_prepare]. *)
Definition lql_json_scan_prepare (cfg : scan_config) (allocs : list bool) : bool * list bool :=
  let terms := flat_terms cfg in
  let temporal := any_term (fun t => kind_is t LQL_JSON_FLAT_TERM_TEMPORAL_RANGE) terms in
  let '(ok, allocs) :=
    allocate (1 + (if writing cfg then 1 else 0) + (if (length terms =? 0)%nat then 0 else 1) +
              (if temporal then 1 else 0)) allocs in
  if ok && any_term number_kind terms then allocate_numbers allocs else (ok, allocs).

(** The masks of 64 terms and of 128 depths, as [calloc] leaves them. *)
Definition scan_start (cfg : scan_config) (spool : lql_json_spool) (env : spool_env)
    (answers : list read_answer) (cancels allocs : list bool) : lql_json_scan :=
  let terms := LQL_JSON_FLAT_TERM_CAPACITY in
  let slots := if flat_eq_has_recursive_terms cfg
               then Some (repeat 0%nat (LQL_JSON_MAX_DEPTH * length (flat_terms cfg))) else None in
  mk_scan
    (mk_input answers cancels false [] 0 false 0 lql_error_init false false)
    (mk_output [] spool env)
    (mk_matcher false 0 0 0 0 0 [] 0 (repeat 0%nat terms) (repeat 0%nat terms) (repeat 0%nat terms)
       false 0 (repeat 0 LQL_JSON_MAX_DEPTH) (repeat 0 LQL_JSON_MAX_DEPTH) slots slots)
    (mk_capture 0 0 (repeat 0%nat terms) (repeat 0%nat terms) (repeat 0 LQL_JSON_MAX_DEPTH) [])
    (mk_number 0 [] 0 0 0 0 false false false false false lql_json_number_summary_start
       (repeat tracks_start (length (flat_terms cfg))) allocs)
    (mk_temporal_state 0 0 []).

(** [lql_json_scan_flat_eq_ndjson]: a failure before the scan, or its end.  An
    absent spool is one without memory. *)
Definition lql_json_scan_flat_eq_ndjson (parse_double : bytes -> option spec_float) {U : Type}
    (record : record_call -> U -> lql_status * U) (r : lql_json_flat_eq_request) (user : U)
    (env : spool_env) (answers : list read_answer) (cancels allocs : list bool)
    : option (failure + @scan_end U) :=
  let cfg := scan_config_of r in
  if (LQL_JSON_FLAT_TERM_CAPACITY <? length (req_terms r))%nat ||
     (LQL_JSON_FLAT_TERM_CAPACITY <? length (req_capture_keys r))%nat ||
     (req_capture r && bool_decide (req_spool r = None)) then
    Some (inl (LQL_STATUS_INVALID_ARGUMENT, "flat JSON equality scanner is not configured"%string))
  else
    let '(ok, allocs) := allocate 1 allocs in
    if negb ok then
      Some (inl (LQL_STATUS_NO_MEMORY, "out of memory allocating JSON parser state"%string))
    else
      let '(ok, allocs) := lql_json_scan_prepare cfg allocs in
      if negb ok then
        Some (inl (LQL_STATUS_NO_MEMORY, "out of memory allocating JSON parser workspace"%string))
      else
        let '(ok, allocs) :=
          if flat_eq_has_recursive_terms cfg then allocate 2 allocs else (true, allocs) in
        if negb ok then Some (inl (LQL_STATUS_NO_MEMORY, "out of memory"%string))
        else
          let s := scan_start cfg (default (mk_spool None 0 None None 0) (req_spool r)) env
                     answers cancels allocs in
          inr <$> ndjson_loop cfg parse_double record (req_max_records r) (req_max_bytes r)
                    (req_limit_stop r) (S (remaining s)) 0 user s.
