(* ===== verification/FlatProgram.v ===== *)
(** * The selector program of the flat path (src/lql_stream_flat_eq.c)

    A selector is compiled into scanner terms: one per value of its predicates, with
    the bit masks of its path's segments, the table of a contains matcher and the
    lower-cased value of a case-insensitive one.  The hits of a record are evaluated
    through an index from selector nodes to their terms.  A selector node is known
    by its path of child indices; allocations are assumed to succeed. *)

From S2P Require Import Prelude.
From S2P Require Import Number.
From S2P Require Import Temporal.
From S2P Require Import Unicode.
From S2P Require Import Selector.
From S2P Require Import ScanTerm.
From S2P Require Import ScanNumber.
From S2P Require Import ScanState.
From S2P Require Import ScanInput.
From S2P Require Import ScanMatch.

Definition LQL_FLAT_EQ_TERM_CAPACITY : nat := 64.

(** ** Terms *)

(** The masks and lengths that [lql_flat_eq_literal_object_path] computes. *)
Record path_masks := mk_path_masks {
  pm_segment_count : nat;
  pm_first_segment_len : nat;
  pm_array_segments : Z;
  pm_object_wildcards : Z;
  pm_array_wildcards : Z;
  pm_any_wildcards : Z;
  pm_recursive_segments : Z
}.

#[export] Instance eta_path_masks : Eta path_masks := fun r =>
  mk_path_masks (pm_segment_count r) (pm_first_segment_len r) (pm_array_segments r)
    (pm_object_wildcards r) (pm_array_wildcards r) (pm_any_wildcards r) (pm_recursive_segments r).

(** A segment into the masks. *)
Definition path_segment_masks (segment : bytes) (m : path_masks) : path_masks :=
  let here := bit (pm_segment_count m) in
  if negb (length segment =? 0)%nat && forallb is_digit segment then
    m <| pm_array_segments := Z.lor (pm_array_segments m) here |>
  else if bytes_eqb segment (bs "*") then
    m <| pm_object_wildcards := Z.lor (pm_object_wildcards m) here |>
  else if bytes_eqb segment (bs "[]") then
    m <| pm_array_wildcards := Z.lor (pm_array_wildcards m) here |>
  else if bytes_eqb segment (bs "**") then
    m <| pm_any_wildcards := Z.lor (pm_any_wildcards m) here |>
  else if bytes_eqb segment (bs "...") then
    m <| pm_recursive_segments := Z.lor (pm_recursive_segments m) here |>
  else m.

(** The loop over the segments. *)
Fixpoint path_masks_loop (segments : list bytes) (m : path_masks) : option path_masks :=
  match segments with
  | [] => Some m
  | segment :: segments =>
      if (length segment =? 0)%nat || (LQL_FLAT_EQ_TERM_CAPACITY <=? pm_segment_count m)%nat
      then None
      else
        let m := if (pm_segment_count m =? 0)%nat
                 then m <| pm_first_segment_len := length segment |> else m in
        let m := path_segment_masks segment m in
        path_masks_loop segments (m <| pm_segment_count := S (pm_segment_count m) |>)
  end.

Definition lql_flat_eq_literal_object_path (path : bytes) : option path_masks :=
  match path with
  | c :: (_ :: _) as rest =>
      if c =? ch_slash then path_masks_loop (split_slash rest) (mk_path_masks 0 0 0 0 0 0 0)
      else None
  | _ => None
  end.

(** The loop of [lql_flat_eq_contains_failure] over the bytes after the first, [n]
    of them left; [failure] has the cells written. *)
Fixpoint contains_failure_loop (n : nat) (value : bytes) (matched : nat) (failure : list nat)
    : option (list nat) :=
  match n with
  | O => Some failure
  | S n =>
      c ← value !! length failure;
      matched ← kmp_back matched value failure c matched;
      t ← value !! matched;
      let matched := if c =? t then S matched else matched in
      contains_failure_loop n value matched (failure ++ [matched])
  end.

(** The table, NULL for an empty value; [None] outside the value. *)
Definition lql_flat_eq_contains_failure (value : bytes) : option (option (list nat)) :=
  if (length value =? 0)%nat then Some None
  else Some <$> contains_failure_loop (length value - 1) value 0 [0%nat].

Definition lql_flat_eq_lower_value (value : bytes) : option bytes :=
  if (2 ^ 64 - 1 - 1) / 2 <? Z.of_nat (length value) then None
  else lql_unicode_utf8_lower value (length value * 2 + 1).

(** The index that segment [segment] of a path is. *)
Definition lql_flat_eq_path_segment_index (path : bytes) (segment : nat) : option Z :=
  if at_ path 0 =? ch_slash then
    start ← skip_segments segment (tail path);
    size_digits 0 (fst (Prelude.span (fun c => negb (c =? ch_slash)) start))
  else None.

Definition lql_flat_eq_parse_unsigned_integer_token (text : bytes) : option Z :=
  match text with
  | [] => None
  | c :: rest =>
      if c =? ch_0 then match rest with [] => Some 0 | _ => None end
      else if (c <? ch_1) || (ch_9 <? c) then None
      else ulong_digits 0 text
  end.

(** The cached indexes: the mask and the values by segment. *)
Definition lql_flat_eq_cache_array_indexes (path : bytes) (array_segments : Z) : Z * list Z :=
  let index i := if has array_segments i then lql_flat_eq_path_segment_index path i else None in
  (mask_of (fun i _ => bool_decide (is_Some (index i))) all_segments,
   map (fun i => default 0 (index i)) all_segments).

Definition lql_flat_eq_plain_segment (segment : bytes) : bool :=
  forallb (fun c => negb (c =? ch_tilde)) segment.

(** The next segment after a slash. *)
Definition after_slash (segment : bytes) : option bytes :=
  match snd (Prelude.span (fun c => negb (c =? ch_slash)) segment) with
  | [] => None
  | _ :: rest => Some rest
  end.

(** The while loop over repeated recursive segments, at most 64 rounds. *)
Fixpoint recursive_match_loop (fuel : nat) (count : nat) (recursive : Z) (segment : bytes)
    (match_segment : nat) : option (bytes * nat) :=
  match fuel with
  | O => Some (segment, match_segment)
  | S fuel =>
      if (match_segment <? count)%nat && (match_segment <? LQL_FLAT_EQ_TERM_CAPACITY)%nat &&
         has recursive match_segment
      then segment ← after_slash segment; recursive_match_loop fuel count recursive segment (S match_segment)
      else Some (segment, match_segment)
  end.

(** The segment after the first recursive ones, its number and whether it is
    plain; [None] when there is none. *)
Definition lql_flat_eq_cache_recursive_match (path : bytes) (count : nat) (recursive : Z)
    : option (bytes * nat * bool) :=
  first ← List.find (has recursive) all_segments;
  segment ← skip_segments (S first) (tail path);
  '(segment, match_segment) ← recursive_match_loop LQL_FLAT_EQ_TERM_CAPACITY count recursive
                                segment (S first);
  if (count <=? match_segment)%nat then None
  else
    let text := fst (Prelude.span (fun c => negb (c =? ch_slash)) segment) in
    Some (text, match_segment, lql_flat_eq_plain_segment text).

Definition lql_flat_eq_literal_kind (literal_kind : lql_selector_literal_kind)
    : lql_json_flat_term_kind :=
  match literal_kind with
  | LQL_SELECTOR_LITERAL_STRING => LQL_JSON_FLAT_TERM_EQ
  | LQL_SELECTOR_LITERAL_NUMBER => LQL_JSON_FLAT_TERM_NUMBER_EQ
  | LQL_SELECTOR_LITERAL_BOOL => LQL_JSON_FLAT_TERM_BOOL_EQ
  | LQL_SELECTOR_LITERAL_NULL => LQL_JSON_FLAT_TERM_NULL_EQ
  end.

(** A term with its path and the caches of [lql_flat_eq_cache_paths]. *)
Definition path_term (kind : lql_json_flat_term_kind) (value : bytes)
    (range : bounds (option term_bound)) (temporal : bounds (option lql_temporal))
    (temporal_eq : option lql_temporal) (failure : option (list nat)) (path : bytes)
    (m : path_masks) : lql_json_flat_eq_term :=
  let field := take (pm_first_segment_len m) (tail path) in
  let recursive := lql_flat_eq_cache_recursive_match path (pm_segment_count m)
                     (pm_recursive_segments m) in
  let '(cache, values) := lql_flat_eq_cache_array_indexes path (pm_array_segments m) in
  mk_term kind field value (Some path) (pm_segment_count m) (pm_array_segments m)
    (pm_object_wildcards m) (pm_array_wildcards m) (pm_any_wildcards m)
    (pm_recursive_segments m)
    (match recursive with Some (text, _, _) => Some text | None => None end)
    (match recursive with Some (_, segment, _) => segment | None => 0%nat end)
    (b_gt range) (b_gte range) (b_lt range) (b_lte range)
    (b_gt temporal) (b_gte temporal) (b_lt temporal) (b_lte temporal) temporal_eq
    failure cache values (lql_flat_eq_plain_segment field)
    (match recursive with Some (_, _, plain) => plain | None => false end).

Definition no_range : bounds (option term_bound) := all_bounds None.
Definition no_temporal : bounds (option lql_temporal) := all_bounds None.

(** A term with only a value. *)
Definition value_term (kind : lql_json_flat_term_kind) (value : bytes) (path : bytes)
    (m : path_masks) : lql_json_flat_eq_term :=
  path_term kind value no_range no_temporal None None path m.

(** ** Appending the terms of a selector *)

(** The dates of a [since] macro, [None] when the clock cannot tell. *)
Record lql_flat_eq_time_bounds := mk_time_bounds {
  tb_now : option lql_temporal;
  tb_today : option lql_temporal;
  tb_yesterday : option lql_temporal
}.

(** A program's terms, each with the node it comes from. *)
Definition program_terms : Type := list (lql_json_flat_eq_term * list nat).

Section append.
(** The double that a selector keeps beside the text of a numeric bound. *)
Context (range_double : lql_selector -> bound_key -> spec_float).
Context (time_bounds : option lql_flat_eq_time_bounds).

(** A contains term for one value. *)
Definition contains_term (ignore_case : bool) (value : bytes) (path : bytes) (m : path_masks)
    : option lql_json_flat_eq_term :=
  value ← (if ignore_case then lql_flat_eq_lower_value value else Some value);
  failure ← lql_flat_eq_contains_failure value;
  Some (path_term (if ignore_case then LQL_JSON_FLAT_TERM_ICONTAINS
                   else LQL_JSON_FLAT_TERM_CONTAINS) value no_range no_temporal None failure path m).

(** The values of a contains predicate, [None] when one is not a string. *)
Definition contains_values (s : lql_selector) : option (list bytes) :=
  match any s with
  | [] =>
      if negb (value_is_temporal s) && bool_decide (value_kind s = LQL_SELECTOR_LITERAL_STRING)
      then v ← value s; Some [v] else None
  | l =>
      if forallb (fun a => bool_decide (any_kind a = LQL_SELECTOR_LITERAL_STRING)) l
      then Some (map any_text l) else None
  end.

Definition lql_flat_eq_append_contains (s : lql_selector) (path : bytes) (m : path_masks)
    (ignore_case : bool) : option (list lql_json_flat_eq_term) :=
  if (length (any s) =? 0)%nat && negb (value_set s) then
    Some [value_term LQL_JSON_FLAT_TERM_VALUELESS_PRESENT [] path m]
  else
    values ← contains_values s;
    mapM (fun v => contains_term ignore_case v path m) values.

(** The bounds of a numeric range. *)
Definition range_bound_of (s : lql_selector) (k : bound_key) : option term_bound :=
  if bound k (has_range s) then
    let text := bound k (range_text s) in
    Some (mk_term_bound (range_double s k) text
            (t ← text; lql_flat_eq_parse_unsigned_integer_token t))
  else None.

Definition range_bounds_of (s : lql_selector) : bounds (option term_bound) :=
  mk_bounds (range_bound_of s Gt) (range_bound_of s Gte) (range_bound_of s Lt)
    (range_bound_of s Lte).

Definition temporal_eq_of (s : lql_selector) : option lql_temporal :=
  if has_temporal_eq s then temporal_eq s else None.

(** The temporal bounds of a date predicate, with its macro resolved. *)
Definition date_bounds (s : lql_selector) : option (bounds (option lql_temporal)) :=
  match since_macro s with
  | LQL_SINCE_NONE => Some (temporal s)
  | macro =>
      b ← time_bounds;
      t ← (match macro with
           | LQL_SINCE_NOW => tb_now b
           | LQL_SINCE_TODAY => tb_today b
           | _ => tb_yesterday b
           end);
      Some (set_bound Gte (Some t) (temporal s))
  end.

(** The kind of the term of an equality, prefix or presence predicate. *)
Definition leaf_term_kind (s : lql_selector) : lql_json_flat_term_kind :=
  match kind s with
  | LQL_SELECTOR_KIND_EXISTS => LQL_JSON_FLAT_TERM_EXISTS
  | LQL_SELECTOR_KIND_PREFIX =>
      if ignore_case s then LQL_JSON_FLAT_TERM_IPREFIX else LQL_JSON_FLAT_TERM_PREFIX
  | LQL_SELECTOR_KIND_IPREFIX => LQL_JSON_FLAT_TERM_IPREFIX
  | _ =>
      if value_is_temporal s then LQL_JSON_FLAT_TERM_TEMPORAL_RANGE
      else lql_flat_eq_literal_kind (value_kind s)
  end.

Definition is_equality (k : lql_selector_kind) : bool :=
  match k with LQL_SELECTOR_KIND_EQ | LQL_SELECTOR_KIND_NE => true | _ => false end.

(** The term of such a predicate. *)
Definition leaf_term (s : lql_selector) (path : bytes) (m : path_masks)
    : option lql_json_flat_eq_term :=
  let term_kind := leaf_term_kind s in
  let temporal_eq := if is_equality (kind s) && value_is_temporal s then temporal_eq s else None in
  let term k v := path_term k v no_range no_temporal temporal_eq None path m in
  if bool_decide (term_kind = LQL_JSON_FLAT_TERM_EXISTS) then Some (term term_kind [])
  else if negb (value_set s) then
    if is_equality (kind s) then Some (term term_kind [])
    else Some (term LQL_JSON_FLAT_TERM_VALUELESS_PRESENT (default [] (value s)))
  else
    v ← value s;
    if value_is_temporal s && negb (bool_decide (term_kind = LQL_JSON_FLAT_TERM_TEMPORAL_RANGE))
    then None
    else if (bool_decide (term_kind = LQL_JSON_FLAT_TERM_PREFIX) ||
             bool_decide (term_kind = LQL_JSON_FLAT_TERM_IPREFIX)) &&
            negb (bool_decide (value_kind s = LQL_SELECTOR_LITERAL_STRING)) then None
    else if bool_decide (term_kind = LQL_JSON_FLAT_TERM_IPREFIX) then
      v ← lql_flat_eq_lower_value v; Some (term term_kind v)
    else Some (term term_kind v).

(** The terms of a predicate. *)
Definition predicate_terms (s : lql_selector) : option (list lql_json_flat_eq_term) :=
  path ← field s;
  match kind s with
  | LQL_SELECTOR_KIND_IN =>
      if (length (any s) =? 0)%nat then None
      else
        m ← lql_flat_eq_literal_object_path path;
        Some (map (fun a => value_term (lql_flat_eq_literal_kind (any_kind a)) (any_text a) path m)
                (any s))
  | LQL_SELECTOR_KIND_CONTAINS | LQL_SELECTOR_KIND_ICONTAINS =>
      m ← lql_flat_eq_literal_object_path path;
      lql_flat_eq_append_contains s path m
        (bool_decide (kind s = LQL_SELECTOR_KIND_ICONTAINS) || ignore_case s)
  | LQL_SELECTOR_KIND_RANGE =>
      m ← lql_flat_eq_literal_object_path path;
      Some [path_term (if range_is_temporal s then LQL_JSON_FLAT_TERM_TEMPORAL_RANGE
                       else LQL_JSON_FLAT_TERM_NUMBER_RANGE) []
              (range_bounds_of s) (temporal s) (temporal_eq_of s) None path m]
  | LQL_SELECTOR_KIND_DATE =>
      m ← lql_flat_eq_literal_object_path path;
      b ← date_bounds s;
      Some [path_term LQL_JSON_FLAT_TERM_TEMPORAL_RANGE [] no_range b (temporal_eq_of s) None path m]
  | LQL_SELECTOR_KIND_EQ | LQL_SELECTOR_KIND_NE | LQL_SELECTOR_KIND_EXISTS
  | LQL_SELECTOR_KIND_PREFIX | LQL_SELECTOR_KIND_IPREFIX =>
      m ← lql_flat_eq_literal_object_path path;
      t ← leaf_term s path m; Some [t]
  | _ => None
  end.

(** [lql_flat_eq_append]: the terms of the node at [here], after those of the
    program. *)
Fixpoint lql_flat_eq_append (program : program_terms) (here : list nat) (s : lql_selector)
    {struct s} : option program_terms :=
  let append_children :=
    (fix go (i : nat) (l : list lql_selector) (program : program_terms) : option program_terms :=
       match l with
       | [] => Some program
       | c :: l => program ← lql_flat_eq_append program (here ++ [i]) c; go (S i) l program
       end) in
  match kind s with
  | LQL_SELECTOR_KIND_ALL => Some program
  | LQL_SELECTOR_KIND_AND | LQL_SELECTOR_KIND_OR => append_children 0%nat (children s) program
  | LQL_SELECTOR_KIND_NOT =>
      program ← append_children 0%nat (children s) program;
      if (length (children s) =? 1)%nat then Some program else None
  | _ => terms ← predicate_terms s; Some (program ++ map (fun t => (t, here)) terms)
  end.

End append.

(** How many terms a selector may need, [None] on overflow. *)
Fixpoint lql_flat_eq_selector_term_count (s : lql_selector) : option Z :=
  let count_children :=
    (fix go (l : list lql_selector) (count : Z) : option Z :=
       match l with
       | [] => Some count
       | c :: l =>
           n ← lql_flat_eq_selector_term_count c;
           if SIZE_MAX - count <? n then None else go l (count + n)
       end) in
  match kind s with
  | LQL_SELECTOR_KIND_ALL => Some 0
  | LQL_SELECTOR_KIND_AND | LQL_SELECTOR_KIND_OR | LQL_SELECTOR_KIND_NOT =>
      count_children (children s) 0
  | LQL_SELECTOR_KIND_IN => Some (Z.of_nat (length (any s)))
  | LQL_SELECTOR_KIND_CONTAINS | LQL_SELECTOR_KIND_ICONTAINS =>
      Some (if (length (any s) =? 0)%nat then 1 else Z.of_nat (length (any s)))
  | _ => Some 1
  end.

Fixpoint lql_flat_eq_selector_needs_time (s : lql_selector) : bool :=
  bool_decide (kind s = LQL_SELECTOR_KIND_DATE) && negb (bool_decide (since_macro s = LQL_SINCE_NONE)) ||
  existsb lql_flat_eq_selector_needs_time (children s).

(** ** The index from nodes to terms *)

Record lql_flat_eq_selector_group := mk_group {
  group_selector : list nat;
  group_first : nat;
  group_count : nat
}.

(** The index: the groups, and the open-addressed table of group numbers. *)
Record selector_index := mk_index {
  selector_groups : list lql_flat_eq_selector_group;
  selector_group_table : list (option nat)
}.

Section index.
(** The address of a selector node. *)
Context (address : list nat -> Z).

Definition lql_flat_eq_selector_group_hash (selector : list nat) : Z :=
  Z.shiftr (address selector) 4.

Definition first_slot (size : nat) (selector : list nat) : nat :=
  Z.to_nat (Z.land (lql_flat_eq_selector_group_hash selector) (Z.of_nat size - 1)).

(** [(slot + 1) & (size - 1)] *)
Definition next_slot (size slot : nat) : nat :=
  Z.to_nat (Z.land (Z.of_nat slot + 1) (Z.of_nat size - 1)).

(** Probing from [slot] for [selector]: the slot where it is, or the first empty
    one.  [fuel] bounds the slots tried. *)
Fixpoint probe (fuel : nat) (index : selector_index) (slot : nat) (selector : list nat)
    : option nat :=
  match fuel with
  | O => None
  | S fuel =>
      cell ← selector_group_table index !! slot;
      match cell with
      | None => Some slot
      | Some g =>
          group ← selector_groups index !! g;
          if bool_decide (group_selector group = selector) then Some slot
          else probe fuel index (next_slot (length (selector_group_table index)) slot) selector
      end
  end.

(** [while (table_size < term_count * 2) table_size *= 2;] *)
Fixpoint table_size_loop (fuel : nat) (size wanted : nat) : nat :=
  match fuel with
  | O => size
  | S fuel => if (size <? wanted)%nat then table_size_loop fuel (size * 2) wanted else size
  end.

Definition table_size (term_count : nat) : nat := table_size_loop (term_count * 2) 1 (term_count * 2).

Definition count_one (group : lql_flat_eq_selector_group) : lql_flat_eq_selector_group :=
  mk_group (group_selector group) (group_first group) (S (group_count group)).

(** Term [i] of the node [selector] entered. *)
Definition index_term (index : selector_index) (i : nat) (selector : list nat)
    : option selector_index :=
  let size := length (selector_group_table index) in
  slot ← probe size index (first_slot size selector) selector;
  cell ← selector_group_table index !! slot;
  match cell with
  | Some g =>
      Some (mk_index (alter count_one g (selector_groups index)) (selector_group_table index))
  | None =>
      let g := length (selector_groups index) in
      Some (mk_index (selector_groups index ++ [mk_group selector i 1])
              (<[slot := Some g]> (selector_group_table index)))
  end.

Fixpoint index_terms (index : selector_index) (i : nat) (selectors : list (list nat))
    : option selector_index :=
  match selectors with
  | [] => Some index
  | s :: selectors => index ← index_term index i s; index_terms index (S i) selectors
  end.

Definition lql_flat_eq_program_build_selector_index (selectors : list (list nat))
    : option selector_index :=
  if (length selectors =? 0)%nat then Some (mk_index [] [])
  else index_terms (mk_index [] (repeat None (table_size (length selectors)))) 0 selectors.

(** The group of a node; an outer [None] is a probe that does not end. *)
Definition lql_flat_eq_selector_group_find (index : selector_index) (selector : list nat)
    : option (option lql_flat_eq_selector_group) :=
  let size := length (selector_group_table index) in
  if (size =? 0)%nat then Some None
  else
    slot ← probe size index (first_slot size selector) selector;
    cell ← selector_group_table index !! slot;
    match cell with
    | None => Some None
    | Some g => Some <$> selector_groups index !! g
    end.

(** ** Equivalent terms *)

Definition range_like (k : lql_json_flat_term_kind) : bool :=
  match k with
  | LQL_JSON_FLAT_TERM_NUMBER_RANGE | LQL_JSON_FLAT_TERM_TEMPORAL_RANGE
  | LQL_JSON_FLAT_TERM_CONTAINS | LQL_JSON_FLAT_TERM_ICONTAINS | LQL_JSON_FLAT_TERM_IPREFIX => true
  | _ => false
  end.

Definition lql_flat_eq_scan_term_equivalent (left right : lql_json_flat_eq_term) : bool :=
  bool_decide (term_kind left = term_kind right) && negb (range_like (term_kind left)) &&
  (path_segment_count left =? path_segment_count right)%nat &&
  (path_array_segments left =? path_array_segments right) &&
  (path_object_wildcards left =? path_object_wildcards right) &&
  (path_array_wildcards left =? path_array_wildcards right) &&
  (path_any_wildcards left =? path_any_wildcards right) &&
  (path_recursive_segments left =? path_recursive_segments right) &&
  bytes_eqb (term_field left) (term_field right) &&
  bytes_eqb (default [] (term_path left)) (default [] (term_path right)) &&
  bytes_eqb (term_value left) (term_value right).

(** The first term of the list that is equivalent to a term. *)
Fixpoint find_equivalent (i : nat) (term : lql_json_flat_eq_term)
    (scan_terms : list lql_json_flat_eq_term) : option nat :=
  match scan_terms with
  | [] => None
  | t :: scan_terms =>
      if lql_flat_eq_scan_term_equivalent term t then Some i
      else find_equivalent (S i) term scan_terms
  end.

(** The distinct terms, and for each term the one that stands for it. *)
Fixpoint build_scan_terms (terms scan_terms : list lql_json_flat_eq_term) (sources : list nat)
    : list lql_json_flat_eq_term * list nat :=
  match terms with
  | [] => (scan_terms, sources)
  | term :: terms =>
      match find_equivalent 0 term scan_terms with
      | Some source => build_scan_terms terms scan_terms (sources ++ [source])
      | None => build_scan_terms terms (scan_terms ++ [term]) (sources ++ [length scan_terms])
      end
  end.

Definition lql_flat_eq_program_build_scan_terms (terms : list lql_json_flat_eq_term)
    : list lql_json_flat_eq_term * list nat := build_scan_terms terms [] [].

(** ** Evaluation *)

(** A bit of the words of hits. *)
Definition lql_flat_eq_hit (hits : list Z) (index : nat) : bool :=
  has (nth (index / LQL_FLAT_EQ_TERM_CAPACITY) hits 0) (index mod LQL_FLAT_EQ_TERM_CAPACITY).

(** A program ready to evaluate: [sources] is [None] when its terms are scanned as
    they are. *)
Record lql_flat_eq_program := mk_program {
  program_index : selector_index;
  term_sources : option (list nat);
  program_selectors : list (list nat)
}.

Definition term_source (program : lql_flat_eq_program) (i : nat) : nat :=
  match term_sources program with Some sources => nth i sources 0%nat | None => i end.

(** A predicate: some term of its group hit. *)
Definition group_hit (program : lql_flat_eq_program) (group : lql_flat_eq_selector_group)
    (hits : list Z) : bool :=
  existsb (fun i => lql_flat_eq_hit hits (term_source program i))
    (seq (group_first group) (group_count group)).

(** [lql_flat_eq_matches] of the node at [here]; [None] when a probe does not end. *)
Fixpoint lql_flat_eq_matches (program : lql_flat_eq_program) (hits : list Z) (here : list nat)
    (s : lql_selector) {struct s} : option bool :=
  let all :=
    (fix go (i : nat) (l : list lql_selector) : option bool :=
       match l with
       | [] => Some true
       | c :: l =>
           b ← lql_flat_eq_matches program hits (here ++ [i]) c;
           if (b : bool) then go (S i) l else Some false
       end) in
  let some :=
    (fix go (i : nat) (l : list lql_selector) : option bool :=
       match l with
       | [] => Some false
       | c :: l =>
           b ← lql_flat_eq_matches program hits (here ++ [i]) c;
           if (b : bool) then Some true else go (S i) l
       end) in
  match kind s with
  | LQL_SELECTOR_KIND_ALL => Some true
  | LQL_SELECTOR_KIND_AND => all 0%nat (children s)
  | LQL_SELECTOR_KIND_OR => some 0%nat (children s)
  | LQL_SELECTOR_KIND_NOT =>
      match children s with
      | [c] => negb <$> lql_flat_eq_matches program hits (here ++ [0%nat]) c
      | _ => Some false
      end
  | k =>
      group ← lql_flat_eq_selector_group_find (program_index program) here;
      let negated := bool_decide (k = LQL_SELECTOR_KIND_NE) in
      match group with
      | None => Some negated
      | Some group => Some (xorb negated (group_hit program group hits))
      end
  end.

(** [lql_flat_eq_matches_record]: an inequality does not hold of a record that is
    no object. *)
Fixpoint lql_flat_eq_matches_record (program : lql_flat_eq_program) (hits : list Z)
    (root_is_object : bool) (here : list nat) (s : lql_selector) {struct s} : option bool :=
  let all :=
    (fix go (i : nat) (l : list lql_selector) : option bool :=
       match l with
       | [] => Some true
       | c :: l =>
           b ← lql_flat_eq_matches_record program hits root_is_object (here ++ [i]) c;
           if (b : bool) then go (S i) l else Some false
       end) in
  let some :=
    (fix go (i : nat) (l : list lql_selector) : option bool :=
       match l with
       | [] => Some false
       | c :: l =>
           b ← lql_flat_eq_matches_record program hits root_is_object (here ++ [i]) c;
           if (b : bool) then Some true else go (S i) l
       end) in
  match kind s with
  | LQL_SELECTOR_KIND_ALL => Some true
  | LQL_SELECTOR_KIND_AND => all 0%nat (children s)
  | LQL_SELECTOR_KIND_OR => some 0%nat (children s)
  | LQL_SELECTOR_KIND_NOT =>
      match children s with
      | [c] => negb <$> lql_flat_eq_matches_record program hits root_is_object (here ++ [0%nat]) c
      | _ => Some false
      end
  | k =>
      if negb root_is_object && bool_decide (k = LQL_SELECTOR_KIND_NE) then Some false
      else lql_flat_eq_matches program hits here s
  end.

(** ** Stopping early *)

(** The equalities that a conjunction requires, [None] when it is not one. *)
Fixpoint lql_flat_eq_required_eq_count (s : lql_selector) (count : nat) : option nat :=
  let required :=
    (fix go (l : list lql_selector) (count : nat) : option nat :=
       match l with
       | [] => Some count
       | c :: l => count ← lql_flat_eq_required_eq_count c count; go l count
       end) in
  match kind s with
  | LQL_SELECTOR_KIND_AND =>
      count ← required (children s) count;
      if (length (children s) =? 0)%nat then None else Some count
  | LQL_SELECTOR_KIND_EQ => if (length (any s) =? 0)%nat then Some (S count) else None
  | _ => None
  end.

(** The bit of the only term of a node, 0 when it has none or several. *)
Fixpoint leaf_stop_mask_loop (i : nat) (selectors : list (list nat)) (here : list nat) (mask : Z)
    : Z :=
  match selectors with
  | [] => mask
  | s :: selectors =>
      if bool_decide (s = here) then
        if mask =? 0 then leaf_stop_mask_loop (S i) selectors here (bit i) else 0
      else leaf_stop_mask_loop (S i) selectors here mask
  end.

Definition lql_flat_eq_leaf_stop_mask (program : lql_flat_eq_program) (here : list nat) : Z :=
  leaf_stop_mask_loop 0 (program_selectors program) here 0.

Definition positive_leaf (k : lql_selector_kind) : bool :=
  match k with
  | LQL_SELECTOR_KIND_EQ | LQL_SELECTOR_KIND_EXISTS | LQL_SELECTOR_KIND_PREFIX
  | LQL_SELECTOR_KIND_IPREFIX | LQL_SELECTOR_KIND_CONTAINS | LQL_SELECTOR_KIND_ICONTAINS
  | LQL_SELECTOR_KIND_RANGE | LQL_SELECTOR_KIND_DATE => true
  | _ => false
  end.

Fixpoint lql_flat_eq_stop_mask (program : lql_flat_eq_program) (here : list nat)
    (s : lql_selector) {struct s} : Z :=
  let all :=
    (fix go (i : nat) (l : list lql_selector) (mask : Z) : Z :=
       match l with
       | [] => mask
       | c :: l =>
           let child := lql_flat_eq_stop_mask program (here ++ [i]) c in
           if child =? 0 then 0 else go (S i) l (Z.lor mask child)
       end) in
  match kind s with
  | LQL_SELECTOR_KIND_AND => all 0%nat (children s) 0
  | k => if positive_leaf k then lql_flat_eq_leaf_stop_mask program here else 0
  end.

End index.
