(* ===== verification/ScanSpan.v ===== *)
(** * Word-at-a-time search for the end of plain text (src/lql_json_scan.c)

    [lql_json_plain_ascii_span] looks at eight bytes at once with carries and masks;
    it finds the same end as the byte loop. *)

From S2P Require Import Prelude.
From S2P Require Import ScanState.
From S2P Require Import ScanInput.

(** ** Words as bytes *)

Definition byte_range (c : Z) : Prop := 0 <= c < 256.

Lemma is_byte_forall l : forallb is_byte l = true -> Forall byte_range l.
Proof.
  rewrite forallb_forall, List.Forall_forall. intros H x Hx. specialize (H x Hx).
  unfold is_byte, byte_range in *. bool_hyps. lia.
Qed.

(** [n] copies of the byte [c] in a word. *)
Definition splat (n : nat) (c : Z) : Z := load_word n (repeat c n).

Lemma splat_S n c : splat (S n) c = c + 256 * splat n c.
Proof. done. Qed.

Lemma load_word_range n l : Forall byte_range l -> 0 <= load_word n l < 256 ^ Z.of_nat n.
Proof.
  revert l. induction n as [|n IH]; intros l H; [done|].
  rewrite Nat2Z.inj_succ, Z.pow_succ_r by lia.
  destruct H as [|c l Hc Hl]; cbn [load_word]; [lia|].
  specialize (IH l Hl). unfold byte_range in Hc. lia.
Qed.

Lemma splat_range n c : byte_range c -> 0 <= splat n c < 256 ^ Z.of_nat n.
Proof. intros. apply load_word_range, Forall_forall. intros x ->%repeat_spec. done. Qed.

Lemma testbit_cons x a i : byte_range x -> 0 <= i ->
  Z.testbit (x + 256 * a) i = if i <? 8 then Z.testbit x i else Z.testbit a (i - 8).
Proof.
  intros Hx Hi. change 256 with (2 ^ 8). rewrite Z.mul_comm.
  destruct (i <? 8) eqn:E; bool_hyps.
  - rewrite <- (Z.mod_pow2_bits_low _ 8) by lia.
    rewrite Z.mod_add, Z.mod_small by (unfold byte_range in Hx; lia). done.
  - replace i with (i - 8 + 8) at 1 by lia. rewrite <- Z.div_pow2_bits by lia.
    rewrite Z.div_add, Z.div_small by (unfold byte_range in Hx; lia). done.
Qed.

Lemma byte_land x y : byte_range x -> byte_range y -> byte_range (Z.land x y).
Proof.
  intros Hx Hy. unfold byte_range in *. split; [apply Z.land_nonneg; lia|].
  assert (H : Z.land x y = Z.land x y mod 2 ^ 8).
  { apply Z.bits_inj'. intros i Hi. destruct (Z.ltb_spec i 8).
    - by rewrite Z.mod_pow2_bits_low by lia.
    - rewrite Z.mod_pow2_bits_high, Z.land_spec by lia.
      rewrite <- (Z.mod_small x (2 ^ 8)) by lia. by rewrite Z.mod_pow2_bits_high by lia. }
  rewrite H. apply Z.mod_pos_bound. lia.
Qed.

Lemma byte_lxor x y : byte_range x -> byte_range y -> byte_range (Z.lxor x y).
Proof.
  intros Hx Hy. unfold byte_range in *. split; [apply Z.lxor_nonneg; lia|].
  assert (H : Z.lxor x y = Z.lxor x y mod 2 ^ 8).
  { apply Z.bits_inj'. intros i Hi. destruct (Z.ltb_spec i 8).
    - by rewrite Z.mod_pow2_bits_low by lia.
    - rewrite Z.mod_pow2_bits_high, Z.lxor_spec by lia.
      rewrite <- (Z.mod_small x (2 ^ 8)), <- (Z.mod_small y (2 ^ 8)) by lia.
      by rewrite !Z.mod_pow2_bits_high by lia. }
  rewrite H. apply Z.mod_pos_bound. lia.
Qed.

Lemma land_cons x y a b : byte_range x -> byte_range y ->
  Z.land (x + 256 * a) (y + 256 * b) = Z.land x y + 256 * Z.land a b.
Proof.
  intros Hx Hy. apply Z.bits_inj'. intros i Hi.
  rewrite Z.land_spec, !testbit_cons, !Z.land_spec by auto using byte_land. by case_if.
Qed.

Lemma lxor_cons x y a b : byte_range x -> byte_range y ->
  Z.lxor (x + 256 * a) (y + 256 * b) = Z.lxor x y + 256 * Z.lxor a b.
Proof.
  intros Hx Hy. apply Z.bits_inj'. intros i Hi.
  rewrite Z.lxor_spec, !testbit_cons, !Z.lxor_spec by auto using byte_lxor. by case_if.
Qed.

Lemma cons_zero x a : byte_range x -> 0 <= a -> x + 256 * a = 0 <-> x = 0 /\ a = 0.
Proof. unfold byte_range. lia. Qed.

(** A property of a byte holds when it holds of the 256 bytes. *)
Lemma byte_cases (P : Z -> bool) x : forallb P (seqZ 0 256) = true -> byte_range x -> P x = true.
Proof.
  intros H Hx. rewrite forallb_forall in H. apply H, list_elem_of_In, elem_of_seqZ.
  unfold byte_range in Hx. lia.
Qed.

(** ** The tests on words *)

(** No byte has its high bit. *)
Lemma land_high_zero n l : length l = n -> Forall byte_range l ->
  Z.land (load_word n l) (splat n 0x80) = 0 <-> Forall (fun c => c < 0x80) l.
Proof.
  revert l. induction n as [|n IH]; intros [|c l] Hn H; [by split; [constructor|]|done|done|].
  apply list.Forall_cons in H as [Hc Hl]. rewrite splat_S. cbn [load_word].
  rewrite land_cons by (unfold byte_range in *; lia).
  rewrite cons_zero; cycle 1.
  { apply byte_land; unfold byte_range in *; lia. }
  { apply Z.land_nonneg. left. by apply load_word_range. }
  rewrite IH, list.Forall_cons by (naive_solver lia). f_equiv.
  pose proof (byte_cases (fun c => Bool.eqb (Z.land c 0x80 =? 0) (c <? 0x80)) c eq_refl Hc) as E.
  apply eqb_prop in E. rewrite <- Z.eqb_eq, E, Z.ltb_lt. done.
Qed.

(** Adding the same byte everywhere carries nothing when every sum is a byte. *)
Lemma add_splat n l k : length l = n -> load_word n l + splat n k = load_word n (map (Z.add k) l).
Proof.
  revert l. induction n as [|n IH]; intros [|c l] Hn; try done.
  rewrite splat_S. cbn [load_word map]. rewrite <- IH by naive_solver. lia.
Qed.

Lemma sub_splat n l k :
  length l = n -> load_word n l - splat n k = load_word n (map (fun c => c - k) l).
Proof.
  revert l. induction n as [|n IH]; intros [|c l] Hn; try done.
  rewrite splat_S. cbn [load_word map]. rewrite <- IH by naive_solver. lia.
Qed.

Lemma not_word n l : length l = n ->
  256 ^ Z.of_nat n - 1 - load_word n l = load_word n (map (Z.sub 255) l).
Proof.
  revert l. induction n as [|n IH]; intros [|c l] Hn; try done.
  rewrite Nat2Z.inj_succ, Z.pow_succ_r by lia. cbn [load_word map].
  rewrite <- IH by naive_solver. lia.
Qed.

Lemma lxor_splat n l k : length l = n -> byte_range k -> Forall byte_range l ->
  Z.lxor (load_word n l) (splat n k) = load_word n (map (fun c => Z.lxor c k) l).
Proof.
  revert l. induction n as [|n IH]; intros [|c l] Hn Hk H; try done.
  apply list.Forall_cons in H as [Hc Hl]. rewrite splat_S. cbn [load_word map].
  rewrite lxor_cons, IH by naive_solver. done.
Qed.

(** The zero-byte test at a width of [n] bytes. *)
Definition zero_test (n : nat) (v : Z) : Z :=
  Z.land (Z.land ((v - splat n 1) mod 256 ^ Z.of_nat n) (256 ^ Z.of_nat n - 1 - v)) (splat n 0x80).

Lemma mod_cons x a n : byte_range x ->
  (x + 256 * a) mod 256 ^ Z.of_nat (S n) = x + 256 * (a mod 256 ^ Z.of_nat n).
Proof.
  intros Hx. rewrite Nat2Z.inj_succ, Z.pow_succ_r by lia. unfold byte_range in Hx.
  assert (Hp : 0 < 256 ^ Z.of_nat n) by lia.
  rewrite (Z.div_mod a (256 ^ Z.of_nat n)) at 1 by lia.
  replace (x + 256 * _) with
    (x + 256 * (a mod 256 ^ Z.of_nat n) + a / 256 ^ Z.of_nat n * (256 * 256 ^ Z.of_nat n)) by lia.
  rewrite Z.mod_add, Z.mod_small by (pose proof (Z.mod_pos_bound a (256 ^ Z.of_nat n)); lia). done.
Qed.

(** Up to the first zero byte there is no borrow, and the first one shows. *)
Lemma zero_test_spec n l : length l = n -> Forall byte_range l ->
  zero_test n (load_word n l) = 0 <-> Forall (fun c => c <> 0) l.
Proof.
  revert l. induction n as [|n IH]; intros [|c l] Hn H; [by split; [constructor|]|done|done|].
  apply list.Forall_cons in H as [Hc Hl]. unfold zero_test. cbn [load_word]. rewrite !splat_S.
  assert (Hnot : 256 ^ Z.of_nat (S n) - 1 - (c + 256 * load_word n l) =
                 (255 - c) + 256 * (256 ^ Z.of_nat n - 1 - load_word n l)).
  { rewrite Nat2Z.inj_succ, Z.pow_succ_r by lia. lia. }
  pose proof (load_word_range n l Hl) as Hr.
  assert (Hnn : forall a, 0 <= Z.land (Z.land (a mod 256 ^ Z.of_nat n)
                  (256 ^ Z.of_nat n - 1 - load_word n l)) (splat n 0x80)).
  { intros a. apply Z.land_nonneg. right. apply splat_range. done. }
  rewrite Hnot, list.Forall_cons. destruct (decide (c = 0)) as [->|Hnz].
  - replace (0 + 256 * load_word n l - (1 + 256 * splat n 1))
      with (255 + 256 * (load_word n l - splat n 1 - 1)) by lia.
    rewrite mod_cons, !land_cons, cons_zero by (done || apply Hnn).
    split; [|naive_solver]. intros [H0 _]. by vm_compute in H0.
  - replace (c + 256 * load_word n l - (1 + 256 * splat n 1))
      with ((c - 1) + 256 * (load_word n l - splat n 1)) by lia.
    assert (byte_range (c - 1) /\ byte_range (255 - c)) as [Hb1 Hb2]
      by (unfold byte_range in *; lia).
    assert (byte_range 0x80) by done.
    rewrite mod_cons, !land_cons, cons_zero by (auto using byte_land).
    fold (zero_test n (load_word n l)). rewrite IH by naive_solver.
    assert (E : Z.land (Z.land (c - 1) (255 - c)) 0x80 = 0); [|naive_solver].
    pose proof (byte_cases (fun c => (c =? 0) || (Z.land (Z.land (c - 1) (255 - c)) 0x80 =? 0)) c
                  eq_refl Hc) as E. by apply orb_true_iff in E as [E|E]; bool_hyps.
Qed.

Lemma has_zero_byte_spec l : length l = 8%nat -> Forall byte_range l ->
  lql_json_word_has_zero_byte (load_word 8 l) = false <-> Forall (fun c => c <> 0) l.
Proof.
  intros Hn Hl. unfold lql_json_word_has_zero_byte. rewrite negb_false_iff, Z.eqb_eq.
  exact (zero_test_spec 8 l Hn Hl).
Qed.

(** A word of bytes other than [k]. *)
Lemma has_byte_spec l k : length l = 8%nat -> byte_range k -> Forall byte_range l ->
  lql_json_word_has_zero_byte (Z.lxor (load_word 8 l) (splat 8 k)) = false <->
  Forall (fun c => c <> k) l.
Proof.
  intros Hn Hk Hl. rewrite lxor_splat, has_zero_byte_spec, Forall_map; try done.
  - f_equiv. intros c. cbn. rewrite Z.lxor_eq_0_iff. done.
  - by rewrite length_map.
  - apply Forall_map. eapply Forall_impl; [|exact Hl]. intros c Hc. cbn. by apply byte_lxor.
Qed.

(** No byte is a control when all are ASCII. *)
Lemma no_control_spec l : length l = 8%nat -> Forall byte_range l -> Forall (fun c => c < 0x80) l ->
  Z.land (word_not ((load_word 8 l + control_offset) mod WORD)) high = 0 <->
  Forall (fun c => 0x20 <= c) l.
Proof.
  intros Hn Hl Ha. change control_offset with (splat 8 0x60). change high with (splat 8 0x80).
  rewrite add_splat by done.
  assert (Hb : Forall byte_range (map (Z.add 0x60) l)).
  { apply Forall_map. eapply Forall_impl; [|exact (proj2 (list.Forall_and _ _) (conj Hl Ha))].
    intros c [Hc Hc']. unfold byte_range in *. cbn in *. lia. }
  change WORD with (256 ^ Z.of_nat 8).
  rewrite Z.mod_small by (exact (load_word_range 8 _ Hb)).
  change (word_not ?w) with (256 ^ Z.of_nat 8 - 1 - w).
  rewrite not_word by (by rewrite length_map).
  rewrite land_high_zero.
  - rewrite !Forall_map. f_equiv. intros c. cbn. lia.
  - by rewrite !length_map.
  - apply Forall_map. eapply Forall_impl; [|exact Hb]. intros c. unfold byte_range. cbn. lia.
Qed.

(** The test of a word is that of its bytes. *)
Lemma word_stops_spec l : length l = 8%nat -> Forall byte_range l ->
  word_stops (load_word 8 l) = false <-> Forall (fun c => plain_byte c = true) l.
Proof.
  intros Hn Hl. unfold word_stops.
  change ((ones * ch_quote) mod WORD) with (splat 8 ch_quote).
  change ((ones * ch_backslash) mod WORD) with (splat 8 ch_backslash).
  rewrite !orb_false_iff, !negb_false_iff, !Z.eqb_eq, !has_byte_spec by done.
  change high with (splat 8 0x80) at 1. rewrite land_high_zero by done.
  transitivity (Forall (fun c => c < 0x80) l /\ Forall (fun c => 0x20 <= c) l /\
                Forall (fun c => c <> ch_quote) l /\ Forall (fun c => c <> ch_backslash) l).
  { split; [intros [[[? ?] ?] ?]|intros (? & ? & ? & ?)]; repeat split; auto; by apply no_control_spec. }
  rewrite <- !list.Forall_and. f_equiv. intros c. unfold plain_byte.
  rewrite !andb_true_iff, !negb_true_iff, !Z.eqb_neq, Z.leb_le, Z.ltb_lt. lia.
Qed.

(** ** The span *)

Lemma key_span_app l r : Forall (fun c => plain_byte c = true) l ->
  lql_json_plain_key_span (l ++ r) = (length l + lql_json_plain_key_span r)%nat.
Proof. induction 1 as [|c l Hc _ IH]; [done|]. cbn. by rewrite Hc, IH. Qed.

Lemma plain_words_spec fuel data :
  Forall byte_range data -> plain_words fuel data = lql_json_plain_key_span data.
Proof.
  revert data. induction fuel as [|fuel IH]; intros data H; [done|]. cbn [plain_words].
  case_if; [|done]. bool_hyps. apply Nat.leb_le in H0.
  assert (Ht : length (take 8 data) = 8%nat) by (rewrite length_take; lia).
  assert (Hw : load_word 8 (take 8 data) = load_word 8 data).
  { do 8 (destruct data as [|? data]; [cbn in H0; lia|]). done. }
  rewrite <- Hw in *. rewrite <- (take_drop 8 data) at 2.
  rewrite key_span_app, IH, Ht; [done|by apply Forall_drop|].
  apply word_stops_spec; auto using Forall_take.
Qed.

(** The word-at-a-time search finds the end of the plain text that the loop
    over bytes finds. *)
Theorem plain_ascii_span_correct data :
  Forall byte_range data -> lql_json_plain_ascii_span data = lql_json_plain_key_span data.
Proof.
  intros H. unfold lql_json_plain_ascii_span. case_if; [done|]. by apply plain_words_spec.
Qed.

Lemma plain_ascii_span_correct_witness :
  Forall byte_range (bs "plain text, long enough" ++ [34]) /\
  lql_json_plain_ascii_span (bs "plain text, long enough" ++ [34]) = 23%nat.
Proof.
  assert (H : Forall byte_range (bs "plain text, long enough" ++ [34]))
    by (apply is_byte_forall; reflexivity).
  split; [exact H|]. rewrite (plain_ascii_span_correct _ H). reflexivity.
Defined.
