(* ===== verification/ScanContains.v ===== *)
(** * The contains matcher (src/lql_json_scan.c, src/lql_stream_flat_eq.c)

    The table that the program builds is the table of longest borders, and the
    streaming matcher run on it finds the value exactly when it occurs in the text,
    however the text is split. *)

From S2P Require Import Prelude.
From S2P Require Import ScanMatch.
From S2P Require Import FlatProgram.

(** ** Borders *)

(** The first [k] bytes of [t] end [s]. *)
Definition ends (t : bytes) (k : nat) (s : bytes) : Prop := take k t `suffix_of` s.

(** [k] is the longest proper prefix of [t], below [m], that ends [s]. *)
Definition longest (t : bytes) (m k : nat) (s : bytes) : Prop :=
  (k < m)%nat /\ ends t k s /\ forall j, (j < m)%nat -> ends t j s -> (j <= k)%nat.

(** A table cell holds the longest proper border of the prefix it closes. *)
Definition border_table (t : bytes) (n : nat) (failure : list nat) : Prop :=
  length failure = n /\
  forall i b, failure !! i = Some b -> longest t (S i) b (take (S i) t).

Lemma ends_take t k j s : (j <= k)%nat -> (k <= length t)%nat ->
  ends t k s -> ends t j s -> ends t j (take k t).
Proof.
  unfold ends. intros Hj Hk [p ->] [q E].
  assert (Hl : (length p <= length q)%nat).
  { apply (f_equal length) in E. rewrite !length_app, !length_take in E. lia. }
  exists (drop (length p) q). rewrite <- drop_app_le by done. rewrite <- E.
  by rewrite drop_app_length.
Qed.

Lemma ends_trans t k j s : ends t j (take k t) -> ends t k s -> ends t j s.
Proof. unfold ends. intros. by etrans. Qed.

(** A longer prefix ends [s ++ [c]] when the shorter ends [s] and continues with [c]. *)
Lemma ends_snoc t k s c : (S k <= length t)%nat ->
  ends t (S k) (s ++ [c]) <-> ends t k s /\ t !! k = Some c.
Proof.
  intros Hk. unfold ends. destruct (lookup_lt_is_Some_2 t k ltac:(lia)) as [d Hd].
  rewrite (take_S_r _ _ _ Hd). split.
  - intros [p Hp]. rewrite app_assoc in Hp. apply app_inj_tail in Hp as [-> ->].
    split; [by exists p|done].
  - intros [[p ->] Hc]. rewrite Hd in Hc. injection Hc as <-. exists p. by rewrite app_assoc.
Qed.

Lemma ends_0 t s : ends t 0 s.
Proof. exists s. by rewrite app_nil_r. Qed.

(** ** Falling back *)

(** From the longest border the loop reaches the longest that [c] continues. *)
Lemma kmp_back_spec t failure c s n fuel pos :
  border_table t n failure -> (n <= length t)%nat -> (pos <= n)%nat -> (pos < length t)%nat ->
  (pos <= fuel)%nat -> ends t pos s ->
  exists p, kmp_back fuel t failure c pos = Some p /\ (p <= pos)%nat /\ ends t p s /\
    (p = 0%nat \/ t !! p = Some c) /\
    forall j, (j <= pos)%nat -> ends t j s -> t !! j = Some c -> (j <= p)%nat.
Proof.
  intros [Hlen Htab] Hn. revert pos. induction fuel as [|fuel IH]; intros pos Hpn Hpt Hf Hends.
  - assert (pos = 0%nat) as -> by lia. exists 0%nat. cbn. by repeat split; auto.
  - destruct pos as [|p]; [exists 0%nat; by repeat split; auto|].
    destruct (lookup_lt_is_Some_2 t (S p) Hpt) as [d Hd]. cbn [kmp_back]. rewrite Hd. cbn.
    destruct (d =? c) eqn:E; bool_hyps; [subst|].
    { exists (S p). repeat split; auto. }
    destruct (lookup_lt_is_Some_2 failure p ltac:(lia)) as [b Hb]. rewrite Hb. cbn.
    destruct (Htab p b Hb) as (Hbp & Hbe & Hbmax).
    destruct (IH b) as (q & Hq & Hqb & Hqe & Hqc & Hqmax); try lia.
    { eapply ends_trans; eauto. }
    exists q. repeat split; auto; [lia|]. intros j Hj Hje Hjc.
    assert (j <> S p) by congruence.
    apply Hqmax; auto. apply Hbmax; [lia|]. apply (ends_take t (S p) j s); auto; lia.
Qed.

(** Then one more byte gives the longest border of the longer text. *)
Lemma advance_spec t failure c s n pos :
  border_table t n failure -> (n <= length t)%nat -> (pos <= n)%nat -> longest t (length t) pos s ->
  exists p d, kmp_back pos t failure c pos = Some p /\ (p <= pos)%nat /\ t !! p = Some d /\
    let q := if d =? c then S p else p in
    ends t q (s ++ [c]) /\
    forall j, (j <= length t)%nat -> ends t j (s ++ [c]) -> (j <= q)%nat.
Proof.
  intros Htab Hn Hpn (Hlt & Hends & Hmax).
  destruct (kmp_back_spec t failure c s n pos pos) as (p & Hp & Hple & Hpe & Hpc & Hpmax); auto.
  destruct (lookup_lt_is_Some_2 t p ltac:(lia)) as [d Hd].
  exists p, d. repeat split; auto.
  - case_if; bool_hyps; subst.
    + apply ends_snoc; [lia|done].
    + destruct Hpc as [->|Hpc]; [apply ends_0|congruence].
  - intros j Hj Hje. destruct j as [|j]; [lia|]. apply ends_snoc in Hje as [Hje Hjc]; [|lia].
    assert (Hjp : (j <= p)%nat) by (apply Hpmax; auto; apply Hmax; auto; lia).
    case_if; [lia|]. bool_hyps. destruct Hpc as [->|Hpc]; [|congruence].
    assert (j = 0%nat) as -> by lia. congruence.
Qed.

(** ** The table *)

Lemma border_table_snoc t n failure b :
  border_table t n failure -> longest t (S n) b (take (S n) t) -> border_table t (S n) (failure ++ [b]).
Proof.
  intros [Hlen Htab] Hb. split; [rewrite length_app; cbn; lia|].
  intros i c Hi. apply lookup_app_Some in Hi as [Hi|[Hi1 Hi2]]; [eauto|].
  apply list_lookup_singleton_Some in Hi2 as [Hi2 <-]. by replace i with n by lia.
Qed.

Lemma contains_failure_loop_spec n t matched failure :
  (length failure + n = length t)%nat -> border_table t (length failure) failure ->
  (0 < length failure)%nat ->
  longest t (length failure) matched (take (length failure) t) ->
  exists f, contains_failure_loop n t matched failure = Some f /\ border_table t (length t) f.
Proof.
  revert matched failure. induction n as [|n IH]; intros matched failure Hn Htab Hpos Hm.
  - exists failure. cbn. split; [done|]. by replace (length t) with (length failure) by lia.
  - set (i := length failure) in *.
    destruct (lookup_lt_is_Some_2 t i ltac:(lia)) as [c Hc]. cbn [contains_failure_loop].
    fold i. rewrite Hc. cbn.
    destruct Hm as (Hmi & Hme & Hmmax).
    destruct (kmp_back_spec t failure c (take i t) i matched matched)
      as (p & Hp & Hpm & Hpe & Hpc & Hpmax); auto; try lia.
    rewrite Hp. cbn. destruct (lookup_lt_is_Some_2 t p ltac:(lia)) as [d Hd]. rewrite Hd. cbn.
    rewrite Z.eqb_sym. set (q := if d =? c then S p else p).
    assert (Hq : longest t (S i) q (take (S i) t)).
    { rewrite (take_S_r _ _ _ Hc). subst q. split; [case_if; lia|]. split.
      - case_if; bool_hyps; subst; [apply ends_snoc; [lia|done]|].
        destruct Hpc as [->|Hpc]; [apply ends_0|congruence].
      - intros j Hj Hje. destruct j as [|j]; [lia|]. apply ends_snoc in Hje as [Hje Hjc]; [|lia].
        assert (Hjp : (j <= p)%nat) by (apply Hpmax; auto; apply Hmmax; auto; lia).
        case_if; [lia|]. bool_hyps. destruct Hpc as [->|Hpc]; [|congruence].
        assert (j = 0%nat) as -> by lia. congruence. }
    apply IH; rewrite length_app; cbn; fold i; try lia.
    + replace (i + 1)%nat with (S i) by lia. apply border_table_snoc; done.
    + by replace (i + 1)%nat with (S i) by lia.
Qed.

Lemma contains_failure_table t : t <> [] ->
  exists f, lql_flat_eq_contains_failure t = Some (Some f) /\ border_table t (length t) f.
Proof.
  intros Ht. unfold lql_flat_eq_contains_failure.
  destruct t as [|x t]; [done|]. cbn [length]. cbn -[contains_failure_loop].
  rewrite Nat.sub_0_r.
  destruct (contains_failure_loop_spec (length t) (x :: t) 0 [0%nat]) as (f & -> & Hf); cbn; auto.
  - split; [done|]. intros [|[|i]] b [= <-]. split; [lia|]. split; [apply ends_0|intros; lia].
  - split; [lia|]. split; [apply ends_0|intros; lia].
  - by exists f.
Qed.

(** ** The matcher *)

Lemma kmp_step_spec t failure c s pos :
  border_table t (length t) failure -> longest t (length t) pos s ->
  exists pos', kmp_step t failure c pos = Some (pos', bool_decide (t `suffix_of` (s ++ [c]))) /\
    longest t (length t) pos' (s ++ [c]).
Proof.
  intros Htab Hpos. pose proof Hpos as (Hlt & _ & _).
  destruct (advance_spec t failure c s (length t) pos) as (p & d & Hp & Hple & Hd & Hq & Hqmax);
    auto; [lia|]. unfold kmp_step. rewrite Hp. cbn. rewrite Hd. cbn.
  set (q := if d =? c then S p else p) in *.
  assert (Hfull : ends t (length t) (s ++ [c]) <-> t `suffix_of` (s ++ [c]))
    by (unfold ends; by rewrite take_ge).
  destruct (Nat.eqb_spec q (length t)) as [Eq|Nq].
  - rewrite Eq in *. destruct Htab as [Hlen Htab].
    destruct (lookup_lt_is_Some_2 failure (length t - 1) ltac:(lia)) as [b Hb].
    rewrite Hb. cbn. exists b. rewrite bool_decide_true by (by apply Hfull). split; [done|].
    destruct (Htab _ _ Hb) as (Hb1 & Hb2 & Hb3). replace (S (length t - 1)) with (length t) in * by lia.
    split; [lia|]. split; [eapply ends_trans; eauto|].
    intros j Hj Hje. apply Hb3; [done|]. apply (ends_take t (length t) j (s ++ [c])); auto; lia.
  - exists q. rewrite bool_decide_false.
    + split; [done|]. split; [subst q; case_if; lia|]. split; [done|]. intros j Hj. apply Hqmax. lia.
    + intros Hs%Hfull. apply Hqmax in Hs; [|done]. subst q. revert Hs Nq. case_if; lia.
Qed.

(** The value ends some prefix of [data] read after [s]. *)
Definition found_in (t s data : bytes) : Prop :=
  exists a b, data = a ++ b /\ a <> [] /\ t `suffix_of` (s ++ a).

Lemma found_in_cons t s c data :
  found_in t s (c :: data) <-> t `suffix_of` (s ++ [c]) \/ found_in t (s ++ [c]) data.
Proof.
  split.
  - intros (a & b & E & Ha & Hs). destruct a as [|x a]; [done|]. injection E as <- ->.
    destruct a as [|y a]; [by left|right]. exists (y :: a), b. by rewrite <- app_assoc.
  - intros [H|(a & b & -> & Ha & Hs)]; [by exists [c], data|].
    exists (c :: a), b. by rewrite <- app_assoc in Hs.
Qed.

Lemma kmp_bytes_spec t failure data s pos found :
  border_table t (length t) failure -> longest t (length t) pos s ->
  exists pos' found', kmp_bytes t failure data pos found = Some (pos', found') /\
    (found' = true <-> found = true \/ found_in t s data) /\
    longest t (length t) pos' (s ++ data).
Proof.
  intros Htab. revert s pos found. induction data as [|c data IH]; intros s pos found Hpos; cbn.
  - exists pos, found. rewrite app_nil_r. split; [done|]. split; [|done].
    split; [by left|]. intros [|(a & b & E & Ha & _)]; [done|].
    by apply symmetry, app_nil in E as [-> _].
  - destruct (kmp_step_spec t failure c s pos Htab Hpos) as (p & Hp & Hlp). rewrite Hp. cbn.
    destruct (IH (s ++ [c]) p (found || bool_decide (t `suffix_of` s ++ [c])) Hlp)
      as (pos' & found' & -> & Hf & Hl).
    exists pos', found'. rewrite <- app_assoc in Hl. split; [done|]. split; [|done].
    rewrite Hf, orb_true_iff, bool_decide_eq_true, found_in_cons. tauto.
Qed.

Lemma found_in_infix t data : t <> [] ->
  found_in t [] data <-> exists a b, data = a ++ t ++ b.
Proof.
  intros Ht. unfold found_in. cbn. split.
  - intros (a & b & -> & _ & [p ->]). exists p, b. by rewrite <- app_assoc.
  - intros (a & b & ->). exists (a ++ t), b. rewrite <- app_assoc. repeat split; [|by exists a].
    intros E. by apply app_nil in E as [_ ->].
Qed.

(** The bytes of consecutive pieces. *)
Lemma kmp_bytes_app t failure d1 d2 pos found :
  kmp_bytes t failure (d1 ++ d2) pos found =
  '(pos, found) ← kmp_bytes t failure d1 pos found; kmp_bytes t failure d2 pos found.
Proof.
  revert pos found. induction d1 as [|c d1 IH]; intros pos found; cbn; [done|].
  destruct (kmp_step t failure c pos) as [[p f]|]; cbn; [apply IH|done].
Qed.

(** C12. The table that the program builds for a value makes the streaming matcher,
    fed with the pieces of a text one after the other, find the value exactly when
    the text contains it. *)
Theorem contains_matcher_correct (value : bytes) (pieces : list bytes) : value <> [] ->
  exists failure pos found,
    lql_flat_eq_contains_failure value = Some (Some failure) /\
    foldl (fun r piece => '(pos, found) ← r; kmp_bytes value failure piece pos found)
      (Some (0%nat, false)) pieces = Some (pos, found) /\
    (found = true <-> exists a b, concat pieces = a ++ value ++ b).
Proof.
  intros Hv. destruct (contains_failure_table value Hv) as (failure & Hf & Htab).
  destruct (kmp_bytes_spec value failure (concat pieces) [] 0 false Htab)
    as (pos & found & Hrun & Hfound & _).
  { split; [destruct value; [done|cbn; lia]|]. split; [apply ends_0|].
    intros j Hj [p Hp]. destruct j; [lia|]. destruct value; [done|].
    by apply symmetry, app_nil in Hp as [_ ?]. }
  exists failure, pos, found. split; [done|]. split.
  - rewrite <- Hrun. clear. generalize 0%nat, false. induction pieces as [|d pieces IH]; intros p b.
    + done.
    + cbn. rewrite kmp_bytes_app. destruct (kmp_bytes value failure d p b) as [[p' b']|]; cbn.
      * apply IH.
      * clear. by induction pieces.
  - rewrite Hfound, <- found_in_infix by done. naive_solver.
Qed.

Lemma contains_matcher_correct_witness :
  bs "aab" <> [] /\
  exists failure pos found,
    lql_flat_eq_contains_failure (bs "aab") = Some (Some failure) /\
    foldl (fun r piece => '(pos, found) ← r; kmp_bytes (bs "aab") failure piece pos found)
      (Some (0%nat, false)) [bs "xaa"; bs "ab"] = Some (pos, found) /\
    (found = true <-> exists a b, concat [bs "xaa"; bs "ab"] = a ++ bs "aab" ++ b).
Proof. split; [done|]. exact (contains_matcher_correct (bs "aab") [bs "xaa"; bs "ab"] ltac:(done)). Defined.
