(* ===== verification/ScanNumberProps.v ===== *)
(** * Numbers of the stream are compared exactly

    A token that fits the match buffer is compared with a literal as exact values:
    the shortcuts for integers agree with the decimal comparison of
    src/lql_number.c. *)

From S2P Require Import Prelude.
From S2P Require Import Number.
From S2P Require Import NumberSpec.
From S2P Require Import NumberParse.
From S2P Require Import NumberProps.
From S2P Require Import ScanTerm.
From S2P Require Import ScanNumber.
From S2P Require Import JsonSpool.
From S2P Require Import ScanState.
From S2P Require Import ScanInput.
From S2P Require Import ScanMatch.
From S2P Require Import JsonScan.

(** ** The shortcuts *)

Lemma span_all {A} (p : A -> bool) l :
  span p l = (if forallb p l then (l, []) else span p l).
Proof.
  induction l as [|x l IH]; [done|]. cbn. destruct (p x); [|done]. rewrite IH.
  destruct (forallb p l); [done|]. by destruct (span p l).
Qed.

Lemma span_not_all {A} (p : A -> bool) l a : span p l = (a, []) -> forallb p l = true.
Proof.
  intros H. pose proof (span_app _ _ _ _ H) as E. rewrite app_nil_r in E. subst.
  apply span_forall in H. rewrite forallb_forall. by apply List.Forall_forall.
Qed.

(** The integer parser of the scanner is that of lql_number.c. *)
Lemma plain_integer_span_eq t : lql_json_plain_integer_span t = lql_number_plain_integer t.
Proof.
  destruct t as [|c t]; [done|]. unfold lql_json_plain_integer_span, lql_number_plain_integer.
  destruct (if c =? ch_minus then _ else _) as [neg [|d ds]]; [done|].
  destruct (d =? ch_0) eqn:E0; [destruct ds; [by bool_hyps; subst|done]|].
  destruct ((d <? ch_1) || (ch_9 <? d)) eqn:E1; [done|].
  assert (Hd : is_digit d = true) by (unfold is_digit; apply orb_false_iff in E1 as [? ?]; bool_hyps; lia).
  rewrite span_all. cbn [forallb]. rewrite Hd. cbn [andb].
  destruct (forallb is_digit ds) eqn:E; [done|].
  destruct (span is_digit (d :: ds)) as [run [|x rest]] eqn:Es; [|done].
  apply span_not_all in Es. cbn in Es. by rewrite Hd, E in Es.
Qed.

Lemma compare_plain_integers_eq l r :
  lql_json_compare_plain_integers l r = lql_number_compare_plain_integer l r.
Proof.
  unfold lql_json_compare_plain_integers, lql_number_compare_plain_integer.
  by rewrite !plain_integer_span_eq.
Qed.

(** A digit string without leading zeros is a plain integer. *)
Lemma plain_integer_canonical t : canonical t ->
  lql_number_plain_integer t = Some (t, false, bytes_eqb t [ch_0]).
Proof.
  intros [Hd Hc]. destruct t as [|c t]; [done|]. apply list.Forall_cons in Hd as [Hdc Hdt].
  pose proof (proj1 (is_digit_spec c) Hdc) as Hr. unfold lql_number_plain_integer.
  destruct (c =? ch_minus) eqn:Em; [bool_hyps; lia|].
  destruct (c =? ch_0) eqn:E0; bool_hyps.
  - subst. destruct t; [done|]. done.
  - destruct ((c <? ch_1) || (ch_9 <? c)) eqn:E1.
    { apply orb_true_iff in E1 as [?|?]; bool_hyps; lia. }
    rewrite span_all. assert (H : forallb is_digit (c :: t) = true).
    { cbn [forallb]. rewrite Hdc. cbn [andb]. apply forallb_forall. by apply List.Forall_forall. }
    rewrite H. f_equal. f_equal. symmetry. apply not_true_iff_false. rewrite bytes_eqb_eq.
    congruence.
Qed.

Lemma compare_canonical l r : canonical l -> canonical r ->
  lql_number_compare_plain_integer l r = Some (sgn_of (digits_value l ?= digits_value r)).
Proof.
  intros Hl Hr.
  destruct (lql_number_compare_plain_integer l r) as [c|] eqn:E.
  - pose proof E as E'. unfold lql_number_compare_plain_integer in E'.
    rewrite !plain_integer_canonical in E' by done. rewrite <- compare_digits_canonical by done.
    destruct (bytes_eqb l [ch_0]) eqn:El, (bytes_eqb r [ch_0]) eqn:Er;
      cbn in E'; simplify_eq; try done;
      rewrite ?bytes_eqb_eq in *; subst; rewrite compare_digits_canonical by done; f_equal; symmetry.
    + rewrite (proj2 (Z.compare_lt_iff _ _)); [done|].
      pose proof (all_digits_nonneg _ (canonical_digits _ Hr)).
      destruct (Z.eq_dec (digits_value r) 0) as [Ez|]; [|change (digits_value [ch_0]) with 0; lia].
      apply canonical_zero in Ez; [|done]. subst. by rewrite bytes_eqb_refl in Er.
    + rewrite (proj2 (Z.compare_gt_iff _ _)); [done|].
      pose proof (all_digits_nonneg _ (canonical_digits _ Hl)).
      destruct (Z.eq_dec (digits_value l) 0) as [Ez|]; [|change (digits_value [ch_0]) with 0; lia].
      apply canonical_zero in Ez; [|done]. subst. by rewrite bytes_eqb_refl in El.
  - unfold lql_number_compare_plain_integer in E. rewrite !plain_integer_canonical in E by done.
    by repeat case_match.
Qed.

Lemma unsigned_token_canonical t : unsigned_integer_token t = true -> canonical t.
Proof.
  unfold unsigned_integer_token. destruct t as [|c t]; [done|]. intros H. bool_hyps.
  assert (Ht : all_digits t) by (apply List.Forall_forall; by apply forallb_forall).
  destruct (c =? ch_0) eqn:E; bool_hyps.
  - subst. apply Nat.eqb_eq in H. destruct t; [|done]. by repeat constructor.
  - split; [constructor; [unfold is_digit; lia|done]|]. by destruct t.
Qed.

Lemma compare_unsigned_eq l r c :
  lql_json_compare_unsigned_integer_tokens l r = Some c ->
  lql_number_compare_plain_integer l r = Some c.
Proof.
  unfold lql_json_compare_unsigned_integer_tokens.
  destruct (unsigned_integer_token l) eqn:El; [|done].
  destruct (unsigned_integer_token r) eqn:Er; [|done]. cbn [andb].
  apply unsigned_token_canonical in El, Er. rewrite compare_canonical by done.
  rewrite <- compare_digits_canonical by done. unfold lql_number_compare_digits.
  by repeat case_if.
Qed.

Lemma ulong_digits_spec t v r :
  ulong_digits v t = Some r -> all_digits t /\ r = digits_value_from v t.
Proof.
  revert v. induction t as [|c t IH]; intros v; cbn; [intros [= ->]; by split|].
  destruct (is_digit c) eqn:E; [|done]. case_if; [done|]. intros [? ->]%IH.
  split; [by constructor|done].
Qed.

Lemma parse_unsigned_canonical t v :
  lql_json_parse_unsigned_integer_token t = Some v -> canonical t /\ v = digits_value t.
Proof.
  unfold lql_json_parse_unsigned_integer_token. destruct t as [|c t]; [done|].
  destruct (c =? ch_0) eqn:E0; bool_hyps.
  - subst. destruct t; [|done]. intros [= <-]. by repeat constructor.
  - destruct ((c <? ch_1) || (ch_9 <? c)) eqn:E1; [done|]. intros H.
    apply ulong_digits_spec in H as [Hd ->]. split; [|done]. split; [done|]. by destruct t.
Qed.

Lemma three_way_compare a b : three_way a b = sgn_of (a ?= b).
Proof.
  unfold three_way. destruct (Z.ltb_spec a b); [by rewrite (proj2 (Z.compare_lt_iff _ _))|].
  destruct (Z.ltb_spec b a); [by rewrite (proj2 (Z.compare_gt_iff _ _))|].
  assert (a = b) as -> by lia. by rewrite Z.compare_refl.
Qed.

(** A JSON number of digits only has no leading zero. *)
Lemma json_digits_canonical t m e : json_number t m e -> all_digits t -> canonical t.
Proof.
  intros (neg & i & f & fd & x & v & -> & Hi & Hf & Hx & _ & _) Hd.
  destruct neg; cbn in Hd; [apply list.Forall_cons in Hd as [Hd _]; done|]. cbn.
  apply list.Forall_app in Hd as [_ Hd]. apply list.Forall_app in Hd as [Hfd Hxd].
  destruct Hf as [[-> ->]|(-> & _ & _)]; [|apply list.Forall_cons in Hfd as [Hfd _]; done].
  destruct Hx as [[-> ->]|(c & s & ed & -> & Hc & _)].
  - by rewrite !app_nil_r.
  - apply list.Forall_cons in Hxd as [Hxd _]. destruct Hc; subst; done.
Qed.

(** ** The token while it is read *)

(** The bytes of a token, as [lql_json_number] passes them on. *)
Fixpoint number_bytes (cfg : scan_config) (t : bytes) : Scan unit :=
  match t with
  | [] => mret tt
  | c :: t => lql_json_number_range_byte cfg c ;; number_bytes cfg t
  end.

(** What the number state knows of the token [t] while it fits the buffer. *)
Record token_read (active limit : Z) (t : bytes) (n : scan_number) : Prop := {
  token_active : number_range_active n = active;
  token_limit : number_match_limit n = limit;
  token_text : number_match n = t;
  token_no_overflow : number_match_overflow n = false;
  token_no_error : number_match_error n = false;
  token_unsigned : number_unsigned_ready n = true ->
    all_digits t /\ (number_unsigned_overflow n = false -> number_unsigned n = digits_value t);
  token_reallocs : Forall (fun ok => ok = true) (reallocs n)
}.

Lemma each_invariant {T A} (P : A -> Prop) (f : nat -> T -> A -> A) l a :
  P a -> (forall i x a, P a -> P (f i x a)) -> P (each f l a).
Proof.
  unfold each. intros Ha Hf. generalize 0%nat. revert a Ha.
  induction l as [|x l IH]; intros a Ha i; cbn; auto.
Qed.

Lemma range_start_read cfg active n : active <> 0 ->
  Forall (fun ok => ok = true) (reallocs n) ->
  token_read active (match_limit cfg active) [] (lql_json_number_range_start cfg active n).
Proof.
  intros Ha Hr. unfold lql_json_number_range_start, is_empty. cbn [update number_range_active].
  rewrite (proj2 (Z.eqb_neq _ _) Ha). set (n0 := if _ =? 0 then _ else _).
  set (n1 := each _ _ _).
  assert (H : number_range_active n1 = active /\ Forall (fun ok => ok = true) (reallocs n1)).
  { subst n1. apply each_invariant.
    - subst n0. cbn [update]. by case_if.
    - intros i x a H. case_if; [|done]. by cbn. }
  destruct H as [H1 H2]. split; cbn; try done.
Qed.

(** The unsigned value follows the digits. *)
Lemma unsigned_step_read active limit t n c : token_read active limit t n ->
  let n' := unsigned_step c (n <| number_token_len := number_token_len n + 1 |>) in
  number_range_active n' = active /\ number_match_limit n' = limit /\ number_match n' = t /\
  number_match_overflow n' = false /\ number_match_error n' = false /\ reallocs n' = reallocs n /\
  number_match_cap n' = number_match_cap n /\
  (number_unsigned_ready n' = true ->
   all_digits (t ++ [c]) /\
   (number_unsigned_overflow n' = false -> number_unsigned n' = digits_value (t ++ [c]))).
Proof.
  intros [Ha Hl Ht Ho He Hu Hr]. unfold unsigned_step. cbn -[Z.mul Z.div].
  destruct (number_unsigned_ready n) eqn:Er.
  - specialize (Hu eq_refl) as [Hd Hv]. destruct (is_digit c) eqn:Ec.
    + assert (Hdc : all_digits (t ++ [c])) by (apply list.Forall_app; split; [done|by constructor]).
      destruct (_ <? _); [by cbn; repeat split|].
      destruct (number_unsigned_overflow n) eqn:Eo; cbn -[Z.mul].
      * repeat split; try done. congruence.
      * repeat split; try done. intros _. by rewrite digits_value_snoc, Hv.
    + by cbn.
  - cbn. repeat split; try done; congruence.
Qed.

Lemma range_byte_read cfg active limit t c s :
  active <> 0 -> Z.of_nat (length t) + 1 < limit -> token_read active limit t (number s) ->
  exists s', lql_json_number_range_byte cfg c s = Some (inl tt, s') /\
    token_read active limit (t ++ [c]) (number s').
Proof.
  intros Hact Hlim H. pose proof (unsigned_step_read _ _ _ _ c H) as Hn. cbn zeta in Hn.
  set (n' := unsigned_step _ _) in Hn. destruct Hn as (Ha & Hl & Ht & Ho & He & Hr & Hc & Hu).
  unfold lql_json_number_range_byte, gets, modify, mbind, Scan_bind.
  rewrite (token_active _ _ _ _ H). unfold is_empty. rewrite (proj2 (Z.eqb_neq _ _) Hact).
  cbn [update number on_number]. fold n'. rewrite Ho. unfold len. rewrite Ht, Hl.
  pose proof (token_reallocs _ _ _ _ H) as Hall. rewrite <- Hr in Hall.
  destruct (number_match_cap n' <=? _); [destruct (Z.leb_spec limit (Z.of_nat (length t) + 1)); [lia|]|].
  - cbn [update number]. assert (Hok : default true (head (reallocs n')) = true).
    { by destruct Hall as [|b l ->]. }
    rewrite Hok. eexists. split; [reflexivity|]. cbn [update number].
    split; cbn; try done; fold n'; [by rewrite Ht|by destruct Hall].
  - eexists. split; [reflexivity|]. split; cbn; try done; fold n'. by rewrite Ht.
Qed.

Lemma number_bytes_read cfg active limit t : active <> 0 -> forall p s,
  Z.of_nat (length p) + Z.of_nat (length t) < limit -> token_read active limit p (number s) ->
  exists s', number_bytes cfg t s = Some (inl tt, s') /\ token_read active limit (p ++ t) (number s').
Proof.
  intros Hact. induction t as [|c t IH]; intros p s Hlim H; cbn.
  - exists s. by rewrite app_nil_r.
  - cbn in Hlim. destruct (range_byte_read cfg active limit p c s Hact ltac:(lia) H) as (s1 & E & H1).
    unfold mbind, Scan_bind. rewrite E.
    destruct (IH (p ++ [c]) s1) as (s2 & E2 & H2); [rewrite length_app; cbn; lia|done|].
    exists s2. by rewrite <- app_assoc in H2.
Qed.

(** ** The comparison *)

Lemma adjusted_exponent_ext f g k n : (forall k z, f k z = g k z) ->
  lql_number_adjusted_exponent f k n = lql_number_adjusted_exponent g k n.
Proof.
  intros H.
  assert (Ha : forall a b s, lql_number_add_digits f k a b s = lql_number_add_digits g k a b s)
    by (intros; unfold lql_number_add_digits; by rewrite H).
  assert (Hs : forall a b s, lql_number_sub_digits f k a b s = lql_number_sub_digits g k a b s)
    by (intros; unfold lql_number_sub_digits; by rewrite H).
  unfold lql_number_adjusted_exponent. destruct (if _ <? 0 then _ else _) as [m sm].
  destruct (if (_ =? _)%nat then _ else _) as [base bn]. by rewrite !Ha, !Hs.
Qed.

Lemma compare_json_ext f g l r : (forall k z, f k z = g k z) ->
  lql_number_compare_json f l r = lql_number_compare_json g l r.
Proof.
  intros H. unfold lql_number_compare_json, compare_json_decimal, lql_number_compare_abs.
  destruct (lql_number_compare_plain_integer l r); [done|].
  destruct (lql_number_decimal_parse l) as [a|]; [|done].
  destruct (lql_number_decimal_parse r) as [b|]; [|done].
  by rewrite (adjusted_exponent_ext f g 0 a H), (adjusted_exponent_ext f g 1 b H).
Qed.

Lemma compare_current_eq active limit t n tr literal m e :
  token_read active limit t n -> json_number t m e ->
  lql_json_number_compare_current n tr literal = lql_number_compare_json always_ok t literal.
Proof.
  intros [_ _ Ht Ho _ Hu Hr] Hj. unfold lql_json_number_compare_current. rewrite Ho, Ht.
  assert (Hslow : match lql_json_compare_unsigned_integer_tokens t literal with
                  | Some cmp => Some cmp
                  | None => match lql_json_compare_plain_integers t literal with
                            | Some cmp => Some cmp
                            | None => lql_number_compare_json (compare_alloc n) t literal
                            end
                  end = lql_number_compare_json always_ok t literal).
  { rewrite compare_plain_integers_eq, (compare_json_ext (compare_alloc n) always_ok).
    - unfold lql_number_compare_json.
      destruct (lql_json_compare_unsigned_integer_tokens t literal) as [c|] eqn:E.
      + by rewrite (compare_unsigned_eq _ _ _ E).
      + by destruct (lql_number_compare_plain_integer t literal).
    - intros k z. unfold compare_alloc, always_ok. revert k. induction Hr as [|b l Hb _ IH];
        intros [|k]; cbn; auto. }
  destruct (number_unsigned_ready n && negb (number_unsigned_overflow n)) eqn:E; [|done].
  bool_hyps. destruct (Hu ltac:(done)) as [Hd Hv]. rewrite Hv by done.
  destruct (lql_json_parse_unsigned_integer_token literal) as [u|] eqn:Eu; [|done].
  apply parse_unsigned_canonical in Eu as [Hc ->]. unfold lql_number_compare_json.
  rewrite compare_canonical by (eauto using json_digits_canonical). by rewrite three_way_compare.
Qed.

(** C11. A number of the stream that fits the match buffer is compared with a
    literal as exact decimal values, whichever shortcut answers, when allocation
    succeeds. *)
Theorem number_token_compared_exactly cfg active t m1 e1 literal m2 e2 tr s :
  active <> 0 -> json_number t m1 e1 -> json_number literal m2 e2 ->
  Z.of_nat (length t) < match_limit cfg active -> Z.of_nat (length literal) <= LONG_MAX ->
  Forall (fun ok => ok = true) (reallocs (number s)) ->
  exists s', number_bytes cfg t (on_number (lql_json_number_range_start cfg active) s) =
      Some (inl tt, s') /\
    lql_json_number_compare_current (number s') tr literal =
      Some (sgn_of (decimal_compare m1 e1 m2 e2)).
Proof.
  intros Ha Ht Hl Hlim Hlen Hr.
  destruct (number_bytes_read cfg active (match_limit cfg active) t Ha []
              (on_number (lql_json_number_range_start cfg active) s)) as (s' & E & H).
  - cbn. lia.
  - by apply range_start_read.
  - exists s'. split; [done|]. rewrite (compare_current_eq _ _ _ _ _ _ _ _ H Ht).
    apply compare_json_correct; auto.
    assert (match_limit cfg active <= 128 * 1024) by apply Z.le_min_r.
    cbn [app]. unfold LONG_MAX. lia.
Qed.

(** A term on /n equal to a number. *)
Definition number_term (literal : bytes) : lql_json_flat_eq_term :=
  mk_term LQL_JSON_FLAT_TERM_NUMBER_EQ (bs "n") literal (Some (bs "/n")) 1 0 0 0 0 0 None 0
    None None None None None None None None None None 0 [] true true.

Definition number_config (literal : bytes) : scan_config :=
  scan_config_of (mk_request [number_term literal] None false false 0 [] 0 0 false).

Definition number_scan (literal : bytes) : lql_json_scan :=
  scan_start (number_config literal) (mk_spool None 0 None None 0) (mk_env [] [] [] []) [] [] [].

Lemma number_token_compared_exactly_witness :
  exists s', number_bytes (number_config (bs "-125E-01")) (bs "12.5")
      (on_number (lql_json_number_range_start (number_config (bs "-125E-01")) 1)
         (number_scan (bs "-125E-01"))) = Some (inl tt, s') /\
    lql_json_number_compare_current (number s') track_start (bs "-125E-01") = Some 1.
Proof.
  apply (number_token_compared_exactly (number_config (bs "-125E-01")) 1 (bs "12.5") 125 (-1)
           (bs "-125E-01") (-125) (-1) track_start (number_scan (bs "-125E-01")));
    [discriminate|apply json_number_12_5|apply json_number_125em1|vm_compute; reflexivity|
     vm_compute; discriminate|constructor].
Defined.
