(* ===== verification/SpoolProps.v ===== *)
(** * The spool is a byte string

    Whatever the C library answers, a spool that was reset and appended to holds the
    concatenation of what was appended, in memory or in its file, and every reading
    operation that succeeds answers as on that byte string.  [SpoolLaws] is the part
    of this that the scanner relies on. *)

From S2P Require Import Prelude.
From S2P Require Import Errors.
From S2P Require Import JsonSpool.

(** ** What a spool holds *)

(** The bytes a spool has, in memory or in its file. *)
Definition stored (s : lql_json_spool) : bytes :=
  match spool_file_ s with
  | Some f => file_bytes f
  | None => default [] (spool_memory s)
  end.

(** The spool [s] holds the bytes [c]: its file may have more after a write that
    failed. *)
Record holds (c : bytes) (s : lql_json_spool) : Prop := {
  holds_memory : is_Some (spool_memory s);
  holds_stored : take (length c) (stored s) = c;
  holds_exact : spool_file_ s = None -> stored s = c;
  holds_size : spool_size s = len c;
  holds_cache : forall d, read_cache s = Some d ->
    d = take (length d) (drop (read_cache_offset s) c) /\ (spool_file_ s = None -> d = [])
}.

(** The next write goes to the end. *)
Record appendable (c : bytes) (s : lql_json_spool) : Prop := {
  app_holds : holds c s;
  app_exact : stored s = c;
  app_end : forall f, spool_file_ s = Some f -> file_pos f = length c
}.

(** The reset and the append, as a client of the spool sees them. *)
Class SpoolLaws (content : bytes -> lql_json_spool -> Prop) := {
  content_reset c s : content c s -> content [] (lql_json_spool_reset s);
  content_append c d s e s' e' :
    content c s -> lql_json_spool_append d s e = (inr tt, s', e') -> content (c ++ d) s'
}.

(** ** Appending *)

Lemma file_write_end f c d : file_bytes f = c -> file_pos f = length c ->
  file_bytes (file_write f d) = c ++ d /\ file_pos (file_write f d) = length (c ++ d).
Proof.
  intros <- Hp. unfold file_write. cbn. rewrite Hp, firstn_all, drop_ge, app_nil_r by lia.
  split; [done|]. by rewrite length_app.
Qed.

(** Only the file changes, and it has the bytes written at the end. *)
Lemma spool_fwrite_spec c d s e f : spool_file_ s = Some f -> file_bytes f = c ->
  file_pos f = length c ->
  exists b k f' e', spool_fwrite d s e = (inr b, with_file s (Some f'), e') /\
    file_bytes f' = c ++ take k d /\ file_pos f' = length (c ++ take k d) /\
    (b = true -> take k d = d) /\ delivered e' = delivered e.
Proof.
  intros Hf Hb Hp. unfold spool_fwrite, mbind, W_bind, next_io, spool_get, spool_put, mret, W_ret.
  rewrite Hf. destruct (default None (list.head (io_outcomes e))) as [k|].
  - destruct (k <? length d)%nat eqn:E.
    + destruct (file_write_end f c (take k d) Hb Hp) as [? ?].
      eexists false, k, _, _. split; [reflexivity|]. by repeat split.
    + destruct (file_write_end f c d Hb Hp) as [? ?].
      eexists true, (length d), _, _. rewrite firstn_all. split; [reflexivity|]. by repeat split.
  - destruct (file_write_end f c d Hb Hp) as [? ?].
    eexists true, (length d), _, _. rewrite firstn_all. split; [reflexivity|]. by repeat split.
Qed.

Lemma holds_with_file c x s f : holds c s -> file_bytes f = c ++ x -> read_cache s = None \/
  read_cache s = Some [] -> holds c (with_file s (Some f)).
Proof.
  intros [Hm Hs He Hz Hc] Hb Hr. split; cbn; try done.
  - unfold stored. cbn. by rewrite Hb, take_app_length.
  - intros d Hd. destruct Hr as [Hr|Hr]; rewrite Hr in Hd; [done|]. by injection Hd as <-.
Qed.

Lemma holds_cache_clear c s : holds c s -> holds c (cache_clear s).
Proof.
  intros [Hm Hs He Hz Hc]. split; try done. cbn. intros d Hd.
  destruct (read_cache s); [|done]. by injection Hd as <-.
Qed.

Lemma appendable_cache_clear c s : appendable c s -> appendable c (cache_clear s).
Proof. intros [H1 H2 H3]. split; [by apply holds_cache_clear|done|done]. Qed.

Lemma cache_clear_empty s : read_cache (cache_clear s) = None \/ read_cache (cache_clear s) = Some [].
Proof. cbn. destruct (read_cache s); cbn; auto. Qed.

Lemma appendable_grow c d s f : appendable c s -> file_bytes f = c ++ d ->
  file_pos f = length (c ++ d) -> read_cache s = None \/ read_cache s = Some [] ->
  appendable (c ++ d) (with_size (with_file s (Some f)) (len (c ++ d))).
Proof.
  intros [[Hm Hs He Hz Hc] H2 H3] Hb Hp Hr.
  assert (Hst : stored (with_size (with_file s (Some f)) (len (c ++ d))) = c ++ d) by done.
  split; [split| |]; try done.
  - by rewrite Hst, firstn_all.
  - cbn. intros x Hx. destruct Hr as [Hr|Hr]; rewrite Hr in Hx; [done|]. by injection Hx as <-.
  - cbn. by intros ? [= <-].
Qed.

(** The memory moved to a file. *)
Lemma spill_spec c s e : appendable c s -> spool_file_ s = None ->
  exists r s' e', lql_json_spool_spill c s e = (r, s', e') /\ delivered e' = delivered e /\
    appendable c s' /\ spool_size s' = spool_size s /\
    match r with
    | inr _ => is_Some (spool_file_ s')
    | inl (status, _) => status = LQL_STATUS_IO_ERROR
    end.
Proof.
  intros Ha Hn. pose proof (app_holds _ _ Ha) as Hh.
  assert (Hc0 : read_cache s = None \/ read_cache s = Some []).
  { destruct (read_cache s) as [d|] eqn:E; [right|by left].
    destruct (holds_cache _ _ Hh d E) as [_ Hd]. by rewrite Hd. }
  assert (Hmv : forall f, file_bytes f = c -> file_pos f = length c -> appendable c (with_file s (Some f))).
  { intros f Hb Hp. split; [apply (holds_with_file c []); [done|by rewrite app_nil_r|done]|done|].
    cbn. by intros ? [= <-]. }
  unfold lql_json_spool_spill, mbind, W_bind, next_io, spool_get, spool_put, mret, W_ret,
    lql_json_spool_error.
  destruct (default None (list.head (io_outcomes e))) as [k|].
  { eexists (inl _), _, _. split; [reflexivity|]. by split_and!. }
  destruct (length c =? 0)%nat eqn:E.
  - apply Nat.eqb_eq in E. destruct c; [|done]. eexists (inr _), _, _. split; [reflexivity|].
    split_and!; [done|by apply (Hmv (mk_file [] 0))|done|by eexists].
  - set (s1 := with_file s (Some (mk_file [] 0))). set (e1 := mk_env _ _ _ _).
    destruct (spool_fwrite_spec [] c s1 e1 (mk_file [] 0) eq_refl eq_refl eq_refl)
      as (b & k & f' & e' & -> & Hb & Hp & Hall & Hd).
    destruct b.
    + specialize (Hall eq_refl). rewrite Hall in Hb, Hp. cbn in Hb, Hp.
      eexists (inr _), _, _. split; [reflexivity|]. split; [done|].
      split_and!; [by apply Hmv|done|by eexists].
    + eexists (inl _), _, _. split; [reflexivity|]. by split_and!.
Qed.

(** The bytes appended to the file, which is made when there is none. *)
Lemma append_to_file_spec c d s e : appendable c s ->
  exists r s' e', append_to_file c d s e = (r, s', e') /\ delivered e' = delivered e /\
    spool_size s' = spool_size s /\
    match r with
    | inr _ => appendable (c ++ d) (with_size s' (len (c ++ d)))
    | inl (status, _) => holds c s' /\ status = LQL_STATUS_IO_ERROR
    end.
Proof.
  intros Ha. unfold append_to_file, spool_get, mbind, W_bind at 1.
  assert (Hmade : exists r s1 e1,
    (match spool_file_ s with None => lql_json_spool_spill c | Some _ => mret tt end) s e =
      (r, s1, e1) /\ delivered e1 = delivered e /\ appendable c s1 /\ spool_size s1 = spool_size s /\
    match r with inr _ => is_Some (spool_file_ s1) | inl (status, _) => status = LQL_STATUS_IO_ERROR end).
  { destruct (spool_file_ s) eqn:Ef; [|by apply spill_spec].
    eexists (inr tt), s, e. by split_and!. }
  destruct Hmade as (r & s1 & e1 & E1 & Hd1 & Ha1 & Hz1 & Hr). unfold W_bind at 1.
  match goal with |- context [?m s e] => change (m s e) with
    ((match spool_file_ s with None => lql_json_spool_spill c | Some _ => mret tt end) s e) end.
  rewrite E1.
  destruct r as [[status msg]|[]].
  { eexists (inl _), _, _. split_and!; try done. split; [apply Ha1|done]. }
  apply appendable_cache_clear in Ha1 as Ha2. cbn [spool_put]. unfold spool_put, mret, W_ret.
  destruct Hr as [f Hf]. destruct (length d =? 0)%nat eqn:E0.
  - apply Nat.eqb_eq in E0. destruct d; [|done]. rewrite app_nil_r.
    eexists (inr tt), _, _. split_and!; [reflexivity|done|done|].
    destruct Ha2 as [[Hm Hs He Hz Hc] H2 H3]. split; [by split|done|done].
  - unfold W_bind. destruct (spool_fwrite_spec c d (cache_clear s1) e1 f Hf) as (b & k & f' & e' & -> & Hb & Hp & Hall & Hd).
    { pose proof (app_exact _ _ Ha2) as H. unfold stored in H. cbn in H. by rewrite Hf in H. }
    { by apply (app_end _ _ Ha2). }
    destruct b.
    + rewrite Hall in Hb, Hp by done. eexists (inr tt), _, _. split_and!; [reflexivity|congruence|done|].
      apply (appendable_grow _ _ _ _ Ha2); [done..|apply cache_clear_empty].
    + eexists (inl _), _, _. split_and!; [reflexivity|congruence|done|].
      split; [|done]. eapply holds_with_file; [apply Ha2|done|apply cache_clear_empty].
Qed.

(** An append adds the bytes, or fails and leaves what was there. *)
Lemma spool_append_spec c d s e : appendable c s ->
  exists r s' e', lql_json_spool_append d s e = (r, s', e') /\ delivered e' = delivered e /\
    match r with
    | inr _ => appendable (c ++ d) s'
    | inl (status, _) =>
        holds c s' /\ (status = LQL_STATUS_IO_ERROR \/
                       status = LQL_STATUS_NO_MEMORY /\ SIZE_LIMIT < len (c ++ d))
    end.
Proof.
  intros Ha. destruct (holds_memory _ _ (app_holds _ _ Ha)) as [m Hm].
  pose proof (holds_size _ _ (app_holds _ _ Ha)) as Hz.
  unfold lql_json_spool_append, mbind, W_bind at 1, spool_get, spool_put, mret, W_ret. rewrite Hm, Hz.
  assert (Hlen : len (c ++ d) = len c + len d) by (unfold len; rewrite length_app; lia).
  destruct (SIZE_LIMIT - len c <? len d) eqn:E.
  { eexists (inl _), _, _. split; [reflexivity|]. split; [done|]. split; [apply Ha|right; split; [done|lia]]. }
  destruct (bool_decide (spool_file_ s = None) && _) eqn:Eb.
  - bool_hyps. rewrite bool_decide_eq_true in H. cbn [W_bind].
    assert (m = c) as -> by (pose proof (app_exact _ _ Ha) as Hx; unfold stored in Hx; by rewrite H, Hm in Hx).
    eexists (inr tt), _, _. split; [unfold W_bind; reflexivity|]. split; [done|]. cbn [spool_size with_memory].
    rewrite Hz, <- Hlen. destruct Ha as [[_ Hs He _ Hc] H2 H3].
    assert (Hst : stored (with_size (with_memory s (Some (c ++ d))) (len (c ++ d))) = c ++ d)
      by (unfold stored; cbn; by rewrite H).
    split; [split| |]; try done; cbn; [by rewrite Hst, firstn_all| |by rewrite H].
    intros x Hx. destruct (Hc x Hx) as [_ Hn]. by rewrite Hn.
  - assert (Hmem : append_to_file m d s e = append_to_file c d s e).
    { unfold append_to_file, mbind, W_bind, spool_get.
      destruct (spool_file_ s) eqn:Ef; [reflexivity|].
      assert (m = c) as -> by (pose proof (app_exact _ _ Ha) as Hx; unfold stored in Hx; by rewrite Ef, Hm in Hx).
      done. }
    destruct (append_to_file_spec c d s e Ha) as (r & s' & e' & E1 & Hd & Hz' & Hr).
    unfold W_bind. rewrite Hmem, E1. destruct r as [[status msg]|[]].
    + destruct Hr. eexists (inl _), _, _. split; [reflexivity|]. split; [done|]. split; [done|by left].
    + eexists (inr tt), _, _. split; [reflexivity|]. split; [done|]. by rewrite Hz', Hz, <- Hlen.
Qed.

Lemma reset_appendable c s : holds c s -> appendable [] (lql_json_spool_reset s).
Proof.
  intros [[m Hm] _ _ _ _].
  assert (Hst : stored (lql_json_spool_reset s) = []) by (unfold stored; cbn; by rewrite Hm).
  split; [split| |]; try done; cbn; [by rewrite Hm; eexists|].
  intros d Hd. destruct (read_cache s); [|done]. by injection Hd as <-.
Qed.

(** The spool as the scanner relies on it. *)
#[export] Instance spool_laws : SpoolLaws appendable.
Proof.
  split.
  - intros c s [H _ _]. by eapply reset_appendable.
  - intros c d s e s' e' Ha E. destruct (spool_append_spec c d s e Ha) as (r & s1 & e1 & E1 & _ & Hr).
    rewrite E in E1. by injection E1 as <- <- <-.
Qed.

(** ** Reading *)

Lemma holds_refile c s f p : holds c s -> spool_file_ s = Some f ->
  holds c (with_file s (Some (mk_file (file_bytes f) p))).
Proof.
  intros [Hm Hs He Hz Hc] Hf. split; try done; cbn.
  - unfold stored in *. cbn. by rewrite Hf in Hs.
  - intros d Hd. by split; [apply Hc|].
Qed.

Lemma seek_spec c s e f off : holds c s -> spool_file_ s = Some f ->
  exists (b : bool) e', lql_json_spool_seek off s e =
      (inr b, if b then with_file s (Some (mk_file (file_bytes f) off)) else s, e') /\
    delivered e' = delivered e /\ (io_outcomes e = [] -> b = true /\ io_outcomes e' = []) /\
    writer_outcomes e' = writer_outcomes e.
Proof.
  intros Hh Hf. unfold lql_json_spool_seek, mbind, W_bind, next_io, spool_get, spool_put, mret, W_ret.
  rewrite Hf. destruct (default None (list.head (io_outcomes e))) as [k|] eqn:E.
  - eexists false, _. split_and!; [reflexivity|done| |done]. intros H. by rewrite H in E.
  - eexists true, _. split_and!; [reflexivity|done| |done]. cbn. intros ->. done.
Qed.

(** A read of [n] bytes that gets them all gets those the spool holds there. *)
Lemma fread_spec c s e f n : holds c s -> spool_file_ s = Some f ->
  exists d e', spool_fread n s e =
      (inr d, with_file s (Some (mk_file (file_bytes f) (file_pos f + length d))), e') /\
    delivered e' = delivered e /\ writer_outcomes e' = writer_outcomes e /\
    ((file_pos f + n <= length c)%nat ->
     (length d = n -> d = take n (drop (file_pos f) c)) /\
     (io_outcomes e = [] -> length d = n /\ io_outcomes e' = [])).
Proof.
  intros Hh Hf. unfold spool_fread, mbind, W_bind, next_io, spool_get, spool_put, mret, W_ret.
  rewrite Hf. set (k := match default None (list.head (io_outcomes e)) with Some k => Nat.min k n | None => n end).
  eexists _, _. split; [reflexivity|]. split_and!; [done|done|]. intros Hn.
  pose proof (holds_stored _ _ Hh) as Hst. unfold stored in Hst. rewrite Hf in Hst.
  assert (Hlen : (length c <= length (file_bytes f))%nat).
  { rewrite <- Hst, length_take. lia. }
  assert (Hk : (k <= n)%nat) by (subst k; case_match; lia).
  assert (Hd : length (take k (drop (file_pos f) (file_bytes f))) = k).
  { rewrite length_take, length_drop. lia. }
  split.
  - intros Hl. rewrite Hd in Hl. rewrite Hl, <- Hst, skipn_firstn_comm, take_take.
    f_equal. lia.
  - intros Hio. rewrite Hd. subst k. rewrite Hio. cbn. done.
Qed.

(** The operations of [Output] for the writer of the environment. *)
Ltac plain_output :=
  change (@on_source W W_output) with (fun A (m : W A) => m);
  change (@write_bytes W W_output) with call_writer;
  change (@output_bind W W_output) with W_bind;
  change (@output_ret W W_output) with W_ret; cbv beta.

(** The copy loop hands the writer the slice, or a prefix of it when it fails. *)
Lemma write_slice_loop_spec c capacity fuel : forall off n s e,
  holds c s -> is_Some (spool_file_ s) -> (off + n <= length c)%nat -> (0 < capacity)%nat ->
  (n <= fuel)%nat ->
  exists r s' e' k, write_slice_loop (F := W) fuel capacity off n s e = (r, s', e') /\ holds c s' /\
    delivered e' = delivered e ++ take k (take n (drop off c)) /\
    (r = inr tt -> (n <= k)%nat) /\
    (io_outcomes e = [] -> writer_outcomes e = [] -> r = inr tt).
Proof.
  induction fuel as [|fuel IH]; intros off n s e Hh [f Hf] Hoff Hcap Hfuel.
  { assert (n = 0%nat) as -> by lia. eexists (inr tt), s, e, 0%nat. cbn.
    rewrite app_nil_r. by split_and!. }
  destruct n as [|n].
  { eexists (inr tt), s, e, 0%nat. cbn. rewrite app_nil_r. by split_and!. }
  cbn [write_slice_loop]. set (amount := Nat.min (S n) capacity). plain_output.
  unfold mbind, W_bind at 1.
  destruct (seek_spec c s e f off Hh Hf) as (b & e1 & -> & Hd1 & Hio1 & Hw1).
  destruct b; cbn [negb].
  2:{ eexists (inl _), s, e1, 0%nat. split; [reflexivity|]. cbn. rewrite app_nil_r.
      split_and!; try done. intros H _. by destruct (Hio1 H). }
  set (s1 := with_file s _). unfold W_bind at 1.
  destruct (fread_spec c s1 e1 (mk_file (file_bytes f) off) amount) as (d & e2 & -> & Hd2 & Hw2 & Hd);
    [by apply holds_refile|done|]. cbn [file_pos file_bytes] in *.
  destruct Hd as [Hd Hio2]; [lia|].
  set (s2 := with_file s1 _).
  assert (Hh2 : holds c s2) by (apply (holds_refile c s1 (mk_file (file_bytes f) off)); [by apply holds_refile|done]).
  destruct (length d =? amount)%nat eqn:El; cbn [negb].
  2:{ eexists (inl _), s2, e2, 0%nat. split; [reflexivity|]. cbn. rewrite app_nil_r.
      split_and!; try done; [congruence|]. intros H _. destruct (Hio1 H) as [_ H1].
      destruct (Hio2 H1) as [H2 _]. rewrite H2, Nat.eqb_refl in El. done. }
  apply Nat.eqb_eq in El. specialize (Hd El). unfold W_bind at 1, call_writer. rewrite Hw2, Hw1.
  assert (Hpre : d = take amount (take (S n) (drop off c))).
  { rewrite take_take, Nat.min_l by lia. done. }
  destruct (default LQL_STATUS_OK (list.head (writer_outcomes e))) eqn:Ew.
  { set (e3 := mk_env _ _ _ _).
    destruct (IH (off + amount)%nat (S n - amount)%nat s2 e3) as (r & s' & e' & k & -> & Hh' & Hdel & Hk & Hok);
      [done|by eexists|lia|done|lia|].
    eexists r, s', e', (amount + k)%nat. split_and!; [done|done| |intros ->; specialize (Hk eq_refl); lia|].
    - rewrite Hdel. cbn [delivered e3]. rewrite Hd2, Hd1, <- app_assoc. f_equal.
      rewrite <- (take_take_drop _ amount k), <- Hpre. f_equal.
      by rewrite skipn_firstn_comm, drop_drop.
    - intros H1 H2. destruct (Hio1 H1) as [_ H3]. destruct (Hio2 H3) as [_ H4].
      apply Hok; [done|]. cbn. by rewrite H2. }
  all: eexists (inl _), s2, _, amount; split; [reflexivity|]; split_and!; try done;
    [cbn [delivered]; rewrite Hd2, Hd1; by f_equal|intros _ H; by rewrite H in Ew].
Qed.

(** The cell of a cache that holds a piece of the text. *)
Lemma cache_cell c d first off : d = take (length d) (drop first c) ->
  (first <= off)%nat -> (off < first + length d)%nat -> c !! off = Some (nth (off - first) d 0).
Proof.
  intros Hd H1 H2. destruct (d !! (off - first)%nat) as [x|] eqn:E;
    [|apply lookup_ge_None in E; lia].
  rewrite (nth_lookup_Some d _ 0 x) by done. rewrite Hd, lookup_take_lt, lookup_drop in E
    by lia. rewrite <- E. f_equal. lia.
Qed.

Lemma write_slice_spec c off n s e : holds c s -> (off + n <= length c)%nat ->
  exists r s' e' k, lql_json_spool_write_slice (F := W) off n s e = (r, s', e') /\ holds c s' /\
    delivered e' = delivered e ++ take k (take n (drop off c)) /\ (r = inr tt -> (n <= k)%nat) /\
    (io_outcomes e = [] -> alloc_outcomes e = [] -> writer_outcomes e = [] -> r = inr tt).
Proof.
  intros Hh Hn. destruct (holds_memory _ _ Hh) as [m Hm].
  unfold lql_json_spool_write_slice. plain_output. unfold mbind, W_bind, spool_get. rewrite Hm, (holds_size _ _ Hh).
  replace (len c <? Z.of_nat off) with false by (symmetry; unfold len; lia).
  replace (len c - Z.of_nat off <? Z.of_nat n) with false by (symmetry; unfold len; lia). cbn [orb].
  destruct (spool_file_ s) as [f|] eqn:Ef.
  - destruct (n =? 0)%nat eqn:E0.
    { apply Nat.eqb_eq in E0. subst. eexists (inr tt), s, e, 0%nat. cbn. rewrite app_nil_r.
      by split_and!. }
    apply Nat.eqb_neq in E0. unfold next_alloc.
    destruct (default true (list.head (alloc_outcomes e))) eqn:Ea; cbn [negb].
    + set (e1 := mk_env _ _ _ _).
      destruct (write_slice_loop_spec c (Nat.min n (Z.to_nat LQL_JSON_SPOOL_IO_BUFFER_BYTES)) n
                  off n s e1) as (r & s' & e' & k & -> & Hh' & Hd & Hk & Hok);
        [done|by eexists|done|unfold LQL_JSON_SPOOL_IO_BUFFER_BYTES; lia|lia|].
      eexists r, s', e', k. split_and!; try done. intros H1 _ H2. by apply Hok.
    + eexists (inl _), s, _, 0%nat. split; [reflexivity|]. cbn. rewrite app_nil_r.
      split_and!; try done. intros _ H. by rewrite H in Ea.
  - pose proof (holds_exact _ _ Hh Ef) as Hx. unfold stored in Hx. rewrite Ef, Hm in Hx. cbn in Hx. subst m.
    unfold call_writer. destruct (default LQL_STATUS_OK (list.head (writer_outcomes e))) eqn:Ew.
    { eexists (inr tt), s, _, n. split; [reflexivity|]. cbn. rewrite take_take, Nat.min_id.
      by split_and!. }
    all: eexists (inl _), s, _, n; split; [reflexivity|]; cbn; rewrite take_take, Nat.min_id;
      split_and!; try done; intros _ _ H; by rewrite H in Ew.
Qed.

(** The spool after a failed seek or read of the cache, or the file at [off]. *)
Lemma cache_seek_spec c message off s e f : holds c s -> spool_file_ s = Some f ->
  exists r s' e', cache_seek message off s e = (r, s', e') /\ holds c s' /\
    is_Some (spool_file_ s') /\
    match r with
    | inr _ => spool_file_ s' = Some (mk_file (file_bytes f) off)
    | inl (status, _) => status = LQL_STATUS_IO_ERROR
    end.
Proof.
  intros Hh Hf. unfold cache_seek, mbind, W_bind, spool_get, spool_put, lql_json_spool_error.
  destruct (seek_spec c s e f off Hh Hf) as (b & e2 & -> & _). destruct b.
  - eexists (inr tt), _, _. split_and!; [reflexivity|by apply holds_refile|by eexists|done].
  - eexists (inl _), _, _. split_and!; [reflexivity|by apply holds_cache_clear|by eexists|done].
Qed.

Lemma fill_cache_spec c message amount s e f : holds c s -> spool_file_ s = Some f ->
  (file_pos f + amount <= length c)%nat ->
  exists r s' e', fill_cache message (file_pos f) amount s e = (r, s', e') /\ holds c s' /\
    is_Some (spool_file_ s') /\
    match r with
    | inr d => length d = amount /\ d = take amount (drop (file_pos f) c) /\
               spool_file_ s' = Some (mk_file (file_bytes f) (file_pos f + amount))
    | inl (status, _) => status = LQL_STATUS_IO_ERROR
    end.
Proof.
  intros Hh Hf Hn. unfold fill_cache, mbind, W_bind, spool_get, spool_put, mret, W_ret, lql_json_spool_error.
  destruct (fread_spec c s e f amount Hh Hf) as (x & e3 & -> & _ & _ & Hx).
  destruct (Hx Hn) as [Hx1 _]. set (s3 := with_file s _).
  assert (Hh3 : holds c s3) by by apply holds_refile.
  destruct (length x =? amount)%nat eqn:El; cbn [negb].
  - apply Nat.eqb_eq in El. specialize (Hx1 El).
    eexists (inr x), _, _. split_and!; [reflexivity| |by eexists|done|done|by rewrite <- El].
    destruct Hh3 as [? ? ? ? ?]. split; try done. cbn. intros ? [= <-]. by rewrite El.
  - eexists (inl _), _, _. split_and!; [reflexivity|by apply holds_cache_clear|by eexists|done].
Qed.

Lemma need_cache_spec c s e : holds c s -> is_Some (spool_file_ s) ->
  exists r s' e', need_cache s e = (r, s', e') /\ holds c s' /\ spool_file_ s' = spool_file_ s /\
    read_cache_offset s' = read_cache_offset s /\ spool_size s' = spool_size s /\
    match r with
    | inr d => read_cache s' = Some d
    | inl (status, _) => status = LQL_STATUS_NO_MEMORY
    end.
Proof.
  intros Hh [f Hf]. unfold need_cache, mbind, W_bind, spool_get, next_alloc, spool_put, mret, W_ret.
  destruct (read_cache s) as [d|] eqn:Ec; [by eexists (inr d), s, e|].
  destruct (default true (list.head (alloc_outcomes e))).
  - eexists (inr []), _, _. split_and!; try done. destruct Hh as [? ? ? ? ?]. split; try done.
    cbn. by intros ? [= <-].
  - eexists (inl _), s, _. by split_and!.
Qed.

Definition read_error (status : lql_status) : Prop :=
  status = LQL_STATUS_NO_MEMORY \/ status = LQL_STATUS_IO_ERROR.

(** What reading a byte may give. *)
Definition byte_result (c : bytes) (off : nat) (r : failure + Z) : Prop :=
  match r with
  | inr b => c !! off = Some b
  | inl (status, _) =>
      status = LQL_STATUS_INVALID_ARGUMENT /\ (length c <= off)%nat \/ read_error status
  end.

Lemma byte_at_spec c off s e : holds c s ->
  exists r s' e', lql_json_spool_byte_at off s e = (r, s', e') /\ holds c s' /\
    (is_Some (spool_file_ s') <-> is_Some (spool_file_ s)) /\ byte_result c off r.
Proof.
  intros Hh. destruct (holds_memory _ _ Hh) as [m Hm].
  unfold lql_json_spool_byte_at, mbind, W_bind at 1, spool_get. rewrite Hm, (holds_size _ _ Hh).
  destruct (len c <=? Z.of_nat off) eqn:E0.
  { eexists (inl _), s, e. repeat (split; [done|]). left. split; [done|]. unfold len in E0. lia. }
  assert (Hlt : (off < length c)%nat) by (unfold len in E0; lia).
  destruct (spool_file_ s) as [f|] eqn:Ef.
  2:{ pose proof (holds_exact _ _ Hh Ef) as Hx. unfold stored in Hx. rewrite Ef, Hm in Hx. cbn in Hx.
      subst m. eexists (inr _), s, e. repeat (split; [by try rewrite Ef|]). cbn.
      destruct (nth_lookup_or_length c off 0); [done|lia]. }
  assert (Hfin : forall r s' (e' : spool_env), holds c s' -> is_Some (spool_file_ s') -> byte_result c off r ->
    exists r0 s0 e0, (r, s', e') = (r0, s0, e0) /\ holds c s0 /\
      (is_Some (spool_file_ s0) <-> is_Some (Some f)) /\ byte_result c off r0).
  { intros r s' e' ? ? ?. exists r, s', e'. split; [done|]. split; [done|]. split; [|done]. by split. }
  unfold W_bind. destruct (need_cache_spec c s e Hh) as (r1 & s1 & e1 & -> & Hh1 & Ef1 & Eo1 & _ & Hr1);
    [by eexists|]. rewrite Ef in Ef1.
  destruct r1 as [[status msg]|d]; [apply Hfin; [done|by eexists|by right; left]|].
  destruct ((read_cache_offset s <=? off)%nat && (off <? read_cache_offset s + length d)%nat) eqn:Ein.
  { bool_hyps. apply Nat.leb_le in H. apply Nat.ltb_lt in H0.
    apply Hfin; [done|by eexists|]. destruct (holds_cache _ _ Hh1 d Hr1) as [Hd _].
    rewrite Eo1 in Hd. by apply cache_cell. }
  set (amount := Nat.min _ _).
  destruct (cache_seek_spec c "unable to read JSON spool byte" off s1 e1 f Hh1 Ef1)
    as (r2 & s2 & e2 & -> & Hh2 & Hs2 & Hr2).
  destruct r2 as [[status msg]|[]]; [by apply Hfin; [..|right; right]|].
  assert (Ham : (off + amount <= length c)%nat) by (subst amount; unfold len; lia).
  destruct (fill_cache_spec c "unable to read JSON spool byte" amount s2 e2 (mk_file (file_bytes f) off))
    as (r3 & s3 & e3 & E3 & Hh3 & Hs3 & Hr3); [done|done|done|]. cbn [file_pos] in *. rewrite E3.
  destruct r3 as [[status msg]|x]; [by apply Hfin; [..|right; right]|].
  destruct Hr3 as (El & Hx & _). apply Hfin; [done..|]. cbn.
  rewrite (cache_cell c x off off); [by rewrite Nat.sub_diag|by rewrite El|lia|].
  subst amount. unfold len, LQL_JSON_SPOOL_IO_BUFFER_BYTES in *. lia.
Qed.

(** ** The end of a string *)

(** The text between the quotes: no quote and no backslash but in a pair of a
    backslash and a byte. *)
Inductive string_body : bytes -> Prop :=
| body_nil : string_body []
| body_plain x b : x <> ch_quote -> x <> ch_backslash -> string_body b -> string_body (x :: b)
| body_escape x b : string_body b -> string_body (ch_backslash :: x :: b).

(** A string starts the text and ends before [i]. *)
Definition string_ends (text : bytes) (i : nat) : Prop :=
  exists body rest, text = ch_quote :: body ++ ch_quote :: rest /\ string_body body /\
    i = (length body + 2)%nat.

Lemma chunk_loop_app a b o escaped :
  string_chunk_loop (a ++ b) o escaped =
    match string_chunk_loop a o escaped with
    | (e, Some i) => (e, Some i)
    | (e, None) => string_chunk_loop b (o + length a) e
    end.
Proof.
  revert o escaped. induction a as [|x a IH]; intros o escaped; cbn; [by rewrite Nat.add_0_r|].
  destruct escaped; [rewrite IH; by rewrite Nat.add_succ_r|].
  destruct (x =? ch_quote); [done|]. by rewrite IH, Nat.add_succ_r.
Qed.

Lemma chunk_loop_offset d o escaped :
  string_chunk_loop d o escaped =
    ((string_chunk_loop d 0 escaped).1, Nat.add o <$> (string_chunk_loop d 0 escaped).2).
Proof.
  enough (H : forall k, string_chunk_loop d (o + k) escaped =
    ((string_chunk_loop d k escaped).1, Nat.add o <$> (string_chunk_loop d k escaped).2))
    by (rewrite <- H; f_equal; lia).
  revert escaped. induction d as [|x d IH]; intros escaped k; cbn; [done|].
  destruct escaped; [by rewrite <- Nat.add_succ_r|].
  destruct (x =? ch_quote); [cbn; by rewrite Nat.add_succ_r|]. by rewrite <- Nat.add_succ_r.
Qed.

(** The loop stops after the first quote that no backslash escapes. *)
Lemma chunk_loop_body body rest o : string_body body ->
  string_chunk_loop (body ++ ch_quote :: rest) o false = (false, Some (o + S (length body))%nat).
Proof.
  intros H. revert o. induction H as [|x b Hq Hb H IH|x b H IH]; intros o; cbn.
  - do 2 f_equal. lia.
  - rewrite (proj2 (Z.eqb_neq _ _) Hq), (proj2 (Z.eqb_neq _ _) Hb), IH. do 2 f_equal. lia.
  - rewrite IH. do 2 f_equal. lia.
Qed.

Lemma chunk_loop_sound d : forall o escaped e i, string_chunk_loop d o escaped = (e, Some i) ->
  exists body rest, d = body ++ ch_quote :: rest /\ i = (o + S (length body))%nat /\
    if escaped then exists x b, body = x :: b /\ string_body b else string_body body.
Proof.
  induction d as [|x d IH]; intros o escaped e i; cbn; [done|]. destruct escaped.
  - intros H. apply IH in H as (body & rest & -> & -> & Hb). exists (x :: body), rest.
    split; [done|]. split; [cbn; lia|]. by exists x, body.
  - destruct (Z.eqb_spec x ch_quote) as [->|Hq].
    + intros [= _ <-]. exists [], d. split; [done|]. split; [cbn; lia|constructor].
    + intros H. apply IH in H as (body & rest & -> & -> & Hb). exists (x :: body), rest.
      split; [done|]. split; [cbn; lia|]. destruct (Z.eqb_spec x ch_backslash) as [->|Hs].
      * destruct Hb as (y & b & -> & Hb). by constructor.
      * by constructor.
Qed.

(** The string that starts before the text [d]. *)
Lemma chunk_end_iff d i : (exists e, lql_json_spool_string_chunk_end d false = (e, Some i)) <->
  string_ends (ch_quote :: d) (S i).
Proof.
  unfold lql_json_spool_string_chunk_end. split.
  - intros [e H]. apply chunk_loop_sound in H as (body & rest & -> & -> & Hb).
    exists body, rest. split; [done|]. split; [done|]. lia.
  - intros (body & rest & [= ->] & Hb & Hi). exists false. rewrite chunk_loop_body by done.
    do 2 f_equal. lia.
Qed.

(** What looking for the end of a string may give, the answer of the loop over the
    text known. *)
Definition find_result (found : bool * option nat) (pos : nat) (r : failure + nat) : Prop :=
  match r with
  | inr i => exists j, found.2 = Some j /\ i = (pos + j)%nat
  | inl (status, _) => status = LQL_STATUS_JSON_ERROR /\ found.2 = None \/ read_error status
  end.

Lemma find_string_loop_spec c stop : (stop <= length c)%nat -> forall fuel pos escaped s e f,
  holds c s -> spool_file_ s = Some f -> file_pos f = pos -> (pos <= stop)%nat ->
  (stop - pos < fuel)%nat ->
  exists r s' e', find_string_loop fuel pos stop escaped s e = (r, s', e') /\ holds c s' /\
    find_result (string_chunk_loop (take (stop - pos) (drop pos c)) 0 escaped) pos r.
Proof.
  intros Hstop. induction fuel as [|fuel IH]; intros pos escaped s e f Hh Hf Hp Hle Hfuel; [lia|].
  cbn [find_string_loop]. destruct (stop <=? pos)%nat eqn:E.
  { apply Nat.leb_le in E. replace (stop - pos)%nat with 0%nat by lia.
    eexists (inl _), s, e. split; [reflexivity|]. split; [done|]. left. done. }
  apply Nat.leb_gt in E. set (amount := Nat.min _ _).
  assert (Ham : (0 < amount)%nat /\ (pos + amount <= stop)%nat)
    by (subst amount; unfold LQL_JSON_SPOOL_IO_BUFFER_BYTES; lia).
  unfold mbind, W_bind.
  destruct (fill_cache_spec c "unable to scan JSON spool string" amount s e f)
    as (r1 & s1 & e1 & E1 & Hh1 & Hs1 & Hr1); [done|done|lia|]. rewrite Hp in *. rewrite E1.
  destruct r1 as [[status msg]|d].
  { eexists (inl _), s1, e1. split; [reflexivity|]. split; [done|]. right. by right. }
  destruct Hr1 as (El & Hd & Hf1).
  assert (Hsplit : take (stop - pos) (drop pos c) = d ++ take (stop - (pos + amount)) (drop (pos + amount) c)).
  { rewrite Hd. rewrite <- drop_drop, take_take_drop. f_equal. lia. }
  rewrite Hsplit, chunk_loop_app, El. unfold lql_json_spool_string_chunk_end.
  destruct (string_chunk_loop d 0 escaped) as [escaped' [i|]].
  { eexists (inr _), s1, e1. split; [reflexivity|]. split; [done|]. by exists i. }
  destruct (IH (pos + amount)%nat escaped' s1 e1 _ Hh1 Hf1 eq_refl) as (r & s' & e' & -> & Hh' & Hr); [lia..|].
  eexists r, s', e'. split; [done|]. split; [done|]. rewrite (chunk_loop_offset _ (0 + amount)).
  destruct r as [[status msg]|i]; cbn [find_result] in *.
  - destruct Hr as [[-> Hr]|Hr]; [left; by cbn; rewrite Hr|by right].
  - destruct Hr as (j & Hj & ->). cbn. rewrite Hj. exists (amount + j)%nat. split; [done|lia].
Qed.

(** The scan after the opening quote, for a spool [s] that [byte_at] left as [s1]. *)
Definition find_after_quote (s : lql_json_spool) (pos stop : nat) : W nat :=
  match spool_file_ s with
  | None =>
      match lql_json_spool_string_chunk_end
              (take (stop - pos) (drop pos (default [] (spool_memory s)))) false with
      | (_, Some i) => mret (pos + i)%nat
      | (_, None) => unterminated
      end
  | Some _ =>
      cache_seek "unable to scan JSON spool string" pos ≫= fun _ =>
      find_string_loop (S (stop - pos)) pos stop false
  end.

Lemma find_after_quote_spec c s s1 e1 pos stop : holds c s -> holds c s1 ->
  (is_Some (spool_file_ s) -> is_Some (spool_file_ s1)) -> (pos <= stop)%nat -> (stop <= length c)%nat ->
  exists r s' e', find_after_quote s pos stop s1 e1 = (r, s', e') /\ holds c s' /\
    find_result (lql_json_spool_string_chunk_end (take (stop - pos) (drop pos c)) false) pos r.
Proof.
  intros Hh Hh1 Hf Hpos Hstop. unfold find_after_quote. destruct (spool_file_ s) as [f|] eqn:Ef.
  - destruct (Hf ltac:(by eexists)) as [f1 Ef1]. unfold mbind, W_bind.
    destruct (cache_seek_spec c "unable to scan JSON spool string" pos s1 e1 f1 Hh1 Ef1)
      as (r2 & s2 & e2 & -> & Hh2 & _ & Hr2).
    destruct r2 as [[status msg]|[]].
    { eexists (inl _), s2, e2. split; [done|]. split; [done|]. right. by right. }
    by apply (find_string_loop_spec c stop Hstop _ _ _ _ _ _ Hh2 Hr2); cbn; [..|lia|lia].
  - pose proof (holds_exact _ _ Hh Ef) as Hx. unfold stored in Hx. rewrite Ef in Hx. rewrite Hx.
    destruct (lql_json_spool_string_chunk_end _ false) as [x [i|]].
    + eexists (inr _), s1, e1. split; [done|]. split; [done|]. by exists i.
    + eexists (inl _), s1, e1. split; [done|]. split; [done|]. by left.
Qed.

(** What looking for the end of the string at [off] may give. *)
Definition string_end_result (text : bytes) (off : nat) (r : failure + nat) : Prop :=
  match r with
  | inr i => string_ends text (i - off)
  | inl (status, _) =>
      status = LQL_STATUS_JSON_ERROR /\ (forall i, ~ string_ends text i) \/ read_error status
  end.

Lemma string_end_result_of rest off r :
  find_result (lql_json_spool_string_chunk_end rest false) (S off) r ->
  string_end_result (ch_quote :: rest) off r.
Proof.
  destruct r as [[status msg]|i]; cbn.
  - intros [[-> Hr]|Hr]; [left; split; [done|]|by right]. intros i Hi.
    destruct i as [|i]; [destruct Hi as (? & ? & _ & _ & ?); lia|].
    apply chunk_end_iff in Hi as [x Hx]. by rewrite Hx in Hr.
  - intros (j & Hj & ->). replace (S (off + j) - off)%nat with (S j) by lia.
    apply chunk_end_iff. exists (lql_json_spool_string_chunk_end rest false).1.
    rewrite <- Hj. apply surjective_pairing.
Qed.

Lemma find_string_end_spec c off stop s e : holds c s -> (off < stop)%nat -> (stop <= length c)%nat ->
  exists r s' e', lql_json_spool_find_string_end off stop s e = (r, s', e') /\ holds c s' /\
    string_end_result (take (stop - off) (drop off c)) off r.
Proof.
  intros Hh Hlt Hstop. unfold lql_json_spool_find_string_end, mbind, W_bind at 1, spool_get.
  rewrite (holds_size _ _ Hh). replace (stop <=? off)%nat with false by (symmetry; by apply Nat.leb_gt).
  replace (len c <? Z.of_nat stop) with false by (symmetry; unfold len; lia). cbn [orb].
  unfold W_bind at 1. destruct (byte_at_spec c off s e Hh) as (r1 & s1 & e1 & -> & Hh1 & Hf1 & Hr1).
  destruct r1 as [[status msg]|ch]; cbn in Hr1.
  { eexists (inl _), s1, e1. split; [done|]. split; [done|]. destruct Hr1 as [[_ ?]|?]; [lia|by right]. }
  assert (Htext : take (stop - off) (drop off c) = ch :: take (stop - S off) (drop (S off) c)).
  { rewrite (drop_S c ch off Hr1). by replace (stop - off)%nat with (S (stop - S off)) by lia. }
  rewrite Htext. destruct (Z.eqb_spec ch ch_quote) as [->|Hne]; cbn [negb].
  - destruct (find_after_quote_spec c s s1 e1 (S off) stop Hh Hh1 (proj2 Hf1))
      as (r & s' & e' & E & Hh' & Hr); [lia|done|].
    exists r, s', e'. split; [exact E|]. split; [done|]. by apply string_end_result_of.
  - eexists (inl _), s1, e1. split; [done|]. split; [done|]. left. split; [done|].
    by intros i (? & ? & [= ? _] & _).
Qed.

(** ** The life of a spool *)

Fixpoint append_all (chunks : list bytes) : W unit :=
  match chunks with
  | [] => mret tt
  | d :: chunks => lql_json_spool_append d ≫= fun _ => append_all chunks
  end.

Lemma append_all_spec chunks : forall c s e s' e', appendable c s ->
  append_all chunks s e = (inr tt, s', e') ->
  appendable (c ++ concat chunks) s' /\ delivered e' = delivered e.
Proof.
  induction chunks as [|d chunks IH]; intros c s e s' e' Ha; cbn.
  - intros [= <- <-]. by rewrite app_nil_r.
  - unfold mbind, W_bind. destruct (spool_append_spec c d s e Ha) as (r & s1 & e1 & -> & Hd & Hr).
    destruct r as [x|[]]; [done|]. intros E. destruct (IH _ _ _ _ _ Hr E) as [Ha' Hd'].
    rewrite <- app_assoc in Ha'. split; [done|congruence].
Qed.

(** A call that reads; its answer, good or bad, is thrown away. *)
Inductive reading :=
| Reading_byte (off : nat)
| Reading_string (off stop : nat)
| Reading_slice (off n : nat).

Definition run_reading (q : reading) (s : lql_json_spool) (e : spool_env)
    : lql_json_spool * spool_env :=
  match q with
  | Reading_byte off => let '(_, s, e) := lql_json_spool_byte_at off s e in (s, e)
  | Reading_string off stop => let '(_, s, e) := lql_json_spool_find_string_end off stop s e in (s, e)
  | Reading_slice off n => let '(_, s, e) := lql_json_spool_write_slice (F := W) off n s e in (s, e)
  end.

Fixpoint run_readings (qs : list reading) (s : lql_json_spool) (e : spool_env)
    : lql_json_spool * spool_env :=
  match qs with
  | [] => (s, e)
  | q :: qs => let '(s, e) := run_reading q s e in run_readings qs s e
  end.

Lemma run_reading_holds c q s e : holds c s -> holds c (run_reading q s e).1.
Proof.
  intros Hh. destruct q as [off|off stop|off n]; cbn.
  - by destruct (byte_at_spec c off s e Hh) as (r & s' & e' & -> & Hh' & _).
  - destruct (Nat.leb_spec stop off) as [Hle|Hlt].
    { unfold lql_json_spool_find_string_end, mbind, W_bind, spool_get.
      by rewrite (proj2 (Nat.leb_le _ _) Hle). }
    destruct (Nat.leb_spec stop (length c)) as [Hs|Hs].
    + by destruct (find_string_end_spec c off stop s e Hh Hlt Hs) as (r & s' & e' & -> & Hh' & _).
    + unfold lql_json_spool_find_string_end, mbind, W_bind, spool_get. rewrite (holds_size _ _ Hh).
      replace (len c <? Z.of_nat stop) with true by (symmetry; unfold len; lia).
      by rewrite orb_true_r.
  - destruct (Nat.leb_spec (off + n) (length c)) as [Hle|Hlt].
    + by destruct (write_slice_spec c off n s e Hh Hle) as (r & s' & e' & k & -> & Hh' & _).
    + destruct (holds_memory _ _ Hh) as [m Hm].
      unfold lql_json_spool_write_slice. plain_output. unfold mbind, W_bind, spool_get. rewrite Hm, (holds_size _ _ Hh).
      replace ((len c <? Z.of_nat off) || (len c - Z.of_nat off <? Z.of_nat n)) with true; [done|].
      symmetry. unfold len. destruct (Z.of_nat (length c) <? Z.of_nat off) eqn:E; cbn; lia.
Qed.

Lemma run_readings_holds c qs : forall s e, holds c s -> holds c (run_readings qs s e).1.
Proof.
  induction qs as [|q qs IH]; intros s e Hh; cbn; [done|].
  pose proof (run_reading_holds c q s e Hh). destruct (run_reading q s e) as [s1 e1]. by apply IH.
Qed.

(** C5. A spool is the concatenation of what was appended since the last reset,
    in memory or spilled to its file, whatever the allocator, the C library and the
    writers answer and however it was read in between: its size is that length;
    [write_to] hands the writer a prefix of it, all of it when it succeeds, and
    it succeeds when nothing fails; [byte_at] gives the byte or an error, the
    invalid argument only out of range; [find_string_end] gives the end of the
    JSON string that starts there, a JSON error only when there is none. *)
Theorem spool_is_bytes (c0 : bytes) (s0 s1 : lql_json_spool) (e0 e1 : spool_env)
    (chunks : list bytes) (qs : list reading) :
  holds c0 s0 -> append_all chunks (lql_json_spool_reset s0) e0 = (inr tt, s1, e1) ->
  let c := concat chunks in
  let '(s, e) := run_readings qs s1 e1 in
  lql_json_spool_size (Some s) = len c /\
  (exists r s' e' k, lql_json_spool_write_to (F := W) s e = (r, s', e') /\
     delivered e' = delivered e ++ take k c /\ (r = inr tt -> take k c = c) /\
     (io_outcomes e = [] -> alloc_outcomes e = [] -> writer_outcomes e = [] -> r = inr tt)) /\
  (forall off, exists r s' e', lql_json_spool_byte_at off s e = (r, s', e') /\ byte_result c off r) /\
  (forall off stop, (off < stop)%nat -> (stop <= length c)%nat ->
     exists r s' e', lql_json_spool_find_string_end off stop s e = (r, s', e') /\
       string_end_result (take (stop - off) (drop off c)) off r).
Proof.
  intros Hh E c.
  destruct (append_all_spec chunks [] _ _ _ _ (reset_appendable _ _ Hh) E) as [Ha _].
  pose proof (run_readings_holds c qs s1 e1 (app_holds _ _ Ha)) as Hc.
  destruct (run_readings qs s1 e1) as [s e]. cbn in Hc. split; [by apply holds_size|]. split; [|split].
  - unfold lql_json_spool_write_to. plain_output. unfold mbind, W_bind, spool_get.
    rewrite (holds_size _ _ Hc). replace (Z.to_nat (len c)) with (length c) by (unfold len; lia).
    destruct (write_slice_spec c 0 (length c) s e Hc) as (r & s' & e' & k & -> & _ & Hd & Hk & Hok); [lia|].
    exists r, s', e', k. rewrite drop_0, firstn_all in Hd. split; [done|]. split; [done|].
    split; [|done]. intros Hr. by apply take_ge, Hk.
  - intros off. destruct (byte_at_spec c off s e Hc) as (r & s' & e' & -> & _ & _ & Hr). by eexists _, _, _.
  - intros off stop H1 H2. destruct (find_string_end_spec c off stop s e Hc H1 H2) as (r & s' & e' & -> & _ & Hr).
    by eexists _, _, _.
Qed.

Definition fresh_spool : lql_json_spool := mk_spool (Some []) 0 None None 0.

Definition two_chunks : list bytes := [repeat 7 65000; repeat 8 1000].

Lemma fresh_holds : holds [] fresh_spool.
Proof. by split; [eexists|..]. Qed.

Lemma two_chunks_status :
  (append_all two_chunks (lql_json_spool_reset fresh_spool) (mk_env [] [] [] [])).1.1 = inr tt.
Proof. vm_compute. reflexivity. Qed.

(** Two chunks that do not fit the memory together, and a byte read in between. *)
Lemma spool_is_bytes_witness : exists s1 e1,
  append_all two_chunks (lql_json_spool_reset fresh_spool) (mk_env [] [] [] []) = (inr tt, s1, e1) /\
  lql_json_spool_size (Some (run_readings [Reading_byte 65500] s1 e1).1) = 66000.
Proof.
  pose proof two_chunks_status as H.
  destruct (append_all two_chunks _ _) as [[r s1] e1] eqn:E. cbn in H. subst r.
  exists s1, e1. split; [done|].
  pose proof (spool_is_bytes [] fresh_spool s1 _ e1 two_chunks [Reading_byte 65500] fresh_holds E) as H.
  cbv zeta in H. destruct (run_readings _ _ _) as [s e]. destruct H as [H _]. cbn [fst]. rewrite H.
  vm_compute. reflexivity.
Defined.
