(* ===== verification/JsonGrammar.v ===== *)
(** * The grammar of JSON texts

    RFC 8259 as inductive predicates on bytes: strings in UTF-8 with paired
    surrogate escapes, numbers ([NumberSpec.json_number]), and values with a bound
    on their nesting, each with its compact text, which has no space between the
    tokens.  The streaming scanner is shown to read exactly such texts.  Last, how
    deep the brackets of any text nest that are not inside strings, a measure that a
    JSON value keeps of what follows it; the limit on the nesting of the input is
    stated with it. *)

From S2P Require Import Prelude.
From S2P Require Import Number.
From S2P Require Import NumberSpec.
From S2P Require Import UnicodeProps.

(** ** Strings *)

(** The value of a hexadecimal digit. *)
Definition hex_digit (c v : Z) : Prop :=
  48 <= c <= 57 /\ v = c - 48 \/ 97 <= c <= 102 /\ v = c - 87 \/ 65 <= c <= 70 /\ v = c - 55.

(** Four digits and their value. *)
Definition hex4_text (t : bytes) (v : Z) : Prop :=
  exists c1 c2 c3 c4 v1 v2 v3 v4, t = [c1; c2; c3; c4] /\
    hex_digit c1 v1 /\ hex_digit c2 v2 /\ hex_digit c3 v3 /\ hex_digit c4 v4 /\
    v = ((v1 * 16 + v2) * 16 + v3) * 16 + v4.

Abbreviation ch_u := 117.

Definition high_surrogate (v : Z) : Prop := 0xd800 <= v <= 0xdbff.
Definition low_surrogate (v : Z) : Prop := 0xdc00 <= v <= 0xdfff.

(** The characters between the quotes. *)
Inductive json_chars : bytes -> Prop :=
| chars_nil : json_chars []
| chars_scalar c b : scalar c -> 0x20 <= c -> c <> ch_quote -> c <> ch_backslash ->
    json_chars b -> json_chars (utf8_arith c ++ b)
| chars_escape c b : In c (ch_quote :: ch_backslash :: bs "/bfnrt") ->
    json_chars b -> json_chars (ch_backslash :: c :: b)
| chars_unicode t v b : hex4_text t v -> ~ high_surrogate v -> ~ low_surrogate v ->
    json_chars b -> json_chars (ch_backslash :: ch_u :: t ++ b)
| chars_pair t v t' v' b : hex4_text t v -> high_surrogate v -> hex4_text t' v' ->
    low_surrogate v' -> json_chars b ->
    json_chars (ch_backslash :: ch_u :: t ++ ch_backslash :: ch_u :: t' ++ b).

Definition json_string (w : bytes) : Prop :=
  exists b, w = ch_quote :: b ++ [ch_quote] /\ json_chars b.

(** ** Values *)

(** The white space between tokens. *)
Definition space (c : Z) : Prop := In c [ch_space; ch_tab; ch_cr; ch_nl].
Abbreviation spaces := (Forall space).

Definition is_number (w : bytes) : Prop := exists m e, json_number w m e.

(** [json_value n w c]: [w] is a value whose containers nest at most [n] deep, [c]
    its compact text.  [json_members n w c] is what follows the brace of an object
    that is not empty and the spaces after it; [json_elements n w c] the same for an
    array. *)
Inductive json_value : nat -> bytes -> bytes -> Prop :=
| value_string n w : json_string w -> json_value n w w
| value_literal n w : In w [bs "true"; bs "false"; bs "null"] -> json_value n w w
| value_number n w : is_number w -> json_value n w w
| value_empty_object n sp : spaces sp ->
    json_value (S n) (ch_lbrace :: sp ++ [ch_rbrace]) [ch_lbrace; ch_rbrace]
| value_object n sp w c : spaces sp -> json_members n w c ->
    json_value (S n) (ch_lbrace :: sp ++ w) (ch_lbrace :: c)
| value_empty_array n sp : spaces sp ->
    json_value (S n) (ch_lbracket :: sp ++ [ch_rbracket]) [ch_lbracket; ch_rbracket]
| value_array n sp w c : spaces sp -> json_elements n w c ->
    json_value (S n) (ch_lbracket :: sp ++ w) (ch_lbracket :: c)
with json_members : nat -> bytes -> bytes -> Prop :=
| members_last n v c : json_member n v c -> json_members n (v ++ [ch_rbrace]) (c ++ [ch_rbrace])
| members_more n v c sp w c' : json_member n v c -> spaces sp -> json_members n w c' ->
    json_members n (v ++ ch_comma :: sp ++ w) (c ++ ch_comma :: c')
(** A member with the spaces after its value. *)
with json_member : nat -> bytes -> bytes -> Prop :=
| member_intro n k v c sp1 sp2 sp3 : json_string k -> spaces sp1 -> spaces sp2 ->
    json_value n v c -> spaces sp3 ->
    json_member n (k ++ sp1 ++ ch_colon :: sp2 ++ v ++ sp3) (k ++ ch_colon :: c)
with json_elements : nat -> bytes -> bytes -> Prop :=
| elements_last n v c sp : json_value n v c -> spaces sp ->
    json_elements n (v ++ sp ++ [ch_rbracket]) (c ++ [ch_rbracket])
| elements_more n v c sp sp' w c' : json_value n v c -> spaces sp -> spaces sp' ->
    json_elements n w c' ->
    json_elements n (v ++ sp ++ ch_comma :: sp' ++ w) (c ++ ch_comma :: c').

Scheme json_value_mind := Minimality for json_value Sort Prop
  with json_members_mind := Minimality for json_members Sort Prop
  with json_member_mind := Minimality for json_member Sort Prop
  with json_elements_mind := Minimality for json_elements Sort Prop.
Combined Scheme json_mutind from json_value_mind, json_members_mind, json_member_mind,
  json_elements_mind.

#[export] Hint Constructors json_chars json_value json_members json_member json_elements : json.

(** ** Facts *)

Lemma space_spec c : space c <-> c = ch_space \/ c = ch_tab \/ c = ch_cr \/ c = ch_nl.
Proof. unfold space. cbn. intuition. Qed.

(** Plain ASCII text in a string. *)
Lemma chars_ascii c b : 0x20 <= c < 0x80 -> c <> ch_quote -> c <> ch_backslash ->
  json_chars b -> json_chars (c :: b).
Proof.
  intros H Hq Hb Hc. pose proof (chars_scalar c b) as K. unfold utf8_arith in K.
  rewrite (proj2 (Z.ltb_lt c 0x80)) in K by lia. apply K; try done; [|lia]. unfold scalar. lia.
Qed.

(** A digit run, without or with more text, ends in a digit. *)
Lemma digit_no_space c : is_digit c = true -> ~ space c.
Proof. rewrite is_digit_spec, space_spec. lia. Qed.

Definition solid (w : bytes) : Prop := exists w' x, w = w' ++ [x] /\ ~ space x.

Lemma solid_app a b : solid b -> solid (a ++ b).
Proof. intros (w & x & -> & H). exists (a ++ w), x. by rewrite <- app_assoc. Qed.

Lemma solid_cons c b : solid b -> solid (c :: b).
Proof. apply (solid_app [c]). Qed.

Lemma solid_end w x : ~ space x -> solid (w ++ [x]).
Proof. intros H. by exists w, x. Qed.

Lemma solid_digits l : l <> [] -> all_digits l -> solid l.
Proof.
  intros Hn H. destruct (exists_last Hn) as (w & x & ->). exists w, x. split; [done|].
  apply list.Forall_app in H as [_ H]. apply Forall_inv in H. by apply digit_no_space.
Qed.

Lemma solid_int i : int_text i -> solid i.
Proof. intros [H1 H2]. apply solid_digits; [|done]. by destruct i. Qed.

Lemma number_solid w : is_number w -> solid w.
Proof.
  intros (m & e & neg & i & f & fd & x & v & -> & Hi & Hf & Hx & _).
  apply solid_app. destruct Hx as [[-> _]|(c & s & ed & -> & _ & Hn & Hd & _)].
  - rewrite app_nil_r. destruct Hf as [[-> ->]|(-> & Hn & Hd)].
    + rewrite app_nil_r. by apply solid_int.
    + apply solid_app, solid_cons. by apply solid_digits.
  - apply solid_app, solid_app, solid_cons, solid_app. by apply solid_digits.
Qed.

(** A value ends in a byte that is not a space. *)
Lemma json_solid :
  (forall n w c, json_value n w c -> solid w) /\
  (forall n w c, json_members n w c -> solid w) /\
  (forall n w c, json_member n w c -> True) /\
  (forall n w c, json_elements n w c -> solid w).
Proof.
  apply json_mutind; intros; auto; rewrite ?app_comm_cons, ?app_assoc;
    try (apply solid_end; rewrite space_spec; lia); try by apply solid_app.
  - destruct H as (b & -> & _). apply (solid_end (_ :: b)). rewrite space_spec. lia.
  - destruct H as [<-|[<-|[<-|[]]]];
      [apply (solid_end (bs "tru") 101)|apply (solid_end (bs "fals") 101)|apply (solid_end (bs "nul") 108)];
      rewrite space_spec; lia.
  - by apply number_solid.
Qed.

(** The compact text is a value with itself as its compact text. *)
Lemma json_compact :
  (forall n w c, json_value n w c -> json_value n c c) /\
  (forall n w c, json_members n w c -> json_members n c c) /\
  (forall n w c, json_member n w c -> json_member n c c) /\
  (forall n w c, json_elements n w c -> json_elements n c c).
Proof.
  assert (N : spaces []) by constructor.
  apply json_mutind; intros; eauto with json.
  - by apply (value_empty_object n []).
  - by apply (value_object n []).
  - by apply (value_empty_array n []).
  - by apply (value_array n []).
  - by apply (members_more n c c []).
  - pose proof (member_intro n k c c [] [] [] H N N H3 N) as K. cbn in K. by rewrite app_nil_r in K.
  - by apply (elements_last n c c []).
  - by apply (elements_more n c c [] []).
Qed.

(** ** The nesting of a text *)

Definition opens (c : Z) : bool := (c =? ch_lbrace) || (c =? ch_lbracket).
Definition closes (c : Z) : bool := (c =? ch_rbrace) || (c =? ch_rbracket).

(** Outside strings, inside one, or after a backslash in it. *)
Inductive quoting := Outside | Inside | Escaped.

(** The greatest depth reached in [t] from depth [d]. *)
Fixpoint nesting (q : quoting) (d : nat) (t : bytes) : nat :=
  match t with
  | [] => d
  | c :: t =>
      match q with
      | Escaped => nesting Inside d t
      | Inside =>
          nesting (if c =? ch_quote then Outside else if c =? ch_backslash then Escaped else Inside) d t
      | Outside =>
          if c =? ch_quote then nesting Inside d t
          else if opens c then nesting Outside (S d) t
          else if closes c then Nat.max d (nesting Outside (pred d) t)
          else nesting Outside d t
      end
  end.

(** The input has at most [n] containers open at a time. *)
Definition nests (n : nat) (t : bytes) : Prop := (nesting Outside 0 t <= n)%nat.

Lemma nesting_ge t : forall q d, (d <= nesting q d t)%nat.
Proof.
  induction t as [|c t IH]; intros q d; cbn [nesting]; [done|].
  destruct q; [|apply IH..]. destruct (c =? ch_quote); [apply IH|].
  destruct (opens c); [|destruct (closes c); [lia|apply IH]].
  specialize (IH Outside (S d)). lia.
Qed.

Lemma nesting_prefix a b : forall q d, (nesting q d a <= nesting q d (a ++ b))%nat.
Proof.
  induction a as [|c a IH]; intros q d; cbn [app nesting]; [apply nesting_ge|].
  destruct q; [|apply IH..]. destruct (c =? ch_quote); [apply IH|].
  destruct (opens c); [apply IH|]. destruct (closes c); [|apply IH].
  specialize (IH Outside (pred d)). lia.
Qed.

(** ** Tokens *)

(** Bytes that the measure passes over, outside and inside strings. *)
Definition plain (c : Z) : Prop := c <> ch_quote /\ c <> ch_backslash.
Definition inert (c : Z) : Prop := c <> ch_quote /\ opens c = false /\ closes c = false.

Lemma nesting_inert w d t : Forall inert w -> nesting Outside d (w ++ t) = nesting Outside d t.
Proof.
  induction 1 as [|c w (Hq & Ho & Hc) _ IH]; [done|]. cbn [app nesting].
  by rewrite (proj2 (Z.eqb_neq c ch_quote) Hq), Ho, Hc.
Qed.

Lemma nesting_plain w d t : Forall plain w -> nesting Inside d (w ++ t) = nesting Inside d t.
Proof.
  induction 1 as [|c w [Hq Hb] _ IH]; [done|]. cbn [app nesting].
  by rewrite (proj2 (Z.eqb_neq c ch_quote) Hq), (proj2 (Z.eqb_neq c ch_backslash) Hb).
Qed.

Lemma hex_plain t v : hex4_text t v -> Forall plain t.
Proof.
  intros (c1 & c2 & c3 & c4 & v1 & v2 & v3 & v4 & -> & H1 & H2 & H3 & H4 & _).
  unfold hex_digit, plain in *. repeat constructor; lia.
Qed.

Lemma scalar_plain c : scalar c -> 0x20 <= c -> c <> ch_quote -> c <> ch_backslash -> Forall plain (utf8_arith c).
Proof.
  intros [Hc _] H1 H2 H3. unfold utf8_arith, plain. repeat case_if; bool_hyps; repeat constructor; zdivs.
Qed.

Lemma nesting_escape c d t : nesting Inside d (ch_backslash :: c :: t) = nesting Inside d t.
Proof. done. Qed.

Lemma nesting_chars b d t : json_chars b -> nesting Inside d (b ++ ch_quote :: t) = nesting Outside d t.
Proof.
  induction 1 as [|c b Hs H1 H2 H3 _ IH|c b _ _ IH|h v b Hh _ _ _ IH|h v h' v' b Hh _ Hh' _ _ IH]; [done|..];
    rewrite <- ?app_assoc; cbn [app]; rewrite <- ?app_assoc; cbn [app]; rewrite ?nesting_escape.
  - rewrite nesting_plain by by apply scalar_plain. done.
  - done.
  - rewrite nesting_plain by by eapply hex_plain. done.
  - rewrite nesting_plain by by eapply hex_plain. rewrite nesting_escape, <- ?app_assoc.
    rewrite nesting_plain by by eapply hex_plain. done.
Qed.

Lemma nesting_string w d t : json_string w -> nesting Outside d (w ++ t) = nesting Outside d t.
Proof.
  intros (b & -> & Hb). cbn [app]. rewrite <- app_assoc. cbn [app nesting]. by apply nesting_chars.
Qed.

Lemma spaces_inert w : spaces w -> Forall inert w.
Proof.
  intros H. eapply list.Forall_impl; [exact H|]. intros c Hc. apply space_spec in Hc.
  unfold inert. by destruct Hc as [->|[->|[->| ->]]].
Qed.

Lemma digit_inert c : is_digit c = true -> inert c.
Proof. rewrite is_digit_spec. unfold inert, opens, closes. rewrite !orb_false_iff, !Z.eqb_neq. lia. Qed.

Lemma digits_inert l : all_digits l -> Forall inert l.
Proof. intros H. eapply list.Forall_impl; [exact H|]. apply digit_inert. Qed.

Lemma number_inert w : is_number w -> Forall inert w.
Proof.
  intros (m & e & neg & i & f & fd & x & v & -> & [Hi _] & Hf & Hx & _).
  rewrite !list.Forall_app. split; [|split; [|split]].
  - destruct neg; by repeat constructor.
  - by apply digits_inert.
  - destruct Hf as [[-> _]|(-> & _ & Hd)]; [constructor|]. constructor; [done|by apply digits_inert].
  - destruct Hx as [[-> _]|(c & s & ed & -> & Hc & _ & Hd & Hs)]; [constructor|].
    constructor; [by destruct Hc as [->| ->]|]. apply list.Forall_app. split; [|by apply digits_inert].
    destruct Hs as [[[->| ->] _]|[-> _]]; by repeat constructor.
Qed.

Lemma literal_inert w : In w [bs "true"; bs "false"; bs "null"] -> Forall inert w.
Proof. intros [<-|[<-|[<-|[]]]]; by repeat constructor. Qed.

(** ** Values *)

(** A value passes over, and the rest of a container closes it. *)
Lemma nesting_grammar :
  (forall n w c, json_value n w c -> forall d t, (nesting Outside d t <= nesting Outside d (w ++ t))%nat) /\
  (forall n w c, json_members n w c -> forall d t, (nesting Outside d t <= nesting Outside (S d) (w ++ t))%nat) /\
  (forall n w c, json_member n w c -> forall d t, (nesting Outside d t <= nesting Outside d (w ++ t))%nat) /\
  (forall n w c, json_elements n w c -> forall d t, (nesting Outside d t <= nesting Outside (S d) (w ++ t))%nat).
Proof.
  assert (close : forall c d t, closes c = true ->
    (nesting Outside d t <= nesting Outside (S d) (c :: t))%nat).
  { intros c d t Hc. unfold closes in Hc. cbn [nesting]. unfold opens, closes.
    apply orb_true_iff in Hc as [->%Z.eqb_eq| ->%Z.eqb_eq]; cbn; lia. }
  assert (pass : forall d w t u, Forall inert w -> (u <= nesting Outside d t)%nat ->
    (u <= nesting Outside d (w ++ t))%nat) by (intros; by rewrite nesting_inert).
  apply json_mutind; intros; rewrite <- ?app_assoc; cbn [app]; rewrite <- ?app_assoc; cbn [app].
  - by rewrite nesting_string.
  - apply pass; [by apply literal_inert|done].
  - apply pass; [by apply number_inert|done].
  - apply (pass _ _ _ _ (spaces_inert _ H)). by apply close.
  - apply (pass _ _ _ _ (spaces_inert _ H)). auto.
  - apply (pass _ _ _ _ (spaces_inert _ H)). by apply close.
  - apply (pass _ _ _ _ (spaces_inert _ H)). auto.
  - etransitivity; [|apply H0]. by apply close.
  - etransitivity; [|apply H0]. apply (pass _ _ _ _ (spaces_inert _ H1)). auto.
  - rewrite nesting_string by done. apply (pass _ _ _ _ (spaces_inert _ H0)), (pass _ _ _ _ (spaces_inert _ H1)).
    etransitivity; [|apply H3]. by apply (pass _ _ _ _ (spaces_inert _ H4)).
  - etransitivity; [|apply H0]. apply (pass _ _ _ _ (spaces_inert _ H1)). by apply close.
  - etransitivity; [|apply H0]. apply (pass _ _ _ _ (spaces_inert _ H1)), (pass _ _ _ _ (spaces_inert _ H2)). auto.
Qed.

(** ** Compact texts *)

(** A value and its compact text reach the same depth and go on alike; the bytes of
    the compact text are bytes of the value. *)
Lemma nesting_compact :
  (forall n w c, json_value n w c -> forall d t u, nesting Outside d t = nesting Outside d u ->
     nesting Outside d (c ++ t) = nesting Outside d (w ++ u)) /\
  (forall n w c, json_members n w c -> forall d t u, nesting Outside d t = nesting Outside d u ->
     nesting Outside (S d) (c ++ t) = nesting Outside (S d) (w ++ u)) /\
  (forall n w c, json_member n w c -> forall d t u, nesting Outside d t = nesting Outside d u ->
     nesting Outside d (c ++ t) = nesting Outside d (w ++ u)) /\
  (forall n w c, json_elements n w c -> forall d t u, nesting Outside d t = nesting Outside d u ->
     nesting Outside (S d) (c ++ t) = nesting Outside (S d) (w ++ u)).
Proof.
  assert (pass : forall d sp t, spaces sp -> nesting Outside d (sp ++ t) = nesting Outside d t)
    by (intros; by apply nesting_inert, spaces_inert).
  apply json_mutind; intros; rewrite <- ?app_assoc; cbn [app]; rewrite <- ?app_assoc; cbn [app].
  - by rewrite !nesting_string.
  - by rewrite !nesting_inert by by apply literal_inert.
  - by rewrite !nesting_inert by by apply number_inert.
  - cbn. rewrite (pass _ sp) by done. cbn. congruence.
  - cbn. rewrite (pass _ sp) by done. auto.
  - cbn. rewrite (pass _ sp) by done. cbn. congruence.
  - cbn. rewrite (pass _ sp) by done. auto.
  - apply H0. cbn. congruence.
  - apply H0. cbn. rewrite (pass _ sp) by done. auto.
  - rewrite !nesting_string by done. rewrite (pass _ sp1) by done. cbn. rewrite (pass _ sp2) by done.
    apply H3. by rewrite pass.
  - apply H0. rewrite (pass _ sp) by done. cbn. congruence.
  - apply H0. rewrite (pass _ sp) by done. cbn. rewrite (pass _ sp') by done. auto.
Qed.

Lemma compact_bytes (P : Z -> Prop) :
  (forall n w c, json_value n w c -> Forall P w -> Forall P c) /\
  (forall n w c, json_members n w c -> Forall P w -> Forall P c) /\
  (forall n w c, json_member n w c -> Forall P w -> Forall P c) /\
  (forall n w c, json_elements n w c -> Forall P w -> Forall P c).
Proof.
  apply json_mutind; intros; repeat match goal with
  | H : Forall _ (_ ++ _) |- _ => apply list.Forall_app in H as []
  | H : Forall _ (_ :: _) |- _ => apply list.Forall_cons in H as []
  | |- Forall _ (_ ++ _) => apply list.Forall_app; split
  | |- Forall _ (_ :: _) => apply list.Forall_cons; split
  end; auto using list.Forall_nil_2.
Qed.
