(* ===== verification/ScanLogic.v ===== *)
(** * A program logic for the scanner

    [ok m s Q]: when the computation [m] from state [s] gives a value, [Q] holds of
    it and the state after it.  [quiet] computations leave the input and the output
    alone; [moves w c o s s'] says that the bytes [w] were read, that [c] of them
    count for the compact text, and that [o] was written.  The rules below are what
    the soundness proofs of the scanner use. *)

From S2P Require Import Prelude.
From S2P Require Import Errors.
From S2P Require Import JsonSpool.
From S2P Require Import SpoolProps.
From S2P Require Import JsonGrammar.
From S2P Require Import ScanTerm.
From S2P Require Import ScanNumber.
From S2P Require Import ScanState.
From S2P Require Import ScanInput.
From S2P Require Import ScanSpan.

(** ** Postconditions *)

Definition ok {A} (m : Scan A) (s : lql_json_scan) (Q : A -> lql_json_scan -> Prop) : Prop :=
  forall a s', m s = Some (inl a, s') -> Q a s'.

Section rules.
Context {A B : Type}.
Implicit Types (s : lql_json_scan).

Lemma ok_ret (a : A) s (Q : A -> lql_json_scan -> Prop) : Q a s -> ok (mret a) s Q.
Proof. by intros H ? ? [= <- <-]. Qed.

Lemma ok_bind (m : Scan A) (f : A -> Scan B) s P Q :
  ok m s P -> (forall a s', P a s' -> ok (f a) s' Q) -> ok (m ≫= f) s Q.
Proof.
  intros Hm Hf b s'. unfold mbind, Scan_bind. destruct (m s) as [[[a|st] s1]|] eqn:E; [|done..].
  apply Hf, Hm, E.
Qed.

Lemma ok_impl (m : Scan A) s (P Q : A -> lql_json_scan -> Prop) :
  ok m s P -> (forall a s', P a s' -> Q a s') -> ok m s Q.
Proof. intros Hm Hi a s' E. apply Hi, Hm, E. Qed.

Lemma ok_and (m : Scan A) s (P Q : A -> lql_json_scan -> Prop) :
  ok m s P -> ok m s Q -> ok m s (fun a s' => P a s' /\ Q a s').
Proof. intros HP HQ a s' E. split; [by apply HP|by apply HQ]. Qed.

Lemma ok_gets (f : lql_json_scan -> A) s (Q : A -> lql_json_scan -> Prop) : Q (f s) s -> ok (gets f) s Q.
Proof. by intros H ? ? [= <- <-]. Qed.

Lemma ok_modify f s (Q : unit -> lql_json_scan -> Prop) : Q tt (f s) -> ok (modify f) s Q.
Proof. by intros H [] ? [= <-]. Qed.

Lemma ok_state (f : lql_json_scan -> A * lql_json_scan) s (Q : A -> lql_json_scan -> Prop) :
  Q (f s).1 (f s).2 -> ok (state f) s Q.
Proof. intros H a s'. unfold state. destruct (f s). by intros [= <- <-]. Qed.

Lemma ok_defined (x : option A) s (Q : A -> lql_json_scan -> Prop) :
  (forall a, x = Some a -> Q a s) -> ok (defined x) s Q.
Proof. intros H a s'. unfold defined. destruct x; [|done]. intros [= <- <-]. by apply H. Qed.

Lemma ok_stop status s (Q : A -> lql_json_scan -> Prop) : ok (stop status) s Q.
Proof. done. Qed.

Lemma ok_true (m : Scan A) s : ok m s (fun _ _ => True).
Proof. done. Qed.

Lemma ok_error message s (Q : A -> lql_json_scan -> Prop) : ok (lql_json_error message) s Q.
Proof. done. Qed.

Lemma ok_attempt (m : Scan A) s (Q : A + lql_status -> lql_json_scan -> Prop) :
  ok m s (fun a => Q (inl a)) -> (forall status s', Q (inr status) s') -> ok (attempt m) s Q.
Proof.
  intros Hm Hf r s'. unfold attempt. destruct (m s) as [[[a|st] s1]|] eqn:E; [|intros [= <- <-]; by auto|done].
  intros [= <- <-]. by apply Hm.
Qed.

Lemma ok_or_error message (r : A + lql_status) s (Q : A -> lql_json_scan -> Prop) :
  (forall a, r = inl a -> Q a s) -> ok (or_error message r) s Q.
Proof. intros H. destruct r as [a|]; [|done]. apply ok_ret. by apply H. Qed.

Lemma ok_finish (r : A + lql_status) s (Q : A -> lql_json_scan -> Prop) :
  (forall a, r = inl a -> Q a s) -> ok (finish r) s Q.
Proof. intros H. destruct r as [a|]; [|done]. apply ok_ret. by apply H. Qed.
End rules.

Lemma ok_run f s (Q : unit -> lql_json_scan -> Prop) : (forall s', f s = Some s' -> Q tt s') -> ok (run f) s Q.
Proof. intros H [] s'. unfold run. cbn. destruct (f s) eqn:E; cbn; [|done]. intros [= <-]. by apply H. Qed.

(** A failed attempt that is passed on at the end gives no value. *)
Lemma ok_then_stop {A} {B} (m : Scan A) (k : A -> Scan B) s Q : (forall a s', ok (k a) s' Q) -> ok (m ≫= k) s Q.
Proof. intros H. eapply ok_bind; [apply ok_true|]. auto. Qed.

(** The first step of a sequence. *)
Section sequences.
Context {A B : Type}.

Lemma ok_ret_then (a : A) (k : A -> Scan B) s Q : ok (k a) s Q -> ok (mret a ≫= k) s Q.
Proof. done. Qed.
Lemma ok_gets_then (f : lql_json_scan -> A) (k : A -> Scan B) s Q :
  ok (k (f s)) s Q -> ok (gets f ≫= k) s Q.
Proof. done. Qed.
Lemma ok_modify_then f (k : unit -> Scan B) s Q : ok (k tt) (f s) Q -> ok (modify f ≫= k) s Q.
Proof. done. Qed.
Lemma ok_stop_then status (k : A -> Scan B) s Q : ok (stop status ≫= k) s Q.
Proof. done. Qed.
Lemma ok_error_then message (k : A -> Scan B) s Q : ok (lql_json_error message ≫= k) s Q.
Proof. done. Qed.
Lemma ok_attempt_then (m : Scan A) (k : A + lql_status -> Scan B) s P Q :
  ok m s P -> (forall a s', P a s' -> ok (k (inl a)) s' Q) -> (forall st s', ok (k (inr st)) s' Q) ->
  ok (attempt m ≫= k) s Q.
Proof.
  intros Hm Ha Hf b s'. unfold mbind, Scan_bind, attempt.
  destruct (m s) as [[[a|st] s1]|] eqn:E; [|by apply Hf|done]. by eapply Ha, Hm.
Qed.
Lemma ok_attempt_or_error (m : Scan A) message (k : A -> Scan B) s P Q :
  ok m s P -> (forall a s', P a s' -> ok (k a) s' Q) ->
  ok (attempt m ≫= fun r => or_error message r ≫= k) s Q.
Proof. intros Hm Ha. eapply ok_attempt_then; [exact Hm|exact Ha|done]. Qed.
Lemma ok_assoc {C} (m : Scan C) (f : C -> Scan A) (k : A -> Scan B) s Q :
  ok (m ≫= fun c => f c ≫= k) s Q -> ok ((m ≫= f) ≫= k) s Q.
Proof.
  intros H b s'. specialize (H b s'). unfold mbind, Scan_bind in *.
  destruct (m s) as [[[c|st] s1]|]; done.
Qed.
End sequences.

(** After a failed attempt only quiet steps and the status that ends it. *)
Ltac fails :=
  intros; cbv beta iota; repeat first [apply ok_ret_then | apply ok_stop_then | apply ok_stop | apply ok_then_stop; intros].

(** ** Computations that leave input and output alone *)

Definition same_io (s s' : lql_json_scan) : Prop := input s' = input s /\ output s' = output s.

#[export] Instance same_io_preorder : PreOrder same_io.
Proof. split; [by split|]. intros a b c [H1 H2] [H3 H4]. split; congruence. Qed.

Definition quiet {A} (m : Scan A) : Prop := forall s, ok m s (fun _ => same_io s).

Section quiet.
Context {A B : Type}.

Lemma quiet_ret (a : A) : quiet (mret a).
Proof. intros s. by apply ok_ret. Qed.
Lemma quiet_bind (m : Scan A) (f : A -> Scan B) : quiet m -> (forall a, quiet (f a)) -> quiet (m ≫= f).
Proof.
  intros Hm Hf s. eapply ok_bind; [apply Hm|]. intros a s1 H. eapply ok_impl; [apply Hf|].
  intros b s2 H'. by transitivity s1.
Qed.
Lemma quiet_gets (f : lql_json_scan -> A) : quiet (gets f).
Proof. intros s. by apply ok_gets. Qed.
Lemma quiet_modify f : (forall s, same_io s (f s)) -> quiet (modify f).
Proof. intros H s. by apply ok_modify. Qed.
Lemma quiet_state (f : lql_json_scan -> A * lql_json_scan) :
  (forall s, same_io s (f s).2) -> quiet (state f).
Proof. intros H s. by apply ok_state. Qed.
Lemma quiet_defined (x : option A) : quiet (defined x).
Proof. intros s. by apply ok_defined. Qed.
Lemma quiet_stop status : quiet (A := A) (stop status).
Proof. done. Qed.
Lemma quiet_error message : quiet (A := A) (lql_json_error message).
Proof. done. Qed.
Lemma quiet_finish (r : A + lql_status) : quiet (finish r).
Proof. destruct r; [apply quiet_ret|done]. Qed.
Lemma quiet_then_stop (m : Scan B) status : quiet (A := A) (m ;; stop status).
Proof. intros s. by apply ok_then_stop. Qed.
Lemma quiet_attempt_then (m : Scan A) (k : A + lql_status -> Scan B) :
  quiet m -> (forall a, quiet (k (inl a))) -> (forall st s Q, ok (k (inr st)) s Q) ->
  quiet (attempt m ≫= k).
Proof.
  intros Hm Hk Hf s. eapply ok_attempt_then; [apply Hm| |intros; apply Hf].
  intros a s1 H. eapply ok_impl; [apply Hk|]. intros b s2 H'. by transitivity s1.
Qed.
Lemma quiet_run f : (forall s s', f s = Some s' -> same_io s s') -> quiet (run f).
Proof. intros H s. apply ok_run. auto. Qed.
End quiet.

Create HintDb quiet.
#[export] Hint Resolve quiet_ret quiet_gets quiet_defined quiet_stop quiet_error quiet_finish quiet_then_stop : quiet.

(** [quiet] of a computation by its structure: sequences, branches, known parts. *)
Ltac quiet_step :=
  match goal with
  | |- quiet (_ ≫= _) => first [solve [auto with quiet nocore] | apply quiet_bind; [|intros ?]]
  | |- quiet (modify _) => first [solve [auto with quiet nocore] | apply quiet_modify; intros ?]
  | |- quiet (state _) => apply quiet_state; intros ?
  | |- quiet (if ?b then _ else _) => destruct b
  | |- quiet (match ?x with _ => _ end) => destruct x
  | |- quiet (let _ := _ in _) => cbv zeta
  | |- quiet _ => solve [auto with quiet nocore]
  end.
Ltac quiet := repeat quiet_step.

(** ** What was read and written *)

(** The bytes the reader will deliver: nothing follows an empty answer. *)
Fixpoint pending (answers : list read_answer) : bytes :=
  match answers with
  | [] => []
  | a :: answers => match answer_data a with [] => [] | d => d ++ pending answers end
  end.

(** The input that is left. *)
Definition stream (s : lql_json_scan) : bytes :=
  buffer (input s) ++ if eof (input s) then [] else pending (reader (input s)).

(** The end of the input has been seen. *)
Definition at_end (s : lql_json_scan) : Prop := buffer (input s) = [] /\ eof (input s) = true.

Lemma at_end_stream s : at_end s -> stream s = [].
Proof. unfold stream. by intros [-> ->]. Qed.

(** The byte under the cursor. *)
Definition at_byte (c : option Z) (s : lql_json_scan) : Prop := list.head (buffer (input s)) = c.

Definition fits (s : lql_json_scan) : Prop := (length (buffer (input s)) <= bytes_read (input s))%nat.

Section moves.
Context {content : bytes -> lql_json_spool -> Prop} `{!SpoolLaws content}.

(** The output so far: the spool and the emit buffer. *)
Definition written (x : bytes) (s : lql_json_scan) : Prop :=
  exists c, content c (out_spool (output s)) /\ x = c ++ emit_buffer (output s).

(** What is said of a range that is read as compact text: [w] is [c] but for
    spaces at the end of the input. *)
Definition compact_text (w c : bytes) (s s' : lql_json_scan) : Prop :=
  compact_range_active (input s) = true -> compact_range_ok (input s') = true ->
  compact_range_ok (input s) = true /\
  exists sp, w = c ++ sp /\ spaces sp /\ (sp = [] \/ at_end s').

Record moves (w c o : bytes) (s s' : lql_json_scan) : Prop := {
  mv_stream : stream s = w ++ stream s';
  mv_consumed : fits s -> fits s' /\ lql_json_consumed s' = (lql_json_consumed s + length w)%nat;
  mv_end : at_end s -> at_end s';
  mv_active : compact_range_active (input s') = compact_range_active (input s);
  mv_compact : compact_text w c s s';
  mv_depth : depth (input s') = depth (input s);
  mv_written : forall x, written x s -> written (x ++ o) s'
}.

Lemma compact_text_trans w1 c1 w2 c2 s1 s2 s3 :
  (at_end s2 -> w2 = [] /\ at_end s3) ->
  compact_range_active (input s2) = compact_range_active (input s1) ->
  compact_text w1 c1 s1 s2 -> compact_text w2 c2 s2 s3 -> compact_text (w1 ++ w2) (c1 ++ c2) s1 s3.
Proof.
  intros He Ha H1 H2 Hact Hok. destruct (H2 ltac:(congruence) Hok) as (Hok2 & sp2 & Hw2 & Hs2 & Hor2).
  destruct (H1 Hact Hok2) as (Hok1 & sp1 & -> & Hs1 & Hor1). split; [done|].
  destruct Hor1 as [->|Hend].
  - exists sp2. rewrite Hw2, app_nil_r, app_assoc. by split.
  - destruct (He Hend) as [Hnil Hend3]. rewrite Hnil in *. symmetry in Hw2.
    apply app_eq_nil in Hw2 as [-> ->]. exists sp1. rewrite !app_nil_r. split; [done|]. split; [done|by right].
Qed.

Lemma moves_trans w1 c1 o1 w2 c2 o2 s1 s2 s3 : moves w1 c1 o1 s1 s2 -> moves w2 c2 o2 s2 s3 ->
  moves (w1 ++ w2) (c1 ++ c2) (o1 ++ o2) s1 s3.
Proof.
  intros [A1 A2 A3 A4 A5 A6 A7] [B1 B2 B3 B4 B5 B6 B7]. split.
  - by rewrite A1, B1, app_assoc.
  - intros F. destruct (A2 F) as [F2 E2]. destruct (B2 F2) as [F3 E3]. split; [done|].
    rewrite E3, E2, length_app. lia.
  - auto.
  - congruence.
  - eapply compact_text_trans; [|exact A4|exact A5|exact B5]. intros He. split; [|by apply B3].
    apply at_end_stream in He as Hn. rewrite B1 in Hn. by apply app_eq_nil in Hn as [-> _].
  - congruence.
  - intros x Hx. rewrite app_assoc. by apply B7, A7.
Qed.

(** The output changed, the input did not. *)
Lemma moves_writes o s s' : input s' = input s -> (forall x, written x s -> written (x ++ o) s') ->
  moves [] [] o s s'.
Proof.
  intros Hi Hw. split; unfold stream, fits, at_end, lql_json_consumed, compact_text; rewrite ?Hi;
    try (cbn [length]; rewrite ?Nat.add_0_r; done).
  intros _ Hok. split; [done|]. exists []. repeat split; [constructor|by left].
Qed.

Lemma moves_quiet s s' : same_io s s' -> moves [] [] [] s s'.
Proof.
  intros [Hi Ho]. apply moves_writes; [done|]. intros x. unfold written. rewrite app_nil_r, Ho. done.
Qed.

Lemma moves_refl s : moves [] [] [] s s.
Proof. by apply moves_quiet. Qed.

(** The same under other names of the texts. *)
Lemma moves_eq w c o w' c' o' s s' : moves w c o s s' -> w = w' -> c = c' -> o = o' -> moves w' c' o' s s'.
Proof. by intros H <- <- <-. Qed.

Lemma moves_bytes w c o s s' : moves w c o s s' ->
  Forall byte_range (stream s) -> Forall byte_range (stream s').
Proof. intros [E _ _ _ _ _ _]. rewrite E. intros H. by apply list.Forall_app in H as [_ H]. Qed.

(** A longer move after a shorter one, for a computation. *)
Lemma ok_moves {A} (m : Scan A) s0 s w c o (P : A -> lql_json_scan -> Prop)
    (Q : A -> lql_json_scan -> Prop) :
  moves w c o s0 s -> ok m s P -> (forall a s', moves w c o s0 s -> P a s' -> Q a s') -> ok m s Q.
Proof. intros Hm HP HQ. eapply ok_impl; [exact HP|]. auto. Qed.
End moves.
