(* ===== verification/ScanReads.v ===== *)
(** * What the input functions of the scanner read

    The specifications of the refill, of the bytes taken one by one, of spaces,
    hexadecimal digits and UTF-8, in the terms of [ScanLogic]; then of the
    functions that validate a value without looking at it, which accept JSON
    only. *)

From S2P Require Import Prelude.
From S2P Require Import Errors.
From S2P Require Import Number.
From S2P Require Import NumberSpec.
From S2P Require Import UnicodeProps.
From S2P Require Import JsonSpool.
From S2P Require Import SpoolProps.
From S2P Require Import JsonGrammar.
From S2P Require Import ScanTerm.
From S2P Require Import ScanState.
From S2P Require Import ScanInput.
From S2P Require Import ScanSpan.
From S2P Require Import ScanLogic.

(** [moves _ _ _ s s'] from the moves of the context. *)
Ltac chain_moves := first [eassumption | eapply moves_trans; [eassumption | chain_moves]].
Ltac same_text := repeat progress (cbn [app]; rewrite ?app_nil_r, <- ?app_assoc); try done.
Ltac chain := cbv beta in *; eapply moves_eq; [chain_moves|same_text..].

(** The next step of a sequence by a lemma about it. *)
Tactic Notation "step" uconstr(L) "as" simple_intropattern(p) :=
  eapply ok_bind; [eapply L|]; cbv beta; intros p.
Tactic Notation "step" uconstr(L) "as" simple_intropattern(p) simple_intropattern(q) :=
  eapply ok_bind; [eapply L|]; cbv beta; intros p q.
Tactic Notation "step" uconstr(L) "as" simple_intropattern(p) simple_intropattern(q) simple_intropattern(r) :=
  eapply ok_bind; [eapply L|]; cbv beta; intros p q r.

Section reads.
Context {content : bytes -> lql_json_spool -> Prop} `{!SpoolLaws content}.
Implicit Types (s : lql_json_scan).
#[local] Abbreviation moves := (moves (content := content)).

(** The same bytes read and counted. *)
#[local] Abbreviation text w := (moves w w []).

(** ** Bytes *)

Lemma quiet_moves {A} (m : Scan A) s : quiet m -> ok m s (fun _ s' => moves [] [] [] s s').
Proof. intros H. eapply ok_impl; [apply H|]. intros a s' Hs. by apply moves_quiet. Qed.

(** Only what the moves do not look at changed in the input. *)
Lemma moves_input s s' : output s' = output s -> stream s' = stream s ->
  (fits s -> fits s' /\ lql_json_consumed s' = lql_json_consumed s) -> (at_end s -> at_end s') ->
  compact_range_active (input s') = compact_range_active (input s) ->
  compact_range_ok (input s') = compact_range_ok (input s) ->
  depth (input s') = depth (input s) -> moves [] [] [] s s'.
Proof.
  intros Ho Hs Hf He Ha Hc Hd. split; try done.
  - intros F. destruct (Hf F) as [? ->]. split; [done|]. by rewrite Nat.add_0_r.
  - intros _. rewrite Hc. intros Hok. split; [done|]. exists []. repeat split; [constructor|by left].
  - intros x. unfold written. by rewrite Ho, app_nil_r.
Qed.

Lemma ask_cancelled_ok s : ok ask_cancelled s (fun _ s' => moves [] [] [] s s').
Proof. intros a s' [= <- <-]. by apply moves_input. Qed.

Lemma set_cancelled_ok s : ok set_cancelled s (fun _ s' => moves [] [] [] s s').
Proof. intros a s' [= <- <-]. by apply moves_input. Qed.

Lemma call_reader_spec s a s' : call_reader s = Some (inl a, s') ->
  exists answer, a = (answer_status answer, answer_data answer) /\
    buffer (input s') = buffer (input s) /\ eof (input s') = eof (input s) /\
    bytes_read (input s') = bytes_read (input s) /\
    compact_range_active (input s') = compact_range_active (input s) /\
    compact_range_ok (input s') = compact_range_ok (input s) /\
    depth (input s') = depth (input s) /\ output s' = output s /\
    pending (reader (input s)) =
      match answer_data answer with [] => [] | d => d ++ pending (reader (input s')) end.
Proof.
  intros [= <- <-]. eexists. split; [reflexivity|]. cbn. repeat (split; [done|]).
  by destruct (reader (input s)).
Qed.

(** A buffer that is empty gets the bytes of the next answer. *)
Lemma refill_buffer s s1 data : buffer (input s) = [] -> eof (input s) = false ->
  buffer (input s1) = [] -> eof (input s1) = false -> bytes_read (input s1) = bytes_read (input s) ->
  compact_range_active (input s1) = compact_range_active (input s) ->
  compact_range_ok (input s1) = compact_range_ok (input s) ->
  depth (input s1) = depth (input s) -> output s1 = output s ->
  pending (reader (input s)) = match data with [] => [] | d => d ++ pending (reader (input s1)) end ->
  let s' := on_input (fun i => ((i <| buffer := data |>)
              <| bytes_read := (bytes_read i + length data)%nat |>)
              <| eof := eof i || (length data =? 0)%nat |>) s1 in
  moves [] [] [] s s' /\ (buffer (input s') <> [] \/ at_end s').
Proof.
  intros Hb He Hb1 He1 Hr Ha Hc Hd Ho Hp s'. split.
  - apply moves_input; try done.
    + unfold stream. cbn. rewrite Hb, He, He1, Hp. by destruct data; cbn; rewrite ?app_nil_r.
    + unfold fits, lql_json_consumed. cbn. rewrite Hb, Hr. cbn. lia.
    + unfold at_end. rewrite He. by intros [_ ?].
  - destruct data; [right|by left]. split; [done|]. cbn. by rewrite He1.
Qed.

Lemma refill_ok s : ok lql_json_refill s (fun _ s' =>
  moves [] [] [] s s' /\ (buffer (input s') <> [] \/ at_end s')).
Proof.
  unfold lql_json_refill. apply ok_gets_then.
  destruct (length (buffer (input s)) =? 0)%nat eqn:Eb; cbn [negb].
  2:{ apply ok_ret. split; [apply moves_refl|]. left. intros E. by rewrite E in Eb. }
  apply Nat.eqb_eq, nil_length_inv in Eb. destruct (eof (input s)) eqn:Ee.
  { apply ok_ret. split; [apply moves_refl|by right]. }
  intros [] s'. unfold mbind, Scan_bind, ask_cancelled.
  destruct (default false _); [by intros|]. set (s0 := s <| input := _ |>).
  destruct (call_reader s0) as [[[a|st] s1]|] eqn:E; [|done..].
  apply call_reader_spec in E as (ans & -> & H1 & H2 & H3 & H4 & H5 & H6 & H7 & H8).
  destruct (negb (bool_decide (answer_status ans = LQL_STATUS_OK))); [done|].
  destruct (LQL_JSON_READ_BUFFER_SIZE <? _); [done|].
  intros [= <-]. apply refill_buffer; cbn in *; rewrite ?H1, ?H2; try done.
  rewrite H8. by destruct (answer_data ans).
Qed.

Lemma peek_ok s : ok lql_json_peek s (fun c s' =>
  moves [] [] [] s s' /\ at_byte c s' /\ (c = None -> at_end s')).
Proof.
  unfold lql_json_peek. step refill_ok as [] s1 [M H]. apply ok_gets. split; [done|]. split; [done|].
  destruct H as [H|H]; [|done]. by destruct (buffer (input s1)).
Qed.

(** The byte under the cursor passed. *)
Lemma advance_ok v s : at_byte (Some v) s -> ok advance s (fun _ s' => text [v] s s').
Proof.
  intros H. unfold advance. apply ok_modify. unfold at_byte in H.
  destruct (buffer (input s)) as [|v' b] eqn:Eb; [done|]. injection H as ->. split; try done.
  - unfold stream. cbn. by rewrite Eb.
  - unfold fits, lql_json_consumed. cbn. rewrite Eb. cbn. lia.
  - unfold at_end. rewrite Eb. by intros [? _].
  - intros _ Hok. split; [done|]. exists []. repeat split; [constructor|by left].
  - intros x. unfold written. by rewrite app_nil_r.
Qed.

Lemma take_ok s : ok lql_json_take s (fun v s' => text [v] s s').
Proof.
  unfold lql_json_take. step peek_ok as c s1 (M1 & Hc & _). destruct c as [v|]; [|apply ok_error].
  eapply ok_bind; [by apply advance_ok|]. intros [] s2 M2. apply ok_ret. chain.
Qed.

Lemma take_expected_ok v s : ok (lql_json_take_expected v) s (fun _ s' => text [v] s s').
Proof.
  unfold lql_json_take_expected. step take_ok as v' s1 M1. destruct (Z.eqb_spec v' v) as [->|]; cbn [negb].
  - by apply ok_ret.
  - apply ok_error.
Qed.

(** ** Spaces *)

Lemma is_space_spec c : is_space c = true <-> space c.
Proof. unfold is_space. rewrite space_spec, !orb_true_iff, !Z.eqb_eq. tauto. Qed.

(** Another compact text for the same move. *)
Lemma moves_recompact w c c' o s s' : moves w c o s s' ->
  (compact_range_active (input s) = true -> compact_range_ok (input s') = true ->
   exists sp, w = c' ++ sp /\ spaces sp /\ (sp = [] \/ at_end s')) ->
  moves w c' o s s'.
Proof.
  intros [H1 H2 H3 H4 H5 H6 H7] H. split; try done. intros Ha Hok. split; [by apply H5|auto].
Qed.

(** The flag cleared. *)
Lemma flag_moves s (b : bool) : moves [] [] [] s (on_input (fun i =>
  if b && compact_range_active i then i <| compact_range_ok := false |> else i) s).
Proof.
  unfold on_input. destruct (b && compact_range_active (input s)) eqn:E; [|by apply moves_input].
  split; try done.
  - intros x. unfold written. by rewrite app_nil_r.
Qed.

(** What the loop over spaces does, [skipped] when it passed one already. *)
Lemma skip_space_loop_ok fuel : forall skipped s,
  ok (skip_space_loop fuel skipped) s (fun _ s' => exists sp, spaces sp /\ moves sp [] [] s s' /\
    (skipped = true -> compact_range_active (input s) = true -> compact_range_ok (input s') = true ->
     at_end s')).
Proof.
  induction fuel as [|fuel IH]; intros skipped s; [done|]. cbn [skip_space_loop].
  step peek_ok as c s1 (M1 & Hc & Hend). destruct c as [v|].
  - destruct (is_space v) eqn:Ev; cbn [negb].
    + eapply ok_bind; [by apply advance_ok|]. intros [] s2 M2.
      eapply ok_impl; [apply IH|]. intros [] s' (sp & Hsp & M3 & He). exists (v :: sp).
      assert (Ha : compact_range_active (input s2) = compact_range_active (input s)).
      { by rewrite (mv_active _ _ _ _ _ M2), (mv_active _ _ _ _ _ M1). }
      rewrite <- Ha. apply is_space_spec in Ev. split; [by constructor|]. split; [|by intros _; apply He].
      eapply moves_recompact; [chain; reflexivity|]. rewrite <- Ha. intros H1 H2. exists (v :: sp).
      split; [done|]. split; [by constructor|]. right. by apply He.
    + apply ok_modify. exists []. split; [constructor|].
      assert (Ha : compact_range_active (input s1) = compact_range_active (input s)) by apply M1.
      split; [|cbn; intros ->; by rewrite Ha; intros ->].
      eapply moves_trans with (w1 := []) (c1 := []) (o1 := []); [exact M1|].
      apply flag_moves.
  - apply ok_ret. exists []. split; [constructor|]. split; [done|]. intros _ _ _. by apply Hend.
Qed.

Lemma skip_space_ok s : ok lql_json_skip_space s (fun _ s' => exists sp, spaces sp /\ moves sp [] [] s s').
Proof.
  unfold lql_json_skip_space. apply ok_gets_then. eapply ok_impl; [apply skip_space_loop_ok|].
  intros [] s' (sp & H1 & H2 & _). by exists sp.
Qed.

(** ** Escapes and UTF-8 *)

Lemma hex_value_spec c : 0 <= lql_json_hex_value c -> hex_digit c (lql_json_hex_value c) /\
  lql_json_hex_value c < 16.
Proof.
  unfold lql_json_hex_value, hex_digit, is_digit. repeat case_if; bool_hyps; lia.
Qed.

(** A digit after those of the value so far. *)
Lemma take_hex_loop_step n value raw s Q :
  (forall c d s', hex_digit c d -> text [c] s s' ->
     ok (take_hex_loop n (value * 16 + d) (raw ++ [c])) s' Q) ->
  ok (take_hex_loop (S n) value raw) s Q.
Proof.
  intros H. cbn [take_hex_loop]. step take_ok as c s1 M.
  destruct (lql_json_hex_value c <? 0) eqn:E; [apply ok_error|].
  destruct (hex_value_spec c) as [Hd Hlt]; [lia|].
  rewrite Z.shiftl_mul_pow2, lor_add by (lia || (change (2 ^ 4) with 16; lia)). by apply H.
Qed.

Lemma take_hex4_ok s : ok lql_json_take_hex4 s (fun r s' => hex4_text r.2 r.1 /\ text r.2 s s').
Proof.
  unfold lql_json_take_hex4.
  apply take_hex_loop_step. intros c1 d1 s1 H1 M1. apply take_hex_loop_step. intros c2 d2 s2 H2 M2.
  apply take_hex_loop_step. intros c3 d3 s3 H3 M3. apply take_hex_loop_step. intros c4 d4 s4 H4 M4.
  apply ok_ret. cbn [fst snd app]. split; [|chain].
  exists c1, c2, c3, c4, d1, d2, d3, d4. repeat (split; [done|]). lia.
Qed.

(** The continuation bytes [t] of a lead. *)
Fixpoint continues (n : nat) (low high : Z) (t : bytes) : Prop :=
  match n, t with
  | O, [] => True
  | S n, c :: t => low <= c <= high /\ continues n 0x80 0xbf t
  | _, _ => False
  end.

Lemma take_continuation_ok low high s : ok (take_continuation low high) s (fun c s' =>
  low <= c <= high /\ text [c] s s').
Proof.
  unfold take_continuation. eapply ok_attempt_or_error; [apply take_ok|]. intros c s1 M.
  destruct ((c <? low) || (high <? c)) eqn:E; [apply ok_error|]. apply ok_ret. split; [lia|done].
Qed.

Lemma skip_continuations_ok n : forall low high s, ok (skip_continuations n low high) s (fun _ s' =>
  exists t, continues n low high t /\ text t s s').
Proof.
  induction n as [|n IH]; intros low high s; cbn [skip_continuations].
  - apply ok_ret. exists []. split; [done|apply moves_refl].
  - step take_continuation_ok as c s1 [Hc M]. eapply ok_impl; [apply IH|]. intros [] s' (t & Ht & M').
    exists (c :: t). split; [done|chain].
Qed.

(** A lead and its continuation bytes are the UTF-8 text of a character. *)
Lemma utf8_lead_spec v n low high t : utf8_lead v = Some (n, low, high) -> continues n low high t ->
  exists c, scalar c /\ 0x80 <= c /\ v :: t = utf8_arith c.
Proof.
  unfold utf8_lead. intros H Ht. destruct ((0xc2 <=? v) && (v <=? 0xdf)) eqn:E1;
    [|destruct ((0xe0 <=? v) && (v <=? 0xef)) eqn:E2;
      [|destruct ((0xf0 <=? v) && (v <=? 0xf4)) eqn:E3; [|done]]]; injection H as <- <- <-; bool_hyps.
  - destruct t as [|a [|b t]]; cbn in Ht; try tauto.
    exists ((v - 192) * 64 + (a - 128)). unfold scalar, utf8_arith. split; [lia|]. split; [lia|].
    rewrite (proj2 (Z.ltb_ge _ 0x80)), (proj2 (Z.ltb_lt _ 0x800)) by lia. repeat f_equal; zdivs.
  - destruct t as [|a [|b [|c t]]]; cbn in Ht; try tauto.
    exists ((v - 224) * 4096 + (a - 128) * 64 + (b - 128)).
    assert (scalar ((v - 224) * 4096 + (a - 128) * 64 + (b - 128)) /\
            0x800 <= (v - 224) * 4096 + (a - 128) * 64 + (b - 128) < 0x10000) as [Hs Hr].
    { unfold scalar. destruct (Z.eqb_spec v 0xe0), (Z.eqb_spec v 0xed); lia. }
    split; [done|]. split; [lia|]. unfold utf8_arith.
    rewrite (proj2 (Z.ltb_ge _ 0x80)), (proj2 (Z.ltb_ge _ 0x800)), (proj2 (Z.ltb_lt _ 0x10000)) by lia.
    assert (128 <= a <= 191) by (destruct (Z.eqb_spec v 0xe0), (Z.eqb_spec v 0xed); lia).
    repeat f_equal; zdivs.
  - destruct t as [|a [|b [|c [|d t]]]]; cbn in Ht; try tauto.
    exists ((v - 240) * 262144 + (a - 128) * 4096 + (b - 128) * 64 + (c - 128)).
    assert (128 <= a <= 191) by (destruct (Z.eqb_spec v 0xf0), (Z.eqb_spec v 0xf4); lia).
    assert (0x10000 <= (v - 240) * 262144 + (a - 128) * 4096 + (b - 128) * 64 + (c - 128) <= 0x10ffff)
      by (destruct (Z.eqb_spec v 0xf0), (Z.eqb_spec v 0xf4); lia).
    split; [unfold scalar; lia|]. split; [lia|]. unfold utf8_arith.
    rewrite (proj2 (Z.ltb_ge _ 0x80)), (proj2 (Z.ltb_ge _ 0x800)), (proj2 (Z.ltb_ge _ 0x10000)) by lia.
    repeat f_equal; zdivs.
Qed.

(** What follows a backslash and a u. *)
Inductive unicode_text : bytes -> Prop :=
| unicode_one t v : hex4_text t v -> ~ high_surrogate v -> ~ low_surrogate v -> unicode_text t
| unicode_two t v t' v' : hex4_text t v -> high_surrogate v -> hex4_text t' v' -> low_surrogate v' ->
    unicode_text (t ++ ch_backslash :: ch_u :: t').

Lemma chars_unicode_text t b : unicode_text t -> json_chars b ->
  json_chars (ch_backslash :: ch_u :: t ++ b).
Proof.
  intros [t0 v H1 H2 H3|t0 v t' v' H1 H2 H3 H4] Hb; [by eapply chars_unicode|].
  rewrite <- app_assoc. cbn [app]. by eapply chars_pair.
Qed.

Lemma high_surrogate_spec v : is_high_surrogate v = true <-> high_surrogate v.
Proof. unfold is_high_surrogate, high_surrogate. lia. Qed.
Lemma low_surrogate_spec v : is_low_surrogate v = true <-> low_surrogate v.
Proof. unfold is_low_surrogate, low_surrogate. lia. Qed.

Lemma skip_unicode_escape_ok s : ok skip_unicode_escape s (fun _ s' =>
  exists t, unicode_text t /\ text t s s').
Proof.
  unfold skip_unicode_escape. step take_hex4_ok as [v t] s1 [H1 M1]. cbn [fst snd] in *.
  destruct (is_low_surrogate v) eqn:El; [apply ok_error|].
  destruct (is_high_surrogate v) eqn:Eh; cbn [negb].
  - step take_expected_ok as [] s2 M2. step take_expected_ok as [] s3 M3.
    step take_hex4_ok as [v' t'] s4 [H4 M4]. cbn [fst snd] in *.
    destruct (is_low_surrogate v') eqn:El'; cbn [negb]; [|apply ok_error].
    apply ok_ret. exists (t ++ ch_backslash :: ch_u :: t'). split; [|chain].
    by eapply unicode_two; [done|apply high_surrogate_spec|done|apply low_surrogate_spec].
  - apply ok_ret. exists t. split; [|done]. eapply unicode_one; [done|..].
    + by rewrite <- high_surrogate_spec, Eh.
    + by rewrite <- low_surrogate_spec, El.
Qed.

(** ** Strings *)

Lemma simple_escape_spec c : simple_escape c = true ->
  In c (ch_quote :: ch_backslash :: bs "/bfnrt").
Proof. unfold simple_escape. cbn. rewrite !orb_true_iff, !Z.eqb_eq. intuition lia. Qed.

Lemma key_span_plain data : Forall (fun c => plain_byte c = true) (take (lql_json_plain_key_span data) data) /\
  (lql_json_plain_key_span data <= length data)%nat.
Proof.
  induction data as [|c data [IH1 IH2]]; [by split|]. cbn. destruct (plain_byte c) eqn:E; cbn.
  - split; [by constructor|lia].
  - split; [constructor|lia].
Qed.

Lemma chars_plain l b : Forall (fun c => plain_byte c = true) l -> json_chars b -> json_chars (l ++ b).
Proof.
  intros Hl Hb. induction Hl as [|c l Hc _ IH]; [done|]. cbn. unfold plain_byte in Hc.
  bool_hyps. apply chars_ascii; [lia..|done].
Qed.

(** The plain text under the cursor, found by words. *)
Lemma ascii_span_ok s : Forall byte_range (stream s) ->
  let n := lql_json_plain_ascii_span (buffer (input s)) in
  ok (advance_by n) s (fun _ s' => text (take n (buffer (input s))) s s') /\
  Forall (fun c => plain_byte c = true) (take n (buffer (input s))).
Proof.
  intros Hb n. apply list.Forall_app in Hb as [Hb _].
  assert (n = lql_json_plain_key_span (buffer (input s))) as ->.
  { subst n. unfold lql_json_plain_ascii_span. case_if; [done|]. by apply plain_words_spec. }
  destruct (key_span_plain (buffer (input s))) as [Hp Hn]. split; [|done].
  set (k := lql_json_plain_key_span _) in *. unfold advance_by. apply ok_modify. split; try done.
  - unfold stream. cbn. by rewrite app_assoc, take_drop.
  - unfold fits, lql_json_consumed. cbn. rewrite length_drop, length_take. lia.
  - unfold at_end. cbn. intros [-> ?]. by rewrite drop_nil.
  - intros _ Hok. split; [done|]. exists []. rewrite app_nil_r. repeat split; [constructor|by left].
  - intros x. unfold written. by rewrite app_nil_r.
Qed.

Lemma skip_string_loop_ok fuel : forall s, Forall byte_range (stream s) ->
  ok (skip_string_loop fuel) s (fun _ s' => exists b, json_chars b /\ text (b ++ [ch_quote]) s s').
Proof.
  induction fuel as [|fuel IH]; intros s Hs; [done|]. cbn [skip_string_loop].
  step refill_ok as [] s1 [M1 _]. pose proof (moves_bytes _ _ _ _ _ M1 Hs) as Hs1. apply ok_gets_then.
  destruct (buffer (input s1)) as [|v data] eqn:Eb; [apply ok_error|]. cbv zeta.
  destruct (ascii_span_ok s1 Hs1) as [Ha Hp]. rewrite Eb in Ha, Hp.
  set (n := lql_json_plain_ascii_span _) in *. destruct (n =? 0)%nat; cbn [negb].
  2:{ eapply ok_bind; [exact Ha|]. intros [] s2 M2.
      eapply ok_impl; [apply IH; by eapply moves_bytes|]. intros [] s3 (b & Hb & M3).
      exists (take n (v :: data) ++ b). split; [by apply chars_plain|chain]. }
  eapply ok_bind; [apply (advance_ok v); unfold at_byte; by rewrite Eb|]. intros [] s2 M2.
  pose proof (moves_bytes _ _ _ _ _ M2 Hs1) as Hs2.
  destruct (Z.eqb_spec v ch_quote) as [->|Hq].
  { apply ok_ret. exists []. split; [constructor|chain]. }
  destruct (v <? 0x20) eqn:E20; [apply ok_error|].
  destruct (Z.eqb_spec v ch_backslash) as [->|Hbs].
  - eapply ok_attempt_or_error; [apply take_ok|]. intros e s3 M3.
    pose proof (moves_bytes _ _ _ _ _ M3 Hs2) as Hs3. destruct (simple_escape e) eqn:Ee.
    { eapply ok_impl; [by apply IH|]. intros [] s4 (b & Hb & M4). exists (ch_backslash :: e :: b).
      split; [apply chars_escape; [by apply simple_escape_spec|done]|chain]. }
    destruct (Z.eqb_spec e ch_u) as [->|]; cbn [negb]; [|apply ok_error].
    step skip_unicode_escape_ok as [] s4 (t & Ht & M4).
    eapply ok_impl; [apply IH; by eapply moves_bytes|]. intros [] s5 (b & Hb & M5).
    exists (ch_backslash :: ch_u :: t ++ b). split; [by apply chars_unicode_text|chain].
  - destruct (utf8_lead v) as [[[k low] high]|] eqn:El; [|apply ok_error].
    step skip_continuations_ok as [] s3 (t & Ht & M3).
    eapply ok_impl; [apply IH; by eapply moves_bytes|]. intros [] s4 (b & Hb & M4).
    destruct (utf8_lead_spec v k low high t El Ht) as (c & Hc & Hlo & Ec).
    exists (utf8_arith c ++ b). rewrite <- Ec. split; [rewrite Ec; apply chars_scalar; (done || lia)|chain].
Qed.

Lemma skip_string_fast_ok s : Forall byte_range (stream s) ->
  ok lql_json_skip_string_fast s (fun _ s' => exists w, json_string w /\ text w s s').
Proof.
  intros Hs. unfold lql_json_skip_string_fast. step take_expected_ok as [] s1 M1. apply ok_gets_then.
  eapply ok_impl; [apply skip_string_loop_ok; by eapply moves_bytes|]. intros [] s2 (b & Hb & M2).
  exists (ch_quote :: b ++ [ch_quote]). split; [by exists b|chain].
Qed.

(** ** Literals and numbers *)

Lemma skip_literal_fast_ok l : forall s, ok (lql_json_skip_literal_fast l) s (fun _ s' => text l s s').
Proof.
  induction l as [|c l IH]; intros s; cbn [lql_json_skip_literal_fast].
  - apply ok_ret, moves_refl.
  - step take_expected_ok as [] s1 M1. eapply ok_impl; [apply IH|]. intros [] s2 M2. chain.
Qed.

Lemma byte_is_spec c v : byte_is c v = true -> c = Some v.
Proof. destruct c as [x|]; [|done]. cbn. rewrite Z.eqb_eq. by intros ->. Qed.

Lemma digit_of_spec c : digit_of c = true -> exists d, c = Some d /\ is_digit d = true.
Proof. destruct c as [x|]; [|done]. by exists x. Qed.

Lemma skip_digits_loop_ok fuel : forall d s, is_digit d = true -> at_byte (Some d) s ->
  ok (skip_digits_loop fuel) s (fun r s' => exists ds, all_digits ds /\ at_byte r s' /\ text (d :: ds) s s').
Proof.
  induction fuel as [|fuel IH]; intros d s Hd Hc; [done|]. cbn [skip_digits_loop].
  eapply ok_bind; [by apply advance_ok|]. intros [] s1 M1. step peek_ok as c s2 (M2 & Hc2 & _).
  destruct (digit_of c) eqn:E.
  - apply digit_of_spec in E as (d' & -> & Hd'). eapply ok_impl; [by apply IH|].
    intros r s3 (ds & Hds & Hr & M3). exists (d' :: ds). split; [by constructor|]. split; [done|chain].
  - apply ok_ret. exists []. split; [constructor|]. split; [done|chain].
Qed.

Lemma skip_digits_ok d s : is_digit d = true -> at_byte (Some d) s ->
  ok skip_digits s (fun r s' => exists ds, all_digits ds /\ at_byte r s' /\ text (d :: ds) s s').
Proof. intros Hd Hc. unfold skip_digits. apply ok_gets_then. by apply skip_digits_loop_ok. Qed.

Definition sign_text (neg : bool) : bytes := if neg then [ch_minus] else [].

Lemma canonical_digits_from d ds : is_digit d = true -> d <> ch_0 -> all_digits ds -> int_text (d :: ds).
Proof. intros Hd Hn Hds. split; [by constructor|]. by destruct ds. Qed.

Lemma skip_number_integer_ok s : ok skip_number_integer s (fun r s' =>
  exists neg i, int_text i /\ at_byte r s' /\ text (sign_text neg ++ i) s s').
Proof.
  unfold skip_number_integer. step peek_ok as c0 s1 (M1 & Hc1 & _).
  eapply ok_bind with (P := fun c s2 => exists neg, at_byte c s2 /\ text (sign_text neg) s s2).
  { destruct (byte_is c0 ch_minus) eqn:E.
    - apply byte_is_spec in E as ->. eapply ok_bind; [by apply advance_ok|]. intros [] s2 M2.
      eapply ok_impl; [apply peek_ok|]. intros c s3 (M3 & Hc & _). exists true. split; [done|chain].
    - apply ok_ret. exists false. split; [done|chain]. }
  intros c s2 (neg & Hc & M2). destruct (byte_is c ch_0) eqn:E0.
  - apply byte_is_spec in E0 as ->. eapply ok_bind; [by apply advance_ok|]. intros [] s3 M3.
    eapply ok_impl; [apply peek_ok|]. intros c s4 (M4 & Hc4 & _). exists neg, [ch_0].
    split; [split; [by repeat constructor|done]|]. split; [done|]. chain.
  - destruct (digit_of c) eqn:Ed; [|apply ok_error]. apply digit_of_spec in Ed as (d & -> & Hd).
    eapply ok_impl; [by apply (skip_digits_ok d)|]. intros r s3 (ds & Hds & Hr & M3).
    exists neg, (d :: ds). split; [apply canonical_digits_from; [done| |done]|].
    + intros ->. by cbn in E0.
    + split; [done|chain].
Qed.

Lemma skip_number_fraction_ok c s : at_byte c s -> ok (skip_number_fraction c) s (fun r s' =>
  exists f fd, frac_text f fd /\ at_byte r s' /\ text f s s').
Proof.
  intros Hc. unfold skip_number_fraction. destruct (byte_is c ch_dot) eqn:E.
  - apply byte_is_spec in E as ->. eapply ok_bind; [by apply advance_ok|]. intros [] s1 M1.
    eapply ok_attempt_or_error; [apply peek_ok|]. intros c s2 (M2 & Hc2 & _).
    destruct (digit_of c) eqn:Ed; [|apply ok_error]. apply digit_of_spec in Ed as (d & -> & Hd).
    eapply ok_impl; [by apply (skip_digits_ok d)|]. intros r s3 (ds & Hds & Hr & M3).
    exists (ch_dot :: d :: ds), (d :: ds). split; [right; repeat split; [done|by constructor]|].
    split; [done|chain].
  - apply ok_ret. exists [], []. split; [by left|]. split; [done|apply moves_refl].
Qed.

(** The sign of an exponent. *)
Definition exp_sign (sg : bytes) : Prop := sg = [] \/ sg = [ch_plus] \/ sg = [ch_minus].

Lemma exp_text_intro c sg d ds : c = ch_e \/ c = ch_E -> exp_sign sg -> is_digit d = true ->
  all_digits ds -> exists v, exp_text (c :: sg ++ d :: ds) v.
Proof.
  intros Hc Hs Hd Hds. destruct Hs as [Hs|[Hs|Hs]].
  3: exists (- digits_value (d :: ds)). 1,2: exists (digits_value (d :: ds)).
  all: right; exists c, sg, (d :: ds); (split; [done|]); (split; [done|]); (split; [done|]);
    (split; [by constructor|]); tauto.
Qed.

Lemma skip_number_exponent_ok c s : at_byte c s -> ok (skip_number_exponent c) s (fun _ s' =>
  exists x v, exp_text x v /\ text x s s').
Proof.
  intros Hc. unfold skip_number_exponent. destruct (byte_is c ch_e || byte_is c ch_E) eqn:E.
  - assert (exists e, c = Some e /\ (e = ch_e \/ e = ch_E)) as (e & -> & He).
    { apply orb_true_iff in E as [E|E]; apply byte_is_spec in E as ->; eauto. }
    eapply ok_bind; [by apply advance_ok|]. intros [] s1 M1. step peek_ok as c s2 (M2 & Hc2 & _).
    eapply ok_bind with (P := fun c s3 => exists sg, exp_sign sg /\ at_byte c s3 /\ text (e :: sg) s s3).
    { destruct (byte_is c ch_plus || byte_is c ch_minus) eqn:Es.
      - assert (exists b, c = Some b /\ exp_sign [b]) as (b & -> & Hb).
        { apply orb_true_iff in Es as [Es|Es]; apply byte_is_spec in Es as ->; eexists; split;
            try done; unfold exp_sign; auto. }
        eapply ok_bind; [by apply advance_ok|]. intros [] s3 M3. eapply ok_impl; [apply peek_ok|].
        intros c s4 (M4 & Hc4 & _). exists [b]. split; [done|]. split; [done|chain].
      - apply ok_ret. exists []. split; [by left|]. split; [done|chain]. }
    intros c' s3 (sg & Hsg & Hc3 & M3). destruct (digit_of c') eqn:Ed; [|apply ok_error].
    apply digit_of_spec in Ed as (d & -> & Hd).
    eapply ok_bind; [by apply (skip_digits_ok d)|]. intros r s4 (ds & Hds & Hr & M4). apply ok_ret.
    destruct (exp_text_intro e sg d ds) as [v Hv]; try done. exists (e :: sg ++ d :: ds), v.
    split; [done|]. clear M1 M2. chain.
  - apply ok_ret. exists [], 0. split; [by left|apply moves_refl].
Qed.

Lemma is_number_intro neg i f fd x v : int_text i -> frac_text f fd -> exp_text x v ->
  is_number (sign_text neg ++ i ++ f ++ x).
Proof. intros Hi Hf Hx. eexists _, _, neg, i, f, fd, x, v. by repeat (split; [done|]). Qed.

Lemma skip_number_fast_ok s : ok lql_json_skip_number_fast s (fun _ s' =>
  exists w, is_number w /\ text w s s').
Proof.
  unfold lql_json_skip_number_fast. step skip_number_integer_ok as c s1 (neg & i & Hi & Hc & M1).
  eapply ok_bind; [by apply skip_number_fraction_ok|]. intros c2 s2 (f & fd & Hf & Hc2 & M2).
  eapply ok_impl; [by apply skip_number_exponent_ok|]. intros [] s3 (x & v & Hx & M3).
  exists (sign_text neg ++ i ++ f ++ x). split; [by eapply is_number_intro|chain].
Qed.

(** ** Values *)

Definition deeper (f : nat -> nat) (s : lql_json_scan) : lql_json_scan :=
  on_input (fun i => i <| depth := f (depth i) |>) s.

(** The containers that may still be opened. *)
Definition room (s : lql_json_scan) : nat := (LQL_JSON_MAX_DEPTH - depth (input s))%nat.

(** The depth is within the limit and the input is bytes. *)
Definition sane (s : lql_json_scan) : Prop :=
  Forall byte_range (stream s) /\ (depth (input s) <= LQL_JSON_MAX_DEPTH)%nat.

Lemma moves_sane w c o s s' : moves w c o s s' -> sane s -> sane s' /\ room s' = room s.
Proof.
  intros M [Hb Hd]. pose proof (mv_depth _ _ _ _ _ M) as E. split.
  - split; [by eapply moves_bytes|lia].
  - unfold room. by rewrite E.
Qed.

Lemma enter_ok s : sane s -> ok enter s (fun _ s' =>
  s' = deeper S s /\ sane s' /\ room s = S (room s') /\ (depth (input s) < LQL_JSON_MAX_DEPTH)%nat).
Proof.
  intros [Hb Hd]. unfold enter. apply ok_gets_then.
  destruct (Nat.eqb_spec (depth (input s)) LQL_JSON_MAX_DEPTH) as [E|E]; [apply ok_error|].
  apply ok_modify. change (on_input _ s) with (deeper S s). split; [done|].
  assert (E' : depth (input (deeper S s)) = S (depth (input s))) by done.
  split; [split; [done|lia]|]. unfold room. rewrite E'. lia.
Qed.

(** A move inside a container, seen from outside. *)
Lemma moves_nest w c o s s' : moves w c o (deeper S s) s' -> moves w c o s (deeper Nat.pred s').
Proof. intros [H1 H2 H3 H4 H5 H6 H7]. split; try done. cbn. by rewrite H6. Qed.

(** A move that ends by leaving a container. *)
Definition leaves (w c o : bytes) (s s' : lql_json_scan) : Prop :=
  exists s1, s' = deeper Nat.pred s1 /\ moves w c o s s1.

Lemma leaves_trans w1 c1 o1 w2 c2 o2 s1 s2 s3 : moves w1 c1 o1 s1 s2 -> leaves w2 c2 o2 s2 s3 ->
  leaves (w1 ++ w2) (c1 ++ c2) (o1 ++ o2) s1 s3.
Proof. intros M (s4 & -> & M'). exists s4. split; [done|]. by eapply moves_trans. Qed.

Lemma leave_ok s : ok leave s (fun _ s' => s' = deeper Nat.pred s).
Proof. by apply ok_modify. Qed.

(** What reading a value, the rest of an object or of an array does. *)
Definition reads_value (o : bytes -> bytes) (s s' : lql_json_scan) : Prop :=
  exists w c, json_value (room s) w c /\ moves w c (o c) s s'.
Definition reads_members (o : bytes -> bytes) (s s' : lql_json_scan) : Prop :=
  exists w c, json_members (room s) w c /\ leaves w c (o c) s s'.
Definition reads_elements (o : bytes -> bytes) (s s' : lql_json_scan) : Prop :=
  exists w c, json_elements (room s) w c /\ leaves w c (o c) s s'.

Definition no_output (_ : bytes) : bytes := [].

Lemma moves_spaces_bytes w c o s s' : moves w c o s s' -> sane s -> sane s'.
Proof. intros M H. by apply (moves_sane _ _ _ _ _ M). Qed.

Definition skip_spec (fuel : nat) : Prop :=
  (forall s, sane s -> ok (skip_value fuel) s (fun _ => reads_value no_output s)) /\
  (forall c s, sane s -> ok (skip_members fuel c) s (fun _ => reads_members no_output s)) /\
  (forall s, sane s -> ok (skip_elements fuel) s (fun _ => reads_elements no_output s)).
Lemma skip_scalars s : sane s -> forall c, at_byte c s ->
  ok (if byte_is c ch_quote then lql_json_skip_string_fast
      else if byte_is c 116 then lql_json_skip_literal_fast (bs "true")
      else if byte_is c ch_f then lql_json_skip_literal_fast (bs "false")
      else if byte_is c 110 then lql_json_skip_literal_fast (bs "null")
      else lql_json_skip_number_fast) s (fun _ => reads_value no_output s).
Proof.
  intros Hs c _. repeat case_if.
  - eapply ok_impl; [apply skip_string_fast_ok, Hs|]. intros [] s' (w & Hw & M). exists w, w.
    split; [by constructor|done].
  - eapply ok_impl; [apply skip_literal_fast_ok|]. intros [] s' M. eexists _, _.
    split; [|exact M]. apply value_literal. cbn. auto.
  - eapply ok_impl; [apply skip_literal_fast_ok|]. intros [] s' M. eexists _, _.
    split; [|exact M]. apply value_literal. cbn. auto.
  - eapply ok_impl; [apply skip_literal_fast_ok|]. intros [] s' M. eexists _, _.
    split; [|exact M]. apply value_literal. cbn. auto.
  - eapply ok_impl; [apply skip_number_fast_ok|]. intros [] s' (w & Hw & M). exists w, w.
    split; [by constructor|done].
Qed.

Lemma skip_value_step fuel : skip_spec fuel -> forall s, sane s ->
  ok (skip_value (S fuel)) s (fun _ => reads_value no_output s).
Proof.
  intros (IHv & IHm & IHe) s Hs. cbn [skip_value]. step peek_ok as c s1 (M1 & Hc & _).
  destruct (moves_sane _ _ _ _ _ M1 Hs) as [Hs1 Hr1].
  destruct (byte_is c ch_lbrace); [|destruct (byte_is c ch_lbracket)].
  - eapply ok_bind; [by apply enter_ok|]. intros [] s2 (-> & Hs2 & Hr & _).
    step take_expected_ok as [] s3 M3. step skip_space_ok as [] s4 (sp & Hsp & M4).
    step peek_ok as c5 s5 (M5 & Hc5 & _).
    assert (M25 : moves (ch_lbrace :: sp) [ch_lbrace] [] (deeper S s1) s5) by chain.
    destruct (moves_sane _ _ _ _ _ M25 Hs2) as [Hs5 Hr5].
    destruct (byte_is c5 ch_rbrace) eqn:E.
    + apply byte_is_spec in E as ->. eapply ok_bind; [by apply advance_ok|]. intros [] s6 M6.
      eapply ok_impl; [apply leave_ok|]. intros [] s7 ->. eexists _, _. rewrite <- Hr1, Hr.
      split; [by apply value_empty_object|]. eapply (moves_trans [] [] []); [exact M1|].
      apply moves_nest. clear M3 M4 M5. chain.
    + eapply ok_impl; [by apply IHm|]. intros [] s6 (w & cw & Hw & (s7 & -> & M7)).
      eexists _, _. rewrite <- Hr1, Hr. split; [apply value_object; [exact Hsp|by rewrite <- Hr5]|].
      eapply (moves_trans [] [] []); [exact M1|]. apply moves_nest. clear M3 M4 M5. chain.
  - eapply ok_bind; [by apply enter_ok|]. intros [] s2 (-> & Hs2 & Hr & _).
    step take_expected_ok as [] s3 M3. step skip_space_ok as [] s4 (sp & Hsp & M4).
    step peek_ok as c5 s5 (M5 & Hc5 & _).
    assert (M25 : moves (ch_lbracket :: sp) [ch_lbracket] [] (deeper S s1) s5) by chain.
    destruct (moves_sane _ _ _ _ _ M25 Hs2) as [Hs5 Hr5].
    destruct (byte_is c5 ch_rbracket) eqn:E.
    + apply byte_is_spec in E as ->. eapply ok_bind; [by apply advance_ok|]. intros [] s6 M6.
      eapply ok_impl; [apply leave_ok|]. intros [] s7 ->. eexists _, _. rewrite <- Hr1, Hr.
      split; [by apply value_empty_array|]. eapply (moves_trans [] [] []); [exact M1|].
      apply moves_nest. clear M3 M4 M5. chain.
    + eapply ok_impl; [by apply IHe|]. intros [] s6 (w & cw & Hw & (s7 & -> & M7)).
      eexists _, _. rewrite <- Hr1, Hr. split; [apply value_array; [exact Hsp|by rewrite <- Hr5]|].
      eapply (moves_trans [] [] []); [exact M1|]. apply moves_nest. clear M3 M4 M5. chain.
  - eapply ok_impl; [by apply (skip_scalars s1 Hs1 c)|]. intros [] s2 (w & cw & Hw & M2).
    exists w, cw. rewrite <- Hr1. split; [done|chain].
Qed.

(** A member up to the separator after it. *)
Lemma skip_member_ok fuel s B (k : Z -> Scan B) (Q : B -> lql_json_scan -> Prop) :
  skip_spec fuel -> sane s ->
  (forall v c x s', json_member (room s) v c -> moves (v ++ [x]) (c ++ [x]) [] s s' -> ok (k x) s' Q) ->
  ok (lql_json_skip_string_fast ;; lql_json_skip_space ;; lql_json_take_expected ch_colon ;;
      lql_json_skip_space ;; skip_value fuel ;; lql_json_skip_space ;; x ← lql_json_take; k x) s Q.
Proof.
  intros (IHv & _ & _) Hs Hk.
  eapply ok_bind; [by apply skip_string_fast_ok, Hs|]. intros [] s1 (key & Hkey & M1).
  step skip_space_ok as [] s2 (sp1 & Hsp1 & M2). step take_expected_ok as [] s3 M3.
  step skip_space_ok as [] s4 (sp2 & Hsp2 & M4).
  assert (M14 : moves (key ++ sp1 ++ ch_colon :: sp2) (key ++ [ch_colon]) [] s s4) by chain.
  destruct (moves_sane _ _ _ _ _ M14 Hs) as [Hs4 Hr4].
  eapply ok_bind; [by apply IHv|]. intros [] s5 (v & c & Hv & M5).
  step skip_space_ok as [] s6 (sp3 & Hsp3 & M6). step take_ok as x s7 M7.
  apply (Hk (key ++ sp1 ++ ch_colon :: sp2 ++ v ++ sp3) (key ++ ch_colon :: c)).
  - rewrite Hr4 in Hv. by constructor.
  - clear M1 M2 M3 M4. unfold no_output in M5. chain.
Qed.

Lemma skip_members_step fuel : skip_spec fuel -> forall c s, sane s ->
  ok (skip_members (S fuel) c) s (fun _ => reads_members no_output s).
Proof.
  intros IH c s Hs. cbn [skip_members]. destruct (byte_is c ch_quote); cbn [negb]; [|apply ok_error].
  apply skip_member_ok; [done|done|]. intros v cv x s1 Hm M1.
  destruct (Z.eqb_spec x ch_rbrace) as [->|_]; [|destruct (Z.eqb_spec x ch_comma) as [->|_]; cbn [negb];
    [|apply ok_error]].
  - eapply ok_impl; [apply leave_ok|]. intros [] s2 ->. eexists _, _. split; [by apply members_last|].
    exists s1. by split.
  - step skip_space_ok as [] s2 (sp & Hsp & M2). step peek_ok as c3 s3 (M3 & _ & _).
    assert (M13 : moves (v ++ ch_comma :: sp) (cv ++ [ch_comma]) [] s s3) by chain.
    destruct (moves_sane _ _ _ _ _ M13 Hs) as [Hs3 Hr3].
    eapply ok_impl; [by apply IH|]. intros [] s4 (w & cw & Hw & (s5 & -> & M5)). rewrite Hr3 in Hw.
    eexists _, _. split; [by eapply members_more|]. exists s5. split; [done|]. clear M1 M2 M3. chain.
Qed.

Lemma skip_elements_step fuel : skip_spec fuel -> forall s, sane s ->
  ok (skip_elements (S fuel)) s (fun _ => reads_elements no_output s).
Proof.
  intros IH s Hs. cbn [skip_elements]. eapply ok_bind; [by apply IH|]. intros [] s1 (v & c & Hv & M1).
  unfold no_output in M1. step skip_space_ok as [] s2 (sp & Hsp & M2). step take_ok as x s3 M3.
  destruct (Z.eqb_spec x ch_rbracket) as [->|_];
    [|destruct (Z.eqb_spec x ch_comma) as [->|_]; cbn [negb]; [|apply ok_error]].
  - eapply ok_impl; [apply leave_ok|]. intros [] s4 ->. eexists _, _.
    split; [by apply elements_last|]. exists s3. split; [done|chain].
  - step skip_space_ok as [] s4 (sp' & Hsp' & M4).
    assert (M14 : moves (v ++ sp ++ ch_comma :: sp') (c ++ [ch_comma]) [] s s4) by chain.
    destruct (moves_sane _ _ _ _ _ M14 Hs) as [Hs4 Hr4].
    eapply ok_impl; [by apply IH|]. intros [] s5 (w & cw & Hw & (s6 & -> & M6)). rewrite Hr4 in Hw.
    eexists _, _. split; [by apply (elements_more _ v c sp sp')|]. exists s6. split; [done|]. clear M1 M2 M3 M4. chain.
Qed.

Lemma skip_value_ok fuel : skip_spec fuel.
Proof.
  induction fuel as [|fuel IH]; [done|]. split; [|split].
  - by apply skip_value_step.
  - by apply skip_members_step.
  - by apply skip_elements_step.
Qed.

Lemma skip_value_fast_ok s : sane s -> ok lql_json_skip_value_fast s (fun _ => reads_value no_output s).
Proof. intros Hs. unfold lql_json_skip_value_fast. apply ok_gets_then. by apply skip_value_ok. Qed.
End reads.
