(* ===== verification/ScanWrites.v ===== *)
(** * What the scanner writes

    The output functions append to what was written; the matcher leaves input and
    output alone; so strings, literals and numbers are read and, when the scan has
    a spool, copied as they are. *)

From S2P Require Import Prelude.
From S2P Require Import Errors.
From S2P Require Import Number.
From S2P Require Import NumberSpec.
From S2P Require Import UnicodeProps.
From S2P Require Import JsonSpool.
From S2P Require Import SpoolProps.
From S2P Require Import ScanTerm.
From S2P Require Import ScanState.
From S2P Require Import ScanInput.
From S2P Require Import ScanMatch.
From S2P Require Import JsonScan.
From S2P Require Import JsonGrammar.
From S2P Require Import ScanSpan.
From S2P Require Import ScanLogic.
From S2P Require Import ScanReads.

(** ** The matcher is quiet *)

Section quiet.
Context (cfg : scan_config).

Ltac same := by split.

Lemma quiet_on_matcher f : quiet (modify (on_matcher f)).
Proof. apply quiet_modify. same. Qed.
Lemma quiet_on_capture f : quiet (modify (on_capture f)).
Proof. apply quiet_modify. same. Qed.
Lemma quiet_on_number f : quiet (modify (on_number f)).
Proof. apply quiet_modify. same. Qed.
Lemma quiet_on_temporal f : quiet (modify (on_temporal f)).
Proof. apply quiet_modify. same. Qed.
Lemma quiet_add_hits hits : quiet (modify (add_hits hits)).
Proof. apply quiet_modify. same. Qed.
Lemma quiet_hits f : quiet (modify (fun s => add_hits (f s) s)).
Proof. apply quiet_modify. same. Qed.
Lemma quiet_set_path_active d v : quiet (modify (set_path_active d v)).
Proof. apply quiet_modify. same. Qed.
Lemma quiet_set_recursive_active d v : quiet (modify (set_recursive_active d v)).
Proof. apply quiet_modify. same. Qed.
Lemma quiet_set_capture_path d v : quiet (modify (set_capture_path d v)).
Proof. apply quiet_modify. same. Qed.
Lemma quiet_record_captures mask start : quiet (modify (record_captures cfg mask start)).
Proof. apply quiet_modify. same. Qed.
Lemma quiet_matching f : quiet (matching f).
Proof.
  apply quiet_state. intros s. cbn. destruct (f (matcher s)). same.
Qed.

Lemma match_byte_same v s s' : lql_json_match_byte cfg v s = Some s' -> same_io s s'.
Proof.
  unfold lql_json_match_byte. case_if; [intros [= <-]; same|]. cbv zeta.
  case_if; [intros [= <-]; same|]. intros H. apply bind_Some in H as (m & _ & H).
  revert H. repeat case_if; intros H; try apply bind_Some in H as (m' & _ & H); injection H as <-; same.
Qed.

Lemma match_bytes_while_same go data : forall s s',
  match_bytes_while cfg go data s = Some s' -> same_io s s'.
Proof.
  induction data as [|c data IH]; intros s s'; cbn; [intros [= <-]; same|].
  case_if; [|intros [= <-]; same]. intros H. apply bind_Some in H as (s1 & H1 & H2).
  apply match_byte_same in H1. apply IH in H2. by transitivity s1.
Qed.

Lemma match_span_bytes_same m i data s s' : match_span_bytes cfg m i data s = Some s' -> same_io s s'.
Proof.
  unfold match_span_bytes. cbv zeta. intros H. apply bind_Some in H as (s1 & H & [= <-]).
  apply match_bytes_while_same in H as [H1 H2].
  destruct (is_empty m); cbn in H1, H2; split; cbn; congruence.
Qed.

Lemma match_span_terms_same a b data terms : forall i s r,
  match_span_terms cfg a b i terms data s = Some r -> same_io s r.2.
Proof.
  induction terms as [|term terms IH]; intros i s r; cbn [match_span_terms]; [intros [= <-]; same|].
  cbv zeta. case_if; [apply IH|]. case_match.
  - intros H1. apply IH in H1 as [Ha Hb]. cbn in Ha, Hb. split; cbn; congruence.
  - intros H1. apply bind_Some in H1 as (s1 & H1 & [= <-]). by eapply match_span_bytes_same.
Qed.

Lemma capture_span_same data s s' : capture_span cfg data s = Some s' -> same_io s s'.
Proof.
  unfold capture_span. cbv zeta. intros H. apply bind_Some in H as (s1 & H & [= <-]).
  apply match_bytes_while_same in H as [H1 H2]. cbn in H1, H2. split; cbn; congruence.
Qed.

Lemma match_span_same data s s' : lql_json_match_span cfg data s = Some s' -> same_io s s'.
Proof.
  unfold lql_json_match_span. case_if; [intros [= <-]; same|]. cbv zeta.
  intros H. apply bind_Some in H as (m & _ & H). apply bind_Some in H as (m' & _ & H).
  apply bind_Some in H as ([done s1] & H1 & H).
  assert (same_io s s1) as Hs.
  { revert H1. case_if; [intros [= _ <-]; same|]. intros H1.
    apply match_span_terms_same in H1 as [Ha Hb]. cbn in Ha, Hb. split; cbn; congruence. }
  revert H. case_if; [intros [= <-]; done|]. intros H. apply capture_span_same in H. by transitivity s1.
Qed.

Lemma quiet_match_byte v : quiet (match_byte cfg v).
Proof. apply quiet_run. apply match_byte_same. Qed.
Lemma quiet_match_unicode v : quiet (match_unicode cfg v).
Proof. apply quiet_run. intros s s'. apply match_bytes_while_same. Qed.
Lemma quiet_match_plain_span data : quiet (match_plain_span cfg data).
Proof.
  unfold match_plain_span. apply quiet_bind; [apply quiet_gets|]. intros [].
  - apply quiet_run, match_span_same.
  - apply quiet_ret.
Qed.
End quiet.

#[export] Hint Resolve quiet_on_matcher quiet_on_capture quiet_on_number quiet_on_temporal
  quiet_add_hits quiet_hits quiet_set_path_active quiet_set_recursive_active quiet_set_capture_path
  quiet_record_captures quiet_matching quiet_match_byte quiet_match_unicode quiet_match_plain_span
  : quiet.

Section numbers.
Context (cfg : scan_config) (parse_double : bytes -> option spec_float).

Lemma quiet_number_range_byte v : quiet (lql_json_number_range_byte cfg v).
Proof. unfold lql_json_number_range_byte. quiet. Qed.
Lemma quiet_compare_current t right : quiet (compare_current t right).
Proof. unfold compare_current. quiet. Qed.
Lemma quiet_compare_failed : quiet compare_failed.
Proof. unfold compare_failed. quiet. Qed.
#[local] Hint Resolve quiet_compare_current quiet_compare_failed : quiet.

Lemma quiet_range_bound b t pass reject : quiet (range_bound parse_double b t pass reject).
Proof. unfold range_bound. quiet. Qed.
#[local] Hint Resolve quiet_range_bound : quiet.

Lemma quiet_range_term term t : quiet (range_term parse_double term t).
Proof. unfold range_term. quiet. Qed.
Lemma quiet_eq_term term t : quiet (eq_term term t).
Proof. unfold eq_term. quiet. Qed.

Lemma quiet_number_hits kind test terms : (forall term t, quiet (test term t)) ->
  forall i mask hits, quiet (number_hits i mask kind test terms hits).
Proof.
  intros Ht. induction terms as [|term terms IH]; intros i mask hits; cbn [number_hits]; quiet.
Qed.
#[local] Hint Resolve quiet_number_hits quiet_range_term quiet_eq_term : quiet.

Lemma quiet_number_complete terms : quiet (number_complete cfg parse_double terms).
Proof.
  unfold number_complete, lql_json_number_range_complete, lql_json_number_eq_complete. quiet.
Qed.
End numbers.

#[export] Hint Resolve quiet_number_range_byte quiet_number_complete : quiet.

(** ** Output *)

Section writes.
Context {content : bytes -> lql_json_spool -> Prop} `{!SpoolLaws content} (cfg : scan_config).
Implicit Types (s : lql_json_scan).
#[local] Abbreviation moves := (moves (content := content)).
#[local] Abbreviation written := (written (content := content)).

(** What is written of a text: nothing when the scan has no spool. *)
Definition out (c : bytes) : bytes := if writing cfg then c else [].

Lemma out_app a b : out (a ++ b) = out a ++ out b.
Proof. unfold out. by case_if. Qed.

Lemma out_cons x b : out (x :: b) = out [x] ++ out b.
Proof. apply (out_app [x]). Qed.

Lemma out_nil : out [] = [].
Proof. unfold out. by case_if. Qed.

Lemma drain_ok s : ok drain s (fun _ s' => moves [] [] [] s s').
Proof.
  unfold drain, lql_json_spool_write, call_spool. apply ok_gets_then. intros a s'.
  unfold mbind, Scan_bind.
  destruct (lql_json_spool_append _ _ _) as [[[[st msg]|[]] sp] e] eqn:E; [done|]. intros [= <- <-].
  apply moves_writes; [done|]. intros x (c & Hc & ->). exists (c ++ emit_buffer (output s)).
  split; [|by rewrite !app_nil_r]. by eapply content_append.
Qed.

Lemma make_room_ok s : ok make_room s (fun _ s' => moves [] [] [] s s').
Proof.
  unfold make_room. apply ok_gets_then. case_if; [apply drain_ok|]. apply ok_ret, moves_refl.
Qed.

(** Bytes put into the emit buffer. *)
Lemma emit_ok x s : ok (modify (on_output (fun o => o <| emit_buffer := emit_buffer o ++ x |>))) s
  (fun _ s' => moves [] [] x s s').
Proof.
  apply ok_modify. apply moves_writes; [done|]. intros y (c & Hc & ->). exists c. split; [done|].
  by rewrite <- app_assoc.
Qed.

Lemma write_loop_ok fuel : forall data s, ok (write_loop fuel data) s (fun _ s' => moves [] [] data s s').
Proof.
  induction fuel as [|fuel IH]; intros data s; (destruct data as [|x data]; [apply ok_ret, moves_refl|done]) ||
    cbn [write_loop]. destruct data as [|x data]; [apply ok_ret, moves_refl|].
  step make_room_ok as [] s1 M1. apply ok_gets_then. cbv zeta. set (n := Z.to_nat _).
  eapply ok_bind; [apply emit_ok|]. intros [] s2 M2. eapply ok_impl; [apply IH|]. intros [] s3 M3.
  eapply moves_eq; [chain_moves|done|done|]. cbn [app]. apply take_drop.
Qed.

Lemma write_ok data s : ok (lql_json_write cfg data) s (fun _ s' => moves [] [] (out data) s s').
Proof.
  unfold lql_json_write, out. case_if; [apply write_loop_ok|apply ok_ret, moves_refl].
Qed.

Lemma copy_byte_ok v s : ok (lql_json_copy_byte cfg v) s (fun _ s' => moves [] [] (out [v]) s s').
Proof.
  unfold lql_json_copy_byte, lql_json_write_byte, out. case_if; [|apply ok_ret, moves_refl].
  step make_room_ok as [] s1 M1. eapply ok_impl; [apply emit_ok|]. intros [] s2 M2. chain.
Qed.

(** The same bytes read, counted and written. *)
#[local] Abbreviation copied w := (moves w w (out w)).

Ltac chain_out :=
  cbv beta in *; eapply moves_eq;
  [chain_moves|same_text|same_text|unfold out; destruct (writing cfg); same_text].

(** ** Strings *)

Lemma quiet_copied {A} (m : Scan A) s : quiet m -> ok m s (fun _ s' => copied [] s s').
Proof.
  intros H. eapply ok_impl; [by eapply (quiet_moves (content:=content))|]. intros a s' M. by rewrite out_nil.
Qed.

Lemma string_continuations_ok n : forall low high s, ok (string_continuations cfg n low high) s
  (fun _ s' => exists t, continues n low high t /\ copied t s s').
Proof.
  induction n as [|n IH]; intros low high s; cbn [string_continuations].
  - apply ok_ret. exists []. split; [done|]. rewrite out_nil. apply moves_refl.
  - step take_continuation_ok as c s1 [Hc M1]. step copy_byte_ok as [] s2 M2.
    eapply ok_bind; [eapply (quiet_moves (content:=content)); auto with quiet|]. intros [] s3 M3.
    eapply ok_impl; [apply IH|]. intros [] s4 (t & Ht & M4). exists (c :: t). split; [done|chain_out].
Qed.

Lemma string_unicode_escape_ok s : ok (string_unicode_escape cfg) s (fun _ s' =>
  exists t, unicode_text t /\ moves t t (out (ch_u :: t)) s s').
Proof.
  unfold string_unicode_escape. step copy_byte_ok as [] s1 M1.
  step take_hex4_ok as [v t] s2 [H2 M2]. cbn [fst snd] in *. step write_ok as [] s3 M3.
  destruct (is_low_surrogate v) eqn:El; [apply ok_error|].
  destruct (is_high_surrogate v) eqn:Eh; cbn [negb].
  - step take_expected_ok as [] s4 M4. step copy_byte_ok as [] s5 M5.
    step take_expected_ok as [] s6 M6. step copy_byte_ok as [] s7 M7.
    step take_hex4_ok as [v' t'] s8 [H8 M8]. cbn [fst snd] in *. step write_ok as [] s9 M9.
    destruct (is_low_surrogate v') eqn:El'; cbn [negb]; [|apply ok_error].
    eapply ok_impl; [eapply (quiet_moves (content:=content)); auto with quiet|]. intros [] s10 M10.
    exists (t ++ ch_backslash :: ch_u :: t'). split; [|chain_out].
    by eapply unicode_two; [done|apply high_surrogate_spec|done|apply low_surrogate_spec].
  - eapply ok_impl; [eapply (quiet_moves (content:=content)); auto with quiet|]. intros [] s4 M4. exists t.
    split; [|chain_out]. eapply unicode_one; [done|..].
    + by rewrite <- high_surrogate_spec, Eh.
    + by rewrite <- low_surrogate_spec, El.
Qed.


Lemma string_chars_ok fuel : forall s, sane s ->
  ok (string_loop cfg fuel) s (fun _ s' => exists b, json_chars b /\ copied (b ++ [ch_quote]) s s').
Proof.
  induction fuel as [|fuel IH]; intros s Hs; [done|]. cbn [string_loop].
  step refill_ok as [] s1 [M1 _]. pose proof (moves_spaces_bytes _ _ _ _ _ M1 Hs) as Hs1.
  apply ok_gets_then. destruct (buffer (input s1)) as [|v data] eqn:Eb; [apply ok_error|]. cbv zeta.
  destruct (ascii_span_ok (content := content) s1 (proj1 Hs1)) as [Ha Hp]. rewrite Eb in Ha, Hp.
  set (n := lql_json_plain_ascii_span _) in *. destruct (n =? 0)%nat; cbn [negb].
  2:{ eapply ok_bind; [exact Ha|]. intros [] s2 M2. step write_ok as [] s3 M3.
      eapply ok_bind; [eapply (quiet_moves (content := content)); auto with quiet|]. intros [] s4 M4.
      assert (M24 : copied (take n (v :: data)) s1 s4) by chain_out.
      eapply ok_impl; [apply IH; by eapply moves_spaces_bytes|]. intros [] s5 (b & Hb & M5).
      exists (take n (v :: data) ++ b). split; [by apply chars_plain|]. clear M2 M3 M4. chain_out. }
  eapply ok_bind; [eapply (advance_ok (content := content) v); unfold at_byte; by rewrite Eb|].
  intros [] s2 M2. destruct (Z.eqb_spec v ch_quote) as [->|Hq].
  { eapply ok_impl; [eapply copy_byte_ok|]. intros [] s3 M3. exists []. split; [constructor|chain_out]. }
  destruct (v <? 0x20) eqn:E20; [apply ok_error|].
  destruct (Z.eqb_spec v ch_backslash) as [->|Hbs]; [|destruct (v <? 0x80) eqn:E80].
  - step copy_byte_ok as [] s3 M3. eapply ok_attempt_or_error; [apply (take_ok (content := content))|].
    intros e s4 M4. destruct (simple_escape e) eqn:Ee.
    { eapply ok_bind; [eapply (quiet_moves (content := content)); auto with quiet|]. intros [] s5 M5.
      step copy_byte_ok as [] s6 M6.
      assert (M26 : copied [ch_backslash; e] s1 s6) by chain_out.
      eapply ok_impl; [apply IH; by eapply moves_spaces_bytes|]. intros [] s7 (b & Hb & M7).
      exists (ch_backslash :: e :: b). split; [apply chars_escape; [by apply simple_escape_spec|done]|].
      clear M2 M3 M4 M5 M6. chain_out. }
    destruct (Z.eqb_spec e ch_u) as [->|]; cbn [negb]; [|apply ok_error].
    step string_unicode_escape_ok as [] s5 (t & Ht & M5).
    assert (M25 : copied (ch_backslash :: ch_u :: t) s1 s5) by chain_out.
    eapply ok_impl; [apply IH; by eapply moves_spaces_bytes|]. intros [] s6 (b & Hb & M6).
    exists (ch_backslash :: ch_u :: t ++ b). split; [by apply chars_unicode_text|].
    clear M2 M3 M4 M5. chain_out.
  - eapply ok_bind; [eapply (quiet_moves (content := content)); auto with quiet|]. intros [] s3 M3.
    step copy_byte_ok as [] s4 M4. assert (M24 : copied [v] s1 s4) by chain_out.
    eapply ok_impl; [apply IH; by eapply moves_spaces_bytes|]. intros [] s5 (b & Hb & M5).
    exists (v :: b). split; [apply chars_ascii; [lia|done..]|]. clear M2 M3 M4. chain_out.
  - destruct (utf8_lead v) as [[[k low] high]|] eqn:El; [|apply ok_error].
    step copy_byte_ok as [] s3 M3.
    eapply ok_bind; [eapply (quiet_moves (content := content)); auto with quiet|]. intros [] s4 M4.
    step string_continuations_ok as [] s5 (t & Ht & M5).
    assert (M25 : copied (v :: t) s1 s5) by chain_out.
    eapply ok_impl; [apply IH; by eapply moves_spaces_bytes|]. intros [] s6 (b & Hb & M6).
    destruct (utf8_lead_spec v k low high t El Ht) as (c & Hc & Hlo & Ec). rewrite Ec in M25.
    exists (utf8_arith c ++ b). split; [apply chars_scalar; (done || lia)|]. clear M2 M3 M4 M5. chain_out.
Qed.

Lemma string_ok s : sane s ->
  ok (lql_json_string cfg) s (fun _ s' => exists w, json_string w /\ copied w s s').
Proof.
  intros Hs. unfold lql_json_string. step take_expected_ok as [] s1 M1. step copy_byte_ok as [] s2 M2.
  assert (M12 : copied [ch_quote] s s2) by chain_out. apply ok_gets_then.
  eapply ok_impl; [apply string_chars_ok; by eapply moves_spaces_bytes|]. intros [] s3 (b & Hb & M3).
  exists (ch_quote :: b ++ [ch_quote]). split; [by exists b|]. clear M1 M2. chain_out.
Qed.

(** ** Literals and numbers *)

Lemma match_copy_byte_ok v s : ok (lql_json_match_copy_byte cfg v) s (fun _ s' => moves [] [] (out [v]) s s').
Proof.
  unfold lql_json_match_copy_byte.
  eapply ok_bind; [eapply (quiet_moves (content := content)); auto with quiet|]. intros wanted s1 M1.
  eapply ok_bind; [eapply (quiet_moves (content := content)); quiet|]. intros [] s2 M2.
  eapply ok_bind; [eapply (quiet_moves (content := content)); quiet|]. intros [] s3 M3.
  eapply ok_impl; [eapply copy_byte_ok|]. intros [] s4 M4. chain_out.
Qed.

Lemma literal_ok l : forall s, ok (lql_json_literal cfg l) s (fun _ s' => copied l s s').
Proof.
  induction l as [|c l IH]; intros s; cbn [lql_json_literal].
  - apply ok_ret. rewrite out_nil. apply moves_refl.
  - step take_expected_ok as [] s1 M1. step match_copy_byte_ok as [] s2 M2.
    eapply ok_impl; [apply IH|]. intros [] s3 M3. chain_out.
Qed.

Lemma copy_and_peek_ok v s : at_byte (Some v) s ->
  ok (copy_and_peek cfg (Some v)) s (fun r s' => at_byte r s' /\ copied [v] s s').
Proof.
  intros Hv. unfold copy_and_peek. eapply ok_bind; [by apply (advance_ok (content := content))|].
  intros [] s1 M1. cbn [default]. step match_copy_byte_ok as [] s2 M2.
  eapply ok_impl; [eapply (peek_ok (content := content))|]. intros r s3 (M3 & Hr & _).
  split; [done|chain_out].
Qed.

Lemma digits_loop_ok fuel : forall d s, is_digit d = true -> at_byte (Some d) s ->
  ok (digits_loop cfg fuel (Some d)) s
    (fun r s' => exists ds, all_digits ds /\ at_byte r s' /\ copied (d :: ds) s s').
Proof.
  induction fuel as [|fuel IH]; intros d s Hd Hc; [done|]. cbn [digits_loop].
  eapply ok_bind; [by apply copy_and_peek_ok|]. intros c s1 [Hc1 M1]. destruct (digit_of c) eqn:E.
  - apply digit_of_spec in E as (d' & -> & Hd'). eapply ok_impl; [by apply IH|].
    intros r s3 (ds & Hds & Hr & M3). exists (d' :: ds). split; [by constructor|]. split; [done|chain_out].
  - apply ok_ret. exists []. split; [constructor|]. split; [done|chain_out].
Qed.

Lemma digits_ok d s : is_digit d = true -> at_byte (Some d) s ->
  ok (digits cfg (Some d)) s
    (fun r s' => exists ds, all_digits ds /\ at_byte r s' /\ copied (d :: ds) s s').
Proof. intros Hd Hc. unfold digits. apply ok_gets_then. by apply digits_loop_ok. Qed.

Lemma number_integer_ok s : ok (number_integer cfg) s (fun r s' =>
  exists neg i, int_text i /\ at_byte r s' /\ copied (sign_text neg ++ i) s s').
Proof.
  unfold number_integer. step peek_ok as c0 s1 (M1 & Hc1 & _).
  eapply ok_bind with (P := fun c s2 => exists neg, at_byte c s2 /\ copied (sign_text neg) s s2).
  { destruct (byte_is c0 ch_minus) eqn:E.
    - apply byte_is_spec in E as ->. eapply ok_impl; [by apply copy_and_peek_ok|].
      intros c s2 [Hc M2]. exists true. split; [done|chain_out].
    - apply ok_ret. exists false. split; [done|chain_out]. }
  intros c s2 (neg & Hc & M2). destruct (byte_is c ch_0) eqn:E0.
  - apply byte_is_spec in E0 as ->. eapply ok_impl; [by apply copy_and_peek_ok|].
    intros r s3 [Hr M3]. exists neg, [ch_0].
    split; [split; [by repeat constructor|done]|]. split; [done|]. clear M1. chain_out.
  - destruct (digit_of c) eqn:Ed; [|apply ok_error]. apply digit_of_spec in Ed as (d & -> & Hd).
    eapply ok_impl; [by apply (digits_ok d)|]. intros r s3 (ds & Hds & Hr & M3).
    exists neg, (d :: ds). split; [apply canonical_digits_from; [done| |done]|].
    + intros ->. by cbn in E0.
    + split; [done|]. clear M1. chain_out.
Qed.

Lemma number_fraction_ok c s : at_byte c s -> ok (number_fraction cfg c) s (fun r s' =>
  exists f fd, frac_text f fd /\ at_byte r s' /\ copied f s s').
Proof.
  intros Hc. unfold number_fraction. destruct (byte_is c ch_dot) eqn:E.
  - apply byte_is_spec in E as ->. eapply ok_attempt_or_error; [by apply copy_and_peek_ok|].
    intros c s2 [Hc2 M2].
    destruct (digit_of c) eqn:Ed; [|apply ok_error]. apply digit_of_spec in Ed as (d & -> & Hd).
    eapply ok_impl; [by apply (digits_ok d)|]. intros r s3 (ds & Hds & Hr & M3).
    exists (ch_dot :: d :: ds), (d :: ds). split; [right; repeat split; [done|by constructor]|].
    split; [done|chain_out].
  - apply ok_ret. exists [], []. split; [by left|]. split; [done|]. rewrite out_nil. apply moves_refl.
Qed.

Lemma number_exponent_ok c s : at_byte c s -> ok (number_exponent cfg c) s (fun _ s' =>
  exists x v, exp_text x v /\ copied x s s').
Proof.
  intros Hc. unfold number_exponent. destruct (byte_is c ch_e || byte_is c ch_E) eqn:E.
  - assert (exists e, c = Some e /\ (e = ch_e \/ e = ch_E)) as (e & -> & He).
    { apply orb_true_iff in E as [E|E]; apply byte_is_spec in E as ->; eauto. }
    eapply ok_bind; [by apply copy_and_peek_ok|]. intros c s2 [Hc2 M2].
    eapply ok_bind with (P := fun c s3 => exists sg, exp_sign sg /\ at_byte c s3 /\ copied (e :: sg) s s3).
    { destruct (byte_is c ch_plus || byte_is c ch_minus) eqn:Es.
      - assert (exists b, c = Some b /\ exp_sign [b]) as (b & -> & Hb).
        { apply orb_true_iff in Es as [Es|Es]; apply byte_is_spec in Es as ->; eexists; split;
            try done; unfold exp_sign; auto. }
        eapply ok_impl; [by apply copy_and_peek_ok|]. intros c s4 [Hc4 M4]. exists [b].
        split; [done|]. split; [done|chain_out].
      - apply ok_ret. exists []. split; [by left|]. split; [done|chain_out]. }
    intros c' s3 (sg & Hsg & Hc3 & M3). destruct (digit_of c') eqn:Ed; [|apply ok_error].
    apply digit_of_spec in Ed as (d & -> & Hd).
    eapply ok_bind; [by apply (digits_ok d)|]. intros r s4 (ds & Hds & Hr & M4). apply ok_ret.
    destruct (exp_text_intro e sg d ds) as [v Hv]; try done. exists (e :: sg ++ d :: ds), v.
    split; [done|]. clear M2. chain_out.
  - apply ok_ret. exists [], 0. split; [by left|]. rewrite out_nil. apply moves_refl.
Qed.

Lemma number_ok s : ok (lql_json_number cfg) s (fun _ s' => exists w, is_number w /\ copied w s s').
Proof.
  unfold lql_json_number. eapply ok_bind; [apply number_integer_ok|]. intros c s1 (neg & i & Hi & Hc & M1).
  eapply ok_bind; [by apply number_fraction_ok|]. intros c2 s2 (f & fd & Hf & Hc2 & M2).
  eapply ok_impl; [by apply number_exponent_ok|]. intros [] s3 (x & v & Hx & M3).
  exists (sign_text neg ++ i ++ f ++ x). split; [by eapply is_number_intro|chain_out].
Qed.
End writes.
