(* ===== verification/ScanSound.v ===== *)
(** * The scanner reads JSON

    A value, the rest of an object and the rest of an array, whatever the terms and
    captures: what the scanner accepts is JSON nested within the limit, and with a
    spool the compact text is what it has written. *)

From S2P Require Import Prelude.
From S2P Require Import Errors.
From S2P Require Import JsonSpool.
From S2P Require Import SpoolProps.
From S2P Require Import ScanTerm.
From S2P Require Import ScanState.
From S2P Require Import ScanInput.
From S2P Require Import ScanMatch.
From S2P Require Import JsonScan.
From S2P Require Import JsonGrammar.
From S2P Require Import ScanSpan.
From S2P Require Import ScanLogic.
From S2P Require Import ScanReads.
From S2P Require Import ScanWrites.

(** ** The parts that only match *)

Section quiet.
Context (cfg : scan_config).

Lemma quiet_match_start active : quiet (match_start cfg active).
Proof. unfold match_start. quiet. Qed.
Lemma quiet_temporal_start active : quiet (temporal_start active).
Proof. unfold temporal_start. quiet. Qed.
Lemma quiet_number_start active : quiet (number_start cfg active).
Proof. unfold number_start. quiet. Qed.
Lemma quiet_at_depth array d : quiet (at_depth array d).
Proof. unfold at_depth. quiet. Qed.
#[local] Hint Resolve quiet_at_depth : quiet.

Lemma quiet_set_depth d f : quiet (modify f) -> quiet (set_depth d f).
Proof. intros H. unfold set_depth. quiet. Qed.
Lemma quiet_clear_below d : quiet (clear_below d).
Proof. apply quiet_set_depth, quiet_modify. by split. Qed.

Lemma quiet_key_terms object_depth : quiet (key_terms cfg object_depth).
Proof.
  unfold key_terms. quiet; by case_match.
Qed.

Lemma quiet_anchor_terms active segment : quiet (anchor_terms cfg active segment).
Proof. unfold anchor_terms. quiet. Qed.
#[local] Hint Resolve quiet_anchor_terms : quiet.

Lemma quiet_element_terms active recursive_terms array_segment index :
  quiet (element_terms cfg active recursive_terms array_segment index).
Proof. unfold element_terms. quiet. Qed.

Lemma quiet_open_below k object_depth container descendants captures :
  quiet (open_below cfg k object_depth container descendants captures).
Proof. unfold open_below. quiet. Qed.

Lemma quiet_skip_rest object_depth : quiet (skip_rest cfg object_depth).
Proof. unfold skip_rest. quiet. Qed.

Lemma quiet_array_masks array_segment : quiet (array_masks cfg array_segment).
Proof.
  unfold array_masks. quiet. by split.
Qed.
End quiet.

#[export] Hint Resolve quiet_match_start quiet_temporal_start quiet_number_start quiet_at_depth
  quiet_set_depth quiet_clear_below quiet_key_terms quiet_anchor_terms quiet_element_terms
  quiet_open_below quiet_skip_rest quiet_array_masks : quiet.

Section sound.
Context {content : bytes -> lql_json_spool -> Prop} `{!SpoolLaws content}.
Context (cfg : scan_config) (parse_double : bytes -> option spec_float).
Implicit Types (s : lql_json_scan).
#[local] Abbreviation moves := (moves (content := content)).
#[local] Abbreviation out := (out cfg).
#[local] Abbreviation copied w := (moves w w (out w)).
#[local] Abbreviation reads_value := (reads_value (content := content) out).
#[local] Abbreviation reads_members := (reads_members (content := content) out).
#[local] Abbreviation reads_elements := (reads_elements (content := content) out).

Ltac chain_out :=
  cbv beta in *; eapply moves_eq;
  [chain_moves|same_text|same_text|unfold ScanWrites.out; destruct (writing cfg); same_text].

(** A quiet step of a sequence, and a quiet computation before the last. *)
Lemma quiet_then {A B} (m : Scan A) (k : A -> Scan B) s s0 w c o Q :
  quiet m -> moves w c o s0 s -> (forall a s', moves w c o s0 s' -> ok (k a) s' Q) -> ok (m ≫= k) s Q.
Proof.
  intros Hm M Hk. eapply ok_bind; [apply (quiet_moves (content := content) _ _ Hm)|].
  intros a s' M'. apply Hk. eapply moves_eq; [eapply moves_trans; [exact M|exact M']|same_text..].
Qed.

(** [value] reads a value. *)
Definition value_ok (value : Scan unit) : Prop := forall s, sane s -> ok value s (fun _ => reads_value s).

(** A move and then what is read after it, when the move reads nothing. *)
Lemma reads_value_after s s1 s2 : moves [] [] [] s s1 -> sane s -> reads_value s1 s2 -> reads_value s s2.
Proof.
  intros M Hs (w & c & Hw & M'). destruct (moves_sane _ _ _ _ _ M Hs) as [_ Hr]. rewrite Hr in Hw.
  exists w, c. split; [done|]. eapply moves_eq; [eapply moves_trans; [exact M|exact M']|done..].
Qed.

Lemma reads_value_before s s1 s2 : reads_value s s1 -> moves [] [] [] s1 s2 -> reads_value s s2.
Proof.
  intros (w & c & Hw & M) M'. exists w, c. split; [done|].
  eapply moves_eq; [eapply moves_trans; [exact M|exact M']|same_text..].
Qed.

(** A value read after quiet steps, and quiet steps after it if it was read. *)
Lemma attempt_ok (value : Scan unit) (post : unit + lql_status -> Scan unit) s0 s :
  moves [] [] [] s0 s -> sane s0 -> value_ok value -> quiet (post (inl tt)) ->
  (forall st s Q, ok (post (inr st)) s Q) -> ok (attempt value ≫= post) s (fun _ => reads_value s0).
Proof.
  intros M Hs Hv Hpost Hfail. destruct (moves_sane _ _ _ _ _ M Hs) as [Hs1 _].
  eapply ok_attempt_then; [by apply Hv| |by intros; apply Hfail]. intros [] s2 R.
  eapply ok_impl; [apply (quiet_moves (content := content)), Hpost|]. intros [] s3 M3.
  eapply reads_value_after; [exact M|done|]. by eapply reads_value_before.
Qed.

Lemma string_value_ok : value_ok (lql_json_string cfg).
Proof.
  intros s Hs. eapply ok_impl; [by apply string_ok|]. intros [] s' (w & Hw & M).
  exists w, w. split; [by constructor|done].
Qed.

Lemma literal_value_ok l : In l [bs "true"; bs "false"; bs "null"] -> value_ok (lql_json_literal cfg l).
Proof.
  intros Hl s Hs. eapply ok_impl; [apply literal_ok|]. intros [] s' M.
  exists l, l. split; [by constructor|done].
Qed.

Lemma number_value_ok : value_ok (lql_json_number cfg).
Proof.
  intros s Hs. eapply ok_impl; [apply number_ok|]. intros [] s' (w & Hw & M).
  exists w, w. split; [by constructor|done].
Qed.

(** ** Values of matched paths *)

Lemma matched_string_ok eq_terms temporal_terms : value_ok (matched_string cfg eq_terms temporal_terms).
Proof.
  intros s Hs. unfold matched_string.
  eapply quiet_then; [auto with quiet|apply moves_refl|]. intros [] s1 M1.
  eapply quiet_then; [auto with quiet|exact M1|]. intros [] s2 M2.
  apply attempt_ok; [done|done|apply string_value_ok|cbv beta iota; quiet|fails].
Qed.

Lemma matched_literal_ok l textual_terms scalar_terms : In l [bs "true"; bs "false"; bs "null"] ->
  value_ok (matched_literal cfg l textual_terms scalar_terms).
Proof.
  intros Hl s Hs. unfold matched_literal.
  eapply quiet_then; [auto with quiet|apply moves_refl|]. intros [] s1 M1.
  apply attempt_ok; [done|done|by apply literal_value_ok|cbv beta iota; quiet|fails].
Qed.

Lemma matched_number_ok value active range_terms number_eq_terms : value_ok value ->
  value_ok (matched_number cfg parse_double value active range_terms number_eq_terms).
Proof.
  intros Hv s Hs. unfold matched_number.
  eapply quiet_then; [auto with quiet|apply moves_refl|]. intros [] s1 M1.
  eapply quiet_then; [auto with quiet|exact M1|]. intros [] s2 M2.
  apply attempt_ok; [done|done|done| |fails]. cbv beta iota.
  apply quiet_attempt_then; [auto with quiet|intros []; cbv beta iota; quiet|fails].
Qed.

Lemma scalar_literal_in value kind l : scalar_literal value = Some (kind, l) ->
  In l [bs "true"; bs "false"; bs "null"].
Proof. unfold scalar_literal. repeat case_if; intros [= _ <-]; cbn; auto. Qed.

Lemma matched_scalar_value_ok value matches c : value_ok value ->
  value_ok (lql_json_matched_scalar_value cfg parse_double value matches c).
Proof.
  intros Hv s Hs. unfold lql_json_matched_scalar_value.
  eapply quiet_then; [auto with quiet|apply moves_refl|]. intros [] s1 M1.
  eapply quiet_then; [quiet|exact M1|]. intros [] s2 M2. apply ok_gets_then. cbv zeta.
  assert (Hs2 : sane s2) by by eapply moves_spaces_bytes.
  assert (K : forall m, value_ok m -> ok m s2 (fun _ => reads_value s)).
  { intros m Hm. eapply ok_impl; [by apply Hm|]. intros a s3 R. by eapply reads_value_after. }
  apply K. repeat case_match; auto using string_value_ok, matched_string_ok, matched_number_ok;
    apply matched_literal_ok; by eapply scalar_literal_in.
Qed.

(** ** Keys *)

Lemma plain_key_spec data key : plain_key data = Some key ->
  exists rest, data = (ch_quote :: key ++ [ch_quote]) ++ rest /\ json_chars key.
Proof.
  unfold plain_key. destruct data as [|c rest]; [done|]. destruct (Z.eqb_spec c ch_quote) as [->|]; [|done].
  destruct (key_span_plain rest) as [Hp Hn]. set (n := lql_json_plain_key_span rest) in *.
  destruct (rest !! n) as [e|] eqn:E; [|done]. destruct (Z.eqb_spec e ch_quote) as [->|]; [|done].
  intros [= <-]. exists (drop (S n) rest). split.
  - cbn. rewrite <- app_assoc. cbn. by rewrite <- (drop_S rest ch_quote n E), take_drop.
  - rewrite <- (app_nil_r (take n rest)). apply chars_plain; [done|constructor].
Qed.

(** The fast path reads the key in the buffer; it writes nothing. *)
Lemma fast_key_ok key_active recursive object_depth s :
  ok (fast_key cfg key_active recursive object_depth) s (fun r s' =>
    match r with
    | Some _ => exists w, json_string w /\ moves w w [] s s'
    | None => s' = s
    end).
Proof.
  intros r s'. unfold fast_key, lql_json_try_plain_key_match.
  destruct (plain_key (buffer (input s))) as [key|] eqn:E; cbn; [|by intros [= <- <-]].
  destruct (each _ _ _) as [k m]. intros [= <- <-].
  apply plain_key_spec in E as (rest & E & Hk). exists (ch_quote :: key ++ [ch_quote]).
  split; [by exists key|].
  assert (Hd : drop (length key + 2) (buffer (input s)) = rest).
  { rewrite E. replace (length key + 2)%nat with (length (ch_quote :: key ++ [ch_quote])).
    - apply drop_app_length.
    - cbn. rewrite length_app. cbn. lia. }
  split; try done; unfold stream, fits, at_end, lql_json_consumed, compact_text; cbn -[drop]; rewrite ?Hd.
  - by rewrite E, <- app_assoc.
  - rewrite E, length_app. cbn. lia.
  - rewrite E. by intros [? _].
  - intros _ Hok. split; [done|]. exists []. rewrite app_nil_r. repeat split; [constructor|by left].
  - intros x. unfold written. by rewrite app_nil_r.
Qed.

Lemma object_key_ok object_depth s : sane s -> ok (object_key cfg object_depth) s (fun kr s' =>
  kr.2 = inl tt -> exists w, json_string w /\ copied w s s').
Proof.
  intros Hs. unfold object_key.
  eapply quiet_then; [auto with quiet|apply moves_refl|]. intros [[key_active recursive] wildcards] s1 M1.
  eapply quiet_then; [auto with quiet|exact M1|]. intros captures s2 M2.
  eapply ok_bind with (P := fun r s' => match r with
    | Some _ => writing cfg = false /\ exists w, json_string w /\ moves w w [] s s'
    | None => moves [] [] [] s s' end).
  { destruct (negb (writing cfg) && is_empty captures) eqn:E; [|by apply ok_ret].
    eapply ok_impl; [apply fast_key_ok|]. intros [k|] s3; [|by intros ->].
    intros (w & Hw & M3). split; [by destruct (writing cfg)|]. exists w. split; [done|chain]. }
  intros [k|] s3.
  - intros (Hwr & w & Hw & M3). eapply quiet_then; [auto with quiet|exact M3|]. intros anchors s4 M4.
    apply ok_ret. intros _. exists w. split; [done|]. unfold ScanWrites.out. by rewrite Hwr.
  - intros M3. unfold slow_key.
    eapply quiet_then; [auto with quiet|exact M3|]. intros [] s4 M4.
    eapply quiet_then; [auto with quiet|exact M4|]. intros [] s5 M5.
    eapply ok_attempt_then; [apply string_ok; by eapply moves_spaces_bytes| |].
    + intros [] s6 (w & Hw & M6). eapply ok_impl; [apply (quiet_moves (content := content)); quiet|].
      intros kr s7 M7 _. exists w. split; [done|]. clear M1 M2 M3 M4. chain_out.
    + intros st s6. repeat (eapply ok_bind; [apply ok_true|]; intros). by apply ok_ret.
Qed.

(** ** Members *)

Lemma matched_member_value_ok value k c : value_ok value ->
  value_ok (matched_member_value cfg parse_double value k c).
Proof.
  intros Hv s Hs. unfold matched_member_value. apply ok_gets_then. cbv zeta.
  assert (K : forall m, value_ok m -> ok m s (fun _ => reads_value s)) by (intros m Hm; by apply Hm).
  apply K. repeat case_match; auto using matched_string_ok, matched_number_ok;
    apply matched_literal_ok; by eapply scalar_literal_in.
Qed.

(** What is only validated is JSON too; nothing is written without a spool. *)
Lemma skip_value_value_ok : writing cfg = false -> value_ok lql_json_skip_value_fast.
Proof.
  intros Hw s Hs. eapply ok_impl; [apply (skip_value_fast_ok (content := content) s Hs)|].
  intros [] s' (w & c & Hv & M). exists w, c. split; [done|].
  unfold ScanWrites.out. by rewrite Hw.
Qed.

Lemma member_value_ok value object_depth k exists_terms c : value_ok value ->
  value_ok (member_value cfg parse_double value object_depth k exists_terms c).
Proof.
  intros Hv s Hs. unfold member_value. cbv zeta.
  eapply quiet_then; [quiet|apply moves_refl|]. intros [] s1 M1.
  eapply quiet_then; [quiet|exact M1|]. intros [] s2 M2.
  eapply quiet_then; [quiet|exact M2|]. intros [] s3 M3.
  eapply quiet_then; [quiet|exact M3|]. intros descendants s4 M4.
  destruct (captures_at _ _ _) as [capture_values capture_descendants].
  eapply quiet_then; [quiet|exact M4|]. intros start s5 M5.
  eapply quiet_then; [quiet|exact M5|]. intros [] s6 M6.
  apply attempt_ok; [done|done| |cbv beta iota; quiet|fails].
  destruct (negb (is_empty (key_matches k))); [by apply matched_member_value_ok|].
  destruct (_ && _) eqn:E; [|done]. apply skip_value_value_ok. by destruct (writing cfg).
Qed.

(** A member and the spaces and the byte after its value. *)
Lemma member_ok value object_depth s : value_ok value -> sane s ->
  ok (member cfg parse_double value object_depth) s (fun _ s' =>
    exists k sp1 sp2 v c, json_string k /\ spaces sp1 /\ spaces sp2 /\ json_value (room s) v c /\
      moves (k ++ sp1 ++ ch_colon :: sp2 ++ v) (k ++ ch_colon :: c) (out (k ++ ch_colon :: c)) s s').
Proof.
  intros Hv Hs. unfold member. eapply ok_bind; [by apply object_key_ok|]. intros [k r] s1 Hk. cbn [snd] in Hk.
  destruct r as [[]|st]; [|eapply ok_impl with (P := fun _ _ => False); [fails|done]].
  destruct (Hk eq_refl) as (w & Hw & M1).
  eapply quiet_then; [quiet|exact M1|]. intros [] s2 M2.
  eapply quiet_then; [quiet|exact M2|]. intros exists_terms s3 M3.
  eapply quiet_then; [quiet|exact M3|]. intros [] s4 M4.
  eapply quiet_then; [quiet|exact M4|]. intros [] s5 M5. clear M1 M2 M3 M4 Hk. apply ok_ret_then.
  step skip_space_ok as [] s6 (sp1 & Hsp1 & M6). step take_expected_ok as [] s7 M7.
  step copy_byte_ok as [] s8 M8. step skip_space_ok as [] s9 (sp2 & Hsp2 & M9).
  step peek_ok as c s10 (M10 & _ & _).
  assert (M : moves (w ++ sp1 ++ ch_colon :: sp2) (w ++ [ch_colon]) (out (w ++ [ch_colon])) s s10).
  { cbv beta in *. eapply moves_eq; [chain_moves|same_text|same_text|].
    unfold ScanWrites.out; destruct (writing cfg); same_text. }
  destruct (moves_sane _ _ _ _ _ M Hs) as [Hs10 Hr].
  eapply ok_impl; [by apply member_value_ok|]. intros [] s11 (v & cv & Hval & M11). rewrite Hr in Hval.
  exists w, sp1, sp2, v, cv. repeat (split; [done|]). clear M5 M6 M7 M8 M9 M10. chain_out.
Qed.

(** ** Elements *)

Lemma element_ok value active captures recursive_terms array_segment index c : value_ok value ->
  value_ok (element cfg parse_double value active captures recursive_terms array_segment index c).
Proof.
  intros Hv s Hs. unfold element.
  eapply quiet_then; [auto with quiet|apply moves_refl|]. intros [element_active carry] s1 M1.
  eapply quiet_then; [quiet|exact M1|]. intros below s2 M2.
  eapply quiet_then; [apply quiet_set_depth, quiet_modify; by split|exact M2|]. intros [] s3 M3.
  eapply quiet_then; [quiet|exact M3|]. intros [] s4 M4. cbv zeta.
  destruct (captures_at _ _ _) as [capture_values capture_descendants].
  eapply quiet_then; [quiet|exact M4|]. intros start s5 M5.
  eapply quiet_then; [auto with quiet|exact M5|]. intros [] s6 M6.
  apply attempt_ok; [done|done| |cbv beta iota; quiet|fails].
  destruct (is_empty element_active); [done|]. intros s7 Hs7.
  eapply ok_bind; [apply (peek_ok (content := content))|]. intros v s8 (M8 & _ & _).
  destruct (moves_sane _ _ _ _ _ M8 Hs7) as [Hs8 _].
  eapply ok_impl; [by apply matched_scalar_value_ok|]. intros a s9 R. by eapply reads_value_after.
Qed.

(** ** Containers *)

(** The closing byte written and the container left. *)
Lemma copy_leave_ok (b : bool) v s : (b = true -> writing cfg = false) ->
  ok (r ← attempt (if b then mret tt else lql_json_copy_byte cfg v); leave ;; finish r) s
    (fun _ s' => leaves (content := content) [] [] (out [v]) s s').
Proof.
  intros Hb.
  assert (H : ok (if b then mret tt else lql_json_copy_byte cfg v) s
                (fun _ s' => moves [] [] (out [v]) s s')).
  { destruct b; [|apply copy_byte_ok]. apply ok_ret. unfold ScanWrites.out. rewrite Hb by done.
    apply moves_refl. }
  eapply ok_attempt_then; [exact H| |fails]. intros [] s1 M1.
  eapply ok_bind; [apply leave_ok|]. intros [] s2 ->. apply ok_ret. by exists s1.
Qed.

Definition value_spec (fuel : nat) : Prop :=
  value_ok (lql_json_value cfg parse_double fuel) /\
  (forall object_depth c s, sane s ->
     ok (object_loop cfg parse_double fuel object_depth c) s (fun _ => reads_members s)) /\
  (forall active captures recursive_terms array_segment index c s, sane s ->
     ok (array_loop cfg parse_double fuel active captures recursive_terms array_segment index c) s
       (fun _ => reads_elements s)).

(** A member of an object whose rest is only validated, or one that is read. *)
Lemma any_member_ok fuel (rest : bool) object_depth s : value_spec fuel -> sane s ->
  (rest = true -> writing cfg = false) ->
  ok (if rest then
        lql_json_skip_string_fast ;; lql_json_skip_space ;; lql_json_take_expected ch_colon ;;
        lql_json_skip_space ;; lql_json_skip_value_fast
      else member cfg parse_double (lql_json_value cfg parse_double fuel) object_depth) s
    (fun _ s' => exists k sp1 sp2 v c, json_string k /\ spaces sp1 /\ spaces sp2 /\
       json_value (room s) v c /\
       moves (k ++ sp1 ++ ch_colon :: sp2 ++ v) (k ++ ch_colon :: c) (out (k ++ ch_colon :: c)) s s').
Proof.
  intros [IHv _] Hs Hrest. destruct rest; [|by apply member_ok].
  eapply ok_bind; [apply (skip_string_fast_ok (content := content)), Hs|]. intros [] s1 (k & Hk & M1).
  step skip_space_ok as [] s2 (sp1 & Hsp1 & M2). step take_expected_ok as [] s3 M3.
  step skip_space_ok as [] s4 (sp2 & Hsp2 & M4).
  assert (M14 : moves (k ++ sp1 ++ ch_colon :: sp2) (k ++ [ch_colon]) [] s s4) by chain.
  destruct (moves_sane _ _ _ _ _ M14 Hs) as [Hs4 Hr4].
  eapply ok_impl; [by apply (skip_value_fast_ok (content := content))|]. intros [] s5 (v & c & Hv & M5). rewrite Hr4 in Hv.
  exists k, sp1, sp2, v, c. repeat (split; [done|]). unfold ScanWrites.out. rewrite Hrest by done.
  clear M1 M2 M3 M4. unfold no_output in M5. chain.
Qed.

Lemma object_loop_step fuel object_depth c s : value_spec fuel -> sane s ->
  ok (object_loop cfg parse_double (S fuel) object_depth c) s (fun _ => reads_members s).
Proof.
  intros IH Hs. cbn [object_loop]. destruct (byte_is c ch_quote); cbn [negb]; [|apply ok_error].
  eapply ok_bind with (P := fun rest s' => moves [] [] [] s s' /\ ((rest : bool) = true -> writing cfg = false)).
  { apply ok_and; [apply (quiet_moves (content := content)); auto with quiet|].
    unfold skip_rest. eapply ok_bind; [apply ok_true|]. intros captures s1 _. apply ok_gets_then.
    apply ok_ret. by destruct (writing cfg). }
  intros rest s1 [M1 Hrest]. destruct (moves_sane _ _ _ _ _ M1 Hs) as [Hs1 Hr1].
  eapply ok_bind; [by apply any_member_ok|].
  intros [] s2 (k & sp1 & sp2 & v & cv & Hk & Hsp1 & Hsp2 & Hv & M2).
  step skip_space_ok as [] s3 (sp3 & Hsp3 & M3). step take_ok as x s4 M4.
  rewrite Hr1 in Hv. pose proof (member_intro (room s) k v cv sp1 sp2 sp3 Hk Hsp1 Hsp2 Hv Hsp3) as Hm.
  set (m := k ++ sp1 ++ ch_colon :: sp2 ++ v ++ sp3) in *. set (cm := k ++ ch_colon :: cv) in *.
  assert (M : moves (m ++ [x]) (cm ++ [x]) (out cm) s s4) by (subst m cm; chain_out).
  destruct (Z.eqb_spec x ch_rbrace) as [->|_]; [|destruct (Z.eqb_spec x ch_comma) as [->|_]; cbn [negb];
    [|apply ok_error]].
  - eapply ok_impl; [by apply (copy_leave_ok rest)|]. intros [] s5 (s6 & -> & M6).
    eexists _, _. split; [by apply members_last|]. exists s6. split; [done|].
    clear M1 M2 M3 M4. chain_out.
  - eapply ok_bind with (P := fun _ s' => moves [] [] (out [ch_comma]) s4 s').
    { destruct rest; [|apply copy_byte_ok]. apply ok_ret. unfold ScanWrites.out. rewrite Hrest by done.
      apply moves_refl. }
    intros [] s5 M5. step skip_space_ok as [] s6 (sp & Hsp & M6). step peek_ok as c7 s7 (M7 & _ & _).
    assert (M17 : moves (m ++ ch_comma :: sp) (cm ++ [ch_comma]) (out (cm ++ [ch_comma])) s s7)
      by (clear M1 M2 M3 M4; chain_out).
    destruct (moves_sane _ _ _ _ _ M17 Hs) as [Hs7 Hr7].
    eapply ok_impl; [by apply IH|]. intros [] s8 (w & cw & Hw & (s9 & -> & M9)). rewrite Hr7 in Hw.
    eexists _, _. split; [by eapply (members_more _ m cm sp)|]. exists s9. split; [done|].
    clear M1 M2 M3 M4 M5 M6 M7 M. chain_out.
Qed.

Lemma array_loop_step fuel active captures recursive_terms array_segment index c s :
  value_spec fuel -> sane s ->
  ok (array_loop cfg parse_double (S fuel) active captures recursive_terms array_segment index c) s
    (fun _ => reads_elements s).
Proof.
  intros IH Hs. cbn [array_loop]. eapply ok_bind; [by apply element_ok, Hs; apply IH|].
  intros [] s1 (v & cv & Hv & M1). step skip_space_ok as [] s2 (sp & Hsp & M2).
  step take_ok as x s3 M3.
  destruct (Z.eqb_spec x ch_rbracket) as [->|_];
    [|destruct (Z.eqb_spec x ch_comma) as [->|_]; cbn [negb]; [|apply ok_error]].
  - eapply ok_impl; [by apply (copy_leave_ok false)|]. intros [] s4 (s5 & -> & M5).
    eexists _, _. split; [by apply elements_last|]. exists s5. split; [done|chain_out].
  - step copy_byte_ok as [] s4 M4. step skip_space_ok as [] s5 (sp' & Hsp' & M5).
    assert (M : moves (v ++ sp ++ ch_comma :: sp') (cv ++ [ch_comma]) (out (cv ++ [ch_comma])) s s5)
      by chain_out.
    destruct (moves_sane _ _ _ _ _ M Hs) as [Hs5 Hr5].
    eapply ok_impl; [by apply IH|]. intros [] s6 (w & cw & Hw & (s7 & -> & M7)). rewrite Hr5 in Hw.
    eexists _, _. split; [by apply (elements_more _ v cv sp sp')|]. exists s7. split; [done|].
    clear M1 M2 M3 M4 M5. chain_out.
Qed.

(** ** Values *)

Lemma scalars_ok c : value_ok
  (if byte_is c ch_quote then lql_json_string cfg
   else if byte_is c 116 then lql_json_literal cfg (bs "true")
   else if byte_is c ch_f then lql_json_literal cfg (bs "false")
   else if byte_is c 110 then lql_json_literal cfg (bs "null")
   else lql_json_number cfg).
Proof.
  repeat case_if; auto using string_value_ok, number_value_ok; apply literal_value_ok; cbn; auto.
Qed.

(** The opening byte of a container, the spaces after it and the next byte. *)
Lemma open_ok {B} x s (k : option Z -> Scan B) Q :
  (forall c sp s', spaces sp -> at_byte c s' -> moves (x :: sp) [x] (out [x]) s s' -> ok (k c) s' Q) ->
  ok (lql_json_take_expected x ;; lql_json_copy_byte cfg x ;; lql_json_skip_space ;;
      c ← lql_json_peek; k c) s Q.
Proof.
  intros H. step take_expected_ok as [] s1 M1. step copy_byte_ok as [] s2 M2.
  step skip_space_ok as [] s3 (sp & Hsp & M3). step peek_ok as c s4 (M4 & Hc & _).
  apply (H c sp); [done|done|chain_out].
Qed.

(** An empty container closed. *)
Lemma close_ok v s : at_byte (Some v) s ->
  ok (advance ;; r ← attempt (lql_json_copy_byte cfg v); leave ;; finish r) s
    (fun _ s' => leaves (content := content) [v] [v] (out [v]) s s').
Proof.
  intros H. eapply ok_bind; [by apply (advance_ok (content := content))|]. intros [] s1 M1.
  eapply ok_impl; [by apply (copy_leave_ok false)|]. intros [] s2 (s3 & -> & M3).
  exists s3. split; [done|]. chain_out.
Qed.

(** A container read inside, seen from outside. *)
Lemma reads_container s0 s w c x sp w' c' s' :
  moves [] [] [] s0 s -> sane s0 ->
  moves (x :: sp) [x] (out [x]) (deeper S s) s' -> leaves (content := content) w' c' (out c') s' w ->
  json_value (room s0) (x :: sp ++ w') (x :: c') -> c = x :: c' -> reads_value s0 w.
Proof.
  intros M0 Hs0 M (s1 & -> & M') Hv ->. exists (x :: sp ++ w'), (x :: c'). split; [done|].
  eapply (moves_trans [] [] []); [exact M0|]. apply moves_nest. chain_out.
Qed.

Lemma object_ok fuel s0 s : value_spec fuel -> moves [] [] [] s0 s -> sane s0 ->
  ok (object_depth ← gets (fun s => depth (input s));
      enter ;;
      lql_json_take_expected ch_lbrace ;;
      lql_json_copy_byte cfg ch_lbrace ;;
      lql_json_skip_space ;;
      c ← lql_json_peek;
      if byte_is c ch_rbrace then
        advance ;; r ← attempt (lql_json_copy_byte cfg ch_rbrace); leave ;; finish r
      else object_loop cfg parse_double fuel object_depth c) s (fun _ => reads_value s0).
Proof.
  intros IH M0 Hs0. destruct (moves_sane _ _ _ _ _ M0 Hs0) as [Hs Hr0]. apply ok_gets_then.
  eapply ok_bind; [by apply enter_ok|]. intros [] s2 (-> & Hs2 & Hr & _).
  apply open_ok. intros c sp s3 Hsp Hc M3. destruct (moves_sane _ _ _ _ _ M3 Hs2) as [Hs3 Hr3].
  rewrite Hr0 in Hr. destruct (byte_is c ch_rbrace) eqn:E.
  - apply byte_is_spec in E as ->. eapply ok_impl; [by apply close_ok|]. intros [] s4 L.
    eapply reads_container; [exact M0|done|exact M3|exact L| |done]. rewrite Hr. by apply value_empty_object.
  - eapply ok_impl; [by apply IH|]. intros [] s4 (w & cw & Hw & L). rewrite Hr3 in Hw.
    eapply reads_container; [exact M0|done|exact M3|exact L| |done]. rewrite Hr. by apply value_object.
Qed.

Lemma array_ok fuel s0 s : value_spec fuel -> moves [] [] [] s0 s -> sane s0 ->
  ok (array_segment ← gets (fun s => depth (input s));
      (if (array_segment =? LQL_JSON_MAX_DEPTH)%nat then
         lql_json_error "JSON nesting exceeds the scanner limit" else mret tt) ;;
      '(active, captures, recursive) ← array_masks cfg array_segment;
      on_depth Nat.succ ;;
      lql_json_take_expected ch_lbracket ;;
      lql_json_copy_byte cfg ch_lbracket ;;
      lql_json_skip_space ;;
      c ← lql_json_peek;
      if byte_is c ch_rbracket then
        advance ;; r ← attempt (lql_json_copy_byte cfg ch_rbracket); leave ;; finish r
      else if (LQL_JSON_MAX_DEPTH <=? S array_segment)%nat then
        modify (fun s => json_error s "JSON nesting exceeds the scanner limit") ;;
        leave ;; stop LQL_STATUS_JSON_ERROR
      else array_loop cfg parse_double fuel active captures recursive array_segment 0 c) s
    (fun _ => reads_value s0).
Proof.
  intros IH M0 Hs0. apply ok_gets_then.
  destruct (Nat.eqb_spec (depth (input s)) LQL_JSON_MAX_DEPTH) as [E|E]; [apply ok_error_then|].
  apply ok_ret_then. eapply quiet_then; [auto with quiet|exact M0|].
  intros [[active captures] recursive] s1 M1. destruct (moves_sane _ _ _ _ _ M1 Hs0) as [Hs1 Hr1].
  assert (Hd : depth (input s1) = depth (input s)).
  { rewrite (mv_depth _ _ _ _ _ M1). symmetry. apply M0. }
  assert (Henter : ok (on_depth Nat.succ) s1 (fun _ s' => s' = deeper S s1)) by by apply ok_modify.
  eapply ok_bind; [exact Henter|]. intros [] s2 ->.
  destruct Hs1 as [Hb1 Hd1].
  assert (E2 : depth (input (deeper S s1)) = S (depth (input s1))) by done.
  assert (Hs2 : sane (deeper S s1)) by (split; [done|lia]).
  assert (Hr : room s0 = S (room (deeper S s1))) by (rewrite <- Hr1; unfold room; lia).
  apply open_ok. intros c sp s3 Hsp Hc M3. destruct (moves_sane _ _ _ _ _ M3 Hs2) as [Hs3 Hr3].
  destruct (byte_is c ch_rbracket) eqn:Eb.
  - apply byte_is_spec in Eb as ->. eapply ok_impl; [by apply close_ok|]. intros [] s4 L.
    eapply reads_container; [exact M1|done|exact M3|exact L| |done]. rewrite Hr. by apply value_empty_array.
  - destruct (LQL_JSON_MAX_DEPTH <=? S (depth (input s)))%nat; [fails|].
    eapply ok_impl; [by apply IH|]. intros [] s4 (w & cw & Hw & L). rewrite Hr3 in Hw.
    eapply reads_container; [exact M1|done|exact M3|exact L| |done]. rewrite Hr. by apply value_array.
Qed.

Lemma json_value_step fuel : value_spec fuel -> value_ok (lql_json_value cfg parse_double (S fuel)).
Proof.
  intros IH s Hs. cbn [lql_json_value]. step peek_ok as c s1 (M1 & Hc & _).
  destruct (moves_sane _ _ _ _ _ M1 Hs) as [Hs1 _].
  destruct (byte_is c ch_lbrace); [by apply object_ok|].
  destruct (byte_is c ch_lbracket); [by apply array_ok|].
  eapply ok_impl; [by apply scalars_ok|]. intros [] s2 R. by eapply reads_value_after.
Qed.

Lemma lql_json_value_ok fuel : value_spec fuel.
Proof.
  induction fuel as [|fuel IH]; [done|]. split; [by apply json_value_step|]. split; intros.
  - by apply object_loop_step.
  - by apply array_loop_step.
Qed.

Lemma json_value_ok : value_ok (JsonScan.json_value cfg parse_double).
Proof. intros s Hs. unfold JsonScan.json_value. apply ok_gets_then. by apply lql_json_value_ok. Qed.
End sound.
