(* ===== verification/ScanStatus.v ===== *)
(** * A failed computation has a status that is not OK

    Every step of the scanner that gives no value gives the status of an error, so
    the status OK at the end of a scan means that the input was read to its end. *)

From S2P Require Import Prelude.
From S2P Require Import Errors.
From S2P Require Import JsonSpool.
From S2P Require Import ScanTerm.
From S2P Require Import ScanState.
From S2P Require Import ScanInput.
From S2P Require Import ScanMatch.
From S2P Require Import JsonScan.
From S2P Require Import ScanLogic.

Definition errs {A} (m : Scan A) : Prop :=
  forall s status s', m s = Some (inr status, s') -> status <> LQL_STATUS_OK.

(** The status of an attempt that failed. *)
Definition bad {A} (r : A + lql_status) : Prop :=
  match r with inl _ => True | inr status => status <> LQL_STATUS_OK end.

Section rules.
Context {A B : Type}.

Lemma errs_ret (a : A) : errs (mret a).
Proof. by intros s st s' [=]. Qed.
Lemma errs_bind (m : Scan A) (f : A -> Scan B) : errs m -> (forall a, errs (f a)) -> errs (m ≫= f).
Proof.
  intros Hm Hf s st s'. unfold mbind, Scan_bind. destruct (m s) as [[[a|st1] s1]|] eqn:E; [|intros [= <- <-]|done].
  - apply Hf.
  - by eapply Hm.
Qed.
Lemma errs_bind_val (m : Scan A) (f : A -> Scan B) (P : A -> Prop) : errs m ->
  (forall s a s', m s = Some (inl a, s') -> P a) -> (forall a, P a -> errs (f a)) -> errs (m ≫= f).
Proof.
  intros Hm HP Hf s st s'. unfold mbind, Scan_bind. destruct (m s) as [[[a|st1] s1]|] eqn:E; [|intros [= <- <-]|done].
  - by eapply Hf, HP.
  - by eapply Hm.
Qed.
Lemma errs_gets (f : lql_json_scan -> A) : errs (gets f).
Proof. by intros s st s' [=]. Qed.
Lemma errs_modify f : errs (modify f).
Proof. by intros s st s' [=]. Qed.
Lemma errs_state (f : lql_json_scan -> A * lql_json_scan) : errs (state f).
Proof. intros s st s'. unfold state. destruct (f s). by intros [=]. Qed.
Lemma errs_defined (x : option A) : errs (defined x).
Proof. intros s st s'. unfold defined. by destruct x. Qed.
Lemma errs_run f : errs (run f).
Proof. intros s st s'. unfold run. cbn. by destruct (f s). Qed.
Lemma errs_stop status : status <> LQL_STATUS_OK -> errs (A := A) (stop status).
Proof. by intros H s st s' [= <- <-]. Qed.
Lemma errs_error message : errs (A := A) (lql_json_error message).
Proof. by intros s st s' [= <- <-]. Qed.
Lemma errs_attempt (m : Scan A) (k : A + lql_status -> Scan B) :
  errs m -> (forall r, bad r -> errs (k r)) -> errs (attempt m ≫= k).
Proof.
  intros Hm Hk s st s'. unfold mbind, Scan_bind, attempt.
  destruct (m s) as [[r s1]|] eqn:E; [|done]. apply Hk. destruct r; [done|]. by eapply Hm.
Qed.
Lemma errs_finish (r : A + lql_status) : bad r -> errs (finish r).
Proof. intros H. destruct r; [apply errs_ret|by apply errs_stop]. Qed.
End rules.

Lemma errs_or_error {A} message (r : A + lql_status) : bad r -> errs (or_error message r).
Proof.
  intros H. unfold or_error. destruct r; [apply errs_ret|].
  apply errs_bind; [apply errs_modify|]. intros _. by apply errs_stop.
Qed.

Create HintDb errs.
#[export] Hint Resolve errs_ret errs_gets errs_modify errs_state errs_defined errs_run errs_error
  errs_or_error errs_finish : errs.
#[export] Hint Extern 1 (errs (stop _)) => apply errs_stop; done : errs.

Ltac errs_step :=
  match goal with
  | |- errs (attempt _ ≫= _) => apply errs_attempt; [|intros ? ?]
  | |- errs (_ ≫= _) => apply errs_bind; [|intros ?]
  | |- errs (if ?b then _ else _) => destruct b eqn:?
  | |- errs (match ?x with _ => _ end) => destruct x
  | |- errs (let _ := _ in _) => cbv zeta
  | |- errs _ => solve [auto with errs nocore]
  end.
Ltac errs := repeat errs_step.

(** ** Output *)

(** What the spool can fail with. *)
Definition fails_bad {A} (m : W A) : Prop :=
  forall s e status msg s' e', m s e = (inl (status, msg), s', e') -> status <> LQL_STATUS_OK.

Lemma fails_bind {A B} (m : W A) (f : A -> W B) :
  fails_bad m -> (forall a, fails_bad (f a)) -> fails_bad (m ≫= f).
Proof.
  intros Hm Hf s e st msg s' e'. unfold mbind, W_bind.
  destruct (m s e) as [[[[st1 msg1]|a] s1] e1] eqn:E; [|apply Hf]. intros [= <- <- <- <-]. by eapply Hm.
Qed.

Lemma fails_ok {A} (m : W A) : (forall s e, exists a s' e', m s e = (inr a, s', e')) -> fails_bad m.
Proof. intros H s e st msg s' e' E. destruct (H s e) as (a & s1 & e1 & E1). congruence. Qed.

Lemma fails_error {A} status message : status <> LQL_STATUS_OK ->
  fails_bad (A := A) (lql_json_spool_error status message).
Proof. by intros H s e st msg s' e' [= <- <- <- <-]. Qed.

Ltac fails_step :=
  match goal with
  | |- fails_bad (_ ≫= _) => apply fails_bind; [|intros ?]
  | |- fails_bad (if ?b then _ else _) => destruct b
  | |- fails_bad (match ?x with _ => _ end) => destruct x
  | |- fails_bad (let _ := _ in _) => cbv zeta
  | |- fails_bad (lql_json_spool_error _ _) => by apply fails_error
  | |- fails_bad _ => apply fails_ok; intros; by eexists _, _, _
  end.

Lemma fwrite_fails data : fails_bad (spool_fwrite data).
Proof. unfold spool_fwrite. repeat fails_step. Qed.

Lemma append_fails data : fails_bad (lql_json_spool_append data).
Proof.
  unfold lql_json_spool_append, append_to_file, lql_json_spool_spill.
  repeat first [apply fwrite_fails | fails_step].
Qed.

Lemma errs_spool_write data : errs (lql_json_spool_write data).
Proof.
  intros s st s'. unfold lql_json_spool_write, call_spool.
  destruct (lql_json_spool_append _ _ _) as [[[[st1 msg]|[]] sp] e] eqn:E; [|done].
  intros [= <- <-]. by eapply append_fails.
Qed.
#[export] Hint Resolve errs_spool_write : errs.

Section output.
Context (cfg : scan_config).

Lemma errs_drain : errs drain.
Proof. unfold drain. errs. Qed.
#[local] Hint Resolve errs_drain : errs.
Lemma errs_make_room : errs make_room.
Proof. unfold make_room. errs. Qed.
#[local] Hint Resolve errs_make_room : errs.
Lemma errs_write_loop fuel : forall data, errs (write_loop fuel data).
Proof. induction fuel as [|fuel IH]; intros [|x data]; cbn [write_loop]; errs. Qed.
#[local] Hint Resolve errs_write_loop : errs.
Lemma errs_write data : errs (lql_json_write cfg data).
Proof. unfold lql_json_write. errs. Qed.
Lemma errs_copy_byte v : errs (lql_json_copy_byte cfg v).
Proof. unfold lql_json_copy_byte, lql_json_write_byte. errs. Qed.
Lemma errs_flush : errs (lql_json_flush cfg).
Proof. unfold lql_json_flush. errs. Qed.
End output.

#[export] Hint Resolve errs_write errs_copy_byte errs_flush : errs.

(** ** Input *)

Lemma errs_ask_cancelled : errs ask_cancelled.
Proof. by intros s st s' [=]. Qed.
Lemma errs_call_reader : errs call_reader.
Proof. by intros s st s' [=]. Qed.
Lemma errs_set_cancelled : errs set_cancelled.
Proof. apply errs_modify. Qed.
#[export] Hint Resolve errs_ask_cancelled errs_call_reader errs_set_cancelled : errs.

Lemma errs_refill : errs lql_json_refill.
Proof.
  unfold lql_json_refill. errs. apply errs_stop.
  match goal with H : negb (bool_decide (?st = _)) = true |- _ =>
    by apply negb_true_iff, bool_decide_eq_false in H end.
Qed.
#[export] Hint Resolve errs_refill : errs.
Lemma errs_peek : errs lql_json_peek.
Proof. unfold lql_json_peek. errs. Qed.
Lemma errs_advance : errs advance.
Proof. apply errs_modify. Qed.
Lemma errs_advance_by n : errs (advance_by n).
Proof. apply errs_modify. Qed.
#[export] Hint Resolve errs_peek errs_advance errs_advance_by : errs.
Lemma errs_take : errs lql_json_take.
Proof. unfold lql_json_take. errs. Qed.
#[export] Hint Resolve errs_take : errs.
Lemma errs_take_expected v : errs (lql_json_take_expected v).
Proof. unfold lql_json_take_expected. errs. Qed.
Lemma errs_skip_space_loop fuel : forall skipped, errs (skip_space_loop fuel skipped).
Proof. induction fuel as [|fuel IH]; intros skipped; cbn [skip_space_loop]; errs. Qed.
#[export] Hint Resolve errs_take_expected errs_skip_space_loop : errs.
Lemma errs_skip_space : errs lql_json_skip_space.
Proof. unfold lql_json_skip_space. errs. Qed.
Lemma errs_take_hex_loop n : forall value raw, errs (take_hex_loop n value raw).
Proof. induction n as [|n IH]; intros value raw; cbn [take_hex_loop]; errs. Qed.
#[export] Hint Resolve errs_skip_space errs_take_hex_loop : errs.
Lemma errs_take_hex4 : errs lql_json_take_hex4.
Proof. apply errs_take_hex_loop. Qed.
Lemma errs_take_continuation low high : errs (take_continuation low high).
Proof. unfold take_continuation. errs. Qed.
#[export] Hint Resolve errs_take_hex4 errs_take_continuation : errs.

(** ** Skipping a value *)

Lemma errs_skip_continuations n : forall low high, errs (skip_continuations n low high).
Proof. induction n as [|n IH]; intros low high; cbn [skip_continuations]; errs. Qed.
Lemma errs_skip_unicode_escape : errs skip_unicode_escape.
Proof. unfold skip_unicode_escape. errs. Qed.
#[export] Hint Resolve errs_skip_continuations errs_skip_unicode_escape : errs.
Lemma errs_skip_string_loop fuel : errs (skip_string_loop fuel).
Proof. induction fuel as [|fuel IH]; cbn [skip_string_loop]; errs. Qed.
#[export] Hint Resolve errs_skip_string_loop : errs.
Lemma errs_skip_string_fast : errs lql_json_skip_string_fast.
Proof. unfold lql_json_skip_string_fast. errs. Qed.
Lemma errs_skip_literal_fast l : errs (lql_json_skip_literal_fast l).
Proof. induction l as [|c l IH]; cbn [lql_json_skip_literal_fast]; errs. Qed.
Lemma errs_skip_digits_loop fuel : errs (skip_digits_loop fuel).
Proof. induction fuel as [|fuel IH]; cbn [skip_digits_loop]; errs. Qed.
#[export] Hint Resolve errs_skip_string_fast errs_skip_literal_fast errs_skip_digits_loop : errs.
Lemma errs_skip_number_fast : errs lql_json_skip_number_fast.
Proof.
  unfold lql_json_skip_number_fast, skip_number_integer, skip_number_fraction, skip_number_exponent,
    skip_digits. errs.
Qed.
Lemma errs_on_depth f : errs (on_depth f).
Proof. apply errs_modify. Qed.
#[export] Hint Resolve errs_skip_number_fast errs_on_depth : errs.
Lemma errs_enter : errs enter.
Proof. unfold enter. errs. Qed.
Lemma errs_leave : errs leave.
Proof. apply errs_modify. Qed.
#[export] Hint Resolve errs_enter errs_leave : errs.

Lemma errs_skip fuel : errs (skip_value fuel) /\ (forall c, errs (skip_members fuel c)) /\
  errs (skip_elements fuel).
Proof.
  induction fuel as [|fuel (IHv & IHm & IHe)]; [by repeat split|].
  cbn [skip_value skip_members skip_elements]. repeat split; intros; errs.
Qed.

Lemma errs_skip_value_fast : errs lql_json_skip_value_fast.
Proof. unfold lql_json_skip_value_fast. errs. apply errs_skip. Qed.
#[export] Hint Resolve errs_skip_value_fast : errs.

(** ** Matching *)

Section scan.
Context (cfg : scan_config) (parse_double : bytes -> option spec_float).

Lemma errs_match_byte v : errs (match_byte cfg v).
Proof. apply errs_run. Qed.
Lemma errs_match_unicode v : errs (match_unicode cfg v).
Proof. apply errs_run. Qed.
Lemma errs_match_plain_span data : errs (match_plain_span cfg data).
Proof. unfold match_plain_span. errs. Qed.
Lemma errs_matching f : errs (matching f).
Proof. apply errs_state. Qed.
Lemma errs_number_range_byte v : errs (lql_json_number_range_byte cfg v).
Proof. unfold lql_json_number_range_byte. errs. Qed.
#[local] Hint Resolve errs_match_byte errs_match_unicode errs_match_plain_span errs_matching
  errs_number_range_byte : errs.

Lemma errs_compare_current t right : errs (compare_current t right).
Proof. unfold compare_current. errs. Qed.
Lemma errs_compare_failed : errs compare_failed.
Proof. unfold compare_failed. errs. Qed.
#[local] Hint Resolve errs_compare_current errs_compare_failed : errs.
Lemma errs_range_bound b t pass reject : errs (range_bound parse_double b t pass reject).
Proof. unfold range_bound. errs. Qed.
#[local] Hint Resolve errs_range_bound : errs.
Lemma errs_range_term term t : errs (range_term parse_double term t).
Proof. unfold range_term. errs. Qed.
Lemma errs_eq_term term t : errs (eq_term term t).
Proof. unfold eq_term. errs. Qed.
Lemma errs_number_hits kind test terms : (forall term t, errs (test term t)) ->
  forall i mask hits, errs (number_hits i mask kind test terms hits).
Proof.
  intros Ht. induction terms as [|term terms IH]; intros i mask hits; cbn [number_hits]; errs.
Qed.
#[local] Hint Resolve errs_range_term errs_eq_term errs_number_hits : errs.
Lemma errs_number_complete terms : errs (number_complete cfg parse_double terms).
Proof.
  unfold number_complete, lql_json_number_range_complete, lql_json_number_eq_complete. errs.
Qed.
#[local] Hint Resolve errs_number_complete : errs.

(** ** Strings, literals and numbers *)

Lemma errs_string_continuations n : forall low high, errs (string_continuations cfg n low high).
Proof. induction n as [|n IH]; intros low high; cbn [string_continuations]; errs. Qed.
Lemma errs_string_unicode_escape : errs (string_unicode_escape cfg).
Proof. unfold string_unicode_escape. errs. Qed.
#[local] Hint Resolve errs_string_continuations errs_string_unicode_escape : errs.
Lemma errs_string_loop fuel : errs (string_loop cfg fuel).
Proof. induction fuel as [|fuel IH]; cbn [string_loop]; errs. Qed.
#[local] Hint Resolve errs_string_loop : errs.
Lemma errs_string : errs (lql_json_string cfg).
Proof. unfold lql_json_string. errs. Qed.
Lemma errs_match_copy_byte v : errs (lql_json_match_copy_byte cfg v).
Proof. unfold lql_json_match_copy_byte. errs. Qed.
#[local] Hint Resolve errs_string errs_match_copy_byte : errs.
Lemma errs_literal l : errs (lql_json_literal cfg l).
Proof. induction l as [|c l IH]; cbn [lql_json_literal]; errs. Qed.
Lemma errs_copy_and_peek c : errs (copy_and_peek cfg c).
Proof. unfold copy_and_peek. errs. Qed.
#[local] Hint Resolve errs_literal errs_copy_and_peek : errs.
Lemma errs_digits_loop fuel : forall c, errs (digits_loop cfg fuel c).
Proof. induction fuel as [|fuel IH]; intros c; cbn [digits_loop]; errs. Qed.
#[local] Hint Resolve errs_digits_loop : errs.
Lemma errs_number : errs (lql_json_number cfg).
Proof. unfold lql_json_number, number_integer, number_fraction, number_exponent, digits. errs. Qed.
#[local] Hint Resolve errs_number : errs.

(** ** Values *)

Lemma errs_matched_string a b : errs (matched_string cfg a b).
Proof. unfold matched_string, match_start, temporal_start. errs. Qed.
Lemma errs_matched_literal l a b : errs (matched_literal cfg l a b).
Proof. unfold matched_literal, match_start. errs. Qed.
Lemma errs_matched_number value a b c : errs value -> errs (matched_number cfg parse_double value a b c).
Proof.
  intros Hv. unfold matched_number, match_start, number_start.
  apply errs_bind; [errs|]. intros _. apply errs_bind; [errs|]. intros _.
  apply errs_attempt; [done|]. intros [[]|st] Hr; cbv beta iota.
  - errs.
  - apply (errs_bind_val _ _ bad); [apply errs_ret|by intros s r s' [= <- <-]|]. intros r Hr'. errs.
Qed.
#[local] Hint Resolve errs_matched_string errs_matched_literal errs_matched_number : errs.
Lemma errs_matched_scalar value matches c : errs value ->
  errs (lql_json_matched_scalar_value cfg parse_double value matches c).
Proof. intros Hv. unfold lql_json_matched_scalar_value. errs. Qed.
Lemma errs_matched_member value k c : errs value -> errs (matched_member_value cfg parse_double value k c).
Proof. intros Hv. unfold matched_member_value. errs. Qed.
#[local] Hint Resolve errs_matched_scalar errs_matched_member : errs.

Lemma errs_at_depth array d : errs (at_depth array d).
Proof. unfold at_depth. errs. Qed.
Lemma errs_set_depth d f : errs (set_depth d f).
Proof. unfold set_depth. errs. Qed.
Lemma errs_anchor_terms a n : errs (anchor_terms cfg a n).
Proof. unfold anchor_terms. errs. Qed.
#[local] Hint Resolve errs_at_depth errs_set_depth errs_anchor_terms : errs.
Lemma errs_key_terms d : errs (key_terms cfg d).
Proof. unfold key_terms. errs. Qed.
Lemma errs_fast_key a b d : errs (fast_key cfg a b d).
Proof. intros s st s'. unfold fast_key. by destruct (lql_json_try_plain_key_match _ _ _ _ _ _ _) as [[]|]. Qed.
Lemma errs_open_below k d container a b : errs (open_below cfg k d container a b).
Proof. unfold open_below. errs. Qed.
Lemma errs_clear_below d : errs (clear_below d).
Proof. unfold clear_below. errs. Qed.
Lemma errs_array_masks d : errs (array_masks cfg d).
Proof. unfold array_masks. errs. Qed.
Lemma errs_skip_rest d : errs (skip_rest cfg d).
Proof. unfold skip_rest. errs. Qed.
Lemma errs_element_terms a r d i : errs (element_terms cfg a r d i).
Proof. unfold element_terms. errs. Qed.
#[local] Hint Resolve errs_key_terms errs_fast_key errs_open_below errs_clear_below errs_array_masks
  errs_skip_rest errs_element_terms : errs.

Lemma errs_object_key d : errs (object_key cfg d).
Proof. unfold object_key, slow_key. errs. Qed.

(** The status of reading a key, when it is an error, is not OK. *)
Lemma slow_key_bad a r w c d s kr s' : slow_key cfg a r w c d s = Some (inl kr, s') -> bad kr.2.
Proof.
  unfold slow_key, mbind, Scan_bind, attempt, modify, gets, matching, state, mret, Scan_ret.
  destruct (lql_json_string cfg _) as [[res s1]|] eqn:E; [|done].
  assert (Hb : bad res) by (destruct res; [done|]; by eapply errs_string).
  repeat case_match; try done; intros [= <- <-]; done.
Qed.

Lemma object_key_bad d s kr s' : object_key cfg d s = Some (inl kr, s') -> bad kr.2.
Proof.
  revert kr s'. change (ok (object_key cfg d) s (fun kr _ => bad kr.2)). unfold object_key.
  apply ok_then_stop. intros [[active recursive] wildcards] s1. apply ok_then_stop. intros captures s2.
  apply ok_then_stop. intros [k|] s3.
  - apply ok_then_stop. intros anchors s4. by apply ok_ret.
  - intros kr s'. apply slow_key_bad.
Qed.

Lemma errs_match_start active : errs (match_start cfg active).
Proof. apply errs_modify. Qed.
#[local] Hint Resolve errs_match_start : errs.
Lemma errs_member_value value d k e c : errs value -> errs (member_value cfg parse_double value d k e c).
Proof. intros Hv. unfold member_value. errs. Qed.
Lemma errs_member value d : errs value -> errs (member cfg parse_double value d).
Proof.
  intros Hv. unfold member. apply (errs_bind_val _ _ (fun kr => bad kr.2)).
  - apply errs_object_key.
  - apply object_key_bad.
  - intros [k r] Hr. cbn in Hr. errs. by apply errs_member_value.
Qed.
#[local] Hint Resolve errs_member : errs.
Lemma errs_element value a c r d i v : errs value -> errs (element cfg parse_double value a c r d i v).
Proof. intros Hv. unfold element. errs. Qed.
#[local] Hint Resolve errs_element : errs.

Lemma errs_value fuel : errs (lql_json_value cfg parse_double fuel) /\
  (forall d c, errs (object_loop cfg parse_double fuel d c)) /\
  (forall a b r d i c, errs (array_loop cfg parse_double fuel a b r d i c)).
Proof.
  induction fuel as [|fuel (IHv & IHm & IHe)]; [by repeat split|].
  cbn [lql_json_value object_loop array_loop]. repeat split; intros; errs.
Qed.

Lemma errs_json_value : errs (JsonScan.json_value cfg parse_double).
Proof. unfold JsonScan.json_value. errs. apply errs_value. Qed.
#[local] Hint Resolve errs_json_value : errs.

Lemma errs_separator_loop fuel : errs (separator_loop fuel).
Proof. induction fuel as [|fuel IH]; cbn [separator_loop]; errs. Qed.
#[local] Hint Resolve errs_separator_loop : errs.

(** A record that cannot be given has a status that is not OK. *)
Lemma errs_next_record index : errs (next_record cfg parse_double index).
Proof. unfold next_record, root_hits, lql_json_record_separator. errs. Qed.
End scan.
