(* ===== verification/ScanStream.v ===== *)
(** * Records of a stream

    The loop of [lql_json_scan_flat_eq_ndjson] hands the callback exactly the
    records of the input, in order, each a JSON value with its place in the input,
    whatever the terms, the captures, the chunks of the reader and the spool. *)

From S2P Require Import Prelude.
From S2P Require Import Errors.
From S2P Require Import ScanTerm.
From S2P Require Import JsonSpool.
From S2P Require Import ScanState.
From S2P Require Import ScanInput.
From S2P Require Import ScanMatch.
From S2P Require Import JsonScan.
From S2P Require Import FlatProgram.
From S2P Require Import ScanSpan.
From S2P Require Import SpoolProps.
From S2P Require Import JsonGrammar.
From S2P Require Import ScanLogic.
From S2P Require Import ScanReads.
From S2P Require Import ScanWrites.
From S2P Require Import ScanSound.
From S2P Require Import ScanStatus.

Section stream.
Context {content : bytes -> lql_json_spool -> Prop} `{!SpoolLaws content}.
Context (cfg : scan_config) (parse_double : bytes -> option spec_float).
Implicit Types (s : lql_json_scan).
#[local] Abbreviation moves := (moves (content := content)).
#[local] Abbreviation out := (out cfg).

(** ** The specification *)

Definition blank (c : Z) : Prop := c = ch_space \/ c = ch_tab.

(** What ends a record before the rest [t] of the input. *)
Definition separator (sep t : bytes) : Prop := exists bl, Forall blank bl /\
  (sep = bl ++ [ch_nl] \/ sep = bl ++ [ch_cr; ch_nl] \/ sep = bl /\ t = []).

(** The call for record [index], the value [text] at [offset] of the input with
    the compact text [c]. *)
Record call_for (index offset : nat) (text c : bytes) (call : record_call) : Prop := {
  call_index : record_index call = index;
  call_offset : source_offset call = offset;
  call_len : source_len call = length text;
  call_object : root_is_object call = true <-> list.head text = Some ch_lbrace;
  call_compact : source_compact call = true -> text = c;
  call_content : writing cfg = true -> content c (record_spool call)
}.

(** [records i off t calls rest]: the input [t] at offset [off] starts with the
    records of [calls], numbered from [i], and goes on with [rest]. *)
Inductive records : nat -> nat -> bytes -> list record_call -> bytes -> Prop :=
| records_nil i off t : records i off t [] t
| records_cons i off sp text c sep t call calls rest :
    spaces sp -> json_value LQL_JSON_MAX_DEPTH text c -> list.head text <> Some ch_lbracket ->
    separator sep t -> call_for i (off + length sp) text c call ->
    records (S i) (off + length sp + length text + length sep) t calls rest ->
    records i off (sp ++ text ++ sep ++ t) (call :: calls) rest.

(** ** A record *)

Lemma separator_loop_ok fuel : forall s, ok (separator_loop fuel) s (fun c s' => exists bl,
  Forall blank bl /\ at_byte c s' /\ (c = None -> at_end s') /\ moves bl bl [] s s').
Proof.
  induction fuel as [|fuel IH]; intros s; [done|]. cbn [separator_loop].
  eapply ok_bind; [apply (peek_ok (content := content))|]. intros c s1 (M1 & Hc & He).
  destruct (byte_is c ch_space || byte_is c ch_tab) eqn:E.
  - assert (exists v, c = Some v /\ blank v) as (v & -> & Hv).
    { apply orb_true_iff in E as [E|E]; apply byte_is_spec in E as ->; eexists; (split; [done|]);
        [by left|by right]. }
    eapply ok_bind; [by apply (advance_ok (content := content))|]. intros [] s2 M2.
    eapply ok_impl; [apply IH|]. intros r s3 (bl & Hbl & Hr & Hend & M3). exists (v :: bl).
    split; [by constructor|]. split; [done|]. split; [done|chain].
  - apply ok_ret. exists []. split; [constructor|]. split; [done|]. split; [done|chain].
Qed.

Lemma record_separator_ok s : ok lql_json_record_separator s (fun _ s' => exists sep,
  separator sep (stream s') /\ moves sep sep [] s s').
Proof.
  unfold lql_json_record_separator. apply ok_gets_then.
  eapply ok_bind; [apply separator_loop_ok|]. intros c s1 (bl & Hbl & Hc & He & M1).
  destruct c as [v|].
  - destruct (Z.eqb_spec v ch_nl) as [->|_]; [|destruct (Z.eqb_spec v ch_cr) as [->|_]; [|apply ok_error]].
    + eapply ok_impl; [by apply (advance_ok (content := content))|]. intros [] s2 M2.
      exists (bl ++ [ch_nl]). split; [exists bl; by auto|chain].
    + eapply ok_bind; [by apply (advance_ok (content := content))|]. intros [] s2 M2.
      eapply ok_impl; [apply (take_expected_ok (content := content))|]. intros [] s3 M3.
      exists (bl ++ [ch_cr; ch_nl]). split; [exists bl; by auto|chain].
  - apply ok_ret. exists bl. split; [|done]. exists bl. split; [done|]. right. right.
    split; [done|]. by apply at_end_stream, He.
Qed.

(** Reading spaces and peeking leave the output alone. *)
Definition silent {A} (m : Scan A) : Prop := forall s, ok m s (fun _ s' => output s' = output s).

Lemma silent_bind {A B} (m : Scan A) (f : A -> Scan B) : silent m -> (forall a, silent (f a)) -> silent (m ≫= f).
Proof.
  intros Hm Hf s. eapply ok_bind; [apply Hm|]. intros a s1 H. eapply ok_impl; [apply Hf|].
  intros b s2 H'. congruence.
Qed.

Lemma silent_refill : silent lql_json_refill.
Proof.
  intros s. unfold lql_json_refill. apply ok_gets_then. case_match; [by apply ok_ret|].
  case_match; [by apply ok_ret|]. apply silent_bind; [by intros ? ? ? [= _ <-]|].
  intros []; [apply silent_bind; [by intros ? ? ? [= _ <-]|done]|].
  apply silent_bind; [by intros ? ? ? [= _ <-]|]. intros [st data] s1.
  cbv beta iota. case_match; [by apply ok_then_stop|]. case_match; [apply ok_error|by apply ok_modify].
Qed.

Lemma silent_peek : silent lql_json_peek.
Proof. unfold lql_json_peek. apply silent_bind; [apply silent_refill|]. intros _ s. by apply ok_gets. Qed.

Lemma silent_space_loop fuel : forall skipped, silent (skip_space_loop fuel skipped).
Proof.
  induction fuel as [|fuel IH]; intros skipped; [done|]. cbn [skip_space_loop].
  apply silent_bind; [apply silent_peek|]. intros [v|]; [|intros s; by apply ok_ret].
  destruct (negb (is_space v)); [intros s; by apply ok_modify|].
  apply silent_bind; [intros s; by apply ok_modify|]. intros _. apply IH.
Qed.

Lemma silent_skip_space : silent lql_json_skip_space.
Proof. intros s. unfold lql_json_skip_space. apply ok_gets_then, silent_space_loop. Qed.

(** The writes of a record end up in the spool. *)
Lemma flush_ok s : ok (lql_json_flush cfg) s (fun _ s' => input s' = input s /\
  emit_buffer (output s') = [] /\
  (writing cfg = true -> forall x, written (content := content) x s -> content x (out_spool (output s')))).
Proof.
  unfold lql_json_flush. apply ok_gets_then.
  destruct ((length (emit_buffer (output s)) =? 0)%nat) eqn:E; cbn [orb].
  - apply ok_modify. split; [done|]. split; [done|]. intros _ x (c & Hc & ->).
    apply Nat.eqb_eq, nil_length_inv in E. by rewrite E, app_nil_r.
  - destruct (writing cfg) eqn:Ew; cbn [negb]; [|by apply ok_modify].
    unfold drain, lql_json_spool_write, call_spool. apply ok_gets_then. intros a s'.
    unfold mbind, Scan_bind.
    destruct (lql_json_spool_append _ _ _) as [[[[st msg]|[]] sp] e] eqn:Ea; [done|]. intros [= <- <-].
    split; [done|]. split; [done|]. intros _ x (c & Hc & ->). by eapply content_append.
Qed.

(** The scanner between two records. *)
Record ready (s : lql_json_scan) : Prop := {
  ready_sane : sane s;
  ready_fits : fits s;
  ready_depth : depth (input s) = 0%nat;
  ready_emit : emit_buffer (output s) = [];
  ready_spool : writing cfg = true -> exists c, content c (out_spool (output s))
}.

(** What the next record of state [s] is: spaces, a value and its separator. *)
Definition record_read (index : nat) (s s' : lql_json_scan) (call : record_call) : Prop :=
  exists sp text c sep, spaces sp /\ json_value LQL_JSON_MAX_DEPTH text c /\
    list.head text <> Some ch_lbracket /\ separator sep (stream s') /\
    call_for index (lql_json_consumed s + length sp) text c call /\
    stream s = sp ++ text ++ sep ++ stream s' /\
    lql_json_consumed s' = (lql_json_consumed s + length sp + length text + length sep)%nat.

(** The state at the start of a record: what the moves look at. *)
Lemma start_record_spec b s : ready s ->
  let s1 := start_record cfg b s in
  sane s1 /\ fits s1 /\ stream s1 = stream s /\ lql_json_consumed s1 = lql_json_consumed s /\
  depth (input s1) = 0%nat /\ compact_range_active (input s1) = true /\
  (writing cfg = true -> written (content := content) [] s1) /\ buffer (input s1) = buffer (input s).
Proof.
  intros [Hs Hf Hd He Hsp] s1.
  assert (Hi : input s1 = ((input s) <| compact_range_active := true |>) <| compact_range_ok := true |>).
  { subst s1. unfold start_record. by destruct (writing cfg). }
  unfold sane, fits, stream, lql_json_consumed in *. rewrite !Hi. cbn. repeat (split; [done|]).
  split; [|done]. intros Hw. destruct (Hsp Hw) as [c Hc]. exists [].
  assert (Ho : output s1 = (output s) <| out_spool := lql_json_spool_reset (out_spool (output s)) |>).
  { subst s1. unfold start_record. by rewrite Hw. }
  rewrite Ho. cbn. rewrite He. split; [by eapply content_reset|done].
Qed.

Lemma quiet_root_hits b : quiet (root_hits cfg b).
Proof. unfold root_hits. quiet. Qed.

Lemma solid_not_spaces c sp : solid (c ++ sp) -> spaces sp -> sp = [].
Proof.
  intros (w & x & E & Hx) Hsp. destruct sp as [|y sp] using rev_ind; [done|]. exfalso.
  rewrite app_assoc in E. apply app_inj_tail in E as [_ ->].
  apply list.Forall_app in Hsp as [_ Hsp]. by apply Forall_inv in Hsp.
Qed.

(** A text that was read as compact is. *)
Lemma compact_text_spec n text c s s' : json_value n text c -> compact_text text c s s' ->
  compact_range_active (input s) = true -> compact_range_ok (input s') = true -> text = c.
Proof.
  intros Hv Hc Ha Hok. destruct (Hc Ha Hok) as (_ & sp & -> & Hsp & _).
  rewrite (solid_not_spaces c sp); [by rewrite app_nil_r| |done]. by eapply (proj1 json_solid).
Qed.

(** The bytes of a record from its first on: the root value, its separator, and
    the call. *)
Definition record_body (index : nat) (root_is_object : bool) (record_start : nat)
    : Scan (option record_call) :=
  root_hits cfg root_is_object ;;
  r ← attempt (JsonScan.json_value cfg parse_double);
  record_end ← gets lql_json_consumed;
  compact ← gets (fun s => compact_range_ok (input s));
  modify (on_input (fun i => i <| compact_range_active := false |>)) ;;
  finish r ;;
  lql_json_record_separator ;;
  lql_json_flush cfg ;;
  cancel ← ask_cancelled;
  if (cancel : bool) then set_cancelled ;; stop LQL_STATUS_STOP
  else
    s ← gets id;
    mret (Some (mk_record_call index root_is_object
                  (if root_is_object then flat_eq_hits (matcher s) else 0)
                  (out_spool (output s)) (capture_spans (capture s)) record_start
                  (record_end - record_start) compact)).

(** What the body of a record does from the state at its start. *)
Definition body_read (index start : nat) (object : bool) (s s' : lql_json_scan) (call : record_call)
    : Prop :=
  exists text c sep, json_value LQL_JSON_MAX_DEPTH text c /\ separator sep (stream s') /\
    stream s = text ++ sep ++ stream s' /\
    lql_json_consumed s' = (lql_json_consumed s + length text + length sep)%nat /\
    record_index call = index /\ source_offset call = start /\ root_is_object call = object /\
    source_len call = (lql_json_consumed s + length text - start)%nat /\
    (source_compact call = true -> text = c) /\ (writing cfg = true -> content c (record_spool call)).

Lemma record_body_ok index object start s : sane s -> fits s -> depth (input s) = 0%nat ->
  compact_range_active (input s) = true -> (writing cfg = true -> written (content := content) [] s) ->
  ok (record_body index object start) s (fun r s' =>
    exists call, r = Some call /\ body_read index start object s s' call /\ ready s').
Proof.
  intros Hs Hf Hd Ha Hw. unfold record_body.
  eapply ok_bind; [apply (quiet_moves (content := content)), quiet_root_hits|]. intros [] s1 M1.
  destruct (moves_sane _ _ _ _ _ M1 Hs) as [Hs1 Hr1].
  eapply ok_attempt_then; [by apply (json_value_ok cfg parse_double)| |fails].
  intros [] s2 (text & c & Hv & M2). rewrite Hr1 in Hv. unfold room in Hv. rewrite Hd in Hv.
  assert (M : moves text c (out c) s s2) by (eapply moves_eq; [chain_moves|same_text..]).
  apply ok_gets_then, ok_gets_then. apply ok_modify_then. set (s3 := on_input _ s2).
  apply ok_ret_then. destruct (mv_consumed _ _ _ _ _ M Hf) as [Hf2 Hc2].
  destruct (moves_sane _ _ _ _ _ M Hs) as [Hs2 _].
  eapply ok_bind; [apply record_separator_ok|]. intros [] s4 (sep & Hsep & M4).
  destruct (mv_consumed _ _ _ _ _ M4 Hf2) as [Hf4 Hc4].
  assert (Hs4 : sane s4) by by apply (moves_sane _ _ _ _ _ M4 Hs2).
  eapply ok_bind; [apply flush_ok|]. intros [] s5 (Hi5 & He5 & Hw5).
  assert (Hwr : writing cfg = true -> content c (out_spool (output s5))).
  { intros Hwr. apply Hw5; [done|]. pose proof (mv_written _ _ _ _ _ M [] (Hw Hwr)) as K.
    unfold ScanWrites.out in K. rewrite Hwr in K. apply (mv_written _ _ _ _ _ M4) in K.
    by rewrite app_nil_r in K. }
  eapply ok_bind with (P := fun _ s6 => output s6 = output s5 /\ moves [] [] [] s5 s6).
  { apply ok_and; [by intros ? ? [= _ <-]|apply (ask_cancelled_ok (content := content))]. }
  intros cancel s6 [Ho6 M6]. destruct cancel; [fails|]. apply ok_gets_then, ok_ret.
  eexists. split; [reflexivity|].
  assert (Hs5 : sane s5) by (unfold sane, stream in *; by rewrite Hi5).
  assert (Hf5 : fits s5) by (unfold fits in *; by rewrite Hi5).
  assert (Hst5 : stream s5 = stream s4) by (unfold stream; by rewrite Hi5).
  assert (Hco5 : lql_json_consumed s5 = lql_json_consumed s4) by (unfold lql_json_consumed; by rewrite Hi5).
  destruct (mv_consumed _ _ _ _ _ M6 Hf5) as [Hf6 Hc6].
  pose proof (mv_stream _ _ _ _ _ M6) as Hst6. cbn in Hst6.
  split.
  - exists text, c, sep. cbn. rewrite <- Hst6, Hst5. split; [done|]. split; [done|].
    split; [by rewrite (mv_stream _ _ _ _ _ M), <- (mv_stream _ _ _ _ _ M4)|].
    split; [cbn in Hc6; rewrite Hc6, Hco5, Hc4; change (lql_json_consumed s3) with (lql_json_consumed s2); lia|].
    repeat (split; [done|]). split; [by rewrite Hc2|]. split; [|by rewrite Ho6].
    intros Hok. eapply compact_text_spec; [done|apply (mv_compact _ _ _ _ _ M)|done|done].
  - split; [by apply (moves_sane _ _ _ _ _ M6 Hs5)|done| |by rewrite Ho6|].
    + rewrite (mv_depth _ _ _ _ _ M6), Hi5, (mv_depth _ _ _ _ _ M4).
      change (depth (input s3)) with (depth (input s2)). by rewrite (mv_depth _ _ _ _ _ M).
    + intros Hw6. exists c. rewrite Ho6. auto.
Qed.

Lemma value_head n text c v s rest : json_value n text c -> at_byte (Some v) s ->
  stream s = text ++ rest -> list.head text = Some v.
Proof.
  intros Hv Hb E. destruct text as [|x text].
  { destruct (proj1 json_solid _ _ _ Hv) as (w & y & H & _). by destruct w. }
  unfold at_byte, stream in *. destruct (buffer (input s)) as [|y b]; [done|]. cbn in *.
  injection Hb as ->. by injection E as ->.
Qed.

Lemma next_record_ok index s : ready s -> ok (next_record cfg parse_double index) s (fun r s' =>
  match r with
  | None => spaces (stream s)
  | Some call => record_read index s s' call /\ ready s'
  end).
Proof.
  intros Hr. unfold next_record.
  eapply ok_bind; [eapply ok_and; [apply (skip_space_ok (content := content))|apply silent_skip_space]|].
  intros [] s1 [(sp & Hsp & M1) O1].
  eapply ok_bind; [eapply ok_and; [apply (peek_ok (content := content))|apply silent_peek]|].
  intros [v|] s2 [(M2 & Hv & He) O2].
  2:{ apply ok_ret. rewrite (mv_stream _ _ _ _ _ M1), (mv_stream _ _ _ _ _ M2), at_end_stream by by apply He.
      by rewrite app_nil_r. }
  assert (M : moves sp [] [] s s2) by chain. clear M1 M2.
  destruct Hr as [Hs Hf Hd Hemit Hspool]. destruct (mv_consumed _ _ _ _ _ M Hf) as [Hf2 Hc2].
  assert (Hr2 : ready s2).
  { split; [by apply (moves_sane _ _ _ _ _ M Hs)|done|by rewrite (mv_depth _ _ _ _ _ M)|..];
      by rewrite O2, O1. }
  destruct (Z.eqb_spec v ch_lbracket) as [|Hna]; [apply ok_error|]. cbv zeta.
  apply ok_gets_then, ok_modify_then.
  destruct (start_record_spec (v =? ch_lbrace) s2 Hr2) as (S1 & S2 & S3 & S4 & S5 & S6 & S7 & S8).
  set (s3 := start_record _ _ _) in *.
  eapply ok_impl; [by apply (record_body_ok index (v =? ch_lbrace) (lql_json_consumed s2) s3)|].
  intros r s4 (call & -> & (text & c & sep & H1 & H2 & H3 & H4 & H5 & H6 & H7 & H8 & H9 & H10) & Hr4).
  split; [|done]. rewrite S3 in H3. rewrite S4 in H4, H8.
  pose proof (value_head _ _ _ _ _ _ H1 Hv H3) as Hh.
  exists sp, text, c, sep. split; [done|]. split; [done|]. split; [by rewrite Hh; intros [= ?]|].
  split; [done|]. split; [|split].
  - split; [done|by rewrite H6, Hc2|rewrite H8; lia| |done|done].
    rewrite H7, Hh, Z.eqb_eq. split; [by intros ->|by intros [= ->]].
  - by rewrite (mv_stream _ _ _ _ _ M), H3.
  - rewrite H4, Hc2. lia.
Qed.

(** ** The stream *)

Context {U : Type} (record : record_call -> U -> lql_status * U).

(** The calls of the callback in turn, each after one that answered OK: the last
    answer and the user's state. *)
Inductive fed : U -> list record_call -> lql_status -> U -> Prop :=
| fed_nil u : fed u [] LQL_STATUS_OK u
| fed_last u call status u' : record call u = (status, u') -> status <> LQL_STATUS_OK ->
    fed u [call] status u'
| fed_more u call u' calls status u'' : record call u = (LQL_STATUS_OK, u') ->
    fed u' calls status u'' -> fed u (call :: calls) status u''.

(** What holds between two records, and what the calls satisfy. *)
Context (between : lql_json_scan -> Prop) (judged : record_call -> Prop).

(** What the loop has done from record [k] at [off] of an input that goes on with
    [t]. *)
Definition scanned (out_limit_stop : bool) (max_records k off : nat) (t : bytes) (user : U)
    (e : @scan_end U) : Prop :=
  exists calls rest status, records k off t calls rest /\
    fed user calls status (end_user e) /\ end_records e = (k + length calls)%nat /\
    (status <> LQL_STATUS_OK -> end_status e = status) /\
    (end_status e = LQL_STATUS_OK ->
     out_limit_stop = true \/ (max_records = 0 \/ end_records e < max_records)%nat -> spaces rest) /\
    (max_records <> 0 -> k <= max_records -> end_records e <= max_records)%nat /\
    Forall judged calls.

(** No record more. *)
Lemma scanned_none out_limit_stop max_records k off t user e : end_user e = user -> end_records e = k ->
  (end_status e = LQL_STATUS_OK ->
   out_limit_stop = true \/ (max_records = 0 \/ k < max_records)%nat -> spaces t) ->
  scanned out_limit_stop max_records k off t user e.
Proof.
  intros Hu Hk Hs. exists [], t, LQL_STATUS_OK. rewrite Hu, Hk. split; [constructor|].
  split; [constructor|]. split; [cbn; lia|]. split; [done|]. split; [done|]. split; [lia|constructor].
Qed.

(** A record and then what [e] says of the rest. *)
Lemma scanned_record out_limit_stop max_records k s s1 call user user' e : record_read k s s1 call -> judged call ->
  record call user = (LQL_STATUS_OK, user') -> (max_records <> 0 -> k <= max_records -> S k <= max_records)%nat ->
  scanned out_limit_stop max_records (S k) (lql_json_consumed s1) (stream s1) user' e ->
  scanned out_limit_stop max_records k (lql_json_consumed s) (stream s) user e.
Proof.
  intros (sp & text & c & sep & H1 & H2 & H3 & H4 & H5 & H6 & H7) Hj Hc Hk
    (calls & rest & status & R & F & N & Hst & Hok & Hmax & J).
  exists (call :: calls), rest, status. rewrite H6, N. cbn [length].
  split; [eapply records_cons; [done..|by rewrite <- H7]|]. split; [by econstructor|].
  split; [lia|]. split; [done|]. rewrite N in Hok, Hmax. split; [done|].
  split; [auto|by constructor].
Qed.

(** A record whose call ends the scan. *)
Lemma scanned_last out_limit_stop max_records k s s1 call user status user' e : record_read k s s1 call -> judged call ->
  record call user = (status, user') -> status <> LQL_STATUS_OK ->
  (max_records <> 0 -> k <= max_records -> S k <= max_records)%nat ->
  end_status e = status -> end_user e = user' -> end_records e = S k ->
  scanned out_limit_stop max_records k (lql_json_consumed s) (stream s) user e.
Proof.
  intros (sp & text & c & sep & H1 & H2 & H3 & H4 & H5 & H6 & H7) Hj Hc Hne Hk Hs Hu Hr.
  exists [call], (stream s1), status. rewrite H6, Hu, Hr, Hs.
  split; [eapply records_cons; [done..|constructor]|]. split; [by constructor|].
  split; [cbn; lia|]. split; [done|]. split; [done|]. split; [done|by constructor].
Qed.

Context (next_judged : forall k s, ready s -> between s -> ok (next_record cfg parse_double k) s
  (fun r s' => forall call, r = Some call -> between s' /\ judged call)).

Lemma ndjson_loop_sound max_records max_bytes out_limit_stop fuel : forall k user s e, ready s -> between s ->
  ndjson_loop cfg parse_double record max_records max_bytes out_limit_stop fuel k user s = Some e ->
  scanned out_limit_stop max_records k (lql_json_consumed s) (stream s) user e.
Proof.
  induction fuel as [|fuel IH]; intros k user s e Hr Hb; cbn [ndjson_loop];
    destruct (negb (max_records =? 0)%nat && (max_records <=? k)%nat) eqn:El; [|done| |].
  1,2: apply andb_true_iff in El as [E1 E2]; apply negb_true_iff, Nat.eqb_neq in E1;
    apply Nat.leb_le in E2; intros [= <-]; apply scanned_none; cbn; [done|done|].
  1,2: destruct out_limit_stop; [done|]; intros _ [?|?]; [done|lia].
  assert (Hk : (max_records <> 0 -> k <= max_records -> S k <= max_records)%nat).
  { intros H1 H2. apply andb_false_iff in El as [El|El]; [by destruct max_records|].
    apply Nat.leb_gt in El. lia. }
  destruct (next_record cfg parse_double k s) as [[[[call|]|status] s1]|] eqn:E; [| | |done].
  - destruct (next_record_ok k s Hr _ _ E) as [Hrec Hr1].
    destruct (next_judged k s Hr Hb _ _ E call eq_refl) as [Hb1 Hj].
    destruct (record call user) as [status user'] eqn:Ec.
    destruct (decide (status = LQL_STATUS_OK)) as [->|Hne].
    + cbn [negb]. rewrite bool_decide_eq_true_2 by done. cbn [negb].
      case_match; [|intros H'; eapply scanned_record; [done..|by eapply IH]].
      intros [= <-]. eapply scanned_record; [done..|]. apply scanned_none; done.
    + rewrite bool_decide_eq_false_2 by done. cbn [negb]. intros [= <-].
      by eapply scanned_last.
  - intros [= <-]. apply scanned_none; cbn; [done|done|]. intros _ _. exact (next_record_ok k s Hr _ _ E).
  - intros [= <-]. apply scanned_none; cbn; [done|done|]. intros ->.
    by apply (errs_next_record cfg parse_double k) in E.
Qed.
End stream.

(** ** The scan *)

(** The state at the start of a scan that its request allows. *)
Lemma scan_start_ready (r : lql_json_flat_eq_request) env answers cancels allocs :
  Forall byte_range (pending answers) ->
  (forall spool, req_spool r = Some spool -> req_capture r = true -> exists c, appendable c spool) ->
  req_capture r && bool_decide (req_spool r = None) = false ->
  ready (content := appendable) (scan_config_of r)
    (scan_start (scan_config_of r) (default (mk_spool None 0 None None 0) (req_spool r)) env answers cancels allocs).
Proof.
  intros Hb Hsp Eg.
  split; [split; [by cbn; rewrite ?app_nil_l|cbn; lia]|unfold fits; cbn; lia|done|done|].
  cbn. intros Hc. rewrite Hc in Eg. cbn in Eg.
  apply bool_decide_eq_false in Eg. destruct (req_spool r) as [spool|]; [|done]. by apply (Hsp spool).
Qed.

(** A scan that starts, runs its loop on the input. *)
Lemma scan_runs {U} (parse_double : bytes -> option spec_float)
    (record : record_call -> U -> lql_status * U) (r : lql_json_flat_eq_request) (user : U)
    (env : spool_env) (answers : list read_answer) (cancels allocs : list bool) (e : @scan_end U) :
  Forall byte_range (pending answers) ->
  (forall spool, req_spool r = Some spool -> req_capture r = true -> exists c, appendable c spool) ->
  lql_json_scan_flat_eq_ndjson parse_double record r user env answers cancels allocs = Some (inr e) ->
  exists spool allocs', (length (req_terms r) <= LQL_JSON_FLAT_TERM_CAPACITY)%nat /\
    let s := scan_start (scan_config_of r) spool env answers cancels allocs' in
    ready (content := appendable) (scan_config_of r) s /\
    ndjson_loop (scan_config_of r) parse_double record (req_max_records r) (req_max_bytes r)
      (req_limit_stop r) (S (remaining s)) 0 user s = Some e.
Proof.
  intros Hb Hsp. unfold lql_json_scan_flat_eq_ndjson. cbv zeta.
  destruct ((LQL_JSON_FLAT_TERM_CAPACITY <? length (req_terms r))%nat || _ || _) eqn:Eguard; [done|].
  destruct (allocate 1 allocs) as [[] allocs1]; cbn [negb]; [|done].
  destruct (lql_json_scan_prepare _ allocs1) as [[] allocs2]; cbn [negb]; [|done].
  destruct (if flat_eq_has_recursive_terms _ then allocate 2 allocs2 else _) as [[] allocs3]; cbn [negb]; [|done].
  set (s := scan_start _ _ _ _ _ _). intros H.
  destruct (ndjson_loop _ _ _ _ _ _ _ _ _ s) as [e'|] eqn:E; [|done]. injection H as ->.
  apply orb_false_iff in Eguard as [Eg1 Eg]. apply orb_false_iff in Eg1 as [Eg1 _].
  eexists _, allocs3. split; [by apply Nat.ltb_ge|]. split; [by apply scan_start_ready|exact E].
Qed.

(** C4. Whatever the terms, the captures, the limits, the answers of the reader, of
    the allocator and of the C library: the calls of the record callback are, in
    order and numbered from 0, the first records of the input that the reader
    delivers ([pending]), each with the place of a JSON value nested at most 128 deep
    that is not an array, the range marked compact only if its text has no space
    between tokens, and with capture the spool holding its compact text; the user's
    state is what these calls made of it, the call that did not answer OK ended the
    scan, and a scan that ends OK without a limit read the input to its end. *)
Theorem ndjson_scan_sound {U} (parse_double : bytes -> option spec_float)
    (record : record_call -> U -> lql_status * U) (r : lql_json_flat_eq_request) (user : U)
    (env : spool_env) (answers : list read_answer) (cancels allocs : list bool) (e : @scan_end U) :
  Forall byte_range (pending answers) ->
  (forall spool, req_spool r = Some spool -> req_capture r = true -> exists c, appendable c spool) ->
  lql_json_scan_flat_eq_ndjson parse_double record r user env answers cancels allocs = Some (inr e) ->
  exists calls rest status,
    records (content := appendable) (scan_config_of r) 0 0 (pending answers) calls rest /\
    fed record user calls status (end_user e) /\
    end_records e = length calls /\
    (status <> LQL_STATUS_OK -> end_status e = status) /\
    (end_status e = LQL_STATUS_OK ->
     req_limit_stop r = true \/ (req_max_records r = 0 \/ end_records e < req_max_records r)%nat ->
     spaces rest) /\
    (req_max_records r <> 0 -> end_records e <= req_max_records r)%nat.
Proof.
  intros Hb Hsp H. destruct (scan_runs _ _ _ _ _ _ _ _ _ Hb Hsp H) as (spool & allocs' & _ & Hr & E).
  destruct (ndjson_loop_sound _ _ record (fun _ => True) (fun _ => True) (fun _ _ _ _ _ _ _ _ _ => conj I I)
    _ _ _ _ _ _ _ _ Hr I E) as (calls & rest & status & H1 & H2 & H3 & H4 & H5 & H6 & _).
  exists calls, rest, status. split; [exact H1|]. repeat (split; [done|]). intros Hm. apply H6; [done|lia].
Qed.

(** Two records in three reads, the first with spaces in it: {"a" : 12 }, 7. *)
Definition demo_answers : list read_answer :=
  map (mk_answer LQL_STATUS_OK None)
    [[123; 34; 97; 34; 32; 58; 32; 49]; [50; 32; 125; 10]; [55]].

Definition demo_request : lql_json_flat_eq_request :=
  mk_request [] (Some fresh_spool) true false 0 [] 0 0 false.

(** A callback that collects the places of the records. *)
Definition demo_record (call : record_call) (u : list (nat * nat * bool)) :=
  (LQL_STATUS_OK, u ++ [(source_offset call, source_len call, source_compact call)]).

#[local] Abbreviation demo_scan :=
  (lql_json_scan_flat_eq_ndjson (fun _ => None) demo_record demo_request []
     (mk_env [] [] [] []) demo_answers [] []).

Definition end_of (x : option (failure + @scan_end (list (nat * nat * bool)))) :=
  match x with
  | Some (inr e) => Some (end_status e, end_records e, end_user e)
  | _ => None
  end.

Lemma end_of_inv x status n u : end_of x = Some (status, n, u) ->
  exists e, x = Some (inr e) /\ end_status e = status /\ end_records e = n /\ end_user e = u.
Proof. destruct x as [[|e]|]; [done| |done]. intros [= <- <- <-]. by exists e. Qed.

Lemma demo_end : end_of demo_scan =
  Some (LQL_STATUS_OK, 2%nat, [(0%nat, 11%nat, false); (12%nat, 1%nat, true)]).
Proof. vm_compute. reflexivity. Qed.

Lemma fresh_appendable : appendable [] fresh_spool.
Proof. split; [exact fresh_holds|done|done]. Qed.

Lemma ndjson_scan_sound_witness : exists (e : scan_end) (calls : list record_call) (rest : bytes),
  demo_scan = Some (inr e) /\ length calls = 2%nat /\ spaces rest /\
  records (content := appendable) (scan_config_of demo_request) 0 0 (pending demo_answers) calls rest.
Proof.
  destruct (end_of_inv _ _ _ _ demo_end) as (e & E & H1 & H2 & _). exists e.
  destruct (ndjson_scan_sound (fun _ => None) demo_record demo_request [] (mk_env [] [] [] [])
    demo_answers [] [] e) as (calls & rest & status & R & _ & N & _ & S & _).
  - apply is_byte_forall. reflexivity.
  - intros spool [= <-] _. exists []. exact fresh_appendable.
  - exact E.
  - exists calls, rest. split; [exact E|]. split; [by rewrite <- N|]. split; [|exact R].
    apply S; [exact H1|]. right. left. reflexivity.
Defined.

(** ** Where the scanner does not do what it means to

    Runs of the scanner on inputs for which its answer depends on how the reader cut
    the input, or for which it writes outside an array. *)

(** JSON text written with apostrophes for quotes. *)
Definition json_text (t : string) : bytes := map (fun c => if c =? ch_apos then ch_quote else c) (bs t).

(** The string equality that the program builder makes for a path. *)
Definition equality (path value : string) : list lql_json_flat_eq_term :=
  match lql_flat_eq_literal_object_path (bs path) with
  | Some m => [value_term LQL_JSON_FLAT_TERM_EQ (bs value) (bs path) m]
  | None => []
  end.

(** The hits of the records of a scan. *)
Definition scan_hits (terms : list lql_json_flat_eq_term) (capture : bool) (chunks : list bytes)
    : option (failure + lql_status * list Z) :=
  match lql_json_scan_flat_eq_ndjson (fun _ => None)
          (fun call hits => (LQL_STATUS_OK, hits ++ [record_hits call]))
          (mk_request terms (Some (mk_spool (Some []) 0 None None 0)) capture false 0 [] 0 0 false)
          [] (mk_env [] [] [] []) (map (mk_answer LQL_STATUS_OK None) chunks) [] [] with
  | Some (inr e) => Some (inr (end_status e, end_user e))
  | Some (inl f) => Some (inl f)
  | None => None
  end.

(** /ab="x" or /x~1y="z" on a record that has both: the first is lost when its key
    does not lie in the buffer, for the escape in the other path makes
    [lql_json_match_span] match the bytes of the key again for all terms. *)
Lemma escaped_path_loses_hit :
  let terms := equality "/ab" "x" ++ equality "/x~1y" "z" in
  scan_hits terms false [json_text "{'ab':'x','x/y':'z'}"] = Some (inr (LQL_STATUS_OK, [3])) /\
  scan_hits terms false [json_text "{'a"; json_text "b':'x','x/"; json_text "y':'z'}"] =
    Some (inr (LQL_STATUS_OK, [2])).
Proof. vm_compute. split; reflexivity. Qed.

(** The same with a capture, whatever the chunks. *)
Lemma escaped_path_loses_captured_hit :
  let terms := equality "/ab" "x" ++ equality "/x~1y" "z" in
  scan_hits terms true [json_text "{'ab':'x','x/y':'z'}"] = Some (inr (LQL_STATUS_OK, [2])).
Proof. vm_compute. reflexivity. Qed.

(** The masks of [lql_json_object] that tell ordinary from recursive matches are set
    by the fast path of keys only: what a repeated key matches below a recursive
    segment depends on the chunks. *)
Lemma recursive_hit_depends_on_chunks :
  let terms := equality "/.../a/b" "x" in
  let text := json_text "{'a':{'a':{'b':'x'}}}" in
  scan_hits terms false [text] = Some (inr (LQL_STATUS_OK, [1])) /\
  scan_hits terms false (map (fun c => [c]) text) = Some (inr (LQL_STATUS_OK, [0])).
Proof. vm_compute. split; reflexivity. Qed.

(** 126 arrays in an object, and in the last one an object that fails: the masks are
    cleared at depth 128, outside the arrays of 128 masks. *)
Lemma failed_value_out_of_bounds :
  scan_hits [] true [json_text "{'a':" ++ repeat ch_lbracket 126 ++ json_text "{x"] = None.
Proof. vm_compute. reflexivity. Qed.
