(* ===== verification/SelectorIndex.v ===== *)
(** * The index of a selector program is a map (src/lql_stream_flat_eq.c)

    Whatever the addresses of the nodes, the open-addressed table finds for every
    node the range of its terms, and nothing for a node that has none.  The invariant
    of linear probing: from the first slot of a node that is in, no slot is empty up
    to the one that holds its group. *)

From S2P Require Import Prelude.
From S2P Require Import ScanTerm.
From S2P Require Import FlatProgram.

Section index.
Context (address : list nat -> Z).

(** ** Slots *)

(** A power of two. *)
Definition power (size : nat) : Prop := exists k, size = (2 ^ k)%nat.

Lemma power_pos size : power size -> (0 < size)%nat.
Proof. intros [k ->]. apply Nat.neq_0_lt_0, Nat.pow_nonzero. lia. Qed.

(** [& (size - 1)] is the remainder. *)
Lemma land_size size z : power size ->
  Z.to_nat (Z.land z (Z.of_nat size - 1)) = Z.to_nat (z mod Z.of_nat size).
Proof.
  intros [k ->]. rewrite Nat2Z.inj_pow. change (Z.of_nat 2) with 2.
  replace (2 ^ Z.of_nat k - 1) with (Z.ones (Z.of_nat k)) by (rewrite Z.ones_equiv; lia).
  by rewrite Z.land_ones by lia.
Qed.

(** The slot [j] steps after [slot]. *)
Definition slot_after (size slot j : nat) : nat := ((slot + j) mod size)%nat.

Lemma slot_after_lt size slot j : (0 < size)%nat -> (slot_after size slot j < size)%nat.
Proof. intros H. apply Nat.mod_upper_bound. lia. Qed.

Lemma next_slot_after size slot : power size -> next_slot size slot = slot_after size slot 1.
Proof.
  intros H. unfold next_slot, slot_after. rewrite land_size by done.
  replace (Z.of_nat slot + 1) with (Z.of_nat (slot + 1)) by lia.
  by rewrite <- Nat2Z.inj_mod, Nat2Z.id.
Qed.

Lemma slot_after_after size slot i j : (0 < size)%nat ->
  slot_after size (slot_after size slot i) j = slot_after size slot (i + j).
Proof.
  intros H. unfold slot_after. rewrite Nat.Div0.add_mod_idemp_l. f_equal. lia.
Qed.

Lemma slot_after_0 size slot : (slot < size)%nat -> slot_after size slot 0 = slot.
Proof. intros H. unfold slot_after. rewrite Nat.add_0_r. by apply Nat.mod_small. Qed.

(** Every slot comes within [size] steps. *)
Lemma slot_reached size slot p : (p < size)%nat -> (slot < size)%nat ->
  exists j, (j < size)%nat /\ slot_after size slot j = p.
Proof.
  intros Hp Hs. exists ((p + (size - slot)) mod size)%nat. split; [apply Nat.mod_upper_bound; lia|].
  unfold slot_after. rewrite Nat.Div0.add_mod_idemp_r.
  replace (slot + (p + (size - slot)))%nat with (p + 1 * size)%nat by lia.
  rewrite Nat.Div0.mod_add. by apply Nat.mod_small.
Qed.

Lemma first_slot_lt size selector : power size -> (first_slot address size selector < size)%nat.
Proof.
  intros H. unfold first_slot. rewrite land_size by done. pose proof (power_pos _ H).
  pose proof (Z.mod_pos_bound (lql_flat_eq_selector_group_hash address selector) (Z.of_nat size)). lia.
Qed.

(** ** Probing *)

Implicit Types (index : selector_index) (table : list (option nat)) (nodes : list (list nat)).

(** The node at slot [p] of a table of group numbers. *)
Definition node_at table nodes (p : nat) (node : list nat) : Prop :=
  exists g, table !! p = Some (Some g) /\ nodes !! g = Some node.

(** Every slot is empty or has a node. *)
Definition filled table nodes : Prop := forall p, (p < length table)%nat ->
  table !! p = Some None \/ exists node, node_at table nodes p node.

(** From [slot] on, other nodes up to step [j]. *)
Definition passed table nodes (slot j : nat) (node : list nat) : Prop := forall i, (i < j)%nat ->
  exists other, node_at table nodes (slot_after (length table) slot i) other /\ other <> node.

(** The probe for [node] stops at slot [p]. *)
Definition stops table nodes (p : nat) (node : list nat) : Prop :=
  table !! p = Some None \/ node_at table nodes p node.

(** The nodes of the groups. *)
Definition nodes_of index : list (list nat) := group_selector <$> selector_groups index.

Lemma nodes_of_lookup index g node : nodes_of index !! g = Some node ->
  exists group, selector_groups index !! g = Some group /\ group_selector group = node.
Proof. unfold nodes_of. rewrite list_lookup_fmap_Some. intros (group & -> & H). eauto. Qed.

Lemma probe_spec index node : power (length (selector_group_table index)) ->
  forall j slot fuel, (slot < length (selector_group_table index))%nat -> (j < fuel)%nat ->
  passed (selector_group_table index) (nodes_of index) slot j node ->
  stops (selector_group_table index) (nodes_of index)
    (slot_after (length (selector_group_table index)) slot j) node ->
  probe fuel index slot node = Some (slot_after (length (selector_group_table index)) slot j).
Proof.
  intros Hp. set (size := length (selector_group_table index)) in *. pose proof (power_pos _ Hp) as H0.
  induction j as [|j IH]; intros slot fuel Hs Hf Hpass Hstop; (destruct fuel as [|fuel]; [lia|]);
    cbn [probe].
  - rewrite slot_after_0 in * by done. destruct Hstop as [He|(g & Ht & Hg)].
    + rewrite He. done.
    + destruct (nodes_of_lookup _ _ _ Hg) as (group & Hg' & Hsel).
      rewrite Ht. cbn. rewrite Hg'. cbn. by rewrite bool_decide_eq_true_2.
  - destruct (Hpass 0%nat) as (other & (g & Ht & Hg) & Hsel); [lia|]. fold size in Ht.
    destruct (nodes_of_lookup _ _ _ Hg) as (group & Hg' & <-).
    rewrite slot_after_0 in Ht by done. rewrite Ht. cbn. rewrite Hg'. cbn.
    rewrite bool_decide_eq_false_2 by done. fold size. rewrite next_slot_after by done.
    rewrite (IH (slot_after size slot 1) fuel).
    + f_equal. rewrite slot_after_after by done. f_equal.
    + by apply slot_after_lt.
    + lia.
    + intros i Hi. fold size. rewrite slot_after_after by done. apply (Hpass (1 + i)%nat). lia.
    + rewrite slot_after_after by done. exact Hstop.
Qed.

(** ** The table of a list of nodes *)

(** The empty slots of a table. *)
Definition empties table : nat :=
  length (List.filter (fun cell => match cell with None => true | _ => false end) table).

Lemma empties_insert table p g : table !! p = Some None ->
  empties table = S (empties (<[p := Some g]> table)).
Proof.
  revert p. unfold empties. induction table as [|[c|] table IH]; intros [|p] H; cbn in *;
    try discriminate; auto.
Qed.

Lemma empties_pos table : (0 < empties table)%nat -> exists p, table !! p = Some None.
Proof.
  unfold empties. induction table as [|[c|] table IH]; cbn; intros H.
  - lia.
  - destruct (IH H) as [p Hp]. by exists (S p).
  - by exists 0%nat.
Qed.

Lemma empties_repeat n : empties (repeat None n) = n.
Proof. unfold empties. induction n; cbn; auto. Qed.

(** Node [g] sits in the table where a probe for it arrives. *)
Definition placed table nodes (g : nat) (node : list nat) : Prop :=
  let first := first_slot address (length table) node in
  exists j, (j < length table)%nat /\ passed table nodes first j node /\
    table !! slot_after (length table) first j = Some (Some g).

Record hashes table nodes : Prop := {
  hashes_power : power (length table);
  hashes_filled : filled table nodes;
  hashes_room : (empties table + length nodes = length table)%nat;
  hashes_placed : forall g node, nodes !! g = Some node -> placed table nodes g node
}.

(** A probing passes [n] other nodes or stops before. *)
Lemma passed_or_stops table nodes slot node : (0 < length table)%nat ->
  filled table nodes -> forall n, (exists j, (j < n)%nat /\ passed table nodes slot j node /\
    stops table nodes (slot_after (length table) slot j) node) \/
  passed table nodes slot n node.
Proof.
  intros H0 Hf. induction n as [|n [(j & Hj & Hp & Hs)|IH]].
  - right. intros i Hi. lia.
  - left. exists j. auto with lia.
  - destruct (Hf (slot_after (length table) slot n)) as [He|[other Hg]].
    + by apply slot_after_lt.
    + left. exists n. split; [lia|]. split; [done|]. by left.
    + destruct (decide (other = node)) as [->|Hne].
      * left. exists n. split; [lia|]. split; [done|]. by right.
      * right. intros i Hi. destruct (decide (i = n)) as [->|]; [eauto|]. apply IH. lia.
Qed.

(** Probing ends, after a path of other nodes. *)
Lemma probe_ends index node : let table := selector_group_table index in
  hashes table (nodes_of index) -> (length (nodes_of index) < length table)%nat ->
  let first := first_slot address (length table) node in
  exists j, (j < length table)%nat /\ passed table (nodes_of index) first j node /\
    stops table (nodes_of index) (slot_after (length table) first j) node /\
    probe (length table) index first node = Some (slot_after (length table) first j).
Proof.
  intros table [Hpow Hfill Hroom Hplaced] Hlen first.
  pose proof (power_pos _ Hpow) as H0.
  assert (first < length table)%nat as Hfirst by by apply first_slot_lt.
  destruct (passed_or_stops table (nodes_of index) first node H0 Hfill (length table))
    as [(j & Hj & Hp & Hs)|Hp].
  - exists j. split; [done|]. split; [done|]. split; [done|]. by apply probe_spec.
  - exfalso. destruct (empties_pos table) as [p Hp']; [lia|].
    assert (p < length table)%nat as Hlt by (by eapply lookup_lt_Some).
    destruct (slot_reached (length table) first p) as (j & Hj & He); [done|done|].
    destruct (Hp j Hj) as (other & (g & Ht & _) & _). rewrite He in Ht. congruence.
Qed.

(** A probe for a node that is in stops at it. *)
Lemma placed_found table nodes g node j : hashes table nodes -> nodes !! g = Some node ->
  let first := first_slot address (length table) node in
  passed table nodes first j node -> stops table nodes (slot_after (length table) first j) node ->
  NoDup nodes -> table !! slot_after (length table) first j = Some (Some g).
Proof.
  intros Hi Hg first Hp Hs Hnd.
  destruct (hashes_placed _ _ Hi g node Hg) as (i & Hil & Hpi & Hcell). fold first in Hcell.
  destruct (Nat.lt_trichotomy i j) as [Hlt|[->|Hlt]]; [|done|].
  - destruct (Hp i Hlt) as (other & (g' & Ht & Hg') & Hne). exfalso. congruence.
  - destruct (Hpi j Hlt) as (other & (g' & Ht & Hg') & Hne). exfalso.
    fold first in Ht. destruct Hs as [He|(g'' & Ht' & Hg'')]; congruence.
Qed.

(** The node entered in the empty slot where its probe stops. *)
Lemma hashes_insert table nodes node j : hashes table nodes ->
  let first := first_slot address (length table) node in
  let p := slot_after (length table) first j in
  (j < length table)%nat -> passed table nodes first j node -> table !! p = Some None ->
  hashes (<[p := Some (length nodes)]> table) (nodes ++ [node]).
Proof.
  intros [Hpow Hfill Hroom Hplaced] first p Hj Hpass Hempty.
  assert (forall q other, node_at table nodes q other ->
    node_at (<[p := Some (length nodes)]> table) (nodes ++ [node]) q other) as Hkeep.
  { intros q other (g & Ht & Hg). exists g. split; [|by apply lookup_app_l_Some].
    rewrite list_lookup_insert_ne; [done|]. congruence. }
  assert (forall slot n other, passed table nodes slot n other ->
    passed (<[p := Some (length nodes)]> table) (nodes ++ [node]) slot n other) as Hpassed.
  { intros slot n other H i Hi. destruct (H i Hi) as (o & Ho & Hne). exists o.
    split; [|done]. rewrite length_insert. auto. }
  assert (p < length table)%nat as Hlt by by eapply lookup_lt_Some.
  split.
  - by rewrite length_insert.
  - intros q Hq. rewrite length_insert in Hq. destruct (decide (q = p)) as [->|Hne].
    + right. exists node, (length nodes). rewrite list_lookup_insert_eq by done.
      by rewrite list_lookup_middle.
    + destruct (Hfill q Hq) as [He|[other Ho]]; [left|right; eauto].
      by rewrite list_lookup_insert_ne.
  - rewrite length_insert, length_app. cbn.
    pose proof (empties_insert table p (length nodes) Hempty). lia.
  - intros g other Hg. apply lookup_app_Some in Hg as [Hg|[Hge Hg]].
    + destruct (Hplaced g other Hg) as (i & Hi & Hpi & Hcell). exists i.
      rewrite !length_insert. split; [done|]. split; [by apply Hpassed|].
      rewrite list_lookup_insert_ne; [done|]. congruence.
    + apply list_lookup_singleton_Some in Hg as [Hg <-].
      exists j. rewrite length_insert. split; [done|]. split; [by apply Hpassed|].
      fold first. fold p. rewrite list_lookup_insert_eq by done. repeat f_equal. lia.
Qed.

(** ** The index of a list of terms *)

(** The terms of [node] among [selectors] are the [count] from [first]. *)
Definition range_of (selectors : list (list nat)) (group : lql_flat_eq_selector_group) : Prop :=
  (0 < group_count group)%nat /\
  forall i, selectors !! i = Some (group_selector group) <->
    (group_first group <= i < group_first group + group_count group)%nat.

(** The terms of a node are together. *)
Definition contiguous (selectors : list (list nat)) : Prop := forall i j k node,
  (i <= j <= k)%nat -> selectors !! i = Some node -> selectors !! k = Some node ->
  selectors !! j = Some node.

Record indexes index (selectors : list (list nat)) : Prop := {
  index_hashes : hashes (selector_group_table index) (nodes_of index);
  index_distinct : NoDup (nodes_of index);
  index_few : (length (nodes_of index) <= length selectors)%nat;
  index_ranges : forall g group, selector_groups index !! g = Some group -> range_of selectors group;
  index_complete : forall node, node ∈ selectors -> node ∈ nodes_of index
}.

Lemma nodes_of_count index g : 
  nodes_of (mk_index (alter count_one g (selector_groups index)) (selector_group_table index)) =
  nodes_of index.
Proof.
  unfold nodes_of. cbn. symmetry. apply list_eq. intros i. rewrite !list_lookup_fmap.
  destruct (decide (i = g)) as [->|Hne].
  - rewrite list_lookup_alter_eq. by destruct (selector_groups index !! g).
  - by rewrite list_lookup_alter_ne by congruence.
Qed.

(** The term after the last one of its group. *)
Lemma range_extend selectors group : contiguous (selectors ++ [group_selector group]) ->
  range_of selectors group -> range_of (selectors ++ [group_selector group]) (count_one group).
Proof.
  intros Hc [H0 Hr]. unfold range_of. cbn. split; [lia|].
  assert (length selectors = group_first group + group_count group)%nat as Hn.
  { assert (forall j, (group_first group <= j < length selectors)%nat ->
              selectors !! j = Some (group_selector group)) as Hall.
    { intros j Hj. rewrite <- (lookup_app_l selectors [group_selector group]) by lia.
      apply (Hc (group_first group) j (length selectors)); [lia| |].
      - apply lookup_app_l_Some, Hr. lia.
      - by rewrite list_lookup_middle. }
    destruct (decide (length selectors <= group_first group + group_count group)%nat).
    - assert (group_first group + group_count group - 1 < length selectors)%nat; [|lia].
      apply (lookup_lt_Some _ _ (group_selector group)), Hr. lia.
    - specialize (Hall (group_first group + group_count group)%nat). apply Hr in Hall; lia. }
  intros i. destruct (Nat.lt_ge_cases i (length selectors)) as [Hlt|Hge].
  - rewrite lookup_app_l by done. rewrite Hr. lia.
  - rewrite lookup_app_r by done. rewrite list_lookup_singleton_Some. split; [lia|].
    intros ?. split; [lia|done].
Qed.

(** A term of another node. *)
Lemma range_other selectors group node : group_selector group <> node ->
  range_of selectors group -> range_of (selectors ++ [node]) group.
Proof.
  intros Hne [H0 Hr]. split; [done|]. intros i. rewrite <- Hr.
  destruct (Nat.lt_ge_cases i (length selectors)) as [Hlt|Hge].
  - by rewrite lookup_app_l.
  - rewrite lookup_app_r by done. rewrite list_lookup_singleton_Some.
    split; [intros []; congruence|]. intros H%lookup_lt_Some. lia.
Qed.

(** The first term of a node. *)
Lemma range_new selectors node : node ∉ selectors ->
  range_of (selectors ++ [node]) (mk_group node (length selectors) 1).
Proof.
  intros Hn. split; [cbn; lia|]. intros i. cbn.
  destruct (Nat.lt_ge_cases i (length selectors)) as [Hlt|Hge].
  - rewrite lookup_app_l by done. split; [|lia]. intros H%list_elem_of_lookup_2. done.
  - rewrite lookup_app_r by done. rewrite list_lookup_singleton_Some. split; [lia|].
    intros ?. split; [lia|done].
Qed.

(** A term is entered. *)
Lemma index_term_ok index selectors node : indexes index selectors ->
  contiguous (selectors ++ [node]) ->
  (length selectors < length (selector_group_table index))%nat ->
  exists index', index_term address index (length selectors) node = Some index' /\
    indexes index' (selectors ++ [node]) /\
    length (selector_group_table index') = length (selector_group_table index).
Proof.
  intros [Hh Hnd Hfew Hr Hcomp] Hc Hlen. unfold index_term.
  destruct (probe_ends index node Hh) as (j & Hj & Hp & Hs & ->); [lia|]. cbn.
  set (table := selector_group_table index) in *.
  set (p := slot_after (length table) (first_slot address (length table) node) j) in *.
  destruct Hs as [He|(g & Ht & Hg)].
  - rewrite He. cbn. eexists. split; [done|]. split; [|by cbn; rewrite length_insert].
    assert (node ∉ nodes_of index) as Hnew.
    { intros [g Hg]%list_elem_of_lookup. pose proof (placed_found _ _ _ _ j Hh Hg Hp (or_introl He) Hnd).
      fold p in H. congruence. }
    assert (nodes_of (mk_index (selector_groups index ++ [mk_group node (length selectors) 1])
      (<[p:=Some (length (selector_groups index))]> table)) = nodes_of index ++ [node]) as Hnodes
      by (unfold nodes_of; cbn; by rewrite fmap_app).
    split; rewrite ?Hnodes; cbn [selector_group_table selector_groups].
    + replace (length (selector_groups index)) with (length (nodes_of index)) by apply length_fmap.
      by apply hashes_insert.
    + apply list.NoDup_app. split; [done|]. split; [|apply NoDup_singleton].
      intros x Hx ->%list_elem_of_singleton. done.
    + rewrite !length_app. cbn. lia.
    + intros g group [Hg|[_ Hg]]%lookup_app_Some.
      * apply range_other; [|eauto]. intros <-. apply Hnew. unfold nodes_of.
        apply list_elem_of_fmap_2. by eapply list_elem_of_lookup_2.
      * apply list_lookup_singleton_Some in Hg as [_ <-]. apply range_new. auto.
    + intros n. rewrite !elem_of_app. intros [H|H]; auto.
  - rewrite Ht. cbn. eexists. split; [done|]. split; [|done].
    destruct (nodes_of_lookup _ _ _ Hg) as (group & Hgroup & <-).
    split; rewrite ?nodes_of_count; cbn [selector_group_table selector_groups]; try done.
    + rewrite length_app. cbn. lia.
    + intros g' group' Hg'. destruct (decide (g' = g)) as [->|Hne].
      * rewrite list_lookup_alter_eq, Hgroup in Hg'. injection Hg' as <-.
        apply range_extend; eauto.
      * rewrite list_lookup_alter_ne in Hg' by done. apply range_other; [|eauto].
        intros He. apply Hne. eapply (NoDup_lookup (nodes_of index)); [done| |done].
        unfold nodes_of. by rewrite list_lookup_fmap, Hg'; cbn; f_equal.
    + intros n. rewrite elem_of_app. intros [H|H%list_elem_of_singleton]; [auto|subst].
      by eapply list_elem_of_lookup_2.
Qed.

Lemma contiguous_prefix l1 l2 : contiguous (l1 ++ l2) -> contiguous l1.
Proof.
  intros H i j k node Hj Hi Hk. rewrite <- (lookup_app_l l1 l2).
  - apply (H i j k); [done| |]; by apply lookup_app_l_Some.
  - apply lookup_lt_Some in Hk. lia.
Qed.

Lemma index_terms_ok more : forall index selectors, indexes index selectors ->
  contiguous (selectors ++ more) ->
  (length (selectors ++ more) <= length (selector_group_table index))%nat ->
  exists index', index_terms address index (length selectors) more = Some index' /\
    indexes index' (selectors ++ more) /\
    length (selector_group_table index') = length (selector_group_table index).
Proof.
  induction more as [|node more IH]; intros index selectors Hi Hc Hlen.
  - exists index. by rewrite app_nil_r.
  - rewrite (assoc_L (++) selectors [node] more : selectors ++ node :: more = _) in *.
    destruct (index_term_ok index selectors node) as (index' & He & Hi' & Hlen').
    + done.
    + by eapply contiguous_prefix.
    + rewrite !length_app in Hlen. cbn in Hlen. lia.
    + destruct (IH index' (selectors ++ [node]) Hi' Hc) as (index'' & He' & Hi'' & Hlen'').
      * lia.
      * exists index''. cbn. rewrite He. cbn. rewrite length_app, Nat.add_1_r in He'.
        split; [done|]. split; [done|]. lia.
Qed.

(** ** The size of the table *)

Lemma table_size_loop_spec wanted : forall fuel size, (0 < size)%nat -> (wanted <= size + fuel)%nat ->
  power size -> 
  power (table_size_loop fuel size wanted) /\
    (wanted <= table_size_loop fuel size wanted)%nat.
Proof.
  induction fuel as [|fuel IH]; intros size H0 Hf Hp; cbn [table_size_loop].
  - split; [done|lia].
  - destruct (Nat.ltb_spec size wanted); [|split; [done|lia]]. apply IH; [lia|lia|].
    destruct Hp as [k ->]. exists (S k). cbn. lia.
Qed.

Lemma table_size_spec n : power (table_size n) /\ (n * 2 <= table_size n)%nat.
Proof. apply table_size_loop_spec; [lia..|]. by exists 0%nat. Qed.

Lemma empty_index size : power size -> indexes (mk_index [] (repeat None size)) [].
Proof.
  intros Hp. split; cbn.
  - split; cbn.
    + by rewrite repeat_length.
    + intros p H. rewrite repeat_length in H. left.
      rewrite <- (repeat_length (@None nat) size) in H. apply lookup_lt_is_Some in H as [x Hx].
      by pose proof (list_elem_of_lookup_2 _ _ _ Hx) as ->%list_elem_of_In%repeat_spec.
    + rewrite empties_repeat, repeat_length. lia.
    + done.
  - apply NoDup_nil_2.
  - lia.
  - done.
  - intros n Hn. by apply elem_of_nil in Hn.
Qed.

(** ** The index as a map *)

(** What the index is for: the range of the terms of each node, none for a node
    without terms. *)
Definition finds index (selectors : list (list nat)) : Prop := forall node,
  exists found, lql_flat_eq_selector_group_find address index node = Some found /\
    match found with
    | None => node ∉ selectors
    | Some group => group_selector group = node /\ range_of selectors group
    end.

Lemma indexes_find index selectors : indexes index selectors ->
  (length selectors < length (selector_group_table index))%nat -> finds index selectors.
Proof.
  intros [Hh Hnd Hfew Hr Hcomp] Hlen node. unfold lql_flat_eq_selector_group_find.
  destruct (Nat.eqb_spec (length (selector_group_table index)) 0); [lia|].
  destruct (probe_ends index node Hh) as (j & Hj & Hp & Hs & ->); [lia|]. cbn.
  destruct Hs as [He|(g & Ht & Hg)].
  - rewrite He. cbn. eexists. split; [done|]. cbn. intros [g Hg]%Hcomp%list_elem_of_lookup.
    pose proof (placed_found _ _ _ _ j Hh Hg Hp (or_introl He) Hnd). congruence.
  - rewrite Ht. cbn. destruct (nodes_of_lookup _ _ _ Hg) as (group & Hgroup & <-).
    rewrite Hgroup. cbn. eexists. split; [done|]. cbn. eauto.
Qed.

Lemma build_index_finds selectors : contiguous selectors ->
  exists index, lql_flat_eq_program_build_selector_index address selectors = Some index /\
    finds index selectors.
Proof.
  intros Hc. unfold lql_flat_eq_program_build_selector_index.
  destruct (Nat.eqb_spec (length selectors) 0) as [H0|H0].
  - exists (mk_index [] []). split; [done|]. intros node. exists None. split; [done|].
    apply nil_length_inv in H0 as ->. intros Hn. by apply elem_of_nil in Hn.
  - destruct (table_size_spec (length selectors)) as [Hp Hs].
    destruct (index_terms_ok selectors (mk_index [] (repeat None (table_size (length selectors)))) [])
      as (index & He & Hi & Hlen).
    + by apply empty_index.
    + done.
    + cbn. rewrite repeat_length. lia.
    + exists index. split; [done|]. apply indexes_find; [done|].
      rewrite Hlen. cbn. rewrite repeat_length. lia.
Qed.
End index.
