(* ===== verification/FlatProgramProps.v ===== *)
(** * Evaluating a selector on the hits of its terms (src/lql_stream_flat_eq.c)

    The flat program answers the selector: when the words of hits say for every term
    whether it hit, [lql_flat_eq_matches_record] is the boolean reading of the
    selector over its predicates' terms, whatever the addresses of the nodes and
    with shared terms too.  The stop mask names terms that settle the answer. *)

From S2P Require Import Prelude.
From S2P Require Import Selector.
From S2P Require Import ScanTerm.
From S2P Require Import ScanState.
From S2P Require Import ScanInput.
From S2P Require Import FlatProgram.
From S2P Require Import SelectorIndex.

(** ** The meaning of a selector *)

Section meaning.
Context (range_double : lql_selector -> bound_key -> spec_float).
Context (time_bounds : option lql_flat_eq_time_bounds).
(** Whether the record is an object, and which terms hit. *)
Context (root_is_object : bool) (hit : lql_json_flat_eq_term -> bool).

(** A predicate holds when one of its terms hit. *)
Definition predicate_holds (s : lql_selector) : bool :=
  existsb hit (default [] (predicate_terms range_double time_bounds s)).

(** A selector holds: conjunctions, disjunctions and negations as usual, an
    inequality only of objects. *)
Fixpoint selector_holds (s : lql_selector) : bool :=
  match kind s with
  | LQL_SELECTOR_KIND_ALL => true
  | LQL_SELECTOR_KIND_AND => forallb selector_holds (children s)
  | LQL_SELECTOR_KIND_OR => existsb selector_holds (children s)
  | LQL_SELECTOR_KIND_NOT => negb (existsb selector_holds (children s))
  | LQL_SELECTOR_KIND_NE => root_is_object && negb (predicate_holds s)
  | _ => predicate_holds s
  end.
End meaning.

Section compile.
Context (range_double : lql_selector -> bound_key -> spec_float).
Context (time_bounds : option lql_flat_eq_time_bounds).
#[local] Abbreviation append := (lql_flat_eq_append range_double time_bounds).
#[local] Abbreviation terms_of := (predicate_terms range_double time_bounds).

Implicit Types (s : lql_selector) (here node : list nat) (program : program_terms).

(** The loop over the children. *)
Definition append_children here : nat -> list lql_selector -> program_terms -> option program_terms :=
  fix go i l program :=
    match l with
    | [] => Some program
    | c :: l => program ← append program (here ++ [i]) c; go (S i) l program
    end.

Lemma append_equation program here s : append program here s =
  match kind s with
  | LQL_SELECTOR_KIND_ALL => Some program
  | LQL_SELECTOR_KIND_AND | LQL_SELECTOR_KIND_OR => append_children here 0 (children s) program
  | LQL_SELECTOR_KIND_NOT =>
      program ← append_children here 0 (children s) program;
      if (length (children s) =? 1)%nat then Some program else None
  | _ => terms ← terms_of s; Some (program ++ map (fun t => (t, here)) terms)
  end.
Proof. by destruct s. Qed.

(** ** The terms of a subtree *)

Definition below here node : Prop := exists rest, node = here ++ rest.

Lemma below_refl here : below here here.
Proof. exists []. by rewrite app_nil_r. Qed.

Lemma below_child here i node : below (here ++ [i]) node -> below here node.
Proof. intros [rest ->]. exists (i :: rest). by rewrite <- (assoc_L (++)). Qed.

Lemma below_children here i j node :
  below (here ++ [i]) node -> below (here ++ [j]) node -> i = j.
Proof.
  intros [r ->] [r' He]. rewrite <- !(assoc_L (++)) in He. apply app_inv_head in He. cbn in He.
  congruence.
Qed.

(** The children from [i] on. *)
Definition below_from here i node : Prop := exists j, (i <= j)%nat /\ below (here ++ [j]) node.

Lemma contiguous_nil : contiguous [].
Proof. intros i j k node _ H. by rewrite lookup_nil in H. Qed.

Lemma contiguous_app l1 l2 : contiguous l1 -> contiguous l2 ->
  (forall n, n ∈ l1 -> n ∉ l2) -> contiguous (l1 ++ l2).
Proof.
  intros H1 H2 Hd i j k node Hj Hi Hk.
  destruct (Nat.lt_ge_cases k (length l1)) as [Hlt|Hge].
  - rewrite lookup_app_l in * by lia. by apply (H1 i j k).
  - destruct (Nat.lt_ge_cases i (length l1)) as [Hlt|Hge'].
    + exfalso. rewrite lookup_app_l in Hi by lia. rewrite lookup_app_r in Hk by lia.
      apply (Hd node); by eapply list_elem_of_lookup_2.
    + rewrite lookup_app_r in * by lia.
      apply (H2 (i - length l1)%nat (j - length l1)%nat (k - length l1)%nat); [lia|done|done].
Qed.

Lemma contiguous_const n node : contiguous (repeat node n).
Proof.
  intros i j k m Hj Hi Hk. apply list_elem_of_lookup_2, list_elem_of_In, repeat_spec in Hi as ->.
  apply lookup_lt_Some in Hk. assert (j < length (repeat node n))%nat as Hlt by lia.
  apply lookup_lt_is_Some in Hlt as [x Hx]. rewrite Hx. f_equal.
  by apply list_elem_of_lookup_2, list_elem_of_In, repeat_spec in Hx.
Qed.

(** The terms [new] of a subtree are below its node, those of a node together. *)
Definition subtree (P : list nat -> Prop) (new : program_terms) : Prop :=
  Forall P (map snd new) /\ contiguous (map snd new).

Definition appends s : Prop := forall program here program',
  append program here s = Some program' ->
  exists new, program' = program ++ new /\ subtree (below here) new.

Lemma append_children_ok l : Forall appends l -> forall here i program program',
  append_children here i l program = Some program' ->
  exists new, program' = program ++ new /\ subtree (below_from here i) new.
Proof.
  induction 1 as [|c l Hc _ IH]; intros here i program program' He; cbn in He.
  - injection He as <-. exists []. rewrite app_nil_r. split; [done|]. split; [constructor|].
    apply contiguous_nil.
  - apply bind_Some in He as (program1 & He1 & He2).
    destruct (Hc _ _ _ He1) as (new1 & -> & Hb1 & Hc1).
    destruct (IH _ _ _ _ He2) as (new2 & -> & Hb2 & Hc2).
    exists (new1 ++ new2). split; [by rewrite (assoc_L (++))|]. unfold subtree. rewrite map_app. split.
    + apply list.Forall_app. split.
      * eapply list.Forall_impl; [exact Hb1|]. intros n Hn. by exists i.
      * eapply list.Forall_impl; [exact Hb2|]. intros n (j & Hj & Hn). exists j. auto with lia.
    + apply contiguous_app; [done|done|]. intros n H1 H2.
      rewrite list.Forall_forall in Hb1, Hb2. destruct (Hb2 n) as (j & Hj & Hn); [done|].
      pose proof (below_children here i j n). apply Hb1 in H1. intuition lia.
Qed.

Lemma append_ok s : appends s.
Proof.
  induction s as [s IH] using selector_ind'. intros program here program'.
  rewrite append_equation.
  assert (forall program', append_children here 0 (children s) program = Some program' ->
    exists new, program' = program ++ new /\ subtree (below here) new) as Hchildren.
  { intros p Hp. destruct (append_children_ok _ IH _ _ _ _ Hp) as (new & -> & Hb & Hc).
    exists new. split; [done|]. split; [|done]. eapply list.Forall_impl; [exact Hb|].
    intros n (j & _ & Hj). by eapply below_child. }
  assert (forall program', (terms ← terms_of s; Some (program ++ map (fun t => (t, here)) terms))
      = Some program' -> exists new, program' = program ++ new /\ subtree (below here) new) as Hleaf.
  { intros p (terms & _ & [= <-])%bind_Some. eexists. split; [done|].
    unfold subtree. rewrite map_map. cbn. rewrite map_const. split.
    - apply list.Forall_forall. intros n ->%list_elem_of_In%repeat_spec. apply below_refl.
    - apply contiguous_const. }
  destruct (kind s); eauto.
  - intros [= <-]. exists []. rewrite app_nil_r. split; [done|]. split; [constructor|].
    apply contiguous_nil.
  - intros (p & Hp & He)%bind_Some. case_match; [|done]. injection He as <-. auto.
Qed.

(** A property of the terms of predicates is one of the terms of a program. *)
Lemma append_forall (P : lql_json_flat_eq_term -> Prop) s :
  (forall s terms, terms_of s = Some terms -> Forall P terms) -> forall program here program',
  append program here s = Some program' -> Forall (fun p => P (fst p)) program -> Forall (fun p => P (fst p)) program'.
Proof.
  intros Hleaf. induction s as [s IH] using selector_ind'. intros program here program'. rewrite append_equation.
  assert (Hchildren : forall i program program', append_children here i (children s) program = Some program' ->
    Forall (fun p => P (fst p)) program -> Forall (fun p => P (fst p)) program').
  { clear program program'. induction IH as [|c l Hc _ IHl]; intros i program program' He Hb; cbn in He; [by injection He as <-|].
    apply bind_Some in He as (p & Hp & He). eapply IHl; [exact He|]. by eapply Hc. }
  destruct (kind s); intros He Hb;
    try (apply bind_Some in He as (terms & Ht%Hleaf & [= <-]);
         apply list.Forall_app; split; [done|by apply list.Forall_fmap]).
  - by injection He as <-.
  - by eapply Hchildren.
  - by eapply Hchildren.
  - apply bind_Some in He as (p & Hp & He). case_match; [|done]. injection He as <-. by eapply Hchildren.
Qed.

(** ** Evaluation *)

Section evaluate.
Context (address : list nat -> Z).
Context (root_is_object : bool) (hit : lql_json_flat_eq_term -> bool).
Context (prog : lql_flat_eq_program) (hits : list Z).
#[local] Abbreviation matches_record := (lql_flat_eq_matches_record address prog hits root_is_object).
#[local] Abbreviation holds := (selector_holds range_double time_bounds root_is_object hit).

(** The two loops over the children. *)
Definition matches_all here : nat -> list lql_selector -> option bool :=
  fix go i l :=
    match l with
    | [] => Some true
    | c :: l => b ← matches_record (here ++ [i]) c; if (b : bool) then go (S i) l else Some false
    end.

Definition matches_some here : nat -> list lql_selector -> option bool :=
  fix go i l :=
    match l with
    | [] => Some false
    | c :: l => b ← matches_record (here ++ [i]) c; if (b : bool) then Some true else go (S i) l
    end.

Lemma matches_record_equation here s : matches_record here s =
  match kind s with
  | LQL_SELECTOR_KIND_ALL => Some true
  | LQL_SELECTOR_KIND_AND => matches_all here 0 (children s)
  | LQL_SELECTOR_KIND_OR => matches_some here 0 (children s)
  | LQL_SELECTOR_KIND_NOT =>
      match children s with
      | [c] => negb <$> matches_record (here ++ [0%nat]) c
      | _ => Some false
      end
  | k =>
      if negb root_is_object && bool_decide (k = LQL_SELECTOR_KIND_NE) then Some false
      else lql_flat_eq_matches address prog hits here s
  end.
Proof. by destruct s. Qed.

(** [whole] is the program: its index is built and the words of hits tell for each
    term, through the term that stands for it, whether it hit. *)
Context (whole : program_terms).
Hypothesis index_finds : finds address (program_index prog) (map snd whole).
Hypothesis hits_tell : forall i t n, whole !! i = Some (t, n) ->
  lql_flat_eq_hit hits (term_source prog i) = hit t.

(** The program around the terms of a subtree. *)
Definition around here (before new after : program_terms) : Prop :=
  whole = before ++ new ++ after /\
  Forall (fun n => ~ below here n) (map snd before) /\
  Forall (fun n => ~ below here n) (map snd after).

Lemma around_whole : around [] [] whole [].
Proof. split; [by rewrite app_nil_r|]. by split; constructor. Qed.

(** The answer of a predicate. *)
Definition predicate_answer here s : option bool :=
  group ← lql_flat_eq_selector_group_find address (program_index prog) here;
  let negated := bool_decide (kind s = LQL_SELECTOR_KIND_NE) in
  match group with
  | None => Some negated
  | Some group => Some (xorb negated (group_hit prog group hits))
  end.

Lemma group_hit_spec group : range_of (map snd whole) group ->
  group_hit prog group hits = true <->
  exists t, (t, group_selector group) ∈ whole /\ hit t = true.
Proof.
  intros [_ Hr]. unfold group_hit. rewrite existsb_exists. split.
  - intros (i & Hi%in_seq & Hhit). apply Hr in Hi. rewrite list_lookup_fmap_Some in Hi.
    destruct Hi as ((t & n) & He & Hi). cbn in He. subst n. exists t.
    rewrite <- (hits_tell _ _ _ Hi). split; [by eapply list_elem_of_lookup_2|done].
  - intros (t & [i Hi]%list_elem_of_lookup & Hhit). exists i.
    rewrite (hits_tell _ _ _ Hi). split; [|done]. apply in_seq, Hr.
    rewrite list_lookup_fmap_Some. by exists (t, group_selector group).
Qed.

(** The terms of a predicate are the terms of its node. *)
Lemma predicate_terms_of here before terms after t :
  around here before (map (fun t => (t, here)) terms) after -> (t, here) ∈ whole <-> t ∈ terms.
Proof.
  clear index_finds hits_tell. intros (-> & Hb & Ha). rewrite !elem_of_app. rewrite list.Forall_forall in Hb, Ha. split.
  - intros [H|[H|H]].
    + exfalso. apply (Hb here); [|apply below_refl]. apply (list_elem_of_fmap_2 snd _ _ H).
    + apply list_elem_of_fmap in H as (t' & [= ->] & H). done.
    + exfalso. apply (Ha here); [|apply below_refl]. apply (list_elem_of_fmap_2 snd _ _ H).
  - intros H. right. left. by apply (list_elem_of_fmap_2 (fun t => (t, here))).
Qed.

Lemma predicate_ok here s before terms after : terms_of s = Some terms ->
  around here before (map (fun t => (t, here)) terms) after ->
  predicate_answer here s =
  Some (xorb (bool_decide (kind s = LQL_SELECTOR_KIND_NE))
             (predicate_holds range_double time_bounds hit s)).
Proof.
  intros Ht Ha. unfold predicate_answer, predicate_holds. rewrite Ht. cbn.
  pose proof (fun t => predicate_terms_of here before terms after t Ha) as Hin.
  destruct (index_finds here) as (found & -> & Hf). cbn. destruct found as [group|].
  - destruct Hf as [He Hr]. do 2 f_equal. apply eq_true_iff_eq.
    rewrite group_hit_spec by done. rewrite He, existsb_exists.
    split; intros (t & H1 & H2); exists t; (split; [|done]).
    + by apply list_elem_of_In, Hin.
    + by apply Hin, list_elem_of_In.
  - destruct terms as [|t terms].
    + by rewrite xorb_false_r.
    + exfalso. apply Hf. apply (list_elem_of_fmap_2 snd whole (t, here)), Hin. constructor.
Qed.

Definition evaluates s : Prop := forall here before new after,
  append before here s = Some (before ++ new) -> around here before new after ->
  matches_record here s = Some (holds s).

(** The children of a node, from [i] on. *)
Definition around_from here i (before new after : program_terms) : Prop :=
  whole = before ++ new ++ after /\
  Forall (fun n => ~ below_from here i n) (map snd before) /\
  Forall (fun n => ~ below_from here i n) (map snd after).

Lemma around_children here before new after : around here before new after ->
  around_from here 0 before new after.
Proof.
  clear index_finds hits_tell. intros (-> & Hb & Ha). split; [done|].
  split; (eapply list.Forall_impl; [eassumption|]); cbn; intros n Hn (j & _ & Hj);
    apply Hn; by eapply below_child.
Qed.

(** The first child and the others. *)
Lemma around_step here i c l before new after : append_children here i (c :: l) before =
    Some (before ++ new) -> around_from here i before new after ->
  exists new1 new2,
    append before (here ++ [i]) c = Some (before ++ new1) /\
    around (here ++ [i]) before new1 (new2 ++ after) /\
    append_children here (S i) l (before ++ new1) = Some ((before ++ new1) ++ new2) /\
    around_from here (S i) (before ++ new1) new2 after.
Proof.
  cbn. intros (p & Hp & Hl)%bind_Some (Hw & Hb & Ha).
  destruct (append_ok c _ _ _ Hp) as (new1 & -> & Hb1 & _).
  assert (Forall appends l) as Hall by (apply list.Forall_forall; intros x _; apply append_ok).
  destruct (append_children_ok l Hall _ _ _ _ Hl) as (new2 & He & Hb2 & _).
  rewrite <- (assoc_L (++)) in He. apply app_inv_head in He. subst new.
  exists new1, new2. split; [done|]. split; [|split; [by rewrite Hl, (assoc_L (++))|]].
  - split; [by rewrite Hw, <- !(assoc_L (++))|]. rewrite map_app. split.
    + eapply list.Forall_impl; [exact Hb|]. cbn. intros n Hn H. apply Hn. by exists i.
    + apply list.Forall_app. split.
      * eapply list.Forall_impl; [exact Hb2|]. cbn. intros n (j & Hj & Hn) H.
        pose proof (below_children _ _ _ _ H Hn). lia.
      * eapply list.Forall_impl; [exact Ha|]. cbn. intros n Hn H. apply Hn. by exists i.
  - split; [by rewrite Hw, <- !(assoc_L (++))|]. rewrite map_app. split.
    + apply list.Forall_app. split.
      * eapply list.Forall_impl; [exact Hb|]. cbn. intros n Hn (j & Hj & H). apply Hn.
        exists j. auto with lia.
      * eapply list.Forall_impl; [exact Hb1|]. cbn. intros n Hn (j & Hj & H).
        pose proof (below_children _ _ _ _ Hn H). lia.
    + eapply list.Forall_impl; [exact Ha|]. cbn. intros n Hn (j & Hj & H). apply Hn.
      exists j. auto with lia.
Qed.

Lemma children_ok l : Forall evaluates l -> forall here i before new after,
  append_children here i l before = Some (before ++ new) -> around_from here i before new after ->
  matches_all here i l = Some (forallb holds l) /\
  matches_some here i l = Some (existsb holds l).
Proof.
  induction 1 as [|c l Hc _ IH]; intros here i before new after He Ha; [done|].
  destruct (around_step _ _ _ _ _ _ _ He Ha) as (new1 & new2 & He1 & Ha1 & He2 & Ha2).
  cbn. rewrite (Hc _ _ _ _ He1 Ha1). cbn.
  destruct (IH _ _ _ _ _ He2 Ha2) as [Hall Hsome]. by destruct (holds c).
Qed.

Lemma matches_leaf here s :
  match kind s with
  | LQL_SELECTOR_KIND_ALL | LQL_SELECTOR_KIND_AND | LQL_SELECTOR_KIND_OR
  | LQL_SELECTOR_KIND_NOT => True
  | _ => lql_flat_eq_matches address prog hits here s = predicate_answer here s
  end.
Proof. destruct s as [k]. unfold predicate_answer. cbn. by destruct k. Qed.

Lemma selector_holds_equation s : holds s =
  match kind s with
  | LQL_SELECTOR_KIND_ALL => true
  | LQL_SELECTOR_KIND_AND => forallb holds (children s)
  | LQL_SELECTOR_KIND_OR => existsb holds (children s)
  | LQL_SELECTOR_KIND_NOT => negb (existsb holds (children s))
  | LQL_SELECTOR_KIND_NE =>
      root_is_object && negb (predicate_holds range_double time_bounds hit s)
  | _ => predicate_holds range_double time_bounds hit s
  end.
Proof. by destruct s. Qed.

Lemma evaluate_ok s : evaluates s.
Proof.
  induction s as [s IH] using selector_ind'. intros here before new after.
  rewrite append_equation, matches_record_equation, selector_holds_equation. intros He Ha.
  assert (forall r, (terms ← terms_of s; Some (before ++ map (fun t => (t, here)) terms))
      = Some (before ++ new) -> r = predicate_answer here s ->
      r = Some (xorb (bool_decide (kind s = LQL_SELECTOR_KIND_NE))
                     (predicate_holds range_double time_bounds hit s))) as Hleaf.
  { intros r (terms & Ht & [= Hn%app_inv_head])%bind_Some ->. subst new. by eapply predicate_ok. }
  assert (append_children here 0 (children s) before = Some (before ++ new) ->
      matches_all here 0 (children s) = Some (forallb holds (children s)) /\
      matches_some here 0 (children s) = Some (existsb holds (children s))) as Hchildren.
  { intros Hn. eapply children_ok; [done|done|]. by apply around_children. }
  pose proof (matches_leaf here s) as Hm.
  destruct (kind s) eqn:Hk; try by (rewrite ?andb_false_r; apply Hleaf).
  - done.
  - by apply Hchildren.
  - by apply Hchildren.
  - apply bind_Some in He as (p & Hp & He). case_match; [|done]. injection He as ->.
    destruct (Hchildren Hp) as [_ Hsome]. destruct (children s) as [|c [|? ?]]; try done.
    cbn in Hsome |- *. apply bind_Some in Hsome as (b & -> & Hb). cbn. by destruct b, (holds c).
  - destruct root_is_object; [|done]. by apply Hleaf.
Qed.

(** ** The stop mask *)

Lemma leaf_stop_mask_spec selectors : forall i mask here, mask <> 0 ->
  leaf_stop_mask_loop i selectors here mask <> 0 -> leaf_stop_mask_loop i selectors here mask = mask.
Proof.
  induction selectors as [|s l IH]; intros i mask here H0 H; cbn in *; [done|].
  case_bool_decide; [|by apply IH]. by rewrite (proj2 (Z.eqb_neq _ _) H0) in H.
Qed.

Lemma bit_nonzero i : bit i <> 0.
Proof.
  unfold bit. rewrite Z.shiftl_1_l. pose proof (Z.pow_pos_nonneg 2 (Z.of_nat i)). lia.
Qed.

Lemma leaf_stop_mask_bit selectors : forall i here, leaf_stop_mask_loop i selectors here 0 <> 0 ->
  exists k, selectors !! k = Some here /\ leaf_stop_mask_loop i selectors here 0 = bit (i + k).
Proof.
  induction selectors as [|s l IH]; intros i here H; cbn in *; [done|].
  case_bool_decide as Hs.
  - subst s. exists 0%nat. split; [done|]. rewrite Nat.add_0_r.
    apply leaf_stop_mask_spec; [apply bit_nonzero|done].
  - destruct (IH _ _ H) as (k & Hk & He). exists (S k). split; [done|]. rewrite He. f_equal. lia.
Qed.

(** What holds of the places of the terms that a mask marks. *)
Definition marks (P : nat -> Prop) (mask : Z) : Prop := forall i,
  (i < length whole)%nat -> has mask i = true -> P i.

Lemma marks_lor P m m' : marks P (Z.lor m m') <-> marks P m /\ marks P m'.
Proof.
  unfold marks, has. setoid_rewrite Z.lor_spec. setoid_rewrite orb_true_iff. firstorder.
Qed.

Lemma marks_bit P i : (i < length whole)%nat -> marks P (bit i) -> P i.
Proof.
  intros Hi H. apply H; [done|]. unfold has, bit. rewrite Z.shiftl_1_l. apply Z.pow2_bits_true. lia.
Qed.

#[local] Abbreviation stop_mask := (lql_flat_eq_stop_mask prog).

(** The loop over the conjuncts. *)
Definition stop_mask_all here : nat -> list lql_selector -> Z -> Z :=
  fix go i l mask :=
    match l with
    | [] => mask
    | c :: l =>
        let child := stop_mask (here ++ [i]) c in
        if child =? 0 then 0 else go (S i) l (Z.lor mask child)
    end.

Lemma stop_mask_equation here s : stop_mask here s =
  match kind s with
  | LQL_SELECTOR_KIND_AND => stop_mask_all here 0 (children s) 0
  | k => if positive_leaf k then lql_flat_eq_leaf_stop_mask prog here else 0
  end.
Proof. by destruct s. Qed.

(** [C] of a node follows from [P] of the places that its stop mask marks. *)
Definition stops_early (P : nat -> Prop) (C : list nat -> lql_selector -> Prop) s : Prop :=
  forall here before new after,
  append before here s = Some (before ++ new) -> around here before new after ->
  stop_mask here s <> 0 -> marks P (stop_mask here s) -> C here s.

(** [C] of the children from [i] on. *)
Fixpoint each (C : list nat -> lql_selector -> Prop) here (i : nat) (l : list lql_selector) : Prop :=
  match l with
  | [] => True
  | c :: l => C (here ++ [i]) c /\ each C here (S i) l
  end.

Lemma stop_children_ok P C l : Forall (stops_early P C) l -> forall here i before new after mask,
  append_children here i l before = Some (before ++ new) -> around_from here i before new after ->
  stop_mask_all here i l mask <> 0 -> marks P (stop_mask_all here i l mask) ->
  marks P mask /\ each C here i l.
Proof.
  induction 1 as [|c l Hc _ IH]; intros here i before new after mask He Ha H0 H; [done|].
  destruct (around_step _ _ _ _ _ _ _ He Ha) as (new1 & new2 & He1 & Ha1 & He2 & Ha2).
  cbn in H0, H |- *. destruct (Z.eqb_spec (stop_mask (here ++ [i]) c) 0) as [|Hne]; [done|].
  destruct (IH _ _ _ _ _ _ He2 Ha2 H0 H) as [[Hm Hchild]%marks_lor Heach].
  split; [done|]. split; [by eapply Hc|done].
Qed.

Lemma positive_leaf_holds s : positive_leaf (kind s) = true ->
  holds s = predicate_holds range_double time_bounds hit s.
Proof. rewrite selector_holds_equation. by destruct (kind s). Qed.

Lemma positive_leaf_append before here s : positive_leaf (kind s) = true ->
  append before here s = terms ← terms_of s; Some (before ++ map (fun t => (t, here)) terms).
Proof. rewrite append_equation. by destruct (kind s). Qed.

Lemma positive_leaf_stop_mask here s : positive_leaf (kind s) = true ->
  stop_mask here s = lql_flat_eq_leaf_stop_mask prog here.
Proof. rewrite stop_mask_equation. by destruct (kind s). Qed.

Hypothesis own_selectors : program_selectors prog = map snd whole.

(** The mask of a predicate is the place of one of its terms. *)
Lemma positive_leaf_place P before new after here s : positive_leaf (kind s) = true ->
  append before here s = Some (before ++ new) -> around here before new after ->
  stop_mask here s <> 0 -> marks P (stop_mask here s) ->
  exists k t, whole !! k = Some (t, here) /\ t ∈ default [] (terms_of s) /\ P k.
Proof.
  intros Hpos He Ha. rewrite positive_leaf_append in He by done.
  apply bind_Some in He as (terms & Ht & [= Hn%app_inv_head]). subst new.
  rewrite positive_leaf_stop_mask by done. unfold lql_flat_eq_leaf_stop_mask. rewrite own_selectors. intros H0.
  destruct (leaf_stop_mask_bit _ _ _ H0) as (k & Hk & ->). intros Hhit.
  rewrite list_lookup_fmap_Some in Hk. destruct Hk as ((t & n) & He & Hk). cbn in He. subst n.
  exists k, t. split; [done|]. split.
  - rewrite Ht. apply (predicate_terms_of _ _ _ _ _ Ha). by eapply list_elem_of_lookup_2.
  - apply marks_bit; [by eapply lookup_lt_Some|done].
Qed.

Lemma each_holds here l : forall i, each (fun _ s => holds s = true) here i l -> forallb holds l = true.
Proof. induction l as [|c l IH]; intros i; [done|]. intros [Hc Hl]. cbn. by rewrite Hc, (IH _ Hl). Qed.

Lemma each_matches here l : forall i,
  each (fun here s => matches_record here s = Some true) here i l -> matches_all here i l = Some true.
Proof. induction l as [|c l IH]; intros i; [done|]. intros [Hc Hl]. cbn. rewrite Hc. by apply IH. Qed.

(** A selector whose marked terms hit holds. *)
Lemma stop_mask_ok s :
  stops_early (fun i => forall t n, whole !! i = Some (t, n) -> hit t = true) (fun _ s => holds s = true) s.
Proof.
  induction s as [s IH] using selector_ind'. intros here before new after He Ha H0 H.
  destruct (positive_leaf (kind s)) eqn:Hpos.
  - destruct (positive_leaf_place _ _ _ _ _ _ Hpos He Ha H0 H) as (k & t & Hk & Ht & Hhit).
    rewrite positive_leaf_holds by done. apply existsb_exists. exists t.
    split; [by apply list_elem_of_In|by eapply Hhit].
  - rewrite append_equation in He. rewrite selector_holds_equation. rewrite stop_mask_equation in H0, H.
    destruct (kind s); try done.
    destruct (stop_children_ok _ _ _ IH _ _ _ _ _ _ He (around_children _ _ _ _ Ha) H0 H) as [_ Heach].
    by eapply each_holds.
Qed.

(** Its evaluation over words in which the marked places hit says so. *)
Lemma stop_mask_matches s : term_sources prog = None ->
  stops_early (fun i => lql_flat_eq_hit hits i = true) (fun here s => matches_record here s = Some true) s.
Proof.
  intros own. induction s as [s IH] using selector_ind'. intros here before new after He Ha H0 H.
  destruct (positive_leaf (kind s)) eqn:Hpos.
  - destruct (positive_leaf_place _ _ _ _ _ _ Hpos He Ha H0 H) as (k & t & Hk & _ & Hhit).
    assert (predicate_answer here s = Some true) as Hp.
    { unfold predicate_answer. assert (bool_decide (kind s = LQL_SELECTOR_KIND_NE) = false) as ->
        by by destruct (kind s). destruct (index_finds here) as ([group|] & -> & Hf); cbn.
      - destruct Hf as [He' [_ Hr]]. f_equal. apply existsb_exists. exists k.
        unfold term_source. rewrite own. split; [|done]. apply in_seq, Hr.
        apply list_lookup_fmap_Some. exists (t, here). by rewrite He'.
      - exfalso. apply Hf. apply (list_elem_of_fmap_2 snd whole (t, here)). by eapply list_elem_of_lookup_2. }
    rewrite matches_record_equation. pose proof (matches_leaf here s) as Hm.
    destruct (kind s) eqn:Ek; try done; rewrite andb_false_r; congruence.
  - rewrite append_equation in He. rewrite matches_record_equation. rewrite stop_mask_equation in H0, H.
    destruct (kind s); try done.
    destruct (stop_children_ok _ _ _ IH _ _ _ _ _ _ He (around_children _ _ _ _ Ha) H0 H) as [_ Heach].
    by apply each_matches.
Qed.
End evaluate.
End compile.

(** ** The size of a program *)

Section size.
Context (range_double : lql_selector -> bound_key -> spec_float).
Context (time_bounds : option lql_flat_eq_time_bounds).

(** The terms a predicate may need. *)
Definition leaf_term_count (s : lql_selector) : nat :=
  match kind s with
  | LQL_SELECTOR_KIND_IN => length (any s)
  | LQL_SELECTOR_KIND_CONTAINS | LQL_SELECTOR_KIND_ICONTAINS => Nat.max 1 (length (any s))
  | _ => 1
  end.

(** The loop over the children. *)
Definition count_children : list lql_selector -> Z -> option Z :=
  fix go l count :=
    match l with
    | [] => Some count
    | c :: l =>
        n ← lql_flat_eq_selector_term_count c;
        if SIZE_MAX - count <? n then None else go l (count + n)
    end.

Lemma term_count_equation s : lql_flat_eq_selector_term_count s =
  match kind s with
  | LQL_SELECTOR_KIND_ALL => Some 0
  | LQL_SELECTOR_KIND_AND | LQL_SELECTOR_KIND_OR | LQL_SELECTOR_KIND_NOT =>
      count_children (children s) 0
  | _ => Some (Z.of_nat (leaf_term_count s))
  end.
Proof.
  destruct s as [k ? ? ? ? ? ? ? ? any_ ]. unfold leaf_term_count. cbn.
  destruct k; try done; by destruct any_.
Qed.

Lemma contains_terms_length s path m ignore_case terms :
  lql_flat_eq_append_contains s path m ignore_case = Some terms ->
  length terms = Nat.max 1 (length (any s)).
Proof.
  unfold lql_flat_eq_append_contains. case_match.
  - intros [= <-]. destruct (any s); [done|]. done.
  - intros (values & Hv & Hm)%bind_Some. rewrite <- (length_mapM _ _ _ Hm).
    unfold contains_values in Hv. destruct (any s) as [|a l] eqn:Ha.
    + case_match; [|done]. apply bind_Some in Hv as (v & _ & [= <-]). done.
    + case_match; [|done]. injection Hv as <-. cbn. by rewrite length_map.
Qed.

Lemma predicate_terms_length s terms :
  predicate_terms range_double time_bounds s = Some terms -> length terms = leaf_term_count s.
Proof.
  unfold predicate_terms, leaf_term_count. intros (path & _ & H)%bind_Some.
  destruct (kind s); try discriminate H;
    repeat match goal with
    | H : _ ≫= _ = Some _ |- _ => apply bind_Some in H as (? & ? & H)
    | H : (if _ then None else _) = Some _ |- _ => case_match; [discriminate H|]
    | H : Some _ = Some _ |- _ => injection H as <-
    end; rewrite ?length_map; try done; by eapply contains_terms_length.
Qed.

(** What a selector appends is what it counts. *)
Definition counted (s : lql_selector) : Prop := forall program here program' n,
  lql_flat_eq_append range_double time_bounds program here s = Some program' ->
  lql_flat_eq_selector_term_count s = Some n ->
  Z.of_nat (length program') = Z.of_nat (length program) + n.

Lemma children_counted l : Forall counted l -> forall here i program program' count n,
  append_children range_double time_bounds here i l program = Some program' ->
  count_children l count = Some n ->
  Z.of_nat (length program') = Z.of_nat (length program) + (n - count).
Proof.
  induction 1 as [|c l Hc _ IH]; intros here i program program' count n He Hn; cbn in He, Hn.
  - injection He as <-. injection Hn as <-. lia.
  - apply bind_Some in He as (p & Hp & He). apply bind_Some in Hn as (m & Hm & Hn).
    case_match; [done|]. pose proof (Hc _ _ _ _ Hp Hm). pose proof (IH _ _ _ _ _ _ He Hn). lia.
Qed.

Lemma all_counted s : counted s.
Proof.
  induction s as [s IH] using selector_ind'. intros program here program' n.
  rewrite append_equation, term_count_equation.
  assert (forall terms, predicate_terms range_double time_bounds s = Some terms ->
    Z.of_nat (length (program ++ map (fun t => (t, here)) terms)) =
    Z.of_nat (length program) + Z.of_nat (leaf_term_count s)) as Hleaf.
  { intros terms Ht%predicate_terms_length. rewrite length_app, length_map. lia. }
  pose proof (children_counted _ IH here 0%nat program program' 0 n) as Hchildren.
  destruct (kind s); intros He Hn;
    try (apply bind_Some in He as (terms & Ht & [= <-]); injection Hn as <-; by apply Hleaf).
  - injection He as <-. injection Hn as <-. lia.
  - rewrite Hchildren by done. lia.
  - rewrite Hchildren by done. lia.
  - apply bind_Some in He as (p & Hp & He). case_match; [|done]. injection He as <-.
    rewrite Hchildren by done. lia.
Qed.
End size.

(** ** Shared terms *)

Lemma find_equivalent_spec term scan_terms : forall i,
  match find_equivalent i term scan_terms with
  | Some source => exists k t, source = (i + k)%nat /\ scan_terms !! k = Some t /\
      lql_flat_eq_scan_term_equivalent term t = true
  | None => Forall (fun t => lql_flat_eq_scan_term_equivalent term t = false) scan_terms
  end.
Proof.
  induction scan_terms as [|t l IH]; intros i; cbn; [constructor|].
  destruct (lql_flat_eq_scan_term_equivalent term t) eqn:He.
  - exists 0%nat, t. split; [lia|done].
  - specialize (IH (S i)). case_match.
    + destruct IH as (k & t' & -> & Hk & Ht). exists (S k), t'. split; [lia|done].
    + by constructor.
Qed.

(** No term of the list is equivalent to one before it. *)
Definition distinct (scan_terms : list lql_json_flat_eq_term) : Prop := forall i j t u,
  (i < j)%nat -> scan_terms !! i = Some t -> scan_terms !! j = Some u ->
  lql_flat_eq_scan_term_equivalent u t = false.

Lemma distinct_snoc l t : distinct l ->
  Forall (fun u => lql_flat_eq_scan_term_equivalent t u = false) l -> distinct (l ++ [t]).
Proof.
  intros Hd Hall i j a b Hlt Hi Hj. assert (i < length l)%nat as Hil.
  { apply lookup_lt_Some in Hj. rewrite length_app in Hj. cbn in Hj. lia. }
  rewrite lookup_app_l in Hi by done. apply lookup_app_Some in Hj as [Hj|[_ Hj]].
  - by apply (Hd i j).
  - apply list_lookup_singleton_Some in Hj as [_ <-]. rewrite list.Forall_forall in Hall.
    apply Hall. by eapply list_elem_of_lookup_2.
Qed.

(** The scan terms stand for the terms. *)
Definition stands (terms scan_terms : list lql_json_flat_eq_term) (sources : list nat) : Prop :=
  Forall2 (fun t source => exists u, scan_terms !! source = Some u /\
    (t = u \/ lql_flat_eq_scan_term_equivalent t u = true)) terms sources.

Lemma build_scan_terms_spec more : forall terms scan_terms sources scan_terms' sources',
  build_scan_terms more scan_terms sources = (scan_terms', sources') ->
  stands terms scan_terms sources -> distinct scan_terms ->
  stands (terms ++ more) scan_terms' sources' /\ distinct scan_terms'.
Proof.
  induction more as [|t more IH]; intros terms scan_terms sources scan_terms' sources' He Hs Hd;
    cbn in He.
  - injection He as <- <-. by rewrite app_nil_r.
  - rewrite (assoc_L (++) terms [t] more : terms ++ t :: more = _).
    pose proof (find_equivalent_spec t scan_terms 0) as Hf. case_match.
    + destruct Hf as (k & u & -> & Hk & Hu). eapply IH; [exact He| |done].
      apply Forall2_app; [done|]. constructor; [|constructor]. eauto.
    + eapply IH; [exact He| |by apply distinct_snoc]. apply Forall2_app.
      * eapply list.Forall2_impl; [exact Hs|]. cbn. intros a b (u & Hu & Hab). exists u.
        split; [by apply lookup_app_l_Some|done].
      * constructor; [|constructor]. exists t. split; [by apply list_lookup_middle|by left].
Qed.

(** A scan term is a term. *)
Lemma scan_terms_within more : forall scan_terms sources scan_terms' sources',
  build_scan_terms more scan_terms sources = (scan_terms', sources') ->
  forall u, u ∈ scan_terms' -> u ∈ more \/ u ∈ scan_terms.
Proof.
  induction more as [|t more IH]; intros scan_terms sources scan_terms' sources' He u Hu; cbn in He.
  - injection He as <- <-. by right.
  - case_match; destruct (IH _ _ _ _ He u Hu) as [H1|H1]; (try by left; apply list_elem_of_further); [by right|].
    apply elem_of_app in H1 as [?|H1]; [by right|]. apply list_elem_of_singleton in H1 as ->. left. apply list_elem_of_here.
Qed.

(** *** Equivalent terms of a program *)

(** The kinds whose terms are never shared: they have more than a value. *)
Definition own_kinds : list lql_json_flat_term_kind :=
  [LQL_JSON_FLAT_TERM_NUMBER_RANGE; LQL_JSON_FLAT_TERM_TEMPORAL_RANGE; LQL_JSON_FLAT_TERM_CONTAINS;
   LQL_JSON_FLAT_TERM_ICONTAINS; LQL_JSON_FLAT_TERM_IPREFIX].

Lemma range_like_own k : range_like k = true <-> k ∈ own_kinds.
Proof. rewrite <- (bool_decide_eq_true (k ∈ own_kinds)). by destruct k. Qed.

(** A term as the compiler makes it: its masks are those of its path and a term of a
    kind that is shared has nothing but its value. *)
Definition canonical (t : lql_json_flat_eq_term) : Prop :=
  exists kind value range temporal temporal_eq failure path m,
    t = path_term kind value range temporal temporal_eq failure path m /\
    lql_flat_eq_literal_object_path path = Some m /\
    (kind ∉ own_kinds -> range = no_range /\ temporal = no_temporal /\ temporal_eq = None /\ failure = None).

Lemma path_term_fields kind value range temporal teq failure path m :
  let t := path_term kind value range temporal teq failure path m in
  term_kind t = kind /\ term_value t = value /\ term_path t = Some path.
Proof. unfold path_term. by destruct (lql_flat_eq_cache_array_indexes _ _). Qed.

Lemma canonical_equivalent t u : canonical t -> canonical u -> lql_flat_eq_scan_term_equivalent t u = true -> t = u.
Proof.
  intros (k & v & r & tm & te & f & p & m & -> & Hm & Hk) (k' & v' & r' & tm' & te' & f' & p' & m' & -> & Hm' & Hk').
  unfold lql_flat_eq_scan_term_equivalent.
  destruct (path_term_fields k v r tm te f p m) as (-> & -> & ->).
  destruct (path_term_fields k' v' r' tm' te' f' p' m') as (-> & -> & ->).
  rewrite !andb_true_iff. intros [[[[[[[[[[E1 E2] _] _] _] _] _] _] _] E3] E4].
  apply bool_decide_eq_true in E1 as <-. apply bytes_eqb_eq in E3, E4. change (p = p') in E3. subst p' v'.
  assert (k ∉ own_kinds) as Hn by (rewrite <- range_like_own; by destruct (range_like k)).
  destruct (Hk Hn) as (-> & -> & -> & ->), (Hk' Hn) as (-> & -> & -> & ->). rewrite Hm in Hm'. by injection Hm' as <-.
Qed.

Lemma equivalent_refl t : term_kind t ∉ own_kinds -> lql_flat_eq_scan_term_equivalent t t = true.
Proof.
  rewrite <- range_like_own. intros H. unfold lql_flat_eq_scan_term_equivalent.
  rewrite bool_decide_eq_true_2 by done. destruct (range_like (term_kind t)); [by destruct H|].
  rewrite Nat.eqb_refl, !Z.eqb_refl, !(proj2 (bytes_eqb_eq _ _)) by done. done.
Qed.

Lemma value_term_canonical kind value path m : lql_flat_eq_literal_object_path path = Some m ->
  canonical (value_term kind value path m).
Proof. intros Hm. by eexists kind, value, no_range, no_temporal, None, None, path, m. Qed.

Lemma own_canonical kind value range temporal teq failure path m : lql_flat_eq_literal_object_path path = Some m ->
  kind ∈ own_kinds -> canonical (path_term kind value range temporal teq failure path m).
Proof. intros Hm Hk. by eexists kind, value, range, temporal, teq, failure, path, m. Qed.

Lemma contains_canonical ignore_case value path m t : lql_flat_eq_literal_object_path path = Some m ->
  contains_term ignore_case value path m = Some t -> canonical t.
Proof.
  unfold contains_term. intros Hm (v & _ & (failure & _ & [= <-])%bind_Some)%bind_Some.
  apply own_canonical; [done|]. apply range_like_own. by destruct ignore_case.
Qed.

Lemma append_contains_canonical s path m ignore_case terms : lql_flat_eq_literal_object_path path = Some m ->
  lql_flat_eq_append_contains s path m ignore_case = Some terms -> Forall canonical terms.
Proof.
  intros Hm. unfold lql_flat_eq_append_contains. case_match.
  - intros [= <-]. constructor; [by apply value_term_canonical|constructor].
  - intros (values & _ & Ht%mapM_Some)%bind_Some.
    induction Ht as [|v t values terms Hv _ IH]; constructor; [by eapply contains_canonical|done].
Qed.

Lemma leaf_canonical s path m t : lql_flat_eq_literal_object_path path = Some m ->
  leaf_term s path m = Some t -> canonical t.
Proof.
  intros Hm. unfold leaf_term. cbv zeta.
  assert (Hterm : forall v, canonical (path_term (leaf_term_kind s) v no_range no_temporal
    (if is_equality (kind s) && value_is_temporal s then temporal_eq s else None) None path m)).
  { intros v. eexists _, _, _, _, _, _, _, _. split; [done|]. split; [exact Hm|]. intros Hn. split_and!; try done.
    destruct (is_equality (kind s) && value_is_temporal s) eqn:E; [|done]. destruct Hn. apply range_like_own.
    apply andb_true_iff in E as [E1 E2]. unfold leaf_term_kind. rewrite E2. by destruct (kind s). }
  intros H. repeat match goal with
  | H : _ ≫= _ = Some _ |- _ => apply bind_Some in H as (? & ? & H)
  | H : (if _ then _ else _) = Some _ |- _ => case_match; try discriminate H
  | H : Some _ = Some _ |- _ => injection H as <-
  end; try apply Hterm. by apply value_term_canonical.
Qed.

Lemma predicate_canonical range_double time_bounds s terms :
  predicate_terms range_double time_bounds s = Some terms -> Forall canonical terms.
Proof.
  unfold predicate_terms. intros (path & _ & H)%bind_Some.
  destruct (kind s); try discriminate H;
    repeat match goal with
    | H : _ ≫= _ = Some _ |- _ => apply bind_Some in H as (? & ? & H)
    | H : (if _ then None else _) = Some _ |- _ => case_match; [discriminate H|]
    | H : Some _ = Some _ |- _ => injection H as <-
    end; try (constructor; [|constructor]); try by eapply leaf_canonical.
  - by eapply append_contains_canonical.
  - by eapply append_contains_canonical.
  - apply own_canonical; [done|]. apply range_like_own. by destruct (range_is_temporal s).
  - apply own_canonical; [done|]. by apply range_like_own.
  - apply list.Forall_fmap, list.Forall_true. intros a. by apply value_term_canonical.
Qed.

(** ** The theorems *)

(** C6. Whatever the addresses of its nodes, a selector that compiles to terms gets
    an index, and its evaluation over words of hits that tell, for each term,
    whether it hit ends with the boolean reading of the selector. *)
Theorem program_evaluates range_double time_bounds address s program :
  lql_flat_eq_append range_double time_bounds [] [] s = Some program ->
  exists index,
    lql_flat_eq_program_build_selector_index address (map snd program) = Some index /\
    forall sources root_is_object hit hits,
      let prog := mk_program index sources (map snd program) in
      (forall i t n, program !! i = Some (t, n) ->
        lql_flat_eq_hit hits (term_source prog i) = hit t) ->
      lql_flat_eq_matches_record address prog hits root_is_object [] s =
        Some (selector_holds range_double time_bounds root_is_object hit s).
Proof.
  intros He. destruct (append_ok _ _ s _ _ _ He) as (new & Hnew & _ & Hc). cbn in Hnew. subst new.
  destruct (build_index_finds address _ Hc) as (index & Hb & Hf).
  exists index. split; [done|]. intros sources root hit hits prog Hhits.
  eapply (evaluate_ok _ _ _ _ _ _ _ program); [done|done|exact He|apply around_whole].
Qed.

(** C8. A selector is decided early only when it holds: when all bits of its stop mask
    are hits of a program that scans its own terms, the boolean reading of the
    selector is true, whatever the other terms are. *)
Theorem stop_mask_settles range_double time_bounds address s program index root_is_object hit hits :
  lql_flat_eq_append range_double time_bounds [] [] s = Some program ->
  lql_flat_eq_program_build_selector_index address (map snd program) = Some index ->
  let prog := mk_program index None (map snd program) in
  (forall i t n, program !! i = Some (t, n) -> lql_flat_eq_hit [hits] i = hit t) ->
  lql_flat_eq_stop_mask prog [] s <> 0 ->
  (length program <= LQL_FLAT_EQ_TERM_CAPACITY)%nat ->
  Z.land hits (lql_flat_eq_stop_mask prog [] s) = lql_flat_eq_stop_mask prog [] s ->
  selector_holds range_double time_bounds root_is_object hit s = true.
Proof.
  intros He Hb prog Hhits H0 Hlen Hmask.
  destruct (append_ok _ _ s _ _ _ He) as (new & Hnew & _ & Hc). cbn in Hnew. subst new.
  destruct (build_index_finds address _ Hc) as (index' & Hb' & Hf).
  rewrite Hb in Hb'. injection Hb' as <-.
  eapply (stop_mask_ok range_double time_bounds) with (whole := program) (prog := prog);
    [done|exact He|apply around_whole|done|].
  - intros i Hi Hbit t n Ht. rewrite <- (Hhits _ _ _ Ht). unfold lql_flat_eq_hit.
    rewrite Nat.div_small, Nat.mod_small by lia. cbn. rewrite <- Hmask in Hbit.
    unfold has in *. rewrite Z.land_spec in Hbit. by apply andb_true_iff in Hbit as [].
Qed.

(** C10. The terms of a selector that are scanned: the scan term that stands for a
    term of the program is that very term, so the hits of the scan terms tell the hits
    of all terms, whatever a hit is; and a term is scanned twice only if it is a
    range, a substring search or a case-insensitive prefix. *)
Theorem scan_terms_stand range_double time_bounds s program scan_terms sources :
  lql_flat_eq_append range_double time_bounds [] [] s = Some program ->
  lql_flat_eq_program_build_scan_terms (map fst program) = (scan_terms, sources) ->
  (forall i t, map fst program !! i = Some t -> scan_terms !! nth i sources 0%nat = Some t) /\
  (forall i j t, scan_terms !! i = Some t -> scan_terms !! j = Some t -> i <> j -> term_kind t ∈ own_kinds) /\
  (forall hit hits, (forall i t, scan_terms !! i = Some t -> lql_flat_eq_hit hits i = hit t) ->
    forall i t, map fst program !! i = Some t -> lql_flat_eq_hit hits (nth i sources 0%nat) = hit t).
Proof.
  intros Happ He.
  assert (Hc : Forall canonical (map fst program)).
  { apply list.Forall_fmap. by eapply append_forall; [apply predicate_canonical|exact Happ|]. }
  destruct (build_scan_terms_spec (map fst program) [] [] [] _ _ He) as [Hs Hd]; [constructor|..].
  { intros i j t u _ H. by rewrite lookup_nil in H. }
  cbn [app] in Hs. pose proof (scan_terms_within (map fst program) [] [] _ _ He) as Hin.
  assert (H1 : forall i t, map fst program !! i = Some t -> scan_terms !! nth i sources 0%nat = Some t).
  { intros i t Ht. destruct (Forall2_lookup_l _ _ _ _ _ Hs Ht) as (source & Hsource & u & Hu & Heq).
    rewrite (nth_lookup_Some _ _ _ _ Hsource), Hu. f_equal. destruct Heq as [->|Heq]; [done|]. symmetry.
    rewrite list.Forall_forall in Hc. apply canonical_equivalent; [|..|done]; apply Hc; [by eapply list_elem_of_lookup_2|].
    destruct (Hin u) as [H|H]; [by eapply list_elem_of_lookup_2|done|by apply not_elem_of_nil in H]. }
  split; [exact H1|]. split; [|intros hit hits Hh i t Ht; by apply Hh, H1].
  intros i j t Hi Hj Hne. apply dec_stable. intros Hk%equivalent_refl.
  destruct (Nat.lt_total i j) as [Hlt|[?|Hlt]]; [|done|];
    [by rewrite (Hd i j t t Hlt Hi Hj) in Hk|by rewrite (Hd j i t t Hlt Hj Hi) in Hk].
Qed.

(** C7. The terms of a selector fill the array allocated for them and no more:
    [lql_flat_eq_append] writes exactly as many terms as
    [lql_flat_eq_selector_term_count] announced, without testing a bound. *)
Theorem append_fills_capacity range_double time_bounds s program n :
  lql_flat_eq_append range_double time_bounds [] [] s = Some program ->
  lql_flat_eq_selector_term_count s = Some n -> Z.of_nat (length program) = n.
Proof. intros He Hn. by rewrite (all_counted _ _ _ _ _ _ _ He Hn). Qed.

(** ** Concrete inputs *)

(** [/a="x"] and not a record with [/b], with all nodes at one address. *)
Definition leaf_selector (k : lql_selector_kind) (path value : string) : lql_selector :=
  with_value (with_field (selector_zero k) (Some (bs path))) (Some (bs value)) true
    LQL_SELECTOR_LITERAL_STRING.

Definition a_without_b : lql_selector :=
  with_children (selector_zero LQL_SELECTOR_KIND_AND)
    [leaf_selector LQL_SELECTOR_KIND_EQ "/a" "x";
     with_children (selector_zero LQL_SELECTOR_KIND_NOT)
       [leaf_selector LQL_SELECTOR_KIND_EXISTS "/b" ""]].

(** [/a="x"] and [/b]. *)
Definition a_and_b : lql_selector :=
  with_children (selector_zero LQL_SELECTOR_KIND_AND)
    [leaf_selector LQL_SELECTOR_KIND_EQ "/a" "x"; leaf_selector LQL_SELECTOR_KIND_EXISTS "/b" ""].

Definition no_double (_ : lql_selector) (_ : bound_key) : spec_float := S754_zero false.

(** Compiled. *)
Definition compiled (s : lql_selector) : program_terms :=
  default [] (lql_flat_eq_append no_double None [] [] s).

(** The terms of field [a] hit. *)
Definition hit_a (t : lql_json_flat_eq_term) : bool := bytes_eqb (term_field t) (bs "a").

Lemma program_evaluates_witness :
  exists index,
    lql_flat_eq_program_build_selector_index (fun _ => 0) (map snd (compiled a_without_b)) = Some index /\
    lql_flat_eq_matches_record (fun _ => 0)
      (mk_program index None (map snd (compiled a_without_b))) [1] true [] a_without_b =
      Some (selector_holds no_double None true hit_a a_without_b) /\
    selector_holds no_double None true hit_a a_without_b = true.
Proof.
  destruct (program_evaluates no_double None (fun _ => 0) a_without_b (compiled a_without_b))
    as (index & Hb & H); [reflexivity|].
  exists index. split; [exact Hb|]. split; [|reflexivity].
  apply (H None true hit_a [1]). intros [|[|i]] t n Ht; [injection Ht as <- <-; reflexivity..|].
  discriminate Ht.
Defined.

Lemma stop_mask_settles_witness :
  selector_holds no_double None true (fun _ => true) a_and_b = true.
Proof.
  eapply (stop_mask_settles no_double None (fun _ => 0) a_and_b (compiled a_and_b) _ true _ 3).
  - reflexivity.
  - reflexivity.
  - intros [|[|i]] t n Ht; [reflexivity..|discriminate Ht].
  - vm_compute. discriminate.
  - vm_compute. lia.
  - reflexivity.
Defined.

(** A term twice and another. *)
(** [/a="x"] twice and [/b]: two terms are scanned. *)
Definition a_twice : lql_selector :=
  with_children (selector_zero LQL_SELECTOR_KIND_OR) [a_and_b; leaf_selector LQL_SELECTOR_KIND_EQ "/a" "x"].

Lemma scan_terms_stand_witness :
  let terms := map fst (compiled a_twice) in
  let '(scan_terms, sources) := lql_flat_eq_program_build_scan_terms terms in
  sources = [0; 1; 0]%nat /\ length scan_terms = 2%nat /\
  forall i t, terms !! i = Some t -> scan_terms !! nth i sources 0%nat = Some t.
Proof.
  intros terms. destruct (lql_flat_eq_program_build_scan_terms terms) as [scan_terms sources] eqn:He.
  pose proof He as E. vm_compute in E. injection E as E1 E2. split; [by rewrite <- E2|].
  split; [by rewrite <- E1|]. clear E1 E2.
  apply (scan_terms_stand no_double None a_twice (compiled a_twice) scan_terms sources); [reflexivity|exact He].
Defined.

Lemma append_fills_capacity_witness : Z.of_nat (length (compiled a_without_b)) = 2.
Proof.
  apply (append_fills_capacity no_double None a_without_b (compiled a_without_b) 2);
    vm_compute; reflexivity.
Defined.
