(* ===== verification/JsonTree.v ===== *)
(** * The values that JSON texts denote

    The grammar of [JsonGrammar] with the value each text stands for: the decoded
    characters of strings, the text of numbers, the members of objects in their
    order, repeated keys included.  The meaning of a scanner term on such a value:
    what its path reaches and the test of its kind.  The grammar is unambiguous: a
    text has at most one value, and its compact text has the same. *)

From S2P Require Import Prelude.
From S2P Require Import Number.
From S2P Require Import NumberSpec.
From S2P Require Import Unicode.
From S2P Require Import UnicodeProps.
From S2P Require Import SelectorJsonProps.
From S2P Require Import ScanTerm.
From S2P Require Import FlatProgram.
From S2P Require Import JsonGrammar.

(** ** Strings *)

(** What a two-character escape stands for. *)
Definition escape_pairs : list (Z * Z) :=
  [(ch_quote, ch_quote); (ch_backslash, ch_backslash); (ch_slash, ch_slash);
   (98, 8); (ch_f, 12); (110, 10); (114, 13); (116, 9)].

(** The code point of a surrogate pair. *)
Definition paired (high low : Z) : Z := 0x10000 + (high - 0xd800) * 0x400 + (low - 0xdc00).

(** [chars_text b t]: the characters [b] between quotes denote the UTF-8 text [t]. *)
Inductive chars_text : bytes -> bytes -> Prop :=
| text_nil : chars_text [] []
| text_scalar c b t : scalar c -> 0x20 <= c -> c <> ch_quote -> c <> ch_backslash ->
    chars_text b t -> chars_text (utf8_arith c ++ b) (utf8_arith c ++ t)
| text_escape c x b t : In (c, x) escape_pairs ->
    chars_text b t -> chars_text (ch_backslash :: c :: b) (x :: t)
| text_unicode h v b t : hex4_text h v -> ~ high_surrogate v -> ~ low_surrogate v ->
    chars_text b t -> chars_text (ch_backslash :: ch_u :: h ++ b) (utf8_arith v ++ t)
| text_pair h v h' v' b t : hex4_text h v -> high_surrogate v -> hex4_text h' v' ->
    low_surrogate v' -> chars_text b t ->
    chars_text (ch_backslash :: ch_u :: h ++ ch_backslash :: ch_u :: h' ++ b)
      (utf8_arith (paired v v') ++ t).

Definition quoted (b : bytes) : bytes := ch_quote :: b ++ [ch_quote].

(** ** Values *)

(** [json_of w v]: the text [w] denotes [v].  [members_of w ms] and [elements_of w
    vs] are what follows the opening byte and its spaces when the container is not
    empty. *)
Inductive json_of : bytes -> json -> Prop :=
| of_string b t : chars_text b t -> json_of (quoted b) (JString t)
| of_bool (x : bool) : json_of (bs (if x then "true" else "false")) (JBool x)
| of_null : json_of (bs "null") JNull
| of_number w : is_number w -> json_of w (JNumber w)
| of_empty_object sp : spaces sp -> json_of (ch_lbrace :: sp ++ [ch_rbrace]) (JObject [])
| of_object sp w ms : spaces sp -> members_of w ms -> json_of (ch_lbrace :: sp ++ w) (JObject ms)
| of_empty_array sp : spaces sp -> json_of (ch_lbracket :: sp ++ [ch_rbracket]) (JArray [])
| of_array sp w vs : spaces sp -> elements_of w vs -> json_of (ch_lbracket :: sp ++ w) (JArray vs)
with members_of : bytes -> list (bytes * json) -> Prop :=
| of_last_member w k v : member_of w k v -> members_of (w ++ [ch_rbrace]) [(k, v)]
| of_member w k v sp w' ms : member_of w k v -> spaces sp -> members_of w' ms ->
    members_of (w ++ ch_comma :: sp ++ w') ((k, v) :: ms)
with member_of : bytes -> bytes -> json -> Prop :=
| of_key b k sp1 sp2 w v sp3 : chars_text b k -> spaces sp1 -> spaces sp2 -> json_of w v ->
    spaces sp3 -> member_of (quoted b ++ sp1 ++ ch_colon :: sp2 ++ w ++ sp3) k v
with elements_of : bytes -> list json -> Prop :=
| of_last_element w v sp : json_of w v -> spaces sp -> elements_of (w ++ sp ++ [ch_rbracket]) [v]
| of_element w v sp sp' w' vs : json_of w v -> spaces sp -> spaces sp' -> elements_of w' vs ->
    elements_of (w ++ sp ++ ch_comma :: sp' ++ w') (v :: vs).

#[export] Hint Constructors chars_text json_of members_of member_of elements_of : json.

(** ** What a term asks of a value *)

(** The text that the textual predicates see: that of a string, of a number or of
    a boolean. *)
Definition text_of (v : json) : option bytes :=
  match v with
  | JString t => Some t
  | JNumber w => Some w
  | JBool x => Some (bs (if x then "true" else "false"))
  | _ => None
  end.

Definition is_null (v : json) : bool := match v with JNull => true | _ => false end.

(** [t] occurs in [s]. *)
Fixpoint occurs (t s : bytes) : bool :=
  has_prefix t s || match s with [] => false | _ :: s => occurs t s end.

(** The test of the kinds of terms that compare bytes. *)
Definition term_test (term : lql_json_flat_eq_term) (v : json) : bool :=
  match term_kind term with
  | LQL_JSON_FLAT_TERM_EXISTS => negb (is_null v)
  | LQL_JSON_FLAT_TERM_VALUELESS_PRESENT => true
  | LQL_JSON_FLAT_TERM_EQ | LQL_JSON_FLAT_TERM_TEXT_EQ =>
      match v with JString t => bytes_eqb (term_value term) t | _ => false end
  | LQL_JSON_FLAT_TERM_BOOL_EQ =>
      match v with
      | JBool x => bytes_eqb (term_value term) (bs (if x then "true" else "false"))
      | _ => false
      end
  | LQL_JSON_FLAT_TERM_NULL_EQ => is_null v && bytes_eqb (term_value term) (bs "null")
  | LQL_JSON_FLAT_TERM_PREFIX =>
      match text_of v with Some t => has_prefix (term_value term) t | None => false end
  | LQL_JSON_FLAT_TERM_CONTAINS =>
      match text_of v with Some t => occurs (term_value term) t | None => false end
  | _ => false
  end.

(** Some value that the segments reach passes the test; a repeated key reaches each
    of its values. *)
Fixpoint reached (test : json -> bool) (segments : list bytes) (v : json) : bool :=
  match segments with
  | [] => test v
  | segment :: segments =>
      match v with
      | JObject ms =>
          existsb (fun m => bytes_eqb segment (fst m) && reached test segments (snd m)) ms
      | _ => false
      end
  end.

(** The segments of a path after its slash. *)
Definition path_segments (path : bytes) : list bytes := split_slash (tail path).

(** The term holds of the root value of a record. *)
Definition term_holds (term : lql_json_flat_eq_term) (v : json) : bool :=
  reached (term_test term) (path_segments (default [] (term_path term))) v.

(** ** Facts about the values of JSON texts

    Every text of the grammar denotes a value, and its first byte tells what kind
    of value that is. *)

(** *** Texts denote values *)

Lemma chars_denote b : json_chars b -> exists t, chars_text b t.
Proof.
  induction 1 as [|c b H1 H2 H3 H4 _ [t IH]|c b Hc _ [t IH]|h v b H1 H2 H3 _ [t IH]|
    h v h' v' b H1 H2 H3 H4 _ [t IH]]; [eexists; by constructor| |..].
  - exists (utf8_arith c ++ t). by constructor.
  - assert (exists x, In (c, x) escape_pairs) as [x Hx].
    { cbn in Hc. repeat (destruct Hc as [<-|Hc]; [eexists; vm_compute; eauto 10|]). done. }
    exists (x :: t). by constructor.
  - exists (utf8_arith v ++ t). by constructor.
  - exists (utf8_arith (paired v v') ++ t). by eapply text_pair.
Qed.

Lemma string_denotes w : json_string w -> exists b t, w = quoted b /\ chars_text b t.
Proof. intros (b & -> & Hb). destruct (chars_denote b Hb) as [t Ht]. by exists b, t. Qed.

Lemma json_denotes :
  (forall n w c, json_value n w c -> exists v, json_of w v) /\
  (forall n w c, json_members n w c -> exists ms, members_of w ms) /\
  (forall n w c, json_member n w c -> exists k v, member_of w k v) /\
  (forall n w c, json_elements n w c -> exists vs, elements_of w vs).
Proof.
  apply json_mutind; intros;
    repeat match goal with H : exists _, _ |- _ => destruct H as [? H] end; eauto with json.
  - destruct (string_denotes w H) as (b & t & -> & Ht). eauto with json.
  - destruct H as [<-|[<-|[<-|[]]]].
    + exists (JBool true). apply (of_bool true).
    + exists (JBool false). apply (of_bool false).
    + exists JNull. apply of_null.
  - destruct (string_denotes k H) as (b & t & -> & Ht). eauto with json.
Qed.

(** *** The first byte *)

Definition first_byte (v : json) (c : Z) : Prop :=
  match v with
  | JObject _ => c = ch_lbrace
  | JArray _ => c = ch_lbracket
  | JString _ => c = ch_quote
  | JBool x => c = if x then 116 else ch_f
  | JNull => c = 110
  | JNumber _ => c = ch_minus \/ is_digit c = true
  end.

Lemma number_text_first w : is_number w -> exists c r, w = c :: r /\ (c = ch_minus \/ is_digit c = true).
Proof.
  intros (m & e & neg & i & f & fd & x & v & -> & [Hd Hi] & _). destruct neg.
  - eexists _, _. split; [reflexivity|by left].
  - destruct i as [|c i]; [done|]. exists c, (i ++ f ++ x). split; [done|right]. by apply Forall_inv in Hd.
Qed.

Lemma json_first w v : json_of w v -> exists c r, w = c :: r /\ first_byte v c.
Proof.
  destruct 1 as [b t _|x| |w Hw|sp _|sp w ms _ _|sp _|sp w vs _ _]; try (eexists _, _; by split).
  - destruct x; by eexists _, _.
  - by apply number_text_first.
Qed.

(** ** Strings *)

Lemma utf8_prefix c c' b b' : scalar c -> scalar c' -> utf8_arith c ++ b = utf8_arith c' ++ b' ->
  c = c' /\ b = b'.
Proof.
  intros Hc Hc' E. apply (f_equal lql_unicode_utf8_decode) in E.
  rewrite !decode_arith in E by done. by injection E as -> ->.
Qed.

Lemma utf8_head c : scalar c -> 0x20 <= c -> c <> ch_quote -> c <> ch_backslash ->
  exists x r, utf8_arith c = x :: r /\ x <> ch_quote /\ x <> ch_backslash.
Proof.
  intros [H _] H1 H2 H3. unfold utf8_arith. repeat case_if; bool_hyps; eexists _, _; split; try done.
  all: split; zdivs.
Qed.

(** A character between quotes. *)
Inductive char_text : bytes -> bytes -> Prop :=
| char_scalar c : scalar c -> 0x20 <= c -> c <> ch_quote -> c <> ch_backslash ->
    char_text (utf8_arith c) (utf8_arith c)
| char_escape c x : In (c, x) escape_pairs -> char_text [ch_backslash; c] [x]
| char_unicode h v : hex4_text h v -> ~ high_surrogate v -> ~ low_surrogate v ->
    char_text (ch_backslash :: ch_u :: h) (utf8_arith v)
| char_pair h v h' v' : hex4_text h v -> high_surrogate v -> hex4_text h' v' -> low_surrogate v' ->
    char_text (ch_backslash :: ch_u :: h ++ ch_backslash :: ch_u :: h') (utf8_arith (paired v v')).

Lemma chars_cases b t : chars_text b t -> b = [] /\ t = [] \/
  exists u x b1 t1, b = u ++ b1 /\ t = x ++ t1 /\ char_text u x /\ chars_text b1 t1.
Proof.
  destruct 1; [by left|right..].
  - eexists _, _, _, _. split; [reflexivity|]. split; [reflexivity|]. split; [by constructor|done].
  - exists [ch_backslash; c], [x], b, t. by repeat (split; [done || by constructor|]).
  - exists (ch_backslash :: ch_u :: h), (utf8_arith v), b, t. by repeat (split; [done || by constructor|]).
  - exists (ch_backslash :: ch_u :: h ++ ch_backslash :: ch_u :: h'), (utf8_arith (paired v v')), b, t.
    split; [cbn; by rewrite <- (assoc_L (++))|]. split; [done|]. split; [by econstructor|done].
Qed.

Lemma char_head u x : char_text u x -> exists c r, u = c :: r /\ c <> ch_quote.
Proof.
  destruct 1; [|eexists _, _; by split..].
  destruct (utf8_head c) as (y & r & -> & Hq & _); [done..|]. by exists y, r.
Qed.

(** The hexadecimal digits are determined. *)
Lemma hex_digit_unique c v v' : hex_digit c v -> hex_digit c v' -> v = v'.
Proof. unfold hex_digit. lia. Qed.

Lemma hex4_prefix h v h' v' y y' : hex4_text h v -> hex4_text h' v' -> h ++ y = h' ++ y' ->
  h = h' /\ v = v' /\ y = y'.
Proof.
  intros (c1 & c2 & c3 & c4 & v1 & v2 & v3 & v4 & -> & H1 & H2 & H3 & H4 & ->)
    (d1 & d2 & d3 & d4 & w1 & w2 & w3 & w4 & -> & K1 & K2 & K3 & K4 & ->) [= <- <- <- <- <-].
  pose proof (hex_digit_unique _ _ _ H1 K1) as ->. pose proof (hex_digit_unique _ _ _ H2 K2) as ->.
  pose proof (hex_digit_unique _ _ _ H3 K3) as ->. by pose proof (hex_digit_unique _ _ _ H4 K4) as ->.
Qed.

Lemma escape_unique c x x' : In (c, x) escape_pairs -> In (c, x') escape_pairs -> x = x'.
Proof.
  cbn. intros H K. repeat (destruct H as [H|H];
    [injection H as <- <-; repeat (destruct K as [K|K]; [by simplify_eq|]); done|]). done.
Qed.

Lemma escape_not_u x : ~ In (ch_u, x) escape_pairs.
Proof. cbn. intros H. by repeat (destruct H as [[= ]|H]). Qed.

(** A text starts with at most one character. *)
Lemma char_prefix u x u' x' y y' : char_text u x -> char_text u' x' -> u ++ y = u' ++ y' ->
  u = u' /\ x = x' /\ y = y'.
Proof.
  assert (forall c z z', scalar c -> 0x20 <= c -> c <> ch_quote -> c <> ch_backslash ->
    utf8_arith c ++ z <> ch_backslash :: z') as Hscalar.
  { intros c z z' H1 H2 H3 H4 E. destruct (utf8_head c H1 H2 H3 H4) as (a & r & Ea & _ & Hb).
    rewrite Ea in E. by injection E. }
  destruct 1 as [c H1 H2 H3 H4|c z Hz|h v Hh Hn Hl|h v h2 v2 Hh Hhigh Hh2 Hlow];
    destruct 1 as [c' K1 K2 K3 K4|c' z' Kz|k w Kh Kn Kl|k w k2 w2 Kh Khigh Kh2 Klow]; intros E.
  1: destruct (utf8_prefix _ _ _ _ H1 K1 E) as [-> ->]; done.
  1,2,3: by apply Hscalar in E.
  1,5,9: symmetry in E; by apply Hscalar in E.
  - injection E as -> ->. by rewrite (escape_unique _ _ _ Hz Kz).
  - injection E as -> _. by apply escape_not_u in Hz.
  - injection E as -> _. by apply escape_not_u in Hz.
  - injection E as <- _. by apply escape_not_u in Kz.
  - injection E as E. by destruct (hex4_prefix _ _ _ _ _ _ Hh Kh E) as (-> & -> & ->).
  - injection E as E. rewrite <- (assoc_L (++)) in E. by destruct (hex4_prefix _ _ _ _ _ _ Hh Kh E) as (_ & -> & _).
  - injection E as <- _. by apply escape_not_u in Kz.
  - injection E as E. rewrite <- (assoc_L (++)) in E. by destruct (hex4_prefix _ _ _ _ _ _ Hh Kh E) as (_ & -> & _).
  - injection E as E. rewrite <- !(assoc_L (++)) in E.
    destruct (hex4_prefix _ _ _ _ _ _ Hh Kh E) as (-> & -> & E2). injection E2 as E2.
    by destruct (hex4_prefix _ _ _ _ _ _ Hh2 Kh2 E2) as (-> & -> & ->).
Qed.

Lemma chars_unique b t : chars_text b t -> forall b' t' r r', chars_text b' t' ->
  b ++ ch_quote :: r = b' ++ ch_quote :: r' -> b = b' /\ t = t' /\ r = r'.
Proof.
  remember (length b) as n eqn:En. revert b t En. induction n as [n IH] using lt_wf_ind.
  intros b t -> Hb b' t' r r' Hb' E.
  destruct (chars_cases _ _ Hb) as [[-> ->]|(u & x & b1 & t1 & -> & -> & Hu & Hb1)];
    destruct (chars_cases _ _ Hb') as [[-> ->]|(u' & x' & b1' & t1' & -> & -> & Hu' & Hb1')].
  - by injection E as ->.
  - destruct (char_head _ _ Hu') as (c & z & -> & Hc). injection E as E _. congruence.
  - destruct (char_head _ _ Hu) as (c & z & -> & Hc). injection E as E _. congruence.
  - rewrite <- !(assoc_L (++)) in E. destruct (char_prefix _ _ _ _ _ _ Hu Hu' E) as (-> & -> & E1).
    destruct (char_head _ _ Hu') as (c & z & -> & _).
    destruct (IH (length b1)) with (b := b1) (t := t1) (b' := b1') (t' := t1') (r := r) (r' := r')
      as (-> & -> & ->); try done. rewrite length_app. cbn. lia.
Qed.

(** ** What delimits a value *)

(** The bytes of a number. *)
Definition number_byte (c : Z) : bool :=
  is_digit c || (c =? ch_minus) || (c =? ch_plus) || (c =? ch_dot) || (c =? ch_e) || (c =? ch_E).

(** The text [r] does not go on with a number. *)
Definition outside (r : bytes) : Prop := match r with [] => True | c :: _ => number_byte c = false end.

(** The text [r] starts with a byte that ends a member or an element. *)
Definition token (r : bytes) : Prop :=
  exists c t, r = c :: t /\ In c [ch_comma; ch_rbrace; ch_rbracket; ch_colon].

(** The text [r] does not start with a space. *)
Definition tight (r : bytes) : Prop := exists c t, r = c :: t /\ ~ space c.

Lemma token_tight r : token r -> tight r.
Proof. intros (c & t & -> & H). exists c, t. split; [done|]. cbn in *. intuition congruence. Qed.

Lemma outside_spaces sp r : spaces sp -> token r -> outside (sp ++ r).
Proof.
  intros Hsp (c & t & -> & H). destruct Hsp as [|x sp Hx _]; cbn; [|];
    cbn in *; unfold number_byte, is_digit; intuition (subst; reflexivity).
Qed.

Lemma spaces_prefix sp sp' x x' : spaces sp -> spaces sp' -> tight x -> tight x' ->
  sp ++ x = sp' ++ x' -> sp = sp' /\ x = x'.
Proof.
  intros Hsp. revert sp'. induction Hsp as [|c sp Hc _ IH]; intros sp' Hsp' Hx Hx' E.
  - destruct Hsp' as [|c' sp' Hc' _]; [done|]. destruct Hx as (y & z & -> & Hy). by injection E as -> _.
  - destruct Hsp' as [|c' sp' Hc' Hsp'].
    + destruct Hx' as (y & z & -> & Hy). by injection E as -> _.
    + injection E as -> E. by destruct (IH sp' Hsp' Hx Hx' E) as [-> ->].
Qed.

Lemma digits_bytes l : all_digits l -> Forall (fun c => number_byte c = true) l.
Proof. intros H. eapply list.Forall_impl; [exact H|]. intros c Hc. cbn in Hc. unfold number_byte. by rewrite Hc. Qed.

Lemma number_bytes w : is_number w -> Forall (fun c => number_byte c = true) w.
Proof.
  intros (m & e & neg & i & f & fd & x & v & -> & [Hi _] & Hf & Hx & _).
  repeat apply list.Forall_app_2.
  - destruct neg; by repeat constructor.
  - by apply digits_bytes.
  - destruct Hf as [[-> _]|(-> & _ & Hd)]; [constructor|]. constructor; [done|by apply digits_bytes].
  - destruct Hx as [[-> _]|(c & s & ed & -> & Hc & _ & Hd & Hs)]; [constructor|].
    constructor; [by destruct Hc as [-> | ->]|]. apply list.Forall_app_2; [|by apply digits_bytes].
    destruct Hs as [[[-> | ->] _]|[-> _]]; by repeat constructor.
Qed.

Lemma number_prefix w w' r r' : is_number w -> is_number w' -> outside r -> outside r' ->
  w ++ r = w' ++ r' -> w = w'.
Proof.
  intros Hw%number_bytes Hw'%number_bytes Hr Hr' E. revert w' Hw' E.
  induction Hw as [|c w Hc _ IH]; intros w' Hw' E; destruct Hw' as [|c' w' Hc' Hw']; [done|..].
  - cbn in E. subst r. cbn in Hr. congruence.
  - cbn in E. subst r'. cbn in Hr'. congruence.
  - injection E as -> E. f_equal. by apply IH.
Qed.

(** ** Values *)

Scheme json_of_mind := Minimality for json_of Sort Prop
  with members_of_mind := Minimality for members_of Sort Prop
  with member_of_mind := Minimality for member_of Sort Prop
  with elements_of_mind := Minimality for elements_of Sort Prop.
Combined Scheme json_of_mutind from json_of_mind, members_of_mind, member_of_mind, elements_of_mind.

(** The kind of a value, the two booleans apart. *)
Definition json_kind (v : json) : nat :=
  match v with
  | JObject _ => 0 | JArray _ => 1 | JString _ => 2 | JBool true => 3 | JBool false => 4
  | JNull => 5 | JNumber _ => 6
  end.

Lemma first_byte_kind v v' c : first_byte v c -> first_byte v' c -> json_kind v = json_kind v'.
Proof.
  assert (forall x, (x = ch_minus \/ is_digit x = true) -> x = ch_minus \/ 48 <= x <= 57) as Hd.
  { intros x [->|H]; [by left|right]. unfold is_digit in H. lia. }
  destruct v as [|[]| | | |], v' as [|[]| | | |]; cbn; intros H H';
    first [reflexivity|subst; discriminate|apply Hd in H; subst; lia|apply Hd in H'; subst; lia|idtac].
Qed.

Lemma same_kind w v w' v' r r' : json_of w v -> json_of w' v' -> w ++ r = w' ++ r' ->
  json_kind v = json_kind v'.
Proof.
  intros (c & z & -> & Hc)%json_first (c' & z' & -> & Hc')%json_first [= -> _]. by eapply first_byte_kind.
Qed.

Lemma json_tight w v r : json_of w v -> tight (w ++ r).
Proof.
  intros (c & z & -> & Hc)%json_first. exists c, (z ++ r). split; [done|].
  destruct v as [|[]| | | |]; cbn in *; intros H; repeat (destruct H as [<-|H]); try done; by destruct Hc.
Qed.

Lemma member_head w k v : member_of w k v -> exists z, w = ch_quote :: z.
Proof. destruct 1. by eexists. Qed.

Lemma members_head w ms : members_of w ms -> exists z, w = ch_quote :: z.
Proof. destruct 1 as [w k v H|w k v sp w' ms H _ _]; destruct (member_head _ _ _ H) as [z ->]; by eexists. Qed.

Lemma elements_tight w vs r : elements_of w vs -> tight (w ++ r).
Proof. destruct 1 as [w v sp H _|w v sp sp' w' vs H _ _ _]; rewrite <- (assoc_L (++)); by eapply json_tight. Qed.

Lemma head_tight c r : ~ space c -> tight (c :: r).
Proof. intros H. by exists c, r. Qed.

Lemma token_intro c r : In c [ch_comma; ch_rbrace; ch_rbracket; ch_colon] -> token (c :: r).
Proof. intros H. by exists c, r. Qed.

Definition unique_value (w : bytes) (v : json) : Prop := forall w' v' r r', json_of w' v' ->
  outside r -> outside r' -> w ++ r = w' ++ r' -> w = w' /\ v = v'.
Definition unique_members (w : bytes) (ms : list (bytes * json)) : Prop := forall w' ms' r r',
  members_of w' ms' -> w ++ r = w' ++ r' -> w = w' /\ ms = ms'.
Definition unique_member (w k : bytes) (v : json) : Prop := forall w' k' v' r r', member_of w' k' v' ->
  token r -> token r' -> w ++ r = w' ++ r' -> w = w' /\ k = k' /\ v = v'.
Definition unique_elements (w : bytes) (vs : list json) : Prop := forall w' vs' r r',
  elements_of w' vs' -> w ++ r = w' ++ r' -> w = w' /\ vs = vs'.

Lemma quoted_unique b t b' t' r r' : chars_text b t -> chars_text b' t' ->
  quoted b ++ r = quoted b' ++ r' -> b = b' /\ t = t' /\ r = r'.
Proof.
  intros Hb Hb' E. unfold quoted in E. injection E as E. rewrite <- !(assoc_L (++)) in E.
  by apply (chars_unique b t Hb b' t' r r' Hb').
Qed.

(** A value of one piece. *)
Lemma unique_scalar w v w' v' r r' : json_of w v -> json_of w' v' ->
  match v with JObject _ | JArray _ => False | _ => True end -> outside r -> outside r' ->
  w ++ r = w' ++ r' -> w = w' /\ v = v'.
Proof.
  intros H H' Hv Hr Hr' E. pose proof (same_kind _ _ _ _ _ _ H H' E) as Hk.
  destruct v as [|[]|n|t| |]; try done; destruct v' as [|[]|n'|t'| |]; try done;
    inversion H; subst; inversion H'; subst; try (by split).
  - assert (n = n') as -> by (eapply (number_prefix n n' r r'); done). by split.
  - edestruct (quoted_unique b t b0 t' r r') as (-> & -> & _); done.
Qed.

(** What follows the brace of an object and its spaces. *)
Definition object_rest (x : bytes) (ms : list (bytes * json)) : Prop :=
  x = [ch_rbrace] /\ ms = [] \/ members_of x ms.
Definition array_rest (x : bytes) (vs : list json) : Prop :=
  x = [ch_rbracket] /\ vs = [] \/ elements_of x vs.

Lemma object_inv w ms : json_of w (JObject ms) ->
  exists sp x, w = ch_lbrace :: sp ++ x /\ spaces sp /\ object_rest x ms.
Proof. inversion 1; subst; eexists _, _; (split; [reflexivity|]); (split; [done|]); [by left|by right]. Qed.

Lemma array_inv w vs : json_of w (JArray vs) ->
  exists sp x, w = ch_lbracket :: sp ++ x /\ spaces sp /\ array_rest x vs.
Proof. inversion 1; subst; eexists _, _; (split; [reflexivity|]); (split; [done|]); [by left|by right]. Qed.

Lemma object_rest_tight x ms r : object_rest x ms -> tight (x ++ r).
Proof.
  intros [[-> _]|(z & ->)%members_head]; apply head_tight; cbn; intros H; by repeat (destruct H as [H|H]).
Qed.

Lemma array_rest_tight x vs r : array_rest x vs -> tight (x ++ r).
Proof.
  intros [[-> _]|H]; [|by eapply elements_tight]. apply head_tight. cbn. intros H. by repeat (destruct H as [H|H]).
Qed.

Lemma elements_head w vs r r' : elements_of w vs -> w ++ r <> ch_rbracket :: r'.
Proof.
  intros H E. assert (exists w0 v0 z, w = w0 ++ z /\ json_of w0 v0) as (w0 & v0 & z & -> & Hj).
  { destruct H as [w v sp Hj _|w v sp sp' w' vs Hj _ _ _]; eauto. }
  apply json_first in Hj as (c & y & -> & Hc). injection E as -> _.
  destruct v0 as [|[]| | | |]; cbn in Hc; try done. by destruct Hc.
Qed.

Lemma unique_object sp x ms w' v' r r' : spaces sp -> object_rest x ms ->
  (members_of x ms -> unique_members x ms) -> json_of (ch_lbrace :: sp ++ x) (JObject ms) ->
  json_of w' v' -> (ch_lbrace :: sp ++ x) ++ r = w' ++ r' -> ch_lbrace :: sp ++ x = w' /\ JObject ms = v'.
Proof.
  intros Hsp Hx Hu H H' E. pose proof (same_kind _ _ _ _ _ _ H H' E) as Hk.
  destruct v' as [|[]| | | |ms']; try done. destruct (object_inv _ _ H') as (sp' & x' & -> & Hsp' & Hx').
  injection E as E. rewrite <- !(assoc_L (++)) in E.
  destruct (spaces_prefix sp sp' (x ++ r) (x' ++ r')) as [-> E'];
    [done|done|by eapply object_rest_tight|by eapply object_rest_tight|done|].
  destruct Hx as [[-> ->]|Hm], Hx' as [[-> ->]|Hm'].
  - done.
  - destruct (members_head _ _ Hm') as [z ->]. discriminate E'.
  - destruct (members_head _ _ Hm) as [z ->]. discriminate E'.
  - by destruct (Hu Hm _ _ _ _ Hm' E') as [-> ->].
Qed.

Lemma unique_array sp x vs w' v' r r' : spaces sp -> array_rest x vs ->
  (elements_of x vs -> unique_elements x vs) -> json_of (ch_lbracket :: sp ++ x) (JArray vs) ->
  json_of w' v' -> (ch_lbracket :: sp ++ x) ++ r = w' ++ r' -> ch_lbracket :: sp ++ x = w' /\ JArray vs = v'.
Proof.
  intros Hsp Hx Hu H H' E. pose proof (same_kind _ _ _ _ _ _ H H' E) as Hk.
  destruct v' as [|[]| | |vs'|]; try done. destruct (array_inv _ _ H') as (sp' & x' & -> & Hsp' & Hx').
  injection E as E. rewrite <- !(assoc_L (++)) in E.
  destruct (spaces_prefix sp sp' (x ++ r) (x' ++ r')) as [-> E'];
    [done|done|by eapply array_rest_tight|by eapply array_rest_tight|done|].
  destruct Hx as [[-> ->]|Hm], Hx' as [[-> ->]|Hm'].
  - done.
  - symmetry in E'. by apply (elements_head _ _ _ _ Hm') in E'.
  - by apply (elements_head _ _ _ _ Hm) in E'.
  - by destruct (Hu Hm _ _ _ _ Hm' E') as [-> ->].
Qed.

(** What follows the first member, and the first element with its spaces. *)
Definition members_tail (P : bytes -> list (bytes * json) -> Prop) z ms : Prop :=
  z = [ch_rbrace] /\ ms = [] \/ exists sp w, z = ch_comma :: sp ++ w /\ spaces sp /\ P w ms.
Definition elements_tail (P : bytes -> list json -> Prop) z vs : Prop :=
  z = [ch_rbracket] /\ vs = [] \/ exists sp w, z = ch_comma :: sp ++ w /\ spaces sp /\ P w vs.

Lemma members_inv w ms : members_of w ms -> exists w1 k v z ms', w = w1 ++ z /\ ms = (k, v) :: ms' /\
  member_of w1 k v /\ members_tail members_of z ms'.
Proof.
  destruct 1 as [w k v H|w k v sp w' ms H Hsp H']; exists w, k, v; eexists _, _;
    (split; [reflexivity|]); (split; [reflexivity|]); (split; [done|]); [by left|right; eauto].
Qed.

Lemma elements_inv w vs : elements_of w vs -> exists w1 v sp z vs', w = w1 ++ sp ++ z /\ vs = v :: vs' /\
  json_of w1 v /\ spaces sp /\ elements_tail elements_of z vs'.
Proof.
  destruct 1 as [w v sp H Hsp|w v sp sp' w' vs H Hsp Hsp' H']; exists w, v, sp; eexists _, _;
    (split; [reflexivity|]); (split; [reflexivity|]); (split; [done|]); (split; [done|]); [by left|right; eauto].
Qed.

Lemma members_tail_token P z ms r : members_tail P z ms -> token (z ++ r).
Proof. intros [[-> _]|(sp & w & -> & _)]; apply token_intro; cbn; auto. Qed.

Lemma elements_tail_token P z vs r : elements_tail P z vs -> token (z ++ r).
Proof. intros [[-> _]|(sp & w & -> & _)]; apply token_intro; cbn; auto. Qed.

Lemma unique_members_tail z ms z' ms' r r' :
  members_tail (fun w ms => members_of w ms /\ unique_members w ms) z ms -> members_tail members_of z' ms' ->
  z ++ r = z' ++ r' -> z = z' /\ ms = ms'.
Proof.
  intros [[-> ->]|(sp & w & -> & Hsp & Hm & Hu)] [[-> ->]|(sp' & w' & -> & Hsp' & Hm')] E; try done.
  injection E as E. rewrite <- !(assoc_L (++)) in E.
  destruct (spaces_prefix sp sp' (w ++ r) (w' ++ r')) as [-> E'];
    [done|done|eapply object_rest_tight; by right|eapply object_rest_tight; by right|done|].
  by destruct (Hu _ _ _ _ Hm' E') as [-> ->].
Qed.

Lemma unique_elements_tail z vs z' vs' r r' :
  elements_tail (fun w vs => elements_of w vs /\ unique_elements w vs) z vs -> elements_tail elements_of z' vs' ->
  z ++ r = z' ++ r' -> z = z' /\ vs = vs'.
Proof.
  intros [[-> ->]|(sp & w & -> & Hsp & Hm & Hu)] [[-> ->]|(sp' & w' & -> & Hsp' & Hm')] E; try done.
  injection E as E. rewrite <- !(assoc_L (++)) in E.
  destruct (spaces_prefix sp sp' (w ++ r) (w' ++ r')) as [-> E'];
    [done|done|by eapply elements_tight|by eapply elements_tight|done|].
  by destruct (Hu _ _ _ _ Hm' E') as [-> ->].
Qed.

Lemma unique_members_step w k v z ms : unique_member w k v ->
  members_tail (fun w ms => members_of w ms /\ unique_members w ms) z ms ->
  unique_members (w ++ z) ((k, v) :: ms).
Proof.
  intros Hu Hz w' ms' r r' (w1 & k1 & v1 & z1 & ms1 & -> & -> & Hm & Hz1)%members_inv E.
  rewrite <- !(assoc_L (++)) in E.
  destruct (Hu _ _ _ _ _ Hm (members_tail_token _ _ _ _ Hz) (members_tail_token _ _ _ _ Hz1) E) as (-> & -> & ->).
  apply app_inv_head in E. by destruct (unique_members_tail _ _ _ _ _ _ Hz Hz1 E) as [-> ->].
Qed.

Lemma unique_elements_step w v sp z vs : unique_value w v -> spaces sp ->
  elements_tail (fun w vs => elements_of w vs /\ unique_elements w vs) z vs ->
  unique_elements (w ++ sp ++ z) (v :: vs).
Proof.
  intros Hu Hsp Hz w' vs' r r' (w1 & v1 & sp1 & z1 & vs1 & -> & -> & Hm & Hsp1 & Hz1)%elements_inv E.
  rewrite <- !(assoc_L (++)) in E.
  destruct (Hu _ _ _ _ Hm (outside_spaces _ _ Hsp (elements_tail_token _ _ _ _ Hz))
    (outside_spaces _ _ Hsp1 (elements_tail_token _ _ _ _ Hz1)) E) as (-> & ->).
  apply app_inv_head in E.
  destruct (spaces_prefix sp sp1 (z ++ r) (z1 ++ r')) as [-> E'];
    [done|done|by eapply token_tight, elements_tail_token|by eapply token_tight, elements_tail_token|done|].
  by destruct (unique_elements_tail _ _ _ _ _ _ Hz Hz1 E') as [-> ->].
Qed.

Lemma unique_member_key b k sp1 sp2 w v sp3 : chars_text b k -> spaces sp1 -> spaces sp2 -> json_of w v ->
  unique_value w v -> spaces sp3 -> unique_member (quoted b ++ sp1 ++ ch_colon :: sp2 ++ w ++ sp3) k v.
Proof.
  intros Hb H1 H2 Hw Hu H3 w' k' v' r r' H' Hr Hr' E.
  destruct H' as [b' k' sp1' sp2' w' v' sp3' Hb' H1' H2' Hw' H3'].
  repeat (rewrite <- ?(assoc_L (++)) in E; cbn [app] in E).
  destruct (quoted_unique _ _ _ _ _ _ Hb Hb' E) as (-> & -> & E1).
  assert (forall y, tight (ch_colon :: y)) as Hcolon.
  { intros y. apply token_tight, token_intro. cbn. auto. }
  destruct (spaces_prefix _ _ _ _ H1 H1' (Hcolon _) (Hcolon _) E1) as [-> E2]. injection E2 as E2.
  destruct (spaces_prefix _ _ _ _ H2 H2' (json_tight _ _ _ Hw) (json_tight _ _ _ Hw') E2) as [-> E3].
  destruct (Hu _ _ _ _ Hw' (outside_spaces _ _ H3 Hr) (outside_spaces _ _ H3' Hr') E3) as [-> ->].
  apply app_inv_head in E3.
  by destruct (spaces_prefix _ _ _ _ H3 H3' (token_tight _ Hr) (token_tight _ Hr') E3) as [-> _].
Qed.

Lemma json_unique_all :
  (forall w v, json_of w v -> unique_value w v) /\
  (forall w ms, members_of w ms -> unique_members w ms) /\
  (forall w k v, member_of w k v -> unique_member w k v) /\
  (forall w vs, elements_of w vs -> unique_elements w vs).
Proof.
  apply json_of_mutind; intros.
  1,2,3,4: intros w' v' r r' H' Hr Hr' E; eapply unique_scalar; [|exact H'|done|exact Hr|exact Hr'|exact E];
    by constructor.
  - intros w' v' r r' H' _ _ E. eapply unique_object; [done|by left| |by constructor|exact H'|exact E].
    intros Hm. by inversion Hm as [w0 k0 v0 H0 E0|]; destruct w0.
  - intros w' v' r r' H' _ _ E. eapply unique_object; [done|by right|done|by constructor|exact H'|exact E].
  - intros w' v' r r' H' _ _ E. eapply unique_array; [done|by left| |by constructor|exact H'|exact E].
    intros Hm. by inversion Hm as [w0 v0 sp0 H0 Hs0 E0|].
  - intros w' v' r r' H' _ _ E. eapply unique_array; [done|by right|done|by constructor|exact H'|exact E].
  - apply unique_members_step; [done|by left].
  - apply unique_members_step; [done|right; eauto 6].
  - by apply unique_member_key.
  - apply unique_elements_step; [done|done|by left].
  - apply unique_elements_step; [done|done|right; eauto 6].
Qed.

(** The value of a text is determined. *)
Lemma json_of_unique w v v' : json_of w v -> json_of w v' -> v = v'.
Proof. intros H H'. by apply (proj1 json_unique_all w v H w v' [] [] H'). Qed.

(** ** Compact texts *)

(** The compact text denotes what the text denotes. *)
Lemma compact_denotes_all :
  (forall n w c, json_value n w c -> exists v, json_of w v /\ json_of c v) /\
  (forall n w c, json_members n w c -> exists ms, members_of w ms /\ members_of c ms) /\
  (forall n w c, json_member n w c -> exists k v, member_of w k v /\ member_of c k v) /\
  (forall n w c, json_elements n w c -> exists vs, elements_of w vs /\ elements_of c vs).
Proof.
  apply json_mutind; intros;
    repeat match goal with H : exists _, _ |- _ => destruct H as [? H] | H : _ /\ _ |- _ => destruct H end.
  - destruct (string_denotes w H) as (b & t & -> & Ht). eauto with json.
  - destruct H as [<-|[<-|[<-|[]]]].
    + exists (JBool true). split; apply (of_bool true).
    + exists (JBool false). split; apply (of_bool false).
    + exists JNull. split; apply of_null.
  - eauto with json.
  - exists (JObject []). split; [by constructor|]. by apply (of_empty_object []).
  - eexists. split; [by apply of_object|]. by apply (of_object []).
  - exists (JArray []). split; [by constructor|]. by apply (of_empty_array []).
  - eexists. split; [by apply of_array|]. by apply (of_array []).
  - eexists. split; by constructor.
  - eexists. split; [by apply of_member|]. by apply (of_member _ _ _ []).
  - destruct (string_denotes k H) as (b & t & -> & Ht). eexists _, _. split; [by apply of_key|].
    rewrite <- (app_nil_r c). by apply (of_key b t [] [] c _ []).
  - eexists. split; [by apply of_last_element|]. by apply (of_last_element _ _ []).
  - eexists. split; [by apply of_element|]. by apply (of_element _ _ [] []).
Qed.

Lemma compact_denotes n w c v : json_value n w c -> json_of w v -> json_of c v.
Proof.
  intros H Hv. destruct (proj1 compact_denotes_all _ _ _ H) as (v' & Hw & Hc).
  by rewrite (json_of_unique _ _ _ Hv Hw).
Qed.
