(* ===== verification/ScanFeed.v ===== *)
(** * Masks and loops over the terms

    Bits of the masks of the scanner, and loops whose round [i] touches only what
    belongs to term [i].  Then what feeding a text to the matcher is. *)

From S2P Require Import Prelude.
From S2P Require Import ScanTerm.
From S2P Require Import ScanState.
From S2P Require Import ScanInput.
From S2P Require Import ScanMatch.
From S2P Require Import JsonScan.
From S2P Require Import ScanContains.

(** ** Bits *)

Lemma has_0 i : has 0 i = false.
Proof. apply Z.bits_0. Qed.

Lemma has_lor a b i : has (Z.lor a b) i = has a i || has b i.
Proof. apply Z.lor_spec. Qed.

Lemma has_land a b i : has (Z.land a b) i = has a i && has b i.
Proof. apply Z.land_spec. Qed.

Lemma has_ldiff a b i : has (Z.ldiff a b) i = has a i && negb (has b i).
Proof. apply Z.ldiff_spec. Qed.

Lemma has_bit i j : has (bit i) j = (i =? j)%nat.
Proof.
  unfold has, bit. rewrite Z.shiftl_1_l. destruct (Nat.eqb_spec i j) as [->|Hn].
  - apply Z.pow2_bits_true. lia.
  - apply Z.pow2_bits_false. lia.
Qed.

Lemma has_mask_from {A} (p : nat -> A -> bool) (l : list A) : forall i j,
  has (mask_from i p l) j = (i <=? j)%nat && match l !! (j - i)%nat with Some x => p j x | None => false end.
Proof.
  induction l as [|x l IH]; intros i j; cbn [mask_from].
  - by rewrite has_0, lookup_nil, andb_false_r.
  - rewrite has_lor, IH. destruct (Nat.eq_dec i j) as [->|Hn].
    + rewrite (proj2 (Nat.leb_gt (S j) j)) by lia. rewrite Nat.sub_diag, Nat.leb_refl, orb_false_r.
      cbn. destruct (p j x); [by rewrite has_bit, Nat.eqb_refl|apply has_0].
    + replace (has (if p i x then bit i else 0) j) with false.
      2:{ destruct (p i x); [|by rewrite has_0]. by rewrite has_bit, (proj2 (Nat.eqb_neq i j) Hn). }
      destruct (Nat.leb_spec i j).
      * rewrite (proj2 (Nat.leb_le (S i) j)) by lia. by replace (j - i)%nat with (S (j - S i)) by lia.
      * by rewrite (proj2 (Nat.leb_gt (S i) j)) by lia.
Qed.

Lemma has_mask_of {A} (p : nat -> A -> bool) (l : list A) i :
  has (mask_of p l) i = match l !! i with Some x => p i x | None => false end.
Proof. unfold mask_of. by rewrite has_mask_from, Nat.sub_0_r. Qed.

Lemma mask_of_nonneg {A} (p : nat -> A -> bool) (l : list A) : 0 <= mask_of p l.
Proof.
  unfold mask_of. generalize 0%nat. induction l as [|x l IH]; intros i; cbn; [lia|].
  apply Z.lor_nonneg. split; [|apply IH]. destruct (p i x); [|lia].
  unfold bit. rewrite Z.shiftl_1_l. apply Z.pow_nonneg. lia.
Qed.

Lemma mask_of_none {A} (p : nat -> A -> bool) (l : list A) :
  (forall i x, l !! i = Some x -> p i x = false) -> mask_of p l = 0.
Proof.
  intros H. apply Z.bits_inj. intros n. rewrite Z.bits_0. destruct (Z.neg_nonneg_cases n).
  - by apply Z.testbit_neg_r.
  - pose proof (has_mask_of p l (Z.to_nat n)) as Hh. unfold has in Hh. rewrite Z2Nat.id in Hh by lia.
    rewrite Hh. destruct (l !! Z.to_nat n) eqn:E; [by apply H|done].
Qed.

Lemma is_empty_has mask i : is_empty mask = true -> has mask i = false.
Proof. unfold is_empty. intros ->%Z.eqb_eq. apply has_0. Qed.

#[export] Hint Rewrite @has_0 @has_lor @has_land @has_ldiff @has_bit @has_mask_of : has.

(** ** Loops *)

(** What all rounds keep. *)
Lemma each_keeps {T A} (R : relation A) `{!PreOrder R} (f : nat -> T -> A -> A) (l : list T) :
  (forall i x a, l !! i = Some x -> R a (f i x a)) -> forall a, R a (each f l a).
Proof.
  unfold each. intros H. assert (forall k a, (forall i x a, l !! i = Some x -> R a (f (k + i)%nat x a)) ->
    R a (each_from k f l a)) as K; [|by intros; apply K].
  clear H. induction l as [|x l IH]; intros k a H; cbn; [reflexivity|]. etrans.
  - specialize (H 0%nat x a eq_refl). by rewrite Nat.add_0_r in H.
  - apply IH. intros i y b Hy. specialize (H (S i) y b Hy). by rewrite Nat.add_succ_r in H.
Qed.

Lemma try_each_keeps {T A} (R : relation A) `{!PreOrder R} (f : nat -> T -> A -> option A) (l : list T) :
  (forall i x a a', f i x a = Some a' -> R a a') -> forall a a', try_each f l a = Some a' -> R a a'.
Proof.
  unfold try_each. intros Hf. generalize 0%nat. induction l as [|x l IH]; intros k a a' H; cbn in H.
  - injection H as <-. reflexivity.
  - apply bind_Some in H as (b & Hb & H). transitivity b; eauto.
Qed.

(** Round [i] of a loop, between what the other rounds do: [R i] is what they keep. *)
Section rounds.
Context {T A : Type} (R : nat -> relation A) (preorder : forall i, PreOrder (R i)).
Context (f : nat -> T -> A -> option A).
Hypothesis others : forall i j x a a', i <> j -> f j x a = Some a' -> R i a a'.

Lemma try_each_after l : forall k a a', try_each_from k f l a = Some a' ->
  forall i, (i < k)%nat -> R i a a'.
Proof.
  induction l as [|x l IH]; intros k a a' H i Hi; cbn in H.
  - injection H as <-. reflexivity.
  - apply bind_Some in H as (b & Hb & H). transitivity b; [eapply others; [|exact Hb]; lia|].
    eapply IH; [exact H|lia].
Qed.

Lemma try_each_round l a a' : try_each f l a = Some a' -> forall i x, l !! i = Some x ->
  exists b b', R i a b /\ f i x b = Some b' /\ R i b' a'.
Proof.
  unfold try_each.
  assert (forall k a a', try_each_from k f l a = Some a' -> forall i x, l !! i = Some x ->
    exists b b', R (k + i)%nat a b /\ f (k + i)%nat x b = Some b' /\ R (k + i)%nat b' a') as K;
    [|by apply (K 0%nat)].
  clear a a'. induction l as [|y l IH]; intros k a a' H i x Hx; [done|]. cbn in H.
  apply bind_Some in H as (b & Hb & H). destruct i as [|i]; cbn in Hx.
  - injection Hx as ->. rewrite Nat.add_0_r. exists a, b. split; [reflexivity|]. split; [done|].
    eapply try_each_after; [exact H|lia].
  - destruct (IH (S k) b a' H i x Hx) as (c & c' & Hc & Hf' & Hc').
    rewrite Nat.add_succ_r. exists c, c'. split; [|done]. transitivity b; [|done].
    eapply others; [|exact Hb]. lia.
Qed.
End rounds.

(** A loop that is always defined. *)
Lemma each_try {T A} (f : nat -> T -> A -> A) (l : list T) a :
  try_each (fun i x a => Some (f i x a)) l a = Some (each f l a).
Proof. unfold try_each, each. generalize 0%nat. revert a. induction l as [|x l IH]; intros a k; cbn; auto. Qed.

Lemma each_round {T A} (R : nat -> relation A) (preorder : forall i, PreOrder (R i)) (f : nat -> T -> A -> A) l :
  (forall i j x a, i <> j -> R i a (f j x a)) ->
  forall a i x, l !! i = Some x -> exists b, R i a b /\ R i (f i x b) (each f l a).
Proof.
  intros Ho a i x Hx.
  destruct (try_each_round R _ (fun i x a => Some (f i x a))) with (l := l) (a := a) (a' := each f l a)
    (i := i) (x := x) as (b & b' & Hb & [= <-] & Hb'); eauto.
  - intros i' j y c c' Hn [= <-]. by apply Ho.
  - apply each_try.
Qed.

(** ** Feeding a text to the matcher

    The matcher is fed the decoded text of a key or of a value in pieces: bytes,
    the spans that lie in the buffer, or nothing once no term wants more.  After any
    feeding the state of a term tells whether its target and the text fed so far
    are still compatible, and in the end whether they are equal, or the target a
    prefix of the text, or a part of it. *)

(** *** Comparing with a target *)

(** Some text begins with [t] and is, or with [prefix] begins with, the target. *)
Definition compatible (prefix : bool) (target t : bytes) : bool :=
  has_prefix t target || prefix && has_prefix target t.

(** The state of a term for the text [t]: it has failed, or its position is where
    the text ends in the target. *)
Definition at_text (prefix : bool) (target t : bytes) (failed : bool) (pos : nat) : Prop :=
  failed = negb (compatible prefix target t) /\
  (failed = false -> pos = Nat.min (length t) (length target)).

Lemma has_prefix_of p s : has_prefix p s = true <-> p `prefix_of` s.
Proof. apply has_prefix_spec. Qed.

Lemma compatible_spec prefix target t : compatible prefix target t = true <->
  t `prefix_of` target \/ prefix = true /\ target `prefix_of` t.
Proof. unfold compatible. by rewrite orb_true_iff, andb_true_iff, !has_prefix_of. Qed.

(** What is incompatible stays so. *)
Lemma compatible_app prefix target t d :
  compatible prefix target t = false -> compatible prefix target (t ++ d) = false.
Proof.
  intros H. apply not_true_is_false. rewrite compatible_spec. intros Hc.
  enough (compatible prefix target t = true) by congruence. apply compatible_spec.
  destruct Hc as [Hc|[Hp Hc]].
  - left. etrans; [|exact Hc]. by apply prefix_app_r.
  - destruct (prefix_weak_total target t (t ++ d) Hc); [by apply prefix_app_r|by right|by left].
Qed.

Lemma at_text_failed prefix target t d pos pos' :
  at_text prefix target t true pos -> at_text prefix target (t ++ d) true pos'.
Proof.
  intros [H _]. split; [|done]. symmetry in H. apply negb_true_iff in H. by rewrite compatible_app.
Qed.

Lemma at_text_nil prefix target : at_text prefix target [] false 0.
Proof. split; [|done]. unfold compatible. by destruct target. Qed.

(** The comparison of a piece with the rest of the target; [None] is a failure. *)
Definition compare_piece (prefix : bool) (target d : bytes) (pos : nat) : option nat :=
  if prefix && (pos =? length target)%nat then Some pos
  else if (length target <? pos)%nat then None
  else
    let remaining := Nat.min (length target - pos) (length d) in
    if negb (bytes_eqb (take remaining (drop pos target)) (take remaining d)) then None
    else if negb (remaining =? length d)%nat && negb prefix then None
    else Some (pos + remaining)%nat.

(** Comparing the next piece keeps the state of the term for the text. *)
Lemma compare_piece_ok prefix target t d pos : at_text prefix target t false pos ->
  match compare_piece prefix target d pos with
  | Some pos' => at_text prefix target (t ++ d) false pos'
  | None => at_text prefix target (t ++ d) true pos
  end.
Proof.
  intros [Hc Hpos]. specialize (Hpos eq_refl). symmetry in Hc. apply negb_false_iff in Hc.
  assert (forall p, target `prefix_of` t -> prefix = true -> p = length target ->
    at_text prefix target (t ++ d) false p) as Hover.
  { intros p Ht Hp ->. assert (target `prefix_of` t ++ d) as Hd by by apply prefix_app_r. split.
    - symmetry. apply negb_false_iff, compatible_spec. auto.
    - intros _. apply prefix_length in Hd. lia. }
  apply compatible_spec in Hc. unfold compare_piece.
  destruct (prefix && (pos =? length target)%nat) eqn:E.
  { apply andb_true_iff in E as [Hp E%Nat.eqb_eq]. apply Hover; [|done|done].
    destruct Hc as [Hc|[_ Hc]]; [|done]. apply prefix_length in Hc as Hl.
    apply prefix_length_eq in Hc; [by subst|lia]. }
  assert (t `prefix_of` target) as [r ->].
  { destruct Hc as [Hc|[-> Hc]]; [done|]. apply prefix_length in Hc.
    cbn in E. apply Nat.eqb_neq in E. lia. }
  rewrite length_app in *. rewrite (proj2 (Nat.ltb_ge _ pos)) by lia.
  replace pos with (length t) in * by lia. rewrite drop_app_length.
  replace (length t + length r - length t)%nat with (length r) by lia.
  assert (forall b, at_text prefix (t ++ r) (t ++ d) b (length t + Nat.min (length r) (length d)) <->
    b = negb (compatible prefix r d)) as Hat.
  { intros b. unfold at_text. replace (compatible prefix (t ++ r) (t ++ d)) with (compatible prefix r d).
    - split; [by intros [? _]|]. intros ?. split; [done|]. intros _. rewrite !length_app. lia.
    - apply eq_true_iff_eq. rewrite !compatible_spec. split; intros [H|[H1 H2]]; auto.
      + left. by apply prefix_app.
      + right. split; [done|]. by apply prefix_app.
      + left. by eapply prefix_app_inv.
      + right. split; [done|]. by eapply prefix_app_inv. }
  assert (forall b p, b = true -> (at_text prefix (t ++ r) (t ++ d) b p <-> b = negb (compatible prefix r d)))
    as Hfail by (unfold at_text; naive_solver).
  destruct (bytes_eqb _ _) eqn:Eb; cbn [negb].
  - apply bytes_eqb_eq in Eb. destruct (Nat.eqb_spec (Nat.min (length r) (length d)) (length d)) as [El|El].
    + cbn. apply Hat. symmetry. apply negb_false_iff, compatible_spec. left.
      rewrite El, (take_ge d) in Eb by lia. exists (drop (length d) r). by rewrite <- Eb at 1; rewrite take_drop.
    + rewrite Nat.min_l, (take_ge r) in Eb by lia. destruct prefix; cbn.
      * apply Hat. symmetry. apply negb_false_iff, compatible_spec. right. split; [done|].
        exists (drop (length r) d). by rewrite Eb at 1; rewrite take_drop.
      * apply Hfail; [done|]. symmetry. apply negb_true_iff, not_true_is_false.
        rewrite compatible_spec. intros [H|[? _]]; [|done]. apply prefix_length in H. lia.
  - apply Hfail; [done|]. symmetry. apply negb_true_iff, not_true_is_false.
    rewrite compatible_spec. intros H. enough (take (Nat.min (length r) (length d)) r =
      take (Nat.min (length r) (length d)) d) as H' by (rewrite H', bytes_eqb_refl in Eb; done).
    destruct H as [[x ->]|[_ [x ->]]]; rewrite length_app, ?Nat.min_l, ?Nat.min_r by lia;
      by rewrite take_app_length, (take_ge _ (length _)) by lia.
Qed.

(** A byte is a piece. *)
Lemma compare_byte prefix target c pos : (pos <= length target)%nat ->
  compare_piece prefix target [c] pos =
  if prefix && (pos =? length target)%nat then Some pos
  else match target !! pos with
       | Some x => if x =? c then Some (S pos) else None
       | None => None
       end.
Proof.
  intros Hl. unfold compare_piece. destruct (prefix && _) eqn:E; [done|].
  rewrite (proj2 (Nat.ltb_ge _ pos)) by lia.
  destruct (target !! pos) as [x|] eqn:Ex.
  - apply lookup_lt_Some in Ex as Hlt. rewrite (drop_S _ _ _ Ex). cbn [length].
    replace (Nat.min (length target - pos) 1) with 1%nat by lia.
    rewrite Nat.add_1_r. cbn. destruct (Z.eqb_spec x c) as [->|Hn].
    + by rewrite bytes_eqb_refl.
    + unfold bytes_eqb. rewrite bool_decide_eq_false_2; [done|congruence].
  - apply lookup_ge_None in Ex. replace (length target - pos)%nat with 0%nat by lia. cbn.
    destruct prefix; [|done]. cbn in E. apply Nat.eqb_neq in E. lia.
Qed.

(** What the end of the text decides. *)
Lemma at_text_equal target t failed pos : at_text false target t failed pos ->
  negb failed && (pos =? length target)%nat = bytes_eqb target t.
Proof.
  intros [Hf Hp]. apply eq_true_iff_eq. rewrite andb_true_iff, negb_true_iff, Nat.eqb_eq, bytes_eqb_eq.
  split.
  - intros [-> ->]. specialize (Hp eq_refl). symmetry in Hf. apply negb_false_iff, compatible_spec in Hf.
    destruct Hf as [Hf|[? _]]; [|done]. symmetry. apply prefix_length_eq; [done|].
    apply prefix_length in Hf. lia.
  - intros ->. assert (failed = false) as ->.
    { rewrite Hf. apply negb_false_iff, compatible_spec. by left. }
    split; [done|]. rewrite Hp by done. lia.
Qed.

Lemma at_text_prefix target t failed pos : at_text true target t failed pos ->
  negb failed && (length target <=? pos)%nat = has_prefix target t.
Proof.
  intros [Hf Hp]. apply eq_true_iff_eq. rewrite andb_true_iff, negb_true_iff, Nat.leb_le, has_prefix_of.
  split.
  - intros [-> Hl]. specialize (Hp eq_refl). symmetry in Hf. apply negb_false_iff, compatible_spec in Hf.
    destruct Hf as [Hf|[_ Hf]]; [|done]. apply prefix_length in Hf as Hl'.
    apply prefix_length_eq in Hf; [by subst|lia].
  - intros H. assert (failed = false) as ->.
    { rewrite Hf. apply negb_false_iff, compatible_spec. by right. }
    split; [done|]. rewrite Hp by done. apply prefix_length in H. lia.
Qed.
