(* ===== verification/ScanFed.v ===== *)
(** * The terms while a text is fed

    Every function of the matcher that takes bytes keeps, for all terms at once, the
    state of [ScanFeed]: what it does to a term concerns that term only.  First the
    state of a term, then the functions. *)

From S2P Require Import Prelude.
From S2P Require Import ScanTerm.
From S2P Require Import ScanState.
From S2P Require Import ScanInput.
From S2P Require Import ScanMatch.
From S2P Require Import JsonScan.
From S2P Require Import ScanContains.
From S2P Require Import ScanFeed.

(** ** What concerns one term *)

(** The matcher but for what feeding bytes changes. *)
Definition frame (m : scan_matcher) : scan_matcher :=
  m <| match_pos := [] |> <| match_failed := 0 |> <| match_contains := 0 |>
    <| match_case_bytes := [] |> <| match_case_need := 0%nat |>.

(** The same frame, and the same state of term [i]. *)
Record agree (i : nat) (m m' : scan_matcher) : Prop := {
  agree_frame : frame m' = frame m;
  agree_length : length (match_pos m') = length (match_pos m);
  agree_failed : has (match_failed m') i = has (match_failed m) i;
  agree_contains : has (match_contains m') i = has (match_contains m) i;
  agree_position : position m' i = position m i
}.

#[export] Instance agree_preorder i : PreOrder (agree i).
Proof.
  split; [by split|]. intros a b c [] []. split; congruence.
Qed.

(** Only the state of term [i] changed. *)
Definition touches (i : nat) (m m' : scan_matcher) : Prop := forall j, j <> i -> agree j m m'.

Lemma touches_refl i m : touches i m m.
Proof. by intros j _. Qed.

Lemma touches_trans i a b c : touches i a b -> touches i b c -> touches i a c.
Proof. intros H1 H2 j Hj. etrans; [by apply H1|by apply H2]. Qed.

Lemma position_insert m i j p :
  position (m <| match_pos := <[i := p]> (match_pos m) |>) j =
  if (i =? j)%nat && (i <? length (match_pos m))%nat then p else position m j.
Proof.
  unfold position. cbn -[Nat.ltb]. rewrite !nth_lookup.
  destruct (Nat.eqb_spec i j) as [->|Hn]; cbn -[Nat.ltb].
  - destruct (Nat.ltb_spec j (length (match_pos m))) as [Hl|Hl].
    + by rewrite list_lookup_insert_eq.
    + by rewrite list_insert_ge by lia.
  - by rewrite list_lookup_insert_ne.
Qed.

Lemma touches_pos i p m : touches i m (m <| match_pos := <[i := p]> (match_pos m) |>).
Proof.
  intros j Hj. split; try done.
  - cbn. by rewrite length_insert.
  - rewrite position_insert. by rewrite (proj2 (Nat.eqb_neq i j)) by done.
Qed.

Lemma touches_fail i m : touches i m (fail_term i m).
Proof.
  intros j Hj. split; try done. cbn. autorewrite with has.
  by rewrite (proj2 (Nat.eqb_neq i j)), orb_false_r by done.
Qed.

Lemma touches_found i m : touches i m (found_term i m).
Proof.
  intros j Hj. split; try done. cbn. autorewrite with has.
  by rewrite (proj2 (Nat.eqb_neq i j)), orb_false_r by done.
Qed.

Lemma apply_step_eq i st m : apply_step i st m =
  let m := m <| match_pos := <[i := step_pos st]> (match_pos m) |> in
  let m := if step_failed st then fail_term i m else m in
  if step_found st then found_term i m else m.
Proof. done. Qed.

Lemma touches_step i st m : touches i m (apply_step i st m).
Proof.
  rewrite apply_step_eq. cbv zeta.
  eapply touches_trans; [apply touches_pos|].
  destruct (step_failed st), (step_found st);
    eauto using touches_refl, touches_fail, touches_found, touches_trans.
Qed.

#[export] Hint Resolve touches_refl touches_pos touches_fail touches_found touches_step : touches.

(** ** The state of a term for a text *)

(** A contains term: the matcher run on the text. *)
Definition contains_at (term : lql_json_flat_eq_term) (t : bytes) (found : bool) (pos : nat) : Prop :=
  term_value term = [] /\ pos = 0%nat \/
  term_value term <> [] /\ exists failure, contains_failure term = Some failure /\
    kmp_bytes (term_value term) failure t 0 false = Some (pos, found).

(** The state of term [i] for the text [t], by the kind of the term: a term that
    compares bytes, one that looks for them, or one of the kinds that ignore case,
    of which nothing is said. *)
Definition tracked (i : nat) (term : lql_json_flat_eq_term) (t : bytes) (m : scan_matcher) : Prop :=
  let failed := has (match_failed m) i in
  if match_key m then
    exists target, key_target m term i = Some target /\ ch_tilde ∉ target /\
      at_text false target t failed (position m i)
  else
    match term_kind term with
    | LQL_JSON_FLAT_TERM_ICONTAINS | LQL_JSON_FLAT_TERM_IPREFIX => True
    | LQL_JSON_FLAT_TERM_CONTAINS =>
        failed = false /\ contains_at term t (has (match_contains m) i) (position m i)
    | LQL_JSON_FLAT_TERM_PREFIX => at_text true (term_value term) t failed (position m i)
    | _ => at_text false (term_value term) t failed (position m i)
    end.

Definition ignores_case (term : lql_json_flat_eq_term) : bool :=
  kind_is term LQL_JSON_FLAT_TERM_ICONTAINS || kind_is term LQL_JSON_FLAT_TERM_IPREFIX.

Lemma frame_field {A} (f : scan_matcher -> A) m m' : (forall m, f m = f (frame m)) ->
  frame m' = frame m -> f m' = f m.
Proof. intros Hf H. rewrite (Hf m), (Hf m'). by rewrite H. Qed.

Lemma frame_key m m' : frame m' = frame m -> match_key m' = match_key m.
Proof. by apply frame_field. Qed.
Lemma frame_active m m' : frame m' = frame m -> match_active m' = match_active m.
Proof. by apply frame_field. Qed.
Lemma frame_icontains m m' : frame m' = frame m -> match_icontains m' = match_icontains m.
Proof. by apply frame_field. Qed.
Lemma frame_target m m' term i : frame m' = frame m -> key_target m' term i = key_target m term i.
Proof. by apply (frame_field (fun m => key_target m term i)). Qed.

Lemma tracked_agree i term t m m' : agree i m m' -> tracked i term t m -> tracked i term t m'.
Proof.
  intros [Hf _ Hfail Hc Hp]. unfold tracked.
  rewrite (frame_key _ _ Hf), Hfail, Hc, Hp. destruct (match_key m); [|done].
  intros (target & Ht & H). exists target. by rewrite (frame_target _ _ _ _ Hf).
Qed.

Section terms.
Context (cfg : scan_config).
#[local] Abbreviation terms := (flat_terms cfg).

(** The state of all active terms for a text. *)
Record feeding (t : bytes) (m : scan_matcher) : Prop := {
  feed_length : (length terms <= length (match_pos m))%nat;
  feed_icontains : forall i term, terms !! i = Some term -> has (match_active m) i = true ->
    has (match_icontains m) i = negb (match_key m) && ignores_case term;
  feed_tracked : forall i term, terms !! i = Some term -> has (match_active m) i = true ->
    tracked i term t m
}.

(** From a text to a longer one: the frame is the same, and each active term is
    tracked. *)
Lemma feeding_step t t' m m' : frame m' = frame m -> length (match_pos m') = length (match_pos m) ->
  feeding t m ->
  (forall i term, terms !! i = Some term -> has (match_active m) i = true ->
    tracked i term t m -> tracked i term t' m') -> feeding t' m'.
Proof.
  intros Hf Hl [H1 H2 H3] Hstep.
  rewrite <- (frame_active _ _ Hf) in H2, H3, Hstep. split.
  - lia.
  - intros i term Hi Ha. rewrite (frame_icontains _ _ Hf), (frame_key _ _ Hf). eauto.
  - intros i term Hi Ha. eauto.
Qed.

(** The frame and the number of positions. *)
Definition same_size (m m' : scan_matcher) : Prop :=
  frame m' = frame m /\ length (match_pos m') = length (match_pos m).

#[local] Instance same_size_preorder : PreOrder same_size.
Proof. split; [by split|]. intros a b c [] []. split; congruence. Qed.

Lemma touches_size i m m' : touches i m m' -> same_size m m'.
Proof. intros H. destruct (H (S i)) as [Hf Hl _ _ _]; [lia|]. by split. Qed.

(** A loop whose rounds touch their own term. *)
Lemma loop_tracked (f : nat -> lql_json_flat_eq_term -> scan_matcher -> option scan_matcher) l m m' :
  (forall j term m m', f j term m = Some m' -> touches j m m') ->
  try_each f l m = Some m' ->
  frame m' = frame m /\ length (match_pos m') = length (match_pos m) /\
  forall i term, l !! i = Some term ->
    exists b b', agree i m b /\ f i term b = Some b' /\ agree i b' m'.
Proof.
  intros Hf H.
  assert (same_size m m') as [Hfr Hl].
  { revert H. apply (try_each_keeps same_size). intros i term a a' Ha. eapply touches_size, Hf, Ha. }
  split; [done|]. split; [done|]. intros i term Hi.
  apply (try_each_round agree _ f) with (l := l); [|done|done].
  intros i' j x a a' Hn Ha. by apply (Hf _ _ _ _ Ha).
Qed.

(** A text extended by a loop over the terms. *)
Lemma loop_feeding (f : nat -> lql_json_flat_eq_term -> scan_matcher -> option scan_matcher) t t' m m' :
  (forall j term m m', f j term m = Some m' -> touches j m m') ->
  (forall i term b b', terms !! i = Some term -> frame b = frame m ->
    (i < length (match_pos b))%nat -> has (match_active m) i = true -> f i term b = Some b' ->
    tracked i term t b -> tracked i term t' b') ->
  try_each f terms m = Some m' -> feeding t m -> feeding t' m' /\ frame m' = frame m.
Proof.
  intros Ht Hstep H Hfeed. destruct (loop_tracked _ _ _ _ Ht H) as (Hf & Hl & Hround).
  split; [|done]. eapply feeding_step; [done|done|done|]. intros i term Hi Ha Htr.
  destruct (Hround i term Hi) as (b & b' & Hb & Hfb & Hb').
  eapply tracked_agree; [exact Hb'|]. eapply Hstep; [done|apply Hb| |done|exact Hfb|].
  - rewrite (agree_length _ _ _ Hb). apply lookup_lt_Some in Hi. destruct Hfeed. lia.
  - by eapply tracked_agree.
Qed.

(** ** One byte *)

(** A failed term, and the term compared with a piece of text. *)
Lemma fail_failed i m : has (match_failed (fail_term i m)) i = true.
Proof. cbn. autorewrite with has. by rewrite Nat.eqb_refl, orb_true_r. Qed.

(** The next piece [d] compared at the position of term [i]. *)
Definition piece_term (prefix : bool) (target d : bytes) (i : nat) (m : scan_matcher) : scan_matcher :=
  match compare_piece prefix target d (position m i) with
  | Some pos => m <| match_pos := <[i := pos]> (match_pos m) |>
  | None => fail_term i m
  end.

Lemma touches_piece prefix target d i m : touches i m (piece_term prefix target d i m).
Proof. unfold piece_term. case_match; auto with touches. Qed.

Lemma at_text_bound prefix target t pos : at_text prefix target t false pos ->
  (pos <= length target)%nat.
Proof. intros [_ ->]; [lia|done]. Qed.

Lemma piece_tracked prefix target t d i m : (i < length (match_pos m))%nat ->
  has (match_failed m) i = false -> at_text prefix target t false (position m i) ->
  at_text prefix target (t ++ d) (has (match_failed (piece_term prefix target d i m)) i)
    (position (piece_term prefix target d i m) i).
Proof.
  intros Hi Hf H. pose proof (compare_piece_ok _ _ _ d _ H) as K. unfold piece_term.
  destruct (compare_piece _ _ _ _) as [pos|].
  - rewrite position_insert, Nat.eqb_refl, (proj2 (Nat.ltb_lt _ _) Hi). cbn. by rewrite Hf.
  - rewrite fail_failed. done.
Qed.

Lemma target_byte_plain target pos : ch_tilde ∉ target ->
  lql_json_pointer_target_byte target pos = (fun c => (c, 1%nat)) <$> target !! pos.
Proof.
  intros Ht. unfold lql_json_pointer_target_byte. rewrite <- (Nat.add_0_r pos) at 2.
  rewrite <- lookup_drop. destruct (drop pos target) as [|c [|d rest]] eqn:E; [done..|].
  cbn. destruct (Z.eqb_spec c ch_tilde) as [->|]; [|done]. exfalso. apply Ht.
  rewrite <- (take_drop pos target), E. apply elem_of_app. right. constructor.
Qed.

Lemma match_key_byte_eq v i term m target : key_target m term i = Some target ->
  ch_tilde ∉ target -> (position m i <= length target)%nat ->
  match_key_byte v i term m = piece_term false target [v] i m.
Proof.
  intros Ht Hp Hl. unfold match_key_byte, piece_term.
  rewrite Ht, (target_byte_plain _ _ Hp), compare_byte by done. cbn.
  destruct (target !! position m i) as [c|]; [|done]. cbn. rewrite Nat.add_1_r. by case_if.
Qed.

(** The positions of other loops are not looked at. *)
Lemma match_value_byte_touches v i term m m' :
  match_value_byte v i term m = Some m' -> touches i m m'.
Proof.
  unfold match_value_byte. intros E. repeat case_match; simplify_eq; auto with touches.
  apply bind_Some in E as ([pos found] & _ & [= <-]). auto with touches.
Qed.

Lemma match_term_byte_touches v i term m m' : match_term_byte v i term m = Some m' -> touches i m m'.
Proof.
  unfold match_term_byte, match_key_byte. intros E. repeat case_match; simplify_eq;
    eauto using match_value_byte_touches with touches.
Qed.

(** A value byte of a term that compares bytes. *)
Lemma match_value_byte_eq v i term m : kind_is term LQL_JSON_FLAT_TERM_CONTAINS = false ->
  (position m i <= length (term_value term))%nat ->
  exists m', match_value_byte v i term m = Some m' /\ touches i m m' /\
    has (match_failed m') i = has (match_failed (piece_term (kind_is term LQL_JSON_FLAT_TERM_PREFIX)
                                                  (term_value term) [v] i m)) i /\
    position m' i = position (piece_term (kind_is term LQL_JSON_FLAT_TERM_PREFIX)
                                (term_value term) [v] i m) i.
Proof.
  intros Hk Hl. unfold match_value_byte. rewrite Hk. unfold piece_term. rewrite compare_byte by done.
  destruct (kind_is term LQL_JSON_FLAT_TERM_PREFIX && _).
  - exists m. split; [done|]. split; [auto with touches|]. split; [done|].
    rewrite position_insert. by case_if.
  - destruct (term_value term !! position m i) as [c|]; [case_if|]; eauto with touches.
Qed.

(** The contains matcher goes on from where it was. *)
Lemma kmp_bytes_found t failure d : forall pos b, kmp_bytes t failure d pos b =
  '(pos, found) ← kmp_bytes t failure d pos false; Some (pos, b || found).
Proof.
  induction d as [|c d IH]; intros pos b; cbn; [by rewrite orb_false_r|].
  destruct (kmp_step t failure c pos) as [[p f]|]; cbn; [|done].
  rewrite (IH p (b || f)), (IH p f). destruct (kmp_bytes t failure d p false) as [[p' f']|]; cbn; [|done].
  by rewrite orb_assoc.
Qed.

Lemma kmp_step_bytes t failure c pos : kmp_step t failure c pos = kmp_bytes t failure [c] pos false.
Proof. cbn. by destruct (kmp_step t failure c pos) as [[p f]|]. Qed.

Lemma step_state i st m : (i < length (match_pos m))%nat ->
  has (match_failed (apply_step i st m)) i = has (match_failed m) i || step_failed st /\
  has (match_contains (apply_step i st m)) i = has (match_contains m) i || step_found st /\
  position (apply_step i st m) i = step_pos st.
Proof.
  intros Hi. rewrite apply_step_eq. cbv zeta.
  assert (position (m <| match_pos := <[i := step_pos st]> (match_pos m) |>) i = step_pos st) as Hp.
  { by rewrite position_insert, Nat.eqb_refl, (proj2 (Nat.ltb_lt _ _) Hi). }
  destruct (step_failed st), (step_found st); unfold fail_term, found_term; cbn in *; autorewrite with has;
    by rewrite ?Nat.eqb_refl, ?orb_true_r, ?orb_false_r.
Qed.

(** Some bytes of the text of a contains term. *)
Definition contains_piece (term : lql_json_flat_eq_term) (d : bytes) (i : nat) (m : scan_matcher)
    : option scan_matcher :=
  if (length (term_value term) =? 0)%nat then Some (found_term i m)
  else
    match contains_failure term with
    | None => Some (fail_term i m)
    | Some failure =>
        '(pos, found) ← kmp_bytes (term_value term) failure d (position m i) false;
        Some (apply_step i (mk_step pos false found) m)
    end.

Lemma contains_piece_tracked term t d i m m' : contains_piece term d i m = Some m' ->
  (i < length (match_pos m))%nat -> has (match_failed m) i = false ->
  contains_at term t (has (match_contains m) i) (position m i) ->
  has (match_failed m') i = false /\
  contains_at term (t ++ d) (has (match_contains m') i) (position m' i).
Proof.
  unfold contains_piece. intros E Hi Hf [[Hv Hpos]|(Hv & failure & Hfail & Hk)].
  - rewrite Hv in E. cbn in E. injection E as <-. split; [done|]. by left.
  - destruct (length (term_value term) =? 0)%nat eqn:El.
    { apply Nat.eqb_eq, nil_length_inv in El. done. }
    rewrite Hfail in E. apply bind_Some in E as ([pos found] & E & [= <-]).
    destruct (step_state i (mk_step pos false found) m Hi) as (-> & -> & ->).
    split; [by rewrite Hf|]. right. split; [done|]. exists failure. split; [done|].
    rewrite kmp_bytes_app, Hk. cbn. rewrite kmp_bytes_found, E. done.
Qed.

Lemma contains_byte_eq v i term m : kind_is term LQL_JSON_FLAT_TERM_CONTAINS = true ->
  match_value_byte v i term m = contains_piece term [v] i m.
Proof.
  intros Hk. unfold match_value_byte, contains_piece. rewrite Hk. case_if; [done|].
  destruct (contains_failure term); [|done]. by rewrite kmp_step_bytes.
Qed.

(** The cases of [tracked]. *)
Lemma tracked_value i term t m : match_key m = false -> ignores_case term = false ->
  kind_is term LQL_JSON_FLAT_TERM_CONTAINS = false ->
  tracked i term t m <-> at_text (kind_is term LQL_JSON_FLAT_TERM_PREFIX) (term_value term) t
                           (has (match_failed m) i) (position m i).
Proof.
  intros Hk Hi Hc. unfold tracked, ignores_case, kind_is in *. rewrite Hk.
  destruct (term_kind term); try discriminate; done.
Qed.

Lemma tracked_contains i term t m : match_key m = false ->
  kind_is term LQL_JSON_FLAT_TERM_CONTAINS = true ->
  tracked i term t m <-> has (match_failed m) i = false /\
    contains_at term t (has (match_contains m) i) (position m i).
Proof.
  intros Hk Hc. unfold tracked, kind_is in *. rewrite Hk. by destruct (term_kind term).
Qed.

Lemma tracked_ignored i term t m : match_key m = false -> ignores_case term = true -> tracked i term t m.
Proof.
  intros Hk Hc. unfold tracked, ignores_case, kind_is in *. rewrite Hk. by destruct (term_kind term).
Qed.

Lemma tracked_failed i term t d m : has (match_failed m) i = true ->
  tracked i term t m -> tracked i term (t ++ d) m.
Proof.
  intros Hf. unfold tracked. rewrite Hf. destruct (match_key m).
  - intros (target & Ht & Hp & H). exists target. split; [done|]. split; [done|]. by eapply at_text_failed.
  - destruct (term_kind term); try done; try (by intros []); intros H; by eapply at_text_failed.
Qed.

Lemma ignores_case_not_contains term : ignores_case term = true ->
  kind_is term LQL_JSON_FLAT_TERM_CONTAINS = false.
Proof. unfold ignores_case, kind_is. by destruct (term_kind term). Qed.

(** A piece compared for a term that is tracked. *)
Lemma key_piece_tracked i term t d m m' target : match_key m = true -> touches i m m' ->
  key_target m term i = Some target -> ch_tilde ∉ target -> (i < length (match_pos m))%nat ->
  has (match_failed m) i = false -> at_text false target t false (position m i) ->
  has (match_failed m') i = has (match_failed (piece_term false target d i m)) i ->
  position m' i = position (piece_term false target d i m) i ->
  tracked i term (t ++ d) m'.
Proof.
  intros Hk Ht Htar Hp Hi Hf H Ef Ep. destruct (touches_size _ _ _ Ht) as [Hfr _].
  unfold tracked. rewrite (frame_key _ _ Hfr), Hk. exists target.
  rewrite (frame_target _ _ _ _ Hfr). split; [done|]. split; [done|]. rewrite Ef, Ep.
  by apply piece_tracked.
Qed.

Lemma value_piece_tracked i term t d m m' : match_key m = false -> touches i m m' ->
  ignores_case term = false -> kind_is term LQL_JSON_FLAT_TERM_CONTAINS = false ->
  (i < length (match_pos m))%nat -> has (match_failed m) i = false -> tracked i term t m ->
  has (match_failed m') i = has (match_failed (piece_term (kind_is term LQL_JSON_FLAT_TERM_PREFIX)
                                                 (term_value term) d i m)) i ->
  position m' i = position (piece_term (kind_is term LQL_JSON_FLAT_TERM_PREFIX)
                                (term_value term) d i m) i ->
  tracked i term (t ++ d) m'.
Proof.
  intros Hk Ht Hn Hc Hi Hf H Ef Ep. destruct (touches_size _ _ _ Ht) as [Hfr _].
  rewrite tracked_value in * by (try done; by rewrite (frame_key _ _ Hfr)).
  rewrite Ef, Ep. rewrite Hf in H. by apply piece_tracked.
Qed.

Lemma match_term_byte_tracked v i term t m m' : match_term_byte v i term m = Some m' ->
  (i < length (match_pos m))%nat -> has (match_active m) i = true ->
  tracked i term t m -> tracked i term (t ++ [v]) m'.
Proof.
  intros E Hi Ha Htr. pose proof (match_term_byte_touches _ _ _ _ _ E) as Ht.
  unfold match_term_byte in E. rewrite Ha in E. cbn in E.
  destruct (has (match_failed m) i) eqn:Hf; [injection E as <-; by apply tracked_failed|].
  destruct (match_key m) eqn:Hk; cbn in E.
  - injection E as <-. unfold tracked in Htr. rewrite Hk, Hf in Htr. destruct Htr as (target & Htar & Hp & H).
    rewrite (match_key_byte_eq _ _ _ _ _ Htar Hp) in * by by eapply at_text_bound.
    by eapply key_piece_tracked.
  - fold (ignores_case term) in E. destruct (ignores_case term) eqn:Hn.
    { injection E as <-. by apply tracked_ignored. }
    destruct (kind_is term LQL_JSON_FLAT_TERM_CONTAINS) eqn:Hc.
    + rewrite contains_byte_eq in E by done. rewrite tracked_contains in Htr by done.
      destruct Htr as [_ H]. destruct (touches_size _ _ _ Ht) as [Hfr _].
      apply tracked_contains; [by rewrite (frame_key _ _ Hfr)|done|].
      by eapply contains_piece_tracked.
    + destruct (match_value_byte_eq v i term m Hc) as (m1 & E1 & Ht1 & Ef & Ep).
      { rewrite tracked_value in Htr by done. rewrite Hf in Htr. by eapply at_text_bound. }
      rewrite E1 in E. injection E as <-. by eapply value_piece_tracked.
Qed.

(** Lower-cased bytes concern the terms that ignore case only. *)
Lemma icontains_bytes_feeding data t m m' : lql_json_match_icontains_bytes cfg data m = Some m' ->
  feeding t m -> feeding t m' /\ frame m' = frame m.
Proof.
  unfold lql_json_match_icontains_bytes. apply loop_feeding.
  - intros j term b b' E. case_match; simplify_eq; auto with touches.
    apply bind_Some in E as (st & _ & [= <-]). auto with touches.
  - intros i term b b' Hi Hf Hl Ha E Htr. case_match; simplify_eq; [done|].
    apply bind_Some in E as (st & _ & [= <-]).
    assert (touches i b (apply_step i st b)) as Ht by auto with touches.
    destruct (touches_size _ _ _ Ht) as [Hfr _].
    apply tracked_ignored; rewrite ?(frame_key _ _ Hfr); unfold ignores_case; bool_hyps;
      by destruct (match_key b), (kind_is term LQL_JSON_FLAT_TERM_ICONTAINS),
        (kind_is term LQL_JSON_FLAT_TERM_IPREFIX), (has (match_active b) i).
Qed.

Lemma feeding_agree t m m' : (forall i, agree i m m') -> feeding t m -> feeding t m'.
Proof.
  intros H Hf. destruct (H 0%nat) as [Hfr Hl _ _ _].
  eapply feeding_step; [done|done|done|]. intros i term _ _. apply tracked_agree, H.
Qed.

Lemma icontains_byte_feeding v t m m' : lql_json_match_icontains_byte cfg v m = Some m' ->
  feeding t m -> feeding t m' /\ frame m' = frame m.
Proof.
  unfold lql_json_match_icontains_byte. cbv zeta. intros E Hf.
  match type of E with
  | (if _ then Some ?m0 else _) = _ => set (m1 := m0) in *
  end.
  assert (forall i, agree i m m1) as H1 by (subst m1; intros i; by case_if).
  assert (feeding t m1 /\ frame m1 = frame m) as [Hf1 Hfr1].
  { split; [by eapply feeding_agree|apply (H1 0%nat)]. }
  destruct (negb _); [by injection E as <-|]. apply bind_Some in E as (m2 & E & [= <-]).
  assert (feeding t m2 /\ frame m2 = frame m1) as [Hf2 Hfr2].
  { repeat case_match; simplify_eq; try done. by eapply icontains_bytes_feeding. }
  split; [|transitivity (frame m2); [done|congruence]].
  eapply feeding_agree; [|exact Hf2]. by split.
Qed.
End terms.

(** ** Pieces of a text

    A text is fed byte by byte, in spans of plain bytes and, once no term wants
    more, not at all; the state of the terms is that of the whole text. *)

Section fed.
Context (cfg : scan_config).
#[local] Abbreviation terms := (flat_terms cfg).
#[local] Abbreviation feeding := (feeding cfg).

(** *** Bytes *)

Lemma is_empty_spec mask : is_empty mask = true <-> mask = 0.
Proof. apply Z.eqb_eq. Qed.

(** With no term active there is nothing to track. *)
Lemma feeding_idle t t' m : match_active m = 0 -> feeding t m -> feeding t' m.
Proof.
  intros H [H1 H2 H3]. split; [done|done|]. intros i term _ Ha. by rewrite H, has_0 in Ha.
Qed.

Lemma match_byte_feeding v t s s' : lql_json_match_byte cfg v s = Some s' -> feeding t (matcher s) ->
  feeding (t ++ [v]) (matcher s') /\ frame (matcher s') = frame (matcher s).
Proof.
  unfold lql_json_match_byte, nothing_active. intros E Hf.
  destruct (is_empty (match_active (matcher s)) && _ && _) eqn:E0.
  { injection E as <-. split; [|done]. eapply feeding_idle; [|exact Hf]. apply is_empty_spec.
    by bool_hyps. }
  cbn in E. destruct (is_empty (match_active (matcher s)) && _) eqn:E1.
  { injection E as <-. split; [|done]. eapply feeding_idle; [|exact Hf]. apply is_empty_spec.
    by bool_hyps. }
  apply bind_Some in E as (m & Em & E).
  assert (feeding (t ++ [v]) m /\ frame m = frame (matcher s)) as [Hm Hfr].
  { destruct (is_empty (match_active (matcher s))) eqn:Ea.
    - injection Em as <-. split; [|done]. eapply feeding_idle; [|exact Hf]. by apply is_empty_spec.
    - revert Em Hf. apply loop_feeding.
      + intros j term b b'. apply match_term_byte_touches.
      + intros i term b b' Hi Hfr Hl Ha Eb Htr. eapply match_term_byte_tracked; [done|done| |done].
        by rewrite (frame_active _ _ Hfr). }
  assert (forall s1, matcher s1 = m ->
    (if is_empty (match_icontains (matcher s1)) then Some s1
     else m ← lql_json_match_icontains_byte cfg v (matcher s1); Some (s1 <| matcher := m |>)) = Some s' ->
    feeding (t ++ [v]) (matcher s') /\ frame (matcher s') = frame (matcher s)) as Hend.
  { intros s1 Hs1 E2. destruct (is_empty (match_icontains (matcher s1))); [injection E2 as <-; by rewrite Hs1|].
    apply bind_Some in E2 as (m2 & E2 & [= <-]). cbn.
    rewrite Hs1 in E2. destruct (icontains_byte_feeding _ _ _ _ _ E2 Hm) as [Hm2 Hfr2].
    split; [done|congruence]. }
  eapply Hend; [|exact E]. by destruct (is_empty (capture_active (capture s))).
Qed.

Lemma match_bytes_feeding data : forall t s s',
  match_bytes_while cfg (fun _ => true) data s = Some s' -> feeding t (matcher s) ->
  feeding (t ++ data) (matcher s') /\ frame (matcher s') = frame (matcher s).
Proof.
  induction data as [|c data IH]; intros t s s' E Hf; cbn in E.
  - injection E as <-. by rewrite app_nil_r.
  - apply bind_Some in E as (s1 & E1 & E). destruct (match_byte_feeding _ _ _ _ E1 Hf) as [Hf1 Hfr1].
    destruct (IH _ _ _ E Hf1) as [Hf2 Hfr2]. rewrite <- app_assoc in Hf2. split; [done|congruence].
Qed.

(** *** Spans *)

(** The matcher is left alone while it has nothing active. *)
Lemma idle_bytes go data : forall s s', match_bytes_while cfg go data s = Some s' ->
  match_active (matcher s) = 0 -> match_icontains (matcher s) = 0 -> matcher s' = matcher s.
Proof.
  induction data as [|c data IH]; intros s s' E Ha Hi; cbn in E; [by injection E as <-|].
  destruct (go s); [|by injection E as <-]. apply bind_Some in E as (s1 & E1 & E).
  assert (matcher s1 = matcher s) as Hm.
  { unfold lql_json_match_byte in E1. destruct (nothing_active s); [by injection E1 as <-|].
    cbn in E1. rewrite Ha in E1. cbn in E1.
    destruct (is_empty (capture_active (capture s))); [by injection E1 as <-|].
    cbn in E1. rewrite Hi in E1. by injection E1 as <-. }
  rewrite (IH s1 s' E); congruence.
Qed.

Lemma capture_span_matcher data s s' : capture_span cfg data s = Some s' -> matcher s' = matcher s.
Proof.
  unfold capture_span. cbv zeta. intros H. apply bind_Some in H as (s1 & H & [= <-]).
  apply idle_bytes in H; [|done|done]. cbn in H |- *. rewrite H. by destruct (matcher s).
Qed.

(** The terms whose state a span has brought up to date: some are before index [k],
    others have been dealt with by the contains functions. *)
Definition contains_active (m : scan_matcher) : Z :=
  if match_key m then 0
  else contains_terms cfg (Z.ldiff (Z.ldiff (match_active m) (match_icontains m)) (match_failed m)).

Lemma has_contains_active m i term : terms !! i = Some term ->
  has (contains_active m) i = negb (match_key m) && has (match_active m) i &&
    negb (has (match_icontains m) i) && negb (has (match_failed m) i) &&
    kind_is term LQL_JSON_FLAT_TERM_CONTAINS.
Proof.
  intros Hi. unfold contains_active. destruct (match_key m); [apply has_0|].
  unfold contains_terms. autorewrite with has. by rewrite Hi.
Qed.

Lemma span_contains_touches active d j term m m' :
  (if negb (has active j) || negb (has (match_active m) j) || has (match_failed m) j then Some m
   else if negb (kind_is term LQL_JSON_FLAT_TERM_CONTAINS) then Some (fail_term j m)
   else contains_piece term d j m) = Some m' -> touches j m m'.
Proof.
  unfold contains_piece. intros E. repeat case_match; simplify_eq; auto with touches.
  apply bind_Some in E as ([pos found] & _ & [= <-]). auto with touches.
Qed.

(** The contains terms after their span. *)
Definition span_contained (t d : bytes) (m m' : scan_matcher) : Prop :=
  frame m' = frame m /\ length (match_pos m') = length (match_pos m) /\
  forall i term, terms !! i = Some term ->
    if has (contains_active m) i
    then has (match_failed m') i = false /\ tracked i term (t ++ d) m'
    else agree i m m'.

Lemma contains_span_ok t d m m' : feeding t m ->
  (if is_empty (contains_active m) then Some m
   else lql_json_match_contains_ascii_span cfg (contains_active m) d m) = Some m' ->
  d <> [] -> span_contained t d m m'.
Proof.
  intros Hf E Hd. destruct (is_empty (contains_active m)) eqn:E0.
  { injection E as <-. split; [done|]. split; [done|]. intros i term _. by rewrite (is_empty_has _ _ E0). }
  unfold lql_json_match_contains_ascii_span in E. rewrite E0, orb_false_r in E.
  destruct (length d =? 0)%nat eqn:El; [by apply Nat.eqb_eq, nil_length_inv in El|].
  apply loop_tracked in E; [|intros j term b b'; apply span_contains_touches].
  destruct E as (Hfr & Hl & Hround). split; [done|]. split; [done|]. intros i term Hi.
  destruct (Hround i term Hi) as (b & b' & Hb & E & Hb').
  rewrite (has_contains_active m i term Hi) in *.
  rewrite (frame_active _ _ (agree_frame _ _ _ Hb)), (agree_failed _ _ _ Hb) in E.
  destruct (negb (match_key m) && has (match_active m) i && negb (has (match_icontains m) i) &&
            negb (has (match_failed m) i) && kind_is term LQL_JSON_FLAT_TERM_CONTAINS) eqn:Ec.
  - bool_hyps. rewrite H3, H1, H0 in E. cbn in E.
    change (contains_piece term d i b = Some b') in E.
    assert (match_key m = false) as Hk by by destruct (match_key m).
    assert (has (match_failed m) i = false) as Hnf by by destruct (has (match_failed m) i).
    pose proof (feed_tracked _ _ _ Hf i term Hi H3) as Htr.
    eapply tracked_agree in Htr; [|exact Hb].
    rewrite tracked_contains in Htr; [|by rewrite (frame_key _ _ (agree_frame _ _ _ Hb))|done].
    destruct Htr as [Hfb Htr].
    assert (i < length (match_pos b))%nat as Hlt.
    { rewrite (agree_length _ _ _ Hb). apply lookup_lt_Some in Hi. destruct Hf. lia. }
    destruct (contains_piece_tracked _ _ _ _ _ _ E Hlt Hfb Htr) as [Hf' Htr'].
    split; [by rewrite (agree_failed _ _ _ Hb')|]. eapply tracked_agree; [exact Hb'|].
    apply tracked_contains; [|done|done].
    rewrite <- (frame_key _ _ (agree_frame _ _ _ Hb')), (frame_key _ _ Hfr). done.
  - cbn in E. injection E as <-. by etrans.
Qed.

(** The terms that ignore case, after their span. *)
Lemma icontains_span_ok (idle : bool) d m m' :
  (if idle then Some m else lql_json_match_icontains_ascii_span cfg d m) = Some m' ->
  frame m' = frame m /\ length (match_pos m') = length (match_pos m) /\
  forall i term, terms !! i = Some term -> has (match_icontains m) i = false -> agree i m m'.
Proof.
  assert (forall m', m' = m -> frame m' = frame m /\ length (match_pos m') = length (match_pos m) /\
    forall i term, terms !! i = Some term -> has (match_icontains m) i = false -> agree i m m') as Hid
    by (by intros ? ->).
  destruct idle; [intros [= <-]; by apply Hid|].
  unfold lql_json_match_icontains_ascii_span. case_if; [intros [= <-]; by apply Hid|]. intros Hloop.
  apply loop_tracked in Hloop as (Hfr & Hl & Hround).
  - split; [done|]. split; [done|]. intros i term Hi Hn.
    destruct (Hround i term Hi) as (b & b' & Hb & Hr & Hb').
    rewrite (frame_icontains _ _ (agree_frame _ _ _ Hb)), Hn in Hr. injection Hr as <-. by etrans.
  - intros j term b b' Hr. case_match; simplify_eq; auto with touches.
    apply bind_Some in Hr as (st & _ & [= <-]). auto with touches.
Qed.

Lemma no_escape target : ch_tilde ∉ target -> lql_json_pointer_segment_has_escape target = false.
Proof.
  induction target as [|c target IH]; intros Hn; [done|].
  rewrite not_elem_of_cons in Hn. destruct Hn as [Hc Hn]. specialize (IH Hn).
  destruct target as [|x rest]; [done|]. cbn [lql_json_pointer_segment_has_escape] in *.
  rewrite IH, orb_false_r. by destruct (Z.eqb_spec c ch_tilde).
Qed.

(** The body of [lql_json_match_span_term] compares the span as a piece. *)
Definition span_body (prefix : bool) (target d : bytes) (i : nat) (m : scan_matcher)
    : option scan_matcher :=
  if prefix && (position m i =? length target)%nat then Some m
  else if (length target <? position m i)%nat then Some (fail_term i m)
  else
    let remaining := Nat.min (length target - position m i) (length d) in
    if negb (bytes_eqb (take remaining (drop (position m i) target)) (take remaining d)) then
      Some (fail_term i m)
    else if negb (remaining =? length d)%nat && negb prefix then Some (fail_term i m)
    else Some (m <| match_pos := <[i := (position m i + remaining)%nat]> (match_pos m) |>).

Lemma span_piece prefix target d i m :
  exists m', span_body prefix target d i m = Some m' /\ touches i m m' /\
    has (match_failed m') i = has (match_failed (piece_term prefix target d i m)) i /\
    position m' i = position (piece_term prefix target d i m) i.
Proof.
  unfold span_body, piece_term, compare_piece. cbv zeta. destruct (prefix && _).
  - exists m. split; [done|]. split; [auto with touches|]. split; [done|].
    rewrite position_insert. by case_if.
  - repeat case_if; eauto with touches.
Qed.

Lemma span_term_ok i term t d m : (i < length (match_pos m))%nat ->
  has (match_failed m) i = false -> tracked i term t m ->
  (match_key m = false -> ignores_case term = false /\
    kind_is term LQL_JSON_FLAT_TERM_CONTAINS = false) ->
  exists m', lql_json_match_span_term m term i d = Some m' /\ touches i m m' /\
    tracked i term (t ++ d) m'.
Proof.
  intros Hi Hf Htr Hkind. unfold lql_json_match_span_term. destruct (match_key m) eqn:Hk.
  - pose proof Htr as Htr'. unfold tracked in Htr'. rewrite Hk, Hf in Htr'.
    destruct Htr' as (target & Ht & Hp & Hat). rewrite Ht, no_escape by done.
    change (exists m', span_body false target d i m = Some m' /\ touches i m m' /\
              tracked i term (t ++ d) m').
    destruct (span_piece false target d i m) as (m' & -> & Htouch & Ef & Ep).
    exists m'. split; [done|]. split; [done|]. by eapply key_piece_tracked.
  - destruct (Hkind eq_refl) as [Hn Hc]. pose proof Hn as Hn'. unfold ignores_case in Hn'.
    apply orb_false_iff in Hn' as [Hn1 Hn2]. rewrite Hc, Hn1, Hn2.
    change (exists m', span_body (kind_is term LQL_JSON_FLAT_TERM_PREFIX) (term_value term) d i m = Some m' /\
              touches i m m' /\ tracked i term (t ++ d) m').
    destruct (span_piece (kind_is term LQL_JSON_FLAT_TERM_PREFIX) (term_value term) d i m)
      as (m' & -> & Htouch & Ef & Ep).
    exists m'. split; [done|]. split; [done|]. by eapply value_piece_tracked.
Qed.

(** The loop over the terms brings the others up to date. *)
Definition in_span (ac : Z) (t d : bytes) (m : scan_matcher) (i : nat) (term : lql_json_flat_eq_term) : Prop :=
  has (match_active m) i = true ->
  if negb (match_key m) && (has (match_icontains m) i || has ac i) then tracked i term (t ++ d) m
  else tracked i term t m /\ (match_key m = false -> ignores_case term = false /\
         kind_is term LQL_JSON_FLAT_TERM_CONTAINS = false).

Lemma in_span_agree ac t d m m' i term : agree i m m' -> in_span ac t d m i term -> in_span ac t d m' i term.
Proof.
  intros Ha H. pose proof (agree_frame _ _ _ Ha) as Hfr. unfold in_span in *.
  rewrite (frame_active _ _ Hfr), (frame_key _ _ Hfr), (frame_icontains _ _ Hfr).
  intros Hact. specialize (H Hact). case_if; [by eapply tracked_agree|].
  destruct H. split; [by eapply tracked_agree|done].
Qed.

Lemma span_terms_ok ac ai t d l : forall k s b s',
  match_span_terms cfg ac ai k l d s = Some (b, s') ->
  (k + length l <= length (match_pos (matcher s)))%nat ->
  (forall i term, l !! i = Some term -> in_span ac t d (matcher s) (k + i) term) ->
  b = true /\ same_size (matcher s) (matcher s') /\
  (forall j, (j < k)%nat -> agree j (matcher s) (matcher s')) /\
  forall i term, l !! i = Some term -> has (match_active (matcher s)) (k + i) = true ->
    tracked (k + i) term (t ++ d) (matcher s').
Proof.
  induction l as [|term l IH]; intros k s b s' E Hlen Hin; cbn [match_span_terms] in E.
  { injection E as <- <-. repeat split; done. }
  cbv zeta in E. pose proof (Hin 0%nat term eq_refl) as Hk. rewrite Nat.add_0_r in Hk.
  assert (forall s1 b1, match_span_terms cfg ac ai (S k) l d s1 = Some (b1, s') ->
    touches k (matcher s) (matcher s1) ->
    (has (match_active (matcher s)) k = true -> tracked k term (t ++ d) (matcher s1)) ->
    b1 = true /\ same_size (matcher s) (matcher s') /\
    (forall j, (j < k)%nat -> agree j (matcher s) (matcher s')) /\
    forall i term', (term :: l) !! i = Some term' -> has (match_active (matcher s)) (k + i) = true ->
      tracked (k + i) term' (t ++ d) (matcher s')) as Hnext.
  { intros s1 b1 E1 Ht Htr. destruct (touches_size _ _ _ Ht) as [Hfr Hl].
    destruct (IH (S k) s1 b1 s' E1) as (-> & [Hfr' Hl'] & Hag & Hrest).
    - cbn in Hlen. lia.
    - intros i term' Hi. apply (in_span_agree _ _ _ (matcher s)); [apply Ht; lia|].
      specialize (Hin (S i) term' Hi). by rewrite Nat.add_succ_r in Hin.
    - split; [done|]. split; [split; congruence|]. split.
      + intros j Hj. etrans; [apply Ht; lia|apply Hag; lia].
      + intros [|i] term' Hi Ha.
        * injection Hi as ->. rewrite Nat.add_0_r in *. eapply tracked_agree; [apply Hag; lia|]. auto.
        * rewrite Nat.add_succ_r in *. apply Hrest; [done|]. by rewrite (frame_active _ _ Hfr). }
  match type of E with (if ?c then _ else _) = _ => destruct c eqn:Hskip end.
  - eapply Hnext; [exact E|apply touches_refl|]. intros Ha. specialize (Hk Ha). rewrite Ha in Hskip.
    destruct (has (match_failed (matcher s)) k) eqn:Hf.
    + destruct (negb (match_key (matcher s)) && (has (match_icontains (matcher s)) k || has ac k));
        [done|]. destruct Hk as [Hk _]. by apply tracked_failed.
    + cbn in Hskip. rewrite <- andb_orb_distrib_r in Hskip. by rewrite Hskip in Hk.
  - destruct (has (match_active (matcher s)) k) eqn:Ha; [|done]. cbn in Hskip.
    apply orb_false_iff in Hskip as [Hskip Hac]. apply orb_false_iff in Hskip as [Hf Hic].
    specialize (Hk Ha). rewrite andb_orb_distrib_r, Hic, Hac in Hk. cbn in Hk.
    destruct Hk as [Htr Hkind].
    destruct (span_term_ok k term t d (matcher s)) as (m' & Em & Ht & Htr'); [|done..|].
    { cbn in Hlen. lia. }
    rewrite Em in E. eapply Hnext; [exact E|exact Ht|done].
Qed.

(** The contains functions leave the other terms to the loop. *)
Lemma spans_in_span t d m m1 m2 : feeding t m -> span_contained t d m m1 -> frame m2 = frame m1 ->
  (forall i term, terms !! i = Some term -> has (match_icontains m1) i = false -> agree i m1 m2) ->
  forall i term, terms !! i = Some term -> in_span (contains_active m) t d m2 i term.
Proof.
  intros Hf (Hfr1 & _ & H1) Hfr2 H2 i term Hi Ha.
  assert (frame m2 = frame m) as Hfr by congruence. rewrite (frame_active _ _ Hfr) in Ha.
  pose proof (feed_icontains _ _ _ Hf i term Hi Ha) as Hic.
  pose proof (feed_tracked _ _ _ Hf i term Hi Ha) as Htr.
  specialize (H1 i term Hi). specialize (H2 i term Hi).
  rewrite (has_contains_active m i term Hi) in *.
  rewrite (frame_key _ _ Hfr), (frame_icontains _ _ Hfr).
  rewrite (frame_icontains _ _ Hfr1) in H2. rewrite Ha, Hic in *. clear Hic.
  pose proof (frame_key _ _ Hfr) as Hkey2.
  destruct (match_key m) eqn:Hkey; cbn [negb andb orb] in *.
  { split; [|done]. eapply tracked_agree; [apply H2; done|].
    by eapply tracked_agree; [exact H1|]. }
  destruct (ignores_case term) eqn:Hn; cbn [negb andb orb] in *.
  { by apply tracked_ignored. }
  destruct (kind_is term LQL_JSON_FLAT_TERM_CONTAINS) eqn:Hc.
  - rewrite tracked_contains in Htr by done. destruct Htr as [Hfail _].
    rewrite Hfail in *. cbn in *. destruct H1 as [_ H1].
    by eapply tracked_agree; [apply H2|].
  - rewrite andb_false_r in *. split; [|done].
    eapply tracked_agree; [by apply H2|]. by eapply tracked_agree.
Qed.

Lemma match_span_feeding d t s s' : lql_json_match_span cfg d s = Some s' -> feeding t (matcher s) ->
  feeding (t ++ d) (matcher s') /\ frame (matcher s') = frame (matcher s).
Proof.
  unfold lql_json_match_span, nothing_active. intros E Hf.
  destruct ((length d =? 0)%nat) eqn:Ed.
  { apply Nat.eqb_eq, nil_length_inv in Ed as ->. injection E as <-. by rewrite app_nil_r. }
  destruct (is_empty (match_active (matcher s)) && _ && _) eqn:E0.
  { injection E as <-. split; [|done]. eapply feeding_idle; [|exact Hf]. apply is_empty_spec.
    by bool_hyps. }
  assert (d <> []) as Hd by by intros ->. cbn [orb] in E.
  set (s0 := on_temporal _ s) in E. change (feeding t (matcher s0)) in Hf.
  change (frame (matcher s)) with (frame (matcher s0)). clearbody s0. cbv zeta in E.
  apply bind_Some in E as (m1 & E1 & E). apply bind_Some in E as (m2 & E2 & E).
  apply bind_Some in E as ([b s3] & E3 & E).
  pose proof (contains_span_ok t d (matcher s0) m1 Hf E1 Hd) as H1.
  destruct (icontains_span_ok _ d m1 m2 E2) as (Hfr2 & Hl2 & H2).
  pose proof (spans_in_span t d _ _ _ Hf H1 Hfr2 H2) as Hin. destruct H1 as (Hfr1 & Hl1 & _).
  assert (frame m2 = frame (matcher s0)) as Hfr by congruence.
  assert (b = true /\ feeding (t ++ d) (matcher s3) /\ frame (matcher s3) = frame (matcher s0))
    as (-> & Hf3 & Hfr3).
  { destruct (is_empty (match_active m2)) eqn:Ea.
    - injection E3 as <- <-. split; [done|]. split; [|done]. cbn.
      apply (feeding_step cfg t _ (matcher s0)); [done|congruence|done|]. intros i term _ Ha.
      rewrite <- (frame_active _ _ Hfr), (is_empty_has _ _ Ea) in Ha. done.
    - apply (span_terms_ok (contains_active (matcher s0)) _ t) in E3 as (-> & [Hfr3 Hl3] & _ & Hall);
        change (matcher (s0 <| matcher := m2 |>)) with m2 in *.
      + split; [done|]. split; [|congruence].
        apply (feeding_step cfg t _ (matcher s0)); [congruence|congruence|done|].
        intros i term Hi Ha _. apply Hall; [done|]. by rewrite (frame_active _ _ Hfr).
      + cbn. rewrite Hl2, Hl1. apply Hf.
      + exact Hin. }
  cbn [negb orb] in E. destruct (is_empty (capture_active (capture s3))).
  - by injection E as <-.
  - apply capture_span_matcher in E. by rewrite E.
Qed.

(** *** Feeding *)

(** [fed t s s']: from [s] to [s'] the matcher was fed the text [t]. *)
Inductive fed : bytes -> lql_json_scan -> lql_json_scan -> Prop :=
| fed_still s s' : matcher s' = matcher s -> fed [] s s'
| fed_unwanted d s : bytes_wanted s = false -> fed d s s
| fed_byte c s s' : lql_json_match_byte cfg c s = Some s' -> fed [c] s s'
| fed_span d s s' : lql_json_match_span cfg d s = Some s' -> fed d s s'
| fed_app t1 t2 s1 s2 s3 : fed t1 s1 s2 -> fed t2 s2 s3 -> fed (t1 ++ t2) s1 s3.

Lemma fed_feeding t s s' : fed t s s' -> forall u, feeding u (matcher s) ->
  feeding (u ++ t) (matcher s') /\ frame (matcher s') = frame (matcher s).
Proof.
  induction 1 as [s s' E|d s E|c s s' E|d s s' E|t1 t2 s1 s2 s3 _ IH1 _ IH2]; intros u Hf.
  - by rewrite E, app_nil_r.
  - split; [|done]. eapply feeding_step; [done|done|exact Hf|]. intros i term _ Ha.
    apply tracked_failed. unfold bytes_wanted in E. apply orb_false_iff in E as [E _].
    apply orb_false_iff in E as [E _]. apply negb_false_iff, is_empty_has with (i := i) in E.
    autorewrite with has in E. rewrite Ha in E. by destruct (has (match_failed _) i).
  - by apply match_byte_feeding.
  - by apply match_span_feeding.
  - destruct (IH1 _ Hf) as [Hf1 Hfr1]. destruct (IH2 _ Hf1) as [Hf2 Hfr2].
    rewrite <- app_assoc in Hf2. split; [done|congruence].
Qed.
End fed.
