(* ===== verification/ScanMatches.v ===== *)
(** * Terms with a plain path

    The path of such a term is made of object keys: no array index, wildcard or
    recursive segment and no escape.  The masks of the program builder are then
    empty, and the functions of the scanner that look at the path see its
    segments.  Then the hits such a term gets from a text fed to it. *)

From S2P Require Import Prelude.
From S2P Require Import Selector.
From S2P Require Import ScanTerm.
From S2P Require Import ScanState.
From S2P Require Import ScanInput.
From S2P Require Import ScanMatch.
From S2P Require Import JsonScan.
From S2P Require Import FlatProgram.
From S2P Require Import ScanContains.
From S2P Require Import JsonTree.
From S2P Require Import ScanFeed.
From S2P Require Import ScanFed.

(** ** Plain terms *)

Definition term_segments (term : lql_json_flat_eq_term) : list bytes :=
  path_segments (default [] (term_path term)).

Record plain_term (term : lql_json_flat_eq_term) : Prop := {
  plain_path : exists rest, term_path term = Some (ch_slash :: rest);
  plain_count : path_segment_count term = length (term_segments term);
  plain_limit : (length (term_segments term) <= LQL_FLAT_EQ_TERM_CAPACITY)%nat;
  plain_field : Some (term_field term) = term_segments term !! 0%nat;
  plain_escapes : Forall (fun segment => ch_tilde ∉ segment) (term_segments term);
  plain_arrays : path_array_segments term = 0;
  plain_wildcards : wildcard_segments term = 0;
  plain_match : path_recursive_match term = None
}.

Lemma wildcards_none term : wildcard_segments term = 0 ->
  path_object_wildcards term = 0 /\ path_array_wildcards term = 0 /\
  path_any_wildcards term = 0 /\ path_recursive_segments term = 0.
Proof.
  unfold wildcard_segments. rewrite !Z.lor_eq_0_iff. tauto.
Qed.

(** The segment that the scanner finds in the text of the path. *)
Lemma skip_segments_spec n : forall text,
  (start ← skip_segments n text; Some (fst (Prelude.span (fun c => negb (c =? ch_slash)) start))) =
  split_slash text !! n.
Proof.
  induction n as [|n IH]; intros text; pose proof (split_slash_span text) as Hs; cbn [skip_segments];
    destruct (Prelude.span _ text) as [raw rest] eqn:E; rewrite Hs; cbn.
  - by rewrite E.
  - destruct rest as [|c rest]; [done|]. apply IH.
Qed.

Section plain.
Context (term : lql_json_flat_eq_term) (plain : plain_term term).

Lemma plain_nonempty : term_segments term <> [].
Proof. apply split_slash_nonempty. Qed.

Lemma plain_recursive : path_recursive_segments term = 0.
Proof. by apply wildcards_none, plain_wildcards. Qed.

Lemma plain_segment_at n : lql_json_term_path_segment term n = term_segments term !! n.
Proof.
  pose proof plain_nonempty as Hne. destruct plain as [[rest Hp] Hc Hl Hf _ _ _ Hm].
  unfold lql_json_term_path_segment. rewrite Hp, Hm, Hc.
  destruct (Nat.eqb_spec (length (term_segments term)) 0) as [E|_]; [by apply nil_length_inv in E|].
  cbn [bool_decide is_Some_None andb]. rewrite bool_decide_eq_false_2 by (by intros []). cbn [andb at_ nth].
  rewrite Z.eqb_refl. cbn [negb]. rewrite orb_false_r.
  destruct (Nat.leb_spec (length (term_segments term)) n); [by rewrite lookup_ge_None_2|].
  destruct (Nat.eqb_spec n 0) as [->|]; [done|].
  unfold path_text_segment. rewrite skip_segments_spec. unfold term_segments, path_segments.
  by rewrite Hp.
Qed.

Lemma plain_value_at n : lql_json_term_value_at term n = (length (term_segments term) =? S n)%nat.
Proof.
  unfold lql_json_term_value_at. destruct (List.find _ _) as [i|] eqn:E.
  - apply List.find_some in E as [_ E]. unfold terminal_recursive_segment in E.
    by rewrite plain_recursive, has_0 in E.
  - rewrite (plain_count _ plain). destruct (Nat.eqb_spec (length (term_segments term)) 0) as [E0|]; [|done].
    by apply nil_length_inv, plain_nonempty in E0.
Qed.

Lemma plain_anchor n : lql_json_term_terminal_recursive_anchor term n = false.
Proof.
  unfold lql_json_term_terminal_recursive_anchor. apply not_true_is_false. rewrite existsb_exists.
  intros (i & _ & H). unfold terminal_recursive_segment in H. by rewrite plain_recursive, has_0 in H.
Qed.

(** The segment a key is compared with is the depth. *)
Lemma plain_active_segment cfg m i depth fallback :
  lql_json_active_path_segment cfg m term i depth fallback = fallback.
Proof. unfold lql_json_active_path_segment. by rewrite plain_recursive. Qed.

(** Comparing a segment with a key. *)
Lemma pointer_loop_plain target : ch_tilde ∉ target -> forall key pos, (pos <= length target)%nat ->
  pointer_segment_loop target pos key = bytes_eqb (drop pos target) key.
Proof.
  intros Ht. induction key as [|k key IH]; intros pos Hp; cbn [pointer_segment_loop].
  - apply eq_true_iff_eq. rewrite Nat.eqb_eq, bytes_eqb_eq. split.
    + intros ->. by rewrite drop_ge.
    + intros E. apply (f_equal length) in E. rewrite length_drop in E. cbn in E. lia.
  - destruct (Nat.ltb_spec pos (length target)) as [Hl|Hl].
    + destruct (lookup_lt_is_Some_2 _ _ Hl) as [c Hc].
      assert (lql_json_pointer_target_byte target pos = Some (c, 1%nat)) as ->.
      { unfold lql_json_pointer_target_byte. rewrite (drop_S _ _ _ Hc).
        destruct (drop (S pos) target); [done|]. destruct (Z.eqb_spec c ch_tilde) as [->|]; [|done].
        by apply list_elem_of_lookup_2 in Hc. }
      rewrite Nat.add_1_r, IH, (drop_S _ _ _ Hc) by lia. unfold bytes_eqb.
      destruct (Z.eqb_spec c k) as [->|Hn].
      * apply bool_decide_ext. split; [by intros ->|by intros [= ->]].
      * symmetry. apply bool_decide_eq_false_2. congruence.
    + rewrite drop_ge by lia. done.
Qed.

Lemma segment_equal_plain target b key : ch_tilde ∉ target ->
  lql_json_plain_segment_equal target b key = bytes_eqb target key.
Proof.
  intros Ht. unfold lql_json_plain_segment_equal, lql_json_pointer_segment_equal. case_if; [done|].
  rewrite (pointer_loop_plain _ Ht) by lia. done.
Qed.

Lemma plain_no_escape n segment : term_segments term !! n = Some segment -> ch_tilde ∉ segment.
Proof. intros H. pose proof (plain_escapes _ plain) as Hf. by eapply list.Forall_lookup in Hf. Qed.

Lemma plain_key_equal n key :
  lql_json_term_segment_matches_object_key term n key =
  match term_segments term !! n with Some segment => bytes_eqb segment key | None => false end.
Proof.
  unfold lql_json_term_segment_matches_object_key.
  destruct (Nat.leb_spec LQL_JSON_PATH_SEGMENT_CAPACITY n) as [Hn|Hn].
  { rewrite lookup_ge_None_2; [done|]. pose proof (plain_limit _ plain).
    unfold LQL_FLAT_EQ_TERM_CAPACITY, LQL_JSON_PATH_SEGMENT_CAPACITY in *. lia. }
  destruct (wildcards_none _ (plain_wildcards _ plain)) as (H1 & H2 & H3 & H4).
  unfold object_wildcard_segments. rewrite H1, H2, H3, H4. change (Z.lor (Z.lor 0 0) 0) with 0.
  rewrite !has_0. destruct (Nat.eqb_spec n 0) as [->|Hn0].
  - pose proof (plain_field _ plain) as Hf. rewrite <- Hf. apply segment_equal_plain.
    by eapply plain_no_escape.
  - rewrite plain_segment_at. destruct (term_segments term !! n) as [segment|] eqn:E; [|done].
    rewrite (plain_match _ plain). rewrite bool_decide_eq_false_2 by (by intros []). cbn [andb].
    apply (segment_equal_plain _ false). by eapply plain_no_escape.
Qed.
End plain.

(** ** From the start of a match to its hits

    [lql_json_match_start] and [lql_json_match_start_key] put the terms at the empty
    text; after a text was fed, [lql_json_match_complete] is the mask of the terms
    whose target the text is, begins with or contains. *)

(** What matching a text leaves alone: the hits and the paths. *)
Definition base (m : scan_matcher) : scan_matcher :=
  m <| match_active := 0 |> <| match_failed := 0 |> <| match_contains := 0 |>
    <| match_icontains := 0 |> <| match_case_bytes := [] |> <| match_case_need := 0%nat |>
    <| match_pos := [] |> <| match_term_segment := [] |> <| match_key := false |>
    <| match_path_segment := 0%nat |>.

Lemma frame_base m m' : frame m' = frame m -> base m' = base m.
Proof. by apply frame_field. Qed.

(** The comparisons of a known kind with another one. *)
Ltac settle_decisions :=
  repeat match goal with
  | |- context [bool_decide (?a = ?b)] =>
      let v := eval vm_compute in (bool_decide (a = b)) in
      change (bool_decide (a = b)) with v in *
  | H : context [bool_decide (?a = ?b)] |- _ =>
      let v := eval vm_compute in (bool_decide (a = b)) in
      change (bool_decide (a = b)) with v in *
  end.

Section matches.
Context (cfg : scan_config).
#[local] Abbreviation terms := (flat_terms cfg).
#[local] Abbreviation feeding := (feeding cfg).

(** *** Starting *)

(** What is kept of the matcher and of term [i] by a round of another term. *)
Record start_kept (i : nat) (m m' : scan_matcher) : Prop := {
  sk_base : base m' = base m;
  sk_active : match_active m' = match_active m;
  sk_key : match_key m' = match_key m;
  sk_failed : match_failed m' = match_failed m;
  sk_contains : match_contains m' = match_contains m;
  sk_positions : length (match_pos m') = length (match_pos m);
  sk_segments : length (match_term_segment m') = length (match_term_segment m);
  sk_icontains : has (match_icontains m') i = has (match_icontains m) i;
  sk_position : position m' i = position m i;
  sk_segment : nth i (match_term_segment m') 0%nat = nth i (match_term_segment m) 0%nat
}.

#[local] Instance start_kept_preorder i : PreOrder (start_kept i).
Proof. split; [by split|]. intros a b c [] []. split; congruence. Qed.

Lemma nth_insert (l : list nat) i j x :
  nth j (<[i := x]> l) 0%nat = if (i =? j)%nat && (i <? length l)%nat then x else nth j l 0%nat.
Proof.
  rewrite !nth_lookup. destruct (Nat.eqb_spec i j) as [->|Hn]; cbn -[Nat.ltb].
  - destruct (Nat.ltb_spec j (length l)) as [Hl|Hl].
    + by rewrite list_lookup_insert_eq.
    + by rewrite list_insert_ge by lia.
  - by rewrite list_lookup_insert_ne.
Qed.

Lemma start_term_kept active key seg i j term m : i <> j ->
  start_kept i m (match_start_term active key seg j term m).
Proof.
  intros Hn. unfold match_start_term. destruct (has active j); [|reflexivity]. cbv zeta.
  case_if; split; try done; cbn; rewrite ?length_insert; try done; autorewrite with has;
    rewrite ?(proj2 (Nat.eqb_neq j i)), ?orb_false_r by lia; try done;
    unfold position; cbn; rewrite nth_insert, (proj2 (Nat.eqb_neq j i)) by lia; done.
Qed.

Lemma start_term_own active key seg i term m : has active i = true ->
  let m' := match_start_term active key seg i term m in
  position m' i = 0%nat /\
  has (match_icontains m') i = has (match_icontains m) i || negb key && ignores_case term /\
  ((i < length (match_term_segment m))%nat -> nth i (match_term_segment m') 0%nat = seg).
Proof.
  intros Ha. unfold match_start_term, ignores_case. rewrite Ha. cbv zeta.
  assert (nth i (<[i:=0%nat]> (match_pos m)) 0%nat = 0%nat) as Hp.
  { rewrite nth_insert, Nat.eqb_refl. cbn -[Nat.ltb].
    destruct (Nat.ltb_spec i (length (match_pos m))); [done|]. by apply nth_overflow. }
  assert ((i < length (match_term_segment m))%nat ->
    nth i (<[i:=seg]> (match_term_segment m)) 0%nat = seg) as Hs.
  { intros Hl. by rewrite nth_insert, Nat.eqb_refl, (proj2 (Nat.ltb_lt _ _) Hl). }
  case_if; unfold position; cbn; autorewrite with has;
    rewrite ?Nat.eqb_refl, ?orb_false_r, ?orb_true_r; auto.
Qed.

(** The state of a term when the match of a text begins. *)
Record started (active : Z) (key : bool) (seg : nat) (m m' : scan_matcher) : Prop := {
  st_base : base m' = base m;
  st_active : match_active m' = active;
  st_key : match_key m' = key;
  st_failed : match_failed m' = 0;
  st_contains : match_contains m' = 0;
  st_positions : length (match_pos m') = length (match_pos m);
  st_segments : length (match_term_segment m') = length (match_term_segment m);
  st_term : forall i term, terms !! i = Some term -> has active i = true ->
    position m' i = 0%nat /\ has (match_icontains m') i = negb key && ignores_case term /\
    ((i < length (match_term_segment m))%nat -> nth i (match_term_segment m') 0%nat = seg)
}.

Lemma match_start_started active key seg m :
  started active key seg m (lql_json_match_start cfg active key seg m).
Proof.
  unfold lql_json_match_start. cbv zeta. match goal with |- context [each _ _ ?x] => set (m0 := x) end.
  assert (Hall : forall i, (length terms <= i)%nat ->
    start_kept i m0 (each (match_start_term active key seg) terms m0)).
  { intros i Hi. apply (each_keeps (start_kept i)). intros j term a Hj. apply start_term_kept.
    apply lookup_lt_Some in Hj. lia. }
  destruct (Hall (length terms) ltac:(lia)) as [H1 H2 H3 H4 H5 H6 H7 _ _ _].
  split; try done.
  intros i term Hi Ha.
  destruct (each_round start_kept _ (match_start_term active key seg) terms) with (a := m0) (i := i) (x := term)
    as (b & Hb & Hb'); [|done|].
  { intros i' j x a Hn. by apply start_term_kept. }
  destruct Hb' as [_ _ _ _ _ _ _ Hic Hp Hs]. rewrite Hic, Hp, Hs.
  destruct Hb as [_ _ _ _ _ Hlp Hls Hbi Hbp Hbs].
  destruct (start_term_own active key seg i term b Ha) as (-> & -> & Hseg). rewrite Hbi, Hls in *.
  split; [done|]. split; [|exact Hseg]. subst m0. cbn. by rewrite has_0.
Qed.

(** A term whose contains table is the one the program builds. *)
Definition contains_ready (term : lql_json_flat_eq_term) : Prop :=
  term_kind term = LQL_JSON_FLAT_TERM_CONTAINS -> term_value term <> [] ->
  exists failure, contains_failure term = Some failure /\
    border_table (term_value term) (length (term_value term)) failure.

(** A match of a value begins with the empty text. *)
Lemma start_value_feeding active m : Forall contains_ready terms ->
  (length terms <= length (match_pos m))%nat ->
  feeding [] (lql_json_match_start cfg active false 0 m).
Proof.
  intros Hc Hl. destruct (match_start_started active false 0 m) as [_ Ha Hk Hf Hcon Hp _ Hterm].
  split.
  - by rewrite Hp.
  - intros i term Hi. rewrite Ha, Hk. intros Hact. by destruct (Hterm i term Hi Hact) as (_ & -> & _).
  - intros i term Hi. rewrite Ha. intros Hact. destruct (Hterm i term Hi Hact) as (Hpos & _ & _).
    unfold tracked. rewrite Hk, Hf, Hcon, Hpos, has_0. pose proof (at_text_nil true (term_value term)).
    pose proof (at_text_nil false (term_value term)).
    eapply list.Forall_lookup in Hc; [|exact Hi]. unfold contains_ready in Hc.
    destruct (term_kind term); try done. split; [done|].
    destruct (decide (term_value term = [])) as [E|E]; [by left|right].
    destruct (Hc eq_refl E) as (failure & Hfail & _). split; [done|]. by exists failure.
Qed.

(** A match of a key begins with the empty text, each term at segment [seg] of its
    path. *)
Lemma start_key_term_kept ordinary seg i j term m : i <> j ->
  start_kept i m (match_start_key_term cfg ordinary 0 seg j term m).
Proof.
  intros Hn. unfold match_start_key_term. rewrite has_0. case_if; [|reflexivity].
  split; try done; cbn; rewrite ?length_insert; try done.
  by rewrite nth_insert, (proj2 (Nat.eqb_neq j i)) by lia.
Qed.

Lemma start_key_started ordinary seg m : Forall plain_term terms ->
  started ordinary true seg m (lql_json_match_start_key cfg ordinary 0 seg m).
Proof.
  intros Hplain. unfold lql_json_match_start_key. rewrite Z.lor_0_r.
  destruct (match_start_started ordinary true seg m) as [H1 H2 H3 H4 H5 H6 H7 H8].
  set (m0 := lql_json_match_start cfg ordinary true seg m) in *.
  assert (Hall : start_kept (length terms) m0 (each (match_start_key_term cfg ordinary 0 seg) terms m0)).
  { apply (each_keeps (start_kept _)). intros j term a Hj. apply start_key_term_kept.
    apply lookup_lt_Some in Hj. lia. }
  destruct Hall as [K1 K2 K3 K4 K5 K6 K7 _ _ _]. split; try congruence.
  intros i term Hi Ha. destruct (H8 i term Hi Ha) as (Hp & Hic & Hs).
  destruct (each_round start_kept _ (match_start_key_term cfg ordinary 0 seg) terms)
    with (a := m0) (i := i) (x := term) as (b & Hb & Hb'); [|done|].
  { intros i' j x a Hn. by apply start_key_term_kept. }
  destruct Hb' as [_ _ _ _ _ _ _ -> -> ->]. destruct Hb as [_ _ _ _ _ _ Hlb Hib Hpb Hsb].
  unfold match_start_key_term. rewrite Ha.
  eapply list.Forall_lookup in Hplain; [|exact Hi].
  rewrite (plain_active_segment term Hplain). unfold position in *. cbn in Hic |- *.
  split; [congruence|]. split; [congruence|]. intros Hl.
  rewrite nth_insert, Nat.eqb_refl, (proj2 (Nat.ltb_lt _ _)); [done|]. congruence.
Qed.

Lemma key_target_segment m term i seg : plain_term term ->
  nth i (match_term_segment m) 0%nat = seg -> key_target m term i = term_segments term !! seg.
Proof.
  intros Hp Hs. unfold key_target. rewrite Hs. destruct (Nat.eqb_spec seg 0) as [->|].
  - apply plain_field, Hp.
  - by apply plain_segment_at.
Qed.

Lemma start_key_feeding ordinary seg m : Forall plain_term terms ->
  (length terms <= length (match_pos m))%nat -> (length terms <= length (match_term_segment m))%nat ->
  (forall i term, terms !! i = Some term -> has ordinary i = true ->
    (seg < length (term_segments term))%nat) ->
  feeding [] (lql_json_match_start_key cfg ordinary 0 seg m).
Proof.
  intros Hplain Hl Hls Hseg.
  destruct (start_key_started ordinary seg m Hplain) as [_ Ha Hk Hf _ Hp _ Hterm]. split.
  - by rewrite Hp.
  - intros i term Hi. rewrite Ha, Hk. intros Hact. by destruct (Hterm i term Hi Hact) as (_ & -> & _).
  - intros i term Hi. rewrite Ha. intros Hact.
    destruct (Hterm i term Hi Hact) as (Hpos & _ & Hs).
    unfold tracked. rewrite Hk, Hf, Hpos, has_0.
    eapply list.Forall_lookup in Hplain; [|exact Hi].
    destruct (lookup_lt_is_Some_2 _ _ (Hseg i term Hi Hact)) as [target Ht]. exists target.
    split; [|split; [by eapply plain_no_escape|apply at_text_nil]].
    rewrite <- Ht. apply key_target_segment; [done|]. apply Hs.
    apply lookup_lt_Some in Hi. lia.
Qed.

(** *** Completing *)

(** A key that was fed: the terms whose segment it is. *)
Lemma complete_key t m i term : feeding t m -> match_key m = true -> terms !! i = Some term ->
  has (lql_json_match_complete cfg m) i =
  has (match_active m) i &&
    match key_target m term i with Some target => bytes_eqb target t | None => false end.
Proof.
  intros Hf Hk Hi. unfold lql_json_match_complete. autorewrite with has. rewrite Hi, Hk. cbn [negb andb].
  destruct (has (match_active m) i) eqn:Ha; [|done]. cbn.
  pose proof (feed_tracked _ _ _ Hf i term Hi Ha) as Htr. unfold tracked in Htr. rewrite Hk in Htr.
  destruct Htr as (target & Ht & _ & Hat). rewrite Ht. rewrite <- (at_text_equal _ _ _ _ Hat).
  by destruct (has (match_failed m) i), (position m i =? length target)%nat.
Qed.

(** What a value term asks of a text. *)
Definition text_test (term : lql_json_flat_eq_term) (t : bytes) : bool :=
  match term_kind term with
  | LQL_JSON_FLAT_TERM_PREFIX => has_prefix (term_value term) t
  | LQL_JSON_FLAT_TERM_CONTAINS => occurs (term_value term) t
  | _ => bytes_eqb (term_value term) t
  end.

Lemma occurs_spec t s : occurs t s = true <-> exists a b, s = a ++ t ++ b.
Proof.
  induction s as [|c s IH]; cbn; rewrite orb_true_iff, has_prefix_spec.
  - split.
    + intros [[r Hr]|]; [|done]. by exists [], r.
    + intros (a & b & E). left. symmetry in E. apply app_eq_nil in E as [-> E].
      by exists b.
  - rewrite IH. split.
    + intros [[r Hr]|(a & b & ->)]; [by exists [], r|by exists (c :: a), b].
    + intros (a & b & E). destruct a as [|x a]; [left; by exists b|right].
      injection E as <- ->. by exists a, b.
Qed.

(** The contains matcher after a whole text. *)
Lemma contains_complete term t found pos : contains_ready term ->
  term_kind term = LQL_JSON_FLAT_TERM_CONTAINS -> contains_at term t found pos ->
  found || (pos =? length (term_value term))%nat = occurs (term_value term) t.
Proof.
  intros Hr Hk [[E ->]|(Hv & failure & Hf & Hrun)].
  - rewrite E, orb_true_r. symmetry. apply occurs_spec. by exists [], t.
  - destruct (Hr Hk Hv) as (failure' & Hf' & Htab). rewrite Hf in Hf'. injection Hf' as <-.
    assert (longest (term_value term) (length (term_value term)) 0 []) as Hstart.
    { split; [destruct (term_value term); [done|cbn; lia]|]. split; [apply ends_0|].
      intros j Hj [p Hp]. destruct j; [lia|]. destruct (term_value term); [done|].
      by apply symmetry, app_nil in Hp as [_ ?]. }
    destruct (kmp_bytes_spec _ _ t [] 0 false Htab Hstart) as (pos' & found' & E & Hfound & Hpos & _).
    rewrite Hrun in E. injection E as <- <-. rewrite (proj2 (Nat.eqb_neq pos _)), orb_false_r by lia.
    apply eq_true_iff_eq. rewrite Hfound, found_in_infix, occurs_spec by done. naive_solver.
Qed.

(** A value that was fed: the terms that test it. *)
Lemma complete_value t m i term : feeding t m -> match_key m = false -> terms !! i = Some term ->
  contains_ready term -> ignores_case term = false ->
  has (lql_json_match_complete cfg m) i = has (match_active m) i && text_test term t.
Proof.
  intros Hf Hk Hi Hr Hn. unfold lql_json_match_complete. autorewrite with has. rewrite Hi, Hk.
  destruct (has (match_active m) i) eqn:Ha; [|done]. cbn [negb andb].
  pose proof (feed_tracked _ _ _ Hf i term Hi Ha) as Htr. unfold tracked in Htr. rewrite Hk in Htr.
  unfold text_test, ignores_case, kind_is in *.
  destruct (term_kind term) eqn:Ek; settle_decisions; try discriminate Hn;
    cbn -[Nat.leb Nat.eqb]; rewrite ?orb_false_r; try by apply at_text_equal.
  - by apply at_text_prefix.
  - destruct Htr as [-> Hat]. cbn. by apply contains_complete.
Qed.
End matches.
