(* ===== verification/ScanText.v ===== *)
(** * Texts are read and fed

    Reading and writing leave the matcher alone; a string is fed as the characters
    it denotes, a literal and a number as their own bytes. *)

From S2P Require Import Prelude.
From S2P Require Import UnicodeProps.
From S2P Require Import Unicode.
From S2P Require Import Errors.
From S2P Require Import JsonSpool.
From S2P Require Import SpoolProps.
From S2P Require Import ScanTerm.
From S2P Require Import ScanState.
From S2P Require Import ScanInput.
From S2P Require Import ScanMatch.
From S2P Require Import JsonScan.
From S2P Require Import JsonGrammar.
From S2P Require Import JsonTree.
From S2P Require Import ScanSpan.
From S2P Require Import ScanLogic.
From S2P Require Import ScanReads.
From S2P Require Import ScanWrites.
From S2P Require Import ScanFed.

(** ** Computations that leave the matcher alone *)

Definition still {A} (m : Scan A) : Prop := forall s, ok m s (fun _ s' => matcher s' = matcher s).

Section still.
Context {A B : Type}.

Lemma still_ret (a : A) : still (mret a).
Proof. intros s. by apply ok_ret. Qed.
Lemma still_bind (m : Scan A) (f : A -> Scan B) : still m -> (forall a, still (f a)) -> still (m ≫= f).
Proof.
  intros Hm Hf s. eapply ok_bind; [apply Hm|]. intros a s1 H. eapply ok_impl; [apply Hf|].
  intros b s2 H'. congruence.
Qed.
Lemma still_gets (f : lql_json_scan -> A) : still (gets f).
Proof. intros s. by apply ok_gets. Qed.
Lemma still_modify f : (forall s, matcher (f s) = matcher s) -> still (modify f).
Proof. intros H s. by apply ok_modify. Qed.
Lemma still_defined (x : option A) : still (defined x).
Proof. intros s. by apply ok_defined. Qed.
Lemma still_stop status : still (A := A) (stop status).
Proof. done. Qed.
Lemma still_error message : still (A := A) (lql_json_error message).
Proof. done. Qed.
Lemma still_finish (r : A + lql_status) : still (finish r).
Proof. destruct r; [apply still_ret|done]. Qed.
Lemma still_or_error message (r : A + lql_status) : still (or_error message r).
Proof. destruct r; [apply still_ret|done]. Qed.
Lemma still_attempt_then (m : Scan A) (k : A + lql_status -> Scan B) :
  still m -> (forall a, still (k (inl a))) -> (forall st s Q, ok (k (inr st)) s Q) ->
  still (attempt m ≫= k).
Proof.
  intros Hm Hk Hf s. eapply ok_attempt_then; [apply Hm| |intros; apply Hf].
  intros a s1 H. eapply ok_impl; [apply Hk|]. intros b s2 H'. congruence.
Qed.
Lemma still_call_spool (m : W A) : still (call_spool m).
Proof.
  intros s a s'. unfold call_spool. destruct (m _ _) as [[[[st msg]|r] sp] e]; [done|]. by intros [= <- <-].
Qed.
End still.

Create HintDb still.
#[export] Hint Resolve still_ret still_gets still_defined still_stop still_error still_finish
  still_or_error still_call_spool : still.

(** [still] of a computation by its structure. *)
Ltac still_step :=
  match goal with
  | |- still (attempt _ ≫= _) => apply still_attempt_then; [|intros ?; cbv beta iota|fails]
  | |- still (_ ≫= _) => first [solve [auto with still nocore] | apply still_bind; [|intros ?]]
  | |- still (modify _) => first [solve [auto with still nocore] | apply still_modify; intros ?; try done]
  | |- still (if ?b then _ else _) => destruct b
  | |- still (match ?x with _ => _ end) => destruct x
  | |- still (let _ := _ in _) => cbv zeta
  | |- still _ => solve [auto with still nocore]
  end.
Ltac still := repeat still_step.

Lemma still_on_input f : still (modify (on_input f)).
Proof. by apply still_modify. Qed.
Lemma still_on_output f : still (modify (on_output f)).
Proof. by apply still_modify. Qed.
Lemma still_on_capture f : still (modify (on_capture f)).
Proof. by apply still_modify. Qed.
Lemma still_on_number f : still (modify (on_number f)).
Proof. by apply still_modify. Qed.
Lemma still_on_temporal f : still (modify (on_temporal f)).
Proof. by apply still_modify. Qed.
#[export] Hint Resolve still_on_input still_on_output still_on_capture still_on_number still_on_temporal : still.

Lemma still_refill : still lql_json_refill.
Proof.
  unfold lql_json_refill. still; try by intros ? ? ? [= <- <-].
Qed.
#[export] Hint Resolve still_refill : still.
Lemma still_peek : still lql_json_peek.
Proof. unfold lql_json_peek. still. Qed.
Lemma still_advance : still advance.
Proof. unfold advance. still. Qed.
#[export] Hint Resolve still_peek still_advance : still.
Lemma still_take : still lql_json_take.
Proof. unfold lql_json_take. still. Qed.
#[export] Hint Resolve still_take : still.
Lemma still_take_expected v : still (lql_json_take_expected v).
Proof. unfold lql_json_take_expected. still. Qed.
Lemma still_skip_space_loop fuel : forall b, still (skip_space_loop fuel b).
Proof. induction fuel as [|fuel IH]; intros b; cbn [skip_space_loop]; still. Qed.
#[export] Hint Resolve still_take_expected still_skip_space_loop : still.
Lemma still_skip_space : still lql_json_skip_space.
Proof. unfold lql_json_skip_space. still. Qed.
Lemma still_take_hex_loop n : forall v raw, still (take_hex_loop n v raw).
Proof. induction n as [|n IH]; intros v raw; cbn [take_hex_loop]; still. Qed.
#[export] Hint Resolve still_skip_space still_take_hex_loop : still.
Lemma still_take_hex4 : still lql_json_take_hex4.
Proof. unfold lql_json_take_hex4. still. Qed.
Lemma still_advance_by n : still (advance_by n).
Proof. unfold advance_by. still. Qed.
Lemma still_take_continuation low high : still (take_continuation low high).
Proof. unfold take_continuation. still. Qed.
#[export] Hint Resolve still_take_hex4 still_advance_by still_take_continuation : still.
Lemma still_skip_continuations n : forall low high, still (skip_continuations n low high).
Proof. induction n as [|n IH]; intros low high; cbn [skip_continuations]; still. Qed.
Lemma still_skip_unicode_escape : still skip_unicode_escape.
Proof. unfold skip_unicode_escape. still. Qed.
#[export] Hint Resolve still_skip_continuations still_skip_unicode_escape : still.
Lemma still_skip_string_loop fuel : still (skip_string_loop fuel).
Proof. induction fuel as [|fuel IH]; cbn [skip_string_loop]; still. Qed.
#[export] Hint Resolve still_skip_string_loop : still.
Lemma still_skip_string_fast : still lql_json_skip_string_fast.
Proof. unfold lql_json_skip_string_fast. still. Qed.
Lemma still_skip_literal_fast l : still (lql_json_skip_literal_fast l).
Proof. induction l as [|c l IH]; cbn [lql_json_skip_literal_fast]; still. Qed.
Lemma still_skip_digits_loop fuel : still (skip_digits_loop fuel).
Proof. induction fuel as [|fuel IH]; cbn [skip_digits_loop]; still. Qed.
#[export] Hint Resolve still_skip_string_fast still_skip_literal_fast still_skip_digits_loop : still.
Lemma still_skip_number_fast : still lql_json_skip_number_fast.
Proof.
  unfold lql_json_skip_number_fast, skip_number_integer, skip_number_fraction, skip_number_exponent,
    skip_digits. still.
Qed.
Lemma still_on_depth f : still (on_depth f).
Proof. unfold on_depth. still. Qed.
#[export] Hint Resolve still_skip_number_fast still_on_depth : still.
Lemma still_enter : still enter.
Proof. unfold enter. still. Qed.
Lemma still_leave : still leave.
Proof. unfold leave. still. Qed.
#[export] Hint Resolve still_enter still_leave : still.
Lemma still_skip_value fuel : still (skip_value fuel) /\ (forall c, still (skip_members fuel c)) /\
  still (skip_elements fuel).
Proof.
  induction fuel as [|fuel (IHv & IHm & IHe)]; [done|]. cbn [skip_value skip_members skip_elements].
  repeat split; intros; still.
Qed.
Lemma still_skip_value_fast : still lql_json_skip_value_fast.
Proof. unfold lql_json_skip_value_fast. apply still_bind; [apply still_gets|]. intros n. apply still_skip_value. Qed.
#[export] Hint Resolve still_skip_value_fast : still.

Section output.
Context (cfg : scan_config) (parse_double : bytes -> option spec_float).

Lemma still_make_room : still make_room.
Proof. unfold make_room, drain, lql_json_spool_write. still. Qed.
#[local] Hint Resolve still_make_room : still.
Lemma still_write_loop fuel : forall data, still (write_loop fuel data).
Proof. induction fuel as [|fuel IH]; intros [|c data]; cbn [write_loop]; still. Qed.
#[local] Hint Resolve still_write_loop : still.
Lemma still_write data : still (lql_json_write cfg data).
Proof. unfold lql_json_write. still. Qed.
Lemma still_copy_byte v : still (lql_json_copy_byte cfg v).
Proof. unfold lql_json_copy_byte, lql_json_write_byte. still. Qed.
Lemma still_number_range_byte v : still (lql_json_number_range_byte cfg v).
Proof. unfold lql_json_number_range_byte. still. Qed.
Lemma still_at_depth array d : still (at_depth array d).
Proof. unfold at_depth. still. Qed.
Lemma still_temporal_start active : still (temporal_start active).
Proof. unfold temporal_start. still. Qed.
Lemma still_number_start active : still (number_start cfg active).
Proof. unfold number_start. still. Qed.
Lemma still_record_captures mask start : still (modify (record_captures cfg mask start)).
Proof. by apply still_modify. Qed.
End output.

#[export] Hint Resolve still_write still_copy_byte still_number_range_byte still_at_depth
  still_temporal_start still_number_start still_record_captures : still.

Section text.
Context {content : bytes -> lql_json_spool -> Prop} `{laws : !SpoolLaws content} (cfg : scan_config).
Implicit Types (s : lql_json_scan).
#[local] Abbreviation moves := (moves (content := content)).
#[local] Abbreviation fed := (fed cfg).

(** ** Reading and feeding *)

(** [steps w t s s']: from [s] to [s'] the bytes [w] were read and the text [t]
    fed. *)
Definition steps (w t : bytes) (s s' : lql_json_scan) : Prop :=
  (exists c o, moves w c o s s') /\ fed t s s'.

Lemma steps_trans w1 t1 w2 t2 s1 s2 s3 : steps w1 t1 s1 s2 -> steps w2 t2 s2 s3 ->
  steps (w1 ++ w2) (t1 ++ t2) s1 s3.
Proof.
  intros [(c1 & o1 & M1) F1] [(c2 & o2 & M2) F2]. split; [|by eapply fed_app].
  eexists _, _. by eapply moves_trans.
Qed.

Lemma steps_io w c o s s' : moves w c o s s' -> matcher s' = matcher s -> steps w [] s s'.
Proof. intros M E. split; [by eexists _, _|by apply fed_still]. Qed.

Lemma steps_match t s s' : moves [] [] [] s s' -> fed t s s' -> steps [] t s s'.
Proof. intros M F. split; [by eexists _, _|done]. Qed.

Lemma steps_refl s : steps [] [] s s.
Proof. eapply steps_io; [apply moves_refl|done]. Qed.

Lemma steps_eq w t w' t' s s' : steps w t s s' -> w = w' -> t = t' -> steps w' t' s s'.
Proof. by intros H <- <-. Qed.

Lemma steps_sane w t s s' : steps w t s s' -> sane s -> sane s' /\ room s' = room s.
Proof. intros [(c & o & M) _]. by eapply moves_sane. Qed.

Lemma ok_still {A} (m : Scan A) s P : ok m s P -> still m ->
  ok m s (fun a s' => P a s' /\ matcher s' = matcher s).
Proof. intros Hm Hs. by apply ok_and; [|apply Hs]. Qed.

Lemma fed_bytes data : forall s s', match_bytes_while cfg (fun _ => true) data s = Some s' -> fed data s s'.
Proof.
  induction data as [|v data IH]; intros s s' E; cbn in E.
  - injection E as <-. by apply fed_still.
  - apply bind_Some in E as (s1 & E1 & E). apply (fed_app _ [v] data _ s1); [by apply fed_byte|by apply IH].
Qed.

(** A computation that only matches. *)
Lemma quiet_fed (m : Scan unit) t s : quiet m -> ok m s (fun _ => fed t s) ->
  ok m s (fun _ => steps [] t s).
Proof.
  intros Hq Hm. eapply ok_impl; [by apply ok_and; [apply (quiet_moves (content := content)), Hq|exact Hm]|].
  cbv beta. intros [] s' [M F]. by apply steps_match.
Qed.

Lemma match_byte_fed v s : ok (match_byte cfg v) s (fun _ => steps [] [v] s).
Proof. apply quiet_fed; [auto with quiet|]. apply ok_run. intros s'. by apply fed_byte. Qed.

Lemma unicode_bytes_arith v : scalar v -> unicode_bytes v = utf8_arith v.
Proof.
  intros Hv. pose proof (utf8_bytes_arith v Hv) as E. unfold utf8_bytes in E.
  destruct Hv as [Hv Hs]. rewrite (proj2 (orb_false_iff _ _)) in E by lia. unfold unicode_bytes.
  destruct (Z.ltb_spec v 0x80), (Z.ltb_spec v 0x800), (Z.ltb_spec v 0x10000); try lia;
    destruct (Z.leb_spec v 0x7f), (Z.leb_spec v 0x7ff), (Z.leb_spec v 0xffff); try lia; by injection E.
Qed.

Lemma match_unicode_fed v s : scalar v -> ok (match_unicode cfg v) s (fun _ => steps [] (utf8_arith v) s).
Proof.
  intros Hv. rewrite <- unicode_bytes_arith by done. apply quiet_fed; [auto with quiet|].
  apply ok_run. intros s'. apply fed_bytes.
Qed.

Lemma match_plain_span_fed d s : ok (match_plain_span cfg d) s (fun _ => steps [] d s).
Proof.
  apply quiet_fed; [auto with quiet|]. unfold match_plain_span. apply ok_gets_then.
  destruct (bytes_wanted s) eqn:E.
  - apply ok_run. intros s'. by apply fed_span.
  - apply ok_ret. by apply fed_unwanted.
Qed.
End text.

(** [steps _ _ s s'] from what the context says of the states between them. *)
Ltac steps_link := first [eassumption | eapply steps_io; eassumption].
Ltac link_steps := first [steps_link | eapply steps_trans; [steps_link | link_steps]].
Ltac chain_steps := cbv beta in *; eapply steps_eq; [link_steps|same_text..].

(** The next step of a sequence, one that reads or writes. *)
Tactic Notation "io" uconstr(L) "as" simple_intropattern(p) simple_intropattern(q) simple_intropattern(r) :=
  eapply ok_bind; [eapply ok_still; [eapply L|solve [still]]|cbv beta; intros p q r].

Section strings.
Context {content : bytes -> lql_json_spool -> Prop} `{laws : !SpoolLaws content} (cfg : scan_config).
Implicit Types (s : lql_json_scan).
#[local] Abbreviation moves := (moves (content := content)).
#[local] Abbreviation fed := (fed cfg).
#[local] Abbreviation steps := (steps (content := content) cfg).

(** ** Strings *)

Lemma string_continuations_fed n : forall low high s, ok (string_continuations cfg n low high) s
  (fun _ s' => exists t, continues n low high t /\ steps t t s s').
Proof.
  induction n as [|n IH]; intros low high s; cbn [string_continuations].
  - apply ok_ret. exists []. split; [done|apply steps_refl].
  - io take_continuation_ok as c s1 [[Hc M1] E1]. io copy_byte_ok as [] s2 [M2 E2].
    step match_byte_fed as [] s3 M3.
    eapply ok_impl; [apply IH|]. intros [] s4 (t & Ht & M4). exists (c :: t). split; [done|chain_steps].
Qed.

(** What follows a backslash and a u, with the text it denotes. *)
Inductive unicode_denotes : bytes -> bytes -> Prop :=
| denotes_one h v : hex4_text h v -> ~ high_surrogate v -> ~ low_surrogate v ->
    unicode_denotes h (utf8_arith v)
| denotes_two h v h' v' : hex4_text h v -> high_surrogate v -> hex4_text h' v' -> low_surrogate v' ->
    unicode_denotes (h ++ ch_backslash :: ch_u :: h') (utf8_arith (paired v v')).

Lemma chars_text_unicode u t b t' : unicode_denotes u t -> chars_text b t' ->
  chars_text (ch_backslash :: ch_u :: u ++ b) (t ++ t').
Proof.
  intros [h v H1 H2 H3|h v h' v' H1 H2 H3 H4] Hb; [by eapply text_unicode|].
  rewrite <- app_assoc. cbn [app]. by eapply text_pair.
Qed.

Lemma hex4_range h v : hex4_text h v -> 0 <= v < 0x10000.
Proof. unfold hex4_text, hex_digit. intros (?&?&?&?&v1&v2&v3&v4&_&H1&H2&H3&H4&->). lia. Qed.

Lemma string_unicode_escape_fed s : ok (string_unicode_escape cfg) s (fun _ s' =>
  exists u t, unicode_denotes u t /\ steps u t s s').
Proof.
  unfold string_unicode_escape. io copy_byte_ok as [] s1 [M1 E1].
  io take_hex4_ok as [v h] s2 [[H2 M2] E2]. cbn [fst snd] in *. io write_ok as [] s3 [M3 E3].
  pose proof (hex4_range _ _ H2) as Hv.
  destruct (is_low_surrogate v) eqn:El; [apply ok_error|].
  destruct (is_high_surrogate v) eqn:Eh; cbn [negb].
  - io take_expected_ok as [] s4 [M4 E4]. io copy_byte_ok as [] s5 [M5 E5].
    io take_expected_ok as [] s6 [M6 E6]. io copy_byte_ok as [] s7 [M7 E7].
    io take_hex4_ok as [v' h'] s8 [[H8 M8] E8]. cbn [fst snd] in *. io write_ok as [] s9 [M9 E9].
    destruct (is_low_surrogate v') eqn:El'; cbn [negb]; [|apply ok_error].
    apply high_surrogate_spec in Eh. apply low_surrogate_spec in El'.
    assert (0x10000 + Z.shiftl (v - 0xd800) 10 + (v' - 0xdc00) = paired v v') as ->.
    { unfold paired. rewrite Z.shiftl_mul_pow2 by lia. lia. }
    eapply ok_impl; [apply (match_unicode_fed (content := content))|].
    { unfold scalar, paired, high_surrogate, low_surrogate in *. lia. }
    intros [] s10 M10. exists (h ++ ch_backslash :: ch_u :: h'), (utf8_arith (paired v v')).
    split; [by constructor|chain_steps].
  - assert (~ high_surrogate v) as Hh by by rewrite <- high_surrogate_spec, Eh.
    assert (~ low_surrogate v) as Hl by by rewrite <- low_surrogate_spec, El.
    eapply ok_impl; [apply (match_unicode_fed (content := content))|].
    { unfold scalar, high_surrogate, low_surrogate in *. lia. }
    intros [] s4 M4. exists h, (utf8_arith v). split; [by constructor|chain_steps].
Qed.

Lemma escape_pair e : simple_escape e = true -> In (e, escaped_byte e) escape_pairs.
Proof.
  intros H. apply simple_escape_spec in H. cbn in H.
  repeat (destruct H as [<-|H]; [vm_compute; tauto|]). done.
Qed.

Lemma chars_text_ascii c b t : 0x20 <= c < 0x80 -> c <> ch_quote -> c <> ch_backslash ->
  chars_text b t -> chars_text (c :: b) (c :: t).
Proof.
  intros H Hq Hb Hc. pose proof (text_scalar c b t) as K. unfold utf8_arith in K.
  rewrite (proj2 (Z.ltb_lt c 0x80)) in K by lia. apply K; try done; [|lia]. unfold scalar. lia.
Qed.

Lemma chars_text_plain l b t : Forall (fun c => plain_byte c = true) l -> chars_text b t ->
  chars_text (l ++ b) (l ++ t).
Proof.
  intros Hl Hb. induction Hl as [|c l Hc _ IH]; [done|]. cbn. unfold plain_byte in Hc.
  bool_hyps. apply chars_text_ascii; [lia..|done].
Qed.

(** A piece of the string and the rest of it. *)
Definition reads_chars (s s' : lql_json_scan) : Prop :=
  exists b t, chars_text b t /\ steps (b ++ [ch_quote]) t s s'.

Lemma piece_chars s s1 s2 x tx : steps x tx s s1 ->
  (forall b t, chars_text b t -> chars_text (x ++ b) (tx ++ t)) ->
  reads_chars s1 s2 -> reads_chars s s2.
Proof.
  intros M1 Hx (b & t & Hb & M2). exists (x ++ b), (tx ++ t). split; [by apply Hx|chain_steps].
Qed.

Lemma string_chars_fed fuel : forall s, sane s -> ok (string_loop cfg fuel) s (fun _ => reads_chars s).
Proof.
  induction fuel as [|fuel IH]; intros s Hs; [done|]. cbn [string_loop].
  io refill_ok as [] s1 [[M1 _] E1]. pose proof (moves_spaces_bytes _ _ _ _ _ M1 Hs) as Hs1.
  apply ok_gets_then. destruct (buffer (input s1)) as [|v data] eqn:Eb; [apply ok_error|]. cbv zeta.
  destruct (ascii_span_ok (content := content) s1 (proj1 Hs1)) as [Ha Hp]. rewrite Eb in Ha, Hp.
  assert (forall x tx s2, steps x tx s1 s2 -> (forall b t, chars_text b t -> chars_text (x ++ b) (tx ++ t)) ->
    ok (string_loop cfg fuel) s2 (fun _ => reads_chars s)) as Hnext.
  { intros x tx s2 M2 Hx. assert (steps x tx s s2) as M by chain_steps.
    eapply ok_impl; [apply IH; by eapply steps_sane|]. intros [] s3 R. by eapply piece_chars. }
  set (n := lql_json_plain_ascii_span _) in *. destruct (n =? 0)%nat; cbn [negb].
  2:{ io Ha as [] s2 [M2 E2]. io write_ok as [] s3 [M3 E3]. step match_plain_span_fed as [] s4 M4.
      apply (Hnext (take n (v :: data)) (take n (v :: data))); [chain_steps|].
      intros b t. by apply chars_text_plain. }
  io (advance_ok (content := content) v) as [] s2 [M2 E2].
  { unfold at_byte. by rewrite Eb. }
  destruct (Z.eqb_spec v ch_quote) as [->|Hq].
  { eapply ok_impl; [eapply ok_still; [eapply copy_byte_ok|solve [still]]|]. intros [] s3 [M3 E3].
    exists [], []. split; [constructor|chain_steps]. }
  destruct (v <? 0x20) eqn:E20; [apply ok_error|].
  destruct (Z.eqb_spec v ch_backslash) as [->|Hbs]; [|destruct (v <? 0x80) eqn:E80].
  - io copy_byte_ok as [] s3 [M3 E3].
    eapply ok_attempt_or_error; [apply ok_still; [apply (take_ok (content := content))|solve [still]]|].
    intros e s4 [M4 E4]. destruct (simple_escape e) eqn:Ee.
    { step match_byte_fed as [] s5 M5. io copy_byte_ok as [] s6 [M6 E6].
      apply (Hnext [ch_backslash; e] [escaped_byte e]); [chain_steps|].
      intros b t. apply text_escape. by apply escape_pair. }
    destruct (Z.eqb_spec e ch_u) as [->|]; cbn [negb]; [|apply ok_error].
    step string_unicode_escape_fed as [] s5 (u & t & Ht & M5).
    apply (Hnext (ch_backslash :: ch_u :: u) t); [chain_steps|].
    intros b t'. by apply chars_text_unicode.
  - step match_byte_fed as [] s3 M3. io copy_byte_ok as [] s4 [M4 E4].
    apply (Hnext [v] [v]); [chain_steps|]. intros b t. apply chars_text_ascii; [lia|done..].
  - destruct (utf8_lead v) as [[[k low] high]|] eqn:El; [|apply ok_error].
    io copy_byte_ok as [] s3 [M3 E3]. step match_byte_fed as [] s4 M4.
    step string_continuations_fed as [] s5 (t & Ht & M5).
    destruct (utf8_lead_spec v k low high t El Ht) as (c & Hc & Hlo & Ec).
    apply (Hnext (v :: t) (v :: t)); [chain_steps|]. rewrite Ec. intros b t'.
    apply text_scalar; (done || lia).
Qed.

Lemma string_fed s : sane s ->
  ok (lql_json_string cfg) s (fun _ s' => exists b t, chars_text b t /\ steps (quoted b) t s s').
Proof.
  intros Hs. unfold lql_json_string. io take_expected_ok as [] s1 [M1 E1]. io copy_byte_ok as [] s2 [M2 E2].
  assert (steps [ch_quote] [] s s2) as M12 by chain_steps. apply ok_gets_then.
  eapply ok_impl; [apply string_chars_fed; by eapply steps_sane|]. intros [] s3 (b & t & Hb & M3).
  exists b, t. split; [done|]. clear M1 M2. unfold quoted. chain_steps.
Qed.

(** ** Literals and numbers *)

Lemma match_copy_byte_fed v s : ok (lql_json_match_copy_byte cfg v) s (fun _ => steps [] [v] s).
Proof.
  unfold lql_json_match_copy_byte. apply ok_gets_then.
  assert (ok (if bytes_wanted s then match_byte cfg v else mret tt) s (fun _ => steps [] [v] s)) as H.
  { destruct (bytes_wanted s) eqn:E; [apply match_byte_fed|]. apply ok_ret. split; [|by apply fed_unwanted].
    eexists _, _. apply moves_refl. }
  eapply ok_bind; [exact H|]. cbv beta. intros [] s1 M1.
  eapply ok_bind; [eapply ok_still; [apply (quiet_moves (content := content)); auto with quiet|solve [still]]|].
  cbv beta. intros [] s2 [M2 E2].
  eapply ok_impl; [eapply ok_still; [eapply copy_byte_ok|solve [still]]|]. intros [] s3 [M3 E3]. chain_steps.
Qed.

(** The same bytes read and fed. *)
Definition echoes (s s' : lql_json_scan) : Prop := exists w, steps w w s s'.

#[local] Instance echoes_preorder : PreOrder echoes.
Proof.
  split.
  - intros s. exists []. apply steps_refl.
  - intros s1 s2 s3 [w1 M1] [w2 M2]. exists (w1 ++ w2). by eapply steps_trans.
Qed.

Lemma literal_fed l : forall s, ok (lql_json_literal cfg l) s (fun _ s' => steps l l s s').
Proof.
  induction l as [|c l IH]; intros s; cbn [lql_json_literal].
  - apply ok_ret. apply steps_refl.
  - io take_expected_ok as [] s1 [M1 E1]. step match_copy_byte_fed as [] s2 M2.
    eapply ok_impl; [apply IH|]. intros [] s3 M3. chain_steps.
Qed.

Lemma copy_and_peek_echoes v s : at_byte (Some v) s ->
  ok (copy_and_peek cfg (Some v)) s (fun r s' => at_byte r s' /\ echoes s s').
Proof.
  intros Hv. unfold copy_and_peek. io (advance_ok (content := content) v) as [] s1 [M1 E1]; [done|].
  cbn [default]. step match_copy_byte_fed as [] s2 M2.
  eapply ok_impl; [eapply ok_still; [apply (peek_ok (content := content))|solve [still]]|].
  intros r s3 [(M3 & Hr & _) E3]. split; [done|]. exists [v]. chain_steps.
Qed.

(** A byte that is there when a test of it holds. *)
Lemma copy_byte_echoes (test : option Z -> bool) c s : (test c = true -> exists v, c = Some v) ->
  test c = true -> at_byte c s ->
  ok (copy_and_peek cfg c) s (fun r s' => at_byte r s' /\ echoes s s').
Proof. intros Hc H. destruct (Hc H) as [v ->]. apply copy_and_peek_echoes. Qed.

Lemma byte_is_some c v : byte_is c v = true -> exists x, c = Some x.
Proof. intros H. apply byte_is_spec in H. eauto. Qed.

Lemma digit_of_some c : digit_of c = true -> exists x, c = Some x.
Proof. intros H. apply digit_of_spec in H as (d & -> & _). eauto. Qed.

Lemma digits_loop_echoes fuel : forall c s, digit_of c = true -> at_byte c s ->
  ok (digits_loop cfg fuel c) s (fun r s' => at_byte r s' /\ echoes s s').
Proof.
  induction fuel as [|fuel IH]; intros c s Hd Hc; [done|]. cbn [digits_loop].
  eapply ok_bind; [apply (copy_byte_echoes digit_of); [apply digit_of_some|done..]|]. cbv beta.
  intros c1 s1 [Hc1 M1]. destruct (digit_of c1) eqn:E; [|by apply ok_ret].
  eapply ok_impl; [by apply IH|]. intros r s2 [Hr M2]. split; [done|by etrans].
Qed.

Lemma digits_echoes c s : digit_of c = true -> at_byte c s ->
  ok (digits cfg c) s (fun r s' => at_byte r s' /\ echoes s s').
Proof. intros Hd Hc. unfold digits. apply ok_gets_then. by apply digits_loop_echoes. Qed.

(** A byte copied if the test holds. *)
Lemma copy_if_echoes (test : option Z -> bool) c s s0 : (test c = true -> exists v, c = Some v) ->
  at_byte c s -> echoes s0 s ->
  ok (if test c then copy_and_peek cfg c else mret c) s (fun r s' => at_byte r s' /\ echoes s0 s').
Proof.
  intros Hc Ha M. destruct (test c) eqn:E in |- *; [|by apply ok_ret].
  eapply ok_impl; [by apply (copy_byte_echoes test)|]. intros r s' [Hr M']. split; [done|by etrans].
Qed.

Lemma peek_echoes s : ok lql_json_peek s (fun r s' => at_byte r s' /\ echoes s s').
Proof.
  eapply ok_impl; [eapply ok_still; [apply (peek_ok (content := content))|solve [still]]|].
  intros r s1 [(M1 & Hr & _) E1]. split; [done|]. exists []. chain_steps.
Qed.

Lemma number_integer_echoes s : ok (number_integer cfg) s (fun r s' => at_byte r s' /\ echoes s s').
Proof.
  unfold number_integer. eapply ok_bind; [apply peek_echoes|]. cbv beta. intros c s1 [Hc M1].
  eapply ok_bind; [apply (copy_if_echoes (fun c => byte_is c ch_minus) c s1 s); [apply byte_is_some|done..]|].
  cbv beta. intros c2 s2 [Hc2 M2]. destruct (byte_is c2 ch_0) eqn:E0.
  - eapply ok_impl; [apply (copy_byte_echoes (fun c => byte_is c ch_0)); [apply byte_is_some|done..]|].
    intros r s3 [Hr M3]. split; [done|by etrans].
  - destruct (digit_of c2) eqn:Ed; [|apply ok_error]. eapply ok_impl; [by apply digits_echoes|].
    intros r s3 [Hr M3]. split; [done|by etrans].
Qed.

Lemma number_fraction_echoes c s : at_byte c s ->
  ok (number_fraction cfg c) s (fun r s' => at_byte r s' /\ echoes s s').
Proof.
  intros Hc. unfold number_fraction. destruct (byte_is c ch_dot) eqn:E; [|by apply ok_ret].
  eapply ok_attempt_or_error;
    [apply (copy_byte_echoes (fun c => byte_is c ch_dot)); [apply byte_is_some|done..]|].
  cbv beta. intros c1 s1 [Hc1 M1]. destruct (digit_of c1) eqn:Ed; [|apply ok_error].
  eapply ok_impl; [by apply digits_echoes|]. intros r s2 [Hr M2]. split; [done|by etrans].
Qed.

Lemma number_exponent_echoes c s : at_byte c s -> ok (number_exponent cfg c) s (fun _ => echoes s).
Proof.
  intros Hc. unfold number_exponent.
  destruct (byte_is c ch_e || byte_is c ch_E) eqn:E; [|by apply ok_ret].
  eapply ok_bind; [apply (copy_byte_echoes (fun c => byte_is c ch_e || byte_is c ch_E)); [|done..]|].
  { intros H. apply orb_true_iff in H as [H|H]; by eapply byte_is_some. }
  cbv beta. intros c1 s1 [Hc1 M1].
  eapply ok_bind; [apply (copy_if_echoes (fun c => byte_is c ch_plus || byte_is c ch_minus) c1 s1 s);
    [|done..]|].
  { intros H. apply orb_true_iff in H as [H|H]; by eapply byte_is_some. }
  cbv beta. intros c2 s2 [Hc2 M2]. destruct (digit_of c2) eqn:Ed; [|apply ok_error].
  eapply ok_bind; [by apply digits_echoes|]. cbv beta. intros c3 s3 [Hr M3]. apply ok_ret. by etrans.
Qed.

Lemma number_fed s : ok (lql_json_number cfg) s (fun _ s' => exists w, is_number w /\ steps w w s s').
Proof.
  assert (ok (lql_json_number cfg) s (fun _ => echoes s)) as H.
  { unfold lql_json_number. eapply ok_bind; [apply number_integer_echoes|]. cbv beta. intros c s1 [Hc M1].
    eapply ok_bind; [by apply number_fraction_echoes|]. cbv beta. intros c2 s2 [Hc2 M2].
    eapply ok_impl; [by apply number_exponent_echoes|]. intros [] s3 M3. by do 2 etrans. }
  eapply ok_impl; [apply ok_and; [apply (number_ok (content := content))|exact H]|]. cbv beta.
  intros [] s' [(w & Hw & M) (w' & St)]. exists w. split; [done|].
  destruct St as [(c & o & M') F]. pose proof (mv_stream _ _ _ _ _ M) as E.
  rewrite (mv_stream _ _ _ _ _ M') in E. apply app_inv_tail in E as ->. split; [by eexists _, _|done].
Qed.
End strings.
