(* ===== verification/ScanKeys.v ===== *)
(** * Which terms a key selects

    For terms with plain paths: the key of a member selects the terms that are
    active at the depth of the object and whose segment there is the key, whether
    it is matched in the buffer or while it is read. *)

From S2P Require Import Prelude.
From S2P Require Import Errors.
From S2P Require Import JsonSpool.
From S2P Require Import SpoolProps.
From S2P Require Import ScanTerm.
From S2P Require Import ScanState.
From S2P Require Import ScanInput.
From S2P Require Import ScanMatch.
From S2P Require Import JsonScan.
From S2P Require Import JsonGrammar.
From S2P Require Import JsonTree.
From S2P Require Import ScanSpan.
From S2P Require Import ScanLogic.
From S2P Require Import ScanReads.
From S2P Require Import ScanWrites.
From S2P Require Import ScanSound.
From S2P Require Import ScanFeed.
From S2P Require Import ScanFed.
From S2P Require Import ScanMatches.
From S2P Require Import ScanText.

(** ** The terms *)

(** A scan whose terms have plain paths. *)
Record plain_config (cfg : scan_config) : Prop := {
  pc_terms : Forall plain_term (flat_terms cfg);
  pc_ready : Forall contains_ready (flat_terms cfg);
  pc_arrays : flat_eq_has_array_terms cfg = false;
  pc_wildcards : flat_eq_has_object_wildcards cfg = false;
  pc_recursive : flat_eq_has_recursive_terms cfg = false;
  pc_repeated : flat_eq_has_repeated_recursive_terms cfg = false;
  pc_leading : flat_eq_leading_recursive_terms cfg = 0;
  pc_terminal : flat_eq_terminal_recursive_terms cfg = 0;
  pc_root : flat_eq_terminal_recursive_root_exists_terms cfg = 0;
  pc_valueless : flat_eq_valueless_present_terms cfg =
    mask_of (fun _ t => kind_is t LQL_JSON_FLAT_TERM_VALUELESS_PRESENT) (flat_terms cfg)
}.

Section keys.
Context {content : bytes -> lql_json_spool -> Prop} `{laws : !SpoolLaws content}.
Context (cfg : scan_config) (plain : plain_config cfg).
Implicit Types (s : lql_json_scan) (m : scan_matcher).
#[local] Abbreviation terms := (flat_terms cfg).
#[local] Abbreviation moves := (moves (content := content)).

Lemma plain_at i term : terms !! i = Some term -> plain_term term.
Proof. pose proof (pc_terms cfg plain) as H. intros Hi. by eapply list.Forall_lookup in H. Qed.

(** ** The matcher between two texts *)

(** Nothing is being matched, and a term is active at a depth only when its path
    goes that far. *)
Record calm (m : scan_matcher) : Prop := {
  cm_on : flat_eq_active m = true;
  cm_active : match_active m = 0;
  cm_positions : (length terms <= length (match_pos m))%nat;
  cm_segments : (length terms <= length (match_term_segment m))%nat;
  cm_keys : (length terms <= length (key_term_segment m))%nat;
  cm_recursive : Forall (eq 0) (recursive_active m);
  cm_paths : forall d P i term, path_active m !! d = Some P -> terms !! i = Some term ->
    has P i = true -> (d < length (term_segments term))%nat;
  cm_depths : length (path_active m) = LQL_JSON_MAX_DEPTH
}.

(** What the match of a text leaves as it was. *)
Record rests (m m' : scan_matcher) : Prop := {
  rs_base : base m' = base m;
  rs_positions : (length terms <= length (match_pos m))%nat -> (length terms <= length (match_pos m'))%nat;
  rs_segments : length (match_term_segment m') = length (match_term_segment m)
}.

#[export] Instance rests_preorder : PreOrder rests.
Proof. split; [by split|]. intros a b c [] []. split; [congruence|auto|congruence]. Qed.

Lemma rests_field {A} (f : scan_matcher -> A) m m' : (forall m, f m = f (base m)) -> rests m m' -> f m' = f m.
Proof. intros Hf [Hb _ _]. by rewrite (Hf m'), (Hf m), Hb. Qed.

Lemma rests_calm m m' : calm m -> rests m m' -> match_active m' = 0 -> calm m'.
Proof.
  intros [H1 H2 H3 H4 H5 H6 H7 H8] R Ha. pose proof R as [_ Hp Hs]. split.
  - rewrite <- H1. by apply (rests_field flat_eq_active).
  - done.
  - by apply Hp.
  - by rewrite Hs.
  - by rewrite (rests_field key_term_segment _ _ (fun _ => eq_refl) R).
  - by rewrite (rests_field recursive_active _ _ (fun _ => eq_refl) R).
  - by rewrite (rests_field path_active _ _ (fun _ => eq_refl) R).
  - by rewrite (rests_field path_active _ _ (fun _ => eq_refl) R).
Qed.

Lemma rests_eq m m' : m' = m -> rests m m'.
Proof. by intros ->. Qed.

Lemma rests_started active key seg m m' : started cfg active key seg m m' -> rests m m'.
Proof. intros [H1 _ _ _ _ H2 H3 _]. split; [done|by rewrite H2|done]. Qed.

Lemma rests_feeding t m m' : frame m' = frame m -> feeding cfg t m' -> rests m m'.
Proof.
  intros Hf [H _ _]. split; [by apply frame_base|done|].
  by rewrite (frame_field match_term_segment _ _ (fun _ => eq_refl) Hf).
Qed.

(** Nothing is tracked while nothing is matched. *)
Lemma calm_feeding m : calm m -> feeding cfg [] m.
Proof. intros H. split; [apply H|..]; intros i term _; by rewrite (cm_active _ H), has_0. Qed.

(** A text fed while nothing is matched. *)
Lemma calm_fed t s s' : calm (matcher s) -> fed cfg t s s' ->
  rests (matcher s) (matcher s') /\ calm (matcher s').
Proof.
  intros Hc F. destruct (fed_feeding _ _ _ _ F [] (calm_feeding _ Hc)) as [Hf Hfr].
  pose proof (rests_feeding _ _ _ Hfr Hf) as R. split; [done|]. eapply rests_calm; [done|done|].
  rewrite (frame_active _ _ Hfr). apply Hc.
Qed.

(** ** The result of a key *)

(** The terms that may match a key at depth [d]: those that are active there,
    unless the scan has all the hits it waits for. *)
Definition sought (m : scan_matcher) (d : nat) : Z :=
  if lql_json_stop_hit_ready cfg m then 0 else default 0 (path_active m !! d).

(** Segment [d] of the path is [key]. *)
Definition segment_is (term : lql_json_flat_eq_term) (d : nat) (key : bytes) : bool :=
  match term_segments term !! d with Some segment => bytes_eqb segment key | None => false end.

(** The result [k] of key [key] at depth [d], with the matcher after it. *)
Record selects (d : nat) (key : bytes) (sought : Z) (k : key_result) (m : scan_matcher) : Prop := {
  sl_recursive : recursive_terms k = 0;
  sl_recursive_matches : recursive_key_matches k = 0;
  sl_matches : forall i term, terms !! i = Some term ->
    has (key_matches k) i = has sought i && segment_is term d key;
  sl_segments : forall i term, terms !! i = Some term -> has (key_matches k) i = true ->
    nth i (match_term_segment m) 0%nat = d
}.

(** A loop that chooses no term. *)
Lemma choose_none {T} (f : nat -> T -> option (option nat)) (l : list T) m :
  (forall i x, l !! i = Some x -> f i x = None) -> choose f l m = (0, m).
Proof.
  intros H. unfold choose.
  assert (forall k segments, (forall i x, l !! i = Some x -> f (k + i)%nat x = None) ->
    choose_from k f l segments = (0, segments)) as K.
  { clear H. induction l as [|x l IH]; intros k segments H; cbn; [done|].
    pose proof (H 0%nat x eq_refl) as Hx. rewrite Nat.add_0_r in Hx. rewrite Hx. apply IH.
    intros i y Hy. specialize (H (S i) y Hy). by rewrite Nat.add_succ_r in H. }
  rewrite K by done. by destruct m.
Qed.

(** ** The masks a key starts with *)

Lemma at_depth_ok array d s (Q : Z -> lql_json_scan -> Prop) :
  (forall x, array s !! d = Some x -> Q x s) -> ok (at_depth array d) s Q.
Proof. intros H. unfold at_depth. apply ok_gets_then. by apply ok_defined. Qed.

Lemma at_depth_then {B} array d s (k : Z -> Scan B) Q :
  (forall x, array s !! d = Some x -> ok (k x) s Q) -> ok (at_depth array d ≫= k) s Q.
Proof.
  intros H. eapply ok_bind; [by apply (at_depth_ok _ _ _ (fun x s' => s' = s /\ array s !! d = Some x))|].
  intros x s' [-> Hx]. by apply H.
Qed.

Lemma calm_recursive m d x : calm m -> recursive_active m !! d = Some x -> x = 0.
Proof. intros [_ _ _ _ _ H _ _] Hx. symmetry. by eapply list.Forall_lookup in H. Qed.

Lemma key_terms_ok d s : calm (matcher s) ->
  ok (key_terms cfg d) s (fun r s' => s' = s /\ r = (sought (matcher s) d, 0, 0)).
Proof.
  intros Hc. unfold key_terms. apply at_depth_then. intros path Hp. apply at_depth_then. intros inherited Hi.
  apply calm_recursive in Hi as ->; [|done]. apply ok_gets_then.
  rewrite (pc_recursive _ plain), (pc_arrays _ plain), (pc_wildcards _ plain).
  do 3 apply ok_ret_then. apply ok_ret. split; [done|]. unfold sought. rewrite (cm_on _ Hc), Hp. cbn.
  by destruct (lql_json_stop_hit_ready cfg (matcher s)).
Qed.

Lemma sought_deep m d i term : calm m -> terms !! i = Some term -> has (sought m d) i = true ->
  (d < length (term_segments term))%nat.
Proof.
  intros Hc Hi. unfold sought. case_if; [by rewrite has_0|].
  destruct (path_active m !! d) eqn:E; [|by rewrite has_0]. cbn. intros H1. by eapply cm_paths.
Qed.

(** ** The key in the buffer *)

(** What another term's round leaves alone. *)
Record round_kept (i : nat) (r r' : key_match * scan_matcher) : Prop := {
  rk_match : has (km_matches r'.1) i = has (km_matches r.1) i;
  rk_segment : nth i (match_term_segment r'.2) 0%nat = nth i (match_term_segment r.2) 0%nat;
  rk_recursive : km_recursive r'.1 = km_recursive r.1;
  rk_base : base r'.2 = base r.2;
  rk_active : match_active r'.2 = match_active r.2;
  rk_positions : match_pos r'.2 = match_pos r.2;
  rk_segments : length (match_term_segment r'.2) = length (match_term_segment r.2)
}.

#[local] Instance round_kept_preorder i : PreOrder (round_kept i).
Proof. split; [by split|]. intros a b c [] []. split; congruence. Qed.

Lemma ordinary_match_kept i j d r : i <> j -> round_kept i r (ordinary_match j d r).
Proof.
  intros Hn. destruct r as [k m]. split; try done; cbn.
  - by rewrite has_lor, has_bit, (proj2 (Nat.eqb_neq j i)), orb_false_r by lia.
  - by rewrite nth_insert, (proj2 (Nat.eqb_neq j i)) by lia.
  - apply length_insert.
Qed.

Lemma ordinary_match_own i d r : (i < length (match_term_segment r.2))%nat ->
  has (km_matches (ordinary_match i d r).1) i = true /\
  nth i (match_term_segment (ordinary_match i d r).2) 0%nat = d.
Proof.
  intros Hl. destruct r as [k m]. cbn in *.
  rewrite has_lor, has_bit, nth_insert, Nat.eqb_refl, orb_true_r, (proj2 (Nat.ltb_lt _ _) Hl). done.
Qed.

(** The loop over the terms when each round is that of a term with a plain path. *)
Section loop.
Context (active : Z) (d : nat) (key : bytes) (n : nat).
Context (f : nat -> lql_json_flat_eq_term -> key_match * scan_matcher -> key_match * scan_matcher).
Hypothesis rounds : forall i term r, terms !! i = Some term ->
  f i term r = if has active i && segment_is term d key then Nat.iter (S n) (ordinary_match i d) r else r.

Let g i term r :=
  if has active i && segment_is term d key then Nat.iter (S n) (ordinary_match i d) r else r.

Lemma iter_kept i j r : i <> j -> round_kept i r (Nat.iter (S n) (ordinary_match j d) r).
Proof.
  intros Hn. generalize (S n). intros k. induction k as [|k IH]; cbn; [reflexivity|].
  etrans; [exact IH|by apply ordinary_match_kept].
Qed.

Lemma iter_own i r : (i < length (match_term_segment r.2))%nat ->
  has (km_matches (Nat.iter (S n) (ordinary_match i d) r).1) i = true /\
  nth i (match_term_segment (Nat.iter (S n) (ordinary_match i d) r).2) 0%nat = d.
Proof.
  intros Hl. change (Nat.iter (S n) (ordinary_match i d) r)
    with (ordinary_match i d (Nat.iter n (ordinary_match i d) r)).
  apply ordinary_match_own. clear rounds g. induction n as [|k IH]; [done|].
  change (Nat.iter (S k) (ordinary_match i d) r) with (ordinary_match i d (Nat.iter k (ordinary_match i d) r)).
  destruct (Nat.iter k _ r) as [a b]. cbn in *. by rewrite length_insert.
Qed.

Lemma loop_selects r : (length terms <= length (match_term_segment r.2))%nat -> km_matches r.1 = 0 ->
  let r' := each f terms r in
  km_recursive r'.1 = km_recursive r.1 /\ rests r.2 r'.2 /\ match_active r'.2 = match_active r.2 /\
  forall i term, terms !! i = Some term ->
    has (km_matches r'.1) i = has active i && segment_is term d key /\
    (has (km_matches r'.1) i = true -> nth i (match_term_segment r'.2) 0%nat = d).
Proof.
  intros Hl H0 r'. assert (r' = each g terms r) as ->.
  { subst r'. unfold each. assert (forall l k a, (forall i x, l !! i = Some x -> terms !! (k + i)%nat = Some x) ->
      each_from k f l a = each_from k g l a) as K; [|by apply K].
    induction l as [|x l IH]; intros k a H; cbn; [done|].
    pose proof (H 0%nat x eq_refl) as Hx. rewrite Nat.add_0_r in Hx. rewrite (rounds k x a Hx). apply IH.
    intros i y Hy. specialize (H (S i) y Hy). by rewrite Nat.add_succ_r in H. }
  assert (forall i j x a, i <> j -> round_kept i a (g j x a)) as Hother.
  { intros i j x a Hn. unfold g. case_if; [by apply iter_kept|reflexivity]. }
  assert (round_kept (length terms) r (each g terms r)) as [_ _ E1 E2 E3 E4 E5].
  { apply (each_keeps (round_kept _)). intros i x a Hi. apply Hother.
    apply lookup_lt_Some in Hi. lia. }
  split; [done|]. split; [by split; [|rewrite E4|]|]. split; [done|]. intros i term Hi.
  destruct (each_round round_kept _ g terms Hother r i term Hi) as (b & Hb & Hb').
  rewrite (rk_match _ _ _ Hb'), (rk_segment _ _ _ Hb'). unfold g.
  pose proof (rk_match _ _ _ Hb) as Em. rewrite H0, has_0 in Em.
  destruct (has active i && segment_is term d key) eqn:E; [|by rewrite Em].
  assert (i < length (match_term_segment b.2))%nat as Hlt.
  { rewrite (rk_segments _ _ _ Hb). apply lookup_lt_Some in Hi. lia. }
  by destruct (iter_own i b Hlt) as [-> ->].
Qed.
End loop.

Lemma plain_key_term_plain active d key i term r : plain_term term ->
  plain_key_term cfg active 0 d key i term r =
  if has active i && segment_is term d key then Nat.iter 2 (ordinary_match i d) r else r.
Proof.
  intros Hp. unfold plain_key_term, plain_key_fallback, segment_is. rewrite Z.lor_0_r, has_0.
  rewrite !(plain_active_segment term Hp), !(plain_key_equal term Hp).
  destruct (has active i); cbn [negb andb]; [|done]. by repeat case_match.
Qed.

Lemma plain_key_root_plain active key i term r : plain_term term ->
  plain_key_root_term active key i term r =
  if has active i && segment_is term 0 key then Nat.iter 1 (ordinary_match i 0) r else r.
Proof.
  intros Hp. unfold plain_key_root_term, segment_is. rewrite <- (plain_field _ Hp).
  rewrite segment_equal_plain; [done|]. eapply (plain_no_escape term Hp 0). by rewrite <- (plain_field _ Hp).
Qed.

Lemma plain_key_text data key : plain_key data = Some key -> chars_text key key.
Proof.
  unfold plain_key. destruct data as [|c rest]; [done|]. destruct (c =? ch_quote); [|done].
  destruct (key_span_plain rest) as [Hp _]. set (n := lql_json_plain_key_span rest) in *.
  destruct (rest !! n) as [e|]; [|done]. destruct (e =? ch_quote); [|done]. intros [= <-].
  rewrite <- (app_nil_r (take n rest)). by apply chars_text_plain; [|constructor].
Qed.

(** What a key read at depth [d] does, from a calm state. *)
Definition reads_key (d : nat) (k : key_result) (s s' : lql_json_scan) : Prop :=
  exists b key, chars_text b key /\ (exists c o, moves (quoted b) c o s s') /\
    rests (matcher s) (matcher s') /\ selects d key (sought (matcher s) d) k (matcher s').

Lemma fast_key_selects d s : calm (matcher s) ->
  ok (fast_key cfg (sought (matcher s) d) 0 d) s (fun r s' => match r with
    | Some k => forall captures, reads_key d
        (mk_key_result (Z.lor (Z.lor (km_matches k) 0) 0) (km_ordinary k) (km_recursive k)
           (km_recursive_segments k) 0 captures) s s'
    | None => s' = s
    end).
Proof.
  intros Hc r s' E. pose proof (fast_key_ok (content := content) cfg _ _ _ _ _ _ E) as Hread.
  unfold fast_key, lql_json_try_plain_key_match in E.
  destruct (plain_key (buffer (input s))) as [key|] eqn:Ek; cbn [mbind option_bind] in E;
    [|injection E as <- <-; done].
  set (round := if is_empty 0 && _ then _ else _) in E.
  set (r0 := (mk_key_match 0 0 0 _ _, matcher s)) in E.
  assert (exists n, forall i term x, terms !! i = Some term -> round i term x =
    if has (sought (matcher s) d) i && segment_is term d key then Nat.iter (S n) (ordinary_match i d) x
    else x) as [n Hround].
  { subst round. cbn [is_empty Z.eqb andb]. destruct (Nat.eqb_spec d 0) as [->|].
    - exists 0%nat. intros i term x Hi. rewrite Z.lor_0_r. apply plain_key_root_plain. by eapply plain_at.
    - exists 1%nat. intros i term x Hi. apply plain_key_term_plain. by eapply plain_at. }
  pose proof (loop_selects _ d key n round Hround r0 (cm_segments _ Hc) eq_refl) as (H1 & H2 & H3 & H4).
  destruct (each round terms r0) as [k m]. cbn in H1, H2, H3, H4. injection E as <- <-.
  intros captures. cbv beta iota in Hread. destruct Hread as (w & Hw & M).
  exists key, key. split; [by eapply plain_key_text|]. split.
  - assert (w = quoted key) as <-; [|by eexists _, _].
    apply plain_key_spec in Ek as (rest & Ek & _).
    pose proof (mv_stream _ _ _ _ _ M) as E. unfold stream in E. cbn in E.
    rewrite Ek in E. rewrite <- app_assoc in E.
    replace (drop (length key + 2) ((ch_quote :: key ++ [ch_quote]) ++ rest)) with rest in E.
    + by apply app_inv_tail in E.
    + replace (length key + 2)%nat with (length (ch_quote :: key ++ [ch_quote])).
      * by rewrite drop_app_length.
      * cbn. rewrite length_app. cbn. lia.
  - split; [done|]. rewrite !Z.lor_0_r. split; cbn.
    + done.
    + done.
    + intros i term Hi. by destruct (H4 i term Hi).
    + intros i term Hi. by destruct (H4 i term Hi).
Qed.

(** ** The key matched while it is read *)

Lemma matching_none f s (Q : Z -> lql_json_scan -> Prop) : f (matcher s) = (0, matcher s) ->
  Q 0 s -> ok (matching f) s Q.
Proof.
  intros E HQ. unfold matching. apply ok_state. rewrite E. cbn.
  replace (s <| matcher := matcher s |>) with s; [done|by destruct s].
Qed.

Lemma matching_none_then {B} f s (k : Z -> Scan B) Q : f (matcher s) = (0, matcher s) ->
  ok (k 0) s Q -> ok (matching f ≫= k) s Q.
Proof.
  intros E H. eapply ok_bind; [by apply (matching_none _ _ (fun x s' => x = 0 /\ s' = s))|].
  by intros x s' [-> ->].
Qed.

Lemma no_recursive_wildcards d m : lql_json_match_recursive_object_wildcards cfg 0 d m = (0, m).
Proof. apply choose_none. intros i x _. by rewrite has_0. Qed.

Lemma no_terminal_terms active d m : lql_json_match_terminal_recursive_terms cfg active d m = (0, m).
Proof.
  unfold lql_json_match_terminal_recursive_terms. by rewrite (pc_terminal _ plain), Z.land_0_r.
Qed.

Lemma no_anchor_terms {B} active d s (k : Z -> Scan B) Q : ok (k 0) s Q ->
  ok (anchor_terms cfg active d ≫= k) s Q.
Proof. unfold anchor_terms. by rewrite (pc_repeated _ plain). Qed.

Lemma start_key_ready d s : calm (matcher s) ->
  feeding cfg [] (lql_json_match_start_key cfg (sought (matcher s) d) 0 d (matcher s)).
Proof.
  intros Hc. apply start_key_feeding; [apply plain|apply Hc..|].
  intros i term Hi. by eapply sought_deep.
Qed.

Lemma slow_key_selects d captures s : sane s -> calm (matcher s) ->
  ok (slow_key cfg (sought (matcher s) d) 0 0 captures d) s
    (fun r s' => r.2 = inl tt -> reads_key d r.1 s s').
Proof.
  intros Hs Hc. unfold slow_key. do 2 apply ok_modify_then.
  set (s1 := on_matcher _ _). pose proof (start_key_ready d s Hc) as Hf.
  pose proof (start_key_started cfg (sought (matcher s) d) d (matcher s) (pc_terms _ plain)) as Hst.
  change (lql_json_match_start_key cfg (sought (matcher s) d) 0 d (matcher s)) with (matcher s1) in *.
  assert (moves [] [] [] s s1) as M1 by by apply moves_quiet.
  eapply ok_attempt_then; [apply (string_fed (content := content) cfg); by eapply moves_sane| |].
  2:{ intros st s2. repeat (eapply ok_bind; [apply ok_true|]; intros). by apply ok_ret. }
  cbv beta. intros [] s2 (b & key & Hb & (c & o & M2) & F).
  apply ok_gets_then. apply matching_none_then; [apply no_recursive_wildcards|].
  apply matching_none_then; [apply no_terminal_terms|]. apply no_anchor_terms. apply ok_gets_then.
  apply ok_ret. intros _. cbn [fst snd].
  destruct (fed_feeding _ _ _ _ F [] Hf) as [Hf2 Hfr]. cbn [app] in Hf2.
  exists b, key. split; [done|]. split.
  { eexists _, _. eapply moves_eq; [eapply moves_trans; [exact M1|exact M2]|reflexivity..]. }
  split. { transitivity (matcher s1); [by eapply rests_started|by eapply rests_feeding]. }
  destruct Hst as [_ Ha Hk _ _ _ _ Hterm].
  assert (match_term_segment (matcher s2) = match_term_segment (matcher s1)) as Hseg
    by by apply (frame_field match_term_segment).
  assert (forall i term, terms !! i = Some term -> has (sought (matcher s) d) i = true ->
    nth i (match_term_segment (matcher s2)) 0%nat = d) as Hd.
  { intros i term Hi Hh. rewrite Hseg. apply (Hterm i term Hi Hh).
    apply lookup_lt_Some in Hi. pose proof (cm_segments _ Hc). lia. }
  assert (forall i term, terms !! i = Some term -> has (lql_json_match_complete cfg (matcher s2)) i =
    has (sought (matcher s) d) i && segment_is term d key) as Hm.
  { intros i term Hi. rewrite (complete_key cfg key (matcher s2) i term Hf2); [|by rewrite (frame_key _ _ Hfr)|done].
    rewrite (frame_active _ _ Hfr), Ha. destruct (has (sought (matcher s) d) i) eqn:E; [|done]. cbn.
    rewrite (key_target_segment _ term i d); [done|by eapply plain_at|by eapply Hd]. }
  rewrite !Z.lor_0_r. split; cbn; [done|done|done|]. intros i term Hi. rewrite (Hm i term Hi).
  intros H. apply andb_true_iff in H as [H _]. by eapply Hd.
Qed.

Lemma object_key_selects d s : sane s -> calm (matcher s) ->
  ok (object_key cfg d) s (fun r s' => r.2 = inl tt -> reads_key d r.1 s s').
Proof.
  intros Hs Hc. unfold object_key.
  eapply ok_bind; [by apply key_terms_ok|]. cbv beta. intros r s' [-> ->]. cbv beta iota.
  apply at_depth_then. intros captures _.
  eapply ok_bind with (P := fun r s' => match r with
    | Some k => forall captures, reads_key d
        (mk_key_result (Z.lor (Z.lor (km_matches k) 0) 0) (km_ordinary k) (km_recursive k)
           (km_recursive_segments k) 0 captures) s s'
    | None => s' = s
    end).
  { destruct (negb (writing cfg) && is_empty captures); [by apply fast_key_selects|by apply ok_ret]. }
  intros [k|] s'.
  - intros Hk. apply no_anchor_terms. apply ok_ret. intros _. apply Hk.
  - intros ->. by apply slow_key_selects.
Qed.
End keys.
