(* ===== verification/ScanGains.v ===== *)
(** * The hits of a text

    [gains d R m m']: the scanner adds to the hits the terms of [R], and all of them
    unless it has the hits it waits for; what concerns the depths up to [d] is as
    before.  A string, a literal and a number under a matched key add the terms
    whose test the text passes. *)

From S2P Require Import Prelude.
From S2P Require Import Errors.
From S2P Require Import SelectorJsonProps.
From S2P Require Import JsonSpool.
From S2P Require Import SpoolProps.
From S2P Require Import ScanTerm.
From S2P Require Import ScanState.
From S2P Require Import ScanInput.
From S2P Require Import ScanMatch.
From S2P Require Import JsonScan.
From S2P Require Import JsonGrammar.
From S2P Require Import JsonTree.
From S2P Require Import ScanSpan.
From S2P Require Import ScanLogic.
From S2P Require Import ScanReads.
From S2P Require Import ScanWrites.
From S2P Require Import ScanSound.
From S2P Require Import ScanFeed.
From S2P Require Import ScanFed.
From S2P Require Import ScanMatches.
From S2P Require Import ScanText.
From S2P Require Import ScanKeys.

(** The kinds of terms whose test is [term_test]: they compare bytes, or ask for
    presence. *)
Definition byte_kind (term : lql_json_flat_eq_term) : bool :=
  match term_kind term with
  | LQL_JSON_FLAT_TERM_EQ | LQL_JSON_FLAT_TERM_TEXT_EQ | LQL_JSON_FLAT_TERM_PREFIX
  | LQL_JSON_FLAT_TERM_CONTAINS | LQL_JSON_FLAT_TERM_EXISTS | LQL_JSON_FLAT_TERM_VALUELESS_PRESENT
  | LQL_JSON_FLAT_TERM_BOOL_EQ | LQL_JSON_FLAT_TERM_NULL_EQ => true
  | _ => false
  end.

Section gains.
Context {content : bytes -> lql_json_spool -> Prop} `{laws : !SpoolLaws content}.
Context (cfg : scan_config) (plain : plain_config cfg).
Implicit Types (s : lql_json_scan) (m : scan_matcher).
#[local] Abbreviation terms := (flat_terms cfg).
#[local] Abbreviation moves := (moves (content := content)).
#[local] Abbreviation calm := (calm cfg).

(** ** Gains *)

(** A matcher that is calm but for what it is matching. *)
Definition settled (m : scan_matcher) : Prop := calm (m <| match_active := 0 |>).

Record gains (d : nat) (R : nat -> lql_json_flat_eq_term -> bool) (m m' : scan_matcher) : Prop := {
  gn_settled : settled m -> settled m';
  gn_paths : forall j, (j <= d)%nat -> path_active m' !! j = path_active m !! j;
  gn_grow : forall i, has (flat_eq_hits m) i = true -> has (flat_eq_hits m') i = true;
  gn_sound : forall i term, terms !! i = Some term -> byte_kind term = true ->
    has (flat_eq_hits m') i = true -> has (flat_eq_hits m) i = true \/ R i term = true;
  gn_complete : forall i term, terms !! i = Some term -> byte_kind term = true ->
    lql_json_stop_hit_ready cfg m' = false -> R i term = true -> has (flat_eq_hits m') i = true
}.

Definition nothing (_ : nat) (_ : lql_json_flat_eq_term) : bool := false.

Lemma calm_settled m : calm m -> settled m.
Proof. intros []. by split. Qed.

Lemma settled_calm m : settled m -> match_active m = 0 -> calm m.
Proof. intros [] H. by split. Qed.

(** More hits cannot make the scan wait again. *)
Lemma stop_ready_grows m m' :
  (forall i, has (flat_eq_hits m) i = true -> has (flat_eq_hits m') i = true) ->
  lql_json_stop_hit_ready cfg m' = false -> lql_json_stop_hit_ready cfg m = false.
Proof.
  intros Hg. unfold lql_json_stop_hit_ready. destruct (flat_eq_stop_on_hit cfg); [|done]. cbn.
  assert (forall n, Z.testbit (flat_eq_hits m) n = true -> Z.testbit (flat_eq_hits m') n = true) as Hb.
  { intros n. destruct (Z.neg_nonneg_cases n) as [Hn|Hn]; [by rewrite Z.testbit_neg_r|].
    specialize (Hg (Z.to_nat n)). unfold has in Hg. by rewrite Z2Nat.id in Hg. }
  destruct (flat_eq_stop_hit_mask cfg =? 0) eqn:E0.
  - rewrite !negb_false_iff, !Z.eqb_eq. intros H0. apply Z.bits_inj. intros n. rewrite Z.bits_0.
    destruct (Z.testbit (flat_eq_hits m) n) eqn:E; [|done]. apply Hb in E. by rewrite H0, Z.bits_0 in E.
  - rewrite !Z.eqb_neq. intros Hn Hm. apply Hn. apply Z.bits_inj. intros n.
    apply (f_equal (fun z => Z.testbit z n)) in Hm. rewrite !Z.land_spec in *.
    destruct (Z.testbit (flat_eq_stop_hit_mask cfg) n); [|by rewrite andb_false_r].
    rewrite andb_true_r in *. by apply Hb.
Qed.

Lemma gains_trans d R1 R2 m1 m2 m3 : gains d R1 m1 m2 -> gains d R2 m2 m3 ->
  gains d (fun i term => R1 i term || R2 i term) m1 m3.
Proof.
  intros [A1 A2 A3 A4 A5] [B1 B2 B3 B4 B5]. split.
  - auto.
  - intros j Hj. by rewrite B2, A2.
  - auto.
  - intros i term Hi Hk H3. destruct (B4 i term Hi Hk H3) as [H2|HR]; [|right; by rewrite HR, orb_true_r].
    destruct (A4 i term Hi Hk H2) as [H1|HR]; [by left|right; by rewrite HR].
  - intros i term Hi Hk Hs HR. apply orb_true_iff in HR as [HR|HR]; [|by eapply B5].
    apply B3. eapply A5; try done. by eapply stop_ready_grows.
Qed.

Lemma gains_ext d R R' m m' : gains d R m m' ->
  (forall i term, terms !! i = Some term -> byte_kind term = true -> R i term = R' i term) -> gains d R' m m'.
Proof.
  intros [A1 A2 A3 A4 A5] H. split; try done.
  - intros i term Hi Hk. rewrite <- (H i term Hi Hk). by apply A4.
  - intros i term Hi Hk. rewrite <- (H i term Hi Hk). by apply A5.
Qed.

Lemma gains_after d R m1 m2 m3 : gains d nothing m1 m2 -> gains d R m2 m3 -> gains d R m1 m3.
Proof. intros H1 H2. eapply gains_ext; [by eapply gains_trans|]. done. Qed.

Lemma gains_before d R m1 m2 m3 : gains d R m1 m2 -> gains d nothing m2 m3 -> gains d R m1 m3.
Proof. intros H1 H2. eapply gains_ext; [by eapply gains_trans|]. intros. apply orb_false_r. Qed.

(** Less is said of fewer depths. *)
Lemma gains_le d d' R m m' : (d' <= d)%nat -> gains d R m m' -> gains d' R m m'.
Proof. intros Hd [A1 A2 A3 A4 A5]. split; try done. intros j Hj. apply A2. lia. Qed.

(** The hits are the same. *)
Lemma gains_nothing d m m' : (settled m -> settled m') ->
  (forall j, (j <= d)%nat -> path_active m' !! j = path_active m !! j) ->
  flat_eq_hits m' = flat_eq_hits m -> gains d nothing m m'.
Proof. intros H1 H2 H3. split; rewrite ?H3; auto; done. Qed.

Lemma gains_rests d m m' : rests cfg m m' -> gains d nothing m m'.
Proof.
  intros R. apply gains_nothing.
  - intros [H1 _ H3 H4 H5 H6 H7 H8]. pose proof R as [_ Hp Hs].
    pose proof (rests_field cfg flat_eq_active _ _ (fun _ => eq_refl) R) as E1.
    pose proof (rests_field cfg key_term_segment _ _ (fun _ => eq_refl) R) as E2.
    pose proof (rests_field cfg recursive_active _ _ (fun _ => eq_refl) R) as E3.
    pose proof (rests_field cfg path_active _ _ (fun _ => eq_refl) R) as E4.
    cbn in *. split; cbn; rewrite ?E1, ?E2, ?E3, ?Hs, ?E4; auto.
  - intros j _. by rewrite (rests_field cfg path_active _ _ (fun _ => eq_refl) R).
  - by apply (rests_field cfg flat_eq_hits).
Qed.

Lemma gains_refl d m : gains d nothing m m.
Proof. by apply gains_nothing. Qed.

Lemma gains_eq d m m' : m' = m -> gains d nothing m m'.
Proof. intros ->. apply gains_refl. Qed.

(** Hits are added. *)
Lemma gains_hits d h m : gains d (fun i _ => has h i) m
  (m <| flat_eq_hits := Z.lor (flat_eq_hits m) h |>).
Proof.
  split; cbn.
  - intros []. by split.
  - done.
  - intros i H. by rewrite has_lor, H.
  - intros i term _ _. rewrite has_lor. apply orb_true_iff.
  - intros i term _ _ _ H. by rewrite has_lor, H, orb_true_r.
Qed.

(** Hits of other kinds of terms. *)
Lemma gains_other_hits d h m :
  (forall i term, terms !! i = Some term -> has h i = true -> byte_kind term = false) ->
  gains d nothing m (m <| flat_eq_hits := Z.lor (flat_eq_hits m) h |>).
Proof.
  intros H. eapply gains_ext; [apply gains_hits|]. intros i term Hi Hk.
  destruct (has h i) eqn:E; [|done]. by rewrite (H i term Hi E) in Hk.
Qed.

(** The masks of a depth below. *)
Lemma gains_path d j v m : (d < j)%nat ->
  (forall i term, terms !! i = Some term -> has v i = true -> (j < length (term_segments term))%nat) ->
  gains d nothing m (m <| path_active := <[j := v]> (path_active m) |>).
Proof.
  intros Hj Hv. apply gains_nothing; [|intros k Hk; cbn; rewrite list_lookup_insert_ne by lia|]; try done.
  intros []. split; try done; [|cbn; by rewrite length_insert]. intros k P i term. cbn. destruct (decide (k = j)) as [->|Hn].
  - rewrite list_lookup_insert_Some. intros [(_ & <- & _)|[? _]]; [apply Hv|done].
  - rewrite list_lookup_insert_ne by done. apply cm_paths.
Qed.

Lemma gains_recursive d j m : gains d nothing m (m <| recursive_active := <[j := 0]> (recursive_active m) |>).
Proof. apply gains_nothing; try done. intros []. split; try done. by apply Forall_insert. Qed.

(** ** Texts *)

Lemma byte_kind_case term : byte_kind term = true -> ignores_case term = false.
Proof. unfold byte_kind, ignores_case, kind_is. by destruct (term_kind term). Qed.

Lemma rests_start active m : rests cfg m (lql_json_match_start cfg active false 0 m).
Proof. eapply rests_started, match_start_started. Qed.

Lemma start_active active m : match_active (lql_json_match_start cfg active false 0 m) = active.
Proof. eapply st_active, match_start_started. Qed.

(** From the start of a match to its hits. *)
Lemma text_fed active t m s1 s2 : calm m -> matcher s1 = lql_json_match_start cfg active false 0 m ->
  fed cfg t s1 s2 ->
  rests cfg m (matcher s2) /\ forall i term, terms !! i = Some term -> byte_kind term = true ->
    has (lql_json_match_complete cfg (matcher s2)) i = has active i && text_test term t.
Proof.
  intros Hc E1 F.
  pose proof (start_value_feeding cfg active m (pc_ready _ plain) (cm_positions _ _ Hc)) as Hf.
  rewrite <- E1 in Hf. destruct (fed_feeding _ _ _ _ F [] Hf) as [Hf2 Hfr]. cbn [app] in Hf2.
  split.
  - transitivity (matcher s1); [rewrite E1; apply rests_start|by eapply rests_feeding].
  - intros i term Hi Hk.
    rewrite (complete_value cfg t _ i term Hf2); [|..|done| |by apply byte_kind_case].
    + by rewrite (frame_active _ _ Hfr), E1, start_active.
    + rewrite (frame_key _ _ Hfr), E1. eapply st_key, match_start_started.
    + pose proof (pc_ready _ plain) as Hr. by eapply list.Forall_lookup in Hr.
Qed.

Lemma text_gains d active t m s1 s2 : calm m -> matcher s1 = lql_json_match_start cfg active false 0 m ->
  fed cfg t s1 s2 ->
  gains d (fun i term => has active i && text_test term t) m (matcher (add_hits (lql_json_match_complete cfg (matcher s2)) s2)).
Proof.
  intros Hc E1 F. destruct (text_fed active t m s1 s2 Hc E1 F) as [Hr Hh].
  eapply gains_after; [by apply gains_rests|]. eapply gains_ext; [apply gains_hits|done].
Qed.

(** The end of a match. *)
Lemma gains_stop d R m m' : gains d R m m' -> calm m ->
  gains d R m (lql_json_match_start cfg 0 false 0 m') /\ calm (lql_json_match_start cfg 0 false 0 m').
Proof.
  intros G Hc. assert (gains d R m (lql_json_match_start cfg 0 false 0 m')) as G'.
  { eapply gains_before; [exact G|]. apply gains_rests, rests_start. }
  split; [done|]. apply settled_calm; [by eapply gn_settled, calm_settled|apply start_active].
Qed.

(** The bytes [w] are read. *)
Definition reads (w : bytes) (s s' : lql_json_scan) : Prop := exists c o, moves w c o s s'.

Lemma reads_trans w1 w2 s1 s2 s3 : reads w1 s1 s2 -> reads w2 s2 s3 -> reads (w1 ++ w2) s1 s3.
Proof. intros (c1 & o1 & M1) (c2 & o2 & M2). eexists _, _. by eapply moves_trans. Qed.

Lemma reads_moves w c o s s' : moves w c o s s' -> reads w s s'.
Proof. by eexists _, _. Qed.

Lemma reads_same s s' : same_io s s' -> reads [] s s'.
Proof. intros H. by eapply reads_moves, moves_quiet. Qed.

Lemma reads_after w s1 s2 s3 : reads [] s1 s2 -> reads w s2 s3 -> reads w s1 s3.
Proof. apply (reads_trans []). Qed.

Lemma reads_before w s1 s2 s3 : reads w s1 s2 -> reads [] s2 s3 -> reads w s1 s3.
Proof. intros H1 H2. rewrite <- (app_nil_r w). by eapply reads_trans. Qed.

Lemma reads_sane w s s' : reads w s s' -> sane s -> sane s'.
Proof. intros (c & o & M) H. by eapply moves_sane. Qed.

Lemma reads_depth w s s' : reads w s s' -> depth (input s') = depth (input s).
Proof. intros (c & o & M). by destruct M. Qed.

(** What reading a value of text [w] under a matched key does. *)
Definition hits_text (w : bytes) (R : nat -> lql_json_flat_eq_term -> bool) (d : nat)
    (s s' : lql_json_scan) : Prop :=
  reads w s s' /\ calm (matcher s') /\ gains d R (matcher s) (matcher s').

Lemma temporal_kinds t i term : terms !! i = Some term ->
  has (lql_json_temporal_range_complete cfg t) i = true -> byte_kind term = false.
Proof.
  intros Hi. unfold lql_json_temporal_range_complete. case_if; [by rewrite has_0|].
  case_match; [|by rewrite has_0]. rewrite has_mask_of, Hi. intros Hh. bool_hyps.
  unfold kind_is in *. unfold byte_kind. by destruct (term_kind term).
Qed.

Lemma matched_string_gains d eq_terms temporal_terms s : sane s -> calm (matcher s) ->
  ok (matched_string cfg eq_terms temporal_terms) s (fun _ s' => exists b t, chars_text b t /\
    hits_text (quoted b) (fun i term => has eq_terms i && text_test term t) d s s').
Proof.
  intros Hs Hc. unfold matched_string, match_start, temporal_start. do 2 apply ok_modify_then.
  set (s1 := on_temporal _ _).
  assert (reads [] s s1) as M1 by by apply reads_same.
  eapply ok_attempt_then; [apply (string_fed (content := content) cfg); by eapply reads_sane| |fails].
  cbv beta iota. intros [] s2 (b & t & Hb & (c & o & M2) & F). apply ok_assoc.
  do 4 apply ok_modify_then. apply ok_ret. exists b, t. split; [done|].
  split.
  { eapply reads_after; [exact M1|]. eapply reads_before; [by eapply reads_moves|by apply reads_same]. }
  apply and_comm. eapply gains_stop; [|done].
  eapply gains_before; [by eapply (text_gains d eq_terms t _ s1 s2)|].
  apply gains_other_hits. intros i term. apply temporal_kinds.
Qed.

Lemma matched_literal_gains d l textual_terms scalar_terms s : sane s -> calm (matcher s) ->
  ok (matched_literal cfg l textual_terms scalar_terms) s (fun _ s' =>
    hits_text l (fun i term => has scalar_terms i && bytes_eqb (term_value term) l ||
                               has textual_terms i && text_test term l) d s s').
Proof.
  intros Hs Hc. unfold matched_literal, match_start. apply ok_modify_then.
  set (s1 := on_matcher _ _). assert (reads [] s s1) as M1 by by apply reads_same.
  eapply ok_attempt_then; [apply (literal_fed (content := content) cfg)| |fails].
  cbv beta iota. intros [] s2 [(c & o & M2) F]. apply ok_assoc.
  do 3 apply ok_modify_then. apply ok_ret.
  split.
  { eapply reads_after; [exact M1|]. eapply reads_before; [by eapply reads_moves|by apply reads_same]. }
  apply and_comm. eapply gains_stop; [|done].
  destruct (text_fed textual_terms l (matcher s) s1 s2 Hc eq_refl F) as [Hr Hh].
  eapply gains_after; [by apply gains_rests|].
  eapply gains_ext; [eapply gains_trans; [apply gains_hits|apply gains_hits]|].
  cbv beta. intros i term Hi Hk. f_equal; [|by apply Hh].
  unfold lql_json_scalar_literal_hits. by rewrite has_mask_of, Hi.
Qed.

(** ** Numbers *)

Context (parse_double : bytes -> option spec_float).

Lemma still_compare_current t right : still (compare_current t right).
Proof. unfold compare_current. still. Qed.
Lemma still_compare_failed : still compare_failed.
Proof. unfold compare_failed. still. Qed.
#[local] Hint Resolve still_compare_current still_compare_failed : still.
Lemma still_range_bound b t pass reject : still (range_bound parse_double b t pass reject).
Proof. unfold range_bound. still. Qed.
#[local] Hint Resolve still_range_bound : still.
Lemma still_range_term term t : still (range_term parse_double term t).
Proof. unfold range_term. still. Qed.
Lemma still_eq_term term t : still (eq_term term t).
Proof. unfold eq_term. still. Qed.

(** Only terms of one kind are hit. *)
Lemma number_hits_kind kind test l : (forall term t, still (test term t)) -> forall i mask hits s,
  ok (number_hits i mask kind test l hits) s (fun h s' => matcher s' = matcher s /\
    forall j, has h j = true -> has hits j = true \/
      exists term, l !! (j - i)%nat = Some term /\ (i <= j)%nat /\ kind_is term kind = true).
Proof.
  intros Ht. induction l as [|term l IH]; intros i mask hits s; cbn [number_hits].
  { apply ok_ret. auto. }
  assert (forall hits0 s1, matcher s1 = matcher s ->
    (forall j, has hits0 j = true -> has hits j = true \/ j = i /\ kind_is term kind = true) ->
    ok (number_hits (S i) mask kind test l hits0) s1 (fun h s' => matcher s' = matcher s /\
      forall j, has h j = true -> has hits j = true \/
        exists x, (term :: l) !! (j - i)%nat = Some x /\ (i <= j)%nat /\ kind_is x kind = true)) as Hnext.
  { intros hits0 s1 E H0. eapply ok_impl; [apply IH|]. cbv beta. intros h s2 [E2 H2]. split; [congruence|].
    intros j Hj. destruct (H2 j Hj) as [Hh|(x & Hx & Hle & Hk)].
    - destruct (H0 j Hh) as [?|[-> Hk]]; [by left|right]. exists term. by rewrite Nat.sub_diag.
    - right. exists x. split; [|split; [lia|done]]. by replace (j - i)%nat with (S (j - S i)) by lia. }
  destruct (has mask i && kind_is term kind) eqn:E; [|apply Hnext; auto].
  apply ok_gets_then. eapply ok_bind; [apply Ht|]. cbv beta. intros hit s1 E1. apply Hnext; [done|].
  bool_hyps. intros j. destruct hit; [|auto]. rewrite has_lor, has_bit. intros Hj.
  apply orb_true_iff in Hj as [Hj|Hj%Nat.eqb_eq]; [by left|by right].
Qed.

Lemma number_kinds kind test mask s : (forall term t, still (test term t)) ->
  kind = LQL_JSON_FLAT_TERM_NUMBER_RANGE \/ kind = LQL_JSON_FLAT_TERM_NUMBER_EQ ->
  ok (number_hits 0 mask kind test terms 0) s (fun h s' => matcher s' = matcher s /\
    forall i term, terms !! i = Some term -> has h i = true -> byte_kind term = false).
Proof.
  intros Ht Hkind. eapply ok_impl; [by apply number_hits_kind|]. cbv beta. intros h s' [E H]. split; [done|].
  intros i term Hi Hh. destruct (H i Hh) as [H0|(x & Hx & _ & Hk)]; [by rewrite has_0 in H0|].
  rewrite Nat.sub_0_r, Hi in Hx. injection Hx as <-. unfold kind_is in Hk. unfold byte_kind.
  destruct (term_kind term); destruct Hkind as [->| ->]; done.
Qed.

Lemma no_kinds s : ok (mret 0) s (fun h s' => matcher s' = matcher s /\
  forall i term, terms !! i = Some term -> has h i = true -> byte_kind term = false).
Proof. apply ok_ret. split; [done|]. intros i term _. by rewrite has_0. Qed.

Lemma number_complete_gains d R m number_eq_terms s :
  gains d R m (matcher (add_hits (lql_json_match_complete cfg (matcher s)) s)) ->
  ok (number_complete cfg parse_double number_eq_terms) s (fun _ s' => gains d R m (matcher s')).
Proof.
  intros G. unfold number_complete. apply ok_modify_then. set (s1 := add_hits _ s) in *.
  eapply ok_bind with (P := fun h s' => matcher s' = matcher s1 /\
    forall i term, terms !! i = Some term -> has h i = true -> byte_kind term = false).
  { unfold lql_json_number_range_complete. apply ok_gets_then. case_if; [apply no_kinds|].
    case_if; [apply ok_stop|]. apply number_kinds; [apply still_range_term|by left]. }
  intros h s2 [E2 H2]. apply ok_modify_then. set (s3 := add_hits h s2).
  assert (gains d R m (matcher s3)) as G3.
  { eapply gains_before; [exact G|]. rewrite <- E2. by apply gains_other_hits. }
  eapply ok_bind with (P := fun h s' => matcher s' = matcher s3 /\
    forall i term, terms !! i = Some term -> has h i = true -> byte_kind term = false).
  { unfold lql_json_number_eq_complete. apply ok_gets_then. case_if; [apply ok_stop|].
    case_if; [apply no_kinds|]. apply number_kinds; [apply still_eq_term|by right]. }
  intros h' s4 [E4 H4]. apply ok_modify. eapply gains_before; [exact G3|]. rewrite <- E4.
  by apply gains_other_hits.
Qed.

(** The text that is fed while a scalar is read. *)
Definition raw_text (v : json) : option bytes :=
  match v with JNull => Some (bs "null") | _ => text_of v end.

(** [value] reads a scalar. *)
Definition reads_scalar (value : Scan unit) (s : lql_json_scan) : Prop :=
  ok value s (fun _ s' => exists w v t, json_of w v /\ raw_text v = Some t /\ reads w s s' /\ fed cfg t s s').

Lemma matched_number_gains d value active range_terms number_eq_terms s : sane s -> calm (matcher s) ->
  (forall s', same_io s s' -> reads_scalar value s') ->
  ok (matched_number cfg parse_double value active range_terms number_eq_terms) s (fun _ s' =>
    exists w v t, json_of w v /\ raw_text v = Some t /\
      hits_text w (fun i term => has active i && text_test term t) d s s').
Proof.
  intros Hs Hc Hv. unfold matched_number, match_start, number_start. do 2 apply ok_modify_then.
  set (s1 := on_number _ _). assert (same_io s s1) as Hio by done.
  eapply ok_attempt_then; [by apply Hv| |fails].
  cbv beta iota. intros [] s2 (w & v & t & Hw & Hr & M2 & F).
  pose proof (text_gains d active t (matcher s) s1 s2 Hc eq_refl F) as G.
  eapply ok_attempt_then; [apply ok_and; [by apply number_complete_gains|
    apply (quiet_number_complete cfg parse_double)]| |fails].
  cbv beta. intros [] s3 [G3 Hio3]. do 2 apply ok_modify_then. apply ok_ret.
  exists w, v, t. split; [done|]. split; [done|]. split.
  { eapply reads_after; [by apply reads_same|]. eapply reads_before; [exact M2|]. apply reads_same.
    transitivity s3; [done|]. by split. }
  apply and_comm. by eapply gains_stop.
Qed.
End gains.
