(* ===== verification/ScanHits.v ===== *)
(** * The hits of a value

    What the scanner adds to the hits while it reads a value: the terms that are
    active at its depth and hold of what their path reaches in it.  By induction on
    the fuel, together with the objects and arrays inside. *)

From S2P Require Import Prelude.
From S2P Require Import Errors.
From S2P Require Import SelectorJsonProps.
From S2P Require Import JsonSpool.
From S2P Require Import SpoolProps.
From S2P Require Import ScanTerm.
From S2P Require Import ScanState.
From S2P Require Import ScanInput.
From S2P Require Import ScanMatch.
From S2P Require Import JsonScan.
From S2P Require Import JsonGrammar.
From S2P Require Import JsonTree.
From S2P Require Import ScanSpan.
From S2P Require Import ScanLogic.
From S2P Require Import ScanReads.
From S2P Require Import ScanWrites.
From S2P Require Import ScanSound.
From S2P Require Import ScanFeed.
From S2P Require Import ScanFed.
From S2P Require Import ScanMatches.
From S2P Require Import ScanText.
From S2P Require Import ScanKeys.
From S2P Require Import ScanGains.

(** ** What is asked of a value below a key *)

(** The term holds of what its path reaches from a value at depth [d]. *)
Definition deep (term : lql_json_flat_eq_term) (d : nat) (v : json) : bool :=
  reached (term_test term) (drop d (term_segments term)) v.

(** The path ends at depth [d]. *)
Definition ends_at (term : lql_json_flat_eq_term) (d : nat) : bool :=
  (length (term_segments term) =? d)%nat.

(** The test of a term but for presence. *)
Definition content_test (term : lql_json_flat_eq_term) (v : json) : bool :=
  negb (kind_is term LQL_JSON_FLAT_TERM_EXISTS) &&
  negb (kind_is term LQL_JSON_FLAT_TERM_VALUELESS_PRESENT) && term_test term v.

Lemma deep_end term d v : ends_at term d = true ->
  deep term d v = content_test term v || kind_is term LQL_JSON_FLAT_TERM_EXISTS && negb (is_null v) ||
                  kind_is term LQL_JSON_FLAT_TERM_VALUELESS_PRESENT.
Proof.
  unfold ends_at, deep, content_test, kind_is, term_test. intros ->%Nat.eqb_eq%symmetry.
  rewrite drop_all. cbn [reached]. destruct (term_kind term); settle_decisions; cbn; by rewrite ?orb_false_r.
Qed.

Lemma deep_members term d ms segment : term_segments term !! d = Some segment ->
  deep term d (JObject ms) = existsb (fun m => bytes_eqb segment (fst m) && deep term (S d) (snd m)) ms.
Proof. intros H. unfold deep. by rewrite (drop_S _ _ _ H). Qed.

(** Only an object has members. *)
Lemma deep_scalar term d v : (d < length (term_segments term))%nat -> (forall ms, v <> JObject ms) ->
  deep term d v = false.
Proof.
  intros Hd Hv. apply lookup_lt_is_Some_2 in Hd as [segment Hs]. unfold deep. rewrite (drop_S _ _ _ Hs).
  destruct v; try done. by edestruct Hv.
Qed.

Section hits.
Context {content : bytes -> lql_json_spool -> Prop} `{laws : !SpoolLaws content}.
Context (cfg : scan_config) (plain : plain_config cfg) (parse_double : bytes -> option spec_float).
Implicit Types (s : lql_json_scan) (m : scan_matcher).
#[local] Abbreviation terms := (flat_terms cfg).
#[local] Abbreviation moves := (moves (content := content)).
#[local] Abbreviation reads := (reads (content := content)).
#[local] Abbreviation calm := (calm cfg).
#[local] Abbreviation gains := (gains cfg).
#[local] Abbreviation hits_text := (hits_text (content := content) cfg).

(** ** Passing over bytes *)

(** The bytes [w] are read and the matcher is left alone. *)
Definition passes (w : bytes) (s s' : lql_json_scan) : Prop := reads w s s' /\ matcher s' = matcher s.

Lemma passes_trans w1 w2 s1 s2 s3 : passes w1 s1 s2 -> passes w2 s2 s3 -> passes (w1 ++ w2) s1 s3.
Proof. intros [R1 E1] [R2 E2]. split; [by eapply reads_trans|congruence]. Qed.

Lemma passes_io w c o s s' : moves w c o s s' -> matcher s' = matcher s -> passes w s s'.
Proof. intros M E. split; [by eapply reads_moves|done]. Qed.

Lemma passes_eq w w' s s' : passes w s s' -> w = w' -> passes w' s s'.
Proof. by intros H <-. Qed.

Lemma quiet_still {A} (m : Scan A) s : quiet m -> still m ->
  ok m s (fun _ s' => same_io s s' /\ matcher s' = matcher s).
Proof. intros Hq Hs. by apply ok_and; [apply Hq|apply Hs]. Qed.

(** ** The byte under the cursor *)

Definition peeked (c : option Z) (s : lql_json_scan) : Prop := at_byte c s /\ (c = None -> at_end s).

Lemma peeked_first c s s' w v : peeked c s -> reads w s s' -> json_of w v ->
  exists x, c = Some x /\ first_byte v x.
Proof.
  intros [Hc He] (cw & o & M) Hw. apply json_first in Hw as (x & r & -> & Hx). exists x. split; [|done].
  pose proof (mv_stream _ _ _ _ _ M) as E. destruct c as [y|].
  - unfold at_byte in Hc. unfold stream in E. destruct (buffer (input s)) as [|z b]; [done|].
    injection Hc as ->. cbn in E. by injection E as ->.
  - by rewrite (at_end_stream s (He eq_refl)) in E.
Qed.

Lemma peeked_same c s s' : same_io s s' -> peeked c s -> peeked c s'.
Proof. intros [E _] [Hc He]. unfold peeked, at_byte, at_end in *. by rewrite E. Qed.

(** A byte that is there is peeked again. *)
Lemma peek_again x s : at_byte (Some x) s -> lql_json_peek s = Some (inl (Some x), s).
Proof.
  unfold at_byte. intros H. unfold lql_json_peek, lql_json_refill. unfold mbind, Scan_bind, gets.
  destruct (buffer (input s)) as [|y b] eqn:E; [done|]. cbn. by rewrite E, H.
Qed.

(** ** Values *)

(** The terms that are active at the depth of [s]. *)
Definition active_at (d : nat) (m : scan_matcher) : Z := default 0 (path_active m !! d).

(** [value] reads a value: of a scalar it feeds the text, of a container it adds
    the hits of the active terms. *)
Definition outcome (s : lql_json_scan) (v : json) (s' : lql_json_scan) : Prop :=
  match raw_text v with
  | Some t => fed cfg t s s'
  | None => calm (matcher s) /\ calm (matcher s') /\ (depth (input s) < LQL_JSON_MAX_DEPTH)%nat /\
      gains (depth (input s)) (fun i term =>
        has (active_at (depth (input s)) (matcher s)) i && deep term (depth (input s)) v) (matcher s) (matcher s')
  end.

Definition value_hits (value : Scan unit) : Prop := forall s, sane s ->
  calm (matcher s) \/ (exists x, at_byte (Some x) s /\ is_container (Some x) = false) ->
  ok value s (fun _ s' => exists w v, json_of w v /\ reads w s s' /\ outcome s v s').

Lemma active_deep m d i term : calm m -> terms !! i = Some term -> has (active_at d m) i = true ->
  (d < length (term_segments term))%nat.
Proof.
  intros Hc Hi. unfold active_at. destruct (path_active m !! d) eqn:E; [|by rewrite has_0].
  cbn. intros H. by eapply cm_paths.
Qed.

(** A value read from a calm state, whatever it is. *)
Lemma calm_value value s : value_hits value -> sane s -> calm (matcher s) ->
  ok value s (fun _ s' => exists w v, json_of w v /\ reads w s s' /\ calm (matcher s') /\
    (raw_text v = None -> (depth (input s) < LQL_JSON_MAX_DEPTH)%nat) /\
    gains (depth (input s)) (fun i term =>
      has (active_at (depth (input s)) (matcher s)) i && deep term (depth (input s)) v) (matcher s) (matcher s')).
Proof.
  intros Hv Hs Hc. eapply ok_impl; [by apply Hv; [done|left]|]. cbv beta.
  intros [] s' (w & v & Hw & R & O). exists w, v. split; [done|]. split; [done|]. unfold outcome in O.
  destruct (raw_text v) as [t|] eqn:Et; [|by destruct O as (_ & ? & ? & ?)].
  destruct (calm_fed cfg t s s' Hc O) as [Hr Hc']. split; [done|]. split; [done|].
  eapply gains_ext; [by apply gains_rests|]. intros i term Hi _. cbv beta.
  destruct (has _ i) eqn:Ea; [|done]. cbn. symmetry. apply deep_scalar.
  - exact (active_deep _ _ i term Hc Hi Ea).
  - by intros ms ->.
Qed.

(** The tests of the texts. *)
Lemma string_test term t : byte_kind term = true ->
  string_kind term && text_test term t = content_test term (JString t).
Proof.
  unfold byte_kind, content_test, string_kind, textual, kind_is, text_test, term_test.
  by destruct (term_kind term); settle_decisions.
Qed.

Lemma number_test term w : byte_kind term = true ->
  textual term && text_test term w = content_test term (JNumber w).
Proof.
  unfold byte_kind, content_test, textual, kind_is, text_test, term_test.
  by destruct (term_kind term); settle_decisions.
Qed.

Lemma bool_test term (x : bool) : byte_kind term = true ->
  kind_is term LQL_JSON_FLAT_TERM_BOOL_EQ && bytes_eqb (term_value term) (bs (if x then "true" else "false")) ||
  textual term && text_test term (bs (if x then "true" else "false")) = content_test term (JBool x).
Proof.
  unfold byte_kind, content_test, textual, kind_is, text_test, term_test.
  destruct (term_kind term); settle_decisions; cbn; by rewrite ?orb_false_r.
Qed.

Lemma null_test term : byte_kind term = true ->
  kind_is term LQL_JSON_FLAT_TERM_NULL_EQ && bytes_eqb (term_value term) (bs "null") =
  content_test term JNull.
Proof.
  unfold byte_kind, content_test, kind_is, term_test. by destruct (term_kind term); settle_decisions.
Qed.

Lemma container_test term v : raw_text v = None -> content_test term v = false.
Proof.
  intros Hv. unfold content_test, kind_is, term_test. destruct (term_kind term), v; settle_decisions; done.
Qed.

(** The terms a matched key has at its end. *)
Lemma matched_terms_at d mask segments kind i term : terms !! i = Some term ->
  (has mask i = true -> nth i segments 0%nat = d) ->
  has (matched_terms cfg segments mask kind) i = has mask i && ends_at term (S d) && kind term.
Proof.
  intros Hi Hseg. unfold matched_terms, terms_at. rewrite has_mask_of, Hi.
  destruct (has mask i) eqn:E; [|done]. rewrite Hseg by done. rewrite plain_value_at by by eapply plain_at.
  done.
Qed.

(** A value is read below depth [d], with the gains [R] gives for it. *)
Definition reads_gaining (d : nat) (R : json -> nat -> lql_json_flat_eq_term -> bool)
    (s s' : lql_json_scan) : Prop :=
  exists w v, json_of w v /\ reads w s s' /\ calm (matcher s') /\
    (raw_text v = None -> (S d < LQL_JSON_MAX_DEPTH)%nat) /\ gains d (R v) (matcher s) (matcher s').

(** What a matched key asks of its value. *)
Definition matched_test (d : nat) (mask below : Z) (v : json) (i : nat) (term : lql_json_flat_eq_term) : bool :=
  has mask i && ends_at term (S d) && content_test term v || has below i && deep term (S d) v.

Lemma hits_text_reads d w v R R' s s' : json_of w v -> (exists t, raw_text v = Some t) ->
  hits_text w R d s s' ->
  (forall i term, terms !! i = Some term -> byte_kind term = true -> R i term = R' v i term) ->
  reads_gaining d R' s s'.
Proof.
  intros Hw [t Ht] (Hr & Hc & G) HR. exists w, v. split; [done|]. split; [done|]. split; [done|].
  split; [by rewrite Ht|]. by eapply gains_ext.
Qed.

(** The value of a scalar has nothing below. *)
Lemma matched_scalar d mask m v i term : calm m -> terms !! i = Some term -> (forall ms, v <> JObject ms) ->
  matched_test d mask (active_at (S d) m) v i term = has mask i && ends_at term (S d) && content_test term v.
Proof.
  intros Hc Hi Hv. unfold matched_test. destruct (has (active_at (S d) m) i) eqn:Ea; [|by rewrite orb_false_r].
  rewrite (deep_scalar term (S d) v), orb_false_r; [done| |done]. by eapply active_deep.
Qed.

Lemma byte_is_first c x v : byte_is c v = true -> c = Some x -> x = v.
Proof. intros H ->. by apply Z.eqb_eq. Qed.

Section member_value.
Context (d : nat) (value : Scan unit) (k : key_result) (c : option Z) (s : lql_json_scan).
Context (Hv : value_hits value) (Hs : sane s) (Hc : calm (matcher s)) (Hp : peeked c s).
Context (Hd : depth (input s) = S d).
Context (Hseg : forall i term, terms !! i = Some term -> has (key_matches k) i = true ->
  nth i (key_term_segment (matcher s)) 0%nat = d).
#[local] Abbreviation found := (matched_terms cfg (key_term_segment (matcher s)) (key_matches k)).
#[local] Abbreviation outcome_here :=
  (reads_gaining d (matched_test d (key_matches k) (active_at (S d) (matcher s)))).

Lemma found_at kind i term : terms !! i = Some term ->
  has (found kind) i = has (key_matches k) i && ends_at term (S d) && kind term.
Proof. intros Hi. apply matched_terms_at; [done|]. by eapply Hseg. Qed.

Lemma member_string : ok (matched_string cfg (found string_kind)
    (found (fun t => kind_is t LQL_JSON_FLAT_TERM_TEMPORAL_RANGE))) s (fun _ => outcome_here s).
Proof.
  eapply ok_impl; [by apply (matched_string_gains (content := content) cfg plain d)|]. cbv beta.
  intros [] s' (b & t & Hb & H). eapply (hits_text_reads d _ (JString t)); [by constructor|by eexists|exact H|].
  cbv beta. intros i term Hi Hk. rewrite matched_scalar by done.
  by rewrite (found_at _ _ _ Hi), <- andb_assoc, string_test.
Qed.

Lemma member_literal (x : bool) : ok (matched_literal cfg (bs (if x then "true" else "false"))
    (found textual) (found (fun t => kind_is t LQL_JSON_FLAT_TERM_BOOL_EQ))) s (fun _ => outcome_here s).
Proof.
  eapply ok_impl; [by apply (matched_literal_gains (content := content) cfg plain d)|]. cbv beta.
  intros [] s' H. eapply (hits_text_reads d _ (JBool x)); [by constructor|by destruct x; eexists|exact H|].
  cbv beta. intros i term Hi Hk. rewrite matched_scalar by done.
  rewrite !(found_at _ _ _ Hi), <- !andb_assoc, <- !andb_orb_distrib_r. do 2 f_equal. by apply bool_test.
Qed.

Lemma member_null : ok (matched_literal cfg (bs "null") 0
    (found (fun t => kind_is t LQL_JSON_FLAT_TERM_NULL_EQ))) s (fun _ => outcome_here s).
Proof.
  eapply ok_impl; [by apply (matched_literal_gains (content := content) cfg plain d)|]. cbv beta.
  intros [] s' H. eapply (hits_text_reads d _ JNull); [by constructor|by eexists|exact H|].
  cbv beta. intros i term Hi Hk. rewrite matched_scalar by done.
  by rewrite (found_at _ _ _ Hi), has_0, orb_false_r, <- andb_assoc, null_test.
Qed.

(** A number by its first byte. *)
Lemma number_byte v x : byte_is (Some x) ch_minus || digit_of (Some x) = true -> first_byte v x ->
  exists w, v = JNumber w.
Proof.
  cbn. unfold is_digit. intros Hx Hf. destruct v as [|y|w|t|vs|ms]; cbn in Hf; subst; try discriminate Hx.
  - by destruct y.
  - by eexists.
Qed.

Lemma member_number : byte_is c ch_minus || digit_of c = true ->
  ok (matched_number cfg parse_double value (found textual)
    (found (fun t => kind_is t LQL_JSON_FLAT_TERM_NUMBER_RANGE))
    (found (fun t => kind_is t LQL_JSON_FLAT_TERM_NUMBER_EQ))) s (fun _ => outcome_here s).
Proof.
  intros Hb. eapply ok_impl; [apply (matched_number_gains (content := content) cfg plain parse_double d); [done|done|]|].
  - intros s1 Hio. unfold reads_scalar.
    assert (exists x, c = Some x) as [x ->].
    { apply orb_true_iff in Hb as [Hb|Hb]; [by eapply byte_is_some|by apply digit_of_some]. }
    pose proof (peeked_same _ _ _ Hio Hp) as Hp1.
    eapply ok_impl; [apply Hv|].
    + eapply (reads_sane (content := content)); [by apply reads_same|done].
    + right. exists x. split; [apply Hp1|]. unfold is_container, byte_is, digit_of, is_digit in *. lia.
    + cbv beta. intros [] s2 (w & v & Hw & R & O). destruct (peeked_first _ _ _ _ _ Hp1 R Hw) as (x' & [= <-] & Hf).
      destruct (number_byte v x Hb Hf) as [w' ->]. exists w, (JNumber w'), w'. by repeat split.
  - cbv beta. intros [] s' (w & v & t & Hw & Ht & H).
    destruct H as (R & H). destruct (peeked_first _ _ _ _ _ Hp R Hw) as (x & -> & Hf).
    destruct (number_byte v x Hb Hf) as [w' ->]. injection Ht as ->.
    eapply (hits_text_reads d w (JNumber t)); [done|by eexists|by split|].
    cbv beta. intros i term Hi Hk. rewrite matched_scalar by done.
    by rewrite (found_at _ _ _ Hi), <- andb_assoc, number_test.
Qed.

(** A container by its first byte. *)
Lemma other_byte v x : byte_is (Some x) ch_quote = false -> scalar_literal (Some x) = None ->
  byte_is (Some x) ch_minus || digit_of (Some x) = false -> first_byte v x -> raw_text v = None.
Proof.
  unfold scalar_literal, byte_is, digit_of. intros H1 H2 H3 Hf.
  destruct v as [|y|w|t|vs|ms]; cbn in Hf; subst; try done; try by destruct y.
  apply orb_false_iff in H3 as [H3 H4]. destruct Hf as [->|Hf]; [done|congruence].
Qed.

Lemma member_container : byte_is c ch_quote = false -> scalar_literal c = None ->
  byte_is c ch_minus || digit_of c = false -> ok value s (fun _ => outcome_here s).
Proof.
  intros H1 H2 H3. eapply ok_impl; [by apply calm_value|]. cbv beta. rewrite Hd.
  intros [] s' (w & v & Hw & R & Hc' & Hn & G). exists w, v. repeat (split; [done|]).
  destruct (peeked_first _ _ _ _ _ Hp R Hw) as (x & -> & Hf).
  eapply gains_ext; [apply (gains_le _ (S d)); [lia|exact G]|]. cbv beta. intros i term Hi Hk.
  unfold matched_test. by rewrite container_test, andb_false_r by by eapply other_byte.
Qed.

Lemma matched_member_value_gains :
  ok (matched_member_value cfg parse_double value k c) s (fun _ => outcome_here s).
Proof.
  unfold matched_member_value. apply ok_gets_then. cbv zeta.
  destruct (byte_is c ch_quote) eqn:Eq; [apply member_string|].
  destruct (scalar_literal c) as [[kind l]|] eqn:El.
  - unfold scalar_literal in El. destruct (byte_is c 116) eqn:E1; [|destruct (byte_is c ch_f) eqn:E2;
      [|destruct (byte_is c 110) eqn:E3; [|done]]]; injection El as <- <-.
    + apply byte_is_spec in E1 as E. rewrite E in *. cbn [byte_is]. apply (member_literal true).
    + apply byte_is_spec in E2 as E. rewrite E in *. cbn [byte_is]. apply (member_literal false).
    + apply member_null.
  - destruct (byte_is c ch_minus || digit_of c) eqn:En; [|by apply member_container].
    assert (byte_is c 110 = false) as ->; [|by apply member_number].
    destruct (byte_is c 110) eqn:E; [|done]. apply byte_is_spec in E as ->. done.
Qed.
End member_value.

(** ** Members *)

Lemma container_first v x : raw_text v = None -> first_byte v x -> is_container (Some x) = true.
Proof. by destruct v; cbn; try done; intros _ ->. Qed.

(** A value that is only validated, at the limit of the nesting, is a scalar. *)
Lemma flat_scalar w c v : json_value 0 w c -> json_of w v -> raw_text v <> None.
Proof.
  intros Hw Hv. apply json_first in Hv as (x & r & -> & Hf). intros Hn.
  pose proof (container_first v x Hn Hf) as Hc. inversion Hw as [n w' Hs|n w' Hl|n w' Hm| | | |]; subst.
  - destruct Hs as (b & E & _). injection E as -> _. done.
  - destruct Hl as [E|[E|[E|[]]]]; injection E as <- _; done.
  - apply number_text_first in Hm as (y & r' & E & Hy). injection E as <- _.
    unfold is_container, byte_is, is_digit in *. lia.
Qed.

Lemma skip_value_reads s : sane s -> ok lql_json_skip_value_fast s (fun _ s' =>
  exists w v, json_of w v /\ reads w s s' /\ matcher s' = matcher s /\
    (raw_text v = None -> (depth (input s) < LQL_JSON_MAX_DEPTH)%nat)).
Proof.
  intros Hs. eapply ok_impl; [apply ok_still; [by apply (skip_value_fast_ok (content := content))|solve [still]]|].
  cbv beta. intros [] s' [(w & c & Hw & M) E]. destruct (proj1 json_denotes _ _ _ Hw) as [v Hv].
  exists w, v. split; [done|]. split; [by eapply reads_moves|]. split; [done|]. intros Hn.
  destruct (decide (depth (input s) < LQL_JSON_MAX_DEPTH)%nat) as [|Hd]; [done|].
  assert (room s = 0%nat) as E0 by (unfold room; lia). rewrite E0 in Hw. by edestruct flat_scalar.
Qed.

(** The terms of a key that go on below it. *)
Lemma descendants_at d mask m i term : terms !! i = Some term ->
  (has mask i = true -> nth i (key_term_segment m) 0%nat = d) ->
  has (lql_json_match_descendants cfg m mask) i =
    has mask i && negb (ends_at term (S d)) && (S d <? length (term_segments term))%nat.
Proof.
  intros Hi Hseg. unfold lql_json_match_descendants. rewrite has_mask_of, Hi.
  destruct (has mask i) eqn:E; [|done]. rewrite Hseg by done. cbn [andb].
  rewrite plain_value_at, plain_anchor, plain_segment_at, andb_true_r by by eapply plain_at.
  change (length (term_segments term) =? S d)%nat with (ends_at term (S d)). f_equal.
  destruct (Nat.ltb_spec (S d) (length (term_segments term))) as [Hl|Hl].
  - apply bool_decide_eq_true_2. by apply lookup_lt_is_Some_2.
  - apply bool_decide_eq_false_2. rewrite lookup_ge_None_2 by lia. by intros [].
Qed.

(** The masks set up for the depth below. *)
Lemma open_below_gains k d container descendants captures s : recursive_terms k = 0 ->
  calm (matcher s) ->
  (forall i term, terms !! i = Some term -> has descendants i = true -> (S d < length (term_segments term))%nat) ->
  ok (open_below cfg k d container descendants captures) s (fun _ s' =>
    same_io s s' /\ calm (matcher s') /\ gains d nothing (matcher s) (matcher s') /\
    key_term_segment (matcher s') = key_term_segment (matcher s) /\
    active_at (S d) (matcher s') =
      if (S d <? LQL_JSON_MAX_DEPTH)%nat then if container then descendants else 0 else 0).
Proof.
  intros Hr Hc Hdesc. unfold open_below. rewrite Hr.
  pose proof (cm_depths _ _ Hc) as Hlen.
  destruct (Nat.ltb_spec (S d) LQL_JSON_MAX_DEPTH) as [Hlt|Hge].
  - apply ok_modify_then. apply ok_modify_then. rewrite andb_false_r. apply ok_ret_then. apply ok_modify.
    set (v := if container then descendants else 0).
    replace (if container then 0 else 0) with 0 by by destruct container.
    assert (gains d nothing (matcher s) (matcher (set_recursive_active (S d) 0 (set_path_active (S d) v s)))) as G.
    { eapply gains_after; [|apply gains_recursive]. apply gains_path; [lia|]. intros i term Hi.
      subst v. destruct container; [by apply Hdesc|by rewrite has_0]. }
    split; [by split|]. split; [|split; [exact G|split; [done|]]].
    + apply settled_calm; [by eapply gn_settled, calm_settled|apply Hc].
    + unfold active_at. cbn. rewrite list_lookup_insert_eq; [done|]. by rewrite Hlen.
  - apply ok_ret. split; [done|]. split; [done|]. split; [apply gains_refl|]. split; [done|].
    unfold active_at. by rewrite lookup_ge_None_2 by lia.
Qed.

Lemma clear_below_gains d s : calm (matcher s) -> ok (clear_below (S d)) s (fun _ s' =>
  same_io s s' /\ calm (matcher s') /\ gains d nothing (matcher s) (matcher s')).
Proof.
  intros Hc. unfold clear_below, set_depth. case_if; [|done]. apply ok_modify.
  set (s' := set_capture_path _ _ _).
  assert (gains d nothing (matcher s) (matcher s')) as G.
  { change (gains d nothing (matcher s) (matcher (set_recursive_active (S d) 0 (set_path_active (S d) 0 s)))).
    eapply gains_after; [|apply gains_recursive]. apply gains_path; [lia|].
    intros i term _. by rewrite has_0. }
  split; [done|]. split; [|done]. apply settled_calm; [by eapply gn_settled, calm_settled|apply Hc].
Qed.

Lemma null_byte v x : first_byte v x -> byte_is (Some x) 110 = is_null v.
Proof.
  unfold byte_is. destruct v as [|y|w|t|vs|ms]; cbn; try (intros ->; done); [by destruct y; intros ->|].
  unfold is_digit. lia.
Qed.

(** A value of no interest or of a matched key. *)
Lemma member_reads d value k c s descendants (capture_values capture_descendants : Z) :
  value_hits value -> sane s -> calm (matcher s) -> peeked c s -> depth (input s) = S d ->
  (forall i term, terms !! i = Some term -> has (key_matches k) i = true ->
     nth i (key_term_segment (matcher s)) 0%nat = d) ->
  (descendants = 0 -> active_at (S d) (matcher s) = 0) ->
  ok (if negb (is_empty (key_matches k)) then matched_member_value cfg parse_double value k c
      else if negb (writing cfg) && is_empty descendants && is_empty 0 &&
              is_empty capture_values && is_empty capture_descendants
      then lql_json_skip_value_fast
      else value) s
    (fun _ => reads_gaining d (matched_test d (key_matches k) (active_at (S d) (matcher s))) s).
Proof.
  intros Hv Hs Hc Hp Hd Hseg Hzero. destruct (is_empty (key_matches k)) eqn:Ek; cbn [negb].
  2:{ by apply matched_member_value_gains. }
  destruct (negb (writing cfg) && _ && _ && _ && _) eqn:E.
  - eapply ok_impl; [by apply skip_value_reads|]. cbv beta. rewrite Hd.
    intros [] s' (w & v & Hw & R & Em & Hn). exists w, v. rewrite Em. do 4 (split; [done|]).
    eapply gains_ext; [apply gains_refl|]. cbv beta. intros i term Hi Hk. unfold matched_test.
    rewrite Hzero, has_0; [by rewrite (is_empty_has _ _ Ek)|]. bool_hyps. by apply is_empty_spec.
  - eapply ok_impl; [by apply calm_value|]. cbv beta. rewrite Hd.
    intros [] s' (w & v & Hw & R & Hc' & Hn & G). exists w, v. do 4 (split; [done|]).
    eapply gains_ext; [apply (gains_le _ (S d)); [lia|exact G]|]. cbv beta. intros i term Hi Hk.
    unfold matched_test. by rewrite (is_empty_has _ _ Ek).
Qed.

(** What a member adds after its key. *)
Definition below_key (d : nat) (mask : Z) (v : json) (i : nat) (term : lql_json_flat_eq_term) : bool :=
  has mask i &&
  (ends_at term (S d) && (content_test term v || kind_is term LQL_JSON_FLAT_TERM_EXISTS && negb (is_null v)) ||
   negb (ends_at term (S d)) && deep term (S d) v).

Lemma below_key_spec d mask below descendants exists_terms v i term : 
  (has mask i = true -> (d < length (term_segments term))%nat) ->
  has exists_terms i = has mask i && ends_at term (S d) && kind_is term LQL_JSON_FLAT_TERM_EXISTS ->
  has descendants i = has mask i && negb (ends_at term (S d)) && (S d <? length (term_segments term))%nat ->
  (raw_text v = None -> below = descendants) ->
  (raw_text v <> None -> has below i = true -> (S d < length (term_segments term))%nat) ->
  negb (is_null v) && has exists_terms i || matched_test d mask below v i term = below_key d mask v i term.
Proof.
  intros Hm He Hdesc Hb Hscalar. unfold matched_test, below_key. rewrite He.
  assert (has below i && deep term (S d) v =
    has mask i && (negb (ends_at term (S d)) && deep term (S d) v)) as ->.
  { destruct (raw_text v) as [t|] eqn:Et.
    - assert (forall ms, v <> JObject ms) as Hv by (by intros ms ->).
      assert (forall b : bool, (b = true -> (S d < length (term_segments term))%nat) ->
        b && deep term (S d) v = false) as K.
      { intros [] Hl; [|done]. cbn. apply deep_scalar; [by apply Hl|done]. }
      rewrite K by by apply Hscalar. rewrite andb_assoc, K; [done|].
      intros H. apply andb_true_iff in H as [H1 H2]. specialize (Hm H1). unfold ends_at in H2.
      destruct (Nat.eqb_spec (length (term_segments term)) (S d)); [done|lia].
    - rewrite Hb, Hdesc by done. rewrite <- !andb_assoc. destruct (has mask i) eqn:E; [|done].
      specialize (Hm eq_refl). cbn [andb]. unfold ends_at.
      destruct (Nat.eqb_spec (length (term_segments term)) (S d)); [done|].
      by rewrite (proj2 (Nat.ltb_lt _ _)) by lia. }
  destruct (has mask i), (ends_at term (S d)), (content_test term v), (is_null v),
    (kind_is term LQL_JSON_FLAT_TERM_EXISTS); cbn; try done; by rewrite ?orb_true_r, ?orb_false_r.
Qed.

(** Some steps before a value, and quiet ones after it. *)
Lemma reads_gaining_frame d R R1 R2 s0 s1 s2 s3 : same_io s0 s1 -> depth (input s1) = S d ->
  gains d R1 (matcher s0) (matcher s1) -> reads_gaining d R s1 s2 ->
  reads [] s2 s3 -> calm (matcher s3) -> gains d nothing (matcher s2) (matcher s3) ->
  (forall w v i term, json_of w v -> reads w s1 s2 -> (raw_text v = None -> (S d < LQL_JSON_MAX_DEPTH)%nat) ->
     terms !! i = Some term -> byte_kind term = true -> R1 i term || R v i term = R2 v i term) ->
  reads_gaining d R2 s0 s3.
Proof.
  intros Hio Hd G1 (w & v & Hw & R' & _ & Hn & G2) H3 Hc3 G3 HR. exists w, v. split; [done|].
  split. { eapply reads_after; [by apply reads_same|]. by eapply reads_before. }
  split; [done|]. split; [done|].
  eapply gains_before; [|exact G3]. eapply gains_ext; [by eapply gains_trans|]. cbv beta. eauto.
Qed.

Lemma member_value_gains d value k exists_terms c s :
  value_hits value -> sane s -> calm (matcher s) -> peeked c s -> depth (input s) = S d ->
  recursive_terms k = 0 -> recursive_key_matches k = 0 ->
  (forall i term, terms !! i = Some term -> has (key_matches k) i = true ->
     nth i (key_term_segment (matcher s)) 0%nat = d) ->
  (forall i term, terms !! i = Some term -> has (key_matches k) i = true -> (d < length (term_segments term))%nat) ->
  (forall i term, terms !! i = Some term -> has exists_terms i =
     has (key_matches k) i && ends_at term (S d) && kind_is term LQL_JSON_FLAT_TERM_EXISTS) ->
  ok (member_value cfg parse_double value d k exists_terms c) s
    (fun _ => reads_gaining d (below_key d (key_matches k)) s).
Proof.
  intros Hv Hs Hc Hp Hd Hr Hrm Hseg Hdeep Hex. unfold member_value. cbv zeta. rewrite Hr, Hrm, Z.land_0_r.
  rewrite !andb_false_r. do 2 apply ok_ret_then.
  eapply ok_bind with (P := fun _ s1 => same_io s s1 /\ calm (matcher s1) /\
    key_term_segment (matcher s1) = key_term_segment (matcher s) /\
    gains d (fun i _ => negb (byte_is c 110) && has exists_terms i) (matcher s) (matcher s1)).
  { destruct (byte_is c 110).
    - apply ok_ret. split; [done|]. split; [done|]. split; [done|apply gains_refl].
    - apply ok_modify. split; [done|]. split; [by destruct Hc|]. split; [done|]. apply gains_hits. }
  intros [] s1 (Hio1 & Hc1 & Hk1 & G1). apply ok_gets_then. set (descendants := if is_empty _ then 0 else _).
  assert (forall i term, terms !! i = Some term -> has descendants i =
    has (key_matches k) i && negb (ends_at term (S d)) && (S d <? length (term_segments term))%nat) as Hdesc.
  { intros i term Hi. subst descendants. destruct (is_empty (key_matches k)) eqn:E.
    - by rewrite has_0, (is_empty_has _ _ E).
    - apply descendants_at; [done|]. rewrite Hk1. by eapply Hseg. }
  destruct (captures_at _ _ _) as [capture_values capture_descendants]. apply ok_gets_then.
  set (start := if is_empty capture_values then 0 else _).
  eapply ok_bind; [apply (open_below_gains k d _ descendants); [done|done|]|].
  { intros i term Hi. rewrite (Hdesc i term Hi). intros [_ H]%andb_true_iff. by apply Nat.ltb_lt. }
  cbv beta. intros [] s2 (Hio2 & Hc2 & G2 & Hk2 & Hb2).
  assert (same_io s s2) as Hio by by transitivity s1. rewrite Hk1 in Hk2.
  assert (sane s2) as Hs2 by (eapply (reads_sane (content := content)); [by apply reads_same|done]).
  assert (depth (input s2) = S d) as Hd2 by by rewrite (reads_depth [] s s2) by by apply (reads_same (content := content)).
  pose proof (peeked_same _ _ _ Hio Hp) as Hp2.
  eapply ok_attempt_then; [apply (member_reads d value k c s2 descendants); try done| |fails].
  { intros i term Hi. rewrite Hk2. by eapply Hseg. }
  { rewrite Hb2. intros ->. by repeat case_if. }
  cbv beta iota. intros [] s3 R. assert (calm (matcher s3)) as Hc3 by by destruct R as (w & v & _ & _ & ? & _).
  eapply ok_bind with (P := fun _ s4 => same_io s3 s4 /\ matcher s4 = matcher s3).
  { apply quiet_still; [quiet|still]. }
  intros [] s4 [Hio4 E4].
  eapply ok_bind with (P := fun _ s5 => same_io s4 s5 /\ calm (matcher s5) /\ gains d nothing (matcher s4) (matcher s5)).
  { case_if; [apply clear_below_gains; by rewrite E4|]. apply ok_ret. rewrite E4. split; [done|].
    split; [done|apply gains_refl]. }
  intros [] s5 (Hio5 & Hc5 & G5). apply ok_ret.
  eapply (reads_gaining_frame d); [exact Hio|done|eapply gains_before; [exact G1|exact G2]|exact R| |done| |].
  - eapply reads_same. by transitivity s4.
  - by rewrite <- E4.
  - cbv beta. intros w v i term Hw Rw Hn Hi Hk.
    destruct (peeked_first _ _ _ _ _ Hp2 Rw Hw) as (x & -> & Hf). rewrite (null_byte _ _ Hf).
    apply (below_key_spec d _ _ descendants); [by eapply Hdeep|by apply Hex|by apply Hdesc|..].
    + intros Et. rewrite Hb2, (proj2 (Nat.ltb_lt _ _)) by by apply Hn.
      by rewrite (container_first v x Et Hf).
    + intros _. by eapply active_deep.
Qed.

(** The matcher but for the segments of the keys. *)
Definition unkeyed (m : scan_matcher) : scan_matcher := m <| key_term_segment := [] |>.

Record keyed (i : nat) (m m' : scan_matcher) : Prop := {
  ky_unkeyed : unkeyed m' = unkeyed m;
  ky_length : length (key_term_segment m') = length (key_term_segment m);
  ky_segment : nth i (key_term_segment m') 0%nat = nth i (key_term_segment m) 0%nat
}.

#[local] Instance keyed_preorder i : PreOrder (keyed i).
Proof. split; [by split|]. intros a b c [] []. split; congruence. Qed.

Lemma unkeyed_field {A} (f : scan_matcher -> A) m m' : (forall m, f m = f (unkeyed m)) ->
  unkeyed m' = unkeyed m -> f m' = f m.
Proof. intros Hf E. by rewrite (Hf m'), (Hf m), E. Qed.

Lemma key_segments_spec mask m : (length terms <= length (key_term_segment m))%nat ->
  let m' := key_segments_from_match cfg mask m in
  unkeyed m' = unkeyed m /\ length (key_term_segment m') = length (key_term_segment m) /\
  forall i term, terms !! i = Some term -> has mask i = true ->
    nth i (key_term_segment m') 0%nat = nth i (match_term_segment m) 0%nat.
Proof.
  intros Hl. cbv zeta. unfold key_segments_from_match.
  match goal with |- context [each ?g terms m] => set (f := g) end.
  assert (forall i j term a, i <> j -> keyed i a (f j term a)) as Hother.
  { intros i j term a Hn. subst f. cbv beta. case_if; [|reflexivity]. split; cbn; [done|apply length_insert|].
    by rewrite nth_insert, (proj2 (Nat.eqb_neq j i)) by lia. }
  assert (keyed (length terms) m (each f terms m)) as [H1 H2 _].
  { apply (each_keeps (keyed _)). intros i term a Hi. apply Hother. apply lookup_lt_Some in Hi. lia. }
  split; [done|]. split; [done|]. intros i term Hi Hm.
  destruct (each_round keyed _ f terms Hother m i term Hi) as (b & Hb & Hb').
  rewrite (ky_segment _ _ _ Hb'). subst f. cbv beta. rewrite Hm. cbn.
  rewrite nth_insert, Nat.eqb_refl, (proj2 (Nat.ltb_lt _ _)).
  - cbn. by rewrite (unkeyed_field match_term_segment _ _ (fun _ => eq_refl) (ky_unkeyed _ _ _ Hb)).
  - rewrite (ky_length _ _ _ Hb). apply lookup_lt_Some in Hi. lia.
Qed.

Lemma gains_keyed d m m' : unkeyed m' = unkeyed m ->
  length (key_term_segment m') = length (key_term_segment m) -> gains d nothing m m'.
Proof.
  intros E El. apply gains_nothing.
  - unfold settled. intros [H1 H2 H3 H4 H5 H6 H7 H8]. cbn in *.
    pose proof (unkeyed_field flat_eq_active _ _ (fun _ => eq_refl) E) as E1.
    pose proof (unkeyed_field match_pos _ _ (fun _ => eq_refl) E) as E2.
    pose proof (unkeyed_field match_term_segment _ _ (fun _ => eq_refl) E) as E3.
    pose proof (unkeyed_field recursive_active _ _ (fun _ => eq_refl) E) as E4.
    pose proof (unkeyed_field path_active _ _ (fun _ => eq_refl) E) as E5.
    split; cbn; rewrite ?E1, ?E2, ?E3, ?E4, ?E5, ?El; auto.
  - intros j _. by rewrite (unkeyed_field path_active _ _ (fun _ => eq_refl) E).
  - by apply (unkeyed_field flat_eq_hits).
Qed.

(** The terms of the key whose kind only asks for a value. *)
Lemma valueless_at d mask m i term : terms !! i = Some term ->
  (has mask i = true -> nth i (key_term_segment m) 0%nat = d) ->
  has (lql_json_match_valueless_present cfg m mask) i =
    has mask i && ends_at term (S d) && kind_is term LQL_JSON_FLAT_TERM_VALUELESS_PRESENT.
Proof.
  intros Hi Hseg. unfold lql_json_match_valueless_present. rewrite (pc_valueless _ plain).
  set (keys := Z.land _ _). assert (has keys i = has mask i &&
    kind_is term LQL_JSON_FLAT_TERM_VALUELESS_PRESENT) as Hk.
  { subst keys. by rewrite has_land, has_mask_of, Hi. }
  destruct (is_empty keys) eqn:E.
  - rewrite has_0. pose proof (is_empty_has _ i E) as H0. rewrite H0 in Hk.
    destruct (has mask i); [|done]. cbn in Hk. by rewrite <- Hk, andb_false_r.
  - change (terms_at cfg ?a ?b ?c) with (matched_terms cfg a b c).
    rewrite (matched_terms_at d _ _ _ i term Hi).
    + rewrite Hk. destruct (has mask i), (ends_at term (S d)), (kind_is term _); done.
    + rewrite Hk. intros [H _]%andb_true_iff. auto.
Qed.

(** The matcher between a key and its value. *)
Lemma after_key {B} d key sought k m s1 (K : Z -> Scan B) Q : calm m -> rests cfg m (matcher s1) ->
  selects cfg d key sought k (matcher s1) ->
  (forall exists_terms s2, same_io s1 s2 -> calm (matcher s2) ->
     (forall i term, terms !! i = Some term -> has (key_matches k) i = true ->
        nth i (key_term_segment (matcher s2)) 0%nat = d) ->
     (forall i term, terms !! i = Some term -> has exists_terms i =
        has (key_matches k) i && ends_at term (S d) && kind_is term LQL_JSON_FLAT_TERM_EXISTS) ->
     gains d (fun i term => has (key_matches k) i && ends_at term (S d) &&
        kind_is term LQL_JSON_FLAT_TERM_VALUELESS_PRESENT) m (matcher s2) ->
     ok (K exists_terms) s2 Q) ->
  ok ((if is_empty (key_matches k) then mret tt
       else modify (on_matcher (key_segments_from_match cfg (key_matches k)))) ;;
      exists_terms ← gets (fun s => if is_empty (key_matches k) then 0
                                    else lql_json_match_exists cfg (matcher s) (key_matches k));
      (if is_empty (key_matches k) then mret tt
       else modify (fun s => add_hits (lql_json_match_valueless_present cfg (matcher s) (key_matches k)) s)) ;;
      match_start cfg 0 ;; K exists_terms) s1 Q.
Proof.
  intros Hc Hr [_ _ _ Hseg] HK.
  assert (forall R s3, gains d R m (matcher s3) ->
    gains d R m (lql_json_match_start cfg 0 false 0 (matcher s3)) /\
    calm (lql_json_match_start cfg 0 false 0 (matcher s3))) as Hstop by (intros; by apply gains_stop).
  destruct (is_empty (key_matches k)) eqn:E.
  - apply ok_ret_then, ok_gets_then, ok_ret_then, ok_modify_then.
    assert (forall i, has (key_matches k) i = false) as H0 by (intros; by apply is_empty_has).
    destruct (Hstop _ s1 (gains_rests cfg d _ _ Hr)) as [G Hc2]. apply HK; [done|exact Hc2|..].
    + intros i term _. by rewrite H0.
    + intros i term _. by rewrite H0, has_0.
    + eapply gains_ext; [exact G|]. intros i term _ _. cbv beta. by rewrite H0.
  - apply ok_modify_then, ok_gets_then, ok_modify_then, ok_modify_then.
    set (s2 := on_matcher _ s1). set (h := lql_json_match_valueless_present _ _ _).
    destruct (key_segments_spec (key_matches k) (matcher s1)) as (Hu & Hl & Hs).
    { rewrite (rests_field cfg key_term_segment _ _ (fun _ => eq_refl) Hr). apply Hc. }
    change (key_segments_from_match cfg (key_matches k) (matcher s1)) with (matcher s2) in *.
    assert (forall i term, terms !! i = Some term -> has (key_matches k) i = true ->
      nth i (key_term_segment (matcher s2)) 0%nat = d) as Hseg2.
    { intros i term Hi Hm. rewrite (Hs i term Hi Hm). by eapply Hseg. }
    assert (gains d (fun i term => has (key_matches k) i && ends_at term (S d) &&
        kind_is term LQL_JSON_FLAT_TERM_VALUELESS_PRESENT) m (matcher (add_hits h s2))) as G0.
    { eapply gains_after; [eapply gains_after; [apply (gains_rests cfg d _ _ Hr)|by apply gains_keyed]|].
      eapply gains_ext; [apply gains_hits|]. intros i term Hi _. apply valueless_at; [done|]. by eapply Hseg2. }
    destruct (Hstop _ _ G0) as [G Hc2]. apply HK; [done|exact Hc2| | |exact G].
    + intros i term Hi Hm. pose proof (rests_start cfg 0 (matcher (add_hits h s2))) as Hr2.
      cbn [on_matcher matcher]. change (nth i (key_term_segment (lql_json_match_start cfg 0 false 0 (matcher (add_hits h s2)))) 0%nat = d).
      rewrite (rests_field cfg key_term_segment _ _ (fun _ => eq_refl) Hr2). by eapply Hseg2.
    + intros i term Hi. unfold lql_json_match_exists. apply (matched_terms_at d); [done|]. by eapply Hseg2.
Qed.

Lemma gains_sought d m m' (F : nat -> lql_json_flat_eq_term -> bool) :
  gains d (fun i term => has (sought cfg m d) i && F i term) m m' ->
  gains d (fun i term => has (active_at d m) i && F i term) m m'.
Proof.
  intros [A1 A2 A3 A4 A5]. unfold sought in *. split; try done.
  - intros i term Hi Hk H. destruct (A4 i term Hi Hk H) as [?|HR]; [by left|right].
    revert HR. case_if; [by rewrite has_0|done].
  - intros i term Hi Hk Hs HR. apply (A5 i term Hi Hk Hs). by rewrite (stop_ready_grows cfg m m' A3 Hs).
Qed.

(** A member read at depth [d], with the gains [R] gives for its key and value. *)
Definition reads_member (d : nat) (R : bytes -> json -> nat -> lql_json_flat_eq_term -> bool)
    (s s' : lql_json_scan) : Prop :=
  exists b key sp1 sp2 w v, chars_text b key /\ spaces sp1 /\ spaces sp2 /\ json_of w v /\
    reads (quoted b ++ sp1 ++ ch_colon :: sp2 ++ w) s s' /\ calm (matcher s') /\
    gains d (R key v) (matcher s) (matcher s').

(** What a member adds. *)
Definition member_adds (d : nat) (mask : Z) (key : bytes) (v : json) (i : nat)
    (term : lql_json_flat_eq_term) : bool :=
  has mask i && (segment_is term d key && deep term (S d) v).

Lemma member_adds_spec d key (k : key_result) mask v i term :
  has (key_matches k) i = has mask i && segment_is term d key ->
  has (key_matches k) i && ends_at term (S d) && kind_is term LQL_JSON_FLAT_TERM_VALUELESS_PRESENT ||
    below_key d (key_matches k) v i term = member_adds d mask key v i term.
Proof.
  intros Hm. unfold below_key, member_adds. rewrite Hm, andb_assoc.
  destruct (has mask i && segment_is term d key); [|done]. cbn [andb].
  destruct (ends_at term (S d)) eqn:E; [|done]. rewrite (deep_end _ _ _ E).
  destruct (content_test term v), (is_null v), (kind_is term LQL_JSON_FLAT_TERM_EXISTS),
    (kind_is term LQL_JSON_FLAT_TERM_VALUELESS_PRESENT); done.
Qed.

Ltac passes_link := first [eassumption | eapply passes_io; eassumption].
Ltac link_passes := first [passes_link | eapply passes_trans; [passes_link | link_passes]].
Ltac chain_passes := cbv beta in *; eapply passes_eq; [link_passes|same_text..].

Lemma segment_is_deep term d key : segment_is term d key = true -> (d < length (term_segments term))%nat.
Proof. unfold segment_is. case_match; [|done]. intros _. by eapply lookup_lt_Some. Qed.

Lemma member_gains value d s : value_hits value -> sane s -> calm (matcher s) -> depth (input s) = S d ->
  ok (member cfg parse_double value d) s
    (fun _ => reads_member d (member_adds d (active_at d (matcher s))) s).
Proof.
  intros Hv Hs Hc Hd. unfold member.
  eapply ok_bind; [by apply (object_key_selects (content := content) cfg plain)|]. cbv beta.
  intros [k r] s1 Hk. cbn [snd fst] in Hk. cbv beta iota.
  destruct r as [[]|st]; [|eapply ok_impl with (P := fun _ _ => False); [fails|done]].
  destruct (Hk eq_refl) as (b & key & Hb & R1 & Hr & Hsel). clear Hk.
  eapply after_key; [exact Hc|exact Hr|exact Hsel|]. intros exists_terms s2 Hio2 Hc2 Hseg Hex G2.
  destruct Hsel as [Hrec Hrecm Hm _].
  assert (reads (quoted b) s s2) as R2 by (eapply reads_before; [exact R1|by apply reads_same]).
  apply ok_ret_then. io skip_space_ok as [] s3 [(sp1 & Hsp1 & M3) E3].
  io take_expected_ok as [] s4 [M4 E4]. io copy_byte_ok as [] s5 [M5 E5].
  io skip_space_ok as [] s6 [(sp2 & Hsp2 & M6) E6]. io peek_ok as c s7 [(M7 & Hp) E7].
  assert (passes (sp1 ++ ch_colon :: sp2) s2 s7) as [R7 Em] by chain_passes.
  pose proof (reads_trans _ _ _ _ _ R2 R7) as R.
  eapply ok_impl; [apply member_value_gains; try done|].
  - by eapply reads_sane.
  - by rewrite Em.
  - by rewrite (reads_depth _ _ _ R).
  - intros i term Hi. rewrite Em. by eapply Hseg.
  - intros i term Hi. rewrite (Hm i term Hi). intros [_ H]%andb_true_iff. by eapply segment_is_deep.
  - cbv beta. intros [] s8 (w & v & Hw & R8 & Hc8 & _ & G8).
    exists b, key, sp1, sp2, w, v. repeat (split; [done|]). split.
    { pose proof (reads_trans _ _ _ _ _ R R8) as R9. by rewrite <- !app_assoc in R9. }
    split; [done|]. apply gains_sought. rewrite Em in G8.
    eapply gains_ext; [by eapply gains_trans|]. cbv beta. intros i term Hi _.
    by apply member_adds_spec, Hm.
Qed.
End hits.
