(* ===== verification/ScanValues.v ===== *)
(** * Containers

    Objects, arrays and values by induction on the fuel: every member adds the hits
    of its key and value, an element adds none, since no term with a plain path goes
    through an array. *)

From S2P Require Import Prelude.
From S2P Require Import Errors.
From S2P Require Import SelectorJsonProps.
From S2P Require Import JsonSpool.
From S2P Require Import SpoolProps.
From S2P Require Import ScanTerm.
From S2P Require Import ScanState.
From S2P Require Import ScanInput.
From S2P Require Import ScanMatch.
From S2P Require Import JsonScan.
From S2P Require Import JsonGrammar.
From S2P Require Import JsonTree.
From S2P Require Import ScanSpan.
From S2P Require Import ScanLogic.
From S2P Require Import ScanReads.
From S2P Require Import ScanWrites.
From S2P Require Import ScanSound.
From S2P Require Import ScanFeed.
From S2P Require Import ScanFed.
From S2P Require Import ScanMatches.
From S2P Require Import ScanText.
From S2P Require Import ScanKeys.
From S2P Require Import ScanGains.
From S2P Require Import ScanHits.

Section values.
Context {content : bytes -> lql_json_spool -> Prop} `{laws : !SpoolLaws content}.
Context (cfg : scan_config) (plain : plain_config cfg) (parse_double : bytes -> option spec_float).
Implicit Types (s : lql_json_scan) (m : scan_matcher).
#[local] Abbreviation terms := (flat_terms cfg).
#[local] Abbreviation moves := (moves (content := content)).
#[local] Abbreviation reads := (reads (content := content)).
#[local] Abbreviation passes := (passes (content := content)).
#[local] Abbreviation calm := (calm cfg).
#[local] Abbreviation gains := (gains cfg).
#[local] Abbreviation value_hits := (value_hits (content := content) cfg).
#[local] Abbreviation reads_member := (reads_member (content := content) cfg).

Ltac passes_link := first [eassumption | eapply passes_io; eassumption].
Ltac link_passes := first [passes_link | eapply passes_trans; [passes_link | link_passes]].
Ltac chain_passes := cbv beta in *; eapply passes_eq; [link_passes|same_text..].

(** ** Objects *)

(** A container is read to its end and left. *)
Definition exits (w : bytes) (s s' : lql_json_scan) : Prop :=
  exists s1, s' = deeper Nat.pred s1 /\ reads w s s1.

Definition reads_members (d : nat) (mask : Z) (s s' : lql_json_scan) : Prop :=
  exists w ms, members_of w ms /\ exits w s s' /\ calm (matcher s') /\
    gains d (fun i term => has mask i && deep term d (JObject ms)) (matcher s) (matcher s').

Definition reads_elements (d : nat) (s s' : lql_json_scan) : Prop :=
  exists w vs, elements_of w vs /\ exits w s s' /\ calm (matcher s') /\
    gains d nothing (matcher s) (matcher s').

Definition container_spec (fuel : nat) : Prop :=
  value_hits (lql_json_value cfg parse_double fuel) /\
  (forall d c s, sane s -> calm (matcher s) -> depth (input s) = S d ->
     ok (object_loop cfg parse_double fuel d c) s
       (fun _ => reads_members d (active_at d (matcher s)) s)) /\
  (forall d active captures index c s, sane s -> calm (matcher s) -> depth (input s) = S d ->
     ok (array_loop cfg parse_double fuel active captures 0 d index c) s (fun _ => reads_elements d s)).

(** Once the scan has the hits it waits for, nothing is asked of the rest. *)
Lemma gains_stopped d R m : lql_json_stop_hit_ready cfg m = true -> gains d R m m.
Proof. intros H. split; try done; [by left|]. intros i term _ _. by rewrite H. Qed.

Lemma skip_rest_ok d s : ok (skip_rest cfg d) s (fun rest s' => same_io s s' /\ matcher s' = matcher s /\
  ((rest : bool) = true -> lql_json_stop_hit_ready cfg (matcher s) = true)).
Proof.
  unfold skip_rest. apply at_depth_then. intros captures _. apply ok_gets_then. apply ok_ret.
  split; [done|]. split; [done|]. by destruct (writing cfg), (lql_json_stop_hit_ready cfg (matcher s)).
Qed.

Lemma skipped_member d R s : sane s -> calm (matcher s) -> lql_json_stop_hit_ready cfg (matcher s) = true ->
  ok (lql_json_skip_string_fast ;; lql_json_skip_space ;; lql_json_take_expected ch_colon ;;
      lql_json_skip_space ;; lql_json_skip_value_fast) s (fun _ => reads_member d R s).
Proof.
  intros Hs Hc Hr. io (skip_string_fast_ok (content := content) s (proj1 Hs)) as [] s1 [(k & Hk & M1) E1].
  io skip_space_ok as [] s2 [(sp1 & Hsp1 & M2) E2]. io take_expected_ok as [] s3 [M3 E3].
  io skip_space_ok as [] s4 [(sp2 & Hsp2 & M4) E4].
  assert (passes (k ++ sp1 ++ ch_colon :: sp2) s s4) as [R4 Em] by chain_passes.
  eapply ok_impl; [apply (skip_value_reads (content := content)); by eapply reads_sane|]. cbv beta.
  intros [] s5 (w & v & Hw & R5 & Em5 & _). apply string_denotes in Hk as (b & key & -> & Hb).
  exists b, key, sp1, sp2, w, v. repeat (split; [done|]). split.
  { pose proof (reads_trans _ _ _ _ _ R4 R5) as R9. by rewrite <- !app_assoc in R9. }
  rewrite Em5, Em. split; [done|by apply gains_stopped].
Qed.

Lemma any_member fuel (rest : bool) d s : container_spec fuel -> sane s -> calm (matcher s) ->
  depth (input s) = S d -> (rest = true -> lql_json_stop_hit_ready cfg (matcher s) = true) ->
  ok (if rest then
        lql_json_skip_string_fast ;; lql_json_skip_space ;; lql_json_take_expected ch_colon ;;
        lql_json_skip_space ;; lql_json_skip_value_fast
      else member cfg parse_double (lql_json_value cfg parse_double fuel) d) s
    (fun _ => reads_member d (member_adds d (active_at d (matcher s))) s).
Proof.
  intros [IHv _] Hs Hc Hd Hrest. destruct rest.
  - by apply skipped_member; [| |apply Hrest].
  - by apply (member_gains cfg plain parse_double).
Qed.

(** The closing byte, written unless the object is not copied, and the end of the
    container. *)
Lemma copy_leave (b : bool) v s : 
  ok (r ← attempt (if b then mret tt else lql_json_copy_byte cfg v); leave ;; finish r) s
    (fun _ s' => exits [] s s' /\ matcher s' = matcher s).
Proof.
  assert (ok (if b then mret tt else lql_json_copy_byte cfg v) s
    (fun _ s' => reads [] s s' /\ matcher s' = matcher s)) as H.
  { destruct b; [apply ok_ret; split; [by apply reads_same|done]|].
    eapply ok_impl; [eapply ok_still; [eapply (copy_byte_ok (content := content))|solve [still]]|].
    intros [] s1 [M E]. split; [by eapply reads_moves|done]. }
  eapply ok_attempt_then; [exact H| |fails]. cbv beta. intros [] s1 [R E].
  eapply ok_bind; [apply leave_ok|]. intros [] s2 ->. apply ok_ret. split; [by exists s1|done].
Qed.

Lemma exits_after w1 w2 s1 s2 s3 : reads w1 s1 s2 -> exits w2 s2 s3 -> exits (w1 ++ w2) s1 s3.
Proof. intros R (s4 & -> & R'). exists s4. split; [done|by eapply reads_trans]. Qed.

(** The members one by one. *)
Lemma members_cons d mask key v ms i term : (has mask i = true -> (d < length (term_segments term))%nat) ->
  member_adds d mask key v i term || has mask i && deep term d (JObject ms) =
  has mask i && deep term d (JObject ((key, v) :: ms)).
Proof.
  intros Hm. unfold member_adds, segment_is. destruct (has mask i); [|done].
  destruct (lookup_lt_is_Some_2 _ _ (Hm eq_refl)) as [segment Hs]. cbn [andb].
  by rewrite Hs, !(deep_members _ _ _ _ Hs).
Qed.

Lemma members_nil d mask key v i term : (has mask i = true -> (d < length (term_segments term))%nat) ->
  member_adds d mask key v i term = has mask i && deep term d (JObject [(key, v)]).
Proof.
  intros Hm. rewrite <- members_cons by done. destruct (has mask i) eqn:E; [|by rewrite orb_false_r].
  destruct (lookup_lt_is_Some_2 _ _ (Hm eq_refl)) as [segment Hs].
  by rewrite (deep_members _ _ _ _ Hs), orb_false_r.
Qed.

Lemma member_text b key sp1 sp2 w v sp3 : chars_text b key -> spaces sp1 -> spaces sp2 -> json_of w v ->
  spaces sp3 -> member_of ((quoted b ++ sp1 ++ ch_colon :: sp2 ++ w) ++ sp3) key v.
Proof. intros. rewrite <- !app_assoc. cbn [app]. rewrite <- app_assoc. by constructor. Qed.

Lemma object_loop_gains fuel d c s : container_spec fuel -> sane s -> calm (matcher s) ->
  depth (input s) = S d ->
  ok (object_loop cfg parse_double (S fuel) d c) s (fun _ => reads_members d (active_at d (matcher s)) s).
Proof.
  intros IH Hs Hc Hd. cbn [object_loop]. destruct (byte_is c ch_quote); cbn [negb]; [|apply ok_error].
  eapply ok_bind; [apply skip_rest_ok|]. cbv beta. intros rest s1 (Hio1 & E1 & Hrest).
  rewrite <- E1 in Hc, Hrest. pose proof (reads_same (content := content) _ _ Hio1) as R1.
  eapply ok_bind; [apply (any_member fuel rest d); try done; [by eapply reads_sane|]|].
  { by rewrite (reads_depth _ _ _ R1). }
  cbv beta. rewrite E1. intros [] s2 (b & key & sp1 & sp2 & w & v & Hb & Hsp1 & Hsp2 & Hw & R2 & Hc2 & G2).
  rewrite E1 in G2. pose proof (reads_after _ _ _ _ R1 R2) as R.
  io skip_space_ok as [] s3 [(sp3 & Hsp3 & M3) E3]. io take_ok as x s4 [M4 E4].
  assert (passes (sp3 ++ [x]) s2 s4) as [R4 Em4] by chain_passes.
  pose proof (member_text b key sp1 sp2 w v sp3 Hb Hsp1 Hsp2 Hw Hsp3) as Hm.
  set (t := quoted b ++ _) in *. pose proof (reads_trans _ _ _ _ _ R R4) as R'. rewrite app_assoc in R'.
  assert (forall i term, terms !! i = Some term -> has (active_at d (matcher s)) i = true ->
    (d < length (term_segments term))%nat) as Hdeep.
  { rewrite <- E1. intros i term Hi. by eapply active_deep. }
  destruct (Z.eqb_spec x ch_rbrace) as [->|_]; [|destruct (Z.eqb_spec x ch_comma) as [->|_]; cbn [negb];
    [|apply ok_error]].
  - eapply ok_impl; [apply (copy_leave rest)|]. cbv beta. intros [] s5 [X E5].
    exists ((t ++ sp3) ++ [ch_rbrace]), [(key, v)]. split; [by constructor|]. split.
    { rewrite <- (app_nil_r ((t ++ sp3) ++ _)). by eapply exits_after. }
    rewrite E5, Em4. split; [done|]. eapply gains_ext; [exact G2|]. cbv beta. intros i term Hi _.
    apply members_nil. by apply Hdeep.
  - eapply ok_bind with (P := fun _ s' => reads [] s4 s' /\ matcher s' = matcher s4).
    { destruct rest; [apply ok_ret; split; [by apply reads_same|done]|].
      eapply ok_impl; [eapply ok_still; [eapply (copy_byte_ok (content := content))|solve [still]]|].
      intros [] s5 [M E]. split; [by eapply reads_moves|done]. }
    intros [] s5 [R5 E5]. io skip_space_ok as [] s6 [(sp & Hsp & M6) E6]. io peek_ok as c7 s7 [(M7 & _) E7].
    assert (passes sp s5 s7) as [R7 Em7] by chain_passes.
    assert (reads ((t ++ sp3) ++ ch_comma :: sp) s s7) as R17.
    { pose proof (reads_trans _ _ _ _ _ R' (reads_after _ _ _ _ R5 R7)) as H. by rewrite <- app_assoc in H. }
    assert (matcher s7 = matcher s2) as Em by congruence.
    eapply ok_impl; [apply IH; [by eapply reads_sane|by rewrite Em|by rewrite (reads_depth _ _ _ R17)]|].
    cbv beta. intros [] s8 (w' & ms & Hms & X & Hc8 & G8). rewrite Em in G8.
    exists ((t ++ sp3) ++ ch_comma :: sp ++ w'), ((key, v) :: ms). split; [by constructor|]. split.
    { pose proof (exits_after _ _ _ _ _ R17 X) as H. by rewrite <- app_assoc in H. }
    split; [done|]. eapply gains_ext; [by eapply gains_trans|]. cbv beta. intros i term Hi _.
    unfold active_at at 2. rewrite (gn_paths _ _ _ _ _ G2 d) by lia.
    apply members_cons. by apply Hdeep.
Qed.

(** ** Arrays *)

Lemma each_same {T A} (f : nat -> T -> A -> A) (l : list T) a :
  (forall i x, l !! i = Some x -> f i x a = a) -> each f l a = a.
Proof.
  unfold each. intros H. assert (forall k, (forall i x, l !! i = Some x -> f (k + i)%nat x a = a) ->
    each_from k f l a = a) as K; [|by apply K].
  clear H. induction l as [|x l IH]; intros k H; cbn; [done|].
  pose proof (H 0%nat x eq_refl) as Hx. rewrite Nat.add_0_r in Hx. rewrite Hx. apply IH.
  intros i y Hy. specialize (H (S i) y Hy). by rewrite Nat.add_succ_r in H.
Qed.

Lemma no_array_terms active d index m : lql_json_match_array_index cfg active d index m = (0, m).
Proof.
  apply choose_none. intros i term Hi. pose proof (plain_at cfg plain i term Hi) as Hp.
  destruct (wildcards_none term (plain_wildcards _ Hp)) as (_ & H2 & H3 & _).
  unfold array_wildcard_segments, array_index_is, segment_in. rewrite H2, H3, (plain_arrays _ Hp).
  change (Z.lor 0 0) with 0. by rewrite !has_0, !andb_false_r.
Qed.

Lemma no_recursive_elements d index m : lql_json_match_recursive_array_terms cfg 0 d index m = (0, m).
Proof. apply choose_none. intros i term _. by rewrite has_0. Qed.

Lemma no_recursive_terms active d m : lql_json_match_recursive_terms cfg active d m = (0, m).
Proof.
  unfold lql_json_match_recursive_terms. case_if; [done|].
  assert (forall i term, terms !! i = Some term -> has active i && has (path_recursive_segments term) d = false) as H.
  { intros i term Hi. rewrite plain_recursive by by eapply plain_at. by rewrite has_0, andb_false_r. }
  rewrite mask_of_none by done. f_equal. apply each_same. intros i term Hi. by rewrite H.
Qed.

Lemma element_terms_none active d index s :
  ok (element_terms cfg active 0 d index) s (fun r s' => s' = s /\ r = (0, 0)).
Proof.
  unfold element_terms. apply matching_none_then; [apply no_array_terms|]. apply ok_gets_then.
  apply matching_none_then; [apply no_recursive_elements|].
  apply matching_none_then; [by apply no_terminal_terms|]. apply no_anchor_terms; [done|].
  cbv zeta. change (Z.lor (Z.lor 0 (Z.lor 0 0)) 0) with 0.
  rewrite mask_of_none by (intros i x _; by rewrite has_0). apply ok_modify_then. apply ok_ret.
  split; [|done]. unfold on_matcher. rewrite each_same by (intros i x _; by rewrite has_0).
  by destruct s.
Qed.

Lemma element_gains value active captures d index c s : value_hits value -> sane s -> calm (matcher s) ->
  depth (input s) = S d ->
  ok (element cfg parse_double value active captures 0 d index c) s (fun _ s' => exists w v,
    json_of w v /\ reads w s s' /\ calm (matcher s') /\ gains d nothing (matcher s) (matcher s')).
Proof.
  intros Hv Hs Hc Hd. unfold element.
  eapply ok_bind; [apply element_terms_none|]. cbv beta. intros r s' [-> ->]. cbv beta iota.
  apply ok_gets_then. rewrite Hd. change (is_empty 0) with true. rewrite andb_false_r.
  eapply ok_bind with (P := fun _ s1 => same_io s s1 /\ calm (matcher s1) /\
    active_at (S d) (matcher s1) = 0 /\ gains d nothing (matcher s) (matcher s1)).
  { unfold set_depth. case_if; [|done]. apply ok_modify. set (s1 := set_recursive_active _ _ _).
    assert (gains d nothing (matcher s) (matcher s1)) as G.
    { eapply gains_after; [|apply gains_recursive]. apply gains_path; [lia|]. intros i term _. by rewrite has_0. }
    split; [done|]. split; [|split; [|done]].
    - apply settled_calm; [by eapply gn_settled, calm_settled|apply Hc].
    - unfold active_at. cbn. rewrite list_lookup_insert_eq; [done|]. rewrite (cm_depths _ _ Hc).
      by apply Nat.ltb_lt. }
  intros [] s1 (Hio1 & Hc1 & Ha1 & G1). apply ok_ret_then. cbv zeta.
  destruct (captures_at _ _ _) as [capture_values capture_descendants]. apply ok_gets_then.
  set (start := if is_empty capture_values then 0 else _).
  eapply ok_bind with (P := fun _ s2 => same_io s1 s2 /\ matcher s2 = matcher s1).
  { unfold set_depth. case_if; [|done]. by apply ok_modify. }
  intros [] s2 [Hio2 E2].
  assert (reads [] s s2) as R2 by (apply reads_same; by transitivity s1).
  assert (depth (input s2) = S d) as Hd2 by by rewrite (reads_depth _ _ _ R2).
  rewrite <- E2 in Hc1, G1, Ha1.
  eapply ok_attempt_then; [apply (calm_value (content := content) cfg _ s2); [done|by eapply reads_sane|done]| |fails].
  cbv beta iota. rewrite Hd2, Ha1. intros [] s3 (w & v & Hw & R3 & Hc3 & _ & G3).
  eapply ok_bind; [apply quiet_still; [quiet|still]|]. cbv beta. intros [] s4 [Hio4 E4].
  assert (reads w s s4) as R4.
  { eapply reads_after; [exact R2|]. eapply reads_before; [exact R3|by apply reads_same]. }
  apply ok_gets_then. rewrite (reads_depth _ _ _ R4), Hd.
  eapply ok_bind; [apply (clear_below_gains cfg d); by rewrite E4|]. cbv beta. intros [] s5 (Hio5 & Hc5 & G5).
  apply ok_ret. exists w, v. split; [done|]. split; [by eapply reads_before; [exact R4|apply reads_same]|].
  split; [done|]. eapply gains_after; [exact G1|]. rewrite E4 in G5. eapply gains_before; [|exact G5].
  eapply gains_ext; [apply (gains_le _ (S d)); [lia|exact G3]|]. intros i term _ _. cbv beta. by rewrite has_0.
Qed.

Lemma array_loop_gains fuel d active captures index c s : container_spec fuel -> sane s -> calm (matcher s) ->
  depth (input s) = S d ->
  ok (array_loop cfg parse_double (S fuel) active captures 0 d index c) s (fun _ => reads_elements d s).
Proof.
  intros IH Hs Hc Hd. cbn [array_loop].
  eapply ok_bind; [apply (element_gains _ active captures d index c s); [apply IH|done..]|]. cbv beta.
  intros [] s2 (w & v & Hw & R2 & Hc2 & G2).
  io skip_space_ok as [] s3 [(sp & Hsp & M3) E3]. io take_ok as x s4 [M4 E4].
  assert (passes (sp ++ [x]) s2 s4) as [R4 Em4] by chain_passes.
  pose proof (reads_trans _ _ _ _ _ R2 R4) as R'.
  destruct (Z.eqb_spec x ch_rbracket) as [->|_]; [|destruct (Z.eqb_spec x ch_comma) as [->|_]; cbn [negb];
    [|apply ok_error]].
  - eapply ok_impl; [apply (copy_leave false)|]. cbv beta. intros [] s5 [X E5].
    exists (w ++ sp ++ [ch_rbracket]), [v]. split; [by constructor|]. split.
    { rewrite <- (app_nil_r (w ++ sp ++ _)). by eapply exits_after. }
    by rewrite E5, Em4.
  - io (copy_byte_ok (content := content)) as [] s5 [M5 E5].
    io skip_space_ok as [] s6 [(sp' & Hsp' & M6) E6].
    assert (passes sp' s4 s6) as [R6 Em6] by chain_passes.
    assert (reads (w ++ sp ++ ch_comma :: sp') s s6) as R16.
    { pose proof (reads_trans _ _ _ _ _ R' R6) as H. by rewrite <- !app_assoc in H. }
    assert (matcher s6 = matcher s2) as Em by congruence.
    eapply ok_impl; [apply IH; [by eapply reads_sane|by rewrite Em|by rewrite (reads_depth _ _ _ R16)]|].
    cbv beta. intros [] s8 (w' & vs & Hvs & X & Hc8 & G8). rewrite Em in G8.
    exists (w ++ sp ++ ch_comma :: sp' ++ w'), (v :: vs). split; [by constructor|]. split.
    { pose proof (exits_after _ _ _ _ _ R16 X) as H. rewrite <- !app_assoc in H. cbn [app] in H.
      by rewrite <- ?app_assoc in H. }
    split; [done|]. by eapply gains_after.
Qed.

(** ** Values *)

Lemma scalars_fed c s : sane s ->
  ok (if byte_is c ch_quote then lql_json_string cfg
      else if byte_is c 116 then lql_json_literal cfg (bs "true")
      else if byte_is c ch_f then lql_json_literal cfg (bs "false")
      else if byte_is c 110 then lql_json_literal cfg (bs "null")
      else lql_json_number cfg) s
    (fun _ s' => exists w v t, json_of w v /\ raw_text v = Some t /\ reads w s s' /\ fed cfg t s s').
Proof.
  intros Hs. repeat case_if.
  - eapply ok_impl; [by apply (string_fed (content := content))|]. cbv beta. intros [] s' (b & t & Hb & R & F).
    exists (quoted b), (JString t), t. split; [by constructor|]. done.
  - eapply ok_impl; [apply (literal_fed (content := content))|]. intros [] s' [R F].
    eexists _, (JBool true), _. split; [by constructor|]. done.
  - eapply ok_impl; [apply (literal_fed (content := content))|]. intros [] s' [R F].
    eexists _, (JBool false), _. split; [by constructor|]. done.
  - eapply ok_impl; [apply (literal_fed (content := content))|]. intros [] s' [R F].
    eexists _, JNull, _. split; [by constructor|]. done.
  - eapply ok_impl; [apply (number_fed (content := content))|]. intros [] s' (w & Hw & R & F).
    exists w, (JNumber w), w. split; [by constructor|]. done.
Qed.

(** A container entered and read to its end, seen from outside. *)
Lemma container_outcome d s w s2 x sp w' v R : depth (input s) = d -> (d < LQL_JSON_MAX_DEPTH)%nat ->
  calm (matcher s) -> reads (x :: sp) (deeper S s) s2 -> exits w' s2 w -> calm (matcher w) ->
  raw_text v = None -> json_of (x :: sp ++ w') v -> gains d R (matcher s) (matcher w) ->
  (forall i term, terms !! i = Some term -> R i term = has (active_at d (matcher s)) i && deep term d v) ->
  exists t v, json_of t v /\ reads t s w /\ outcome cfg s v w.
Proof.
  intros Hd Hlt Hc R1 (s3 & -> & R2) Hc' Hv Hw G HR. exists (x :: sp ++ w'), v. split; [done|]. split.
  - pose proof (reads_trans _ _ _ _ _ R1 R2) as (cw & o & M). eexists _, _. by apply moves_nest.
  - unfold outcome. rewrite Hv, Hd. split; [done|]. split; [done|]. split; [done|].
    eapply gains_ext; [exact G|]. auto.
Qed.

Lemma lift_outcome s s1 s2 : passes [] s s1 ->
  (exists w v, json_of w v /\ reads w s1 s2 /\ outcome cfg s1 v s2) ->
  exists w v, json_of w v /\ reads w s s2 /\ outcome cfg s v s2.
Proof.
  intros [R1 E1] (w & v & Hw & R & O). exists w, v. split; [done|]. split; [by eapply reads_after|].
  unfold outcome in *. rewrite (reads_depth _ _ _ R1), E1 in O. destruct (raw_text v); [|done].
  apply (fed_app _ [] _ _ s1); [by apply fed_still|done].
Qed.

Lemma object_gains fuel s : container_spec fuel -> sane s -> calm (matcher s) ->
  ok (object_depth ← gets (fun s => depth (input s));
      enter ;;
      lql_json_take_expected ch_lbrace ;;
      lql_json_copy_byte cfg ch_lbrace ;;
      lql_json_skip_space ;;
      c ← lql_json_peek;
      if byte_is c ch_rbrace then
        advance ;; r ← attempt (lql_json_copy_byte cfg ch_rbrace); leave ;; finish r
      else object_loop cfg parse_double fuel object_depth c) s
    (fun _ s' => exists w v, json_of w v /\ reads w s s' /\ outcome cfg s v s').
Proof.
  intros IH Hs Hc. apply ok_gets_then. set (d := depth (input s)).
  eapply ok_bind; [by apply enter_ok|]. cbv beta. intros [] s1 (-> & Hs1 & _ & Hlt).
  io take_expected_ok as [] s2 [M2 E2]. io copy_byte_ok as [] s3 [M3 E3].
  io skip_space_ok as [] s4 [(sp & Hsp & M4) E4]. io peek_ok as c s5 [(M5 & Hp & _) E5].
  assert (passes (ch_lbrace :: sp) (deeper S s) s5) as [R5 Em5] by chain_passes.
  assert (sane s5) as Hs5 by (eapply (reads_sane (content := content)); [exact R5|done]).
  change (matcher (deeper S s)) with (matcher s) in Em5.
  destruct (byte_is c ch_rbrace) eqn:Eb.
  - apply byte_is_spec in Eb as ->. io (advance_ok (content := content) ch_rbrace) as [] s6 [M6 E6]; [done|].
    eapply ok_impl; [apply (copy_leave false)|]. cbv beta. intros [] s7 [X E7].
    assert (matcher s7 = matcher s) as Em by congruence.
    eapply (container_outcome d s s7 s5 ch_lbrace sp [ch_rbrace] (JObject []) nothing); try done.
    + pose proof (exits_after _ _ _ _ _ (reads_moves _ _ _ _ _ M6) X) as H. done.
    + by rewrite Em.
    + by constructor.
    + rewrite Em. apply gains_refl.
    + intros i term Hi. unfold nothing. destruct (has _ i) eqn:Ea; [|done]. symmetry.
      destruct (lookup_lt_is_Some_2 _ _ (active_deep _ _ _ _ _ Hc Hi Ea)) as [segment Hseg].
      by rewrite (deep_members _ _ _ _ Hseg).
  - eapply ok_impl; [apply IH; [done|by rewrite Em5|by rewrite (reads_depth _ _ _ R5)]|]. cbv beta.
    intros [] s6 (w & ms & Hms & X & Hc6 & G6). rewrite Em5 in G6.
    eapply (container_outcome d s s6 s5 ch_lbrace sp w (JObject ms)); try done. by constructor.
Qed.

Lemma array_masks_none d s : calm (matcher s) ->
  ok (array_masks cfg d) s (fun r s' => same_io s s' /\ calm (matcher s') /\
    gains d nothing (matcher s) (matcher s') /\ exists active captures, r = (active, captures, 0)).
Proof.
  intros Hc. unfold array_masks. apply at_depth_then. intros active _. apply at_depth_then. intros captures _.
  apply matching_none_then; [apply no_recursive_terms|]. apply at_depth_then. intros inherited Hi.
  apply calm_recursive with (1 := Hc) in Hi as ->.
  eapply ok_bind with (P := fun _ s' => same_io s s' /\ calm (matcher s') /\ gains d nothing (matcher s) (matcher s')).
  { case_if; [|apply ok_ret; split; [done|]; split; [done|apply gains_refl]].
    apply ok_modify. set (s' := set_capture_path _ _ _).
    assert (gains d nothing (matcher s) (matcher s')) as G.
    { apply gains_path; [lia|]. intros i term _. by rewrite has_0. }
    split; [done|]. split; [|done]. apply settled_calm; [by eapply gn_settled, calm_settled|apply Hc]. }
  intros [] s' (Hio & Hc' & G). apply ok_ret. split; [done|]. split; [done|]. split; [done|].
  exists active, captures. unfold lql_json_leading_recursive_terms. by rewrite (pc_leading _ plain).
Qed.

(** A term that is active at an array goes no further. *)
Lemma array_adds_nothing d m vs i term : calm m -> terms !! i = Some term ->
  nothing i term = has (active_at d m) i && deep term d (JArray vs).
Proof.
  intros Hc Hi. unfold nothing. destruct (has _ i) eqn:Ea; [|done]. symmetry.
  apply deep_scalar; [|done]. by eapply active_deep.
Qed.

Lemma array_gains fuel s : container_spec fuel -> sane s -> calm (matcher s) ->
  ok (array_segment ← gets (fun s => depth (input s));
      (if (array_segment =? LQL_JSON_MAX_DEPTH)%nat then
         lql_json_error "JSON nesting exceeds the scanner limit" else mret tt) ;;
      '(active, captures, recursive) ← array_masks cfg array_segment;
      on_depth Nat.succ ;;
      lql_json_take_expected ch_lbracket ;;
      lql_json_copy_byte cfg ch_lbracket ;;
      lql_json_skip_space ;;
      c ← lql_json_peek;
      if byte_is c ch_rbracket then
        advance ;; r ← attempt (lql_json_copy_byte cfg ch_rbracket); leave ;; finish r
      else if (LQL_JSON_MAX_DEPTH <=? S array_segment)%nat then
        modify (fun s => json_error s "JSON nesting exceeds the scanner limit") ;;
        leave ;; stop LQL_STATUS_JSON_ERROR
      else array_loop cfg parse_double fuel active captures recursive array_segment 0 c) s
    (fun _ s' => exists w v, json_of w v /\ reads w s s' /\ outcome cfg s v s').
Proof.
  intros IH Hs Hc. apply ok_gets_then. set (d := depth (input s)).
  destruct (Nat.eqb_spec d LQL_JSON_MAX_DEPTH) as [E|Hlt]; [apply ok_error_then|].
  apply ok_ret_then. eapply ok_bind; [by apply array_masks_none|]. cbv beta.
  intros r s1 (Hio1 & Hc1 & G1 & active & captures & ->). cbv beta iota.
  pose proof (reads_same (content := content) _ _ Hio1) as R1.
  assert (sane s1) as [Hb1 Hd1] by (eapply (reads_sane (content := content)); [exact R1|done]).
  assert (depth (input s1) = d) as Hd by by rewrite (reads_depth _ _ _ R1).
  assert (d < LQL_JSON_MAX_DEPTH)%nat as Hlt' by lia.
  assert (ok (on_depth Nat.succ) s1 (fun _ s' => s' = deeper S s1)) as Henter by by apply ok_modify.
  eapply ok_bind; [exact Henter|]. cbv beta. intros [] s2 ->.
  assert (sane (deeper S s1)) as Hs2 by (split; [done|]; cbn; rewrite Hd; lia).
  io take_expected_ok as [] s3 [M3 E3]. io copy_byte_ok as [] s4 [M4 E4].
  io skip_space_ok as [] s5 [(sp & Hsp & M5) E5]. io peek_ok as c s6 [(M6 & Hp & _) E6].
  assert (passes (ch_lbracket :: sp) (deeper S s1) s6) as [R6 Em6] by chain_passes.
  assert (sane s6) as Hs6 by (eapply (reads_sane (content := content)); [exact R6|done]).
  change (matcher (deeper S s1)) with (matcher s1) in Em6.
  assert (forall s7 w v, exits w s6 s7 -> calm (matcher s7) -> gains d nothing (matcher s1) (matcher s7) ->
    json_of (ch_lbracket :: sp ++ w) (JArray v) ->
    exists t v, json_of t v /\ reads t s s7 /\ outcome cfg s v s7) as Hend.
  { intros s7 w v X Hc7 G7 Hw. exists (ch_lbracket :: sp ++ w), (JArray v). split; [done|].
    destruct (container_outcome d s1 s7 s6 ch_lbracket sp w (JArray v) nothing) as (t & v' & _ & _ & _);
      try done; [by intros i term; apply array_adds_nothing|].
    split.
    - eapply reads_after; [exact R1|]. destruct X as (s8 & -> & R8).
      pose proof (reads_trans _ _ _ _ _ R6 R8) as (cw & o & M). eexists _, _. by apply moves_nest.
    - split; [done|]. split; [done|]. split; [done|].
      eapply gains_ext; [eapply gains_after; [exact G1|exact G7]|].
      intros i term Hi _. by apply array_adds_nothing. }
  destruct (byte_is c ch_rbracket) eqn:Eb.
  - apply byte_is_spec in Eb as ->. io (advance_ok (content := content) ch_rbracket) as [] s7 [M7 E7]; [done|].
    eapply ok_impl; [apply (copy_leave false)|]. cbv beta. intros [] s8 [X E8].
    assert (matcher s8 = matcher s1) as Em by congruence.
    apply (Hend s8 [ch_rbracket] []); [|by rewrite Em|rewrite Em; apply gains_refl|by constructor].
    pose proof (exits_after _ _ _ _ _ (reads_moves _ _ _ _ _ M7) X) as H. done.
  - destruct (LQL_JSON_MAX_DEPTH <=? S d)%nat; [fails|].
    eapply ok_impl; [apply IH; [done|by rewrite Em6|by rewrite (reads_depth _ _ _ R6); cbn; rewrite Hd]|].
    cbv beta. intros [] s7 (w & vs & Hvs & X & Hc7 & G7). rewrite Em6 in G7.
    apply (Hend s7 w vs); try done. by constructor.
Qed.

Lemma value_hits_step fuel : container_spec fuel -> value_hits (lql_json_value cfg parse_double (S fuel)).
Proof.
  intros IH s Hs Hpre. cbn [lql_json_value].
  eapply ok_bind with (P := fun c s1 => passes [] s s1 /\ (calm (matcher s) \/ is_container c = false)).
  { destruct Hpre as [Hc|(x & Hx & Hn)].
    - eapply ok_impl; [eapply ok_still; [apply (peek_ok (content := content))|solve [still]]|].
      cbv beta. intros c s1 [(M1 & _) E1]. split; [|by left]. split; [by eapply reads_moves|done].
    - intros c s1. rewrite (peek_again x s Hx). intros [= <- <-]. split; [|by right].
      split; [by apply reads_same|done]. }
  intros c s1 [P1 Hcalm]. assert (sane s1) as Hs1 by (eapply (reads_sane (content := content)); [apply P1|done]).
  assert (is_container c = true -> calm (matcher s1)) as Hc1.
  { intros Hy. destruct Hcalm as [Hc|Hn]; [|congruence]. by rewrite (proj2 P1). }
  unfold is_container in Hc1.
  destruct (byte_is c ch_lbrace) eqn:E1.
  { eapply ok_impl; [apply object_gains; [done|done|by apply Hc1]|]. cbv beta. intros [] s2. by apply lift_outcome. }
  destruct (byte_is c ch_lbracket) eqn:E2.
  { eapply ok_impl; [apply array_gains; [done|done|by apply Hc1]|]. cbv beta. intros [] s2. by apply lift_outcome. }
  eapply ok_impl; [by apply (scalars_fed c)|]. cbv beta. intros [] s2 (w & v & t & Hw & Ht & R & F).
  apply (lift_outcome s s1 s2 P1). exists w, v. split; [done|]. split; [done|]. unfold outcome. by rewrite Ht.
Qed.

Lemma container_spec_holds fuel : container_spec fuel.
Proof.
  induction fuel as [|fuel IH]; [done|]. split; [by apply value_hits_step|]. split; intros.
  - by apply object_loop_gains.
  - by apply array_loop_gains.
Qed.

(** The whole value under a calm matcher. *)
Lemma json_value_gains s : sane s -> calm (matcher s) ->
  ok (JsonScan.json_value cfg parse_double) s (fun _ s' => exists w v, json_of w v /\ reads w s s' /\
    calm (matcher s') /\
    gains (depth (input s)) (fun i term =>
      has (active_at (depth (input s)) (matcher s)) i && deep term (depth (input s)) v) (matcher s) (matcher s')).
Proof.
  intros Hs Hc. unfold JsonScan.json_value. apply ok_gets_then.
  eapply ok_impl; [apply (calm_value (content := content) cfg); [apply container_spec_holds|done|done]|].
  cbv beta. intros [] s' (w & v & Hw & R & Hc' & _ & G). by exists w, v.
Qed.
End values.
