(* ===== verification/ScanSelect.v ===== *)
(** * The terms a selector is compiled to

    The terms of a program are built from a path and the masks computed for it; when
    the path has only object keys they are plain terms, and a contains term has the
    failure table the matcher needs.  Then the hits of the records of a stream. *)

From S2P Require Import Prelude.
From S2P Require Import Temporal.
From S2P Require Import Errors.
From S2P Require Import Selector.
From S2P Require Import CursorProps.
From S2P Require Import SelectorJsonProps.
From S2P Require Import ScanTerm.
From S2P Require Import JsonSpool.
From S2P Require Import ScanState.
From S2P Require Import ScanInput.
From S2P Require Import ScanMatch.
From S2P Require Import JsonScan.
From S2P Require Import FlatProgram.
From S2P Require Import ScanSpan.
From S2P Require Import ScanContains.
From S2P Require Import SpoolProps.
From S2P Require Import JsonGrammar.
From S2P Require Import ScanLogic.
From S2P Require Import ScanReads.
From S2P Require Import ScanWrites.
From S2P Require Import ScanSound.
From S2P Require Import ScanStatus.
From S2P Require Import ScanStream.
From S2P Require Import FlatProgramProps.
From S2P Require Import ScanFeed.
From S2P Require Import ScanFed.
From S2P Require Import ScanMatches.
From S2P Require Import ScanText.
From S2P Require Import ScanKeys.
From S2P Require Import ScanGains.
From S2P Require Import JsonTree.
From S2P Require Import ScanHits.
From S2P Require Import ScanValues.

(** ** Paths *)

(** A path of object keys without escapes, by the masks of the term. *)
Definition plain_path_b (t : lql_json_flat_eq_term) : bool :=
  (path_array_segments t =? 0) && (wildcard_segments t =? 0) &&
  forallb (fun c => negb (c =? ch_tilde)) (default [] (term_path t)).

(** The kinds that look for their value. *)
Definition searching_kind (k : lql_json_flat_term_kind) : bool :=
  bool_decide (k = LQL_JSON_FLAT_TERM_CONTAINS) || bool_decide (k = LQL_JSON_FLAT_TERM_ICONTAINS).

(** The failure table of a term: that of its value, for such a kind. *)
Definition failure_for (k : lql_json_flat_term_kind) (value : bytes) (failure : option (list nat)) : Prop :=
  if searching_kind k then lql_flat_eq_contains_failure value = Some failure else failure = None.

(** A term built by the compiler. *)
Definition built (t : lql_json_flat_eq_term) : Prop :=
  exists kind value range temporal temporal_eq failure path m,
    t = path_term kind value range temporal temporal_eq failure path m /\
    lql_flat_eq_literal_object_path path = Some m /\
    failure_for kind value failure.

(** The loop over the segments counts them and takes the length of the first. *)
Lemma path_masks_count segments : forall m m', path_masks_loop segments m = Some m' ->
  pm_segment_count m' = (pm_segment_count m + length segments)%nat /\
  ((pm_segment_count m <= LQL_FLAT_EQ_TERM_CAPACITY)%nat -> (pm_segment_count m' <= LQL_FLAT_EQ_TERM_CAPACITY)%nat) /\
  pm_first_segment_len m' = match segments with
    | segment :: _ => if (pm_segment_count m =? 0)%nat then length segment else pm_first_segment_len m
    | [] => pm_first_segment_len m
    end.
Proof.
  induction segments as [|segment segments IH]; intros m m'; cbn [path_masks_loop].
  - intros [= <-]. cbn. split; [lia|done].
  - destruct ((length segment =? 0)%nat || _) eqn:E; [done|]. apply orb_false_iff in E as [_ E].
    apply Nat.leb_gt in E. cbv zeta. intros H. apply IH in H as (H1 & H2 & H3).
    set (m1 := path_segment_masks segment _) in *.
    assert (pm_segment_count m1 = pm_segment_count m /\ pm_first_segment_len m1 =
      if (pm_segment_count m =? 0)%nat then length segment else pm_first_segment_len m) as [E1 E2].
    { subst m1. unfold path_segment_masks. by destruct (pm_segment_count m =? 0)%nat; repeat case_if. }
    cbn in H1, H2, H3. rewrite E1 in H1, H2. cbn [length]. split; [lia|]. split; [intros _; apply H2; lia|].
    rewrite H3. destruct segments; [done|done].
Qed.

Lemma literal_path path m : lql_flat_eq_literal_object_path path = Some m ->
  exists rest, path = ch_slash :: rest /\ pm_segment_count m = length (split_slash rest) /\
    (pm_segment_count m <= LQL_FLAT_EQ_TERM_CAPACITY)%nat /\
    Some (take (pm_first_segment_len m) rest) = split_slash rest !! 0%nat.
Proof.
  unfold lql_flat_eq_literal_object_path. destruct path as [|c rest]; [done|].
  destruct rest as [|d rest]; [done|]. destruct (Z.eqb_spec c ch_slash) as [->|]; [|done].
  intros H. exists (d :: rest). split; [done|]. apply path_masks_count in H as (H1 & H2 & H3). cbn in H1, H2.
  split; [done|]. split; [apply H2; unfold LQL_FLAT_EQ_TERM_CAPACITY; lia|].
  rewrite H3. pose proof (split_slash_span (d :: rest)) as Hs.
  destruct (Prelude.span _ (d :: rest)) as [raw after] eqn:E. rewrite Hs. cbn [pm_segment_count Nat.eqb].
  apply span_app in E as ->. cbn. by rewrite take_app_length.
Qed.

Lemma segments_no_tilde rest : ch_tilde ∉ rest -> Forall (fun s => ch_tilde ∉ s) (split_slash rest).
Proof.
  induction rest as [|c rest IH]; intros Hn; cbn [split_slash].
  - constructor; [by apply not_elem_of_nil|constructor].
  - rewrite not_elem_of_cons in Hn. destruct Hn as [Hc Hn]. specialize (IH Hn).
    destruct (c =? ch_slash).
    + constructor; [by apply not_elem_of_nil|done].
    + destruct (split_slash rest) as [|s l].
      { constructor; [|constructor]. rewrite not_elem_of_cons. split; [done|by apply not_elem_of_nil]. }
      apply list.Forall_cons in IH as [H1 H2].
      constructor; [by rewrite not_elem_of_cons|done].
Qed.

Lemma no_tilde_spec l : forallb (fun c => negb (c =? ch_tilde)) l = true -> ch_tilde ∉ l.
Proof.
  rewrite forallb_forall. intros H Hin. apply list_elem_of_In, H in Hin. by rewrite Z.eqb_refl in Hin.
Qed.

Lemma built_plain t : built t -> plain_path_b t = true -> plain_term t.
Proof.
  intros (kind & value & range & temporal & teq & failure & path & m & -> & Hm & _) Hp.
  unfold plain_path_b in Hp. apply andb_true_iff in Hp as [[Ha%Z.eqb_eq Hw%Z.eqb_eq]%andb_true_iff Ht].
  destruct (literal_path _ _ Hm) as (rest & -> & Hc & Hl & Hf).
  unfold path_term in *. cbv zeta in *.
  destruct (lql_flat_eq_cache_array_indexes _ _) as [cache values].
  cbn [term_path default path_array_segments] in *.
  assert (pm_recursive_segments m = 0) as Hr by (by apply wildcards_none in Hw as (_ & _ & _ & Hw)).
  assert (lql_flat_eq_cache_recursive_match (ch_slash :: rest) (pm_segment_count m) (pm_recursive_segments m) = None) as Ec.
  { unfold lql_flat_eq_cache_recursive_match. rewrite Hr.
    destruct (List.find (has 0) all_segments) as [i|] eqn:E; [|done].
    apply List.find_some in E as [_ E]. by rewrite has_0 in E. }
  apply no_tilde_spec in Ht. change (ch_tilde ∉ ch_slash :: rest) in Ht. rewrite not_elem_of_cons in Ht. destruct Ht as [_ Ht].
  split; cbn [term_path path_segment_count term_field path_array_segments path_recursive_match];
    unfold term_segments, path_segments; cbn [term_path default tail].
  - by eexists.
  - done.
  - change (length (split_slash rest) <= LQL_FLAT_EQ_TERM_CAPACITY)%nat. by rewrite <- Hc.
  - done.
  - by apply segments_no_tilde.
  - done.
  - done.
  - by rewrite Ec.
Qed.

Lemma built_ready t : built t -> contains_ready t.
Proof.
  intros (kind & value & range & temporal & teq & failure & path & m & -> & _ & Hf).
  unfold contains_ready, path_term. cbv zeta.
  destruct (lql_flat_eq_cache_array_indexes _ _) as [cache values]. cbn [term_kind term_value contains_failure].
  intros -> Hv. destruct (contains_failure_table value Hv) as (f & Ef & Htab).
  unfold failure_for in Hf. cbn in Hf. rewrite Hf in Ef. injection Ef as ->. by exists f.
Qed.

(** ** Programs *)

Section programs.
Context (range_double : lql_selector -> bound_key -> spec_float).
Context (time_bounds : option lql_flat_eq_time_bounds).

Lemma path_term_built kind value range temporal teq failure path m :
  lql_flat_eq_literal_object_path path = Some m ->
  failure_for kind value failure ->
  built (path_term kind value range temporal teq failure path m).
Proof. intros Hm Hf. by eexists kind, value, range, temporal, teq, failure, path, m. Qed.

Lemma contains_term_built ignore_case value path m t : lql_flat_eq_literal_object_path path = Some m ->
  contains_term ignore_case value path m = Some t -> built t.
Proof.
  unfold contains_term. intros Hm (v & Hv & (failure & Hf & [= <-])%bind_Some)%bind_Some.
  apply path_term_built; [done|]. by destruct ignore_case.
Qed.

Lemma leaf_term_built s path m t : lql_flat_eq_literal_object_path path = Some m ->
  leaf_term s path m = Some t -> built t.
Proof.
  intros Hm. assert (searching_kind (leaf_term_kind s) = false) as Hn.
  { unfold leaf_term_kind, lql_flat_eq_literal_kind. repeat case_match; done. }
  unfold leaf_term. cbv zeta. intros H.
  repeat match goal with
  | H : _ ≫= _ = Some _ |- _ => apply bind_Some in H as (? & ? & H)
  | H : (if _ then _ else _) = Some _ |- _ => case_match; try discriminate H
  | H : Some _ = Some _ |- _ => injection H as <-
  end; apply path_term_built; try done; unfold failure_for; by rewrite Hn.
Qed.

Lemma append_contains_built s path m ignore_case terms : lql_flat_eq_literal_object_path path = Some m ->
  lql_flat_eq_append_contains s path m ignore_case = Some terms -> Forall built terms.
Proof.
  intros Hm. unfold lql_flat_eq_append_contains. case_match.
  - intros [= <-]. constructor; [by apply path_term_built|constructor].
  - intros (values & _ & Ht%mapM_Some)%bind_Some.
    induction Ht as [|v t values terms Hv _ IH]; constructor; [by eapply contains_term_built|done].
Qed.

Lemma literal_kind_not_searching k : searching_kind (lql_flat_eq_literal_kind k) = false.
Proof. by destruct k. Qed.

Lemma predicate_terms_built s terms : predicate_terms range_double time_bounds s = Some terms ->
  Forall built terms.
Proof.
  unfold predicate_terms. intros (path & _ & H)%bind_Some.
  destruct (kind s); try discriminate H;
    repeat match goal with
    | H : _ ≫= _ = Some _ |- _ => apply bind_Some in H as (? & ? & H)
    | H : (if _ then None else _) = Some _ |- _ => case_match; [discriminate H|]
    | H : Some _ = Some _ |- _ => injection H as <-
    end; try (constructor; [|constructor]); try by eapply leaf_term_built.
  - by eapply append_contains_built.
  - by eapply append_contains_built.
  - apply path_term_built; [done|]. unfold failure_for. by destruct (range_is_temporal s).
  - by apply path_term_built.
  - apply list.Forall_fmap, list.Forall_true. intros a. unfold compose, value_term.
    apply path_term_built; [done|]. unfold failure_for. by rewrite literal_kind_not_searching.
Qed.

Lemma program_built s program : lql_flat_eq_append range_double time_bounds [] [] s = Some program ->
  Forall built (map fst program).
Proof. intros H. apply list.Forall_fmap. by eapply append_forall; [apply predicate_terms_built|exact H|]. Qed.
End programs.

(** ** The records that a selector selects

    The hits that the scanner hands to the record callback are the terms that hold
    of the JSON value of the record; so the evaluation of a compiled selector over
    them is the boolean reading of the selector on that value. *)

(** *** Configurations *)

Lemma no_term f l : (forall t, In t l -> f t = false) -> any_term f l = false.
Proof.
  intros H. unfold any_term. apply not_true_is_false. rewrite existsb_exists.
  intros (t & Ht & E). by rewrite H in E.
Qed.

Lemma plain_scan_config r : Forall plain_term (req_terms r) -> Forall contains_ready (req_terms r) ->
  plain_config (scan_config_of r).
Proof.
  intros Hp Hr.
  assert (forall t, In t (req_terms r) -> plain_term t) as Hin.
  { intros t Ht. apply list_elem_of_In in Ht. by eapply list.Forall_forall in Hp. }
  assert (forall i t, req_terms r !! i = Some t -> path_recursive_segments t = 0) as H0.
  { intros i t Ht. apply plain_recursive. apply list_elem_of_lookup_2, list_elem_of_In in Ht. auto. }
  split; try done; unfold scan_config_of; cbn.
  - apply no_term. intros t Ht. specialize (Hin t Ht).
    destruct (wildcards_none t (plain_wildcards _ Hin)) as (E1 & E2 & E3 & E4).
    unfold array_term. by rewrite E1, E2, E3, E4, (plain_arrays _ Hin).
  - apply no_term. intros t Ht. specialize (Hin t Ht).
    destruct (wildcards_none t (plain_wildcards _ Hin)) as (E1 & E2 & E3 & E4). by rewrite E1, E3.
  - apply no_term. intros t Ht. by rewrite plain_recursive by auto.
  - apply no_term. intros t Ht. unfold repeated_recursive. by rewrite plain_recursive by auto.
  - apply mask_of_none. intros i t Ht. unfold leading_recursive. by rewrite (H0 i t Ht), has_0.
  - apply mask_of_none. intros i t Ht. unfold terminal_recursive. by rewrite (H0 i t Ht).
  - apply mask_of_none. intros i t Ht. unfold root_exists, leading_recursive. by rewrite (H0 i t Ht), has_0.
Qed.

(** *** What the hits of a record mean *)

(** The scan has the hits it waits for. *)
Definition stop_reached (cfg : scan_config) (hits : Z) : bool :=
  flat_eq_stop_on_hit cfg &&
  (let mask := flat_eq_stop_hit_mask cfg in
   if mask =? 0 then negb (hits =? 0) else Z.land hits mask =? mask).

(** The hits are terms that hold of the value, and all of them unless the scan
    stopped matching. *)
Record hits_for (cfg : scan_config) (v : json) (hits : Z) : Prop := {
  hf_sound : forall i term, flat_terms cfg !! i = Some term -> byte_kind term = true ->
    has hits i = true -> term_holds term v = true;
  hf_complete : forall i term, flat_terms cfg !! i = Some term -> byte_kind term = true ->
    stop_reached cfg hits = false -> term_holds term v = true -> has hits i = true
}.

Definition is_object (v : json) : bool := match v with JObject _ => true | _ => false end.

Lemma holds_of_objects term v : term_holds term v = true -> is_object v = true.
Proof.
  unfold term_holds, path_segments. destruct (split_slash _) as [|g gs] eqn:E; [by apply split_slash_nonempty in E|].
  by destruct v.
Qed.

(** What a call says of the input it is about. *)
Definition record_text (input : bytes) (call : record_call) : bytes :=
  take (source_len call) (drop (source_offset call) input).

Definition call_judged (cfg : scan_config) (input : bytes) (call : record_call) : Prop :=
  exists v, json_of (record_text input call) v /\ root_is_object call = is_object v /\
    hits_for cfg v (record_hits call).

Section select.
Context {content : bytes -> lql_json_spool -> Prop} `{laws : !SpoolLaws content}.
Context (cfg : scan_config) (plain : plain_config cfg) (parse_double : bytes -> option spec_float).
Context (capacity : (length (flat_terms cfg) <= LQL_JSON_FLAT_TERM_CAPACITY)%nat).
Implicit Types (s : lql_json_scan) (m : scan_matcher).
#[local] Abbreviation terms := (flat_terms cfg).
#[local] Abbreviation moves := (moves (content := content)).
#[local] Abbreviation reads := (reads (content := content)).
#[local] Abbreviation calm := (calm cfg).
#[local] Abbreviation gains := (gains cfg).

(** *** A record *)

(** The matcher between two records. *)
Definition idle (m : scan_matcher) : Prop := calm (m <| flat_eq_active := true |>).

Lemma has_all_ones n i : (i < n)%nat -> (n <= LQL_JSON_FLAT_TERM_CAPACITY)%nat -> has (all_ones n) i = true.
Proof.
  intros Hi Hn. unfold all_ones, has, bit, WORD, LQL_JSON_FLAT_TERM_CAPACITY in *.
  rewrite Z.shiftl_1_l. destruct (Nat.eqb_spec n 64) as [->|_].
  - change (2 ^ 64 - 1) with (Z.ones 64). apply Z.ones_spec_low. lia.
  - rewrite Z.sub_1_r, <- Z.ones_equiv. apply Z.ones_spec_low. lia.
Qed.

Lemma rests_on m m' : rests cfg m m' ->
  rests cfg (m <| flat_eq_active := true |>) (m' <| flat_eq_active := true |>).
Proof.
  intros [Hb Hp Hs]. split; [|done|done]. apply (f_equal (fun m => m <| flat_eq_active := true |>)) in Hb.
  exact Hb.
Qed.

(** The matcher at the start of a record. *)
Lemma start_record_matcher b s : idle (matcher s) ->
  let m := matcher (start_record cfg b s) in
  idle m /\ flat_eq_active m = b /\ flat_eq_hits m = 0 /\ active_at 0 m = all_ones (length terms).
Proof.
  intros Hi. set (m1 := (((matcher s) <| flat_eq_active := b |>) <| flat_eq_hits := 0 |>)
    <| path_active := <[0%nat := all_ones (length terms)]> (path_active (matcher s)) |>).
  assert (matcher (start_record cfg b s) = lql_json_match_start cfg 0 false 0 m1) as E.
  { unfold start_record. by destruct (writing cfg). }
  cbv zeta. rewrite E. pose proof (rests_start cfg 0 m1) as R.
  pose proof (rests_field cfg flat_eq_active _ _ (fun _ => eq_refl) R) as E1.
  pose proof (rests_field cfg flat_eq_hits _ _ (fun _ => eq_refl) R) as E2.
  pose proof (rests_field cfg path_active _ _ (fun _ => eq_refl) R) as E3.
  split; [|split; [by rewrite E1|split; [by rewrite E2|]]].
  - destruct Hi as [H1 H2 H3 H4 H5 H6 H7 H8]. cbn in *.
    assert (calm (m1 <| flat_eq_active := true |>)) as Hm1.
    { split; try done; cbn; [|by rewrite length_insert]. intros d P i term.
      destruct (decide (d = 0%nat)) as [->|Hn].
      - intros _ _ _. destruct (term_segments term) eqn:Et; [by apply plain_nonempty in Et|cbn; lia].
      - rewrite list_lookup_insert_ne by done. apply H7. }
    apply (rests_calm cfg (m1 <| flat_eq_active := true |>)); [done|by apply rests_on|].
    apply (start_active cfg 0 m1).
  - unfold active_at. rewrite E3. cbn. rewrite list_lookup_insert_eq; [done|].
    pose proof (cm_depths _ _ Hi) as Hd. cbn in Hd. rewrite Hd. unfold LQL_JSON_MAX_DEPTH. lia.
Qed.

Lemma calm_idle m : calm m -> idle m.
Proof. intros []. by split. Qed.

Lemma idle_calm m : idle m -> flat_eq_active m = true -> calm m.
Proof. intros [] H. by split. Qed.

Lemma idle_fed t s s' : idle (matcher s) -> fed cfg t s s' -> idle (matcher s').
Proof.
  intros Hi F. assert (feeding cfg [] (matcher s)) as Hf.
  { destruct Hi as [_ Ha Hp _ _ _ _ _]. cbn in Ha, Hp. split; [done|..]; intros i term _; by rewrite Ha, has_0. }
  destruct (fed_feeding _ _ _ _ F [] Hf) as [Hf2 Hfr]. pose proof (rests_feeding _ _ _ _ Hfr Hf2) as R.
  apply (rests_calm cfg ((matcher s) <| flat_eq_active := true |>)); [done|by apply rests_on|].
  cbn. rewrite (frame_active _ _ Hfr). apply Hi.
Qed.

(** The value of a record and the hits it gives. *)
Lemma record_value (object : bool) c s : sane s -> depth (input s) = 0%nat -> idle (matcher s) ->
  flat_eq_active (matcher s) = object -> flat_eq_hits (matcher s) = 0 ->
  active_at 0 (matcher s) = all_ones (length terms) ->
  at_byte (Some c) s -> c <> ch_lbracket -> object = (c =? ch_lbrace) ->
  ok (JsonScan.json_value cfg parse_double) s (fun _ s' => exists w v, json_of w v /\ reads w s s' /\
    idle (matcher s') /\ object = is_object v /\
    hits_for cfg v (if object then flat_eq_hits (matcher s') else 0)).
Proof.
  intros Hs Hd Hi Ha Hh Hact Hc Hn ->.
  assert (forall w v s', json_of w v -> reads w s s' -> (c =? ch_lbrace) = is_object v) as Hfirst.
  { intros w v s' Hw R. destruct (peeked_first (content := content) (Some c) s s' w v) as (x & [= <-] & Hx);
      [by split|done|done|]. destruct v as [|y|n|t|vs|ms]; cbn in *; subst; try done; [by destruct y|].
    unfold is_digit in Hx. destruct (Z.eqb_spec c ch_lbrace); [|done]. lia. }
  destruct (Z.eqb_spec c ch_lbrace) as [->|Hne].
  - eapply ok_impl; [apply (json_value_gains (content := content) cfg plain); [done|by apply idle_calm]|].
    cbv beta. rewrite Hd, Hact. intros [] s' (w & v & Hw & R & Hc' & [_ _ _ Gs Gc]).
    exists w, v. split; [done|]. split; [done|]. split; [by apply calm_idle|]. split; [by eapply Hfirst|].
    assert (forall i term, terms !! i = Some term -> has (all_ones (length terms)) i = true) as Hone.
    { intros i term Ht. apply has_all_ones; [|done]. by eapply lookup_lt_Some. }
    split.
    + intros i term Ht Hk Hhit. destruct (Gs i term Ht Hk Hhit) as [H|H]; [by rewrite Hh, has_0 in H|].
      by apply andb_true_iff in H as [_ H].
    + intros i term Ht Hk Hstop Hholds. apply (Gc i term Ht Hk Hstop). by rewrite (Hone i term Ht).
  - unfold JsonScan.json_value. apply ok_gets_then.
    eapply ok_impl; [apply (container_spec_holds (content := content) cfg plain); [done|]|].
    { right. exists c. split; [done|]. unfold is_container, byte_is.
      by rewrite (proj2 (Z.eqb_neq c ch_lbrace)), (proj2 (Z.eqb_neq c ch_lbracket)). }
    cbv beta. intros [] s' (w & v & Hw & R & O). exists w, v. split; [done|]. split; [done|].
    pose proof (Hfirst w v s' Hw R) as Hv. split; [|split; [done|]].
    + unfold outcome in O. destruct (raw_text v) as [t|] eqn:Et; [by eapply idle_fed|].
      destruct (peeked_first (content := content) (Some c) s s' w v) as (x & [= <-] & Hx); [by split|done|done|].
      destruct v as [|[]| | | |]; cbn in *; congruence.
    + split; intros i term _ _; [by rewrite has_0|]. intros _ H. by rewrite (holds_of_objects _ _ H) in Hv.
Qed.

(** *** The calls *)

Lemma still_separator_loop fuel : still (separator_loop fuel).
Proof. induction fuel as [|fuel IH]; cbn [separator_loop]; still. Qed.
#[local] Hint Resolve still_separator_loop : still.

Lemma still_separator : still lql_json_record_separator.
Proof. unfold lql_json_record_separator. still. Qed.

Lemma still_flush : still (lql_json_flush cfg).
Proof. unfold lql_json_flush, drain, lql_json_spool_write. still. Qed.

Lemma still_ask_cancelled : still ask_cancelled.
Proof. intros s a s'. unfold ask_cancelled. repeat case_match; by intros [= <- <-]. Qed.
#[local] Hint Resolve still_separator still_flush still_ask_cancelled : still.

Lemma root_hits_none object s : ok (root_hits cfg object) s (fun _ s' => s' = s).
Proof. unfold root_hits. rewrite (pc_root _ plain), andb_false_r. by apply ok_ret. Qed.

(** What the call of a record at the head of [t] says of its value. *)
Definition judged_at (t : bytes) (start : nat) (call : record_call) : Prop :=
  exists w v rest, t = w ++ rest /\ json_of w v /\ source_offset call = start /\ source_len call = length w /\
    root_is_object call = is_object v /\ hits_for cfg v (record_hits call).

Lemma record_body_judged index c s : sane s -> fits s -> depth (input s) = 0%nat -> idle (matcher s) ->
  flat_eq_active (matcher s) = (c =? ch_lbrace) -> flat_eq_hits (matcher s) = 0 ->
  active_at 0 (matcher s) = all_ones (length terms) -> at_byte (Some c) s -> c <> ch_lbracket ->
  ok (record_body cfg parse_double index (c =? ch_lbrace) (lql_json_consumed s)) s (fun r s' =>
    exists call, r = Some call /\ idle (matcher s') /\ judged_at (stream s) (lql_json_consumed s) call).
Proof.
  intros Hs Hf Hd Hi Ha Hh Hact Hc Hn. unfold record_body.
  eapply ok_bind; [apply root_hits_none|]. intros [] s1 ->.
  eapply ok_attempt_then; [by eapply (record_value (c =? ch_lbrace) c)| |fails].
  cbv beta. intros [] s2 (w & v & Hw & (o1 & o2 & M) & Hi2 & Hv & Hh2).
  destruct (mv_consumed _ _ _ _ _ M Hf) as [_ Hc2].
  apply ok_gets_then, ok_gets_then. apply ok_modify_then. set (s3 := on_input _ s2). apply ok_ret_then.
  eapply ok_bind; [apply still_separator|]. intros [] s4 E4.
  eapply ok_bind; [apply still_flush|]. intros [] s5 E5.
  eapply ok_bind; [apply still_ask_cancelled|]. intros cancel s6 E6. destruct cancel; [fails|].
  apply ok_gets_then, ok_ret. unfold id. eexists. split; [reflexivity|].
  assert (matcher s6 = matcher s2) as E by by rewrite E6, E5, E4. rewrite E.
  split; [done|]. exists w, v, (stream s2). split; [by apply (mv_stream _ _ _ _ _ M)|]. split; [done|].
  split; [done|]. split; [cbn; lia|]. by split.
Qed.

Lemma next_record_judged index s : ready (content := content) cfg s -> idle (matcher s) ->
  ok (next_record cfg parse_double index) s (fun r s' => forall call, r = Some call ->
    idle (matcher s') /\ forall before, length before = lql_json_consumed s ->
    call_judged cfg (before ++ stream s) call).
Proof.
  intros Hr Hi. unfold next_record.
  eapply ok_bind; [eapply ok_and; [apply (skip_space_ok (content := content))|
    eapply ok_and; [apply silent_skip_space|apply still_skip_space]]|].
  intros [] s1 [(sp & _ & M1) [O1 E1]].
  eapply ok_bind; [eapply ok_and; [apply (peek_ok (content := content))|
    eapply ok_and; [apply silent_peek|apply still_peek]]|].
  intros [v|] s2 [(M2 & Hv & _) [O2 E2]]; [|by apply ok_ret].
  assert (M : moves sp [] [] s s2) by chain. clear M1 M2.
  destruct Hr as [Hs Hf Hd Hemit Hspool]. destruct (mv_consumed _ _ _ _ _ M Hf) as [Hf2 Hc2].
  assert (Hr2 : ready (content := content) cfg s2).
  { split; [by apply (moves_sane _ _ _ _ _ M Hs)|done|by rewrite (mv_depth _ _ _ _ _ M)|..];
      by rewrite O2, O1. }
  destruct (Z.eqb_spec v ch_lbracket) as [|Hna]; [apply ok_error|]. cbv zeta.
  apply ok_gets_then, ok_modify_then.
  destruct (start_record_spec cfg (v =? ch_lbrace) s2 Hr2) as (S1 & S2 & S3 & S4 & S5 & _ & _ & S8).
  destruct (start_record_matcher (v =? ch_lbrace) s2) as (K1 & K2 & K3 & K4); [by rewrite E2, E1|].
  set (s3 := start_record _ _ _) in *. rewrite <- S4.
  eapply ok_impl; [apply (record_body_judged index v s3); try done; unfold at_byte in *; by rewrite S8|].
  cbv beta. intros r s4 (call & -> & Hi4 & w & u & rest & Hw & Hu & Ho & Hl & Hobj & Hh) call' [= <-].
  split; [done|]. intros before Hbefore. exists u. split; [|done].
  unfold record_text. rewrite Ho, Hl, S4, Hc2, (mv_stream _ _ _ _ _ M), <- S3, Hw, <- Hbefore, app_assoc.
  rewrite <- length_app, drop_app_length, take_app_length. done.
Qed.

(** The input so far, between two records. *)
Definition at_record (t : bytes) s : Prop :=
  idle (matcher s) /\ exists before, length before = lql_json_consumed s /\ t = before ++ stream s.

Lemma next_judged t index s : ready (content := content) cfg s -> at_record t s ->
  ok (next_record cfg parse_double index) s (fun r s' => forall call, r = Some call ->
    at_record t s' /\ call_judged cfg t call).
Proof.
  intros Hr (Hi & before & Hb & ->).
  eapply ok_impl; [apply ok_and; [by apply (next_record_ok (content := content))|by apply next_record_judged]|].
  intros r s' [H1 H2] call ->. destruct (H2 call eq_refl) as [Hi' Hj]. split; [|auto]. split; [done|].
  destruct H1 as [(sp & text & c & sep & _ & _ & _ & _ & _ & Hst & Hco) _].
  exists (before ++ sp ++ text ++ sep). rewrite !length_app, Hst, Hb, Hco, <- !app_assoc. split; [lia|done].
Qed.
End select.

(** The scanner before the first record. *)
Lemma start_idle r spool env answers cancels allocs : (length (req_terms r) <= LQL_JSON_FLAT_TERM_CAPACITY)%nat ->
  let s := scan_start (scan_config_of r) spool env answers cancels allocs in
  at_record (scan_config_of r) (pending answers) s.
Proof.
  intros H s. split; [|by exists []].
  assert (forall n, Forall (eq 0) (repeat 0 n)) as Hz.
  { intros n. apply list.Forall_forall. intros x Hx. apply list_elem_of_In in Hx. symmetry. by apply repeat_spec in Hx. }
  split; try done; [by apply Hz|]. intros d P i term Hd _ HP. exfalso.
  eapply list.Forall_lookup in Hd; [|by apply Hz]. subst P. by rewrite has_0 in HP.
Qed.

(** A scan of plain terms: its calls are the records, and their hits are the terms
    that hold of their values. *)
Lemma scan_selects {U} (parse_double : bytes -> option spec_float)
    (record : record_call -> U -> lql_status * U) (r : lql_json_flat_eq_request) (user : U)
    (env : spool_env) (answers : list read_answer) (cancels allocs : list bool) (e : @scan_end U) :
  Forall plain_term (req_terms r) -> Forall contains_ready (req_terms r) ->
  Forall byte_range (pending answers) ->
  (forall spool, req_spool r = Some spool -> req_capture r = true -> exists c, appendable c spool) ->
  lql_json_scan_flat_eq_ndjson parse_double record r user env answers cancels allocs = Some (inr e) ->
  exists calls rest status,
    records (content := appendable) (scan_config_of r) 0 0 (pending answers) calls rest /\
    ScanStream.fed record user calls status (end_user e) /\
    Forall (call_judged (scan_config_of r) (pending answers)) calls /\
    (status <> LQL_STATUS_OK -> end_status e = status) /\
    (end_status e = LQL_STATUS_OK -> req_limit_stop r = true -> spaces rest).
Proof.
  intros Hp Hc Hb Hsp H. destruct (scan_runs _ _ _ _ _ _ _ _ _ Hb Hsp H) as (spool & allocs' & Hlen & Hr & E).
  pose proof (plain_scan_config _ Hp Hc) as plain.
  destruct (ndjson_loop_sound _ _ record (at_record (scan_config_of r) (pending answers))
    (call_judged (scan_config_of r) (pending answers))
    (fun k s Hr Hi => next_judged _ plain _ Hlen _ _ _ Hr Hi)
    _ _ _ _ _ _ _ _ Hr (start_idle _ _ _ _ _ _ Hlen) E) as
    (calls & rest & status & H1 & H2 & _ & H4 & H5 & _ & H7).
  exists calls, rest, status. split; [exact H1|]. repeat (split; [done|]). auto.
Qed.
