(* ===== verification/StreamProjection.v ===== *)
(** * Writing a projection (src/lql_stream_flat_eq.c)

    The output of a projected record: the captured spans of the record's compact
    text, which is in the spool, arranged as the tree of the projection's paths.
    It goes to a writer that reads the spool ([Output] of JsonSpool.v); what is
    written is read back from the spool slice by slice. *)

From S2P Require Import Prelude.
From S2P Require Import Errors.
From S2P Require Import Projection.
From S2P Require Import JsonSpool.
From S2P Require Import ScanTerm.
From S2P Require Import ScanState.

Section output.
Context {F : Type -> Type} `{Output F}.

(** [lql_flat_eq_write]; the failure has the message of the writer. *)
Definition lql_flat_eq_write (data : bytes) : F unit := write_bytes data.

(** [strcmp(a, b) < 0] of texts without NUL. *)
Fixpoint strcmp_lt (a b : bytes) : bool :=
  match a, b with
  | [], [] => false
  | [], _ :: _ => true
  | _ :: _, [] => false
  | x :: a, y :: b => (x <? y) || (x =? y) && strcmp_lt a b
  end.

(** ** Text *)

(** [hex[v]] *)
Definition lower_hex (v : Z) : Z := if v <? 10 then ch_0 + v else ch_a + (v - 10).

(** The pieces in which a byte of a JSON string is written. *)
Definition json_string_pieces (ch : Z) : list bytes :=
  if (ch =? ch_quote) || (ch =? ch_backslash) then [[ch_backslash]; [ch]]
  else if ch <? 32 then
    [[ch_backslash; 117; ch_0; ch_0; lower_hex (Z.shiftr ch 4); lower_hex (Z.land ch 15)]]
  else [[ch]].

Fixpoint write_pieces (pieces : list bytes) : F unit :=
  match pieces with
  | [] => mret tt
  | data :: pieces => lql_flat_eq_write data ≫= fun _ => write_pieces pieces
  end.

(** The loop over the text. *)
Fixpoint json_string_loop (value : bytes) : F unit :=
  match value with
  | [] => mret tt
  | ch :: value => write_pieces (json_string_pieces ch) ≫= fun _ => json_string_loop value
  end.

Definition lql_flat_eq_json_string (value : bytes) : F unit :=
  lql_flat_eq_write [ch_quote] ≫= fun _ =>
  json_string_loop value ≫= fun _ =>
  lql_flat_eq_write [ch_quote].

Definition lql_flat_eq_projection_key (key : bytes) : F unit :=
  lql_flat_eq_json_string key ≫= fun _ => lql_flat_eq_write [ch_colon].

(** ** The tree of the paths *)

(** The value of a segment that is all digits and below 2^64. *)
Fixpoint segment_index_loop (segment : bytes) (value : Z) : option Z :=
  match segment with
  | [] => Some value
  | c :: segment =>
      if negb (is_digit c) then None
      else
        let digit := c - ch_0 in
        if (SIZE_LIMIT - digit) / 10 <? value then None
        else segment_index_loop segment (value * 10 + digit)
  end.

Definition lql_flat_eq_projection_segment_index (segment : bytes) : option Z :=
  match segment with [] => None | _ => segment_index_loop segment 0 end.

Section projection.
(** The keys of the program and the spans captured for them. *)
Context (capture_keys : list (list bytes)) (capture_spans : list lql_json_capture_span).

Definition key_segments (i : nat) : list bytes := nth i capture_keys [].
Definition key_segment (i depth : nat) : bytes := nth depth (key_segments i) [].
Definition key_span (i : nat) : lql_json_capture_span := nth i capture_spans (mk_span 0 0 false).

(** The first [depth] segments of two keys are the same. *)
Definition lql_flat_eq_projection_prefix (left right depth : nat) : bool :=
  forallb (fun i => bytes_eqb (key_segment left i) (key_segment right i)) (seq 0 depth).

(** Key [i] was captured and goes on below [anchor]'s first [depth] segments. *)
Definition found_below (anchor depth i : nat) : bool :=
  span_found (key_span i) && (depth <? length (key_segments i))%nat &&
  lql_flat_eq_projection_prefix anchor i depth.

(** Some captured key has the segment of [member] at [depth]. *)
Definition lql_flat_eq_projection_group_found (anchor depth member : nat) : bool :=
  existsb (fun i => found_below anchor depth i &&
                    bytes_eqb (key_segment i depth) (key_segment member depth))
    (seq 0 (length capture_keys)).

Definition segment_is_index (segment : bytes) : bool :=
  bool_decide (is_Some (lql_flat_eq_projection_segment_index segment)).

(** Whether the captured children are array elements; [None] when only some are. *)
Definition lql_flat_eq_projection_child_shape (anchor depth : nat) : option bool :=
  let below := List.filter (found_below anchor depth) (seq 0 (length capture_keys)) in
  let have_array := existsb (fun i => segment_is_index (key_segment i depth)) below in
  let have_object := existsb (fun i => negb (segment_is_index (key_segment i depth))) below in
  if have_array && have_object then None else Some have_array.

(** A key that may be the next child. *)
Definition candidate (anchor depth i : nat) : bool :=
  (depth <? length (key_segments i))%nat && lql_flat_eq_projection_prefix anchor i depth &&
  lql_flat_eq_projection_group_found anchor depth i.

(** The first key with the smallest segment above [previous]. *)
Definition next_member (anchor depth : nat) (previous : option bytes) : option nat :=
  fold_left (fun selected i =>
    let segment := key_segment i depth in
    if negb (candidate anchor depth i) ||
       match previous with Some p => negb (strcmp_lt p segment) | None => false end
    then selected
    else match selected with
         | None => Some i
         | Some j => if strcmp_lt segment (key_segment j depth) then Some i else selected
         end) (seq 0 (length capture_keys)) None.

(** The first key with the smallest index from [next_index] on. *)
Definition next_element (anchor depth : nat) (next_index : Z) : option (nat * Z) :=
  fold_left (fun selected i =>
    if negb (candidate anchor depth i) then selected
    else
      match lql_flat_eq_projection_segment_index (key_segment i depth) with
      | None => selected
      | Some index =>
          if index <? next_index then selected
          else match selected with
               | None => Some (i, index)
               | Some (_, selected_index) =>
                   if index <? selected_index then Some (i, index) else selected
               end
      end) (seq 0 (length capture_keys)) None.

(** A comma before all but the first. *)
Definition comma (first : bool) : F unit :=
  if first then mret tt else lql_flat_eq_write [ch_comma].

(** [while (next_index < selected_index)]: the missing elements. *)
Fixpoint write_nulls (n : nat) (first : bool) : F bool :=
  match n with
  | O => mret first
  | S n =>
      comma first ≫= fun _ =>
      lql_flat_eq_write (bs "null") ≫= fun _ => write_nulls n false
  end.

(** The value of the selected key, or the node below it. *)
Definition write_member (node : nat -> nat -> F unit) (selected depth : nat) : F unit :=
  if (length (key_segments selected) =? S depth)%nat then
    lql_json_spool_write_slice (Z.to_nat (span_offset (key_span selected)))
      (Z.to_nat (span_len (key_span selected)))
  else node selected (S depth).

(** The loop of [lql_flat_eq_projection_object]; each round takes a greater segment,
    so the number of keys is enough fuel. *)
Fixpoint object_loop (node : nat -> nat -> F unit) (fuel anchor depth : nat) (first : bool)
    (previous : option bytes) : F unit :=
  match next_member anchor depth previous, fuel with
  | None, _ | _, O => lql_flat_eq_write [ch_rbrace]
  | Some selected, S fuel =>
      comma first ≫= fun _ =>
      lql_flat_eq_projection_key (key_segment selected depth) ≫= fun _ =>
      write_member node selected depth ≫= fun _ =>
      object_loop node fuel anchor depth false (Some (key_segment selected depth))
  end.

Definition projection_object (node : nat -> nat -> F unit) (anchor depth : nat) : F unit :=
  lql_flat_eq_write [ch_lbrace] ≫= fun _ =>
  object_loop node (length capture_keys) anchor depth true None.

(** The loop of [lql_flat_eq_projection_array]; each round takes a greater index, so
    the number of keys is enough fuel.  [selected_index + 1] would be 0 only after
    2^64 - 1 elements were written. *)
Fixpoint array_loop (node : nat -> nat -> F unit) (fuel anchor depth : nat) (first : bool)
    (next_index : Z) : F unit :=
  match next_element anchor depth next_index, fuel with
  | None, _ | _, O => lql_flat_eq_write [ch_rbracket]
  | Some (selected, selected_index), S fuel =>
      first ← write_nulls (Z.to_nat (selected_index - next_index)) first;
      comma first ≫= fun _ =>
      write_member node selected depth ≫= fun _ =>
      array_loop node fuel anchor depth false (selected_index + 1)
  end.

Definition projection_array (node : nat -> nat -> F unit) (anchor depth : nat) : F unit :=
  lql_flat_eq_write [ch_lbracket] ≫= fun _ =>
  array_loop node (length capture_keys) anchor depth true 0.

(** [lql_flat_eq_projection_node]: a key below has more segments than the depth, so
    the longest key bounds the depth. *)
Fixpoint lql_flat_eq_projection_node (fuel anchor depth : nat) : F unit :=
  match fuel with
  | O => mret tt
  | S fuel =>
      match lql_flat_eq_projection_child_shape anchor depth with
      | None =>
          on_source (lql_json_spool_error LQL_STATUS_JSON_ERROR "projection paths conflict for JSON object")
      | Some true => projection_array (lql_flat_eq_projection_node fuel) anchor depth
      | Some false => projection_object (lql_flat_eq_projection_node fuel) anchor depth
      end
  end.

Definition projection_fuel : nat := fold_right Nat.max 0%nat (map (@length bytes) capture_keys).

Definition lql_flat_eq_projection_object : F unit :=
  projection_object (lql_flat_eq_projection_node projection_fuel) 0 0.

Definition lql_flat_eq_projection_emit : F unit :=
  lql_flat_eq_projection_object ≫= fun _ => lql_flat_eq_write [ch_nl].

(** [lql_flat_eq_projection_found]: some span was captured. *)
Definition lql_flat_eq_projection_found : bool :=
  existsb (fun i => span_found (key_span i)) (seq 0 (length capture_keys)).
End projection.
End output.

(** ** Which projections are accepted *)

(** [while (depth < left->segment_count && ... strcmp(...) == 0) ++depth;]: the rests
    of two paths after their common segments. *)
Fixpoint after_common (left right : lql_projection_path) : lql_projection_path * lql_projection_path :=
  match left, right with
  | l :: left', r :: right' => if bytes_eqb l r then after_common left' right' else (left, right)
  | _, _ => (left, right)
  end.

(** Two paths do not part at two spellings of one index. *)
Definition paths_agree (left right : lql_projection_path) : bool :=
  match after_common left right with
  | (l :: _, r :: _) =>
      match lql_flat_eq_projection_segment_index l, lql_flat_eq_projection_segment_index r with
      | Some i, Some j => negb ((i =? j) && negb (bytes_eqb l r))
      | _, _ => true
      end
  | _ => true
  end.

(** Each path with those after it. *)
Fixpoint paths_compatible_loop (compiled : list lql_projection_path) : bool :=
  match compiled with
  | [] => true
  | path :: compiled => forallb (paths_agree path) compiled && paths_compatible_loop compiled
  end.

Definition lql_flat_eq_projection_paths_compatible (projection : lql_projection) : bool :=
  paths_compatible_loop (compiled_paths projection).

(** [lql_flat_eq_projection_append]: the capture keys, [None] when the projection is
    refused. *)
Definition lql_flat_eq_projection_append (projection : option lql_projection)
    : option (list (list bytes)) :=
  projection ← projection;
  if (length (compiled_paths projection) =? 0)%nat ||
     negb (lql_flat_eq_projection_paths_compatible projection) then None
  else if existsb (fun p => (length p =? 0)%nat) (compiled_paths projection) then None
  else Some (compiled_paths projection).
