(* ===== verification/Stream.v ===== *)
(** * Applying a request to a stream (src/lql_stream.c, src/lql_stream_flat_eq.c)

    [lql_stream_apply] and [lql_stream_apply_spooled]: the tests of the request, the
    program compiled from its selector and projection, the scan of the stream and
    what the record callback does with the hits of a record: the decision and value
    callbacks, the output of the record or of its projection, and the counters.
    The output of a mutation is a parameter; [MutationEmit] models it. *)

From S2P Require Import Prelude.
From S2P Require Import Errors.
From S2P Require Import Temporal.
From S2P Require Import Projection.
From S2P Require Import Selector.
From S2P Require Import JsonSpool.
From S2P Require Import ScanTerm.
From S2P Require Import ScanState.
From S2P Require Import ScanInput.
From S2P Require Import JsonScan.
From S2P Require Import FlatProgram.
From S2P Require Import StreamProjection.

(** ** The request *)

(** [LQL_STREAM_OUTPUT_OTHER] is a value that is no constant of the type. *)
Inductive lql_stream_output_mode :=
  | LQL_STREAM_OUTPUT_DECISION_ONLY
  | LQL_STREAM_OUTPUT_SELECTED_RECORD
  | LQL_STREAM_OUTPUT_PROJECTION
  | LQL_STREAM_OUTPUT_MUTATION
  | LQL_STREAM_OUTPUT_PROJECTION_THEN_MUTATION
  | LQL_STREAM_OUTPUT_OTHER (value : Z).

#[export] Instance lql_stream_output_mode_eq_dec : EqDecision lql_stream_output_mode.
Proof. solve_decision. Defined.

Inductive lql_stream_callback_result :=
  | LQL_STREAM_CALLBACK_CONTINUE | LQL_STREAM_CALLBACK_STOP | LQL_STREAM_CALLBACK_ERROR.

Inductive lql_stream_stop_reason :=
  | LQL_STREAM_STOP_NONE | LQL_STREAM_STOP_RECORD_LIMIT | LQL_STREAM_STOP_MATCH_LIMIT
  | LQL_STREAM_STOP_BYTE_LIMIT | LQL_STREAM_STOP_CALLBACK | LQL_STREAM_STOP_CANCELLED.

Record lql_stream_decision := mk_decision { decision_index : nat; decision_matched : bool }.

(** A range writer gets the offset and the length of a range of the source and writes
    it to the writer of the environment; its failure has the message it set. *)
Definition lql_stream_range_writer_fn : Type :=
  nat -> nat -> spool_env -> (failure + unit) * spool_env.

Inductive storage_kind :=
  | LQL_STREAM_VALUE_JSON_SPOOL | LQL_STREAM_VALUE_SOURCE_RANGE | LQL_STREAM_VALUE_NONE.

#[export] Instance storage_kind_eq_dec : EqDecision storage_kind.
Proof. solve_decision. Defined.

Record lql_stream_value := mk_value {
  value_storage : storage_kind;
  value_spool : option lql_json_spool;
  value_range_writer : option lql_stream_range_writer_fn;
  range_offset : nat;
  range_len : nat
}.

Record lql_stream_limits := mk_limits { max_records : nat; max_matches : nat; max_bytes : nat }.

Record lql_stream_result := mk_result {
  records_seen : nat;
  records_matched : nat;
  bytes_consumed : nat;
  stopped_early : bool;
  stop_reason : lql_stream_stop_reason
}.

(** The result zeroed. *)
Definition result_zero : lql_stream_result := mk_result 0 0 0 false LQL_STREAM_STOP_NONE.

(** What the stream needs of a mutation: the number of its actions, whether
    [lql_flat_eq_mutation_append] takes them, and how their file values preflight. *)
Record mutation_plan := mk_plan { action_count : nat; accepted : bool; preflight : failure + unit }.

(** The callbacks get and return the user's state; with their answer is the error
    they set, if they set one. *)
Record lql_stream_request {X : Type} := mk_stream_request {
  stream_selector : option lql_selector;
  stream_projection : option lql_projection;
  stream_mutation : option mutation_plan;
  output_mode : lql_stream_output_mode;
  matched_only : bool;
  limits : lql_stream_limits;
  input_is_compact : bool;
  reader_present : bool;
  writer_present : bool;
  range_writer : option lql_stream_range_writer_fn;
  on_decision : option (lql_stream_decision -> X -> lql_stream_callback_result * option lql_error * X);
  on_value : option (lql_stream_value -> X -> lql_stream_callback_result * option lql_error * X)
}.
Arguments lql_stream_request : clear implicits.
Arguments mk_stream_request {X}.

(** ** Values *)

Definition lql_stream_value_size (value : option lql_stream_value) : Z :=
  match value with
  | None => 0
  | Some v =>
      match value_storage v, value_spool v with
      | LQL_STREAM_VALUE_SOURCE_RANGE, _ => Z.of_nat (range_len v)
      | LQL_STREAM_VALUE_JSON_SPOOL, Some spool => lql_json_spool_size (Some spool)
      | _, _ => 0
      end
  end.

(** [lql_stream_value_write_to] of a value: the failure or the environment after. *)
Definition lql_stream_value_write_to (value : option lql_stream_value) (writer : bool) (e : spool_env)
    : (failure + unit) * spool_env :=
  let invalid message := (inl (LQL_STATUS_INVALID_ARGUMENT, message), e) in
  match value with
  | None => invalid "stream value and writer are required"%string
  | Some v =>
      let range := bool_decide (value_storage v = LQL_STREAM_VALUE_SOURCE_RANGE) in
      if negb writer || (negb range && bool_decide (value_spool v = None)) then
        invalid "stream value and writer are required"%string
      else if range then
        match value_range_writer v with
        | None => invalid "stream value source range is unavailable"%string
        | Some f => f (range_offset v) (range_len v) e
        end
      else
        match value_storage v, value_spool v with
        | LQL_STREAM_VALUE_JSON_SPOOL, Some spool =>
            let '(r, _, e) := lql_json_spool_write_to (F := W) spool e in (r, e)
        | _, _ => invalid "invalid stream value"%string
        end
  end.

(** ** A record *)

Section record.
Context {X : Type}.
Implicit Types (request : lql_stream_request X).

(** What a record changes: the counters, the environment of the writer and of the
    spool, the user's state, the error object, the spans captured, and what the
    allocator answers in each scan of a batch to come. *)
Record flat_eq_state := mk_state {
  result : lql_stream_result;
  state_env : spool_env;
  state_user : X;
  state_error : lql_error;
  state_spans : list lql_json_capture_span;
  state_allocs : list (list bool)
}.

Definition with_result (f : lql_stream_result -> lql_stream_result) (s : flat_eq_state) : flat_eq_state :=
  mk_state (f (result s)) (state_env s) (state_user s) (state_error s) (state_spans s) (state_allocs s).
Definition with_env (e : spool_env) (s : flat_eq_state) : flat_eq_state :=
  mk_state (result s) e (state_user s) (state_error s) (state_spans s) (state_allocs s).
Definition with_user (x : X) (s : flat_eq_state) : flat_eq_state :=
  mk_state (result s) (state_env s) x (state_error s) (state_spans s) (state_allocs s).
Definition with_error (error : lql_error) (s : flat_eq_state) : flat_eq_state :=
  mk_state (result s) (state_env s) (state_user s) error (state_spans s) (state_allocs s).
Definition with_spans (spans : list lql_json_capture_span) (s : flat_eq_state) : flat_eq_state :=
  mk_state (result s) (state_env s) (state_user s) (state_error s) spans (state_allocs s).

(** A step ends with a value or with the status to return. *)
Definition R (A : Type) : Type := flat_eq_state -> (lql_status + A) * flat_eq_state.

#[export] Instance R_ret : MRet R := fun A a s => (inr a, s).
#[export] Instance R_bind : MBind R := fun A B f m s =>
  match m s with
  | (inr a, s) => f a s
  | (inl status, s) => (inl status, s)
  end.

Definition return_status {A} (status : lql_status) : R A := fun s => (inl status, s).
Definition update (f : flat_eq_state -> flat_eq_state) : R unit := fun s => (inr tt, f s).

(** [lql_set_error(error, status, message); return status;] *)
Definition fail_with {A} (status : lql_status) (message : string) : R A := fun s =>
  (inl status, with_error (lql_set_error status (Some (bs message))) s).

(** [if (error->code == LQL_STATUS_OK) lql_set_error(error, status, message)] *)
Definition default_error (status : lql_status) (message : string) : R unit :=
  update (fun s => if bool_decide (code (state_error s) = LQL_STATUS_OK)
                   then with_error (lql_set_error status (Some (bs message))) s else s).

(** What the spool and the writer do; a callback may fail with the status OK, which is
    no failure. *)
Definition run_output (m : spool_env -> (failure + unit) * spool_env) : R unit := fun s =>
  match m (state_env s) with
  | (inr tt, e) | (inl (LQL_STATUS_OK, _), e) => (inr tt, with_env e s)
  | (inl (status, message), e) =>
      (inl status, with_error (lql_set_error status (Some (bs message))) (with_env e s))
  end.

Definition on_spool (spool : lql_json_spool) (m : W unit) : R unit :=
  run_output (fun e => let '(r, _, e) := m spool e in (r, e)).

(** [lql_flat_eq_emit]: the text of the spool and a newline. *)
Definition lql_flat_eq_emit : W unit :=
  lql_json_spool_write_to ≫= fun _ => call_writer [ch_nl].

(** A callback's answer. *)
Definition answered (answer : lql_stream_callback_result) (error : option lql_error)
    (message : string) : R unit :=
  update (fun s => with_error (default (state_error s) error) s) ≫= fun _ =>
  match answer with
  | LQL_STREAM_CALLBACK_ERROR =>
      default_error LQL_STATUS_CALLBACK_ERROR message ≫= fun _ =>
      return_status LQL_STATUS_CALLBACK_ERROR
  | LQL_STREAM_CALLBACK_STOP =>
      update (with_result (fun r => mk_result (records_seen r) (records_matched r)
        (bytes_consumed r) true LQL_STREAM_STOP_CALLBACK)) ≫= fun _ =>
      return_status LQL_STATUS_STOP
  | LQL_STREAM_CALLBACK_CONTINUE => mret tt
  end.

Context (request : lql_stream_request X).
(** The output of a mutation of the record, and of a mutation of its projection. *)
Context (mutation_emit : W unit) (projection_then_mutation_emit : list lql_json_capture_span -> W unit).

Definition mode_is (mode : lql_stream_output_mode) : bool := bool_decide (output_mode request = mode).

(** [++records_seen; if (matched) ++records_matched;] *)
Definition count_record (matched : bool) : R unit :=
  update (with_result (fun r => mk_result (S (records_seen r))
    (if matched then S (records_matched r) else records_matched r)
    (bytes_consumed r) (stopped_early r) (stop_reason r))).

Definition decide_step (index : nat) (matched : bool) : R unit :=
  match on_decision request with
  | None => mret tt
  | Some f => fun s =>
      let '(answer, error, x) := f (mk_decision index matched) (state_user s) in
      answered answer error "stream decision callback failed" (with_user x s)
  end.

(** The range of a record may be replayed. *)
Definition range_available (compact : bool) : bool :=
  compact && input_is_compact request && bool_decide (is_Some (range_writer request)).

Definition value_of (spool : option lql_json_spool) (offset n : nat) (compact : bool) : lql_stream_value :=
  if compact && bool_decide (is_Some (range_writer request)) then
    mk_value LQL_STREAM_VALUE_SOURCE_RANGE None (range_writer request) offset n
  else mk_value LQL_STREAM_VALUE_JSON_SPOOL spool None 0 0.

Definition value_step (spool : option lql_json_spool) (offset n : nat) (compact matched : bool) : R unit :=
  match on_value request with
  | Some f =>
      if negb matched then mret tt
      else if bool_decide (spool = None) && negb (range_available compact) then
        fail_with LQL_STATUS_UNSUPPORTED "streaming matched value range is unavailable"
      else fun s =>
        let '(answer, error, x) := f (value_of spool offset n compact) (state_user s) in
        answered answer error "stream value callback failed" (with_user x s)
  | None => mret tt
  end.

(** [lql_flat_eq_emit_range] *)
Definition lql_flat_eq_emit_range (offset n : nat) : R unit :=
  match range_writer request with
  | Some f =>
      if writer_present request then
        run_output (f offset n) ≫= fun _ =>
        run_output (fun e => let '(r, _, e) := call_writer [ch_nl] (mk_spool None 0 None None 0) e in (r, e))
      else fail_with LQL_STATUS_INVALID_ARGUMENT "streaming selected record range is unavailable"
  | None => fail_with LQL_STATUS_INVALID_ARGUMENT "streaming selected record range is unavailable"
  end.

Definition selected_step (spool : option lql_json_spool) (offset n : nat) (compact matched : bool) : R unit :=
  if mode_is LQL_STREAM_OUTPUT_SELECTED_RECORD && (matched || negb (matched_only request)) then
    match spool with
    | None =>
        if negb (range_available compact) then
          fail_with LQL_STATUS_UNSUPPORTED "streaming selected record range is unavailable"
        else lql_flat_eq_emit_range offset n
    | Some spool => on_spool spool lql_flat_eq_emit
    end
  else mret tt.

(** The projection of the record, when something of it was captured. *)
Definition emit_projection (keys : list (list bytes)) (spool : option lql_json_spool) : R unit := fun s =>
  match stream_projection request, spool with
  | Some _, Some spool =>
      if lql_flat_eq_projection_found keys (state_spans s) then
        on_spool spool (lql_flat_eq_projection_emit keys (state_spans s)) s
      else (inr tt, s)
  | _, _ => (inr tt, s)
  end.

Definition projection_step (keys : list (list bytes)) (root_is_object : bool)
    (spool : option lql_json_spool) (matched : bool) : R unit :=
  if mode_is LQL_STREAM_OUTPUT_PROJECTION && (matched || negb (matched_only request)) then
    if negb root_is_object then fail_with LQL_STATUS_JSON_ERROR "projection input must be a JSON object"
    else emit_projection keys spool
  else mret tt.

(** A mutation is only applied with a spool. *)
Definition mutate (spool : option lql_json_spool) (m : W unit) : R unit :=
  match spool with
  | None => return_status LQL_STATUS_INVALID_ARGUMENT
  | Some spool => on_spool spool m
  end.

Definition mutation_step (keys : list (list bytes)) (root_is_object : bool)
    (spool : option lql_json_spool) (matched : bool) : R unit := fun s =>
  (if mode_is LQL_STREAM_OUTPUT_MUTATION && matched then
     if negb root_is_object then fail_with LQL_STATUS_JSON_ERROR "mutation input must be a JSON object"
     else mutate spool mutation_emit
   else if mode_is LQL_STREAM_OUTPUT_MUTATION && negb (matched_only request) then
     match spool with
     | None => fail_with LQL_STATUS_CALLBACK_ERROR "mutation passthrough capture is unavailable"
     | Some spool => on_spool spool lql_flat_eq_emit
     end
   else if mode_is LQL_STREAM_OUTPUT_PROJECTION_THEN_MUTATION && matched then
     if negb root_is_object then fail_with LQL_STATUS_JSON_ERROR "combined input must be a JSON object"
     else if bool_decide (is_Some spool) && lql_flat_eq_projection_found keys (state_spans s) then
       mutate spool (projection_then_mutation_emit (state_spans s))
     else mret tt
   else if mode_is LQL_STREAM_OUTPUT_PROJECTION_THEN_MUTATION && negb (matched_only request) then
     if negb root_is_object then fail_with LQL_STATUS_JSON_ERROR "combined input must be a JSON object"
     else emit_projection keys spool
   else mret tt) s.

Definition match_limit_step (matched : bool) : R unit := fun s =>
  let limit := max_matches (limits request) in
  if matched && negb (limit =? 0)%nat && (limit <=? records_matched (result s))%nat then
    (inl LQL_STATUS_STOP,
     with_result (fun r => mk_result (records_seen r) (records_matched r) (bytes_consumed r) true
                             LQL_STREAM_STOP_MATCH_LIMIT) s)
  else (inr tt, s).

(** The bytes and calls for a record, its match being decided. *)
Definition decided_record (keys : list (list bytes)) (call : record_call) (spool : option lql_json_spool)
    (matched : bool) : R unit :=
  count_record matched ≫= fun _ =>
  decide_step (record_index call) matched ≫= fun _ =>
  value_step spool (source_offset call) (source_len call) (source_compact call) matched ≫= fun _ =>
  selected_step spool (source_offset call) (source_len call) (source_compact call) matched ≫= fun _ =>
  projection_step keys (root_is_object call) spool matched ≫= fun _ =>
  mutation_step keys (root_is_object call) spool matched ≫= fun _ =>
  match_limit_step matched.
End record.
