(* ===== verification/StreamBatch.v ===== *)
(** * Scanning a record in batches (src/lql_stream_flat_eq.c)

    A request with more than 64 distinct terms or capture keys: the compact text of
    each record, which is in the spool, is scanned again for 64 terms at a time, and
    then for 64 keys at a time. *)

From S2P Require Import Prelude.
From S2P Require Import Errors.
From S2P Require Import JsonSpool.
From S2P Require Import ScanTerm.
From S2P Require Import ScanState.
From S2P Require Import ScanInput.
From S2P Require Import JsonScan.
From S2P Require Import FlatProgram.
From S2P Require Import Stream.

(** What [lql_json_spool_read] answers to a scan that reads the spool to its end;
    each answer but the last has a byte, so the size bounds them. *)
Fixpoint spool_reads (fuel reader : nat) (spool : lql_json_spool) (e : spool_env)
    : list read_answer * spool_env :=
  match fuel with
  | O => ([], e)
  | S fuel =>
      match lql_json_spool_read reader (Z.to_nat LQL_JSON_READ_BUFFER_SIZE) spool e with
      | (inl (status, message), spool, e) =>
          ([mk_answer status (Some (lql_set_error status (Some (bs message)))) []], e)
      | (inr (reader, data), spool, e) =>
          if (length data =? 0)%nat then ([mk_answer LQL_STATUS_OK None []], e)
          else
            let '(answers, e) := spool_reads fuel reader spool e in
            (mk_answer LQL_STATUS_OK None data :: answers, e)
      end
  end.

Definition read_spool (spool : lql_json_spool) (e : spool_env) : list read_answer * spool_env :=
  match lql_json_spool_reader_init spool e with
  | (inr reader, spool, e) => spool_reads (S (Z.to_nat (spool_size spool))) reader spool e
  | (inl _, _, e) => ([], e)
  end.

Section batch.
Context {X : Type} (parse_double : bytes -> option spec_float).
Implicit Types (s : @flat_eq_state X).

(** A step that may not end. *)
Definition B (A : Type) : Type := @flat_eq_state X -> option ((lql_status + A) * @flat_eq_state X).

#[export] Instance B_ret : MRet B := fun A a s => Some (inr a, s).
#[export] Instance B_bind : MBind B := fun A C f m s =>
  match m s with
  | Some (inr a, s) => f a s
  | Some (inl status, s) => Some (inl status, s)
  | None => None
  end.

(** The next answers of the allocator to a nested scan. *)
Definition scan_allocs s : list bool := default [] (head (state_allocs s)).
Definition next_scan s : @flat_eq_state X :=
  mk_state (result s) (state_env s) (state_user s) (state_error s) (state_spans s) (tail (state_allocs s)).

(** A nested scan of the text of [spool]: what its record callback made of [user], and
    the state at its end, if it started. *)
Definition nested_scan {U} (record : record_call -> U -> lql_status * U) (request : lql_json_flat_eq_request)
    (user : U) (spool : lql_json_spool) : B (U * option lql_json_scan) := fun s =>
  let '(answers, e) := read_spool spool (state_env s) in
  let allocs := scan_allocs s in
  let s := next_scan (with_env e s) in
  match lql_json_scan_flat_eq_ndjson parse_double record request user e answers [] allocs with
  | None => None
  | Some (inl (status, message)) =>
      Some (inl status, with_error (lql_set_error status (Some (bs message))) s)
  | Some (inr e) =>
      let error := scan_error (input (end_state e)) in
      let s := if bool_decide (code error = LQL_STATUS_OK) then s else with_error error s in
      if bool_decide (end_status e = LQL_STATUS_OK)
      then Some (inr (end_user e, Some (end_state e)), s)
      else Some (inl (end_status e), s)
  end.

(** [hits[index / 64] |= 1ul << (index % 64)] *)
Definition set_hit (hits : list Z) (index : nat) : list Z :=
  alter (fun word => Z.lor word (bit (index mod LQL_FLAT_EQ_TERM_CAPACITY)))
    (index / LQL_FLAT_EQ_TERM_CAPACITY)%nat hits.

Definition lql_flat_eq_term_batch_record (term_offset term_count : nat) (call : record_call)
    (hits : list Z) : lql_status * list Z :=
  (LQL_STATUS_OK,
   fold_left (fun hits i => if has (record_hits call) i then set_hit hits (term_offset + i) else hits)
     (seq 0 term_count) hits).

Definition lql_flat_eq_scan_term_batch (source : lql_json_spool)
    (scan_terms : list lql_json_flat_eq_term) (offset count : nat) (hits : list Z) : B (list Z) :=
  if (count =? 0)%nat || (LQL_FLAT_EQ_TERM_CAPACITY <? count)%nat then
    fun s => Some (inl LQL_STATUS_INVALID_ARGUMENT, s)
  else
    '(hits, _) ← nested_scan (lql_flat_eq_term_batch_record offset count)
                   (mk_request (take count (drop offset scan_terms)) None false false 0 [] 1 0 false)
                   hits source;
    mret hits.

(** The spans of a batch copied to the program's. *)
Definition put_spans (offset : nat) (spans target : list lql_json_capture_span)
    : list lql_json_capture_span :=
  take offset target ++ spans ++ drop (offset + length spans) target.

Definition lql_flat_eq_capture_batch_record (call : record_call)
    (_ : option (list lql_json_capture_span)) : lql_status * option (list lql_json_capture_span) :=
  (LQL_STATUS_OK, Some (record_spans call)).

(** The capture spool and the spans of a batch. *)
Definition batch_spool : R (X := X) lql_json_spool := fun s =>
  let none := mk_spool None 0 None None 0 in
  match lql_json_spool_init_with_allocator none (state_env s) with
  | (inl (status, message), _, e) =>
      (inl status, with_error (lql_set_error status (Some (bs message))) (with_env e s))
  | (inr _, spool, e) =>
      match next_alloc spool e with
      | (inr true, _, e) => (inr spool, with_env e s)
      | (_, _, e) =>
          (inl LQL_STATUS_NO_MEMORY,
           with_error (lql_set_error LQL_STATUS_NO_MEMORY
             (Some (bs "out of memory allocating capture spans"))) (with_env e s))
      end
  end.

(** The end of a batch of captures: the spans copied, the sizes compared. *)
Definition end_capture (source : lql_json_spool) (spans : option (list lql_json_capture_span))
    (offset : nat) (scan : option lql_json_scan) : B unit := fun s =>
  let s := match spans with
           | Some spans => with_spans (put_spans offset spans (state_spans s)) s
           | None => s
           end in
  match scan with
  | None => Some (inr tt, s)
  | Some scan =>
      let s := with_env (out_env (output scan)) s in
      if negb (spool_size (out_spool (output scan)) =? spool_size source) then
        Some (inl LQL_STATUS_JSON_ERROR,
              with_error (lql_set_error LQL_STATUS_JSON_ERROR
                (Some (bs "batched capture changed compact JSON record size"))) s)
      else Some (inr tt, s)
  end.

Definition lql_flat_eq_scan_capture_batch (source : lql_json_spool) (capture_keys : list (list bytes))
    (offset count : nat) : B unit :=
  if (count =? 0)%nat || (LQL_FLAT_EQ_TERM_CAPACITY <? count)%nat then
    fun s => Some (inl LQL_STATUS_INVALID_ARGUMENT, s)
  else
    spool ← (fun s => Some (batch_spool s));
    '(spans, scan) ← nested_scan lql_flat_eq_capture_batch_record
                       (mk_request [] (Some spool) true false 0 (take count (drop offset capture_keys)) 1 0
                          false) None source;
    end_capture source spans offset scan.

(** Some term that was scanned has not hit. *)
Definition lql_flat_eq_required_term_missed (sources : list nat) (hits : list Z) (scanned : nat) : bool :=
  existsb (fun source => (source <? scanned)%nat && negb (lql_flat_eq_hit hits source)) sources.

(** The program of a batched request. *)
Context (scan_terms : list lql_json_flat_eq_term) (sources : list nat) (capture_keys : list (list bytes)).
Context (all_terms_required matched_only : bool).

(** The loop over the batches of terms; the words of hits, and whether a required
    term was missed. *)
Fixpoint term_batches (fuel offset : nat) (spool : lql_json_spool) (hits : list Z) : B (list Z * bool) :=
  match fuel with
  | O => mret (hits, false)
  | S fuel =>
      if (length scan_terms <=? offset)%nat then mret (hits, false)
      else
        let count := Nat.min (length scan_terms - offset) LQL_FLAT_EQ_TERM_CAPACITY in
        hits ← lql_flat_eq_scan_term_batch spool scan_terms offset count hits;
        if all_terms_required && ((length capture_keys =? 0)%nat || matched_only) &&
           lql_flat_eq_required_term_missed sources hits (offset + count)
        then mret (hits, true)
        else term_batches fuel (offset + LQL_FLAT_EQ_TERM_CAPACITY) spool hits
  end.

Fixpoint capture_batches (fuel offset : nat) (spool : lql_json_spool) : B unit :=
  match fuel with
  | O => mret tt
  | S fuel =>
      if (length capture_keys <=? offset)%nat then mret tt
      else
        let count := Nat.min (length capture_keys - offset) LQL_FLAT_EQ_TERM_CAPACITY in
        lql_flat_eq_scan_capture_batch spool capture_keys offset count ≫= fun _ =>
        capture_batches fuel (offset + LQL_FLAT_EQ_TERM_CAPACITY) spool
  end.

(** [scan_hit_word_count] *)
Definition hit_words : nat :=
  Nat.max 1 ((length scan_terms + LQL_FLAT_EQ_TERM_CAPACITY - 1) / LQL_FLAT_EQ_TERM_CAPACITY).

(** [lql_flat_eq_batched_record]; [words] is [lql_flat_eq_record_words]. *)
Definition lql_flat_eq_batched_record (words : record_call -> list Z -> B unit) (call : record_call)
    : B unit :=
  let spool := record_spool call in
  '(hits, missed) ← term_batches (S (length scan_terms)) 0 spool (repeat 0 hit_words);
  if (missed : bool) then words call hits
  else
    capture_batches (S (length capture_keys)) 0 spool ≫= fun _ => words call hits.
End batch.
