(* ===== verification/StreamApply.v ===== *)
(** * The application of a request (src/lql_stream.c, src/lql_stream_flat_eq.c)

    [lql_stream_apply_flat_eq] and the two public entry points over it. *)

From S2P Require Import Prelude.
From S2P Require Import Errors.
From S2P Require Import Temporal.
From S2P Require Import Projection.
From S2P Require Import Selector.
From S2P Require Import JsonSpool.
From S2P Require Import ScanTerm.
From S2P Require Import ScanState.
From S2P Require Import ScanInput.
From S2P Require Import JsonScan.
From S2P Require Import FlatProgram.
From S2P Require Import StreamProjection.
From S2P Require Import Stream.
From S2P Require Import StreamBatch.

(** What the callbacks, the allocator and the C library answer: the reader, the
    cancellation predicate, the clock ([clock_default] is whether it is [time(NULL)]),
    the allocator to the driver, to the scan and to the scans of batches, and the
    environments of the spool while it is filled and while it is written out. *)
Record stream_env := mk_stream_env {
  answers : list read_answer;
  cancels : list bool;
  clock : Z;
  clock_default : bool;
  driver_allocs : list bool;
  main_scan_allocs : list bool;
  batch_allocs : list (list bool);
  fill_env : spool_env;
  write_env : spool_env
}.

(** ** Plans *)

(** [n] allocations, tried all. *)
Definition allocate_all (n : nat) (allocs : list bool) : bool * list bool :=
  (forallb id (take n allocs), drop n allocs).

(** The allocations of [lql_flat_eq_program_init]: the groups in turn, the arrays of
    a group all tried. *)
Definition lql_flat_eq_program_init (term_count : Z) (capture_count mutation_count : nat)
    (allocs : list bool) : bool * list bool :=
  let '(ok, allocs) := allocate_all (if term_count =? 0 then 0 else 4) allocs in
  if negb ok then (false, allocs)
  else
    let '(ok, allocs) := allocate_all (if (capture_count =? 0)%nat then 0 else 2) allocs in
    if negb ok then (false, allocs)
    else allocate_all (if (mutation_count =? 0)%nat then 0 else 2) allocs.

(** The dates of the clock. *)
Definition stream_time_bounds (env : stream_env) : lql_flat_eq_time_bounds :=
  let now := clock env in
  let failed := clock_default env && (now =? -1) in
  mk_time_bounds (if failed then None else lql_temporal_from_time_t now false)
    (if failed then None else lql_temporal_from_time_t now true)
    (if failed || (now <? - 2 ^ 63 + 86400) then None
     else lql_temporal_from_seconds (now - 86400) true).

Section apply.
Context {X : Type} (address : list nat -> Z) (parse_double : bytes -> option spec_float).
Context (range_double : lql_selector -> bound_key -> spec_float).
Context (mutation_emit : W unit) (projection_then_mutation_emit : list lql_json_capture_span -> W unit).
Implicit Types (request : lql_stream_request X).

Definition with_projection request : bool :=
  mode_is request LQL_STREAM_OUTPUT_PROJECTION ||
  mode_is request LQL_STREAM_OUTPUT_PROJECTION_THEN_MUTATION.

Definition with_mutation request : bool :=
  mode_is request LQL_STREAM_OUTPUT_MUTATION ||
  mode_is request LQL_STREAM_OUTPUT_PROJECTION_THEN_MUTATION.

Definition mode_known request : bool :=
  match output_mode request with LQL_STREAM_OUTPUT_OTHER _ => false | _ => true end.

Definition lql_flat_eq_eligible request : bool :=
  let projection := bool_decide (is_Some (stream_projection request)) in
  let mutation := bool_decide (is_Some (stream_mutation request)) in
  mode_known request &&
  negb (negb (with_mutation request) && mutation) &&
  negb (mode_is request LQL_STREAM_OUTPUT_MUTATION && projection) &&
  negb (mode_is request LQL_STREAM_OUTPUT_PROJECTION_THEN_MUTATION && negb (projection && mutation)).

(** The selector with NULL as in its functions. *)
Definition term_capacity request : option Z :=
  match stream_selector request with
  | Some s => lql_flat_eq_selector_term_count s
  | None => Some 0
  end.

Definition capture_capacity request : nat :=
  match stream_projection request with
  | Some p => if with_projection request then length (paths p) else 0%nat
  | None => 0%nat
  end.

Definition mutation_capacity request : nat :=
  match stream_mutation request with
  | Some m => if with_mutation request then action_count m else 0%nat
  | None => 0%nat
  end.

(** A program ready to scan. *)
Record stream_program := mk_stream_program {
  sp_terms : list lql_json_flat_eq_term;
  sp_index : selector_index;
  sp_nodes : list (list nat);
  sp_keys : list (list bytes);
  sp_scan : list lql_json_flat_eq_term * list nat
}.

(** More terms or keys than bits in a word. *)
Definition batched (p : stream_program) : bool :=
  (LQL_FLAT_EQ_TERM_CAPACITY <? length (sp_terms p))%nat ||
  (LQL_FLAT_EQ_TERM_CAPACITY <? length (sp_keys p))%nat.

(** Batched, but the distinct terms and the keys fit. *)
Definition aliased (p : stream_program) : bool :=
  batched p && (length (fst (sp_scan p)) <=? LQL_FLAT_EQ_TERM_CAPACITY)%nat &&
  (length (sp_keys p) <=? LQL_FLAT_EQ_TERM_CAPACITY)%nat.

(** The program that answers the selector. *)
Definition sp_program (p : stream_program) : lql_flat_eq_program :=
  mk_program (sp_index p) (if batched p then Some (snd (sp_scan p)) else None) (sp_nodes p).

(** How the plan of a request ends: not handled here, a failure ([handled] or not), or
    a program with the allocator's answers after it. *)
Inductive planned :=
  | Unhandled
  | Failed (status : lql_status) (message : string) (handled : bool)
  | Planned (p : stream_program) (allocs : list bool).

(** The dates, when the selector has a macro for one. *)
Definition request_time_bounds request (env : stream_env) : option lql_flat_eq_time_bounds :=
  match stream_selector request with
  | Some s => if lql_flat_eq_selector_needs_time s then Some (stream_time_bounds env) else None
  | None => None
  end.

(** The program of the request; [None] when a probe of its index does not end. *)
Definition plan request (env : stream_env) (allow_spool : bool) : option planned :=
  if negb (lql_flat_eq_eligible request) then Some Unhandled
  else
    match term_capacity request with
    | None => Some Unhandled
    | Some term_count =>
        if negb allow_spool &&
           ((Z.of_nat LQL_FLAT_EQ_TERM_CAPACITY <? term_count) ||
            (LQL_FLAT_EQ_TERM_CAPACITY <? capture_capacity request)%nat) then Some Unhandled
        else
          let '(ok, allocs) := lql_flat_eq_program_init term_count (capture_capacity request)
                                 (mutation_capacity request) (driver_allocs env) in
          if negb ok then
            Some (Failed LQL_STATUS_NO_MEMORY "unable to allocate stream selector state" false)
          else
            let appended := match stream_selector request with
                            | Some s => lql_flat_eq_append range_double (request_time_bounds request env) [] [] s
                            | None => Some [] end in
            let keys := if with_projection request
                        then lql_flat_eq_projection_append (stream_projection request)
                        else Some [] in
            let mutable := match stream_mutation request with
                           | Some m => accepted m | None => false end in
            match appended, keys with
            | Some program, Some keys =>
                if with_mutation request && negb mutable then Some Unhandled
                else
                  match (if (mutation_capacity request =? 0)%nat then inr tt
                         else from_option preflight (inr tt) (stream_mutation request)) with
                  | inl (status, message) => Some (Failed status message true)
                  | inr _ =>
                      let '(ok, allocs) := allocate_all (if (length program =? 0)%nat then 0 else 2) allocs in
                      if negb ok then
                        Some (Failed LQL_STATUS_NO_MEMORY "unable to allocate stream selector index" false)
                      else
                        index ← lql_flat_eq_program_build_selector_index address (map snd program);
                        let p := mk_stream_program (map fst program) index (map snd program) keys
                                   (lql_flat_eq_program_build_scan_terms (map fst program)) in
                        let '(ok, allocs) :=
                          allocate_all (if batched p && negb (length program =? 0)%nat then 2 else 0)
                            allocs in
                        if negb ok then
                          Some (Failed LQL_STATUS_NO_MEMORY
                                  "unable to allocate stream selector scan state" false)
                        else if batched p && negb (aliased p) && negb allow_spool then Some Unhandled
                        else Some (Planned p allocs)
                  end
            | _, _ => Some Unhandled
            end
    end.

(** Every term must hit, which lets a record be decided before all its terms were
    scanned. *)
Definition all_terms_required request (p : stream_program) : bool :=
  batched p &&
  match stream_selector request with
  | Some s => bool_decide (lql_flat_eq_required_eq_count s 0 = Some (length (sp_terms p)))
  | None => false
  end.

(** The hits that settle the selector, 0 for none. *)
Definition program_stop_mask request (p : stream_program) : Z :=
  if batched p then 0
  else match stream_selector request with
       | Some s => lql_flat_eq_stop_mask (sp_program p) [] s
       | None => 0
       end.

Definition range_only_value request (allow_spool : bool) : bool :=
  negb allow_spool && bool_decide (is_Some (on_value request)) &&
  bool_decide (is_Some (range_writer request)) && input_is_compact request.

(** Whether the record is kept in a spool. *)
Definition captures request (p : stream_program) (allow_spool : bool) : bool :=
  allow_spool &&
  (bool_decide (is_Some (on_value request)) && negb (range_only_value request allow_spool) ||
   mode_is request LQL_STREAM_OUTPUT_SELECTED_RECORD || with_projection request ||
   mode_is request LQL_STREAM_OUTPUT_MUTATION) ||
  batched p && negb (aliased p).

(** The request of the scan. *)
Definition scan_request request (p : stream_program) (spool : option lql_json_spool)
    : lql_json_flat_eq_request :=
  let '(terms, keys) :=
    if batched p then if aliased p then (fst (sp_scan p), sp_keys p) else ([], [])
    else (sp_terms p, sp_keys p) in
  let mask := program_stop_mask request p in
  mk_request terms spool (bool_decide (is_Some spool)) (negb (mask =? 0)) mask keys
    (max_records (limits request)) (max_bytes (limits request)) true.

(** ** Records *)

(** [lql_flat_eq_record_words]; [None] when a probe of the index does not end. *)
Definition lql_flat_eq_record_words request (p : stream_program) (spool : option lql_json_spool)
    (call : record_call) (hits : list Z) : B (X := X) unit := fun s =>
  matched ← match stream_selector request with
            | Some selector =>
                lql_flat_eq_matches_record address (sp_program p) hits (root_is_object call) [] selector
            | None => Some true
            end;
  Some (decided_record request mutation_emit projection_then_mutation_emit (sp_keys p) call spool
          matched s).

(** The record callback of the scan: [lql_flat_eq_record], [lql_flat_eq_alias_record]
    or [lql_flat_eq_batched_record]. *)
Definition record_callback request (p : stream_program) (capturing : bool) (call : record_call)
    : B (X := X) unit :=
  let spool := if capturing then Some (record_spool call) else None in
  let words := lql_flat_eq_record_words request p spool in
  if batched p && negb (aliased p) then
    lql_flat_eq_batched_record parse_double (fst (sp_scan p)) (snd (sp_scan p)) (sp_keys p)
      (all_terms_required request p) (matched_only request) words call
  else fun s => words call [record_hits call] (with_spans (record_spans call) s).

(** As the scan calls it; [None] from a call that does not end on. *)
Definition scan_callback (callback : record_call -> B (X := X) unit) (call : record_call)
    (state : option (@flat_eq_state X)) : lql_status * option (@flat_eq_state X) :=
  match state ≫= callback call with
  | Some (inr _, s) => (LQL_STATUS_OK, Some s)
  | Some (inl status, s) => (status, Some s)
  | None => (LQL_STATUS_STOP, None)
  end.

(** ** The application *)

Record applied := mk_applied {
  apply_status : lql_status;
  apply_handled : bool;
  apply_state : @flat_eq_state X
}.

Definition stop_early (reason : lql_stream_stop_reason) (r : lql_stream_result) : lql_stream_result :=
  mk_result (records_seen r) (records_matched r) (bytes_consumed r) true reason.

(** The reason for a stop of the scan that no record gave. *)
Definition stop_reason_of request (status : lql_status) (limit_stop cancelled : bool)
    (r : lql_stream_result) : lql_stream_result :=
  let stop := bool_decide (status = LQL_STATUS_STOP) in
  let l := limits request in
  let r := if stop && negb (stopped_early r) && limit_stop && negb (max_records l =? 0)%nat &&
              (max_records l <=? records_seen r)%nat
           then stop_early LQL_STREAM_STOP_RECORD_LIMIT r else r in
  let r := if stop && negb (stopped_early r) && limit_stop && negb (max_bytes l =? 0)%nat &&
              (max_bytes l <=? bytes_consumed r)%nat
           then stop_early LQL_STREAM_STOP_BYTE_LIMIT r else r in
  if stop && negb (stopped_early r) && cancelled then stop_early LQL_STREAM_STOP_CANCELLED r else r.

Definition consumed (n : nat) (r : lql_stream_result) : lql_stream_result :=
  mk_result (records_seen r) (records_matched r) n (stopped_early r) (stop_reason r).

(** What the end of the scan makes of the result. *)
Definition scan_ended request (e : @scan_end (option (@flat_eq_state X))) : option applied :=
  s ← end_user e;
  let error := scan_error (input (end_state e)) in
  let s := if bool_decide (code error = LQL_STATUS_OK) then s else with_error error s in
  let s := with_result (fun r => stop_reason_of request (end_status e) (limit_stop e)
             (out_cancelled (input (end_state e)))
             (consumed (bytes_read (input (end_state e))) r)) s in
  Some (mk_applied
          (if bool_decide (end_status e = LQL_STATUS_STOP) && stopped_early (result s)
           then LQL_STATUS_OK else end_status e) true s).

(** The spool of the records, [None] for none. *)
Definition record_spool_init (capturing : bool) (e : spool_env)
    : (failure + option lql_json_spool) * spool_env :=
  if capturing then
    match lql_json_spool_init_with_allocator (mk_spool None 0 None None 0) e with
    | (inl f, _, e) => (inl f, e)
    | (inr _, spool, e) => (inr (Some spool), e)
    end
  else (inr None, e).

(** [lql_stream_apply_flat_eq] *)
Definition lql_stream_apply_flat_eq request (env : stream_env) (allow_spool : bool) (user : X)
    : option applied :=
  let s := mk_state result_zero (write_env env) user lql_error_init [] (batch_allocs env) in
  let failed status message handled :=
    Some (mk_applied status handled (with_error (lql_set_error status (Some (bs message))) s)) in
  planned ← plan request env allow_spool;
  match planned with
  | Unhandled => Some (mk_applied LQL_STATUS_OK false s)
  | Failed status message handled => failed status message handled
  | Planned p allocs =>
      let capturing := captures request p allow_spool in
      match record_spool_init capturing (fill_env env) with
      | (inl (status, message), _) => failed status message true
      | (inr spool, e) =>
          let '(ok, _) := allocate (if batched p && negb (aliased p) then 1 else 0) allocs in
          if negb ok then
            failed LQL_STATUS_NO_MEMORY "unable to allocate stream selector hit state"%string true
          else
            let s := with_spans (repeat (mk_span 0 0 false) (length (sp_keys p))) s in
            end_ ← lql_json_scan_flat_eq_ndjson parse_double
                     (scan_callback (record_callback request p capturing))
                     (scan_request request p spool) (Some s) e (answers env) (cancels env)
                     (main_scan_allocs env);
            match end_ with
            | inl (status, message) => failed status message true
            | inr e => scan_ended request e
            end
      end
  end.

(** ** The entry points *)

(** The output modes that write. *)
Definition mode_writes request : bool :=
  mode_is request LQL_STREAM_OUTPUT_SELECTED_RECORD || with_projection request || with_mutation request.

(** The tests of [lql_stream_apply_common], in order: the status and the message of
    the first that fails. *)
Definition request_failure request (allow_spool : bool) : option failure :=
  let projection := bool_decide (is_Some (stream_projection request)) in
  let mutation := bool_decide (is_Some (stream_mutation request)) in
  if negb (reader_present request) then
    Some (LQL_STATUS_INVALID_ARGUMENT, "stream receiver, request, result, and reader are required"%string)
  else if negb (mode_known request) || mutation && negb (with_mutation request) then
    Some (LQL_STATUS_UNSUPPORTED, "direct stream output mode is not implemented"%string)
  else if mode_writes request && negb (writer_present request) then
    Some (LQL_STATUS_INVALID_ARGUMENT, "record output requires a writer"%string)
  else if mode_is request LQL_STREAM_OUTPUT_PROJECTION && negb projection then
    Some (LQL_STATUS_INVALID_ARGUMENT, "projection output requires a projection handle"%string)
  else if mode_is request LQL_STREAM_OUTPUT_MUTATION && negb mutation then
    Some (LQL_STATUS_INVALID_ARGUMENT, "mutation output requires a mutation handle"%string)
  else if mode_is request LQL_STREAM_OUTPUT_PROJECTION_THEN_MUTATION && negb (projection && mutation) then
    Some (LQL_STATUS_INVALID_ARGUMENT, "combined output requires projection and mutation handles"%string)
  else if negb allow_spool && (with_projection request || with_mutation request) then
    Some (LQL_STATUS_UNSUPPORTED, "streaming projection and mutation require an incremental emitter"%string)
  else if negb allow_spool &&
          (mode_is request LQL_STREAM_OUTPUT_SELECTED_RECORD ||
           bool_decide (is_Some (on_value request))) &&
          (negb (input_is_compact request) || bool_decide (range_writer request = None)) then
    Some (LQL_STATUS_UNSUPPORTED,
          "streaming selected values require compact input and a source range writer"%string)
  else None.

(** [lql_stream_apply_common] of a receiver, a request and a result. *)
Definition lql_stream_apply_common request (env : stream_env) (allow_spool : bool) (user : X)
    : option (lql_status * @flat_eq_state X) :=
  let s := mk_state result_zero (write_env env) user lql_error_init [] (batch_allocs env) in
  match request_failure request allow_spool with
  | Some (status, message) =>
      Some (status, with_error (lql_set_error status (Some (bs message))) s)
  | None =>
      a ← lql_stream_apply_flat_eq request env allow_spool user;
      if negb (bool_decide (apply_status a = LQL_STATUS_OK)) || apply_handled a
      then Some (apply_status a, apply_state a)
      else
        Some (LQL_STATUS_UNSUPPORTED,
              with_error (lql_set_error LQL_STATUS_UNSUPPORTED
                (Some (bs "direct stream selector is not implemented by scanner"))) (apply_state a))
  end.

Definition lql_stream_apply request (env : stream_env) (user : X) :=
  lql_stream_apply_common request env false user.

Definition lql_stream_apply_spooled request (env : stream_env) (user : X) :=
  lql_stream_apply_common request env true user.
End apply.
