(* ===== verification/StreamProps.v ===== *)
(** * What an application selects (src/lql_stream.c, src/lql_stream_flat_eq.c)

    The counters and the output of an application, by the boolean reading of the
    selector on the JSON values of the records. *)

From S2P Require Import Prelude.
From S2P Require Import Errors.
From S2P Require Import Selector.
From S2P Require Import SelectorJsonProps.
From S2P Require Import JsonSpool.
From S2P Require Import SpoolProps.
From S2P Require Import ScanTerm.
From S2P Require Import ScanState.
From S2P Require Import ScanInput.
From S2P Require Import JsonScan.
From S2P Require Import FlatProgram.
From S2P Require Import JsonGrammar.
From S2P Require Import ScanSpan.
From S2P Require Import ScanLogic.
From S2P Require Import ScanSound.
From S2P Require Import ScanStream.
From S2P Require Import SelectorIndex.
From S2P Require Import FlatProgramProps.
From S2P Require Import JsonTree.
From S2P Require Import ScanMatches.
From S2P Require Import ScanGains.
From S2P Require Import ScanSelect.
From S2P Require Import StreamProjection.
From S2P Require Import Stream.
From S2P Require Import StreamBatch.
From S2P Require Import StreamApply.

(** A term whose matching is that of bytes along plain keys. *)
Definition exact_term (t : lql_json_flat_eq_term) : bool := byte_kind t && plain_path_b t.

(** ** Counters *)

Section counters.
Context {X : Type} (request : lql_stream_request X).
Context (mutation_emit : W unit) (projection_then_mutation_emit : list lql_json_capture_span -> W unit).
Implicit Types (s : @flat_eq_state X).

Definition counters s : nat * nat := (records_seen (result s), records_matched (result s)).

(** A step that does not count. *)
Definition uncounted (m : R (X := X) unit) : Prop := forall s, counters (snd (m s)) = counters s.

Lemma uncounted_bind m (f : unit -> R (X := X) unit) :
  uncounted m -> (forall u, uncounted (f u)) -> uncounted (m ≫= f).
Proof.
  intros Hm Hf s. unfold mbind, R_bind. specialize (Hm s). destruct (m s) as [[st|u] s1]; [done|].
  cbn in Hm. by rewrite Hf.
Qed.

Lemma uncounted_fail status message : uncounted (fail_with status message).
Proof. done. Qed.

Lemma uncounted_ret : uncounted (mret tt).
Proof. done. Qed.

Lemma uncounted_status status : uncounted (return_status status).
Proof. done. Qed.

Lemma uncounted_output m : uncounted (run_output m).
Proof. intros s. unfold run_output. by destruct (m _) as [[[[] msg]|[]] e]. Qed.

Lemma uncounted_answered answer error message : uncounted (answered answer error message).
Proof.
  apply uncounted_bind; [done|]. intros []. destruct answer; [done|..]; (apply uncounted_bind; [|done]).
  - done.
  - intros s. unfold default_error, update. cbn. by case_match.
Qed.

Lemma uncounted_run (f : X -> lql_stream_callback_result * option lql_error * X) message :
  uncounted (fun s => let '(answer, error, x) := f (state_user s) in
                      answered answer error message (with_user x s)).
Proof. intros s. destruct (f (state_user s)) as [[answer error] x]. by rewrite uncounted_answered. Qed.

Lemma uncounted_projection keys spool : uncounted (emit_projection request keys spool).
Proof.
  intros s. unfold emit_projection. destruct (stream_projection request), spool; try done.
  case_match; [|done]. apply uncounted_output.
Qed.
End counters.

Create HintDb uncounted.
#[export] Hint Resolve uncounted_fail uncounted_ret uncounted_status uncounted_output uncounted_answered
  uncounted_projection : uncounted.

(** A step by its structure. *)
Ltac uncounted_step :=
  match goal with
  | |- uncounted (_ ≫= _) => apply uncounted_bind; [|intros ?]
  | |- uncounted (if ?b then _ else _) => destruct b
  | |- uncounted (match ?x with _ => _ end) => destruct x
  | |- uncounted _ => solve [auto with uncounted nocore]
  end.
Ltac uncounted := repeat uncounted_step.

Section record.
Context {X : Type} (request : lql_stream_request X).
Context (mutation_emit : W unit) (projection_then_mutation_emit : list lql_json_capture_span -> W unit).
Implicit Types (s : @flat_eq_state X).

Lemma uncounted_decide index matched : uncounted (decide_step request index matched).
Proof. unfold decide_step. uncounted. apply uncounted_run. Qed.

Lemma uncounted_value spool offset n compact matched :
  uncounted (value_step request spool offset n compact matched).
Proof. unfold value_step. uncounted. apply uncounted_run. Qed.

Lemma uncounted_selected spool offset n compact matched :
  uncounted (selected_step request spool offset n compact matched).
Proof. unfold selected_step, lql_flat_eq_emit_range, on_spool. uncounted. Qed.

Lemma uncounted_project keys object spool matched :
  uncounted (projection_step request keys object spool matched).
Proof. unfold projection_step. uncounted. Qed.

Lemma uncounted_mutation keys object spool matched :
  uncounted (mutation_step request mutation_emit projection_then_mutation_emit keys object spool matched).
Proof.
  intros s. unfold mutation_step, mutate, on_spool.
  repeat match goal with |- context [if ?b then _ else _] => destruct b | _ => destruct spool end;
    first [done|apply uncounted_output|apply uncounted_projection].
Qed.

Lemma uncounted_limit matched : uncounted (match_limit_step request matched).
Proof. intros s. unfold match_limit_step. by case_match. Qed.

(** A record counts once, and once more as matched. *)
Lemma decided_record_counters keys call spool matched s :
  counters (snd (decided_record request mutation_emit projection_then_mutation_emit keys call spool matched s)) =
  (S (fst (counters s)), if matched then S (snd (counters s)) else snd (counters s)).
Proof.
  unfold decided_record. unfold mbind at 1, R_bind at 1, count_record at 1, update at 1.
  assert (forall m : R (X := X) unit, uncounted m -> forall s', counters s' = (S (fst (counters s)),
    if matched then S (snd (counters s)) else snd (counters s)) -> counters (snd (m s')) =
    (S (fst (counters s)), if matched then S (snd (counters s)) else snd (counters s))) as H.
  { intros m Hm s' <-. apply Hm. }
  apply H; [|done].
  apply uncounted_bind; [apply uncounted_decide|intros _].
  apply uncounted_bind; [apply uncounted_value|intros _].
  apply uncounted_bind; [apply uncounted_selected|intros _].
  apply uncounted_bind; [apply uncounted_project|intros _].
  apply uncounted_bind; [apply uncounted_mutation|intros _]. apply uncounted_limit.
Qed.
End record.

(** ** The selector of a request *)

Lemma hit_word hits i : (i < LQL_FLAT_EQ_TERM_CAPACITY)%nat -> lql_flat_eq_hit [hits] i = has hits i.
Proof. intros H. unfold lql_flat_eq_hit. by rewrite Nat.div_small, Nat.mod_small by done. Qed.

(** Scan terms are terms. *)
Lemma scan_terms_among P terms : Forall P terms -> forall scan_terms sources, Forall P scan_terms ->
  Forall P (fst (build_scan_terms terms scan_terms sources)).
Proof.
  induction 1 as [|t terms Ht _ IH]; intros scan_terms sources Hs; [done|]. cbn.
  case_match; apply IH; [done|]. apply list.Forall_app. split; [done|by constructor].
Qed.

(** Equivalent terms hold of the same values. *)
Lemma equivalent_holds t u v : lql_flat_eq_scan_term_equivalent t u = true -> term_holds t v = term_holds u v.
Proof.
  unfold lql_flat_eq_scan_term_equivalent. rewrite !andb_true_iff, !bytes_eqb_eq, bool_decide_eq_true.
  intros [[[[[[[[[[Hk _] _] _] _] _] _] _] _] Hp] Hv]. unfold term_holds. rewrite Hp. f_equal.
  unfold term_test. by rewrite Hk, Hv.
Qed.

Section apply.
Context {X : Type} (address : list nat -> Z) (parse_double : bytes -> option spec_float).
Context (range_double : lql_selector -> bound_key -> spec_float).
Context (mutation_emit : W unit) (projection_then_mutation_emit : list lql_json_capture_span -> W unit).
Context (request : lql_stream_request X) (env : stream_env).

(** The selector of the request holds of a value; no selector holds of all. *)
Definition selects (v : json) : bool :=
  match stream_selector request with
  | Some s => selector_holds range_double (request_time_bounds request env) (is_object v)
                (fun t => term_holds t v) s
  | None => true
  end.

(** A program compiled from the selector of the request. *)
Record compiles (p : stream_program) : Prop := {
  cp_scan : sp_scan p = lql_flat_eq_program_build_scan_terms (sp_terms p);
  cp_program : exists program,
    match stream_selector request with
    | Some s => lql_flat_eq_append range_double (request_time_bounds request env) [] [] s
    | None => Some []
    end = Some program /\ sp_terms p = map fst program /\ sp_nodes p = map snd program /\
    lql_flat_eq_program_build_selector_index address (map snd program) = Some (sp_index p)
}.

(** The scan of the stream matches all terms. *)
Definition narrow (p : stream_program) : bool := negb (batched p && negb (aliased p)).

Lemma plan_compiles allow_spool p allocs : plan address range_double request env allow_spool = Some (Planned p allocs) ->
  compiles p /\ (allow_spool = false -> narrow p = true).
Proof.
  unfold plan. destruct (negb (lql_flat_eq_eligible request)); [done|].
  destruct (term_capacity request) as [n|]; [|done].
  destruct (negb allow_spool && (_ || _)); [done|].
  destruct (lql_flat_eq_program_init _ _ _ _) as [[] allocs1]; cbn [negb]; [|done].
  destruct (match stream_selector request with Some _ => _ | None => _ end) as [program|] eqn:Ep; [|done].
  destruct (if with_projection request then _ else _) as [keys|]; [|done].
  destruct (with_mutation request && negb _); [done|].
  destruct (if (mutation_capacity request =? 0)%nat then _ else _) as [[]|[]]; [done|].
  destruct (allocate_all _ _) as [[] allocs2]; cbn [negb]; [|done].
  destruct (lql_flat_eq_program_build_selector_index _ _) as [index|] eqn:Ei; [|done]. cbn [mbind option_bind].
  set (q := mk_stream_program _ _ _ _ _).
  destruct (allocate_all _ _) as [[] allocs3]; cbn [negb]; [|done].
  destruct (batched q && negb (aliased q) && negb allow_spool) eqn:Ew; [done|]. intros [= <- _]. split.
  - split; [done|]. by exists program.
  - intros ->. rewrite andb_true_r in Ew. unfold narrow. by rewrite Ew.
Qed.

(** The terms that are scanned are those of the program. *)
Lemma scanned_terms p spool : compiles p -> narrow p = true ->
  req_terms (scan_request request p spool) = if batched p then fst (sp_scan p) else sp_terms p.
Proof.
  intros _ Hn. unfold narrow in Hn. unfold scan_request. destruct (batched p); [|done].
  cbn in Hn. by rewrite (negb_true_iff _), negb_false_iff in Hn; rewrite Hn.
Qed.

Lemma scanned_forall P p spool : compiles p -> narrow p = true -> Forall P (sp_terms p) ->
  Forall P (req_terms (scan_request request p spool)).
Proof.
  intros Hc Hn Hp. rewrite scanned_terms by done. destruct (batched p); [|done].
  rewrite (cp_scan _ Hc). by apply scan_terms_among.
Qed.

Lemma compiled_built p : compiles p -> Forall built (sp_terms p).
Proof.
  intros [_ (program & He & -> & _)]. destruct (stream_selector request); [by eapply program_built|].
  injection He as <-. constructor.
Qed.

Lemma scanned_kinds p spool i term : compiles p -> narrow p = true -> forallb exact_term (sp_terms p) = true ->
  req_terms (scan_request request p spool) !! i = Some term -> byte_kind term = true.
Proof.
  intros Hc Hn Hx Hi. assert (Forall (fun t => byte_kind t = true) (sp_terms p)) as Hall.
  { apply list.Forall_forall. intros t Hin. apply list_elem_of_In in Hin.
    rewrite forallb_forall in Hx. apply Hx, andb_true_iff in Hin. by destruct Hin. }
  eapply scanned_forall in Hall; [|done|done]. by eapply list.Forall_lookup in Hall.
Qed.

(** What a program is for: it was appended from the selector, and its index finds. *)
Definition answers_for (p : stream_program) (selector : lql_selector) (program : program_terms) : Prop :=
  lql_flat_eq_append range_double (request_time_bounds request env) [] [] selector = Some program /\
  sp_terms p = map fst program /\ sp_nodes p = map snd program /\
  finds address (sp_index p) (map snd program).

Lemma compiles_answers p selector : compiles p -> stream_selector request = Some selector ->
  exists program, answers_for p selector program.
Proof.
  intros [_ (program & He & Ht & Hn & Hi)] Es. rewrite Es in He. exists program. repeat (split; [done|]).
  destruct (append_ok _ _ selector _ _ _ He) as (new & Hnew & _ & Hc). cbn in Hnew. subst new.
  destruct (build_index_finds address _ Hc) as (index & Hb & Hf). rewrite Hi in Hb. by injection Hb as ->.
Qed.

Lemma term_at p selector program i t n : answers_for p selector program -> program !! i = Some (t, n) ->
  sp_terms p !! i = Some t.
Proof. intros (_ & -> & _) H. apply list_lookup_fmap_Some. by exists (t, n). Qed.

(** Hits that stopped the matching. *)
Lemma stopped_select p spool selector program hits v object : answers_for p selector program ->
  stream_selector request = Some selector ->
  (length (req_terms (scan_request request p spool)) <= LQL_FLAT_EQ_TERM_CAPACITY)%nat ->
  (forall i term, req_terms (scan_request request p spool) !! i = Some term ->
    has hits i = true -> term_holds term v = true) ->
  stop_reached (scan_config_of (scan_request request p spool)) hits = true ->
  lql_flat_eq_matches_record address (sp_program p) [hits] object [] selector = Some true /\
  selects v = true.
Proof.
  intros Ha Es Hlen Hsound Hstop. unfold stop_reached in Hstop. apply andb_true_iff in Hstop as [Hon Hbits].
  unfold selects. rewrite Es. cbn in Hon, Hbits. unfold scan_request, program_stop_mask in *. rewrite Es in *.
  destruct (batched p) eqn:Eb; [by destruct (aliased p)|]. cbn in Hon, Hbits, Hlen, Hsound.
  apply negb_true_iff in Hon. rewrite Hon in Hbits. apply Z.eqb_neq in Hon. apply Z.eqb_eq in Hbits.
  assert (forall i, has (lql_flat_eq_stop_mask (sp_program p) [] selector) i = true -> has hits i = true) as Hbit.
  { intros i Hb. rewrite <- Hbits in Hb. unfold has in *. rewrite Z.land_spec in Hb. by apply andb_true_iff in Hb as []. }
  pose proof Ha as (He & Hterms & Hnodes & Hf). rewrite Hterms, length_map in Hlen. split.
  - eapply (stop_mask_matches range_double (request_time_bounds request env)) with (whole := program);
      [exact Hf|exact Hnodes|by cbn; rewrite Eb|exact He|apply around_whole|exact Hon|].
    intros i Hi Hb. rewrite hit_word by lia. auto.
  - eapply (stop_mask_ok range_double (request_time_bounds request env)) with (whole := program)
      (prog := sp_program p); [exact Hnodes|exact He|apply around_whole|exact Hon|].
    intros i Hi Hb t n Hl. apply (Hsound i t); [by eapply term_at|auto].
Qed.

(** Hits that tell every term. *)
Lemma told_select p spool selector program hits v : compiles p -> narrow p = true ->
  answers_for p selector program -> stream_selector request = Some selector ->
  (forall i term, req_terms (scan_request request p spool) !! i = Some term ->
    lql_flat_eq_hit [hits] i = term_holds term v) ->
  lql_flat_eq_matches_record address (sp_program p) [hits] (is_object v) [] selector = Some (selects v).
Proof.
  intros Hc Hn Ha Es Hhit. unfold selects. rewrite Es. pose proof Ha as (He & Hterms & Hnodes & Hf).
  eapply (evaluate_ok _ _ _ _ _ _ _ program); [exact Hf| |exact He|apply around_whole].
  intros i t n Hl. pose proof (term_at _ _ _ _ _ _ Ha Hl) as Hl'. rewrite scanned_terms in Hhit by done.
  unfold term_source. cbn. destruct (batched p) eqn:Eb; [|by apply Hhit].
  destruct (build_scan_terms_spec (sp_terms p) [] [] [] _ _ (surjective_pairing _)) as [Hs _]; [constructor|..].
  { intros a b x y _ H. by rewrite lookup_nil in H. }
  cbn in Hs. rewrite (cp_scan _ Hc) in *.
  destruct (Forall2_lookup_l _ _ _ _ _ Hs Hl') as (source & Hsource & u & Hu & Heq).
  rewrite (nth_lookup_Some _ _ _ _ Hsource). rewrite (Hhit _ _ Hu).
  destruct Heq as [->|Heq]; [done|]. symmetry. by apply equivalent_holds.
Qed.

(** The hits of a record decide it. *)
Lemma hits_select p spool v call selector : compiles p -> narrow p = true ->
  forallb exact_term (sp_terms p) = true ->
  (length (req_terms (scan_request request p spool)) <= LQL_FLAT_EQ_TERM_CAPACITY)%nat ->
  stream_selector request = Some selector -> root_is_object call = is_object v ->
  hits_for (scan_config_of (scan_request request p spool)) v (record_hits call) ->
  lql_flat_eq_matches_record address (sp_program p) [record_hits call] (root_is_object call) [] selector =
  Some (selects v).
Proof.
  intros Hc Hn Hx Hlen Es -> [Hsound Hcomplete].
  destruct (compiles_answers _ _ Hc Es) as (program & Ha).
  pose proof (fun i term Hi => scanned_kinds p spool i term Hc Hn Hx Hi) as Hkind.
  destruct (stop_reached (scan_config_of (scan_request request p spool)) (record_hits call)) eqn:Estop.
  - destruct (stopped_select p spool selector program (record_hits call) v (is_object v)) as [-> ->];
      try done. intros i term Hi. apply Hsound; [done|by eapply Hkind].
  - eapply told_select; [done..|]. intros i term Hl. pose proof (lookup_lt_Some _ _ _ Hl) as Hi.
    rewrite hit_word by (eapply Nat.lt_le_trans; [exact Hi|exact Hlen]).
    apply eq_true_iff_eq. split; [by apply Hsound, (Hkind i)|by apply (Hcomplete i); [|eapply Hkind|]].
Qed.

(** ** The calls *)

(** A call about a record that is [v], by the request. *)
Definition about (p : stream_program) (capturing : bool) (call : record_call) (v : json) : Prop :=
  json_of (record_text (pending (answers env)) call) v /\ forall s,
  record_callback address parse_double mutation_emit projection_then_mutation_emit request p capturing call s =
  Some (decided_record request mutation_emit projection_then_mutation_emit (sp_keys p) call
          (if capturing then Some (record_spool call) else None) (selects v)
          (with_spans (record_spans call) s)).

Lemma judged_about p spool capturing call : compiles p -> narrow p = true ->
  forallb exact_term (sp_terms p) = true ->
  (length (req_terms (scan_request request p spool)) <= LQL_FLAT_EQ_TERM_CAPACITY)%nat ->
  call_judged (scan_config_of (scan_request request p spool)) (pending (answers env)) call ->
  exists v, about p capturing call v.
Proof.
  intros Hc Hn Hx Hlen (v & Hv & Hroot & Hhits). exists v. split; [done|]. intros s.
  unfold record_callback. unfold narrow in Hn. apply negb_true_iff in Hn as Hn'. rewrite Hn'.
  unfold lql_flat_eq_record_words. destruct (stream_selector request) as [selector|] eqn:Es.
  - by rewrite (hits_select p spool v call selector).
  - cbn. unfold selects. by rewrite Es.
Qed.

(** The counters after the calls. *)
Lemma fed_counters p capturing calls s status u :
  ScanStream.fed (scan_callback (record_callback address parse_double mutation_emit
    projection_then_mutation_emit request p capturing)) (Some s) calls status u ->
  forall vs, Forall2 (about p capturing) calls vs -> exists s', u = Some s' /\
  counters s' = ((fst (counters s) + length vs)%nat, (snd (counters s) + length (List.filter selects vs))%nat).
Proof.
  set (callback := scan_callback _). intros F. remember (Some s) as state eqn:Es. revert s Es.
  assert (forall call v s st u, about p capturing call v -> callback call (Some s) = (st, u) ->
    exists s', u = Some s' /\ counters s' =
      (S (fst (counters s)), if selects v then S (snd (counters s)) else snd (counters s))) as Hstep.
  { intros call v s st u' [_ Hcall] Hcb. subst callback. unfold scan_callback in Hcb. cbn in Hcb.
    rewrite Hcall in Hcb.
    pose proof (decided_record_counters request mutation_emit projection_then_mutation_emit (sp_keys p) call
      (if capturing then Some (record_spool call) else None) (selects v) (with_spans (record_spans call) s)) as H.
    destruct (decided_record _ _ _ _ _ _ _ _) as [[st'|[]] s']; injection Hcb as <- <-; eauto. }
  induction F as [u|u call status u' Hc _|u call u' calls status u'' Hc _ IH]; intros s -> vs Hvs.
  - inversion Hvs; subst. exists s. split; [done|]. cbn. by rewrite !Nat.add_0_r.
  - inversion Hvs as [|? v ? ? Hv Hnil]; subst. inversion Hnil; subst.
    destruct (Hstep _ _ _ _ _ Hv Hc) as (s' & -> & Hs). exists s'. split; [done|]. rewrite Hs. cbn.
    f_equal; [lia|]. destruct (selects v); cbn; lia.
  - inversion Hvs as [|? v ? vs' Hv Hvs']; subst.
    destruct (Hstep _ _ _ _ _ Hv Hc) as (s' & -> & Hs). destruct (IH s' eq_refl vs' Hvs') as (s2 & -> & Hs2).
    exists s2. split; [done|]. rewrite Hs2, Hs. cbn. f_equal; [lia|]. destruct (selects v); cbn; lia.
Qed.

Lemma scanned_plain p spool : compiles p -> narrow p = true -> forallb exact_term (sp_terms p) = true ->
  Forall plain_term (req_terms (scan_request request p spool)) /\
  Forall contains_ready (req_terms (scan_request request p spool)).
Proof.
  intros Hc Hn Hx. pose proof (compiled_built p Hc) as Hb.
  split; (apply scanned_forall; [done|done|]); apply list.Forall_forall; intros t Hin;
    rewrite list.Forall_forall in Hb; specialize (Hb t Hin).
  - apply built_plain; [done|]. apply list_elem_of_In in Hin. rewrite forallb_forall in Hx.
    by apply Hx, andb_true_iff in Hin as [].
  - by apply built_ready.
Qed.

(** How an application came to end in state [s] with [status]: the calls of the record
    callback, each about its value, and the state they led to. *)
Definition ran (p : stream_program) (capturing : bool) (status : lql_status) (s : @flat_eq_state X) : Prop :=
  exists cfg calls rest vs s0 s1 answer, writing cfg = capturing /\
    records (content := appendable) cfg 0 0 (pending (answers env)) calls rest /\
    Forall2 (about p capturing) calls vs /\
    counters s0 = (0%nat, 0%nat) /\ state_env s0 = write_env env /\
    ScanStream.fed (scan_callback (record_callback address parse_double mutation_emit
      projection_then_mutation_emit request p capturing)) (Some s0) calls answer (Some s1) /\
    counters s = counters s1 /\ state_env s = state_env s1 /\
    (status = LQL_STATUS_OK -> stopped_early (result s) = false -> spaces rest /\ answer = LQL_STATUS_OK).

(** Nothing was scanned. *)
Lemma ran_none p capturing status s : counters s = (0%nat, 0%nat) -> state_env s = write_env env ->
  status <> LQL_STATUS_OK -> ran p capturing status s.
Proof.
  intros Hc He Hs. exists (mk_config capturing false [] [] false 0 false false false false 0 0 0 0).
  exists [], (pending (answers env)), [], s, s, LQL_STATUS_OK. split; [done|]. split; [constructor|].
  split; [constructor|]. split; [done|]. split; [done|]. split; [constructor|]. done.
Qed.

Lemma spool_init_spec capturing e : match record_spool_init capturing e with
  | (inl (status, _), _) => status <> LQL_STATUS_OK
  | (inr spool, _) => spool = (if capturing then Some fresh_spool else None)
  end.
Proof.
  unfold record_spool_init. destruct capturing; [|done]. unfold lql_json_spool_init_with_allocator, mbind, W_bind.
  cbn. by destruct (default true _).
Qed.

Lemma scan_failure_status {U} (record : record_call -> U -> lql_status * U) r u e l c al status message :
  lql_json_scan_flat_eq_ndjson parse_double record r u e l c al = Some (inl (status, message)) ->
  status <> LQL_STATUS_OK.
Proof.
  unfold lql_json_scan_flat_eq_ndjson. cbv zeta.
  destruct (_ || _); [by intros [= <- _]|].
  destruct (allocate 1 al) as [[] al1]; cbn [negb]; [|by intros [= <- _]].
  destruct (lql_json_scan_prepare _ al1) as [[] al2]; cbn [negb]; [|by intros [= <- _]].
  destruct (if flat_eq_has_recursive_terms _ then _ else _) as [[] al3]; cbn [negb]; [|by intros [= <- _]].
  by destruct (ndjson_loop _ _ _ _ _ _ _ _ _ _).
Qed.

Lemma counters_stop_reason status limit cancel r :
  records_seen (stop_reason_of request status limit cancel r) = records_seen r /\
  records_matched (stop_reason_of request status limit cancel r) = records_matched r.
Proof. unfold stop_reason_of. cbv zeta. repeat case_if; done. Qed.

Lemma scan_ended_spec e s a : end_user e = Some s -> scan_ended request e = Some a ->
  counters (apply_state a) = counters s /\ state_env (apply_state a) = state_env s /\
  apply_handled a = true /\
  (apply_status a = LQL_STATUS_OK -> stopped_early (result (apply_state a)) = false ->
   end_status e = LQL_STATUS_OK).
Proof.
  unfold scan_ended. intros ->. cbn [mbind option_bind]. set (s1 := if bool_decide _ then s else _).
  intros [= <-]. cbn. split; [|split; [by subst s1; case_match|split; [done|]]].
  - unfold counters. cbn.
    destruct (counters_stop_reason (end_status e) (limit_stop e) (out_cancelled (input (end_state e)))
      (consumed (bytes_read (input (end_state e))) (result s1))) as [-> ->].
    subst s1. by case_match.
  - set (r := stop_reason_of _ _ _ _ _). destruct (stopped_early r); [done|]. by rewrite andb_false_r.
Qed.

(** The scan of the records. *)
Lemma scan_ran p (capturing : bool) spool s0 e0 allocs e a : compiles p -> narrow p = true ->
  forallb exact_term (sp_terms p) = true -> Forall byte_range (pending (answers env)) ->
  counters s0 = (0%nat, 0%nat) -> state_env s0 = write_env env -> spool = (if capturing then Some fresh_spool else None) ->
  lql_json_scan_flat_eq_ndjson parse_double
    (scan_callback (record_callback address parse_double mutation_emit projection_then_mutation_emit
       request p capturing))
    (scan_request request p spool) (Some s0) e0 (answers env) (cancels env) allocs = Some (inr e) ->
  scan_ended request e = Some a ->
  apply_handled a = true /\ ran p capturing (apply_status a) (apply_state a).
Proof.
  intros Hc Hn Hx Hbytes H0 He0 -> Hscan Hend.
  destruct (scanned_plain p (if capturing then Some fresh_spool else None) Hc Hn Hx) as [Hp Hr].
  assert (req_spool (scan_request request p (if capturing then Some fresh_spool else None)) =
    (if capturing then Some fresh_spool else None)) as Hspool.
  { unfold scan_request. by destruct (batched p), (aliased p). }
  assert (writing (scan_config_of (scan_request request p (if capturing then Some fresh_spool else None))) =
    capturing) as Hwriting.
  { unfold scan_request. by destruct (batched p), (aliased p), capturing. }
  set (r := scan_request _ _ _) in *.
  assert (forall spool, req_spool r = Some spool -> req_capture r = true -> exists c, appendable c spool) as Hfresh.
  { intros spool Es _. rewrite Hspool in Es. exists []. destruct capturing; [|done]. injection Es as <-.
    exact fresh_appendable. }
  destruct (scan_selects _ _ _ _ _ _ _ _ _ Hp Hr Hbytes Hfresh Hscan)
    as (calls & rest & status & Hrec & F & Hj & Hlast & Hrest).
  destruct (scan_runs _ _ _ _ _ _ _ _ _ Hbytes Hfresh Hscan) as (_ & _ & Hlen & _).
  assert (exists vs, Forall2 (about p capturing) calls vs) as [vs Hvs].
  { clear -Hj Hc Hn Hx Hlen. induction Hj as [|call calls Hcall _ [vs IH]]; [by exists []|].
    destruct (judged_about p _ capturing call Hc Hn Hx Hlen Hcall) as [v Hv]. exists (v :: vs). by constructor. }
  destruct (fed_counters p capturing _ _ _ _ F vs Hvs) as (s1 & Hu & _). rewrite Hu in F.
  destruct (scan_ended_spec _ _ _ Hu Hend) as (Hcount & He & Hhandled & Hok). split; [done|].
  exists (scan_config_of r), calls, rest, vs, s0, s1, status. repeat (split; [done|]).
  intros Hst Hearly. specialize (Hok Hst Hearly). split.
  - apply Hrest; [done|]. subst r. unfold scan_request. by destruct (batched p), (aliased p).
  - destruct (decide (status = LQL_STATUS_OK)) as [|Hne]; [done|]. specialize (Hlast Hne). congruence.
Qed.

Lemma flat_eq_runs allow_spool user p allocs a : narrow p = true -> forallb exact_term (sp_terms p) = true ->
  Forall byte_range (pending (answers env)) ->
  plan address range_double request env allow_spool = Some (Planned p allocs) ->
  lql_stream_apply_flat_eq address parse_double range_double mutation_emit projection_then_mutation_emit
    request env allow_spool user = Some a ->
  apply_handled a = true /\ ran p (captures request p allow_spool) (apply_status a) (apply_state a).
Proof.
  intros Hn Hx Hbytes Hplan. destruct (plan_compiles _ _ _ Hplan) as [Hc _].
  unfold lql_stream_apply_flat_eq. rewrite Hplan. cbn [mbind option_bind].
  set (capturing := captures request p allow_spool).
  pose proof (spool_init_spec capturing (fill_env env)) as Hinit.
  destruct (record_spool_init capturing (fill_env env)) as [[[st msg]|spool] e0].
  { intros [= <-]. split; [done|]. by apply ran_none. }
  destruct (allocate _ allocs) as [[] allocs2]; cbn [negb].
  2:{ intros [= <-]. split; [done|]. by apply ran_none. }
  destruct (lql_json_scan_flat_eq_ndjson _ _ _ _ _ _ _ _) as [[[st msg]|e]|] eqn:Escan; cbn [mbind option_bind]; [| |done].
  - intros [= <-]. split; [done|]. apply ran_none; [done|done|]. by eapply scan_failure_status.
  - intros Hend. eapply scan_ran; [exact Hc|exact Hn|exact Hx|exact Hbytes| | |exact Hinit|exact Escan|exact Hend]; done.
Qed.

Lemma common_runs allow_spool user p allocs status s : Forall byte_range (pending (answers env)) ->
  plan address range_double request env allow_spool = Some (Planned p allocs) ->
  narrow p = true -> forallb exact_term (sp_terms p) = true ->
  lql_stream_apply_common address parse_double range_double mutation_emit projection_then_mutation_emit
    request env allow_spool user = Some (status, s) ->
  ran p (captures request p allow_spool) status s.
Proof.
  intros Hbytes Hplan Hn Hx. unfold lql_stream_apply_common.
  destruct (request_failure request allow_spool) as [[st msg]|] eqn:Ef.
  { intros [= <- <-]. apply ran_none; [done|done|]. unfold request_failure in Ef.
    by repeat case_match; simplify_eq. }
  intros (a & Ha & H)%bind_Some. destruct (flat_eq_runs _ _ _ _ _ Hn Hx Hbytes Hplan Ha) as [Hh Hd].
  rewrite Hh, orb_true_r in H. by injection H as <- <-.
Qed.
End apply.

(** C1. Whatever the callbacks, the limits and the answers of the environment: an
    application whose selector compiles to terms that compare bytes along plain keys
    ([exact_term]: no numbers, ranges, dates, case-insensitive kinds, array indexes,
    wildcards, recursion or escaped keys), which one scan can match ([narrow]: at most
    64 different terms and 64 keys of a projection), counts as seen the records of the input in order, each a JSON value, and counts as
    matched those whose JSON tree the boolean reading of the selector holds of; and
    when it ends well without a stop it has read the whole input. *)
Theorem stream_decides {X} address parse_double range_double mutation_emit projection_then_mutation_emit
    (request : lql_stream_request X) (env : stream_env) (allow_spool : bool) (user : X) p allocs status s :
  Forall byte_range (pending (answers env)) ->
  plan address range_double request env allow_spool = Some (Planned p allocs) ->
  narrow p = true -> forallb exact_term (sp_terms p) = true ->
  lql_stream_apply_common address parse_double range_double mutation_emit projection_then_mutation_emit
    request env allow_spool user = Some (status, s) ->
  exists cfg calls rest vs, writing cfg = captures request p allow_spool /\
    records (content := appendable) cfg 0 0 (pending (answers env)) calls rest /\
    Forall2 (fun call v => json_of (record_text (pending (answers env)) call) v) calls vs /\
    records_seen (result s) = length vs /\
    records_matched (result s) = length (List.filter (selects range_double request env) vs) /\
    (status = LQL_STATUS_OK -> stopped_early (result s) = false -> spaces rest).
Proof.
  intros Hbytes Hplan Hn Hx Happly.
  destruct (common_runs _ _ _ _ _ _ _ _ _ _ _ _ _ Hbytes Hplan Hn Hx Happly) as
    (cfg & calls & rest & vs & s0 & s1 & answer & Hw & Hrec & Hvs & H0 & _ & F & Hc & _ & Hok).
  destruct (fed_counters _ _ _ _ _ _ _ _ _ _ _ _ _ F vs Hvs) as (s2 & [= <-] & Hs1).
  rewrite H0, <- Hc in Hs1. injection Hs1 as Hseen Hmatched.
  exists cfg, calls, rest, vs. split; [done|]. split; [exact Hrec|].
  split; [by eapply list.Forall2_impl; [exact Hvs|intros ? ? []]|]. split; [done|]. split; [done|].
  intros Hst Hearly. by apply Hok.
Qed.

(** ** A concrete stream *)

(** A text with ' for the quotes. *)
Definition jbs (s : string) : bytes := map (fun c => if c =? 39 then ch_quote else c) (bs s).

(** Three records in three reads, the first cut in its middle. *)
Definition demo_reads : list read_answer :=
  map (mk_answer LQL_STATUS_OK None)
    [jbs "{ 'a' : 'x' , 'b'"; jbs " : 1 }" ++ [ch_nl] ++ jbs " {'a': 'x', 'c': [1, 2]}" ++ [ch_nl];
     jbs "{'a': 'y'}" ++ [ch_nl]].

Definition demo_stream_env : stream_env :=
  mk_stream_env demo_reads [] 0 false [] [] [] (mk_env [] [] [] []) (mk_env [] [] [] []).

(** A request for the records that [s] selects. *)
Definition demo_stream_request (mode : lql_stream_output_mode) (s : lql_selector) : lql_stream_request unit :=
  mk_stream_request (Some s) None None mode true (mk_limits 0 0 0) false true true None None None.

Definition no_output : W unit := mret tt.
Definition no_number (_ : bytes) : option spec_float := None.

#[local] Abbreviation demo_plan s := (plan (fun _ => 0) no_double (demo_stream_request LQL_STREAM_OUTPUT_DECISION_ONLY s)
  demo_stream_env false).
#[local] Abbreviation demo_apply s := (lql_stream_apply_common (fun _ => 0) no_number no_double no_output (fun _ => no_output)
  (demo_stream_request LQL_STREAM_OUTPUT_DECISION_ONLY s) demo_stream_env false tt).

Definition planned_program (o : option planned) : stream_program :=
  match o with Some (Planned p _) => p | _ => mk_stream_program [] (mk_index [] []) [] [] ([], []) end.

Definition seen_and_matched {X} (o : option (lql_status * @flat_eq_state X)) : option (lql_status * nat * nat * bool) :=
  match o with
  | Some (status, s) => Some (status, records_seen (result s), records_matched (result s), stopped_early (result s))
  | None => None
  end.

Lemma seen_inv {X} (o : option (lql_status * @flat_eq_state X)) status n m b :
  seen_and_matched o = Some (status, n, m, b) ->
  exists s, o = Some (status, s) /\ records_seen (result s) = n /\ records_matched (result s) = m /\
    stopped_early (result s) = b.
Proof. destruct o as [[st s]|]; [|done]. intros [= <- <- <- <-]. by exists s. Qed.

Lemma demo_decisions : seen_and_matched (demo_apply a_without_b) = Some (LQL_STATUS_OK, 3%nat, 1%nat, false).
Proof. vm_compute. reflexivity. Qed.

Lemma demo_planned : demo_plan a_without_b = Some (Planned (planned_program (demo_plan a_without_b)) []).
Proof. vm_compute. reflexivity. Qed.

(** One of the three records has [/a="x"] and no [/b]. *)
Lemma stream_decides_witness : exists cfg calls rest vs,
  records (content := appendable) cfg 0 0 (pending demo_reads) calls rest /\ spaces rest /\ length vs = 3%nat /\
  Forall2 (fun call v => json_of (record_text (pending demo_reads) call) v) calls vs /\
  length (List.filter (selects no_double (demo_stream_request LQL_STREAM_OUTPUT_DECISION_ONLY a_without_b)
    demo_stream_env) vs) = 1%nat.
Proof.
  destruct (seen_inv _ _ _ _ _ demo_decisions) as (s & E & Hseen & Hmatched & Hearly).
  destruct (stream_decides (fun _ => 0) no_number no_double no_output (fun _ => no_output)
    (demo_stream_request LQL_STREAM_OUTPUT_DECISION_ONLY a_without_b) demo_stream_env false tt
    (planned_program (demo_plan a_without_b)) [] LQL_STATUS_OK s)
    as (cfg & calls & rest & vs & _ & Hrec & Hvs & Hn & Hm & Hok).
  - apply is_byte_forall. vm_compute. reflexivity.
  - exact demo_planned.
  - vm_compute. reflexivity.
  - vm_compute. reflexivity.
  - exact E.
  - exists cfg, calls, rest, vs. split; [exact Hrec|]. split; [apply Hok; [reflexivity|exact Hearly]|].
    split; [by rewrite <- Hn|]. split; [exact Hvs|]. by rewrite <- Hm.
Defined.
