(* ===== verification/StreamFilter.v ===== *)
(** * What an application writes (src/lql_stream.c, src/lql_stream_flat_eq.c)

    The output of a spooled application that writes selected records: the compact
    texts of the records that the selector holds of, a line each. *)

From S2P Require Import Prelude.
From S2P Require Import Errors.
From S2P Require Import Selector.
From S2P Require Import SelectorJsonProps.
From S2P Require Import JsonSpool.
From S2P Require Import SpoolProps.
From S2P Require Import ScanTerm.
From S2P Require Import ScanState.
From S2P Require Import ScanInput.
From S2P Require Import JsonScan.
From S2P Require Import FlatProgram.
From S2P Require Import ScanSpan.
From S2P Require Import ScanLogic.
From S2P Require Import JsonGrammar.
From S2P Require Import ScanStream.
From S2P Require Import FlatProgramProps.
From S2P Require Import JsonTree.
From S2P Require Import ScanSelect.
From S2P Require Import StreamProjection.
From S2P Require Import Stream.
From S2P Require Import StreamBatch.
From S2P Require Import StreamApply.
From S2P Require Import StreamProps.

(** ** The text of a spool *)

(** A failure is never of the status OK. *)
Definition fails_loud {A} (m : W A) : Prop := forall s e, match (m s e).1.1 with
  | inl (LQL_STATUS_OK, _) => False
  | _ => True
  end.

Lemma loud_bind {A B} (m : W A) (f : A -> W B) : fails_loud m -> (forall a, fails_loud (f a)) -> fails_loud (m ≫= f).
Proof.
  intros Hm Hf s e. unfold mbind, W_bind. specialize (Hm s e). destruct (m s e) as [[[[st msg]|a] s1] e1]; [done|].
  apply Hf.
Qed.

Lemma loud_error {A} status message : status <> LQL_STATUS_OK -> fails_loud (lql_json_spool_error (A := A) status message).
Proof. intros H s e. cbn. by destruct status. Qed.

Lemma loud_writer data : fails_loud (call_writer data).
Proof. intros s e. unfold call_writer. by destruct (default LQL_STATUS_OK (head (writer_outcomes e))). Qed.

Lemma loud_seek offset : fails_loud (lql_json_spool_seek offset).
Proof.
  apply loud_bind; [done|]. intros o. apply loud_bind; [done|]. intros s. by destruct o, (spool_file_ s).
Qed.

Lemma loud_fread amount : fails_loud (spool_fread amount).
Proof. apply loud_bind; [done|]. intros o. apply loud_bind; [done|]. intros s. by destruct (spool_file_ s). Qed.

Lemma loud_slice_loop fuel : forall capacity offset n, fails_loud (write_slice_loop (F := W) fuel capacity offset n).
Proof.
  induction fuel as [|fuel IH]; intros capacity offset [|n]; try done. cbn [write_slice_loop].
  apply loud_bind; [apply loud_seek|]. intros []; [|by apply loud_error].
  apply loud_bind; [apply loud_fread|]. intros data. cbn [negb]. case_match; [by apply loud_error|].
  apply loud_bind; [apply loud_writer|done].
Qed.

Lemma loud_emit : fails_loud lql_flat_eq_emit.
Proof.
  apply loud_bind; [|intros _; apply loud_writer]. apply loud_bind; [done|]. intros s.
  unfold lql_json_spool_write_slice. apply loud_bind; [done|]. intros s1.
  destruct (spool_memory s1) as [m|]; [|by apply loud_error]. case_match; [by apply loud_error|].
  destruct (spool_file_ s1); [|apply loud_writer]. case_match; [done|].
  apply loud_bind; [done|]. intros []; [apply loud_slice_loop|by apply loud_error].
Qed.

Lemma emit_spec c spool e : appendable c spool -> forall r spool' e', lql_flat_eq_emit spool e = (r, spool', e') ->
  r = inr tt -> delivered e' = delivered e ++ c ++ [ch_nl].
Proof.
  intros Hc%app_holds r spool' e'. unfold lql_flat_eq_emit, mbind, W_bind at 1.
  unfold lql_json_spool_write_to. plain_output. unfold mbind, W_bind at 1, spool_get. rewrite (holds_size _ _ Hc).
  replace (Z.to_nat (len c)) with (length c) by (unfold len; lia).
  destruct (write_slice_spec c 0 (length c) spool e Hc) as (r1 & s1 & e1 & k & -> & _ & Hd & Hk & _); [lia|].
  rewrite drop_0, firstn_all in Hd. destruct r1 as [f|[]]; [by intros [= <- _ _]|].
  rewrite take_ge in Hd by by apply Hk. unfold call_writer.
  destruct (default LQL_STATUS_OK (head (writer_outcomes e1))); intros [= <- _ <-]; try done.
  cbn. by rewrite Hd, <- (assoc_L (++)).
Qed.

(** ** The calls *)

(** The compact text of the record of a call. *)
Definition compacted (cfg : scan_config) (input : bytes) (call : record_call) (c : bytes) : Prop :=
  json_value LQL_JSON_MAX_DEPTH (record_text input call) c /\
  (writing cfg = true -> appendable c (record_spool call)).

Lemma records_compacted cfg i off t calls rest : records (content := appendable) cfg i off t calls rest ->
  forall before, length before = off -> exists cs, Forall2 (compacted cfg (before ++ t)) calls cs.
Proof.
  induction 1 as [i off t|i off sp text c sep t call calls rest Hsp Hv Hne Hsep Hcall _ IH];
    intros before Hb; [by exists []|].
  destruct (IH (before ++ sp ++ text ++ sep)) as [cs Hcs]; [rewrite !length_app; lia|].
  rewrite <- !(assoc_L (++)) in Hcs. exists (c :: cs). constructor; [|done]. destruct Hcall as [_ Ho Hl _ _ Hc].
  split; [|done]. unfold record_text. rewrite Ho, Hl, <- Hb, (assoc_L (++) before sp).
  by rewrite <- length_app, drop_app_length, take_app_length.
Qed.

(** ** The steps of a record *)

Section steps.
Context {X : Type} (request : lql_stream_request X).
Context (mutation_emit : W unit) (projection_then_mutation_emit : list lql_json_capture_span -> W unit).
Implicit Types (s : @flat_eq_state X).

(** A step that writes nothing. *)
Definition writes_nothing (m : R (X := X) unit) : Prop := forall s, state_env (snd (m s)) = state_env s.

Lemma writes_nothing_answered answer error message : writes_nothing (answered answer error message).
Proof.
  intros s. unfold answered, mbind, R_bind, default_error, update. cbn.
  destruct answer; cbn; [done|done|by case_match].
Qed.

Lemma decide_writes_nothing index matched : writes_nothing (decide_step request index matched).
Proof.
  intros s. unfold decide_step. destruct (on_decision request) as [f|]; [|done].
  destruct (f _ _) as [[answer error] x]. by rewrite writes_nothing_answered.
Qed.

Lemma value_writes_nothing spool offset n compact matched :
  writes_nothing (value_step request spool offset n compact matched).
Proof.
  intros s. unfold value_step. destruct (on_value request) as [f|]; [|done].
  case_match; [done|]. case_match; [done|].
  destruct (f _ _) as [[answer error] x]. by rewrite writes_nothing_answered.
Qed.

(** What selected output writes for a record. *)
Definition selected_line (matched : bool) (c : bytes) : bytes :=
  if matched || negb (matched_only request) then c ++ [ch_nl] else [].

Lemma selected_writes c spool offset n compact matched s s' :
  output_mode request = LQL_STREAM_OUTPUT_SELECTED_RECORD -> appendable c spool ->
  selected_step request (Some spool) offset n compact matched s = (inr tt, s') ->
  delivered (state_env s') = delivered (state_env s) ++ selected_line matched c.
Proof.
  intros Hmode Hc. unfold selected_step, selected_line, mode_is. rewrite bool_decide_eq_true_2 by done.
  cbn [andb]. destruct (matched || _); [|intros [= <-]; by rewrite app_nil_r].
  unfold on_spool, run_output. destruct (lql_flat_eq_emit spool (state_env s)) as [[r spool'] e'] eqn:Ee.
  pose proof (loud_emit spool (state_env s)) as Hloud. rewrite Ee in Hloud.
  destruct r as [[[] msg]|[]]; try done. intros [= <-]. cbn. by eapply emit_spec.
Qed.

(** A step that ends with a status does not end with OK. *)
Definition loud {A} (m : R (X := X) A) : Prop := forall s, (m s).1 <> inl LQL_STATUS_OK.

Lemma loud_then {A B} (m : R (X := X) A) (f : A -> R (X := X) B) : loud m -> (forall a, loud (f a)) -> loud (m ≫= f).
Proof.
  intros Hm Hf s. unfold mbind, R_bind. specialize (Hm s). destruct (m s) as [[st|a] s1]; cbn in *; [congruence|].
  apply Hf.
Qed.

Lemma loud_output m : loud (run_output m).
Proof. intros s. unfold run_output. by destruct (m _) as [[[[] msg]|[]] e]. Qed.

Lemma loud_answered answer error message : loud (answered answer error message).
Proof. by destruct answer. Qed.

Lemma loud_record keys call spool matched : output_mode request = LQL_STREAM_OUTPUT_SELECTED_RECORD ->
  loud (decided_record request mutation_emit projection_then_mutation_emit keys call (Some spool) matched).
Proof.
  intros Hmode. unfold decided_record, projection_step, mutation_step, mode_is. rewrite Hmode. cbn [bool_decide].
  apply loud_then; [done|intros _]. apply loud_then; [|intros _; apply loud_then; [|intros _]].
  - intros s. unfold decide_step. destruct (on_decision request) as [f|]; [|done].
    destruct (f _ _) as [[answer error] x]. apply loud_answered.
  - intros s. unfold value_step. destruct (on_value request) as [f|]; [|done].
    case_match; [done|]. case_match; [done|]. destruct (f _ _) as [[answer error] x]. apply loud_answered.
  - apply loud_then; [|intros _].
    { unfold selected_step. case_match; [apply loud_output|done]. }
    apply loud_then; [done|intros _]. apply loud_then; [done|intros _].
    intros s. unfold match_limit_step. by case_match.
Qed.

(** The result of a sequence that ends well. *)
Lemma bind_ok {A B} (m : R (X := X) A) (f : A -> R (X := X) B) s b s' : (m ≫= f) s = (inr b, s') ->
  exists a s1, m s = (inr a, s1) /\ f a s1 = (inr b, s').
Proof. unfold mbind, R_bind. destruct (m s) as [[st|a] s1]; [done|]. eauto. Qed.

Lemma nothing_written (m : R (X := X) unit) s s' : writes_nothing m -> m s = (inr tt, s') ->
  state_env s' = state_env s.
Proof. intros H E. by rewrite <- (H s), E. Qed.

Lemma decided_writes keys call c spool matched s s' :
  output_mode request = LQL_STREAM_OUTPUT_SELECTED_RECORD -> appendable c spool ->
  decided_record request mutation_emit projection_then_mutation_emit keys call (Some spool) matched s =
    (inr tt, s') ->
  delivered (state_env s') = delivered (state_env s) ++ selected_line matched c.
Proof.
  intros Hmode Hc H. unfold decided_record in H.
  apply bind_ok in H as ([] & s1 & E1 & H). apply bind_ok in H as ([] & s2 & E2 & H).
  apply bind_ok in H as ([] & s3 & E3 & H). apply bind_ok in H as ([] & s4 & E4 & H).
  apply bind_ok in H as ([] & s5 & E5 & H). apply bind_ok in H as ([] & s6 & E6 & E7).
  injection E1 as <-. apply nothing_written in E2; [|apply decide_writes_nothing].
  apply nothing_written in E3; [|apply value_writes_nothing].
  apply (selected_writes c) in E4; [|done|done]. rewrite E3, E2 in E4.
  unfold projection_step, mutation_step, mode_is in E5, E6. rewrite Hmode in E5, E6. cbn in E5, E6.
  injection E5 as <-. injection E6 as <-. unfold match_limit_step in E7. case_match; [done|].
  by injection E7 as <-.
Qed.
End steps.

Section calls.
Context {X : Type} (address : list nat -> Z) (parse_double : bytes -> option spec_float).
Context (range_double : lql_selector -> bound_key -> spec_float).
Context (mutation_emit : W unit) (projection_then_mutation_emit : list lql_json_capture_span -> W unit).
Context (request : lql_stream_request X) (env : stream_env).

(** The output of calls that all answer OK. *)
Lemma fed_writes p cfg calls s answer u : output_mode request = LQL_STREAM_OUTPUT_SELECTED_RECORD ->
  writing cfg = true ->
  ScanStream.fed (scan_callback (record_callback address parse_double mutation_emit
    projection_then_mutation_emit request p true)) (Some s) calls answer u ->
  answer = LQL_STATUS_OK -> forall vs cs,
  Forall2 (about address parse_double range_double mutation_emit projection_then_mutation_emit request env p true)
    calls vs ->
  Forall2 (compacted cfg (pending (answers env))) calls cs -> forall s', u = Some s' ->
  delivered (state_env s') = delivered (state_env s) ++
    concat (zip_with (fun v c => selected_line request (selects range_double request env v) c) vs cs).
Proof.
  intros Hmode Hw. set (callback := scan_callback _). intros F. remember (Some s) as state eqn:Es. revert s Es.
  induction F as [u|u call status u' Hc Hne|u call u' calls status u'' Hc F IH];
    intros s -> Hok vs cs Hvs Hcs s' Hu.
  - injection Hu as ->. inversion Hvs; subst. by rewrite app_nil_r.
  - done.
  - inversion Hvs as [|? v ? vs' [_ Hv] Hvs']; subst. inversion Hcs as [|? c ? cs' [_ Happ] Hcs']; subst.
    subst callback. unfold scan_callback in Hc. cbn in Hc. rewrite Hv in Hc.
    destruct (decided_record _ _ _ _ _ _ _ _) as [[st|[]] s1] eqn:Ed; [injection Hc as -> <-|injection Hc as <-].
    { exfalso. eapply loud_record; [exact Hmode|]. by rewrite Ed. }
    eapply decided_writes in Ed; [|done|by apply Happ]. cbn in Ed.
    rewrite (IH s1 eq_refl eq_refl vs' cs' Hvs' Hcs' s' eq_refl), Ed. cbn. by rewrite <- (assoc_L (++)).
Qed.
End calls.

(** C2. Filtering, with a selector that compiles to terms that compare bytes along
    plain keys ([exact_term]) and that one scan can match ([narrow]): a spooled
    application that writes selected records and ends well without a stop has written, in order and each with a newline, the compact texts
    of the records that its selector holds of (of all records when unmatched ones
    are not suppressed), and nothing else; each line denotes the JSON value of its
    record; and it has read the whole input. *)
Theorem stream_filters {X} address parse_double range_double mutation_emit projection_then_mutation_emit
    (request : lql_stream_request X) (env : stream_env) (user : X) p allocs s :
  Forall byte_range (pending (answers env)) ->
  plan address range_double request env true = Some (Planned p allocs) ->
  narrow p = true -> forallb exact_term (sp_terms p) = true ->
  output_mode request = LQL_STREAM_OUTPUT_SELECTED_RECORD ->
  lql_stream_apply_spooled address parse_double range_double mutation_emit projection_then_mutation_emit
    request env user = Some (LQL_STATUS_OK, s) ->
  stopped_early (result s) = false ->
  exists cfg calls rest vs cs,
    records (content := appendable) cfg 0 0 (pending (answers env)) calls rest /\ spaces rest /\
    Forall2 (fun call v => json_of (record_text (pending (answers env)) call) v) calls vs /\
    Forall2 (compacted cfg (pending (answers env))) calls cs /\ Forall2 json_of cs vs /\
    delivered (state_env s) = delivered (write_env env) ++
      concat (zip_with (fun v c => if selects range_double request env v || negb (matched_only request)
                                   then c ++ [ch_nl] else []) vs cs).
Proof.
  intros Hbytes Hplan Hn Hx Hmode Happly Hearly.
  destruct (common_runs _ _ _ _ _ _ _ _ _ _ _ _ _ Hbytes Hplan Hn Hx Happly) as
    (cfg & calls & rest & vs & s0 & s1 & answer & Hw & Hrec & Hvs & _ & He & F & _ & He1 & Hok).
  destruct (Hok eq_refl Hearly) as [Hrest Hanswer].
  assert (captures request p true = true) as Hcap.
  { unfold captures, mode_is. rewrite Hmode. cbn. by rewrite !orb_true_r. }
  rewrite Hcap in Hw, F, Hvs. destruct (records_compacted _ _ _ _ _ _ Hrec [] eq_refl) as [cs Hcs].
  cbn [app] in Hcs. exists cfg, calls, rest, vs, cs. split; [exact Hrec|]. split; [done|].
  assert (Forall2 (fun call v => json_of (record_text (pending (answers env)) call) v) calls vs) as Hj.
  { eapply list.Forall2_impl; [exact Hvs|]. by intros ? ? []. }
  split; [done|]. split; [done|]. split.
  - clear -Hj Hcs. revert cs Hcs. induction Hj as [|call v calls vs Hv _ IH]; intros cs Hcs;
      inversion Hcs as [|? c ? cs' [Hc _] Hcs']; subst; [constructor|].
    constructor; [by eapply compact_denotes|auto].
  - rewrite He1, <- He. by eapply (fed_writes _ _ _ _ _ _ env p cfg).
Qed.


(** ** A concrete stream *)

#[local] Abbreviation demo_request := (demo_stream_request LQL_STREAM_OUTPUT_SELECTED_RECORD a_without_b).
#[local] Abbreviation demo_plan := (plan (fun _ => 0) no_double demo_request demo_stream_env true).
#[local] Abbreviation demo_apply := (lql_stream_apply_spooled (fun _ => 0) no_number no_double no_output
  (fun _ => no_output) demo_request demo_stream_env tt).

Definition written_by {X} (o : option (lql_status * @flat_eq_state X)) : option (lql_status * bytes * bool) :=
  match o with
  | Some (status, s) => Some (status, delivered (state_env s), stopped_early (result s))
  | None => None
  end.

Lemma written_inv {X} (o : option (lql_status * @flat_eq_state X)) status w b :
  written_by o = Some (status, w, b) ->
  exists s, o = Some (status, s) /\ delivered (state_env s) = w /\ stopped_early (result s) = b.
Proof. destruct o as [[st s]|]; [|done]. intros [= <- <- <-]. by exists s. Qed.

Lemma demo_written : written_by demo_apply =
  Some (LQL_STATUS_OK, jbs "{'a':'x','c':[1,2]}" ++ [ch_nl], false).
Proof. vm_compute. reflexivity. Qed.

Lemma filter_planned : demo_plan = Some (Planned (planned_program demo_plan) []).
Proof. vm_compute. reflexivity. Qed.

(** The second record is written without its spaces. *)
Lemma stream_filters_witness : exists cfg calls rest vs cs,
  records (content := appendable) cfg 0 0 (pending demo_reads) calls rest /\ spaces rest /\
  Forall2 json_of cs vs /\
  jbs "{'a':'x','c':[1,2]}" ++ [ch_nl] =
    concat (zip_with (fun v c => if selects no_double demo_request demo_stream_env v || negb (matched_only demo_request)
                                 then c ++ [ch_nl] else []) vs cs).
Proof.
  destruct (written_inv _ _ _ _ demo_written) as (s & E & Hw & Hearly).
  destruct (stream_filters (fun _ => 0) no_number no_double no_output (fun _ => no_output) demo_request
    demo_stream_env tt (planned_program demo_plan) [] s)
    as (cfg & calls & rest & vs & cs & Hrec & Hrest & Hvs & Hcs & Hj & Hd).
  - apply is_byte_forall. vm_compute. reflexivity.
  - exact filter_planned.
  - vm_compute. reflexivity.
  - vm_compute. reflexivity.
  - reflexivity.
  - exact E.
  - exact Hearly.
  - exists cfg, calls, rest, vs, cs. rewrite Hw in Hd. split; [exact Hrec|]. split; [exact Hrest|].
    split; [exact Hj|]. exact Hd.
Defined.
