(* ===== verification/ScanTotal.v ===== *)
(** * Computations of the scanner that give a result

    [total m s Q]: the computation [m] from state [s] ends, with a value or a
    status, and [Q] holds of it and the state after it.  [steady] computations do so
    from every state whose arrays have their sizes; they keep the depth and do not
    give input back.  The fuel of every loop is enough, for the loop takes a byte a
    round. *)

From S2P Require Import Prelude.
From S2P Require Import Errors.
From S2P Require Import ScanTerm.
From S2P Require Import JsonSpool.
From S2P Require Import ScanState.
From S2P Require Import ScanInput.
From S2P Require Import ScanMatch.
From S2P Require Import JsonScan.
From S2P Require Import ScanSpan.
From S2P Require Import ScanLogic.
From S2P Require Import ScanReads.

Definition total {A} (m : Scan A) (s : lql_json_scan) (Q : A + lql_status -> lql_json_scan -> Prop) : Prop :=
  match m s with Some (r, s') => Q r s' | None => False end.

Section rules.
Context {A B : Type}.
Implicit Types (s : lql_json_scan) (m : Scan A).

Lemma total_impl m s (P Q : A + lql_status -> lql_json_scan -> Prop) :
  total m s P -> (forall r s', P r s' -> Q r s') -> total m s Q.
Proof. unfold total. intros H HPQ. destruct (m s) as [[r s']|]; [by apply HPQ|done]. Qed.

Lemma total_bind m (f : A -> Scan B) s P Q :
  total m s P -> (forall a s', P (inl a) s' -> total (f a) s' Q) ->
  (forall st s', P (inr st) s' -> Q (inr st) s') -> total (m ≫= f) s Q.
Proof.
  unfold total, mbind, Scan_bind. intros Hm Hf Hst.
  destruct (m s) as [[[a|st] s']|]; [by apply Hf|by apply Hst|done].
Qed.

Lemma total_attempt_bind m (f : A + lql_status -> Scan B) s P Q :
  total m s P -> (forall r s', P r s' -> total (f r) s' Q) -> total (attempt m ≫= f) s Q.
Proof.
  unfold total, mbind, Scan_bind, attempt. intros Hm Hf.
  destruct (m s) as [[r s']|]; [by apply Hf|done].
Qed.

Lemma total_gets_then (f : lql_json_scan -> A) (k : A -> Scan B) s Q :
  total (k (f s)) s Q -> total (gets f ≫= k) s Q.
Proof. done. Qed.

Lemma total_modify_then f (k : unit -> Scan B) s Q : total (k tt) (f s) Q -> total (modify f ≫= k) s Q.
Proof. done. Qed.

Lemma total_ret_then (a : A) (k : A -> Scan B) s Q : total (k a) s Q -> total (mret a ≫= k) s Q.
Proof. done. Qed.

(** What is known of the value when there is one. *)
Lemma total_ok m s (Q : A + lql_status -> lql_json_scan -> Prop) (P : A -> lql_json_scan -> Prop) :
  total m s Q -> ok m s P ->
  total m s (fun r s' => Q r s' /\ forall a, r = inl a -> P a s').
Proof.
  unfold total, ok. intros Ht Ho. destruct (m s) as [[r s']|]; [|done]. split; [done|].
  intros a ->. by apply Ho.
Qed.

Lemma total_runs m s Q : total m s Q -> exists r s', m s = Some (r, s') /\ Q r s'.
Proof. unfold total. destruct (m s) as [[r s']|]; [by eauto|done]. Qed.
End rules.

(** ** The sizes of the arrays *)

(** A term that looks for its value, and the table of failures it does that with. *)
Definition searches (t : lql_json_flat_eq_term) : bool :=
  kind_is t LQL_JSON_FLAT_TERM_CONTAINS || kind_is t LQL_JSON_FLAT_TERM_ICONTAINS.

Definition table_ok (t : lql_json_flat_eq_term) : Prop := forall f, contains_failure t = Some f ->
  searches t = true /\ length f = length (term_value t) /\ forall i b, f !! i = Some b -> (b <= i)%nat.

(** A position in the target of such a term, which the matcher may look at. *)
Definition inside (t : lql_json_flat_eq_term) (pos : nat) : Prop :=
  term_value t = [] \/ (pos < length (term_value t))%nat.

Section total.
Context (cfg : scan_config) (tables : Forall table_ok (flat_terms cfg)).
Implicit Types (s : lql_json_scan) (m : scan_matcher).

(** The terms that are matched against a value are inside their targets. *)
Definition searching m : Prop := match_key m = false -> forall i t, flat_terms cfg !! i = Some t ->
  searches t = true -> has (match_active m) i = true -> inside t (position m i).

Record shaped s : Prop := {
  sh_path : length (path_active (matcher s)) = LQL_JSON_MAX_DEPTH;
  sh_recursive : length (recursive_active (matcher s)) = LQL_JSON_MAX_DEPTH;
  sh_capture : length (capture_path_active (capture s)) = LQL_JSON_MAX_DEPTH;
  sh_emit : len (emit_buffer (output s)) <= LQL_JSON_EMIT_BUFFER_SIZE;
  sh_searching : searching (matcher s)
}.

(** From [s] on to [s'], at the same depth. *)
Record onward s s' : Prop := {
  on_shaped : shaped s';
  on_depth_same : depth (input s') = depth (input s);
  on_remaining : (remaining s' <= remaining s)%nat
}.

Lemma onward_refl s : shaped s -> onward s s.
Proof. by split. Qed.

Lemma onward_trans s1 s2 s3 : onward s1 s2 -> onward s2 s3 -> onward s1 s3.
Proof. intros [A1 A2 A3] [B1 B2 B3]. split; [done|congruence|lia]. Qed.

(** Only parts that do not matter here changed. *)
Lemma onward_same s s' : shaped s -> input s' = input s -> emit_buffer (output s') = emit_buffer (output s) ->
  matcher s' = matcher s -> capture_path_active (capture s') = capture_path_active (capture s) -> onward s s'.
Proof.
  intros [H1 H2 H3 H4 H5] Hi Ho Hm Hc. split; [|by rewrite Hi|unfold remaining; by rewrite Hi].
  split; rewrite ?Hm, ?Hc, ?Ho; done.
Qed.

(** ** Steady computations *)

Definition steady {A} (m : Scan A) : Prop := forall s, shaped s -> total m s (fun _ => onward s).

Section rules.
Context {A B : Type}.

Lemma steady_ret (a : A) : steady (mret a).
Proof. intros s H. by apply onward_refl. Qed.

Lemma steady_bind (m : Scan A) (f : A -> Scan B) : steady m -> (forall a, steady (f a)) -> steady (m ≫= f).
Proof.
  intros Hm Hf s Hs. eapply total_bind; [by apply Hm| |by auto].
  intros a s1 H1. eapply total_impl; [apply Hf, H1|]. intros r s2 H2. exact (onward_trans _ _ _ H1 H2).
Qed.

Lemma steady_attempt (m : Scan A) (f : A + lql_status -> Scan B) :
  steady m -> (forall r, steady (f r)) -> steady (attempt m ≫= f).
Proof.
  intros Hm Hf s Hs. eapply total_attempt_bind; [by apply Hm|].
  intros a s1 H1. eapply total_impl; [apply Hf, H1|]. intros r s2 H2. exact (onward_trans _ _ _ H1 H2).
Qed.

Lemma steady_attempt_alone (m : Scan A) : steady m -> steady (attempt m).
Proof.
  intros Hm s Hs. specialize (Hm s Hs). unfold total, attempt in *. by destruct (m s) as [[r s']|].
Qed.

Lemma steady_gets (f : lql_json_scan -> A) : steady (gets f).
Proof. intros s H. by apply onward_refl. Qed.

Lemma steady_modify f : (forall s, shaped s -> onward s (f s)) -> steady (modify f).
Proof. intros H s Hs. by apply H. Qed.

Lemma steady_state (f : lql_json_scan -> A * lql_json_scan) :
  (forall s, shaped s -> onward s (f s).2) -> steady (state f).
Proof. intros H s Hs. unfold total, state. specialize (H s Hs). by destruct (f s). Qed.

Lemma steady_run f : (forall s, shaped s -> exists s', f s = Some s' /\ onward s s') -> steady (run f).
Proof. intros H s Hs. unfold total, run. destruct (H s Hs) as (s' & -> & Ho). done. Qed.

Lemma steady_stop status : steady (A := A) (stop status).
Proof. intros s H. by apply onward_refl. Qed.

Lemma steady_json_error s message : shaped s -> onward s (json_error s message).
Proof. intros [H1 H2 H3 H4 H5]. split; [by split|done..]. Qed.

Lemma steady_error message : steady (A := A) (lql_json_error message).
Proof. intros s H. by apply steady_json_error. Qed.

Lemma steady_finish (r : A + lql_status) : steady (finish r).
Proof. destruct r; [apply steady_ret|apply steady_stop]. Qed.
End rules.
End total.

Create HintDb steady.
#[export] Hint Resolve steady_ret steady_gets steady_stop steady_error steady_finish : steady.

(** [steady] of a computation by its structure. *)
Ltac steady_step :=
  match goal with
  | |- steady _ (attempt _ ≫= _) => apply steady_attempt; [|intros ?]
  | |- steady _ (_ ≫= _) => apply steady_bind; [|intros ?]
  | |- steady _ (if ?b then _ else _) => destruct b eqn:?
  | |- steady _ (match ?x with _ => _ end) => destruct x
  | |- steady _ (let _ := _ in _) => cbv zeta
  | |- steady _ (modify _) => solve [auto with steady nocore]
  | |- steady _ _ => solve [auto with steady nocore]
  end.
Ltac steady := repeat steady_step.

(** ** Input and output give results

    The functions that write to the spool, refill the buffer, take bytes and pass
    over spaces, strings, literals and numbers give a result from every state. *)

Section io.
Context (cfg : scan_config).
Implicit Types (s : lql_json_scan).
#[local] Abbreviation shaped := (shaped cfg).
#[local] Abbreviation onward := (onward cfg).
#[local] Abbreviation steady := (steady cfg).

(** A sequence after a step that is on its way. *)
Lemma total_then {A B} (m : Scan A) (f : A -> Scan B) s0 s (P : A -> lql_json_scan -> Prop) :
  onward s0 s -> total m s (fun r s' => onward s s' /\ forall a, r = inl a -> P a s') ->
  (forall a s', onward s0 s' -> P a s' -> total (f a) s' (fun _ => onward s0)) ->
  total (m ≫= f) s (fun _ => onward s0).
Proof.
  intros H0 Hm Hf. eapply total_bind; [exact Hm| |].
  - intros a s' [H1 HP]. apply Hf; [by eapply onward_trans|by apply HP].
  - intros st s' [H1 _]. by eapply onward_trans.
Qed.

Lemma total_steady {A} (m : Scan A) s0 s : onward s0 s -> steady m -> total m s (fun _ => onward s0).
Proof.
  intros H0 Hm. eapply total_impl; [apply Hm, H0|]. intros r s' H1. by eapply onward_trans.
Qed.

(** A steady computation, with what [ok] says of its value. *)
Lemma steady_total {A} (m : Scan A) s (P : A -> lql_json_scan -> Prop) : steady m -> shaped s -> ok m s P ->
  total m s (fun r s' => onward s s' /\ forall a, r = inl a -> P a s').
Proof. intros Hm Hs Ho. apply total_ok; [by apply Hm|done]. Qed.

(** *** Output *)

Lemma steady_call_spool {A} (m : W A) : steady (call_spool m).
Proof.
  intros s [H1 H2 H3 H4 H5]. unfold total, call_spool.
  destruct (m (out_spool (output s)) (out_env (output s))) as [[[[st msg]|a] sp] e]; (split; [by split|done..]).
Qed.

Lemma steady_spool_write data : steady (lql_json_spool_write data).
Proof. apply steady_call_spool. Qed.

(** The emit buffer changed, within its size. *)
Lemma onward_emit s d : shaped s -> len d <= LQL_JSON_EMIT_BUFFER_SIZE ->
  onward s (on_output (fun o => o <| emit_buffer := d |>) s).
Proof. intros [H1 H2 H3 H4 H5] Hd. split; [by split|done..]. Qed.

Lemma steady_drain : steady drain.
Proof.
  unfold drain. apply steady_bind; [apply steady_gets|]. intros data.
  apply steady_bind; [apply steady_spool_write|]. intros _. apply steady_modify. intros s Hs.
  by apply onward_emit.
Qed.

Lemma drain_empties s : ok drain s (fun _ s' => emit_buffer (output s') = []).
Proof.
  unfold drain. apply ok_gets_then. apply ok_then_stop. intros [] s1. by apply ok_modify.
Qed.

Lemma make_room_total s : shaped s -> total make_room s (fun r s' => onward s s' /\
  forall a, r = inl a -> len (emit_buffer (output s')) < LQL_JSON_EMIT_BUFFER_SIZE).
Proof.
  intros Hs. apply steady_total; [|done|].
  - unfold make_room. apply steady_bind; [apply steady_gets|]. intros [|]; [apply steady_drain|apply steady_ret].
  - unfold make_room. apply ok_gets_then. destruct (len _ =? _) eqn:E.
    + eapply ok_impl; [apply drain_empties|]. intros [] s' ->. done.
    + apply ok_ret. destruct Hs as [_ _ _ H _]. bool_hyps. lia.
Qed.

Lemma write_loop_total fuel : forall data, (length data <= fuel)%nat -> steady (write_loop fuel data).
Proof.
  induction fuel as [|fuel IH]; intros [|x data] Hf; cbn [write_loop];
    try apply steady_ret; [cbn in Hf; lia|].
  intros s Hs. eapply total_then; [by apply onward_refl|by apply make_room_total|].
  intros [] s1 H1 Hroom. apply total_gets_then. cbv zeta. set (amount := Z.to_nat _).
  assert (Ha : (1 <= amount)%nat /\ Z.of_nat amount <= LQL_JSON_EMIT_BUFFER_SIZE - len (emit_buffer (output s1))).
  { unfold amount, len in *. cbn [length] in *. lia. }
  apply total_modify_then, total_steady.
  - eapply onward_trans; [exact H1|].
    apply (onward_emit _ (emit_buffer (output s1) ++ take amount (x :: data))); [apply H1|].
    unfold len in *. rewrite length_app, length_take. lia.
  - apply IH. rewrite length_drop. cbn [length] in *. lia.
Qed.

Lemma steady_write data : steady (lql_json_write cfg data).
Proof. unfold lql_json_write. destruct (writing cfg); [by apply write_loop_total|apply steady_ret]. Qed.

Lemma steady_copy_byte v : steady (lql_json_copy_byte cfg v).
Proof.
  unfold lql_json_copy_byte, lql_json_write_byte. destruct (writing cfg); [|apply steady_ret].
  intros s Hs. eapply total_then; [by apply onward_refl|by apply make_room_total|].
  intros [] s1 H1 Hroom. eapply onward_trans; [exact H1|]. apply onward_emit; [apply H1|].
  unfold len in *. rewrite length_app. cbn [length]. lia.
Qed.

Lemma steady_flush : steady (lql_json_flush cfg).
Proof.
  unfold lql_json_flush. apply steady_bind; [apply steady_gets|]. intros empty.
  destruct (empty || negb (writing cfg)); [|apply steady_drain]. apply steady_modify. intros s Hs.
  by apply onward_emit.
Qed.

(** *** Input *)

Lemma shaped_input s s' : shaped s -> output s' = output s -> matcher s' = matcher s ->
  capture s' = capture s -> shaped s'.
Proof. intros [H1 H2 H3 H4 H5] Ho Hm Hc. split; rewrite ?Hm, ?Hc, ?Ho; done. Qed.

(** The input changed, at the same depth, and not more is left. *)
Lemma onward_input s s' : shaped s -> output s' = output s -> matcher s' = matcher s -> capture s' = capture s ->
  depth (input s') = depth (input s) -> (remaining s' <= remaining s)%nat -> onward s s'.
Proof. intros. split; [by eapply shaped_input|done..]. Qed.

Lemma steady_ask_cancelled : steady ask_cancelled.
Proof. intros s Hs. by apply onward_input. Qed.

Lemma steady_set_cancelled : steady set_cancelled.
Proof. apply steady_modify. intros s Hs. by apply onward_input. Qed.

(** The bytes the reader stores are taken from what is left. *)
Lemma call_reader_total s : shaped s -> buffer (input s) = [] -> total call_reader s (fun r s' => onward s s' /\
  forall a, r = inl a -> buffer (input s') = [] /\ (remaining s' + length a.2 <= remaining s)%nat).
Proof.
  intros Hs Hb. unfold total, call_reader. cbv zeta.
  split.
  - apply onward_input; try done. unfold remaining. cbn. rewrite Hb.
    destruct (reader (input s)) as [|a l]; cbn; lia.
  - intros a [= <-]. cbn. split; [done|]. unfold remaining. cbn. rewrite Hb.
    destruct (reader (input s)) as [|a l]; cbn; lia.
Qed.

Lemma ask_cancelled_total s : shaped s -> total ask_cancelled s (fun r s' => onward s s' /\
  forall a, r = inl a -> buffer (input s') = buffer (input s)).
Proof. intros Hs. apply steady_total; [apply steady_ask_cancelled|done|]. by intros a s' [= <- <-]. Qed.

Lemma steady_refill : steady lql_json_refill.
Proof.
  intros s Hs. unfold lql_json_refill. apply total_gets_then.
  destruct (length (buffer (input s)) =? 0)%nat eqn:Eb; cbn [negb]; [|by apply onward_refl].
  apply Nat.eqb_eq, nil_length_inv in Eb. destruct (eof (input s)); [by apply onward_refl|].
  eapply total_then; [by apply onward_refl|by apply ask_cancelled_total|]. intros [] s1 H1 Hb1.
  { apply total_steady; [done|]. apply steady_bind; [apply steady_set_cancelled|]. intros _. apply steady_stop. }
  rewrite Eb in Hb1. eapply total_bind; [by apply call_reader_total; [apply H1|]| |].
  2:{ intros st s2 [H2 _]. by eapply onward_trans. }
  intros [st data] s2 [H2 H]. destruct (H _ eq_refl) as [Hb2 Hr]. cbn in Hr.
  assert (H02 : onward s s2) by by eapply onward_trans.
  destruct (negb (bool_decide (st = LQL_STATUS_OK))); [|destruct (LQL_JSON_READ_BUFFER_SIZE <? len data)].
  - apply total_steady; [done|]. apply steady_bind; [|intros _; apply steady_stop]. apply steady_modify.
    intros s3 Hs3. unfold on_input. destruct (bool_decide _); by apply onward_input.
  - apply total_steady; [done|apply steady_error].
  - eapply onward_trans; [exact H1|]. split; [by eapply shaped_input; [apply H2|..]|apply H2|].
    etransitivity; [|exact Hr]. unfold remaining. cbn -[list_sum]. rewrite Hb2. cbn [length]. lia.
Qed.

Lemma steady_peek : steady lql_json_peek.
Proof. unfold lql_json_peek. apply steady_bind; [apply steady_refill|]. intros _. apply steady_gets. Qed.

Lemma peek_total s : shaped s -> total lql_json_peek s (fun r s' => onward s s' /\
  forall c, r = inl c -> at_byte c s').
Proof.
  intros Hs. apply steady_total; [apply steady_peek|done|]. unfold lql_json_peek.
  apply ok_then_stop. intros [] s1. by apply ok_gets.
Qed.

Lemma steady_advance_by n : steady (advance_by n).
Proof.
  apply steady_modify. intros s Hs. apply onward_input; try done. unfold remaining. cbn -[list_sum].
  rewrite length_drop. lia.
Qed.

(** Bytes of a buffer that is not empty are taken. *)
Lemma advance_by_less n s : (0 < n)%nat -> buffer (input s) <> [] ->
  (remaining (on_input (fun i => i <| buffer := drop n (buffer i) |>) s) < remaining s)%nat.
Proof.
  intros Hn Hb. unfold remaining. cbn -[list_sum]. rewrite length_drop.
  destruct (buffer (input s)); [done|cbn [length]; lia].
Qed.

Lemma steady_advance : steady advance.
Proof.
  apply steady_modify. intros s Hs. apply onward_input; try done. unfold remaining. cbn -[list_sum].
  destruct (buffer (input s)); cbn -[list_sum]; lia.
Qed.

Lemma advance_total c s : shaped s -> at_byte (Some c) s -> total advance s (fun r s' => onward s s' /\
  forall a, r = inl a -> (remaining s' < remaining s)%nat).
Proof.
  intros Hs Hc. apply steady_total; [apply steady_advance|done|]. apply ok_modify.
  unfold at_byte in Hc. unfold remaining. cbn -[list_sum]. destruct (buffer (input s)); [done|cbn -[list_sum]; lia].
Qed.

Lemma take_total s : shaped s -> total lql_json_take s (fun r s' => onward s s' /\
  forall a, r = inl a -> (remaining s' < remaining s)%nat).
Proof.
  intros Hs. unfold lql_json_take. eapply total_bind; [by apply peek_total| |].
  - intros c s1 [H1 Hc]. specialize (Hc _ eq_refl). destruct c as [c|].
    + eapply total_bind; [apply (advance_total c); [apply H1|done]| |].
      * intros [] s2 [H2 Hl]. specialize (Hl _ eq_refl). unfold total. cbn. split; [by eapply onward_trans|].
        intros _ _. pose proof (on_remaining _ _ _ H1). lia.
      * intros st s2 [H2 _]. split; [by eapply onward_trans|done].
    + split; [|done]. eapply onward_trans; [exact H1|]. apply steady_json_error, H1.
  - intros st s1 [H1 _]. by split.
Qed.

Lemma steady_take : steady lql_json_take.
Proof. intros s Hs. eapply total_impl; [by apply take_total|]. by intros r s' [H _]. Qed.

Lemma take_expected_total v s : shaped s -> total (lql_json_take_expected v) s (fun r s' => onward s s' /\
  forall a, r = inl a -> (remaining s' < remaining s)%nat).
Proof.
  intros Hs. unfold lql_json_take_expected. eapply total_bind; [by apply take_total| |].
  - intros c s1 [H1 Hl]. destruct (negb (c =? v)).
    + split; [|done]. eapply onward_trans; [exact H1|]. apply steady_json_error, H1.
    + unfold total. cbn. split; [done|]. intros _ _. by eapply Hl.
  - intros st s1 [H1 _]. by split.
Qed.

Lemma steady_take_expected v : steady (lql_json_take_expected v).
Proof. intros s Hs. eapply total_impl; [by apply take_expected_total|]. by intros r s' [H _]. Qed.

(** *** Loops

    [below n m]: [m] gives a result from states with less than [n] left; [holding c n
    m] with the byte [c] under the cursor besides. *)

Definition below {A} (n : nat) (m : Scan A) : Prop := forall s, shaped s -> (remaining s < n)%nat ->
  total m s (fun _ => onward s).
Definition holding {A} (c : option Z) (n : nat) (m : Scan A) : Prop := forall s, shaped s -> at_byte c s ->
  (remaining s < n)%nat -> total m s (fun _ => onward s).

Lemma below_steady {A} n (m : Scan A) : steady m -> below n m.
Proof. intros Hm s Hs _. by apply Hm. Qed.

Lemma steady_below {A} (m : Scan A) : (forall n, below n m) -> steady m.
Proof. intros Hm s Hs. apply (Hm (S (remaining s))); [done|lia]. Qed.

Lemma holding_below {A} c n (m : Scan A) : below n m -> holding c n m.
Proof. intros Hm s Hs _. by apply Hm. Qed.

Lemma below_then {A B} n (m : Scan A) (f : A -> Scan B) (P : A -> lql_json_scan -> Prop) s :
  shaped s -> (remaining s < n)%nat ->
  total m s (fun r s' => onward s s' /\ forall a, r = inl a -> P a s') ->
  (forall a s', shaped s' -> (remaining s' < n)%nat -> P a s' -> total (f a) s' (fun _ => onward s')) ->
  total (m ≫= f) s (fun _ => onward s).
Proof.
  intros Hs Hn Hm Hf. eapply total_then; [by apply onward_refl|exact Hm|].
  intros a s' H1 HP. eapply total_impl; [apply Hf; [apply H1| |exact HP]|].
  - pose proof (on_remaining _ _ _ H1). lia.
  - intros r s2 H2. by eapply onward_trans.
Qed.

Lemma below_bind {A B} n (m : Scan A) (f : A -> Scan B) :
  below n m -> (forall a, below n (f a)) -> below n (m ≫= f).
Proof.
  intros Hm Hf s Hs Hn. apply (below_then n _ _ (fun _ _ => True)); [done|done| |].
  - eapply total_impl; [by apply Hm|]. by intros r s' H.
  - intros a s' Hs' Hn' _. by apply Hf.
Qed.

Lemma below_attempt {A B} n (m : Scan A) (f : A + lql_status -> Scan B) :
  below n m -> (forall r, below n (f r)) -> below n (attempt m ≫= f).
Proof.
  intros Hm Hf s Hs Hn. eapply total_attempt_bind; [by apply Hm|]. intros r s1 H1.
  eapply total_impl; [apply Hf; [apply H1|]|].
  - pose proof (on_remaining _ _ _ H1). lia.
  - intros r' s2 H2. exact (onward_trans _ _ _ _ H1 H2).
Qed.

Lemma below_peek {B} n (f : option Z -> Scan B) : (forall c, holding c n (f c)) -> below n (lql_json_peek ≫= f).
Proof.
  intros Hf s Hs Hn. eapply below_then; [done|done|by apply peek_total|]. intros c s' Hs' Hn' Hc. by apply Hf.
Qed.

(** A step that takes a byte. *)
Lemma below_less {A B} n (m : Scan A) (f : A -> Scan B) s : shaped s -> (remaining s < S n)%nat ->
  total m s (fun r s' => onward s s' /\ forall a, r = inl a -> (remaining s' < remaining s)%nat) ->
  (forall a, below n (f a)) -> total (m ≫= f) s (fun _ => onward s).
Proof.
  intros Hs Hn Hm Hf. eapply below_then; [done|exact Hn|exact Hm|].
  intros a s' Hs' _ Hl. cbv beta in Hl. apply Hf; [done|lia].
Qed.

Lemma holding_advance {B} c n (f : unit -> Scan B) : (forall a, below n (f a)) ->
  holding (Some c) (S n) (advance ≫= f).
Proof. intros Hf s Hs Hc Hn. eapply below_less; [done|done|by eapply advance_total|done]. Qed.

Lemma below_take {B} n (f : Z -> Scan B) : (forall c, below n (f c)) -> below (S n) (lql_json_take ≫= f).
Proof. intros Hf s Hs Hn. eapply below_less; [done|done|by apply take_total|done]. Qed.

Lemma below_take_expected {B} v n (f : unit -> Scan B) : (forall a, below n (f a)) ->
  below (S n) (lql_json_take_expected v ≫= f).
Proof. intros Hf s Hs Hn. eapply below_less; [done|done|by apply take_expected_total|done]. Qed.

(** The fuel of a loop is what is left and one. *)
Lemma steady_fueled {B} (loop : nat -> Scan B) : (forall n, below n (loop n)) ->
  steady (n ← gets remaining; loop (S n)).
Proof. intros H s Hs. apply total_gets_then. apply H; [done|lia]. Qed.

Lemma below_advance {B} c data n (f : unit -> Scan B) s : shaped s -> (remaining s < S n)%nat ->
  buffer (input s) = c :: data -> (forall a, below n (f a)) -> total (advance ≫= f) s (fun _ => onward s).
Proof.
  intros Hs Hn Hb Hf. eapply below_less; [done|done| |exact Hf].
  apply (advance_total c); [done|]. unfold at_byte. by rewrite Hb.
Qed.

(** A sequence that starts by passing bytes of the buffer. *)
Lemma below_buffer {B} n (f : bytes -> Scan B) :
  (forall c data s, shaped s -> (remaining s < n)%nat -> buffer (input s) = c :: data ->
     total (f (c :: data)) s (fun _ => onward s)) ->
  steady (f []) -> below n (lql_json_refill ;; data ← gets (fun s => buffer (input s)); f data).
Proof.
  intros Hf Hnil s Hs Hn. apply (below_then n _ _ (fun _ _ => True)); [done|done| |].
  - eapply total_impl; [by apply steady_refill|]. by intros r s' H.
  - intros [] s1 Hs1 Hn1 _. apply total_gets_then. destruct (buffer (input s1)) as [|c data] eqn:E; [by apply Hnil|].
    by apply Hf.
Qed.

Lemma below_advance_by {B} k n (f : unit -> Scan B) s : shaped s -> (remaining s < S n)%nat ->
  buffer (input s) <> [] -> (0 < k)%nat -> (forall a, below n (f a)) ->
  total (advance_by k ≫= f) s (fun _ => onward s).
Proof.
  intros Hs Hn Hb Hk Hf. eapply below_less; [done|done| |exact Hf].
  apply steady_total; [apply steady_advance_by|done|]. apply ok_modify. by apply advance_by_less.
Qed.

(** *** Spaces, escapes, UTF-8 *)

Lemma skip_space_loop_below fuel : forall skipped, below fuel (skip_space_loop fuel skipped).
Proof.
  induction fuel as [|fuel IH]; intros skipped; [intros s Hs Hn; lia|]. cbn [skip_space_loop].
  apply below_peek. intros [v|]; [|apply holding_below, below_steady, steady_ret].
  destruct (is_space v); cbn [negb].
  - apply holding_advance. intros []. apply IH.
  - apply holding_below, below_steady, steady_modify. intros s Hs. unfold on_input.
    destruct (_ && _); by apply onward_input.
Qed.

Lemma steady_skip_space : steady lql_json_skip_space.
Proof. apply (steady_fueled (fun n => skip_space_loop n false)). intros n. apply skip_space_loop_below. Qed.

#[local] Hint Resolve steady_spool_write steady_drain steady_write steady_copy_byte steady_flush
  steady_ask_cancelled steady_set_cancelled steady_refill steady_peek steady_advance steady_advance_by
  steady_take steady_take_expected steady_skip_space : steady.

Lemma steady_or_error {A} message (r : A + lql_status) : steady (or_error message r).
Proof.
  unfold or_error. destruct r; [apply steady_ret|]. apply steady_bind; [|intros _; apply steady_stop].
  apply steady_modify. intros s. apply steady_json_error.
Qed.
#[local] Hint Resolve steady_or_error : steady.

Lemma steady_take_hex_loop n : forall value raw, steady (take_hex_loop n value raw).
Proof. induction n as [|n IH]; intros value raw; cbn [take_hex_loop]; steady. Qed.

Lemma steady_take_hex4 : steady lql_json_take_hex4.
Proof. apply steady_take_hex_loop. Qed.

Lemma steady_take_continuation low high : steady (take_continuation low high).
Proof. unfold take_continuation. steady. Qed.
#[local] Hint Resolve steady_take_hex4 steady_take_continuation : steady.

Lemma steady_skip_continuations n : forall low high, steady (skip_continuations n low high).
Proof. induction n as [|n IH]; intros low high; cbn [skip_continuations]; steady. Qed.

Lemma steady_skip_unicode_escape : steady skip_unicode_escape.
Proof. unfold skip_unicode_escape. steady. Qed.
#[local] Hint Resolve steady_skip_continuations steady_skip_unicode_escape : steady.

End io.

#[export] Hint Resolve steady_spool_write steady_drain steady_write steady_copy_byte steady_flush
  steady_ask_cancelled steady_set_cancelled steady_refill steady_peek steady_advance steady_advance_by
  steady_take steady_take_expected steady_skip_space steady_or_error steady_take_hex4
  steady_take_continuation steady_skip_continuations steady_skip_unicode_escape : steady.

(** [below] of a computation by its structure. *)
Ltac below_step :=
  match goal with
  | |- below _ _ (attempt _ ≫= _) => apply below_attempt; [|intros ?]
  | |- below _ _ (_ ≫= _) => apply below_bind; [|intros ?]
  | |- below _ _ (if ?b then _ else _) => destruct b eqn:?
  | |- below _ _ (match ?x with _ => _ end) => destruct x
  | |- below _ _ (let _ := _ in _) => cbv zeta
  | |- below _ _ _ => assumption
  | |- below _ _ _ => apply below_steady; solve [auto with steady nocore]
  end.
Ltac below := repeat below_step.

Section values.
Context (cfg : scan_config).
Implicit Types (s : lql_json_scan).
#[local] Abbreviation shaped := (shaped cfg).
#[local] Abbreviation onward := (onward cfg).
#[local] Abbreviation steady := (steady cfg).
#[local] Abbreviation below := (below cfg).
#[local] Abbreviation holding := (holding cfg).

(** *** Strings and literals *)

Lemma skip_string_loop_below fuel : below fuel (skip_string_loop fuel).
Proof.
  induction fuel as [|fuel IH]; [intros s Hs Hn; lia|]. cbn [skip_string_loop].
  apply below_buffer; [|apply steady_error]. intros value data s Hs Hn Hb.
  destruct (lql_json_plain_ascii_span (value :: data) =? 0)%nat eqn:Esp; cbn [negb].
  - eapply below_advance; [done..|]. intros []. below.
  - eapply below_advance_by; [done|exact Hn|by rewrite Hb|apply Nat.eqb_neq in Esp; lia|]. intros []. below.
Qed.

Lemma steady_skip_string_fast : steady lql_json_skip_string_fast.
Proof.
  apply steady_bind; [apply steady_take_expected|]. intros _.
  apply (steady_fueled cfg skip_string_loop). intros n. apply skip_string_loop_below.
Qed.

Lemma steady_skip_literal_fast l : steady (lql_json_skip_literal_fast l).
Proof. induction l as [|c l IH]; cbn [lql_json_skip_literal_fast]; steady. Qed.

(** *** Numbers

    [track c n m]: from the byte [c] under the cursor, [m] gives the byte that is
    then under it. *)

Definition track (c : option Z) (n : nat) (m : Scan (option Z)) : Prop :=
  forall s, shaped s -> at_byte c s -> (remaining s < n)%nat ->
  total m s (fun r s' => onward s s' /\ forall c', r = inl c' -> at_byte c' s').

Lemma track_ret c n : track c n (mret c).
Proof. intros s Hs Hc _. split; [by apply onward_refl|by intros c' [= <-]]. Qed.

Lemma track_error c n message : track c n (lql_json_error message).
Proof. intros s Hs _ _. split; [by apply steady_json_error|done]. Qed.

Lemma track_peek c n : track c n lql_json_peek.
Proof. intros s Hs _ _. by apply peek_total. Qed.

Lemma track_bind c n (m : Scan (option Z)) (f : option Z -> Scan (option Z)) :
  track c n m -> (forall c', track c' n (f c')) -> track c n (m ≫= f).
Proof.
  intros Hm Hf s Hs Hc Hn. eapply total_bind; [by apply Hm| |].
  - intros c' s1 [H1 Hc1]. eapply total_impl; [apply Hf; [apply H1|by apply Hc1|]|].
    + pose proof (on_remaining _ _ _ H1). lia.
    + intros r s2 [H2 H]. split; [by eapply onward_trans|done].
  - intros st s1 [H1 _]. by split.
Qed.

Lemma holding_bind {B} c n (m : Scan (option Z)) (f : option Z -> Scan B) :
  track c n m -> (forall c', holding c' n (f c')) -> holding c n (m ≫= f).
Proof.
  intros Hm Hf s Hs Hc Hn. eapply below_then; [done|exact Hn|by apply Hm|].
  intros c' s' Hs' Hn' Hc'. by apply Hf.
Qed.

Lemma track_then {A} c n (m : Scan A) (f : A -> Scan (option Z)) :
  steady m -> (forall a c', track c' n (f a)) -> track c n (m ≫= f).
Proof.
  intros Hm Hf s Hs Hc Hn. eapply total_bind; [by apply Hm| |].
  - intros a s1 H1. eapply total_impl; [eapply Hf; [apply H1|done|]|].
    + pose proof (on_remaining _ _ _ H1). lia.
    + intros r s2 [H2 H]. split; [exact (onward_trans _ _ _ _ H1 H2)|done].
  - intros st s1 H1. split; [exact H1|done].
Qed.

Lemma track_attempt c n (m : Scan (option Z)) message (f : option Z -> Scan (option Z)) :
  track c n m -> (forall c', track c' n (f c')) ->
  track c n (r ← attempt m; c ← or_error message r; f c).
Proof.
  intros Hm Hf s Hs Hc Hn. eapply total_attempt_bind; [by apply Hm|].
  intros [c'|st] s1 [H1 Hc1]; cbn [or_error].
  - apply total_ret_then. eapply total_impl; [apply Hf; [apply H1|by apply Hc1|]|].
    + pose proof (on_remaining _ _ _ H1). lia.
    + intros r s2 [H2 H]. split; [by eapply onward_trans|done].
  - split; [|done]. eapply onward_trans; [exact H1|]. apply steady_json_error, H1.
Qed.

Lemma track_digits {L : nat -> Scan (option Z)} d n : (forall fuel, track (Some d) fuel (L fuel)) ->
  track (Some d) n (n ← gets remaining; L (S n)).
Proof. intros H s Hs Hc _. apply total_gets_then. apply H; [done|done|lia]. Qed.

Lemma track_digit_of c n (m : Scan (option Z)) message : (forall d, track (Some d) n m) ->
  track c n (if digit_of c then m else lql_json_error message).
Proof.
  intros Hm. destruct (digit_of c) eqn:E; [|apply track_error].
  apply digit_of_spec in E as (d & -> & _). apply Hm.
Qed.

Lemma steady_track c (m : Scan (option Z)) s : (forall n, track c n m) -> shaped s -> at_byte c s ->
  total m s (fun _ => onward s).
Proof.
  intros H Hs Hc. eapply total_impl; [apply (H (S (remaining s))); [done|done|lia]|]. by intros r s' [H' _].
Qed.

(** A step that takes a byte. *)
Lemma track_less {A} n (m : Scan A) (f : A -> Scan (option Z)) s (P : A -> lql_json_scan -> Prop) :
  shaped s -> (remaining s < S n)%nat ->
  total m s (fun r s' => onward s s' /\ forall a, r = inl a -> P a s' /\ (remaining s' < remaining s)%nat) ->
  (forall a s', shaped s' -> P a s' -> (remaining s' < n)%nat ->
     total (f a) s' (fun r s'' => onward s' s'' /\ forall c', r = inl c' -> at_byte c' s'')) ->
  total (m ≫= f) s (fun r s' => onward s s' /\ forall c', r = inl c' -> at_byte c' s').
Proof.
  intros Hs Hn Hm Hf. eapply total_bind; [exact Hm| |].
  - intros a s1 [H1 H]. destruct (H _ eq_refl) as [Hp Hl]. eapply total_impl; [apply Hf; [apply H1|done|lia]|].
    intros r s2 [H2 Hr]. split; [by eapply onward_trans|done].
  - intros st s1 [H1 _]. by split.
Qed.

Lemma skip_digits_track d n : track (Some d) n skip_digits.
Proof.
  apply (track_digits (L := skip_digits_loop)). intros fuel. revert d.
  induction fuel as [|fuel IH]; intros d s Hs Hc Hn; [lia|]. cbn [skip_digits_loop].
  eapply (track_less _ _ _ _ (fun _ _ => True)); [done|exact Hn| |].
  - eapply total_impl; [by apply (advance_total cfg d)|]. intros r s' [H1 H]. split; [done|]. intros a ->. by eauto.
  - intros [] s1 Hs1 _ Hn1. apply (track_bind (list.head (buffer (input s1))) fuel); [apply track_peek| |done|done|done].
    intros c. destruct (digit_of c) eqn:E; [|apply track_ret]. apply digit_of_spec in E as (d' & -> & _). apply IH.
Qed.

Lemma skip_number_integer_track c n : track c n skip_number_integer.
Proof.
  apply track_bind; [apply track_peek|]. intros c1. apply track_bind.
  - destruct (byte_is c1 ch_minus); [|apply track_ret]. apply track_then; [apply steady_advance|]. intros _ c2. apply track_peek.
  - intros c2. destruct (byte_is c2 ch_0).
    + apply track_then; [apply steady_advance|]. intros _ c3. apply track_peek.
    + apply track_digit_of. intros d. apply skip_digits_track.
Qed.

Lemma skip_number_fraction_track c n : track c n (skip_number_fraction c).
Proof.
  unfold skip_number_fraction. destruct (byte_is c ch_dot); [|apply track_ret].
  apply track_then; [apply steady_advance|]. intros _ c1. apply track_attempt; [apply track_peek|].
  intros c2. apply track_digit_of. intros d. apply skip_digits_track.
Qed.

Lemma skip_number_exponent_holding c n : holding c n (skip_number_exponent c).
Proof.
  unfold skip_number_exponent. destruct (byte_is c ch_e || byte_is c ch_E); [|apply holding_below, below_steady, steady_ret].
  apply holding_below, below_bind; [apply below_steady, steady_advance|]. intros _. apply below_peek. intros c1.
  apply holding_bind.
  - destruct (byte_is c1 ch_plus || byte_is c1 ch_minus); [|apply track_ret].
    apply track_then; [apply steady_advance|]. intros _ c2. apply track_peek.
  - intros c2. destruct (digit_of c2) eqn:E; [|apply holding_below, below_steady, steady_error].
    apply digit_of_spec in E as (d & -> & _). apply holding_bind; [apply skip_digits_track|].
    intros c3. apply holding_below, below_steady, steady_ret.
Qed.

Lemma steady_skip_number_fast : steady lql_json_skip_number_fast.
Proof.
  apply steady_below. intros n s Hs Hn.
  apply (holding_bind (list.head (buffer (input s))) n); [apply skip_number_integer_track| |done|done|done].
  intros c. apply holding_bind; [apply skip_number_fraction_track|]. intros c1. apply skip_number_exponent_holding.
Qed.
End values.

#[export] Hint Resolve steady_skip_string_fast steady_skip_literal_fast steady_skip_number_fast : steady.
