(* ===== verification/ScanTotalTerms.v ===== *)
(** * The matcher gives results

    With tables of failures of the right size the matcher never looks outside a
    target: the functions that feed it bytes are defined, and keep the sizes of its
    arrays.  Then the same for strings, numbers, keys and the masks of a depth. *)

From S2P Require Import Prelude.
From S2P Require Import Unicode.
From S2P Require Import Errors.
From S2P Require Import ScanTerm.
From S2P Require Import ScanNumber.
From S2P Require Import JsonSpool.
From S2P Require Import ScanState.
From S2P Require Import ScanInput.
From S2P Require Import ScanMatch.
From S2P Require Import JsonScan.
From S2P Require Import ScanSpan.
From S2P Require Import ScanLogic.
From S2P Require Import ScanReads.
From S2P Require Import ScanFeed.
From S2P Require Import ScanFed.
From S2P Require Import ScanMatches.
From S2P Require Import ScanTotal.

(** ** The contains matcher *)

Section kmp.
Context (t : bytes) (f : list nat).
Hypothesis size : length f = length t.
Hypothesis falls : forall i b, f !! i = Some b -> (b <= i)%nat.

Lemma kmp_back_total c fuel : forall pos, (pos <= fuel)%nat -> (pos < length t)%nat ->
  exists p, kmp_back fuel t f c pos = Some p /\ (p <= pos)%nat.
Proof.
  induction fuel as [|fuel IH]; intros [|p] Hf Hp; cbn [kmp_back]; try (exists 0%nat; split; [done|lia]); [lia|].
  destruct (lookup_lt_is_Some_2 t (S p) Hp) as [x ->]. cbn.
  destruct (x =? c); [by exists (S p)|].
  destruct (lookup_lt_is_Some_2 f p ltac:(lia)) as [b Hb]. rewrite Hb. cbn.
  pose proof (falls _ _ Hb). destruct (IH b) as (q & -> & Hq); [lia..|]. exists q. split; [done|lia].
Qed.

Lemma kmp_step_total c pos : (pos < length t)%nat ->
  exists p b, kmp_step t f c pos = Some (p, b) /\ (p < length t)%nat.
Proof.
  intros Hp. unfold kmp_step. destruct (kmp_back_total c pos pos) as (q & -> & Hq); [done|done|]. cbn.
  destruct (lookup_lt_is_Some_2 t q ltac:(lia)) as [x ->]. cbn.
  set (q' := if x =? c then S q else q). assert (q' <= S q)%nat by (unfold q'; case_if; lia).
  destruct (Nat.eqb_spec q' (length t)) as [E|E].
  - destruct (lookup_lt_is_Some_2 f (q' - 1) ltac:(lia)) as [b Hb]. rewrite Hb. cbn.
    pose proof (falls _ _ Hb). eexists _, _. split; [done|lia].
  - eexists _, _. split; [done|lia].
Qed.

Lemma kmp_bytes_total d : forall pos b, (pos < length t)%nat ->
  exists p b', kmp_bytes t f d pos b = Some (p, b') /\ (p < length t)%nat.
Proof.
  induction d as [|c d IH]; intros pos b Hp; cbn; [by exists pos, b|].
  destruct (kmp_step_total c pos Hp) as (p & b1 & -> & Hp1). cbn. by apply IH.
Qed.
End kmp.

Section matcher.
Context (cfg : scan_config) (tables : Forall table_ok (flat_terms cfg)).
Implicit Types (s : lql_json_scan) (m : scan_matcher).
#[local] Abbreviation terms := (flat_terms cfg).
#[local] Abbreviation shaped := (shaped cfg).
#[local] Abbreviation onward := (onward cfg).
#[local] Abbreviation steady := (steady cfg).
#[local] Abbreviation searching := (searching cfg).

(** ** Rounds of the loops over the terms *)

Definition inside_at (i : nat) m : Prop := match_key m = false -> forall t, terms !! i = Some t ->
  searches t = true -> has (match_active m) i = true -> inside t (position m i).

Lemma searching_at m : searching m <-> forall i, inside_at i m.
Proof. unfold ScanTotal.searching, inside_at. naive_solver. Qed.

Lemma inside_agree i m m' : agree i m m' -> inside_at i m -> inside_at i m'.
Proof.
  intros [Hf _ _ _ Hp] H Hk t Ht Hs Ha. rewrite Hp.
  rewrite (frame_key _ _ Hf) in Hk. rewrite (frame_active _ _ Hf) in Ha. by apply H.
Qed.

Lemma touches_frame i m m' : touches i m m' -> frame m' = frame m.
Proof. intros H. apply (H (S i)). lia. Qed.

(** A round of a loop that starts from [m0] is defined, changes its term only and
    leaves it inside its target. *)
Definition round_ok m0 (f : nat -> lql_json_flat_eq_term -> scan_matcher -> option scan_matcher) : Prop :=
  forall i t m, terms !! i = Some t -> frame m = frame m0 -> inside_at i m ->
  exists m', f i t m = Some m' /\ touches i m m' /\ inside_at i m'.

Lemma rounds_total f m0 : round_ok m0 f -> searching m0 ->
  exists m', try_each f terms m0 = Some m' /\ frame m' = frame m0 /\ searching m'.
Proof.
  intros Hf Hm0. unfold try_each.
  assert (forall l k m, (forall i t, l !! i = Some t -> terms !! (k + i)%nat = Some t) ->
    frame m = frame m0 -> searching m ->
    exists m', try_each_from k f l m = Some m' /\ frame m' = frame m0 /\ searching m') as K; [|by apply K].
  induction l as [|t l IH]; intros k m Hl Hfm Hm; [by exists m|]. cbn [try_each_from].
  destruct (Hf k t m) as (m1 & -> & Ht & Hi); [|done|by apply searching_at|].
  { specialize (Hl 0%nat t eq_refl). by rewrite Nat.add_0_r in Hl. }
  cbn. apply (IH (S k) m1).
  - intros i t' Ht'. specialize (Hl (S i) t' Ht'). by rewrite Nat.add_succ_r in Hl.
  - rewrite <- Hfm. by eapply touches_frame.
  - apply searching_at. intros i. destruct (decide (i = k)) as [->|Hn]; [done|].
    eapply inside_agree; [by apply Ht|]. by apply searching_at.
Qed.

Lemma table_of i t : terms !! i = Some t -> table_ok t.
Proof. intros H. eapply list.Forall_lookup in tables; [exact tables|exact H]. Qed.

(** A term that was not moved, or moved within its target. *)
Lemma inside_touch i m m' : inside_at i m -> match_key m' = match_key m -> match_active m' = match_active m ->
  position m' i = position m i -> inside_at i m'.
Proof. intros H Hk Ha Hp Hk' t Ht Hs Hact. rewrite Hp. apply H; congruence. Qed.

Lemma inside_moved i t m p : terms !! i = Some t -> inside_at i m ->
  (match_key m = false -> searches t = true -> inside t p) ->
  inside_at i (m <| match_pos := <[i := p]> (match_pos m) |>).
Proof.
  intros Ht Hm Hp Hk t' Ht' Hs Ha. rewrite position_insert, Nat.eqb_refl. cbn -[Nat.ltb].
  rewrite Ht in Ht'. injection Ht' as <-. destruct (i <? _)%nat; [by apply Hp|]. by apply Hm.
Qed.

Lemma inside_key i m : match_key m = true -> inside_at i m.
Proof. intros E Hk. congruence. Qed.

(** The three ways a round ends. *)
Lemma round_same i m : inside_at i m -> exists m', Some m = Some m' /\ touches i m m' /\ inside_at i m'.
Proof. intros H. exists m. auto with touches. Qed.

Lemma round_fail i m : inside_at i m -> exists m', Some (fail_term i m) = Some m' /\ touches i m m' /\ inside_at i m'.
Proof. intros H. eexists. split; [done|]. split; [auto with touches|]. by eapply inside_touch. Qed.

Lemma round_found i m : inside_at i m -> exists m', Some (found_term i m) = Some m' /\ touches i m m' /\ inside_at i m'.
Proof. intros H. eexists. split; [done|]. split; [auto with touches|]. by eapply inside_touch. Qed.

Lemma round_step i t st m : terms !! i = Some t -> inside_at i m ->
  (searches t = true -> inside t (step_pos st)) ->
  exists m', Some (apply_step i st m) = Some m' /\ touches i m m' /\ inside_at i m'.
Proof.
  intros Ht Hm Hp. eexists. split; [done|]. split; [auto with touches|].
  rewrite apply_step_eq. cbv zeta. pose proof (inside_moved i t m (step_pos st) Ht Hm (fun _ => Hp)) as K.
  destruct (step_failed st), (step_found st); by eapply inside_touch.
Qed.

(** A term that looks for its value, with some bytes. *)
Lemma kmp_inside t f d pos b : table_ok t -> term_value t <> [] -> contains_failure t = Some f -> inside t pos ->
  exists p b', kmp_bytes (term_value t) f d pos b = Some (p, b') /\ inside t p.
Proof.
  intros Ht Hv Hf Hp. destruct (Ht f Hf) as (_ & H1 & H2).
  destruct (kmp_bytes_total (term_value t) f H1 H2 d pos b) as (p & b' & E & Hl); [by destruct Hp|].
  exists p, b'. split; [done|by right].
Qed.

(** ** Bytes *)

Lemma searches_contains t : kind_is t LQL_JSON_FLAT_TERM_CONTAINS = true -> searches t = true.
Proof. unfold searches. by intros ->. Qed.

Lemma match_value_byte_round v i t m : terms !! i = Some t -> inside_at i m -> match_key m = false ->
  has (match_active m) i = true -> kind_is t LQL_JSON_FLAT_TERM_ICONTAINS = false ->
  exists m', match_value_byte v i t m = Some m' /\ touches i m m' /\ inside_at i m'.
Proof.
  intros Ht Hm Hk Ha Hi. unfold match_value_byte. destruct (kind_is t LQL_JSON_FLAT_TERM_CONTAINS) eqn:Ec.
  - destruct (length (term_value t) =? 0)%nat eqn:El; [by apply round_found|].
    destruct (contains_failure t) as [f|] eqn:Ef; [|by apply round_fail].
    pose proof (searches_contains t Ec) as Hs. apply Nat.eqb_neq in El.
    destruct (kmp_inside t f [v] (position m i) false) as (p & b & E & Hp); try done.
    { by eapply table_of. }
    { intros E. by rewrite E in El. }
    { by apply Hm. }
    rewrite kmp_step_bytes, E. by apply (round_step i t).
  - assert (Hs : searches t = false) by (unfold searches; by rewrite Ec, Hi).
    destruct (_ && _); [by apply round_same|].
    destruct (term_value t !! position m i) as [c|]; [|by apply round_fail]. case_if; [|by apply round_fail].
    eexists. split; [done|]. split; [auto with touches|]. apply (inside_moved i t); [done|done|congruence].
Qed.

Lemma match_term_byte_round v m0 : round_ok m0 (match_term_byte v).
Proof.
  intros i t m Ht _ Hm. unfold match_term_byte. destruct (has (match_active m) i) eqn:Ha; [|by apply round_same].
  destruct (has (match_failed m) i); [by apply round_same|]. cbn [negb orb].
  destruct (match_key m) eqn:Hk; cbn [negb andb].
  - unfold match_key_byte. assert (K : forall m', match_key m' = match_key m -> touches i m m' ->
      exists m'', Some m' = Some m'' /\ touches i m m'' /\ inside_at i m'').
    { intros m' E Htc. exists m'. split; [done|]. split; [done|]. apply inside_key. congruence. }
    destruct (key_target m t i); [|apply K; auto with touches].
    destruct (lql_json_pointer_target_byte _ _) as [[c adv]|]; [|apply K; auto with touches].
    case_if; apply K; auto with touches.
  - destruct (_ || _) eqn:E; [by apply round_same|]. apply orb_false_iff in E as [E _].
    by apply match_value_byte_round.
Qed.

(** ** Bytes in lower case *)

Lemma icontains_step_total t d pos : table_ok t -> (searches t = true -> inside t pos) ->
  exists st, icontains_step t d pos = Some st /\ (searches t = true -> inside t (step_pos st)).
Proof.
  intros Ht Hp. unfold icontains_step. destruct (kind_is t LQL_JSON_FLAT_TERM_IPREFIX) eqn:Ek.
  - destruct (iprefix_bytes _ _ _ _) as [p b]. eexists. split; [done|]. unfold searches.
    apply bool_decide_eq_true in Ek. unfold kind_is. by rewrite Ek.
  - destruct (length d =? 0)%nat; [by eexists|].
    destruct (length (term_value t) =? 0)%nat eqn:El; [by eexists|].
    destruct (contains_failure t) as [f|] eqn:Ef; [|by eexists].
    destruct (kmp_inside t f d pos false) as (p & b & -> & H); auto.
    { intros E. by rewrite E in El. }
    { apply Hp. by destruct (Ht f Ef). }
    eexists. by split.
Qed.

Lemma icontains_bytes_total d m : searching m ->
  exists m', lql_json_match_icontains_bytes cfg d m = Some m' /\ frame m' = frame m /\ searching m'.
Proof.
  apply rounds_total. intros i t m1 Ht _ Hm. cbv beta.
  destruct (has (match_active m1) i) eqn:Ha; [|by apply round_same].
  destruct (match_key m1) eqn:Hk; [by apply round_same|]. cbn [negb orb].
  case_if; [by apply round_same|].
  destruct (icontains_step_total t d (position m1 i)) as (st & -> & Hst); [by eapply table_of|by intros; apply Hm|].
  cbn. by apply (round_step i t).
Qed.

Lemma icontains_span_total d m : match_key m = false -> searching m ->
  exists m', lql_json_match_icontains_ascii_span cfg d m = Some m' /\ frame m' = frame m /\ searching m'.
Proof.
  intros Hk Hm. unfold lql_json_match_icontains_ascii_span. case_if; [by exists m|].
  apply rounds_total; [|done]. intros i t m1 Ht Hf Hi. cbv beta.
  destruct (has (match_icontains m1) i); [|by apply round_same].
  destruct (has (match_active m1) i) eqn:Ha; [|by apply round_same].
  destruct (has (match_failed m1) i); [by apply round_same|]. cbn [negb orb].
  destruct (icontains_step_total t (map ascii_lower d) (position m1 i)) as (st & -> & Hst); [by eapply table_of| |].
  - intros Hs. apply Hi; try done. by rewrite (frame_key _ _ Hf).
  - cbn. by apply (round_step i t).
Qed.

Lemma contains_span_total active d m : match_key m = false -> searching m ->
  exists m', lql_json_match_contains_ascii_span cfg active d m = Some m' /\ frame m' = frame m /\ searching m'.
Proof.
  intros Hk Hm. unfold lql_json_match_contains_ascii_span. case_if; [by exists m|].
  apply rounds_total; [|done]. intros i t m1 Ht Hf Hi. cbv beta.
  destruct (has active i); [|by apply round_same].
  destruct (has (match_active m1) i) eqn:Ha; [|by apply round_same].
  destruct (has (match_failed m1) i); [by apply round_same|]. cbn [negb orb].
  destruct (kind_is t LQL_JSON_FLAT_TERM_CONTAINS) eqn:Ek; cbn [negb]; [|by apply round_fail].
  destruct (length (term_value t) =? 0)%nat eqn:El; [by apply round_found|].
  destruct (contains_failure t) as [f|] eqn:Ef; [|by apply round_fail].
  destruct (kmp_inside t f d (position m1 i) false) as (p & b & -> & Hp); try done.
  - by eapply table_of.
  - intros E. by rewrite E in El.
  - apply Hi; try done; [by rewrite (frame_key _ _ Hf)|by apply searches_contains].
  - cbn. by apply (round_step i t).
Qed.

Lemma icontains_byte_total v m : searching m ->
  exists m', lql_json_match_icontains_byte cfg v m = Some m' /\ frame m' = frame m /\ searching m'.
Proof.
  intros Hm. unfold lql_json_match_icontains_byte. cbv zeta.
  set (m1 := if (match_case_need m =? 0)%nat then _ else m).
  set (m2 := m1 <| match_case_bytes := _ |>).
  assert (H2 : frame m2 = frame m /\ searching m2).
  { unfold m2, m1. by destruct (match_case_need m =? 0)%nat. }
  destruct H2 as [Hf2 Hm2]. case_if; [by exists m2|].
  assert (K : exists m3, match lql_unicode_utf8_decode_one (match_case_bytes m2) with
    | Some rune => match lql_unicode_utf8_encode (lower_rune rune) with
                   | Some lower => lql_json_match_icontains_bytes cfg lower m2 | None => Some m2 end
    | None => Some m2 end = Some m3 /\ frame m3 = frame m /\ searching m3).
  { destruct (lql_unicode_utf8_decode_one _) as [rune|]; [|by exists m2].
    destruct (lql_unicode_utf8_encode _) as [lower|]; [|by exists m2].
    destruct (icontains_bytes_total lower m2 Hm2) as (m3 & -> & Hf3 & Hm3). exists m3.
    split; [done|]. split; [congruence|done]. }
  destruct K as (m3 & -> & Hf3 & Hm3). cbn. eexists. split; [done|]. by split.
Qed.

(** ** The state *)

(** Bytes were fed: the rest of the state is as before, and the terms that look for
    their value are inside it. *)
Record calm s s' : Prop := {
  cm_input : input s' = input s;
  cm_output : output s' = output s;
  cm_capture : capture_path_active (capture s') = capture_path_active (capture s);
  cm_active : capture_active (capture s') = capture_active (capture s);
  cm_frame : frame (matcher s') = frame (matcher s);
  cm_searching : searching (matcher s')
}.

Lemma calm_refl s : searching (matcher s) -> calm s s.
Proof. by split. Qed.

Lemma calm_trans s1 s2 s3 : calm s1 s2 -> calm s2 s3 -> calm s1 s3.
Proof. intros [A1 A2 A3 A4 A5 A6] [B1 B2 B3 B4 B5 B6]. split; [congruence..|by rewrite B5|done]. Qed.

Lemma frame_paths m m' : frame m' = frame m -> path_active m' = path_active m /\ recursive_active m' = recursive_active m.
Proof. intros H. split; (apply (frame_field _ m m'); [done|exact H]). Qed.

Lemma calm_onward s s' : shaped s -> calm s s' -> onward s s'.
Proof.
  intros [H1 H2 H3 H4 H5] [A1 A2 A3 _ A4 A5]. destruct (frame_paths _ _ A4) as [E1 E2].
  split; [split; by rewrite ?E1, ?E2, ?A3, ?A2|by rewrite A1|]. unfold remaining. by rewrite A1.
Qed.

(** Another state of the timestamp. *)
Lemma calm_temporal f s : searching (matcher s) -> calm s (on_temporal f s).
Proof. by split. Qed.

Lemma calm_matcher m s : frame m = frame (matcher s) -> searching m -> calm s (s <| matcher := m |>).
Proof. by split. Qed.

(** What matching leaves of the captures. *)
Definition same_captures (c c' : scan_capture) : Prop :=
  capture_path_active c' = capture_path_active c /\ capture_active c' = capture_active c.

#[local] Instance same_captures_preorder : PreOrder same_captures.
Proof. split; [by split|]. intros a b c [H1 H2] [H3 H4]. split; congruence. Qed.

Lemma capture_byte_keeps v c : same_captures c (capture_byte cfg v c).
Proof.
  unfold capture_byte. apply (each_keeps same_captures). intros i key c' _. repeat case_match; by split.
Qed.

Lemma match_byte_total v s : searching (matcher s) ->
  exists s', lql_json_match_byte cfg v s = Some s' /\ calm s s' /\
    (match_active (matcher s) = 0 -> match_icontains (matcher s) = 0 -> matcher s' = matcher s).
Proof.
  intros Hs. unfold lql_json_match_byte. destruct (nothing_active s); [exists s; auto using calm_refl|].
  set (s1 := on_temporal _ s). assert (C1 : calm s s1) by by apply calm_temporal.
  destruct (is_empty (match_active (matcher s1)) && is_empty (capture_active (capture s1))); [by exists s1|].
  assert (K : exists m, (if is_empty (match_active (matcher s1)) then Some (matcher s1)
      else try_each (match_term_byte v) terms (matcher s1)) = Some m /\ frame m = frame (matcher s1) /\
      searching m /\ (match_active (matcher s1) = 0 -> m = matcher s1)).
  { destruct (is_empty (match_active (matcher s1))) eqn:E; [by exists (matcher s1)|].
    destruct (rounds_total _ _ (match_term_byte_round v (matcher s1)) Hs) as (m & Hm & Hf & Hsm).
    exists m. repeat split; try done. intros Z. by rewrite Z in E. }
  destruct K as (m & -> & Hf & Hsm & Hm). cbn -[is_empty frame].
  set (s2 := if is_empty (capture_active (capture s)) then _ else _).
  assert (C2 : calm s s2 /\ matcher s2 = m).
  { assert (C : calm s (s1 <| matcher := m |>)) by (eapply calm_trans; [exact C1|by apply calm_matcher]).
    unfold s2. destruct (is_empty _); [by split|]. split; [|done].
    eapply calm_trans; [exact C|]. destruct (capture_byte_keeps v (capture s)) as [K1 K2]. by split. }
  destruct C2 as [C2 E2]. change (matcher s1) with (matcher s) in *.
  destruct (is_empty (match_icontains (matcher s2))) eqn:Ei.
  - exists s2. split; [done|]. split; [done|]. intros Z _. rewrite E2. by apply Hm.
  - destruct (icontains_byte_total v (matcher s2)) as (m3 & -> & Hf3 & Hm3); [apply C2|]. cbn -[frame].
    eexists. split; [done|]. split; [eapply calm_trans; [exact C2|by apply calm_matcher]|].
    intros Z1 Z2. rewrite E2, (Hm Z1), Z2 in Ei. done.
Qed.

Lemma match_bytes_total go data : forall s, searching (matcher s) ->
  exists s', match_bytes_while cfg go data s = Some s' /\ calm s s' /\
    (match_active (matcher s) = 0 -> match_icontains (matcher s) = 0 -> matcher s' = matcher s).
Proof.
  induction data as [|c data IH]; intros s Hs; cbn [match_bytes_while]; [exists s; auto using calm_refl|].
  destruct (go s); [|exists s; auto using calm_refl].
  destruct (match_byte_total c s Hs) as (s1 & -> & C1 & H1). cbn.
  destruct (IH s1) as (s2 & -> & C2 & H2); [apply C1|]. exists s2. split; [done|].
  split; [by eapply calm_trans|]. intros Z1 Z2. specialize (H1 Z1 Z2). rewrite <- H1.
  apply H2; by rewrite H1.
Qed.

(** ** Spans *)

Lemma span_term_round m t i d m' : terms !! i = Some t -> inside_at i m ->
  lql_json_match_span_term m t i d = Some m' -> touches i m m' /\ inside_at i m'.
Proof.
  intros Ht Hm. unfold lql_json_match_span_term. destruct (_ && (_ || _ || _)) eqn:E; [done|].
  assert (K : forall m1, match_key m1 = match_key m -> match_active m1 = match_active m ->
    position m1 i = position m i -> touches i m m1 -> Some m1 = Some m' -> touches i m m' /\ inside_at i m').
  { intros m1 Ek Ea Ep Htc [= <-]. split; [done|]. by eapply inside_touch. }
  destruct (if match_key m then _ else _) as [target|]; [|apply K; auto with touches].
  destruct (match_key m && _); [done|]. cbv zeta.
  repeat match goal with |- (if ?b then _ else _) = _ -> _ => destruct b end;
    try (apply K; auto with touches; fail).
  intros [= <-]. split; [auto with touches|]. apply (inside_moved i t); [done|done|].
  intros Hk Hs. rewrite Hk in E. cbn in E. unfold searches in Hs. bool_hyps. exfalso.
  apply orb_true_iff in Hs. intuition congruence.
Qed.

(** A mask changed for a while and put back. *)
Lemma frame_put_back m m' x : frame m' = frame (m <| match_icontains := x |>) ->
  frame (m' <| match_icontains := match_icontains m |>) = frame m.
Proof. destruct m, m'. unfold frame. cbn. intros H. injection H. intros. by subst. Qed.

Lemma frame_put_back_both m m' : frame m' = frame (m <| match_active := 0 |> <| match_icontains := 0 |>) ->
  frame (m' <| match_active := match_active m |> <| match_icontains := match_icontains m |>) = frame m.
Proof. destruct m, m'. unfold frame. cbn. intros H. injection H. intros. by subst. Qed.

Lemma match_span_bytes_total mask i d s : searching (matcher s) ->
  exists s', match_span_bytes cfg mask i d s = Some s' /\ calm s s'.
Proof.
  intros Hs. unfold match_span_bytes. cbv zeta.
  set (s1 := on_temporal _ s). set (s2 := if is_empty mask then s1 else _).
  assert (H2 : exists x, matcher s2 = (matcher s) <| match_icontains := x |> /\ input s2 = input s /\
    output s2 = output s /\ capture s2 = capture s /\ searching (matcher s2)).
  { unfold s2. destruct (is_empty mask); [exists (match_icontains (matcher s))|exists 0]; repeat split; try done.
    unfold s1. cbn. by destruct (matcher s). }
  destruct H2 as (x & Em & Ei & Eo & Ec & Hs2).
  destruct (match_bytes_total (fun s => has (match_active (matcher s)) i && negb (has (match_failed (matcher s)) i)) d
    s2 Hs2) as (s3 & -> & [C1 C2 C3 C4 C5 C6] & _).
  eexists. split; [reflexivity|]. split; cbn -[frame].
  - by rewrite C1.
  - by rewrite C2.
  - by rewrite C3, Ec.
  - by rewrite C4, Ec.
  - apply (frame_put_back _ _ x). by rewrite C5, Em.
  - exact C6.
Qed.

Lemma match_span_terms_total contains icontains d l : forall k s,
  (forall i t, l !! i = Some t -> terms !! (k + i)%nat = Some t) -> searching (matcher s) ->
  exists b s', match_span_terms cfg contains icontains k l d s = Some (b, s') /\ calm s s'.
Proof.
  induction l as [|t l IH]; intros k s Hl Hs; cbn [match_span_terms]; [exists true, s; auto using calm_refl|].
  assert (Hnext : forall i t', l !! i = Some t' -> terms !! (S k + i)%nat = Some t').
  { intros i t' Ht'. specialize (Hl (S i) t' Ht'). by rewrite Nat.add_succ_r in Hl. }
  cbv zeta. case_if; [by apply IH|].
  destruct (lql_json_match_span_term (matcher s) t k d) as [m|] eqn:E.
  - apply span_term_round in E as [Ht Hi]; [|specialize (Hl 0%nat t eq_refl); by rewrite Nat.add_0_r in Hl|by apply searching_at].
    assert (Hm : searching m).
    { apply searching_at. intros i. destruct (decide (i = k)) as [->|Hn]; [done|].
      eapply inside_agree; [by apply Ht|]. by apply searching_at. }
    set (s1 := s <| matcher := m |>). destruct (IH (S k) s1 Hnext Hm) as (b & s' & -> & C). exists b, s'. split; [done|].
    eapply calm_trans; [|exact C]. apply calm_matcher; [by eapply touches_frame|done].
  - destruct (match_span_bytes_total icontains k d s Hs) as (s' & -> & C). by exists false, s'.
Qed.

Lemma capture_span_total d s : searching (matcher s) -> exists s', capture_span cfg d s = Some s' /\ calm s s'.
Proof.
  intros Hs. unfold capture_span. cbv zeta. set (s1 := on_temporal _ (on_matcher _ s)).
  destruct (match_bytes_total (fun s => negb (is_empty (Z.ldiff (capture_active (capture s))
    (capture_failed (capture s))))) d s1) as (s2 & -> & [C1 C2 C3 C4 C5 _] & H).
  { intros _ i t _ _. cbn. by rewrite has_0. }
  specialize (H eq_refl eq_refl). eexists. split; [reflexivity|].
  assert (Em : (matcher s2) <| match_active := match_active (matcher s) |>
                 <| match_icontains := match_icontains (matcher s) |> = matcher s).
  { rewrite H. unfold s1. cbn. by destruct (matcher s). }
  split; cbn -[frame]; try done; by rewrite ?Em.
Qed.

Lemma match_span_total d s : searching (matcher s) -> exists s', lql_json_match_span cfg d s = Some s' /\ calm s s'.
Proof.
  intros Hs. unfold lql_json_match_span. case_if; [exists s; auto using calm_refl|]. cbv zeta.
  set (s1 := on_temporal _ s). change (matcher s1) with (matcher s).
  assert (K1 : exists m, (if is_empty (if match_key (matcher s) then 0 else contains_terms cfg
      (Z.ldiff (Z.ldiff (match_active (matcher s)) (match_icontains (matcher s))) (match_failed (matcher s))))
    then Some (matcher s) else lql_json_match_contains_ascii_span cfg (if match_key (matcher s) then 0 else
      contains_terms cfg (Z.ldiff (Z.ldiff (match_active (matcher s)) (match_icontains (matcher s)))
        (match_failed (matcher s)))) d (matcher s)) = Some m /\ frame m = frame (matcher s) /\ searching m).
  { destruct (match_key (matcher s)) eqn:Ek; [by exists (matcher s)|].
    destruct (is_empty _); [by exists (matcher s)|]. by apply contains_span_total. }
  destruct K1 as (m1 & -> & Hf1 & Hm1). cbn [mbind option_bind].
  assert (K2 : forall mask, exists m, (if is_empty (if match_key m1 then 0 else mask) then Some m1
    else lql_json_match_icontains_ascii_span cfg d m1) = Some m /\ frame m = frame m1 /\ searching m).
  { intros mask. destruct (match_key m1) eqn:Ek; [by exists m1|].
    destruct (is_empty mask); [by exists m1|]. by apply icontains_span_total. }
  destruct (K2 (Z.ldiff (Z.land (match_active m1) (match_icontains m1)) (match_failed m1))) as (m2 & -> & Hf2 & Hm2).
  cbn [mbind option_bind]. set (s2 := s1 <| matcher := m2 |>).
  assert (C2 : calm s s2) by (apply (calm_trans _ s1); [done|apply calm_matcher; [|done]]; cbn; congruence).
  match goal with |- exists s', ?x ≫= ?k = _ /\ _ => assert (K3 : exists b s3, x = Some (b, s3) /\ calm s2 s3) end.
  { destruct (is_empty (match_active m2)); [exists true, s2; auto using calm_refl|].
    by apply match_span_terms_total. }
  destruct K3 as (b & s3 & -> & C3). cbn [mbind option_bind].
  assert (C : calm s s3) by by eapply calm_trans. case_if; [by exists s3|].
  destruct (capture_span_total d s3) as (s4 & -> & C4); [apply C|]. exists s4. split; [done|]. by eapply calm_trans.
Qed.
End matcher.

(** ** Strings, numbers and the terms of a key give results

    The functions of the scanner that feed the matcher, that compare numbers and
    that find the terms of a key or an element are steady. *)

(** *** Parts of the matcher that do not matter here *)

(** The same but for hits, segments and slots. *)
Record still (m m' : scan_matcher) : Prop := {
  sl_path : path_active m' = path_active m;
  sl_recursive : recursive_active m' = recursive_active m;
  sl_key : match_key m' = match_key m;
  sl_active : match_active m' = match_active m;
  sl_pos : match_pos m' = match_pos m
}.

#[export] Instance still_preorder : PreOrder still.
Proof. split; [by split|]. intros a b c [] []. split; congruence. Qed.

Lemma still_choose {T} (f : nat -> T -> option (option nat)) l m : still m (choose f l m).2.
Proof. unfold choose. by destruct (choose_from 0 f l (match_term_segment m)). Qed.

Section terms.
Context (cfg : scan_config) (tables : Forall table_ok (flat_terms cfg)).
Context (parse_double : bytes -> option spec_float).
Implicit Types (s : lql_json_scan) (m : scan_matcher).
#[local] Abbreviation shaped := (shaped cfg).
#[local] Abbreviation onward := (onward cfg).
#[local] Abbreviation steady := (steady cfg).
#[local] Abbreviation searching := (searching cfg).

Lemma still_searching m m' : still m m' -> searching m -> searching m'.
Proof.
  intros [_ _ Hk Ha Hp] H E i t Ht Hs Hact. unfold position. rewrite Hp.
  rewrite Hk in E. rewrite Ha in Hact. by apply H.
Qed.

Lemma onward_matcher s m : shaped s -> path_active m = path_active (matcher s) ->
  recursive_active m = recursive_active (matcher s) -> searching m -> onward s (s <| matcher := m |>).
Proof. intros [H1 H2 H3 H4 H5] E1 E2 Hm. split; [|done..]. by split; cbn; rewrite ?E1, ?E2. Qed.

Lemma onward_still s m : shaped s -> still (matcher s) m -> onward s (s <| matcher := m |>).
Proof.
  intros Hs Hm. pose proof (sh_searching _ _ Hs). apply onward_matcher; [done|by apply Hm..|].
  by eapply still_searching.
Qed.

Lemma steady_still f : (forall m, still m (f m)) -> steady (modify (on_matcher f)).
Proof. intros H. apply steady_modify. intros s Hs. by apply onward_still. Qed.

Lemma steady_add_hits f : steady (modify (fun s => add_hits (f s) s)).
Proof. apply steady_modify. intros s Hs. by apply onward_still. Qed.

Lemma steady_add_hits_const h : steady (modify (add_hits h)).
Proof. apply (steady_add_hits (fun _ => h)). Qed.

Lemma steady_matching f : (forall m, still m (f m).2) -> steady (matching f).
Proof.
  intros H. apply steady_state. intros s Hs. specialize (H (matcher s)).
  destruct (f (matcher s)) as [mask m]. by apply onward_still.
Qed.

(** *** Feeding *)

Lemma steady_match_byte v : steady (match_byte cfg v).
Proof.
  apply steady_run. intros s Hs. destruct (match_byte_total cfg tables v s) as (s' & -> & C & _); [apply Hs|].
  exists s'. split; [done|]. by apply calm_onward.
Qed.

Lemma steady_match_unicode v : steady (match_unicode cfg v).
Proof.
  apply steady_run. intros s Hs. unfold lql_json_match_unicode.
  destruct (match_bytes_total cfg tables (fun _ => true) (unicode_bytes v) s) as (s' & -> & C & _); [apply Hs|].
  exists s'. split; [done|]. by apply calm_onward.
Qed.

Lemma steady_match_plain_span d : steady (match_plain_span cfg d).
Proof.
  unfold match_plain_span. apply steady_bind; [apply steady_gets|]. intros [|]; [|apply steady_ret].
  apply steady_run. intros s Hs. destruct (match_span_total cfg tables d s) as (s' & -> & C); [apply Hs|].
  exists s'. split; [done|]. by apply calm_onward.
Qed.

(** *** Numbers *)

Lemma steady_on_number f : steady (modify (on_number f)).
Proof. apply steady_modify. intros s Hs. by apply onward_same. Qed.

Lemma steady_modify_error f : steady (modify (on_input (fun i => i <| scan_error := f i |>))).
Proof. apply steady_modify. intros s Hs. by apply onward_input. Qed.

Lemma steady_modify_json_error message : steady (modify (fun s => json_error s message)).
Proof. apply steady_modify. intros s. apply steady_json_error. Qed.
#[local] Hint Resolve steady_match_byte steady_match_unicode steady_match_plain_span steady_on_number
  steady_modify_error steady_modify_json_error steady_add_hits steady_add_hits_const : steady.

Lemma steady_number_range_byte v : steady (lql_json_number_range_byte cfg v).
Proof. unfold lql_json_number_range_byte. steady. Qed.

Lemma steady_compare_current t right : steady (compare_current t right).
Proof. unfold compare_current. steady. Qed.

Lemma steady_compare_failed : steady compare_failed.
Proof. unfold compare_failed. steady. Qed.
#[local] Hint Resolve steady_number_range_byte steady_compare_current steady_compare_failed : steady.

Lemma steady_range_bound b t pass reject : steady (range_bound parse_double b t pass reject).
Proof. unfold range_bound. steady. Qed.
#[local] Hint Resolve steady_range_bound : steady.

Lemma steady_range_term term t : steady (range_term parse_double term t).
Proof. unfold range_term. steady. Qed.

Lemma steady_eq_term term t : steady (eq_term term t).
Proof. unfold eq_term. steady. Qed.

Lemma steady_number_hits kind test terms : (forall term t, steady (test term t)) ->
  forall i mask hits, steady (number_hits i mask kind test terms hits).
Proof.
  intros Ht. induction terms as [|term terms IH]; intros i mask hits; cbn [number_hits]; steady.
Qed.
#[local] Hint Resolve steady_range_term steady_eq_term steady_number_hits : steady.

Lemma steady_number_complete terms : steady (number_complete cfg parse_double terms).
Proof.
  unfold number_complete, lql_json_number_range_complete, lql_json_number_eq_complete. steady.
Qed.
#[local] Hint Resolve steady_number_complete : steady.

(** *** Strings and literals *)

Lemma steady_string_continuations n : forall low high, steady (string_continuations cfg n low high).
Proof. induction n as [|n IH]; intros low high; cbn [string_continuations]; steady. Qed.

Lemma steady_string_unicode_escape : steady (string_unicode_escape cfg).
Proof. unfold string_unicode_escape. steady. Qed.
#[local] Hint Resolve steady_string_continuations steady_string_unicode_escape : steady.

Lemma string_loop_below fuel : below cfg fuel (string_loop cfg fuel).
Proof.
  induction fuel as [|fuel IH]; [intros s Hs Hn; lia|]. cbn [string_loop].
  apply below_buffer; [|apply steady_error]. intros value data s Hs Hn Hb.
  destruct (lql_json_plain_ascii_span (value :: data) =? 0)%nat eqn:Esp; cbn [negb].
  - eapply below_advance; [done..|]. intros []. below.
  - eapply below_advance_by; [done|exact Hn|by rewrite Hb|apply Nat.eqb_neq in Esp; lia|]. intros []. below.
Qed.

Lemma steady_string : steady (lql_json_string cfg).
Proof.
  apply steady_bind; [apply steady_take_expected|]. intros _. apply steady_bind; [apply steady_copy_byte|].
  intros _. apply (steady_fueled cfg (string_loop cfg)). intros n. apply string_loop_below.
Qed.

Lemma steady_match_copy_byte v : steady (lql_json_match_copy_byte cfg v).
Proof. unfold lql_json_match_copy_byte. steady. Qed.
#[local] Hint Resolve steady_string steady_match_copy_byte : steady.

Lemma steady_literal l : steady (lql_json_literal cfg l).
Proof. induction l as [|c l IH]; cbn [lql_json_literal]; steady. Qed.
#[local] Hint Resolve steady_literal : steady.

(** *** Numbers of the text *)

#[local] Abbreviation track := (track cfg).
#[local] Abbreviation holding := (holding cfg).

Lemma copy_and_peek_track c n : track c n (copy_and_peek cfg c).
Proof.
  unfold copy_and_peek. apply track_then; [apply steady_advance|]. intros _ c1.
  apply track_then; [apply steady_match_copy_byte|]. intros _ c2. apply track_peek.
Qed.

(** It takes the byte under the cursor. *)
Lemma copy_and_peek_less d s : shaped s -> at_byte (Some d) s ->
  total (copy_and_peek cfg (Some d)) s (fun r s' => onward s s' /\
    forall c, r = inl c -> at_byte c s' /\ (remaining s' < remaining s)%nat).
Proof.
  intros Hs Hd. unfold copy_and_peek. eapply total_bind; [by apply (advance_total cfg d)| |].
  - intros [] s1 [H1 Hl]. specialize (Hl _ eq_refl). eapply total_bind; [by apply steady_match_copy_byte, H1| |].
    + intros [] s2 H2. eapply total_impl; [apply (peek_total cfg), H2|]. intros r s3 [H3 Hc].
      pose proof (on_remaining _ _ _ H2). pose proof (on_remaining _ _ _ H3).
      split; [eapply onward_trans; [exact H1|]; by eapply onward_trans|]. intros c E. split; [by apply Hc|lia].
    + intros st s2 H2. split; [exact (onward_trans _ _ _ _ H1 H2)|done].
  - intros st s1 [H1 _]. by split.
Qed.

Lemma digits_track d n : track (Some d) n (digits cfg (Some d)).
Proof.
  apply (track_digits cfg (L := fun fuel => digits_loop cfg fuel (Some d))). intros fuel. revert d.
  induction fuel as [|fuel IH]; intros d s Hs Hc Hn; [lia|]. cbn [digits_loop].
  eapply (track_less cfg _ _ _ _ (fun c s' => at_byte c s')); [done|exact Hn|by apply copy_and_peek_less|].
  intros c s1 Hs1 Hc1 Hn1. destruct (digit_of c) eqn:E.
  - apply digit_of_spec in E as (d' & -> & _). by apply IH.
  - by apply (track_ret cfg c (S (remaining s1))); [..|lia].
Qed.

Lemma number_integer_track c n : track c n (number_integer cfg).
Proof.
  apply track_bind; [apply track_peek|]. intros c1. apply track_bind.
  - destruct (byte_is c1 ch_minus); [apply copy_and_peek_track|apply track_ret].
  - intros c2. destruct (byte_is c2 ch_0); [apply copy_and_peek_track|].
    destruct (digit_of c2) eqn:E; [|apply track_error]. apply digit_of_spec in E as (d & -> & _). apply digits_track.
Qed.

Lemma number_fraction_track c n : track c n (number_fraction cfg c).
Proof.
  unfold number_fraction. destruct (byte_is c ch_dot); [|apply track_ret].
  apply track_attempt; [apply copy_and_peek_track|]. intros c2.
  destruct (digit_of c2) eqn:E; [|apply track_error]. apply digit_of_spec in E as (d & -> & _). apply digits_track.
Qed.

Lemma number_exponent_holding c n : holding c n (number_exponent cfg c).
Proof.
  unfold number_exponent. destruct (byte_is c ch_e || byte_is c ch_E); [|apply holding_below, below_steady, steady_ret].
  apply holding_bind; [apply copy_and_peek_track|]. intros c1. apply holding_bind.
  - destruct (byte_is c1 ch_plus || byte_is c1 ch_minus); [apply copy_and_peek_track|apply track_ret].
  - intros c2. destruct (digit_of c2) eqn:E; [|apply holding_below, below_steady, steady_error].
    apply digit_of_spec in E as (d & -> & _). apply holding_bind; [apply digits_track|].
    intros c3. apply holding_below, below_steady, steady_ret.
Qed.

Lemma steady_number : steady (lql_json_number cfg).
Proof.
  apply steady_below. intros n s Hs Hn.
  apply (holding_bind cfg (list.head (buffer (input s))) n); [apply number_integer_track| |done|done|done].
  intros c. apply holding_bind; [apply number_fraction_track|]. intros c1. apply number_exponent_holding.
Qed.

(** *** The start of a match *)

Lemma base_paths m m' : base m' = base m -> path_active m' = path_active m /\ recursive_active m' = recursive_active m.
Proof.
  intros H. split.
  - by apply (f_equal path_active) in H.
  - by apply (f_equal recursive_active) in H.
Qed.

Lemma steady_match_start active : steady (match_start cfg active).
Proof.
  apply steady_modify. intros s Hs. destruct (match_start_started cfg active false 0 (matcher s)) as [Hb Ha Hk _ _ _ _ Ht].
  destruct (base_paths _ _ Hb) as [E1 E2]. apply onward_matcher; [done..|].
  intros _ i t Hi _ Hact. rewrite Ha in Hact. destruct (Ht i t Hi Hact) as [-> _].
  unfold inside. destruct (term_value t); [by left|right; cbn; lia].
Qed.

Lemma start_key_term_same a b d i t m : let m' := match_start_key_term cfg a b d i t m in
  base m' = base m /\ match_key m' = match_key m.
Proof. unfold match_start_key_term. cbv zeta. repeat case_match; done. Qed.

(** What the rounds that start a key keep. *)
Definition key_kept (m m' : scan_matcher) : Prop := base m' = base m /\ match_key m' = match_key m.
#[local] Instance key_kept_preorder : PreOrder key_kept.
Proof. split; [by split|]. intros a b c [H1 H2] [H3 H4]. split; congruence. Qed.

Lemma steady_match_start_key a b d : steady (modify (on_matcher (lql_json_match_start_key cfg a b d))).
Proof.
  apply steady_modify. intros s Hs. unfold on_matcher, lql_json_match_start_key.
  destruct (match_start_started cfg (Z.lor a b) true d (matcher s)) as [Hb _ Hk _ _ _ _ _].
  set (m1 := lql_json_match_start _ _ _ _ _) in *.
  assert (K : key_kept m1 (each (match_start_key_term cfg a b d) (flat_terms cfg) m1)).
  { apply (each_keeps key_kept). intros. apply start_key_term_same. }
  destruct K as [Kb Kk]. destruct (base_paths _ _ Kb) as [E1 E2]. destruct (base_paths _ _ Hb) as [E3 E4].
  apply onward_matcher; [done|congruence..|]. intros E. congruence.
Qed.

Lemma steady_temporal_start active : steady (temporal_start active).
Proof. apply steady_modify. intros s Hs. by apply onward_same. Qed.

Lemma steady_number_start active : steady (number_start cfg active).
Proof. apply steady_modify. intros s Hs. by apply onward_same. Qed.
#[local] Hint Resolve steady_number steady_match_start steady_match_start_key steady_temporal_start
  steady_number_start : steady.

Lemma steady_matched_string a b : steady (matched_string cfg a b).
Proof. unfold matched_string. steady. Qed.

Lemma steady_matched_literal l a b : steady (matched_literal cfg l a b).
Proof. unfold matched_literal. steady. Qed.

(** *** The terms of a key *)

Lemma still_each {T} (f : nat -> T -> scan_matcher -> scan_matcher) l :
  (forall i x m, still m (f i x m)) -> forall m, still m (each f l m).
Proof. intros H. apply (each_keeps still). auto. Qed.

Lemma still_recursive_terms active d m : still m (lql_json_match_recursive_terms cfg active d m).2.
Proof.
  unfold lql_json_match_recursive_terms. destruct (_ <=? d)%nat; [done|]. cbv zeta. cbn [snd].
  apply still_each. intros i t m'. by destruct (_ && _).
Qed.

Lemma still_terminal_terms active d m : still m (lql_json_match_terminal_recursive_terms cfg active d m).2.
Proof. unfold lql_json_match_terminal_recursive_terms. cbv zeta. destruct (is_empty _); [done|apply still_choose]. Qed.

Lemma still_object_wildcards active d m : still m (lql_json_match_object_wildcards cfg active d m).2.
Proof. unfold lql_json_match_object_wildcards. destruct (_ <=? d)%nat; [done|apply still_choose]. Qed.

Lemma still_anchor_terms active d m : still m (lql_json_match_terminal_recursive_anchor_terms cfg active d m).2.
Proof. apply still_choose. Qed.

Lemma still_array_index active d i m : still m (lql_json_match_array_index cfg active d i m).2.
Proof. apply still_choose. Qed.

Lemma still_recursive_wildcards r d m : still m (lql_json_match_recursive_object_wildcards cfg r d m).2.
Proof. apply still_choose. Qed.

Lemma still_recursive_array r d i m : still m (lql_json_match_recursive_array_terms cfg r d i m).2.
Proof. apply still_choose. Qed.

Lemma still_key_segments mask m : still m (key_segments_from_match cfg mask m).
Proof. apply still_each. intros i t m'. by destruct (has mask i). Qed.

Lemma still_root_hits m : still m (lql_json_match_root_terminal_recursive_exists cfg m).2.
Proof.
  unfold lql_json_match_root_terminal_recursive_exists.
  pose proof (still_terminal_terms (flat_eq_terminal_recursive_root_exists_terms cfg) 0 m) as H.
  destruct (lql_json_match_terminal_recursive_terms _ _ _ _) as [mask m']. cbn [snd] in *.
  etrans; [exact H|apply still_key_segments].
Qed.

Lemma still_prefer k m : still m (prefer_recursive cfg k m).
Proof. apply still_each. intros i t m'. cbv zeta. by destruct (_ && _). Qed.

Lemma still_restart k d m : still m (restart_recursive cfg k d m).
Proof.
  apply still_each. intros i t m'. destruct (has _ i); [|done].
  destruct (lql_json_active_recursive_segment _ _ _ _ _); [|done]. cbv zeta. by destruct (_ || _).
Qed.

Lemma still_carry a b r k m : still m (lql_json_carry_recursive_segments cfg a b r k m).
Proof.
  unfold lql_json_carry_recursive_segments. destruct (_ || _); [done|]. apply still_each.
  intros i t m'. unfold carry_term. repeat case_match; done.
Qed.

Lemma steady_modify_still f : (forall m, still m (f m)) -> steady (modify (on_matcher f)).
Proof. apply steady_still. Qed.

Lemma steady_at_depth array d : (d < LQL_JSON_MAX_DEPTH)%nat ->
  (forall s, shaped s -> length (array s) = LQL_JSON_MAX_DEPTH) -> steady (at_depth array d).
Proof.
  intros Hd Ha s Hs. unfold at_depth. apply total_gets_then. unfold total, defined.
  destruct (lookup_lt_is_Some_2 (array s) d) as [v ->]; [by rewrite Ha|]. by apply onward_refl.
Qed.

Lemma steady_anchors a d : steady (anchor_terms cfg a d).
Proof.
  unfold anchor_terms. destruct (flat_eq_has_repeated_recursive_terms cfg); [|apply steady_ret].
  apply steady_matching. intros m. apply still_anchor_terms.
Qed.
#[local] Hint Resolve steady_matched_string steady_matched_literal steady_anchors : steady.

(** A step of the matcher that gives a mask. *)
Lemma steady_state_matcher (f : scan_matcher -> Z * scan_matcher) : (forall m, still m (f m).2) ->
  steady (state (fun s => let '(mask, m) := f (matcher s) in (mask, s <| matcher := m |>))).
Proof. apply (steady_matching f). Qed.

Lemma steady_key_terms d : (d < LQL_JSON_MAX_DEPTH)%nat -> steady (key_terms cfg d).
Proof.
  intros Hd. unfold key_terms.
  apply steady_bind; [apply steady_at_depth; [done|by intros s []]|]. intros path.
  apply steady_bind; [apply steady_at_depth; [done|by intros s []]|]. intros inherited.
  apply steady_bind; [apply steady_gets|]. intros on. cbv zeta.
  apply steady_bind.
  { destruct (flat_eq_has_recursive_terms cfg); [|apply steady_ret].
    apply steady_bind; [|intros here; apply steady_ret]. apply steady_state_matcher. intros m. apply still_recursive_terms. }
  intros recursive. apply steady_bind; [destruct (flat_eq_has_array_terms cfg); auto with steady|].
  intros active. apply steady_bind; [|intros wildcards; apply steady_ret].
  destruct (flat_eq_has_object_wildcards cfg); [|apply steady_ret].
  apply steady_state_matcher. intros m. apply still_object_wildcards.
Qed.

(** The captures changed, but for the masks of the depths. *)
Lemma steady_on_capture f : (forall c, capture_path_active (f c) = capture_path_active c) ->
  steady (modify (on_capture f)).
Proof. intros H. apply steady_modify. intros s Hs. apply onward_same; try done. apply H. Qed.

Definition capture_masks_kept (c c' : scan_capture) : Prop := capture_path_active c' = capture_path_active c.
#[local] Instance capture_masks_preorder : PreOrder capture_masks_kept.
Proof. split; [by intros c|]. intros a b c H1 H2. unfold capture_masks_kept in *. congruence. Qed.

Lemma capture_start_kept a d c : capture_path_active (lql_json_capture_start cfg a d c) = capture_path_active c.
Proof.
  unfold lql_json_capture_start. match goal with |- context [each ?f ?l ?x] =>
    change (capture_masks_kept x (each f l x)) end.
  apply (each_keeps capture_masks_kept). intros i x c' _. by destruct (has a i).
Qed.

Lemma steady_slow_key a r w c d : steady (slow_key cfg a r w c d).
Proof.
  unfold slow_key. apply steady_bind; [apply steady_on_capture; intros; apply capture_start_kept|]. intros _.
  apply steady_bind; [apply steady_match_start_key|]. intros _.
  apply steady_attempt; [apply steady_string|]. intros r'.
  apply steady_bind; [apply steady_gets|]. intros complete.
  apply steady_bind; [apply steady_matching; intros m; apply still_recursive_wildcards|]. intros below.
  apply steady_bind; [apply steady_matching; intros m; apply still_terminal_terms|]. intros terminal.
  apply steady_bind; [apply steady_anchors|]. intros anchors.
  apply steady_bind; [apply steady_gets|]. intros captures. apply steady_ret.
Qed.

(** A round of the fast path sets segments only. *)
Definition round_still (r r' : key_match * scan_matcher) : Prop := still r.2 r'.2.
#[local] Instance round_still_preorder : PreOrder round_still.
Proof. unfold round_still. split; [by intros r|]. intros a b c H1 H2. by etrans. Qed.

Lemma round_still_refl r : round_still r r.
Proof. unfold round_still. reflexivity. Qed.

Lemma ordinary_still i d r : round_still r (ordinary_match i d r).
Proof. by destruct r. Qed.

Lemma recursive_still i d r : round_still r (recursive_match i d r).
Proof. destruct r as [k m]. unfold recursive_match, round_still. by destruct (has (km_matches k) i). Qed.

Lemma fallback_still key i d t r : round_still r (plain_key_fallback key i d t r).
Proof. unfold plain_key_fallback. case_if; [apply ordinary_still|apply round_still_refl]. Qed.

Lemma plain_key_term_still o r d key i t x : round_still x (plain_key_term cfg o r d key i t x).
Proof.
  unfold plain_key_term. case_if; [apply round_still_refl|]. cbv zeta.
  set (y := if has o i then _ else x).
  assert (Hy : round_still x y) by (unfold y; case_if; [apply fallback_still|apply round_still_refl]).
  etrans; [exact Hy|]. repeat case_match; eauto using fallback_still, recursive_still, round_still_refl.
Qed.

Lemma plain_key_root_still a key i t x : round_still x (plain_key_root_term a key i t x).
Proof. unfold plain_key_root_term. case_if; [apply ordinary_still|apply round_still_refl]. Qed.

Lemma steady_fast_key a r d : steady (fast_key cfg a r d).
Proof.
  intros s Hs. unfold total, fast_key, lql_json_try_plain_key_match.
  destruct (plain_key (buffer (input s))) as [key|]; cbn [mbind option_bind]; [|by apply onward_refl].
  match goal with |- context [each ?f ?l ?x] =>
    assert (K : round_still x (each f l x)) by (apply (each_keeps round_still); intros; case_if;
      auto using plain_key_root_still, plain_key_term_still);
    destruct (each f l x) as [k m] end.
  cbn in K. apply (onward_trans _ _ (s <| matcher := m |>)); [by apply onward_still|].
  apply onward_input; try done; [by apply (on_shaped _ _ _ (onward_still _ _ Hs K))|].
  unfold remaining. cbn -[list_sum drop]. rewrite length_drop. lia.
Qed.

Lemma steady_object_key d : (d < LQL_JSON_MAX_DEPTH)%nat -> steady (object_key cfg d).
Proof.
  intros Hd. unfold object_key. apply steady_bind; [by apply steady_key_terms|]. intros [[active recursive] wildcards].
  apply steady_bind; [apply steady_at_depth; [done|by intros s []]|]. intros captures.
  apply steady_bind; [case_if; [apply steady_fast_key|apply steady_ret]|]. intros [k|]; [|apply steady_slow_key].
  apply steady_bind; [apply steady_anchors|]. intros anchors. apply steady_ret.
Qed.

(** *** The masks of a depth *)

Lemma set_path_onward d v s : shaped s -> onward s (set_path_active d v s).
Proof. intros [H1 H2 H3 H4 H5]. split; [|done..]. split; cbn; rewrite ?length_insert; done. Qed.

Lemma set_recursive_onward d v s : shaped s -> onward s (set_recursive_active d v s).
Proof. intros [H1 H2 H3 H4 H5]. split; [|done..]. split; cbn; rewrite ?length_insert; done. Qed.

Lemma set_capture_onward d v s : shaped s -> onward s (set_capture_path d v s).
Proof. intros [H1 H2 H3 H4 H5]. split; [|done..]. split; cbn; rewrite ?length_insert; done. Qed.

Lemma steady_set_path d v : steady (modify (set_path_active d v)).
Proof. apply steady_modify. intros s. apply set_path_onward. Qed.
Lemma steady_set_recursive d v : steady (modify (set_recursive_active d v)).
Proof. apply steady_modify. intros s. apply set_recursive_onward. Qed.
Lemma steady_set_capture d v : steady (modify (set_capture_path d v)).
Proof. apply steady_modify. intros s. apply set_capture_onward. Qed.

Lemma steady_set_depth d f : (d < LQL_JSON_MAX_DEPTH)%nat -> (forall s, shaped s -> onward s (f s)) ->
  steady (set_depth d f).
Proof. intros Hd Hf. unfold set_depth. rewrite (proj2 (Nat.ltb_lt d _) Hd). by apply steady_modify. Qed.

Lemma steady_clear_below d : (d < LQL_JSON_MAX_DEPTH)%nat -> steady (clear_below d).
Proof.
  intros Hd. apply steady_set_depth; [done|]. intros s Hs.
  pose proof (set_path_onward d 0 s Hs) as H1. pose proof (set_recursive_onward d 0 _ (on_shaped _ _ _ H1)) as H2.
  pose proof (set_capture_onward d 0 _ (on_shaped _ _ _ H2)) as H3.
  eapply onward_trans; [exact H1|]. by eapply onward_trans.
Qed.

Lemma steady_open_below k d container a b : steady (open_below cfg k d container a b).
Proof.
  unfold open_below. destruct (S d <? LQL_JSON_MAX_DEPTH)%nat; [|apply steady_ret].
  apply steady_bind; [apply steady_set_path|]. intros _. apply steady_bind; [apply steady_set_recursive|]. intros _.
  apply steady_bind; [|intros _; apply steady_set_capture]. case_if; [|apply steady_ret].
  apply steady_still. intros m. apply still_carry.
Qed.

Lemma steady_record_captures mask start : steady (modify (record_captures cfg mask start)).
Proof. apply steady_modify. intros s Hs. by apply onward_same. Qed.

Lemma steady_skip_rest d : (d < LQL_JSON_MAX_DEPTH)%nat -> steady (skip_rest cfg d).
Proof.
  intros Hd. unfold skip_rest. apply steady_bind; [apply steady_at_depth; [done|by intros s []]|]. intros captures.
  apply steady_bind; [apply steady_gets|]. intros ready. apply steady_ret.
Qed.

Lemma steady_element_terms a r d i : steady (element_terms cfg a r d i).
Proof.
  unfold element_terms. apply steady_bind; [apply steady_matching; intros m; apply still_array_index|]. intros direct.
  apply steady_bind; [apply steady_gets|]. intros segments.
  apply steady_bind; [apply steady_matching; intros m; apply still_recursive_array|]. intros below.
  apply steady_bind; [apply steady_matching; intros m; apply still_terminal_terms|]. intros terminal.
  apply steady_bind; [apply steady_anchors|]. intros anchors. cbv zeta.
  apply steady_bind; [|intros _; apply steady_ret]. apply steady_still. intros m. apply still_each.
  intros j t m'. by destruct (has _ j).
Qed.

Lemma steady_array_masks d : (d < LQL_JSON_MAX_DEPTH)%nat -> steady (array_masks cfg d).
Proof.
  intros Hd. unfold array_masks. apply steady_bind; [apply steady_at_depth; [done|by intros s []]|]. intros active.
  apply steady_bind; [apply steady_at_depth; [done|by intros s []]|]. intros captures.
  apply steady_bind; [apply steady_matching; intros m; apply still_recursive_terms|]. intros here.
  apply steady_bind; [apply steady_at_depth; [done|by intros s []]|]. intros inherited.
  apply steady_bind; [|intros _; apply steady_ret]. case_if; [|apply steady_ret].
  apply steady_modify. intros s Hs. pose proof (set_path_onward (S d) 0 s Hs) as H1.
  eapply onward_trans; [exact H1|]. apply set_capture_onward, H1.
Qed.

Lemma steady_root_hits b : steady (root_hits cfg b).
Proof.
  unfold root_hits. case_if; [|apply steady_ret]. apply steady_bind.
  - apply steady_matching. intros m. apply still_root_hits.
  - intros hits. apply steady_add_hits_const.
Qed.
End terms.
