(* ===== verification/ScanTotalValues.v ===== *)
(** * Values give results

    An input whose containers nest within the limit: every value of it is read to an
    end, whatever it is.  The nesting matters since a value that fails leaves the
    scanner at the depth it had reached, and masks are then cleared there. *)

From S2P Require Import Prelude.
From S2P Require Import Errors.
From S2P Require Import JsonSpool.
From S2P Require Import SpoolProps.
From S2P Require Import ScanTerm.
From S2P Require Import ScanNumber.
From S2P Require Import ScanState.
From S2P Require Import ScanInput.
From S2P Require Import ScanMatch.
From S2P Require Import JsonScan.
From S2P Require Import JsonGrammar.
From S2P Require Import ScanSpan.
From S2P Require Import ScanLogic.
From S2P Require Import ScanReads.
From S2P Require Import ScanWrites.
From S2P Require Import ScanSound.
From S2P Require Import ScanTotal.
From S2P Require Import ScanTotalTerms.

(** The input left does not nest too deep, from the depth the scanner is at. *)
Definition shallow (s : lql_json_scan) : Prop :=
  (nesting Outside (depth (input s)) (stream s) < LQL_JSON_MAX_DEPTH)%nat.

(** A text that passes over what is open. *)
Definition passes (w : bytes) : Prop := forall d t, (nesting Outside d t <= nesting Outside d (w ++ t))%nat.

Lemma passes_nil : passes [].
Proof. by intros d t. Qed.

Lemma passes_app a b : passes a -> passes b -> passes (a ++ b).
Proof. intros Ha Hb d t. rewrite <- app_assoc. etransitivity; [apply Hb|apply Ha]. Qed.

Lemma passes_inert w : Forall inert w -> passes w.
Proof. intros H d t. by rewrite nesting_inert. Qed.

Lemma passes_spaces w : spaces w -> passes w.
Proof. intros H. by apply passes_inert, spaces_inert. Qed.

Lemma passes_string w : json_string w -> passes w.
Proof. intros H d t. by rewrite nesting_string. Qed.

Lemma passes_value n w c : json_value n w c -> passes w.
Proof. intros H d t. exact (proj1 nesting_grammar n w c H d t). Qed.

Lemma passes_byte c : inert c -> passes [c].
Proof. intros H. apply passes_inert. by apply list.Forall_singleton. Qed.

Section values.
Context {content : bytes -> lql_json_spool -> Prop} `{!SpoolLaws content}.
Context (cfg : scan_config) (tables : Forall table_ok (flat_terms cfg)).
Context (parse_double : bytes -> option spec_float).
Implicit Types (s : lql_json_scan).
#[local] Abbreviation shaped := (shaped cfg).
#[local] Abbreviation onward := (onward cfg).
#[local] Abbreviation steady := (steady cfg).
#[local] Abbreviation moves := (moves (content := content)).
#[local] Abbreviation value_ok := (value_ok (content := content) cfg).

Record good s : Prop := { gd_shaped : shaped s; gd_sane : sane s; gd_shallow : shallow s }.

Lemma good_low s : good s -> (depth (input s) < LQL_JSON_MAX_DEPTH)%nat.
Proof. intros [_ _ H]. unfold shallow in H. pose proof (nesting_ge (stream s) Outside (depth (input s))). lia. Qed.

Lemma good_moves w c o s s' : good s -> shaped s' -> moves w c o s s' -> passes w -> good s'.
Proof.
  intros [_ Hs Hsh] Hs' M Hw. split; [done|by apply (moves_sane _ _ _ _ _ M)|].
  unfold shallow in *. rewrite (mv_depth _ _ _ _ _ M). rewrite (mv_stream _ _ _ _ _ M) in Hsh.
  specialize (Hw (depth (input s)) (stream s')). lia.
Qed.

Lemma good_same_input s s' : good s -> shaped s' -> input s' = input s -> good s'.
Proof. intros [_ Hs Hsh] Hs' E. split; [done| |]; unfold sane, shallow, stream in *; by rewrite E. Qed.

(** How a computation on a value or a container ends: at depth [d] with at most [n]
    left when it succeeds, within the depths of the arrays in any case. *)
Record ends {A} (d n : nat) (r : A + lql_status) s' : Prop := {
  en_shaped : shaped s';
  en_low : (depth (input s') < LQL_JSON_MAX_DEPTH)%nat;
  en_value : forall a, r = inl a -> depth (input s') = d /\ (remaining s' <= n)%nat
}.

Lemma ends_onward {A} (r : A + lql_status) s s' : good s -> onward s s' -> ends (depth (input s)) (remaining s) r s'.
Proof. intros Hg [H1 H2 H3]. split; [done|rewrite H2; by apply good_low|by intros]. Qed.

Lemma ends_fails {A} d n st s s' : good s -> onward s s' -> ends (A := A) d n (inr st) s'.
Proof. intros Hg [H1 H2 H3]. split; [done|rewrite H2; by apply good_low|done]. Qed.

(** ** Rules *)

Section rules.
Context {A B : Type}.

(** A steady step of a sequence. *)
Lemma steady_then (m : Scan A) (f : A -> Scan B) s d n P : good s -> steady m -> ok m s P ->
  (forall a s', onward s s' -> P a s' -> total (f a) s' (ends d n)) -> total (m ≫= f) s (ends d n).
Proof.
  intros Hg Hm Ho Hf. eapply total_bind; [apply total_ok; [apply Hm, Hg|exact Ho]| |].
  - intros a s' [H1 HP]. apply Hf; [done|by apply HP].
  - intros st s' [H1 _]. by eapply ends_fails.
Qed.

(** One that leaves the input alone. *)
Lemma quiet_good (m : Scan A) (f : A -> Scan B) s d n : good s -> steady m -> quiet m ->
  (forall a s', good s' -> depth (input s') = depth (input s) -> remaining s' = remaining s ->
     total (f a) s' (ends d n)) ->
  total (m ≫= f) s (ends d n).
Proof.
  intros Hg Hm Hq Hf. eapply steady_then; [done|done|apply Hq|]. intros a s' H1 [Hi _].
  apply Hf; [by eapply good_same_input; [..|apply H1|]|by rewrite Hi|unfold remaining; by rewrite Hi].
Qed.

(** A steady end. *)
Lemma steady_ends (m : Scan A) s : good s -> steady m -> total m s (ends (depth (input s)) (remaining s)).
Proof. intros Hg Hm. eapply total_impl; [apply Hm, Hg|]. intros r s' H. by apply ends_onward. Qed.

(** Steps after which the scan of a value goes on at the depth it has got to. *)
Definition low_steady (m : Scan A) : Prop := forall s, shaped s -> (depth (input s) < LQL_JSON_MAX_DEPTH)%nat ->
  total m s (fun _ => onward s).

Lemma low_steady_steady (m : Scan A) : steady m -> low_steady m.
Proof. intros H s Hs _. by apply H. Qed.
End rules.

Lemma low_steady_bind {A B} (m : Scan A) (f : A -> Scan B) : low_steady m -> (forall a, low_steady (f a)) ->
  low_steady (m ≫= f).
Proof.
  intros Hm Hf s Hs Hd. eapply total_bind; [by apply Hm| |by auto]. intros a s1 H1.
  eapply total_impl; [apply Hf; [apply H1|by rewrite (on_depth_same _ _ _ H1)]|].
  intros r s2 H2. exact (onward_trans _ _ _ _ H1 H2).
Qed.

(** What it reads is a value. *)
Definition reads_any (value : Scan unit) : Prop := forall s, sane s -> ok value s (fun _ s' =>
  exists n w c o, json_value n w c /\ moves w c o s s').

Lemma value_ok_any value : value_ok value -> reads_any value.
Proof.
  intros H s Hs. eapply ok_impl; [by apply H|]. intros [] s' (w & c & Hw & M). by eexists _, _, _, _.
Qed.

(** A computation that reads a value, when less than [n] is left. *)
Record valued (n : nat) (value : Scan unit) : Prop := {
  vl_total : forall s, good s -> (remaining s < n)%nat -> total value s (ends (depth (input s)) (remaining s));
  vl_reads : reads_any value
}.

Lemma valued_steady n value : steady value -> value_ok value -> valued n value.
Proof. intros Hs Ho. split; [|by apply value_ok_any]. intros s Hg _. by apply steady_ends. Qed.

(** A value tried, and steps after it that end with its status. *)
Lemma attempt_ends n (value : Scan unit) (post : unit + lql_status -> Scan unit) s d k :
  valued n value -> good s -> (remaining s < n)%nat -> depth (input s) = d -> (remaining s <= k)%nat ->
  (forall r, low_steady (post r)) -> (forall st s Q, ok (post (inr st)) s Q) ->
  total (attempt value ≫= post) s (ends d k).
Proof.
  intros Hv Hg Hn Hd Hk Hp Hf. eapply total_attempt_bind; [by apply (vl_total n)|].
  intros r s1 [H1 H2 H3]. eapply total_impl.
  - apply total_ok; [by apply Hp|]. instantiate (1 := fun _ _ => is_Some (match r with inl _ => Some () | inr _ => None end)).
    destruct r; [intros a s' _; by eexists|apply Hf].
  - intros r' s2 [H4 H5]. split; [apply H4|by rewrite (on_depth_same _ _ _ H4)|]. intros a ->.
    specialize (H5 _ eq_refl). destruct r as [[]|]; [|by destruct H5]. destruct (H3 _ eq_refl) as [E1 E2].
    rewrite (on_depth_same _ _ _ H4), E1. split; [done|]. pose proof (on_remaining _ _ _ H4). lia.
Qed.

(** A value read, and what comes after it. *)
Lemma value_then {B} n (value : Scan unit) (f : unit -> Scan B) s d k :
  valued n value -> good s -> (remaining s < n)%nat ->
  (forall s', good s' -> depth (input s') = depth (input s) -> (remaining s' <= remaining s)%nat ->
     total (f tt) s' (ends d k)) ->
  total (value ≫= f) s (ends d k).
Proof.
  intros Hv Hg Hn Hf. eapply total_bind.
  - apply total_ok; [by apply (vl_total n)|]. apply (vl_reads _ _ Hv), Hg.
  - intros [] s' [[H1 H2 H3] H4]. destruct (H3 _ eq_refl) as [E1 E2].
    destruct (H4 _ eq_refl) as (m & w & c & o & Hw & M).
    apply Hf; [|done|done]. eapply good_moves; [exact Hg|done|exact M|by eapply passes_value].
  - intros st s' [[H1 H2 H3] _]. by split.
Qed.

(** ** Brackets *)

Lemma take_expected_now c data s : buffer (input s) = c :: data ->
  lql_json_take_expected c s = Some (inl tt, on_input (fun i => i <| buffer := data |>) s).
Proof.
  intros Hb. unfold lql_json_take_expected, lql_json_take, lql_json_peek, lql_json_refill, advance, gets, modify,
    mbind, Scan_bind, mret, Scan_ret, on_input. cbn. rewrite Hb. cbn. rewrite Hb. cbn. rewrite Z.eqb_refl. cbn. by rewrite Hb.
Qed.

(** A bracket taken: the depth is one more. *)
Lemma open_then {B} c (k : unit -> Scan B) s d n : good s -> at_byte (Some c) s -> opens c = true ->
  (forall s', good s' -> depth (input s') = S (depth (input s)) -> (remaining s' < remaining s)%nat ->
     total (k tt) s' (ends d n)) ->
  total (on_depth S ;; lql_json_take_expected c ≫= k) s (ends d n).
Proof.
  intros [H1 [H2 H2'] H3] Hc Ho Hk. unfold at_byte in Hc. destruct (buffer (input s)) as [|c' data] eqn:Eb; [done|].
  injection Hc as ->. unfold on_depth. apply total_modify_then. unfold total, mbind, Scan_bind.
  rewrite (take_expected_now c data) by exact Eb.
  set (s' := on_input _ (on_input _ s)). apply (Hk s').
  - assert (Est : stream s = c :: stream s') by (unfold stream; cbn; by rewrite Eb).
    assert (Hsh : (nesting Outside (S (depth (input s))) (stream s') < LQL_JSON_MAX_DEPTH)%nat).
    { unfold shallow in H3. rewrite Est in H3. cbn [nesting] in H3. rewrite Ho in H3.
      destruct (Z.eqb_spec c ch_quote) as [->|]; done. }
    split; [by eapply shaped_input|split|exact Hsh].
    + rewrite Est in H2. by apply Forall_inv_tail in H2.
    + pose proof (nesting_ge (stream s') Outside (S (depth (input s)))). cbn. lia.
  - done.
  - unfold remaining. cbn -[list_sum]. rewrite Eb. cbn -[list_sum]. lia.
Qed.

Lemma enter_then {B} (k : unit -> Scan B) s d n : good s ->
  total (on_depth S ≫= k) s (ends d n) -> total (enter ≫= k) s (ends d n).
Proof.
  intros Hg H. apply good_low in Hg. unfold total, enter, mbind, Scan_bind, gets in *.
  destruct (Nat.eqb_spec (depth (input s)) LQL_JSON_MAX_DEPTH); [lia|done].
Qed.

(** The container left. *)
Lemma leave_ends s d n : shaped s -> depth (input s) = S d -> (d < LQL_JSON_MAX_DEPTH)%nat -> (remaining s <= n)%nat ->
  total leave s (ends (A := unit) d n).
Proof.
  intros Hs Hd Hl Hn. unfold total, leave, on_depth, modify. cbv iota beta. split.
  - by eapply shaped_input.
  - cbn. rewrite Hd. cbn. lia.
  - intros a _. cbn. by rewrite Hd.
Qed.

(** What an input function does to a good state. *)
Lemma peek_good {B} (f : option Z -> Scan B) s d n : good s ->
  (forall c s', good s' -> at_byte c s' -> depth (input s') = depth (input s) -> (remaining s' <= remaining s)%nat ->
     total (f c) s' (ends d n)) ->
  total (lql_json_peek ≫= f) s (ends d n).
Proof.
  intros Hg Hf. eapply steady_then; [done|apply steady_peek|apply (peek_ok (content := content))|].
  intros c s' H1 (M & Hc & _). apply Hf; [|done|apply H1..].
  eapply good_moves; [done|apply H1|exact M|apply passes_nil].
Qed.

Lemma space_good {B} (f : unit -> Scan B) s d n : good s ->
  (forall s', good s' -> depth (input s') = depth (input s) -> (remaining s' <= remaining s)%nat ->
     total (f tt) s' (ends d n)) ->
  total (lql_json_skip_space ≫= f) s (ends d n).
Proof.
  intros Hg Hf. eapply steady_then; [done|apply steady_skip_space|apply (skip_space_ok (content := content))|].
  intros [] s' H1 (sp & Hsp & M). apply Hf; [|apply H1..].
  eapply good_moves; [done|apply H1|exact M|by apply passes_spaces].
Qed.

(** The byte after a value: the one that closes, or a comma. *)
Lemma take_good {B} (f : Z -> Scan B) s d n : good s ->
  (forall c s', onward s s' -> (remaining s' < remaining s)%nat -> (inert c -> good s') -> total (f c) s' (ends d n)) ->
  total (lql_json_take ≫= f) s (ends d n).
Proof.
  intros Hg Hf. eapply total_bind.
  - apply total_ok; [apply (take_total cfg), Hg|apply (take_ok (content := content))].
  - intros c s' [[H1 Hl] M]. specialize (M _ eq_refl). apply Hf; [done|by eapply Hl|]. intros Hc.
    eapply good_moves; [done|apply H1|exact M|by apply passes_byte].
  - intros st s' [[H1 _] _]. by eapply ends_fails.
Qed.

Lemma take_expected_good {B} c (f : unit -> Scan B) s d n : good s -> inert c ->
  (forall s', good s' -> depth (input s') = depth (input s) -> (remaining s' < remaining s)%nat ->
     total (f tt) s' (ends d n)) ->
  total (lql_json_take_expected c ≫= f) s (ends d n).
Proof.
  intros Hg Hc Hf. eapply total_bind.
  - apply total_ok; [apply (take_expected_total cfg), Hg|apply (take_expected_ok (content := content))].
  - intros [] s' [[H1 Hl] M]. specialize (M _ eq_refl). apply Hf; [|apply H1|by eapply Hl].
    eapply good_moves; [done|apply H1|exact M|by apply passes_byte].
  - intros st s' [[H1 _] _]. by eapply ends_fails.
Qed.

(** A computation that ends the way the scan of its state would. *)
Lemma ends_steady {A} (m : Scan A) s d n : good s -> steady m -> depth (input s) = d -> (remaining s <= n)%nat ->
  total m s (ends d n).
Proof.
  intros Hg Hm <- Hn. eapply total_impl; [by apply steady_ends|]. intros r s' [H1 H2 H3]. split; [done..|].
  intros a E. destruct (H3 a E). split; [done|lia].
Qed.

(** ** Values that are only validated *)

Lemma skip_string_good {B} (f : unit -> Scan B) s d n : good s ->
  (forall s', good s' -> depth (input s') = depth (input s) -> (remaining s' <= remaining s)%nat ->
     total (f tt) s' (ends d n)) ->
  total (lql_json_skip_string_fast ≫= f) s (ends d n).
Proof.
  intros Hg Hf. eapply steady_then; [done|apply steady_skip_string_fast| |].
  - apply (skip_string_fast_ok (content := content)), Hg.
  - intros [] s' H1 (w & Hw & M). apply Hf; [|apply H1..].
    eapply good_moves; [done|apply H1|exact M|by apply passes_string].
Qed.

(** The fuel is enough: a value takes two calls a byte. *)
Record skips (fuel : nat) : Prop := {
  sk_value : forall s, good s -> (2 * remaining s + 1 <= fuel)%nat ->
    total (skip_value fuel) s (ends (depth (input s)) (remaining s));
  sk_members : forall c s d, good s -> depth (input s) = S d -> (2 * remaining s + 2 <= fuel)%nat ->
    total (skip_members fuel c) s (ends d (remaining s));
  sk_elements : forall s d, good s -> depth (input s) = S d -> (2 * remaining s + 2 <= fuel)%nat ->
    total (skip_elements fuel) s (ends d (remaining s))
}.

Lemma skips_valued fuel n : skips fuel -> (2 * n <= fuel + 1)%nat -> valued n (skip_value fuel).
Proof.
  intros [Hv _ _] Hn. split; [intros; apply Hv; [done|lia]|].
  intros s Hs. eapply ok_impl; [by apply (skip_value_ok (content := content))|].
  intros [] s' (w & c & Hvl & M). by eexists _, _, _, _.
Qed.

Lemma ends_weaken {A} d n n' (r : A + lql_status) s : (n <= n')%nat -> ends d n r s -> ends d n' r s.
Proof. intros Hn [H1 H2 H3]. split; [done..|]. intros a E. destruct (H3 a E). split; [done|lia]. Qed.

Lemma skip_value_ends fuel s : skips fuel -> good s -> (2 * remaining s + 1 <= S fuel)%nat ->
  total (skip_value (S fuel)) s (ends (depth (input s)) (remaining s)).
Proof.
  intros [_ Hm He] Hg Hf. cbn [skip_value]. apply peek_good; [done|]. intros c s1 Hg1 Hc D1 R1. rewrite <- D1.
  pose proof (good_low _ Hg) as Hl.
  destruct (byte_is c ch_lbrace) eqn:E1; [|destruct (byte_is c ch_lbracket) eqn:E2].
  - apply byte_is_spec in E1 as ->. apply enter_then; [done|]. apply (open_then ch_lbrace); [done..|]. intros s2 Hg2 D2 R2.
    apply space_good; [done|]. intros s3 Hg3 D3 R3. apply peek_good; [done|]. intros c4 s4 Hg4 Hc4 D4 R4.
    destruct (byte_is c4 ch_rbrace) eqn:E4.
    + eapply steady_then; [done|apply steady_advance|apply ok_true|]. intros [] s5 H5 _.
      pose proof (on_remaining _ _ _ H5). pose proof (on_depth_same _ _ _ H5).
      apply leave_ends; [apply H5|lia..].
    + eapply total_impl; [apply (Hm _ _ (depth (input s1))); [done|lia..]|].
      intros r s5. apply ends_weaken. lia.
  - apply byte_is_spec in E2 as ->. apply enter_then; [done|]. apply (open_then ch_lbracket); [done..|]. intros s2 Hg2 D2 R2.
    apply space_good; [done|]. intros s3 Hg3 D3 R3. apply peek_good; [done|]. intros c4 s4 Hg4 Hc4 D4 R4.
    destruct (byte_is c4 ch_rbracket) eqn:E4.
    + eapply steady_then; [done|apply steady_advance|apply ok_true|]. intros [] s5 H5 _.
      pose proof (on_remaining _ _ _ H5). pose proof (on_depth_same _ _ _ H5).
      apply leave_ends; [apply H5|lia..].
    + eapply total_impl; [apply (He _ (depth (input s1))); [done|lia..]|].
      intros r s5. apply ends_weaken. lia.
  - apply ends_steady; [done| |done|done]. repeat case_if; auto with steady.
Qed.

Lemma error_ends {A} message s d n : good s -> total (lql_json_error (A := A) message) s (ends d n).
Proof. intros Hg. eapply ends_fails; [done|]. apply steady_json_error, Hg. Qed.

(** What follows a value in a container. *)
Lemma separator_then {B} close (last : Scan B) (more : Z -> Scan B) message s d n :
  good s -> depth (input s) = S d -> (remaining s <= n)%nat ->
  (forall s', onward s s' -> total last s' (ends d n)) ->
  (forall s', good s' -> depth (input s') = S d -> (remaining s' < remaining s)%nat ->
     total (more ch_comma) s' (ends d n)) ->
  total (lql_json_skip_space ;; value ← lql_json_take;
         if value =? close then last
         else if negb (value =? ch_comma) then lql_json_error message else more value) s (ends d n).
Proof.
  intros Hg D Hn Hl Hm. apply space_good; [done|]. intros s1 Hg1 D1 R1. apply take_good; [done|].
  intros c s2 H2 R2 Hi. destruct (c =? close).
  - apply Hl. split; [apply H2|rewrite <- D1; apply H2|lia].
  - destruct (Z.eqb_spec c ch_comma) as [->|Hc]; cbn [negb].
    + apply Hm; [apply Hi; by repeat split|rewrite (on_depth_same _ _ _ H2); lia|lia].
    + eapply ends_fails; [exact Hg1|]. eapply onward_trans; [exact H2|]. apply steady_json_error, H2.
Qed.

Lemma skip_members_ends fuel c s d : skips fuel -> good s -> depth (input s) = S d ->
  (2 * remaining s + 2 <= S fuel)%nat -> total (skip_members (S fuel) c) s (ends d (remaining s)).
Proof.
  intros Hsk Hg D Hf. cbn [skip_members]. pose proof (good_low _ Hg) as Hl.
  destruct (byte_is c ch_quote); cbn [negb]; [|by apply error_ends].
  apply skip_string_good; [done|]. intros s1 Hg1 D1 R1. apply space_good; [done|]. intros s2 Hg2 D2 R2.
  apply take_expected_good; [done|by repeat split|]. intros s3 Hg3 D3 R3.
  apply space_good; [done|]. intros s4 Hg4 D4 R4.
  apply (value_then (remaining s)); [apply skips_valued; [done|lia]|done|lia|]. intros s5 Hg5 D5 R5.
  apply separator_then; [done|lia|lia| |].
  - intros s6 H6. pose proof (on_remaining _ _ _ H6). pose proof (on_depth_same _ _ _ H6).
    apply leave_ends; [apply H6|lia..].
  - intros s6 Hg6 D6 R6. apply space_good; [done|]. intros s7 Hg7 D7 R7.
    apply peek_good; [done|]. intros c8 s8 Hg8 _ D8 R8.
    eapply total_impl; [apply (sk_members _ Hsk _ _ d); [done|lia..]|]. intros r s9. apply ends_weaken. lia.
Qed.

Lemma skip_elements_ends fuel s d : skips fuel -> good s -> depth (input s) = S d ->
  (2 * remaining s + 2 <= S fuel)%nat -> total (skip_elements (S fuel)) s (ends d (remaining s)).
Proof.
  intros Hsk Hg D Hf. cbn [skip_elements]. pose proof (good_low _ Hg) as Hl.
  apply (value_then (S (remaining s))); [apply skips_valued; [done|lia]|done|lia|]. intros s1 Hg1 D1 R1.
  apply separator_then; [done|lia|lia| |].
  - intros s2 H2. pose proof (on_remaining _ _ _ H2). pose proof (on_depth_same _ _ _ H2).
    apply leave_ends; [apply H2|lia..].
  - intros s2 Hg2 D2 R2. apply space_good; [done|]. intros s3 Hg3 D3 R3.
    eapply total_impl; [apply (sk_elements _ Hsk _ d); [done|lia..]|]. intros r s9. apply ends_weaken. lia.
Qed.

Lemma skip_value_skips fuel : skips fuel.
Proof.
  induction fuel as [|fuel IH]; [split; intros; lia|]. split; intros.
  - by apply skip_value_ends.
  - by apply skip_members_ends.
  - by apply skip_elements_ends.
Qed.

Lemma skip_value_fast_valued n : valued n lql_json_skip_value_fast.
Proof.
  split.
  - intros s Hg _. unfold lql_json_skip_value_fast. apply total_gets_then.
    apply (sk_value _ (skip_value_skips _)); [done|unfold value_fuel; lia].
  - intros s Hs. eapply ok_impl; [by apply (skip_value_fast_ok (content := content))|].
    intros [] s' (w & c & Hvl & M). by eexists _, _, _, _.
Qed.
End values.
