(* ===== verification/ScanTotalScan.v ===== *)
(** * The scanner gives a result

    Members, elements and values for the terms of the program, then records and the
    loop over a stream: the scan of an input that nests within the limit ends,
    whatever the terms and captures, the chunks, the allocations and the spool. *)

From S2P Require Import Prelude.
From S2P Require Import Errors.
From S2P Require Import ScanTerm.
From S2P Require Import ScanNumber.
From S2P Require Import JsonSpool.
From S2P Require Import ScanState.
From S2P Require Import ScanInput.
From S2P Require Import ScanMatch.
From S2P Require Import JsonScan.
From S2P Require Import ScanSpan.
From S2P Require Import SpoolProps.
From S2P Require Import JsonGrammar.
From S2P Require Import ScanLogic.
From S2P Require Import ScanReads.
From S2P Require Import ScanWrites.
From S2P Require Import ScanSound.
From S2P Require Import ScanStream.
From S2P Require Import ScanTotal.
From S2P Require Import ScanTotalTerms.
From S2P Require Import ScanTotalValues.

Section scan.
Context {content : bytes -> lql_json_spool -> Prop} `{!SpoolLaws content}.
Context (cfg : scan_config) (tables : Forall table_ok (flat_terms cfg)).
Context (parse_double : bytes -> option spec_float).
Implicit Types (s : lql_json_scan).
#[local] Abbreviation shaped := (shaped cfg).
#[local] Abbreviation onward := (onward cfg).
#[local] Abbreviation steady := (steady cfg).
#[local] Abbreviation good := (good cfg).
#[local] Abbreviation ends := (ends cfg).
#[local] Abbreviation moves := (moves (content := content)).
#[local] Abbreviation value_ok := (value_ok (content := content) cfg).
#[local] Abbreviation valued := (valued (content := content) cfg).

(** ** Values of matched paths *)

Lemma valued_bind_quiet {A} n (m : Scan A) (f : A -> Scan unit) : steady m -> quiet m ->
  (forall a, valued n (f a)) -> valued n (m ≫= f).
Proof.
  intros Hm Hq Hf. split.
  - intros s Hg Hn. apply quiet_good; [done..|]. intros a s' Hg' D R. rewrite <- D, <- R.
    apply Hf; [done|lia].
  - intros s Hs. eapply ok_bind; [apply Hq|]. intros a s1 H1.
    pose proof (moves_quiet (content := content) _ _ H1) as M1.
    destruct (moves_sane _ _ _ _ _ M1 Hs) as [Hs1 _].
    eapply ok_impl; [apply (vl_reads _ _ _ (Hf a)), Hs1|]. intros [] s2 (k & w & c & o & Hw & M).
    exists k, w, c, o. split; [done|]. exact (moves_trans _ _ _ _ _ _ _ _ _ M1 M).
Qed.

(** A value tried, and quiet steps after it. *)
Lemma valued_attempt n (value : Scan unit) (post : unit + lql_status -> Scan unit) : valued n value ->
  (forall r, low_steady cfg (post r)) -> quiet (post (inl tt)) -> (forall st s Q, ok (post (inr st)) s Q) ->
  valued n (attempt value ≫= post).
Proof.
  intros Hv Hp Hq Hf. split.
  - intros s Hg Hn. by apply (attempt_ends (content := content) cfg n).
  - intros s Hs. eapply ok_attempt_then; [by apply (vl_reads _ _ _ Hv)| |by intros; apply Hf].
    intros [] s1 (k & w & c & o & Hw & M). eapply ok_impl; [apply Hq|]. intros [] s2 H2.
    pose proof (moves_quiet (content := content) _ _ H2) as M2. exists k, w, c, o. split; [done|].
    pose proof (moves_trans _ _ _ _ _ _ _ _ _ M M2) as M'. by rewrite !app_nil_r in M'.
Qed.

Lemma valued_string n : valued n (lql_json_string cfg).
Proof. apply valued_steady; [by apply steady_string|by apply string_value_ok]. Qed.

Lemma valued_matched_string n a b : valued n (matched_string cfg a b).
Proof. apply valued_steady; [by apply steady_matched_string|by apply matched_string_ok]. Qed.

Lemma valued_matched_literal n l a b : In l [bs "true"; bs "false"; bs "null"] -> valued n (matched_literal cfg l a b).
Proof. intros Hl. apply valued_steady; [by apply steady_matched_literal|by apply matched_literal_ok]. Qed.

Lemma valued_matched_number n value a b c : valued n value -> valued n (matched_number cfg parse_double value a b c).
Proof.
  intros Hv. unfold matched_number. apply valued_bind_quiet; [apply steady_match_start|apply quiet_match_start|].
  intros []. apply valued_bind_quiet; [apply steady_number_start|apply quiet_number_start|]. intros [].
  apply valued_attempt; [done| | |].
  - intros r. apply low_steady_steady. apply steady_bind.
    { destruct r; [|apply steady_ret]. apply steady_attempt_alone. by apply steady_number_complete. }
    intros r'. apply steady_bind; [apply steady_number_start|]. intros _.
    apply steady_bind; [apply steady_match_start|]. intros _. apply steady_finish.
  - cbv beta iota. apply quiet_attempt_then; [auto with quiet|intros []; cbv beta iota; quiet|fails].
  - fails.
Qed.

Lemma valued_gets {A} n (g : lql_json_scan -> A) (f : A -> Scan unit) : (forall a, valued n (f a)) ->
  valued n (gets g ≫= f).
Proof. intros Hf. apply valued_bind_quiet; [apply steady_gets|apply quiet_gets|done]. Qed.

Lemma valued_scalar n value matches c : valued n value ->
  valued n (lql_json_matched_scalar_value cfg parse_double value matches c).
Proof.
  intros Hv. unfold lql_json_matched_scalar_value.
  apply valued_bind_quiet; [apply steady_add_hits|quiet|]. intros [].
  apply valued_bind_quiet; [case_if; [apply steady_ret|apply steady_add_hits]|quiet|]. intros [].
  apply valued_gets. intros segments. cbv zeta.
  repeat case_match; auto using valued_string, valued_matched_string, valued_matched_number;
    apply valued_matched_literal; by eapply scalar_literal_in.
Qed.

Lemma valued_member_value n value k c : valued n value -> valued n (matched_member_value cfg parse_double value k c).
Proof.
  intros Hv. unfold matched_member_value. apply valued_gets. intros segments. cbv zeta.
  repeat case_match; auto using valued_matched_string, valued_matched_number;
    apply valued_matched_literal; by eapply scalar_literal_in.
Qed.

(** ** Members *)

Lemma valued_of_member n value d k e c : valued n value -> valued n (member_value cfg parse_double value d k e c).
Proof.
  intros Hv. unfold member_value. cbv zeta.
  apply valued_bind_quiet; [case_if; [apply steady_still; intros; apply still_prefer|apply steady_ret]|quiet|]. intros [].
  apply valued_bind_quiet; [case_if; [apply steady_still; intros; apply still_restart|apply steady_ret]|quiet|]. intros [].
  apply valued_bind_quiet; [case_if; [apply steady_ret|apply steady_add_hits_const]|quiet|]. intros [].
  apply valued_gets. intros descendants. destruct (captures_at _ _ _) as [capture_values capture_descendants].
  apply valued_gets. intros start.
  apply valued_bind_quiet; [apply steady_open_below|quiet|]. intros [].
  apply valued_attempt.
  - case_if; [by apply valued_member_value|]. case_if; [apply skip_value_fast_valued|done].
  - intros r. apply low_steady_steady. apply steady_bind.
    { destruct r; [|apply steady_ret]. case_if; [apply steady_ret|apply steady_record_captures]. }
    intros _. apply steady_bind; [|intros _; apply steady_finish].
    destruct (Nat.ltb_spec (S d) LQL_JSON_MAX_DEPTH); [by apply steady_clear_below|apply steady_ret].
  - cbv beta iota. quiet.
  - fails.
Qed.

(** Steps that end with the status of something that failed before them. *)
Lemma never_ends {A} (m : Scan A) s0 s d n : good s0 -> onward s0 s -> steady m ->
  (forall Q, ok m s Q) -> total m s (ends d n).
Proof.
  intros Hg H0 Hm Hf. eapply total_impl; [apply total_ok; [apply Hm, H0|apply (Hf (fun _ _ => False))]|].
  intros [a|st] s' [H1 H2]; [by destruct (H2 _ eq_refl)|]. eapply ends_fails; [exact Hg|]. by eapply onward_trans.
Qed.

Lemma steady_stop_then {A B} status (f : A -> Scan B) : steady (finish (inr status) ≫= f).
Proof. intros s Hs. by apply onward_refl. Qed.

Lemma member_ends n value d s : valued n value -> (d < LQL_JSON_MAX_DEPTH)%nat -> good s -> (remaining s <= n)%nat ->
  total (member cfg parse_double value d) s (ends (depth (input s)) (remaining s)).
Proof.
  intros Hv Hd Hg Hn. unfold member.
  eapply steady_then; [done|by apply steady_object_key|by apply (object_key_ok (content := content)), Hg|].
  intros [k r] s1 H1 Hk. cbn [snd] in Hk. destruct r as [[]|st].
  - destruct (Hk eq_refl) as (w & Hw & M1).
    assert (Hg1 : good s1) by (eapply (good_moves (content := content)); [done|apply H1|exact M1|by apply passes_string]).
    pose proof (on_remaining _ _ _ H1) as R1. rewrite <- (on_depth_same _ _ _ H1). clear H1 M1 Hk.
    apply quiet_good; [done|case_if; [apply steady_ret|apply steady_still; intros; apply still_key_segments]|quiet|].
    intros [] s2 Hg2 <- R2. apply quiet_good; [done|apply steady_gets|quiet|]. intros e s3 Hg3 <- R3.
    apply quiet_good; [done|case_if; [apply steady_ret|apply steady_add_hits]|quiet|]. intros [] s4 Hg4 <- R4.
    apply quiet_good; [done|apply steady_match_start|quiet|]. intros [] s5 Hg5 <- R5. apply total_ret_then.
    apply (space_good (content := content)); [done|]. intros s6 Hg6 <- R6.
    apply (take_expected_good (content := content)); [done|by repeat split|]. intros s7 Hg7 <- R7.
    eapply steady_then; [done|apply steady_copy_byte|apply (copy_byte_ok (content := content))|]. intros [] s8 H8 M8.
    assert (Hg8 : good s8) by (eapply (good_moves (content := content)); [done|apply H8|exact M8|apply passes_nil]).
    pose proof (on_remaining _ _ _ H8) as R8. rewrite <- (on_depth_same _ _ _ H8). clear H8 M8.
    apply (space_good (content := content)); [done|]. intros s9 Hg9 <- R9.
    apply (peek_good (content := content)); [done|]. intros c s10 Hg10 _ <- R10.
    eapply total_impl; [apply (vl_total _ _ _ (valued_of_member n value d k e c Hv)); [done|lia]|].
    intros r' s11. apply ends_weaken. lia.
  - eapply never_ends; [exact Hg|exact H1| |intros; fails].
    apply steady_bind; [case_if; [apply steady_ret|apply steady_still; intros; apply still_key_segments]|]. intros [].
    apply steady_bind; [apply steady_gets|]. intros e.
    apply steady_bind; [case_if; [apply steady_ret|apply steady_add_hits]|]. intros [].
    apply steady_bind; [apply steady_match_start|]. intros []. apply steady_stop_then.
Qed.

(** ** Elements *)

Lemma valued_peek n (f : option Z -> Scan unit) : (forall c, valued n (f c)) -> valued n (lql_json_peek ≫= f).
Proof.
  intros Hf. split.
  - intros s Hg Hn. apply (peek_good (content := content)); [done|]. intros c s1 Hg1 _ <- R1.
    eapply total_impl; [apply (vl_total _ _ _ (Hf c)); [done|lia]|]. intros r s2. apply ends_weaken. lia.
  - intros s Hs. eapply ok_bind; [apply (peek_ok (content := content))|]. intros c s1 (M1 & _ & _).
    destruct (moves_sane _ _ _ _ _ M1 Hs) as [Hs1 _].
    eapply ok_impl; [apply (vl_reads _ _ _ (Hf c)), Hs1|]. intros [] s2 (k & w & c' & o & Hw & M).
    exists k, w, c', o. split; [done|]. exact (moves_trans _ _ _ _ _ _ _ _ _ M1 M).
Qed.

Lemma valued_element n value a c r d i v : valued n value -> value_ok value ->
  valued n (element cfg parse_double value a c r d i v).
Proof.
  intros Hv Hok. split; [|by apply (value_ok_any cfg), element_ok]. intros s Hg Hn. unfold element.
  apply quiet_good; [done|by apply steady_element_terms|auto with quiet|]. intros [active carry] s1 Hg1 <- R1.
  rewrite <- R1 in *. clear R1 Hg. apply total_gets_then. pose proof (good_low _ _ Hg1) as Hd.
  set (below := depth (input s1)) in *.
  apply quiet_good; [done| |apply quiet_set_depth, quiet_modify; by split|].
  { apply steady_set_depth; [done|]. intros s' Hs'.
    pose proof (set_path_onward cfg below active s' Hs') as H1.
    eapply onward_trans; [exact H1|]. apply set_recursive_onward, H1. }
  intros [] s2 Hg2 E2 R2. apply quiet_good; [done|case_if; [apply steady_still; intros; apply still_carry|apply steady_ret]|quiet|].
  intros [] s3 Hg3 E3 R3. cbv zeta. destruct (captures_at _ _ _) as [capture_values capture_descendants].
  apply quiet_good; [done|apply steady_gets|quiet|]. intros start s4 Hg4 E4 R4.
  apply quiet_good; [done| |apply quiet_set_depth, quiet_modify; by split|].
  { apply steady_set_depth; [done|]. intros s'. apply set_capture_onward. }
  intros [] s5 Hg5 E5 R5. eapply (attempt_ends (content := content) cfg n); [|done|lia|lia|lia| |fails].
  - case_if; [done|]. apply valued_peek. intros c'. by apply valued_scalar.
  - intros r'. apply low_steady_bind.
    + apply low_steady_steady. destruct r'; [|apply steady_ret]. case_if; [apply steady_ret|apply steady_record_captures].
    + intros []. intros s' Hs' Hd'. apply total_gets_then. apply steady_bind; [by apply steady_clear_below| |done].
      intros []. apply steady_finish.
Qed.

(** ** Containers *)

(** A closing byte written and the container left. *)
Lemma close_ends b v s d n : shaped s -> depth (input s) = S d -> (S d < LQL_JSON_MAX_DEPTH)%nat -> (remaining s <= n)%nat ->
  total (r ← attempt (if (b : bool) then mret tt else lql_json_copy_byte cfg v); leave ;; finish r) s (ends d n).
Proof.
  intros Hs Hd Hl Hn. eapply total_attempt_bind.
  - assert (steady (if b then mret tt else lql_json_copy_byte cfg v)) as K by (destruct b; [apply steady_ret|apply steady_copy_byte]).
    by apply K.
  - intros r s1 [H1 H2 H3]. unfold leave, on_depth. apply total_modify_then.
    assert (He : forall r' : unit + lql_status, ends d n r' (on_input (fun i => i <| depth := pred (depth i) |>) s1)).
    { intros r'. split; [by eapply shaped_input|cbn; lia|]. intros a _. cbn. rewrite H2, Hd. split; [done|].
      change (remaining s1 <= n)%nat. lia. }
    destruct r; apply He.
Qed.

Lemma copy_byte_then {B} v (f : unit -> Scan B) s d n : good s ->
  (forall s', good s' -> depth (input s') = depth (input s) -> (remaining s' <= remaining s)%nat ->
     total (f tt) s' (ends d n)) ->
  total (lql_json_copy_byte cfg v ≫= f) s (ends d n).
Proof.
  intros Hg Hf. eapply steady_then; [done|apply steady_copy_byte|apply (copy_byte_ok (content := content))|].
  intros [] s' H1 M. apply Hf; [|apply H1..].
  eapply (good_moves (content := content)); [done|apply H1|exact M|apply passes_nil].
Qed.

(** What is read of a value, an object or an array; the fuel is enough. *)
Record reads (fuel : nat) : Prop := {
  rd_value : forall s, good s -> (2 * remaining s + 1 <= fuel)%nat ->
    total (lql_json_value cfg parse_double fuel) s (ends (depth (input s)) (remaining s));
  rd_object : forall d c s, good s -> depth (input s) = S d -> (2 * remaining s + 2 <= fuel)%nat ->
    total (object_loop cfg parse_double fuel d c) s (ends d (remaining s));
  rd_array : forall a b r d i c s, good s -> depth (input s) = S d -> (2 * remaining s + 2 <= fuel)%nat ->
    total (array_loop cfg parse_double fuel a b r d i c) s (ends d (remaining s))
}.

Lemma reads_valued fuel n : reads fuel -> (2 * n <= fuel + 1)%nat -> valued n (lql_json_value cfg parse_double fuel).
Proof.
  intros [Hv _ _] Hn. split; [intros; apply Hv; [done|lia]|].
  apply (value_ok_any cfg), (lql_json_value_ok (content := content)).
Qed.

(** A member of an object whose rest is only validated, or one that is read. *)
Lemma any_member_then {B} fuel (rest : bool) (f : unit -> Scan B) s d e n : reads fuel -> good s ->
  (2 * remaining s <= fuel + 1)%nat -> (d < LQL_JSON_MAX_DEPTH)%nat -> (rest = true -> writing cfg = false) ->
  (forall s', good s' -> depth (input s') = depth (input s) -> (remaining s' <= remaining s)%nat ->
     total (f tt) s' (ends e n)) ->
  total ((if rest then
            lql_json_skip_string_fast ;; lql_json_skip_space ;; lql_json_take_expected ch_colon ;;
            lql_json_skip_space ;; lql_json_skip_value_fast
          else member cfg parse_double (lql_json_value cfg parse_double fuel) d) ≫= f) s (ends e n).
Proof.
  intros Hr Hg Hn Hd Hw Hf. eapply total_bind.
  - apply total_ok; [|apply (any_member_ok (content := content) _ _ _ _ _ _ (lql_json_value_ok _ _ fuel)); [apply Hg|done]].
    instantiate (1 := ends (depth (input s)) (remaining s)). destruct rest.
    + apply (skip_string_good (content := content)); [done|]. intros s1 Hg1 <- R1.
      apply (space_good (content := content)); [done|]. intros s2 Hg2 <- R2.
      apply (take_expected_good (content := content)); [done|by repeat split|]. intros s3 Hg3 <- R3.
      apply (space_good (content := content)); [done|]. intros s4 Hg4 <- R4.
      eapply total_impl; [apply (vl_total _ _ _ (skip_value_fast_valued (content := content) cfg (S (remaining s4)))); [done|lia]|].
      intros r s5. apply ends_weaken. lia.
    + apply (member_ends (remaining s)); [apply reads_valued; [done|lia]|done..].
  - intros [] s' [[H1 H2 H3] H4]. destruct (H3 _ eq_refl) as [E1 E2].
    destruct (H4 _ eq_refl) as (k & sp1 & sp2 & v & c & Hk & Hsp1 & Hsp2 & Hv & M).
    apply Hf; [|done|done]. eapply (good_moves (content := content)); [exact Hg|done|exact M|].
    apply passes_app; [by apply passes_string|]. apply passes_app; [by apply passes_spaces|].
    apply (passes_app [ch_colon]); [apply passes_byte; by repeat split|].
    apply passes_app; [by apply passes_spaces|by eapply passes_value].
  - intros st s' [[H1 H2 H3] _]. by split.
Qed.

Lemma object_loop_ends fuel d c s : reads fuel -> good s -> depth (input s) = S d ->
  (2 * remaining s + 2 <= S fuel)%nat -> total (object_loop cfg parse_double (S fuel) d c) s (ends d (remaining s)).
Proof.
  intros Hr Hg D Hf. cbn [object_loop]. pose proof (good_low _ _ Hg) as Hl.
  destruct (byte_is c ch_quote); cbn [negb]; [|by apply error_ends].
  eapply (steady_then cfg) with (P := fun rest s' => same_io s s' /\ ((rest : bool) = true -> writing cfg = false));
    [done|apply steady_skip_rest; lia| |].
  { apply ok_and; [apply quiet_skip_rest|]. unfold skip_rest. eapply ok_bind; [apply ok_true|].
    intros captures s1 _. apply ok_gets_then. apply ok_ret. by destruct (writing cfg). }
  intros rest s1 H1 [[Hi _] Hw].
  assert (Hg1 : good s1) by (eapply good_same_input; [exact Hg|apply H1|done]).
  pose proof (on_remaining _ _ _ H1) as R1. pose proof (on_depth_same _ _ _ H1) as D1. clear H1.
  apply any_member_then; [done|done|lia|lia|done|]. intros s2 Hg2 D2 R2.
  eapply (separator_then (content := content)); [done|lia|lia| |].
  - intros s3 H3. pose proof (on_remaining _ _ _ H3). pose proof (on_depth_same _ _ _ H3).
    apply close_ends; [apply H3|lia..].
  - intros s3 Hg3 D3 R3. 
    eapply steady_then with (P := fun _ s' => moves [] [] (if rest then [] else out cfg [ch_comma]) s3 s');
      [done|destruct rest; [apply steady_ret|apply steady_copy_byte]|destruct rest; [apply ok_ret, moves_refl|apply copy_byte_ok]|].
    intros [] s4 H4 M4.
    assert (Hg4 : good s4) by (eapply (good_moves (content := content)); [done|apply H4|exact M4|apply passes_nil]).
    pose proof (on_remaining _ _ _ H4) as R4. pose proof (on_depth_same _ _ _ H4) as D4. clear H4 M4.
    apply (space_good (content := content)); [done|]. intros s5 Hg5 D5 R5.
    apply (peek_good (content := content)); [done|]. intros c6 s6 Hg6 _ D6 R6.
    eapply total_impl; [apply (rd_object _ Hr); [done|lia..]|]. intros r s7. apply ends_weaken. lia.
Qed.

Lemma array_loop_ends fuel a b r d i c s : reads fuel -> good s -> depth (input s) = S d ->
  (2 * remaining s + 2 <= S fuel)%nat -> total (array_loop cfg parse_double (S fuel) a b r d i c) s (ends d (remaining s)).
Proof.
  intros Hr Hg D Hf. cbn [array_loop]. pose proof (good_low _ _ Hg) as Hl.
  apply (value_then (content := content) cfg (S (remaining s))); [|done|lia|].
  { apply valued_element; [apply reads_valued; [done|lia]|apply (lql_json_value_ok (content := content))]. }
  intros s1 Hg1 D1 R1. eapply (separator_then (content := content)); [done|lia|lia| |].
  - intros s2 H2. pose proof (on_remaining _ _ _ H2). pose proof (on_depth_same _ _ _ H2).
    apply (close_ends false); [apply H2|lia..].
  - intros s2 Hg2 D2 R2. apply copy_byte_then; [done|]. intros s3 Hg3 D3 R3.
    apply (space_good (content := content)); [done|]. intros s4 Hg4 D4 R4.
    eapply total_impl; [apply (rd_array _ Hr); [done|lia..]|]. intros r' s5. apply ends_weaken. lia.
Qed.

(** An empty container closed. *)
Lemma close_empty_ends v s d n : good s -> depth (input s) = S d -> (remaining s <= n)%nat ->
  total (advance ;; r ← attempt (lql_json_copy_byte cfg v); leave ;; finish r) s (ends d n).
Proof.
  intros Hg D Hn. pose proof (good_low _ _ Hg). eapply steady_then; [done|apply steady_advance|apply ok_true|].
  intros [] s1 H1 _. pose proof (on_remaining _ _ _ H1). pose proof (on_depth_same _ _ _ H1).
  apply (close_ends false); [apply H1|lia..].
Qed.

(** The opening byte of a container, the spaces after it and the next byte. *)
Lemma opened_then {B} c (k : option Z -> Scan B) s d n : good s -> at_byte (Some c) s -> opens c = true ->
  (forall c' s', good s' -> depth (input s') = S (depth (input s)) -> (remaining s' < remaining s)%nat ->
     total (k c') s' (ends d n)) ->
  total (on_depth S ;; lql_json_take_expected c ;; lql_json_copy_byte cfg c ;; lql_json_skip_space ;;
         c' ← lql_json_peek; k c') s (ends d n).
Proof.
  intros Hg Hc Ho Hk. apply (open_then cfg c); [done..|]. intros s1 Hg1 D1 R1.
  apply copy_byte_then; [done|]. intros s2 Hg2 D2 R2. apply (space_good (content := content)); [done|]. intros s3 Hg3 D3 R3.
  apply (peek_good (content := content)); [done|]. intros c4 s4 Hg4 _ D4 R4. apply Hk; [done|lia..].
Qed.

Lemma object_ends fuel s : reads fuel -> good s -> at_byte (Some ch_lbrace) s -> (2 * remaining s <= fuel)%nat ->
  total (object_depth ← gets (fun s => depth (input s)); enter ;; lql_json_take_expected ch_lbrace ;;
         lql_json_copy_byte cfg ch_lbrace ;; lql_json_skip_space ;; c ← lql_json_peek;
         if byte_is c ch_rbrace then
           advance ;; r ← attempt (lql_json_copy_byte cfg ch_rbrace); leave ;; finish r
         else object_loop cfg parse_double fuel object_depth c) s (ends (depth (input s)) (remaining s)).
Proof.
  intros Hr Hg Hc Hf. apply total_gets_then, (enter_then cfg); [done|]. apply opened_then; [done..|].
  intros c s1 Hg1 D1 R1. destruct (byte_is c ch_rbrace).
  - apply close_empty_ends; [done|done|lia].
  - eapply total_impl; [apply (rd_object _ Hr); [done|lia..]|]. intros r s2. apply ends_weaken. lia.
Qed.

Lemma array_ends fuel s : reads fuel -> good s -> at_byte (Some ch_lbracket) s -> (2 * remaining s <= fuel)%nat ->
  total (array_segment ← gets (fun s => depth (input s));
         (if (array_segment =? LQL_JSON_MAX_DEPTH)%nat then
            lql_json_error "JSON nesting exceeds the scanner limit" else mret tt) ;;
         '(active, captures, recursive) ← array_masks cfg array_segment;
         on_depth S ;; lql_json_take_expected ch_lbracket ;; lql_json_copy_byte cfg ch_lbracket ;;
         lql_json_skip_space ;; c ← lql_json_peek;
         if byte_is c ch_rbracket then
           advance ;; r ← attempt (lql_json_copy_byte cfg ch_rbracket); leave ;; finish r
         else if (LQL_JSON_MAX_DEPTH <=? S array_segment)%nat then
           modify (fun s => json_error s "JSON nesting exceeds the scanner limit") ;;
           leave ;; stop LQL_STATUS_JSON_ERROR
         else array_loop cfg parse_double fuel active captures recursive array_segment 0 c) s
    (ends (depth (input s)) (remaining s)).
Proof.
  intros Hr Hg Hc Hf. pose proof (good_low _ _ Hg) as Hl. apply total_gets_then.
  rewrite (proj2 (Nat.eqb_neq _ _)) by lia. apply total_ret_then.
  eapply (steady_then cfg); [done|by apply steady_array_masks|apply quiet_array_masks|].
  intros [[active captures] recursive] s1 H1 [Hi _].
  assert (Hg1 : good s1) by (eapply good_same_input; [exact Hg|apply H1|done]).
  pose proof (on_remaining _ _ _ H1) as R1. pose proof (on_depth_same _ _ _ H1) as D1. clear H1.
  apply opened_then; [done|unfold at_byte; by rewrite Hi|done|]. intros c s2 Hg2 D2 R2.
  destruct (byte_is c ch_rbracket); [apply close_empty_ends; [done|lia..]|].
  pose proof (good_low _ _ Hg2). rewrite (proj2 (Nat.leb_gt _ _)) by lia.
  eapply total_impl; [apply (rd_array _ Hr); [done|lia..]|]. intros r s3. apply ends_weaken. lia.
Qed.

Lemma value_ends fuel s : reads fuel -> good s -> (2 * remaining s + 1 <= S fuel)%nat ->
  total (lql_json_value cfg parse_double (S fuel)) s (ends (depth (input s)) (remaining s)).
Proof.
  intros Hr Hg Hf. cbn [lql_json_value]. apply (peek_good (content := content)); [done|]. intros c s1 Hg1 Hc <- R1.
  destruct (byte_is c ch_lbrace) eqn:E1; [|destruct (byte_is c ch_lbracket) eqn:E2].
  - apply byte_is_spec in E1 as ->. eapply total_impl; [apply object_ends; [done..|lia]|].
    intros r s2. apply ends_weaken. lia.
  - apply byte_is_spec in E2 as ->. eapply total_impl; [apply array_ends; [done..|lia]|].
    intros r s2. apply ends_weaken. lia.
  - apply ends_steady; [done| |done|lia]. repeat case_if; auto using steady_string, steady_literal, steady_number.
Qed.

Lemma lql_json_value_reads fuel : reads fuel.
Proof.
  induction fuel as [|fuel IH]; [split; intros; lia|]. split; intros.
  - by apply value_ends.
  - by apply object_loop_ends.
  - by apply array_loop_ends.
Qed.

Lemma json_value_valued n : valued n (JsonScan.json_value cfg parse_double).
Proof.
  split; [|by apply (value_ok_any cfg), json_value_ok]. intros s Hg _. unfold JsonScan.json_value. apply total_gets_then.
  apply (rd_value _ (lql_json_value_reads _)); [done|unfold value_fuel; lia].
Qed.
End scan.

(** ** The scan of a stream gives a result

    Records, their separators and the loop over a stream, whose fuel is the length of
    the input: the scan of an input that nests within the limit ends, whatever the
    terms and captures, the chunks, the allocations and the spool. *)

Section stream.
Context {content : bytes -> lql_json_spool -> Prop} `{!SpoolLaws content}.
Context (cfg : scan_config) (tables : Forall table_ok (flat_terms cfg)).
Context (parse_double : bytes -> option spec_float).
Implicit Types (s : lql_json_scan).
#[local] Abbreviation shaped := (shaped cfg).
#[local] Abbreviation onward := (onward cfg).
#[local] Abbreviation steady := (steady cfg).
#[local] Abbreviation good := (good cfg).
#[local] Abbreviation below := (below cfg).
#[local] Abbreviation ready := (ready (content := content) cfg).

(** *** A record *)

Lemma separator_loop_below fuel : below fuel (separator_loop fuel).
Proof.
  induction fuel as [|fuel IH]; [intros s _ H; lia|]. cbn [separator_loop]. apply below_peek. intros c.
  destruct (byte_is c ch_space || byte_is c ch_tab) eqn:E.
  - assert (exists v, c = Some v) as (v & ->).
    { apply orb_true_iff in E as [E|E]; apply byte_is_spec in E as ->; by eexists. }
    apply holding_advance. intros _. exact IH.
  - apply holding_below, below_steady, steady_ret.
Qed.

Lemma steady_record_separator : steady lql_json_record_separator.
Proof.
  unfold lql_json_record_separator. intros s Hs. apply total_gets_then. eapply total_bind.
  - apply separator_loop_below; [done|lia].
  - intros c s1 H1. eapply total_steady; [exact H1|]. destruct c as [v|]; [|apply steady_ret].
    case_if; [apply steady_advance|]. case_if; [|apply steady_error].
    apply steady_bind; [apply steady_advance|]. intros _. apply steady_take_expected.
  - intros st s1 H1. exact H1.
Qed.

Lemma start_record_onward b s : shaped s -> onward s (start_record cfg b s).
Proof.
  intros Hs. unfold start_record. cbv zeta. set (s1 := if writing cfg then _ else s).
  assert (H1 : onward s s1) by (subst s1; destruct (writing cfg); [by apply onward_same|by apply onward_refl]).
  set (s2 := on_matcher _ (on_capture _ (on_input _ s1))).
  assert (H2 : onward s1 s2) by (destruct H1 as [[K1 K2 K3 K4 K5] _ _]; by repeat split).
  pose proof (set_path_onward cfg 0 (all_ones (length (flat_terms cfg))) s2 (on_shaped _ _ _ H2)) as H3.
  pose proof (set_capture_onward cfg 0 (all_ones (length (capture_keys cfg))) _ (on_shaped _ _ _ H3)) as H4.
  pose proof (steady_match_start cfg 0 _ (on_shaped _ _ _ H4)) as H5.
  exact (onward_trans _ _ _ _ H1 (onward_trans _ _ _ _ H2 (onward_trans _ _ _ _ H3 (onward_trans _ _ _ _ H4 H5)))).
Qed.

Lemma start_record_good b s : good s -> good (start_record cfg b s).
Proof.
  intros [H1 H2 H3].
  assert (Hi : input (start_record cfg b s) = ((input s) <| compact_range_active := true |>) <| compact_range_ok := true |>)
    by (unfold start_record; by destruct (writing cfg)).
  split; [by apply start_record_onward|..]; unfold sane, shallow, stream in *; by rewrite Hi.
Qed.

(** What is known between two records for the next one to be read. *)
Definition rested s : Prop := shaped s /\ shallow s.

Lemma record_body_total index b start s : good s ->
  total (record_body cfg parse_double index b start) s (fun _ => shaped).
Proof.
  intros Hg. unfold record_body.
  eapply total_bind; [apply total_ok; [apply (steady_root_hits cfg b), Hg|apply quiet_root_hits]| |by intros st s1 [H1 _]; apply H1].
  intros [] s1 [H1 Hq]. destruct (Hq _ eq_refl) as [Hi _].
  assert (Hg1 : good s1) by (eapply good_same_input; [exact Hg|apply H1|done]).
  eapply total_attempt_bind; [apply (vl_total _ _ _ (json_value_valued (content := content) cfg tables parse_double (S (remaining s1)))); [done|lia]|].
  intros r s2 [Hs2 _ _].
  assert (K : steady (record_end ← gets lql_json_consumed;
    compact ← gets (fun s => compact_range_ok (input s));
    modify (on_input (fun i => i <| compact_range_active := false |>)) ;;
    finish r ;;
    lql_json_record_separator ;;
    lql_json_flush cfg ;;
    cancel ← ask_cancelled;
    if (cancel : bool) then set_cancelled ;; stop LQL_STATUS_STOP
    else
      s ← gets id;
      mret (Some (mk_record_call index b
                  (if b then flat_eq_hits (matcher s) else 0)
                  (out_spool (output s)) (capture_spans (capture s)) start
                  (record_end - start) compact)))).
  { apply steady_bind; [apply steady_gets|]. intros e. apply steady_bind; [apply steady_gets|]. intros c.
    apply steady_bind; [apply steady_modify; intros s0 Hs0; by apply onward_input|]. intros _.
    apply steady_bind; [apply steady_finish|]. intros _. apply steady_bind; [apply steady_record_separator|]. intros _.
    apply steady_bind; [apply steady_flush|]. intros _. apply steady_bind; [apply steady_ask_cancelled|]. intros [|].
    - apply steady_bind; [apply steady_set_cancelled|]. intros _. apply steady_stop.
    - apply steady_bind; [apply steady_gets|]. intros s0. apply steady_ret. }
  eapply total_impl; [by apply K|]. by intros r' s3 [H _ _].
Qed.

Lemma next_record_shaped index s : good s -> total (next_record cfg parse_double index) s (fun _ => shaped).
Proof.
  intros Hg. unfold next_record. eapply total_bind.
  - apply total_ok; [apply (steady_skip_space cfg), Hg|apply (skip_space_ok (content := content))].
  - intros [] s1 [H1 Hsp]. destruct (Hsp _ eq_refl) as (sp & Hw & M1).
    assert (Hg1 : good s1) by (eapply (good_moves (content := content)); [done|apply H1|exact M1|by apply passes_spaces]).
    eapply total_bind; [apply total_ok; [apply (steady_peek cfg), H1|apply (peek_ok (content := content))]| |].
    + intros c s2 [H2 Hp]. destruct (Hp _ eq_refl) as (M2 & _ & _).
      assert (Hg2 : good s2) by (eapply (good_moves (content := content)); [done|apply H2|exact M2|apply passes_nil]).
      destruct c as [v|]; [|apply H2]. destruct (v =? ch_lbracket); [apply steady_json_error, H2|]. cbv zeta.
      apply total_gets_then, total_modify_then. by apply (record_body_total index), start_record_good.
    + by intros st s2 [[H _ _] _].
  - by intros st s2 [[H _ _] _].
Qed.

Lemma separator_inert sep t : separator sep t -> Forall inert sep.
Proof.
  assert (K : forall bl, Forall blank bl -> Forall inert bl).
  { intros bl H. eapply list.Forall_impl; [exact H|]. intros c [->| ->]; by repeat split. }
  intros (bl & Hb & [->|[->|[-> _]]]); [..|by apply K]; apply list.Forall_app; (split; [by apply K|]);
    repeat (apply list.Forall_cons; split; [by repeat split|]); apply list.Forall_nil; done.
Qed.

(** The next record ends; when it is one, the scanner is as it was, with less left. *)
Lemma next_record_total index s : ready s -> rested s ->
  total (next_record cfg parse_double index) s (fun r s' => forall call, r = inl (Some call) ->
    ready s' /\ rested s' /\ (length (stream s') < length (stream s))%nat).
Proof.
  intros Hr [Hs Hsh]. eapply total_impl.
  - apply total_ok; [apply next_record_shaped; split; [done|apply Hr|done]|by apply next_record_ok].
  - intros r s' [Hs' H] call ->.
    destruct (H _ eq_refl) as [(sp & text & c & sep & H1 & H2 & H3 & H4 & H5 & H6 & H7) Hr'].
    split; [done|]. split; [split; [done|]|].
    + unfold shallow in *. rewrite (ready_depth _ _ Hr) in Hsh. rewrite (ready_depth _ _ Hr').
      eapply Nat.le_lt_trans; [|exact Hsh]. rewrite H6.
      assert (Hp : passes (sp ++ text ++ sep)).
      { apply passes_app; [by apply passes_spaces|]. apply passes_app; [by eapply passes_value|].
        by eapply passes_inert, separator_inert. }
      etransitivity; [apply Hp|]. by rewrite <- !app_assoc.
    + rewrite H6, !length_app. destruct (proj1 json_solid _ _ _ H2) as (w & x & -> & _). 
      rewrite length_app. cbn. lia.
Qed.

(** *** The loop *)

Context {U : Type} (record : record_call -> U -> lql_status * U).

Lemma ndjson_loop_total max_records max_bytes out_limit_stop fuel : forall k user s, ready s -> rested s ->
  (length (stream s) < fuel)%nat ->
  exists e, ndjson_loop cfg parse_double record max_records max_bytes out_limit_stop fuel k user s = Some e.
Proof.
  induction fuel as [|fuel IH]; intros k user s Hr Hs Hf; [lia|]. cbn [ndjson_loop].
  case_match; [by eexists|]. destruct (total_runs _ _ _ (next_record_total k s Hr Hs)) as (r & s' & -> & Hnext).
  destruct r as [[call|]|status]; [|by eexists..]. destruct (Hnext _ eq_refl) as (Hr' & Hs' & Hl).
  destruct (record call user) as [status user']. case_match; [by eexists|]. case_match; [by eexists|].
  apply IH; [done|done|lia].
Qed.
End stream.

Lemma pending_length answers : 
  (length (pending answers) <= list_sum (map (fun a => S (length (answer_data a))) answers))%nat.
Proof.
  induction answers as [|a answers IH]; [done|]. cbn [pending map list_sum fold_right].
  destruct (answer_data a) as [|c d]; [cbn; lia|]. rewrite length_app. unfold list_sum in IH. lia.
Qed.

Lemma scan_start_rested cfg spool env answers cancels allocs :
  (nesting Outside 0 (pending answers) < LQL_JSON_MAX_DEPTH)%nat ->
  rested cfg (scan_start cfg spool env answers cancels allocs).
Proof.
  intros H. split; [|exact H]. split; [done..|done|]. intros _ i t _ _. unfold has, scan_start. cbn.
  by rewrite Z.bits_0.
Qed.

(** The scan of an input that nests less than 128 deep always ends with a result:
    whatever the bytes of the input and the chunks they come in, the answers of the
    allocator, of the C library and of the question whether to go on, the terms (each
    with the failure table of its own target), the captures, the limits and the record
    callback, no access is out of bounds, and the fuel of every loop is enough. *)
Lemma ndjson_scan_defined {U} (parse_double : bytes -> option spec_float)
    (record : record_call -> U -> lql_status * U) (r : lql_json_flat_eq_request) (user : U)
    (env : spool_env) (answers : list read_answer) (cancels allocs : list bool) :
  Forall table_ok (req_terms r) ->
  Forall byte_range (pending answers) ->
  (nesting Outside 0 (pending answers) < LQL_JSON_MAX_DEPTH)%nat ->
  (forall spool, req_spool r = Some spool -> req_capture r = true -> exists c, appendable c spool) ->
  is_Some (lql_json_scan_flat_eq_ndjson parse_double record r user env answers cancels allocs).
Proof.
  intros Ht Hb Hn Hsp. unfold lql_json_scan_flat_eq_ndjson. cbv zeta.
  destruct (_ || _ || _) eqn:Eguard; [by eexists|].
  destruct (allocate 1 allocs) as [[] allocs1]; cbn [negb]; [|by eexists].
  destruct (lql_json_scan_prepare _ allocs1) as [[] allocs2]; cbn [negb]; [|by eexists].
  destruct (if flat_eq_has_recursive_terms _ then allocate 2 allocs2 else _) as [[] allocs3]; cbn [negb]; [|by eexists].
  set (s := scan_start _ _ _ _ _ _).
  destruct (ndjson_loop_total (content := appendable) (scan_config_of r) Ht parse_double record
    (req_max_records r) (req_max_bytes r) (req_limit_stop r) (S (remaining s)) 0 user s) as (e & ->); [| | |by eexists].
  - apply scan_start_ready; [done..|]. by apply orb_false_iff in Eguard as [_ ?].
  - by apply scan_start_rested.
  - pose proof (pending_length answers). unfold stream, remaining, s. cbn -[list_sum]. lia.
Qed.
