(* ===== verification/StreamTotal.v ===== *)
(** * Applications end (src/lql_stream.c, src/lql_stream_flat_eq.c)

    The compiled program of a request has an index and terms whose failure tables are
    those of their targets; every record is then decided, and the application of a
    request to an input that nests within the limit of the scanner gives a status. *)

From S2P Require Import Prelude.
From S2P Require Import Errors.
From S2P Require Import Selector.
From S2P Require Import CursorProps.
From S2P Require Import JsonSpool.
From S2P Require Import SpoolProps.
From S2P Require Import ScanTerm.
From S2P Require Import ScanState.
From S2P Require Import ScanInput.
From S2P Require Import JsonScan.
From S2P Require Import FlatProgram.
From S2P Require Import ScanContains.
From S2P Require Import ScanSpan.
From S2P Require Import ScanLogic.
From S2P Require Import ScanStream.
From S2P Require Import SelectorIndex.
From S2P Require Import FlatProgramProps.
From S2P Require Import ScanSelect.
From S2P Require Import StreamProjection.
From S2P Require Import Stream.
From S2P Require Import StreamBatch.
From S2P Require Import StreamApply.
From S2P Require Import StreamProps.
From S2P Require Import JsonGrammar.
From S2P Require Import ScanTotal.
From S2P Require Import ScanTotalScan.

(** ** Terms *)

Lemma built_table t : built t -> table_ok t.
Proof.
  intros (kind & value & range & temporal & teq & failure & path & m & -> & _ & Hf) f.
  unfold path_term. cbv zeta. destruct (lql_flat_eq_cache_array_indexes _ _) as [cache values].
  cbn [term_value contains_failure]. intros ->. unfold searches, kind_is. cbn [term_kind].
  unfold failure_for, searching_kind in Hf. destruct (_ || _); [|done]. split; [done|].
  destruct value as [|c value]; [done|].
  destruct (contains_failure_table (c :: value)) as (f' & Ef & Hlen & Hb); [done|]. rewrite Hf in Ef.
  injection Ef as ->. split; [done|]. intros i b (H & _)%Hb. lia.
Qed.

(** ** Evaluation *)

(** With an index that finds, every selector is decided, whatever the hits. *)
Section evaluate.
Context (address : list nat -> Z) (prog : lql_flat_eq_program) (selectors : list (list nat)).
Context (indexed : finds address (program_index prog) selectors).

Lemma predicate_defined hits here s : is_Some (predicate_answer address prog hits here s).
Proof.
  unfold predicate_answer. destruct (indexed here) as (found & -> & _). cbn. by destruct found.
Qed.

Lemma children_defined root hits l : Forall (fun c => forall here,
    is_Some (lql_flat_eq_matches_record address prog hits root here c)) l -> forall here i,
  is_Some (matches_all address root prog hits here i l) /\ is_Some (matches_some address root prog hits here i l).
Proof.
  induction 1 as [|c l Hc _ IH]; intros here i; [by split|]. cbn.
  destruct (Hc (here ++ [i])) as [b ->]. destruct (IH here (S i)) as [H1 H2]. cbn. by destruct b.
Qed.

Lemma matches_record_defined root hits s : forall here,
  is_Some (lql_flat_eq_matches_record address prog hits root here s).
Proof.
  induction s as [s IH] using selector_ind'. intros here. rewrite matches_record_equation.
  destruct (children_defined root hits _ IH here 0%nat) as [Hall Hsome].
  pose proof (matches_leaf address prog hits here s) as Hl.
  assert (forall b : bool, is_Some (if b then Some false else predicate_answer address prog hits here s)) as Hp
    by (intros []; [done|apply predicate_defined]).
  destruct (kind s); try rewrite Hl; try apply Hp; try done.
  destruct (children s) as [|c [|? ?]]; try done. apply Forall_inv in IH.
  destruct (IH (here ++ [0%nat])) as [b ->]. done.
Qed.
End evaluate.

(** ** The text of a spool *)

(** What the reads of a spool go on with. *)
Definition unread (reader : nat) (s : lql_json_spool) : bytes :=
  match spool_file_ s with
  | Some f => drop (file_pos f) (file_bytes f)
  | None => drop reader (default [] (spool_memory s))
  end.

Lemma taken_prefix n (l a : bytes) : a `prefix_of` drop (length (take n l)) l -> (take n l ++ a) `prefix_of` l.
Proof.
  intros [k E]. exists k. rewrite <- app_assoc, <- E. rewrite length_take.
  destruct (Nat.le_ge_cases n (length l)) as [H|H].
  - by rewrite Nat.min_l, take_drop.
  - by rewrite Nat.min_r, drop_all, app_nil_r, take_ge.
Qed.

(** The spool answers a read with the first bytes of these, and goes on with the rest. *)
Lemma read_taken reader capacity s e reader' data s' e' :
  lql_json_spool_read reader capacity s e = (inr (reader', data), s', e') ->
  exists n, data = take n (unread reader s) /\ unread reader' s' = drop (length data) (unread reader s).
Proof.
  unfold lql_json_spool_read, spool_fread, spool_get, next_io, spool_put, unread, mbind, W_bind, mret, W_ret. cbn.
  destruct (spool_memory s) as [memory|] eqn:Em; [|done]. case_match; [done|].
  destruct (spool_file_ s) as [f|] eqn:Ef; rewrite ?Ef; cbn.
  - case_match; [done|]. intros [= <- <- <- <-]. cbn. eexists. split; [done|]. by rewrite drop_drop.
  - intros [= <- <- <- <-]. rewrite Ef, Em. cbn. eexists. split; [done|]. by rewrite drop_drop.
Qed.

Lemma spool_reads_prefix fuel : forall reader s e, pending (fst (spool_reads fuel reader s e)) `prefix_of` unread reader s.
Proof.
  induction fuel as [|fuel IH]; intros reader s e; cbn [spool_reads]; [apply prefix_nil|].
  destruct (lql_json_spool_read _ _ _ _) as [[[[st msg]|[reader' data]] s'] e'] eqn:Er; [apply prefix_nil|].
  destruct (read_taken _ _ _ _ _ _ _ _ Er) as (n & Hd & Hu).
  destruct (Nat.eqb_spec (length data) 0); [apply prefix_nil|]. specialize (IH reader' s' e').
  destruct (spool_reads fuel reader' s' e') as [answers e2]. cbn [fst pending answer_data] in *.
  destruct data as [|c data]; [done|]. rewrite Hd. apply taken_prefix. by rewrite <- Hd, <- Hu.
Qed.

(** A reader starts at the start of the spool, or at its end when it cannot seek. *)
Lemma reader_init_unread c s e : appendable c s -> match lql_json_spool_reader_init s e with
  | (inr reader, s', _) => unread reader s' `prefix_of` c
  | (inl _, _, _) => True
  end.
Proof.
  intros [_ Hc Hend]. unfold stored in Hc. unfold lql_json_spool_reader_init, lql_json_spool_seek, spool_get, spool_put,
    next_io, unread, mbind, W_bind, mret, W_ret. destruct (spool_file_ s) as [f|] eqn:Ef.
  - rewrite Ef. destruct (default None _) as [k|]; cbn; rewrite ?Ef.
    + rewrite Hc, (Hend _ eq_refl), drop_all. apply prefix_nil.
    + by rewrite Hc.
  - by rewrite Ef, Hc.
Qed.

Lemma read_spool_prefix c s e : appendable c s -> pending (fst (read_spool s e)) `prefix_of` c.
Proof.
  intros Hc. unfold read_spool. pose proof (reader_init_unread c s e Hc) as H.
  destruct (lql_json_spool_reader_init s e) as [[[f|reader] s'] e']; [apply prefix_nil|].
  etransitivity; [apply spool_reads_prefix|exact H].
Qed.

(** ** Batches *)

(** A text that a scan can read to its end. *)
Definition fit (c : bytes) : Prop := Forall byte_range c /\ (nesting Outside 0 c < LQL_JSON_MAX_DEPTH)%nat.

Lemma fit_prefix a c : a `prefix_of` c -> fit c -> fit a.
Proof.
  intros [k ->] [Hb Hn]. split; [by apply list.Forall_app in Hb as []|].
  pose proof (nesting_prefix a k Outside 0). lia.
Qed.

(** A record's spool: the compact text of a record of the input. *)
Definition fit_spool (spool : lql_json_spool) : Prop := exists c, appendable c spool /\ fit c.

Section batch.
Context {X : Type} (parse_double : bytes -> option spec_float).
Implicit Types (s : @flat_eq_state X).

Definition defined {A} (m : B (X := X) A) : Prop := forall s, is_Some (m s).

Lemma defined_bind {A C} (m : B A) (f : A -> B C) : defined m -> (forall a, defined (f a)) -> defined (m ≫= f).
Proof.
  intros Hm Hf s. unfold mbind, B_bind. destruct (Hm s) as [[[st|a] s'] ->]; [by eexists|apply Hf].
Qed.

Lemma defined_ret {A} (a : A) : defined (mret a).
Proof. by eexists. Qed.

Lemma defined_nested {U} (record : record_call -> U -> lql_status * U) r user spool :
  fit_spool spool -> Forall table_ok (req_terms r) ->
  (forall sp, req_spool r = Some sp -> req_capture r = true -> exists c, appendable c sp) ->
  defined (nested_scan parse_double record r user spool).
Proof.
  intros (c & Hc & Hfit) Ht Hsp s. unfold nested_scan. pose proof (read_spool_prefix c spool (state_env s) Hc) as Hp.
  destruct (read_spool spool (state_env s)) as [answers e]. cbn [fst] in Hp.
  destruct (fit_prefix _ _ Hp Hfit) as [Hb Hn]. cbv zeta.
  destruct (ndjson_scan_defined parse_double record r user e answers [] (scan_allocs s) Ht Hb Hn Hsp) as [x ->].
  destruct x as [[status message]|e']; [done|]. by destruct (bool_decide (end_status e' = _)).
Qed.

Lemma table_batch terms offset count : Forall table_ok terms -> Forall table_ok (take count (drop offset terms)).
Proof. intros H. by apply Forall_take, Forall_drop. Qed.

Lemma defined_term_batch source terms offset count hits : fit_spool source -> Forall table_ok terms ->
  defined (lql_flat_eq_scan_term_batch parse_double source terms offset count hits).
Proof.
  intros Hs Ht. unfold lql_flat_eq_scan_term_batch. destruct (_ || _); [by intros s; eexists|].
  apply defined_bind; [|by intros [? ?] ?; eexists]. apply defined_nested; [done|by apply table_batch|done].
Qed.

Lemma batch_spool_fresh s : match batch_spool s with (inr spool, _) => appendable [] spool | _ => True end.
Proof.
  unfold batch_spool, lql_json_spool_init_with_allocator, next_alloc, spool_put, lql_json_spool_error, mbind, W_bind.
  cbn. destruct (default true _); cbn; [|done]. destruct (default true _); cbn; [|done]. exact fresh_appendable.
Qed.

Lemma defined_capture_batch source keys offset count : fit_spool source ->
  defined (lql_flat_eq_scan_capture_batch parse_double source keys offset count).
Proof.
  intros Hs. unfold lql_flat_eq_scan_capture_batch. destruct (_ || _); [by intros s; eexists|].
  intros s. unfold mbind at 1, B_bind at 1. pose proof (batch_spool_fresh s) as Hf.
  destruct (batch_spool s) as [[st|spool] s']; [by eexists|]. apply defined_bind.
  - apply defined_nested; [done|apply list.Forall_nil_2|]. intros sp [= <-] _. by exists [].
  - intros [spans scan] s2. unfold end_capture. destruct scan; [|done]. by destruct (negb _).
Qed.

Context (scan_terms : list lql_json_flat_eq_term) (tables : Forall table_ok scan_terms).

Lemma defined_term_batches sources keys all_required only spool fuel : fit_spool spool -> forall offset hits,
  defined (term_batches parse_double scan_terms sources keys all_required only fuel offset spool hits).
Proof.
  intros Hs. induction fuel as [|fuel IH]; intros offset hits; cbn [term_batches]; [apply defined_ret|].
  destruct (length scan_terms <=? offset)%nat; [apply defined_ret|]. cbv zeta.
  apply defined_bind; [by apply defined_term_batch|]. intros hits'. destruct (_ && _); [apply defined_ret|apply IH].
Qed.

Lemma defined_capture_batches keys spool fuel : fit_spool spool -> forall offset,
  defined (capture_batches parse_double keys fuel offset spool).
Proof.
  intros Hs. induction fuel as [|fuel IH]; intros offset; cbn [capture_batches]; [apply defined_ret|].
  destruct (length keys <=? offset)%nat; [apply defined_ret|]. cbv zeta.
  apply defined_bind; [by apply defined_capture_batch|]. intros []. apply IH.
Qed.

Lemma defined_batched sources keys all_required only words call : fit_spool (record_spool call) ->
  (forall hits, defined (words call hits)) ->
  defined (lql_flat_eq_batched_record parse_double scan_terms sources keys all_required only words call).
Proof.
  intros Hs Hw. unfold lql_flat_eq_batched_record. apply defined_bind; [by apply defined_term_batches|].
  intros [hits []]; [apply Hw|]. apply defined_bind; [by apply defined_capture_batches|intros _; apply Hw].
Qed.
End batch.

Section apply.
Context {X : Type} (address : list nat -> Z) (parse_double : bytes -> option spec_float).
Context (range_double : lql_selector -> bound_key -> spec_float).
Context (mutation_emit : W unit) (projection_then_mutation_emit : list lql_json_capture_span -> W unit).
Context (request : lql_stream_request X) (env : stream_env).

(** The program of the request can always be planned. *)
Lemma plan_defined allow_spool : is_Some (plan address range_double request env allow_spool).
Proof.
  unfold plan. destruct (negb (lql_flat_eq_eligible request)); [done|].
  destruct (term_capacity request) as [n|]; [|done].
  destruct (negb allow_spool && (_ || _)); [done|].
  destruct (lql_flat_eq_program_init _ _ _ _) as [[] allocs1]; cbn [negb]; [|done].
  destruct (match stream_selector request with Some _ => _ | None => _ end) as [program|] eqn:Ep; [|done].
  destruct (if with_projection request then _ else _) as [keys|]; [|done].
  destruct (with_mutation request && negb _); [done|].
  destruct (if (mutation_capacity request =? 0)%nat then _ else _) as [[]|[]]; [done|].
  destruct (allocate_all _ _) as [[] allocs2]; cbn [negb]; [|done].
  assert (is_Some (lql_flat_eq_program_build_selector_index address (map snd program))) as [index ->].
  { destruct (stream_selector request) as [s|]; [|by injection Ep as <-].
    destruct (append_ok _ _ s _ _ _ Ep) as (new & Hnew & _ & Hc). cbn in Hnew. subst new.
    destruct (build_index_finds address _ Hc) as (index & -> & _). done. }
  cbn [mbind option_bind]. destruct (allocate_all _ _) as [[] allocs3]; cbn [negb]; [|done].
  by destruct (_ && _ && _).
Qed.

(** Every record is decided, from its spool when the program is batched. *)
Lemma record_defined p capturing call : compiles address range_double request env p ->
  (narrow p = false -> capturing = true /\ fit_spool (record_spool call)) ->
  defined (record_callback address parse_double mutation_emit projection_then_mutation_emit request p capturing call).
Proof.
  intros Hc Hspool. unfold record_callback.
  assert (forall spool hits, defined (lql_flat_eq_record_words address mutation_emit projection_then_mutation_emit
    request p spool call hits)) as Hwords.
  { intros spool hits s. unfold lql_flat_eq_record_words.
    destruct (stream_selector request) as [selector|] eqn:Es; [|done].
    destruct (compiles_answers _ _ _ _ _ _ Hc Es) as (program & _ & _ & _ & Hf).
    destruct (matches_record_defined address (sp_program p) _ Hf (root_is_object call) hits selector []) as [b ->].
    done. }
  unfold narrow in Hspool. destruct (batched p && negb (aliased p)); [|intros s; apply Hwords].
  destruct (Hspool eq_refl) as [-> Hfit]. apply defined_batched; [|done|apply Hwords].
  rewrite (cp_scan _ _ _ _ _ Hc). apply scan_terms_among; [|constructor].
  eapply list.Forall_impl; [by eapply compiled_built|]. apply built_table.
Qed.

(** Each call is about a part of the input, with its compact text in the spool. *)
Lemma records_fit cfg i off t calls rest : records (content := appendable) cfg i off t calls rest ->
  writing cfg = true -> fit t -> Forall (fun call => fit_spool (record_spool call)) calls.
Proof.
  intros H Hw. induction H as [i off t|i off sp text c sep t call calls rest H1 H2 _ H4 H5 _ IH];
    intros [Hb Hn]; [constructor|].
  rewrite !list.Forall_app in Hb. destruct Hb as (_ & Hb1 & _ & Hb2).
  rewrite nesting_inert in Hn by by apply spaces_inert.
  constructor.
  - exists c. split; [by apply H5|]. split; [by apply (proj1 (compact_bytes _) _ _ _ H2)|].
    pose proof (proj1 nesting_compact _ _ _ H2 0%nat [] [] eq_refl) as E. rewrite !app_nil_r in E.
    pose proof (nesting_prefix text (sep ++ t) Outside 0). lia.
  - apply IH. split; [done|]. pose proof (proj1 nesting_grammar _ _ _ H2 0%nat (sep ++ t)) as Hle.
    rewrite (nesting_inert sep) in Hle by by eapply separator_inert. lia.
Qed.

(** The state after calls that are each decided. *)
Lemma fed_defined (callback : record_call -> B (X := X) unit) calls : Forall (fun call => defined (callback call)) calls ->
  forall s status u, ScanStream.fed (scan_callback callback) (Some s) calls status u -> is_Some u.
Proof.
  intros Hc s status u F. remember (Some s) as state eqn:Es. revert s Es Hc.
  assert (forall call s st u', defined (callback call) -> scan_callback callback call (Some s) = (st, u') -> is_Some u') as Hstep.
  { intros call s st u' Hd. unfold scan_callback. cbn. destruct (Hd s) as [[[st'|[]] s'] ->]; by intros [= _ <-]. }
  induction F as [u|u call status u' Hcall _|u call u' calls status u'' Hcall _ IH]; intros s -> Hc; [done|..];
    apply list.Forall_cons in Hc as [Hd Hc]; destruct (Hstep _ _ _ _ Hd Hcall) as [s' ->]; [done|by apply (IH s')].
Qed.

Context (bytes_in : Forall byte_range (pending (answers env))).
Context (shallow_in : (nesting Outside 0 (pending (answers env)) < LQL_JSON_MAX_DEPTH)%nat).

Lemma scan_request_parts p spool : let r := scan_request request p spool in
  req_spool r = spool /\ req_capture r = bool_decide (is_Some spool).
Proof. unfold scan_request. by destruct (batched p), (aliased p). Qed.

Lemma scan_request_tables p spool : compiles address range_double request env p ->
  Forall table_ok (req_terms (scan_request request p spool)).
Proof.
  intros Hc. destruct (narrow p) eqn:Hn.
  - apply (scanned_forall address range_double request env); [done|done|].
    eapply list.Forall_impl; [by eapply compiled_built|]. apply built_table.
  - unfold narrow in Hn. apply negb_false_iff, andb_true_iff in Hn as [Hb Ha%negb_true_iff].
    unfold scan_request. rewrite Hb, Ha. apply list.Forall_nil_2.
Qed.

(** The scan of the input and what it makes of the state. *)
Lemma scan_decides p (capturing : bool) s e allocs : compiles address range_double request env p ->
  (narrow p = false -> capturing = true) ->
  exists x, lql_json_scan_flat_eq_ndjson parse_double
    (scan_callback (record_callback address parse_double mutation_emit projection_then_mutation_emit request p capturing))
    (scan_request request p (if capturing then Some fresh_spool else None)) (Some s) e (answers env) (cancels env) allocs =
    Some x /\ forall e', x = inr e' -> is_Some (end_user e').
Proof.
  intros Hc Hwide. set (r := scan_request _ _ _). set (callback := record_callback _ _ _ _ _ _ _).
  assert (forall spool, req_spool r = Some spool -> req_capture r = true -> exists c, appendable c spool) as Hfresh.
  { intros spool Es _. destruct (scan_request_parts p (if capturing then Some fresh_spool else None)) as [E _].
    fold r in E. rewrite E in Es. exists []. destruct capturing; [|done]. injection Es as <-. exact fresh_appendable. }
  destruct (ndjson_scan_defined parse_double (scan_callback callback) r (Some s) e (answers env) (cancels env) allocs
    (scan_request_tables p _ Hc) bytes_in shallow_in Hfresh) as [x Hx].
  exists x. split; [exact Hx|]. intros e' ->.
  destruct (scan_runs _ _ _ _ _ _ _ _ _ bytes_in Hfresh Hx) as (spool & allocs' & _ & Hr & E).
  destruct (ndjson_loop_sound _ _ (scan_callback callback) (fun _ => True) (fun _ => True) (fun _ _ _ _ _ _ _ _ _ => conj I I)
    _ _ _ _ _ _ _ _ Hr I E) as (calls & rest & status & Hrec & F & _).
  eapply fed_defined; [|exact F]. apply list.Forall_forall. intros call Hin. apply record_defined; [done|].
  intros Hn. specialize (Hwide Hn). split; [done|].
  assert (Forall (fun call => fit_spool (record_spool call)) calls) as Hfit.
  { eapply records_fit; [exact Hrec| |by split].
    change (req_capture r = true).
    destruct (scan_request_parts p (if capturing then Some fresh_spool else None)) as [_ E2].
    fold r in E2. rewrite E2. by rewrite Hwide. }
  rewrite list.Forall_forall in Hfit. by apply Hfit.
Qed.

Lemma flat_eq_defined allow_spool user : is_Some (lql_stream_apply_flat_eq address parse_double range_double mutation_emit
  projection_then_mutation_emit request env allow_spool user).
Proof.
  unfold lql_stream_apply_flat_eq. destruct (plan_defined allow_spool) as [pl Hp]. rewrite Hp. cbn [mbind option_bind].
  destruct pl as [|st msg handled|p allocs]; [done..|]. destruct (plan_compiles _ _ _ _ _ _ _ Hp) as [Hc _].
  pose proof (spool_init_spec (captures request p allow_spool) (fill_env env)) as Hinit.
  destruct (record_spool_init _ (fill_env env)) as [[[st msg]|spool] e0]; [done|]. subst spool.
  destruct (allocate _ allocs) as [[] allocs2]; cbn [negb]; [|done]. cbv zeta.
  set (s := with_spans _ _).
  destruct (scan_decides p (captures request p allow_spool) s e0 (main_scan_allocs env) Hc) as (x & -> & Hx).
  { unfold narrow, captures. intros ->%negb_false_iff. by rewrite orb_true_r. }
  cbn [mbind option_bind]. destruct x as [[st msg]|e]; [done|].
  unfold scan_ended. destruct (Hx _ eq_refl) as [s' ->]. done.
Qed.
End apply.

(** C3. Every application of a request to an input that nests less than 128 deep ends
    with a status: whatever the selector and its projection, how many terms and keys
    they compile to, the bytes of the input and the chunks they come in, the answers of
    the callbacks, of the allocator and of the C library, in the plan, in the scan of
    the input and in the scans of each record in batches, every loop ends and no access
    is out of bounds. *)
Theorem stream_total {X} address parse_double range_double mutation_emit projection_then_mutation_emit
    (request : lql_stream_request X) (env : stream_env) (allow_spool : bool) (user : X) :
  Forall byte_range (pending (answers env)) ->
  (nesting Outside 0 (pending (answers env)) < LQL_JSON_MAX_DEPTH)%nat ->
  exists status s, lql_stream_apply_common address parse_double range_double mutation_emit projection_then_mutation_emit
    request env allow_spool user = Some (status, s).
Proof.
  intros Hb Hn. unfold lql_stream_apply_common. destruct (request_failure _ _) as [[status message]|]; [by eexists _, _|].
  destruct (flat_eq_defined address parse_double range_double mutation_emit projection_then_mutation_emit request env
    Hb Hn allow_spool user) as [a ->]. cbn [mbind option_bind]. destruct (_ || _); by eexists _, _.
Qed.

(** A record that is read, and one that ends in an open array. *)
Definition cut_reads : list read_answer :=
  map (mk_answer LQL_STATUS_OK None) [jbs "{'a': 'x'}" ++ [ch_nl]; jbs "{'a': [1, [2, "].

Definition cut_env : stream_env :=
  mk_stream_env cut_reads [] 0 false [] [] [] (mk_env [] [] [] []) (mk_env [] [] [] []).

Lemma stream_total_witness : exists status s,
  nesting Outside 0 (pending cut_reads) = 3%nat /\
  lql_stream_apply_common (fun _ => 0) no_number no_double no_output (fun _ => no_output)
    (demo_stream_request LQL_STREAM_OUTPUT_SELECTED_RECORD a_without_b) cut_env true tt = Some (status, s).
Proof.
  assert (nesting Outside 0 (pending cut_reads) = 3%nat) as Hn by (vm_compute; reflexivity).
  destruct (stream_total (fun _ => 0) no_number no_double no_output (fun _ => no_output)
    (demo_stream_request LQL_STREAM_OUTPUT_SELECTED_RECORD a_without_b) cut_env true tt) as (status & s & E).
  - apply is_byte_forall. vm_compute. reflexivity.
  - change (answers cut_env) with cut_reads. rewrite Hn. unfold LQL_JSON_MAX_DEPTH. lia.
  - exists status, s. split; [exact Hn|exact E].
Defined.
