(* ===== verification/NumberFloat.v ===== *)
(** * Numbers and doubles (src/lql_number.c)

    [lql_number_parse_json] reads a JSON number with arithmetic on [long double], here
    the extended format with a significand of 64 bits, and rounds the result to a
    double; [lql_number_format_json] writes a double with 17 digits, as [sprintf]
    does with [%.17g].  Doubles and long doubles are [spec_float]s.  Then what they
    accept and write, and integers there and back. *)

From Stdlib Require Export Floats.SpecFloat.
From S2P Require Import Prelude.
From S2P Require Import Number.
From S2P Require Import NumberSpec.
From S2P Require Import NumberParse.
From S2P Require Import NumberProps.

(** ** Formats *)

(** [double], and [long double] with its [LDBL_MAX]. *)
Definition double_of (m e : Z) (negative : bool) : spec_float := binary_normalize 53 1024 m e negative.

Definition ldbl_of (v : Z) : spec_float := binary_normalize 64 16384 v 0 false.
Definition ldbl_add : spec_float -> spec_float -> spec_float := SFadd 64 16384.
Definition ldbl_sub : spec_float -> spec_float -> spec_float := SFsub 64 16384.
Definition ldbl_mul : spec_float -> spec_float -> spec_float := SFmul 64 16384.
Definition ldbl_div : spec_float -> spec_float -> spec_float := SFdiv 64 16384.
Definition LDBL_MAX : spec_float := S754_finite false (2 ^ 64 - 1) (16384 - 64).

(** [(double)value] *)
Definition to_double (value : spec_float) : spec_float :=
  match value with
  | S754_finite s m e => double_of (if s then Zneg m else Zpos m) e s
  | value => value
  end.

Definition lql_number_finite (value : spec_float) : bool :=
  match value with S754_zero _ | S754_finite _ _ _ => true | _ => false end.

(** ** Reading *)

Definition half_max : spec_float := ldbl_div LDBL_MAX (ldbl_of 2).

(** The loop of [lql_number_pow10]; [power] has 32 bits. *)
Fixpoint pow10_loop (fuel : nat) (power : Z) (result factor : spec_float) : option spec_float :=
  match fuel with
  | O => Some result
  | S fuel =>
      if power =? 0 then Some result
      else
        let result := if Z.odd power then ldbl_mul result factor else result in
        if Z.odd power && SFltb half_max result then None
        else
          let power := power / 2 in
          if power =? 0 then Some result
          else
            let factor := ldbl_mul factor factor in
            if SFltb half_max factor then None else pow10_loop fuel power result factor
  end.

Definition lql_number_pow10 (exponent : Z) : option spec_float :=
  match pow10_loop 32 (Z.abs exponent) (ldbl_of 1) (ldbl_of 10) with
  | None => None
  | Some result => Some (if exponent <? 0 then ldbl_div (ldbl_of 1) result else result)
  end.

(** [(LDBL_MAX - 9.0L) / 10.0L] *)
Definition int_limit : spec_float := ldbl_div (ldbl_sub LDBL_MAX (ldbl_of 9)) (ldbl_of 10).

(** The loops over the digits: the value, [None] when it gets too large, and the rest
    of the text. *)
Fixpoint int_digits (text : bytes) (value : spec_float) : option (spec_float * bytes) :=
  match text with
  | c :: t =>
      if is_digit c then
        if SFltb int_limit value then None
        else int_digits t (ldbl_add (ldbl_mul value (ldbl_of 10)) (ldbl_of (c - ch_0)))
      else Some (value, text)
  | [] => Some (value, [])
  end.

(** [0.1L] *)
Definition tenth : spec_float := ldbl_div (ldbl_of 1) (ldbl_of 10).

Fixpoint frac_digits (text : bytes) (value scale : spec_float) : spec_float * bytes :=
  match text with
  | c :: t =>
      if is_digit c
      then frac_digits t (ldbl_add value (ldbl_mul (ldbl_of (c - ch_0)) scale)) (ldbl_mul scale tenth)
      else (value, text)
  | [] => (value, [])
  end.

Fixpoint exp_digits (text : bytes) (exponent : Z) : option (Z * bytes) :=
  match text with
  | c :: t =>
      if is_digit c then
        if 10000 <? exponent then None else exp_digits t (exponent * 10 + (c - ch_0))
      else Some (exponent, text)
  | [] => Some (exponent, [])
  end.

(** The text starts with a digit. *)
Definition at_digit (text : bytes) : bool := match text with c :: _ => is_digit c | [] => false end.

(** The parts of a number in turn. *)
Definition parse_int (text : bytes) : option (spec_float * bytes) :=
  match text with
  | c :: t =>
      if c =? ch_0 then if at_digit t then None else Some (S754_zero false, t)
      else if (ch_1 <=? c) && (c <=? ch_9) then int_digits text (S754_zero false)
      else None
  | [] => None
  end.

Definition parse_frac (value : spec_float) (text : bytes) : option (spec_float * bytes) :=
  match text with
  | c :: t =>
      if c =? ch_dot then if at_digit t then Some (frac_digits t value tenth) else None
      else Some (value, text)
  | [] => Some (value, [])
  end.

Definition parse_exp (value : spec_float) (text : bytes) : option (spec_float * bytes) :=
  match text with
  | c :: t =>
      if (c =? ch_e) || (c =? ch_E) then
        let '(exp_negative, t) :=
          match t with
          | s :: t' => if (s =? ch_plus) || (s =? ch_minus) then (s =? ch_minus, t') else (false, t)
          | [] => (false, [])
          end in
        if negb (at_digit t) then None
        else
          '(exponent, t) ← exp_digits t 0;
          multiplier ← lql_number_pow10 (if (exp_negative : bool) then - exponent else exponent);
          Some (ldbl_mul value multiplier, t)
      else Some (value, text)
  | [] => Some (value, [])
  end.

Definition lql_number_parse_json (text : bytes) : option spec_float :=
  let '(negative, digits) :=
    match text with c :: t => if c =? ch_minus then (true, t) else (false, text) | [] => (false, []) end in
  match lql_number_parse_integer text with
  | Some v => Some (double_of v 0 negative)
  | None =>
      '(value, t) ← parse_int digits;
      '(value, t) ← parse_frac value t;
      '(value, t) ← parse_exp value t;
      match t with
      | _ :: _ => None
      | [] =>
          let result := to_double (if (negative : bool) then SFopp value else value) in
          if lql_number_finite result then Some result else None
      end
  end.

(** ** Writing *)

(** A positive number as a fraction. *)
Definition fraction (m : positive) (e : Z) : Z * Z :=
  if 0 <=? e then (Zpos m * 2 ^ e, 1) else (Zpos m, 2 ^ (- e)).

(** [n / d] scaled by a power of ten. *)
Definition scaled (n d k : Z) : Z * Z := if 0 <=? k then (n * 10 ^ k, d) else (n, d * 10 ^ (- k)).

(** The decimal exponent: the largest [x] from [x] down with [10^x <= n / d]. *)
Fixpoint decimal_exponent (fuel : nat) (x n d : Z) : Z :=
  match fuel with
  | O => x
  | S fuel =>
      let '(n', d') := scaled n d (- x) in
      if d' <=? n' then x else decimal_exponent fuel (x - 1) n d
  end.

(** [n / d] rounded to an integer, half to even. *)
Definition round_half_even (n d : Z) : Z :=
  let q := n / d in
  match 2 * (n - q * d) ?= d with
  | Lt => q
  | Gt => q + 1
  | Eq => if Z.even q then q else q + 1
  end.

(** An exponent that is not too small. *)
Definition exponent_above (n d : Z) : Z := if d <=? n then Z.log2 n - Z.log2 d + 1 else 0.

(** 17 digits of a positive number and its exponent. *)
Definition digits17 (m : positive) (e : Z) : Z * Z :=
  let '(n, d) := fraction m e in
  let x := decimal_exponent 1100 (exponent_above n d) n d in
  let '(n', d') := scaled n d (16 - x) in
  let q := round_half_even n' d' in
  if q =? 10 ^ 17 then (10 ^ 16, x + 1) else (q, x).

Definition strip_trailing (digits : bytes) : bytes := rev (drop_while (fun c => c =? ch_0) (rev digits)).

(** A fractional part, without a dot when it is empty. *)
Definition dotted (frac : bytes) : bytes :=
  match strip_trailing frac with [] => [] | f => ch_dot :: f end.

(** The exponent of [%e], of two digits at least. *)
Definition exponent_text (x : Z) : bytes :=
  let digits := lql_number_ulong_text (Z.abs x) in
  [ch_e; if x <? 0 then ch_minus else ch_plus] ++ (if Z.abs x <? 10 then [ch_0] else []) ++ digits.

(** [%.17g] of a positive number. *)
Definition general_text (q x : Z) : bytes :=
  let digits := lql_number_ulong_text q in
  if (x <? -4) || (17 <=? x) then take 1 digits ++ dotted (drop 1 digits) ++ exponent_text x
  else if 0 <=? x then
    take (S (Z.to_nat x)) digits ++ dotted (drop (S (Z.to_nat x)) digits)
  else [ch_0] ++ dotted (repeat ch_0 (Z.to_nat (- x - 1)) ++ digits).

Definition printf_17g (value : spec_float) : bytes :=
  match value with
  | S754_zero s => (if s then [ch_minus] else []) ++ [ch_0]
  | S754_finite s m e =>
      let '(q, x) := digits17 m e in
      (if s then [ch_minus] else []) ++ general_text q x
  | S754_infinity s => (if s then [ch_minus] else []) ++ bs "inf"
  | S754_nan => bs "nan"
  end.

(** [cap] is the size of the buffer; the text is in the C locale. *)
Definition lql_number_format_json (value : spec_float) (cap : nat) : option bytes :=
  if (cap =? 0)%nat || negb (lql_number_finite value) then None
  else
    let text := printf_17g value in
    if (cap <=? length text)%nat then None else Some text.

(** ** What is written *)

(** [10^x <= n / d] *)
Definition reaches (n d x : Z) : Prop := let '(n', d') := scaled n d (- x) in d' <= n'.

Lemma reaches_down n d x y : 0 < n -> 0 < d -> y <= x -> reaches n d x -> reaches n d y.
Proof.
  unfold reaches, scaled. intros Hn Hd Hxy.
  destruct (Z.leb_spec 0 (- x)), (Z.leb_spec 0 (- y)); intros H1; try lia.
  - transitivity (n * 10 ^ (- x)); [done|]. apply Z.mul_le_mono_nonneg_l; [lia|]. apply Z.pow_le_mono_r; lia.
  - rewrite Z.opp_involutive in H1. pose proof (pow10_pos (- y) ltac:(lia)).
    pose proof (pow10_pos x ltac:(lia)). transitivity n; nia.
  - rewrite !Z.opp_involutive in *. transitivity (d * 10 ^ x); [|done].
    apply Z.mul_le_mono_nonneg_l; [lia|]. apply Z.pow_le_mono_r; lia.
Qed.

Lemma decimal_exponent_spec n d fuel : 0 < n -> 0 < d -> forall x, ~ reaches n d (x + 1) ->
  reaches n d (x - Z.of_nat fuel) ->
  let r := decimal_exponent fuel x n d in reaches n d r /\ ~ reaches n d (r + 1).
Proof.
  intros Hn Hd. induction fuel as [|fuel IH]; intros x Hx Hr; cbn [decimal_exponent].
  - by rewrite Z.sub_0_r in Hr.
  - unfold reaches in IH, Hx, Hr |- *. destruct (scaled n d (- x)) as [n' d'] eqn:E.
    destruct (Z.leb_spec d' n').
    + by rewrite E.
    + apply IH.
      * replace (x - 1 + 1) with x by lia. rewrite E. lia.
      * by replace (x - 1 - Z.of_nat fuel) with (x - Z.of_nat (S fuel)) by lia.
Qed.

Lemma above_spec n d : 0 < n -> 0 < d -> ~ reaches n d (exponent_above n d + 1).
Proof.
  intros Hn Hd. unfold exponent_above, reaches, scaled.
  destruct (Z.log2_spec n Hn) as [_ Hn2], (Z.log2_spec d Hd) as [Hd1 _].
  destruct (Z.leb_spec d n).
  - pose proof (Z.log2_le_mono _ _ H). rewrite (proj2 (Z.leb_gt _ _)) by lia. rewrite Z.opp_involutive.
    set (k := Z.log2 n - Z.log2 d) in *. pose proof (Z.log2_nonneg d).
    assert (2 ^ Z.succ (Z.log2 n) = 2 ^ Z.log2 d * 2 ^ (k + 1)) as E by (rewrite <- Z.pow_add_r by lia; f_equal; lia).
    assert (2 ^ (k + 1) <= 10 ^ (k + 1)) by (apply Z.pow_le_mono_l; lia).
    assert (10 ^ (k + 1) <= 10 ^ (k + 1 + 1)) by (apply Z.pow_le_mono_r; lia). nia.
  - change (0 <=? - (0 + 1)) with false. change (10 ^ - - (0 + 1)) with 10. cbn beta iota. lia.
Qed.

Lemma digits2_bound m : Zpos m < 2 ^ Zpos (digits2_pos m).
Proof.
  induction m as [m IH|m IH|]; cbn [digits2_pos]; [| |done];
    rewrite Pos2Z.inj_succ, Z.pow_succ_r by lia; lia.
Qed.

(** The doubles: their significands and exponents. *)
Lemma bounded_double m e : bounded 53 1024 m e = true -> Zpos m < 2 ^ 53 /\ -1074 <= e <= 971.
Proof.
  unfold bounded, canonical_mantissa. intros [Hc He]%andb_true_iff.
  apply Z.eqb_eq in Hc. apply Z.leb_le in He. unfold fexp, emin in Hc.
  split; [|lia]. pose proof (digits2_bound m). eapply Z.lt_le_trans; [done|].
  apply Z.pow_le_mono_r; lia.
Qed.

(** They are within the reach of the search. *)
Lemma search_reaches m e : Zpos m < 2 ^ 53 -> -1074 <= e <= 971 ->
  let '(n, d) := fraction m e in 0 < n /\ 0 < d /\ reaches n d (exponent_above n d - Z.of_nat 1100).
Proof.
  intros Hm He. assert (0 <= Z.log2 (Zpos m) < 53) as Hl.
  { split; [apply Z.log2_nonneg|]. apply Z.log2_lt_pow2; lia. }
  assert (exists n d, fraction m e = (n, d) /\ 0 < n /\ 0 < d /\ d <= 2 ^ 1074 /\ Z.log2 n - Z.log2 d <= 1023)
    as (n & d & -> & Hn & Hd & Hd2 & Hlog).
  { unfold fraction. destruct (Z.leb_spec 0 e).
    - exists (Zpos m * 2 ^ e), 1. pose proof (Z.pow_pos_nonneg 2 e). split; [done|].
      rewrite Z.log2_mul_pow2 by lia. change (Z.log2 1) with 0. split_and!; [nia|lia|by apply Z.leb_le; vm_compute|lia].
    - exists (Zpos m), (2 ^ (- e)). pose proof (Z.pow_pos_nonneg 2 (- e)). split; [done|].
      rewrite Z.log2_pow2 by lia. pose proof (Z.pow_le_mono_r 2 (- e) 1074). split_and!; lia. }
  split; [done|]. split; [done|]. unfold exponent_above. destruct (Z.leb_spec d n).
  - apply (reaches_down n d 0); [done..|lia|]. unfold reaches, scaled.
    change (0 <=? - 0) with true. rewrite Z.pow_0_r. cbv iota beta. lia.
  - unfold reaches, scaled. change (0 <=? - (0 - Z.of_nat 1100)) with true. cbv iota beta.
    transitivity (2 ^ 1074); [done|]. transitivity (10 ^ (- (0 - Z.of_nat 1100))); [by apply Z.leb_le; vm_compute|].
    set (k := 10 ^ _). assert (0 < k) by (by apply Z.ltb_lt; vm_compute). nia.
Qed.

Lemma round_half_even_spec n d : 0 <= n -> 0 < d ->
  Z.abs (2 * (n - (round_half_even n d) * d)) <= d.
Proof.
  intros Hn Hd. unfold round_half_even. set (q := n / d).
  assert (0 <= n - q * d < d) by (unfold q; Z.to_euclidean_division_equations; nia).
  destruct (Z.compare_spec (2 * (n - q * d)) d); [destruct (Z.even q)|..]; nia.
Qed.

Lemma round_half_even_mono n d a b : 0 < d -> a * d <= n <= b * d -> a <= round_half_even n d <= b.
Proof.
  intros Hd Hn. unfold round_half_even. set (q := n / d).
  assert (0 <= n - q * d < d) by (unfold q; Z.to_euclidean_division_equations; nia).
  destruct (Z.compare_spec (2 * (n - q * d)) d); [destruct (Z.even q)|..]; nia.
Qed.

(** [q] is [n / d] scaled by [10^k], rounded. *)
Definition nearest (n d k q : Z) : Prop := let '(n', d') := scaled n d k in Z.abs (2 * (n' - q * d')) <= d'.

Lemma nearest_up n d k q : 0 < n -> 0 < d -> nearest n d k (10 * q) -> nearest n d (k - 1) q.
Proof.
  unfold nearest, scaled. intros Hn Hd. destruct (Z.leb_spec 0 k), (Z.leb_spec 0 (k - 1)); try lia.
  - assert (10 ^ k = 10 * 10 ^ (k - 1)) as -> by (rewrite <- Z.pow_succ_r by lia; f_equal; lia). lia.
  - replace k with 0 by lia. change (10 ^ 0) with 1. change (10 ^ (- (0 - 1))) with 10. lia.
  - replace (- (k - 1)) with (Z.succ (- k)) by lia. rewrite Z.pow_succ_r by lia.
    pose proof (pow10_pos (- k) ltac:(lia)). nia.
Qed.

(** A number at an exponent, scaled to 17 digits. *)
Lemma scaled_digits n d x : 0 < n -> 0 < d -> reaches n d x -> ~ reaches n d (x + 1) ->
  let '(n', d') := scaled n d (16 - x) in 0 < d' /\ 10 ^ 16 * d' <= n' < 10 ^ 17 * d'.
Proof.
  intros Hn Hd Hr Hr'. unfold reaches, scaled in *.
  destruct (Z.leb_spec 0 (16 - x)).
  - split; [done|]. destruct (Z.leb_spec 0 (- x)); destruct (Z.leb_spec 0 (- (x + 1))); try lia.
    + replace (16 - x) with (16 + - x) by lia. rewrite Z.pow_add_r by lia.
      replace (- x) with (Z.succ (- (x + 1))) in * by lia. rewrite Z.pow_succ_r in * by lia. nia.
    + replace x with 0 in * by lia. cbn in Hr, Hr'. rewrite Z.sub_0_r. lia.
    + rewrite !Z.opp_involutive in *. rewrite (Z.pow_add_r 10 x 1) in Hr' by lia.
      assert (10 ^ 16 = 10 ^ (16 - x) * 10 ^ x) as E by (rewrite <- Z.pow_add_r by lia; f_equal; lia).
      change (10 ^ 17) with (10 * 10 ^ 16). pose proof (pow10_pos (16 - x) ltac:(lia)).
      rewrite E. nia.
  - rewrite !(proj2 (Z.leb_gt _ _)) in * by lia. rewrite !Z.opp_involutive in *.
    pose proof (pow10_pos (- (16 - x)) ltac:(lia)). split; [nia|].
    rewrite (Z.pow_add_r 10 x 1) in Hr' by lia.
    assert (10 ^ x = 10 ^ (- (16 - x)) * 10 ^ 16) as E by (rewrite <- Z.pow_add_r by lia; f_equal; lia).
    change (10 ^ 17) with (10 * 10 ^ 16). rewrite E in *. nia.
Qed.

(** The digits are 17, and the number they stand for is nearest to the value. *)
Lemma digits17_spec m e q x : Zpos m < 2 ^ 53 -> -1074 <= e <= 971 -> digits17 m e = (q, x) ->
  10 ^ 16 <= q < 10 ^ 17 /\ let '(n, d) := fraction m e in nearest n d (16 - x) q.
Proof.
  intros Hm He. unfold digits17. pose proof (search_reaches m e Hm He) as Hs.
  destruct (fraction m e) as [n d]. destruct Hs as (Hn & Hd & Hlow).
  pose proof (decimal_exponent_spec n d 1100 Hn Hd _ (above_spec n d Hn Hd) Hlow) as [Hr Hr'].
  set (y := decimal_exponent _ _ _ _) in *. pose proof (scaled_digits n d y Hn Hd Hr Hr') as Hq.
  destruct (scaled n d (16 - y)) as [n' d'] eqn:E. destruct Hq as [Hd' Hq].
  pose proof (round_half_even_mono n' d' (10 ^ 16) (10 ^ 17) Hd' ltac:(lia)) as Hb.
  pose proof (round_half_even_spec n' d' ltac:(lia) Hd') as Hnear.
  destruct (Z.eqb_spec (round_half_even n' d') (10 ^ 17)) as [E17|]; intros [= <- <-].
  - split; [lia|]. replace (16 - (y + 1)) with (16 - y - 1) by lia. apply nearest_up; [done..|].
    unfold nearest. rewrite E. change (10 * 10 ^ 16) with (10 ^ 17). by rewrite <- E17.
  - split; [lia|]. unfold nearest. by rewrite E.
Qed.

(** *** The text *)

Lemma strip_trailing_split l : exists j, l = strip_trailing l ++ repeat ch_0 j.
Proof.
  unfold strip_trailing. destruct (drop_while_app (fun c => c =? ch_0) (rev l)) as (z & E & Hz).
  exists (length z). rewrite <- (rev_involutive l) at 1. rewrite E at 1. rewrite rev_app_distr. f_equal.
  assert (z = repeat ch_0 (length z)) as ->.
  { clear E. induction Hz as [|c z Hc _ IH]; [done|]. cbn. apply Z.eqb_eq in Hc as ->. by f_equal. }
  by rewrite repeat_length, rev_repeat.
Qed.

Lemma value_zeros a j : digits_value (a ++ repeat ch_0 j) = digits_value a * 10 ^ Z.of_nat j.
Proof.
  rewrite digits_value_app, repeat_length.
  assert (digits_value (repeat ch_0 j) = 0) as ->; [|lia].
  induction j as [|j IH]; [done|]. cbn [repeat]. rewrite digits_value_cons, IH. lia.
Qed.

(** A fractional part is written without its last zeros. *)
Lemma dotted_frac f : all_digits f -> exists fd j, frac_text (dotted f) fd /\ f = fd ++ repeat ch_0 j.
Proof.
  intros Hf. destruct (strip_trailing_split f) as (j & E). exists (strip_trailing f), j. split; [|done].
  rewrite E in Hf. apply list.Forall_app in Hf as [Hs _]. unfold dotted, frac_text.
  destruct (strip_trailing f) as [|c fd]; [by left|right]. done.
Qed.

Lemma digits_of q : 10 ^ 16 <= q < 10 ^ 17 -> let D := lql_number_ulong_text q in
  all_digits D /\ digits_value D = q /\ length D = 17%nat /\ exists d D', D = d :: D' /\ d <> ch_0.
Proof.
  intros Hq D. destruct (ulong_text_spec q) as [C V]; [lia|]. fold D in C, V.
  pose proof (canonical_digits _ C) as Hd. split; [done|]. split; [done|].
  pose proof (digits_value_bounds D Hd) as Hb. rewrite V in Hb.
  assert (D <> [ch_0]) as Hn by (intros E; rewrite E in V; cbn in V; lia).
  destruct (canonical_lower D C Hn) as [Hlo _]. rewrite V in Hlo.
  assert (16 < Z.of_nat (length D)) as H1.
  { apply (Z.pow_lt_mono_r_iff 10); lia. }
  assert (Z.of_nat (length D) - 1 < 17) as H2.
  { apply (Z.pow_lt_mono_r_iff 10); lia. }
  split; [lia|]. destruct C as [_ C]. destruct D as [|d [|d2 D']]; [done|cbn in H1; lia|by exists d, (d2 :: D')].
Qed.

Lemma exponent_text_exp x : Z.abs x < 10 ^ 20 -> exp_text (exponent_text x) x.
Proof.
  intros Hx. destruct (ulong_text_spec (Z.abs x)) as [[Hd Hc] V]; [lia|]. right. unfold exponent_text.
  set (ed := (if Z.abs x <? 10 then [ch_0] else []) ++ lql_number_ulong_text (Z.abs x)).
  assert (digits_value ed = Z.abs x) as Hv.
  { unfold ed. case_if; cbn [app]; [|done]. rewrite digits_value_cons, V. lia. }
  exists ch_e, [if x <? 0 then ch_minus else ch_plus], ed. split; [done|]. split; [by left|]. split_and!.
  - unfold ed. destruct (lql_number_ulong_text (Z.abs x)); [done|]. by case_if.
  - unfold ed. case_if; cbn [app]; [by constructor|done].
  - rewrite Hv. destruct (Z.ltb_spec x 0); [right|left]; (split; [by auto|lia]).
Qed.

(** A text without a sign denotes its digits, at an exponent for the zeros left out. *)
Lemma general_text_number q x : 10 ^ 16 <= q < 10 ^ 17 -> Z.abs x < 10 ^ 20 ->
  exists i f fd ex v k, general_text q x = i ++ f ++ ex /\ int_text i /\ frac_text f fd /\ exp_text ex v /\
    digits_value (i ++ fd) * 10 ^ Z.of_nat k = q /\ v - Z.of_nat (length fd) = x - 16 + Z.of_nat k.
Proof.
  intros Hq Hx. destruct (digits_of q Hq) as (Hd & Hv & Hl & d & D' & ED & Hne). unfold general_text.
  set (D := lql_number_ulong_text q) in *.
  destruct ((x <? -4) || (17 <=? x)) eqn:Eexp; [|destruct (Z.leb_spec 0 x)].
  - rewrite ED. cbn [take drop]. rewrite ED in Hd. apply list.Forall_cons in Hd as [Hd1 Hd2].
    destruct (dotted_frac D' Hd2) as (fd & j & Hf & E).
    exists [d], (dotted D'), fd, (exponent_text x), x, j. split; [done|].
    split; [by repeat constructor|]. split; [done|]. split; [by apply exponent_text_exp|].
    rewrite <- value_zeros, <- app_assoc, <- E. split; [by rewrite <- Hv, ED|].
    rewrite ED, E in Hl. cbn [length] in Hl. rewrite length_app, repeat_length in Hl. lia.
  - apply orb_false_iff in Eexp as [_ Hx17]. apply Z.leb_gt in Hx17. set (n := S (Z.to_nat x)).
    rewrite <- (take_drop n D) in Hd. apply list.Forall_app in Hd as [Hd1 Hd2].
    destruct (dotted_frac _ Hd2) as (fd & j & Hf & E).
    exists (take n D), (dotted (drop n D)), fd, [], 0, j. rewrite app_nil_r. split; [done|].
    split. { split; [done|]. subst n. rewrite ED. cbn. by destruct (take (Z.to_nat x) D'). }
    split; [done|]. split; [by left|].
    rewrite <- value_zeros, <- app_assoc, <- E, take_drop. split; [done|].
    pose proof (f_equal length E) as El. rewrite length_drop, Hl, length_app, repeat_length in El.
    subst n. lia.
  - set (f := repeat ch_0 (Z.to_nat (- x - 1)) ++ D).
    assert (all_digits f) as Hfd.
    { apply list.Forall_app. split; [|done]. by apply list.Forall_forall; intros c Hc%list_elem_of_In%repeat_spec; subst c. }
    destruct (dotted_frac f Hfd) as (fd & j & Hf & E). exists [ch_0], (dotted f), fd, [], 0, j.
    rewrite app_nil_r. split; [done|]. split; [by repeat constructor|]. split; [done|]. split; [by left|].
    rewrite <- value_zeros, <- app_assoc, <- E. subst f. split.
    + cbn [app]. rewrite digits_value_cons, digits_value_app.
      pose proof (value_zeros [] (Z.to_nat (- x - 1))) as Hz. cbn [app] in Hz. rewrite Hz. change (digits_value []) with 0. lia.
    + pose proof (f_equal length E) as El. rewrite !length_app, !repeat_length, Hl in El.
      apply orb_false_iff in Eexp as [Hx4%Z.ltb_ge _]. lia.
Qed.

(** ** Properties *)

(** The value of a double as a fraction: sign, numerator and denominator. *)
Definition signed (s : bool) (v : Z) : Z := if s then - v else v.

Lemma decimal_exponent_range fuel n d : forall x, x - Z.of_nat fuel <= decimal_exponent fuel x n d <= x.
Proof.
  induction fuel as [|fuel IH]; intros x; cbn [decimal_exponent]; [lia|].
  destruct (scaled n d (- x)). case_if; [lia|]. specialize (IH (x - 1)). lia.
Qed.

Lemma digits17_range m e q x : Zpos m < 2 ^ 53 -> -1074 <= e <= 971 -> digits17 m e = (q, x) -> -1100 <= x <= 1026.
Proof.
  intros Hm He. unfold digits17. pose proof (search_reaches m e Hm He) as Hs.
  destruct (fraction m e) as [n d] eqn:Ef. pose proof (decimal_exponent_range 1100 n d (exponent_above n d)) as Hr.
  set (y := decimal_exponent _ _ _ _) in *. assert (0 <= exponent_above n d <= 1025) as Ha.
  { unfold exponent_above. destruct (Z.leb_spec d n); [|lia]. pose proof (Z.log2_le_mono _ _ H).
    assert (0 <= Z.log2 (Zpos m) < 53) by (split; [apply Z.log2_nonneg|apply Z.log2_lt_pow2; lia]).
    unfold fraction in Ef. destruct (Z.leb_spec 0 e); injection Ef as <- <-.
    - rewrite Z.log2_mul_pow2 by lia. change (Z.log2 1) with 0. lia.
    - rewrite Z.log2_pow2 in * by lia. lia. }
  destruct (scaled n d (16 - y)). case_if; intros [= <- <-]; lia.
Qed.

Lemma exponent_text_length x : Z.abs x < 10000 -> (length (exponent_text x) <= 6)%nat.
Proof.
  intros Hx. unfold exponent_text. rewrite !length_app.
  destruct (ulong_text_spec (Z.abs x)) as [C V]; [lia|]. set (D := lql_number_ulong_text (Z.abs x)) in *.
  assert (length D <= 4)%nat as Hl.
  { destruct (decide (D = [ch_0])) as [->|Hn]; [cbn; lia|]. destruct (canonical_lower D C Hn) as [[Hlo _] _].
    rewrite V in Hlo. assert (Z.of_nat (length D) - 1 < 4); [|lia].
    apply (Z.pow_lt_mono_r_iff 10); [lia..|]. change (10 ^ 4) with 10000. lia. }
  destruct (Z.ltb_spec (Z.abs x) 10); cbn [length]; [|lia].
  assert (length D <= 1)%nat; [|lia].
  destruct (decide (D = [ch_0])) as [->|Hn]; [cbn; lia|]. destruct (canonical_lower D C Hn) as [[Hlo _] _].
  rewrite V in Hlo. assert (Z.of_nat (length D) - 1 < 1); [|lia].
  apply (Z.pow_lt_mono_r_iff 10); [lia..|]. change (10 ^ 1) with 10. lia.
Qed.

Lemma dotted_length f : (length (dotted f) <= S (length f))%nat.
Proof.
  unfold dotted. destruct (strip_trailing_split f) as (j & E). apply (f_equal length) in E.
  rewrite length_app in E. destruct (strip_trailing f); cbn [length] in *; lia.
Qed.

Lemma general_text_length q x : 10 ^ 16 <= q < 10 ^ 17 -> Z.abs x < 10000 -> (length (general_text q x) <= 30)%nat.
Proof.
  intros Hq Hx. destruct (digits_of q Hq) as (_ & _ & Hl & _). unfold general_text.
  set (D := lql_number_ulong_text q) in *. destruct ((x <? -4) || (17 <=? x)) eqn:E; [|destruct (Z.leb_spec 0 x)].
  - pose proof (dotted_length (drop 1 D)). pose proof (exponent_text_length x Hx).
    rewrite !length_app, length_take. rewrite length_drop in *. lia.
  - pose proof (dotted_length (drop (S (Z.to_nat x)) D)).
    rewrite !length_app, length_take. rewrite length_drop in *. lia.
  - apply orb_false_iff in E as [E%Z.ltb_ge _]. pose proof (dotted_length (repeat ch_0 (Z.to_nat (- x - 1)) ++ D)).
    rewrite !length_app, repeat_length in *. cbn [length]. lia.
Qed.

(** C9. What is written of a finite double is a JSON number that fits the buffers of its
    callers: the one nearest to the double among those of 17 significant digits,
    without the zeros at its end. *)
Theorem format_json_number s m e : bounded 53 1024 m e = true ->
  exists text q x c k, lql_number_format_json (S754_finite s m e) 64 = Some text /\
    10 ^ 16 <= q < 10 ^ 17 /\ (let '(n, d) := fraction m e in nearest n d (16 - x) q) /\
    json_number text (signed s c) (x - 16 + Z.of_nat k) /\ c * 10 ^ Z.of_nat k = q.
Proof.
  intros Hb. destruct (bounded_double m e Hb) as [Hm He]. destruct (digits17 m e) as [q x] eqn:E.
  destruct (digits17_spec m e q x Hm He E) as [Hq Hn]. pose proof (digits17_range m e q x Hm He E) as Hx.
  destruct (general_text_number q x Hq) as (i & f & fd & ex & v & k & Et & Hi & Hf & Hex & Hc & Hv); [lia|].
  exists ((if s then [ch_minus] else []) ++ general_text q x), q, x, (digits_value (i ++ fd)), k.
  split.
  - unfold lql_number_format_json. cbn [lql_number_finite negb orb Nat.eqb]. unfold printf_17g. rewrite E.
    rewrite (proj2 (Nat.leb_gt _ _)); [done|]. pose proof (general_text_length q x Hq).
    rewrite length_app. destruct s; cbn [length]; lia.
  - split; [done|]. split; [done|]. split; [|done]. exists s, i, f, fd, ex, v. rewrite Et. split_and!; auto.
Qed.

(** ** What is read *)

Lemma int_digits_split text : forall value v rest, int_digits text value = Some (v, rest) ->
  exists ds, text = ds ++ rest /\ all_digits ds /\ (at_digit text = true -> ds <> []).
Proof.
  induction text as [|c t IH]; intros value v rest; cbn [int_digits].
  - intros [= _ <-]. by exists [].
  - cbn [at_digit]. destruct (is_digit c) eqn:Ec.
    + case_match; [done|]. intros (ds & -> & Hd & _)%IH. exists (c :: ds).
      split; [done|]. split; [by constructor|done].
    + intros [= _ <-]. by exists [].
Qed.

Lemma frac_digits_split text : forall value scale v rest, frac_digits text value scale = (v, rest) ->
  exists ds, text = ds ++ rest /\ all_digits ds /\ (at_digit text = true -> ds <> []).
Proof.
  induction text as [|c t IH]; intros value scale v rest; cbn [frac_digits].
  - intros [= _ <-]. by exists [].
  - cbn [at_digit]. destruct (is_digit c) eqn:Ec.
    + intros (ds & -> & Hd & _)%IH. exists (c :: ds). split; [done|]. split; [by constructor|done].
    + intros [= _ <-]. by exists [].
Qed.

Lemma exp_digits_split text : forall x v rest, exp_digits text x = Some (v, rest) ->
  exists ds, text = ds ++ rest /\ all_digits ds /\ (at_digit text = true -> ds <> []).
Proof.
  induction text as [|c t IH]; intros x v rest; cbn [exp_digits].
  - intros [= _ <-]. by exists [].
  - cbn [at_digit]. destruct (is_digit c) eqn:Ec.
    + case_match; [done|]. intros (ds & -> & Hd & _)%IH. exists (c :: ds).
      split; [done|]. split; [by constructor|done].
    + intros [= _ <-]. by exists [].
Qed.

Lemma parse_int_split text v rest : parse_int text = Some (v, rest) ->
  exists i, text = i ++ rest /\ int_text i.
Proof.
  unfold parse_int. destruct text as [|c t]; [done|]. destruct (Z.eqb_spec c ch_0) as [->|].
  - destruct (at_digit t); [done|]. intros [= _ <-]. exists [ch_0]. split; [done|]. by repeat constructor.
  - destruct (_ && _) eqn:Ec; [|done]. intros H. apply int_digits_split in H as (ds & E & Hd & Hn).
    exists ds. split; [done|]. split; [done|].
    assert (is_digit c = true) as Hc by (apply is_digit_spec; bool_hyps; lia).
    destruct ds as [|d ds]; [by apply Hn|]. injection E as <- ->. by destruct ds.
Qed.

Lemma parse_frac_split value text v rest : parse_frac value text = Some (v, rest) ->
  exists f fd, text = f ++ rest /\ frac_text f fd.
Proof.
  unfold parse_frac. destruct text as [|c t]; [intros [= _ <-]; exists [], []; by repeat constructor|].
  destruct (Z.eqb_spec c ch_dot) as [->|].
  - destruct (at_digit t) eqn:Ed; [|done]. destruct (frac_digits t value tenth) as [v' r] eqn:E.
    intros [= <- <-]. apply frac_digits_split in E as (ds & -> & Hd & Hn).
    exists (ch_dot :: ds), ds. split; [done|]. right. auto.
  - intros [= _ <-]. exists [], []. split; [done|]. by left.
Qed.

Lemma parse_exp_split value text v rest : parse_exp value text = Some (v, rest) ->
  exists x e, text = x ++ rest /\ exp_text x e.
Proof.
  unfold parse_exp. destruct text as [|c t]; [intros [= _ <-]; exists [], 0; split; [done|by left]|].
  destruct ((c =? ch_e) || (c =? ch_E)) eqn:Ec; [|intros [= _ <-]; exists [], 0; split; [done|by left]].
  assert (exists s t' neg, t = s ++ t' /\ ((s = [] \/ s = [ch_plus]) /\ neg = false \/ s = [ch_minus] /\ neg = true) /\
    match t with
    | s :: t' => if (s =? ch_plus) || (s =? ch_minus) then (s =? ch_minus, t') else (false, t)
    | [] => (false, [])
    end = (neg, t')) as (s & t' & neg & -> & Hs & ->).
  { destruct t as [|s t']; [exists [], [], false; auto 9|].
    destruct (Z.eqb_spec s ch_plus) as [->|]; [exists [ch_plus], t', false; auto 9|].
    destruct (Z.eqb_spec s ch_minus) as [->|]; [exists [ch_minus], t', true; auto 9|].
    exists [], (s :: t'), false. auto 9. }
  destruct (at_digit t') eqn:Ed; cbn [negb]; [|done].
  intros ([x r] & (ds & -> & Hd & Hn)%exp_digits_split & (multiplier & _ & [= _ <-])%bind_Some)%bind_Some.
  apply orb_true_iff in Ec.
  exists (c :: s ++ ds), (if neg then - digits_value ds else digits_value ds).
  rewrite <- app_comm_cons, <- app_assoc. split; [done|]. right. exists c, s, ds.
  split; [done|]. split; [by destruct Ec as [->%Z.eqb_eq| ->%Z.eqb_eq]; auto|]. split; [auto|]. split; [done|].
  destruct Hs as [[Hs ->]|[-> ->]]; auto.
Qed.

(** What is read is a JSON number. *)
Theorem parse_json_number text v : lql_number_parse_json text = Some v -> exists m e, json_number text m e.
Proof.
  unfold lql_number_parse_json. destruct (lql_number_parse_integer text) as [z|] eqn:Ez.
  - intros _. apply parse_integer_spec in Ez as (neg & i & -> & Hi & _ & _).
    exists (if neg then - digits_value i else digits_value i), 0, neg, i, [], [], [], 0.
    rewrite !app_nil_r. split; [done|]. split; [done|]. split; [by left|]. split; [by left|]. done.
  - assert (exists (neg : bool) t, text = (if neg then [ch_minus] else []) ++ t /\
      match text with c :: t => if c =? ch_minus then (true, t) else (false, text) | [] => (false, []) end = (neg, t))
      as (neg & t & -> & ->).
    { destruct text as [|c t]; [by exists false, []|]. destruct (Z.eqb_spec c ch_minus) as [->|].
      - by exists true, t.
      - by exists false, (c :: t). }
    intros ([v1 t1] & (i & -> & Hi)%parse_int_split & ([v2 t2] & (f & fd & -> & Hf)%parse_frac_split &
      ([v3 t3] & (x & e & -> & Hx)%parse_exp_split & H)%bind_Some)%bind_Some)%bind_Some.
    destruct t3; [|done]. rewrite !app_nil_r.
    exists (if neg then - digits_value (i ++ fd) else digits_value (i ++ fd)), (e - Z.of_nat (length fd)).
    exists neg, i, f, fd, x, e. auto 10.
Qed.

(** ** Concrete numbers *)

(** The double of a text. *)
Definition read_back (text : bytes) : option bytes :=
  v ← lql_number_parse_json text; lql_number_format_json v 64.

Lemma format_json_number_witness : exists text q x c k,
  lql_number_format_json (S754_finite false 7205759403792794 (-56)) 64 = Some text /\
  10 ^ 16 <= q < 10 ^ 17 /\ json_number text c (x - 16 + Z.of_nat k) /\ c * 10 ^ Z.of_nat k = q.
Proof.
  destruct (format_json_number false 7205759403792794 (-56)) as (text & q & x & c & k & E & Hq & _ & Hj & Hc).
  - vm_compute. reflexivity.
  - exists text, q, x, c, k. split; [exact E|]. split; [exact Hq|]. split; [exact Hj|exact Hc].
Defined.

(** A number too small for a double is read as zero, a smaller one is refused: the
    power of ten overflows before it is inverted. *)
Lemma tiny_numbers : lql_number_parse_json (bs "1e-400") = Some (S754_zero false) /\
  lql_number_parse_json (bs "1e-5000") = None /\ lql_number_parse_json (bs "0e20000") = None.
Proof. split_and!; vm_compute; reflexivity. Qed.
