(* ===== verification/SelectorBuild.v ===== *)
(** * The selector builders (src/lql_selector.c)

    [lql_selector_build_all] and its siblings make a selector from the terms a caller
    fills in.  The builders of predicates run with allocations that succeed, as the
    text parser does; those of compounds copy their children under an arbitrary
    outcome of every allocation, text by text, with what the copy holds and its blocks.
    Then what holds of every
    selector that can be built, and what happens when a copy is refused. *)

From S2P Require Import Prelude.
From S2P Require Import Errors.
From S2P Require Import Number.
From S2P Require Import NumberFloat.
From S2P Require Import Temporal.
From S2P Require Import Selector.
From S2P Require Import Cursor.
From S2P Require Import CursorProps.
From S2P Require Import SelectorLex.
From S2P Require Import SelectorLexProps.
From S2P Require Import SelectorParse.
From S2P Require Import SelectorParseProps.

From Stdlib Require Import Floats.SpecFloat Btauto.

(** ** Views *)

(** [lql_string_view]: the bytes at [data], or NULL with whatever length the caller
    set. *)
Record lql_string_view := mk_view { data : option bytes; null_len : nat }.

Definition view_len (view : lql_string_view) : nat :=
  match data view with Some text => length text | None => null_len view end.

Definition view_has_value (view : lql_string_view) : bool :=
  is_some (data view) || negb (view_len view =? 0)%nat.

Definition view_contains_nul (view : lql_string_view) : bool :=
  match data view with Some text => existsb (Z.eqb 0) text | None => false end.

(** The copy made of a view; its bytes may hold a NUL. *)
Definition view_to_cstr (view : lql_string_view) (allow_empty : bool) : option bytes :=
  match data view with
  | None => if negb (null_len view =? 0)%nat then None else if negb allow_empty then None else Some []
  | Some text => if negb allow_empty && (length text =? 0)%nat then None else Some text
  end.

Definition view_to_trimmed_cstr (view : lql_string_view) (allow_empty : bool) : option bytes :=
  match data view with
  | None => if negb (null_len view =? 0)%nat then None else if negb allow_empty then None else Some []
  | Some text => if negb allow_empty && (at_ (trim text) 0 =? 0) then None else Some (trim text)
  end.

Definition build_field (view : lql_string_view) : option bytes :=
  if view_contains_nul view then None
  else
    match view_to_cstr view false with
    | None => None
    | Some raw => normalize_field_path raw
    end.

(** ** Terms and bounds *)

Inductive lql_selector_bound_kind :=
  | LQL_SELECTOR_BOUND_KIND_ABSENT
  | LQL_SELECTOR_BOUND_KIND_NUMBER
  | LQL_SELECTOR_BOUND_KIND_DATETIME
  | LQL_SELECTOR_BOUND_KIND_OTHER.

(** One bound of a range as the caller fills it in. *)
Record given_bound := mk_given_bound {
  bound_kind : lql_selector_bound_kind;
  number : spec_float;
  number_text : lql_string_view;
  datetime : lql_string_view
}.

Definition bound_name (k : bound_key) : bytes :=
  match k with Gt => bs "gt" | Gte => bs "gte" | Lt => bs "lt" | Lte => bs "lte" end.

Definition build_any_values (selector : lql_selector) (values : list lql_string_view) : option lql_selector :=
  texts ← mapM (fun value => view_to_cstr value false) values;
  Some (with_any selector (any selector ++ map (fun text => mk_any text LQL_SELECTOR_LITERAL_STRING false) texts)).

(** A failed copy of the text of a number leaves it NULL, like a text that is no
    number. *)
Definition build_range_bound (selector : lql_selector) (key : bound_key) (bound : given_bound)
    : failure + lql_selector :=
  match bound_kind bound with
  | LQL_SELECTOR_BOUND_KIND_ABSENT => inr selector
  | LQL_SELECTOR_BOUND_KIND_NUMBER =>
      if view_has_value (number_text bound) then
        if view_contains_nul (number_text bound) then parse_error "range selector numeric bound text invalid"
        else
          match view_to_trimmed_cstr (number_text bound) false with
          | None => parse_error "range selector numeric bound text invalid"
          | Some text =>
              if negb (lql_number_is_json text) then parse_error "range selector numeric bound text invalid"
              else set_range_bound selector (bound_name key) text
          end
      else
        match lql_number_format_json (number bound) 64 with
        | None => parse_error "range selector numeric bound must be finite"
        | Some text => set_range_bound selector (bound_name key) text
        end
  | LQL_SELECTOR_BOUND_KIND_DATETIME =>
      match view_to_trimmed_cstr (datetime bound) false with
      | None => parse_error "range selector datetime bound required"
      | Some text => set_range_bound selector (bound_name key) (cstr text)
      end
  | LQL_SELECTOR_BOUND_KIND_OTHER => parse_error "range selector bound kind invalid"
  end.

Definition build_date_string (selector : lql_selector) (slot : date_slot) (value : lql_string_view)
    : failure + lql_selector :=
  if negb (view_has_value value) then inr selector
  else
    match view_to_cstr value false with
    | None => parse_error "date selector bound required"
    | Some text => set_date_bound selector slot (cstr text)
    end.

(** [a || b || ...] of calls that stop at the first failure. *)
#[local] Instance sum_bind : MBind (sum failure) := fun A B f r =>
  match r with inl e => inl e | inr a => f a end.

(** ** Builders of predicates *)

Definition builder_init {A} (receiver out_given : bool) (m : failure + A) : failure + A :=
  if negb out_given then inl (LQL_STATUS_INVALID_ARGUMENT, "out selector required"%string)
  else if negb receiver then inl (LQL_STATUS_INVALID_ARGUMENT, "selector builder receiver required"%string)
  else m.

Definition node_kind_from_public (kind : lql_selector_node_kind) : lql_selector_kind :=
  match kind with
  | LQL_SELECTOR_NODE_AND => LQL_SELECTOR_KIND_AND
  | LQL_SELECTOR_NODE_OR => LQL_SELECTOR_KIND_OR
  | LQL_SELECTOR_NODE_NOT => LQL_SELECTOR_KIND_NOT
  | LQL_SELECTOR_NODE_EQ => LQL_SELECTOR_KIND_EQ
  | LQL_SELECTOR_NODE_CONTAINS => LQL_SELECTOR_KIND_CONTAINS
  | LQL_SELECTOR_NODE_ICONTAINS => LQL_SELECTOR_KIND_ICONTAINS
  | LQL_SELECTOR_NODE_PREFIX => LQL_SELECTOR_KIND_PREFIX
  | LQL_SELECTOR_NODE_IPREFIX => LQL_SELECTOR_KIND_IPREFIX
  | LQL_SELECTOR_NODE_RANGE => LQL_SELECTOR_KIND_RANGE
  | LQL_SELECTOR_NODE_DATE => LQL_SELECTOR_KIND_DATE
  | LQL_SELECTOR_NODE_IN => LQL_SELECTOR_KIND_IN
  | LQL_SELECTOR_NODE_EXISTS => LQL_SELECTOR_KIND_EXISTS
  | LQL_SELECTOR_NODE_ALL => LQL_SELECTOR_KIND_ALL
  end.

Definition lql_selector_build_all_internal (receiver out_given : bool) : failure + lql_selector :=
  builder_init receiver out_given (inr (selector_zero LQL_SELECTOR_KIND_ALL)).

(** The term of a string predicate; its [any_count] is the length of [any_values], which
    are only there when the caller's pointer is not NULL ([any_given]). *)
Record given_string := mk_given_string {
  string_field : lql_string_view;
  string_present : bool;
  string_value : lql_string_view;
  string_ignore_case : bool
}.

Definition is_string_kind (kind : lql_selector_kind) : bool :=
  match kind with
  | LQL_SELECTOR_KIND_EQ | LQL_SELECTOR_KIND_CONTAINS | LQL_SELECTOR_KIND_ICONTAINS
  | LQL_SELECTOR_KIND_PREFIX | LQL_SELECTOR_KIND_IPREFIX => true
  | _ => false
  end.

(** The [any] values of a string predicate, when there are some. *)
Definition string_any (kind : lql_selector_kind) (has_value any_given : bool)
    (any_values : list lql_string_view) (selector : lql_selector) : failure + lql_selector :=
  if (length any_values =? 0)%nat then inr selector
  else if negb any_given then inl (LQL_STATUS_INVALID_ARGUMENT, "selector any values required"%string)
  else if negb (bool_decide (kind = LQL_SELECTOR_KIND_CONTAINS)) &&
          negb (bool_decide (kind = LQL_SELECTOR_KIND_ICONTAINS)) then
    parse_error "selector operator does not support any"
  else if has_value then parse_error "selector cannot set both value and any"
  else
    match build_any_values selector any_values with
    | None => parse_error "selector any requires values"
    | Some selector => inr selector
    end.

Definition lql_selector_build_string_internal (receiver out_given : bool) (kind : lql_selector_node_kind)
    (term : option given_string) (any_given : bool) (any_values : list lql_string_view) : failure + lql_selector :=
  builder_init receiver out_given (
    match term with
    | None => inl (LQL_STATUS_INVALID_ARGUMENT, "string selector term required"%string)
    | Some term =>
        let internal_kind := node_kind_from_public kind in
        if negb (is_string_kind internal_kind) then
          inl (LQL_STATUS_INVALID_ARGUMENT, "string selector kind invalid"%string)
        else
          match build_field (string_field term) with
          | None => parse_error "selector field required"
          | Some field =>
              let has_value := string_present term || negb (view_len (string_value term) =? 0)%nat in
              selector ← string_any internal_kind has_value any_given any_values
                           (with_field (selector_zero internal_kind) (Some field));
              selector ← (if has_value then
                  match view_to_cstr (string_value term) true with
                  | None => parse_error "selector value invalid"
                  | Some value =>
                      inr (with_value_is_string
                             (with_value selector (Some value) (string_present term) LQL_SELECTOR_LITERAL_STRING) true)
                  end
                else inr selector);
              inr (prepare_selector_value_temporal (with_ignore_case selector (string_ignore_case term)))
          end
    end).

Record given_range := mk_given_range { range_field : lql_string_view; range_bounds : bounds given_bound }.

Definition lql_selector_build_range_internal (receiver out_given : bool) (term : option given_range)
    : failure + lql_selector :=
  builder_init receiver out_given (
    match term with
    | None => inl (LQL_STATUS_INVALID_ARGUMENT, "range selector term required"%string)
    | Some term =>
        match build_field (range_field term) with
        | None => parse_error "selector field required"
        | Some field =>
            selector ← build_range_bound (with_field (selector_zero LQL_SELECTOR_KIND_RANGE) (Some field))
                         Gt (b_gt (range_bounds term));
            selector ← build_range_bound selector Gte (b_gte (range_bounds term));
            selector ← build_range_bound selector Lt (b_lt (range_bounds term));
            selector ← build_range_bound selector Lte (b_lte (range_bounds term));
            if negb (any_number_bound selector) && negb (any_temporal_bound selector) then
              parse_error "range selector requires at least one bound"
            else if any_number_bound selector && any_temporal_bound selector then
              parse_error "range selector cannot mix numeric and datetime bounds"
            else inr selector
        end
    end).

Record given_date := mk_given_date {
  date_field : lql_string_view;
  date_value : lql_string_view;
  date_since : lql_string_view;
  date_since_kind : lql_selector_since_kind;
  date_after : lql_string_view;
  date_before : lql_string_view;
  date_bounds : bounds lql_string_view
}.

(** The view of [since], which a kind can stand for. *)
Definition macro_view (term : given_date) : failure + lql_string_view :=
  if view_has_value (date_since term) then inr (date_since term)
  else
    match date_since_kind term with
    | LQL_SELECTOR_SINCE_NOW => inr (mk_view (Some (bs "now")) 0)
    | LQL_SELECTOR_SINCE_TODAY => inr (mk_view (Some (bs "today")) 0)
    | LQL_SELECTOR_SINCE_YESTERDAY => inr (mk_view (Some (bs "yesterday")) 0)
    | LQL_SELECTOR_SINCE_LITERAL => parse_error "date selector since literal required"
    | LQL_SELECTOR_SINCE_NONE => inr (date_since term)
    end.

Definition lql_selector_build_date_internal (receiver out_given : bool) (term : option given_date)
    : failure + lql_selector :=
  builder_init receiver out_given (
    match term with
    | None => inl (LQL_STATUS_INVALID_ARGUMENT, "date selector term required"%string)
    | Some term =>
        match build_field (date_field term) with
        | None => parse_error "selector field required"
        | Some field =>
            since ← macro_view term;
            selector ← build_date_string (with_field (selector_zero LQL_SELECTOR_KIND_DATE) (Some field))
                         SlotValue (date_value term);
            selector ← build_date_string selector SlotSince since;
            selector ← build_date_string selector SlotAfter (date_after term);
            selector ← build_date_string selector SlotBefore (date_before term);
            selector ← build_date_string selector (SlotBound Gt) (b_gt (date_bounds term));
            selector ← build_date_string selector (SlotBound Gte) (b_gte (date_bounds term));
            selector ← build_date_string selector (SlotBound Lt) (b_lt (date_bounds term));
            selector ← build_date_string selector (SlotBound Lte) (b_lte (date_bounds term));
            if view_has_value since &&
               (view_has_value (date_value term) || view_has_value (date_after term) ||
                view_has_value (date_before term) || view_has_value (b_gt (date_bounds term)) ||
                view_has_value (b_gte (date_bounds term)) || view_has_value (b_lt (date_bounds term)) ||
                view_has_value (b_lte (date_bounds term))) then
              parse_error "date selector since cannot be combined with other bounds"
            else if view_has_value (date_after term) && view_has_value (b_gt (date_bounds term)) then
              parse_error "date selector cannot combine after and gt"
            else if view_has_value (date_before term) && view_has_value (b_lt (date_bounds term)) then
              parse_error "date selector cannot combine before and lt"
            else if negb (has_temporal_eq selector) && negb (any_temporal_bound selector) &&
                    bool_decide (since_macro selector = LQL_SINCE_NONE) then
              parse_error "date selector requires at least one bound"
            else inr selector
        end
    end).

Definition lql_selector_build_in_internal (receiver out_given : bool)
    (term : option lql_string_view) (any_given : bool) (any_values : list lql_string_view) : failure + lql_selector :=
  builder_init receiver out_given (
    match term with
    | None => inl (LQL_STATUS_INVALID_ARGUMENT, "in selector term required"%string)
    | Some in_field =>
        match build_field in_field with
        | None => parse_error "selector field required"
        | Some field =>
            if (length any_values =? 0)%nat || negb any_given then parse_error "in selector requires any values"
            else
              match build_any_values (with_field (selector_zero LQL_SELECTOR_KIND_IN) (Some field)) any_values with
              | None => parse_error "in selector requires non-empty any values"
              | Some selector => inr selector
              end
        end
    end).

Definition lql_selector_build_exists_internal (receiver out_given : bool) (path : lql_string_view)
    : failure + lql_selector :=
  builder_init receiver out_given (
    match build_field path with
    | None => parse_error "exists selector requires exactly one path"
    | Some field => inr (with_field (selector_zero LQL_SELECTOR_KIND_EXISTS) (Some field))
    end).

(** ** Copies of children

    A copy under construction is what it holds besides its children, how many of its
    four arrays of values are there, the [child_count] that was copied from the source
    with the rest of the structure, and where its [children] point. *)
Inductive partial_node :=
  | mk_partial (contents : lql_selector) (arrays child_count : nat) (child_array : child_pointer)
with child_pointer :=
  | NullChildren
  | SourceChildren
  | OwnChildren (copies : list partial_node).

(** [calloc]ed. *)
Definition zero_node : partial_node := mk_partial (selector_zero LQL_SELECTOR_KIND_ALL) 0 0 NullChildren.

(** The texts of a selector but for its value. *)
Inductive text_slot :=
  | FieldText
  | RangeText (k : bound_key)
  | DateValueText
  | DateSinceText
  | DateAfterText
  | DateBeforeText
  | DateText (k : bound_key).

Definition slot_text (slot : text_slot) (s : lql_selector) : option bytes :=
  match slot with
  | FieldText => field s
  | RangeText k => bound k (range_text s)
  | DateValueText => date_value_text s
  | DateSinceText => date_since_text s
  | DateAfterText => date_after_text s
  | DateBeforeText => date_before_text s
  | DateText k => bound k (date_text s)
  end.

Definition with_texts (s : lql_selector) f range v since after before date : lql_selector :=
  mk_selector (kind s) f (value s) (value_set s) (value_is_string s) (value_from_json s) (value_kind s)
    (value_is_temporal s) (ignore_case s) (any s) range v since after before date (temporal_eq s) (temporal s)
    (has_range s) (has_temporal_eq s) (range_is_temporal s) (since_macro s) (children s).

(** [dst->slot = text]. *)
Definition set_text (slot : text_slot) (text : option bytes) (s : lql_selector) : lql_selector :=
  let set f range v since after before date := with_texts s f range v since after before date in
  let '(f, range, v) := (field s, range_text s, date_value_text s) in
  let '(since, after, before, date) := (date_since_text s, date_after_text s, date_before_text s, date_text s) in
  match slot with
  | FieldText => set text range v since after before date
  | RangeText k => set f (set_bound k text range) v since after before date
  | DateValueText => set f range text since after before date
  | DateSinceText => set f range v text after before date
  | DateAfterText => set f range v since text before date
  | DateBeforeText => set f range v since after text date
  | DateText k => set f range v since after before (set_bound k text date)
  end.

Definition set_texts (slots : list text_slot) (text : option bytes) (s : lql_selector) : lql_selector :=
  fold_left (fun s slot => set_text slot text s) slots s.

(** [dst->value = value] with its length. *)
Definition set_value (v : option bytes) (s : lql_selector) : lql_selector :=
  with_value s v (value_set s) (value_kind s).

(** [*dst = *src] and the assignments of NULL after it; the children are apart. *)
Definition structure_of (src : lql_selector) : lql_selector :=
  set_texts [RangeText Gt; RangeText Gte; RangeText Lt; RangeText Lte; DateValueText; DateSinceText; DateAfterText;
             DateBeforeText; DateText Gt; DateText Gte; DateText Lt; DateText Lte] None
    (with_any (set_value None (set_text FieldText None (with_children src []))) []).

Section copies.
Context (alloc_ok : nat -> bool).

(** [clone_string]. *)
Definition clone_string (src : option bytes) : M (bool * option bytes) :=
  match src with
  | None => mret (true, None)
  | Some text => ok ← mem_alloc alloc_ok; mret (if (ok : bool) then (true, Some text) else (false, None))
  end.

(** [!clone_string(..) || !clone_string(..) ...] *)
Fixpoint clone_strings (slots : list text_slot) (src dst : lql_selector) : M (bool * lql_selector) :=
  match slots with
  | [] => mret (true, dst)
  | slot :: slots =>
      '(ok, text) ← clone_string (slot_text slot src);
      let dst := set_text slot text dst in
      if negb ok then mret (false, dst) else clone_strings slots src dst
  end.

Definition clone_value (src dst : lql_selector) : M (bool * lql_selector) :=
  match value src with
  | None => mret (true, dst)
  | Some v => ok ← mem_alloc alloc_ok; mret (if (ok : bool) then (true, set_value (Some v) dst) else (false, dst))
  end.

(** The arrays from [i] on grow by one element; [arrays] of the four are not NULL. *)
Fixpoint grow_arrays (n i arrays : nat) : M (bool * nat) :=
  match n with
  | O => mret (true, arrays)
  | S n =>
      ok ← mem_grow alloc_ok (i <? arrays)%nat;
      if (ok : bool) then grow_arrays n (S i) (Nat.max arrays (S i)) else mret (false, arrays)
  end.

Definition selector_any_push_len (dst : lql_selector) (arrays : nat) (v : any_value)
    : M (bool * lql_selector * nat) :=
  '(ok, arrays) ← grow_arrays 4 0 arrays;
  mret (ok : bool, if ok : bool then with_any dst (any dst ++ [v]) else dst, arrays).

Fixpoint clone_any (values : list any_value) (dst : lql_selector) (arrays : nat) : M (bool * lql_selector * nat) :=
  match values with
  | [] => mret (true, dst, arrays)
  | v :: values =>
      ok ← mem_alloc alloc_ok;
      if negb ok then mret (false, dst, arrays)
      else
        '(ok, dst, arrays) ← selector_any_push_len dst arrays (mk_any (any_text v) (any_kind v) (any_from_json v));
        if (ok : bool) then clone_any values dst arrays
        else mem_destroy true ≫= fun _ => mret (false, dst, arrays)
  end.

Definition clone_selector_payload (src : lql_selector) : M (bool * lql_selector * nat) :=
  '(ok, dst) ← clone_strings [FieldText; RangeText Gt; RangeText Gte; RangeText Lt; RangeText Lte; DateValueText;
                 DateSinceText; DateAfterText; DateBeforeText; DateText Gt; DateText Gte; DateText Lt; DateText Lte]
                 src (structure_of src);
  if negb ok then mret (false, dst, 0%nat)
  else
    '(ok, dst) ← clone_value src dst;
    if negb ok then mret (false, dst, 0%nat) else clone_any (any src) dst 0.

(** A refused payload leaves the pointer to the children of the source in the copy, a
    refused array leaves their number. *)
Fixpoint clone_selector (src : lql_selector) : M (bool * partial_node) :=
  '(ok, dst, arrays) ← clone_selector_payload src;
  if negb ok then
    mret (false, mk_partial dst arrays (length (children src))
                   (if (length (children src) =? 0)%nat then NullChildren else SourceChildren))
  else if (length (children src) =? 0)%nat then mret (true, mk_partial dst arrays 0 NullChildren)
  else
    ok ← mem_alloc alloc_ok;
    if negb ok then mret (false, mk_partial dst arrays (length (children src)) NullChildren)
    else
      '(ok, copies) ←
        (fix clone_children (l : list lql_selector) : M (bool * list partial_node) :=
           match l with
           | [] => mret (true, [])
           | src :: l =>
               '(ok, dst) ← clone_selector src;
               if negb ok then mret (false, dst :: repeat zero_node (length l))
               else '(ok, copies) ← clone_children l; mret (ok, dst :: copies)
           end) (children src);
      mret (ok, mk_partial dst arrays (length (children src)) (OwnChildren copies)).

(** [destroy] of each text. *)
Fixpoint destroy_texts (slots : list text_slot) (s : lql_selector) : M unit :=
  match slots with
  | [] => mret tt
  | slot :: slots => mem_destroy (is_some (slot_text slot s)) ≫= fun _ => destroy_texts slots s
  end.

(** The texts, the values and their arrays. *)
Definition destroy_contents (s : lql_selector) (arrays : nat) : M unit :=
  destroy_texts [FieldText] s ≫= fun _ =>
  mem_destroy (is_some (value s)) ≫= fun _ =>
  mem_destroy_n (length (any s)) ≫= fun _ =>
  mem_destroy_n arrays ≫= fun _ =>
  destroy_texts [RangeText Gt; RangeText Gte; RangeText Lt; RangeText Lte; DateValueText; DateSinceText; DateAfterText;
    DateBeforeText; DateText Gt; DateText Gte; DateText Lt; DateText Lte] s.

(** [lql_selector_cleanup].  [None] is undefined behaviour: the children of the source
    destroyed, or a second child read at a NULL pointer (the first is NULL itself and
    is passed over). *)
Fixpoint lql_selector_cleanup (node : partial_node) : M (option unit) :=
  let '(mk_partial contents arrays child_count child_array) := node in
  destroy_contents contents arrays ≫= fun _ =>
  match child_array with
  | NullChildren => mret (if (child_count <=? 1)%nat then Some tt else None)
  | SourceChildren => mret None
  | OwnChildren copies =>
      cleaned ←
        (fix cleanup_all (l : list partial_node) : M (option unit) :=
           match l with
           | [] => mret (Some tt)
           | copy :: l =>
               cleaned ← lql_selector_cleanup copy;
               match cleaned with None => mret None | Some _ => cleanup_all l end
           end) copies;
      match cleaned with None => mret None | Some _ => mem_destroy true ≫= fun _ => mret (Some tt) end
  end.

(** The selector that a finished node is. *)
Fixpoint selector_of (node : partial_node) : lql_selector :=
  let '(mk_partial contents _ _ child_array) := node in
  with_children contents (match child_array with OwnChildren copies => map selector_of copies | _ => [] end).

(** ** Builders of compounds *)

Definition no_memory {A} : failure + A := inl (LQL_STATUS_NO_MEMORY, "out of memory"%string).

(** A failure after the copy was cleaned up. *)
Definition clean_and_fail {A} (node : partial_node) (x : failure) : M (option (failure + A)) :=
  cleaned ← lql_selector_cleanup node;
  mret (match cleaned with None => None | Some _ => Some (inl x) end).

(** With [selector_from_built_root]: the root moves into a block of its own. *)
Definition selector_build_result (node : partial_node) : M (option (failure + lql_selector)) :=
  ok ← mem_alloc alloc_ok;
  if (ok : bool) then mret (Some (inr (selector_of node)))
  else clean_and_fail node (LQL_STATUS_NO_MEMORY, "out of memory"%string).

(** The root with [n] children. *)
Definition compound_root (k : lql_selector_kind) (n : nat) (copies : list partial_node) : partial_node :=
  mk_partial (selector_zero k) 0 n (OwnChildren copies).

(** [for (i = 0u; i < child_count; ++i)]: a child may be NULL. *)
Fixpoint copy_given (l : list (option lql_selector)) : M (option failure * list partial_node) :=
  match l with
  | [] => mret (None, [])
  | None :: l =>
      mret (Some (LQL_STATUS_INVALID_ARGUMENT, "compound selector child required"%string),
            repeat zero_node (S (length l)))
  | Some src :: l =>
      '(ok, dst) ← clone_selector src;
      if negb ok then
        mret (Some (LQL_STATUS_NO_MEMORY, "out of memory"%string), dst :: repeat zero_node (length l))
      else '(failed, copies) ← copy_given l; mret (failed, dst :: copies)
  end.

(** The builders of compounds; [child_count] is the length of [given], the array of
    children, which are only there when the caller's pointer is not NULL. *)
Definition lql_selector_build_compound_internal (receiver out_given : bool) (kind : lql_selector_node_kind)
    (children_given : bool) (given : list (option lql_selector)) : M (option (failure + lql_selector)) :=
  match builder_init receiver out_given (inr tt) with
  | inl x => mret (Some (inl x))
  | inr _ =>
      let internal_kind := node_kind_from_public kind in
      if negb (bool_decide (internal_kind = LQL_SELECTOR_KIND_AND)) &&
         negb (bool_decide (internal_kind = LQL_SELECTOR_KIND_OR)) then
        mret (Some (inl (LQL_STATUS_INVALID_ARGUMENT, "compound selector kind must be AND or OR"%string)))
      else if (length given =? 0)%nat then selector_build_result (mk_partial (selector_zero LQL_SELECTOR_KIND_ALL) 0 0 NullChildren)
      else if negb children_given then
        mret (Some (inl (LQL_STATUS_INVALID_ARGUMENT, "compound selector children required"%string)))
      else
        ok ← mem_alloc alloc_ok;
        if negb ok then mret (Some no_memory)
        else
          '(failed, copies) ← copy_given given;
          let node := compound_root internal_kind (length given) copies in
          match failed with
          | Some x => clean_and_fail node x
          | None => selector_build_result node
          end
  end.

Definition lql_selector_build_not_internal (receiver out_given : bool) (child : option lql_selector)
    : M (option (failure + lql_selector)) :=
  match child with
  | None => mret (Some (inl (LQL_STATUS_INVALID_ARGUMENT, "not selector child required"%string)))
  | Some child =>
      match builder_init receiver out_given (inr tt) with
      | inl x => mret (Some (inl x))
      | inr _ =>
          ok ← mem_alloc alloc_ok;
          if negb ok then mret (Some no_memory)
          else
            '(ok, copy) ← clone_selector child;
            let node := compound_root LQL_SELECTOR_KIND_NOT 1 [copy] in
            if negb ok then clean_and_fail node (LQL_STATUS_NO_MEMORY, "out of memory"%string)
            else selector_build_result node
      end
  end.
End copies.

(** ** What is built *)

(** A string predicate or an [in]: a builder takes its texts as they are, with spaces
    around them and under any operator. *)
Definition built_any (v : any_value) : Prop := any_text v <> [] /\ literal_ok (any_text v) (any_kind v).

Definition built_value (s : lql_selector) : Prop :=
  match value s with
  | Some v => (value_set s = true \/ v <> []) /\ literal_ok v (value_kind s)
  | None => value_set s = false
  end.

Definition built_node (s : lql_selector) : Prop :=
  match kind s with
  | LQL_SELECTOR_KIND_EQ | LQL_SELECTOR_KIND_NE | LQL_SELECTOR_KIND_PREFIX | LQL_SELECTOR_KIND_IPREFIX =>
      children s = [] /\ path_field s /\ built_value s /\ any s = []
  | LQL_SELECTOR_KIND_CONTAINS | LQL_SELECTOR_KIND_ICONTAINS =>
      children s = [] /\ path_field s /\ built_value s /\ Forall built_any (any s) /\
      (any s = [] \/ value s = None)
  | LQL_SELECTOR_KIND_IN => children s = [] /\ path_field s /\ any s <> [] /\ Forall built_any (any s)
  | _ => node_ok s
  end.

Inductive built_tree : lql_selector -> Prop :=
  | built_tree_node s : built_node s -> Forall built_tree (children s) -> built_tree s.

(** The selectors a program can come to hold: parsed from text or built from terms, by
    a parser and builders whose allocations succeed, or built from selectors it holds,
    whatever allocations are refused while they are copied. *)
Inductive held : lql_selector -> Prop :=
  | held_parsed receiver expr or_mode out_given s :
      lql_parse_selector_internal receiver expr or_mode out_given = Some (inr s) -> held s
  | held_all receiver out_given s : lql_selector_build_all_internal receiver out_given = inr s -> held s
  | held_string receiver out_given k term any_given values s :
      lql_selector_build_string_internal receiver out_given k term any_given values = inr s -> held s
  | held_range receiver out_given term s :
      lql_selector_build_range_internal receiver out_given term = inr s -> held s
  | held_date receiver out_given term s :
      lql_selector_build_date_internal receiver out_given term = inr s -> held s
  | held_in receiver out_given term any_given values s :
      lql_selector_build_in_internal receiver out_given term any_given values = inr s -> held s
  | held_exists receiver out_given path s :
      lql_selector_build_exists_internal receiver out_given path = inr s -> held s
  | held_compound alloc_ok receiver out_given k children_given given m s :
      (forall c, In (Some c) given -> held c) ->
      fst (lql_selector_build_compound_internal alloc_ok receiver out_given k children_given given m) = Some (inr s) ->
      held s
  | held_not alloc_ok receiver out_given child m s :
      (forall c, child = Some c -> held c) ->
      fst (lql_selector_build_not_internal alloc_ok receiver out_given child m) = Some (inr s) -> held s.

Lemma tree_ok_built s : tree_ok s -> built_tree s.
Proof.
  induction s as [s IH] using selector_ind'. intros H. inversion H as [? Hn HC]; subst. constructor.
  - assert (Hv : value_ok s -> built_value s).
    { unfold value_ok, built_value. destruct (value s); [|done]. by intros [-> ?]; split; [left|]. }
    assert (Ha : Forall any_value_ok (any s) -> Forall built_any (any s)).
    { intros H'. eapply list.Forall_impl; [exact H'|]. by intros v (? & _ & ?). }
    unfold node_ok in Hn. unfold built_node, node_ok.
    destruct (kind s); try tauto; destruct_and!; split_and!; auto.
  - clear Hn H. induction HC as [|c l Hc _ IHl]; [constructor|]. inversion_clear IH as [|? ? H1 H2].
    constructor; [by apply H1|by apply IHl].
Qed.

Lemma built_leaf s : children s = [] -> built_node s -> built_tree s.
Proof. intros E H. constructor; [done|]. rewrite E. constructor. Qed.

Lemma built_shape s : built_tree s -> tree_shape s.
Proof.
  induction s as [s IH] using selector_ind'. intros H. inversion H as [? Hn HC]; subst. constructor.
  - unfold built_node, node_ok in Hn. unfold node_shape. destruct (kind s); try tauto. by rewrite Hn.
  - clear Hn H. induction HC as [|c l Hc _ IHl]; [constructor|]. inversion_clear IH as [|? ? H1 H2].
    constructor; [by apply H1|by apply IHl].
Qed.

Lemma init_inr {A} receiver out_given (m : failure + A) a : builder_init receiver out_given m = inr a -> m = inr a.
Proof. unfold builder_init. destruct out_given; [|done]. by destruct receiver. Qed.

Lemma field_path view f : build_field view = Some f -> at_ f 0 = ch_slash.
Proof.
  unfold build_field. destruct (view_contains_nul view); [done|].
  destruct (view_to_cstr view false); [|done]. apply normalize_slash.
Qed.

Lemma view_nonempty view text : view_to_cstr view false = Some text -> text <> [].
Proof.
  unfold view_to_cstr. destruct (data view) as [[|c t]|]; cbn; try done; [by intros [= <-]|].
  by destruct (null_len view).
Qed.

Lemma build_any_spec s values s' : build_any_values s values = Some s' ->
  exists l, s' = with_any s (any s ++ l) /\ length l = length values /\ Forall built_any l.
Proof.
  unfold build_any_values. destruct (mapM _ values) as [texts|] eqn:E; [|done]. intros [= <-].
  eexists. split; [done|]. apply mapM_Some in E. split; [by rewrite length_map, (Forall2_length E)|].
  induction E as [|v t values texts Hv _ IH]; cbn; constructor; [|done].
  split; [by eapply view_nonempty|by left].
Qed.

(** The steps of the builders of ranges and dates, with the slots that the text parser
    would have seen. *)
Definition given (b : bool) (slot : seen_slot) (seen : seen_values) : seen_values :=
  if b then (slot, []) :: seen else seen.

Lemma given_get b slot seen slot' : seen_get (given b slot seen) slot' =
  if b && bool_decide (slot = slot') then Some [] else seen_get seen slot'.
Proof. destruct b; cbn [given andb]; [|done]. rewrite seen_get_cons. by case_bool_decide. Qed.

Lemma given_set b slot seen slot' : seen_set (given b slot seen) slot' =
  (b && bool_decide (slot = slot')) || seen_set seen slot'.
Proof. unfold seen_set. rewrite given_get. by destruct (b && _). Qed.

Lemma with_range_field s key text s' : set_range_bound s key text = inr s' -> field s' = field s /\ any s' = any s.
Proof.
  unfold set_range_bound. destruct (lql_parse_temporal_literal _); [by intros [= <-]|]. destruct (negb _); [done|].
  by intros [= <-].
Qed.

Lemma with_date_field s slot text s' : set_date_bound s slot text = inr s' ->
  field s' = field s /\ any s' = any s /\ value_is_temporal s' = value_is_temporal s.
Proof.
  unfold set_date_bound. destruct slot; [|destruct (since_macro_of text); [by intros [= <-]|]|..];
    destruct (lql_parse_temporal_literal _); try done; by intros [= <-].
Qed.

Lemma bound_key_name k : bound_of_key (bound_name k) = k.
Proof. by destruct k; vm_compute. Qed.

Definition range_given (b : given_bound) : bool :=
  match bound_kind b with LQL_SELECTOR_BOUND_KIND_ABSENT => false | _ => true end.

Lemma range_step s seen k b s' : kv_inv LQL_SELECTOR_KIND_RANGE s seen -> seen_get seen (slot_of_bound k) = None ->
  build_range_bound s k b = inr s' ->
  kv_inv LQL_SELECTOR_KIND_RANGE s' (given (range_given b) (slot_of_bound k) seen) /\
  field s' = field s /\ any s' = any s.
Proof.
  intros Hi Hn. assert (K : forall text, set_range_bound s (bound_name k) text = inr s' ->
    kv_inv LQL_SELECTOR_KIND_RANGE s' ((slot_of_bound k, []) :: seen) /\ field s' = field s /\ any s' = any s).
  { intros text H. split; [|by eapply with_range_field].
    eapply set_range_bound_ok; [exact Hi|done|done|by rewrite bound_key_name|exact H]. }
  unfold build_range_bound, range_given. destruct (bound_kind b); cbn [given]; [by intros [= <-]|..|done].
  - destruct (view_has_value _).
    + destruct (view_contains_nul _); [done|]. destruct (view_to_trimmed_cstr _ _); [|done].
      destruct (negb _); [done|]. apply K.
    + destruct (lql_number_format_json _ _); [|done]. apply K.
  - destruct (view_to_trimmed_cstr _ _); [|done]. apply K.
Qed.

Lemma date_step s seen d v s' : kv_inv LQL_SELECTOR_KIND_DATE s seen -> seen_get seen (slot_of_date d) = None ->
  build_date_string s d v = inr s' ->
  kv_inv LQL_SELECTOR_KIND_DATE s' (given (view_has_value v) (slot_of_date d) seen) /\
  field s' = field s /\ any s' = any s /\ value_is_temporal s' = value_is_temporal s.
Proof.
  intros Hi Hn. unfold build_date_string. destruct (view_has_value v); cbn [negb given]; [|by intros [= <-]].
  destruct (view_to_cstr v false) as [text|]; [|done]. intros H. split; [|by eapply with_date_field].
  eapply set_date_bound_ok; [exact Hi|done|exact H].
Qed.

Lemma kv_inv_field k f : at_ f 0 = ch_slash -> kv_inv k (with_field (selector_zero k) (Some f)) [].
Proof.
  intros Hf. destruct (kv_inv_start k). split; try done; cbn. by intros ? [= <-].
Qed.

(** Decide equations between constructors. *)
Ltac known_tests := repeat match goal with
  | |- context [bool_decide (?a = ?b)] =>
      first [change (bool_decide (a = b)) with false | change (bool_decide (a = b)) with true]
  end; cbn [andb orb negb].

Lemma bind_inr {A B} (r : failure + A) (f : A -> failure + B) b : (r ≫= f) = inr b -> exists a, r = inr a /\ f a = inr b.
Proof. destruct r; [done|]. by eexists. Qed.

Lemma range_built receiver out_given term s :
  lql_selector_build_range_internal receiver out_given term = inr s -> tree_ok s.
Proof.
  intros H%init_inr. revert H. destruct term as [term|]; [|done].
  destruct (build_field _) as [f|] eqn:Ef; [|done]. apply field_path in Ef.
  pose proof (kv_inv_field LQL_SELECTOR_KIND_RANGE f Ef) as I0.
  intros (s1 & E1 & (s2 & E2 & (s3 & E3 & (s4 & E4 & H)%bind_inr)%bind_inr)%bind_inr)%bind_inr.
  destruct (range_step _ _ Gt _ _ I0 eq_refl E1) as (I1 & F1 & A1).
  destruct (range_step _ _ Gte _ _ I1 ltac:(by rewrite !given_get, !andb_false_r) E2) as (I2 & F2 & A2).
  destruct (range_step _ _ Lt _ _ I2 ltac:(by rewrite !given_get, !andb_false_r) E3) as (I3 & F3 & A3).
  destruct (range_step _ _ Lte _ _ I3 ltac:(by rewrite !given_get, !andb_false_r) E4) as (I4 & F4 & A4).
  revert H. destruct (_ && _) eqn:C1; [done|]. destruct (any_number_bound s4 && any_temporal_bound s4) eqn:C2; [done|].
  intros [= <-].
  destruct (key_values_check_ok LQL_SELECTOR_KIND_RANGE s4 _ (prepare_selector_value_temporal s4) I4) as [_ K]; try done.
  { unfold key_values_check. cbv zeta. assert (field s4 = Some f) as -> by (cbn in F1; congruence).
    assert (any s4 = []) as -> by (cbn in A1; congruence). cbn [is_some negb]. known_tests. by rewrite C1, C2. }
  specialize (K eq_refl). destruct (prepare_value_temporal s4) as (b & t & E). rewrite E in K.
  pose proof (inv_kind _ _ _ I4) as Hk. inversion K as [? Hn Hc]; subst. unfold node_ok in Hn. cbn in Hn, Hc. rewrite Hk in Hn.
  constructor; [|exact Hc]. unfold node_ok. by rewrite Hk.
Qed.

Lemma date_built receiver out_given term s :
  lql_selector_build_date_internal receiver out_given term = inr s -> tree_ok s.
Proof.
  intros H%init_inr. revert H. destruct term as [term|]; [|done].
  destruct (build_field _) as [f|] eqn:Ef; [|done]. apply field_path in Ef.
  pose proof (kv_inv_field LQL_SELECTOR_KIND_DATE f Ef) as I0. intros (since & _ & H)%bind_inr. revert H.
  intros (s1 & E1 & (s2 & E2 & (s3 & E3 & (s4 & E4 & (s5 & E5 & (s6 & E6 & (s7 & E7 &
    (s8 & E8 & H)%bind_inr)%bind_inr)%bind_inr)%bind_inr)%bind_inr)%bind_inr)%bind_inr)%bind_inr.
  destruct (date_step _ _ SlotValue _ _ I0 eq_refl E1) as (I1 & F1 & A1 & _).
  destruct (date_step _ _ SlotSince _ _ I1 ltac:(by rewrite !given_get, !andb_false_r) E2) as (I2 & F2 & A2 & _).
  destruct (date_step _ _ SlotAfter _ _ I2 ltac:(by rewrite !given_get, !andb_false_r) E3) as (I3 & F3 & A3 & _).
  destruct (date_step _ _ SlotBefore _ _ I3 ltac:(by rewrite !given_get, !andb_false_r) E4) as (I4 & F4 & A4 & _).
  destruct (date_step _ _ (SlotBound Gt) _ _ I4 ltac:(by rewrite !given_get, !andb_false_r) E5) as (I5 & F5 & A5 & _).
  destruct (date_step _ _ (SlotBound Gte) _ _ I5 ltac:(by rewrite !given_get, !andb_false_r) E6) as (I6 & F6 & A6 & _).
  destruct (date_step _ _ (SlotBound Lt) _ _ I6 ltac:(by rewrite !given_get, !andb_false_r) E7) as (I7 & F7 & A7 & _).
  destruct (date_step _ _ (SlotBound Lte) _ _ I7 ltac:(by rewrite !given_get, !andb_false_r) E8) as (I8 & F8 & A8 & _).
  revert H. destruct (_ && _) eqn:C1; [done|]. destruct (view_has_value (date_after term) && _) eqn:C2; [done|].
  destruct (view_has_value (date_before term) && _) eqn:C3; [done|].
  destruct (_ && bool_decide (since_macro s8 = LQL_SINCE_NONE)) eqn:C4; [done|]. intros [= <-].
  destruct (key_values_check_ok LQL_SELECTOR_KIND_DATE s8 _ (prepare_selector_value_temporal s8) I8) as [_ K]; try done.
  { unfold key_values_check. cbv zeta. assert (field s8 = Some f) as -> by (cbn in F1; congruence).
    assert (any s8 = []) as -> by (cbn in A1; congruence). cbn [is_some negb existsb slot_of_date slot_of_bound].
    rewrite !given_set. known_tests.
    rewrite !andb_true_r, !andb_false_r. cbn [orb]. rewrite !orb_false_r. rewrite C2, C3, C4.
    replace (_ && _) with false by (rewrite <- C1; btauto). done. }
  specialize (K eq_refl). destruct (prepare_value_temporal s8) as (b & t & E). rewrite E in K.
  pose proof (inv_kind _ _ _ I8) as Hk. inversion K as [? Hn Hc]; subst. unfold node_ok in Hn. cbn in Hn, Hc. rewrite Hk in Hn.
  constructor; [|exact Hc]. unfold node_ok. by rewrite Hk.
Qed.

Lemma string_any_spec kind hv g values f s' :
  string_any kind hv g values (with_field (selector_zero kind) (Some f)) = inr s' ->
  exists l, s' = with_any (with_field (selector_zero kind) (Some f)) l /\ Forall built_any l /\
    (l = [] \/ hv = false /\ (kind = LQL_SELECTOR_KIND_CONTAINS \/ kind = LQL_SELECTOR_KIND_ICONTAINS)).
Proof.
  unfold string_any. destruct (_ =? _)%nat; [intros [= <-]; exists []; by split_and!; [| |left]|].
  destruct g; [cbn [negb]|done]. destruct (negb _ && negb _) eqn:Ek; [done|]. destruct hv; [done|].
  destruct (build_any_values _ _) as [s|] eqn:E; [|done]. intros [= <-].
  apply build_any_spec in E as (l & -> & _ & Hl). exists l. split_and!; [done..|right]. split; [done|].
  apply andb_false_iff in Ek as [E|E]; apply negb_false_iff, bool_decide_eq_true in E; tauto.
Qed.

Lemma string_built receiver out_given k term g values s :
  lql_selector_build_string_internal receiver out_given k term g values = inr s -> built_tree s.
Proof.
  intros H%init_inr. revert H. destruct term as [term|]; [|done]. cbv zeta.
  destruct (is_string_kind _) eqn:Ek; [cbn [negb]|done].
  set (kind' := node_kind_from_public k) in *. clearbody kind'.
  destruct (build_field _) as [f|] eqn:Ef; [|done]. apply field_path in Ef.
  intros (s1 & (l & -> & Hl & Hany)%string_any_spec & (s2 & E2 & [= <-])%bind_inr)%bind_inr.
  match goal with |- built_tree (prepare_selector_value_temporal ?s) =>
    destruct (prepare_value_temporal s) as (b & t & ->) end.
  assert (built_value s2 /\ kind s2 = kind' /\ children s2 = [] /\ field s2 = Some f /\ any s2 = l /\
    (l = [] \/ value s2 = None)) as (Hv & Hk & Hc & Hf & Ha & Hx).
  { destruct (_ || _) eqn:Ehv in E2; [|injection E2 as <-; by split_and!; [..|right]].
    destruct (view_to_cstr _ _) as [v|] eqn:Ev; [|done]. injection E2 as <-. cbn. split_and!; try done.
    - apply orb_true_iff in Ehv as [->|Hv]; [by left|right].
      intros ->. apply negb_true_iff, Nat.eqb_neq in Hv. unfold view_to_cstr, view_len in *.
      destruct (data _) as [[|]|]; [done..|]. by destruct (null_len _).
    - by left.
    - destruct Hany as [->|[E _]]; [by left|congruence]. }
  apply built_leaf; [done|]. unfold built_node. cbn [kind with_value_temporal with_ignore_case]. rewrite Hk.
  assert (path_field s2) as Hp by by exists f. rewrite <- Ha in *.
  assert (kind' <> LQL_SELECTOR_KIND_CONTAINS -> kind' <> LQL_SELECTOR_KIND_ICONTAINS -> any s2 = []) as Hn by tauto.
  destruct kind'; try done; split_and!; try done; by apply Hn.
Qed.

Lemma in_built receiver out_given term g values s :
  lql_selector_build_in_internal receiver out_given term g values = inr s -> built_tree s.
Proof.
  intros H%init_inr. revert H. destruct term as [fv|]; [|done].
  destruct (build_field fv) as [f|] eqn:Ef; [|done]. apply field_path in Ef.
  destruct (_ || _) eqn:En; [done|]. apply orb_false_iff in En as [En _].
  destruct (build_any_values _ _) as [s'|] eqn:E; [|done]. intros [= <-].
  apply build_any_spec in E as (l & -> & El & Hl). apply built_leaf; [done|]. unfold built_node. cbn.
  split_and!; [done|by exists f| |done]. intros ->. by rewrite <- El in En.
Qed.

Lemma exists_built receiver out_given path s :
  lql_selector_build_exists_internal receiver out_given path = inr s -> tree_ok s.
Proof.
  intros H%init_inr. revert H. destruct (build_field path) as [f|] eqn:Ef; [|done]. apply field_path in Ef.
  intros [= <-]. apply leaf_ok; [done|]. split; [done|by exists f].
Qed.

(** ** Copies and their blocks *)

Section nodes.
Context (P : partial_node -> Prop).
Hypothesis null_case : forall s a k, P (mk_partial s a k NullChildren).
Hypothesis source_case : forall s a k, P (mk_partial s a k SourceChildren).
Hypothesis own_case : forall s a k l, Forall P l -> P (mk_partial s a k (OwnChildren l)).

Fixpoint node_ind (p : partial_node) : P p :=
  match p with
  | mk_partial s a k NullChildren => null_case s a k
  | mk_partial s a k SourceChildren => source_case s a k
  | mk_partial s a k (OwnChildren l) =>
      own_case s a k l ((fix go l : Forall P l :=
        match l with [] => Forall_nil P | c :: l => @Forall_cons _ P c l (node_ind c) (go l) end) l)
  end.
End nodes.

Fixpoint sum_of {A} (f : A -> nat) (l : list A) : nat :=
  match l with [] => 0 | x :: l => f x + sum_of f l end.

(** The block of a text that is there. *)
Definition text_block (text : option bytes) : nat := match text with Some _ => 1 | None => 0 end.

Definition bound_blocks (b : bounds (option bytes)) : nat :=
  text_block (b_gt b) + text_block (b_gte b) + text_block (b_lt b) + text_block (b_lte b).

(** The blocks of the texts of a selector, field by field. *)
Definition text_blocks (s : lql_selector) : nat :=
  text_block (field s) + text_block (value s) + bound_blocks (range_text s) +
  text_block (date_value_text s) + text_block (date_since_text s) + text_block (date_after_text s) +
  text_block (date_before_text s) + bound_blocks (date_text s).

Definition contents_blocks (s : lql_selector) (arrays : nat) : nat := text_blocks s + length (any s) + arrays.

(** The four arrays of a selector with values. *)
Definition arrays_of (s : lql_selector) : nat := match any s with [] => 0 | _ => 4 end.

Definition payload_blocks (s : lql_selector) : nat := contents_blocks s (arrays_of s).

(** The blocks that a copy owns. *)
Fixpoint node_blocks (p : partial_node) : nat :=
  match p with
  | mk_partial s a _ (OwnChildren l) => contents_blocks s a + S (sum_of node_blocks l)
  | mk_partial s a _ _ => contents_blocks s a
  end.

(** A copy that can be cleaned up. *)
Fixpoint cleanable (p : partial_node) : Prop :=
  match p with
  | mk_partial _ _ k NullChildren => (k <= 1)%nat
  | mk_partial _ _ _ SourceChildren => False
  | mk_partial _ _ _ (OwnChildren l) => fold_right (fun p Q => cleanable p /\ Q) True l
  end.

(** The blocks of a selector but for its own structure. *)
Fixpoint tree_blocks (s : lql_selector) : nat :=
  payload_blocks s + match children s with [] => 0 | l => S (sum_of tree_blocks l) end.

(** A node whose copy cannot be cleaned up after a refused request. *)
Definition fragile (s : lql_selector) : Prop :=
  (2 <= length (children s))%nat \/ children s <> [] /\ payload_blocks s <> 0%nat.

Lemma cleanable_all l : fold_right (fun p Q => cleanable p /\ Q) True l <-> Forall cleanable l.
Proof. induction l as [|p l IH]; cbn; [by split|]. by rewrite IH, list.Forall_cons. Qed.

(** *** Texts *)

#[local] Instance bound_key_eq_dec : EqDecision bound_key.
Proof. solve_decision. Defined.
#[local] Instance text_slot_eq_dec : EqDecision text_slot.
Proof. solve_decision. Defined.

Lemma slot_set_text a b text s : slot_text a (set_text b text s) = if decide (a = b) then text else slot_text a s.
Proof.
  destruct a as [|k| | | | |k], b as [|k'| | | | |k']; try done; destruct k, k'; done.
Qed.

Lemma blocks_set_text slot text s : slot_text slot s = None ->
  text_blocks (set_text slot text s) = (text_block text + text_blocks s)%nat.
Proof.
  unfold text_blocks, bound_blocks. destruct slot as [|k| | | | |k]; try destruct k; cbn; intros ->; cbn; lia.
Qed.

Lemma slot_blocks slot s : (text_block (slot_text slot s) <= text_blocks s)%nat.
Proof. unfold text_blocks, bound_blocks. destruct slot as [|k| | | | |k]; try destruct k; cbn; lia. Qed.

Lemma outcome_texts slots s m : outcome (destroy_texts slots s) m (fun _ m' =>
  m' = mk_mem (requests m) (live m - Z.of_nat (sum_of (fun slot => text_block (slot_text slot s)) slots))).
Proof.
  revert m. induction slots as [|slot slots IH]; intros m; cbn [destroy_texts sum_of].
  - apply outcome_ret. destruct m; cbn. by rewrite Z.sub_0_r.
  - apply outcome_bind, outcome_destroy. eapply outcome_mono; [apply IH|]. intros [] m' ->. cbn [requests live].
    f_equal. destruct (slot_text slot s); cbn; lia.
Qed.

(** What is destroyed is what is there. *)
Lemma outcome_contents s arrays m (P : unit -> mem -> Prop) :
  P tt (mk_mem (requests m) (live m - Z.of_nat (contents_blocks s arrays))) -> outcome (destroy_contents s arrays) m P.
Proof.
  intros H. unfold destroy_contents. apply outcome_bind. eapply outcome_mono; [apply outcome_texts|]. intros [] m1 ->.
  apply outcome_bind, outcome_destroy, outcome_bind, outcome_destroy_n, outcome_bind, outcome_destroy_n.
  eapply outcome_mono; [apply outcome_texts|]. intros [] m2 ->. cbn [requests live sum_of slot_text bound].
  unfold contents_blocks, text_blocks, bound_blocks in H.
  match goal with |- P tt (mk_mem _ ?x) => match type of H with P tt (mk_mem _ ?y) => replace x with y; [exact H|] end end.
  destruct (value s); cbn [is_some text_block]; lia.
Qed.

Lemma node_cleanup_outcome p m : outcome (lql_selector_cleanup p) m (fun r m' =>
  requests m' = requests m /\
  match r with Some _ => live m' = live m - Z.of_nat (node_blocks p) | None => ~ cleanable p end).
Proof.
  revert m. induction p as [s a k|s a k|s a k l IH] using node_ind; intros m; cbn [lql_selector_cleanup];
    apply outcome_bind, outcome_contents.
  - apply outcome_ret. split; [done|]. destruct (k <=? 1)%nat eqn:E; [done|]. apply Nat.leb_gt in E. cbn. lia.
  - apply outcome_ret. cbn. tauto.
  - apply outcome_bind. cbn [node_blocks cleanable].
    set (m1 := mk_mem _ _). assert (Hm : live m1 = live m - Z.of_nat (contents_blocks s a)) by done.
    change (requests m) with (requests m1). clearbody m1.
    match goal with |- outcome (?g l) _ _ => assert (H : outcome (g l) m1 (fun r m' => requests m' = requests m1 /\ match r with
      | Some _ => live m' = live m1 - Z.of_nat (sum_of node_blocks l)
      | None => ~ fold_right (fun p Q => cleanable p /\ Q) True l end)) end.
    { clear Hm. revert m1. induction IH as [|p l Hp _ IHl]; intros m1; cbn [sum_of fold_right];
        [apply outcome_ret; lia|].
      apply outcome_bind. eapply outcome_mono; [apply Hp|].
      intros [[]|] m2 [Hr H2]; [|by apply outcome_ret; split; [|intros [? _]]].
      eapply outcome_mono; [apply IHl|]. rewrite Hr. intros [|] m3 [? H3]; (split; [done|]); [lia|by intros [_ ?]]. }
    eapply outcome_mono; [exact H|]. intros [[]|] m2 [Hr H2]; [|by apply outcome_ret].
    apply outcome_bind, outcome_destroy, outcome_ret. cbn. split; [done|lia].
Qed.

Section outcomes.
Context (alloc_ok : nat -> bool).
#[local] Abbreviation refused := (refused alloc_ok).

(** The copies of the texts in [slots], when all go well. *)
Definition texts_copied (slots : list text_slot) (src dst : lql_selector) : lql_selector :=
  fold_left (fun dst slot => set_text slot (slot_text slot src) dst) slots dst.

Lemma strings_outcome slots src : NoDup slots -> forall dst m, Forall (fun slot => slot_text slot dst = None) slots ->
  outcome (clone_strings alloc_ok slots src dst) m (fun '(ok, dst') m' =>
    live m' = live m + Z.of_nat (text_blocks dst') - Z.of_nat (text_blocks dst) /\ (requests m <= requests m')%nat /\
    any dst' = any dst /\
    if ok : bool then dst' = texts_copied slots src dst else refused m m' /\ text_blocks src <> 0%nat).
Proof.
  induction 1 as [|slot slots Hnot _ IH]; intros dst m Hnone; cbn [clone_strings].
  { apply outcome_ret. split_and!; (lia || done). }
  inversion_clear Hnone as [|? ? Hslot Hnone']. apply outcome_bind.
  assert (Hkeep : forall text, Forall (fun slot => slot_text slot dst = None) slots ->
    Forall (fun slot' => slot_text slot' (set_text slot text dst) = None) slots).
  { intros text H. rewrite !List.Forall_forall in *. intros x Hx. rewrite slot_set_text, decide_False; [by apply H|].
    intros ->. apply Hnot. by apply list_elem_of_In. }
  assert (Hany : forall text, any (set_text slot text dst) = any dst) by by destruct slot as [|k| | | | |k].
  destruct (slot_text slot src) as [text|] eqn:Et; cbn [clone_string].
  - apply outcome_bind, outcome_alloc; intros Hok; cbv iota; apply outcome_ret; cbn [negb]; cbv iota zeta.
    + eapply outcome_mono; [apply IH, Hkeep, Hnone'|]. intros [ok dst'] m' (H1 & H2 & H3 & H4).
      rewrite blocks_set_text in H1 by done. cbn [live requests text_block] in *. split_and!; [lia|lia|by rewrite H3|].
      destruct ok; [cbn; by rewrite Et|]. split; [|by apply H4]. eapply refused_later; [|by apply H4]. cbn. lia.
    + apply outcome_ret. rewrite blocks_set_text by done. cbn [text_block live requests]. split_and!; [lia|lia|done| |].
      * by apply refused_now; [|lia].
      * pose proof (slot_blocks slot src) as K. rewrite Et in K. cbn in K. lia.
  - apply outcome_ret. cbn [negb]; cbv iota zeta. eapply outcome_mono; [apply IH, Hkeep, Hnone'|].
    intros [ok dst'] m' (H1 & H2 & H3 & H4). rewrite blocks_set_text in H1 by done. cbn [text_block] in *.
    split_and!; [lia|lia|by rewrite H3|]. destruct ok; [cbn; by rewrite Et|done].
Qed.

Lemma value_outcome src dst m : value dst = None -> outcome (clone_value alloc_ok src dst) m (fun '(ok, dst') m' =>
  live m' = live m + Z.of_nat (text_blocks dst') - Z.of_nat (text_blocks dst) /\ (requests m <= requests m')%nat /\
  any dst' = any dst /\ if ok : bool then dst' = set_value (value src) dst else refused m m' /\ text_blocks src <> 0%nat).
Proof.
  intros Hv. unfold clone_value. destruct (value src) as [v|] eqn:Ev.
  - apply outcome_bind, outcome_alloc; intros Hok; cbv iota; apply outcome_ret; cbn [live requests].
    + split_and!; [|lia|done|done]. unfold text_blocks. rewrite Hv. cbn. lia.
    + split_and!; [lia|lia|done|by apply refused_now; [|lia]|]. unfold text_blocks. rewrite Ev. cbn. lia.
  - apply outcome_ret. split_and!; [lia|lia|done|]. unfold set_value, with_value. rewrite <- Hv. by destruct dst.
Qed.

Lemma grow_outcome n : forall i arrays m, (arrays <= i + n)%nat -> (i <= arrays)%nat \/ n = 0%nat ->
  outcome (grow_arrays alloc_ok n i arrays) m (fun '(ok, arrays') m' =>
  live m' = live m + Z.of_nat arrays' - Z.of_nat arrays /\ (requests m <= requests m')%nat /\
  if ok : bool then arrays' = (i + n)%nat \/ n = 0%nat /\ arrays' = arrays else refused m m').
Proof.
  induction n as [|n IH]; intros i arrays m Ha Hi; cbn [grow_arrays].
  { apply outcome_ret. split_and!; [lia|lia|by right]. }
  apply outcome_bind, outcome_grow; intros Hok; cbv iota.
  - eapply outcome_mono; [apply IH; lia|]. intros [ok arrays'] m' (H1 & H2 & H3). cbn [live requests] in *.
    destruct (Nat.ltb_spec i arrays); (split_and!; [lia|lia|]); (destruct ok; [lia|eapply refused_later; [|exact H3]; cbn; lia]).
  - apply outcome_ret. cbn [live requests]. split_and!; [lia|lia|]. by apply refused_now; [|lia].
Qed.

Lemma any_outcome values : forall dst arrays m, (arrays <= 4)%nat ->
  outcome (clone_any alloc_ok values dst arrays) m (fun '(ok, dst', arrays') m' =>
  live m' = live m + Z.of_nat (contents_blocks dst' arrays') - Z.of_nat (contents_blocks dst arrays) /\
  (requests m <= requests m')%nat /\
  if ok : bool then dst' = with_any dst (any dst ++ values) /\ arrays' = match values with [] => arrays | _ => 4%nat end
  else refused m m' /\ values <> []).
Proof.
  induction values as [|v values IH]; intros dst arrays m Ha; cbn [clone_any].
  { apply outcome_ret. split_and!; [lia|lia| |done]. rewrite app_nil_r. by destruct dst. }
  apply outcome_bind, outcome_alloc; intros Hok; cbn [negb]; cbv iota.
  2:{ apply outcome_ret. cbn [live requests]. split_and!; [lia|lia| |done]. by apply refused_now; [|lia]. }
  apply outcome_bind. unfold selector_any_push_len. apply outcome_bind.
  eapply outcome_mono; [apply grow_outcome; lia|]. intros [ok arrays1] m1 (H1 & H2 & H3). cbn [live requests] in *.
  apply outcome_ret. destruct ok; cbv iota.
  - assert (arrays1 = 4%nat) as -> by lia. eapply outcome_mono; [apply IH; lia|].
    intros [[ok dst'] arrays'] m' (H4 & H5 & H6). unfold contents_blocks in *.
    change (text_blocks (with_any dst _)) with (text_blocks dst) in H4. cbn [any with_any] in *.
    rewrite length_app in H4. cbn [length] in H4. split_and!; [lia|lia|].
    destruct ok; [|split; [|done]; eapply refused_later; [|by apply H6]; lia].
    destruct H6 as [-> ->]. split; [|by destruct values]. rewrite <- (assoc_L (++)). by destruct dst, v.
  - apply outcome_bind, outcome_destroy, outcome_ret. cbn [live requests]. unfold contents_blocks. split_and!; [lia|lia| |done].
    eapply refused_later; [|destruct H3 as (j & Hj & Hf); exists j; split; [exact Hj|done]]. cbn. lia.
Qed.

(** A full copy is the source but for its children. *)
Lemma structure_empty src : text_blocks (structure_of src) = 0%nat /\ any (structure_of src) = [].
Proof. done. Qed.

Lemma payload_outcome s m : outcome (clone_selector_payload alloc_ok s) m (fun '(ok, dst, arrays) m' =>
  live m' = live m + Z.of_nat (contents_blocks dst arrays) /\ (requests m <= requests m')%nat /\
  if ok : bool then dst = with_children s [] /\ arrays = arrays_of s else refused m m' /\ payload_blocks s <> 0%nat).
Proof.
  unfold clone_selector_payload, payload_blocks, contents_blocks. destruct (structure_empty s) as [E0 Ea].
  apply outcome_bind. eapply outcome_mono.
  { apply strings_outcome; [by refine (bool_decide_eq_true_1 _ _); vm_compute|by repeat constructor]. }
  intros [ok dst] m1 (H1 & H2 & H3 & H4). rewrite Ea in H3. rewrite E0 in H1. destruct ok; cbn [negb]; cbv iota.
  2:{ apply outcome_ret. rewrite H3. cbn [length]. split_and!; [lia|lia|by apply H4|]. destruct H4 as [_ H4]. lia. }
  apply outcome_bind. eapply outcome_mono; [apply value_outcome; by rewrite H4|].
  intros [ok dst1] m2 (H5 & H6 & H7 & H8). rewrite H3 in H7. destruct ok; cbn [negb]; cbv iota.
  2:{ apply outcome_ret. rewrite H7. cbn [length]. destruct H8 as [H8 H9].
      split_and!; [lia|lia| |lia]. eapply refused_later; [exact H2|done]. }
  eapply outcome_mono; [apply any_outcome; lia|]. intros [[ok dst2] arrays] m3 (H9 & H10 & H11).
  unfold contents_blocks in H9. rewrite H7 in *. cbn [length app] in *. split_and!; [lia|lia|]. destruct ok.
  - destruct H11 as [-> ->]. split; [|done]. subst dst1 dst. clear. by destruct s, range_text, date_text.
  - destruct H11 as [Hr Hn]. split; [eapply refused_later; [|exact Hr]; lia|]. destruct (any s); [done|]. cbn. lia.
Qed.

Lemma sum_zero n : sum_of node_blocks (repeat zero_node n) = 0%nat.
Proof. by induction n. Qed.

Lemma zero_cleanable n : Forall cleanable (repeat zero_node n).
Proof. induction n; constructor; cbn; [lia|done]. Qed.

(** The children one by one, those after a failure being zero. *)
Definition clone_list (clone : lql_selector -> M (bool * partial_node)) : list lql_selector -> M (bool * list partial_node) :=
  fix go l := match l with
  | [] => mret (true, [])
  | src :: l =>
      '(ok, dst) ← clone src;
      if negb ok then mret (false, dst :: repeat zero_node (length l))
      else '(ok, copies) ← go l; mret (ok, dst :: copies)
  end.

Lemma clone_unfold s : clone_selector alloc_ok s =
  ('(ok, dst, arrays) ← clone_selector_payload alloc_ok s;
   if negb ok then
     mret (false, mk_partial dst arrays (length (children s))
                    (if (length (children s) =? 0)%nat then NullChildren else SourceChildren))
   else if (length (children s) =? 0)%nat then mret (true, mk_partial dst arrays 0 NullChildren)
   else
     ok ← mem_alloc alloc_ok;
     if negb ok then mret (false, mk_partial dst arrays (length (children s)) NullChildren)
     else
       '(ok, copies) ← clone_list (clone_selector alloc_ok) (children s);
       mret (ok, mk_partial dst arrays (length (children s)) (OwnChildren copies))).
Proof. by destruct s. Qed.

Lemma blocks_unfold s : tree_blocks s =
  (payload_blocks s + match children s with [] => 0 | l => S (sum_of tree_blocks l) end)%nat.
Proof. by destruct s. Qed.

Lemma with_own_children s : with_children (with_children s []) (children s) = s.
Proof. by destruct s. Qed.

(** What copies of [sources] come to: [hit] says that a tree has a fragile node. *)
Definition copied (hit : Prop) (m : mem) (ok : bool) (dst : list partial_node) (sources : list lql_selector) (m' : mem) : Prop :=
  live m' = live m + Z.of_nat (sum_of node_blocks dst) /\ (requests m <= requests m')%nat /\
  if ok then map selector_of dst = sources /\ sum_of node_blocks dst = sum_of tree_blocks sources /\ Forall cleanable dst
  else refused m m' /\ (Forall cleanable dst \/ hit).

Lemma list_outcome l : Forall (fun s => forall m, outcome (clone_selector alloc_ok s) m (fun '(ok, dst) m' =>
    copied (exists t, subtree s t /\ fragile t) m ok [dst] [s] m')) l ->
  forall m, outcome (clone_list (clone_selector alloc_ok) l) m (fun '(ok, copies) m' =>
    copied (exists s t, In s l /\ subtree s t /\ fragile t) m ok copies l m').
Proof.
  unfold copied. induction 1 as [|s l Hs _ IH]; intros m; cbn [clone_list].
  { apply outcome_ret; cbn; split_and!; (lia || done || constructor). }
  apply outcome_bind. eapply outcome_mono; [apply Hs|]. intros [[] dst] m1 (H1 & H2 & H3); cbn [negb] in *; cbv iota.
  - apply outcome_bind. eapply outcome_mono; [apply IH|]. intros [[] copies] m2 (H4 & H5 & H6);
      apply outcome_ret; cbn in *; (split; [lia|]; split; [lia|]).
    + destruct H3 as ([= H3] & H7 & H8), H6 as (H6 & H9 & H10). split; [by rewrite H3, H6|].
      split; [lia|]. constructor; [by inversion H8|done].
    + split; [eapply refused_later; [|apply H6]; lia|]. destruct H6 as [_ [H6|(u & t & ? & ? & ?)]]; [left|right].
      * constructor; [by destruct H3 as (_ & _ & H3); inversion H3|done].
      * exists u, t. auto.
  - apply outcome_ret. cbn in *. rewrite sum_zero. split; [lia|]; split; [lia|]. split; [apply H3|].
    destruct H3 as [_ [H3|(t & ? & ?)]]; [left; constructor; [by inversion H3|apply zero_cleanable]|right; exists s, t; auto].
Qed.

Lemma clone_outcome s : forall m, outcome (clone_selector alloc_ok s) m (fun '(ok, dst) m' =>
  copied (exists t, subtree s t /\ fragile t) m ok [dst] [s] m').
Proof.
  induction s as [s IH] using selector_ind'. intros m. rewrite clone_unfold.
  pose proof (list_outcome _ IH) as Hl. unfold copied in *. clear IH.
  cbn [sum_of map]. rewrite (blocks_unfold s).
  apply outcome_bind. eapply outcome_mono; [apply payload_outcome|].
  intros [[ok dst] arrays] m1 (H1 & H2 & H3); destruct ok; cbn [negb]; cbv iota.
  - destruct H3 as [-> ->]. pose proof (with_own_children s) as Hs.
    change (contents_blocks (with_children s []) (arrays_of s)) with (payload_blocks s) in H1.
    destruct (children s) as [|c l] eqn:Ec; cbn [length Nat.eqb]; cbv iota.
    { apply outcome_ret. cbn [sum_of node_blocks selector_of live requests].
      change (contents_blocks (with_children s []) (arrays_of s)) with (payload_blocks s).
      split_and!; [lia|lia|by rewrite Hs|lia|by repeat constructor]. }
    apply outcome_bind, outcome_alloc; intros Hok; cbn [negb]; cbv iota.
    + apply outcome_bind. eapply outcome_mono; [apply Hl|].
      intros [[] copies] m2 (H4 & H5 & H6); apply outcome_ret; cbn [sum_of node_blocks selector_of live requests] in *;
        change (contents_blocks (with_children s []) (arrays_of s)) with (payload_blocks s); (split; [lia|]; split; [lia|]).
      * destruct H6 as (H6 & H7 & H8). rewrite H6, Hs. split; [done|]. split; [lia|]. constructor; [|done]. by apply cleanable_all.
      * split; [eapply refused_later; [|apply H6]; cbn; lia|].
        destruct H6 as [_ [H6|(u & t & Hu & Ht & Hf)]]; [left; constructor; [by apply cleanable_all|done]|right].
        exists t. split; [|done]. eapply subtree_trans; [|exact Ht]. rewrite <- Ec in Hu. eauto using subtree.
    + apply outcome_ret. cbn [sum_of node_blocks live requests].
      change (contents_blocks (with_children s []) (arrays_of s)) with (payload_blocks s).
      split; [lia|]; split; [lia|]. split.
      * eapply refused_later; [exact H2|]. by apply refused_now; [|lia].
      * destruct l; [left; repeat constructor|right]. exists s. split; [constructor|]. left. rewrite Ec. cbn. lia.
  - apply outcome_ret. destruct H3 as [H3 H4].
    destruct (children s) as [|c l] eqn:Ec; cbn [length Nat.eqb sum_of node_blocks]; (split; [lia|]; split; [lia|]; split; [done|]);
      [left; repeat constructor; lia|right].
    exists s. split; [constructor|]. right. by rewrite Ec.
Qed.

(** Why a builder of compounds fails. *)
Definition excused (children : list (option lql_selector)) (m m' : mem) (status : lql_status) : Prop :=
  status = LQL_STATUS_NO_MEMORY /\ refused m m' \/ status = LQL_STATUS_INVALID_ARGUMENT /\ In None children.

Definition breaks (children : list (option lql_selector)) (m m' : mem) : Prop :=
  refused m m' /\ exists s t, In (Some s) children /\ subtree s t /\ fragile t.

Lemma given_outcome l : forall m, outcome (copy_given alloc_ok l) m (fun '(failed, copies) m' =>
  live m' = live m + Z.of_nat (sum_of node_blocks copies) /\ (requests m <= requests m')%nat /\
  match failed with
  | None => l = map Some (map selector_of copies) /\ Forall cleanable copies /\
            sum_of node_blocks copies = sum_of tree_blocks (map selector_of copies)
  | Some (status, _) => excused l m m' status /\ (Forall cleanable copies \/ breaks l m m')
  end).
Proof.
  induction l as [|[s|] l IH]; intros m; cbn [copy_given].
  - apply outcome_ret. cbn. split; [lia|]; split; [lia|]. by split_and!.
  - apply outcome_bind. eapply outcome_mono; [apply clone_outcome|]. intros [ok dst] m1 (H1 & H2 & H3).
    cbn [sum_of map] in H1, H3. destruct ok; cbn [negb]; cbv iota.
    + apply outcome_bind. eapply outcome_mono; [apply IH|]. intros [failed copies] m2 (H4 & H5 & H6).
      apply outcome_ret. cbn [sum_of map]. split; [lia|]; split; [lia|]. destruct H3 as ([= H3] & H7 & H8).
      destruct failed as [[status msg]|].
      * destruct H6 as [He Hb]. assert (K : refused m1 m2 -> refused m m2) by by apply refused_later.
        split; [destruct He as [[-> He]|[-> He]]; [left|right; split; [|right]]; auto|].
        destruct Hb as [Hb|[Hr (u & t & Hu & Ht)]]; [left; constructor; [by inversion H8|done]|right].
        split; [auto|]. exists u, t. split; [by right|done].
      * destruct H6 as (H6 & H9 & H10). rewrite H3.
        split_and!; [by rewrite <- H6|constructor; [by inversion H8|done]|lia].
    + apply outcome_ret. destruct H3 as [Hr H3]. cbn [sum_of]. rewrite sum_zero. split; [lia|]; split; [lia|].
      split; [by left|]. destruct H3 as [H3|(t & Ht & Hf)].
      * left. constructor; [by inversion H3|apply zero_cleanable].
      * right. split; [done|]. exists s, t. split; [by left|done].
  - apply outcome_ret. change (repeat zero_node (S (length l))) with (zero_node :: repeat zero_node (length l)).
    cbn [sum_of]. rewrite sum_zero. change (node_blocks zero_node) with 0%nat. split; [lia|]; split; [lia|].
    split; [|left; constructor; [cbn; lia|apply zero_cleanable]]. right. split; [done|by left].
Qed.

(** The blocks of a root are those of its children and their array. *)
Lemma fail_outcome {A} k n (copies : list partial_node) x m :
  outcome (clean_and_fail (A := A) (compound_root k n copies) x) m (fun r m' =>
    requests m' = requests m /\
    match r with
    | Some (inl y) => y = x /\ live m' = live m - Z.of_nat (S (sum_of node_blocks copies))
    | Some (inr _) => False
    | None => ~ Forall cleanable copies
    end).
Proof.
  unfold clean_and_fail. apply outcome_bind. eapply outcome_mono; [apply node_cleanup_outcome|].
  intros [[]|] m' [Hr H]; apply outcome_ret; (split; [done|]); [by split|]. intros Hc. apply H. by apply cleanable_all.
Qed.
End outcomes.

(** What a builder of compounds comes to: the selector [result] allows with its blocks,
    a failure that leaves no block behind, for a refused request or a misuse, or a copy
    that cannot be cleaned up. *)
Definition built_or_failed alloc_ok (children : list (option lql_selector)) (m : mem) (misused : Prop)
    (result : lql_selector -> Prop) (r : option (failure + lql_selector)) (m' : mem) : Prop :=
  match r with
  | Some (inr s) => result s /\ live m' = live m + 1 + Z.of_nat (tree_blocks s)
  | Some (inl (status, _)) => live m' = live m /\
      (status = LQL_STATUS_NO_MEMORY /\ refused alloc_ok m m' \/ status = LQL_STATUS_INVALID_ARGUMENT /\ misused)
  | None => breaks alloc_ok children m m'
  end.

(** The blocks of a finished root but for its own. *)
Lemma root_blocks k copies : copies <> [] -> sum_of node_blocks copies = sum_of tree_blocks (map selector_of copies) ->
  tree_blocks (with_children (selector_zero k) (map selector_of copies)) = S (sum_of node_blocks copies).
Proof. intros Hc ->. rewrite blocks_unfold. by destruct copies. Qed.

Section compounds.
Context (alloc_ok : nat -> bool).

Lemma refused_same m0 m m' : requests m' = requests m -> refused alloc_ok m0 m -> refused alloc_ok m0 m'.
Proof. intros E (j & Hj & Hf). exists j. by rewrite E. Qed.

Lemma failed_outcome k n copies x m0 m children misused (result : lql_selector -> Prop) :
  live m = live m0 + Z.of_nat (S (sum_of node_blocks copies)) ->
  (fst x = LQL_STATUS_NO_MEMORY /\ refused alloc_ok m0 m \/ fst x = LQL_STATUS_INVALID_ARGUMENT /\ misused) ->
  (Forall cleanable copies \/ breaks alloc_ok children m0 m) ->
  outcome (clean_and_fail (compound_root k n copies) x) m (built_or_failed alloc_ok children m0 misused result).
Proof.
  intros Hl Hr Hc. eapply outcome_mono; [apply fail_outcome|]. intros [[y|s]|] m' [Hq K]; [|done|].
  - destruct K as [-> K], x as [status msg]. split; [lia|]. destruct Hr as [[? Hr]|?]; [left|by right].
    split; [done|]. by eapply refused_same.
  - destruct Hc as [Hc|[Hc Hb]]; [done|]. split; [|done]. by eapply refused_same.
Qed.

Lemma result_outcome k n copies m0 m children misused (result : lql_selector -> Prop) :
  let s := with_children (selector_zero k) (map selector_of copies) in
  result s -> live m = live m0 + Z.of_nat (S (sum_of node_blocks copies)) -> (requests m0 <= requests m)%nat ->
  tree_blocks s = S (sum_of node_blocks copies) -> Forall cleanable copies ->
  outcome (selector_build_result alloc_ok (compound_root k n copies)) m (built_or_failed alloc_ok children m0 misused result).
Proof.
  intros s Hs Hl Hr Hb Hc. unfold selector_build_result. apply outcome_bind, outcome_alloc; intros Hok; cbv iota.
  - apply outcome_ret. change (selector_of (compound_root k n copies)) with s. split; [done|]. cbn [live]. lia.
  - apply failed_outcome; [done| |by left]. left. split; [done|]. eapply refused_later; [exact Hr|].
    by apply refused_now; [|lia].
Qed.

Definition compound_of (k : lql_selector_node_kind) (given : list (option lql_selector)) (s : lql_selector) : Prop :=
  given = [] /\ s = selector_zero LQL_SELECTOR_KIND_ALL \/
  exists cs, cs <> [] /\ given = map Some cs /\ s = with_children (selector_zero (node_kind_from_public k)) cs /\
    (k = LQL_SELECTOR_NODE_AND \/ k = LQL_SELECTOR_NODE_OR).

(** A NULL where there must be none, or a kind that is no compound. *)
Definition compound_misused (receiver out_given : bool) (k : lql_selector_node_kind) (children_given : bool)
    (given : list (option lql_selector)) : Prop :=
  receiver = false \/ out_given = false \/ ~ (k = LQL_SELECTOR_NODE_AND \/ k = LQL_SELECTOR_NODE_OR) \/
  given <> [] /\ children_given = false \/ In None given.

Lemma init_misused receiver out_given st msg : builder_init receiver out_given (inr tt) = inl (st, msg) ->
  st = LQL_STATUS_INVALID_ARGUMENT /\ (receiver = false \/ out_given = false).
Proof. unfold builder_init. destruct out_given, receiver; intros [= <- <-]; auto. Qed.

Lemma compound_outcome receiver out_given k children_given given m :
  outcome (lql_selector_build_compound_internal alloc_ok receiver out_given k children_given given) m
    (built_or_failed alloc_ok given m (compound_misused receiver out_given k children_given given) (compound_of k given)).
Proof.
  unfold lql_selector_build_compound_internal.
  destruct (builder_init receiver out_given (inr tt)) as [[st msg]|[]] eqn:Ei; cbv iota.
  { apply init_misused in Ei as [-> ?]. apply outcome_ret. split; [done|]. right. unfold compound_misused. tauto. }
  destruct (_ && _) eqn:Ek.
  { apply outcome_ret. split; [done|]. right. split; [done|]. do 2 right. left. by intros [-> | ->]. }
  assert (Hk : k = LQL_SELECTOR_NODE_AND \/ k = LQL_SELECTOR_NODE_OR).
  { destruct k; cbn in Ek; (try by left); (try by right); by vm_compute in Ek. }
  destruct given as [|g given]; cbn [length Nat.eqb].
  { unfold selector_build_result. apply outcome_bind, outcome_alloc; intros Hok; cbv iota.
    - apply outcome_ret. split; [by left|]. cbn. lia.
    - unfold clean_and_fail. apply outcome_bind. eapply outcome_mono; [apply node_cleanup_outcome|].
      intros [[]|] m' [Hq H]; apply outcome_ret; [|by destruct H; cbn; lia]. cbn in H. split; [lia|]. left.
      split; [done|]. eapply refused_same; [exact Hq|]. by apply refused_now; [|lia]. }
  destruct children_given; cbn [negb]; cbv iota.
  2:{ apply outcome_ret. split; [done|]. right. split; [done|]. do 3 right. by left. }
  apply outcome_bind, outcome_alloc; intros Hok; cbn [negb]; cbv iota.
  2:{ apply outcome_ret. split; [done|]. left. split; [done|]. by apply refused_now; [|lia]. }
  set (given' := g :: given). assert (Hg : given' <> []) by done. clearbody given'. apply outcome_bind. eapply outcome_mono; [apply given_outcome|].
  intros [failed copies] m1 (H1 & H2 & H3). cbn [live requests] in *. destruct failed as [[status msg]|].
  - destruct H3 as [He Hb]. apply failed_outcome; [lia| |].
    + destruct He as [[? Hr]|[? ?]]; [left|right; split; [done|by do 4 right]]. split; [done|].
      eapply refused_later; [|exact Hr]. cbn. lia.
    + destruct Hb as [?|[Hr ?]]; [by left|right]. split; [|done]. eapply refused_later; [|exact Hr]. cbn. lia.
  - destruct H3 as (H3 & H4 & H5). apply result_outcome; [|lia|lia| |done].
    + right. exists (map selector_of copies). split_and!; [by intros E; rewrite E in H3|done..].
    + apply root_blocks; [by intros ->|done].
Qed.

Lemma not_outcome receiver out_given child m :
  outcome (lql_selector_build_not_internal alloc_ok receiver out_given child) m
    (built_or_failed alloc_ok [child] m (receiver = false \/ out_given = false \/ child = None) (fun s => exists c, child = Some c /\
      s = with_children (selector_zero LQL_SELECTOR_KIND_NOT) [c])).
Proof.
  unfold lql_selector_build_not_internal. destruct child as [c|]; [|apply outcome_ret; split; [done|]; auto].
  destruct (builder_init receiver out_given (inr tt)) as [[st msg]|[]] eqn:Ei; cbv iota.
  { apply init_misused in Ei as [-> ?]. apply outcome_ret. split; [done|]. right. tauto. }
  apply outcome_bind, outcome_alloc; intros Hok; cbn [negb]; cbv iota.
  2:{ apply outcome_ret. split; [done|]. left. split; [done|]. by apply refused_now; [|lia]. }
  apply outcome_bind. eapply outcome_mono; [apply clone_outcome|].
  intros [ok dst] m1 (H1 & H2 & H3). cbn [live requests] in *. destruct ok; cbn [negb]; cbv iota.
  - destruct H3 as ([= H3] & H4 & H5). apply result_outcome; [|lia|lia| |done].
    + exists c. cbn [map]. by rewrite H3.
    + apply root_blocks; [done|]. cbn [map]. by rewrite H3.
  - destruct H3 as [Hr H3]. assert (Hr' : refused alloc_ok m m1) by (eapply refused_later; [|exact Hr]; cbn; lia).
    apply failed_outcome; [lia|by left|]. destruct H3 as [?|(t & ? & ?)]; [by left|right].
    split; [done|]. exists c, t. split; [by left|done].
Qed.
End compounds.

Lemma outcome_fst {A} (c : M A) m P : outcome c m P -> P (fst (c m)) (snd (c m)).
Proof. unfold outcome. by destruct (c m). Qed.

(** A selector made of built ones. *)
Lemma built_compound k cs : cs <> [] -> k = LQL_SELECTOR_NODE_AND \/ k = LQL_SELECTOR_NODE_OR ->
  Forall built_tree cs -> built_tree (with_children (selector_zero (node_kind_from_public k)) cs).
Proof. intros Hcs [-> | ->] H; (constructor; [by left|done]). Qed.

Lemma built_not c : built_tree c -> built_tree (with_children (selector_zero LQL_SELECTOR_KIND_NOT) [c]).
Proof. intros H. constructor; [by left|]. by apply list.Forall_singleton. Qed.

(** C14. Every selector a program can hold is well formed: parsed or built from any
    terms when the allocations of the parser and of the builders of predicates succeed,
    or built by AND, OR and NOT from selectors it holds, whatever allocations are
    refused while they are copied.  Predicates have an absolute path and no children, a list of values excludes a
    single one, ranges and dates are those the parser accepts, an [in] has values, and
    it has the shape the evaluators rely on. *)
Theorem builders_well_formed s : held s -> built_tree s /\ tree_shape s.
Proof.
  intros H. assert (built_tree s) as Hb; [|by split; [|apply built_shape]].
  induction H as [? ? ? ? ? E|? ? ? E|? ? ? ? ? ? ? E|? ? ? ? E|? ? ? ? E|? ? ? ? ? ? E|? ? ? ? E
                 |ok r o k cg given m s _ IH E|ok r o child m s _ IH E].
  - by eapply tree_ok_built, parsed_tree_ok.
  - apply init_inr in E as [= <-]. apply tree_ok_built, zero_all_ok.
  - by eapply string_built.
  - by eapply tree_ok_built, range_built.
  - by eapply tree_ok_built, date_built.
  - by eapply in_built.
  - by eapply tree_ok_built, exists_built.
  - pose proof (outcome_fst _ _ _ (compound_outcome ok r o k cg given m)) as K. rewrite E in K. cbv beta in K.
    destruct K as [[[_ ->]|(cs & Hcs & -> & -> & Hk)] _]; [apply tree_ok_built, zero_all_ok|].
    apply built_compound; [done..|]. apply List.Forall_forall. intros c Hc. apply IH. by apply in_map.
  - pose proof (outcome_fst _ _ _ (not_outcome ok r o child m)) as K. rewrite E in K. cbv beta in K.
    destruct K as [(c & -> & ->) _]. by apply built_not, IH.
Qed.

(** C15. The builder of AND and OR selectors, whatever allocations are refused: a
    selector whose children, copied text by text, are the given ones, with a block for
    each text, value and array of that tree and none besides; or a
    failure that leaves no block behind, out of memory only when a request was
    refused and an invalid argument only for a misuse; and the copy is beyond
    cleaning up only when a request was refused and some node among the children has
    two children of its own, or children and texts. *)
Theorem compound_build_safe alloc_ok receiver out_given k children_given given m :
  let '(r, m') := lql_selector_build_compound_internal alloc_ok receiver out_given k children_given given m in
  match r with
  | Some (inr s) => compound_of k given s /\ live m' = live m + 1 + Z.of_nat (tree_blocks s)
  | Some (inl (status, _)) => live m' = live m /\
      (status = LQL_STATUS_NO_MEMORY /\ refused alloc_ok m m' \/
       status = LQL_STATUS_INVALID_ARGUMENT /\ compound_misused receiver out_given k children_given given)
  | None => refused alloc_ok m m' /\ exists s t, In (Some s) given /\ subtree s t /\ fragile t
  end.
Proof. exact (compound_outcome alloc_ok receiver out_given k children_given given m). Qed.

(** With every request granted and no misuse there is a selector. *)
Lemma compound_built k given cs m : k = LQL_SELECTOR_NODE_AND \/ k = LQL_SELECTOR_NODE_OR -> given = map Some cs ->
  exists s, fst (lql_selector_build_compound_internal (fun _ => true) true true k true given m) = Some (inr s) /\
            compound_of k given s.
Proof.
  intros Hk ->. pose proof (outcome_fst _ _ _ (compound_outcome (fun _ => true) true true k true (map Some cs) m)) as K.
  destruct (fst _) as [[[status msg]|s]|]; cbn in K.
  - destruct K as [_ [[_ (j & _ & [=])]|[_ [[=]|[[=]|[Hn|[[_ [=]]|H]]]]]]]; [by destruct Hn|].
    by apply in_map_iff in H as (? & [=] & _).
  - exists s. by destruct K.
  - by destruct K as [(j & _ & [=]) _].
Qed.

(** The blocks, on examples. *)
Definition sample_exists : lql_selector :=
  with_field (selector_zero LQL_SELECTOR_KIND_EXISTS) (Some (bs "/a")).

Definition sample_or : lql_selector :=
  with_children (selector_zero LQL_SELECTOR_KIND_OR) [sample_exists; sample_exists].

Lemma sample_held : held sample_or.
Proof.
  apply (held_compound (fun _ => true) true true LQL_SELECTOR_NODE_OR true [Some sample_exists; Some sample_exists] (mk_mem 0 0)).
  - intros c Hc. apply (held_exists true true (mk_view (Some (bs "/a")) 0)).
    destruct Hc as [[= <-]|[[= <-]|[]]]; by vm_compute.
  - by vm_compute.
Qed.

Lemma builders_well_formed_witness : held sample_or /\ built_tree sample_or /\ tree_shape sample_or.
Proof. split; [apply sample_held|]. apply (builders_well_formed sample_or), sample_held. Defined.

(** A second request that is refused, for the children of an OR to be copied, leaves a
    copy that claims two children at a NULL pointer. *)
Lemma copy_crashes :
  fst (lql_selector_build_compound_internal (fun n => (n =? 0)%nat) true true LQL_SELECTOR_NODE_AND true
         [Some sample_or] (mk_mem 0 0)) = None.
Proof. by vm_compute. Qed.
