(* ===== verification/Mutation.v ===== *)
(** * Mutation expressions (src/lql_direct_actions.c)

    The parser of mutations: paths, values, increments, removals, times and file
    values, brace groups and lists, with every allocation and release of the code. *)

From S2P Require Import Prelude.
From S2P Require Import Number.
From S2P Require Import NumberFloat.
From S2P Require Import Temporal.
From S2P Require Import Errors.
From S2P Require Import Projection.
From S2P Require Import SelectorLex.

(** ** Data *)

Inductive lql_mutation_kind := LQL_MUTATION_SET | LQL_MUTATION_INCREMENT | LQL_MUTATION_REMOVE.

Inductive lql_mutation_value_kind :=
  | LQL_MUTATION_VALUE_STRING
  | LQL_MUTATION_VALUE_NUMBER
  | LQL_MUTATION_VALUE_BOOL
  | LQL_MUTATION_VALUE_NULL
  | LQL_MUTATION_VALUE_FILE_AUTO
  | LQL_MUTATION_VALUE_FILE_TEXT
  | LQL_MUTATION_VALUE_FILE_BASE64.

#[export] Instance lql_mutation_kind_eq_dec : EqDecision lql_mutation_kind.
Proof. solve_decision. Defined.
#[export] Instance lql_mutation_value_kind_eq_dec : EqDecision lql_mutation_value_kind.
Proof. solve_decision. Defined.

(** [file_callbacks] is whether the action has the callbacks of its options. *)
Record lql_mutation_action := mk_action {
  action_kind : lql_mutation_kind;
  segments : list bytes;
  action_value : option bytes;
  file_callbacks : bool;
  action_value_kind : lql_mutation_value_kind;
  delta : spec_float
}.

(** An action zeroed by [memset]. *)
Definition action_zero : lql_mutation_action :=
  mk_action LQL_MUTATION_SET [] None false LQL_MUTATION_VALUE_STRING (S754_zero false).

(** The options; [time_now] is what the clock of the caller answers. *)
Record lql_mutation_parse_options := mk_options {
  enable_file_values : bool;
  file_value_base_dir : option bytes;
  file_value_open : bool;
  file_value_close : bool;
  time_now : option Z
}.

(** What the C library answers: [getenv] of HOME, [time(NULL)]. *)
Record mutation_env := mk_mutation_env { home : option bytes; clock : Z }.

(** A mutation while it is parsed, with the slots of its array. *)
Record lql_mutation := mk_mutation { actions : list lql_mutation_action; capacity : nat }.

(** ** Characters *)

Definition mutation_space (ch : Z) : bool :=
  (ch =? ch_space) || (ch =? ch_tab) || (ch =? ch_cr) || (ch =? ch_nl).

Definition mutation_trim (text : bytes) : bytes :=
  rev (drop_while mutation_space (rev (drop_while mutation_space text))).

Definition mutation_equal_ci (text literal : bytes) : bool :=
  bytes_eqb (map ascii_lower_byte text) (map ascii_lower_byte literal).

(** [do ++cursor; while (cursor < end && *cursor >= '0' && *cursor <= '9');] and the
    loop without its first round. *)
Definition skip_digits (text : bytes) : bytes := drop_while is_digit text.

Definition number_fraction_end (cursor : bytes) : option bytes :=
  match cursor with
  | c :: t =>
      if c =? ch_dot then
        match t with d :: _ => if is_digit d then Some (skip_digits t) else None | [] => None end
      else Some cursor
  | [] => Some []
  end.

Definition number_exponent_end (cursor : bytes) : option bytes :=
  match cursor with
  | c :: t =>
      if (c =? ch_e) || (c =? ch_E) then
        let t := match t with s :: t' => if (s =? ch_plus) || (s =? ch_minus) then t' else t | [] => [] end in
        match t with d :: _ => if is_digit d then Some (skip_digits t) else None | [] => None end
      else Some cursor
  | [] => Some []
  end.

Definition mutation_json_number (text : bytes) : bool :=
  let cursor := match text with c :: t => if c =? ch_minus then t else text | [] => [] end in
  match cursor with
  | [] => false
  | c :: t =>
      let integer := if c =? ch_0 then Some t
                     else if (ch_1 <=? c) && (c <=? ch_9) then Some (skip_digits t)
                     else None in
      match (integer ≫= number_fraction_end) ≫= number_exponent_end with
      | Some [] => true
      | _ => false
      end
  end.

Definition mutation_numeric_candidate (text : bytes) : bool :=
  match text with
  | [] => false
  | c :: _ =>
      (c =? ch_plus) || (c =? ch_minus) || is_digit c ||
      mutation_equal_ci text (bs "nan") || mutation_equal_ci text (bs "inf") ||
      mutation_equal_ci text (bs "infinity")
  end.

Definition mutation_finite (value : spec_float) : bool := lql_number_finite value.

(** Text between equal quotes, without them. *)
Definition unquoted (text : bytes) : option bytes :=
  match text with
  | c :: t =>
      if ((c =? ch_quote) || (c =? ch_apos)) && (2 <=? length text)%nat && (List.last text 0 =? c)
      then Some (removelast t) else None
  | [] => None
  end.

(** [begin .. '='], and the rest without it. *)
Definition split_equal (text : bytes) : option (bytes * bytes) :=
  match span (fun c => negb (c =? ch_eq)) text with
  | (path, _ :: value) => Some (path, value)
  | (_, []) => None
  end.

(** The text ends in [cc], and without it. *)
Definition ends_twice (c : Z) (text : bytes) : option bytes :=
  match rev text with
  | x :: y :: t => if (x =? c) && (y =? c) then Some (rev t) else None
  | _ => None
  end.

Definition mutation_error (message : string) : failure := (LQL_STATUS_PARSE_ERROR, message).
Definition no_memory : failure := (LQL_STATUS_NO_MEMORY, "out of memory"%string).

Section alloc.
Context (alloc_ok : nat -> bool).

(** ** Paths *)

(** The loop over the [[]] that end a segment, from its end. *)
Fixpoint suffix_loop (reversed : bytes) : bytes * nat :=
  match reversed with
  | x :: y :: ((_ :: _) as rest) =>
      if (x =? ch_rbracket) && (y =? ch_lbracket) then
        let '(base, count) := suffix_loop rest in (base, S count)
      else (reversed, 0%nat)
  | _ => (reversed, 0%nat)
  end.

(** A decoded segment without its suffixes, and how many there are. *)
Definition segment_suffixes (decoded : bytes) : bytes * nat :=
  if (2 <? length decoded)%nat && negb (bytes_eqb decoded (bs "[]")) && negb (bytes_eqb decoded (bs "*")) &&
     negb (bytes_eqb decoded (bs "**")) && negb (bytes_eqb decoded (bs "..."))
  then let '(base, count) := suffix_loop (rev decoded) in (rev base, count)
  else (decoded, 0%nat).

(** [segments[count++] = segment], with its slots grown when they are full. *)
Definition push_segment (segs : list bytes) (capacity : nat) (segment : bytes)
    : M (option (list bytes * nat)) :=
  if (length segs =? capacity)%nat then
    grown ← mem_grow alloc_ok (negb (capacity =? 0)%nat);
    mret (if (grown : bool) then Some (segs ++ [segment], if (capacity =? 0)%nat then 4%nat else (capacity * 2)%nat)
          else None)
  else mret (Some (segs ++ [segment], capacity)).

(** The segments of a path that fails, released. *)
Definition path_fail {A} (segs : list bytes) (capacity : nat) : M (failure + A) :=
  mem_destroy_n (length segs) ≫= fun _ =>
  mem_destroy (negb (capacity =? 0)%nat) ≫= fun _ => mret (inl no_memory).

(** The wildcards of the suffixes. *)
Fixpoint push_wildcards (count : nat) (segs : list bytes) (capacity : nat)
    : M (failure + (list bytes * nat)) :=
  match count with
  | O => mret (inr (segs, capacity))
  | S count =>
      wildcard ← mem_alloc alloc_ok;
      if negb wildcard then path_fail segs capacity
      else
        pushed ← push_segment segs capacity (bs "[]");
        match pushed with
        | None => mem_destroy true ≫= fun _ => path_fail segs capacity
        | Some (segs, capacity) => push_wildcards count segs capacity
        end
  end.

(** A round of the loop over the parts of a path; [next] is the rest of the loop. *)
Definition path_round (next : bytes -> list bytes -> nat -> M (failure + list bytes))
    (part : bytes) (segs : list bytes) (capacity : nat) : M (failure + list bytes) :=
  let '(raw, slash) := span (fun c => negb (c =? ch_slash)) part in
  segment ← mem_alloc alloc_ok;
  if negb segment then path_fail segs capacity
  else
    decoded ← mem_alloc alloc_ok;
    if negb decoded then mem_destroy true ≫= fun _ => path_fail segs capacity
    else
      mem_destroy true ≫= fun _ =>
      let '(base, count) := segment_suffixes (decode_segment raw) in
      pushed ← push_segment segs capacity base;
      match pushed with
      | None => mem_destroy true ≫= fun _ => path_fail segs capacity
      | Some (segs, capacity) =>
          r ← push_wildcards count segs capacity;
          match r with
          | inl f => mret (inl f)
          | inr (segs, capacity) =>
              match slash with
              | [] => mret (inr segs)
              | _ :: part => next part segs capacity
              end
          end
      end.

(** A part ends at a slash or at the end of the path, whose length bounds the rounds. *)
Fixpoint path_loop (fuel : nat) : bytes -> list bytes -> nat -> M (failure + list bytes) :=
  path_round
    match fuel with
    | O => fun _ segs _ => mret (inr segs)
    | S fuel => path_loop fuel
    end.

Definition mutation_parse_path (text : bytes) : M (failure + list bytes) :=
  match mutation_trim text with
  | c :: t =>
      if negb (c =? ch_slash) then mret (inl (mutation_error "mutation path must start with '/'"))
      else
        match t with
        | [] => mret (inl (mutation_error "mutation path must not refer to the document root"))
        | _ => path_loop (length t) t [] 0
        end
  | [] => mret (inl (mutation_error "mutation path must start with '/'"))
  end.

(** [segments] and their array, and the value. *)
Definition mutation_action_cleanup (action : lql_mutation_action) : M unit :=
  mem_destroy_n (length (segments action)) ≫= fun _ =>
  mem_destroy (negb (bool_decide (segments action = []))) ≫= fun _ =>
  mem_destroy (bool_decide (is_Some (action_value action))).

(** ** Values *)

(** A copy of [data], or out of memory. *)
Definition mutation_copy (data : bytes) : M (failure + bytes) :=
  ok ← mem_alloc alloc_ok; mret (if (ok : bool) then inr data else inl no_memory).

(** The kind and the text of a value. *)
Definition value_of_text (text : bytes) : failure + (lql_mutation_value_kind * bytes) :=
  match text, unquoted text with
  | [], _ => inr (LQL_MUTATION_VALUE_STRING, [])
  | _, Some inner => inr (LQL_MUTATION_VALUE_STRING, inner)
  | _, None =>
      if mutation_equal_ci text (bs "true") then inr (LQL_MUTATION_VALUE_BOOL, bs "true")
      else if mutation_equal_ci text (bs "false") then inr (LQL_MUTATION_VALUE_BOOL, bs "false")
      else if mutation_equal_ci text (bs "null") then inr (LQL_MUTATION_VALUE_NULL, bs "null")
      else if mutation_numeric_candidate text then
        if negb (mutation_json_number text) then
          inl (mutation_error "mutation numeric value must be a JSON number")
        else
          match lql_number_parse_json text with
          | Some number =>
              if mutation_finite number then inr (LQL_MUTATION_VALUE_NUMBER, text)
              else inl (mutation_error "mutation numeric value must be finite")
          | None => inl (mutation_error "mutation numeric value must be finite")
          end
      else inr (LQL_MUTATION_VALUE_STRING, text)
  end.

Definition mutation_parse_value (text : bytes) : M (failure + (lql_mutation_value_kind * bytes)) :=
  match value_of_text (mutation_trim text) with
  | inl f => mret (inl f)
  | inr (kind, value) =>
      copy ← mutation_copy value;
      mret (match copy with inl f => inl f | inr value => inr (kind, value) end)
  end.

Context (env : mutation_env).
Implicit Types (options : option lql_mutation_parse_options).

(** The time of a value; a literal is copied first and released. *)
Definition time_of_value options (value : bytes) : M (failure + lql_temporal) :=
  if mutation_equal_ci value (bs "NOW") then
    let '(now, default_clock_failed) :=
      match options ≫= time_now with
      | Some now => (now, false)
      | None => (clock env, clock env =? -1)
      end in
    mret (if (default_clock_failed : bool) then inl (mutation_error "time mutation NOW value is invalid")
          else match lql_temporal_from_time_t now false with
               | Some temporal => inr temporal
               | None => inl (mutation_error "time mutation NOW value is invalid")
               end)
  else
    literal ← mutation_copy value;
    match literal with
    | inl f => mret (inl f)
    | inr literal =>
        mem_destroy true ≫= fun _ =>
        mret (match lql_parse_temporal_rfc3339_literal literal with
              | Some temporal => inr temporal
              | None => inl (mutation_error "time mutation value must be RFC3339")
              end)
    end.

(** The text of the value. *)
Definition mutation_parse_time_value options (text : bytes) : M (failure + bytes) :=
  match mutation_trim text with
  | [] => mret (inl (mutation_error "time mutation value is required"))
  | text =>
      temporal ← time_of_value options (default text (unquoted text));
      match temporal with
      | inl f => mret (inl f)
      | inr temporal =>
          match lql_temporal_format_rfc3339_nano temporal 64 with
          | None => mret (inl (mutation_error "time mutation value could not be formatted"))
          | Some buffer => mutation_copy buffer
          end
      end
  end.

(** The path of a file value: without quotes, from HOME, absolute, or below the base
    directory. *)
Definition mutation_resolve_file_path options (text : bytes) : M (failure + bytes) :=
  let text := mutation_trim text in
  match default text (unquoted text) with
  | [] => mret (inl (mutation_error "file-backed mutation path is required"))
  | c :: t =>
      if (c =? ch_tilde) && match t with [] => true | d :: _ => d =? ch_slash end then
        match home env with
        | None | Some [] =>
            mret (inl (LQL_STATUS_IO_ERROR, "HOME is required to resolve file-backed mutation path"%string))
        | Some home => mutation_copy (home ++ t)
        end
      else if c =? ch_slash then mutation_copy (c :: t)
      else
        match options ≫= file_value_base_dir with
        | None | Some [] =>
            mret (inl (mutation_error "relative file-backed mutation path requires base dir"))
        | Some base =>
            mutation_copy (base ++ (if List.last base 0 =? ch_slash then [] else [ch_slash]) ++ c :: t)
        end
  end.

(** ** One action *)

Definition removal_prefix (text : bytes) : bool :=
  has_prefix (bs "rm:") text || has_prefix (bs "remove:") text || has_prefix (bs "delete:") text ||
  has_prefix (bs "del:") text.

Definition set_value (action : lql_mutation_action) (kind : lql_mutation_value_kind) (value : bytes)
    : lql_mutation_action :=
  mk_action (action_kind action) (segments action) (Some value) (file_callbacks action) kind (delta action).

(** An action on a path. *)
Definition path_action (kind : lql_mutation_kind) (delta : spec_float) (segs : list bytes) : lql_mutation_action :=
  mk_action kind segs None false LQL_MUTATION_VALUE_STRING delta.

Definition set_action : list bytes -> lql_mutation_action := path_action LQL_MUTATION_SET (S754_zero false).

(** The action is released when its value fails. *)
Definition or_cleanup {A} (action : lql_mutation_action) (r : failure + A) (k : A -> lql_mutation_action)
    : M (failure + lql_mutation_action) :=
  match r with
  | inl f => mutation_action_cleanup action ≫= fun _ => mret (inl f)
  | inr a => mret (inr (k a))
  end.

Definition mutation_parse_time_set options (text : bytes) : M (failure + lql_mutation_action) :=
  if removal_prefix text then mret (inl (mutation_error "time-prefixed mutation cannot be remove/delete"))
  else if bool_decide (is_Some (ends_twice ch_plus text)) || bool_decide (is_Some (ends_twice ch_minus text)) then
    mret (inl (mutation_error "time-prefixed mutation cannot be increment"))
  else
    match split_equal text with
    | None => mret (inl (mutation_error "time-backed mutation requires path=value"))
    | Some (path, value) =>
        segs ← mutation_parse_path path;
        match segs with
        | inl f => mret (inl f)
        | inr segs =>
            value ← mutation_parse_time_value options value;
            or_cleanup (set_action segs) value
              (set_value (set_action segs) LQL_MUTATION_VALUE_STRING)
        end
    end.

(** The path of a file value that the callback of the caller opens. *)
Definition opaque_path (text : bytes) : M (failure + bytes) :=
  let text := mutation_trim text in
  match default text (unquoted text) with
  | [] => mret (inl (mutation_error "file-backed mutation path is required"))
  | path => mutation_copy path
  end.

Definition mutation_parse_file_set options (value_kind : lql_mutation_value_kind) (text : bytes)
    : M (failure + lql_mutation_action) :=
  match options with
  | None => mret (inl (mutation_error "file-backed mutations are disabled"))
  | Some o =>
      if negb (enable_file_values o) then mret (inl (mutation_error "file-backed mutations are disabled"))
      else if removal_prefix text || has_prefix (bs "time:") text then
        mret (inl (mutation_error "file-backed mutation values require path=file"))
      else if bool_decide (is_Some (ends_twice ch_plus text)) then
        mret (inl (mutation_error "file-backed mutation values cannot use ++"))
      else if bool_decide (is_Some (ends_twice ch_minus text)) then
        mret (inl (mutation_error "file-backed mutation values cannot use --"))
      else
        match split_equal text with
        | None => mret (inl (mutation_error "file-backed mutation requires path=file"))
        | Some (path, value) =>
            segs ← mutation_parse_path path;
            match segs with
            | inl f => mret (inl f)
            | inr segs =>
                let action := set_action segs in
                if xorb (file_value_open o) (file_value_close o) then
                  or_cleanup action
                    (inl (LQL_STATUS_INVALID_ARGUMENT, "file value open and close callbacks must be paired"%string))
                    (set_value action value_kind)
                else if file_value_open o then
                  path ← opaque_path value;
                  or_cleanup action path
                    (fun path => mk_action LQL_MUTATION_SET segs (Some path) true value_kind (S754_zero false))
                else
                  path ← mutation_resolve_file_path options value;
                  or_cleanup action path (set_value action value_kind)
            end
        end
  end.

(** The delta of an increment: a sign and a JSON number that is not zero. *)
Definition delta_of_text (text : bytes) : option spec_float :=
  let number_text := match text with c :: t => if c =? ch_plus then t else text | [] => [] end in
  match lql_number_parse_json number_text with
  | Some (S754_zero _) | None => None
  | Some delta => if mutation_finite delta then Some delta else None
  end.

(** [path=value]: an increment when the value has a sign. *)
Definition parse_assignment (text : bytes) : M (failure + lql_mutation_action) :=
  match split_equal text with
  | None => mret (inl (mutation_error "mutation must be remove, increment, or path=value"))
  | Some (path, value) =>
      segs ← mutation_parse_path path;
      match segs with
      | inl f => mret (inl f)
      | inr segs =>
          let value := mutation_trim value in
          if match value with c :: _ => (c =? ch_plus) || (c =? ch_minus) | [] => false end then
            or_cleanup (set_action segs)
              match delta_of_text value with
              | None => inl (mutation_error "increment mutation requires non-zero JSON number delta")
              | Some delta => inr delta
              end
              (fun delta => path_action LQL_MUTATION_INCREMENT delta segs)
          else
            v ← mutation_parse_value value;
            or_cleanup (set_action segs) v (fun kv => set_value (set_action segs) (fst kv) (snd kv))
      end
  end.

(** An action that is its path. *)
Definition parse_path_action (kind : lql_mutation_kind) (delta : spec_float) (path : bytes)
    : M (failure + lql_mutation_action) :=
  segs ← mutation_parse_path path;
  mret (match segs with inl f => inl f | inr segs => inr (path_action kind delta segs) end).

Definition double_one : spec_float := double_of 1 0 false.
Definition double_minus_one : spec_float := double_of (-1) 0 false.

Definition mutation_parse_one options (raw : bytes) : M (failure + lql_mutation_action) :=
  match mutation_trim raw with
  | [] => mret (inl (mutation_error "mutation expression is required"))
  | text =>
      if has_prefix (bs "textfile:") text then
        mutation_parse_file_set options LQL_MUTATION_VALUE_FILE_TEXT (drop 9 text)
      else if has_prefix (bs "base64file:") text then
        mutation_parse_file_set options LQL_MUTATION_VALUE_FILE_BASE64 (drop 11 text)
      else if has_prefix (bs "file:") text then
        mutation_parse_file_set options LQL_MUTATION_VALUE_FILE_AUTO (drop 5 text)
      else if has_prefix (bs "time:") text then mutation_parse_time_set options (drop 5 text)
      else if has_prefix (bs "rm:") text then
        parse_path_action LQL_MUTATION_REMOVE (S754_zero false) (drop 3 text)
      else if has_prefix (bs "remove:") text || has_prefix (bs "delete:") text then
        parse_path_action LQL_MUTATION_REMOVE (S754_zero false) (drop 7 text)
      else if has_prefix (bs "del:") text then
        parse_path_action LQL_MUTATION_REMOVE (S754_zero false) (drop 4 text)
      else
        match ends_twice ch_plus text, ends_twice ch_minus text with
        | Some path, _ => parse_path_action LQL_MUTATION_INCREMENT double_one path
        | None, Some path => parse_path_action LQL_MUTATION_INCREMENT double_minus_one path
        | None, None => parse_assignment text
        end
  end.

(** ** The actions of a mutation *)

Definition mutation_append_action (mutation : lql_mutation) (action : lql_mutation_action)
    : M (option lql_mutation) :=
  if (length (actions mutation) =? capacity mutation)%nat then
    grown ← mem_grow alloc_ok (negb (capacity mutation =? 0)%nat);
    mret (if (grown : bool)
          then Some (mk_mutation (actions mutation ++ [action])
                       (if (capacity mutation =? 0)%nat then 4%nat else (capacity mutation * 2)%nat))
          else None)
  else mret (Some (mk_mutation (actions mutation ++ [action]) (capacity mutation))).

(** The copies of the segments of a prefix, [done] so far; released with their array
    when one fails. *)
Fixpoint copy_segments (count done : nat) : M bool :=
  match count with
  | O => mret true
  | S count =>
      ok ← mem_alloc alloc_ok;
      if (ok : bool) then copy_segments count (S done)
      else mem_destroy_n done ≫= fun _ => mem_destroy true ≫= fun _ => mret false
  end.

(** The segments of [prefix] before those of an action, whose array is replaced. *)
Definition mutation_prepend_segments (prefix : list bytes) (action : lql_mutation_action)
    : M (option lql_mutation_action) :=
  array ← mem_alloc alloc_ok;
  if negb array then mret None
  else
    copied ← copy_segments (length prefix) 0;
    if negb copied then mret None
    else
      mem_destroy (negb (bool_decide (segments action = []))) ≫= fun _ =>
      mret (Some (mk_action (action_kind action) (prefix ++ segments action) (action_value action)
                    (file_callbacks action) (action_value_kind action) (delta action))).

(** The actions of a child moved below the prefix: the failure if there is one, the
    actions that were not moved, and the mutation. *)
Fixpoint move_children (prefix : list bytes) (children : list lql_mutation_action) (mutation : lql_mutation)
    : M (option failure * list lql_mutation_action * lql_mutation) :=
  match children with
  | [] => mret (None, [], mutation)
  | child :: children =>
      prepended ← mutation_prepend_segments prefix child;
      match prepended with
      | None => mret (Some no_memory, child :: children, mutation)
      | Some child =>
          appended ← mutation_append_action mutation child;
          match appended with
          | None => mret (Some no_memory, child :: children, mutation)
          | Some mutation => move_children prefix children mutation
          end
      end
  end.

Fixpoint cleanup_actions (l : list lql_mutation_action) : M unit :=
  match l with
  | [] => mret tt
  | action :: l => mutation_action_cleanup action ≫= fun _ => cleanup_actions l
  end.

(** The actions and their array. *)
Definition destroy_actions (mutation : lql_mutation) : M unit :=
  cleanup_actions (actions mutation) ≫= fun _ => mem_destroy (negb (capacity mutation =? 0)%nat).

(** ** Groups and lists *)

(** After an opening brace: it starts a group. *)
Definition mutation_brace_shorthand_start (rest : bytes) : bool :=
  match drop_while mutation_space rest with
  | [] => false
  | next :: _ => negb (next =? ch_eq) && negb (next =? ch_comma) && negb (next =? ch_nl)
  end.

Definition mutation_comma_starts_expression (cursor : bytes) : bool :=
  match drop_while mutation_space cursor with
  | [] => false
  | (c :: _) as cursor =>
      (c =? ch_slash) || has_prefix (bs "rm:") cursor || has_prefix (bs "del:") cursor ||
      has_prefix (bs "delete:") cursor || has_prefix (bs "time:") cursor
  end.

(** The loop of [mutation_find_brace]: the text before the brace and after it. *)
Fixpoint find_brace_loop (cursor before : bytes) : option (bytes * bytes) :=
  match cursor with
  | [] => None
  | c :: rest =>
      if c =? ch_eq then None
      else if (c =? ch_lbrace) && mutation_brace_shorthand_start rest then
        match before with [] => None | _ => Some (rev before, rest) end
      else find_brace_loop rest (c :: before)
  end.

(** The path of a group and what is between its braces. *)
Definition mutation_find_brace (text : bytes) : option (bytes * bytes) :=
  if (length text =? 0)%nat || negb (List.last text 0 =? ch_rbrace) then None
  else
    '(path, rest) ← find_brace_loop text [];
    Some (path, removelast rest).

(** The state of the scan for the end of an expression; [quote] is 0 for none. *)
Record part_scan := mk_scan {
  quote : Z;
  quote_strict : bool;
  in_value : bool;
  value_started : bool;
  brace_depth : nat;
  bracket_depth : nat
}.

Definition scan_zero : part_scan := mk_scan 0 false false false 0 0.

Definition with_quote (q : Z) (s : part_scan) : part_scan :=
  mk_scan q (quote_strict s) (in_value s) (value_started s) (brace_depth s) (bracket_depth s).
Definition with_value (started : bool) (s : part_scan) : part_scan :=
  mk_scan (quote s) (quote_strict s) true started (brace_depth s) (bracket_depth s).
Definition with_brace (f : nat -> nat) (s : part_scan) : part_scan :=
  mk_scan (quote s) (quote_strict s) (in_value s) (value_started s) (f (brace_depth s)) (bracket_depth s).
Definition with_bracket (f : nat -> nat) (s : part_scan) : part_scan :=
  mk_scan (quote s) (quote_strict s) (in_value s) (value_started s) (brace_depth s) (f (bracket_depth s)).

(** What the scan does at the byte [c], which is not inside quotes: [None] at the end
    of the expression. *)
Definition scan_byte (s : part_scan) (c : Z) (rest : bytes) : option part_scan :=
  if negb (brace_depth s =? 0)%nat then
    Some (if c =? ch_lbrace then with_brace S s else if c =? ch_rbrace then with_brace Nat.pred s else s)
  else if negb (in_value s) && (c =? ch_eq) then Some (with_value false s)
  else if in_value s && negb (value_started s) && mutation_space c then Some s
  else if in_value s && negb (value_started s) && ((c =? ch_quote) || (c =? ch_apos)) then
    Some (mk_scan c (negb (value_started s)) true true (brace_depth s) (bracket_depth s))
  else if negb (in_value s) && (c =? ch_lbrace) && mutation_brace_shorthand_start rest then
    Some (with_brace S s)
  else if c =? ch_rbrace then Some s
  else if in_value s && (c =? ch_lbracket) then Some (with_bracket S (with_value true s))
  else if (c =? ch_rbracket) && negb (bracket_depth s =? 0)%nat then Some (with_bracket Nat.pred s)
  else if (c =? ch_nl) && (brace_depth s =? 0)%nat && (bracket_depth s =? 0)%nat ||
          (c =? ch_comma) && mutation_comma_starts_expression rest then None
  else if in_value s then Some (with_value true s)
  else Some s.

(** The expression that a text starts with, the text after its separator when there
    is one, and the state at its end. *)
Fixpoint scan_part (s : part_scan) (text : bytes) : bytes * option bytes * part_scan :=
  match text with
  | [] => ([], None, s)
  | c :: rest =>
      if negb (quote s =? 0) then
        if c =? ch_backslash then
          match rest with
          | d :: rest => let '(part, next, s) := scan_part s rest in (c :: d :: part, next, s)
          | [] => ([c], None, s)
          end
        else
          let '(part, next, s) := scan_part (if c =? quote s then with_quote 0 s else s) rest in
          (c :: part, next, s)
      else
        match scan_byte s c rest with
        | None => ([], Some rest, scan_zero)
        | Some s => let '(part, next, s) := scan_part s rest in (c :: part, next, s)
        end
  end.

(** The expressions of a text in turn, each given to [parse]; a separator or the end
    ends each, so that the length of the text bounds their number.  [None] when
    [parse] does not end. *)
Fixpoint each_part (fuel : nat) (parse : bytes -> lql_mutation -> M (option (option failure * lql_mutation)))
    (text : bytes) (mutation : lql_mutation) : M (option (option failure * lql_mutation)) :=
  match fuel with
  | O => mret None
  | S fuel =>
      let '(part, next, s) := scan_part scan_zero text in
      if negb (quote s =? 0) && quote_strict s then
        mret (Some (Some (mutation_error "unterminated quoted mutation value"), mutation))
      else if negb (brace_depth s =? 0)%nat then
        mret (Some (Some (mutation_error "unterminated mutation brace"), mutation))
      else
        let continue mutation :=
          match next with
          | None => mret (Some (None, mutation))
          | Some text => each_part fuel parse text mutation
          end in
        match mutation_trim part with
        | [] => continue mutation
        | part =>
            copy ← mem_alloc alloc_ok;
            if negb copy then mret (Some (Some no_memory, mutation))
            else
              r ← parse part mutation;
              match r with
              | None => mret None
              | Some (status, mutation) =>
                  mem_destroy true ≫= fun _ =>
                  match status with
                  | Some f => mret (Some (Some f, mutation))
                  | None => continue mutation
                  end
              end
        end
  end.

(** A part of a group: parsed into a child, whose actions are moved below the prefix. *)
Definition parse_child (parse : bytes -> lql_mutation -> M (option (option failure * lql_mutation)))
    (prefix : list bytes) (part : bytes) (mutation : lql_mutation) : M (option (option failure * lql_mutation)) :=
  r ← parse part (mk_mutation [] 0);
  match r with
  | None => mret None
  | Some (status, child) =>
      '(status, rest, mutation) ←
        match status with
        | Some f => mret (Some f, actions child, mutation)
        | None => move_children prefix (actions child) mutation
        end;
      cleanup_actions rest ≫= fun _ =>
      mem_destroy (negb (capacity child =? 0)%nat) ≫= fun _ => mret (Some (status, mutation))
  end.

(** The parts of a group are shorter than it. *)
Fixpoint mutation_parse_expression (fuel : nat) options (raw : bytes) (mutation : lql_mutation)
    : M (option (option failure * lql_mutation)) :=
  match fuel with
  | O => mret None
  | S fuel =>
      match mutation_find_brace (mutation_trim raw) with
      | Some (path, content) =>
          prefix ← mutation_parse_path path;
          match prefix with
          | inl f => mret (Some (Some f, mutation))
          | inr prefix =>
              r ← each_part (S (length content)) (parse_child (mutation_parse_expression fuel options) prefix)
                    content mutation;
              mutation_action_cleanup (set_action prefix) ≫= fun _ => mret r
          end
      | None =>
          action ← mutation_parse_one options raw;
          match action with
          | inl f => mret (Some (Some f, mutation))
          | inr action =>
              appended ← mutation_append_action mutation action;
              match appended with
              | Some mutation => mret (Some (None, mutation))
              | None => mutation_action_cleanup action ≫= fun _ => mret (Some (Some no_memory, mutation))
              end
          end
      end
  end.

Definition mutation_parse_expression_list options (raw : bytes) (mutation : lql_mutation)
    : M (option (option failure * lql_mutation)) :=
  let text := mutation_trim raw in
  each_part (S (length text)) (mutation_parse_expression (S (length text)) options) text mutation.

(** [for (i = 0; i < expression_count; ++i)]: the mutation is destroyed at a failure. *)
Fixpoint parse_expressions options (expressions : list bytes) (mutation : lql_mutation)
    : M (option (failure + lql_mutation)) :=
  match expressions with
  | [] => mret (Some (inr mutation))
  | expression :: expressions =>
      r ← mutation_parse_expression_list options expression mutation;
      match r with
      | None => mret None
      | Some (Some f, mutation) =>
          destroy_actions mutation ≫= fun _ => mem_destroy true ≫= fun _ => mret (Some (inl f))
      | Some (None, mutation) => parse_expressions options expressions mutation
      end
  end.

(** [receiver]: [self] has an allocator; [expressions]: NULL or the array of
    [expression_count] pointers; [out_given]: [out != NULL]. *)
Definition lql_mutation_parse_internal_with_options (receiver : bool) (expressions : option (list (option bytes)))
    (expression_count : nat) options (out_given : bool) : M (option (failure + lql_mutation)) :=
  let invalid message : M (option (failure + lql_mutation)) := mret (Some (inl (LQL_STATUS_INVALID_ARGUMENT, message))) in
  if negb out_given || bool_decide (expressions = None) && negb (expression_count =? 0)%nat then
    invalid "mutation expressions and out are required"%string
  else if (expression_count =? 0)%nat then mret (Some (inl (mutation_error "mutation expressions are required")))
  else
    match mapM id (default [] expressions) with
    | None => invalid "mutation expression entries are required"%string
    | Some expressions =>
        if negb receiver then invalid "mutation receiver is required"%string
        else
          mutation ← mem_alloc alloc_ok;
          if negb mutation then mret (Some (inl no_memory))
          else
            r ← parse_expressions options expressions (mk_mutation [] 0);
            match r with
            | Some (inr mutation) =>
                match actions mutation with
                | [] =>
                    destroy_actions mutation ≫= fun _ => mem_destroy true ≫= fun _ =>
                    mret (Some (inl (mutation_error "mutation expressions are required")))
                | _ => mret r
                end
            | _ => mret r
            end
    end.

Definition lql_mutation_parse_internal (receiver : bool) (expressions : option (list (option bytes)))
    (expression_count : nat) (out_given : bool) : M (option (failure + lql_mutation)) :=
  lql_mutation_parse_internal_with_options receiver expressions expression_count None out_given.

Definition lql_mutation_destroy_internal (mutation : lql_mutation) : M unit :=
  destroy_actions mutation ≫= fun _ => mem_destroy true.
End alloc.
