(* ===== verification/MutationProps.v ===== *)
(** * Mutation expressions: specification and refinement

    What a mutation denotes, as functions that need no memory, and the proof that the
    parser of src/lql_direct_actions.c returns it, or out of memory after a refused
    request, ends on every text and keeps no block that is not the mutation's. *)

From S2P Require Import Prelude.
From S2P Require Import Number.
From S2P Require Import NumberSpec.
From S2P Require Import NumberFloat.
From S2P Require Import Temporal.
From S2P Require Import Errors.
From S2P Require Import Projection.
From S2P Require Import ProjectionProps.
From S2P Require Import Mutation.

(** ** The specification *)

Definition sum_bind {A B} (r : failure + A) (k : A -> failure + B) : failure + B :=
  match r with inl e => inl e | inr a => k a end.

Definition segments_of (raw : bytes) : list bytes :=
  let '(base, count) := segment_suffixes (decode_segment raw) in base :: repeat (bs "[]") count.

Definition spec_path (text : bytes) : failure + list bytes :=
  match mutation_trim text with
  | c :: t =>
      if negb (c =? ch_slash) then inl (mutation_error "mutation path must start with '/'")
      else
        match t with
        | [] => inl (mutation_error "mutation path must not refer to the document root")
        | _ => inr (flat_map segments_of (split_slash t))
        end
  | [] => inl (mutation_error "mutation path must start with '/'")
  end.

Section spec.
Context (env : mutation_env) (options : option lql_mutation_parse_options).

Definition spec_time (value : bytes) : failure + lql_temporal :=
  if mutation_equal_ci value (bs "NOW") then
    let '(now, default_clock_failed) :=
      match options ≫= time_now with
      | Some now => (now, false)
      | None => (clock env, clock env =? -1)
      end in
    if (default_clock_failed : bool) then inl (mutation_error "time mutation NOW value is invalid")
    else match lql_temporal_from_time_t now false with
         | Some temporal => inr temporal
         | None => inl (mutation_error "time mutation NOW value is invalid")
         end
  else
    match lql_parse_temporal_rfc3339_literal value with
    | Some temporal => inr temporal
    | None => inl (mutation_error "time mutation value must be RFC3339")
    end.

Definition spec_time_value (text : bytes) : failure + bytes :=
  match mutation_trim text with
  | [] => inl (mutation_error "time mutation value is required")
  | text =>
      sum_bind (spec_time (default text (unquoted text))) (fun temporal =>
        match lql_temporal_format_rfc3339_nano temporal 64 with
        | None => inl (mutation_error "time mutation value could not be formatted")
        | Some buffer => inr buffer
        end)
  end.

(** The path of a file value, opened by the library or by the caller. *)
Definition spec_file_path (text : bytes) : failure + bytes :=
  let text := mutation_trim text in
  match default text (unquoted text) with
  | [] => inl (mutation_error "file-backed mutation path is required")
  | c :: t =>
      if (c =? ch_tilde) && match t with [] => true | d :: _ => d =? ch_slash end then
        match home env with
        | None | Some [] =>
            inl (LQL_STATUS_IO_ERROR, "HOME is required to resolve file-backed mutation path"%string)
        | Some home => inr (home ++ t)
        end
      else if c =? ch_slash then inr (c :: t)
      else
        match options ≫= file_value_base_dir with
        | None | Some [] => inl (mutation_error "relative file-backed mutation path requires base dir")
        | Some base => inr (base ++ (if List.last base 0 =? ch_slash then [] else [ch_slash]) ++ c :: t)
        end
  end.

Definition spec_opaque_path (text : bytes) : failure + bytes :=
  let text := mutation_trim text in
  match default text (unquoted text) with
  | [] => inl (mutation_error "file-backed mutation path is required")
  | path => inr path
  end.

(** [path=value], with [value_of] to make an action of the segments and the value. *)
Definition spec_set (message : string) (text : bytes)
    (value_of : list bytes -> bytes -> failure + lql_mutation_action) : failure + lql_mutation_action :=
  match split_equal text with
  | None => inl (mutation_error message)
  | Some (path, value) => sum_bind (spec_path path) (fun segs => value_of segs value)
  end.

Definition spec_time_set (text : bytes) : failure + lql_mutation_action :=
  if removal_prefix text then inl (mutation_error "time-prefixed mutation cannot be remove/delete")
  else if bool_decide (is_Some (ends_twice ch_plus text)) || bool_decide (is_Some (ends_twice ch_minus text)) then
    inl (mutation_error "time-prefixed mutation cannot be increment")
  else
    spec_set "time-backed mutation requires path=value" text (fun segs value =>
      sum_bind (spec_time_value value) (fun v =>
        inr (set_value (set_action segs) LQL_MUTATION_VALUE_STRING v))).

Definition spec_file_value (o : lql_mutation_parse_options) (kind : lql_mutation_value_kind) (segs : list bytes)
    (value : bytes) : failure + lql_mutation_action :=
  if xorb (file_value_open o) (file_value_close o) then
    inl (LQL_STATUS_INVALID_ARGUMENT, "file value open and close callbacks must be paired"%string)
  else if file_value_open o then
    sum_bind (spec_opaque_path value) (fun path =>
      inr (mk_action LQL_MUTATION_SET segs (Some path) true kind (S754_zero false)))
  else sum_bind (spec_file_path value) (fun path => inr (set_value (set_action segs) kind path)).

Definition spec_file_set (kind : lql_mutation_value_kind) (text : bytes) : failure + lql_mutation_action :=
  match options with
  | None => inl (mutation_error "file-backed mutations are disabled")
  | Some o =>
      if negb (enable_file_values o) then inl (mutation_error "file-backed mutations are disabled")
      else if removal_prefix text || has_prefix (bs "time:") text then
        inl (mutation_error "file-backed mutation values require path=file")
      else if bool_decide (is_Some (ends_twice ch_plus text)) then
        inl (mutation_error "file-backed mutation values cannot use ++")
      else if bool_decide (is_Some (ends_twice ch_minus text)) then
        inl (mutation_error "file-backed mutation values cannot use --")
      else spec_set "file-backed mutation requires path=file" text (spec_file_value o kind)
  end.

Definition spec_assigned (segs : list bytes) (value : bytes) : failure + lql_mutation_action :=
  let value := mutation_trim value in
  if match value with c :: _ => (c =? ch_plus) || (c =? ch_minus) | [] => false end then
    match delta_of_text value with
    | None => inl (mutation_error "increment mutation requires non-zero JSON number delta")
    | Some delta => inr (path_action LQL_MUTATION_INCREMENT delta segs)
    end
  else
    sum_bind (value_of_text (mutation_trim value)) (fun kv => inr (set_value (set_action segs) (fst kv) (snd kv))).

Definition spec_assignment (text : bytes) : failure + lql_mutation_action :=
  spec_set "mutation must be remove, increment, or path=value" text spec_assigned.

Definition spec_path_action (kind : lql_mutation_kind) (delta : spec_float) (path : bytes)
    : failure + lql_mutation_action := sum_bind (spec_path path) (fun segs => inr (path_action kind delta segs)).

Definition spec_one (raw : bytes) : failure + lql_mutation_action :=
  match mutation_trim raw with
  | [] => inl (mutation_error "mutation expression is required")
  | text =>
      if has_prefix (bs "textfile:") text then spec_file_set LQL_MUTATION_VALUE_FILE_TEXT (drop 9 text)
      else if has_prefix (bs "base64file:") text then spec_file_set LQL_MUTATION_VALUE_FILE_BASE64 (drop 11 text)
      else if has_prefix (bs "file:") text then spec_file_set LQL_MUTATION_VALUE_FILE_AUTO (drop 5 text)
      else if has_prefix (bs "time:") text then spec_time_set (drop 5 text)
      else if has_prefix (bs "rm:") text then spec_path_action LQL_MUTATION_REMOVE (S754_zero false) (drop 3 text)
      else if has_prefix (bs "remove:") text || has_prefix (bs "delete:") text then
        spec_path_action LQL_MUTATION_REMOVE (S754_zero false) (drop 7 text)
      else if has_prefix (bs "del:") text then
        spec_path_action LQL_MUTATION_REMOVE (S754_zero false) (drop 4 text)
      else
        match ends_twice ch_plus text, ends_twice ch_minus text with
        | Some path, _ => spec_path_action LQL_MUTATION_INCREMENT double_one path
        | None, Some path => spec_path_action LQL_MUTATION_INCREMENT double_minus_one path
        | None, None => spec_assignment text
        end
  end.

(** The expressions of a text, with the failure that ends them. *)
Fixpoint parts (fuel : nat) (text : bytes) : list bytes * option failure :=
  match fuel with
  | O => ([], None)
  | S fuel =>
      let '(part, next, s) := scan_part scan_zero text in
      if negb (quote s =? 0) && quote_strict s then
        ([], Some (mutation_error "unterminated quoted mutation value"))
      else if negb (brace_depth s =? 0)%nat then ([], Some (mutation_error "unterminated mutation brace"))
      else
        let '(rest, e) := match next with None => ([], None) | Some text => parts fuel text end in
        (match mutation_trim part with [] => rest | part => part :: rest end, e)
  end.

(** What the expressions of a text denote, in their order, up to the first failure. *)
Fixpoint spec_each (denote : bytes -> failure + list lql_mutation_action) (l : list bytes) (e : option failure)
    : failure + list lql_mutation_action :=
  match l with
  | [] => match e with Some e => inl e | None => inr [] end
  | part :: l => sum_bind (denote part) (fun a => sum_bind (spec_each denote l e) (fun b => inr (a ++ b)))
  end.

Definition spec_parts (denote : bytes -> failure + list lql_mutation_action) (text : bytes)
    : failure + list lql_mutation_action :=
  let '(l, e) := parts (S (length text)) text in spec_each denote l e.

(** An action below a prefix. *)
Definition below (prefix : list bytes) (a : lql_mutation_action) : lql_mutation_action :=
  mk_action (action_kind a) (prefix ++ segments a) (action_value a) (file_callbacks a) (action_value_kind a) (delta a).

(** The fuel is a bound on the length of the text, whose groups nest. *)
Fixpoint spec_expression (fuel : nat) (raw : bytes) : failure + list lql_mutation_action :=
  match fuel with
  | O => inr []
  | S fuel =>
      match mutation_find_brace (mutation_trim raw) with
      | Some (path, content) =>
          sum_bind (spec_path path) (fun prefix =>
            sum_bind (spec_parts (spec_expression fuel) content) (fun l => inr (map (below prefix) l)))
      | None => sum_bind (spec_one raw) (fun a => inr [a])
      end
  end.

Definition spec_list (raw : bytes) : failure + list lql_mutation_action :=
  let text := mutation_trim raw in spec_parts (spec_expression (S (length text))) text.

(** What a list of expressions denotes. *)
Definition mutation_spec (expressions : list bytes) : failure + list lql_mutation_action :=
  sum_bind (spec_each spec_list expressions None) (fun l =>
    match l with [] => inl (mutation_error "mutation expressions are required") | _ => inr l end).
End spec.

(** ** Reasoning *)

(** The blocks of an action, besides the action itself. *)
Definition action_blocks (a : lql_mutation_action) : Z :=
  path_blocks (segments a) + (if bool_decide (is_Some (action_value a)) then 1 else 0).

(** Whether a growing array is there. *)
Definition slots (capacity : nat) : Z := if (capacity =? 0)%nat then 0 else 1.

(** Counts of blocks, after the specification is read. *)
Ltac blocks := cbn beta in *; cbn [requests live] in *; lia.

Section refine.
Context (alloc_ok : nat -> bool).

Lemma refines_later {A} (spec : failure + A) owned base m m1 r m' :
  (requests m <= requests m1)%nat -> refines alloc_ok spec owned base m1 r m' ->
  refines alloc_ok spec owned base m r m'.
Proof.
  intros Hr [Hr' H]. split; [lia|]. destruct r as [e|a]; [|done]. destruct H as [Hl [H|[He H]]].
  - auto.
  - split; [done|]. right. split; [done|]. by eapply refused_later.
Qed.

(** A computation, then another that a failure passes through. *)
Lemma refines_bind {A B} (c : M (failure + A)) (k : failure + A -> M (failure + B)) spec spec'
    owned owned' base base' m :
  outcome c m (refines alloc_ok spec owned base m) ->
  (forall e m1, live m1 = base ->
     outcome (k (inl e)) m1 (fun r m' => (requests m1 <= requests m')%nat /\ r = inl e /\ live m' = base')) ->
  (forall a m1, (requests m <= requests m1)%nat -> spec = inr a -> live m1 = base + owned a ->
     outcome (k (inr a)) m1 (refines alloc_ok (spec' a) owned' base' m1)) ->
  outcome (c ≫= k) m (refines alloc_ok (sum_bind spec spec') owned' base' m).
Proof.
  intros Hc Hl Hr. apply outcome_bind. eapply outcome_mono; [exact Hc|]. intros [e|a] m1 [Hm H].
  - destruct H as [HL H]. eapply outcome_mono; [by apply Hl|]. intros r m' (Hm' & -> & HL').
    split; [lia|]. split; [done|]. destruct H as [->|[-> (n & Hn & Hf)]]; [by left|].
    right. split; [done|]. exists n. split; [lia|done].
  - destruct H as [-> HL]. eapply outcome_mono; [by apply Hr|]. intros r m'. by apply refines_later.
Qed.

(** A result that takes no memory. *)
Lemma refines_ret {A} (spec : failure + A) owned base m :
  match spec with inl _ => live m = base | inr a => live m = base + owned a end ->
  outcome (mret spec) m (refines alloc_ok spec owned base m).
Proof. intros H. apply outcome_ret. split; [lia|]. destruct spec; auto. Qed.

Lemma refines_oom {A} (spec : failure + A) owned base m m' :
  (requests m <= requests m')%nat -> live m' = base -> refused alloc_ok m m' ->
  refines alloc_ok spec owned base m (inl no_memory) m'.
Proof. intros Hr Hl Hf. split; [done|]. auto. Qed.

Lemma copy_outcome data m :
  outcome (mutation_copy alloc_ok data) m (refines alloc_ok (inr data) (fun _ => 1) (live m) m).
Proof.
  apply outcome_bind, outcome_alloc; intros Ha; apply outcome_ret.
  - split; [cbn; lia|]. done.
  - apply refines_oom; [cbn; lia|done|by apply refused_now; [|cbn; lia]].
Qed.

Lemma action_cleanup_outcome a m P :
  P tt (mk_mem (requests m) (live m - action_blocks a)) -> outcome (mutation_action_cleanup a) m P.
Proof.
  intros H. unfold mutation_action_cleanup.
  apply outcome_bind, outcome_destroy_n, outcome_bind, outcome_destroy, outcome_destroy. cbn [requests live].
  unfold action_blocks, path_blocks in H.
  match goal with |- P _ (mk_mem _ ?a) => match type of H with P _ (mk_mem _ ?b) =>
    replace a with b; [done|] end end.
  repeat case_bool_decide; cbn [negb]; try done; lia.
Qed.

(** ** Paths *)

Lemma push_outcome segs capacity segment m P :
  (capacity = 0%nat -> segs = []) ->
  (forall capacity' m', capacity' <> 0%nat -> (requests m <= requests m')%nat ->
     live m' = live m - slots capacity + 1 -> P (Some (segs ++ [segment], capacity')) m') ->
  (forall m', (requests m < requests m')%nat -> live m' = live m -> refused alloc_ok m m' -> P None m') ->
  outcome (push_segment alloc_ok segs capacity segment) m P.
Proof.
  intros Hc Hok Hno. unfold push_segment. unfold slots in Hok.
  destruct (length segs =? capacity)%nat eqn:Ecap.
  - apply outcome_bind, outcome_grow; intros Hg; apply outcome_ret.
    + apply Hok; cbn [requests live].
      * destruct (Nat.eqb_spec capacity 0); lia.
      * lia.
      * destruct (capacity =? 0)%nat; cbn [negb]; lia.
    + apply Hno; cbn [requests live]; [lia|done|]. by apply refused_now; [|lia].
  - apply Nat.eqb_neq in Ecap. assert (capacity <> 0%nat) as H0 by (intros E; apply Ecap; by rewrite (Hc E), E).
    apply outcome_ret, Hok; [done|lia|]. rewrite (proj2 (Nat.eqb_neq _ _) H0). lia.
Qed.

(** A path that fails keeps nothing of the [base] before it. *)
Lemma path_fail_outcome {A} segs capacity m (P : failure + A -> mem -> Prop) :
  P (inl no_memory) (mk_mem (requests m) (live m - owned_so_far segs capacity)) ->
  outcome (path_fail segs capacity) m P.
Proof.
  intros H. unfold path_fail. apply outcome_bind, outcome_destroy_n, outcome_bind, outcome_destroy, outcome_ret.
  cbn [requests live]. unfold owned_so_far in H.
  match goal with |- P _ (mk_mem _ ?a) => match type of H with P _ (mk_mem _ ?b) =>
    replace a with b; [done|] end end.
  destruct (capacity =? 0)%nat; cbn [negb]; lia.
Qed.

Lemma owned_slots segs capacity : owned_so_far segs capacity = Z.of_nat (length segs) + slots capacity.
Proof. done. Qed.

Lemma owned_snoc segs segment capacity : owned_so_far (segs ++ [segment]) capacity = owned_so_far segs capacity + 1.
Proof. unfold owned_so_far. rewrite length_app. cbn [length]. lia. Qed.

Lemma slots_pos capacity : capacity <> 0%nat -> slots capacity = 1.
Proof. intros H. unfold slots. by rewrite (proj2 (Nat.eqb_neq _ _) H). Qed.

Lemma push_wildcards_outcome count base m0 P : forall segs capacity m,
  capacity <> 0%nat -> (requests m0 <= requests m)%nat -> live m = base + owned_so_far segs capacity ->
  (forall m', (requests m0 <= requests m')%nat -> live m' = base -> refused alloc_ok m0 m' -> P (inl no_memory) m') ->
  (forall capacity' m', capacity' <> 0%nat -> (requests m0 <= requests m')%nat ->
     live m' = base + owned_so_far (segs ++ repeat (bs "[]") count) capacity' ->
     P (inr (segs ++ repeat (bs "[]") count, capacity')) m') ->
  outcome (push_wildcards alloc_ok count segs capacity) m P.
Proof.
  induction count as [|count IH]; intros segs capacity m Hc Hr Hl Hno Hok; cbn [push_wildcards repeat] in *.
  - apply outcome_ret. rewrite app_nil_r in Hok. by apply Hok.
  - apply outcome_bind, outcome_alloc; intros Ha; cbn [negb].
    2:{ apply path_fail_outcome, Hno; cbn [requests live]; [lia|lia|].
        exists (requests m). cbn [requests]. split; [lia|done]. }
    apply outcome_bind, push_outcome; [done| |]; cbn [requests live].
    + intros capacity' m' Hc' Hr' Hl'. rewrite (slots_pos _ Hc) in Hl'. apply IH; try done; [lia| |].
      * rewrite owned_snoc, Hl', Hl, !owned_slots, !slots_pos by done. lia.
      * intros c2 m2. rewrite <- app_assoc. apply Hok.
    + intros m' Hr' Hl' (n & Hn & Hf). cbn [requests] in Hn.
      apply outcome_bind, outcome_destroy, path_fail_outcome, Hno; cbn [requests live]; [lia|lia|].
      exists n. cbn [requests]. split; [lia|done].
Qed.

Lemma suffixes_spec raw base count :
  segment_suffixes (decode_segment raw) = (base, count) -> segments_of raw = base :: repeat (bs "[]") count.
Proof. unfold segments_of. by intros ->. Qed.

Lemma flat_map_slash part raw slash : span (fun c => negb (c =? ch_slash)) part = (raw, slash) ->
  flat_map segments_of (split_slash part) =
  segments_of raw ++ match slash with [] => [] | _ :: t => flat_map segments_of (split_slash t) end.
Proof. intros H. pose proof (split_slash_span part) as E. rewrite H in E. rewrite E. by destruct slash. Qed.

Lemma path_round_outcome next part segs capacity base m :
  (capacity = 0%nat -> segs = []) -> live m = base + owned_so_far segs capacity ->
  (forall part' segs' cap m1, (length part' < length part)%nat -> cap <> 0%nat ->
     live m1 = base + owned_so_far segs' cap ->
     outcome (next part' segs' cap) m1
       (refines alloc_ok (inr (segs' ++ flat_map segments_of (split_slash part'))) path_blocks base m1)) ->
  outcome (path_round alloc_ok next part segs capacity) m
    (refines alloc_ok (inr (segs ++ flat_map segments_of (split_slash part))) path_blocks base m).
Proof.
  intros Hc Hl Hnext. unfold path_round. destruct (span _ part) as [raw slash] eqn:Espan.
  rewrite (flat_map_slash _ _ _ Espan). apply span_app in Espan.
  destruct (segment_suffixes (decode_segment raw)) as [b count] eqn:Es. rewrite (suffixes_spec _ _ _ Es).
  apply outcome_bind, outcome_alloc; intros Ha; cbn [negb].
  2:{ apply path_fail_outcome, refines_oom; cbn [requests live]; [lia|lia|by apply refused_now; [|lia]]. }
  apply outcome_bind, outcome_alloc; intros Hb; cbn [negb requests live].
  2:{ apply outcome_bind, outcome_destroy, path_fail_outcome, refines_oom; cbn [requests live]; [lia|lia|].
      exists (S (requests m)). cbn [requests]. split; [lia|done]. }
  apply outcome_bind, outcome_destroy, outcome_bind, push_outcome; [done| |]; cbn [requests live].
  2:{ intros m' Hr Hl' (n & Hn & Hf). cbn [requests] in *.
      apply outcome_bind, outcome_destroy, path_fail_outcome, refines_oom; cbn [requests live]; [lia|lia|].
      exists n. cbn [requests]. split; [lia|done]. }
  intros capacity' m' Hc' Hr' Hl'. rewrite owned_slots in Hl.
  apply outcome_bind, (push_wildcards_outcome _ base m); [done|lia| | |].
  - rewrite owned_snoc, owned_slots, slots_pos by done. lia.
  - intros m2 Hr2 Hl2 Hf. apply outcome_ret. by apply refines_oom.
  - intros c2 m2 Hc2 Hr2 Hl2. rewrite <- app_assoc in *. cbn [app] in *. destruct slash as [|s part'].
    + apply outcome_ret. split; [done|]. rewrite app_nil_r. split; [done|]. rewrite Hl2.
      unfold path_blocks. rewrite owned_slots, slots_pos by done.
      rewrite bool_decide_eq_false_2 by (by destruct segs). lia.
    + eapply outcome_mono; [apply Hnext; [|done|done]|].
      * rewrite Espan, length_app. cbn [length]. lia.
      * intros r m3. rewrite <- app_assoc. cbn [app]. by apply refines_later.
Qed.

Lemma path_loop_outcome fuel : forall part segs capacity base m,
  (length part <= fuel)%nat -> (capacity = 0%nat -> segs = []) -> live m = base + owned_so_far segs capacity ->
  outcome (path_loop alloc_ok fuel part segs capacity) m
    (refines alloc_ok (inr (segs ++ flat_map segments_of (split_slash part))) path_blocks base m).
Proof.
  induction fuel as [|fuel IH]; intros part segs capacity base m Hf Hc Hl; cbn [path_loop];
    apply path_round_outcome; try done; intros part' segs' cap m1 HL Hcap Hl1; [lia|].
  apply IH; [lia|done|done].
Qed.

Lemma parse_path_outcome text m :
  outcome (mutation_parse_path alloc_ok text) m (refines alloc_ok (spec_path text) path_blocks (live m) m).
Proof.
  unfold mutation_parse_path, spec_path. destruct (mutation_trim text) as [|c t]; [by apply refines_ret|].
  destruct (negb (c =? ch_slash)); [by apply refines_ret|]. destruct t as [|d t]; [by apply refines_ret|].
  apply (path_loop_outcome (length (d :: t)) (d :: t) [] 0); [done|done|]. unfold owned_so_far. cbn [length Nat.eqb]. lia.
Qed.

(** ** One action *)

Context (env : mutation_env) (options : option lql_mutation_parse_options).

Lemma parse_value_outcome text m :
  outcome (mutation_parse_value alloc_ok text) m
    (refines alloc_ok (value_of_text (mutation_trim text)) (fun _ => 1) (live m) m).
Proof.
  unfold mutation_parse_value. destruct (value_of_text _) as [f|[kind value]]; [by apply refines_ret|].
  apply outcome_bind. eapply outcome_mono; [apply copy_outcome|]. intros [e|v] m1 [Hr H]; apply outcome_ret.
  - destruct H as [Hl [?|H]]; [done|]. split; [done|]. auto.
  - destruct H as [[= <-] Hl]. done.
Qed.

Lemma time_outcome value m :
  outcome (time_of_value alloc_ok env options value) m
    (refines alloc_ok (spec_time env options value) (fun _ => 0) (live m) m).
Proof.
  unfold time_of_value, spec_time. destruct (mutation_equal_ci _ _).
  - destruct (match _ with Some _ => _ | None => _ end) as [now failed].
    apply (refines_ret (if (failed : bool) then _ else _)). destruct failed; [done|].
    destruct (lql_temporal_from_time_t _ _); [lia|done].
  - apply outcome_bind. eapply outcome_mono; [apply copy_outcome|]. intros [e|v] m1 [Hr H].
    + apply outcome_ret. destruct H as [Hl [?|H]]; [done|]. split; [done|]. auto.
    + destruct H as [[= <-] Hl]. apply outcome_bind, outcome_destroy.
      eapply outcome_mono; [apply (refines_ret (match lql_parse_temporal_rfc3339_literal value with
        Some temporal => inr temporal | None => _ end) (fun _ => 0) (live m))|].
      * destruct (lql_parse_temporal_rfc3339_literal value); cbn [live]; lia.
      * intros r m'. apply refines_later. cbn [requests]. lia.
Qed.

Lemma parse_time_value_outcome text m :
  outcome (mutation_parse_time_value alloc_ok env options text) m
    (refines alloc_ok (spec_time_value env options text) (fun _ => 1) (live m) m).
Proof.
  unfold mutation_parse_time_value, spec_time_value.
  destruct (mutation_trim text) as [|c t] eqn:E; [by apply refines_ret|].
  eapply refines_bind; [apply time_outcome| |].
  - intros e m1 Hl. by apply outcome_ret.
  - intros temporal m1 Hr _ Hl. destruct (lql_temporal_format_rfc3339_nano _ _).
    + replace (live m) with (live m1) by blocks. apply copy_outcome.
    + apply refines_ret. blocks.
Qed.

Lemma resolve_outcome text m :
  outcome (mutation_resolve_file_path alloc_ok env options text) m
    (refines alloc_ok (spec_file_path env options text) (fun _ => 1) (live m) m).
Proof.
  unfold mutation_resolve_file_path, spec_file_path.
  destruct (default _ _) as [|c t]; [by apply refines_ret|]. destruct ((c =? ch_tilde) && _).
  - destruct (home env) as [[|h home]|]; [by apply refines_ret|apply copy_outcome|by apply refines_ret].
  - destruct (c =? ch_slash); [apply copy_outcome|].
    destruct (options ≫= file_value_base_dir) as [[|b base]|];
      [by apply refines_ret|apply copy_outcome|by apply refines_ret].
Qed.

Lemma opaque_path_outcome text m :
  outcome (opaque_path alloc_ok text) m (refines alloc_ok (spec_opaque_path text) (fun _ => 1) (live m) m).
Proof.
  unfold opaque_path, spec_opaque_path. destruct (default _ _); [by apply refines_ret|apply copy_outcome].
Qed.

(** A path, then a value whose failure releases it. *)
Lemma or_cleanup_outcome {A} (c : M (failure + A)) spec (k : A -> lql_mutation_action) owned segs base m :
  segs <> [] -> live m = base + path_blocks segs ->
  outcome c m (refines alloc_ok spec owned (live m) m) ->
  (forall a, spec = inr a -> action_blocks (k a) = path_blocks segs + owned a) ->
  outcome (c ≫= fun r => or_cleanup (set_action segs) r k) m
    (refines alloc_ok (sum_bind spec (fun a => inr (k a))) action_blocks base m).
Proof.
  intros Hs Hl Hc Hk. eapply refines_bind; [exact Hc| |].
  - intros e m1 Hl1. cbn [or_cleanup]. apply outcome_bind, action_cleanup_outcome, outcome_ret.
    cbn [requests live]. split; [lia|]. split; [done|]. unfold action_blocks. cbn [segments action_value set_action path_action].
    rewrite bool_decide_eq_false_2 by (by intros []). lia.
  - intros a m1 Hr Ha Hl1. cbn [or_cleanup]. apply (refines_ret (inr (k a))). rewrite (Hk a Ha). lia.
Qed.

(** A value that takes no memory. *)
Lemma or_cleanup_pure {A} (r : failure + A) (k : A -> lql_mutation_action) segs base m :
  segs <> [] -> live m = base + path_blocks segs ->
  (forall a, r = inr a -> action_blocks (k a) = path_blocks segs) ->
  outcome (or_cleanup (set_action segs) r k) m (refines alloc_ok (sum_bind r (fun a => inr (k a))) action_blocks base m).
Proof.
  intros Hs Hl Hk.
  pose proof (or_cleanup_outcome (mret r) r k (fun _ => 0) segs base m Hs Hl) as K. apply K.
  - apply refines_ret. destruct r; lia.
  - intros a Ha. rewrite (Hk a Ha). lia.
Qed.

Lemma set_blocks segs kind v cb d :
  action_blocks (mk_action LQL_MUTATION_SET segs (Some v) cb kind d) = path_blocks segs + 1.
Proof. unfold action_blocks. cbn [segments action_value]. by rewrite bool_decide_eq_true_2 by eauto. Qed.

Lemma path_action_blocks kind delta segs : action_blocks (path_action kind delta segs) = path_blocks segs.
Proof.
  unfold action_blocks, path_action. cbn [segments action_value].
  rewrite bool_decide_eq_false_2 by (by intros []). lia.
Qed.

Lemma segments_of_cons raw : exists b n, segments_of raw = b :: repeat (bs "[]") n.
Proof. unfold segments_of. destruct (segment_suffixes _) as [b n]. by exists b, n. Qed.

Lemma spec_path_inr text segs : spec_path text = inr segs ->
  exists t, mutation_trim text = ch_slash :: t /\ t <> [] /\ segs = flat_map segments_of (split_slash t).
Proof.
  unfold spec_path. destruct (mutation_trim text) as [|c t]; [done|].
  destruct (Z.eqb_spec c ch_slash) as [->|]; cbn [negb]; [|done].
  destruct t as [|d t]; [done|]. intros H. exists (d :: t). split_and!; [done|done|congruence].
Qed.

Lemma spec_path_nonempty text segs : spec_path text = inr segs -> segs <> [].
Proof.
  intros (t & _ & _ & ->)%spec_path_inr. pose proof (split_slash_nonempty t).
  destruct (split_slash t) as [|s l]; [done|]. cbn [flat_map].
  destruct (segments_of_cons s) as (b & n & ->). done.
Qed.

(** [path=value]: what is left is to make the action of the segments. *)
Lemma set_outcome message text (k : list bytes -> bytes -> M (failure + lql_mutation_action)) spec m :
  (forall segs value m1, segs <> [] -> live m1 = live m + path_blocks segs ->
     outcome (k segs value) m1 (refines alloc_ok (spec segs value) action_blocks (live m) m1)) ->
  outcome (match split_equal text with
    | None => mret (inl (mutation_error message))
    | Some (path, value) =>
        segs ← mutation_parse_path alloc_ok path;
        match segs with inl f => mret (inl f) | inr segs => k segs value end
    end) m (refines alloc_ok (spec_set message text spec) action_blocks (live m) m).
Proof.
  intros Hk. unfold spec_set. destruct (split_equal text) as [[path value]|]; [|by apply refines_ret].
  eapply refines_bind; [apply parse_path_outcome| |].
  - intros e m1 Hl. by apply outcome_ret.
  - intros segs m1 Hr Hs Hl. apply Hk; [by eapply spec_path_nonempty|done].
Qed.

Lemma time_set_outcome text m :
  outcome (mutation_parse_time_set alloc_ok env options text) m
    (refines alloc_ok (spec_time_set env options text) action_blocks (live m) m).
Proof.
  unfold mutation_parse_time_set, spec_time_set. destruct (removal_prefix text); [by apply refines_ret|].
  case_match; [by apply refines_ret|]. apply set_outcome. intros segs value m1 Hs Hl.
  eapply or_cleanup_outcome; [done|done|apply parse_time_value_outcome|]. intros v _. apply set_blocks.
Qed.

Lemma file_set_outcome kind text m :
  outcome (mutation_parse_file_set alloc_ok env options kind text) m
    (refines alloc_ok (spec_file_set env options kind text) action_blocks (live m) m).
Proof.
  unfold mutation_parse_file_set, spec_file_set. destruct options as [o|] eqn:Eo; [|by apply refines_ret].
  rewrite <- Eo. do 4 (case_match; [by apply refines_ret|]).
  apply set_outcome. intros segs value m1 Hs Hl. unfold spec_file_value. destruct (xorb _ _).
  - by apply (or_cleanup_pure (inl _) (set_value (set_action segs) kind)).
  - destruct (file_value_open o); (eapply or_cleanup_outcome; [done|done| |intros v _; apply set_blocks]).
    + apply opaque_path_outcome.
    + apply resolve_outcome.
Qed.

Lemma assignment_outcome text m :
  outcome (parse_assignment alloc_ok text) m (refines alloc_ok (spec_assignment text) action_blocks (live m) m).
Proof.
  unfold parse_assignment, spec_assignment. apply set_outcome. intros segs value m1 Hs Hl.
  unfold spec_assigned. case_match.
  - pose proof (or_cleanup_pure match delta_of_text (mutation_trim value) with
      | None => inl (mutation_error "increment mutation requires non-zero JSON number delta")
      | Some delta => inr delta end (fun delta => path_action LQL_MUTATION_INCREMENT delta segs) segs (live m) m1 Hs Hl) as K.
    destruct (delta_of_text _); apply K; intros a _; apply path_action_blocks.
  - eapply or_cleanup_outcome; [done|done|apply parse_value_outcome|]. intros [kind v] _. apply set_blocks.
Qed.

Lemma path_action_outcome kind delta path m :
  outcome (parse_path_action alloc_ok kind delta path) m
    (refines alloc_ok (spec_path_action kind delta path) action_blocks (live m) m).
Proof.
  unfold parse_path_action, spec_path_action. eapply refines_bind; [apply parse_path_outcome| |].
  - intros e m1 Hl. by apply outcome_ret.
  - intros segs m1 _ _ Hl. apply (refines_ret (inr _)). by rewrite path_action_blocks.
Qed.

Lemma parse_one_outcome raw m :
  outcome (mutation_parse_one alloc_ok env options raw) m
    (refines alloc_ok (spec_one env options raw) action_blocks (live m) m).
Proof.
  unfold mutation_parse_one, spec_one. destruct (mutation_trim raw) as [|c t]; [by apply refines_ret|].
  do 3 (case_match; [apply file_set_outcome|]). case_match; [apply time_set_outcome|].
  do 3 (case_match; [apply path_action_outcome|]).
  destruct (ends_twice ch_plus _); [apply path_action_outcome|].
  destruct (ends_twice ch_minus _); [apply path_action_outcome|apply assignment_outcome].
Qed.

(** ** The actions of a mutation *)

Definition actions_blocks (l : list lql_mutation_action) : Z := foldr (fun a n => action_blocks a + n) 0 l.

Definition mutation_blocks (mutation : lql_mutation) : Z :=
  actions_blocks (actions mutation) + slots (capacity mutation).

Definition mutation_wf (mutation : lql_mutation) : Prop := capacity mutation = 0%nat -> actions mutation = [].

Lemma actions_blocks_app l l' : actions_blocks (l ++ l') = actions_blocks l + actions_blocks l'.
Proof. induction l as [|a l IH]; cbn; [done|]. unfold actions_blocks in *. lia. Qed.

Lemma append_outcome mutation action m P :
  mutation_wf mutation ->
  (forall mutation' m', (requests m <= requests m')%nat -> mutation_wf mutation' ->
     actions mutation' = actions mutation ++ [action] ->
     live m' - mutation_blocks mutation' = live m - mutation_blocks mutation - action_blocks action ->
     P (Some mutation') m') ->
  (forall m', (requests m <= requests m')%nat -> live m' = live m -> refused alloc_ok m m' -> P None m') ->
  outcome (mutation_append_action alloc_ok mutation action) m P.
Proof.
  intros Hw Hok Hno. unfold mutation_append_action.
  assert (forall cap m', cap <> 0%nat -> (requests m <= requests m')%nat ->
    live m' = live m - slots (capacity mutation) + 1 ->
    P (Some (mk_mutation (actions mutation ++ [action]) cap)) m') as Hgo.
  { intros cap m' Hc Hr Hl. apply Hok; [done|by intros E|done|]. unfold mutation_blocks. cbn [actions capacity].
    rewrite actions_blocks_app, slots_pos by done. cbn. lia. }
  destruct (Nat.eqb_spec (length (actions mutation)) (capacity mutation)) as [E|E].
  - apply outcome_bind, outcome_grow; intros Ha; apply outcome_ret.
    + apply Hgo; cbn [requests live]; [|lia|].
      * destruct (Nat.eqb_spec (capacity mutation) 0); lia.
      * unfold slots. destruct (capacity mutation =? 0)%nat; cbn [negb]; lia.
    + apply Hno; cbn [requests live]; [lia|done|by apply refused_now; [|lia]].
  - assert (capacity mutation <> 0%nat) as H0 by (intros H; apply E; by rewrite (Hw H), H).
    apply outcome_ret, Hgo; [done|lia|]. rewrite slots_pos by done. lia.
Qed.

Lemma copy_segments_outcome count : forall done m P,
  (forall m', (requests m <= requests m')%nat -> live m' = live m + Z.of_nat count -> P true m') ->
  (forall m', (requests m <= requests m')%nat -> live m' = live m - Z.of_nat done - 1 -> refused alloc_ok m m' ->
     P false m') ->
  outcome (copy_segments alloc_ok count done) m P.
Proof.
  induction count as [|count IH]; intros n m P Hok Hno; cbn [copy_segments].
  - apply outcome_ret, Hok; lia.
  - apply outcome_bind, outcome_alloc; intros Ha.
    + apply IH; cbn [requests live].
      * intros m' Hr Hl. apply Hok; lia.
      * intros m' Hr Hl (k & Hk & Hf). cbn [requests] in Hk. apply Hno; [lia|lia|]. exists k. split; [lia|done].
    + apply outcome_bind, outcome_destroy_n, outcome_bind, outcome_destroy, outcome_ret, Hno; cbn [requests live];
        [lia|lia|]. exists (requests m). cbn [requests]. split; [lia|done].
Qed.

Lemma prepend_outcome prefix action m P :
  prefix <> [] ->
  (forall m', (requests m <= requests m')%nat ->
     live m' - action_blocks (below prefix action) = live m - action_blocks action -> P (Some (below prefix action)) m') ->
  (forall m', (requests m <= requests m')%nat -> live m' = live m -> refused alloc_ok m m' -> P None m') ->
  outcome (mutation_prepend_segments alloc_ok prefix action) m P.
Proof.
  intros Hp Hok Hno. unfold mutation_prepend_segments. apply outcome_bind, outcome_alloc; intros Ha; cbn [negb].
  2:{ apply outcome_ret, Hno; cbn [requests live]; [lia|done|by apply refused_now; [|lia]]. }
  apply outcome_bind, copy_segments_outcome; cbn [requests live]; intros m' Hr Hl; cbn [negb].
  - apply outcome_bind, outcome_destroy, outcome_ret. apply (Hok (mk_mem _ _)); cbn [requests live]; [lia|].
    unfold action_blocks, below, path_blocks. cbn [segments action_value].
    rewrite (bool_decide_eq_false_2 (prefix ++ _ = [])) by (by destruct prefix). rewrite length_app.
    repeat case_bool_decide; cbn [negb]; try done; lia.
  - intros (k & Hk & Hf). cbn [requests] in Hk. apply outcome_ret, Hno; [lia|lia|]. exists k. split; [lia|done].
Qed.

Lemma move_children_outcome prefix children : forall mutation m P,
  prefix <> [] -> mutation_wf mutation ->
  (forall e rest mutation' m', (requests m <= requests m')%nat -> mutation_wf mutation' ->
     live m' - mutation_blocks mutation' - actions_blocks rest =
       live m - mutation_blocks mutation - actions_blocks children ->
     match e with
     | None => rest = [] /\ actions mutation' = actions mutation ++ map (below prefix) children
     | Some e => e = no_memory /\ refused alloc_ok m m'
     end -> P (e, rest, mutation') m') ->
  outcome (move_children alloc_ok prefix children mutation) m P.
Proof.
  induction children as [|child children IH]; intros mutation m P Hp Hw HP; cbn [move_children].
  - apply outcome_ret, HP; [done|done|lia|]. split; [done|]. by rewrite app_nil_r.
  - apply outcome_bind, prepend_outcome; [done| |].
    2:{ intros m' Hr Hl Hf. apply outcome_ret, HP; [done|done|lia|done]. }
    intros m1 Hr1 Hl1. apply outcome_bind, append_outcome; [done| |].
    2:{ intros m' Hr Hl (k & Hk & Hf). apply outcome_ret, HP; [lia|done| |].
        - cbn [actions_blocks foldr]. unfold actions_blocks. lia.
        - split; [done|]. exists k. split; [lia|done]. }
    intros mutation' m2 Hr2 Hw2 Ha2 Hl2. apply IH; [done|done|].
    intros e rest mutation'' m3 Hr3 Hw3 Hl3 He. apply HP; [lia|done| |].
    + cbn [actions_blocks foldr] in *. unfold actions_blocks in *. lia.
    + destruct e as [e|].
      * destruct He as [-> (k & Hk & Hf)]. split; [done|]. exists k. split; [lia|done].
      * destruct He as [-> ->]. rewrite Ha2, <- app_assoc. done.
Qed.

Lemma cleanup_actions_outcome l : forall m P,
  P tt (mk_mem (requests m) (live m - actions_blocks l)) -> outcome (cleanup_actions l) m P.
Proof.
  induction l as [|a l IH]; intros m P H; cbn [cleanup_actions].
  - apply outcome_ret. cbn in H. rewrite Z.sub_0_r in H. by destruct m.
  - apply outcome_bind, action_cleanup_outcome, IH. cbn [requests live].
    cbn [actions_blocks foldr] in H. unfold actions_blocks.
    match goal with |- P _ (mk_mem _ ?a) => match type of H with P _ (mk_mem _ ?b) =>
      replace a with b by lia end end. done.
Qed.

Lemma destroy_actions_outcome mutation m P :
  P tt (mk_mem (requests m) (live m - mutation_blocks mutation)) -> outcome (destroy_actions mutation) m P.
Proof.
  intros H. unfold destroy_actions. apply outcome_bind, cleanup_actions_outcome, outcome_destroy. cbn [requests live].
  unfold mutation_blocks, slots in H.
  match goal with |- P _ (mk_mem _ ?a) => match type of H with P _ (mk_mem _ ?b) =>
    replace a with b; [done|] end end.
  destruct (capacity mutation =? 0)%nat; cbn [negb]; lia.
Qed.

(** ** Expressions

    A step of the parser on a mutation: it ends, the blocks are accounted for, and what
    was appended is what the specification says, or the failure is its. *)

Definition appends (spec : failure + list lql_mutation_action) (mutation : lql_mutation) (m : mem)
    (r : option (option failure * lql_mutation)) (m' : mem) : Prop :=
  (requests m <= requests m')%nat /\ exists status mutation', r = Some (status, mutation') /\
    mutation_wf mutation' /\ live m' - mutation_blocks mutation' = live m - mutation_blocks mutation /\
    match status with
    | None => exists l, spec = inr l /\ actions mutation' = actions mutation ++ l
    | Some e => spec = inl e \/ (e = no_memory /\ refused alloc_ok m m')
    end.

Lemma appends_failed spec mutation m m' e :
  mutation_wf mutation -> (requests m <= requests m')%nat -> live m' = live m ->
  spec = inl e \/ (e = no_memory /\ refused alloc_ok m m') ->
  appends spec mutation m (Some (Some e, mutation)) m'.
Proof. intros Hw Hr Hl He. split; [done|]. exists (Some e), mutation. split_and!; [done|done|lia|done]. Qed.

(** A step after which the blocks of something else are gone. *)
Lemma appends_trans spec spec' mutation mutation1 l1 m m1 r m' :
  (requests m <= requests m1)%nat -> live m1 - mutation_blocks mutation1 = live m - mutation_blocks mutation ->
  actions mutation1 = actions mutation ++ l1 -> spec = inr l1 ->
  appends spec' mutation1 m1 r m' ->
  appends (sum_bind spec (fun a => sum_bind spec' (fun b => inr (a ++ b)))) mutation m r m'.
Proof.
  intros Hr Hl Ha -> (Hr' & status & mutation' & -> & Hw & Hl' & Hs). split; [lia|].
  exists status, mutation'. split_and!; [done|done|lia|]. cbn [sum_bind]. destruct status as [e|].
  - destruct Hs as [->|[-> (k & Hk & Hf)]]; [by left|]. right. split; [done|]. exists k. split; [lia|done].
  - destruct Hs as (l & -> & ->). exists (l1 ++ l). by rewrite Ha, <- app_assoc.
Qed.

Lemma scan_part_length text : forall s part next s', scan_part s text = (part, next, s') ->
  (length part + match next with Some t => S (length t) | None => 0 end = length text)%nat.
Proof.
  induction text as [text IH] using (induction_ltof1 _ (@length Z)). unfold ltof in IH.
  intros s part next s'. destruct text as [|c rest]; cbn [scan_part].
  { by intros [= <- <- _]. }
  assert (forall r s1 part next s', (length r < length (c :: rest))%nat -> forall x p,
    (let '(part, next, s) := scan_part s1 r in (x ++ part, next, s)) = (part, next, s') -> 
    length (x ++ p) = length (x ++ p) ->
    (length part + match next with Some t => S (length t) | None => 0 end = length x + length r)%nat) as K.
  { intros r s1 pt nx s2 HL x p H _. destruct (scan_part s1 r) as [[p1 n1] s3] eqn:E. injection H as <- <- _.
    apply IH in E; [|done]. rewrite length_app. lia. }
  destruct (negb (quote s =? 0)).
  - destruct (c =? ch_backslash).
    + destruct rest as [|d rest]; [by intros [= <- <- _]|]. intros H.
      apply (K rest _ part next s' ltac:(cbn; lia) [c; d] []) in H; [|done]. cbn [length] in *. lia.
    + intros H. apply (K rest _ part next s' ltac:(cbn; lia) [c] []) in H; [|done]. cbn [length] in *. lia.
  - destruct (scan_byte s c rest) as [s1|].
    + intros H. apply (K rest _ part next s' ltac:(cbn; lia) [c] []) in H; [|done]. cbn [length] in *. lia.
    + intros [= <- <- _]. done.
Qed.

Lemma drop_while_length {A} (p : A -> bool) l : (length (drop_while p l) <= length l)%nat.
Proof. destruct (drop_while_app p l) as (a & E & _). apply (f_equal length) in E. rewrite length_app in E. lia. Qed.

Lemma mutation_trim_length text : (length (mutation_trim text) <= length text)%nat.
Proof.
  unfold mutation_trim. rewrite length_rev.
  etrans; [apply drop_while_length|]. rewrite length_rev. apply drop_while_length.
Qed.

Lemma each_part_outcome parse denote fuel : forall text mutation m,
  (length text < fuel)%nat -> mutation_wf mutation ->
  (forall part mutation m, (length part <= length text)%nat -> mutation_wf mutation ->
     outcome (parse part mutation) m (appends (denote part) mutation m)) ->
  outcome (each_part alloc_ok fuel parse text mutation) m
    (appends (let '(l, e) := parts fuel text in spec_each denote l e) mutation m).
Proof.
  induction fuel as [|fuel IH]; intros text mutation m Hf Hw Hp; [lia|]. cbn [each_part parts].
  destruct (scan_part scan_zero text) as [[part next] s] eqn:Es. apply scan_part_length in Es.
  destruct (negb (quote s =? 0) && quote_strict s); [apply outcome_ret, appends_failed; auto|].
  destruct (negb (brace_depth s =? 0)%nat); [apply outcome_ret, appends_failed; auto|].
  assert (forall mutation m, mutation_wf mutation ->
    outcome (match next with
      | None => mret (Some (None, mutation))
      | Some text => each_part alloc_ok fuel parse text mutation
      end) m (appends (let '(l, e) := match next with None => ([], None) | Some text => parts fuel text end in
        spec_each denote l e) mutation m)) as Hnext.
  { intros mu m1 Hw1. destruct next as [t|].
    - apply IH; [lia|done|]. intros p mu' m' HL. apply Hp. lia.
    - apply outcome_ret. split; [lia|]. exists None, mu. split_and!; [done|done|lia|]. exists []. by rewrite app_nil_r. }
  destruct (match next with None => ([], None) | Some text => parts fuel text end) as [rest e].
  pose proof (mutation_trim_length part). destruct (mutation_trim part) as [|c p] eqn:Ep; [by apply Hnext|].
  cbn [spec_each]. apply outcome_bind, outcome_alloc; intros Ha; cbn [negb].
  2:{ apply outcome_ret, appends_failed; cbn [requests live]; [done|lia|done|]. right. split; [done|].
      by apply refused_now; [|lia]. }
  apply outcome_bind. eapply outcome_mono; [apply Hp; [lia|done]|].
  intros r m1 (Hr & status & mutation' & -> & Hw' & Hl & Hs). cbn [requests live] in *.
  apply outcome_bind, outcome_destroy. destruct status as [f|].
  - apply outcome_ret. split; [cbn [requests]; lia|]. exists (Some f), mutation'. cbn [live].
    split_and!; [done|done|lia|]. destruct Hs as [->|[-> (k & Hk & Hfk)]]; [by left|]. right. split; [done|].
    exists k. cbn [requests] in *. split; [lia|done].
  - destruct Hs as (l & Hl1 & Hl2). eapply outcome_mono; [by apply Hnext|]. intros r' m' H'.
    eapply appends_trans; [| |exact Hl2|exact Hl1|exact H']; cbn [requests live]; lia.
Qed.

(** The parts of a group are parsed into a child and moved below the prefix. *)
Lemma parse_child_outcome parse denote prefix part mutation m :
  prefix <> [] -> mutation_wf mutation ->
  (forall mutation m, mutation_wf mutation -> outcome (parse part mutation) m (appends (denote part) mutation m)) ->
  outcome (parse_child alloc_ok parse prefix part mutation) m
    (appends (sum_bind (denote part) (fun l => inr (map (below prefix) l))) mutation m).
Proof.
  intros Hp Hw Hparse. unfold parse_child. apply outcome_bind.
  eapply outcome_mono; [apply (Hparse (mk_mutation [] 0)); done|].
  intros r m1 (Hr1 & status & child & -> & Hwc & Hl1 & Hs). change (mutation_blocks (mk_mutation [] 0)) with 0 in Hl1.
  unfold mutation_blocks in Hl1. apply outcome_bind. destruct status as [f|].
  - apply outcome_ret. apply outcome_bind, cleanup_actions_outcome, outcome_bind, outcome_destroy, outcome_ret.
    cbn [requests live]. apply appends_failed; cbn [requests live]; [done|lia| |].
    + unfold slots in Hl1. destruct (capacity child =? 0)%nat; cbn [negb]; lia.
    + destruct Hs as [->|[-> (k & Hk & Hf)]]; [by left|]. right. split; [done|]. exists k. cbn [requests]. auto.
  - destruct Hs as (l & -> & Hcl). cbn [app] in Hcl.
    apply move_children_outcome; [done|done|]. intros e rest mutation' m2 Hr2 Hw2 Hl2 He.
    apply outcome_bind, cleanup_actions_outcome, outcome_bind, outcome_destroy, outcome_ret. cbn [requests live].
    split; [cbn [requests]; lia|]. exists e, mutation'. split; [done|]. split; [done|]. cbn [live]. split.
    + unfold slots in Hl1. destruct (capacity child =? 0)%nat; cbn [negb]; lia.
    + destruct e as [e|].
      * destruct He as [-> (k & Hk & Hf)]. right. split; [done|]. exists k. cbn [requests]. split; [lia|done].
      * destruct He as [-> He]. rewrite Hcl in He. by exists (map (below prefix) l).
Qed.

Lemma spec_each_below denote prefix l e :
  spec_each (fun part => sum_bind (denote part) (fun l => inr (map (below prefix) l))) l e =
  sum_bind (spec_each denote l e) (fun l => inr (map (below prefix) l)).
Proof.
  induction l as [|part l IH]; cbn [spec_each].
  - by destruct e.
  - destruct (denote part) as [f|a]; cbn [sum_bind]; [done|]. rewrite IH.
    destruct (spec_each denote l e) as [f|b]; cbn [sum_bind]; [done|]. by rewrite map_app.
Qed.

Lemma find_brace_loop_length cursor : forall before path rest,
  find_brace_loop cursor before = Some (path, rest) -> (length rest < length cursor)%nat.
Proof.
  induction cursor as [|c cursor IH]; intros before path rest; cbn [find_brace_loop]; [done|].
  destruct (c =? ch_eq); [done|]. destruct (_ && _).
  - destruct before; [done|]. intros [= _ <-]. cbn. lia.
  - intros H%IH. cbn. lia.
Qed.

Lemma removelast_length {A} (l : list A) : (length (removelast l) <= length l)%nat.
Proof.
  induction l as [|a l IH]; [done|]. destruct l as [|b l]; cbn [removelast length] in *; lia.
Qed.

Lemma find_brace_length text path content :
  mutation_find_brace text = Some (path, content) -> (length content < length text)%nat.
Proof.
  unfold mutation_find_brace. case_match; [done|].
  intros ([p r] & Hb%find_brace_loop_length & [= _ <-])%bind_Some. pose proof (removelast_length r). lia.
Qed.

Lemma parse_expression_outcome fuel : forall raw mutation m,
  (length raw < fuel)%nat -> mutation_wf mutation ->
  outcome (mutation_parse_expression alloc_ok env fuel options raw mutation) m
    (appends (spec_expression env options fuel raw) mutation m).
Proof.
  induction fuel as [|fuel IH]; intros raw mutation m Hf Hw; [lia|].
  cbn [mutation_parse_expression spec_expression]. pose proof (mutation_trim_length raw) as Ht.
  destruct (mutation_find_brace (mutation_trim raw)) as [[path content]|] eqn:Eb.
  - pose proof (find_brace_length _ _ _ Eb) as Hb. apply outcome_bind.
    eapply outcome_mono; [apply parse_path_outcome|]. intros [f|prefix] m1 [Hr1 H1].
    + apply outcome_ret, appends_failed; [done|done|by destruct H1|]. destruct H1 as [_ [->|H1]]; auto.
    + destruct H1 as [Hs Hl1]. pose proof (spec_path_nonempty _ _ Hs) as Hne. rewrite Hs. cbn [sum_bind].
      unfold spec_parts. apply outcome_bind. eapply outcome_mono.
      { apply (each_part_outcome (parse_child alloc_ok (mutation_parse_expression alloc_ok env fuel options) prefix)
          (fun part => sum_bind (spec_expression env options fuel part) (fun l => inr (map (below prefix) l)))
          (S (length content)) content); [lia|done|].
        intros part mu m2 HL Hmu. apply parse_child_outcome; [done|done|]. intros mu' m3 Hmu'. apply IH; [lia|done]. }
      intros r m2 (Hr2 & status & mutation' & -> & Hw2 & Hl2 & Hst).
      apply outcome_bind, action_cleanup_outcome, outcome_ret. unfold set_action. rewrite path_action_blocks.
      split; [cbn [requests]; lia|]. exists status, mutation'. cbn [live]. split_and!; [done|done|lia|].
      destruct (parts _ _) as [l e]. rewrite spec_each_below in Hst. destruct status as [f|]; [|done].
      destruct Hst as [Hst|[-> (k & Hk & Hf')]]; [by left|]. right. split; [done|]. exists k. cbn [requests].
      split; [lia|done].
  - apply outcome_bind. eapply outcome_mono; [apply parse_one_outcome|]. intros [f|action] m1 [Hr1 H1].
    + apply outcome_ret, appends_failed; [done|done|by destruct H1|]. destruct H1 as [_ [->|H1]]; auto.
    + destruct H1 as [Hs Hl1]. rewrite Hs. cbn [sum_bind]. apply outcome_bind, append_outcome; [done| |].
      * intros mutation' m2 Hr2 Hw2 Ha Hl2. apply outcome_ret. split; [lia|]. exists None, mutation'.
        split_and!; [done|done|lia|]. by exists [action].
      * intros m2 Hr2 Hl2 (k & Hk & Hf'). apply outcome_bind, action_cleanup_outcome, outcome_ret.
        apply appends_failed; cbn [requests live]; [done|lia|lia|]. right. split; [done|]. exists k. cbn [requests].
        split; [lia|done].
Qed.

Lemma parse_list_outcome raw mutation m :
  mutation_wf mutation ->
  outcome (mutation_parse_expression_list alloc_ok env options raw mutation) m
    (appends (spec_list env options raw) mutation m).
Proof.
  intros Hw. unfold mutation_parse_expression_list, spec_list, spec_parts.
  apply each_part_outcome; [lia|done|]. intros part mu m1 HL Hmu. apply parse_expression_outcome; [lia|done].
Qed.

(** The blocks of a mutation that is returned, with itself. *)
Definition owned_mutation (mutation : lql_mutation) : Z := 1 + mutation_blocks mutation.

Definition parsed (spec : failure + list lql_mutation_action) (base : Z) (m : mem)
    (r : option (failure + lql_mutation)) (m' : mem) : Prop :=
  (requests m <= requests m')%nat /\ exists r', r = Some r' /\
    match r' with
    | inr mutation => spec = inr (actions mutation) /\ live m' = base + owned_mutation mutation
    | inl e => live m' = base /\ (spec = inl e \/ (e = no_memory /\ refused alloc_ok m m'))
    end.

Lemma parse_expressions_outcome base expressions : forall mutation m,
  mutation_wf mutation -> live m = base + owned_mutation mutation ->
  outcome (parse_expressions alloc_ok env options expressions mutation) m
    (parsed (sum_bind (spec_each (spec_list env options) expressions None) (fun l => inr (actions mutation ++ l))) base m).
Proof.
  unfold owned_mutation. induction expressions as [|expression expressions IH]; intros mutation m Hw Hl;
    cbn [parse_expressions spec_each].
  - apply outcome_ret. split; [lia|]. eexists. split; [done|]. cbn [sum_bind]. rewrite app_nil_r. auto.
  - apply outcome_bind. eapply outcome_mono; [by apply parse_list_outcome|].
    intros r m1 (Hr & status & mutation' & -> & Hw' & Hl1 & Hs). destruct status as [f|].
    + apply outcome_bind, destroy_actions_outcome, outcome_bind, outcome_destroy, outcome_ret.
      cbn [requests live]. split; [cbn [requests]; lia|]. eexists. split; [done|]. cbn [live]. split; [lia|].
      destruct Hs as [->|[-> (k & Hk & Hf)]]; [by left|]. right. split; [done|]. exists k. cbn [requests]. auto.
    + destruct Hs as (l & -> & Ha). cbn [sum_bind]. eapply outcome_mono; [apply IH; [done|lia]|].
      intros r' m' (Hr' & r'' & -> & H). split; [lia|]. exists r''. split; [done|]. rewrite Ha in H.
      destruct (spec_each _ expressions None) as [e|l2]; cbn [sum_bind] in *.
      * destruct r''; [|by destruct H]. destruct H as [Hl' [H|[-> (k & Hk & Hf)]]]; (split; [done|]); [by left|].
        right. split; [done|]. exists k. split; [lia|done].
      * rewrite <- app_assoc in H. destruct r''; [|done]. destruct H as [Hl' [H|[-> (k & Hk & Hf)]]]; [done|].
        split; [done|]. right. split; [done|]. exists k. split; [lia|done].
Qed.

Lemma parse_mutation_outcome expressions m :
  expressions <> [] ->
  outcome (lql_mutation_parse_internal_with_options alloc_ok env true (Some (map Some expressions))
      (length expressions) options true) m
    (parsed (mutation_spec env options expressions) (live m) m).
Proof.
  intros Hne. unfold lql_mutation_parse_internal_with_options, mutation_spec. rewrite bool_decide_eq_false_2 by done.
  assert ((length expressions =? 0)%nat = false) as -> by (by destruct expressions). cbn [negb orb andb default id].
  assert (mapM id (map Some expressions) = Some expressions) as ->.
  { clear. induction expressions as [|x l IH]; [done|]. cbn. by rewrite IH. }
  apply outcome_bind, outcome_alloc; intros Ha; cbn [negb].
  2:{ apply outcome_ret. split; [cbn; lia|]. eexists. split; [done|]. split; [done|]. right. split; [done|].
      by apply refused_now; [|lia]. }
  apply outcome_bind. eapply outcome_mono.
  { apply (parse_expressions_outcome (live m)); [done|]. change (owned_mutation (mk_mutation [] 0)) with 1. cbn [live]. lia. }
  intros r m1 (Hr & r' & -> & H). cbn [requests] in Hr. cbn [actions app] in H.
  destruct (spec_each _ _ _) as [e|l]; cbn [sum_bind] in *; destruct r' as [e'|mutation].
  - apply outcome_ret. split; [lia|]. eexists. split; [done|]. cbn [sum_bind].
    destruct H as [Hl [H|[-> (k & Hk & Hf)]]]; (split; [done|]); [by left|]. right. split; [done|].
    exists k. cbn [requests] in Hk. split; [lia|done].
  - by destruct H.
  - apply outcome_ret. split; [lia|]. eexists. split; [done|].
    destruct H as [Hl [H|[-> (k & Hk & Hf)]]]; [done|]. split; [done|]. right. split; [done|].
    exists k. cbn [requests] in Hk. split; [lia|done].
  - destruct H as [[= ->] Hl]. destruct (actions mutation) as [|a l] eqn:El.
    + apply outcome_bind, destroy_actions_outcome, outcome_bind, outcome_destroy, outcome_ret. cbn [requests live].
      split; [cbn [requests]; lia|]. eexists. split; [done|]. unfold owned_mutation in Hl. cbn [live].
      split; [lia|by left].
    + apply outcome_ret. split; [lia|]. eexists. split; [done|]. cbn beta iota. by rewrite ?El.
Qed.
End refine.

(** ** The property *)

(** C19. Under every pattern of allocation failures parsing a mutation ends, and
    either returns the actions its expressions denote, or the failure they denote, or
    out of memory after a request was refused; a failure leaves no block live, and a
    mutation holds exactly its own blocks, all of which
    [lql_mutation_destroy_internal] releases. *)
Theorem mutation_parse_refines alloc_ok env options expressions m :
  expressions <> [] ->
  let '(r, m') := lql_mutation_parse_internal_with_options alloc_ok env true (Some (map Some expressions))
    (length expressions) options true m in
  exists r', r = Some r' /\
  match r' with
  | inr mutation =>
      mutation_spec env options expressions = inr (actions mutation) /\
      live m' = live m + owned_mutation mutation /\
      live (snd (lql_mutation_destroy_internal mutation m')) = live m
  | inl e =>
      live m' = live m /\
      (mutation_spec env options expressions = inl e \/
       (e = (LQL_STATUS_NO_MEMORY, "out of memory"%string) /\ exists k, alloc_ok k = false))
  end.
Proof.
  intros Hne. pose proof (parse_mutation_outcome alloc_ok env options expressions m Hne) as H. unfold outcome in H.
  destruct (lql_mutation_parse_internal_with_options _ _ _ _ _ _ _ m) as [r m'].
  destruct H as (_ & r' & -> & H). exists r'. split; [done|]. destruct r' as [e|mutation].
  - destruct H as [Hl [H|[-> (k & _ & Hk)]]]; (split; [done|]); [by left|]. right. split; [done|by exists k].
  - destruct H as [Hs Hl]. split_and!; [done..|].
    assert (outcome (lql_mutation_destroy_internal mutation) m' (fun _ m2 => live m2 = live m)) as K.
    { apply outcome_bind, destroy_actions_outcome, outcome_destroy. unfold owned_mutation in Hl. cbn [live]. lia. }
    unfold outcome in K. by destruct (lql_mutation_destroy_internal mutation m').
Qed.

Definition sample_env : mutation_env := mk_mutation_env (Some (bs "/home/me")) 1700000000.

Definition sample_mutation : list bytes :=
  [bs " /user{/name='A, B', /tags[]/x=1.5 } "; bs "rm:/a~1b"; bs "/count++"].

(** The fourteenth request is refused. *)
Lemma mutation_parse_refines_witness :
  live (snd (lql_mutation_parse_internal_with_options (fun k => negb (k =? 14)%nat) sample_env true
    (Some (map Some sample_mutation)) 3 None true (mk_mem 0 40))) = 40.
Proof.
  pose proof (mutation_parse_refines (fun k => negb (k =? 14)%nat) sample_env None sample_mutation (mk_mem 0 40)
    ltac:(discriminate)) as H.
  destruct (lql_mutation_parse_internal_with_options _ _ _ _ _ _ _ _) as [r m'] eqn:E in H.
  vm_compute in E. injection E as <- <-. destruct H as (r' & [= <-] & H & _). vm_compute in H. exact H.
Defined.
