(* ===== verification/MutationText.v ===== *)
(** * Mutation expressions: types and texts

    The number scanner of src/lql_direct_actions.c is the grammar of JSON numbers, the
    actions of a parsed mutation are well typed, and a list of plain actions written
    as lines of text is read back. *)

From S2P Require Import Prelude.
From S2P Require Import Number.
From S2P Require Import NumberSpec.
From S2P Require Import NumberFloat.
From S2P Require Import Temporal.
From S2P Require Import Errors.
From S2P Require Import Projection.
From S2P Require Import ProjectionProps.
From S2P Require Import SelectorLex.
From S2P Require Import Mutation.
From S2P Require Import MutationProps.

(** ** Numbers *)

(** What follows the digits of a part of a number. *)
Definition no_digit (t : bytes) : Prop := match t with c :: _ => is_digit c = false | [] => True end.

Lemma skip_digits_block ds t : all_digits ds -> no_digit t -> skip_digits (ds ++ t) = t.
Proof. intros Hd Ht. unfold skip_digits, drop_while. by rewrite span_block. Qed.

Lemma skip_digits_split t : exists ds, t = ds ++ skip_digits t /\ all_digits ds.
Proof. apply drop_while_app. Qed.

Lemma skip_digits_cons d t : is_digit d = true -> skip_digits (d :: t) = skip_digits t.
Proof. intros H. unfold skip_digits, drop_while. cbn [span]. rewrite H. by destruct (span _ t). Qed.

Lemma digits_cons d t : is_digit d = true ->
  exists ds, d :: t = ds ++ skip_digits t /\ ds <> [] /\ all_digits ds.
Proof.
  intros Hd. destruct (skip_digits_split t) as (ds & E & Hds). exists (d :: ds).
  split; [cbn; by rewrite <- E|]. split; [done|by constructor].
Qed.

Lemma fraction_end_split t r : number_fraction_end t = Some r -> exists f fd, t = f ++ r /\ frac_text f fd.
Proof.
  unfold number_fraction_end. destruct t as [|c t]; [intros [= <-]; exists [], []; split; [done|by left]|].
  destruct (Z.eqb_spec c ch_dot) as [->|]; [|intros [= <-]; exists [], []; split; [done|by left]].
  destruct t as [|d t]; [done|]. destruct (is_digit d) eqn:Hd; [|done]. intros [= <-].
  rewrite skip_digits_cons by done.
  destruct (digits_cons d t Hd) as (ds & E & Hn & Hds). exists (ch_dot :: ds), ds.
  split; [by rewrite E|]. right. auto.
Qed.

Lemma exponent_end_split t r : number_exponent_end t = Some r -> exists x v, t = x ++ r /\ exp_text x v.
Proof.
  unfold number_exponent_end. destruct t as [|c t]; [intros [= <-]; exists [], 0; split; [done|by left]|].
  destruct ((c =? ch_e) || (c =? ch_E)) eqn:Ec; [|intros [= <-]; exists [], 0; split; [done|by left]].
  apply orb_true_iff in Ec.
  assert (exists s t' neg, t = s ++ t' /\ ((s = [] \/ s = [ch_plus]) /\ neg = false \/ s = [ch_minus] /\ neg = true) /\
    match t with
    | s :: t' => if (s =? ch_plus) || (s =? ch_minus) then t' else t
    | [] => []
    end = t') as (s & t' & neg & -> & Hs & ->).
  { destruct t as [|s t']; [exists [], [], false; auto 9|].
    destruct (Z.eqb_spec s ch_plus) as [->|]; [exists [ch_plus], t', false; auto 9|].
    destruct (Z.eqb_spec s ch_minus) as [->|]; [exists [ch_minus], t', true; auto 9|].
    exists [], (s :: t'), false. auto 9. }
  destruct t' as [|d t']; [done|]. destruct (is_digit d) eqn:Hd; [|done]. intros [= <-].
  rewrite skip_digits_cons by done. destruct (digits_cons d t' Hd) as (ds & E & Hn & Hds).
  exists (c :: s ++ ds), (if neg then - digits_value ds else digits_value ds).
  rewrite E, <- app_comm_cons, <- app_assoc. split; [done|]. right. exists c, s, ds.
  split; [done|]. split; [by destruct Ec as [->%Z.eqb_eq| ->%Z.eqb_eq]; auto|]. split; [done|]. split; [done|].
  destruct Hs as [[Hs ->]|[-> ->]]; auto.
Qed.

Lemma fraction_end_text f fd t : frac_text f fd -> no_digit t -> (forall u, t <> ch_dot :: u) ->
  number_fraction_end (f ++ t) = Some t.
Proof.
  intros [[-> ->]|(-> & Hn & Hd)] Ht Hdot.
  - cbn [app]. unfold number_fraction_end. destruct t as [|c t]; [done|].
    destruct (Z.eqb_spec c ch_dot) as [->|]; [by destruct (Hdot t)|done].
  - destruct fd as [|d fd]; [done|]. inversion_clear Hd as [|?? Hd1 Hd2]. cbn [app].
    unfold number_fraction_end. rewrite Z.eqb_refl, Hd1. by rewrite skip_digits_cons, skip_digits_block.
Qed.

Lemma exponent_end_text x v : exp_text x v -> number_exponent_end x = Some [].
Proof.
  intros [[-> _]|(c & s & ed & -> & Hc & Hn & Hd & Hs)]; [done|]. unfold number_exponent_end.
  assert ((c =? ch_e) || (c =? ch_E) = true) as -> by (by destruct Hc as [-> | ->]).
  destruct ed as [|d ed]; [done|]. inversion_clear Hd as [|?? Hd1 Hd2].
  assert (forall u, u = d :: ed -> match u with d :: _ => if is_digit d then Some (skip_digits u) else None
    | [] => None end = Some []) as K.
  { intros u ->. rewrite Hd1, skip_digits_cons, <- (app_nil_r ed), skip_digits_block; done. }
  destruct Hs as [[[-> | ->] _]|[-> _]]; [|apply K; done..]. cbn [app]. apply K.
  apply is_digit_spec in Hd1. by rewrite (proj2 (Z.eqb_neq d ch_plus)), (proj2 (Z.eqb_neq d ch_minus)) by lia.
Qed.

Lemma exp_head x v : exp_text x v -> no_digit x /\ forall u, x <> ch_dot :: u.
Proof. intros [[-> _]|(c & s & ed & -> & [-> | ->] & _)]; done. Qed.

Lemma frac_exp_head f fd x v : frac_text f fd -> exp_text x v -> no_digit (f ++ x).
Proof. intros [[-> _]|(-> & _)] Hx; [by apply (exp_head x v)|done]. Qed.

(** [mutation_json_number] accepts exactly the numbers of the JSON grammar. *)
Lemma mutation_number_iff text : mutation_json_number text = true <-> exists m e, json_number text m e.
Proof.
  unfold mutation_json_number. split.
  - assert (exists (neg : bool) t, text = (if neg then [ch_minus] else []) ++ t /\
      match text with c :: t => if c =? ch_minus then t else text | [] => [] end = t) as (neg & t & -> & ->).
    { destruct text as [|c t]; [by exists false, []|]. destruct (Z.eqb_spec c ch_minus) as [->|].
      - by exists true, t.
      - by exists false, (c :: t). }
    destruct t as [|c t]; [done|]. intros H.
    assert (exists i r, c :: t = i ++ r /\ int_text i /\ (number_fraction_end r ≫= number_exponent_end) = Some [])
      as (i & r & -> & Hi & Hr).
    { destruct (Z.eqb_spec c ch_0) as [->|].
      - exists [ch_0], t. split; [done|]. split; [split; [by repeat constructor|done]|]. cbn [mbind option_bind] in H.
        destruct (number_fraction_end t) as [r|]; cbn [mbind option_bind] in *; [|done].
        by destruct (number_exponent_end r) as [[]|].
      - destruct ((ch_1 <=? c) && (c <=? ch_9)) eqn:Ec; [|done]. cbn [mbind option_bind] in H.
        assert (is_digit c = true) as Hc by (apply is_digit_spec; bool_hyps; lia).
        destruct (digits_cons c t Hc) as (ds & E & Hn & Hds). exists ds, (skip_digits t). split; [done|]. split.
        + split; [done|]. destruct ds as [|d [|d' ds]]; [done|done|]. injection E as <- _. bool_hyps. lia.
        + destruct (number_fraction_end (skip_digits t)) as [r|]; cbn [mbind option_bind] in *; [|done].
          by destruct (number_exponent_end r) as [[]|]. }
    apply bind_Some in Hr as (r' & (f & fd & -> & Hf)%fraction_end_split & (x & v & -> & Hx)%exponent_end_split).
    rewrite app_nil_r. eexists _, _, neg, i, f, fd, x, v. split_and!; [done..|reflexivity|reflexivity].
  - intros (m & e & neg & i & f & fd & x & v & -> & [Hi Hc] & Hf & Hx & _). destruct i as [|c i]; [done|].
    inversion_clear Hi as [|?? Hc1 Hi1]. pose proof (proj1 (is_digit_spec c) Hc1) as Hr.
    assert (match (if neg then [ch_minus] else []) ++ (c :: i) ++ f ++ x with
      | c0 :: t => if c0 =? ch_minus then t else (if neg then [ch_minus] else []) ++ (c :: i) ++ f ++ x
      | [] => [] end = c :: i ++ f ++ x) as E.
    { destruct neg; cbn [app]; [done|]. by rewrite (proj2 (Z.eqb_neq c ch_minus)) by lia. }
    destruct ((if neg then [ch_minus] else []) ++ (c :: i) ++ f ++ x) as [|c0 t] eqn:Et.
    { by destruct neg. }
    rewrite E.
    assert ((if c =? ch_0 then Some (i ++ f ++ x)
      else if (ch_1 <=? c) && (c <=? ch_9) then Some (skip_digits (i ++ f ++ x)) else None) = Some (f ++ x)) as ->.
    { destruct (Z.eqb_spec c ch_0) as [->|].
      - by destruct i; [|by destruct Hc].
      - rewrite (proj2 (Z.leb_le _ _)), (proj2 (Z.leb_le _ _)) by lia. cbn [andb].
        by rewrite skip_digits_block by (eauto using frac_exp_head). }
    cbn [mbind option_bind]. destruct (exp_head x v Hx) as [H1 H2].
    rewrite (fraction_end_text f fd x) by done. cbn [mbind option_bind]. by rewrite (exponent_end_text x v).
Qed.

(** ** Types *)

(** A value of a kind that is text. *)
Definition value_typed (kind : lql_mutation_value_kind) (v : bytes) : Prop :=
  match kind with
  | LQL_MUTATION_VALUE_STRING => True
  | LQL_MUTATION_VALUE_NUMBER =>
      (exists m e, json_number v m e) /\ exists d, lql_number_parse_json v = Some d /\ lql_number_finite d = true
  | LQL_MUTATION_VALUE_BOOL => v = bs "true" \/ v = bs "false"
  | LQL_MUTATION_VALUE_NULL => v = bs "null"
  | _ => False
  end.

Definition is_zero (d : spec_float) : bool := match d with S754_zero _ => true | _ => false end.

(** A path, and of the kind of the action: a typed value, a path of a file, a delta. *)
Definition action_typed (options : option lql_mutation_parse_options) (a : lql_mutation_action) : Prop :=
  segments a <> [] /\
  match action_kind a with
  | LQL_MUTATION_SET => exists v, action_value a = Some v /\ is_zero (delta a) = true /\
      (value_typed (action_value_kind a) v /\ file_callbacks a = false \/
       action_value_kind a ∈ [LQL_MUTATION_VALUE_FILE_AUTO; LQL_MUTATION_VALUE_FILE_TEXT; LQL_MUTATION_VALUE_FILE_BASE64] /\
       v <> [] /\ exists o, options = Some o /\ enable_file_values o = true /\
         file_callbacks a = file_value_open o /\ file_value_close o = file_value_open o)
  | LQL_MUTATION_INCREMENT =>
      action_value a = None /\ file_callbacks a = false /\ lql_number_finite (delta a) = true /\ is_zero (delta a) = false
  | LQL_MUTATION_REMOVE => action_value a = None /\ file_callbacks a = false /\ is_zero (delta a) = true
  end.

Lemma value_of_text_typed text kind v : value_of_text text = inr (kind, v) -> value_typed kind v.
Proof.
  unfold value_of_text. destruct text as [|c t]; [by intros [= <- _]|].
  destruct (unquoted _); [by intros [= <- _]|].
  destruct (mutation_equal_ci _ (bs "true")); [intros [= <- <-]; by left|].
  destruct (mutation_equal_ci _ (bs "false")); [intros [= <- <-]; by right|].
  destruct (mutation_equal_ci _ (bs "null")); [by intros [= <- <-]|].
  destruct (mutation_numeric_candidate _); [|by intros [= <- _]].
  destruct (mutation_json_number (c :: t)) eqn:En; cbn [negb]; [|done].
  destruct (lql_number_parse_json (c :: t)) as [d|] eqn:Ed; [|done].
  destruct (mutation_finite d) eqn:Ef; [|done]. intros [= <- <-]. split; [by apply mutation_number_iff|eauto].
Qed.

Lemma sum_bind_inr {A B} (r : failure + A) (k : A -> failure + B) b :
  sum_bind r k = inr b -> exists a, r = inr a /\ k a = inr b.
Proof. destruct r as [e|a]; [done|]. eauto. Qed.

Section typed.
Context (env : mutation_env) (options : option lql_mutation_parse_options).

Lemma set_typed message text value_of a :
  (forall segs value a, segs <> [] -> value_of segs value = inr a -> action_typed options a) ->
  spec_set message text value_of = inr a -> action_typed options a.
Proof.
  unfold spec_set. intros Hv. destruct (split_equal text) as [[path value]|]; [|done].
  intros (segs & Hs & Ha)%sum_bind_inr. eapply Hv; [by eapply spec_path_nonempty|done].
Qed.

Lemma path_action_typed kind delta path a :
  spec_path_action kind delta path = inr a ->
  match kind with
  | LQL_MUTATION_SET => False
  | LQL_MUTATION_INCREMENT => lql_number_finite delta = true /\ is_zero delta = false
  | LQL_MUTATION_REMOVE => is_zero delta = true
  end -> action_typed options a.
Proof.
  intros (segs & Hs%spec_path_nonempty & [= <-])%sum_bind_inr H. split; [done|]. by destruct kind.
Qed.

Lemma time_set_typed text a : spec_time_set env options text = inr a -> action_typed options a.
Proof.
  unfold spec_time_set. destruct (removal_prefix text); [done|]. case_match; [done|]. apply set_typed.
  intros segs value a' Hs (v & _ & [= <-])%sum_bind_inr. split; [done|]. cbn.
  exists v. split_and!; [done|done|]. by left.
Qed.

Lemma file_path_nonempty text path : spec_file_path env options text = inr path -> path <> [].
Proof.
  unfold spec_file_path. destruct (default _ _) as [|c t]; [done|]. destruct ((c =? ch_tilde) && _).
  - destruct (home env) as [[|h l]|]; [done| |done]. by intros [= <-].
  - destruct (c =? ch_slash); [by intros [= <-]|].
    destruct (options ≫= file_value_base_dir) as [[|b l]|]; [done| |done]. by intros [= <-].
Qed.

Lemma file_set_typed kind text a :
  kind ∈ [LQL_MUTATION_VALUE_FILE_AUTO; LQL_MUTATION_VALUE_FILE_TEXT; LQL_MUTATION_VALUE_FILE_BASE64] ->
  spec_file_set env options kind text = inr a -> action_typed options a.
Proof.
  intros Hk. unfold spec_file_set. destruct options as [o|] eqn:Eo; [|done].
  destruct (enable_file_values o) eqn:Ee; cbn [negb]; [|done]. do 3 (case_match; [done|]). rewrite <- Eo.
  apply set_typed. intros segs value a' Hs. unfold spec_file_value.
  destruct (xorb _ _) eqn:Ex; [done|]. apply xorb_eq in Ex.
  destruct (file_value_open o) eqn:Eopen; intros (path & Hp & [= <-])%sum_bind_inr; (split; [done|]); cbn;
    exists path; (split_and!; [done|done|right]); (split; [done|]).
  - split; [|exists o; rewrite Eopen; auto]. unfold spec_opaque_path in Hp.
    destruct (default _ _); [done|]. by injection Hp as <-.
  - split; [by eapply file_path_nonempty|exists o; rewrite Eopen; auto].
Qed.

Lemma assignment_typed text a : spec_assignment text = inr a -> action_typed options a.
Proof.
  apply set_typed. intros segs value a' Hs. unfold spec_assigned. case_match.
  - destruct (delta_of_text _) as [d|] eqn:Ed; [|done]. intros [= <-]. split; [done|]. cbn.
    unfold delta_of_text in Ed. destruct (lql_number_parse_json _) as [[| | |]|]; try done;
      (destruct (mutation_finite _) eqn:Ef; [|done]); by injection Ed as <-.
  - intros ([kind v] & Hv%value_of_text_typed & [= <-])%sum_bind_inr. split; [done|]. cbn.
    exists v. split_and!; [done|done|]. by left.
Qed.

Lemma one_typed raw a : spec_one env options raw = inr a -> action_typed options a.
Proof.
  unfold spec_one. destruct (mutation_trim raw) as [|c t]; [done|].
  do 3 (case_match; [apply file_set_typed; by repeat constructor|]). case_match; [apply time_set_typed|].
  do 3 (case_match; [intros H'; by eapply path_action_typed|]).
  destruct (ends_twice ch_plus _); [intros H'; by eapply path_action_typed|].
  destruct (ends_twice ch_minus _); [intros H'; by eapply path_action_typed|apply assignment_typed].
Qed.

Lemma below_typed prefix a : action_typed options a -> action_typed options (below prefix a).
Proof. intros [Hs Ha]. split; [|done]. cbn. by destruct prefix. Qed.

Lemma each_typed denote l e r : (forall part r, denote part = inr r -> Forall (action_typed options) r) ->
  spec_each denote l e = inr r -> Forall (action_typed options) r.
Proof.
  intros Hd. revert r. induction l as [|part l IH]; intros r; cbn [spec_each].
  - destruct e; [done|]. intros [= <-]. constructor.
  - intros (a & Ha%Hd & (b & Hb%IH & [= <-])%sum_bind_inr)%sum_bind_inr. by apply list.Forall_app.
Qed.

Lemma expression_typed fuel : forall raw r, spec_expression env options fuel raw = inr r -> Forall (action_typed options) r.
Proof.
  induction fuel as [|fuel IH]; intros raw r; cbn [spec_expression]; [by intros [= <-]|].
  destruct (mutation_find_brace _) as [[path content]|].
  - intros (prefix & _ & (l & Hl & [= <-])%sum_bind_inr)%sum_bind_inr. unfold spec_parts in Hl.
    destruct (parts _ _) as [ps e]. apply each_typed in Hl; [|done]. apply List.Forall_map.
    eapply list.Forall_impl; [exact Hl|]. intros a. apply below_typed.
  - intros (a & Ha%one_typed & [= <-])%sum_bind_inr. by apply list.Forall_cons.
Qed.

Lemma mutation_spec_typed expressions r : mutation_spec env options expressions = inr r ->
  r <> [] /\ Forall (action_typed options) r.
Proof.
  unfold mutation_spec. intros (l & Hl & Hr)%sum_bind_inr. destruct l as [|a l]; [done|].
  injection Hr as <-. split; [done|]. eapply each_typed; [|exact Hl]. intros part r. unfold spec_list, spec_parts.
  destruct (parts _ _) as [ps e]. apply each_typed. intros. by eapply expression_typed.
Qed.
End typed.

(** C20. The actions of a parsed mutation are well typed, and there is at least one:
    each has a path; a set has a value that is a JSON number with a finite double,
    [true], [false], [null], a string, or the path of a file where file values are
    enabled, with the callbacks of the options; an increment has a finite delta that
    is not zero, and a removal has no value. *)
Theorem mutation_actions_typed alloc_ok env options expressions m mutation :
  expressions <> [] ->
  fst (lql_mutation_parse_internal_with_options alloc_ok env true (Some (map Some expressions))
    (length expressions) options true m) = Some (inr mutation) ->
  actions mutation <> [] /\ Forall (action_typed options) (actions mutation).
Proof.
  intros Hne. pose proof (parse_mutation_outcome alloc_ok env options expressions m Hne) as H. unfold outcome in H.
  destruct (lql_mutation_parse_internal_with_options _ _ _ _ _ _ _ m) as [r m'].
  destruct H as (_ & r' & -> & H). cbn [fst]. intros [= ->]. destruct H as [H _]. by eapply mutation_spec_typed.
Qed.

Definition sample_actions : list lql_mutation_action :=
  [mk_action LQL_MUTATION_SET [bs "user"; bs "name"] (Some (bs "A, B")) false LQL_MUTATION_VALUE_STRING (S754_zero false);
   mk_action LQL_MUTATION_SET [bs "user"; bs "tags"; bs "[]"; bs "x"] (Some (bs "1.5")) false
     LQL_MUTATION_VALUE_NUMBER (S754_zero false);
   path_action LQL_MUTATION_REMOVE (S754_zero false) [bs "a/b"];
   path_action LQL_MUTATION_INCREMENT double_one [bs "count"]].

Lemma mutation_actions_typed_witness : Forall (action_typed None) sample_actions.
Proof.
  apply (mutation_actions_typed (fun _ => true) sample_env None sample_mutation (mk_mem 0 0)
    (mk_mutation sample_actions 4)); [discriminate|]. vm_compute. reflexivity.
Defined.

(** ** Texts *)

(** Bytes of a path that no part of the parser treats as a separator. *)
Definition plain_path_byte (c : Z) : bool :=
  negb (mutation_space c) && negb (c =? ch_eq) && negb (c =? ch_comma) && negb (c =? ch_lbrace) &&
  negb (c =? ch_rbrace) && negb (c =? 0).

Definition plain_segment (seg : bytes) : Prop :=
  Forall (fun c => plain_path_byte c = true) seg /\ segment_suffixes seg = (seg, 0%nat).

Definition plain_path (segs : list bytes) : Prop := segs <> [] /\ segs <> [[]] /\ Forall plain_segment segs.

(** A value that can be written: a string without quotes and escapes, a number without
    a sign, which would make an increment. *)
Definition plain_value (kind : lql_mutation_value_kind) (v : bytes) : Prop :=
  match kind with
  | LQL_MUTATION_VALUE_STRING => Forall (fun c => c <> ch_quote /\ c <> ch_backslash /\ c <> 0) v
  | LQL_MUTATION_VALUE_NUMBER => value_typed kind v /\ match v with c :: _ => c <> ch_minus | [] => False end
  | _ => value_typed kind v
  end.

Inductive plain_action : lql_mutation_action -> Prop :=
  | plain_remove segs : plain_path segs -> plain_action (path_action LQL_MUTATION_REMOVE (S754_zero false) segs)
  | plain_plus segs : plain_path segs -> plain_action (path_action LQL_MUTATION_INCREMENT double_one segs)
  | plain_minus segs : plain_path segs -> plain_action (path_action LQL_MUTATION_INCREMENT double_minus_one segs)
  | plain_set segs kind v : plain_path segs -> plain_value kind v ->
      plain_action (mk_action LQL_MUTATION_SET segs (Some v) false kind (S754_zero false)).

Definition value_text (kind : lql_mutation_value_kind) (v : bytes) : bytes :=
  match kind with LQL_MUTATION_VALUE_STRING => ch_quote :: v ++ [ch_quote] | _ => v end.

Definition action_text (a : lql_mutation_action) : bytes :=
  match action_kind a with
  | LQL_MUTATION_REMOVE => bs "rm:" ++ pointer_text (segments a)
  | LQL_MUTATION_INCREMENT =>
      pointer_text (segments a) ++ match delta a with S754_finite true _ _ => bs "--" | _ => bs "++" end
  | LQL_MUTATION_SET =>
      pointer_text (segments a) ++ ch_eq :: value_text (action_value_kind a) (default [] (action_value a))
  end.

(** The actions as lines. *)
Fixpoint action_lines (l : list lql_mutation_action) : bytes :=
  match l with
  | [] => []
  | [a] => action_text a
  | a :: l => action_text a ++ ch_nl :: action_lines l
  end.

(** *** Ends *)

Lemma drop_while_kept {A} (p : A -> bool) c t : p c = false -> drop_while p (c :: t) = c :: t.
Proof. intros H. unfold drop_while. cbn [span]. by rewrite H. Qed.

Lemma mutation_trim_ends c t u d : c :: t = u ++ [d] -> mutation_space c = false -> mutation_space d = false ->
  mutation_trim (c :: t) = c :: t.
Proof.
  intros E Hc Hd. unfold mutation_trim. rewrite drop_while_kept by done.
  rewrite E, rev_app_distr. cbn [rev app]. rewrite drop_while_kept by done. cbn [rev]. by rewrite rev_involutive.
Qed.

Lemma ends_twice_other c u d : d <> c -> ends_twice c (u ++ [d]) = None.
Proof.
  intros H. unfold ends_twice. rewrite rev_app_distr. cbn [rev app]. destruct (rev u); [done|].
  by rewrite (proj2 (Z.eqb_neq d c)).
Qed.

Lemma ends_twice_same c u : ends_twice c (u ++ [c; c]) = Some u.
Proof. unfold ends_twice. rewrite rev_app_distr. cbn [rev app]. by rewrite Z.eqb_refl, rev_involutive. Qed.

Lemma last_snoc {A} (u : list A) d x : List.last (u ++ [d]) x = d.
Proof. apply List.last_last. Qed.

Lemma find_brace_other u d : d <> ch_rbrace -> mutation_find_brace (u ++ [d]) = None.
Proof.
  intros H. unfold mutation_find_brace. rewrite last_snoc, (proj2 (Z.eqb_neq d _)) by done. by rewrite orb_true_r.
Qed.

(** *** Paths *)


Lemma encode_plain seg : Forall (fun c => plain_path_byte c = true) seg ->
  Forall (fun c => plain_path_byte c = true) (encode_segment seg).
Proof.
  unfold encode_segment. induction 1 as [|c seg Hc Hs IH]; cbn [flat_map]; [constructor|].
  apply list.Forall_app. split; [|done]. repeat case_if; repeat constructor; done.
Qed.

Lemma pointer_plain segs : Forall plain_segment segs -> Forall (fun c => plain_path_byte c = true) (pointer_text segs).
Proof.
  unfold pointer_text. induction 1 as [|seg segs [Hs _] _ IH]; cbn [flat_map]; [constructor|].
  apply list.Forall_app. split; [|done]. constructor; [done|]. by apply encode_plain.
Qed.

Lemma pointer_cons segs : segs <> [] -> exists s, pointer_text segs = ch_slash :: s.
Proof. destruct segs as [|seg segs]; [done|]. intros _. unfold pointer_text. cbn [flat_map app]. eauto. Qed.

Lemma snoc_of {A} (l : list A) : l <> [] -> exists u d, l = u ++ [d].
Proof. intros H. destruct (exists_last H) as (u & d & ->). eauto. Qed.

Lemma plain_path_byte_spec c : plain_path_byte c = true ->
  mutation_space c = false /\ c <> ch_eq /\ c <> ch_comma /\ c <> ch_lbrace /\ c <> ch_rbrace /\ c <> ch_nl.
Proof. unfold plain_path_byte, mutation_space. intros H. bool_hyps. split_and!; lia. Qed.

Lemma plain_snoc l : Forall (fun c => plain_path_byte c = true) l -> l <> [] ->
  exists u d, l = u ++ [d] /\ plain_path_byte d = true.
Proof.
  intros Hl Hn. destruct (snoc_of l Hn) as (u & d & ->). exists u, d. split; [done|].
  apply list.Forall_app in Hl as [_ Hd]. by inversion_clear Hd.
Qed.

Lemma split_pointer seg segs : split_slash (encode_segment seg ++ pointer_text segs) = map encode_segment (seg :: segs).
Proof.
  unfold pointer_text. revert seg. induction segs as [|seg' segs IH]; intros seg; cbn [flat_map].
  - rewrite app_nil_r. by destruct (split_encoded seg []) as [_ ->].
  - cbn [app]. destruct (split_encoded seg (encode_segment seg' ++
      flat_map (fun s => ch_slash :: encode_segment s) segs)) as [-> _]. by rewrite IH.
Qed.

Lemma segments_of_encoded seg : plain_segment seg -> segments_of (encode_segment seg) = [seg].
Proof. intros [_ H]. unfold segments_of. by rewrite decode_encode, H. Qed.

Lemma spec_path_pointer segs : plain_path segs -> spec_path (pointer_text segs) = inr segs.
Proof.
  intros (Hn & Hr & Hp). pose proof (pointer_plain segs Hp) as Hb. unfold spec_path.
  destruct (pointer_cons segs Hn) as (s & E).
  destruct (plain_snoc (pointer_text segs) Hb) as (u & d & Eu & [Hd _]%plain_path_byte_spec); [by rewrite E|].
  assert (mutation_trim (pointer_text segs) = pointer_text segs) as ->.
  { rewrite E. apply (mutation_trim_ends _ _ u d); [by rewrite <- E|done|done]. }
  rewrite E. change (negb (ch_slash =? ch_slash)) with false. cbv iota.
  assert (s <> [] /\ flat_map segments_of (split_slash s) = segs) as [Hs Hf].
  { destruct segs as [|seg segs]; [done|]. unfold pointer_text in E. cbn [flat_map app] in E. injection E as <-.
    split.
    - destruct seg as [|c seg]; [destruct segs as [|seg' segs]; [done|by cbn]|].
      unfold encode_segment. cbn [flat_map]. by repeat case_if.
    - fold (pointer_text segs). rewrite split_pointer. clear -Hp. revert Hp. generalize (seg :: segs) as l. intros l Hp.
      induction Hp as [|g gs Hs _ IH]; [done|]. cbn [map flat_map]. by rewrite segments_of_encoded, IH. }
  destruct s as [|c s]; [done|]. by rewrite Hf.
Qed.

(** *** Values *)

(** Bytes of literals and numbers. *)
Definition literal_byte (c : Z) : bool :=
  is_digit c || (c =? ch_dot) || (c =? ch_plus) || (c =? ch_minus) || (97 <=? c) && (c <=? 122) || (c =? ch_E).

Lemma digits_literal ds : all_digits ds -> Forall (fun c => literal_byte c = true) ds.
Proof. intros H. eapply list.Forall_impl; [exact H|]. intros c Hc. unfold literal_byte. by rewrite Hc. Qed.

Lemma number_text v m e : json_number v m e -> Forall (fun c => literal_byte c = true) v /\
  exists u d, v = u ++ [d] /\ is_digit d = true.
Proof.
  intros (neg & i & f & fd & x & w & -> & [Hi Hc] & Hf & Hx & _). split.
  - apply list.Forall_app. split; [destruct neg; by repeat constructor|].
    apply list.Forall_app. split; [by apply digits_literal|]. apply list.Forall_app. split.
    + destruct Hf as [[-> _]|(-> & _ & Hf)]; [constructor|]. constructor; [done|by apply digits_literal].
    + destruct Hx as [[-> _]|(c & s & ed & -> & Hcc & _ & Hd & Hs)]; [constructor|].
      constructor; [by destruct Hcc as [-> | ->]|]. apply list.Forall_app. split; [|by apply digits_literal].
      destruct Hs as [[[-> | ->] _]|[-> _]]; by repeat constructor.
  - assert (forall a ds, all_digits ds -> ds <> [] -> exists u d, a ++ ds = u ++ [d] /\ is_digit d = true) as K.
    { intros a ds Hd Hn. destruct (snoc_of ds Hn) as (u & d & ->). exists (a ++ u), d. rewrite app_assoc.
      split; [done|]. apply list.Forall_app in Hd as [_ Hd]. by inversion_clear Hd. }
    rewrite !app_assoc. destruct Hx as [[-> _]|(c & s & ed & -> & _ & Hn & Hd & _)].
    + rewrite app_nil_r. destruct Hf as [[-> _]|(-> & Hn & Hd)].
      * rewrite app_nil_r. apply K; [done|]. by destruct i.
      * rewrite (app_assoc _ [ch_dot] fd : _ ++ ch_dot :: fd = _). by apply K.
    + rewrite app_comm_cons, app_assoc. by apply K.
Qed.

Lemma plain_value_text kind v : plain_value kind v -> exists c t u d, value_text kind v = c :: t /\ c :: t = u ++ [d] /\
  mutation_space c = false /\ mutation_space d = false /\ c <> ch_plus /\ c <> ch_minus /\ d <> ch_plus /\ d <> ch_minus /\
  d <> ch_rbrace /\ value_of_text (c :: t) = inr (kind, v).
Proof.
  destruct kind; cbn [plain_value value_text]; try done.
  - intros _. exists ch_quote, (v ++ [ch_quote]), (ch_quote :: v), ch_quote. split_and!; try done.
    unfold value_of_text, unquoted. rewrite app_comm_cons, last_snoc. cbn [app]. 
    change ((ch_quote =? ch_quote) || (ch_quote =? ch_apos)) with true.
    rewrite (proj2 (Nat.leb_le 2 _)) by (cbn; rewrite length_app; cbn; lia). rewrite Z.eqb_refl. cbn [andb].
    by rewrite List.removelast_last.
  - intros [[(m & e & Hj) (d & Hd & Hf)] Hm].
    destruct (number_text v m e Hj) as (_ & u & x & Ev & Hx). apply is_digit_spec in Hx.
    destruct v as [|c t]; [done|]. exists c, t, u, x.
    assert (is_digit c = true) as Hd1.
    { destruct Hj as (neg & i & f & fd & y & w & E & [Hi Hic] & _). destruct neg; [by injection E as ->|].
      destruct i as [|c' i]; [done|]. injection E as -> _. by inversion_clear Hi. }
    pose proof (proj1 (is_digit_spec c) Hd1) as Hr. unfold mutation_space.
    split_and!; try done; try lia.
    unfold value_of_text, unquoted. assert ((c =? ch_quote) || (c =? ch_apos) = false) as -> by lia. cbn [andb].
    assert (forall l, match l with x :: _ => 97 <= x | [] => False end -> mutation_equal_ci (c :: t) l = false) as Hci.
    { intros [|y l] Hy; [done|]. unfold mutation_equal_ci. apply bool_decide_eq_false_2. cbn [map]. intros [= E _].
      unfold ascii_lower_byte in E. repeat case_match; bool_hyps; lia. }
    rewrite !Hci by (cbn; lia). unfold mutation_numeric_candidate. rewrite Hd1, !orb_true_r. cbn [orb].
    rewrite (proj2 (mutation_number_iff (c :: t))) by eauto. cbn [negb]. rewrite Hd.
    unfold mutation_finite. by rewrite Hf.
  - intros [-> | ->].
    + exists 116, (bs "rue"), (bs "tru"), ch_e. split_and!; try reflexivity; done.
    + exists 102, (bs "alse"), (bs "fals"), ch_e. split_and!; try reflexivity; done.
  - intros ->. exists 110, (bs "ull"), (bs "nul"), 108. split_and!; try reflexivity; done.
Qed.

(** *** One line *)

Lemma plain_text a : plain_action a -> exists c t u d, action_text a = c :: t /\ c :: t = u ++ [d] /\
  mutation_space c = false /\ mutation_space d = false /\ d <> ch_rbrace.
Proof.
  intros H. destruct H as [segs Hp|segs Hp|segs Hp|segs kind v Hp Hv].
  - destruct Hp as (Hn & _ & Hb%pointer_plain). destruct (pointer_cons segs Hn) as (s & E).
    destruct (plain_snoc _ Hb) as (u & d & Eu & Hd%plain_path_byte_spec); [by rewrite E|].
    exists 114, (bs "m:" ++ pointer_text segs), (bs "rm:" ++ u), d. rewrite <- app_assoc, <- Eu. naive_solver.
  - destruct Hp as (Hn & _ & _). destruct (pointer_cons segs Hn) as (s & E).
    exists ch_slash, (s ++ bs "++"), (pointer_text segs ++ [ch_plus]), ch_plus.
    split; [unfold action_text; cbn [action_kind segments path_action delta]; rewrite E; reflexivity|].
    rewrite <- app_assoc, E. done.
  - destruct Hp as (Hn & _ & _). destruct (pointer_cons segs Hn) as (s & E).
    exists ch_slash, (s ++ bs "--"), (pointer_text segs ++ [ch_minus]), ch_minus.
    split; [unfold action_text; cbn [action_kind segments path_action delta]; rewrite E; reflexivity|].
    rewrite <- app_assoc, E. done.
  - destruct Hp as (Hn & _ & _). destruct (pointer_cons segs Hn) as (s & E).
    destruct (plain_value_text kind v Hv) as (c & t & u & d & Ev & Eu & _ & Hd & _ & _ & _ & _ & Hb & _).
    exists ch_slash, (s ++ ch_eq :: value_text kind v), (pointer_text segs ++ ch_eq :: u), d.
    change (action_text _) with (pointer_text segs ++ ch_eq :: value_text kind v).
    rewrite <- app_assoc, E, Ev, Eu. done.
Qed.

Lemma split_equal_at segs value : plain_path segs ->
  split_equal (pointer_text segs ++ ch_eq :: value) = Some (pointer_text segs, value).
Proof.
  intros (_ & _ & Hb%pointer_plain). unfold split_equal. rewrite span_block; [done| |done].
  eapply list.Forall_impl; [exact Hb|]. intros c Hc%plain_path_byte_spec. cbn beta.
  destruct (Z.eqb_spec c ch_eq); [naive_solver|done].
Qed.

Lemma spec_one_pointer env options s : mutation_trim (ch_slash :: s) = ch_slash :: s ->
  spec_one env options (ch_slash :: s) =
  match ends_twice ch_plus (ch_slash :: s), ends_twice ch_minus (ch_slash :: s) with
  | Some path, _ => spec_path_action LQL_MUTATION_INCREMENT double_one path
  | None, Some path => spec_path_action LQL_MUTATION_INCREMENT double_minus_one path
  | None, None => spec_assignment (ch_slash :: s)
  end.
Proof. intros E. unfold spec_one. rewrite E. reflexivity. Qed.

Lemma spec_one_text env options a : plain_action a -> spec_one env options (action_text a) = inr a.
Proof.
  intros Ha. destruct (plain_text a Ha) as (c0 & t0 & u0 & d0 & E0 & Eu0 & Hc0 & Hd0 & _).
  pose proof (mutation_trim_ends _ _ u0 d0 Eu0 Hc0 Hd0) as Ht. rewrite <- E0 in Ht. clear c0 t0 u0 d0 E0 Eu0 Hc0 Hd0.
  assert (forall segs rest, action_text a = pointer_text segs ++ rest -> segs <> [] ->
    spec_one env options (action_text a) =
    match ends_twice ch_plus (action_text a), ends_twice ch_minus (action_text a) with
    | Some path, _ => spec_path_action LQL_MUTATION_INCREMENT double_one path
    | None, Some path => spec_path_action LQL_MUTATION_INCREMENT double_minus_one path
    | None, None => spec_assignment (action_text a)
    end) as Hone.
  { intros segs rest E Hn. destruct (pointer_cons segs Hn) as (s & Es). rewrite E, Es in *. cbn [app] in *.
    by apply spec_one_pointer. }
  destruct Ha as [segs Hp|segs Hp|segs Hp|segs kind v Hp Hv].
  - unfold spec_one. rewrite Ht. change (spec_path_action LQL_MUTATION_REMOVE (S754_zero false) (pointer_text segs) =
      inr (path_action LQL_MUTATION_REMOVE (S754_zero false) segs)).
    unfold spec_path_action. by rewrite spec_path_pointer.
  - rewrite (Hone segs (bs "++")); [|done|by destruct Hp].
    change (action_text _) with (pointer_text segs ++ [ch_plus; ch_plus]). rewrite ends_twice_same.
    unfold spec_path_action. by rewrite spec_path_pointer.
  - rewrite (Hone segs (bs "--")); [|done|by destruct Hp].
    change (action_text _) with (pointer_text segs ++ [ch_minus] ++ [ch_minus]). rewrite app_assoc, ends_twice_other by done.
    rewrite <- app_assoc. cbn [app]. rewrite ends_twice_same. unfold spec_path_action. by rewrite spec_path_pointer.
  - change (action_text _) with (pointer_text segs ++ ch_eq :: value_text kind v) in *.
    destruct (plain_value_text kind v Hv) as (c & t & u & d & Ev & Eu & Hc & Hd & Hc1 & Hc2 & Hd1 & Hd2 & _ & Hval).
    rewrite (Hone segs (ch_eq :: value_text kind v)); [|done|by destruct Hp]. clear Hone Ht. 
    assert (pointer_text segs ++ ch_eq :: value_text kind v = (pointer_text segs ++ ch_eq :: u) ++ [d]) as E.
    { rewrite <- app_assoc, Ev, Eu. done. }
    rewrite E, !ends_twice_other by done. rewrite <- E. unfold spec_assignment, spec_set.
    rewrite split_equal_at by done. cbn [sum_bind]. rewrite spec_path_pointer by done. cbn [sum_bind].
    unfold spec_assigned. rewrite Ev, (mutation_trim_ends c t u d), (mutation_trim_ends c t u d) by done.
    rewrite (proj2 (Z.eqb_neq c ch_plus)), (proj2 (Z.eqb_neq c ch_minus)) by done. cbn [orb].
    rewrite Hval. done.
Qed.

(** *** Lines

    The scan for the end of an expression goes over [x] from [s] to [s']. *)

Definition runs (s : part_scan) (x : bytes) (s' : part_scan) : Prop :=
  forall rest, scan_part s (x ++ rest) = let '(part, next, e) := scan_part s' rest in (x ++ part, next, e).

Lemma runs_nil s : runs s [] s.
Proof. intros rest. cbn [app]. by destruct (scan_part s rest) as [[? ?] ?]. Qed.

Lemma runs_app s x s' y s'' : runs s x s' -> runs s' y s'' -> runs s (x ++ y) s''.
Proof.
  intros H1 H2 rest. rewrite <- app_assoc, H1, H2. destruct (scan_part s'' rest) as [[? ?] ?]. by rewrite app_assoc.
Qed.

Lemma runs_byte s c s' : quote s = 0 -> (forall rest, scan_byte s c rest = Some s') -> runs s [c] s'.
Proof. intros Hq H rest. cbn [app scan_part]. rewrite Hq. cbn [Z.eqb negb]. by rewrite H. Qed.

Lemma runs_all (P : Z -> Prop) s x : (forall c, P c -> runs s [c] s) -> Forall P x -> runs s x s.
Proof.
  intros Hs. induction 1 as [|c x Hc _ IH]; [apply runs_nil|]. apply (runs_app s [c] s x s); auto.
Qed.

(** A state in which the text may end, or a line. *)
Definition at_end (s : part_scan) : Prop :=
  quote s = 0 /\ brace_depth s = 0%nat /\ forall rest, scan_byte s ch_nl rest = None.

Lemma runs_path x : Forall (fun c => plain_path_byte c = true) x -> runs scan_zero x scan_zero.
Proof.
  apply runs_all. intros c Hc. apply runs_byte; [done|]. intros rest. unfold scan_byte.
  cbn [brace_depth scan_zero Nat.eqb negb in_value andb bracket_depth].
  apply plain_path_byte_spec in Hc as (_ & H1 & H2 & H3 & H4 & H5).
  apply Z.eqb_neq in H1, H2, H3, H4, H5. rewrite H1, H2, H3, H4, H5. cbn [andb orb]. by rewrite !andb_false_r.
Qed.

Definition value_state (started : bool) : part_scan := mk_scan 0 false true started 0 0.
Definition quoted_state (q : Z) : part_scan := mk_scan q true true true 0 0.

Lemma literal_byte_spec c : literal_byte c = true ->
  mutation_space c = false /\ c <> ch_eq /\ c <> ch_comma /\ c <> ch_lbrace /\ c <> ch_rbrace /\ c <> ch_nl /\
  c <> ch_quote /\ c <> ch_apos /\ c <> ch_lbracket /\ c <> ch_rbracket.
Proof. unfold literal_byte, is_digit, mutation_space. intros H. split_and!; lia. Qed.

Lemma runs_literal_byte started c : literal_byte c = true -> runs (value_state started) [c] (value_state true).
Proof.
  intros (Hs & H1 & H2 & H3 & H4 & H5 & H6 & H7 & H8 & H9)%literal_byte_spec. apply runs_byte; [done|].
  intros rest. unfold scan_byte. cbn [brace_depth value_state Nat.eqb negb in_value andb bracket_depth value_started].
  apply Z.eqb_neq in H2, H3, H4, H5, H6, H7, H8, H9. rewrite Hs, ?H2, ?H3, ?H4, ?H5, ?H6, ?H7, ?H8, ?H9.
  cbn [andb orb]. rewrite !andb_false_r. by destruct started.
Qed.

Lemma runs_value kind v : plain_value kind v ->
  exists s, runs (value_state false) (value_text kind v) s /\ at_end s.
Proof.
  intros Hv. destruct (decide (kind = LQL_MUTATION_VALUE_STRING)) as [->|Hk].
  - exists (quoted_state 0). unfold value_text. split; [|done].
    apply (runs_app _ [ch_quote] (quoted_state ch_quote)); [|apply (runs_app _ v (quoted_state ch_quote) [ch_quote])].
    + apply runs_byte; [done|]. intros rest. reflexivity.
    + cbn [plain_value] in Hv. revert Hv. apply runs_all. intros c (Hq & Hb & _) rest. cbn [app scan_part quoted_state quote].
      change (negb (ch_quote =? 0)) with true. cbv iota. apply Z.eqb_neq in Hq, Hb. by rewrite Hb, Hq.
    + intros rest. reflexivity.
  - assert (value_text kind v = v) as -> by (by destruct kind).
    assert (Forall (fun c => literal_byte c = true) v /\ v <> []) as [Hl Hn].
    { destruct kind; cbn [plain_value value_typed] in Hv; try done.
      - destruct Hv as [[(m & e & Hj) _] Hm]. split; [by destruct (number_text v m e Hj)|by destruct v].
      - destruct Hv as [-> | ->]; split; try done; by repeat constructor.
      - subst v. split; [by repeat constructor|done]. }
    exists (value_state true). split; [|done]. destruct Hl as [|c v Hc Hl]; [done|].
    apply (runs_app _ [c] (value_state true) v); [by apply runs_literal_byte|].
    revert Hl. apply runs_all. intros d. apply runs_literal_byte.
Qed.

Lemma runs_action a : plain_action a -> exists s, runs scan_zero (action_text a) s /\ at_end s.
Proof.
  destruct 1 as [segs Hp|segs Hp|segs Hp|segs kind v Hp Hv]; pose proof Hp as (_ & _ & Hb%pointer_plain).
  1-3: exists scan_zero; split; [apply runs_path|done].
  - change (action_text _) with (bs "rm:" ++ pointer_text segs). apply list.Forall_app.
    split; [by repeat constructor|done].
  - change (action_text _) with (pointer_text segs ++ bs "++"). apply list.Forall_app.
    split; [done|by repeat constructor].
  - change (action_text _) with (pointer_text segs ++ bs "--"). apply list.Forall_app.
    split; [done|by repeat constructor].
  - destruct (runs_value kind v Hv) as (s & Hs & He). exists s. split; [|done].
    change (action_text _) with (pointer_text segs ++ [ch_eq] ++ value_text kind v).
    apply (runs_app _ _ scan_zero); [by apply runs_path|]. apply (runs_app _ _ (value_state false)); [|done].
    apply runs_byte; [done|]. intros rest. reflexivity.
Qed.

Lemma parts_lines l : Forall plain_action l -> l <> [] ->
  forall fuel, (length l <= fuel)%nat -> parts fuel (action_lines l) = (map action_text l, None).
Proof.
  induction 1 as [|a l Ha Hl IH]; [done|]. intros _ fuel Hf. destruct fuel as [|fuel]; [cbn in Hf; lia|].
  destruct (runs_action a Ha) as (s & Hr & Hq & Hb & Hnl).
  destruct (plain_text a Ha) as (c & t & u & d & E & Eu & Hc & Hd & _).
  pose proof (mutation_trim_ends _ _ u d Eu Hc Hd) as Ht. rewrite <- E in Ht.
  cbn [parts map]. destruct l as [|b l].
  - cbn [action_lines]. specialize (Hr []). rewrite app_nil_r in Hr. rewrite Hr. cbn [scan_part]. rewrite app_nil_r.
    rewrite Hq, Hb. cbn [Z.eqb Nat.eqb negb andb]. rewrite Ht, E. done.
  - change (action_lines (a :: b :: l)) with (action_text a ++ ch_nl :: action_lines (b :: l)).
    rewrite Hr. cbn [scan_part]. rewrite Hq. cbn [Z.eqb negb]. rewrite Hnl, app_nil_r.
    change (quote scan_zero =? 0) with true. change (brace_depth scan_zero =? 0)%nat with true. cbn [negb andb].
    rewrite IH by (try done; cbn in *; lia). by rewrite Ht, E.
Qed.

Lemma action_lines_ends l : Forall plain_action l -> l <> [] -> mutation_trim (action_lines l) = action_lines l.
Proof.
  intros Hl Hn.
  assert (forall l, Forall plain_action l -> l <> [] -> exists c t u d, action_lines l = c :: t /\ c :: t = u ++ [d] /\
    mutation_space c = false /\ mutation_space d = false) as K.
  { clear. induction 1 as [|a l Ha Hl IH]; [done|]. intros _.
    destruct (plain_text a Ha) as (c & t & u & d & E & Eu & Hc & Hd & _). destruct l as [|b l]; [by exists c, t, u, d|].
    destruct IH as (c2 & t2 & u2 & d2 & E2 & Eu2 & _ & Hd2); [done|].
    exists c, (t ++ ch_nl :: action_lines (b :: l)), (action_text a ++ ch_nl :: u2), d2.
    change (action_lines (a :: b :: l)) with (action_text a ++ ch_nl :: action_lines (b :: l)).
    rewrite <- app_assoc, E, E2, Eu2. done. }
  destruct (K l Hl Hn) as (c & t & u & d & E & Eu & Hc & Hd). rewrite E. by apply (mutation_trim_ends _ _ u d).
Qed.

Lemma spec_expression_text env options n a : plain_action a ->
  spec_expression env options (S n) (action_text a) = inr [a].
Proof.
  intros Ha. cbn [spec_expression]. destruct (plain_text a Ha) as (c & t & u & d & E & Eu & Hc & Hd & Hb).
  rewrite E, (mutation_trim_ends _ _ u d), Eu, find_brace_other by done. rewrite <- Eu, <- E.
  by rewrite spec_one_text.
Qed.

Lemma lines_length l : (length l <= S (length (action_lines l)))%nat.
Proof.
  induction l as [|a l IH]; [cbn; lia|]. destruct l as [|b l]; [cbn; lia|].
  change (action_lines (a :: b :: l)) with (action_text a ++ ch_nl :: action_lines (b :: l)).
  rewrite length_app. cbn [length] in *. lia.
Qed.

Lemma spec_lines env options l : Forall plain_action l -> l <> [] ->
  mutation_spec env options [action_lines l] = inr l.
Proof.
  intros Hl Hn. unfold mutation_spec. cbn [spec_each]. unfold spec_list, spec_parts.
  rewrite (action_lines_ends l Hl Hn), (parts_lines l Hl Hn) by apply lines_length.
  generalize (length (action_lines l)) as n. intros n.
  assert (spec_each (spec_expression env options (S n)) (map action_text l) None = inr l) as ->.
  { clear Hn. induction Hl as [|a l Ha Hl IH]; [done|]. cbn [map spec_each].
    by rewrite spec_expression_text, IH. }
  cbn [sum_bind]. rewrite app_nil_r. by destruct l.
Qed.

(** C21. Actions written as lines are read back: a list of plain actions - removals,
    increments by one, and sets of strings, numbers, booleans and nulls, on paths
    without separators - printed one per line, is parsed to the same list, unless a
    request for memory is refused. *)
Theorem mutation_lines_roundtrip alloc_ok env options l m :
  l <> [] -> Forall plain_action l ->
  exists r, fst (lql_mutation_parse_internal_with_options alloc_ok env true (Some [Some (action_lines l)]) 1
    options true m) = Some r /\
  match r with
  | inr mutation => actions mutation = l
  | inl e => e = (LQL_STATUS_NO_MEMORY, "out of memory"%string) /\ exists k, alloc_ok k = false
  end.
Proof.
  intros Hn Hl. pose proof (parse_mutation_outcome alloc_ok env options [action_lines l] m ltac:(done)) as H.
  unfold outcome in H. cbn [map length] in H.
  destruct (lql_mutation_parse_internal_with_options _ _ _ _ _ _ _ m) as [r m'].
  destruct H as (_ & r' & -> & H). exists r'. split; [done|]. rewrite (spec_lines env options l Hl Hn) in H.
  destruct r' as [e|mutation]; [|by destruct H as [[= ->] _]].
  destruct H as [_ [?|[-> (k & _ & Hk)]]]; [done|]. split; [done|by exists k].
Qed.

Lemma mutation_lines_roundtrip_witness : exists r,
  fst (lql_mutation_parse_internal_with_options (fun _ => true) sample_env true
    (Some [Some (action_lines sample_actions)]) 1 None true (mk_mem 0 0)) = Some r /\
  match r with inr mutation => actions mutation = sample_actions | inl _ => False end.
Proof.
  destruct (mutation_lines_roundtrip (fun _ => true) sample_env None sample_actions (mk_mem 0 0)) as (r & E & H).
  - discriminate.
  - assert (forall s, forallb plain_path_byte s = true -> segment_suffixes s = (s, 0%nat) -> plain_segment s) as K.
    { intros s Hs H. split; [|done]. apply (proj2 (List.Forall_forall _ _)). by apply List.forallb_forall. }
    repeat constructor; try done; try (apply K; reflexivity).
    + exists 15, (-1), false, (bs "1"), (bs ".5"), (bs "5"), [], 0. split_and!; try done.
      * split; [by repeat constructor|done].
      * right. split; [done|]. split; [done|by repeat constructor].
      * by left.
    + eexists. split; [vm_compute; reflexivity|reflexivity].
  - exists r. split; [exact E|]. destruct r as [e|mutation]; [|exact H]. destruct H as [_ [k Hk]]. discriminate.
Defined.
