(* ===== verification/MutationEmit.v ===== *)
(** * The output of a mutated record (src/lql_stream_flat_eq.c)

    The compact text of a record is in a spool; it is copied to the writer with the
    actions of a mutation applied.  The text is walked byte by byte: no tree is
    made.  Where several actions touch one key, its value goes through two more
    spools.  File values are read from what their opener answers. *)

From Stdlib Require Import SpecFloat.
From S2P Require Import Prelude.
From S2P Require Import Errors.
From S2P Require Import Unicode.
From S2P Require Import NumberFloat.
From S2P Require Import JsonSpool.
From S2P Require Import ScanTerm.
From S2P Require Import ScanState.
From S2P Require Import StreamProjection.
From S2P Require Import Mutation.

(** ** The state of an emission *)

(** How opening a file value went, and the answers of its reader: a failure with the
    message it set, or the bytes read.  A reader has no more when its answers end. *)
Definition read_answer : Type := (lql_status * option string) + bytes.

Inductive open_answer :=
  | Opened (reads : list read_answer)
  | Opened_no_reader
  | Open_failed (status : lql_status) (message : option string).

(** The spool that is read; the spool that is written, when the writer is
    [lql_flat_eq_spool_writer]; the answers of the environment. *)
Record emit_state := mk_emit {
  emit_source : lql_json_spool;
  emit_target : option lql_json_spool;
  emit_env : spool_env;
  emit_opens : list open_answer
}.

Definition E (A : Type) : Type := emit_state -> (failure + A) * emit_state.

#[export] Instance E_ret : MRet E := fun A a st => (inr a, st).
#[export] Instance E_bind : MBind E := fun A B f m st =>
  match m st with
  | (inr a, st) => f a st
  | (inl x, st) => (inl x, st)
  end.

(** What is done on the spool that is read. *)
Definition source_do {A} (m : W A) : E A := fun st =>
  let '(r, s, e) := m (emit_source st) (emit_env st) in
  (r, mk_emit s (emit_target st) e (emit_opens st)).

(** [lql_flat_eq_spool_writer] *)
Definition lql_flat_eq_spool_writer (data : bytes) : W unit := lql_json_spool_append data.

(** [state->writer(state->writer_user, ...)] *)
Definition emit_write (data : bytes) : E unit := fun st =>
  match emit_target st with
  | None => source_do (call_writer data) st
  | Some target =>
      let '(r, target, e) := lql_flat_eq_spool_writer data target (emit_env st) in
      (r, mk_emit (emit_source st) (Some target) e (emit_opens st))
  end.

#[export] Instance E_output : Output E := {|
  on_source := @source_do;
  write_bytes := emit_write
|}.

(** A status returned; with no message the error object is as it was. *)
Definition fail_emit {A} (status : lql_status) (message : string) : E A := fun st =>
  (inl (status, message), st).

Definition json_error {A} : E A := fail_emit LQL_STATUS_JSON_ERROR "".
Definition invalid_argument {A} : E A := fail_emit LQL_STATUS_INVALID_ARGUMENT "".

(** A recursion out of fuel, which is no status of the code. *)
Definition out_of_fuel {A} : E A := fail_emit LQL_STATUS_OK "".

(** A text read through NULL, which is undefined and no status of the code either. *)
Definition null_read {A} : E A := fail_emit LQL_STATUS_OK "".

(** The spools of the record and of the writer are put aside for [m], which reads
    [source] (the spool read so far when it is [None]) and writes [target]; with the
    answer are the two after. *)
Definition redirected {A} (source : option lql_json_spool) (target : lql_json_spool) (m : E A)
    : E (A * option lql_json_spool * lql_json_spool) := fun st =>
  let '(r, st') := m (mk_emit (default (emit_source st) source) (Some target) (emit_env st) (emit_opens st)) in
  let back := mk_emit (match source with None => emit_source st' | Some _ => emit_source st end)
                (emit_target st) (emit_env st') (emit_opens st') in
  match r with
  | inl x => (inl x, back)
  | inr a => (inr (a, match source with None => None | Some _ => Some (emit_source st') end,
                   default target (emit_target st')), back)
  end.

(** [m] reads [source]; the writer stays. *)
Definition reading {A} (source : lql_json_spool) (m : E A) : E A := fun st =>
  let '(r, st') := m (mk_emit source (emit_target st) (emit_env st) (emit_opens st)) in
  (r, mk_emit (emit_source st) (emit_target st') (emit_env st') (emit_opens st')).

(** [lql_json_spool_init_with_allocator(&spool, ...)]; the caller cleans up a spool
    that could not be made. *)
Definition new_spool : E lql_json_spool := fun st =>
  let '(r, s, e) := lql_json_spool_init_with_allocator (mk_spool None 0 None None 0) (emit_env st) in
  (match r with inl x => inl x | inr _ => inr s end,
   mk_emit (emit_source st) (emit_target st) e (emit_opens st)).

(** ** Walking the text *)

Definition lql_flat_eq_spool_byte (offset : nat) : E Z := on_source (lql_json_spool_byte_at offset).

Definition lql_flat_eq_skip_string (offset stop : nat) : E nat :=
  if (stop <=? offset)%nat then json_error else on_source (lql_json_spool_find_string_end offset stop).

Definition ends_scalar (ch : Z) : bool := (ch =? ch_comma) || (ch =? ch_rbrace) || (ch =? ch_rbracket).
Definition opens_container (ch : Z) : bool := (ch =? ch_lbrace) || (ch =? ch_lbracket).
Definition closes_container (ch : Z) : bool := (ch =? ch_rbrace) || (ch =? ch_rbracket).

(** [while ( *offset < end)] of a scalar; [n] is what is left. *)
Fixpoint skip_scalar (n offset : nat) : E nat :=
  match n with
  | O => mret offset
  | S n =>
      ch ← lql_flat_eq_spool_byte offset;
      if ends_scalar ch then mret offset else skip_scalar n (S offset)
  end.

(** [while ( *offset < end)] of a container; each round moves on. *)
Fixpoint skip_nested (fuel offset stop depth : nat) : E nat :=
  match fuel with
  | O => out_of_fuel
  | S fuel =>
      if (stop <=? offset)%nat then json_error
      else
        ch ← lql_flat_eq_spool_byte offset;
        if ch =? ch_quote then
          offset ← lql_flat_eq_skip_string offset stop;
          skip_nested fuel offset stop depth
        else if opens_container ch then skip_nested fuel (S offset) stop (S depth)
        else if closes_container ch then
          match depth with
          | O => json_error
          | S O => mret (S offset)
          | S depth => skip_nested fuel (S offset) stop depth
          end
        else skip_nested fuel (S offset) stop depth
  end.

(** The offset after the value at [offset]. *)
Definition lql_flat_eq_skip_value (offset stop : nat) : E nat :=
  if (stop <=? offset)%nat then json_error
  else
    ch ← lql_flat_eq_spool_byte offset;
    if ch =? ch_quote then lql_flat_eq_skip_string offset stop
    else if negb (opens_container ch) then skip_scalar (stop - offset) offset
    else skip_nested (S (stop - offset)) offset stop 0.

Definition lql_flat_eq_hex_value (ch : Z) : option Z :=
  if is_digit ch then Some (ch - ch_0)
  else if (ch_a <=? ch) && (ch <=? ch_f) then Some (10 + ch - ch_a)
  else if (ch_A <=? ch) && (ch <=? ch_F) then Some (10 + ch - ch_A)
  else None.

Fixpoint hex_loop (n offset : nat) (value : Z) : E Z :=
  match n with
  | O => mret value
  | S n =>
      ch ← lql_flat_eq_spool_byte offset;
      match lql_flat_eq_hex_value ch with
      | None => json_error
      | Some digit => hex_loop n (S offset) (Z.lor (Z.shiftl value 4) digit)
      end
  end.

Definition lql_flat_eq_read_hex4 (offset stop : nat) : E Z :=
  if (stop <? offset)%nat || (stop - offset <? 4)%nat then json_error else hex_loop 4 offset 0.

(** The code point of the escape whose four digits are at [offset], and the offset
    after it, which may be a second escape on. *)
Definition escaped_point (offset stop : nat) : E (Z * nat) :=
  codepoint ← lql_flat_eq_read_hex4 offset stop;
  let offset := (offset + 4)%nat in
  if (0xd800 <=? codepoint) && (codepoint <=? 0xdbff) then
    ch ← lql_flat_eq_spool_byte offset;
    if negb (ch =? ch_backslash) then json_error
    else
      ch ← lql_flat_eq_spool_byte (S offset);
      if negb (ch =? 117) then json_error
      else
        low ← lql_flat_eq_read_hex4 (S (S offset)) stop;
        if (low <? 0xdc00) || (0xdfff <? low) then json_error
        else mret (0x10000 + Z.lor (Z.shiftl (codepoint - 0xd800) 10) (low - 0xdc00), (offset + 6)%nat)
  else if (0xdc00 <=? codepoint) && (codepoint <=? 0xdfff) then json_error
  else mret (codepoint, offset).

(** The byte of the escapes that are not [u]. *)
Definition simple_escape (ch : Z) : Z :=
  if ch =? 110 then 10 else if ch =? 114 then 13 else if ch =? 116 then 9
  else if ch =? 98 then 8 else if ch =? 102 then 12 else ch.

(** What is left of [key] after the bytes [encoded], if it starts with them. *)
Fixpoint key_after (encoded key : bytes) : option bytes :=
  match encoded, key with
  | [], _ => Some key
  | x :: encoded, y :: key => if x =? y then key_after encoded key else None
  | _ :: _, [] => None
  end.

(** The loop over the characters of the key at [offset]; each round moves on.
    [advance] compares the bytes of one character. *)
Fixpoint key_equals_loop (fuel offset stop : nat) (key : bytes) : E bool :=
  match fuel with
  | O => out_of_fuel
  | S fuel =>
      if (stop <=? offset)%nat then json_error
      else
        let advance encoded next :=
          match key_after encoded key with
          | None => mret false
          | Some key => key_equals_loop fuel next stop key
          end in
        ch ← lql_flat_eq_spool_byte offset;
        if ch =? ch_quote then mret (bool_decide (key = []))
        else if ch =? ch_backslash then
          ch ← lql_flat_eq_spool_byte (S offset);
          if ch =? 117 then
            '(codepoint, next) ← escaped_point (S (S offset)) stop;
            match lql_unicode_utf8_encode codepoint with
            | None => json_error
            | Some encoded => advance encoded next
            end
          else advance [simple_escape ch] (S (S offset))
        else advance [ch] (S offset)
  end.

Definition lql_flat_eq_key_equals (offset stop : nat) (key : bytes) : E bool :=
  if (stop <=? offset)%nat then json_error
  else
    ch ← lql_flat_eq_spool_byte offset;
    if negb (ch =? ch_quote) then json_error
    else key_equals_loop (S (stop - offset)) (S offset) stop key.

(** [value_end - value_start] bytes from [value_start] are copied. *)
Definition copy (value_start value_end : nat) : E unit :=
  lql_json_spool_write_slice value_start (value_end - value_start).

(** The loop over the members or elements of the container that starts at [start]:
    [round] deals with the one at an offset and gives the offset after it.  Each
    round of a JSON text moves on. *)
Fixpoint walk_loop {A} (fuel : nat) (closing : Z) (stop : nat) (round : A -> nat -> E (A * nat))
    (a : A) (pos : nat) (ch : Z) : E A :=
  match fuel with
  | O => out_of_fuel
  | S fuel =>
      if (S pos <? stop)%nat && negb (ch =? closing) then
        '(a, pos) ← round a pos;
        ch ← lql_flat_eq_spool_byte pos;
        if ch =? ch_comma then
          ch ← lql_flat_eq_spool_byte (S pos);
          walk_loop fuel closing stop round a (S pos) ch
        else walk_loop fuel closing stop round a pos ch
      else mret a
  end.

Definition walk {A} (closing : Z) (start stop : nat) (round : A -> nat -> E (A * nat)) (a : A) : E A :=
  ch ← lql_flat_eq_spool_byte (S start);
  walk_loop (S (stop - start)) closing stop round a (S start) ch.

(** The end of the key at [key_start] and the end of its value. *)
Definition member_span (key_start stop : nat) : E (nat * nat) :=
  key_end ← lql_flat_eq_skip_string key_start stop;
  ch ← lql_flat_eq_spool_byte key_end;
  if negb (ch =? ch_colon) then json_error
  else
    value_end ← lql_flat_eq_skip_value (S key_end) stop;
    mret (key_end, value_end).

(** A key with its colon, and what [value] writes. *)
Definition keyed (key_start key_end : nat) (value : E unit) : E unit :=
  lql_json_spool_write_slice key_start (key_end - key_start + 1) ≫= fun _ => value.

(** The loops that write an object: [matches] compares the key at an offset, [member]
    writes a member or drops it.  The answer is whether nothing was written so far
    and whether some key matched. *)
Definition rewrite_members (matches : nat -> E bool) (member : bool -> nat -> nat -> nat -> option (E unit))
    (value_start value_end : nat) : E (bool * bool) :=
  lql_flat_eq_write [ch_lbrace] ≫= fun _ =>
  walk ch_rbrace value_start value_end (fun '(first, found) key_start =>
    same_key ← matches key_start;
    '(key_end, child_end) ← member_span key_start value_end;
    match member same_key key_start key_end child_end with
    | None => mret (first, found || same_key, child_end)
    | Some write =>
        comma first ≫= fun _ => write ≫= fun _ => mret (false, found || same_key, child_end)
    end) (true, false).

Definition rewrite_object (matches : nat -> E bool) (member : bool -> nat -> nat -> nat -> option (E unit))
    (value_start value_end : nat) : E unit :=
  rewrite_members matches member value_start value_end ≫= fun _ => lql_flat_eq_write [ch_rbrace].

(** The loops that write an array: [element] writes the element of an index. *)
Definition rewrite_array (element : nat -> nat -> nat -> E unit) (value_start value_end : nat) : E unit :=
  lql_flat_eq_write [ch_lbracket] ≫= fun _ =>
  walk ch_rbracket value_start value_end (fun '(first, index) element_start =>
    element_end ← lql_flat_eq_skip_value element_start value_end;
    comma first ≫= fun _ =>
    element index element_start element_end ≫= fun _ =>
    mret (false, S index, element_end)) (true, 0%nat) ≫= fun _ =>
  lql_flat_eq_write [ch_rbracket].

(** ** File values *)

(** How many continuation bytes are to come, and the range of the next. *)
Record lql_flat_eq_utf8_state := mk_utf8 { remaining : nat; min_next : Z; max_next : Z }.

Definition utf8_zero : lql_flat_eq_utf8_state := mk_utf8 0 0 0.

Definition lql_flat_eq_utf8_accept (state : lql_flat_eq_utf8_state) (ch : Z) : option lql_flat_eq_utf8_state :=
  if (remaining state =? 0)%nat then
    if ch <=? 0x7f then Some state
    else if (0xc2 <=? ch) && (ch <=? 0xdf) then Some (mk_utf8 1 0x80 0xbf)
    else if ch =? 0xe0 then Some (mk_utf8 2 0xa0 0xbf)
    else if (0xe1 <=? ch) && (ch <=? 0xec) || (0xee <=? ch) && (ch <=? 0xef) then Some (mk_utf8 2 0x80 0xbf)
    else if ch =? 0xed then Some (mk_utf8 2 0x80 0x9f)
    else if ch =? 0xf0 then Some (mk_utf8 3 0x90 0xbf)
    else if (0xf1 <=? ch) && (ch <=? 0xf3) then Some (mk_utf8 3 0x80 0xbf)
    else if ch =? 0xf4 then Some (mk_utf8 3 0x80 0x8f)
    else None
  else if (ch <? min_next state) || (max_next state <? ch) then None
  else Some (mk_utf8 (remaining state - 1) 0x80 0xbf).

(** The next answer of the opener. *)
Definition next_open : E open_answer := fun st =>
  (inr (default (Opened []) (head (emit_opens st))),
   mk_emit (emit_source st) (emit_target st) (emit_env st) (tail (emit_opens st))).

Definition IO_OPEN : string := "unable to open file-backed mutation value".
Definition IO_READ : string := "unable to read file-backed mutation value".

(** The reader of the value; of a local file every failure is an I/O error. *)
Definition lql_flat_eq_file_open (action : lql_mutation_action) : E (list read_answer) :=
  match action_value action with
  | None => invalid_argument
  | Some _ =>
      answer ← next_open;
      match answer with
      | Opened reads => mret reads
      | Open_failed status message =>
          if file_callbacks action then
            fail_emit status (default "file value open callback failed"%string message)
          else fail_emit LQL_STATUS_IO_ERROR IO_OPEN
      | Opened_no_reader =>
          if file_callbacks action then
            fail_emit LQL_STATUS_CALLBACK_ERROR "file value open callback returned no reader"
          else fail_emit LQL_STATUS_IO_ERROR IO_OPEN
      end
  end.

(** One read of at most [capacity] bytes, given its answer. *)
Definition lql_flat_eq_file_read (action : lql_mutation_action) (capacity : nat) (answer : read_answer) : E bytes :=
  match answer with
  | inl (status, message) =>
      if file_callbacks action then fail_emit status (default "file value reader failed"%string message)
      else fail_emit LQL_STATUS_IO_ERROR IO_READ
  | inr data =>
      if (capacity <? length data)%nat then
        fail_emit LQL_STATUS_CALLBACK_ERROR "file value reader exceeded its buffer capacity"
      else mret data
  end.

Definition file_buffer : E unit :=
  ok ← on_source next_alloc;
  if (ok : bool) then mret tt
  else fail_emit LQL_STATUS_NO_MEMORY "out of memory allocating file value buffer".

Definition NUL_BYTE : failure := (LQL_STATUS_JSON_ERROR, "textfile mutation value contains NUL byte"%string).
Definition NOT_UTF8 : failure := (LQL_STATUS_JSON_ERROR, "textfile mutation value is not valid UTF-8"%string).

(** The loop over the bytes of a buffer: the state after, or the failure. *)
Fixpoint accept_bytes (utf8 : lql_flat_eq_utf8_state) (data : bytes) : failure + lql_flat_eq_utf8_state :=
  match data with
  | [] => inr utf8
  | ch :: data =>
      if ch =? 0 then inl NUL_BYTE
      else match lql_flat_eq_utf8_accept utf8 ch with
           | None => inl NOT_UTF8
           | Some utf8 => accept_bytes utf8 data
           end
  end.

(** A text that is none: an error when [strict]. *)
Definition not_text (strict : bool) (x : failure) : E bool :=
  if strict then fun st => (inl x, st) else mret false.

Fixpoint textlike_loop (action : lql_mutation_action) (strict : bool) (utf8 : lql_flat_eq_utf8_state)
    (reads : list read_answer) : E bool :=
  let finish := if (remaining utf8 =? 0)%nat then mret true else not_text strict NOT_UTF8 in
  match reads with
  | [] => finish
  | answer :: reads =>
      data ← lql_flat_eq_file_read action 4096 answer;
      if (length data =? 0)%nat then finish
      else match accept_bytes utf8 data with
           | inl x => not_text strict x
           | inr utf8 => textlike_loop action strict utf8 reads
           end
  end.

Definition lql_flat_eq_file_textlike (action : lql_mutation_action) (strict : bool) : E bool :=
  file_buffer ≫= fun _ =>
  reads ← lql_flat_eq_file_open action;
  textlike_loop action strict utf8_zero reads.

(** The loop over the bytes of a buffer, which are written as in a JSON string. *)
Fixpoint write_text (validate_utf8 : bool) (utf8 : lql_flat_eq_utf8_state) (data : bytes)
    : E lql_flat_eq_utf8_state :=
  match data with
  | [] => mret utf8
  | ch :: data =>
      utf8 ← (if validate_utf8 then
                fun st => (accept_bytes utf8 [ch], st)
              else mret utf8);
      write_pieces (json_string_pieces ch) ≫= fun _ => write_text validate_utf8 utf8 data
  end.

Fixpoint text_loop (action : lql_mutation_action) (validate_utf8 : bool) (utf8 : lql_flat_eq_utf8_state)
    (reads : list read_answer) : E unit :=
  let finish :=
    if validate_utf8 && negb (remaining utf8 =? 0)%nat then fun st => (inl NOT_UTF8, st)
    else lql_flat_eq_write [ch_quote] in
  match reads with
  | [] => finish
  | answer :: reads =>
      data ← lql_flat_eq_file_read action 4096 answer;
      if (length data =? 0)%nat then finish
      else
        utf8 ← write_text validate_utf8 utf8 data;
        text_loop action validate_utf8 utf8 reads
  end.

Definition lql_flat_eq_file_text_json_string (action : lql_mutation_action) (validate_utf8 : bool) : E unit :=
  file_buffer ≫= fun _ =>
  reads ← lql_flat_eq_file_open action;
  lql_flat_eq_write [ch_quote] ≫= fun _ =>
  text_loop action validate_utf8 utf8_zero reads.

Definition base64_table : bytes := bs "ABCDEFGHIJKLMNOPQRSTUVWXYZabcdefghijklmnopqrstuvwxyz0123456789+/".

(** [table[(triple >> shift) & 0x3ful]] *)
Definition base64_char (triple shift : Z) : Z := nth (Z.to_nat (Z.land (Z.shiftr triple shift) 0x3f)) base64_table 0.

Definition base64_triple (a b c : Z) : Z := Z.lor (Z.lor (Z.shiftl a 16) (Z.shiftl b 8)) c.

(** The whole triples of the bytes to encode, and the bytes carried. *)
Fixpoint encode_triples (data : bytes) : bytes * bytes :=
  match data with
  | a :: b :: c :: data =>
      let triple := base64_triple a b c in
      let '(out, carry) := encode_triples data in
      (base64_char triple 18 :: base64_char triple 12 :: base64_char triple 6 :: base64_char triple 0 :: out, carry)
  | carry => ([], carry)
  end.

(** The last characters, of one or two bytes carried. *)
Definition encode_rest (carry : bytes) : bytes :=
  match carry with
  | a :: rest =>
      let triple := base64_triple a (nth 0 rest 0) 0 in
      [base64_char triple 18; base64_char triple 12;
       match rest with [] => ch_eq | _ => base64_char triple 6 end; ch_eq]
  | [] => []
  end.

(** [if (out_len != 0u)] the characters are written. *)
Definition write_some (out : bytes) : E unit :=
  if (length out =? 0)%nat then mret tt else lql_flat_eq_write out.

(** The bytes carried come before those read: when they make a triple it is the first
    of the buffer. *)
Fixpoint base64_loop (action : lql_mutation_action) (carry : bytes) (reads : list read_answer) : E unit :=
  let finish := write_some (encode_rest carry) ≫= fun _ => lql_flat_eq_write [ch_quote] in
  match reads with
  | [] => finish
  | answer :: reads =>
      data ← lql_flat_eq_file_read action 12288 answer;
      if (length data =? 0)%nat then finish
      else
        let '(out, carry) := encode_triples (carry ++ data) in
        write_some out ≫= fun _ => base64_loop action carry reads
  end.

Definition lql_flat_eq_file_base64_json_string (action : lql_mutation_action) : E unit :=
  file_buffer ≫= fun _ =>
  reads ← lql_flat_eq_file_open action;
  lql_flat_eq_write [ch_quote] ≫= fun _ =>
  base64_loop action [] reads.

Definition lql_flat_eq_file_value (action : lql_mutation_action) : E unit :=
  match action_value_kind action with
  | LQL_MUTATION_VALUE_FILE_BASE64 => lql_flat_eq_file_base64_json_string action
  | LQL_MUTATION_VALUE_FILE_TEXT =>
      lql_flat_eq_file_textlike action true ≫= fun _ => lql_flat_eq_file_text_json_string action true
  | _ =>
      textlike ← lql_flat_eq_file_textlike action false;
      if (textlike : bool) then lql_flat_eq_file_text_json_string action true
      else lql_flat_eq_file_base64_json_string action
  end.

Fixpoint lql_flat_eq_preflight_file_mutations (actions : list lql_mutation_action) : E unit :=
  match actions with
  | [] => mret tt
  | action :: actions =>
      if bool_decide (action_kind action = LQL_MUTATION_SET) &&
         bool_decide (action_value_kind action = LQL_MUTATION_VALUE_FILE_TEXT) then
        lql_flat_eq_file_textlike action true ≫= fun _ => lql_flat_eq_preflight_file_mutations actions
      else lql_flat_eq_preflight_file_mutations actions
  end.

(** ** Segments *)

Definition seg_any_key : bytes := bs "*".
Definition seg_any_index : bytes := bs "[]".
Definition seg_any : bytes := bs "**".
Definition seg_ellipsis : bytes := bs "...".

Definition lql_flat_eq_mutation_segment_is_wildcard (segment : bytes) : bool :=
  bytes_eqb segment seg_any_key || bytes_eqb segment seg_any_index ||
  bytes_eqb segment seg_any || bytes_eqb segment seg_ellipsis.

Definition lql_flat_eq_mutation_segment_matches_any_object_key (segment : bytes) : bool :=
  bytes_eqb segment seg_any_key || bytes_eqb segment seg_any || bytes_eqb segment seg_ellipsis.

Definition lql_flat_eq_mutation_segment_matches_any_array_index (segment : bytes) : bool :=
  bytes_eqb segment seg_any_index || bytes_eqb segment seg_any || bytes_eqb segment seg_ellipsis.

Definition lql_flat_eq_mutation_object_key_matches_segment (key_start size : nat) (segment : bytes) : E bool :=
  if lql_flat_eq_mutation_segment_matches_any_object_key segment then mret true
  else if bytes_eqb segment seg_any_index then mret false
  else lql_flat_eq_key_equals key_start size segment.

(** [action->segments[depth]] and [action->segment_count] *)
Definition seg (action : lql_mutation_action) (depth : nat) : bytes := nth depth (segments action) [].
Definition segment_count (action : lql_mutation_action) : nat := length (segments action).

Definition is_kind (action : lql_mutation_action) (kind : lql_mutation_kind) : bool :=
  bool_decide (action_kind action = kind).

Definition lql_flat_eq_mutation_suffix_has_wildcard (action : lql_mutation_action) (depth : nat) : bool :=
  existsb lql_flat_eq_mutation_segment_is_wildcard (drop depth (segments action)).

(** The depth goes up at most to the number of segments. *)
Fixpoint collapse_loop (fuel : nat) (action : lql_mutation_action) (depth : nat) : nat :=
  match fuel with
  | O => depth
  | S fuel =>
      if (depth + 1 <? segment_count action)%nat && bytes_eqb (seg action depth) seg_ellipsis &&
         bytes_eqb (seg action (depth + 1)) seg_ellipsis && (depth + 2 <? segment_count action)%nat &&
         negb (lql_flat_eq_mutation_segment_is_wildcard (seg action (depth + 2)))
      then collapse_loop fuel action (S depth) else depth
  end.

Definition lql_flat_eq_mutation_collapse_ellipsis (action : lql_mutation_action) (depth : nat) : nat :=
  collapse_loop (segment_count action) action depth.

Definition lql_flat_eq_mutation_terminal_repeated_ellipsis (action : lql_mutation_action) (depth : nat) : bool :=
  (depth + 2 =? segment_count action)%nat && bytes_eqb (seg action depth) seg_ellipsis &&
  bytes_eqb (seg action (depth + 1)) seg_ellipsis.

(** A failure, its error put aside. *)
Definition or_else {A} (m : E A) (default : A) : E A := fun st =>
  match m st with
  | (inr a, st) => (inr a, st)
  | (inl _, st) => (inr default, st)
  end.

Definition lql_flat_eq_spooled_value_is_container (value_start : nat) : E bool :=
  or_else (ch ← lql_flat_eq_spool_byte value_start; mret (opens_container ch)) false.

Definition segment_indexes (segment : bytes) (index : nat) : bool :=
  match lql_flat_eq_projection_segment_index segment with
  | Some target_index => Z.of_nat index =? target_index
  | None => false
  end.

Definition lql_flat_eq_spooled_value_accepts_segment (value_start : nat) (segment : bytes) : E bool :=
  or_else
    (ch ← lql_flat_eq_spool_byte value_start;
     mret (if ch =? ch_lbrace then negb (bytes_eqb segment seg_any_index)
           else if ch =? ch_lbracket then
             lql_flat_eq_mutation_segment_matches_any_array_index segment || segment_is_index segment
           else false)) false.

(** ** Values *)

Definition lql_flat_eq_mutation_value (action : lql_mutation_action) : E unit :=
  match action_value_kind action with
  | LQL_MUTATION_VALUE_STRING =>
      match action_value action with None => null_read | Some value => lql_flat_eq_json_string value end
  | LQL_MUTATION_VALUE_BOOL | LQL_MUTATION_VALUE_NUMBER | LQL_MUTATION_VALUE_NULL =>
      match action_value action with None => null_read | Some value => lql_flat_eq_write value end
  | _ => lql_flat_eq_file_value action
  end.

Definition lql_flat_eq_mutation_number (value : spec_float) : E unit :=
  if negb (lql_number_finite value) then
    fail_emit LQL_STATUS_JSON_ERROR "increment result is not finite"
  else
    match lql_number_format_json value 64 with
    | None => fail_emit LQL_STATUS_JSON_ERROR "increment result could not be emitted"
    | Some text => lql_flat_eq_write text
    end.

(** [a + b] of doubles. *)
Definition double_add (a b : spec_float) : spec_float := SFadd 53 1024 a b.

Definition bad_target {A} : E A := fail_emit LQL_STATUS_JSON_ERROR "increment target number is invalid".

Fixpoint read_bytes (n offset : nat) : E bytes :=
  match n with
  | O => mret []
  | S n =>
      ch ← lql_flat_eq_spool_byte offset;
      rest ← read_bytes n (S offset);
      mret (ch :: rest)
  end.

(** The number at [value_start], copied to a buffer that is allocated when it does
    not fit 128 bytes with its NUL. *)
Definition target_number (value_start value_end : nat) : E spec_float :=
  let n := (value_end - value_start)%nat in
  ok ← (if (n <? 128)%nat then mret true else on_source next_alloc);
  if negb ok then fail_emit LQL_STATUS_NO_MEMORY "out of memory"
  else
    number ← read_bytes n value_start;
    match lql_number_parse_json number with
    | None => bad_target
    | Some value => mret value
    end.

(** [present] is the span of the value, when there is one. *)
Definition lql_flat_eq_mutation_increment (action : lql_mutation_action) (present : option (nat * nat)) : E unit :=
  if negb (is_kind action LQL_MUTATION_INCREMENT) then invalid_argument
  else
    match present with
    | None => lql_flat_eq_mutation_number (delta action)
    | Some (value_start, value_end) =>
        if (value_end <=? value_start)%nat then bad_target
        else
          current ← target_number value_start value_end;
          lql_flat_eq_mutation_number (double_add current (delta action))
    end.

(** The objects made for the segments from [depth] on; [n] of them are left. *)
Fixpoint object_chain (n : nat) (action : lql_mutation_action) (depth : nat) : E unit :=
  match n with
  | O => out_of_fuel
  | S n =>
      lql_flat_eq_write [ch_lbrace] ≫= fun _ =>
      lql_flat_eq_projection_key (seg action depth) ≫= fun _ =>
      (if (S depth =? segment_count action)%nat then
         match action_kind action with
         | LQL_MUTATION_INCREMENT => lql_flat_eq_mutation_increment action None
         | LQL_MUTATION_SET => lql_flat_eq_mutation_value action
         | LQL_MUTATION_REMOVE => invalid_argument
         end
       else object_chain n action (S depth)) ≫= fun _ =>
      lql_flat_eq_write [ch_rbrace]
  end.

Definition lql_flat_eq_mutation_object_chain (action : lql_mutation_action) (depth : nat) : E unit :=
  object_chain (segment_count action - depth) action depth.

(** ** Setting a value *)

(** The last segment of the action is at [depth]. *)
Definition last_segment (action : lql_mutation_action) (depth : nat) : bool := (S depth =? segment_count action)%nat.

(** The key at an offset matches the segment; a segment of an array matches none. *)
Definition key_matches (segment : bytes) (value_end key_start : nat) : E bool :=
  if lql_flat_eq_mutation_segment_matches_any_object_key segment then mret true
  else if bytes_eqb segment seg_any_index then mret false
  else lql_flat_eq_key_equals key_start value_end segment.

(** Where a name may stand for any key, the segment of an array is a name. *)
Definition name_matches (segment : bytes) (value_end key_start : nat) : E bool :=
  if lql_flat_eq_mutation_segment_matches_any_object_key segment then mret true
  else lql_flat_eq_key_equals key_start value_end segment.

Fixpoint set_recursive_key (fuel : nat) (action : lql_mutation_action) (value_start value_end key_depth : nat) : E unit :=
  match fuel with
  | O => out_of_fuel
  | S fuel =>
      let key_depth := lql_flat_eq_mutation_collapse_ellipsis action key_depth in
      let segment := seg action key_depth in
      let ends := last_segment action key_depth ||
                  lql_flat_eq_mutation_terminal_repeated_ellipsis action key_depth in
      let all_indexes := lql_flat_eq_mutation_segment_matches_any_array_index segment in
      if (segment_count action <=? key_depth)%nat then copy value_start value_end
      else
        ch ← lql_flat_eq_spool_byte value_start;
        if ends && all_indexes then lql_flat_eq_mutation_value action
        else if ch =? ch_lbracket then
          rewrite_array (fun index start stop =>
            let selected := all_indexes || segment_indexes segment index in
            if selected && ends then lql_flat_eq_mutation_value action
            else if selected then
              if all_indexes then set_recursive_key fuel action start stop (S key_depth)
              else set_existing_path fuel action start stop (S key_depth)
            else set_recursive_key fuel action start stop key_depth) value_start value_end
        else if negb (ch =? ch_lbrace) then
          if ends && all_indexes then lql_flat_eq_mutation_value action else copy value_start value_end
        else
          rewrite_object (key_matches segment value_end) (fun same_key key_start key_end child_end =>
            Some (keyed key_start key_end
              (if same_key && ends then lql_flat_eq_mutation_value action
               else if same_key then
                 if bytes_eqb segment seg_ellipsis
                 then set_recursive_key fuel action (S key_end) child_end (S key_depth)
                 else set_existing_path fuel action (S key_end) child_end (S key_depth)
               else set_recursive_key fuel action (S key_end) child_end key_depth))) value_start value_end
  end
with set_existing_path (fuel : nat) (action : lql_mutation_action) (value_start value_end depth : nat) : E unit :=
  match fuel with
  | O => out_of_fuel
  | S fuel =>
      if (segment_count action <=? depth)%nat then invalid_argument
      else
        let depth := lql_flat_eq_mutation_collapse_ellipsis action depth in
        let segment := seg action depth in
        let repeated := lql_flat_eq_mutation_terminal_repeated_ellipsis action depth in
        let ends := last_segment action depth || repeated in
        if bytes_eqb segment seg_ellipsis && (depth + 1 <? segment_count action)%nat && negb repeated then
          set_recursive_key fuel action value_start value_end (S depth)
        else
          ch ← lql_flat_eq_spool_byte value_start;
          if ch =? ch_lbrace then
            if bytes_eqb segment seg_any_index then copy value_start value_end
            else
              rewrite_object (name_matches segment value_end) (fun same_key key_start key_end child_end =>
                Some (keyed key_start key_end
                  (if same_key && ends then lql_flat_eq_mutation_value action
                   else if same_key then set_existing_path fuel action (S key_end) child_end (S depth)
                   else copy (S key_end) child_end))) value_start value_end
          else if negb (ch =? ch_lbracket) || bytes_eqb segment seg_any_key then copy value_start value_end
          else
            let all_indexes := lql_flat_eq_mutation_segment_matches_any_array_index segment in
            if negb all_indexes && negb (segment_is_index segment) then copy value_start value_end
            else
              rewrite_array (fun index start stop =>
                let selected := all_indexes || segment_indexes segment index in
                if selected && ends then lql_flat_eq_mutation_value action
                else if selected then set_existing_path fuel action start stop (S depth)
                else copy start stop) value_start value_end
  end.

Definition nested_set_array (fuel : nat) (action : lql_mutation_action) (value_start value_end depth : nat) : E unit :=
  rewrite_array (fun _ start stop =>
    if last_segment action depth then lql_flat_eq_mutation_value action
    else set_existing_path fuel action start stop (S depth)) value_start value_end.

Definition nested_set_any_key (fuel : nat) (action : lql_mutation_action) (value_start value_end depth : nat) : E unit :=
  rewrite_object (fun _ => mret true) (fun _ key_start key_end child_end =>
    Some (keyed key_start key_end
      (if last_segment action depth then lql_flat_eq_mutation_value action
       else set_existing_path fuel action (S key_end) child_end (S depth)))) value_start value_end.

(** The end of an object in which a key was looked for: when it was not [found] it is
    made, with what [value] writes or with the objects of the segments below, unless
    a wildcard follows. *)
Definition make_missing (action : lql_mutation_action) (depth : nat) (first found : bool) (value : E unit) : E unit :=
  (if found || lql_flat_eq_mutation_suffix_has_wildcard action (S depth) then mret tt
   else
     comma first ≫= fun _ =>
     lql_flat_eq_projection_key (seg action depth) ≫= fun _ =>
     if last_segment action depth then value
     else lql_flat_eq_mutation_object_chain action (S depth)) ≫= fun _ =>
  lql_flat_eq_write [ch_rbrace].

Fixpoint lql_flat_eq_mutation_nested_set (fuel : nat) (action : lql_mutation_action)
    (value_start value_end depth : nat) : E unit :=
  match fuel with
  | O => out_of_fuel
  | S fuel =>
      if negb (is_kind action LQL_MUTATION_SET) || (segment_count action <=? depth)%nat ||
         (value_end <=? value_start)%nat then invalid_argument
      else
        let depth := lql_flat_eq_mutation_collapse_ellipsis action depth in
        let segment := seg action depth in
        ch ← lql_flat_eq_spool_byte value_start;
        if bytes_eqb segment seg_ellipsis && (depth + 1 <? segment_count action)%nat then
          set_recursive_key fuel action value_start value_end (S depth)
        else if (ch =? ch_lbracket) && lql_flat_eq_mutation_segment_matches_any_array_index segment then
          nested_set_array fuel action value_start value_end depth
        else if (ch =? ch_lbracket) && bytes_eqb segment seg_any_key then copy value_start value_end
        else if negb (ch =? ch_lbrace) then
          if lql_flat_eq_mutation_suffix_has_wildcard action depth then copy value_start value_end
          else lql_flat_eq_mutation_object_chain action depth
        else if bytes_eqb segment seg_any_index then copy value_start value_end
        else if lql_flat_eq_mutation_segment_matches_any_object_key segment then
          nested_set_any_key fuel action value_start value_end depth
        else
          '(first, found) ← rewrite_members (fun key_start => lql_flat_eq_key_equals key_start value_end segment)
            (fun same_key key_start key_end child_end =>
              Some (if same_key then
                      keyed key_start key_end
                        (if last_segment action depth then lql_flat_eq_mutation_value action
                         else lql_flat_eq_mutation_nested_set fuel action (S key_end) child_end (S depth))
                    else copy key_start child_end)) value_start value_end;
          make_missing action depth first found (lql_flat_eq_mutation_value action)
  end.

(** ** Removing a value *)

Definition write_null : E unit := lql_flat_eq_write (bs "null").

(** [remove] goes on below an element. *)
Definition lql_flat_eq_mutation_nested_remove_array (remove : nat -> nat -> E unit) (action : lql_mutation_action)
    (value_start value_end depth : nat) : E unit :=
  let segment := seg action depth in
  let all_indexes := lql_flat_eq_mutation_segment_matches_any_array_index segment in
  if negb all_indexes && negb (segment_is_index segment) then copy value_start value_end
  else
    rewrite_array (fun index start stop =>
      if negb all_indexes && negb (segment_indexes segment index) then copy start stop
      else if last_segment action depth then write_null
      else remove start stop) value_start value_end.

Fixpoint remove_recursive_key (fuel : nat) (action : lql_mutation_action) (value_start value_end key_depth : nat) : E unit :=
  match fuel with
  | O => out_of_fuel
  | S fuel =>
      let key_depth := lql_flat_eq_mutation_collapse_ellipsis action key_depth in
      let segment := seg action key_depth in
      let ends := last_segment action key_depth in
      let all_indexes := lql_flat_eq_mutation_segment_matches_any_array_index segment in
      if (segment_count action <=? key_depth)%nat then copy value_start value_end
      else
        ch ← lql_flat_eq_spool_byte value_start;
        if ends && all_indexes then write_null
        else if ch =? ch_lbracket then
          rewrite_array (fun index start stop =>
            let selected := all_indexes || segment_indexes segment index in
            if selected && ends then write_null
            else if selected then
              if all_indexes then remove_recursive_key fuel action start stop (S key_depth)
              else nested_remove fuel action start stop (S key_depth)
            else remove_recursive_key fuel action start stop key_depth) value_start value_end
        else if negb (ch =? ch_lbrace) then
          if ends && all_indexes then write_null else copy value_start value_end
        else
          rewrite_object (key_matches segment value_end) (fun same_key key_start key_end child_end =>
            if same_key && ends then None
            else Some (keyed key_start key_end
              (if same_key then
                 if lql_flat_eq_mutation_segment_matches_any_object_key segment
                 then remove_recursive_key fuel action (S key_end) child_end (S key_depth)
                 else nested_remove fuel action (S key_end) child_end (S key_depth)
               else remove_recursive_key fuel action (S key_end) child_end key_depth))) value_start value_end
  end
with nested_remove (fuel : nat) (action : lql_mutation_action) (value_start value_end depth : nat) : E unit :=
  match fuel with
  | O => out_of_fuel
  | S fuel =>
      if negb (is_kind action LQL_MUTATION_REMOVE) || (segment_count action <=? depth)%nat ||
         (value_end <=? value_start)%nat then invalid_argument
      else
        let depth := lql_flat_eq_mutation_collapse_ellipsis action depth in
        let segment := seg action depth in
        let ends := last_segment action depth in
        ch ← lql_flat_eq_spool_byte value_start;
        if bytes_eqb segment seg_ellipsis && (depth + 1 <? segment_count action)%nat then
          remove_recursive_key fuel action value_start value_end (S depth)
        else if ch =? ch_lbracket then
          lql_flat_eq_mutation_nested_remove_array (fun start stop => nested_remove fuel action start stop (S depth))
            action value_start value_end depth
        else if negb (ch =? ch_lbrace) then copy value_start value_end
        else if lql_flat_eq_mutation_segment_matches_any_object_key segment then
          rewrite_object (fun _ => mret true) (fun _ key_start key_end child_end =>
            if ends then None
            else Some (keyed key_start key_end (nested_remove fuel action (S key_end) child_end (S depth))))
            value_start value_end
        else
          rewrite_object (fun key_start => lql_flat_eq_key_equals key_start value_end segment)
            (fun same_key key_start key_end child_end =>
              if negb same_key then Some (copy key_start child_end)
              else if ends then None
              else Some (keyed key_start key_end (nested_remove fuel action (S key_end) child_end (S depth))))
            value_start value_end
  end.

(** ** Incrementing a number *)

Definition lql_flat_eq_mutation_increment_existing_key (action : lql_mutation_action)
    (value_start value_end key_depth : nat) : E unit :=
  if (segment_count action <=? key_depth)%nat then invalid_argument
  else
    ch ← lql_flat_eq_spool_byte value_start;
    if negb (ch =? ch_lbrace) then copy value_start value_end
    else
      rewrite_object (fun key_start =>
          lql_flat_eq_mutation_object_key_matches_segment key_start value_end (seg action key_depth))
        (fun same_key key_start key_end child_end =>
          Some (keyed key_start key_end
            (if same_key then lql_flat_eq_mutation_increment action (Some (S key_end, child_end))
             else copy (S key_end) child_end))) value_start value_end.

Fixpoint increment_recursive_key (fuel : nat) (action : lql_mutation_action) (value_start value_end key_depth : nat) : E unit :=
  match fuel with
  | O => out_of_fuel
  | S fuel =>
      let key_depth := lql_flat_eq_mutation_collapse_ellipsis action key_depth in
      let segment := seg action key_depth in
      let ends := last_segment action key_depth in
      let all_indexes := lql_flat_eq_mutation_segment_matches_any_array_index segment in
      let increment start stop := lql_flat_eq_mutation_increment action (Some (start, stop)) in
      if (segment_count action <=? key_depth)%nat then copy value_start value_end
      else
        ch ← lql_flat_eq_spool_byte value_start;
        if ends && all_indexes then increment value_start value_end
        else if ch =? ch_lbracket then
          rewrite_array (fun index start stop =>
            let selected := all_indexes || segment_indexes segment index in
            if selected && ends then increment start stop
            else if selected then
              if all_indexes then increment_recursive_key fuel action start stop (S key_depth)
              else increment_existing_path fuel action start stop (S key_depth)
            else increment_recursive_key fuel action start stop key_depth) value_start value_end
        else if negb (ch =? ch_lbrace) then
          if ends && all_indexes then increment value_start value_end else copy value_start value_end
        else
          rewrite_object (key_matches segment value_end) (fun same_key key_start key_end child_end =>
            Some (keyed key_start key_end
              (if same_key && ends then increment (S key_end) child_end
               else if same_key then
                 if lql_flat_eq_mutation_segment_matches_any_object_key segment
                 then increment_recursive_key fuel action (S key_end) child_end (S key_depth)
                 else increment_existing_path fuel action (S key_end) child_end (S key_depth)
               else increment_recursive_key fuel action (S key_end) child_end key_depth))) value_start value_end
  end
with increment_existing_path (fuel : nat) (action : lql_mutation_action) (value_start value_end depth : nat) : E unit :=
  match fuel with
  | O => out_of_fuel
  | S fuel =>
      if (segment_count action <=? depth)%nat then invalid_argument
      else
        let depth := lql_flat_eq_mutation_collapse_ellipsis action depth in
        let segment := seg action depth in
        let ends := last_segment action depth in
        let increment start stop := lql_flat_eq_mutation_increment action (Some (start, stop)) in
        if bytes_eqb segment seg_ellipsis && (depth + 1 <? segment_count action)%nat then
          increment_recursive_key fuel action value_start value_end (S depth)
        else
          ch ← lql_flat_eq_spool_byte value_start;
          if ch =? ch_lbrace then
            if bytes_eqb segment seg_any_index then copy value_start value_end
            else
              rewrite_object (name_matches segment value_end) (fun same_key key_start key_end child_end =>
                Some (keyed key_start key_end
                  (if same_key && ends then increment (S key_end) child_end
                   else if same_key then increment_existing_path fuel action (S key_end) child_end (S depth)
                   else copy (S key_end) child_end))) value_start value_end
          else if negb (ch =? ch_lbracket) || bytes_eqb segment seg_any_key then copy value_start value_end
          else
            let all_indexes := lql_flat_eq_mutation_segment_matches_any_array_index segment in
            if negb all_indexes && negb (segment_is_index segment) then copy value_start value_end
            else
              rewrite_array (fun index start stop =>
                let selected := all_indexes || segment_indexes segment index in
                if selected && ends then increment start stop
                else if selected then increment_existing_path fuel action start stop (S depth)
                else copy start stop) value_start value_end
  end.

(** An element is only visited for a segment that stands for every index, so its
    parents are not made. *)
Definition lql_flat_eq_mutation_nested_increment_array (fuel : nat) (action : lql_mutation_action)
    (value_start value_end depth : nat) : E unit :=
  let segment := seg action depth in
  if negb (lql_flat_eq_mutation_segment_matches_any_array_index segment) then
    if lql_flat_eq_mutation_suffix_has_wildcard action depth then copy value_start value_end
    else if negb (bytes_eqb segment seg_any_key) then lql_flat_eq_mutation_object_chain action depth
    else copy value_start value_end
  else
    rewrite_array (fun _ start stop =>
      if last_segment action depth || lql_flat_eq_mutation_terminal_repeated_ellipsis action depth
      then lql_flat_eq_mutation_increment action (Some (start, stop))
      else increment_existing_path fuel action start stop (S depth)) value_start value_end.

Definition nested_increment_any_key (action : lql_mutation_action) (value_start value_end depth : nat) : E unit :=
  rewrite_object (fun _ => mret true) (fun _ key_start key_end child_end =>
    Some (keyed key_start key_end
      (if last_segment action depth || lql_flat_eq_mutation_terminal_repeated_ellipsis action depth
       then lql_flat_eq_mutation_increment action (Some (S key_end, child_end))
       else if (depth + 2 =? segment_count action)%nat
       then lql_flat_eq_mutation_increment_existing_key action (S key_end) child_end (S depth)
       else copy (S key_end) child_end))) value_start value_end.

Fixpoint lql_flat_eq_mutation_nested_increment (fuel : nat) (action : lql_mutation_action)
    (value_start value_end depth : nat) : E unit :=
  match fuel with
  | O => out_of_fuel
  | S fuel =>
      if negb (is_kind action LQL_MUTATION_INCREMENT) || (segment_count action <=? depth)%nat ||
         (value_end <=? value_start)%nat then invalid_argument
      else
        let depth := lql_flat_eq_mutation_collapse_ellipsis action depth in
        let segment := seg action depth in
        ch ← lql_flat_eq_spool_byte value_start;
        if bytes_eqb segment seg_ellipsis && (depth + 1 <? segment_count action)%nat &&
           negb (lql_flat_eq_mutation_terminal_repeated_ellipsis action depth) then
          increment_recursive_key fuel action value_start value_end (S depth)
        else if ch =? ch_lbracket then
          lql_flat_eq_mutation_nested_increment_array fuel action value_start value_end depth
        else if negb (ch =? ch_lbrace) then
          if lql_flat_eq_mutation_suffix_has_wildcard action depth then copy value_start value_end
          else lql_flat_eq_mutation_object_chain action depth
        else if bytes_eqb segment seg_any_index then copy value_start value_end
        else if lql_flat_eq_mutation_segment_matches_any_object_key segment then
          nested_increment_any_key action value_start value_end depth
        else
          '(first, found) ← rewrite_members (fun key_start => lql_flat_eq_key_equals key_start value_end segment)
            (fun same_key key_start key_end child_end =>
              Some (keyed key_start key_end
                (if same_key then
                   if last_segment action depth
                   then lql_flat_eq_mutation_increment action (Some (S key_end, child_end))
                   else lql_flat_eq_mutation_nested_increment fuel action (S key_end) child_end (S depth)
                 else copy (S key_end) child_end))) value_start value_end;
          make_missing action depth first found (lql_flat_eq_mutation_increment action None)
  end.

(** ** The targets of increments *)

Definition lql_flat_eq_mutation_same_path (left right : lql_mutation_action) : bool :=
  bool_decide (segments left = segments right).

(** The first segments of the longer path. *)
Definition lql_flat_eq_mutation_path_prefix (prefix action : lql_mutation_action) : bool :=
  (segment_count prefix <? segment_count action)%nat &&
  bool_decide (segments prefix = take (segment_count prefix) (segments action)).

Definition lql_flat_eq_mutation_segment_may_overlap (left right : bytes) : bool :=
  bytes_eqb left right || lql_flat_eq_mutation_segment_is_wildcard left ||
  lql_flat_eq_mutation_segment_is_wildcard right.

(** The loop over the segments that both paths have. *)
Fixpoint may_overlap_loop (ls rs : list bytes) : bool :=
  match ls, rs with
  | l :: ls, r :: rs =>
      lql_flat_eq_mutation_segment_may_overlap l r &&
      (bytes_eqb l seg_ellipsis || bytes_eqb r seg_ellipsis || may_overlap_loop ls rs)
  | _, _ => true
  end.

Definition lql_flat_eq_mutation_path_may_overlap (left right : lql_mutation_action) : bool :=
  negb (segment_count left =? 0)%nat && negb (segment_count right =? 0)%nat &&
  may_overlap_loop (segments left) (segments right).

(** The loop over the actions before, the last first. *)
Fixpoint replaced_loop (before : list lql_mutation_action) (action : lql_mutation_action) : E bool :=
  match before with
  | [] => mret false
  | previous :: before =>
      if negb (lql_flat_eq_mutation_same_path previous action) &&
         negb (lql_flat_eq_mutation_path_prefix previous action) &&
         negb (lql_flat_eq_mutation_path_may_overlap previous action)
      then replaced_loop before action
      else if is_kind previous LQL_MUTATION_SET && lql_flat_eq_mutation_same_path previous action then
        if bool_decide (action_value_kind previous = LQL_MUTATION_VALUE_NUMBER) then mret true else bad_target
      else if is_kind previous LQL_MUTATION_SET || is_kind previous LQL_MUTATION_REMOVE then mret true
      else replaced_loop before action
  end.

Definition lql_flat_eq_mutation_increment_replaced_before (before : list lql_mutation_action)
    (action : lql_mutation_action) : E bool := replaced_loop (rev before) action.

Definition lql_flat_eq_mutation_validate_increment_number (value_start value_end : nat) : E unit :=
  if (value_end <=? value_start)%nat then bad_target
  else
    ch ← lql_flat_eq_spool_byte value_start;
    if negb (ch =? ch_minus) && negb (is_digit ch) then bad_target
    else target_number value_start value_end ≫= fun _ => mret tt.

(** The segment is recursive and more follows it. *)
Definition validate_descends (action : lql_mutation_action) (depth : nat) : bool :=
  bytes_eqb (seg action depth) seg_ellipsis && (depth + 1 <? segment_count action)%nat &&
  negb (lql_flat_eq_mutation_terminal_repeated_ellipsis action depth).

(** The value that [used] segments lead to: the target, or on with [path]. *)
Definition validate_below (path : nat -> nat -> nat -> E unit) (action : lql_mutation_action) (depth used start stop : nat) : E unit :=
  if (depth + used =? segment_count action)%nat ||
     (used =? 1)%nat && lql_flat_eq_mutation_terminal_repeated_ellipsis action depth
  then lql_flat_eq_mutation_validate_increment_number start stop
  else path start stop (depth + used)%nat.

Definition lql_flat_eq_mutation_validate_increment_object (path : nat -> nat -> nat -> E unit)
    (action : lql_mutation_action) (value_start value_end depth : nat) : E unit :=
  walk ch_rbrace value_start value_end (fun _ key_start =>
    '(key_end, child_end) ← member_span key_start value_end;
    (if validate_descends action depth then
       same_key ← lql_flat_eq_mutation_object_key_matches_segment key_start value_end (seg action (depth + 1));
       (if (same_key : bool) then validate_below path action depth 2 (S key_end) child_end else mret tt) ≫= fun _ =>
       path (S key_end) child_end depth
     else
       same_key ← lql_flat_eq_mutation_object_key_matches_segment key_start value_end (seg action depth);
       if (same_key : bool) then validate_below path action depth 1 (S key_end) child_end else mret tt) ≫= fun _ =>
    mret (tt, child_end)) tt.

Definition lql_flat_eq_mutation_validate_increment_array (path : nat -> nat -> nat -> E unit)
    (action : lql_mutation_action) (value_start value_end depth : nat) : E unit :=
  walk ch_rbracket value_start value_end (fun index element_start =>
    element_end ← lql_flat_eq_skip_value element_start value_end;
    (if validate_descends action depth then
       let next := seg action (depth + 1) in
       (if lql_flat_eq_mutation_segment_matches_any_array_index next || segment_indexes next index
        then validate_below path action depth 2 element_start element_end else mret tt) ≫= fun _ =>
       path element_start element_end depth
     else if lql_flat_eq_mutation_segment_matches_any_array_index (seg action depth)
     then validate_below path action depth 1 element_start element_end else mret tt) ≫= fun _ =>
    mret (S index, element_end)) 0%nat ≫= fun _ => mret tt.

Fixpoint validate_increment_path (fuel : nat) (action : lql_mutation_action) (value_start value_end depth : nat) : E unit :=
  match fuel with
  | O => out_of_fuel
  | S fuel =>
      if negb (is_kind action LQL_MUTATION_INCREMENT) || (segment_count action <=? depth)%nat then invalid_argument
      else
        ch ← lql_flat_eq_spool_byte value_start;
        if ch =? ch_lbrace then
          lql_flat_eq_mutation_validate_increment_object (validate_increment_path fuel action)
            action value_start value_end depth
        else if ch =? ch_lbracket then
          lql_flat_eq_mutation_validate_increment_array (validate_increment_path fuel action)
            action value_start value_end depth
        else mret tt
  end.

(** Every recursion goes to a smaller value or a later segment. *)
Definition emit_fuel (action : lql_mutation_action) (size : nat) : nat := S (size + segment_count action).

(** The size of the spool that is read. *)
Definition source_size : E nat := s ← on_source spool_get; mret (Z.to_nat (spool_size s)).

Definition lql_flat_eq_mutation_validate_increment_path (action : lql_mutation_action)
    (value_start value_end depth : nat) : E unit :=
  validate_increment_path (emit_fuel action (value_end - value_start)) action value_start value_end depth.

Fixpoint validate_targets (before actions : list lql_mutation_action) : E unit :=
  match actions with
  | [] => mret tt
  | action :: actions =>
      (if negb (is_kind action LQL_MUTATION_INCREMENT) then mret tt
       else
         replaced ← lql_flat_eq_mutation_increment_replaced_before before action;
         if (replaced : bool) then mret tt
         else
           size ← source_size;
           lql_flat_eq_mutation_validate_increment_path action 0 size 0) ≫= fun _ =>
      validate_targets (before ++ [action]) actions
  end.

(** ** Groups of actions on one key *)

Definition lql_flat_eq_mutation_top_matches_object_key (action : lql_mutation_action) : bool :=
  negb (segment_count action =? 0)%nat &&
  lql_flat_eq_mutation_segment_matches_any_object_key (seg action 0).

Definition lql_flat_eq_mutation_exact_top_key (action : lql_mutation_action) : bool :=
  negb (segment_count action =? 0)%nat &&
  negb (lql_flat_eq_mutation_segment_matches_any_object_key (seg action 0)).

Definition lql_flat_eq_mutation_groupable (action : lql_mutation_action) : bool :=
  (1 <=? segment_count action)%nat.

Definition lql_flat_eq_mutation_nonrecursive_wildcard (action : lql_mutation_action) : bool :=
  existsb lql_flat_eq_mutation_segment_is_wildcard (segments action).

Definition lql_flat_eq_mutation_same_top (left right : lql_mutation_action) : bool :=
  match segments left, segments right with
  | l :: _, r :: _ => bytes_eqb l r
  | _, _ => false
  end.

Definition lql_flat_eq_mutation_group_compatible (left right : lql_mutation_action) : bool :=
  lql_flat_eq_mutation_same_top left right && lql_flat_eq_mutation_groupable left &&
  lql_flat_eq_mutation_groupable right.

Definition is_file_kind (kind : lql_mutation_value_kind) : bool :=
  match kind with
  | LQL_MUTATION_VALUE_FILE_AUTO | LQL_MUTATION_VALUE_FILE_TEXT | LQL_MUTATION_VALUE_FILE_BASE64 => true
  | _ => false
  end.

(** The loop over the actions from each creator on. *)
Fixpoint lql_flat_eq_mutation_program_needs_atomic_output (actions : list lql_mutation_action) : bool :=
  match actions with
  | [] => false
  | creator :: actions =>
      is_file_kind (action_value_kind creator) ||
      ((1 <? segment_count creator)%nat && negb (is_kind creator LQL_MUTATION_REMOVE) &&
       existsb (fun increment => is_kind increment LQL_MUTATION_INCREMENT &&
                 (segment_count increment =? 1)%nat && lql_flat_eq_mutation_same_top creator increment) actions) ||
      lql_flat_eq_mutation_program_needs_atomic_output actions
  end.

(** [lql_flat_eq_mutation_append]: the actions of the program, [None] when the
    mutation is refused.  [before] are the actions seen. *)
Fixpoint append_loop (before actions : list lql_mutation_action) : bool :=
  match actions with
  | [] => true
  | action :: actions =>
      negb (segment_count action =? 0)%nat &&
      negb (is_kind action LQL_MUTATION_SET && bool_decide (action_value action = None)) &&
      forallb (fun a => negb (lql_flat_eq_mutation_same_top a action) ||
                        lql_flat_eq_mutation_group_compatible a action) before &&
      append_loop (before ++ [action]) actions
  end.

Definition lql_flat_eq_mutation_append (mutation : option (list lql_mutation_action))
    : option (list lql_mutation_action) :=
  actions ← mutation;
  if (length actions =? 0)%nat || negb (append_loop [] actions) then None else Some actions.

Section program.
(** [program->direct_mutation_actions] *)
Context (actions : list lql_mutation_action).

Definition lql_flat_eq_mutation_program_has_top_object_wildcard : bool :=
  existsb lql_flat_eq_mutation_top_matches_object_key actions.

(** The first action whose first segment matches the key, and its index. *)
Fixpoint find_loop (key_start size i : nat) (l : list lql_mutation_action)
    : E (option (nat * lql_mutation_action)) :=
  match l with
  | [] => mret None
  | action :: l =>
      same_key ← (if lql_flat_eq_mutation_top_matches_object_key action then mret true
                  else lql_flat_eq_key_equals key_start size (seg action 0));
      if (same_key : bool) then mret (Some (i, action)) else find_loop key_start size (S i) l
  end.

Definition lql_flat_eq_mutation_find_action (key_start size : nat) : E (option (nat * lql_mutation_action)) :=
  find_loop key_start size 0 actions.

Definition group_of (action : lql_mutation_action) : list lql_mutation_action :=
  List.filter (fun candidate => lql_flat_eq_mutation_same_top candidate action) actions.

Definition lql_flat_eq_mutation_group_count (action : lql_mutation_action) : nat := length (group_of action).

(** An action of the group before the index [i] was found. *)
Definition lql_flat_eq_mutation_group_seen (action : lql_mutation_action) (found : list bool) (i : nat) : bool :=
  existsb (fun p => lql_flat_eq_mutation_same_top (fst p) action && snd p) (take i (zip actions found)).

Definition lql_flat_eq_mutation_group_has_value_creator (action : lql_mutation_action) : bool :=
  existsb (fun a => is_kind a LQL_MUTATION_SET || is_kind a LQL_MUTATION_INCREMENT) (group_of action).

Definition top_of_kind (kind : lql_mutation_kind) (action : lql_mutation_action) : bool :=
  is_kind action kind && (segment_count action =? 1)%nat.

Definition lql_flat_eq_mutation_group_is_top_set (action : lql_mutation_action) : bool :=
  top_of_kind LQL_MUTATION_SET action && forallb (top_of_kind LQL_MUTATION_SET) (group_of action).

Definition lql_flat_eq_mutation_group_is_top_increment (action : lql_mutation_action) : bool :=
  top_of_kind LQL_MUTATION_INCREMENT action && forallb (top_of_kind LQL_MUTATION_INCREMENT) (group_of action).

Definition exact_nested (action : lql_mutation_action) : bool :=
  lql_flat_eq_mutation_exact_top_key action && (1 <? segment_count action)%nat.

Definition lql_flat_eq_mutation_group_is_exact_nested (action : lql_mutation_action) : bool :=
  exact_nested action && forallb exact_nested (group_of action).

Definition with_delta (action : lql_mutation_action) (d : spec_float) : lql_mutation_action :=
  mk_action (action_kind action) (segments action) (action_value action) (file_callbacks action)
    (action_value_kind action) d.

Definition with_segments (action : lql_mutation_action) (segs : list bytes) : lql_mutation_action :=
  mk_action (action_kind action) segs (action_value action) (file_callbacks action)
    (action_value_kind action) (delta action).

(** The deltas of the group added up from zero. *)
Definition lql_flat_eq_mutation_group_increment_action (group : lql_mutation_action) : lql_mutation_action :=
  with_delta group (fold_left (fun d a => double_add d (delta a)) (group_of group) (S754_zero false)).

Definition lql_flat_eq_mutation_group_last_set (group : lql_mutation_action) : option lql_mutation_action :=
  list.last (group_of group).

Definition lql_flat_eq_mutation_action_matches_spooled_key (action : lql_mutation_action)
    (key_start size : nat) : E bool :=
  if lql_flat_eq_mutation_top_matches_object_key action then mret true
  else lql_flat_eq_key_equals key_start size (seg action 0).

Definition lql_flat_eq_mutation_action_matches_missing_key (action : lql_mutation_action) (key : bytes) : bool :=
  negb (segment_count action =? 0)%nat &&
  (lql_flat_eq_mutation_top_matches_object_key action || bytes_eqb (seg action 0) key).

(** The loop of [lql_flat_eq_mutation_key_mark_spooled]; what fails does not match. *)
Fixpoint mark_spooled (key_start size : nat) (l : list lql_mutation_action) (found : list bool) : E (list bool) :=
  match l, found with
  | action :: l, f :: found =>
      matches ← or_else (lql_flat_eq_mutation_action_matches_spooled_key action key_start size) false;
      found ← mark_spooled key_start size l found;
      mret ((f || matches) :: found)
  | _, _ => mret found
  end.

Definition lql_flat_eq_mutation_key_mark_spooled (key_start size : nat) (found : list bool) : E (list bool) :=
  mark_spooled key_start size actions found.

Definition lql_flat_eq_mutation_key_mark_missing (key : bytes) (found : list bool) : list bool :=
  zip_with (fun action f => f || lql_flat_eq_mutation_action_matches_missing_key action key) actions found.

(** ** One key, action by action *)

(** The part of an action below its first segment, written to [target]. *)
Definition nested_output (action : lql_mutation_action) (value_start value_end : nat)
    (top_wildcard_consumed : bool) : E unit :=
  let fuel := emit_fuel action (value_end - value_start) in
  let recursive := (1 <? segment_count action)%nat && bytes_eqb (seg action 0) seg_ellipsis in
  let top_wildcard := (1 <? segment_count action)%nat && lql_flat_eq_mutation_top_matches_object_key action in
  match action_kind action with
  | LQL_MUTATION_SET =>
      if recursive then set_recursive_key fuel action value_start value_end 1
      else if top_wildcard && negb top_wildcard_consumed then
        set_existing_path fuel action value_start value_end 1
      else lql_flat_eq_mutation_nested_set fuel action value_start value_end 1
  | LQL_MUTATION_REMOVE =>
      if recursive then remove_recursive_key fuel action value_start value_end 1
      else nested_remove fuel action value_start value_end 1
  | LQL_MUTATION_INCREMENT =>
      if recursive then increment_recursive_key fuel action value_start value_end 1
      else if top_wildcard && negb top_wildcard_consumed then
        increment_existing_path fuel action value_start value_end 1
      else lql_flat_eq_mutation_nested_increment fuel action value_start value_end 1
  end.

Definition lql_flat_eq_mutation_apply_nested_to_spool (action : lql_mutation_action)
    (source : option lql_json_spool) (value_start value_end : nat) (top_wildcard_consumed : bool)
    (target : lql_json_spool) : E (option lql_json_spool * lql_json_spool) :=
  let top_wildcard_suffix :=
    top_wildcard_consumed && (1 <? segment_count action)%nat &&
    negb (bytes_eqb (seg action 0) seg_ellipsis) && lql_flat_eq_mutation_top_matches_object_key action in
  '(_, source, target) ← redirected source (lql_json_spool_reset target) (
    accepts ← (if top_wildcard_suffix
               then lql_flat_eq_spooled_value_accepts_segment value_start (seg action 1) else mret true);
    if negb accepts then copy value_start value_end
    else nested_output action value_start value_end top_wildcard_consumed);
  mret (source, target).

(** Whether the key is present after the action, and the two spools. *)
Definition lql_flat_eq_mutation_apply_ordered_key_action (action : lql_mutation_action)
    (source : option lql_json_spool) (source_start source_end : nat)
    (present allow_create top_wildcard_consumed : bool) (target : lql_json_spool)
    : E (bool * option lql_json_spool * lql_json_spool) :=
  if negb present && negb allow_create then mret (present, source, target)
  else if (segment_count action =? 1)%nat then
    if is_kind action LQL_MUTATION_REMOVE then mret (false, source, target)
    else
      '(_, source, target) ← redirected source (lql_json_spool_reset target)
        (if is_kind action LQL_MUTATION_SET then lql_flat_eq_mutation_value action
         else lql_flat_eq_mutation_increment action
                (if present then Some (source_start, source_end) else None));
      mret (true, source, target)
  else if negb present then
    if is_kind action LQL_MUTATION_REMOVE || lql_flat_eq_mutation_suffix_has_wildcard action 1
    then mret (present, source, target)
    else
      created ← new_spool;
      '(_, _, created) ← redirected None created (lql_flat_eq_write (bs "{}"));
      '(_, target) ← lql_flat_eq_mutation_apply_nested_to_spool action (Some created) 0
                       (Z.to_nat (spool_size created)) top_wildcard_consumed target;
      mret (true, source, target)
  else
    '(source, target) ← lql_flat_eq_mutation_apply_nested_to_spool action source source_start source_end
                          top_wildcard_consumed target;
    mret (true, source, target).

(** The value of a key between two actions: it is in the spool of the record until an
    action wrote it, then in [group_other] ([from_other]); the next action writes
    [group_target]. *)
Record key_group := mk_group {
  from_other : bool;
  group_other : lql_json_spool;
  group_target : lql_json_spool;
  group_start : nat;
  group_end : nat;
  group_present : bool
}.

Definition group_source (g : key_group) : option lql_json_spool :=
  if from_other g then Some (group_other g) else None.

(** [source = target; target = target == &first ? &second : &first] *)
Definition advance (g : key_group) : key_group :=
  mk_group true (group_target g) (group_other g) 0 (Z.to_nat (spool_size (group_target g))) (group_present g).

Definition apply_to_group (g : key_group) (action : lql_mutation_action)
    (allow_create top_wildcard_consumed : bool) : E key_group :=
  '(present, source, target) ← lql_flat_eq_mutation_apply_ordered_key_action action (group_source g)
    (group_start g) (group_end g) (group_present g) allow_create top_wildcard_consumed (group_target g);
  let g := mk_group (from_other g) (default (group_other g) source) target (group_start g) (group_end g) present in
  mret (if present then advance g else g).

(** [m] reads the value of the key. *)
Definition on_group {A} (g : key_group) (m : E A) : E (A * key_group) :=
  if from_other g then fun st =>
    let '(r, st') := m (mk_emit (group_other g) (emit_target st) (emit_env st) (emit_opens st)) in
    let g := mk_group true (emit_source st') (group_target g) (group_start g) (group_end g) (group_present g) in
    (match r with inl x => inl x | inr a => inr (a, g) end,
     mk_emit (emit_source st) (emit_target st') (emit_env st') (emit_opens st'))
  else a ← m; mret (a, g).

(** [while (target_depth < action->segment_count && ... == "...") ++target_depth;] *)
Definition target_depth (action : lql_mutation_action) : nat :=
  S (length (fst (span (fun s => bytes_eqb s seg_ellipsis) (tail (segments action))))).

(** An action whose first segment is recursive also stands for its part at the key
    itself: that part, and whether the whole action follows; [None] when the value is
    no container it could go into. *)
Definition root_action (g : key_group) (action : lql_mutation_action) (same_recursive_key : bytes -> E bool)
    : E (option (lql_mutation_action * bool) * key_group) :=
  if (1 <? segment_count action)%nat && bytes_eqb (seg action 0) seg_ellipsis then
    let depth := target_depth action in
    let root := with_segments action (take 1 (segments action)) in
    if (segment_count action <=? depth)%nat then mret (Some (root, false), g)
    else
      same ← same_recursive_key (seg action depth);
      if negb same then mret (Some (action, false), g)
      else if (S depth =? segment_count action)%nat then mret (Some (root, false), g)
      else
        '(container, g) ← on_group g (lql_flat_eq_spooled_value_is_container (group_start g));
        mret (if (container : bool) then Some (with_segments action (drop depth (segments action)), true) else None, g)
  else mret (Some (action, false), g).

Definition existing_round (key_start size : nat) (g : key_group) (action : lql_mutation_action) : E key_group :=
  let original_top_wildcard :=
    negb (bytes_eqb (seg action 0) seg_ellipsis) && lql_flat_eq_mutation_top_matches_object_key action in
  matches ← lql_flat_eq_mutation_action_matches_spooled_key action key_start size;
  if negb matches then mret g
  else
    '(root, g) ← root_action g action
      (fun segment => lql_flat_eq_mutation_object_key_matches_segment key_start size segment);
    match root with
    | None => mret g
    | Some (root, apply_recursive_after) =>
        g ← apply_to_group g root (group_present g || negb original_top_wildcard) original_top_wildcard;
        if apply_recursive_after && group_present g then apply_to_group g action true false else mret g
    end.

Fixpoint group_loop (round : key_group -> lql_mutation_action -> E key_group) (g : key_group)
    (l : list lql_mutation_action) : E key_group :=
  match l with
  | [] => mret g
  | action :: l => g ← round g action; group_loop round g l
  end.

(** The value of the key after the actions, written to [out], and whether there is one. *)
Definition lql_flat_eq_mutation_emit_existing_key_group (key_start size value_start value_end : nat)
    (out : lql_json_spool) : E (bool * lql_json_spool) :=
  first ← new_spool;
  second ← new_spool;
  g ← group_loop (existing_round key_start size) (mk_group false second first value_start value_end true) actions;
  if negb (group_present g) then mret (false, out)
  else
    '(_, _, out) ← redirected (group_source g) (lql_json_spool_reset out) (copy (group_start g) (group_end g));
    mret (true, out).

Definition missing_round (key : bytes) (g : key_group) (action : lql_mutation_action) : E key_group :=
  if negb (lql_flat_eq_mutation_action_matches_missing_key action key) then mret g
  else
    '(root, g) ← (if group_present g then
      root_action g action (fun segment => mret (bytes_eqb segment key ||
                              lql_flat_eq_mutation_segment_matches_any_object_key segment))
      else mret (Some (action, false), g));
    match root with
    | None => mret g
    | Some (root, apply_recursive_after) =>
        g ← apply_to_group g root (negb (lql_flat_eq_mutation_top_matches_object_key root)) false;
        if apply_recursive_after && group_present g then apply_to_group g action true false else mret g
    end.

Definition lql_flat_eq_mutation_emit_missing_key_group (group : lql_mutation_action) (out : lql_json_spool)
    : E (bool * lql_json_spool) :=
  if (segment_count group =? 0)%nat then invalid_argument
  else
    first ← new_spool;
    second ← new_spool;
    g ← group_loop (missing_round (seg group 0)) (mk_group false second first 0 0 false) actions;
    if negb (group_present g) then mret (false, out)
    else
      '(_, _, out) ← redirected (group_source g) (lql_json_spool_reset out) lql_json_spool_write_to;
      mret (true, out).

Definition nested_group_round (group : lql_mutation_action) (g : key_group) (action : lql_mutation_action) : E key_group :=
  if negb (lql_flat_eq_mutation_same_top action group) then mret g
  else
    '(source, target) ← lql_flat_eq_mutation_apply_nested_to_spool action (group_source g) (group_start g)
                          (group_end g) false (group_target g);
    mret (advance (mk_group (from_other g) (default (group_other g) source) target (group_start g) (group_end g) true)).

(** Some action is of the group, so that the value is in a spool in the end. *)
Definition lql_flat_eq_mutation_emit_existing_nested_group (group : lql_mutation_action)
    (value_start value_end : nat) : E unit :=
  first ← new_spool;
  second ← new_spool;
  g ← group_loop (nested_group_round group) (mk_group false second first value_start value_end true) actions;
  if from_other g then reading (group_other g) lql_json_spool_write_to else lql_json_spool_write_to.

(** ** A record *)

(** A key that only one action or group of actions touches. *)
Definition exact_only (action : lql_mutation_action) : bool :=
  lql_flat_eq_mutation_exact_top_key action && negb lql_flat_eq_mutation_program_has_top_object_wildcard.

(** The value of a key that one action touches. *)
Definition single_output (action : lql_mutation_action) (value_start value_end : nat) : E unit :=
  let fuel := emit_fuel action (value_end - value_start) in
  let nested := (1 <? segment_count action)%nat in
  if top_of_kind LQL_MUTATION_INCREMENT action then
    lql_flat_eq_mutation_increment action (Some (value_start, value_end))
  else if is_kind action LQL_MUTATION_INCREMENT then
    lql_flat_eq_mutation_nested_increment fuel action value_start value_end 1
  else if is_kind action LQL_MUTATION_SET && nested then
    lql_flat_eq_mutation_nested_set fuel action value_start value_end 1
  else if is_kind action LQL_MUTATION_REMOVE && nested then
    nested_remove fuel action value_start value_end 1
  else lql_flat_eq_mutation_value action.

(** The steps for a member end with whether nothing was written so far and which
    actions were found. *)
Definition marked (size key_start : nat) (first : bool) (found : list bool) : E (bool * list bool) :=
  found ← lql_flat_eq_mutation_key_mark_spooled key_start size found;
  mret (first, found).

(** A member that the one action [i] touches. *)
Definition emit_single (first : bool) (found : list bool) (i : nat) (action : lql_mutation_action)
    (key_start key_end value_end : nat) : E (bool * list bool) :=
  let found := <[i := true]> found in
  if top_of_kind LQL_MUTATION_REMOVE action then mret (first, found)
  else
    comma first ≫= fun _ =>
    keyed key_start key_end (single_output action (S key_end) value_end) ≫= fun _ =>
    mret (false, found).

(** A member whose value all the actions that match its key make. *)
Definition emit_ordered (first : bool) (found : list bool) (size key_start key_end value_end : nat)
    : E (bool * list bool) :=
  group_value ← new_spool;
  '(present, group_value) ← lql_flat_eq_mutation_emit_existing_key_group key_start size (S key_end) value_end
                              group_value;
  first ← (if (present : bool) then
             comma first ≫= fun _ =>
             keyed key_start key_end (reading group_value lql_json_spool_write_to) ≫= fun _ => mret false
           else mret first);
  marked size key_start first found.

(** A member that some action may touch, the first being [action], with index [i]. *)
Definition emit_member (first : bool) (found : list bool) (i : nat) (action : lql_mutation_action)
    (size key_start key_end value_end : nat) : E (bool * list bool) :=
  let count := lql_flat_eq_mutation_group_count action in
  let grouped := (1 <? count)%nat && exact_only action in
  let with_key (value : E unit) :=
    comma first ≫= fun _ => keyed key_start key_end value ≫= fun _ => marked size key_start false found in
  if grouped && lql_flat_eq_mutation_group_is_top_increment action then
    with_key (lql_flat_eq_mutation_increment (lql_flat_eq_mutation_group_increment_action action)
                (Some (S key_end, value_end)))
  else if grouped && lql_flat_eq_mutation_group_is_top_set action then
    match lql_flat_eq_mutation_group_last_set action with
    | None => invalid_argument
    | Some last_set => with_key (lql_flat_eq_mutation_value last_set)
    end
  else if grouped && lql_flat_eq_mutation_group_is_exact_nested action then
    with_key (lql_flat_eq_mutation_emit_existing_nested_group action (S key_end) value_end)
  else if (count =? 1)%nat && exact_only action then emit_single first found i action key_start key_end value_end
  else emit_ordered first found size key_start key_end value_end.

Definition emit_round (size : nat) (state : bool * list bool) (key_start : nat) : E (bool * list bool * nat) :=
  let '(first, found) := state in
  action ← lql_flat_eq_mutation_find_action key_start size;
  '(key_end, value_end) ← member_span key_start size;
  match action with
  | None => comma first ≫= fun _ => copy key_start value_end ≫= fun _ => mret (false, found, value_end)
  | Some (i, action) =>
      state ← emit_member first found i action size key_start key_end value_end;
      mret (state, value_end)
  end.

(** Nothing is made for the action [i]. *)
Definition skips_missing (i : nat) (action : lql_mutation_action) (found : list bool) : bool :=
  let count := lql_flat_eq_mutation_group_count action in
  lql_flat_eq_mutation_nonrecursive_wildcard action || nth i found false ||
  (count <=? 1)%nat && is_kind action LQL_MUTATION_REMOVE ||
  (1 <? count)%nat && lql_flat_eq_mutation_group_seen action found i ||
  (1 <? count)%nat && negb (lql_flat_eq_mutation_group_has_value_creator action).

Definition emit_missing (first : bool) (found : list bool) (i : nat) (action : lql_mutation_action)
    : E (bool * list bool) :=
  let count := lql_flat_eq_mutation_group_count action in
  let key := seg action 0 in
  let grouped := (1 <? count)%nat && exact_only action in
  let with_key (value : E unit) :=
    comma first ≫= fun _ => lql_flat_eq_projection_key key ≫= fun _ => value in
  let marked := lql_flat_eq_mutation_key_mark_missing key found in
  if (count =? 1)%nat && exact_only action then
    with_key
      (if (is_kind action LQL_MUTATION_SET || is_kind action LQL_MUTATION_INCREMENT) && (1 <? segment_count action)%nat
       then lql_flat_eq_mutation_object_chain action 1
       else if is_kind action LQL_MUTATION_INCREMENT then lql_flat_eq_mutation_increment action None
       else lql_flat_eq_mutation_value action) ≫= fun _ =>
    mret (false, <[i := true]> found)
  else if grouped && lql_flat_eq_mutation_group_is_top_increment action then
    with_key (lql_flat_eq_mutation_increment (lql_flat_eq_mutation_group_increment_action action) None) ≫= fun _ =>
    mret (false, marked)
  else if grouped && lql_flat_eq_mutation_group_is_top_set action then
    match lql_flat_eq_mutation_group_last_set action with
    | None => invalid_argument
    | Some last_set => with_key (lql_flat_eq_mutation_value last_set) ≫= fun _ => mret (false, marked)
    end
  else
    group_value ← new_spool;
    '(present, group_value) ← lql_flat_eq_mutation_emit_missing_key_group action group_value;
    if (present : bool) then
      with_key (reading group_value lql_json_spool_write_to) ≫= fun _ => mret (false, marked)
    else mret (first, marked).

Fixpoint missing_loop (first : bool) (found : list bool) (i : nat) (l : list lql_mutation_action) : E bool :=
  match l with
  | [] => mret first
  | action :: l =>
      if skips_missing i action found then missing_loop first found (S i) l
      else
        '(first, found) ← emit_missing first found i action;
        missing_loop first found (S i) l
  end.

Definition lql_flat_eq_mutation_emit : E unit :=
  if (length actions =? 0)%nat then invalid_argument
  else
    size ← source_size;
    if (size <? 2)%nat then json_error
    else
      ch ← lql_flat_eq_spool_byte 0;
      if negb (ch =? ch_lbrace) then json_error
      else
        validate_targets [] actions ≫= fun _ =>
        lql_flat_eq_write [ch_lbrace] ≫= fun _ =>
        '(first, found) ← walk ch_rbrace 0 size (emit_round size) (true, repeat false (length actions));
        missing_loop first found 0 actions ≫= fun _ =>
        lql_flat_eq_write [ch_rbrace; ch_nl].

(** The record is rendered to a spool first, so that a failure writes nothing. *)
Definition lql_flat_eq_mutation_emit_atomic : E unit :=
  rendered ← new_spool;
  '(_, _, rendered) ← redirected None rendered lql_flat_eq_mutation_emit;
  reading rendered lql_json_spool_write_to.

(** The output of a matched record. *)
Definition mutation_output : E unit :=
  if lql_flat_eq_mutation_program_needs_atomic_output actions then lql_flat_eq_mutation_emit_atomic
  else lql_flat_eq_mutation_emit.

Definition lql_flat_eq_projection_then_mutation_emit (keys : list (list bytes))
    (spans : list lql_json_capture_span) : E unit :=
  if negb (lql_flat_eq_projection_found keys spans) then mret tt
  else
    projected ← new_spool;
    '(_, _, projected) ← redirected None projected (lql_flat_eq_projection_object keys spans);
    reading projected mutation_output.
End program.

(** An emission as a step of a stream, the openers of file values answering [opens] for
    each record. *)
Definition stream_step (opens : list open_answer) (m : E unit) : W unit := fun s e =>
  let '(r, st) := m (mk_emit s None e opens) in (r, emit_source st, emit_env st).
