(* ===== verification/MutationWalk.v ===== *)
(** * Walking compact texts

    What the emission of a mutation reads of its spool and writes: a program logic
    for the computations of MutationEmit.v, the compact texts of JSON values as lists
    of members and elements, and the routines that skip values, compare keys and go
    through the members of an object and the elements of an array. *)

From Stdlib Require Import SpecFloat.
From S2P Require Import Prelude.
From S2P Require Import Errors.
From S2P Require Import Number.
From S2P Require Import NumberSpec.
From S2P Require Import Unicode.
From S2P Require Import UnicodeProps.
From S2P Require Import Selector.
From S2P Require Import SelectorJsonProps.
From S2P Require Import JsonGrammar.
From S2P Require Import JsonTree.
From S2P Require Import JsonSpool.
From S2P Require Import SpoolProps.
From S2P Require Import StreamProjection.
From S2P Require Import MutationEmit.

(** ** Computations that read and write *)

(** A callback that fails gives a status that is not OK; what it reads is bytes. *)
Definition loud_read (r : read_answer) : Prop :=
  match r with
  | inl (status, _) => status <> LQL_STATUS_OK
  | inr data => Forall (fun b => 0 <= b < 256) data
  end.
Definition loud_open (o : open_answer) : Prop :=
  match o with
  | Opened reads => Forall loud_read reads
  | Opened_no_reader => True
  | Open_failed status _ => status <> LQL_STATUS_OK
  end.

(** The spool that is read holds [c], the one that is written may be appended to. *)
Record ready (c : bytes) (st : emit_state) : Prop := {
  ready_source : holds c (emit_source st);
  ready_target : forall t, emit_target st = Some t -> exists d, appendable d t;
  ready_opens : Forall loud_open (emit_opens st)
}.

(** [out] was written. *)
Definition grew (out : bytes) (st st' : emit_state) : Prop :=
  match emit_target st, emit_target st' with
  | None, None => delivered (emit_env st') = delivered (emit_env st) ++ out
  | Some t, Some t' => delivered (emit_env st') = delivered (emit_env st) /\
                       forall d, appendable d t -> appendable (d ++ out) t'
  | _, _ => False
  end.

(** Nothing was written. *)
Definition same_output (st st' : emit_state) : Prop :=
  emit_target st' = emit_target st /\ delivered (emit_env st') = delivered (emit_env st).

Definition loud {A} (r : failure + A) : Prop :=
  match r with inl (status, _) => status <> LQL_STATUS_OK | inr _ => True end.

(** Whether a computation is to succeed: in a state in which nothing can go wrong but
    the data, a spool in memory, a writer and an allocator that do not fail. *)
Class Mode := sure : bool.

Record comfortable (st : emit_state) : Prop := {
  comfortable_target : emit_target st = None;
  comfortable_source : spool_file_ (emit_source st) = None;
  comfortable_writer : writer_outcomes (emit_env st) = [];
  comfortable_alloc : alloc_outcomes (emit_env st) = []
}.

Definition succeeds {mode : Mode} {A} (r : failure + A) (st st' : emit_state) : Prop :=
  sure = true -> comfortable st -> (exists a, r = inr a) /\ comfortable st'.

(** [reads c m Q]: from a spool that holds [c], [m] writes nothing and fails with a
    status or ends with a [Q]. *)
Definition reads {mode : Mode} {A} (c : bytes) (m : E A) (Q : A -> Prop) : Prop := forall st, ready c st ->
  let '(r, st') := m st in
  ready c st' /\ same_output st st' /\ loud r /\ succeeds r st st' /\ forall a, r = inr a -> Q a.

(** Nothing is handed to the writer while a spool is written. *)
Definition contained (st st' : emit_state) : Prop :=
  is_Some (emit_target st) -> delivered (emit_env st') = delivered (emit_env st).

(** [runs c m Q]: [m] fails with a status, or ends with an answer and an output that
    are in [Q].  In particular it does not run out of fuel. *)
Definition runs {mode : Mode} {A} (c : bytes) (m : E A) (Q : A -> bytes -> Prop) : Prop := forall st, ready c st ->
  let '(r, st') := m st in
  loud r /\ contained st st' /\ succeeds r st st' /\
  forall a, r = inr a -> ready c st' /\ exists out, grew out st st' /\ Q a out.

Lemma same_grew st st' : same_output st st' -> grew [] st st'.
Proof.
  intros [Ht Hd]. unfold grew. rewrite Ht. destruct (emit_target st); rewrite ?app_nil_r; [|done].
  split; [done|]. intros d. by rewrite app_nil_r.
Qed.

Lemma same_trans st1 st2 st3 : same_output st1 st2 -> same_output st2 st3 -> same_output st1 st3.
Proof. intros [? ?] [? ?]. split; congruence. Qed.

Lemma grew_trans o1 o2 st1 st2 st3 : grew o1 st1 st2 -> grew o2 st2 st3 -> grew (o1 ++ o2) st1 st3.
Proof.
  unfold grew. destruct (emit_target st1), (emit_target st2), (emit_target st3); try done.
  - intros [E1 H1] [E2 H2]. split; [congruence|]. intros d Hd. rewrite (assoc_L (++)). auto.
  - intros E1 E2. by rewrite E2, E1, (assoc_L (++)).
Qed.

Lemma same_contained st st' : same_output st st' -> contained st st'.
Proof. intros [_ H] _. exact H. Qed.

Lemma grew_contained out st st1 st2 : grew out st st1 -> contained st1 st2 -> contained st st2.
Proof.
  unfold grew, contained. intros G H [t Et]. rewrite Et in G. destruct (emit_target st1) as [t1|]; [|done].
  destruct G as [G _]. rewrite H by done. done.
Qed.

Lemma inr_succeeds {mode : Mode} {A} (a : A) st : succeeds (inr a) st st.
Proof. intros _ H. split; [by eexists|done]. Qed.

Lemma succeeds_bind {mode : Mode} {A B} (r : failure + A) (r' : failure + B) st st1 st2 : succeeds r st st1 ->
  (forall a, r = inr a -> succeeds r' st1 st2) -> succeeds r' st st2.
Proof. intros H1 H2 Hs Hst. destruct (H1 Hs Hst) as [[a Ha] H]. by apply (H2 a). Qed.

Section rules.
Context {mode : Mode} (c : bytes).

Lemma runs_read {A} (m : E A) Q : reads c m Q -> runs c m (fun a out => out = [] /\ Q a).
Proof.
  intros H st Hst. specialize (H st Hst). destruct (m st) as [r st'].
  destruct H as (Hr & Hs & Hl & Hok & HQ). split; [done|]. split; [by apply same_contained|]. split; [done|]. intros a ->. split; [done|].
  exists []. split; [by apply same_grew|]. split; [done|by apply HQ].
Qed.

Lemma reads_weaken {A} (m : E A) (P Q : A -> Prop) : (forall a, P a -> Q a) -> reads c m P -> reads c m Q.
Proof. intros H Hm st Hst. specialize (Hm st Hst). destruct (m st). naive_solver. Qed.

Lemma runs_weaken {A} (m : E A) (P Q : A -> bytes -> Prop) : (forall a out, P a out -> Q a out) ->
  runs c m P -> runs c m Q.
Proof. intros H Hm st Hst. specialize (Hm st Hst). destruct (m st). naive_solver. Qed.

Lemma reads_ret {A} (a : A) (Q : A -> Prop) : Q a -> reads c (mret a) Q.
Proof. intros H st Hst. cbn. split_and!; try done; [apply inr_succeeds|by intros ? [= <-]]. Qed.

Lemma runs_ret {A} (a : A) (Q : A -> bytes -> Prop) : Q a [] -> runs c (mret a) Q.
Proof.
  intros H. eapply runs_weaken, runs_read, (reads_ret a (fun x => x = a)); [|done].
  by intros ? ? [-> ->].
Qed.

Lemma reads_fail {A} status message (Q : A -> Prop) : sure = false -> status <> LQL_STATUS_OK ->
  reads c (fail_emit status message) Q.
Proof. intros E1 H st Hst. split_and!; try done. intros E2. congruence. Qed.

Lemma runs_fail {A} status message (Q : A -> bytes -> Prop) : sure = false -> status <> LQL_STATUS_OK ->
  runs c (fail_emit status message) Q.
Proof. intros E1 H st Hst. split_and!; try done. intros E2. congruence. Qed.

Lemma reads_bind {A B} (m : E A) (f : A -> E B) P Q : reads c m P -> (forall a, P a -> reads c (f a) Q) ->
  reads c (m ≫= f) Q.
Proof.
  intros Hm Hf st Hst. unfold mbind, E_bind. specialize (Hm st Hst).
  destruct (m st) as [[x|a] st1]; destruct Hm as (H1 & S1 & L1 & K1 & HP).
  { split_and!; try done. eapply succeeds_bind; [exact K1|]. by intros ? [=]. }
  specialize (Hf a (HP a eq_refl) st1 H1). destruct (f a st1) as [r st2].
  destruct Hf as (H2 & S2 & L2 & K2 & HQ). split_and!; try done; [by eapply same_trans|].
  eapply succeeds_bind; [exact K1|]. by intros ? _.
Qed.

Lemma runs_bind {A B} (m : E A) (f : A -> E B) P Q : runs c m P ->
  (forall a o1, P a o1 -> runs c (f a) (fun b o2 => Q b (o1 ++ o2))) -> runs c (m ≫= f) Q.
Proof.
  intros Hm Hf st Hst. unfold mbind, E_bind. specialize (Hm st Hst).
  destruct (m st) as [[x|a] st1]; destruct Hm as (L1 & C1 & K1 & Hm).
  { split_and!; try done. eapply succeeds_bind; [exact K1|]. by intros ? [=]. }
  destruct (Hm a eq_refl) as (H1 & o1 & G1 & HP). specialize (Hf a o1 HP st1 H1).
  destruct (f a st1) as [r st2]. destruct Hf as (L2 & C2 & K2 & Hf). split; [done|].
  split; [by eapply grew_contained|]. split; [eapply succeeds_bind; [exact K1|]; by intros ? _|]. intros b ->.
  destruct (Hf b eq_refl) as (H2 & o2 & G2 & HQ). split; [done|]. exists (o1 ++ o2).
  split; [by eapply grew_trans|done].
Qed.

Lemma runs_after_read {A B} (m : E A) (f : A -> E B) P Q : reads c m P -> (forall a, P a -> runs c (f a) Q) ->
  runs c (m ≫= f) Q.
Proof.
  intros Hm Hf. eapply runs_bind; [by eapply runs_read|]. intros a o1 [-> Ha]. by apply Hf.
Qed.

(** What reads the source is what a computation on the spool does. *)
Lemma reads_source {A} (m : W A) (Q : A -> Prop) :
  (forall s e, holds c s -> exists r s' e', m s e = (r, s', e') /\ holds c s' /\
     delivered e' = delivered e /\ loud r /\ (forall a, r = inr a -> Q a) /\
     (sure = true -> spool_file_ s = None -> alloc_outcomes e = [] -> (exists a, r = inr a) /\
        spool_file_ s' = None /\ writer_outcomes e' = writer_outcomes e /\ alloc_outcomes e' = [])) ->
  reads c (on_source m) Q.
Proof.
  intros H st [Hs Ht Ho]. cbn. unfold source_do.
  destruct (H (emit_source st) (emit_env st) Hs) as (r & s' & e' & -> & Hh & Hd & Hl & HQ & Hok).
  split_and!; try done. intros Hsure [T1 S1 W1 A1]. destruct (Hok Hsure S1 A1) as (Hr & S2 & W2 & A2).
  split; [done|]. split; cbn; congruence.
Qed.
End rules.

(** ** What the spool does *)

(** No byte is handed to the writer. *)
Definition quiet {A} (m : W A) : Prop := forall s e, delivered (m s e).2 = delivered e.

Lemma quiet_read_bind {A B} (m : W A) (f : A -> W B) : quiet m -> (forall a, quiet (f a)) -> quiet (m ≫= f).
Proof.
  intros Hm Hf s e. unfold mbind, W_bind. specialize (Hm s e). destruct (m s e) as [[[x|a] s1] e1]; [done|].
  by rewrite Hf.
Qed.

Ltac quiet := repeat first
  [ done
  | apply quiet_read_bind; [|intros ?]
  | match goal with |- quiet (match ?x with _ => _ end) => destruct x end
  | match goal with |- quiet (if ?x then _ else _) => destruct x end
  | match goal with |- quiet (let '(_, _) := ?x in _) => destruct x end ].

Lemma quiet_seek off : quiet (lql_json_spool_seek off).
Proof. unfold lql_json_spool_seek. quiet. Qed.

Lemma quiet_fread n : quiet (spool_fread n).
Proof. unfold spool_fread. quiet. Qed.

Lemma quiet_cache_seek message off : quiet (cache_seek message off).
Proof. unfold cache_seek. apply quiet_read_bind; [apply quiet_seek|]. intros ?. quiet. Qed.

Lemma quiet_fill_cache message off n : quiet (fill_cache message off n).
Proof. unfold fill_cache. apply quiet_read_bind; [apply quiet_fread|]. intros ?. quiet. Qed.

Lemma quiet_byte_at off : quiet (lql_json_spool_byte_at off).
Proof. unfold lql_json_spool_byte_at, need_cache. quiet. Qed.

Lemma quiet_find_loop fuel : forall pos stop escaped, quiet (find_string_loop fuel pos stop escaped).
Proof.
  induction fuel as [|fuel IH]; intros pos stop escaped; [done|]. cbn [find_string_loop].
  destruct (stop <=? pos)%nat; [done|]. apply quiet_read_bind; [apply quiet_fill_cache|]. intros d. quiet.
Qed.

Lemma quiet_find_string_end off stop : quiet (lql_json_spool_find_string_end off stop).
Proof.
  unfold lql_json_spool_find_string_end. apply quiet_read_bind; [done|]. intros s.
  destruct (_ || _); [done|]. apply quiet_read_bind; [apply quiet_byte_at|]. intros ch.
  destruct (negb _); [done|]. destruct (spool_file_ s); [|quiet].
  apply quiet_read_bind; [apply quiet_cache_seek|]. intros _. apply quiet_find_loop.
Qed.

Lemma take_cons_pos (x : Z) l k : (0 < k)%nat -> take k (x :: l) = x :: take (k - 1) l.
Proof. intros H. destruct k; [lia|]. cbn. do 2 f_equal. lia. Qed.

(** A step on the spool that is read, given as it goes. *)
Lemma source_step {A} (m : W A) st r s' e' : m (emit_source st) (emit_env st) = (r, s', e') ->
  on_source m st = (r, mk_emit s' (emit_target st) e' (emit_opens st)).
Proof. intros E1. cbn. unfold source_do. by rewrite E1. Qed.

(** What a spool in memory does, without files. *)
Lemma byte_in_memory c off s e : holds c s -> spool_file_ s = None -> (off < length c)%nat ->
  exists y, lql_json_spool_byte_at off s e = (inr y, s, e).
Proof.
  intros Hh Hf Hoff. destruct (holds_memory _ _ Hh) as [m Hm].
  unfold lql_json_spool_byte_at, mbind, W_bind at 1, spool_get. rewrite Hm, (holds_size _ _ Hh), Hf.
  replace (len c <=? Z.of_nat off) with false by (symmetry; unfold len; lia). by eexists.
Qed.

Section source.
Context {mode : Mode} (c : bytes).

Lemma reads_byte off : (sure = true -> (off < length c)%nat) ->
  reads c (lql_flat_eq_spool_byte off) (fun x => c !! off = Some x).
Proof.
  intros Hoff. apply reads_source. intros s e Hs. pose proof (quiet_byte_at off s e) as Hd.
  destruct (byte_at_spec c off s e Hs) as (r & s' & e' & E1 & Hs' & _ & Hr). rewrite E1 in Hd.
  exists r, s', e'. split_and!; try done.
  - destruct r as [[status msg]|]; [|done]. cbn in *. unfold read_error in Hr. intros ->. naive_solver.
  - by intros a ->.
  - intros Hsure Hf Ha. destruct (byte_in_memory c off s e Hs Hf (Hoff Hsure)) as [y Hy].
    rewrite Hy in E1. injection E1 as <- <- <-. by split; [eexists|].
Qed.

(** The end of the string at [off], from a quote that no backslash escapes. *)
Lemma reads_string off stop pre body post : c = pre ++ ch_quote :: body ++ ch_quote :: post ->
  off = length pre -> string_body body -> (off + length body + 2 <= stop <= length c)%nat ->
  reads c (lql_flat_eq_skip_string off stop) (fun i => i = (off + length body + 2)%nat).
Proof.
  intros Hc -> Hb Hstop. unfold lql_flat_eq_skip_string. rewrite (proj2 (Nat.leb_gt _ _)) by lia.
  apply reads_source. intros s e Hs. pose proof (quiet_find_string_end (length pre) stop s e) as Hd.
  destruct (find_string_end_spec c (length pre) stop s e Hs ltac:(lia) ltac:(lia)) as (r & s' & e' & E1 & Hs' & Hr).
  rewrite E1 in Hd. exists r, s', e'.
  assert (Htext : exists post', take (stop - length pre) (drop (length pre) c) = ch_quote :: body ++ ch_quote :: post').
  { exists (take (stop - length pre - length body - 2) post). rewrite Hc, drop_app_length.
    rewrite take_cons_pos by lia. f_equal.
    rewrite take_app_ge by lia. f_equal. rewrite take_cons_pos by lia. do 2 f_equal. lia. }
  destruct Htext as [post' Htext]. rewrite Htext in Hr.
  assert (He : string_ends (ch_quote :: body ++ ch_quote :: post') (length body + 2)) by (exists body, post'; done).
  split_and!; try done.
  - destruct r as [[status msg]|]; [|done]. cbn in *. unfold read_error in Hr. intros ->. naive_solver.
  - intros i ->. cbn in Hr. destruct (i - length pre)%nat as [|k] eqn:Ei; [destruct Hr as (? & ? & _ & _ & ?); lia|].
    apply chunk_end_iff in Hr as [x Hx].
    replace (length body + 2)%nat with (S (S (length body))) in He by lia. apply chunk_end_iff in He as [y Hy].
    rewrite Hx in Hy. injection Hy as _ ->. lia.
  - intros _ Hf Ha. unfold lql_json_spool_find_string_end, mbind, W_bind at 1, spool_get in E1.
    rewrite (holds_size _ _ Hs), (proj2 (Nat.leb_gt _ _)) in E1 by lia.
    replace (len c <? Z.of_nat stop) with false in E1 by (symmetry; unfold len; lia). cbn [orb] in E1.
    unfold W_bind at 1 in E1. destruct (byte_in_memory c (length pre) s e Hs Hf ltac:(lia)) as [y Hy].
    destruct (byte_at_spec c (length pre) s e Hs) as (r1 & s1 & e1 & E2 & _ & _ & Hr1). rewrite Hy in E2. injection E2 as <- <- <-.
    cbn in Hr1. rewrite Hc, list_lookup_middle in Hr1 by done. injection Hr1 as <-.
    rewrite Hy, Z.eqb_refl, Hf in E1. cbn [negb] in E1.
    pose proof (holds_exact _ _ Hs Hf) as Hx. unfold stored in Hx. rewrite Hf in Hx. rewrite Hx in E1.
    destruct (lql_json_spool_string_chunk_end _ _) as [x [i|]]; injection E1 as <- <- <-; [by split; [eexists|]|].
    exfalso. cbn in Hr. destruct Hr as [[_ Hr]|Hr]; [by apply (Hr _ He)|]. by destruct Hr.
Qed.

(** An allocation that fails is an error. *)
Lemma reads_alloc_then {A} status message (m : E A) Q : status <> LQL_STATUS_OK -> reads c m Q ->
  reads c (ok ← on_source next_alloc; if negb ok then fail_emit status message else m) Q.
Proof.
  intros Hstatus Hm st Hst. unfold mbind, E_bind. rewrite (source_step next_alloc st _ _ _ eq_refl).
  set (st1 := mk_emit _ _ _ _). assert (Hst1 : ready c st1) by (destruct Hst; by split).
  specialize (Hm st1 Hst1). destruct (default true (head (alloc_outcomes (emit_env st)))) eqn:Ea; cbn [negb].
  - destruct (m st1) as [r st2]. destruct Hm as (H1 & H2 & H3 & H4 & H5). split_and!; try done.
    intros Hsure [T S W Al]. apply (H4 Hsure). split; try done. cbn. by rewrite Al.
  - unfold fail_emit. split_and!; try done. intros _ [_ _ _ Al]. by rewrite Al in Ea.
Qed.

Lemma reads_size : reads c source_size (fun n => n = length c).
Proof.
  eapply reads_bind; [apply (reads_source _ _ (fun s => holds c s))|].
  - intros s e Hs. eexists (inr s), s, e. split_and!; try done; [by intros ? [= <-]|]. intros. by split; [eexists|].
  - intros s Hs. apply reads_ret. rewrite (holds_size _ _ Hs). unfold len. lia.
Qed.

(** ** What is written *)

Lemma runs_write data : runs c (lql_flat_eq_write data) (fun _ out => out = data).
Proof.
  intros st [Hs Ht Ho]. cbn. unfold emit_write. destruct (emit_target st) as [t|] eqn:Et.
  - destruct (Ht t eq_refl) as [d Hd]. unfold lql_flat_eq_spool_writer.
    destruct (spool_append_spec d data t (emit_env st) Hd) as (r & t' & e' & E1 & Hdel & Hr). rewrite E1.
    split; [destruct r as [[status msg]|]; [|done]; cbn in *; intros ->; naive_solver|].
    split; [by intros _|]. split; [intros _ [T _ _ _]; by rewrite Et in T|]. intros [] ->. split; [split; cbn; try done; intros ? [= <-]; by eexists|].
    exists data. split; [|done]. unfold grew. rewrite Et. cbn. split; [done|]. intros d' Hd'.
    destruct (spool_append_spec d' data t (emit_env st) Hd') as (r & t1 & e1 & E2 & _ & Hr').
    rewrite E1 in E2. by injection E2 as <- <- <-.
  - unfold source_do, call_writer. destruct (default LQL_STATUS_OK (head (writer_outcomes (emit_env st)))) eqn:Ew;
      (split; [done|]); (split; [intros [t Ht']; by rewrite Et in Ht'|]);
      (split; [intros _ [T S Wr Al]; first [by rewrite Wr in Ew|split; [by eexists|]; split; try done; cbn; by rewrite Wr]|]);
      intros [] [=].
    split; [split; cbn; try done; by rewrite Et|].
    exists data. split; [|done]. unfold grew. by rewrite Et.
Qed.

Lemma runs_write_then {A} data (m : E A) Q : runs c m (fun a out => Q a (data ++ out)) ->
  runs c (lql_flat_eq_write data ≫= fun _ => m) Q.
Proof. intros H. eapply runs_bind; [apply runs_write|]. by intros _ ? ->. Qed.

Lemma slice_loop_runs capacity fuel : (0 < capacity)%nat -> forall off n, (off + n <= length c)%nat -> (n <= fuel)%nat ->
  forall st, ready c st -> is_Some (spool_file_ (emit_source st)) ->
  let '(r, st') := write_slice_loop (F := E) fuel capacity off n st in
  loud r /\ contained st st' /\ forall a, r = inr a -> ready c st' /\ grew (take n (drop off c)) st st'.
Proof.
  intros Hcap. induction fuel as [|fuel IH]; intros off n Hoff Hn st Hst [f Hf].
  { assert (n = 0%nat) as -> by lia. cbn. split; [done|]. split; [done|]. intros a _. split; [done|]. by apply same_grew. }
  destruct n as [|n]; [cbn; split; [done|]; split; [done|]; intros a _; split; [done|]; by apply same_grew|].
  destruct Hst as [Hs Ht Ho]. cbn [write_slice_loop]. set (amount := Nat.min (S n) capacity).
  unfold mbind at 1; cbn [output_bind E_output]; unfold E_bind at 1.
  destruct (seek_spec c (emit_source st) (emit_env st) f off Hs Hf) as (b & e1 & E1 & Hd1 & _).
  rewrite (source_step _ _ _ _ _ E1). destruct b; cbn [negb]; [|split; [done|]; split; [intros _; exact Hd1|done]].
  set (s1 := with_file (emit_source st) _). set (st1 := mk_emit s1 _ _ _).
  unfold mbind at 1; cbn [output_bind E_output]; unfold E_bind at 1.
  assert (Hh1 : holds c s1) by by apply holds_refile.
  destruct (fread_spec c s1 e1 (mk_file (file_bytes f) off) amount Hh1 eq_refl) as (d & e2 & E2 & Hd2 & _ & Hd).
  cbn [file_pos file_bytes] in *. destruct Hd as [Hd _]; [lia|].
  rewrite (source_step _ st1 _ _ _ E2). set (s2 := with_file s1 _). set (st2 := mk_emit s2 _ _ _).
  assert (Hst2 : ready c st2) by (split; [by apply (holds_refile c s1 (mk_file (file_bytes f) off))|done|done]).
  assert (Hsame : same_output st st2) by (split; [done|cbn; congruence]).
  destruct (length d =? amount)%nat eqn:El; cbn [negb]; [|split; [done|]; split; [by apply same_contained|done]].
  apply Nat.eqb_eq in El. specialize (Hd El).
  unfold mbind at 1; cbn [output_bind E_output]; unfold E_bind at 1.
  pose proof (runs_write d st2 Hst2) as Hw. unfold lql_flat_eq_write in Hw.
  assert (Hfile : forall r st3, write_bytes (F := E) d st2 = (r, st3) -> is_Some (spool_file_ (emit_source st3))).
  { cbn. unfold emit_write. destruct (emit_target st2) as [t|]; intros r st3.
    - destruct (lql_flat_eq_spool_writer _ _ _) as [[? ?] ?]. intros [= _ <-]. by eexists.
    - unfold source_do, call_writer. intros E3.
      assert (emit_source st3 = s2) as -> by (destruct (default _ _); by injection E3 as _ <-). by eexists. }
  destruct (write_bytes (F := E) d st2) as [[x|[]] st3]; destruct Hw as (L3 & C3 & _ & Hw).
  { split; [done|]. split; [|done]. by eapply grew_contained; [apply same_grew|]. }
  destruct (Hw tt eq_refl) as (Hst3 & o & G3 & ->).
  specialize (IH (off + amount)%nat (S n - amount)%nat ltac:(lia) ltac:(lia) st3 Hst3 (Hfile _ _ eq_refl)).
  destruct (write_slice_loop (F := E) fuel capacity (off + amount) (S n - amount) st3) as [r st4].
  destruct IH as (L4 & C4 & IH). split; [done|].
  split; [eapply grew_contained; [by apply same_grew|]; by eapply grew_contained|].
  intros a ->. destruct (IH a eq_refl) as [Hst4 G4]. split; [done|].
  pose proof (grew_trans _ _ _ _ _ (same_grew _ _ Hsame) (grew_trans _ _ _ _ _ G3 G4)) as G.
  cbn [app] in G. replace (take (S n) (drop off c)) with (d ++ take (S n - amount) (drop (off + amount) c)); [done|].
  rewrite Hd, <- drop_drop, take_take_drop. f_equal. lia.
Qed.

Lemma runs_slice off n : (off + n <= length c)%nat ->
  runs c (lql_json_spool_write_slice off n) (fun _ out => out = take n (drop off c)).
Proof.
  intros Hn st Hst. pose proof Hst as [Hs Ht Ho]. destruct (holds_memory _ _ Hs) as [m Hm].
  assert (Hfile : forall r st', is_Some (spool_file_ (emit_source st)) -> @succeeds mode unit r st st').
  { intros r st' [f Hf] _ [_ S _ _]. congruence. }
  unfold lql_json_spool_write_slice. unfold mbind at 1; cbn [output_bind E_output]; unfold E_bind at 1.
  rewrite (source_step spool_get st _ _ _ eq_refl).
  replace (mk_emit (emit_source st) (emit_target st) (emit_env st) (emit_opens st)) with st by by destruct st.
  rewrite Hm, (holds_size _ _ Hs).
  replace (len c <? Z.of_nat off) with false by (symmetry; unfold len; lia).
  replace (len c - Z.of_nat off <? Z.of_nat n) with false by (symmetry; unfold len; lia). cbn [orb].
  destruct (spool_file_ (emit_source st)) as [f|] eqn:Ef.
  - destruct (n =? 0)%nat eqn:E0; [apply Nat.eqb_eq in E0; subst; by apply runs_ret|].
    unfold mbind at 1; cbn [output_bind E_output]; unfold E_bind at 1.
    rewrite (source_step next_alloc st _ _ _ eq_refl). set (e1 := mk_env _ _ _ _). set (st1 := mk_emit _ _ _ _).
    destruct (default true _); cbn [negb]; [|split_and!; try done; apply Hfile; by eexists].
    pose proof (slice_loop_runs (Nat.min n (Z.to_nat LQL_JSON_SPOOL_IO_BUFFER_BYTES)) n
      ltac:(apply Nat.eqb_neq in E0; unfold LQL_JSON_SPOOL_IO_BUFFER_BYTES; lia) off n Hn (le_n n) st1
      ltac:(by split) ltac:(by eexists)) as H.
    destruct (write_slice_loop (F := E) _ _ off n st1) as [r st2]. destruct H as (L2 & C2 & H). split; [done|].
    split; [exact C2|]. split; [apply Hfile; by eexists|]. intros a Ha. destruct (H a Ha) as [H2 G2]. split; [done|]. eexists. split; [|done].
    apply (grew_trans [] _ st st1 st2); [|done]. by apply same_grew.
  - pose proof (holds_exact _ _ Hs Ef) as Hx. unfold stored in Hx. rewrite Ef, Hm in Hx. cbn in Hx. subst m.
    by apply runs_write.
Qed.

Lemma runs_write_to : runs c lql_json_spool_write_to (fun _ out => out = c).
Proof.
  unfold lql_json_spool_write_to. eapply runs_after_read.
  - apply (reads_source c spool_get (fun s => holds c s)). intros s e Hs.
    eexists (inr s), s, e. split_and!; try done; [by intros ? [= <-]|]. intros. by split; [eexists|].
  - intros s Hs. rewrite (holds_size _ _ Hs). replace (Z.to_nat (len c)) with (length c) by (unfold len; lia).
    eapply runs_weaken, runs_slice; [|lia]. intros _ out ->. by rewrite drop_0, firstn_all.
Qed.
End source.

(** ** Other spools *)

Section spools.
Context {mode : Mode} (c : bytes).

(** A state with a spool to write is not one in which success is asked for. *)
Hypothesis not_sure : sure = false.

Lemma succeeds_not {A} (r : failure + A) st st' : succeeds r st st'.
Proof. intros H. congruence. Qed.

Lemma reads_new_spool : reads c new_spool (fun s => appendable [] s).
Proof.
  intros st Hst. unfold new_spool, lql_json_spool_init_with_allocator, mbind, W_bind, next_alloc, spool_put.
  destruct Hst as [Hs Ht Ho]. destruct (default true _); cbn.
  - split_and!; try done; [by apply succeeds_not|]. intros s [= <-]. split; [split| |]; cbn; try done; by eexists.
  - split_and!; try done. by apply succeeds_not.
Qed.

(** [m] writes another spool. *)
Lemma runs_redirected {A} (m : E A) d t Q : appendable d t -> runs c m Q ->
  runs c (redirected None t m) (fun '(a, s, t') out => out = [] /\ s = None /\
    exists o, appendable (d ++ o) t' /\ Q a o).
Proof.
  intros Hd Hm st [Hs Ht Ho]. unfold redirected. cbn [default].
  specialize (Hm (mk_emit (emit_source st) (Some t) (emit_env st) (emit_opens st))
    ltac:(split; [done|intros ? [= <-]; by exists d|done])).
  destruct (m _) as [[x|a] st']; destruct Hm as (L & C & _ & Hm); [split; [done|]; split; [intros _; by apply C|]; split; [by apply succeeds_not|done]|].
  split; [done|]. split; [intros _; by apply C|]. split; [by apply succeeds_not|]. intros [[a' s] t'] [= <- <- <-].
  destruct (Hm a eq_refl) as ([Hs' _ Ho'] & o & G & HQ). split; [by split|]. unfold grew in G. cbn in G.
  destruct (emit_target st') as [t'|]; [|done]. destruct G as [Gd Gt].
  exists []. split; [apply same_grew; by split|]. split_and!; try done. exists o. auto.
Qed.

(** [m] reads another spool and writes a third. *)
Lemma runs_redirected_from {A} (m : E A) c' s d t Q : holds c' s -> appendable d t -> runs c' m Q ->
  runs c (redirected (Some s) t m) (fun '(a, s', t') out => out = [] /\ exists s1 o, s' = Some s1 /\ holds c' s1 /\
    appendable (d ++ o) t' /\ Q a o).
Proof.
  intros Hs' Hd Hm st [Hs Ht Ho]. unfold redirected. cbn [default].
  specialize (Hm (mk_emit s (Some t) (emit_env st) (emit_opens st))
    ltac:(split; [done|intros ? [= <-]; by exists d|done])).
  destruct (m _) as [[x|a] st']; destruct Hm as (L & C & _ & Hm); [split; [done|]; split; [intros _; by apply C|]; split; [by apply succeeds_not|done]|].
  split; [done|]. split; [intros _; by apply C|]. split; [by apply succeeds_not|]. intros [[a' s1] t'] [= <- <- <-].
  destruct (Hm a eq_refl) as ([Hs1 _ Ho'] & o & G & HQ). split; [by split|]. unfold grew in G. cbn in G.
  destruct (emit_target st') as [t'|]; [|done]. destruct G as [Gd Gt].
  exists []. split; [apply same_grew; by split|]. split; [done|]. exists (emit_source st'), o. auto.
Qed.

Lemma runs_reading {A} (m : E A) c' s Q : holds c' s -> runs c' m Q -> runs c (reading s m) Q.
Proof.
  intros Hs' Hm st [Hs Ht Ho]. unfold reading.
  specialize (Hm (mk_emit s (emit_target st) (emit_env st) (emit_opens st)) ltac:(by split)).
  destruct (m _) as [r st']. destruct Hm as (L & C & _ & Hm). split; [done|]. split; [exact C|]. split; [by apply succeeds_not|]. intros a Ha.
  destruct (Hm a Ha) as ([Hs1 Ht' Ho'] & o & G & HQ). split; [by split|]. by exists o.
Qed.

(** What fails is put aside. *)
Lemma reads_or_else {A} (m : E A) (x : A) Q : reads c m Q -> Q x -> reads c (or_else m x) Q.
Proof.
  intros Hm Hx st Hst. unfold or_else. specialize (Hm st Hst).
  destruct (m st) as [[f|a] st']; destruct Hm as (H1 & H2 & H3 & _ & H4); split_and!; try done;
    try (by apply succeeds_not); by intros ? [= <-].
Qed.
End spools.

(** ** Compact texts *)

(** A member: the characters of its key and the text of its value, with what they
    denote. *)
Record member := mk_member { m_chars : bytes; m_key : bytes; m_text : bytes; m_value : json }.

Definition member_text (m : member) : bytes := quoted (m_chars m) ++ ch_colon :: m_text m.
Definition member_pair (m : member) : bytes * json := (m_key m, m_value m).

(** Texts with commas between them, and before them unless they are the [first]. *)
Fixpoint items_text (first : bool) (l : list bytes) : bytes :=
  match l with
  | [] => []
  | x :: l => (if first then [] else [ch_comma]) ++ x ++ items_text false l
  end.

(** [compact w v]: [w] is the compact text of [v]. *)
Inductive compact : bytes -> json -> Prop :=
| compact_string b t : chars_text b t -> compact (quoted b) (JString t)
| compact_bool (x : bool) : compact (bs (if x then "true" else "false")) (JBool x)
| compact_null : compact (bs "null") JNull
| compact_number w : is_number w -> compact w (JNumber w)
| compact_object l : compact_members l ->
    compact (ch_lbrace :: items_text true (map member_text l) ++ [ch_rbrace]) (JObject (map member_pair l))
| compact_array l : compact_elements l ->
    compact (ch_lbracket :: items_text true (map fst l) ++ [ch_rbracket]) (JArray (map snd l))
with compact_members : list member -> Prop :=
| members_nil : compact_members []
| members_cons m l : chars_text (m_chars m) (m_key m) -> compact (m_text m) (m_value m) ->
    compact_members l -> compact_members (m :: l)
with compact_elements : list (bytes * json) -> Prop :=
| elements_nil : compact_elements []
| elements_cons w v l : compact w v -> compact_elements l -> compact_elements ((w, v) :: l).

Scheme compact_mind := Minimality for compact Sort Prop
  with compact_members_mind := Minimality for compact_members Sort Prop
  with compact_elements_mind := Minimality for compact_elements Sort Prop.
Combined Scheme compact_mutind from compact_mind, compact_members_mind, compact_elements_mind.

Definition good_member (m : member) : Prop := chars_text (m_chars m) (m_key m) /\ compact (m_text m) (m_value m).

Lemma compact_members_all l : compact_members l <-> Forall good_member l.
Proof.
  split; [induction 1; constructor; [by split|done]|]. induction 1 as [|m l [H1 H2] _ IH]; by constructor.
Qed.

Lemma compact_elements_all l : compact_elements l <-> Forall (fun x => compact (fst x) (snd x)) l.
Proof.
  split; [induction 1; by constructor|]. induction 1 as [|[w v] l H _ IH]; by constructor.
Qed.

Lemma items_cons x y l : items_text true (x :: y :: l) = x ++ ch_comma :: items_text true (y :: l).
Proof. done. Qed.

Lemma items_one x : items_text true [x] = x.
Proof. apply app_nil_r. Qed.

(** A compact text denotes its value. *)
Lemma compact_denotes_value :
  (forall w v, compact w v -> json_of w v) /\
  (forall l, compact_members l -> l <> [] -> members_of (items_text true (map member_text l) ++ [ch_rbrace]) (map member_pair l)) /\
  (forall l, compact_elements l -> l <> [] -> elements_of (items_text true (map fst l) ++ [ch_rbracket]) (map snd l)).
Proof.
  assert (N : spaces []) by constructor.
  apply compact_mutind; try (intros; by constructor).
  - intros l _ IH. destruct l as [|m l]; [by apply (of_empty_object [])|]. apply (of_object []); [done|by apply IH].
  - intros l _ IH. destruct l as [|m l]; [by apply (of_empty_array [])|]. apply (of_array []); [done|by apply IH].
  - done.
  - intros m l Hk _ Hv _ IH _.
    assert (Hm : member_of (member_text m) (m_key m) (m_value m)).
    { pose proof (of_key _ _ [] [] _ _ [] Hk N N Hv N) as H. cbn in H. by rewrite app_nil_r in H. }
    destruct l as [|m' l]; [cbn [map fst snd]; rewrite items_one; by apply of_last_member|].
    cbn [map]. rewrite items_cons, <- (assoc_L (++)), <- app_comm_cons.
    apply (of_member _ _ _ []); [done|done|]. by apply IH.
  - done.
  - intros w v l _ Hv _ IH _. destruct l as [|[w' v'] l]; [cbn [map fst snd]; rewrite items_one; by apply (of_last_element _ _ [])|].
    cbn [map fst snd]. rewrite items_cons, <- (assoc_L (++)), <- app_comm_cons.
    apply (of_element _ _ [] []); [done..|]. by apply IH.
Qed.

(** The compact text of a JSON text is one of its value. *)
Lemma compact_of_value :
  (forall n w c, json_value n w c -> exists v, compact c v /\ json_of w v) /\
  (forall n w c, json_members n w c -> exists l, l <> [] /\ compact_members l /\
     c = items_text true (map member_text l) ++ [ch_rbrace] /\ members_of w (map member_pair l)) /\
  (forall n w c, json_member n w c -> exists m, good_member m /\ c = member_text m /\ member_of w (m_key m) (m_value m)) /\
  (forall n w c, json_elements n w c -> exists l, l <> [] /\ compact_elements l /\
     c = items_text true (map fst l) ++ [ch_rbracket] /\ elements_of w (map snd l)).
Proof.
  apply json_mutind.
  - intros n w Hw. destruct (string_denotes w Hw) as (b & t & -> & Hb). exists (JString t). split; by constructor.
  - intros n w [<-|[<-|[<-|[]]]]; [exists (JBool true)|exists (JBool false)|exists JNull]; split;
      try exact compact_null; try exact of_null;
      [apply (compact_bool true)|apply (of_bool true)|apply (compact_bool false)|apply (of_bool false)].
  - intros n w Hw. exists (JNumber w). split; by constructor.
  - intros n sp Hsp. exists (JObject []). split; [apply (compact_object []); constructor|by constructor].
  - intros n sp w c Hsp _ (l & Hl & Hg & -> & Hw). exists (JObject (map member_pair l)). split; by constructor.
  - intros n sp Hsp. exists (JArray []). split; [apply (compact_array []); constructor|by constructor].
  - intros n sp w c Hsp _ (l & Hl & Hg & -> & Hw). exists (JArray (map snd l)). split; by constructor.
  - intros n v c _ (m & [H1 H2] & -> & Hm). exists [m]. split; [done|]. split; [constructor; [done..|constructor]|].
    split; [cbn [map fst]; by rewrite items_one|]. by constructor.
  - intros n v c sp w c' _ (m & [H1 H2] & -> & Hm) Hsp _ (l & Hl & Hg & -> & Hw). exists (m :: l).
    split; [done|]. split; [by constructor|]. split; [|by constructor].
    destruct l as [|m' l]; [done|]. cbn [map]. by rewrite items_cons, <- (assoc_L (++)), <- app_comm_cons.
  - intros n k v c sp1 sp2 sp3 Hk H1 H2 _ (x & Hc & Hx) H3.
    destruct (string_denotes k Hk) as (b & t & -> & Hb). exists (mk_member b t c x).
    split; [done|]. split; [done|]. by constructor.
  - intros n v c sp _ (x & Hc & Hx) Hsp. exists [(c, x)]. split; [done|]. split; [constructor; [done|constructor]|].
    split; [cbn [map fst]; by rewrite items_one|]. by constructor.
  - intros n v c sp sp' w c' _ (x & Hc & Hx) Hsp Hsp' _ (l & Hl & Hg & -> & Hw). exists ((c, x) :: l).
    split; [done|]. split; [by constructor|]. split; [|by constructor].
    destruct l as [|[w' v'] l]; [done|]. cbn [map fst]. by rewrite items_cons, <- (assoc_L (++)), <- app_comm_cons.
Qed.

(** What the elements and members nest is bounded together. *)
Lemma chars_of_text b t : chars_text b t -> json_chars b.
Proof. induction 1; eauto using chars_nil, chars_scalar, chars_unicode, chars_pair.
  apply chars_escape; [|done]. cbn in *. naive_solver. Qed.

Lemma json_value_deeper :
  (forall n w c, json_value n w c -> forall n', (n <= n')%nat -> json_value n' w c) /\
  (forall n w c, json_members n w c -> forall n', (n <= n')%nat -> json_members n' w c) /\
  (forall n w c, json_member n w c -> forall n', (n <= n')%nat -> json_member n' w c) /\
  (forall n w c, json_elements n w c -> forall n', (n <= n')%nat -> json_elements n' w c).
Proof.
  apply json_mutind; intros;
    try match goal with H : (S _ <= ?n')%nat |- json_value ?n' _ _ => destruct n'; [lia|] end;
    eauto with json; [apply value_object|apply value_array]; auto with lia.
Qed.

Lemma compact_is_json :
  (forall w v, compact w v -> exists n, json_value n w w) /\
  (forall l, compact_members l -> exists n, l <> [] -> let w := items_text true (map member_text l) ++ [ch_rbrace] in
     json_members n w w) /\
  (forall l, compact_elements l -> exists n, l <> [] -> let w := items_text true (map fst l) ++ [ch_rbracket] in
     json_elements n w w).
Proof.
  assert (N : spaces []) by constructor.
  destruct json_value_deeper as (D1 & D2 & D3 & D4).
  apply compact_mutind.
  - intros b t H%chars_of_text. exists 0%nat. apply value_string. by exists b.
  - intros x. exists 0%nat. apply value_literal. destruct x; cbn; auto.
  - exists 0%nat. apply value_literal. cbn; auto.
  - intros w H. exists 0%nat. by apply value_number.
  - intros l _ [n IH]. exists (S n). destruct l; [by apply (value_empty_object n [])|].
    apply (value_object n []); [done|by apply IH].
  - intros l _ [n IH]. exists (S n). destruct l; [by apply (value_empty_array n [])|].
    apply (value_array n []); [done|by apply IH].
  - by exists 0%nat.
  - intros m l Hk%chars_of_text _ [n1 Hv] _ [n2 IH]. exists (Nat.max n1 n2). intros _ w. subst w.
    assert (Hm : json_member (Nat.max n1 n2) (member_text m) (member_text m)).
    { pose proof (member_intro (Nat.max n1 n2) (quoted (m_chars m)) (m_text m) (m_text m) [] [] []
        ltac:(by exists (m_chars m)) N N ltac:(eapply D1; [done|lia]) N) as H. cbn in H. by rewrite app_nil_r in H. }
    destruct l as [|m' l]; [cbn [map fst snd]; rewrite items_one; by apply members_last|].
    cbn [map]. rewrite items_cons, <- (assoc_L (++)), <- app_comm_cons. apply (members_more _ _ _ []); [done|done|].
    eapply D2; [by apply IH|lia].
  - by exists 0%nat.
  - intros w v l _ [n1 Hv] _ [n2 IH]. exists (Nat.max n1 n2). intros _ x. subst x.
    assert (Hw : json_value (Nat.max n1 n2) w w) by (eapply D1; [done|lia]).
    destruct l as [|[w' v'] l]; [cbn [map fst snd]; rewrite items_one; by apply (elements_last _ _ _ [])|].
    cbn [map fst]. rewrite items_cons, <- (assoc_L (++)), <- app_comm_cons. apply (elements_more _ _ _ [] []); [done..|].
    eapply D4; [by apply IH|lia].
Qed.

(** ** Skipping *)

Lemma compact_json w v : compact w v -> json_of w v.
Proof. apply compact_denotes_value. Qed.

Lemma utf8_bytes_plain x : scalar x -> 0x20 <= x -> x <> ch_quote -> x <> ch_backslash ->
  Forall (fun y => y <> ch_quote /\ y <> ch_backslash) (utf8_arith x).
Proof. intros [H _] H1 H2 H3. unfold utf8_arith. repeat case_if; bool_hyps; repeat constructor; zdivs. Qed.

Lemma body_app_plain x b : Forall (fun y => y <> ch_quote /\ y <> ch_backslash) x -> string_body b -> string_body (x ++ b).
Proof. induction 1 as [|y x [H1 H2] _ IH]; intros Hb; [done|]. apply body_plain; auto. Qed.

Lemma hex_digit_plain d v : hex_digit d v -> d <> ch_quote /\ d <> ch_backslash.
Proof. unfold hex_digit. lia. Qed.

Lemma hex4_plain h v : hex4_text h v -> Forall (fun y => y <> ch_quote /\ y <> ch_backslash) h.
Proof.
  intros (? & ? & ? & ? & ? & ? & ? & ? & -> & H1 & H2 & H3 & H4 & _).
  repeat constructor; by eapply hex_digit_plain.
Qed.

Lemma chars_body b t : chars_text b t -> string_body b.
Proof.
  induction 1 as [|x b t H1 H2 H3 H4 _ IH|e x b t _ _ IH|h v b t Hh _ _ _ IH|h v h' v' b t Hh _ Hh' _ _ IH].
  - constructor.
  - apply body_app_plain; [|done]. by apply utf8_bytes_plain.
  - by constructor.
  - apply body_escape, body_app_plain; [|done]. by eapply hex4_plain.
  - apply body_escape, body_app_plain; [by eapply hex4_plain|].
    apply body_escape, body_app_plain; [by eapply hex4_plain|done].
Qed.

(** A text at a place of the spool. *)
Lemma at_place (c pre x post : bytes) y : c = pre ++ x ++ y :: post -> c !! (length pre + length x)%nat = Some y.
Proof. intros ->. by rewrite (assoc_L (++)), <- length_app, list_lookup_middle. Qed.

Lemma at_start (c pre post : bytes) y : c = pre ++ y :: post -> c !! length pre = Some y.
Proof. intros ->. by rewrite list_lookup_middle. Qed.

Section skip.
Context {mode : Mode} (c : bytes).

Lemma reads_at off x : c !! off = Some x -> reads c (lql_flat_eq_spool_byte off) (fun y => y = x).
Proof.
  intros H. eapply reads_weaken, reads_byte; [intros y Hy; cbn in Hy; congruence|intros _; by eapply lookup_lt_Some].
Qed.

(** A step that reads a byte that is known. *)
Lemma reads_byte_then {A} off x (f : Z -> E A) Q : c !! off = Some x -> reads c (f x) Q ->
  reads c (lql_flat_eq_spool_byte off ≫= f) Q.
Proof. intros H Hf. eapply reads_bind; [by apply reads_at|]. by intros ? ->. Qed.

Lemma runs_byte_then {A} off x (f : Z -> E A) Q : c !! off = Some x -> runs c (f x) Q ->
  runs c (lql_flat_eq_spool_byte off ≫= f) Q.
Proof. intros H Hf. eapply runs_after_read; [by apply reads_at|]. by intros ? ->. Qed.

Lemma reads_quoted b t pre post stop : chars_text b t -> c = pre ++ quoted b ++ post ->
  (length pre + length b + 2 <= stop <= length c)%nat ->
  reads c (lql_flat_eq_skip_string (length pre) stop) (fun i => i = (length pre + length b + 2)%nat).
Proof.
  intros Hb Hc Hs. apply (reads_string c _ _ pre b post); [|done|by eapply chars_body|done].
  rewrite Hc. unfold quoted. cbn. by rewrite <- (assoc_L (++)).
Qed.

(** The loop inside a container goes over the text [x] to what comes after. *)
Definition skips_over (x : bytes) : Prop := forall pre post fuel stop depth Q, c = pre ++ x ++ post ->
  (stop <= length c)%nat -> (length pre + length x <= stop)%nat -> (stop - length pre < fuel)%nat ->
  (forall fuel', (stop - (length pre + length x) < fuel')%nat ->
     reads c (skip_nested fuel' (length pre + length x) stop (S depth)) Q) ->
  reads c (skip_nested fuel (length pre) stop (S depth)) Q.

Lemma skips_nil : skips_over [].
Proof. intros pre post fuel stop depth Q Hc H1 H2 H3 H. cbn in *. rewrite Nat.add_0_r in *. by apply H. Qed.

Lemma skips_app x y : skips_over x -> skips_over y -> skips_over (x ++ y).
Proof.
  intros Hx Hy pre post fuel stop depth Q Hc H1 H2 H3 H. rewrite length_app in *.
  apply (Hx pre (y ++ post)); [by rewrite Hc, <- (assoc_L (++))|done|lia|done|].
  intros fuel' Hf. pose proof (length_app pre x) as Hl. rewrite <- Hl. apply (Hy (pre ++ x) post); rewrite ?Hl; try lia.
  - by rewrite Hc, <- !(assoc_L (++)).
  - intros fuel2 Hf2. rewrite <- Nat.add_assoc in *. by apply H.
Qed.

(** A byte that is none of the brackets and no quote. *)
Definition plain_byte (y : Z) : Prop := y <> ch_quote /\ opens_container y = false /\ closes_container y = false.

Lemma skips_plain y : plain_byte y -> skips_over [y].
Proof.
  intros (Hq & Ho & Hcl) pre post fuel stop depth Q Hc H1 H2 H3 H. cbn [length] in *.
  destruct fuel as [|fuel]; [lia|]. cbn [skip_nested]. rewrite (proj2 (Nat.leb_gt _ _)) by lia.
  apply (reads_byte_then _ y); [eapply at_start; exact Hc|].
  rewrite (proj2 (Z.eqb_neq _ _) Hq), Ho, Hcl. rewrite Nat.add_1_r in H. apply H. lia.
Qed.

Lemma skips_plains x : Forall plain_byte x -> skips_over x.
Proof.
  induction 1 as [|y x Hy _ IH]; [apply skips_nil|]. apply (skips_app [y]); [by apply skips_plain|done].
Qed.

Lemma skips_quoted b t : chars_text b t -> skips_over (quoted b).
Proof.
  intros Hb pre post fuel stop depth Q Hc H1 H2 H3 H.
  assert (Hl : length (quoted b) = (length b + 2)%nat) by (unfold quoted; cbn; rewrite length_app; cbn; lia).
  rewrite Hl in *. destruct fuel as [|fuel]; [lia|]. cbn [skip_nested]. rewrite (proj2 (Nat.leb_gt _ _)) by lia.
  apply (reads_byte_then _ ch_quote); [eapply at_start; exact Hc|]. rewrite Z.eqb_refl.
  eapply reads_bind; [eapply reads_quoted; [done|done|lia]|]. cbn beta. intros i ->.
  rewrite <- Nat.add_assoc. apply H. lia.
Qed.

(** A container of a text that is gone over. *)
Lemma skips_container opening closing x : opens_container opening = true -> closes_container closing = true ->
  skips_over x -> skips_over (opening :: x ++ [closing]).
Proof.
  intros Ho Hcl Hx pre post fuel stop depth Q Hc H1 H2 H3 H.
  assert (Hl : length (opening :: x ++ [closing]) = S (S (length x))) by (cbn; rewrite length_app; cbn; lia).
  rewrite Hl in *. destruct fuel as [|fuel]; [lia|]. cbn [skip_nested]. rewrite (proj2 (Nat.leb_gt _ _)) by lia.
  assert (Hop : opening = ch_lbrace \/ opening = ch_lbracket) by (unfold opens_container in Ho; lia).
  assert (Hcp : closing = ch_rbrace \/ closing = ch_rbracket) by (unfold closes_container in Hcl; lia).
  apply (reads_byte_then _ opening); [eapply at_start; exact Hc|].
  rewrite (proj2 (Z.eqb_neq opening ch_quote)) by lia. rewrite Ho.
  replace (S (length pre)) with (length (pre ++ [opening])) by (rewrite length_app; cbn; lia).
  apply (Hx _ (closing :: post)); rewrite ?length_app; cbn [length]; try lia.
  { rewrite Hc. cbn. by rewrite <- !(assoc_L (++)). }
  intros fuel' Hf. destruct fuel' as [|fuel']; [lia|]. cbn [skip_nested]. rewrite (proj2 (Nat.leb_gt _ _)) by lia.
  apply (reads_byte_then _ closing).
  { rewrite <- Nat.add_assoc. apply (at_place c pre (opening :: x) post closing). rewrite Hc. cbn. by rewrite <- (assoc_L (++)). }
  rewrite (proj2 (Z.eqb_neq _ _)) by lia.
  replace (opens_container closing) with false by (unfold opens_container; lia). rewrite Hcl.
  replace (S (length pre + 1 + length x)) with (length pre + S (S (length x)))%nat by lia. apply H. lia.
Qed.

Lemma number_is_plain w : is_number w -> Forall plain_byte w.
Proof.
  intros H%number_bytes. eapply list.Forall_impl; [exact H|]. intros y Hy. cbn in Hy.
  unfold number_byte, is_digit in Hy. unfold plain_byte, opens_container, closes_container. lia.
Qed.

Lemma skips_items l : Forall skips_over l -> forall first, skips_over (items_text first l).
Proof.
  induction 1 as [|x l Hx _ IH]; intros first; [apply skips_nil|]. cbn [items_text].
  apply skips_app; [|by apply skips_app]. destruct first; [apply skips_nil|]. by apply skips_plain.
Qed.

Lemma skips_compact :
  (forall w v, compact w v -> skips_over w) /\
  (forall l, compact_members l -> Forall skips_over (map member_text l)) /\
  (forall l, compact_elements l -> Forall skips_over (map fst l)).
Proof.
  apply compact_mutind; try (by constructor).
  - intros. by eapply skips_quoted.
  - intros x. apply skips_plains. destruct x; repeat constructor; done.
  - apply skips_plains. repeat constructor; done.
  - intros w H. by apply skips_plains, number_is_plain.
  - intros l _ IH. apply skips_container; [done..|]. by apply skips_items.
  - intros l _ IH. apply skips_container; [done..|]. by apply skips_items.
  - intros m l Hk _ Hv _ IH. constructor; [|done]. unfold member_text.
    apply skips_app; [by eapply skips_quoted|]. apply (skips_app [ch_colon]); [by apply skips_plain|done].
Qed.

(** What follows a value in a container. *)
Definition value_end_byte (post : bytes) : Prop := exists y post', post = y :: post' /\ ends_scalar y = true.

Lemma reads_scalar x pre post n : Forall (fun y => ends_scalar y = false) x -> c = pre ++ x ++ post ->
  value_end_byte post -> (length x < n)%nat ->
  reads c (skip_scalar n (length pre)) (fun i => i = (length pre + length x)%nat).
Proof.
  intros Hx. revert pre n. induction Hx as [|y x Hy _ IH]; intros pre n Hc (z & post' & -> & Hz) Hn;
    (destruct n as [|n]; [cbn in *; lia|]); cbn [skip_scalar length].
  - apply (reads_byte_then _ z); [eapply at_start; exact Hc|]. rewrite Hz. apply reads_ret. lia.
  - apply (reads_byte_then _ y); [eapply at_start; exact Hc|]. rewrite Hy.
    replace (S (length pre)) with (length (pre ++ [y])) by (rewrite length_app; cbn; lia).
    eapply reads_weaken, (IH (pre ++ [y]) n).
    + intros i ->. rewrite length_app. cbn. lia.
    + by rewrite Hc, <- (assoc_L (++)).
    + by exists z, post'.
    + cbn in Hn. lia.
Qed.

Lemma plain_no_end y : number_byte y = true \/ 97 <= y <= 122 -> ends_scalar y = false.
Proof. unfold number_byte, is_digit, ends_scalar. lia. Qed.

(** The offset after a value. *)
Lemma reads_value w v pre post stop : compact w v -> c = pre ++ w ++ post -> value_end_byte post ->
  (length pre + length w < stop <= length c)%nat ->
  reads c (lql_flat_eq_skip_value (length pre) stop) (fun i => i = (length pre + length w)%nat).
Proof.
  intros Hw Hc Hpost Hs. unfold lql_flat_eq_skip_value. rewrite (proj2 (Nat.leb_gt _ _)) by lia.
  assert (Hscalar : forall y x, w = y :: x -> y <> ch_quote -> opens_container y = false ->
    Forall (fun y => ends_scalar y = false) w ->
    reads c (ch ← lql_flat_eq_spool_byte (length pre);
      if ch =? ch_quote then lql_flat_eq_skip_string (length pre) stop
      else if negb (opens_container ch) then skip_scalar (stop - length pre) (length pre)
      else skip_nested (S (stop - length pre)) (length pre) stop 0) (fun i => i = (length pre + length w)%nat)).
  { intros y x Ew Hq Ho Hall. apply (reads_byte_then _ y); [rewrite Ew in Hc; by eapply at_start|].
    rewrite (proj2 (Z.eqb_neq _ _) Hq), Ho. cbn [negb]. eapply reads_scalar; [done..|lia]. }
  assert (Hopen : forall opening closing x, w = opening :: x ++ [closing] -> opens_container opening = true ->
    closes_container closing = true -> skips_over x ->
    reads c (ch ← lql_flat_eq_spool_byte (length pre);
      if ch =? ch_quote then lql_flat_eq_skip_string (length pre) stop
      else if negb (opens_container ch) then skip_scalar (stop - length pre) (length pre)
      else skip_nested (S (stop - length pre)) (length pre) stop 0) (fun i => i = (length pre + length w)%nat)).
  { intros opening closing x Ew Ho Hcl Hx.
    assert (Hl : length w = S (S (length x))) by (rewrite Ew; cbn; rewrite length_app; cbn; lia).
    assert (Hop : opening = ch_lbrace \/ opening = ch_lbracket) by (unfold opens_container in Ho; lia).
    assert (Hcp : closing = ch_rbrace \/ closing = ch_rbracket) by (unfold closes_container in Hcl; lia).
    rewrite Hl in *. apply (reads_byte_then _ opening); [rewrite Ew in Hc; by eapply at_start|].
    rewrite (proj2 (Z.eqb_neq _ _)) by lia. rewrite Ho. cbn [negb]. cbn [skip_nested].
    rewrite (proj2 (Nat.leb_gt _ _)) by lia.
    apply (reads_byte_then _ opening); [rewrite Ew in Hc; by eapply at_start|].
    rewrite (proj2 (Z.eqb_neq _ _)) by lia. rewrite Ho.
    replace (S (length pre)) with (length (pre ++ [opening])) by (rewrite length_app; cbn; lia).
    apply (Hx _ (closing :: post)); rewrite ?length_app; cbn [length]; try lia.
    { rewrite Hc, Ew. cbn. by rewrite <- !(assoc_L (++)). }
    intros fuel' Hf. destruct fuel' as [|fuel']; [lia|]. cbn [skip_nested]. rewrite (proj2 (Nat.leb_gt _ _)) by lia.
    apply (reads_byte_then _ closing).
    { rewrite <- Nat.add_assoc. apply (at_place c pre (opening :: x) post closing). rewrite Hc, Ew. cbn. by rewrite <- (assoc_L (++)). }
    rewrite (proj2 (Z.eqb_neq _ _)) by lia.
    replace (opens_container closing) with false by (unfold opens_container; lia). rewrite Hcl.
    apply reads_ret. lia. }
  destruct skips_compact as (_ & SM & SE). destruct Hw as [b t Hb|x| |w Hw|l Hl|l Hl].
  - apply (reads_byte_then _ ch_quote); [eapply at_start; exact Hc|]. rewrite Z.eqb_refl.
    assert (Hlen : length (quoted b) = (length b + 2)%nat) by (unfold quoted; cbn; rewrite length_app; cbn; lia).
    rewrite Hlen in *. eapply reads_weaken, reads_quoted; [|done|done|lia]. intros i ->. lia.
  - destruct x; (eapply Hscalar; [reflexivity|done|done|]); repeat constructor.
  - eapply Hscalar; [reflexivity|done|done|]. repeat constructor.
  - pose proof (number_bytes w Hw) as Hn. pose proof (number_is_plain w Hw) as Hp.
    destruct w as [|y x]; [destruct Hw as (? & ? & Hw); by destruct (number_text_first [] ltac:(by eexists _, _)) as (? & ? & ? & _)|].
    apply Forall_inv in Hp as Hy. eapply Hscalar; [reflexivity|apply Hy|apply Hy|].
    eapply list.Forall_impl; [exact Hn|]. intros z Hz. apply plain_no_end. by left.
  - eapply Hopen; [reflexivity|done|done|]. apply skips_items, SM, Hl.
  - eapply Hopen; [reflexivity|done|done|]. apply skips_items, SE, Hl.
Qed.
End skip.

(** ** Comparing keys *)

Lemma encode_scalar v : scalar v -> lql_unicode_utf8_encode v = Some (utf8_arith v).
Proof.
  intros H. unfold lql_unicode_utf8_encode. rewrite append_spec by done.
  pose proof (utf8_arith_length v). by rewrite (proj2 (Nat.ltb_ge _ _)) by (cbn [length]; lia).
Qed.

Lemma hex_value_of d v : hex_digit d v -> lql_flat_eq_hex_value d = Some v /\ 0 <= v < 16.
Proof.
  unfold hex_digit, lql_flat_eq_hex_value, is_digit. intros H. split; [|lia].
  destruct H as [[H ->]|[[H ->]|[H ->]]]; repeat case_if; bool_hyps; try lia; f_equal; lia.
Qed.

Lemma hex4_bound h v : hex4_text h v -> 0 <= v < 0x10000.
Proof.
  intros (? & ? & ? & ? & v1 & v2 & v3 & v4 & _ & H1%hex_value_of & H2%hex_value_of & H3%hex_value_of & H4%hex_value_of & ->). lia.
Qed.

Lemma key_after_app x key : key_after x (x ++ key) = Some key.
Proof. induction x as [|y x IH]; [by destruct key|]. cbn. by rewrite Z.eqb_refl. Qed.

Lemma key_after_some x key key' : key_after x key = Some key' -> key = x ++ key'.
Proof.
  revert key. induction x as [|y x IH]; intros key; cbn; [by destruct key; intros [= <-]|].
  destruct key as [|z key]; [done|]. destruct (Z.eqb_spec y z) as [->|]; [|done]. intros H. by rewrite (IH key H).
Qed.

Section keys.
Context {mode : Mode} (c : bytes).

Lemma reads_hex4 h v pre post stop : hex4_text h v -> c = pre ++ h ++ post -> (length pre + 4 <= stop)%nat ->
  reads c (lql_flat_eq_read_hex4 (length pre) stop) (fun x => x = v).
Proof.
  intros Hh Hc Hs. unfold lql_flat_eq_read_hex4.
  rewrite (proj2 (Nat.ltb_ge _ _)), (proj2 (Nat.ltb_ge (stop - length pre) 4)) by lia. cbn [orb].
  destruct Hh as (c1 & c2 & c3 & c4 & v1 & v2 & v3 & v4 & -> & H1 & H2 & H3 & H4 & ->).
  assert (Hd : forall i x, [c1; c2; c3; c4] !! i = Some x -> c !! (i + length pre)%nat = Some x).
  { intros i x Hx. rewrite Hc, Nat.add_comm. rewrite lookup_app_r by lia.
    replace (length pre + i - length pre)%nat with i by lia. by apply lookup_app_l_Some. }
  assert (Hstep : forall i x w n acc Q, [c1; c2; c3; c4] !! i = Some x -> hex_digit x w ->
    reads c (hex_loop n (S i + length pre) (acc * 16 + w)) Q -> reads c (hex_loop (S n) (i + length pre) acc) Q).
  { intros i x w n acc Q Hx Hw Hf. cbn [hex_loop]. apply (reads_byte_then _ _ x); [by apply Hd|].
    destruct (hex_value_of x w Hw) as [-> Hb]. rewrite Z.shiftl_mul_pow2 by lia.
    by rewrite (lor_add 4 acc w) by lia. }
  apply (Hstep 0%nat c1 v1); [done|done|]. apply (Hstep 1%nat c2 v2); [done|done|].
  apply (Hstep 2%nat c3 v3); [done|done|]. apply (Hstep 3%nat c4 v4); [done|done|].
  apply reads_ret. lia.
Qed.

(** The loop at the text [b] that denotes [t]. *)
Definition compares (b t : bytes) : Prop := forall pre post key fuel stop, c = pre ++ b ++ ch_quote :: post ->
  (length pre + length b < stop)%nat -> (stop - length pre < fuel)%nat ->
  reads c (key_equals_loop fuel (length pre) stop key) (fun r => r = bool_decide (t = key)).

(** After one character, whose bytes are [x]. *)
Lemma compares_advance x b t pre post key fuel stop : compares b t -> c = pre ++ b ++ ch_quote :: post ->
  (length pre + length b < stop)%nat -> (stop - length pre < fuel)%nat ->
  reads c (match key_after x key with None => mret false | Some key => key_equals_loop fuel (length pre) stop key end)
    (fun r => r = bool_decide (x ++ t = key)).
Proof.
  intros Hb Hc Hs Hf. destruct (key_after x key) as [key'|] eqn:E1.
  - apply key_after_some in E1 as ->. eapply reads_weaken, Hb; [|done..]. intros r ->. cbn.
    apply bool_decide_ext. split; [by intros ->|]. apply app_inv_head.
  - apply reads_ret. symmetry. apply bool_decide_eq_false. intros <-. by rewrite key_after_app in E1.
Qed.

Lemma compares_plain y b t : y <> ch_quote -> y <> ch_backslash -> compares b t -> compares (y :: b) (y :: t).
Proof.
  intros H1 H2 Hb pre post key fuel stop Hc Hs Hf. destruct fuel as [|fuel]; [lia|]. cbn [key_equals_loop].
  rewrite (proj2 (Nat.leb_gt _ _)) by lia. apply (reads_byte_then _ _ y); [eapply at_start; exact Hc|].
  rewrite (proj2 (Z.eqb_neq _ _) H1), (proj2 (Z.eqb_neq _ _) H2).
  replace (S (length pre)) with (length (pre ++ [y])) by (rewrite length_app; cbn; lia).
  apply (compares_advance [y] b t _ post); rewrite ?length_app; cbn [length] in *; try lia; [done|].
  by rewrite Hc, <- (assoc_L (++)).
Qed.

Lemma compares_plains x b t : Forall (fun y => y <> ch_quote /\ y <> ch_backslash) x -> compares b t ->
  compares (x ++ b) (x ++ t).
Proof. induction 1 as [|y x [H1 H2] _ IH]; intros Hb; [done|]. cbn. apply compares_plain; auto. Qed.

Lemma compares_escape e x b t : In (e, x) escape_pairs -> compares b t -> compares (ch_backslash :: e :: b) (x :: t).
Proof.
  intros He Hb pre post key fuel stop Hc Hs Hf. destruct fuel as [|fuel]; [lia|]. cbn [key_equals_loop].
  cbn [length] in *. rewrite (proj2 (Nat.leb_gt _ _)) by lia.
  apply (reads_byte_then _ _ ch_backslash); [eapply at_start; exact Hc|].
  change (ch_backslash =? ch_quote) with false. rewrite Z.eqb_refl.
  apply (reads_byte_then _ _ e).
  { replace (S (length pre)) with (length pre + length [ch_backslash])%nat by (cbn; lia).
    apply (at_place c pre [ch_backslash] (b ++ ch_quote :: post)). exact Hc. }
  assert (He' : (e =? 117) = false /\ simple_escape e = x).
  { cbn in He. repeat (destruct He as [He|He]; [injection He as <- <-; done|]). done. }
  destruct He' as [-> ->].
  replace (S (S (length pre))) with (length (pre ++ [ch_backslash; e])) by (rewrite length_app; cbn; lia).
  apply (compares_advance [x] b t _ post); rewrite ?length_app; cbn [length] in *; try lia; [done|].
  by rewrite Hc, <- (assoc_L (++)).
Qed.

(** An escape whose code point is [v]: the digits at [pre ++ \u] and what they give. *)
Lemma compares_point u v b t : scalar v ->
  (forall pre post stop, c = pre ++ ch_backslash :: ch_u :: u ++ post -> (length pre + 2 + length u <= stop)%nat ->
     reads c (escaped_point (S (S (length pre))) stop) (fun r => r = (v, (length pre + 2 + length u)%nat))) ->
  compares b t -> compares (ch_backslash :: ch_u :: u ++ b) (utf8_arith v ++ t).
Proof.
  intros Hv Hp Hb pre post key fuel stop Hc Hs Hf. destruct fuel as [|fuel]; [lia|]. cbn [key_equals_loop].
  cbn [length] in *. rewrite length_app in *. rewrite (proj2 (Nat.leb_gt _ _)) by lia.
  apply (reads_byte_then _ _ ch_backslash); [eapply at_start; exact Hc|].
  change (ch_backslash =? ch_quote) with false. rewrite Z.eqb_refl.
  apply (reads_byte_then _ _ ch_u).
  { replace (S (length pre)) with (length pre + length [ch_backslash])%nat by (cbn; lia).
    apply (at_place c pre [ch_backslash] ((u ++ b) ++ ch_quote :: post)). exact Hc. }
  rewrite Z.eqb_refl. eapply reads_bind.
  { apply (Hp pre (b ++ ch_quote :: post) stop); [|lia]. rewrite Hc. cbn. by rewrite <- (assoc_L (++)). }
  intros r ->. rewrite encode_scalar by done.
  replace (length pre + 2 + length u)%nat with (length (pre ++ ch_backslash :: ch_u :: u)) by (rewrite length_app; cbn; lia).
  apply (compares_advance (utf8_arith v) b t _ post); rewrite ?length_app; cbn [length] in *; try lia; [done|].
  rewrite Hc, <- !(assoc_L (++)). cbn. by rewrite <- (assoc_L (++)).
Qed.

Lemma point_single h v pre post stop : hex4_text h v -> ~ high_surrogate v -> ~ low_surrogate v ->
  c = pre ++ ch_backslash :: ch_u :: h ++ post -> (length pre + 2 + length h <= stop)%nat ->
  reads c (escaped_point (S (S (length pre))) stop) (fun r => r = (v, (length pre + 2 + length h)%nat)).
Proof.
  intros Hh Hhi Hlo Hc Hs. assert (Hl : length h = 4%nat) by (by destruct Hh as (? & ? & ? & ? & ? & ? & ? & ? & -> & _)).
  unfold escaped_point. unfold high_surrogate in Hhi. unfold low_surrogate in Hlo.
  replace (S (S (length pre))) with (length (pre ++ [ch_backslash; ch_u])) by (rewrite length_app; cbn; lia).
  eapply reads_bind.
  { apply (reads_hex4 h v _ post); [done| |rewrite length_app; cbn; lia]. by rewrite Hc, <- (assoc_L (++)). }
  intros ? ->. rewrite (proj2 (andb_false_iff _ _)) by lia. rewrite (proj2 (andb_false_iff (0xdc00 <=? v) _)) by lia.
  apply reads_ret. f_equal. rewrite length_app, Hl. cbn. lia.
Qed.

Lemma point_pair h v h' v' pre post stop : hex4_text h v -> high_surrogate v -> hex4_text h' v' -> low_surrogate v' ->
  c = pre ++ ch_backslash :: ch_u :: (h ++ ch_backslash :: ch_u :: h') ++ post ->
  (length pre + 2 + length (h ++ ch_backslash :: ch_u :: h') <= stop)%nat ->
  reads c (escaped_point (S (S (length pre))) stop)
    (fun r => r = (paired v v', (length pre + 2 + length (h ++ ch_backslash :: ch_u :: h'))%nat)).
Proof.
  intros Hh Hhi Hh' Hlo Hc Hs.
  assert (Hl : length h = 4%nat) by (by destruct Hh as (? & ? & ? & ? & ? & ? & ? & ? & -> & _)).
  assert (Hl' : length h' = 4%nat) by (by destruct Hh' as (? & ? & ? & ? & ? & ? & ? & ? & -> & _)).
  rewrite length_app in *. cbn [length] in *. unfold escaped_point. unfold high_surrogate in Hhi. unfold low_surrogate in Hlo.
  assert (Hc' : c = (pre ++ [ch_backslash; ch_u]) ++ h ++ ch_backslash :: ch_u :: h' ++ post)
    by (rewrite Hc, <- !(assoc_L (++)); done).
  assert (Hp : length (pre ++ [ch_backslash; ch_u]) = S (S (length pre))) by (rewrite length_app; cbn; lia).
  rewrite <- Hp. eapply reads_bind; [eapply (reads_hex4 h v); [done|exact Hc'|lia]|]. intros ? ->.
  rewrite (proj2 (andb_true_iff _ _)) by lia. rewrite <- Hl.
  apply (reads_byte_then _ _ ch_backslash); [by eapply at_place|]. rewrite Z.eqb_refl. cbn [negb].
  assert (Hc2 : c = ((pre ++ [ch_backslash; ch_u]) ++ h) ++ [ch_backslash] ++ ch_u :: h' ++ post)
    by (rewrite Hc', <- !(assoc_L (++)); done).
  apply (reads_byte_then _ _ ch_u).
  { rewrite <- length_app, <- Nat.add_1_r. by apply (at_place _ _ [ch_backslash] _ _ Hc2). }
  rewrite Z.eqb_refl. cbn [negb].
  assert (Hc3 : c = (((pre ++ [ch_backslash; ch_u]) ++ h) ++ [ch_backslash; ch_u]) ++ h' ++ post)
    by (rewrite Hc2, <- !(assoc_L (++)); done).
  replace (S (S (length (pre ++ [ch_backslash; ch_u]) + length h))) with (length (((pre ++ [ch_backslash; ch_u]) ++ h) ++ [ch_backslash; ch_u]))
    by (rewrite !length_app; cbn; lia).
  eapply reads_bind; [eapply (reads_hex4 h' v'); [done|exact Hc3|rewrite !length_app; cbn; lia]|]. intros ? ->.
  rewrite (proj2 (orb_false_iff _ _)) by lia. apply reads_ret. f_equal; [|rewrite !length_app; cbn; lia].
  unfold paired. rewrite Z.shiftl_mul_pow2, (lor_add 10) by lia. lia.
Qed.

Lemma chars_compare b t : chars_text b t -> compares b t.
Proof.
  induction 1 as [|x b t H1 H2 H3 H4 _ IH|e x b t He _ IH|h v b t Hh Hn1 Hn2 _ IH|h v h' v' b t Hh Hhi Hh' Hlo _ IH].
  - intros pre post key fuel stop Hc Hs Hf. destruct fuel as [|fuel]; [lia|]. cbn [key_equals_loop length] in *.
    rewrite (proj2 (Nat.leb_gt _ _)) by lia. apply (reads_byte_then _ _ ch_quote); [eapply at_start; exact Hc|].
    rewrite Z.eqb_refl. apply reads_ret. apply bool_decide_ext. by split.
  - apply compares_plains; [|done]. by apply utf8_bytes_plain.
  - by apply compares_escape.
  - apply compares_point; [|intros; by eapply point_single|done].
    pose proof (hex4_bound h v Hh). unfold high_surrogate, low_surrogate, scalar in *. lia.
  - assert (E1 : h ++ ch_backslash :: ch_u :: h' ++ b = (h ++ ch_backslash :: ch_u :: h') ++ b)
      by by rewrite <- (assoc_L (++)).
    rewrite E1.
    apply compares_point; [|intros; by eapply point_pair|done].
    unfold paired, high_surrogate, low_surrogate, scalar in *. lia.
Qed.

(** A key is compared by its text. *)
Lemma reads_key b t pre post stop key : chars_text b t -> c = pre ++ quoted b ++ post ->
  (length pre + length (quoted b) <= stop)%nat ->
  reads c (lql_flat_eq_key_equals (length pre) stop key) (fun r => r = bool_decide (t = key)).
Proof.
  intros Hb Hc Hs. assert (Hl : length (quoted b) = (length b + 2)%nat) by (unfold quoted; cbn; rewrite length_app; cbn; lia).
  unfold lql_flat_eq_key_equals. rewrite (proj2 (Nat.leb_gt _ _)) by lia.
  apply (reads_byte_then _ _ ch_quote); [eapply at_start; exact Hc|]. rewrite Z.eqb_refl. cbn [negb].
  replace (S (length pre)) with (length (pre ++ [ch_quote])) by (rewrite length_app; cbn; lia).
  apply (chars_compare b t Hb _ post); [|rewrite length_app; cbn; lia..].
  rewrite Hc. unfold quoted. cbn. by rewrite <- !(assoc_L (++)).
Qed.
End keys.

(** ** Going through a container *)

(** The rounds of a walk over [l]: each takes a state to the next and writes. *)
Inductive chain {T A} (R : T -> A -> A -> bytes -> Prop) : list T -> A -> A -> bytes -> Prop :=
| chain_nil a : chain R [] a a []
| chain_cons x l a a' a'' o1 o2 : R x a a' o1 -> chain R l a' a'' o2 -> chain R (x :: l) a a'' (o1 ++ o2).

Lemma chain_nil_inv {T A} (R : T -> A -> A -> bytes -> Prop) a a' out : chain R [] a a' out -> a' = a /\ out = [].
Proof. by inversion 1. Qed.

Lemma chain_cons_inv {T A} (R : T -> A -> A -> bytes -> Prop) x l a a'' out : chain R (x :: l) a a'' out ->
  exists a' o1 o2, out = o1 ++ o2 /\ R x a a' o1 /\ chain R l a' a'' o2.
Proof. inversion 1; subst. by eexists _, _, _. Qed.

(** What is written of the elements of an array. *)
Inductive elements_out (P : nat -> bytes -> json -> bytes -> Prop) : nat -> list (bytes * json) -> list bytes -> Prop :=
| out_nil i : elements_out P i [] []
| out_cons i w v l o outs : P i w v o -> elements_out P (S i) l outs -> elements_out P i ((w, v) :: l) (o :: outs).

(** What is written of the members of an object, some of which are dropped. *)
Inductive members_out (D : member -> Prop) (P : member -> bytes -> Prop) : list member -> list bytes -> Prop :=
| keep_nil : members_out D P [] []
| keep_cons m l o outs : P m o -> members_out D P l outs -> members_out D P (m :: l) (o :: outs)
| drop_cons m l outs : D m -> members_out D P l outs -> members_out D P (m :: l) outs.

Definition object_text (l : list member) : bytes := ch_lbrace :: items_text true (map member_text l) ++ [ch_rbrace].
Definition array_text (l : list (bytes * json)) : bytes := ch_lbracket :: items_text true (map fst l) ++ [ch_rbracket].

Lemma items_length x l : In x l -> forall first, (length x <= length (items_text first l))%nat.
Proof.
  induction l as [|y l IH]; [done|]. intros [->|H] first; cbn [items_text]; rewrite !length_app; [lia|].
  specialize (IH H false). lia.
Qed.

Section walks.
Context {mode : Mode} (c : bytes).

(** [w] is the text from [start] to [stop]. *)
Definition sits (w : bytes) (start stop : nat) : Prop :=
  exists pre post, c = pre ++ w ++ post /\ start = length pre /\ stop = (length pre + length w)%nat.

Lemma sits_bound w start stop : sits w start stop -> (stop <= length c)%nat /\ (stop - start = length w)%nat /\ (start <= stop)%nat.
Proof. intros (pre & post & -> & -> & ->). rewrite !length_app. lia. Qed.

Lemma sits_first y w start stop : sits (y :: w) start stop -> c !! start = Some y.
Proof. intros (pre & post & Hc & -> & _). eapply at_start. exact Hc. Qed.

(** The rest of a text after its first byte. *)
Lemma runs_copy w start stop : sits w start stop -> runs c (copy start stop) (fun _ out => out = w).
Proof.
  intros H. destruct (sits_bound _ _ _ H) as (H1 & H2 & H3). destruct H as (pre & post & Hc & -> & ->).
  eapply runs_weaken, runs_slice; [|lia]. intros _ out ->. rewrite H2, Hc, drop_app_length. apply take_app_length.
Qed.

Lemma runs_comma {A} (first : bool) (m : E A) (Q : A -> bytes -> Prop) : runs c m (fun a out => Q a ((if first then [] else [ch_comma]) ++ out)) ->
  runs c (comma first ≫= fun _ => m) Q.
Proof.
  intros H. destruct first; [|by apply runs_write_then].
  eapply runs_bind; [apply (runs_ret c tt (fun _ out => out = [])); done|]. by intros _ ? ->.
Qed.

Lemma walk_loop_runs {T A} (tx : T -> bytes) R closing (round : A -> nat -> E (A * nat)) stop : closing <> ch_comma ->
  ends_scalar closing = true -> forall l pre post a fuel ch,
  c = pre ++ items_text true (map tx l) ++ closing :: post ->
  stop = (length pre + length (items_text true (map tx l)) + 1)%nat ->
  c !! length pre = Some ch -> (stop - length pre <= fuel)%nat ->
  (forall x, In x l -> exists y r, tx x = y :: r /\ y <> closing) ->
  (forall x pre' post' a, In x l -> c = pre' ++ tx x ++ post' -> value_end_byte post' ->
     (length pre' + length (tx x) < stop)%nat ->
     runs c (round a (length pre')) (fun '(a', next) out => next = (length pre' + length (tx x))%nat /\ R x a a' out)) ->
  runs c (walk_loop fuel closing stop round a (length pre) ch) (fun a' out => chain R l a a' out).
Proof.
  intros Hcomma Hend. induction l as [|x l IH]; intros pre post a fuel ch Hc Hs Hch Hf Hhead Hround;
    (destruct fuel as [|fuel]; [lia|]); cbn [walk_loop].
  - cbn in Hs. rewrite (proj2 (Nat.ltb_ge _ _)) by lia. cbn [andb]. apply runs_ret. constructor.
  - destruct (Hhead x (or_introl eq_refl)) as (y & r & Hx & Hy).
    set (rest := items_text false (map tx l)).
    assert (Ht : items_text true (map tx (x :: l)) = tx x ++ rest) by done. rewrite Ht in *. rewrite length_app in Hs.
    assert (Hlx : (1 <= length (tx x))%nat) by (rewrite Hx; cbn; lia).
    rewrite <- (assoc_L (++)) in Hc.
    assert (ch = y) as ->.
    { rewrite Hx in Hc. pose proof (at_start c pre _ y Hc) as Hy'. rewrite Hch in Hy'. by injection Hy'. }
    rewrite (proj2 (Nat.ltb_lt _ _)) by lia. rewrite (proj2 (Z.eqb_neq _ _) Hy). cbn [andb negb].
    assert (Hpost : value_end_byte (rest ++ closing :: post)).
    { destruct l as [|x' l]; [by exists closing, post|]. eexists ch_comma, _. by split. }
    eapply runs_bind; [apply (Hround x pre (rest ++ closing :: post) a); [by left|done|done|lia]|].
    intros [a' next] o1 [-> HR].
    assert (Hrest : forall x', In x' l -> exists y r, tx x' = y :: r /\ y <> closing) by (intros; apply Hhead; by right).
    assert (Hrounds : forall x' pre' post' a, In x' l -> c = pre' ++ tx x' ++ post' -> value_end_byte post' ->
      (length pre' + length (tx x') < stop)%nat ->
      runs c (round a (length pre')) (fun '(a', next) out => next = (length pre' + length (tx x'))%nat /\ R x' a a' out)).
    { intros x' pre' post' a0 Hin. apply Hround. by right. }
    destruct l as [|x' l].
    + apply (runs_byte_then c _ closing).
      { apply (at_place c pre (tx x) post closing). done. }
      rewrite (proj2 (Z.eqb_neq _ _) Hcomma).
      assert (Hp : length (pre ++ tx x) = (length pre + length (tx x))%nat) by apply length_app.
      rewrite <- Hp. eapply runs_weaken, (IH (pre ++ tx x) post); rewrite ?Hp.
      * intros a'' o2 Hchain. by econstructor.
      * by rewrite <- (assoc_L (++)).
      * cbn in *. lia.
      * by apply (at_place c pre (tx x) post closing).
      * lia.
      * done.
      * done.
    + assert (Hc' : c = (pre ++ tx x ++ [ch_comma]) ++ items_text true (map tx (x' :: l)) ++ closing :: post).
      { rewrite Hc. subst rest. cbn [map items_text app]. by rewrite <- !(assoc_L (++)). }
      assert (Hr : length rest = S (length (items_text true (map tx (x' :: l))))) by done.
      apply (runs_byte_then c _ ch_comma).
      { apply (at_place c pre (tx x) (items_text true (map tx (x' :: l)) ++ closing :: post)).
        rewrite Hc'. by rewrite <- !(assoc_L (++)). }
      rewrite Z.eqb_refl. destruct (Hrest x' (or_introl eq_refl)) as (y' & r' & Hx' & Hy').
      assert (Hp : length (pre ++ tx x ++ [ch_comma]) = S (length pre + length (tx x)))
        by (rewrite !length_app; cbn; lia).
      assert (Hy2 : c !! length (pre ++ tx x ++ [ch_comma]) = Some y').
      { rewrite Hc'. cbn [map items_text app]. rewrite Hx'. cbn. by rewrite list_lookup_middle. }
      rewrite <- Hp. eapply runs_byte_then; [exact Hy2|].
      eapply runs_weaken, (IH (pre ++ tx x ++ [ch_comma]) post); rewrite ?Hp; [|done|lia|by rewrite Hp in Hy2|lia|done|done].
      intros a'' o2 Hchain. by econstructor.
Qed.

(** The walk over the container that starts at [start]. *)
Lemma walk_runs {T A} (tx : T -> bytes) R opening closing (round : A -> nat -> E (A * nat)) l start stop a :
  closing <> ch_comma -> ends_scalar closing = true ->
  sits (opening :: items_text true (map tx l) ++ [closing]) start stop ->
  (forall x, In x l -> exists y r, tx x = y :: r /\ y <> closing) ->
  (forall x pre' post' a, In x l -> c = pre' ++ tx x ++ post' -> value_end_byte post' ->
     (length pre' + length (tx x) < stop)%nat ->
     runs c (round a (length pre')) (fun '(a', next) out => next = (length pre' + length (tx x))%nat /\ R x a a' out)) ->
  runs c (walk closing start stop round a) (fun a' out => chain R l a a' out).
Proof.
  intros H1 H2 (pre & post & Hc & -> & ->) Hhead Hround. unfold walk.
  assert (Hc' : c = (pre ++ [opening]) ++ items_text true (map tx l) ++ closing :: post)
    by (rewrite Hc; cbn; by rewrite <- !(assoc_L (++))).
  assert (Hp : length (pre ++ [opening]) = S (length pre)) by (rewrite length_app; cbn; lia).
  assert (exists y, c !! S (length pre) = Some y) as [y Hy].
  { rewrite <- Hp. destruct (c !! length (pre ++ [opening])) eqn:E1; [by eexists|]. apply lookup_ge_None in E1.
    rewrite Hc' in E1. rewrite length_app in E1. rewrite (length_app (items_text _ _)) in E1. cbn in E1. lia. }
  assert (Hl : length (opening :: items_text true (map tx l) ++ [closing]) = S (S (length (items_text true (map tx l)))))
    by (cbn; rewrite length_app; cbn; lia). rewrite Hl in *.
  eapply runs_byte_then; [exact Hy|]. rewrite <- Hp in Hy |- *.
  eapply walk_loop_runs; [done|done|exact Hc'|rewrite Hp; lia|done|rewrite Hp; lia|done|done].
Qed.

(** The text before the comma, the comma and what [P] asks of the text after it. *)
Definition item_out (first : bool) (P : bytes -> Prop) (out : bytes) : Prop :=
  exists o, out = (if first then [] else [ch_comma]) ++ o /\ P o.

(** A round of the loops that write an array, and of those that write an object. *)
Definition element_round (P : nat -> bytes -> json -> bytes -> Prop) (x : bytes * json) (st st' : bool * nat) (out : bytes) : Prop :=
  st' = (false, S (snd st)) /\ item_out (fst st) (P (snd st) (fst x) (snd x)) out.

Definition member_round (same : member -> bool) (D : member -> Prop) (P : member -> bytes -> Prop) (m : member)
    (st st' : bool * bool) (out : bytes) : Prop :=
  snd st' = snd st || same m /\
  (fst st' = fst st /\ out = [] /\ D m \/ fst st' = false /\ item_out (fst st) (P m) out).

Lemma elements_chain P l : forall first i st' out, chain (element_round P) l (first, i) st' out -> exists outs, out = items_text first outs /\ elements_out P i l outs.
Proof.
  induction l as [|[w v] l IH]; intros first i st' out H.
  - apply chain_nil_inv in H as [-> ->]. exists []. split; [done|constructor].
  - apply chain_cons_inv in H as (a' & o1 & o2 & -> & (-> & o & -> & Ho) & H). apply IH in H as (outs & -> & Hl).
    exists (o :: outs). split; [cbn [items_text]; by rewrite <- (assoc_L (++))|by constructor].
Qed.

Lemma compact_head w v closing : compact w v -> closing = ch_rbracket \/ closing = ch_rbrace ->
  exists y r, w = y :: r /\ y <> closing.
Proof.
  intros Hw Hcl. destruct (json_first w v (compact_json _ _ Hw)) as (y & r & -> & Hy). exists y, r. split; [done|].
  destruct v as [|[]| | | |]; cbn in Hy; try lia.
  destruct Hy as [->|Hd]; [lia|]. unfold is_digit in Hd. lia.
Qed.

Lemma runs_array (element : nat -> nat -> nat -> E unit) P l start stop : compact_elements l ->
  sits (array_text l) start stop ->
  (forall i w v s e, In (w, v) l -> compact w v -> sits w s e -> runs c (element i s e) (fun _ out => P i w v out)) ->
  runs c (rewrite_array element start stop)
    (fun _ out => exists outs, out = ch_lbracket :: items_text true outs ++ [ch_rbracket] /\ elements_out P 0 l outs).
Proof.
  intros Hl Hs He. unfold rewrite_array. apply runs_write_then.
  destruct (sits_bound _ _ _ Hs) as (Hb & _). apply compact_elements_all in Hl.
  eapply runs_bind.
  - eapply (walk_runs fst (element_round P) ch_lbracket); [done|done|exact Hs|..].
    + intros [w v] Hin. apply (compact_head w v); [|by left]. by apply (proj1 (List.Forall_forall _ _) Hl (w, v)).
    + intros [w v] pre' post' [first i] Hin Hc Hpost Hlt. cbn [fst] in *.
      assert (Hw : compact w v) by by apply (proj1 (List.Forall_forall _ _) Hl (w, v)).
      eapply runs_after_read; [eapply reads_value; [exact Hw|done|done|lia]|]. cbn beta. intros element_end ->.
      apply runs_comma. eapply runs_bind.
      * apply (He i w v); [done|done|]. by exists pre', post'.
      * intros a1 o1 Ho. apply runs_ret. split; [done|]. split; [done|]. exists o1. by rewrite app_nil_r.
  - intros st' out Hchain. apply elements_chain in Hchain as (outs & -> & Ho).
    eapply runs_weaken, runs_write. intros _ ? ->. by exists outs.
Qed.

(** ** Members *)

Lemma quoted_length b : length (quoted b) = (length b + 2)%nat.
Proof. unfold quoted. cbn. rewrite length_app. cbn. lia. Qed.

(** The places of a member: its key, its value and the whole. *)
Record member_at (m : member) (key_start key_end child_end : nat) : Prop := {
  at_key : key_end = (key_start + length (quoted (m_chars m)))%nat;
  at_member : sits (member_text m) key_start child_end;
  at_value : sits (m_text m) (S key_end) child_end
}.

Lemma member_at_intro m pre post : c = pre ++ member_text m ++ post ->
  member_at m (length pre) (length pre + length (quoted (m_chars m))) (length pre + length (member_text m)).
Proof.
  intros Hc. split; [done|by exists pre, post|]. exists (pre ++ quoted (m_chars m) ++ [ch_colon]), post. split_and!.
  - rewrite Hc. unfold member_text. rewrite <- !(assoc_L (++)). cbn. by rewrite <- !(assoc_L (++)).
  - rewrite !length_app. cbn. lia.
  - unfold member_text. rewrite !length_app. cbn. lia.
Qed.

Lemma reads_member m pre post stop : good_member m -> c = pre ++ member_text m ++ post -> value_end_byte post ->
  (length pre + length (member_text m) < stop <= length c)%nat ->
  reads c (member_span (length pre) stop)
    (fun r => r = ((length pre + length (quoted (m_chars m)))%nat, (length pre + length (member_text m))%nat)).
Proof.
  intros [Hk Hv] Hc Hpost Hs. unfold member_span.
  assert (Hl : length (member_text m) = (length (quoted (m_chars m)) + 1 + length (m_text m))%nat)
    by (unfold member_text; rewrite length_app; cbn; lia).
  assert (Hc1 : c = pre ++ quoted (m_chars m) ++ ch_colon :: m_text m ++ post)
    by (rewrite Hc; unfold member_text; by rewrite <- (assoc_L (++))).
  assert (Hc2 : c = (pre ++ quoted (m_chars m) ++ [ch_colon]) ++ m_text m ++ post)
    by (rewrite Hc1, <- !(assoc_L (++)); done).
  rewrite quoted_length in *.
  eapply reads_bind; [eapply reads_quoted; [exact Hk|exact Hc1|lia]|]. cbn beta. intros key_end ->.
  apply (reads_byte_then _ _ ch_colon).
  { rewrite <- Nat.add_assoc, <- quoted_length. by eapply at_place. }
  rewrite Z.eqb_refl. cbn [negb].
  assert (Hp : length (pre ++ quoted (m_chars m) ++ [ch_colon]) = S (length pre + length (m_chars m) + 2))
    by (rewrite !length_app, quoted_length; cbn; lia).
  rewrite <- Hp. eapply reads_bind; [eapply reads_value; [exact Hv|exact Hc2|done|rewrite Hp; lia]|].
  cbn beta. intros value_end ->. apply reads_ret. f_equal; lia.
Qed.

Lemma runs_keyed m ks ke ce value Q : member_at m ks ke ce -> runs c value (fun _ out => Q out) ->
  runs c (keyed ks ke value) (fun _ out => exists o, out = quoted (m_chars m) ++ ch_colon :: o /\ Q o).
Proof.
  intros [-> (pre & post & Hc & -> & _) _] Hv. unfold keyed.
  assert (Hc1 : c = pre ++ (quoted (m_chars m) ++ [ch_colon]) ++ m_text m ++ post)
    by (rewrite Hc; unfold member_text; by rewrite <- !(assoc_L (++))).
  eapply runs_bind; [apply runs_slice; rewrite Hc1, !length_app; cbn; lia|].
  intros _ ? ->. eapply runs_weaken, Hv. intros a1 o Ho. exists o. split; [|done].
  rewrite Hc1, drop_app_length.
  replace (length pre + length (quoted (m_chars m)) - length pre + 1)%nat with (length (quoted (m_chars m) ++ [ch_colon]))
    by (rewrite length_app; cbn; lia).
  rewrite take_app_length. by rewrite <- (assoc_L (++)).
Qed.

Lemma members_chain (same : member -> bool) D P l : forall first found st' out,
  chain (member_round same D P) l (first, found) st' out ->
  exists outs, out = items_text first outs /\ members_out D P l outs /\
    st' = (first && bool_decide (outs = []), found || existsb same l).
Proof.
  induction l as [|m l IH]; intros first found st' out H.
  - apply chain_nil_inv in H as [-> ->]. exists []. split; [done|]. split; [constructor|]. cbn. by rewrite orb_false_r, andb_true_r.
  - apply chain_cons_inv in H as (a' & o1 & o2 & -> & HR & H). destruct a' as [first' found']. destruct HR as (E1 & [(E2 & -> & HD)|(E2 & o & -> & Ho)]);
      cbn in E1, E2; subst first' found'.
    + apply IH in H as (outs & -> & Hl & ->). exists outs. split; [done|]. split; [by constructor|].
      cbn [existsb]. by rewrite orb_assoc.
    + apply IH in H as (outs & -> & Hl & ->). exists (o :: outs).
      split; [cbn [items_text]; by rewrite <- (assoc_L (++))|]. split; [by constructor|].
      cbn [existsb]. rewrite orb_assoc. by rewrite andb_false_r.
Qed.

Lemma runs_members (same : member -> bool) D P (matches : nat -> E bool)
    (write : bool -> nat -> nat -> nat -> option (E unit)) l start stop : compact_members l ->
  sits (object_text l) start stop ->
  (forall m pre post, In m l -> good_member m -> c = pre ++ member_text m ++ post ->
     (length pre + length (member_text m) < stop)%nat -> reads c (matches (length pre)) (fun b => b = same m)) ->
  (forall m ks ke ce, In m l -> good_member m -> member_at m ks ke ce ->
     match write (same m) ks ke ce with None => D m | Some w => runs c w (fun _ out => P m out) end) ->
  runs c (rewrite_members matches write start stop) (fun st out => exists outs,
    out = ch_lbrace :: items_text true outs /\ members_out D P l outs /\
    st = (bool_decide (outs = []), existsb same l)).
Proof.
  intros Hl Hs Hmatch Hwrite. unfold rewrite_members. apply runs_write_then.
  destruct (sits_bound _ _ _ Hs) as (Hb & _). apply compact_members_all in Hl.
  eapply runs_weaken; [|eapply (walk_runs member_text (member_round same D P) ch_lbrace); [done|done|exact Hs|..]].
  - intros st' out Hchain. apply members_chain in Hchain as (outs & -> & Ho & ->). by exists outs.
  - intros m Hin. eexists ch_quote, _. by split.
  - intros m pre' post' [first found] Hin Hc Hpost Hlt.
    assert (Hm : good_member m) by by apply (proj1 (List.Forall_forall _ _) Hl m).
    eapply runs_after_read; [by eapply Hmatch|]. cbn beta. intros same_key ->.
    eapply runs_after_read; [eapply reads_member; [done|done|done|lia]|]. cbn beta. intros [ke ce] [= -> ->].
    specialize (Hwrite m _ _ _ Hin Hm (member_at_intro m pre' post' Hc)).
    destruct (write (same m) _ _ _) as [w|].
    + apply runs_comma. eapply runs_bind; [exact Hwrite|]. intros a1 o1 Ho. apply runs_ret.
      split; [done|]. split; [done|]. right. split; [done|]. exists o1. by rewrite app_nil_r.
    + apply runs_ret. split; [done|]. split; [done|]. by left.
Qed.

Lemma runs_object (same : member -> bool) D P (matches : nat -> E bool)
    (write : bool -> nat -> nat -> nat -> option (E unit)) l start stop : compact_members l ->
  sits (object_text l) start stop ->
  (forall m pre post, In m l -> good_member m -> c = pre ++ member_text m ++ post ->
     (length pre + length (member_text m) < stop)%nat -> reads c (matches (length pre)) (fun b => b = same m)) ->
  (forall m ks ke ce, In m l -> good_member m -> member_at m ks ke ce ->
     match write (same m) ks ke ce with None => D m | Some w => runs c w (fun _ out => P m out) end) ->
  runs c (rewrite_object matches write start stop) (fun _ out => exists outs,
    out = ch_lbrace :: items_text true outs ++ [ch_rbrace] /\ members_out D P l outs).
Proof.
  intros Hl Hs Hmatch Hwrite. unfold rewrite_object. eapply runs_bind; [by eapply runs_members|].
  intros st o1 (outs & -> & Ho & _). eapply runs_weaken, runs_write. intros _ ? ->. by exists outs.
Qed.

End walks.
