(* ===== verification/MutationEmitProps.v ===== *)
(** * The output of a mutation is JSON

    An emission that ends well has written one line with a compact JSON object,
    whatever the mutation, and it always ends.  From the numbers that increments
    write, through the routines of MutationEmit.v, to the whole record.  Last, output
    that is rendered first: the writer gets the line or nothing, unless it fails. *)

From Stdlib Require Import SpecFloat.
From S2P Require Import Prelude.
From S2P Require Import Errors.
From S2P Require Import Number.
From S2P Require Import NumberSpec.
From S2P Require Import NumberFloat.
From S2P Require Import Unicode.
From S2P Require Import UnicodeProps.
From S2P Require Import SelectorJsonProps.
From S2P Require Import SelectorJsonEvents.
From S2P Require Import JsonGrammar.
From S2P Require Import JsonTree.
From S2P Require Import JsonSpool.
From S2P Require Import SpoolProps.
From S2P Require Import StreamProjection.
From S2P Require Import Mutation.
From S2P Require Import MutationText.
From S2P Require Import MutationEmit.
From S2P Require Import MutationWalk.

(** ** Doubles *)

(** The mantissa and the exponent of a double. *)
Definition double_ok (d : spec_float) : Prop :=
  match d with S754_finite _ m e => Zpos m < 2 ^ 53 /\ -1074 <= e <= 971 | _ => True end.

Lemma digits2_lower m : 2 ^ (Zpos (digits2_pos m) - 1) <= Zpos m.
Proof.
  induction m as [m IH|m IH|]; cbn [digits2_pos]; [| |done]; rewrite Pos2Z.inj_succ;
    replace (Z.succ (Zpos (digits2_pos m)) - 1) with (Z.succ (Zpos (digits2_pos m) - 1)) by lia;
    rewrite Z.pow_succ_r by lia; lia.
Qed.

Lemma shr_1_m mrs : 0 <= shr_m mrs -> shr_m (shr_1 mrs) = shr_m mrs / 2.
Proof.
  destruct mrs as [m r s]. cbn. intros H. destruct m as [|[p|p|]|p]; cbn; try done; try lia.
  - rewrite Pos2Z.inj_xI. apply (Z.div_unique _ 2 _ 1); lia.
  - rewrite Pos2Z.inj_xO. apply (Z.div_unique _ 2 _ 0); lia.
Qed.

Lemma iter_shr_m p : forall mrs, 0 <= shr_m mrs ->
  shr_m (iter_pos shr_1 p mrs) = shr_m mrs / 2 ^ Zpos p.
Proof.
  assert (D : forall v k, 0 <= v -> 0 <= v / 2 ^ Zpos k) by (intros; apply Z.div_pos; lia).
  assert (P : forall k, 0 < 2 ^ Zpos k) by (intros; lia).
  induction p as [p IH|p IH|]; intros mrs H; cbn [iter_pos].
  - assert (H1 : shr_m (shr_1 mrs) = shr_m mrs / 2) by by apply shr_1_m.
    assert (H2 : 0 <= shr_m (shr_1 mrs)) by (rewrite H1; apply Z.div_pos; lia).
    rewrite IH by (rewrite IH by done; by apply D). rewrite IH, H1 by done.
    rewrite (Z.div_div _ 2), Z.div_div by (pose proof (P p); lia). f_equal.
    replace (Zpos p~1) with (1 + Zpos p + Zpos p) by lia. rewrite (Z.pow_add_r 2 (1 + Zpos p)), (Z.pow_add_r 2 1) by lia.
    lia.
  - rewrite IH by (rewrite IH by done; by apply D). rewrite IH by done. rewrite Z.div_div by lia. f_equal.
    replace (Zpos p~0) with (Zpos p + Zpos p) by lia. by rewrite Z.pow_add_r by lia.
  - by apply shr_1_m.
Qed.

(** The shift to 53 bits and the least exponent. *)
Lemma shr_fexp_ok m e l : 0 <= m ->
  let '(mrs, e') := shr_fexp 53 1024 m e l in 0 <= shr_m mrs < 2 ^ 53 /\ -1074 <= e'.
Proof.
  intros Hm. unfold shr_fexp.
  set (f := fexp 53 1024 (Zdigits2 m + e)). assert (Hf : f = Z.max (Zdigits2 m + e - 53) (-1074)) by done.
  assert (Hr : shr_m (shr_record_of_loc m l) = m) by by destruct l as [|[]].
  assert (Hd : m < 2 ^ Zdigits2 m) by (destruct m as [|p|p]; cbn; [done|apply digits2_bound|lia]).
  assert (Hd0 : 0 <= Zdigits2 m) by by destruct m.
  unfold shr. destruct (f - e) as [|p|p] eqn:En.
  - rewrite Hr. split; [|lia]. split; [done|]. eapply Z.lt_le_trans; [exact Hd|]. apply Z.pow_le_mono_r; lia.
  - rewrite iter_shr_m, Hr by by rewrite Hr. split; [|lia]. split; [apply Z.div_pos; lia|].
    apply Z.div_lt_upper_bound; [lia|]. rewrite <- Z.pow_add_r by lia.
    eapply Z.lt_le_trans; [exact Hd|]. apply Z.pow_le_mono_r; lia.
  - rewrite Hr. split; [|lia]. split; [done|]. eapply Z.lt_le_trans; [exact Hd|]. apply Z.pow_le_mono_r; lia.
Qed.

Lemma round_aux_ok s m e l : 0 <= m -> double_ok (binary_round_aux 53 1024 s m e l).
Proof.
  intros Hm. unfold binary_round_aux. pose proof (shr_fexp_ok m e l Hm) as H1.
  destruct (shr_fexp 53 1024 m e l) as [mrs e']. destruct H1 as [H1 _].
  assert (H2 : 0 <= round_nearest_even (shr_m mrs) (loc_of_shr_record mrs)).
  { unfold round_nearest_even. destruct (loc_of_shr_record mrs) as [|[]]; try lia. destruct (Z.even _); lia. }
  pose proof (shr_fexp_ok _ e' loc_Exact H2) as H3.
  destruct (shr_fexp 53 1024 (round_nearest_even _ _) e' loc_Exact) as [mrs' e'']. destruct H3 as [H3 H4].
  destruct (shr_m mrs') as [|p|p]; try done. destruct (Z.leb_spec e'' (1024 - 53)); [|done]. cbn. lia.
Qed.

Lemma double_of_ok m e s : double_ok (double_of m e s).
Proof.
  unfold double_of, binary_normalize, binary_round. destruct m as [|p|p]; [done|..];
    (destruct (shl_align _ _ _) as [mx ex]; by apply round_aux_ok).
Qed.

Lemma double_add_ok a b : double_ok a -> double_ok b -> double_ok (double_add a b).
Proof.
  intros Ha Hb. unfold double_add, SFadd. destruct a as [[]|[]| |], b as [[]|[]| |]; try done; apply double_of_ok.
Qed.

Lemma parse_json_ok text d : lql_number_parse_json text = Some d -> double_ok d.
Proof.
  unfold lql_number_parse_json. destruct (lql_number_parse_integer text).
  - destruct (match text with [] => _ | _ => _ end). intros [= <-]. apply double_of_ok.
  - destruct (match text with [] => _ | _ => _ end) as [negative digits].
    intros ([v1 t1] & _ & ([v2 t2] & _ & ([v3 t3] & _ & H)%bind_Some)%bind_Some)%bind_Some.
    destruct t3; [|done]. cbv zeta in H. destruct (lql_number_finite _); [|done]. injection H as <-.
    unfold to_double. destruct (if negative then _ else _); try done. apply double_of_ok.
Qed.

(** What is written of a double is a JSON number. *)
Lemma format_is_number d text : double_ok d -> lql_number_format_json d 64 = Some text -> is_number text.
Proof.
  intros Hd H. unfold lql_number_format_json in H. destruct (lql_number_finite d) eqn:Ef; [|done]. cbn in H.
  case_match; [done|]. injection H as <-. destruct d as [s|s| |s m e]; try done.
  - exists 0, 0, s, [ch_0], [], [], [], 0. cbn [printf_17g]. rewrite app_nil_r. split; [done|].
    split; [by repeat constructor|]. split; [by left|]. split; [by left|]. by destruct s.
  - destruct Hd as [Hm He]. cbn [printf_17g]. destruct (digits17 m e) as [q x] eqn:E1.
    destruct (digits17_spec m e q x Hm He E1) as [Hq _]. pose proof (digits17_range m e q x Hm He E1) as Hx.
    destruct (general_text_number q x Hq) as (i & f & fd & ex & v & k & Et & Hi & Hf & Hex & _); [lia|].
    exists (if s then - digits_value (i ++ fd) else digits_value (i ++ fd)), (v - Z.of_nat (length fd)).
    exists s, i, f, fd, ex, v. rewrite Et. by split_and!.
Qed.

(** ** Strings *)

Lemma hex_digit_lower v : 0 <= v < 16 -> hex_digit (lower_hex v) v.
Proof. unfold hex_digit, lower_hex. intros H. destruct (Z.ltb_spec v 10); lia. Qed.

(** The characters written for a byte of a text. *)
Definition string_chars (value : bytes) : bytes := concat (map (fun ch => concat (json_string_pieces ch)) value).

Lemma utf8_arith_ascii x : 0 <= x < 128 -> utf8_arith x = [x].
Proof. intros H. unfold utf8_arith. by rewrite (proj2 (Z.ltb_lt _ _)) by lia. Qed.

Lemma utf8_arith_high x : scalar x -> 128 <= x -> Forall (fun y => 128 <= y) (utf8_arith x).
Proof. intros [H _] Hx. unfold utf8_arith. repeat case_if; bool_hyps; repeat constructor; zdivs. Qed.

Lemma raw_pieces x : Forall (fun y => 128 <= y) x -> concat (map (fun ch => concat (json_string_pieces ch)) x) = x.
Proof.
  induction 1 as [|y x Hy _ IH]; [done|]. cbn [map concat]. rewrite IH. unfold json_string_pieces.
  rewrite (proj2 (Z.eqb_neq y ch_quote)), (proj2 (Z.eqb_neq y ch_backslash)), (proj2 (Z.ltb_ge y 32)) by lia. done.
Qed.

Lemma string_chars_text value : utf8 value -> chars_text (string_chars value) value.
Proof.
  intros (cs & Hcs & ->). induction Hcs as [|x cs Hx _ IH]; [constructor|].
  unfold string_chars, utf8_text in *. cbn [map concat]. rewrite map_app, concat_app.
  destruct (Z.ltb_spec x 128) as [Hlow|Hhigh].
  - assert (0 <= x < 128) by (destruct Hx; lia). rewrite utf8_arith_ascii by done. cbn [map concat].
    rewrite (app_nil_r (concat (json_string_pieces x))). unfold json_string_pieces.
    destruct (Z.eqb_spec x ch_quote) as [->|Hq]; [apply (text_escape ch_quote ch_quote); [cbn; auto|done]|].
    destruct (Z.eqb_spec x ch_backslash) as [->|Hb]; [apply (text_escape ch_backslash ch_backslash); [cbn; auto|done]|].
    cbn [orb]. destruct (Z.ltb_spec x 32).
    + assert (Hh : hex4_text [ch_0; ch_0; lower_hex (Z.shiftr x 4); lower_hex (Z.land x 15)] x).
      { exists ch_0, ch_0, (lower_hex (Z.shiftr x 4)), (lower_hex (Z.land x 15)), 0, 0, (x / 16), (x mod 16).
        rewrite Z.shiftr_div_pow2 by lia. change 15 with (Z.ones 4). rewrite Z.land_ones by lia. change (2 ^ 4) with 16.
        split; [done|]. assert (hex_digit ch_0 0) by (unfold hex_digit; lia).
        split; [done|]. split; [done|]. split; [apply hex_digit_lower; zdivs|]. split; [apply hex_digit_lower; zdivs|]. zdivs. }
      pose proof (text_unicode _ x _ _ Hh ltac:(unfold high_surrogate; lia) ltac:(unfold low_surrogate; lia) IH) as Ht.
      by rewrite utf8_arith_ascii in Ht by done.
    + pose proof (text_scalar x _ _ Hx ltac:(lia) Hq Hb IH) as Ht. by rewrite utf8_arith_ascii in Ht by done.
  - pose proof (utf8_arith_high x Hx Hhigh) as Hraw. rewrite raw_pieces by done. apply text_scalar; try done; lia.
Qed.

(** What is written is a JSON text. *)
Definition valid (o : bytes) : Prop := exists v, compact o v.

Section values.
Context {mode : Mode} (c : bytes).

Lemma not_sure (P : Prop) : (sure = true -> P) -> ~ P -> sure = false.
Proof. intros H HP. destruct sure; [|done]. by destruct HP; apply H. Qed.

Lemma runs_pieces l : runs c (write_pieces l) (fun _ out => out = concat l).
Proof.
  induction l as [|x l IH]; [by apply runs_ret|]. cbn [write_pieces]. apply runs_write_then.
  eapply runs_weaken, IH. by intros _ ? ->.
Qed.

Lemma runs_string_loop value : runs c (json_string_loop value) (fun _ out => out = string_chars value).
Proof.
  induction value as [|x value IH]; [by apply runs_ret|]. cbn [json_string_loop].
  eapply runs_bind; [apply runs_pieces|]. intros _ ? ->. eapply runs_weaken, IH. by intros _ ? ->.
Qed.

Lemma runs_json_string value : runs c (lql_flat_eq_json_string value) (fun _ out => out = quoted (string_chars value)).
Proof.
  unfold lql_flat_eq_json_string. apply runs_write_then. eapply runs_bind; [apply runs_string_loop|].
  intros _ ? ->. eapply runs_weaken, runs_write. by intros _ ? ->.
Qed.

Lemma runs_projection_key key :
  runs c (lql_flat_eq_projection_key key) (fun _ out => out = quoted (string_chars key) ++ [ch_colon]).
Proof.
  unfold lql_flat_eq_projection_key. eapply runs_bind; [apply runs_json_string|]. intros _ ? ->.
  eapply runs_weaken, runs_write. by intros _ ? ->.
Qed.

(** ** Numbers *)

Lemma runs_number d : double_ok d -> (sure = true -> is_Some (lql_number_format_json d 64)) ->
  runs c (lql_flat_eq_mutation_number d) (fun _ out => is_number out /\ lql_number_format_json d 64 = Some out).
Proof.
  intros Hd Hok. unfold lql_flat_eq_mutation_number.
  assert (Hf : lql_number_finite d = false -> lql_number_format_json d 64 = None)
    by (intros H; unfold lql_number_format_json; by rewrite H).
  destruct (lql_number_finite d); cbn [negb].
  - destruct (lql_number_format_json d 64) as [text|] eqn:E1.
    + eapply runs_weaken, runs_write. intros _ ? ->. split; [by eapply format_is_number|done].
    + apply runs_fail; [|done]. eapply not_sure; [exact Hok|]. by intros [? ?].
  - apply runs_fail; [|done]. eapply not_sure; [exact Hok|]. rewrite Hf by done. by intros [? ?].
Qed.

Lemma reads_bytes n : forall off, (sure = true -> (off + n <= length c)%nat) ->
  reads c (read_bytes n off) (fun x => x = take n (drop off c)).
Proof.
  induction n as [|n IH]; intros off Hoff; [by apply reads_ret|]. cbn [read_bytes].
  eapply reads_bind; [apply reads_byte; intros Hs; specialize (Hoff Hs); lia|]. intros y Hy.
  eapply reads_bind; [apply IH; intros Hs; specialize (Hoff Hs); lia|]. intros x ->.
  apply reads_ret. by rewrite (drop_S _ _ _ Hy).
Qed.

Lemma reads_target s e :
  (sure = true -> (s <= e <= length c)%nat /\ is_Some (lql_number_parse_json (take (e - s) (drop s c)))) ->
  reads c (target_number s e) (fun d => lql_number_parse_json (take (e - s) (drop s c)) = Some d).
Proof.
  intros Hok. unfold target_number.
  assert (Hread : reads c (number ← read_bytes (e - s) s;
      match lql_number_parse_json number with None => bad_target | Some value => mret value end)
    (fun d => lql_number_parse_json (take (e - s) (drop s c)) = Some d)).
  { eapply reads_bind; [apply reads_bytes; intros Hs; destruct (Hok Hs) as [? _]; lia|]. intros x ->.
    destruct (lql_number_parse_json _) eqn:E1; [by apply reads_ret|]. apply reads_fail; [|done].
    eapply not_sure; [exact Hok|]. intros [_ [? ?]]. done. }
  destruct (e - s <? 128)%nat; [|by apply reads_alloc_then].
  eapply reads_bind; [by apply (reads_ret _ true (fun b => b = true))|]. by intros ? ->.
Qed.
End values.

(** ** File values *)

(** Success is not asked for. *)
Definition partial : Mode := false.
#[local] Existing Instance partial.

Section file_reads.
Context (c : bytes).

Lemma reads_next_open : reads c next_open loud_open.
Proof.
  intros st [Hs Ht Ho]. unfold next_open. destruct (emit_opens st) as [|o l] eqn:E1; cbn.
  - do 4 (split; [done|]). intros ? [= <-]. constructor.
  - inversion Ho as [|o' l' H1 H2]; subst. do 4 (split; [done|]). by intros ? [= <-].
Qed.

Lemma reads_file_open a : reads c (lql_flat_eq_file_open a) (Forall loud_read).
Proof.
  unfold lql_flat_eq_file_open. destruct (action_value a); [|by apply reads_fail].
  eapply reads_bind; [apply reads_next_open|]. intros [reads| |status message] Ho; cbn in Ho.
  - by apply reads_ret.
  - destruct (file_callbacks a); by apply reads_fail.
  - destruct (file_callbacks a); by apply reads_fail.
Qed.

Lemma reads_file_read a n answer : loud_read answer ->
  reads c (lql_flat_eq_file_read a n answer) (fun data => Forall (fun b => 0 <= b < 256) data).
Proof.
  unfold lql_flat_eq_file_read. destruct answer as [[status message]|data]; intros H; cbn in H.
  - destruct (file_callbacks a); by apply reads_fail.
  - destruct (_ <? _)%nat; [by apply reads_fail|by apply reads_ret].
Qed.

Lemma reads_file_buffer : reads c file_buffer (fun _ => True).
Proof.
  assert (H : reads c (ok ← on_source next_alloc;
    if negb ok then fail_emit LQL_STATUS_NO_MEMORY "out of memory allocating file value buffer" else mret tt) (fun _ => True))
    by (apply reads_alloc_then; [done|by apply reads_ret]).
  intros st Hst. specialize (H st Hst). unfold file_buffer, mbind, E_bind in *.
  rewrite (source_step next_alloc st _ _ _ eq_refl) in *. by destruct (default true _).
Qed.
End file_reads.

(** The bytes that the automaton accepts from one character to the next are UTF-8. *)
Lemma accept_cons st x data st' : accept_bytes st (x :: data) = inr st' ->
  x <> 0 /\ exists st1, lql_flat_eq_utf8_accept st x = Some st1 /\ accept_bytes st1 data = inr st'.
Proof.
  cbn. destruct (Z.eqb_spec x 0); [done|]. destruct (lql_flat_eq_utf8_accept st x) as [st1|]; [|done]. eauto.
Qed.

Lemma accept_app st x y st' : accept_bytes st (x ++ y) = inr st' ->
  exists st1, accept_bytes st x = inr st1 /\ accept_bytes st1 y = inr st'.
Proof.
  revert st. induction x as [|ch x IH]; intros st H; [by exists st|]. cbn [app] in H.
  apply accept_cons in H as (H0 & st1 & H1 & H). apply IH in H as (st2 & H2 & H3). exists st2. split; [|done].
  cbn. by rewrite (proj2 (Z.eqb_neq _ _) H0), H1.
Qed.

Lemma accept_more st data st' : remaining st <> 0%nat -> accept_bytes st data = inr st' -> remaining st' = 0%nat ->
  exists x data', data = x :: data' /\ min_next st <= x <= max_next st /\
    accept_bytes (mk_utf8 (remaining st - 1) 0x80 0xbf) data' = inr st'.
Proof.
  intros Hn H H0. destruct data as [|x data]; [injection H as <-; done|].
  apply accept_cons in H as (_ & st1 & H1 & H). unfold lql_flat_eq_utf8_accept in H1.
  rewrite (proj2 (Nat.eqb_neq _ _) Hn) in H1. destruct (_ || _) eqn:E1; [done|]. injection H1 as <-.
  exists x, data. split; [done|]. split; [lia|done].
Qed.

(** A code point of two, three or four bytes. *)
Lemma utf8_cons v data : scalar v -> utf8 data -> utf8 (utf8_arith v ++ data).
Proof. intros Hv (cs & Hcs & ->). exists (v :: cs). split; [by constructor|done]. Qed.

Lemma accepted_utf8 n : forall data st st', (length data <= n)%nat -> Forall (fun b => 0 <= b) data -> remaining st = 0%nat ->
  accept_bytes st data = inr st' -> remaining st' = 0%nat -> utf8 data.
Proof.
  induction n as [|n IH]; intros data st st' Hn Hb Hst H Hst'.
  { destruct data; [|cbn in Hn; lia]. by exists []. }
  destruct data as [|x data]; [by exists []|]. apply accept_cons in H as (H0 & st1 & H1 & H).
  inversion Hb as [|x' l' Hx Hd]; subst. cbn in Hn. unfold lql_flat_eq_utf8_accept in H1. rewrite Hst in H1. cbn [Nat.eqb] in H1.
  destruct (Z.leb_spec x 0x7f) as [Hl|Hl].
  { injection H1 as <-. change (x :: data) with ([x] ++ data). rewrite <- (utf8_arith_ascii x) by lia.
    apply (utf8_cons x data); [unfold scalar; lia|].
    eapply IH; [lia|exact Hd|exact Hst|exact H|exact Hst']. }
  assert (Htail : forall k lo hi, st1 = mk_utf8 (S k) lo hi -> exists y data', data = y :: data' /\ lo <= y <= hi /\
    accept_bytes (mk_utf8 k 0x80 0xbf) data' = inr st').
  { intros k lo hi ->. apply accept_more in H as (y & data' & -> & Hy & H); [|done|done]. cbn in Hy, H.
    rewrite Nat.sub_0_r in H. eauto. }
  assert (Hnext : forall k data, accept_bytes (mk_utf8 (S k) 0x80 0xbf) data = inr st' -> exists y data', data = y :: data' /\ 0x80 <= y <= 0xbf /\
    accept_bytes (mk_utf8 k 0x80 0xbf) data' = inr st').
  { intros k data0 Hk. apply accept_more in Hk as (y & data' & -> & Hy & Hk); [|done|done]. cbn in Hy, Hk.
    rewrite Nat.sub_0_r in Hk. eauto. }
  assert (Hdone : forall data', accept_bytes (mk_utf8 0 0x80 0xbf) data' = inr st' -> Forall (fun b => 0 <= b) data' ->
    (length data' <= n)%nat -> utf8 data') by (intros; eapply IH; [eassumption|eassumption| |eassumption|exact Hst']; done).
  assert (Hpoint : forall w v data', w = utf8_arith v -> scalar v -> utf8 data' -> utf8 (w ++ data'))
    by (intros w v data' ->; apply utf8_cons).
  assert (Hk : exists k lo hi, st1 = mk_utf8 (S k) lo hi /\ 0x80 <= lo /\ hi <= 0xbf /\
    (k = 0%nat /\ 0xc2 <= x <= 0xdf \/
     k = 1%nat /\ (x = 0xe0 /\ lo = 0xa0 \/ 0xe1 <= x <= 0xef /\ (x = 0xed -> hi = 0x9f)) \/
     k = 2%nat /\ (x = 0xf0 /\ lo = 0x90 \/ 0xf1 <= x <= 0xf3 \/ x = 0xf4 /\ hi = 0x8f))).
  { repeat case_match; try done; injection H1 as <-; do 3 eexists; (split; [reflexivity|lia]). }
  destruct Hk as (k & lo & hi & -> & Hlo & Hhi & Hk).
  destruct (Htail _ _ _ eq_refl) as (y & d1 & -> & Hy & H1'). inversion Hd as [|? ? _ Hd1]; subst. cbn in Hn.
  destruct Hk as [[-> Hk]|[[-> Hk]|[-> Hk]]].
  - apply (Hpoint [x; y] ((x - 0xc0) * 64 + (y - 0x80))); [|unfold scalar; lia|apply Hdone; [done|done|lia]].
    unfold utf8_arith. repeat case_if; bool_hyps; try lia. repeat f_equal; zdivs.
  - destruct (Hnext _ _ H1') as (z & d2 & -> & Hz & H2). inversion Hd1 as [|? ? _ Hd2]; subst. cbn in Hn.
    apply (Hpoint [x; y; z] ((x - 0xe0) * 4096 + (y - 0x80) * 64 + (z - 0x80))); [|unfold scalar; lia|apply Hdone; [done|done|lia]].
    unfold utf8_arith. repeat case_if; bool_hyps; try lia. repeat f_equal; zdivs.
  - destruct (Hnext _ _ H1') as (z & d2 & -> & Hz & H2). inversion Hd1 as [|? ? _ Hd2]; subst. cbn in Hn.
    destruct (Hnext _ _ H2) as (t & d3 & -> & Ht & H3). inversion Hd2 as [|? ? _ Hd3]; subst. cbn in Hn.
    apply (Hpoint [x; y; z; t] ((x - 0xf0) * 262144 + (y - 0x80) * 4096 + (z - 0x80) * 64 + (t - 0x80)));
      [|unfold scalar; lia|apply Hdone; [done|done|lia]].
    unfold utf8_arith. repeat case_if; bool_hyps; try lia. repeat f_equal; zdivs.
Qed.

(** Base64 characters stand for themselves in a string. *)
Lemma plain_chars o : Forall (fun y => 32 <= y < 127 /\ y <> ch_quote /\ y <> ch_backslash) o -> chars_text o o.
Proof.
  induction 1 as [|y o (H1 & H2 & H3) _ IH]; [constructor|].
  pose proof (text_scalar y _ _ ltac:(unfold scalar; lia) ltac:(lia) H2 H3 IH) as H.
  by rewrite utf8_arith_ascii in H by lia.
Qed.

Definition base64_byte (y : Z) : Prop := 32 <= y < 127 /\ y <> ch_quote /\ y <> ch_backslash.

Lemma base64_table_plain : Forall base64_byte base64_table.
Proof. unfold base64_table, base64_byte. cbn. repeat constructor; done. Qed.

Lemma base64_char_plain t s : base64_byte (base64_char t s).
Proof.
  unfold base64_char. change 0x3f with (Z.ones 6). rewrite Z.land_ones by lia. change (2 ^ 6) with 64.
  apply (proj1 (List.Forall_forall _ _) base64_table_plain), nth_In. cbn. zdivs.
Qed.

Lemma triples_plain data : Forall base64_byte (fst (encode_triples data)).
Proof.
  induction data as [data IH] using (induction_ltof1 _ (@length Z)). unfold ltof in IH.
  destruct data as [|a [|b [|d data]]]; [constructor..|]. cbn [encode_triples].
  specialize (IH data ltac:(cbn; lia)). destruct (encode_triples data) as [out carry]. cbn [fst] in *.
  repeat (constructor; [apply base64_char_plain|]). done.
Qed.

Lemma rest_plain carry : Forall base64_byte (encode_rest carry).
Proof.
  destruct carry as [|a rest]; [constructor|]. cbn [encode_rest].
  repeat (constructor; [try apply base64_char_plain; try (destruct rest; [|apply base64_char_plain]); unfold base64_byte; lia|]).
  constructor.
Qed.

Section file_values.
Context (c : bytes) (a : lql_mutation_action).

Lemma reads_not_text strict x : x.1 <> LQL_STATUS_OK -> reads c (not_text strict x) (fun _ => True).
Proof. destruct x as [status message]. intros H. destruct strict; [by apply reads_fail|by apply reads_ret]. Qed.

Lemma accept_bytes_loud st data x : accept_bytes st data = inl x -> x.1 <> LQL_STATUS_OK.
Proof.
  revert st. induction data as [|y data IH]; intros st; [done|]. cbn. destruct (y =? 0); [by intros [= <-]|].
  destruct (lql_flat_eq_utf8_accept st y); [apply IH|by intros [= <-]].
Qed.

Lemma reads_textlike_loop strict l : Forall loud_read l -> forall st, reads c (textlike_loop a strict st l) (fun _ => True).
Proof.
  assert (Hfin : forall st, reads c (if (remaining st =? 0)%nat then mret true else not_text strict NOT_UTF8) (fun _ => True)).
  { intros st. destruct (_ =? _)%nat; [by apply reads_ret|by apply reads_not_text]. }
  induction 1 as [|x l Hx _ IH]; intros st; [apply Hfin|]. cbn [textlike_loop].
  eapply reads_bind; [by apply reads_file_read|]. intros data _. destruct (_ =? _)%nat; [apply Hfin|].
  destruct (accept_bytes st data) eqn:E1; [apply reads_not_text; by eapply accept_bytes_loud|apply IH].
Qed.

Lemma reads_textlike strict : reads c (lql_flat_eq_file_textlike a strict) (fun _ => True).
Proof.
  unfold lql_flat_eq_file_textlike. eapply reads_bind; [apply reads_file_buffer|]. intros _ _.
  eapply reads_bind; [apply reads_file_open|]. intros l Hl. by apply reads_textlike_loop.
Qed.

Lemma runs_write_text data : forall st, runs c (write_text true st data)
  (fun st' out => out = string_chars data /\ accept_bytes st data = inr st').
Proof.
  induction data as [|y data IH]; intros st; [by apply runs_ret|]. cbn [write_text].
  eapply runs_after_read with (P := fun st1 => accept_bytes st [y] = inr st1).
  { intros s Hs. split; [done|]. split; [done|]. destruct (accept_bytes st [y]) as [[status message]|st1] eqn:E1.
    - split; [by eapply accept_bytes_loud in E1|]. by split.
    - do 2 (split; [done|]). by intros ? [= <-]. }
  intros st1 H1. eapply runs_bind; [apply runs_pieces|]. intros _ ? ->. eapply runs_weaken, IH.
  intros st2 out [-> H2]. split; [done|]. cbn in H1 |- *. destruct (y =? 0); [done|].
  destruct (lql_flat_eq_utf8_accept st y); [|done]. by injection H1 as ->.
Qed.

Lemma runs_text_loop l : Forall loud_read l -> forall st, runs c (text_loop a true st l) (fun _ out =>
  exists data st', out = string_chars data ++ [ch_quote] /\ Forall (fun b => 0 <= b) data /\
    accept_bytes st data = inr st' /\ remaining st' = 0%nat).
Proof.
  assert (Hfin : forall st, runs c (if true && negb (remaining st =? 0)%nat then fun st => (inl NOT_UTF8, st)
    else lql_flat_eq_write [ch_quote]) (fun _ out => exists data st', out = string_chars data ++ [ch_quote] /\
      Forall (fun b => 0 <= b) data /\ accept_bytes st data = inr st' /\ remaining st' = 0%nat)).
  { intros st. cbn [andb]. destruct (Nat.eqb_spec (remaining st) 0) as [E1|]; cbn [negb]; [|by apply runs_fail].
    eapply runs_weaken, runs_write. intros _ ? ->. by exists [], st. }
  induction 1 as [|x l Hx _ IH]; intros st; [apply Hfin|]. cbn [text_loop].
  eapply runs_after_read; [by apply reads_file_read|]. intros data Hdata. destruct (_ =? _)%nat; [apply Hfin|].
  eapply runs_bind; [apply runs_write_text|]. intros st1 ? [-> H1]. eapply runs_weaken, IH.
  intros _ ? (data' & st' & -> & Hd & H2 & H3). exists (data ++ data'), st'. split_and!.
  - unfold string_chars. by rewrite map_app, concat_app, <- (assoc_L (++)).
  - apply list.Forall_app. split; [|done]. eapply list.Forall_impl; [exact Hdata|]. cbn. lia.
  - clear -H1 H2. revert st H1. induction data as [|y data IH]; intros st H1; [cbn in H1; by injection H1 as ->|].
    apply accept_cons in H1 as (H0 & s1 & Ha & H1). cbn. rewrite (proj2 (Z.eqb_neq _ _) H0), Ha. by apply IH.
  - done.
Qed.

Lemma runs_text : runs c (lql_flat_eq_file_text_json_string a true) (fun _ => valid).
Proof.
  unfold lql_flat_eq_file_text_json_string. eapply runs_after_read; [apply reads_file_buffer|]. intros _ _.
  eapply runs_after_read; [apply reads_file_open|]. intros l Hl. apply runs_write_then.
  eapply runs_weaken, runs_text_loop; [|done]. intros _ ? (data & st' & -> & Hd & H1 & H2).
  exists (JString data). apply (compact_string (string_chars data)), string_chars_text.
  by eapply (accepted_utf8 _ data utf8_zero st').
Qed.

Lemma runs_write_some out : runs c (write_some out) (fun _ o => o = out).
Proof. unfold write_some. destruct out; [by apply runs_ret|]. apply runs_write. Qed.

Lemma runs_base64_loop l : Forall loud_read l -> forall carry, runs c (base64_loop a carry l)
  (fun _ out => exists o, out = o ++ [ch_quote] /\ Forall base64_byte o).
Proof.
  assert (Hfin : forall carry, runs c (write_some (encode_rest carry) ≫= fun _ => lql_flat_eq_write [ch_quote])
    (fun _ out => exists o, out = o ++ [ch_quote] /\ Forall base64_byte o)).
  { intros carry. eapply runs_bind; [apply runs_write_some|]. intros _ ? ->. eapply runs_weaken, runs_write.
    intros _ ? ->. eexists. split; [done|]. apply rest_plain. }
  induction 1 as [|x l Hx _ IH]; intros carry; [apply Hfin|]. cbn [base64_loop].
  eapply runs_after_read; [by apply reads_file_read|]. intros data _. destruct (_ =? _)%nat; [apply Hfin|].
  pose proof (triples_plain (carry ++ data)) as Hp. destruct (encode_triples _) as [out carry']. cbn [fst] in Hp.
  eapply runs_bind; [apply runs_write_some|]. intros _ ? ->. eapply runs_weaken, IH.
  intros _ ? (o & -> & Ho). exists (out ++ o). split; [by rewrite (assoc_L (++))|]. by apply list.Forall_app.
Qed.

Lemma runs_base64 : runs c (lql_flat_eq_file_base64_json_string a) (fun _ => valid).
Proof.
  unfold lql_flat_eq_file_base64_json_string. eapply runs_after_read; [apply reads_file_buffer|]. intros _ _.
  eapply runs_after_read; [apply reads_file_open|]. intros l Hl. apply runs_write_then.
  eapply runs_weaken, runs_base64_loop; [|done]. intros _ ? (o & -> & Ho). exists (JString o).
  by apply compact_string, plain_chars.
Qed.

Lemma runs_file_value : runs c (lql_flat_eq_file_value a) (fun _ => valid).
Proof.
  assert (Hauto : runs c (textlike ← lql_flat_eq_file_textlike a false;
    if (textlike : bool) then lql_flat_eq_file_text_json_string a true else lql_flat_eq_file_base64_json_string a)
    (fun _ => valid)).
  { eapply runs_after_read; [apply reads_textlike|]. intros [] _; [apply runs_text|apply runs_base64]. }
  unfold lql_flat_eq_file_value. destruct (action_value_kind a); try exact Hauto.
  - eapply runs_after_read; [apply reads_textlike|]. intros _ _. apply runs_text.
  - apply runs_base64.
Qed.
End file_values.

(** ** What an action writes *)

(** The values of the kinds that are text. *)
Definition value_json (a : lql_mutation_action) : json :=
  let text := default [] (action_value a) in
  match action_value_kind a with
  | LQL_MUTATION_VALUE_NUMBER => JNumber text
  | LQL_MUTATION_VALUE_BOOL => JBool (bytes_eqb text (bs "true"))
  | LQL_MUTATION_VALUE_NULL => JNull
  | _ => JString text
  end.

(** The text of the value is that of a JSON value. *)
Definition value_ok (kind : lql_mutation_value_kind) (text : bytes) : Prop :=
  match kind with
  | LQL_MUTATION_VALUE_STRING => utf8 text
  | LQL_MUTATION_VALUE_NUMBER => is_number text
  | LQL_MUTATION_VALUE_BOOL => text = bs "true" \/ text = bs "false"
  | LQL_MUTATION_VALUE_NULL => text = bs "null"
  | _ => True
  end.

(** An action whose names and value are UTF-8; a set has a value. *)
Record good_action (a : lql_mutation_action) : Prop := {
  good_segments : Forall utf8 (segments a);
  good_present : action_kind a = LQL_MUTATION_SET -> is_Some (action_value a);
  good_value : value_ok (action_value_kind a) (default [] (action_value a));
  good_delta : double_ok (delta a)
}.

(** A number with [d] added to it, as it is written. *)
Definition incremented (d : spec_float) (v v' : json) : Prop := exists text current out,
  v = JNumber text /\ lql_number_parse_json text = Some current /\
  lql_number_format_json (double_add current d) 64 = Some out /\ v' = JNumber out.

(** [d] as it is written. *)
Definition number_of (d : spec_float) (v : json) : Prop :=
  exists out, lql_number_format_json d 64 = Some out /\ v = JNumber out.

(** The text of a value that satisfies [V]. *)
Definition one_of (V : json -> Prop) (o : bytes) : Prop := exists v, compact o v /\ V v.

Lemma one_of_valid V o : one_of V o -> valid o.
Proof. intros (v & H & _). by exists v. Qed.

(** What stands at the end of the path. *)
Definition leaf (a : lql_mutation_action) (v : json) : Prop :=
  match action_kind a with
  | LQL_MUTATION_SET => if is_file_kind (action_value_kind a) then True else v = value_json a
  | LQL_MUTATION_INCREMENT => number_of (delta a) v
  | LQL_MUTATION_REMOVE => False
  end.

(** Objects with one member each. *)
Fixpoint nest (segs : list bytes) (v : json) : json :=
  match segs with
  | [] => v
  | s :: segs => JObject [(s, nest segs v)]
  end.

Lemma number_compact w v : compact w v -> is_number w -> v = JNumber w.
Proof.
  intros Hw (y & r & Ey & Hy)%number_text_first. unfold is_digit in Hy.
  destruct Hw as [b t Hb|[]| |w Hw|l Hl|l Hl]; try done; cbn in Ey; injection Ey as <- _;
    destruct Hy as [Hy|Hy]; vm_compute in Hy; done.
Qed.

Lemma compact_number_text w text : compact w (JNumber text) -> w = text.
Proof. by inversion 1. Qed.

Section action.
Context {mode : Mode} (c : bytes) (a : lql_mutation_action) (Ha : good_action a).

Lemma runs_mutation_value : action_kind a = LQL_MUTATION_SET -> (sure = true -> is_file_kind (action_value_kind a) = false) -> runs c (lql_flat_eq_mutation_value a)
  (fun _ => one_of (fun v => if is_file_kind (action_value_kind a) then True else v = value_json a)).
Proof.
  intros Hset Hfile. destruct Ha as [_ Hp Hv _]. destruct (Hp Hset) as [value Ev].
  unfold lql_flat_eq_mutation_value, value_json in *. rewrite Ev in *. cbn [default from_option] in Hv |- *. change (id value) with value in *.
  destruct (action_value_kind a) eqn:Ek; cbn [is_file_kind value_ok] in *;
    try (destruct mode; [by specialize (Hfile eq_refl)|eapply runs_weaken, runs_file_value; intros _ ? [v ?]; by exists v]).
  - eapply runs_weaken, runs_json_string. intros _ ? ->. eexists. split; [|done]. by apply compact_string, string_chars_text.
  - eapply runs_weaken, runs_write. intros _ ? ->. eexists. split; [|done]. by apply compact_number.
  - eapply runs_weaken, runs_write. intros _ ? ->. eexists. split; [|done]. destruct Hv as [Hv|Hv]; subst value; [apply (compact_bool true)|apply (compact_bool false)].
  - eapply runs_weaken, runs_write. intros _ ? ->. eexists. split; [|done]. subst value. apply compact_null.
Qed.

(** An increment is one, when success is asked for. *)
Definition is_increment : Prop := sure = true -> action_kind a = LQL_MUTATION_INCREMENT.

Lemma increment_kind : is_increment -> is_kind a LQL_MUTATION_INCREMENT = false -> sure = false.
Proof. intros H Hk%bool_decide_eq_false. by eapply not_sure. Qed.

Lemma runs_increment_new : is_increment -> (sure = true -> exists v, number_of (delta a) v) ->
  runs c (lql_flat_eq_mutation_increment a None) (fun _ => one_of (number_of (delta a))).
Proof.
  intros Hk Hok. unfold lql_flat_eq_mutation_increment. destruct (is_kind a _) eqn:Ek; cbn [negb]; [|by apply runs_fail; [apply increment_kind|]].
  eapply runs_weaken, runs_number; [|apply Ha|].
  - intros _ o [H1 H2]. exists (JNumber o). split; [by apply compact_number|by exists o].
  - intros Hs. destruct (Hok Hs) as (v & o & Ho & _). by exists o.
Qed.

Lemma runs_increment w v s e : compact w v -> sits c w s e -> is_increment ->
  (sure = true -> exists v', incremented (delta a) v v') ->
  runs c (lql_flat_eq_mutation_increment a (Some (s, e))) (fun _ => one_of (incremented (delta a) v)).
Proof.
  intros Hw Hs Hk Hok. unfold lql_flat_eq_mutation_increment.
  destruct (is_kind a _) eqn:Ek; cbn [negb]; [|by apply runs_fail; [apply increment_kind|]].
  pose proof Hs as Hs0. destruct (sits_bound _ _ _ _ Hs) as (Hl1 & Hl & Hl2).
  assert (Htext : take (e - s) (drop s c) = w).
  { rewrite Hl. destruct Hs as (pre & post & -> & -> & _). by rewrite drop_app_length, take_app_length. }
  assert (Hlen : (1 <= length w)%nat) by (destruct (json_first _ _ (compact_json _ _ Hw)) as (? & ? & -> & _); cbn; lia).
  rewrite (proj2 (Nat.leb_gt _ _)) by lia.
  assert (Hv : sure = true -> exists current o, lql_number_parse_json w = Some current /\
    lql_number_format_json (double_add current (delta a)) 64 = Some o).
  { intros H. destruct (Hok H) as (v' & text & current & o & -> & H1 & H2 & _). exists current, o.
    by rewrite (compact_number_text _ _ Hw). }
  eapply runs_after_read; [apply reads_target|].
  { rewrite Htext. intros H. destruct (Hv H) as (? & ? & ? & _). split; [lia|by eexists]. }
  intros d Hd. cbn beta in Hd. rewrite Htext in Hd.
  pose proof (double_add_ok d (delta a) (parse_json_ok _ _ Hd) (good_delta a Ha)) as Hd2.
  eapply runs_weaken, runs_number; [|done|].
  - intros _ o [H1 H2]. exists (JNumber o). split; [by apply compact_number|].
    exists w, d, o. split_and!; try done. apply (number_compact w v Hw).
    destruct (parse_json_number w d Hd) as (m & x & Hn). by exists m, x.
  - intros H. destruct (Hv H) as (d' & o & H1 & H2). rewrite Hd in H1. injection H1 as <-. by exists o.
Qed.
End action.

(** ** Objects made for a path *)

Lemma one_of_weaken (V V' : json -> Prop) o : (forall v, V v -> V' v) -> one_of V o -> one_of V' o.
Proof. intros H (v & Hv & HV). exists v. auto. Qed.

Lemma runs_one_of {mode : Mode} c {A} (m : E A) (V V' : json -> Prop) : (forall v, V v -> V' v) ->
  runs c m (fun _ => one_of V) -> runs c m (fun _ => one_of V').
Proof. intros H. apply runs_weaken. intros _ o. by apply one_of_weaken. Qed.

Lemma one_of_self w v : compact w v -> one_of (fun v' => v' = v) w.
Proof. intros H. by exists v. Qed.

Lemma compact_single s o v : utf8 s -> compact o v ->
  compact ([ch_lbrace] ++ quoted (string_chars s) ++ [ch_colon] ++ o ++ [ch_rbrace]) (JObject [(s, v)]).
Proof.
  intros Hs Ho. set (m := mk_member (string_chars s) s o v).
  assert (Hm : compact_members [m]) by (constructor; [by apply string_chars_text|done|constructor]).
  pose proof (compact_object [m] Hm) as H. cbn [map] in H. rewrite items_one in H. unfold member_text in H.
  by rewrite <- (assoc_L (++)) in H.
Qed.

Section chain.
Context {mode : Mode} (c : bytes) (a : lql_mutation_action) (Ha : good_action a).

Lemma good_seg depth : utf8 (seg a depth).
Proof.
  destruct Ha as [H _ _ _]. unfold seg. destruct (nth_in_or_default depth (segments a) []) as [Hin| ->].
  - by apply (proj1 (List.Forall_forall _ _) H).
  - by exists [].
Qed.

Lemma drop_segments depth : (depth < segment_count a)%nat -> drop depth (segments a) = seg a depth :: drop (S depth) (segments a).
Proof.
  intros H. unfold seg, segment_count in *. destruct (nth_lookup_or_length (segments a) depth []) as [E1|E1]; [|lia].
  by rewrite (drop_S _ _ _ E1).
Qed.

(** What the action writes at the end of its path can be written. *)
Definition leaf_ok : Prop := sure = true -> is_file_kind (action_value_kind a) = false /\ exists x, leaf a x.

Context (Hleaf : leaf_ok).

Lemma leaf_value : action_kind a = LQL_MUTATION_SET -> runs c (lql_flat_eq_mutation_value a) (fun _ => one_of (leaf a)).
Proof.
  intros Ek. eapply runs_one_of, runs_mutation_value; [|done|done|apply Hleaf]. intros v Hv. unfold leaf. by rewrite Ek.
Qed.

Lemma leaf_increment : action_kind a = LQL_MUTATION_INCREMENT ->
  runs c (lql_flat_eq_mutation_increment a None) (fun _ => one_of (leaf a)).
Proof.
  intros Ek. eapply runs_one_of, runs_increment_new; [|done|by intros _|].
  - intros v Hv. unfold leaf. by rewrite Ek.
  - intros Hs. destruct (Hleaf Hs) as (_ & x & Hx). unfold leaf in Hx. rewrite Ek in Hx. by exists x.
Qed.

Lemma runs_object_chain n : forall depth, (depth < segment_count a)%nat -> (segment_count a - depth <= n)%nat ->
  runs c (object_chain n a depth) (fun _ => one_of (fun v => exists x, leaf a x /\ v = nest (drop depth (segments a)) x)).
Proof.
  induction n as [|n IH]; intros depth Hd Hn; [lia|]. cbn [object_chain]. apply runs_write_then.
  eapply runs_bind; [apply runs_projection_key|]. intros _ ? ->.
  eapply runs_bind with (P := fun _ => one_of (fun v => exists x, leaf a x /\ v = nest (drop (S depth) (segments a)) x)).
  - destruct (Nat.eqb_spec (S depth) (segment_count a)) as [E1|E1]; [|apply IH; lia].
    assert (Hnil : drop (S depth) (segments a) = []) by (apply drop_ge; unfold segment_count in *; lia). rewrite Hnil.
    destruct (action_kind a) eqn:Ek.
    + eapply runs_one_of, leaf_value; [|done]. intros v Hv. by exists v.
    + eapply runs_one_of, leaf_increment; [|done]. intros v Hv. by exists v.
    + apply runs_fail; [|done]. eapply not_sure; [apply Hleaf|]. intros (_ & x & Hx). unfold leaf in Hx. by rewrite Ek in Hx.
  - intros _ o1 (v & Hv & x & Hx & ->). eapply runs_weaken, runs_write. intros _ ? ->.
    rewrite (drop_segments depth) by done. cbn [nest].
    eexists. split; [|by eexists]. rewrite <- !(assoc_L (++)). apply compact_single; [by apply good_seg|done].
Qed.

Lemma runs_chain depth : (depth < segment_count a)%nat -> runs c (lql_flat_eq_mutation_object_chain a depth)
  (fun _ => one_of (fun v => exists x, leaf a x /\ v = nest (drop depth (segments a)) x)).
Proof. intros H. by apply runs_object_chain. Qed.
End chain.

(** ** Rewriting the parts of a value *)

(** [P i x y]: the element [x] of index [i] becomes [y]. *)
Inductive elements_become (P : nat -> json -> json -> Prop) : nat -> list json -> list json -> Prop :=
| become_end i : elements_become P i [] []
| become_element i x y l l' : P i x y -> elements_become P (S i) l l' -> elements_become P i (x :: l) (y :: l').

(** [P key x y]: the member of [key] with [x] has [y] then, or is dropped. *)
Inductive members_become (P : bytes -> json -> option json -> Prop) : list (bytes * json) -> list (bytes * json) -> Prop :=
| become_empty : members_become P [] []
| become_member k x y l l' : P k x (Some y) -> members_become P l l' -> members_become P ((k, x) :: l) ((k, y) :: l')
| become_dropped k x l l' : P k x None -> members_become P l l' -> members_become P ((k, x) :: l) l'.

(** [o] is the text of [m] with another value. *)
Definition member_out (P : bytes -> json -> option json -> Prop) (m : member) (o : bytes) : Prop :=
  exists m', good_member m' /\ o = member_text m' /\ m_key m' = m_key m /\ P (m_key m) (m_value m) (Some (m_value m')).

Lemma compact_array_inv w vs : compact w (JArray vs) -> exists l, w = array_text l /\ vs = map snd l /\ compact_elements l.
Proof.
  intros H. remember (JArray vs) as v eqn:Ev. destruct H as [| | | |l Hl|l Hl]; try done. injection Ev as <-. by exists l.
Qed.

Lemma compact_object_inv w ms : compact w (JObject ms) -> exists l, w = object_text l /\ ms = map member_pair l /\ compact_members l.
Proof.
  intros H. remember (JObject ms) as v eqn:Ev. destruct H as [| | | |l Hl|l Hl]; try done. injection Ev as <-. by exists l.
Qed.

(** The value that starts with a bracket or a brace. *)
Lemma compact_bracket r v : compact (ch_lbracket :: r) v -> exists vs, v = JArray vs.
Proof.
  intros H. destruct (json_first _ _ (compact_json _ _ H)) as (y & r' & E1 & Hy). injection E1 as <- _.
  destruct v as [|[]| | |vs|]; try (by exists vs); exfalso; cbn in Hy; unfold is_digit in Hy; lia.
Qed.

Lemma compact_brace r v : compact (ch_lbrace :: r) v -> exists ms, v = JObject ms.
Proof.
  intros H. destruct (json_first _ _ (compact_json _ _ H)) as (y & r' & E1 & Hy). injection E1 as <- _.
  destruct v as [|[]| | | |ms]; try (by exists ms); exfalso; cbn in Hy; unfold is_digit in Hy; lia.
Qed.

Section containers.
Context {mode : Mode} (c : bytes).

Lemma sits_at w v s e y : compact w v -> sits c w s e -> c !! s = Some y -> exists r, w = y :: r.
Proof.
  intros Hw Hs Hy. destruct (json_first _ _ (compact_json _ _ Hw)) as (y' & r & -> & _). exists r.
  pose proof (sits_first _ _ _ _ _ Hs). congruence.
Qed.

(** The first byte of a value is read. *)
Lemma runs_first {A} w v s e (f : Z -> E A) Q : compact w v -> sits c w s e ->
  (forall y, c !! s = Some y -> first_byte v y -> runs c (f y) Q) -> runs c (lql_flat_eq_spool_byte s ≫= f) Q.
Proof.
  intros Hw Hs Hf. destruct (json_first _ _ (compact_json _ _ Hw)) as (y & r & -> & Hv).
  pose proof (sits_first _ _ _ _ _ Hs) as Hy. eapply runs_byte_then; [exact Hy|]. by apply Hf.
Qed.

Lemma elements_texts P l i outs : elements_out (fun i _ v => one_of (P i v)) i l outs ->
  exists l', compact_elements l' /\ outs = map fst l' /\ elements_become P i (map snd l) (map snd l').
Proof.
  induction 1 as [i|i w v l o outs (v' & Ho & HP) _ (l' & Hl & -> & Hb)]; [exists []; split_and!; constructor|].
  exists ((o, v') :: l'). split_and!; by constructor.
Qed.

Lemma runs_elements element P w v s e : compact w v -> sits c w s e -> c !! s = Some ch_lbracket ->
  (forall i w' v' s' e', compact w' v' -> sits c w' s' e' -> (length w' < length w)%nat ->
     runs c (element i s' e') (fun _ => one_of (P i v'))) ->
  runs c (rewrite_array element s e)
    (fun _ => one_of (fun v' => exists vs vs', v = JArray vs /\ v' = JArray vs' /\ elements_become P 0 vs vs')).
Proof.
  intros Hw Hs Hc He. destruct (sits_at _ _ _ _ _ Hw Hs Hc) as [r ->].
  destruct (compact_bracket _ _ Hw) as [vs ->]. destruct (compact_array_inv _ _ Hw) as (l & Ew & -> & Hl). rewrite Ew in *.
  eapply runs_weaken, (runs_array c element (fun i _ v => one_of (P i v)) l s e Hl Hs).
  - intros _ ? (outs & -> & Ho). apply elements_texts in Ho as (l' & Hl' & -> & Hb).
    exists (JArray (map snd l')). split; [by apply compact_array|eauto].
  - intros i w v s' e' Hin Hwv Hs'. apply (He i w v); [done|done|].
    pose proof (items_length w (map fst l) ltac:(by apply (in_map fst) in Hin) true).
    unfold array_text. cbn. rewrite length_app. cbn. lia.
Qed.

Lemma members_texts P l outs : members_out (fun m => P (m_key m) (m_value m) None) (member_out P) l outs ->
  exists l', compact_members l' /\ outs = map member_text l' /\ members_become P (map member_pair l) (map member_pair l').
Proof.
  induction 1 as [|m l o outs (m' & [Hk Hv] & -> & Ekey & HP) _ (l' & Hl & -> & Hb)|m l outs HD _ (l' & Hl & -> & Hb)].
  - exists []. split_and!; constructor.
  - exists (m' :: l'). split_and!; [by constructor|done|]. cbn [map]. unfold member_pair at 1 3. rewrite Ekey. by constructor.
  - exists l'. split_and!; [done|done|]. cbn [map]. unfold member_pair at 1. by constructor.
Qed.

(** [matches] compares the key at an offset before [stop]. *)
Definition compares_key (matches : nat -> E bool) (same : bytes -> bool) (stop : nat) : Prop :=
  forall b t pre post, chars_text b t -> c = pre ++ quoted b ++ post -> (length pre + length (quoted b) <= stop)%nat ->
  reads c (matches (length pre)) (fun r => r = same t).

Lemma compares_all stop : compares_key (fun _ => mret true) (fun _ => true) stop.
Proof. intros b t pre post _ _ _. by apply reads_ret. Qed.

Lemma compares_equals segment stop :
  compares_key (fun key_start => lql_flat_eq_key_equals key_start stop segment) (fun t => bytes_eqb t segment) stop.
Proof.
  intros b t pre post Hb Hc Hl. eapply reads_weaken, reads_key; [|done..]. by intros r ->.
Qed.

Lemma compares_segment segment stop :
  compares_key (fun key_start => lql_flat_eq_mutation_object_key_matches_segment key_start stop segment)
    (fun t => lql_flat_eq_mutation_segment_matches_any_object_key segment ||
              negb (bytes_eqb segment seg_any_index) && bytes_eqb t segment) stop.
Proof.
  intros b t pre post Hb Hc Hl. unfold lql_flat_eq_mutation_object_key_matches_segment.
  destruct (lql_flat_eq_mutation_segment_matches_any_object_key segment); [by apply reads_ret|].
  destruct (bytes_eqb segment seg_any_index); [by apply reads_ret|]. by eapply compares_equals.
Qed.

Lemma compares_name segment stop :
  compares_key (name_matches segment stop)
    (fun t => lql_flat_eq_mutation_segment_matches_any_object_key segment || bytes_eqb t segment) stop.
Proof.
  intros b t pre post Hb Hc Hl. unfold name_matches.
  destruct (lql_flat_eq_mutation_segment_matches_any_object_key segment); [by apply reads_ret|]. by eapply compares_equals.
Qed.

Definition members (v : json) : list (bytes * json) := match v with JObject ms => ms | _ => [] end.

(** The places of a member in the object. *)
Record member_here (w : bytes) (m : member) (ks ke ce : nat) : Prop := {
  here_good : good_member m;
  here_at : member_at c m ks ke ce;
  here_smaller : (length (member_text m) < length w)%nat
}.

Lemma here_value w m ks ke ce : member_here w m ks ke ce ->
  compact (m_text m) (m_value m) /\ sits c (m_text m) (S ke) ce /\ (length (m_text m) < length w)%nat.
Proof.
  intros [[_ H] [_ _ Hs] Hl]. split; [done|]. split; [done|]. unfold member_text in Hl.
  rewrite length_app in Hl. cbn in Hl. lia.
Qed.

Lemma runs_members_rel P matches write same w v s e : compact w v -> sits c w s e -> c !! s = Some ch_lbrace ->
  compares_key matches same e ->
  (forall m ks ke ce, member_here w m ks ke ce -> In (member_pair m) (members v) ->
     match write (same (m_key m)) ks ke ce with
     | None => P (m_key m) (m_value m) None
     | Some o => runs c o (fun _ => member_out P m)
     end) ->
  runs c (rewrite_members matches write s e) (fun st out => exists ms l,
    v = JObject ms /\ compact_members l /\ out = ch_lbrace :: items_text true (map member_text l) /\ members_become P ms (map member_pair l) /\ st = (bool_decide (l = []), existsb (fun m => same (fst m)) ms)).
Proof.
  intros Hw Hs Hc Hm Hwrite. destruct (sits_at _ _ _ _ _ Hw Hs Hc) as [r ->].
  destruct (compact_brace _ _ Hw) as [ms ->]. destruct (compact_object_inv _ _ Hw) as (l & Ew & -> & Hl). rewrite Ew in *.
  eapply runs_weaken, (runs_members c (fun m => same (m_key m)) (fun m => P (m_key m) (m_value m) None) (member_out P)
    matches write l s e Hl Hs).
  - intros st ? (outs & -> & Ho & ->). apply members_texts in Ho as (l' & Hl' & -> & Hb).
    exists (map member_pair l), l'. split_and!; try done. f_equal.
    + apply bool_decide_ext. split; [apply map_eq_nil|by intros ->].
    + clear. induction l as [|m l IH]; [done|]. cbn. by rewrite IH.
  - intros m pre post _ [Hk _] Ec Hlt. eapply Hm; [exact Hk|rewrite Ec; unfold member_text; by rewrite <- (assoc_L (++))|].
    unfold member_text in Hlt. rewrite length_app in Hlt. lia.
  - intros m ks ke ce Hin Hg Hat. apply Hwrite; [|by apply in_map]. split; [done|done|].
    pose proof (items_length (member_text m) (map member_text l) ltac:(by apply in_map) true).
    unfold object_text. cbn [length]. rewrite length_app. cbn [length]. lia.
Qed.

Lemma runs_object_rel P matches write same w v s e : compact w v -> sits c w s e -> c !! s = Some ch_lbrace ->
  compares_key matches same e ->
  (forall m ks ke ce, member_here w m ks ke ce -> In (member_pair m) (members v) ->
     match write (same (m_key m)) ks ke ce with
     | None => P (m_key m) (m_value m) None
     | Some o => runs c o (fun _ => member_out P m)
     end) ->
  runs c (rewrite_object matches write s e)
    (fun _ => one_of (fun v' => exists ms ms', v = JObject ms /\ v' = JObject ms' /\ members_become P ms ms')).
Proof.
  intros Hw Hs Hc Hm Hwrite. unfold rewrite_object. eapply runs_bind; [by eapply runs_members_rel|].
  intros st o1 (ms & l & -> & Hl & -> & Hb & _). eapply runs_weaken, runs_write. intros _ ? ->.
  exists (JObject (map member_pair l)). split; [|eauto]. by apply compact_object.
Qed.

(** A member with its key and a new value, or as it is. *)
Lemma runs_keyed_rel (P : bytes -> json -> option json -> Prop) w m ks ke ce value : member_here w m ks ke ce ->
  runs c value (fun _ => one_of (fun v => P (m_key m) (m_value m) (Some v))) ->
  runs c (keyed ks ke value) (fun _ => member_out P m).
Proof.
  intros [[Hk _] Hat _] Hv. eapply runs_weaken, runs_keyed; [|done|exact Hv].
  intros _ ? (o & -> & v & Ho & HP). by exists (mk_member (m_chars m) (m_key m) o v).
Qed.

Lemma runs_copy_rel w v s e : compact w v -> sits c w s e -> runs c (copy s e) (fun _ => one_of (fun v' => v' = v)).
Proof. intros Hw Hs. eapply runs_weaken, runs_copy; [|done]. intros _ ? ->. by apply one_of_self. Qed.

Lemma runs_copy_member (P : bytes -> json -> option json -> Prop) w m ks ke ce : member_here w m ks ke ce ->
  P (m_key m) (m_value m) (Some (m_value m)) -> runs c (copy ks ce) (fun _ => member_out P m).
Proof.
  intros [Hg [_ Hs _] _] HP. eapply runs_weaken, runs_copy; [|done]. intros _ ? ->. by exists m.
Qed.
End containers.

(** Members after members. *)
Lemma items_app l l' : forall first, items_text first (l ++ l') = items_text first l ++ items_text (first && bool_decide (l = [])) l'.
Proof.
  induction l as [|x l IH]; intros first; [cbn; by rewrite andb_true_r|].
  cbn [app items_text]. rewrite IH, andb_false_r, <- !(assoc_L (++)). done.
Qed.

Section missing.
Context {mode : Mode} (c : bytes) (a : lql_mutation_action) (Ha : good_action a) (Hleaf : leaf_ok a).

(** A member that is written after others. *)
Lemma runs_new_member first key (value : E unit) V : utf8 key -> runs c value (fun _ => one_of V) ->
  runs c (comma first ≫= fun _ => lql_flat_eq_projection_key key ≫= fun _ => value)
    (fun _ out => exists m, good_member m /\ m_key m = key /\ V (m_value m) /\ out = items_text first [member_text m]).
Proof.
  intros Hk Hv. apply runs_comma. eapply runs_bind; [apply runs_projection_key|]. intros _ ? ->.
  eapply runs_weaken, Hv. intros _ ? (v & Ho & HV).
  eexists (mk_member (string_chars key) key _ v). split; [split; [by apply string_chars_text|exact Ho]|].
  split; [done|]. split; [done|]. cbn [items_text]. unfold member_text. cbn. by rewrite <- !(assoc_L (++)), app_nil_r.
Qed.

(** The members that an object gets at its end. *)
Definition made (depth : nat) (found : bool) (l : list member) : Prop :=
  if found || lql_flat_eq_mutation_suffix_has_wildcard a (S depth) then l = []
  else exists m x, l = [m] /\ m_key m = seg a depth /\ leaf a x /\ m_value m = nest (drop (S depth) (segments a)) x.

Lemma runs_make_missing depth first found (value : E unit) : (depth < segment_count a)%nat -> runs c value (fun _ => one_of (leaf a)) ->
  runs c (make_missing a depth first found value) (fun _ out => exists l, compact_members l /\ made depth found l /\
    out = items_text first (map member_text l) ++ [ch_rbrace]).
Proof.
  intros Hd Hv. unfold make_missing, made. destruct (found || _).
  - eapply runs_bind; [by apply (runs_ret c tt (fun _ out => out = []))|]. intros _ ? ->.
    eapply runs_weaken, runs_write. intros _ ? ->. exists []. split_and!; try done. constructor.
  - eapply runs_bind; [apply (runs_new_member _ _ _ (fun v => exists x, leaf a x /\ v = nest (drop (S depth) (segments a)) x));
      [by apply good_seg|]|].
    + destruct (last_segment a depth) eqn:El.
      * unfold last_segment in El. apply Nat.eqb_eq in El. rewrite drop_ge by (unfold segment_count in *; lia).
        eapply runs_one_of, Hv. intros v Hx. by exists v.
      * apply Nat.eqb_neq in El. apply runs_chain; [done|done|lia].
    + intros _ ? (m & Hm & Hk & (x & Hx & Ex) & ->). eapply runs_weaken, runs_write. intros _ ? ->.
      exists [m]. split; [by apply compact_members_all, Forall_singleton|]. split; [by exists m, x|done].
Qed.

(** The members of an object and those after them. *)
Lemma runs_members_then P matches write same w v s e (f : bool * bool -> E unit) R :
  compact w v -> sits c w s e -> c !! s = Some ch_lbrace -> compares_key c matches same e ->
  (forall m ks ke ce, member_here c w m ks ke ce -> In (member_pair m) (members v) ->
     match write (same (m_key m)) ks ke ce with
     | None => P (m_key m) (m_value m) None
     | Some o => runs c o (fun _ => member_out P m)
     end) ->
  (forall first found, runs c (f (first, found)) (fun _ out => exists l, compact_members l /\ R found l /\
     out = items_text first (map member_text l) ++ [ch_rbrace])) ->
  runs c (rewrite_members matches write s e ≫= f) (fun _ => one_of (fun v' => exists ms ms' l, v = JObject ms /\
    members_become P ms ms' /\ R (existsb (fun m => same (fst m)) ms) l /\ v' = JObject (ms' ++ map member_pair l))).
Proof.
  intros Hw Hs Hc Hm Hwrite Hf. eapply runs_bind; [by eapply runs_members_rel|].
  intros [first found] ? (ms & l & -> & Hl & -> & Hb & [= -> ->]).
  eapply runs_weaken, Hf. intros _ ? (l' & Hl' & HR & ->).
  exists (JObject (map member_pair (l ++ l'))). split; [|exists ms, (map member_pair l), l'; by rewrite map_app].
  assert (Hall : compact_members (l ++ l')).
  { apply compact_members_all, list.Forall_app. by rewrite <- !compact_members_all. }
  pose proof (compact_object _ Hall) as H. rewrite map_app, items_app in H. cbn [andb] in H.
  replace (bool_decide (map member_text l = [])) with (bool_decide (l = [])) in H
    by (apply bool_decide_ext; split; [by intros ->|by intros ?%map_eq_nil]).
  by rewrite <- (assoc_L (++)) in H.
Qed.
End missing.

(** ** Every routine writes JSON *)

(** A value and its place. *)
Record place (c w : bytes) (v : json) (s e : nat) : Prop := {
  place_text : compact w v;
  place_sits : sits c w s e
}.

Lemma collapse_bounds a depth : (depth <= lql_flat_eq_mutation_collapse_ellipsis a depth)%nat /\
  ((depth < segment_count a)%nat -> (lql_flat_eq_mutation_collapse_ellipsis a depth < segment_count a)%nat).
Proof.
  unfold lql_flat_eq_mutation_collapse_ellipsis. generalize (segment_count a) at 1 3. intros n. revert depth.
  induction n as [|n IH]; intros depth; [done|]. cbn [collapse_loop].
  destruct (depth + 1 <? segment_count a)%nat eqn:E1; cbn [andb]; [|done]. apply Nat.ltb_lt in E1.
  destruct (_ && _); [|done]. specialize (IH (S depth)). lia.
Qed.

Section validity.
Context (c : bytes) (a : lql_mutation_action) (Ha : good_action a).

Lemma valid_of {A} (m : E A) V : runs c m (fun _ => one_of V) -> runs c m (fun _ => valid).
Proof. apply runs_weaken. intros _ o. apply one_of_valid. Qed.

Lemma value_valid : action_kind a = LQL_MUTATION_SET -> runs c (lql_flat_eq_mutation_value a) (fun _ => valid).
Proof. intros Hk. by eapply valid_of, runs_mutation_value. Qed.

Lemma null_valid : runs c write_null (fun _ => valid).
Proof. eapply runs_weaken, runs_write. intros _ ? ->. exists JNull. constructor. Qed.

Lemma copy_valid w v s e : place c w v s e -> runs c (copy s e) (fun _ => valid).
Proof. intros [Hw Hs]. by eapply valid_of, runs_copy_rel. Qed.

Lemma increment_valid w v s e : place c w v s e -> runs c (lql_flat_eq_mutation_increment a (Some (s, e))) (fun _ => valid).
Proof. intros [Hw Hs]. by eapply valid_of, runs_increment. Qed.

Lemma increment_new_valid : runs c (lql_flat_eq_mutation_increment a None) (fun _ => valid).
Proof. by eapply valid_of, runs_increment_new. Qed.

Lemma chain_valid depth : (depth < segment_count a)%nat -> runs c (lql_flat_eq_mutation_object_chain a depth) (fun _ => valid).
Proof. intros H. by eapply valid_of, runs_chain. Qed.

(** The first byte of a value is read. *)
Lemma first_valid {A} w v s e (f : Z -> E A) Q : place c w v s e -> (forall y, c !! s = Some y -> runs c (f y) Q) ->
  runs c (lql_flat_eq_spool_byte s ≫= f) Q.
Proof.
  intros [Hw Hs] Hf. eapply runs_first; [exact Hw|exact Hs|]. auto.
Qed.

Lemma array_valid element w v s e : place c w v s e -> c !! s = Some ch_lbracket ->
  (forall i w' v' s' e', place c w' v' s' e' -> (length w' < length w)%nat -> runs c (element i s' e') (fun _ => valid)) ->
  runs c (rewrite_array element s e) (fun _ => valid).
Proof.
  intros [Hw Hs] Hc He. eapply valid_of, (runs_elements c element (fun _ _ _ => True)); [done..|].
  intros i w' v' s' e' Hw' Hs' Hl. eapply runs_weaken, He; [|by split|done]. intros _ o [v1 ?]. by exists v1.
Qed.

(** What is written of a member of an object whose text is [w]. *)
Definition writes_member (w : bytes) (o : option (E unit)) (m : member) : Prop :=
  match o with None => True | Some o => runs c o (fun _ => member_out (fun _ _ _ => True) m) end.

Lemma object_valid matches write same w v s e : place c w v s e -> c !! s = Some ch_lbrace ->
  compares_key c matches same e ->
  (forall m ks ke ce, member_here c w m ks ke ce -> writes_member w (write (same (m_key m)) ks ke ce) m) ->
  runs c (rewrite_object matches write s e) (fun _ => valid).
Proof.
  intros [Hw Hs] Hc Hm Hwrite. eapply valid_of, (runs_object_rel c (fun _ _ _ => True)); [done..|].
  intros m ks ke ce H _. specialize (Hwrite m ks ke ce H). unfold writes_member in Hwrite. by destruct (write _ _ _ _).
Qed.

Lemma keyed_valid w m ks ke ce value : member_here c w m ks ke ce ->
  (place c (m_text m) (m_value m) (S ke) ce -> (length (m_text m) < length w)%nat -> runs c value (fun _ => valid)) ->
  writes_member w (Some (keyed ks ke value)) m.
Proof.
  intros Hm Hv. destruct (here_value _ _ _ _ _ _ Hm) as (H1 & H2 & H3). eapply runs_keyed_rel; [done|].
  eapply runs_weaken, Hv; [|by split|done]. intros _ o [v ?]. by exists v.
Qed.

Lemma copied_valid w m ks ke ce : member_here c w m ks ke ce -> writes_member w (Some (copy ks ce)) m.
Proof. intros Hm. by eapply runs_copy_member. Qed.

(** The cases of a routine: what is written is one of the pieces above. *)
Ltac emit_case :=
  match goal with
  | |- runs _ (let _ := _ in _) _ => cbv zeta
  | |- runs _ invalid_argument _ => by apply runs_fail
  | |- runs _ json_error _ => by apply runs_fail
  | |- runs _ (lql_flat_eq_mutation_value _) _ => apply value_valid; assumption
  | |- runs _ write_null _ => apply null_valid
  | |- runs _ (lql_flat_eq_mutation_increment _ None) _ => apply increment_new_valid
  | H : place _ _ _ _ _ |- runs _ (copy _ _) _ => by eapply copy_valid, H
  | H : place _ _ _ _ _ |- runs _ (lql_flat_eq_mutation_increment _ (Some _)) _ => by eapply increment_valid, H
  | H : place _ _ _ ?s _ |- runs _ (lql_flat_eq_spool_byte ?s ≫= _) _ =>
      eapply first_valid; [exact H|]; let y := fresh "y" in let Hy := fresh "Hy" in intros y Hy
  | H : place _ _ _ _ _, Hy : _ !! _ = Some ?y, Hch : (?y =? ch_lbracket) = true |- runs _ (rewrite_array _ _ _) _ =>
      apply Z.eqb_eq in Hch as ->; eapply array_valid; [exact H|exact Hy|];
      clear H Hy; intros ? ? ? ? ? H ?
  | H : place _ _ _ _ _, Hy : _ !! _ = Some ?y, Hch : (?y =? ch_lbrace) = true |- runs _ (rewrite_object _ _ _ _) _ =>
      apply Z.eqb_eq in Hch as ->; eapply object_valid; [exact H|exact Hy| |];
      [first [apply compares_all|apply compares_equals|apply compares_segment|apply compares_name]|];
      clear H Hy; intros ? ? ? ? ?
  | H : member_here _ _ _ _ _ _ |- writes_member _ (Some (keyed _ _ _)) _ => eapply keyed_valid; [exact H|]; intros ? ?
  | H : member_here _ _ _ _ _ _ |- writes_member _ (Some (copy _ _)) _ => by eapply copied_valid
  | |- writes_member _ None _ => exact I
  | H : _ || _ = false |- _ => apply orb_false_iff in H as [? ?]
  | H : _ && _ = true |- _ => apply andb_true_iff in H as [? ?]
  | H : negb _ = true |- _ => apply negb_true_iff in H
  | H : negb _ = false |- _ => apply negb_false_iff in H
  | H : (_ <=? _)%nat = false |- _ => apply Nat.leb_gt in H
  | |- runs _ (if ?b then _ else _) _ => destruct b eqn:?
  | |- writes_member _ (if ?b then _ else _) _ => destruct b eqn:?
  | |- writes_member _ (Some (if ?b then _ else _)) _ => destruct b eqn:?
  end.
Ltac emits := repeat emit_case.

Lemma set_paths_valid fuel : action_kind a = LQL_MUTATION_SET ->
  (forall w v s e depth, place c w v s e -> (length w + (segment_count a - depth) < fuel)%nat ->
     runs c (set_recursive_key fuel a s e depth) (fun _ => valid)) /\
  (forall w v s e depth, place c w v s e -> (length w + (segment_count a - depth) < fuel)%nat ->
     runs c (set_existing_path fuel a s e depth) (fun _ => valid)).
Proof.
  intros Hset. induction fuel as [|fuel [IHr IHe]]; [split; intros; lia|].
  split; intros w v s e depth Hp Hf; cbn [set_recursive_key set_existing_path];
    destruct (collapse_bounds a depth) as [Hd1 Hd2]; revert Hd1 Hd2;
    generalize (lql_flat_eq_mutation_collapse_ellipsis a depth); intros d Hd1 Hd2.
  all: emits; first [eapply IHr|eapply IHe]; try eassumption; lia.
Qed.

Lemma set_recursive_valid fuel w v s e depth : action_kind a = LQL_MUTATION_SET -> place c w v s e -> (length w + (segment_count a - depth) < fuel)%nat ->
  runs c (set_recursive_key fuel a s e depth) (fun _ => valid).
Proof. intros Hset. by apply set_paths_valid. Qed.

Lemma set_existing_valid fuel w v s e depth : action_kind a = LQL_MUTATION_SET -> place c w v s e -> (length w + (segment_count a - depth) < fuel)%nat ->
  runs c (set_existing_path fuel a s e depth) (fun _ => valid).
Proof. intros Hset. by apply set_paths_valid. Qed.

Lemma remove_paths_valid fuel :
  (forall w v s e depth, place c w v s e -> (length w + (segment_count a - depth) < fuel)%nat ->
     runs c (remove_recursive_key fuel a s e depth) (fun _ => valid)) /\
  (forall w v s e depth, place c w v s e -> (length w + (segment_count a - depth) < fuel)%nat ->
     runs c (nested_remove fuel a s e depth) (fun _ => valid)).
Proof.
  induction fuel as [|fuel [IHr IHe]]; [split; intros; lia|].
  split; intros w v s e depth Hp Hf; cbn [remove_recursive_key nested_remove];
    unfold lql_flat_eq_mutation_nested_remove_array;
    destruct (collapse_bounds a depth) as [Hd1 Hd2]; revert Hd1 Hd2;
    generalize (lql_flat_eq_mutation_collapse_ellipsis a depth); intros d Hd1 Hd2.
  all: emits; first [eapply IHr|eapply IHe]; try eassumption; lia.
Qed.

Lemma increment_paths_valid fuel :
  (forall w v s e depth, place c w v s e -> (length w + (segment_count a - depth) < fuel)%nat ->
     runs c (increment_recursive_key fuel a s e depth) (fun _ => valid)) /\
  (forall w v s e depth, place c w v s e -> (length w + (segment_count a - depth) < fuel)%nat ->
     runs c (increment_existing_path fuel a s e depth) (fun _ => valid)).
Proof.
  induction fuel as [|fuel [IHr IHe]]; [split; intros; lia|].
  split; intros w v s e depth Hp Hf; cbn [increment_recursive_key increment_existing_path];
    destruct (collapse_bounds a depth) as [Hd1 Hd2]; revert Hd1 Hd2;
    generalize (lql_flat_eq_mutation_collapse_ellipsis a depth); intros d Hd1 Hd2.
  all: emits; first [eapply IHr|eapply IHe]; try eassumption; lia.
Qed.

Lemma increment_key_valid w v s e depth : place c w v s e ->
  runs c (lql_flat_eq_mutation_increment_existing_key a s e depth) (fun _ => valid).
Proof. intros Hp. unfold lql_flat_eq_mutation_increment_existing_key. emits. Qed.

Lemma members_valid matches write same w v s e depth value : action_kind a <> LQL_MUTATION_REMOVE -> place c w v s e ->
  c !! s = Some ch_lbrace -> compares_key c matches same e -> (depth < segment_count a)%nat ->
  (forall m ks ke ce, member_here c w m ks ke ce -> writes_member w (write (same (m_key m)) ks ke ce) m) ->
  runs c value (fun _ => one_of (leaf a)) ->
  runs c ('(first, found) ← rewrite_members matches write s e; make_missing a depth first found value) (fun _ => valid).
Proof.
  intros Hk [Hw Hs] Hc Hm Hd Hwrite Hv.
  eapply valid_of, (runs_members_then c (fun _ _ _ => True)); [done..| |].
  - intros m ks ke ce H _. specialize (Hwrite m ks ke ce H). unfold writes_member in Hwrite. by destruct (write _ _ _ _).
  - intros first found. eapply runs_weaken, runs_make_missing; [|done..]. intros _ o (l & H1 & H2 & H3). exists l.
    split; [done|]. split; [exact H2|done].
Qed.

Lemma is_kind_true kind : is_kind a kind = true -> action_kind a = kind.
Proof. apply bool_decide_eq_true. Qed.

Lemma nested_set_valid fuel : forall w v s e depth, place c w v s e -> (length w + (segment_count a - depth) < fuel)%nat ->
  runs c (lql_flat_eq_mutation_nested_set fuel a s e depth) (fun _ => valid).
Proof.
  induction fuel as [|fuel IH]; intros w v s e depth Hp Hf; [lia|]. cbn [lql_flat_eq_mutation_nested_set].
  unfold nested_set_array, nested_set_any_key.
  destruct (collapse_bounds a depth) as [Hd1 Hd2]; revert Hd1 Hd2;
    generalize (lql_flat_eq_mutation_collapse_ellipsis a depth); intros d Hd1 Hd2.
  emits; try (by apply chain_valid; auto);
    (assert (Hk : action_kind a = LQL_MUTATION_SET) by by apply is_kind_true);
    try (by apply value_valid); try (eapply set_recursive_valid; eauto; lia); try (eapply set_existing_valid; eauto; lia).
  match goal with H : (y =? ch_lbrace) = true |- _ => apply Z.eqb_eq in H as -> end.
  eapply members_valid; [by rewrite Hk|exact Hp|done|apply compares_equals|auto| |by apply leaf_value].
  intros m ks ke ce Hm. emits. eapply IH; [eassumption|lia].
Qed.

Lemma nested_increment_valid fuel : forall w v s e depth, place c w v s e -> (length w + (segment_count a - depth) < fuel)%nat ->
  runs c (lql_flat_eq_mutation_nested_increment fuel a s e depth) (fun _ => valid).
Proof.
  induction fuel as [|fuel IH]; intros w v s e depth Hp Hf; [lia|]. cbn [lql_flat_eq_mutation_nested_increment].
  unfold lql_flat_eq_mutation_nested_increment_array, nested_increment_any_key.
  destruct (collapse_bounds a depth) as [Hd1 Hd2]; revert Hd1 Hd2;
    generalize (lql_flat_eq_mutation_collapse_ellipsis a depth); intros d Hd1 Hd2.
  emits; try (by apply chain_valid; auto); try (by eapply increment_key_valid);
    try (eapply increment_paths_valid; eauto; lia).
  assert (Hk : action_kind a = LQL_MUTATION_INCREMENT) by by apply is_kind_true.
  match goal with H : (y =? ch_lbrace) = true |- _ => apply Z.eqb_eq in H as -> end.
  eapply members_valid; [by rewrite Hk|exact Hp|done|apply compares_equals|auto| |by apply leaf_increment].
  intros m ks ke ce Hm. emits. eapply IH; [eassumption|lia].
Qed.
End validity.

(** ** The targets of increments *)

Section silence.
Context {mode : Mode} (c : bytes).

Definition silent {A} (m : E A) : Prop := runs c m (fun _ out => out = []).

Lemma reads_silent {A} (m : E A) Q : reads c m Q -> silent m.
Proof. intros H. eapply runs_weaken, runs_read, H. by intros x o [-> _]. Qed.

Lemma silent_then {A B} (m : E A) (f : A -> E B) : silent m -> (forall x, silent (f x)) -> silent (m ≫= f).
Proof. intros Hm Hf. eapply runs_bind; [exact Hm|]. intros x ? ->. apply Hf. Qed.

Lemma silent_ret {A} (x : A) : silent (mret x).
Proof. by apply runs_ret. Qed.

Lemma silent_walked {T B} (R : T -> B -> B -> bytes -> Prop) l x x' out :
  (forall t y y' o, R t y y' o -> o = []) -> chain R l x x' out -> out = [].
Proof. intros HR. induction 1 as [|t l y y' y'' o1 o2 H _ ->]; [done|]. by rewrite (HR _ _ _ _ H). Qed.

(** The members of an object are gone through. *)
Lemma silent_members (body : nat -> nat -> nat -> E unit) w v s e : compact w v -> sits c w s e -> c !! s = Some ch_lbrace ->
  (forall m ks ke ce, member_here c w m ks ke ce -> In (member_pair m) (members v) -> (ce < e)%nat -> silent (body ks ke ce)) ->
  silent (walk ch_rbrace s e (fun _ ks => '(ke, ce) ← member_span ks e; body ks ke ce ≫= fun _ => mret (tt, ce)) tt).
Proof.
  intros Hw Hs Hc Hbody. destruct (sits_at _ _ _ _ _ _ Hw Hs Hc) as [r ->].
  destruct (compact_brace _ _ Hw) as [ms ->]. destruct (compact_object_inv _ _ Hw) as (l & Ew & -> & Hl%compact_members_all). rewrite Ew in *.
  destruct (sits_bound _ _ _ _ Hs) as (Hb & _).
  eapply runs_weaken, (walk_runs c member_text (fun _ _ _ o => o = []) ch_lbrace); [|done|done|exact Hs|..].
  - intros x o Ho. eapply silent_walked; [|exact Ho]. auto.
  - intros m _. eexists ch_quote, _. by split.
  - intros m pre post [] Hin Ec Hpost Hlt.
    assert (Hm : good_member m) by by apply (proj1 (List.Forall_forall _ _) Hl m).
    eapply runs_after_read; [eapply reads_member; [done|done|done|lia]|]. cbn beta. intros [ke ce] [= -> ->].
    eapply runs_bind with (P := fun _ o => o = []); [|intros _ ? ->; apply runs_ret; by split].
    apply Hbody with m; [|by apply in_map|done]. split; [done|by apply (member_at_intro c m pre post)|].
    pose proof (items_length (member_text m) (map member_text l) ltac:(by apply in_map) true).
    unfold object_text. cbn [length]. rewrite length_app. cbn [length]. lia.
Qed.

(** And the elements of an array. *)
Lemma silent_elements (body : nat -> nat -> nat -> E unit) w v s e : compact w v -> sits c w s e -> c !! s = Some ch_lbracket ->
  (forall i w' v' s' e', compact w' v' -> sits c w' s' e' -> (length w' < length w)%nat -> silent (body i s' e')) ->
  silent (walk ch_rbracket s e (fun i start => stop ← lql_flat_eq_skip_value start e; body i start stop ≫= fun _ => mret (S i, stop)) 0%nat).
Proof.
  intros Hw Hs Hc Hbody. destruct (sits_at _ _ _ _ _ _ Hw Hs Hc) as [r ->].
  destruct (compact_bracket _ _ Hw) as [ms ->]. destruct (compact_array_inv _ _ Hw) as (l & Ew & -> & Hl%compact_elements_all). rewrite Ew in *.
  destruct (sits_bound _ _ _ _ Hs) as (Hb & _).
  eapply runs_weaken, (walk_runs c fst (fun _ _ _ o => o = []) ch_lbracket); [|done|done|exact Hs|..].
  - intros x o Ho. eapply silent_walked; [|exact Ho]. auto.
  - intros [w v] Hin. apply (compact_head w v); [|by left]. by apply (proj1 (List.Forall_forall _ _) Hl (w, v)).
  - intros [w v] pre post index Hin Ec Hpost Hlt. cbn [fst] in *.
    assert (Hwv : compact w v) by by apply (proj1 (List.Forall_forall _ _) Hl (w, v)).
    eapply runs_after_read; [eapply reads_value; [exact Hwv|done|done|lia]|]. cbn beta. intros ? ->.
    eapply runs_bind with (P := fun _ o => o = []); [|intros _ ? ->; apply runs_ret; by split].
    apply (Hbody index w v); [done|by exists pre, post|].
    pose proof (items_length w (map fst l) ltac:(by apply (in_map fst) in Hin) true).
    unfold array_text. cbn [length]. rewrite length_app. cbn [length]. lia.
Qed.

(** The key of a member is compared. *)
Lemma here_compares matches same w m ks ke ce stop : compares_key c matches same stop -> member_here c w m ks ke ce ->
  (ce <= stop)%nat -> reads c (matches ks) (fun r => r = same (m_key m)).
Proof.
  intros Hm [[Hk _] [_ (pre & post & Hc & -> & ->) _] _] Hstop.
  eapply Hm; [exact Hk|rewrite Hc; unfold member_text; by rewrite <- (assoc_L (++))|].
  unfold member_text in Hstop. rewrite length_app in Hstop. lia.
Qed.
End silence.

Section validation.
Context (c : bytes) (a : lql_mutation_action).

Lemma silent_number s e : silent c (lql_flat_eq_mutation_validate_increment_number s e).
Proof.
  unfold lql_flat_eq_mutation_validate_increment_number. destruct (_ <=? _)%nat; [by apply runs_fail|].
  apply silent_then; [by eapply reads_silent, reads_byte|]. intros y. destruct (_ && _); [by apply runs_fail|].
  apply silent_then; [by eapply reads_silent, reads_target|]. intros _. apply silent_ret.
Qed.

Definition path_ok (path : nat -> nat -> nat -> E unit) (w : bytes) : Prop := forall w' v s e depth,
  place c w' v s e -> (length w' < length w)%nat -> silent c (path s e depth).

Lemma silent_below path w w' v depth used s e : path_ok path w -> place c w' v s e -> (length w' < length w)%nat ->
  silent c (validate_below path a depth used s e).
Proof. intros Hpath Hp Hl. unfold validate_below. destruct (_ || _); [apply silent_number|]. by eapply Hpath. Qed.

Lemma silent_object path w v s e depth : path_ok path w -> place c w v s e -> c !! s = Some ch_lbrace ->
  silent c (lql_flat_eq_mutation_validate_increment_object path a s e depth).
Proof.
  intros Hpath [Hw Hs] Hc. eapply silent_members; [exact Hw|exact Hs|exact Hc|]. intros m ks ke ce Hm _ Hlt.
  destruct (here_value _ _ _ _ _ _ Hm) as (Hw' & Hs' & Hl).
  assert (Hp : place c (m_text m) (m_value m) (S ke) ce) by by split.
  pose proof (fun segment => here_compares c _ _ _ _ _ _ _ e (compares_segment c segment e) Hm ltac:(lia)) as Hsame.
  destruct (validate_descends a depth); (apply silent_then; [by eapply reads_silent, Hsame|]; intros same).
  - apply silent_then; [|intros _; by eapply Hpath]. destruct same; [by eapply silent_below|apply silent_ret].
  - destruct same; [by eapply silent_below|apply silent_ret].
Qed.

Lemma silent_array path w v s e depth : path_ok path w -> place c w v s e -> c !! s = Some ch_lbracket ->
  silent c (lql_flat_eq_mutation_validate_increment_array path a s e depth).
Proof.
  intros Hpath [Hw Hs] Hc. unfold lql_flat_eq_mutation_validate_increment_array.
  apply silent_then; [|intros _; apply silent_ret].
  eapply silent_elements; [exact Hw|exact Hs|exact Hc|]. intros i w' v' s' e' Hw' Hs' Hl.
  assert (Hp : place c w' v' s' e') by by split. destruct (validate_descends a depth).
  - apply silent_then; [|intros _; by eapply Hpath]. destruct (_ || _); [by eapply silent_below|apply silent_ret].
  - destruct (lql_flat_eq_mutation_segment_matches_any_array_index _); [by eapply silent_below|apply silent_ret].
Qed.

Lemma silent_path fuel : forall w v s e depth, place c w v s e -> (length w < fuel)%nat ->
  silent c (validate_increment_path fuel a s e depth).
Proof.
  induction fuel as [|fuel IH]; intros w v s e depth Hp Hf; [lia|]. cbn [validate_increment_path].
  destruct (_ || _); [by apply runs_fail|]. eapply first_valid; [exact Hp|]. intros y Hy.
  assert (Hpath : path_ok (validate_increment_path fuel a) w) by (intros w' v' s' e' depth' Hp' Hl; eapply IH; [done|lia]).
  destruct (Z.eqb_spec y ch_lbrace) as [->|]; [by eapply silent_object|].
  destruct (Z.eqb_spec y ch_lbracket) as [->|]; [by eapply silent_array|]. apply silent_ret.
Qed.

Lemma reads_replaced before : reads c (replaced_loop before a) (fun _ => True).
Proof.
  induction before as [|p before IH]; [by apply reads_ret|]. cbn [replaced_loop].
  destruct (_ && _); [done|]. destruct (is_kind p LQL_MUTATION_SET && lql_flat_eq_mutation_same_path p a).
  - case_bool_decide; [by apply reads_ret|by apply reads_fail].
  - destruct (_ || _); [by apply reads_ret|done].
Qed.
End validation.

Lemma whole_place c v : compact c v -> place c c v 0 (length c).
Proof. intros H. split; [done|]. exists [], []. by rewrite app_nil_r. Qed.

Lemma silent_targets c v l : compact c v -> forall before, silent c (validate_targets before l).
Proof.
  intros Hc. induction l as [|a l IH]; intros before; [apply silent_ret|]. cbn [validate_targets].
  apply silent_then; [|intros _; apply IH]. destruct (negb _); [apply silent_ret|].
  apply silent_then; [eapply reads_silent, reads_replaced|]. intros [|]; [apply silent_ret|].
  eapply runs_after_read; [apply reads_size|]. intros n ->. eapply silent_path; [by apply whole_place|].
  unfold emit_fuel. lia.
Qed.

(** ** Groups of actions on one key *)

(** A spool that may be reset. *)
Definition some_spool (s : lql_json_spool) : Prop := exists d, holds d s.

Lemma appendable_holds d s : appendable d s -> holds d s.
Proof. by intros []. Qed.

Lemma good_take a n : good_action a -> good_action (with_segments a (take n (segments a))).
Proof. intros [H1 H2 H3 H4]. split; [by apply Forall_take|done..]. Qed.

Lemma good_drop a n : good_action a -> good_action (with_segments a (drop n (segments a))).
Proof. intros [H1 H2 H3 H4]. split; [by apply Forall_drop|done..]. Qed.

Lemma nested_output_valid c a w v s e b : good_action a -> place c w v s e -> (1 < segment_count a)%nat ->
  runs c (nested_output a s e b) (fun _ => valid).
Proof.
  intros Ha Hp Hn. pose proof (sits_bound _ _ _ _ (place_sits _ _ _ _ _ Hp)) as (_ & Hl & _). unfold nested_output, emit_fuel.
  destruct (action_kind a) eqn:?; repeat case_match; try (eapply set_recursive_valid; eauto; lia);
    try (eapply set_existing_valid; eauto; lia); try (eapply nested_set_valid; eauto; lia);
    try (eapply remove_paths_valid; eauto; lia); try (eapply increment_paths_valid; eauto; lia);
    eapply nested_increment_valid; eauto; lia.
Qed.

Lemma reads_accepts c s segment : reads c (lql_flat_eq_spooled_value_accepts_segment s segment) (fun _ => True).
Proof.
  apply reads_or_else; [done| |done]. eapply reads_bind; [by apply reads_byte|]. intros y _. by apply reads_ret.
Qed.

Section group.
Context (c : bytes).

(** Where the value of a key is read: in the spool of the record, or alone in another. *)
Definition value_at (source : option lql_json_spool) (s e : nat) : Prop :=
  match source with
  | None => exists w v, place c w v s e
  | Some sp => exists d v, holds d sp /\ compact d v /\ s = 0%nat /\ e = length d
  end.

(** A spool with the text of a value. *)
Definition has_value (t : lql_json_spool) : Prop := exists d v, appendable d t /\ compact d v.

(** What is known of the spools after a computation on the value. *)
Definition after (source : option lql_json_spool) (s e : nat) (source' : option lql_json_spool) : Prop :=
  (source' = None <-> source = None) /\ (value_at source s e -> value_at source' s e) /\
  (from_option some_spool True source -> from_option some_spool True source').

Lemma runs_onto (source : option lql_json_spool) s e t (m : E unit) : value_at source s e -> some_spool t ->
  (forall c' w v, place c' w v s e -> runs c' m (fun _ => valid)) ->
  runs c (redirected source (lql_json_spool_reset t) m)
    (fun '(_, source', t') out => out = [] /\ after source s e source' /\ has_value t').
Proof.
  intros Hv [d Ht] Hm. apply reset_appendable in Ht. destruct source as [sp|].
  - destruct Hv as (d' & v & Hd' & Hc & Es & Ee). eapply runs_weaken.
    2: { eapply runs_redirected_from; [done|exact Hd'|exact Ht|]. eapply Hm. subst. by apply whole_place. }
    intros [[[] source'] t'] out (-> & s1 & o & -> & Hs1 & Ht' & v' & Hv'). split; [done|].
    split; [split; [done|]; split; [intros _; by exists d', v|intros _; by exists d']|by exists o, v'].
  - destruct Hv as (w & v & Hp). eapply runs_weaken; [|eapply runs_redirected; [done|exact Ht|by eapply Hm]].
    intros [[[] source'] t'] out (-> & -> & o & Ht' & v' & Hv'). split; [done|]. split; [done|]. by exists o, v'.
Qed.

(** A value that is written without reading. *)
Lemma runs_fresh (source : option lql_json_spool) t (m : E unit) : from_option some_spool True source -> some_spool t ->
  (forall c', runs c' m (fun _ => valid)) ->
  runs c (redirected source (lql_json_spool_reset t) m)
    (fun '(_, source', t') out => out = [] /\ (source' = None <-> source = None) /\
       from_option some_spool True source' /\ has_value t').
Proof.
  intros Hsp [d Ht] Hm. apply reset_appendable in Ht. destruct source as [sp|].
  - destruct Hsp as [d' Hd']. eapply runs_weaken; [|eapply runs_redirected_from; [done|exact Hd'|exact Ht|apply Hm]].
    intros [[[] source'] t'] out (-> & s1 & o & -> & Hs1 & Ht' & v' & Hv'). split_and!; try done; [by exists d'|by exists o, v'].
  - eapply runs_weaken; [|eapply runs_redirected; [done|exact Ht|by eapply Hm]].
    intros [[[] source'] t'] out (-> & -> & o & Ht' & v' & Hv'). split_and!; try done. by exists o, v'.
Qed.

Lemma runs_apply_nested a source s e b t : good_action a -> (1 < segment_count a)%nat -> value_at source s e -> some_spool t ->
  runs c (lql_flat_eq_mutation_apply_nested_to_spool a source s e b t)
    (fun '(source', t') out => out = [] /\ after source s e source' /\ has_value t').
Proof.
  intros Ha Hn Hv Ht. unfold lql_flat_eq_mutation_apply_nested_to_spool. eapply runs_bind; [apply runs_onto; [exact Hv|exact Ht|]|].
  - intros c' w v Hp. eapply runs_after_read with (P := fun _ => True).
    { destruct (_ && _ && _ && _); [apply reads_accepts|by apply reads_ret]. }
    intros accepts _. destruct (negb accepts); [by eapply copy_valid|by eapply nested_output_valid].
  - intros [[[] source'] t'] ? (-> & H1 & H2). by apply runs_ret.
Qed.
Lemma has_value_some t : has_value t -> some_spool t.
Proof. intros (d & v & H & _). exists d. by apply appendable_holds. Qed.

Lemma has_value_at t : has_value t -> value_at (Some t) 0 (Z.to_nat (spool_size t)).
Proof.
  intros (d & v & H & Hd). exists d, v. split; [by apply appendable_holds|]. split; [done|]. split; [done|].
  rewrite (holds_size _ _ (appendable_holds _ _ H)). unfold len. lia.
Qed.

Lemma runs_apply_ordered a source s e present create b t : good_action a -> segments a <> [] ->
  (present = true -> value_at source s e) -> from_option some_spool True source -> some_spool t ->
  runs c (lql_flat_eq_mutation_apply_ordered_key_action a source s e present create b t)
    (fun '(present', source', t') out => out = [] /\ (source' = None <-> source = None) /\
       from_option some_spool True source' /\ some_spool t' /\ (present' = true -> has_value t')).
Proof.
  intros Ha Hn Hv Hsp Ht. unfold lql_flat_eq_mutation_apply_ordered_key_action.
  destruct (negb present && negb create) eqn:E1; [apply runs_ret; split_and!; try done; by destruct present|].
  destruct (Nat.eqb_spec (segment_count a) 1) as [E2|E2].
  - destruct (is_kind a LQL_MUTATION_REMOVE); [by apply runs_ret|]. destruct present.
    + eapply runs_bind.
      * apply (runs_onto source s e); [by apply Hv|exact Ht|]. intros c' w v Hp.
        destruct (is_kind a LQL_MUTATION_SET) eqn:Ek; [by apply value_valid, is_kind_true|by eapply increment_valid].
      * intros [[[] source'] t'] ? (-> & (H1 & _ & H2) & H3). apply runs_ret. split_and!; auto using has_value_some.
    + eapply runs_bind.
      * apply runs_fresh; [exact Hsp|exact Ht|]. intros c'.
        destruct (is_kind a LQL_MUTATION_SET) eqn:Ek; [by apply value_valid, is_kind_true|by apply increment_new_valid].
      * intros [[[] source'] t'] ? (-> & H1 & H2 & H3). apply runs_ret. split_and!; auto using has_value_some.
  - assert (Hn1 : (1 < segment_count a)%nat) by (unfold segment_count in *; destruct (segments a) as [|? []]; cbn in *; lia || done).
    destruct present; cbn [negb].
    + eapply runs_bind; [apply runs_apply_nested; auto|]. intros [source' t'] ? (-> & (H1 & _ & H2) & H3).
      apply runs_ret. split_and!; auto using has_value_some.
    + destruct (_ || _); [by apply runs_ret|].
      eapply runs_after_read; [by apply reads_new_spool|]. intros created Hcr. cbn in Hcr.
      eapply runs_bind; [eapply runs_redirected; [done|exact Hcr|apply runs_write]|].
      intros [[[] ?] created'] ? (-> & -> & o & Hcr' & ->).
      eapply runs_bind; [apply runs_apply_nested; [done|done| |exact Ht]|].
      { apply has_value_at. exists (bs "{}"), (JObject []). split; [exact Hcr'|]. apply (compact_object []). constructor. }
      intros [source' t'] ? (-> & _ & H3). apply runs_ret. split_and!; auto using has_value_some.
Qed.

(** The spools of a group can be used, and its value is where it is read. *)
Record group_ok (g : key_group) : Prop := {
  ok_other : some_spool (group_other g);
  ok_target : some_spool (group_target g);
  ok_value : group_present g = true -> value_at (group_source g) (group_start g) (group_end g)
}.

Lemma runs_apply_to_group g a create b : good_action a -> segments a <> [] -> group_ok g ->
  runs c (apply_to_group g a create b) (fun g' out => out = [] /\ group_ok g').
Proof.
  intros Ha Hn [H1 H2 H3]. unfold apply_to_group. eapply runs_bind.
  { apply runs_apply_ordered; [done|done|exact H3| |exact H2]. unfold group_source. by destruct (from_other g). }
  intros [[present source'] t'] ? (-> & Hs & Hs' & Ht' & Hv). apply runs_ret. split; [done|].
  assert (Ho : some_spool (default (group_other g) source')) by by destruct source'.
  destruct present; [|by split]. split; [done|done|]. intros _. cbn. apply has_value_at, Hv. done.
Qed.
Lemma holds_inj d d' s : holds d s -> holds d' s -> d = d'.
Proof.
  intros H H'. assert (Hl : length d = length d').
  { pose proof (holds_size _ _ H) as H1. pose proof (holds_size _ _ H') as H2. unfold len in *. lia. }
  by rewrite <- (holds_stored _ _ H), <- (holds_stored _ _ H'), Hl.
Qed.

Lemma runs_on_group {A} g (m : E A) (Q : A -> Prop) : group_ok g -> (forall c', reads c' m Q) ->
  runs c (on_group g m) (fun '(x, g') out => out = [] /\ Q x /\ group_ok g').
Proof.
  intros [[d Hd] H2 H3] Hm. unfold on_group, group_source in *. destruct (from_other g) eqn:Ef.
  - intros st [Hs Ht Ho]. specialize (Hm d (mk_emit (group_other g) (emit_target st) (emit_env st) (emit_opens st)) ltac:(by split)).
    destruct (m _) as [r st']. destruct Hm as ([Hs' Ht' Ho'] & [E1 E2] & L & _ & HQ). split; [by destruct r|].
    split; [intros _; exact E2|]. split; [done|].
    intros [x g'] Hr. destruct r as [|x']; [done|]. injection Hr as <- <-.
    split; [by split|]. exists []. split; [apply same_grew; by split|]. split; [done|]. split; [by apply HQ|].
    split; [by exists d|done|]. cbn. intros Hp. destruct (H3 Hp) as (d' & v & Hd' & Hv & He).
    rewrite (holds_inj _ _ _ Hd' Hd) in *. by exists d, v.
  - eapply runs_after_read; [apply Hm|]. intros x Hx. apply runs_ret. split; [done|]. split; [done|].
    split; [by exists d|done|]. intros Hp. unfold group_source. rewrite Ef. by apply H3.
Qed.

Lemma target_depth_pos a : (1 <= target_depth a)%nat.
Proof. unfold target_depth. lia. Qed.

Lemma runs_root_action g a (same : bytes -> E bool) : good_action a -> segments a <> [] -> group_ok g ->
  (forall segment, reads c (same segment) (fun _ => True)) ->
  runs c (root_action g a same) (fun '(root, g') out => out = [] /\ group_ok g' /\
    match root with None => True | Some (root, _) => good_action root /\ segments root <> [] end).
Proof.
  intros Ha Hn Hg Hsame. unfold root_action.
  assert (Htake : good_action (with_segments a (take 1 (segments a))) /\ segments (with_segments a (take 1 (segments a))) <> [])
    by (split; [by apply good_take|by destruct (segments a)]).
  destruct (_ && _); [|by apply runs_ret]. destruct (_ <=? _)%nat eqn:E1; [by apply runs_ret|]. apply Nat.leb_gt in E1.
  eapply runs_after_read; [apply Hsame|]. intros b _. destruct (negb b); [by apply runs_ret|].
  destruct (_ =? _)%nat; [by apply runs_ret|].
  eapply runs_bind; [eapply (runs_on_group g _ (fun _ => True)); [done|]|].
  { intros c'. apply reads_or_else; [done| |done]. eapply reads_bind; [by apply reads_byte|]. intros y _. by apply reads_ret. }
  intros [container g'] ? (-> & _ & Hg'). apply runs_ret. split; [done|]. split; [done|]. destruct container; [|done].
  split; [by apply good_drop|]. unfold segment_count in E1. unfold with_segments. cbn [segments].
  intros H%(f_equal length). rewrite length_drop in H. change (length (@nil bytes)) with 0%nat in H. lia.
Qed.

(** The actions of a group are applied in turn. *)
Lemma runs_group_loop (round : key_group -> lql_mutation_action -> E key_group) l :
  (forall a g, In a l -> group_ok g -> runs c (round g a) (fun g' out => out = [] /\ group_ok g')) ->
  forall g, group_ok g -> runs c (group_loop round g l) (fun g' out => out = [] /\ group_ok g').
Proof.
  induction l as [|a l IH]; intros Hr g Hg; [by apply runs_ret|]. cbn [group_loop].
  eapply runs_bind; [apply Hr; [by left|done]|]. intros g' ? [-> Hg']. apply IH; [|done].
  intros a' g'' Hin. apply Hr. by right.
Qed.
End group.

(** An action that can be in a program. *)
Definition usable (a : lql_mutation_action) : Prop := good_action a /\ segments a <> [].

Section groups.
Context (c : bytes) (actions : list lql_mutation_action) (Hactions : Forall usable actions).

Lemma usable_in a : In a actions -> usable a.
Proof. by apply (proj1 (List.Forall_forall _ _) Hactions). Qed.

(** A key at an offset. *)
Definition key_at (ks size : nat) : Prop := exists b t pre post, chars_text b t /\ c = pre ++ quoted b ++ post /\
  ks = length pre /\ (length pre + length (quoted b) <= size)%nat.

Lemma reads_key_same matches same ks size : compares_key c matches same size -> key_at ks size ->
  reads c (matches ks) (fun _ => True).
Proof. intros Hm (b & t & pre & post & H1 & H2 & -> & H3). eapply reads_weaken, Hm; eauto. Qed.

Lemma reads_matches_key a ks size : key_at ks size ->
  reads c (lql_flat_eq_mutation_action_matches_spooled_key a ks size) (fun _ => True).
Proof.
  intros Hk. unfold lql_flat_eq_mutation_action_matches_spooled_key. destruct (lql_flat_eq_mutation_top_matches_object_key a); [by apply reads_ret|].
  eapply (reads_key_same (fun ks => lql_flat_eq_key_equals ks size (seg a 0))); [apply compares_equals|done].
Qed.

Lemma apply_root g a root (allow : bool) b create : usable a -> match root with None => True | Some (r, _) => good_action r /\ segments r <> [] end ->
  group_ok c g ->
  runs c (match root with
          | None => mret g
          | Some (root, again) =>
              g ← apply_to_group g root (create g root) b;
              if again && group_present g then apply_to_group g a true false else mret g
          end) (fun g' out => out = [] /\ group_ok c g').
Proof.
  intros [Ha Hn] Hr Hg. destruct root as [[r again]|]; [|by apply runs_ret]. destruct Hr as [Hr1 Hr2].
  eapply runs_bind; [by apply runs_apply_to_group|]. intros g' ? [-> Hg'].
  destruct (_ && _); [by apply runs_apply_to_group|by apply runs_ret].
Qed.

Lemma runs_existing_round ks size g a : usable a -> key_at ks size -> group_ok c g ->
  runs c (existing_round ks size g a) (fun g' out => out = [] /\ group_ok c g').
Proof.
  intros Ha Hk Hg. unfold existing_round. cbv zeta. eapply runs_after_read; [by apply reads_matches_key|]. intros m _.
  destruct (negb m); [by apply runs_ret|]. eapply runs_bind.
  { apply runs_root_action; [apply Ha|apply Ha|done|]. intros segment.
    eapply (reads_key_same (fun ks => lql_flat_eq_mutation_object_key_matches_segment ks size segment)); [apply compares_segment|done]. }
  intros [root g'] ? (-> & Hg' & Hr).
  apply (apply_root g' a root true _ (fun g root => group_present g || negb (negb (bytes_eqb (seg a 0) seg_ellipsis) && lql_flat_eq_mutation_top_matches_object_key a)) Ha Hr Hg').
Qed.

Lemma runs_missing_round key g a : usable a -> group_ok c g ->
  runs c (missing_round key g a) (fun g' out => out = [] /\ group_ok c g').
Proof.
  intros Ha Hg. unfold missing_round. destruct (negb _); [by apply runs_ret|].
  eapply runs_bind with (P := fun '(root, g') out => out = [] /\ group_ok c g' /\
    match root with None => True | Some (root, _) => good_action root /\ segments root <> [] end).
  { destruct (group_present g); [|by apply runs_ret].
    apply runs_root_action; [apply Ha|apply Ha|done|]. intros segment. by apply reads_ret. }
  intros [root g'] ? (-> & Hg' & Hr).
  apply (apply_root g' a root true _ (fun g root => negb (lql_flat_eq_mutation_top_matches_object_key root)) Ha Hr Hg').
Qed.
(** The spool that a group is rendered to. *)
Definition rendered (r : bool * lql_json_spool) : Prop := if fst r then has_value (snd r) else True.

Lemma new_group first second s e present : appendable [] first -> appendable [] second ->
  (present = true -> value_at c None s e) -> group_ok c (mk_group false second first s e present).
Proof. intros H1 H2 H. split; [by exists []; apply appendable_holds|by exists []; apply appendable_holds|done]. Qed.

Lemma runs_existing_key_group ks size w v s e out : key_at ks size -> place c w v s e -> some_spool out ->
  runs c (lql_flat_eq_mutation_emit_existing_key_group actions ks size s e out)
    (fun r o => o = [] /\ rendered r).
Proof.
  intros Hk Hp Hout. unfold lql_flat_eq_mutation_emit_existing_key_group.
  eapply runs_after_read; [by apply reads_new_spool|]. intros first H1.
  eapply runs_after_read; [by apply reads_new_spool|]. intros second H2.
  eapply runs_bind.
  { apply runs_group_loop; [|by apply new_group; [done|done|intros _; by exists w, v]].
    intros a g Hin Hg. apply runs_existing_round; [by apply usable_in|done|done]. }
  intros g ? [-> Hg]. destruct (group_present g) eqn:Ep; cbn [negb]; [|by apply runs_ret].
  eapply runs_bind; [apply runs_onto; [by apply Hg|exact Hout|]|].
  - intros c' w' v' Hp'. by eapply copy_valid.
  - intros [[[] ?] out'] ? (-> & _ & Hv). by apply runs_ret.
Qed.

Context (v0 : json) (Hc0 : compact c v0).

Lemma runs_missing_key_group group out : some_spool out ->
  runs c (lql_flat_eq_mutation_emit_missing_key_group actions group out) (fun r o => o = [] /\ rendered r).
Proof.
  intros [dout Hout]. unfold lql_flat_eq_mutation_emit_missing_key_group. destruct (_ =? _)%nat; [by apply runs_fail|].
  eapply runs_after_read; [by apply reads_new_spool|]. intros first H1.
  eapply runs_after_read; [by apply reads_new_spool|]. intros second H2.
  eapply runs_bind.
  { apply runs_group_loop; [|by apply new_group; [done|done|]].
    intros a g Hin Hg. apply runs_missing_round; [by apply usable_in|done]. }
  intros g ? [-> Hg]. destruct (group_present g) eqn:Ep; cbn [negb]; [|by apply runs_ret].
  apply reset_appendable in Hout. pose proof (ok_value _ _ Hg Ep) as Hv.
  destruct (group_source g) as [sp|]; cbn in Hv.
  - destruct Hv as (d & v & Hd & Hcd & _). eapply runs_bind; [eapply runs_redirected_from; [done|exact Hd|exact Hout|apply runs_write_to]|].
    intros [[[] source] out'] x (-> & s1 & o & _ & _ & Hout' & ->). apply runs_ret. split; [done|]. by exists d, v.
  - eapply runs_bind; [eapply runs_redirected; [done|exact Hout|apply runs_write_to]|].
    intros [[[] source] out'] x (-> & _ & o & Hout' & ->). apply runs_ret. split; [done|]. by exists c, v0.
Qed.

Lemma write_value_of sp : has_value sp -> runs c (reading sp lql_json_spool_write_to) (fun _ => valid).
Proof.
  intros (d & v & Hd & Hv). eapply runs_weaken, runs_reading; [|done|by apply appendable_holds|apply runs_write_to].
  intros _ ? ->. by exists v.
Qed.

Lemma runs_nested_group group s e w v : place c w v s e ->
  (forall a, In a actions -> lql_flat_eq_mutation_same_top a group = true -> (1 < segment_count a)%nat) ->
  runs c (lql_flat_eq_mutation_emit_existing_nested_group actions group s e) (fun _ => valid).
Proof.
  intros Hp Hn. unfold lql_flat_eq_mutation_emit_existing_nested_group.
  eapply runs_after_read; [by apply reads_new_spool|]. intros first H1.
  eapply runs_after_read; [by apply reads_new_spool|]. intros second H2.
  eapply runs_bind with (P := fun g out => out = [] /\ group_ok c g /\ group_present g = true).
  { assert (Hloop : forall l, (forall a, In a l -> In a actions) -> forall g, group_ok c g -> group_present g = true ->
      runs c (group_loop (nested_group_round group) g l) (fun g' out => out = [] /\ group_ok c g' /\ group_present g' = true)).
    { induction l as [|a l IH]; intros Hin g Hg Hpr; [by apply runs_ret|]. cbn [group_loop].
      eapply runs_bind with (P := fun g out => out = [] /\ group_ok c g /\ group_present g = true).
      - unfold nested_group_round. destruct (lql_flat_eq_mutation_same_top a group) eqn:E1; cbn [negb]; [|by apply runs_ret].
        eapply runs_bind.
        + apply runs_apply_nested; [apply usable_in, Hin; by left|apply Hn; [apply Hin; by left|done]|by apply (ok_value _ _ Hg)|apply Hg].
        + intros [source target] ? (-> & (E2 & _ & Hsp) & Hv). apply runs_ret. split; [done|]. split; [|done].
          split; [by apply has_value_some| |intros _; by apply has_value_at]. cbn.
          destruct source as [sp|]; cbn; [|apply Hg]. cbn in Hsp. apply Hsp. unfold group_source. destruct (from_other g); [apply Hg|done].
      - intros g' ? (-> & Hg' & Hpr'). apply IH; [|done|done]. intros a' Ha'. apply Hin. by right. }
    apply Hloop; [done| |done]. apply new_group; [done|done|]. intros _. by exists w, v. }
  intros g ? (-> & Hg & Hpr). pose proof (ok_value _ _ Hg Hpr) as Hv. unfold group_source in Hv. destruct (from_other g).
  - destruct Hv as (d & v' & Hd & Hcd & _). eapply runs_weaken, runs_reading; [|done|exact Hd|apply runs_write_to].
    intros _ ? ->. by exists v'.
  - eapply runs_weaken, runs_write_to. intros _ ? ->. by exists v0.
Qed.
End groups.

(** ** The members of a record *)

(** A member, or nothing, is written after others. *)
Definition entry (first first' : bool) (out : bytes) : Prop :=
  first' = first /\ out = [] \/
  first' = false /\ exists m, good_member m /\ out = items_text first [member_text m].

Lemma entries_text {T B} (R : T -> bool * B -> bool * B -> bytes -> Prop) l st st' out :
  (forall x st st' out, R x st st' out -> entry (fst st) (fst st') out) -> chain R l st st' out ->
  exists ms, compact_members ms /\ out = items_text (fst st) (map member_text ms) /\
    fst st' = fst st && bool_decide (ms = []).
Proof.
  intros HR. induction 1 as [st|x l st st1 st2 o1 o2 H _ (ms & Hms & -> & E2)].
  - exists []. split; [constructor|]. split; [done|]. cbn. by rewrite andb_true_r.
  - destruct (HR _ _ _ _ H) as [[E1 ->]|(E1 & m & Hm & ->)]; rewrite E1 in *.
    + by exists ms.
    + exists (m :: ms). split; [apply compact_members_all; constructor; [done|by apply compact_members_all]|].
      split; [|by rewrite E2, andb_false_r]. cbn [map items_text]. by rewrite <- !(assoc_L (++)).
Qed.

Lemma entry_then first first1 first2 o1 : entry first first1 o1 -> first2 = first1 -> entry first first2 (o1 ++ []).
Proof. intros H ->. by rewrite app_nil_r. Qed.

Section record.
Context (c : bytes) (actions : list lql_mutation_action) (Hactions : Forall usable actions).

Lemma in_actions a : In a actions -> usable a.
Proof. by apply (proj1 (List.Forall_forall _ _) Hactions). Qed.

(** The member [m] of the record. *)
Record member_in (m : member) (ks ke ve size : nat) : Prop := {
  in_member : good_member m;
  in_places : member_at c m ks ke ve;
  in_key : key_at c ks size
}.

Lemma member_in_place m ks ke ve size : member_in m ks ke ve size -> place c (m_text m) (m_value m) (S ke) ve.
Proof. intros [[_ Hv] [_ _ Hs] _]. by split. Qed.

Lemma reads_mark l : forall found ks size, key_at c ks size -> reads c (mark_spooled ks size l found) (fun _ => True).
Proof.
  induction l as [|a l IH]; intros found ks size Hk; [by apply reads_ret|]. cbn [mark_spooled].
  destruct found as [|f found]; [by apply reads_ret|].
  eapply reads_bind; [apply reads_or_else; [done|by apply reads_matches_key|done]|]. intros m _.
  eapply reads_bind; [by apply IH|]. intros found' _. by apply reads_ret.
Qed.

Lemma runs_marked size ks first found : key_at c ks size ->
  runs c (marked actions size ks first found) (fun st out => out = [] /\ fst st = first).
Proof.
  intros Hk. unfold marked. eapply runs_after_read; [by apply reads_mark|]. intros found' _. by apply runs_ret.
Qed.

(** A member with a new value, and what is done then. *)
Lemma runs_entry {X} (at_start : X -> bool) m ks ke ve size first value (rest : E X) : member_in m ks ke ve size ->
  runs c value (fun _ => valid) -> runs c rest (fun st out => out = [] /\ at_start st = false) ->
  runs c (comma first ≫= fun _ => keyed ks ke value ≫= fun _ => rest) (fun st out => entry first (at_start st) out).
Proof.
  intros [[Hk _] Hat _] Hv Hr. apply runs_comma. eapply runs_bind; [eapply runs_keyed; [exact Hat|exact Hv]|].
  intros _ ? (o & -> & v & Ho). eapply runs_weaken, Hr. intros st ? [-> ->]. right. split; [done|].
  exists (mk_member (m_chars m) (m_key m) o v). split; [by split|]. cbn. by rewrite !app_nil_r.
Qed.

Lemma group_in group a : In a (group_of actions group) -> In a actions.
Proof. unfold group_of. by intros [H _]%List.filter_In. Qed.

Lemma group_increment_good group : usable group -> good_action (lql_flat_eq_mutation_group_increment_action actions group).
Proof.
  intros [[H1 H2 H3 H4] _]. split; [done..|]. cbn.
  assert (Hall : forall l d, (forall a, In a l -> usable a) -> double_ok d -> double_ok (fold_left (fun d a => double_add d (delta a)) l d)).
  { induction l as [|a l IH]; intros d Hl Hd; [done|]. cbn. apply IH; [intros; apply Hl; by right|].
    apply double_add_ok; [done|]. by apply Hl; left. }
  apply Hall; [|done]. intros a Hin%group_in. by apply in_actions.
Qed.

Lemma last_set_in group a : lql_flat_eq_mutation_group_is_top_set actions group = true ->
  lql_flat_eq_mutation_group_last_set actions group = Some a -> usable a /\ action_kind a = LQL_MUTATION_SET.
Proof.
  unfold lql_flat_eq_mutation_group_last_set. intros [_ Hset]%andb_true_iff H%last_Some_elem_of%list_elem_of_In.
  split; [by eapply in_actions, group_in|]. rewrite forallb_forall in Hset. apply Hset, andb_true_iff in H as [H _].
  by apply is_kind_true.
Qed.

(** A kind that is none of the others. *)
Lemma kind_is_set a : is_kind a LQL_MUTATION_INCREMENT = false -> is_kind a LQL_MUTATION_REMOVE = false ->
  action_kind a = LQL_MUTATION_SET.
Proof. unfold is_kind. rewrite !bool_decide_eq_false. by destruct (action_kind a). Qed.

Lemma single_output_valid a w v s e : usable a -> top_of_kind LQL_MUTATION_REMOVE a = false -> place c w v s e -> runs c (single_output a s e) (fun _ => valid).
Proof.
  intros [Ha Hn] Hr Hp. pose proof (sits_bound _ _ _ _ (place_sits _ _ _ _ _ Hp)) as (_ & Hl & _).
  unfold single_output, emit_fuel. cbv zeta.
  destruct (top_of_kind LQL_MUTATION_INCREMENT a); [by eapply increment_valid|]. destruct (is_kind a LQL_MUTATION_INCREMENT) eqn:Ek.
  { eapply nested_increment_valid; eauto. lia. }
  destruct (_ && _); [eapply nested_set_valid; eauto; lia|].
  destruct (_ && _) eqn:Er; [eapply remove_paths_valid; eauto; lia|]. apply value_valid; [done|]. apply kind_is_set; [done|].
  destruct (is_kind a LQL_MUTATION_REMOVE) eqn:E; [|done]. unfold top_of_kind in Hr. rewrite E in Hr. rewrite andb_true_l in Hr, Er.
  apply Nat.eqb_neq in Hr. apply Nat.ltb_ge in Er. unfold segment_count in *. destruct (segments a); [done|cbn in *; lia].
Qed.

Lemma exact_nested_group group : lql_flat_eq_mutation_group_is_exact_nested actions group = true ->
  forall a, In a actions -> lql_flat_eq_mutation_same_top a group = true -> (1 < segment_count a)%nat.
Proof.
  unfold lql_flat_eq_mutation_group_is_exact_nested. intros [_ H]%andb_true_iff a Hin Hs.
  rewrite forallb_forall in H. specialize (H a). unfold exact_nested in H.
  enough (Hg : In a (group_of actions group)) by (apply H in Hg as [_ ?%Nat.ltb_lt]%andb_true_iff; done).
  by apply List.filter_In.
Qed.

Context (v0 : json) (Hc0 : compact c v0).

Lemma runs_emit_member first found i a m ks ke ve size : usable a -> member_in m ks ke ve size ->
  runs c (emit_member actions first found i a size ks ke ve) (fun st out => entry first (fst st) out).
Proof.
  intros Ha Hm. pose proof (member_in_place _ _ _ _ _ Hm) as Hp. pose proof (in_key _ _ _ _ _ Hm) as Hk.
  pose proof (fun f => runs_marked size ks f found Hk) as Hmark.
  unfold emit_member. cbv zeta. destruct (_ && _ && lql_flat_eq_mutation_group_is_top_increment _ _).
  { eapply runs_entry; [exact Hm| |apply Hmark]. eapply increment_valid; [by apply group_increment_good|done]. }
  destruct (_ && _ && lql_flat_eq_mutation_group_is_top_set _ _) eqn:Eset.
  { destruct (lql_flat_eq_mutation_group_last_set actions a) as [last_set|] eqn:El; [|by apply runs_fail].
    apply andb_true_iff in Eset as [_ Eset]. destruct (last_set_in _ _ Eset El) as [[Hg _] Hk'].
    eapply runs_entry; [exact Hm| |apply Hmark]. by apply value_valid. }
  destruct (_ && _ && lql_flat_eq_mutation_group_is_exact_nested _ _) eqn:En.
  { apply andb_true_iff in En as [_ En]. eapply runs_entry; [exact Hm| |apply Hmark].
    eapply runs_nested_group; [exact Hactions|exact Hc0|exact Hp|by apply exact_nested_group]. }
  clear En Eset. destruct (_ && _).
  - unfold emit_single. cbv zeta. destruct (top_of_kind _ a) eqn:Etop; [apply runs_ret; by left|].
    eapply runs_entry; [exact Hm| |by apply runs_ret]. by eapply single_output_valid.
  - unfold emit_ordered. eapply runs_after_read; [by apply reads_new_spool|]. intros gv Hgv.
    eapply runs_bind; [eapply runs_existing_key_group; [exact Hactions|exact Hk|exact Hp|by exists []; apply appendable_holds]|].
    intros [present out'] ? [-> Hr]. cbn in Hr. destruct present.
    + eapply runs_bind; [eapply (runs_entry (fun b => b)); [exact Hm|by apply write_value_of|by apply runs_ret]|].
      intros first' o Ho. eapply runs_weaken, Hmark. intros st ? [-> ->]. by rewrite app_nil_r.
    + eapply runs_bind; [by apply (runs_ret c first (fun b o => b = first /\ o = []))|].
      intros ? ? [-> ->]. eapply runs_weaken, Hmark. intros st ? [-> ->]. by left.
Qed.

Lemma reads_find l : (forall a, In a l -> usable a) -> forall ks size i, key_at c ks size ->
  reads c (find_loop ks size i l) (fun r => match r with Some (_, a) => usable a | None => True end).
Proof.
  induction l as [|a l IH]; intros Hl ks size i Hk; [by apply reads_ret|]. cbn [find_loop].
  eapply reads_bind; [apply (reads_matches_key c a ks size Hk)|]. intros same _.
  destruct same; [apply reads_ret, Hl; by left|]. apply IH; [|done]. intros a' Ha'. apply Hl. by right.
Qed.

(** The members of the record. *)
Lemma runs_emit_round l m pre post first found size : size = length c -> In m l -> c = pre ++ member_text m ++ post ->
  good_member m -> value_end_byte post -> (length pre + length (member_text m) < size)%nat ->
  runs c (emit_round actions size (first, found) (length pre))
    (fun '(st, next) out => next = (length pre + length (member_text m))%nat /\ entry first (fst st) out).
Proof.
  intros -> Hin Hc Hm Hpost Hlt. unfold emit_round.
  assert (Hk : key_at c (length pre) (length c)).
  { exists (m_chars m), (m_key m), pre, (ch_colon :: m_text m ++ post). split; [apply Hm|].
    unfold member_text in Hc, Hlt. rewrite <- (assoc_L (++)) in Hc. rewrite length_app in Hlt.
    split; [exact Hc|]. split; [done|lia]. }
  eapply runs_after_read; [by apply reads_find; [apply in_actions|]|]. intros action Ha. cbn in Ha.
  eapply runs_after_read; [eapply reads_member; [exact Hm|exact Hc|exact Hpost|lia]|]. cbn beta. intros [ke ve] [= -> ->].
  pose proof (member_at_intro c m pre post Hc) as Hat. destruct action as [[i a]|].
  - eapply runs_bind; [eapply runs_emit_member; [exact Ha|by split]|]. intros st o Ho. apply runs_ret.
    split; [done|]. by rewrite app_nil_r.
  - apply runs_comma. eapply runs_bind; [apply (runs_copy c (member_text m)), Hat|]. intros _ ? ->. apply runs_ret.
    split; [done|]. right. split; [done|]. exists m. split; [done|]. cbn. by rewrite !app_nil_r.
Qed.

(** ** The keys that the record does not have *)

Lemma good_key a : usable a -> utf8 (seg a 0).
Proof. intros [Ha _]. by apply good_seg. Qed.

Lemma runs_new_entry {X} (at_start : X -> bool) a first (value : E unit) (rest : X) : usable a -> runs c value (fun _ => valid) ->
  at_start rest = false ->
  runs c ((comma first ≫= fun _ => lql_flat_eq_projection_key (seg a 0) ≫= fun _ => value) ≫= fun _ => mret rest)
    (fun st out => entry first (at_start st) out).
Proof.
  intros Ha Hv Hr. eapply runs_bind; [apply (runs_new_member c _ _ _ (fun _ => True)); [by apply good_key|]|].
  - eapply runs_weaken, Hv. intros _ o [v ?]. by exists v.
  - intros _ o (m & Hm & _ & _ & ->). apply runs_ret. right. split; [done|]. exists m. by rewrite app_nil_r.
Qed.

Lemma runs_emit_missing first found i a : usable a -> skips_missing actions i a found = false ->
  runs c (emit_missing actions first found i a) (fun st out => entry first (fst st) out).
Proof.
  intros Ha Hskip. pose proof Ha as [Hg Hn]. unfold emit_missing. cbv zeta. destruct (_ && exact_only actions a) eqn:Eone.
  { apply runs_new_entry; [done| |done]. destruct ((_ || _) && _) eqn:E1.
    - apply andb_true_iff in E1 as [_ E1%Nat.ltb_lt]. by apply chain_valid.
    - destruct (is_kind a LQL_MUTATION_INCREMENT) eqn:Ek; [by apply increment_new_valid|].
      apply value_valid; [done|]. apply kind_is_set; [done|]. apply andb_true_iff in Eone as [Eone%Nat.eqb_eq _].
      unfold skips_missing in Hskip. rewrite Eone in Hskip. cbn in Hskip. rewrite !orb_false_iff in Hskip. by apply Hskip. }
  clear Eone.
  destruct (_ && _ && _).
  { apply runs_new_entry; [done| |done]. by apply increment_new_valid, group_increment_good. }
  destruct (_ && _ && _) eqn:Eset.
  { destruct (lql_flat_eq_mutation_group_last_set actions a) as [last_set|] eqn:El; [|by apply runs_fail].
    apply andb_true_iff in Eset as [_ Eset]. destruct (last_set_in _ _ Eset El) as [[Hl _] Hk].
    apply runs_new_entry; [done| |done]. by apply value_valid. }
  clear Eset.
  eapply runs_after_read; [by apply reads_new_spool|]. intros gv Hgv.
  eapply runs_bind; [eapply runs_missing_key_group; [exact Hactions|exact Hc0|exists []; by apply appendable_holds]|].
  intros [present out'] ? [-> Hr]. cbn in Hr. destruct present; [|apply runs_ret; by left].
  apply runs_new_entry; [done|by apply write_value_of|done].
Qed.

Lemma runs_missing_loop l : (forall a, In a l -> usable a) -> forall first found i,
  runs c (missing_loop actions first found i l)
    (fun _ out => exists ms, compact_members ms /\ out = items_text first (map member_text ms)).
Proof.
  induction l as [|a l IH]; intros Hl first found i; [apply runs_ret; exists []; split; [constructor|done]|].
  cbn [missing_loop]. destruct (skips_missing _ _ _ _) eqn:Es; [apply IH; intros; apply Hl; by right|].
  eapply runs_bind; [apply runs_emit_missing; [by apply Hl; left|done]|]. intros [first' found'] o1 Ho.
  eapply runs_weaken; [|apply IH; intros; apply Hl; by right]. intros _ ? (ms & Hms & ->).
  destruct Ho as [[E1 ->]|(E1 & m & Hm & ->)]; cbn in E1; subst first'; [by exists ms|].
  exists (m :: ms). split; [apply compact_members_all; constructor; [done|by apply compact_members_all]|].
  cbn [map items_text]. by rewrite <- !(assoc_L (++)).
Qed.
End record.

(** ** The output *)

(** One line with the compact text of an object. *)
Definition json_line (out : bytes) : Prop := exists w ms, compact w (JObject ms) /\ out = w ++ [ch_nl].

Section output.
Context (actions : list lql_mutation_action) (Hactions : Forall usable actions).

Lemma runs_emit c v : compact c v -> runs c (lql_flat_eq_mutation_emit actions) (fun _ => json_line).
Proof.
  intros Hc. unfold lql_flat_eq_mutation_emit. destruct (_ =? _)%nat; [by apply runs_fail|].
  eapply runs_after_read; [apply reads_size|]. intros size ->. destruct (_ <? _)%nat; [by apply runs_fail|].
  eapply first_valid; [by apply whole_place|]. intros y Hy. destruct (Z.eqb_spec y ch_lbrace) as [->|]; [|by apply runs_fail].
  cbn [negb]. eapply runs_bind; [by eapply silent_targets|]. intros _ ? ->. apply runs_write_then.
  destruct (sits_at _ _ _ _ _ _ Hc (place_sits _ _ _ _ _ (whole_place c v Hc)) Hy) as [r Er].
  rewrite Er in Hc. destruct (compact_brace _ _ Hc) as [ms ->]. rewrite <- Er in Hc.
  destruct (compact_object_inv _ _ Hc) as (l & El & -> & Hl%compact_members_all).
  eapply runs_bind.
  - eapply (walk_runs c member_text (fun _ st st' o => entry (fst st) (fst st') o) ch_lbrace ch_rbrace _ l); [done|done| | |].
    + exists [], []. rewrite app_nil_r. split; [exact El|]. split; [done|]. by rewrite El.
    + intros m _. eexists ch_quote, _. by split.
    + intros m pre post [first found] Hin Ec Hpost Hlt.
      eapply (runs_emit_round c actions Hactions _ Hc l); try done. by apply (proj1 (List.Forall_forall _ _) Hl m).
  - intros [first found] o1 Hchain. apply entries_text in Hchain as (ms1 & Hms1 & -> & Ef); [|done]. cbn in Ef. subst first.
    eapply runs_bind; [by eapply runs_missing_loop; [exact Hactions|exact Hc|apply (proj1 (List.Forall_forall _ _) Hactions)]|].
    intros b ? (ms2 & Hms2 & ->). eapply runs_weaken, runs_write. intros _ ? ->.
    assert (Hall : compact_members (ms1 ++ ms2)).
    { apply compact_members_all, list.Forall_app. by rewrite <- !compact_members_all. }
    exists (object_text (ms1 ++ ms2)), (map member_pair (ms1 ++ ms2)). split; [by apply compact_object|].
    unfold object_text. rewrite map_app, items_app. cbn [fst andb].
    replace (bool_decide (map member_text ms1 = [])) with (bool_decide (ms1 = []))
      by (apply bool_decide_ext; split; [by intros ->|by intros ?%map_eq_nil]).
    cbn. by rewrite <- !(assoc_L (++)).
Qed.

Lemma runs_output c v : compact c v -> runs c (mutation_output actions) (fun _ => json_line).
Proof.
  intros Hc. unfold mutation_output. destruct (lql_flat_eq_mutation_program_needs_atomic_output actions); [|by eapply runs_emit].
  unfold lql_flat_eq_mutation_emit_atomic. eapply runs_after_read; [by apply reads_new_spool|]. intros rendered Hr.
  eapply runs_bind; [eapply runs_redirected; [done|exact Hr|by eapply runs_emit]|].
  intros [[[] source] out] x (-> & _ & o & Ho & Hj). cbn in Ho.
  eapply runs_weaken, runs_reading; [|done|by eapply appendable_holds|apply runs_write_to]. by intros _ ? ->.
Qed.
End output.

(** C16. Whatever the mutation, the output of a record is JSON: from a spool with the
    compact text of a value, and with an environment whose callbacks do not fail with
    the status OK, the emission always ends; it fails with a status that is not OK, or
    it has handed the writer one more line, which is the compact text of an object
    followed by a newline.  The names and string values of the actions are UTF-8, the
    other values are JSON scalars, a set has a value, and the deltas are doubles. *)
Theorem mutation_output_json actions c v s env opens :
  Forall usable actions -> compact c v -> holds c s -> Forall loud_open opens ->
  match stream_step opens (mutation_output actions) s env with
  | (inl (status, _), _, _) => status <> LQL_STATUS_OK
  | (inr _, s', env') => holds c s' /\ exists w ms, delivered env' = delivered env ++ w ++ [ch_nl] /\
      (exists n, json_value n w w) /\ json_of w (JObject ms)
  end.
Proof.
  intros Ha Hc Hs Ho. unfold stream_step.
  pose proof (runs_output actions Ha c v Hc (mk_emit s None env opens) ltac:(by split)) as H.
  destruct (mutation_output actions _) as [r st]. destruct H as (L & _ & _ & H).
  destruct r as [[status message]|[]]; [exact L|]. destruct (H tt eq_refl) as ([Hs' _ _] & out & G & w & ms & Hw & ->).
  split; [done|]. unfold grew in G. cbn in G. destruct (emit_target st); [done|].
  exists w, ms. split; [exact G|]. split; [by eapply compact_is_json|by apply compact_json].
Qed.

(** ** Whole records or nothing *)

(** [m] with no spool to write does what [m'] does on the spool that is read. *)
Definition plainly {A} (m : E A) (m' : W A) : Prop := forall st, emit_target st = None -> m st = source_do m' st.

Lemma plainly_bind {A B} (m : E A) (m' : W A) (f : A -> E B) (f' : A -> W B) : plainly m m' ->
  (forall a, plainly (f a) (f' a)) -> plainly (m ≫= f) (m' ≫= f').
Proof.
  intros Hm Hf st Ht. unfold mbind, E_bind, W_bind. rewrite (Hm st Ht). unfold source_do.
  destruct (m' (emit_source st) (emit_env st)) as [[[x|a] s] e]; [done|]. by rewrite Hf.
Qed.

Lemma plainly_ret {A} (a : A) : plainly (mret a) (mret a).
Proof. by intros []. Qed.

Lemma plainly_write data : plainly (lql_flat_eq_write data) (call_writer data).
Proof. intros st Ht. cbn. unfold emit_write. by rewrite Ht. Qed.

Lemma plainly_loop capacity fuel : forall off n,
  plainly (write_slice_loop (F := E) fuel capacity off n) (write_slice_loop (F := W) fuel capacity off n).
Proof.
  induction fuel as [|fuel IH]; intros off n; [apply plainly_ret|]. destruct n; [apply plainly_ret|].
  cbn [write_slice_loop]. apply plainly_bind; [done|]. intros ok. destruct (negb ok); [done|].
  apply plainly_bind; [done|]. intros data. destruct (negb _); [done|].
  apply plainly_bind; [apply plainly_write|]. intros _. apply IH.
Qed.

Lemma plainly_slice off n : plainly (lql_json_spool_write_slice (F := E) off n) (lql_json_spool_write_slice (F := W) off n).
Proof.
  unfold lql_json_spool_write_slice. apply plainly_bind; [done|]. intros s. destruct (spool_memory s); [|done].
  destruct (_ || _); [done|]. destruct (spool_file_ s); [|apply plainly_write].
  destruct (_ =? _)%nat; [apply plainly_ret|]. apply plainly_bind; [done|]. intros ok.
  destruct (negb ok); [done|]. apply plainly_loop.
Qed.

(** What a spool hands to the writer, when that fails too. *)
Lemma reading_writes_prefix d sp st : holds d sp -> emit_target st = None ->
  let st' := snd (reading sp lql_json_spool_write_to st) in
  exists k, delivered (emit_env st') = delivered (emit_env st) ++ take k d.
Proof.
  intros Hd Ht st'. subst st'. unfold reading.
  assert (Hp : plainly (lql_json_spool_write_to (F := E)) (lql_json_spool_write_to (F := W))).
  { unfold lql_json_spool_write_to. apply plainly_bind; [done|]. intros s. apply plainly_slice. }
  rewrite Hp by done. unfold source_do, lql_json_spool_write_to. cbn [emit_source emit_env emit_target emit_opens].
  unfold mbind, spool_get. cbn [output_bind W_output]. unfold W_bind. cbn [on_source W_output].
  rewrite (holds_size _ _ Hd). replace (Z.to_nat (len d)) with (length d) by (unfold len; lia).
  destruct (write_slice_spec d 0 (length d) sp (emit_env st) Hd ltac:(lia)) as (r & s' & e' & k & E1 & _ & E2 & _).
  exists k. rewrite drop_0, firstn_all in E2. by rewrite E1.
Qed.

(** The line of a record, as a spool that no writer has seen. *)
Definition rendering (actions : list lql_mutation_action) : E lql_json_spool :=
  rendered ← new_spool;
  '(_, _, rendered) ← redirected None rendered (lql_flat_eq_mutation_emit actions);
  mret rendered.

Lemma emit_stays_in_spool actions c v st t : Forall usable actions -> compact c v -> ready c st -> appendable [] t ->
  same_output st (snd (redirected None t (lql_flat_eq_mutation_emit actions) st)).
Proof.
  intros Ha Hc [Hs Ht Ho] Hd. unfold redirected. cbn [default].
  pose proof (runs_emit actions Ha c v Hc (mk_emit (emit_source st) (Some t) (emit_env st) (emit_opens st))) as H.
  destruct (lql_flat_eq_mutation_emit actions _) as [r st'].
  destruct H as (_ & C & _ & _); [split; [done| |done]; intros ? [= <-]; by eexists|].
  by destruct r as [[? ?]|[]]; (split; [|by apply C]).
Qed.

Lemma rendering_spec actions c v st : Forall usable actions -> compact c v -> ready c st ->
  let '(r, st') := rendering actions st in
  same_output st st' /\ forall rendered, r = inr rendered ->
    ready c st' /\ exists w ms, compact w (JObject ms) /\ holds (w ++ [ch_nl]) rendered.
Proof.
  intros Ha Hc Hst. unfold rendering, mbind at 1, E_bind at 1.
  pose proof (reads_new_spool c eq_refl st Hst) as H1. destruct (new_spool st) as [[x|t] st1].
  { destruct H1 as (_ & H1 & _). by split. }
  destruct H1 as (R1 & [T1 D1] & _ & _ & H1). specialize (H1 _ eq_refl). unfold mbind at 1, E_bind at 1.
  pose proof (runs_redirected c eq_refl _ _ _ _ H1 (runs_emit actions Ha c v Hc) st1 R1) as H2.
  pose proof (emit_stays_in_spool actions c v st1 t Ha Hc R1 H1) as [T2 D2].
  destruct (redirected None t _ st1) as [[x|[[[] src] line]] st2]; cbn [snd] in T2, D2.
  { split; [|done]. split; congruence. }
  destruct H2 as (_ & _ & _ & H2). destruct (H2 _ eq_refl) as (R2 & _ & _ & _ & _ & o & Hline & w & ms & Hw & ->).
  split; [split; cbn; congruence|]. intros rendered [= <-]. split; [done|].
  exists w, ms. split; [done|]. by apply appendable_holds in Hline.
Qed.

(** C18. A mutation with file values, or with an increment of a key that an action before
    it makes an object at, is rendered before it is written.  When the rendering
    fails, as it does for a file that cannot be read, a value that is not UTF-8 and a
    number that overflows, the writer has been handed nothing and the failure is
    returned.  Else the spool has a whole line, the compact text of an object, and the
    writer gets the line, or the start of it when the writer or a file fails. *)
Theorem mutation_all_or_nothing actions c v s env opens :
  lql_flat_eq_mutation_program_needs_atomic_output actions = true ->
  Forall usable actions -> compact c v -> holds c s -> Forall loud_open opens ->
  let '(r, _, env') := stream_step opens (mutation_output actions) s env in
  match rendering actions (mk_emit s None env opens) with
  | (inl x, _) => r = inl x /\ delivered env' = delivered env
  | (inr rendered, _) => exists w ms n k, holds (w ++ [ch_nl]) rendered /\ json_value n w w /\ json_of w (JObject ms) /\
      delivered env' = delivered env ++ take k (w ++ [ch_nl]) /\ (r = inr tt -> (length w < k)%nat)
  end.
Proof.
  intros Hatomic Ha Hc Hs Ho. unfold stream_step, mutation_output. rewrite Hatomic.
  set (st0 := mk_emit s None env opens). assert (R0 : ready c st0) by by split.
  assert (E0 : lql_flat_eq_mutation_emit_atomic actions st0 =
    (rendering actions ≫= fun rendered => reading rendered lql_json_spool_write_to) st0).
  { unfold lql_flat_eq_mutation_emit_atomic, rendering, mbind, E_bind.
    destruct (new_spool st0) as [[|] ?]; [done|]. by destruct (redirected _ _ _ _) as [[|[[[] ?] ?]] ?]. }
  rewrite E0. unfold mbind, E_bind. pose proof (rendering_spec actions c v st0 Ha Hc R0) as H.
  destruct (rendering actions st0) as [[x|rendered] st]; destruct H as [[T D] H]; [by split|].
  destruct (H _ eq_refl) as (R & w & ms & Hw & Hr).
  destruct (proj1 compact_is_json w _ Hw) as [n Hn].
  destruct (reading_writes_prefix (w ++ [ch_nl]) rendered st Hr T) as [k Hk].
  assert (H3 : runs c (reading rendered lql_json_spool_write_to) (fun _ out => out = w ++ [ch_nl])) by
    (eapply runs_reading; [done|exact Hr|apply runs_write_to]).
  specialize (H3 st R).
  destruct (reading rendered lql_json_spool_write_to st) as [[x|[]] st3]; cbn [snd] in Hk.
  - exists w, ms, n, k. split_and!; try done; [by apply compact_json|]. by rewrite Hk, D.
  - destruct H3 as (_ & _ & _ & H3). destruct (H3 _ eq_refl) as (_ & out & G & ->). unfold grew in G.
    rewrite T in G. cbn in G. destruct (emit_target st3); [done|].
    exists w, ms, n, (S (length w)). split_and!; try done; [by apply compact_json| |intros _; lia].
    rewrite firstn_all2 by (rewrite length_app; cbn; lia). by rewrite G, D.
Qed.

(** ** A record *)

(** A text with the quotes of JSON for the single ones. *)
Definition json_text (s : string) : bytes := map (fun ch => if ch =? 39 then ch_quote else ch) (bs s).

(** A spool with a text in memory. *)
Definition memory_spool (c : bytes) : lql_json_spool := mk_spool (Some c) (len c) None (Some []) 0.

Lemma memory_holds c : holds c (memory_spool c).
Proof.
  split; [by eexists|apply firstn_all|done|done|]. cbn. intros d [= <-]. by split.
Qed.

Definition calm : spool_env := mk_env [] [] [] [].

Lemma plain_key s : Forall (fun y => 32 <= y < 127 /\ y <> ch_quote /\ y <> ch_backslash) s -> chars_text s s.
Proof. apply plain_chars. Qed.

(** The record {"n":41,"c":[true]}. *)
Definition sample_record : bytes := json_text "{'n':41,'c':[true]}".
Definition sample_members : list member :=
  [mk_member (bs "n") (bs "n") (bs "41") (JNumber (bs "41"));
   mk_member (bs "c") (bs "c") (bs "[true]") (JArray [JBool true])].

Lemma sample_compact : compact sample_record (JObject (map member_pair sample_members)).
Proof.
  apply (compact_object sample_members). apply compact_members_all. repeat apply List.Forall_cons; [split|split|done].
  - apply plain_key. repeat constructor; done.
  - apply compact_number, mutation_number_iff. reflexivity.
  - apply plain_key. repeat constructor; done.
  - apply (compact_array [(bs "true", JBool true)]). apply compact_elements_all, Forall_singleton. apply (compact_bool true).
Qed.

(** An increment, a removal and a set at a new path. *)
Definition three_actions : list lql_mutation_action :=
  [path_action LQL_MUTATION_INCREMENT double_one [bs "n"];
   path_action LQL_MUTATION_REMOVE (S754_zero false) [bs "c"];
   mk_action LQL_MUTATION_SET [bs "user"; bs "name"] (Some (bs "A\B")) false LQL_MUTATION_VALUE_STRING (S754_zero false)].

Lemma ascii_usable a : segments a <> [] -> (action_kind a = LQL_MUTATION_SET -> is_Some (action_value a)) -> Forall (fun s => Forall (fun c => 0 <= c < 128) s) (segments a) ->
  value_ok (action_value_kind a) (default [] (action_value a)) -> double_ok (delta a) -> usable a.
Proof.
  intros Hn Hp Hs Hv Hd. split; [|done]. split; [|done..]. eapply list.Forall_impl; [exact Hs|]. apply utf8_ascii.
Qed.

Lemma three_usable : Forall usable three_actions.
Proof.
  repeat apply List.Forall_cons; [..|done]; apply ascii_usable; try done; try (by intros _; eexists); try (repeat constructor; done).
  - exists []. by split.
  - exists []. by split.
  - apply utf8_ascii. repeat constructor; done.
Qed.

Lemma mutation_output_json_witness :
  delivered (snd (stream_step [] (mutation_output three_actions) (memory_spool sample_record) calm)) =
    json_text "{'n':42,'user':{'name':'A\\B'}}" ++ [ch_nl] /\
  match stream_step [] (mutation_output three_actions) (memory_spool sample_record) calm with
  | (inl (status, _), _, _) => status <> LQL_STATUS_OK
  | (inr _, s', env') => holds sample_record s' /\ exists w ms, delivered env' = delivered calm ++ w ++ [ch_nl] /\
      (exists n, json_value n w w) /\ json_of w (JObject ms)
  end.
Proof.
  split; [vm_compute; reflexivity|].
  exact (mutation_output_json three_actions sample_record _ (memory_spool sample_record) calm []
    three_usable sample_compact (memory_holds _) (List.Forall_nil _)).
Defined.

(** A number, and a file that turns out not to be UTF-8 after its first byte. *)
Definition file_actions : list lql_mutation_action :=
  [path_action LQL_MUTATION_INCREMENT double_one [bs "n"];
   mk_action LQL_MUTATION_SET [bs "f"] (Some (bs "x.txt")) false LQL_MUTATION_VALUE_FILE_TEXT (S754_zero false)].

Lemma file_usable : Forall usable file_actions.
Proof.
  repeat apply List.Forall_cons; [..|done]; apply ascii_usable; try done; try (by intros _; eexists); try (repeat constructor; done).
  exists []. by split.
Qed.

Definition bad_file : list open_answer := [Opened [inr [97; 0xff]]].

Lemma bad_file_loud : Forall loud_open bad_file.
Proof. repeat constructor; done. Qed.

Lemma mutation_all_or_nothing_witness :
  stream_step bad_file (mutation_output file_actions) (memory_spool sample_record) calm =
    (inl (LQL_STATUS_JSON_ERROR, "textfile mutation value is not valid UTF-8"%string), memory_spool sample_record, calm) /\
  let '(r, _, env') := stream_step bad_file (mutation_output file_actions) (memory_spool sample_record) calm in
  match rendering file_actions (mk_emit (memory_spool sample_record) None calm bad_file) with
  | (inl x, _) => r = inl x /\ delivered env' = delivered calm
  | (inr rendered, _) => exists w ms n k, holds (w ++ [ch_nl]) rendered /\ json_value n w w /\ json_of w (JObject ms) /\
      delivered env' = delivered calm ++ take k (w ++ [ch_nl]) /\ (r = inr tt -> (length w < k)%nat)
  end.
Proof.
  split; [vm_compute; reflexivity|].
  exact (mutation_all_or_nothing file_actions sample_record _ (memory_spool sample_record) calm bad_file
    eq_refl file_usable sample_compact (memory_holds _) bad_file_loud).
Defined.
