(* ===== verification/MutationPath.v ===== *)
(** * What a mutation of an exact path does

    For one action whose path has no wildcard, the bytes that the emission writes are
    the compact text of the record with the action applied to its tree, and where
    only the data could make it fail the emission succeeds. *)

From Stdlib Require Import SpecFloat.
From S2P Require Import Prelude.
From S2P Require Import Errors.
From S2P Require Import Number.
From S2P Require Import NumberSpec.
From S2P Require Import NumberFloat.
From S2P Require Import Unicode.
From S2P Require Import UnicodeProps.
From S2P Require Import SelectorJsonProps.
From S2P Require Import SelectorJsonEvents.
From S2P Require Import JsonGrammar.
From S2P Require Import JsonTree.
From S2P Require Import JsonSpool.
From S2P Require Import SpoolProps.
From S2P Require Import StreamProjection.
From S2P Require Import Mutation.
From S2P Require Import MutationText.
From S2P Require Import MutationEmit.
From S2P Require Import MutationWalk.
From S2P Require Import MutationEmitProps.

(** ** The action on a tree *)

Section at_path.
Context (on_leaf : json -> option json) (fresh : option json).

(** The value at the path [segs] of [x] changed by [on_leaf].  A name that an object
    does not have is added at its end with [fresh] in new objects; what is no object
    is replaced by them. *)
Fixpoint at_path (segs : list bytes) (x : json) : option json :=
  match segs with
  | [] => on_leaf x
  | s :: segs =>
      match x with
      | JObject ms =>
          if existsb (fun m => bytes_eqb (fst m) s) ms then
            JObject <$> mapM (fun m => if bytes_eqb (fst m) s then pair (fst m) <$> at_path segs (snd m) else Some m) ms
          else (fun v => JObject (ms ++ [(s, nest segs v)])) <$> fresh
      | _ => nest (s :: segs) <$> fresh
      end
  end.
End at_path.

(** The value at a path taken out: a member is dropped, an element becomes [null]. *)
Fixpoint remove_path (segs : list bytes) (x : json) : json :=
  match segs with
  | [] => x
  | s :: segs =>
      let ends := match segs with [] => true | _ => false end in
      match x with
      | JObject ms =>
          JObject (if ends then List.filter (fun m => negb (bytes_eqb (fst m) s)) ms
                   else map (fun m => (fst m, if bytes_eqb (fst m) s then remove_path segs (snd m) else snd m)) ms)
      | JArray l =>
          JArray (imap (fun i y => if segment_indexes s i then if ends then JNull else remove_path segs y else y) l)
      | _ => x
      end
  end.

Definition number_json (d : spec_float) : option json := JNumber <$> lql_number_format_json d 64.

Definition add_number (d : spec_float) (x : json) : option json :=
  match x with
  | JNumber text => current ← lql_number_parse_json text; number_json (double_add current d)
  | _ => None
  end.

(** The action applied to the tree of a record; [None] when a number cannot be
    incremented. *)
Definition apply_action (a : lql_mutation_action) (x : json) : option json :=
  match action_kind a with
  | LQL_MUTATION_SET => at_path (fun _ => Some (value_json a)) (Some (value_json a)) (segments a) x
  | LQL_MUTATION_INCREMENT => at_path (add_number (delta a)) (number_json (delta a)) (segments a) x
  | LQL_MUTATION_REMOVE => Some (remove_path (segments a) x)
  end.

(** An action without wildcards and files, whose delta is finite. *)
Record exact_action (a : lql_mutation_action) : Prop := {
  exact_usable : usable a;
  exact_names : Forall (fun s => lql_flat_eq_mutation_segment_is_wildcard s = false) (segments a);
  exact_value : is_file_kind (action_value_kind a) = false;
  exact_delta : lql_number_finite (delta a) = true
}.

(** A finite double can be written. *)
Lemma format_finite d : double_ok d -> lql_number_finite d = true -> exists x, number_json d = Some x.
Proof.
  intros Hd Hf. unfold number_json, lql_number_format_json. rewrite Hf. cbn [negb].
  rewrite (proj2 (Nat.leb_gt _ _)); [by eexists|]. destruct d as [s|s| |s m e]; try done.
  - destruct s; cbn; lia.
  - destruct Hd as [Hm He]. cbn [printf_17g]. destruct (digits17 m e) as [q x] eqn:E1.
    destruct (digits17_spec m e q x Hm He E1) as [Hq _]. pose proof (digits17_range m e q x Hm He E1) as Hx.
    pose proof (general_text_length q x Hq ltac:(lia)) as Hl. rewrite length_app. destruct s; cbn [length]; lia.
Qed.

Lemma incremented_add d x y : incremented d x y <-> add_number d x = Some y.
Proof.
  unfold incremented, add_number, number_json. split.
  - intros (text & current & out & -> & H1 & H2 & ->). rewrite H1. exact (f_equal (fmap JNumber) H2).
  - destruct x; try done. intros (current & H1 & (out & H2 & ->)%fmap_Some)%bind_Some. by eexists _, _, _.
Qed.

Lemma number_of_json d x : number_of d x <-> number_json d = Some x.
Proof.
  unfold number_of, number_json. split; [intros (o & H & ->); by rewrite H|].
  intros (o & H & ->)%fmap_Some. by exists o.
Qed.

(** ** Exact names *)

Section names.
Context (a : lql_mutation_action) (Ha : exact_action a).

Lemma exact_seg depth : lql_flat_eq_mutation_segment_is_wildcard (seg a depth) = false.
Proof.
  unfold seg. destruct (nth_in_or_default depth (segments a) []) as [H| ->]; [|done].
  by apply (proj1 (List.Forall_forall _ _) (exact_names a Ha)).
Qed.

Lemma exact_no_any depth :
  bytes_eqb (seg a depth) seg_any_key = false /\ bytes_eqb (seg a depth) seg_any_index = false /\
  bytes_eqb (seg a depth) seg_any = false /\ bytes_eqb (seg a depth) seg_ellipsis = false.
Proof. pose proof (exact_seg depth) as H. unfold lql_flat_eq_mutation_segment_is_wildcard in H. by bool_hyps. Qed.

Lemma exact_object_key depth : lql_flat_eq_mutation_segment_matches_any_object_key (seg a depth) = false.
Proof.
  destruct (exact_no_any depth) as (H1 & H2 & H3 & H4). unfold lql_flat_eq_mutation_segment_matches_any_object_key.
  by rewrite H1, H3, H4.
Qed.

Lemma exact_array_index depth : lql_flat_eq_mutation_segment_matches_any_array_index (seg a depth) = false.
Proof.
  destruct (exact_no_any depth) as (H1 & H2 & H3 & H4). unfold lql_flat_eq_mutation_segment_matches_any_array_index.
  by rewrite H2, H3, H4.
Qed.

Lemma exact_suffix depth : lql_flat_eq_mutation_suffix_has_wildcard a depth = false.
Proof.
  unfold lql_flat_eq_mutation_suffix_has_wildcard. apply not_true_is_false. intros (s & Hin & Hs)%existsb_exists.
  pose proof (exact_names a Ha) as H. rewrite List.Forall_forall in H.
  assert (Hs' : In s (segments a)) by (rewrite <- (take_drop depth (segments a)); apply in_or_app; by right).
  by rewrite (H s Hs') in Hs.
Qed.

Lemma exact_collapse depth : lql_flat_eq_mutation_collapse_ellipsis a depth = depth.
Proof.
  unfold lql_flat_eq_mutation_collapse_ellipsis. destruct (segment_count a) as [|n] eqn:E1; [done|]. cbn [collapse_loop].
  destruct (exact_no_any depth) as (_ & _ & _ & ->). by rewrite andb_false_r.
Qed.

Lemma exact_repeated depth : lql_flat_eq_mutation_terminal_repeated_ellipsis a depth = false.
Proof.
  unfold lql_flat_eq_mutation_terminal_repeated_ellipsis. destruct (exact_no_any depth) as (_ & _ & _ & ->).
  by rewrite andb_false_r.
Qed.

Lemma last_segment_drop depth : (depth < segment_count a)%nat ->
  last_segment a depth = match drop (S depth) (segments a) with [] => true | _ => false end.
Proof.
  intros H. unfold last_segment, segment_count in *. destruct (drop (S depth) (segments a)) eqn:E1;
    apply (f_equal length) in E1; rewrite length_drop in E1; cbn in E1; [apply Nat.eqb_eq|apply Nat.eqb_neq]; lia.
Qed.
End names.

(** ** Setting and incrementing *)

Lemma mapM_cons_eq {A B} (f : A -> option B) x l : mapM f (x :: l) = (y ← f x; k ← mapM f l; Some (y :: k)).
Proof. done. Qed.

Section write.
Context {mode : Mode} (c : bytes) (a : lql_mutation_action) (Ha : exact_action a) (Hleaf : leaf_ok a).
Context (on_leaf : json -> option json) (fresh : option json) (Hfresh : forall x, leaf a x -> fresh = Some x).

Lemma exact_good : good_action a.
Proof. apply exact_usable, Ha. Qed.

(** The member of a key that is the name at [depth], and another. *)
Definition path_member (depth : nat) (k : bytes) (x : json) (y : option json) : Prop :=
  if bytes_eqb k (seg a depth) then exists x', y = Some x' /\ at_path on_leaf fresh (drop (S depth) (segments a)) x = Some x'
  else y = Some x.

Lemma path_members depth ms ms' : members_become (path_member depth) ms ms' ->
  mapM (fun m => if bytes_eqb (fst m) (seg a depth)
                 then pair (fst m) <$> at_path on_leaf fresh (drop (S depth) (segments a)) (snd m) else Some m) ms = Some ms'.
Proof.
  induction 1 as [|k x y ms ms' H _ IH|k x ms ms' H _ IH]; [done| |]; unfold path_member in H; rewrite mapM_cons_eq, ?IH;
    cbn [fst snd]; destruct (bytes_eqb k (seg a depth)).
  - destruct H as (x' & [= <-] & Hx). by rewrite Hx.
  - by injection H as <-.
  - by destruct H as (? & ? & _).
  - done.
Qed.

(** The members of an object after and those made at its end. *)
Lemma at_path_object depth ms ms' l : (depth < segment_count a)%nat -> members_become (path_member depth) ms ms' ->
  made a depth (existsb (fun m => bytes_eqb (fst m) (seg a depth)) ms) l ->
  at_path on_leaf fresh (drop depth (segments a)) (JObject ms) = Some (JObject (ms' ++ map member_pair l)).
Proof.
  intros Hd Hb Hl. rewrite (drop_segments a) by done. cbn [at_path].
  unfold made in Hl. rewrite (exact_suffix a Ha), orb_false_r in Hl.
  destruct (existsb _ ms) eqn:Ex.
  - subst l. cbn [map]. rewrite app_nil_r. by rewrite (path_members _ _ _ Hb).
  - destruct Hl as (m & x & -> & Hk & Hx & Em). rewrite (Hfresh x Hx). cbn. unfold member_pair. rewrite Hk, Em.
    do 2 f_equal. f_equal. clear -Hb Ex. induction Hb as [|k x y ms ms' H _ IH|k x ms ms' H _ IH]; [done| |];
      cbn in Ex; apply orb_false_iff in Ex as [E1 E2]; unfold path_member in H; rewrite E1 in H; [|done].
    injection H as ->. by rewrite IH.
Qed.

(** A name in an object. *)
Lemma runs_path_object (write : bool -> nat -> nat -> nat -> option (E unit)) value w v s e depth :
  compact w v -> sits c w s e -> c !! s = Some ch_lbrace -> (depth < segment_count a)%nat ->
  (forall m ks ke ce, member_here c w m ks ke ce -> In (member_pair m) (members v) ->
     match write (bytes_eqb (m_key m) (seg a depth)) ks ke ce with
     | None => False
     | Some o => runs c o (fun _ => member_out (path_member depth) m)
     end) ->
  runs c value (fun _ => one_of (leaf a)) ->
  runs c ('(first, found) ← rewrite_members (fun key_start => lql_flat_eq_key_equals key_start e (seg a depth)) write s e;
          make_missing a depth first found value)
    (fun _ => one_of (fun v' => at_path on_leaf fresh (drop depth (segments a)) v = Some v')).
Proof.
  intros Hw Hs Hc Hd Hwrite Hv. eapply runs_one_of.
  2: { eapply (runs_members_then c (path_member depth)); [exact Hw|exact Hs|exact Hc|apply compares_equals| |].
       - intros m ks ke ce Hm Hin. specialize (Hwrite m ks ke ce Hm Hin). by destruct (write _ _ _ _).
       - intros first found. apply (runs_make_missing c a exact_good Hleaf depth first found value Hd Hv). }
  intros v' (ms & ms' & l & -> & Hb & Hl & ->). by apply at_path_object.
Qed.

(** What is no object is replaced. *)
Lemma runs_path_chain v depth : (depth < segment_count a)%nat -> (forall ms, v <> JObject ms) ->
  runs c (lql_flat_eq_mutation_object_chain a depth)
    (fun _ => one_of (fun v' => at_path on_leaf fresh (drop depth (segments a)) v = Some v')).
Proof.
  intros Hd Hv. eapply runs_one_of, (runs_chain c a exact_good Hleaf); [|done].
  intros v' (x & Hx & ->). rewrite (drop_segments a) by done. cbn [at_path].
  destruct v as [| | | | |ms]; try (by rewrite (Hfresh x Hx)). by destruct (Hv ms).
Qed.

(** A member with the name gets the value that is below it. *)
Lemma runs_path_member w m ks ke ce depth value : member_here c w m ks ke ce -> bytes_eqb (m_key m) (seg a depth) = true ->
  runs c value (fun _ => one_of (fun v' => at_path on_leaf fresh (drop (S depth) (segments a)) (m_value m) = Some v')) ->
  runs c (keyed ks ke value) (fun _ => member_out (path_member depth) m).
Proof.
  intros Hm Hk Hv. eapply runs_keyed_rel; [exact Hm|]. eapply runs_one_of, Hv. intros v' H.
  unfold path_member. rewrite Hk. by exists v'.
Qed.

(** What a member can be changed to when the object can. *)
Lemma path_member_some depth v m : (depth < segment_count a)%nat ->
  (sure = true -> is_Some (at_path on_leaf fresh (drop depth (segments a)) v)) ->
  In (member_pair m) (members v) -> bytes_eqb (m_key m) (seg a depth) = true ->
  sure = true -> is_Some (at_path on_leaf fresh (drop (S depth) (segments a)) (m_value m)).
Proof.
  intros Hd Hv Hin Hk Hs. specialize (Hv Hs). rewrite (drop_segments a) in Hv by done. cbn [at_path] in Hv.
  destruct v as [| | | | |ms]; try done. cbn [members] in Hin.
  assert (Hex : existsb (fun m => bytes_eqb (fst m) (seg a depth)) ms = true) by (apply existsb_exists; by exists (member_pair m)).
  rewrite Hex in Hv. apply fmap_is_Some, mapM_is_Some in Hv. rewrite list.Forall_forall in Hv.
  specialize (Hv (member_pair m) ltac:(by apply list_elem_of_In)). unfold member_pair, compose in Hv. cbn [fst snd] in Hv.
  rewrite Hk in Hv. by apply fmap_is_Some in Hv.
Qed.
(** A value of which the first byte is known. *)
Lemma not_object v y : first_byte v y -> y <> ch_lbrace -> forall ms, v <> JObject ms.
Proof. intros H Hy ms ->. by cbn in H. Qed.

Lemma place_nonempty w v s e : compact w v -> sits c w s e -> (e <=? s)%nat = false /\ (1 <= length w)%nat.
Proof.
  intros Hw Hs. destruct (sits_bound _ _ _ _ Hs) as (_ & H1 & H2).
  destruct (json_first _ _ (compact_json _ _ Hw)) as (? & ? & -> & _). cbn in *. split; [apply Nat.leb_gt|]; lia.
Qed.

(** The end of the path, or the segments below. *)
Lemma runs_path_below fuel depth w v s e (value : E unit) (below : nat -> nat -> nat -> nat -> E unit) :
  (depth < segment_count a)%nat -> compact w v -> sits c w s e -> (length w + (segment_count a - S depth) < fuel)%nat ->
  (drop (S depth) (segments a) = [] -> runs c value (fun _ => one_of (fun v' => on_leaf v = Some v'))) ->
  ((S depth < segment_count a)%nat -> runs c (below fuel s e (S depth))
     (fun _ => one_of (fun v' => at_path on_leaf fresh (drop (S depth) (segments a)) v = Some v'))) ->
  runs c (if last_segment a depth then value else below fuel s e (S depth))
    (fun _ => one_of (fun v' => at_path on_leaf fresh (drop (S depth) (segments a)) v = Some v')).
Proof.
  intros Hd Hw Hs Hf Hv Hb. rewrite last_segment_drop by done. destruct (drop (S depth) (segments a)) as [|s' l] eqn:E1.
  - by apply Hv.
  - apply Hb. apply (f_equal length) in E1. rewrite length_drop in E1. cbn in E1. unfold segment_count. lia.
Qed.

Lemma nested_set_path fuel : action_kind a = LQL_MUTATION_SET -> (forall x y, leaf a y -> on_leaf x = Some y) ->
  forall w v s e depth, compact w v -> sits c w s e -> (depth < segment_count a)%nat ->
  (length w + (segment_count a - depth) < fuel)%nat ->
  runs c (lql_flat_eq_mutation_nested_set fuel a s e depth)
    (fun _ => one_of (fun v' => at_path on_leaf fresh (drop depth (segments a)) v = Some v')).
Proof.
  intros Hk Hset. induction fuel as [|fuel IH]; intros w v s e depth Hw Hs Hd Hf; [lia|].
  destruct (place_nonempty _ _ _ _ Hw Hs) as [He Hlen]. cbn [lql_flat_eq_mutation_nested_set].
  unfold is_kind. rewrite Hk, He, (proj2 (Nat.leb_gt _ _) Hd), bool_decide_true by done. cbn [negb orb].
  rewrite (exact_collapse a Ha). destruct (exact_no_any a Ha depth) as (H1 & H2 & H3 & H4).
  eapply runs_first; [exact Hw|exact Hs|]. intros y Hy Hv.
  rewrite (exact_array_index a Ha), (exact_object_key a Ha), (exact_suffix a Ha), H1, H2, H4, !andb_false_r. cbn [andb].
  destruct (Z.eqb_spec y ch_lbrace) as [->|Hne]; cbn [negb].
  2: { apply runs_path_chain; [done|by eapply not_object]. }
  assert (Hleafset : runs c (lql_flat_eq_mutation_value a) (fun _ => one_of (leaf a))) by by apply leaf_value; [apply exact_good|..].
  eapply runs_path_object; [exact Hw|exact Hs|exact Hy|done| |exact Hleafset].
  intros m ks ke ce Hm Hin. destruct (bytes_eqb (m_key m) (seg a depth)) eqn:Ek.
  - destruct (here_value _ _ _ _ _ _ Hm) as (Hw' & Hs' & Hl).
    eapply runs_path_member; [exact Hm|exact Ek|].
    apply (runs_path_below fuel depth (m_text m) (m_value m) (S ke) ce _
      (fun fuel s e d => lql_flat_eq_mutation_nested_set fuel a s e d)); try done; [lia| |].
    + intros _. eapply runs_one_of, Hleafset. intros v' Hv'. by apply Hset.
    + intros Hd'. eapply IH; [exact Hw'|exact Hs'|done|lia].
  - eapply runs_copy_member; [exact Hm|]. unfold path_member. by rewrite Ek.
Qed.

Lemma nested_increment_path fuel : action_kind a = LQL_MUTATION_INCREMENT -> on_leaf = add_number (delta a) ->
  forall w v s e depth, compact w v -> sits c w s e -> (depth < segment_count a)%nat ->
  (length w + (segment_count a - depth) < fuel)%nat ->
  (sure = true -> is_Some (at_path on_leaf fresh (drop depth (segments a)) v)) ->
  runs c (lql_flat_eq_mutation_nested_increment fuel a s e depth)
    (fun _ => one_of (fun v' => at_path on_leaf fresh (drop depth (segments a)) v = Some v')).
Proof.
  intros Hk Hadd. induction fuel as [|fuel IH]; intros w v s e depth Hw Hs Hd Hf Hsome; [lia|].
  destruct (place_nonempty _ _ _ _ Hw Hs) as [He Hlen]. cbn [lql_flat_eq_mutation_nested_increment].
  unfold is_kind. rewrite Hk, He, (proj2 (Nat.leb_gt _ _) Hd), bool_decide_true by done. cbn [negb orb].
  rewrite (exact_collapse a Ha). destruct (exact_no_any a Ha depth) as (H1 & H2 & H3 & H4).
  eapply runs_first; [exact Hw|exact Hs|]. intros y Hy Hv. unfold lql_flat_eq_mutation_nested_increment_array.
  rewrite (exact_array_index a Ha), (exact_object_key a Ha), (exact_suffix a Ha), H1, H2, H4. cbn [andb negb].
  destruct (Z.eqb_spec y ch_lbracket) as [->|].
  { apply runs_path_chain; [done|by eapply not_object]. }
  destruct (Z.eqb_spec y ch_lbrace) as [->|Hne]; cbn [negb].
  2: { apply runs_path_chain; [done|by eapply not_object]. }
  eapply runs_path_object; [exact Hw|exact Hs|exact Hy|done| |by apply leaf_increment; [apply exact_good|..]].
  intros m ks ke ce Hm Hin. destruct (bytes_eqb (m_key m) (seg a depth)) eqn:Ek.
  - destruct (here_value _ _ _ _ _ _ Hm) as (Hw' & Hs' & Hl).
    pose proof (path_member_some depth v m Hd Hsome Hin Ek) as Hsome'.
    eapply runs_path_member; [exact Hm|exact Ek|].
    apply (runs_path_below fuel depth (m_text m) (m_value m) (S ke) ce _
      (fun fuel s e d => lql_flat_eq_mutation_nested_increment fuel a s e d)); try done; [lia| |].
    + intros Hnil. rewrite Hnil in Hsome'. eapply runs_one_of, (runs_increment c a exact_good); [|exact Hw'|exact Hs'|by intros _|].
      * intros v' Hv'. rewrite Hadd. by apply incremented_add.
      * intros Hs2. destruct (Hsome' Hs2) as [v' Hv']. exists v'. apply incremented_add. by rewrite <- Hadd.
    + intros Hd'. eapply IH; [exact Hw'|exact Hs'|done|lia|done].
  - eapply runs_keyed_rel; [exact Hm|]. destruct (here_value _ _ _ _ _ _ Hm) as (Hw' & Hs' & _).
    eapply runs_one_of, runs_copy_rel; [|exact Hw'|exact Hs']. intros v' ->. unfold path_member. by rewrite Ek.
Qed.
End write.

(** ** Removing *)

Lemma elements_imap (f : nat -> json -> json) n l l' : elements_become (fun i x y => y = f i x) n l l' ->
  l' = imap (fun i => f (n + i)%nat) l.
Proof.
  induction 1 as [n|n x y l l' -> _ ->]; [done|]. rewrite imap_cons, Nat.add_0_r. f_equal.
  apply imap_ext. intros i z _. unfold compose. f_equal. lia.
Qed.

Section remove.
Context {mode : Mode} (c : bytes) (a : lql_mutation_action) (Ha : exact_action a) (Hk : action_kind a = LQL_MUTATION_REMOVE).

Definition removed_element (depth i : nat) (y : json) : json :=
  if segment_indexes (seg a depth) i then
    if last_segment a depth then JNull else remove_path (drop (S depth) (segments a)) y
  else y.

Definition removed_member (depth : nat) (k : bytes) (x : json) (y : option json) : Prop :=
  y = if bytes_eqb k (seg a depth) then
        if last_segment a depth then None else Some (remove_path (drop (S depth) (segments a)) x)
      else Some x.

Lemma remove_path_array depth l : (depth < segment_count a)%nat ->
  remove_path (drop depth (segments a)) (JArray l) = JArray (imap (removed_element depth) l).
Proof.
  intros Hd. rewrite (drop_segments a) by done. cbn [remove_path]. unfold removed_element. by rewrite (last_segment_drop a _ Hd).
Qed.

Lemma remove_path_object depth ms ms' : (depth < segment_count a)%nat -> members_become (removed_member depth) ms ms' ->
  remove_path (drop depth (segments a)) (JObject ms) = JObject ms'.
Proof.
  intros Hd H. rewrite (drop_segments a) by done. cbn [remove_path]. rewrite <- (last_segment_drop a _ Hd). f_equal.
  unfold removed_member in H. destruct (last_segment a depth);
    (induction H as [|k x y ms ms' H _ IH|k x ms ms' H _ IH]; [done| |]; cbn [List.filter map fst snd];
     destruct (bytes_eqb k (seg a depth)); try done; cbn [negb]; rewrite ?IH; try done; by injection H as ->).
Qed.

Lemma nested_remove_path fuel : forall w v s e depth, compact w v -> sits c w s e -> (depth < segment_count a)%nat ->
  (length w + (segment_count a - depth) < fuel)%nat ->
  runs c (nested_remove fuel a s e depth) (fun _ => one_of (fun v' => v' = remove_path (drop depth (segments a)) v)).
Proof.
  induction fuel as [|fuel IH]; intros w v s e depth Hw Hs Hd Hf; [lia|].
  destruct (place_nonempty _ _ _ _ _ Hw Hs) as [He Hlen]. cbn [nested_remove].
  unfold is_kind. rewrite Hk, He, (proj2 (Nat.leb_gt _ _) Hd), bool_decide_true by done. cbn [negb orb].
  rewrite (exact_collapse a Ha). destruct (exact_no_any a Ha depth) as (H1 & H2 & H3 & H4).
  assert (Hbelow : forall w' v' s' e', compact w' v' -> sits c w' s' e' -> (length w' < length w)%nat ->
    last_segment a depth = false -> runs c (nested_remove fuel a s' e' (S depth))
      (fun _ => one_of (fun x => x = remove_path (drop (S depth) (segments a)) v'))).
  { intros w' v' s' e' Hw' Hs' Hl El. unfold last_segment in El. apply Nat.eqb_neq in El. eapply IH; [exact Hw'|exact Hs'|lia|lia]. }
  eapply runs_first; [exact Hw|exact Hs|]. intros y Hy Hv. unfold lql_flat_eq_mutation_nested_remove_array.
  rewrite (exact_array_index a Ha), (exact_object_key a Ha), H4. cbn [andb negb].
  destruct (Z.eqb_spec y ch_lbracket) as [->|].
  { destruct (sits_at _ _ _ _ _ _ Hw Hs Hy) as [r Er]. destruct (compact_bracket r v) as [vs ->]; [by rewrite <- Er|].
    destruct (segment_is_index (seg a depth)) eqn:Ei; cbn [negb].
    - eapply runs_one_of.
      2: { apply (runs_elements c _ (fun i x x' => x' = removed_element depth i x) w (JArray vs)); [exact Hw|exact Hs|exact Hy|].
           intros i w' v' s' e' Hw' Hs' Hl. unfold removed_element. destruct (segment_indexes (seg a depth) i); cbn [negb].
           - destruct (last_segment a depth) eqn:El; [|by eapply Hbelow].
             eapply runs_weaken, runs_write. intros _ ? ->. exists JNull. split; [constructor|done].
           - by eapply runs_copy_rel. }
      intros v' (? & vs' & [= <-] & -> & Hb%elements_imap). by rewrite remove_path_array, Hb.
    - eapply runs_one_of, runs_copy_rel; [|exact Hw|exact Hs]. intros v' ->. rewrite remove_path_array by done. f_equal.
      unfold segment_is_index in Ei. apply bool_decide_eq_false in Ei.
      transitivity (imap (const id) vs); [by rewrite imap_const, list_fmap_id|]. apply imap_ext. intros i x _. unfold removed_element, segment_indexes.
      destruct (lql_flat_eq_projection_segment_index _); [by destruct Ei|done]. }
  destruct (Z.eqb_spec y ch_lbrace) as [->|Hne]; cbn [negb].
  - eapply runs_one_of.
    2: { apply (runs_object_rel c (removed_member depth) _ _ _ w v s e Hw Hs Hy (compares_equals c _ _)).
         intros m ks ke ce Hm Hin. destruct (bytes_eqb (m_key m) (seg a depth)) eqn:Ek; cbn [negb].
         - destruct (last_segment a depth) eqn:El; [unfold removed_member; by rewrite Ek, El|].
           destruct (here_value _ _ _ _ _ _ Hm) as (Hw' & Hs' & Hl). eapply runs_keyed_rel; [exact Hm|].
           eapply runs_one_of, Hbelow; [|exact Hw'|exact Hs'|done|done]. intros v' ->. unfold removed_member. by rewrite Ek, El.
         - eapply runs_copy_member; [exact Hm|]. unfold removed_member. by rewrite Ek. }
    intros v' (ms & ms' & -> & -> & Hb). symmetry. by apply remove_path_object.
  - eapply runs_one_of, runs_copy_rel; [|exact Hw|exact Hs]. intros v' ->. rewrite (drop_segments a) by done.
    destruct v as [| | | |vs|ms]; try done; cbn in Hv; by subst y.
Qed.
End remove.

(** ** A record *)

(** The comparisons of kinds that are known. *)
Ltac kinds := repeat match goal with
  | |- context [bool_decide (?x = ?y :> lql_mutation_kind)] =>
      let b := eval vm_compute in (bool_decide (x = y)) in change (bool_decide (x = y)) with b
  | H : context [bool_decide (?x = ?y :> lql_mutation_kind)] |- _ =>
      let b := eval vm_compute in (bool_decide (x = y)) in change (bool_decide (x = y)) with b in H
  end.

Section record.
Context {mode : Mode} (c : bytes) (a : lql_mutation_action) (Ha : exact_action a).

(** What is below the first [depth] segments. *)
Definition applied (depth : nat) (x : json) : option json :=
  match action_kind a with
  | LQL_MUTATION_SET => at_path (fun _ => Some (value_json a)) (Some (value_json a)) (drop depth (segments a)) x
  | LQL_MUTATION_INCREMENT => at_path (add_number (delta a)) (number_json (delta a)) (drop depth (segments a)) x
  | LQL_MUTATION_REMOVE => Some (remove_path (drop depth (segments a)) x)
  end.

Lemma exact_leaf : action_kind a <> LQL_MUTATION_REMOVE -> leaf_ok a.
Proof.
  intros Hk _. split; [apply exact_value, Ha|]. unfold leaf. destruct (action_kind a); [|..|done].
  - exists (value_json a). by rewrite (exact_value a Ha).
  - destruct (format_finite (delta a)) as [x Hx]; [apply Ha|apply Ha|]. exists x. by apply number_of_json.
Qed.

Lemma leaf_set x : action_kind a = LQL_MUTATION_SET -> leaf a x -> x = value_json a.
Proof. intros Hk. unfold leaf. by rewrite Hk, (exact_value a Ha). Qed.

Lemma leaf_number x : action_kind a = LQL_MUTATION_INCREMENT -> leaf a x -> number_json (delta a) = Some x.
Proof. intros Hk. unfold leaf. rewrite Hk. apply number_of_json. Qed.

Lemma exact_count : (0 < segment_count a)%nat.
Proof. destruct (exact_usable a Ha) as [_ Hn]. unfold segment_count. destruct (segments a); [done|cbn; lia]. Qed.

(** The value of the member whose key is the first name. *)
Lemma runs_single_output w v s e : compact w v -> sits c w s e -> top_of_kind LQL_MUTATION_REMOVE a = false ->
  (sure = true -> is_Some (applied 1 v)) ->
  runs c (single_output a s e) (fun _ => one_of (fun v' => applied 1 v = Some v')).
Proof.
  intros Hw Hs Hrm Hsome. destruct (sits_bound _ _ _ _ Hs) as (_ & Hl & _). pose proof exact_count as Hn.
  unfold single_output, top_of_kind, is_kind, emit_fuel, applied in *. cbv zeta.
  assert (Hone : segment_count a = 1%nat -> drop 1 (segments a) = []) by (intros H; apply drop_ge; unfold segment_count in H; lia).
  destruct (action_kind a) eqn:Ek; kinds; cbn [andb] in *.
  - destruct (Nat.ltb_spec 1 (segment_count a)).
    + eapply nested_set_path; try done; [by apply exact_leaf; rewrite Ek|..].
      * intros x Hx. by rewrite (leaf_set x Ek Hx).
      * intros x y' Hy'. by rewrite (leaf_set y' Ek Hy').
      * lia.
    + rewrite Hone by lia. eapply runs_one_of, leaf_value; [|apply Ha|by apply exact_leaf; rewrite Ek|done].
      intros v' Hv'. by rewrite (leaf_set v' Ek Hv').
  - destruct (Nat.eqb_spec (segment_count a) 1).
    + rewrite Hone in * by done. eapply runs_one_of, runs_increment; [|apply Ha|exact Hw|exact Hs|by intros _|].
      * intros v' Hv'. by apply incremented_add.
      * intros Hsure. destruct (Hsome Hsure) as [v' Hv']. exists v'. by apply incremented_add.
    + eapply nested_increment_path; try done; [by apply exact_leaf; rewrite Ek| |lia..].
      intros x Hx. by apply leaf_number.
  - assert (1 < segment_count a)%nat by (apply Nat.eqb_neq in Hrm; lia).
    rewrite (proj2 (Nat.ltb_lt _ _)) by done. eapply runs_one_of, nested_remove_path; [|done..|lia]. by intros v' ->.
Qed.
(** ** The targets of an increment *)

Lemma silent_exact_number w v s e d : compact w v -> sits c w s e -> (sure = true -> is_Some (add_number d v)) ->
  silent c (lql_flat_eq_mutation_validate_increment_number s e).
Proof.
  intros Hw Hs Hok. unfold lql_flat_eq_mutation_validate_increment_number.
  destruct (place_nonempty _ _ _ _ _ Hw Hs) as [-> _]. destruct (sits_bound _ _ _ _ Hs) as (Hl1 & Hl & Hl2).
  assert (Htext : take (e - s) (drop s c) = w).
  { rewrite Hl. destruct Hs as (pre & post & -> & -> & _). by rewrite drop_app_length, take_app_length. }
  assert (Hnumber : sure = true -> exists text, v = JNumber text /\ is_Some (lql_number_parse_json text)).
  { intros H. destruct (Hok H) as [x Hx]. apply incremented_add in Hx as (text & current & _ & -> & Hp & _). eauto. }
  eapply runs_first; [exact Hw|exact Hs|]. intros y Hy Hv. destruct (_ && _) eqn:Ey.
  - apply runs_fail; [|done]. eapply not_sure; [exact Hnumber|]. intros (text & -> & _).
    destruct Hv as [->|Hd]; [done|]. by rewrite Hd, andb_false_r in Ey.
  - apply silent_then; [|intros _; apply silent_ret]. eapply reads_silent, reads_target. rewrite Htext.
    intros H. split; [lia|]. destruct (Hnumber H) as (text & -> & Hp). by rewrite (compact_number_text _ _ Hw).
Qed.

Lemma silent_exact_path fuel : action_kind a = LQL_MUTATION_INCREMENT ->
  forall w v s e depth, compact w v -> sits c w s e -> (depth < segment_count a)%nat -> (length w < fuel)%nat ->
  (sure = true -> is_Some (applied depth v)) -> silent c (validate_increment_path fuel a s e depth).
Proof.
  intros Hk. unfold applied. rewrite Hk. induction fuel as [|fuel IH]; intros w v s e depth Hw Hs Hd Hf Hok; [lia|].
  cbn [validate_increment_path]. unfold is_kind. rewrite Hk, bool_decide_true, (proj2 (Nat.leb_gt _ _) Hd) by done. cbn [negb orb].
  destruct (exact_no_any a Ha depth) as (_ & H2 & _ & H4).
  eapply runs_first; [exact Hw|exact Hs|]. intros y Hy Hv.
  destruct (Z.eqb_spec y ch_lbrace) as [->|].
  - eapply silent_members; [exact Hw|exact Hs|exact Hy|]. intros m ks ke ce Hm Hin Hlt.
    destruct (here_value _ _ _ _ _ _ Hm) as (Hw' & Hs' & Hl). unfold validate_descends. rewrite H4. cbn [andb].
    eapply runs_after_read.
    { exact (here_compares c _ _ _ _ _ _ _ e (compares_segment c (seg a depth) e) Hm ltac:(lia)). }
    cbn beta. intros same ->.
    rewrite (exact_object_key a Ha), H2. cbn [orb negb andb]. destruct (bytes_eqb (m_key m) (seg a depth)) eqn:Ek; [|apply silent_ret].
    assert (Hok' := path_member_some a _ _ depth v m Hd Hok Hin Ek).
    unfold validate_below. rewrite (exact_repeated a Ha), andb_false_r, orb_false_r.
    destruct (Nat.eqb_spec (depth + 1) (segment_count a)) as [El|El].
    + rewrite (drop_ge (segments a) (S depth)) in Hok' by (unfold segment_count in El; lia).
      eapply silent_exact_number; [exact Hw'|exact Hs'|exact Hok'].
    + rewrite Nat.add_1_r. eapply IH; [exact Hw'|exact Hs'|lia|lia|exact Hok'].
  - destruct (Z.eqb_spec y ch_lbracket) as [->|]; [|apply silent_ret].
    unfold lql_flat_eq_mutation_validate_increment_array. apply silent_then; [|intros _; apply silent_ret].
    eapply silent_elements; [exact Hw|exact Hs|exact Hy|]. intros i w' v' s' e' _ _ _.
    unfold validate_descends. rewrite H4, !(exact_array_index a Ha). cbn [andb]. apply silent_ret.
Qed.

Lemma silent_exact_targets v : compact c v -> (sure = true -> is_Some (apply_action a v)) -> silent c (validate_targets [] [a]).
Proof.
  intros Hc Hok. cbn [validate_targets]. apply silent_then; [|intros _; apply silent_ret].
  destruct (is_kind a LQL_MUTATION_INCREMENT) eqn:Ek; cbn [negb]; [|apply silent_ret].
  apply bool_decide_eq_true in Ek. unfold lql_flat_eq_mutation_increment_replaced_before. cbn [rev replaced_loop].
  eapply runs_bind; [by apply (runs_ret c false (fun b o => b = false /\ o = []))|]. intros b ? [-> ->].
  eapply runs_after_read; [apply reads_size|]. intros n ->. unfold lql_flat_eq_mutation_validate_increment_path, emit_fuel.
  eapply (silent_exact_path _ Ek c v); [done|apply (place_sits _ _ _ _ _ (whole_place c v Hc))|apply exact_count|lia|].
  unfold applied. rewrite Ek. unfold apply_action in Hok. by rewrite Ek in Hok.
Qed.
(** ** The members of the record *)

Lemma exact_top : lql_flat_eq_mutation_top_matches_object_key a = false.
Proof. unfold lql_flat_eq_mutation_top_matches_object_key. by rewrite (exact_object_key a Ha), andb_false_r. Qed.

Lemma exact_alone : lql_flat_eq_mutation_group_count [a] a = 1%nat /\ exact_only [a] a = true.
Proof.
  pose proof exact_count as Hn. unfold segment_count in Hn. split.
  - unfold lql_flat_eq_mutation_group_count, group_of, lql_flat_eq_mutation_same_top. cbn [List.filter].
    destruct (segments a) as [|s l]; [cbn in Hn; lia|]. by rewrite bytes_eqb_refl.
  - unfold exact_only, lql_flat_eq_mutation_exact_top_key, lql_flat_eq_mutation_program_has_top_object_wildcard.
    cbn [existsb]. rewrite exact_top, (exact_object_key a Ha). unfold segment_count.
    destruct (segments a); [cbn in Hn; lia|done].
Qed.

(** What becomes of a member of the record. *)
Definition top_member (k : bytes) (x : json) (y : option json) : Prop :=
  if bytes_eqb k (seg a 0) then
    if top_of_kind LQL_MUTATION_REMOVE a then y = None else exists x', y = Some x' /\ applied 1 x = Some x'
  else y = Some x.

Lemma runs_exact_member m first found size ks ke ve : member_at c m ks ke ve -> good_member m -> bytes_eqb (m_key m) (seg a 0) = true ->
  (sure = true -> top_of_kind LQL_MUTATION_REMOVE a = false -> is_Some (applied 1 (m_value m))) ->
  runs c (emit_member [a] first found 0 a size ks ke ve) (fun st out =>
    snd st = <[0%nat := true]> found /\
    (top_member (m_key m) (m_value m) None /\ fst st = first /\ out = [] \/
     fst st = false /\ exists m', good_member m' /\ m_key m' = m_key m /\
       top_member (m_key m) (m_value m) (Some (m_value m')) /\ out = items_text first [member_text m'])).
Proof.
  intros Hat [Hkey Hval] Hk Hok. unfold emit_member. destruct exact_alone as [-> ->]. cbn [Nat.ltb Nat.leb Nat.eqb andb].
  unfold emit_single, top_member. rewrite Hk. cbv zeta. destruct (top_of_kind LQL_MUTATION_REMOVE a) eqn:Erm.
  - apply runs_ret. split; [done|]. by left.
  - apply runs_comma. eapply runs_bind.
    { eapply runs_keyed; [exact Hat|]. eapply (runs_single_output (m_text m) (m_value m)); [done|apply Hat|done|]. intros Hs. by apply Hok. }
    intros _ ? (o & -> & v' & Ho & Hv'). apply runs_ret. split; [done|]. right. split; [done|].
    exists (mk_member (m_chars m) (m_key m) o v'). split; [by split|]. split; [done|]. split; [eauto|].
    cbn [items_text]. unfold member_text. cbn [m_chars m_text]. by rewrite !app_nil_r.
Qed.

(** A round of the loop over the members. *)
Definition top_round (m : member) (st st' : bool * list bool) (out : bytes) : Prop :=
  snd st' = (if bytes_eqb (m_key m) (seg a 0) then <[0%nat := true]> (snd st) else snd st) /\
  (top_member (m_key m) (m_value m) None /\ fst st' = fst st /\ out = [] \/
   fst st' = false /\ exists m', good_member m' /\ m_key m' = m_key m /\
     top_member (m_key m) (m_value m) (Some (m_value m')) /\ out = items_text (fst st) [member_text m']).

Lemma top_chain l : forall first b st' out, chain top_round l (first, [b]) st' out ->
  exists l', compact_members l' /\ out = items_text first (map member_text l') /\
    members_become top_member (map member_pair l) (map member_pair l') /\
    st' = (first && bool_decide (l' = []), [b || existsb (fun m => bytes_eqb (fst m) (seg a 0)) (map member_pair l)]).
Proof.
  induction l as [|m l IH]; intros first b st' out H.
  - apply chain_nil_inv in H as [-> ->]. exists []. split; [constructor|]. split; [done|]. split; [constructor|].
    cbn. by rewrite orb_false_r, andb_true_r.
  - apply chain_cons_inv in H as ([first1 found1] & o1 & o2 & -> & [E1 HR] & H). cbn [fst snd] in *.
    assert (E2 : found1 = [b || bytes_eqb (m_key m) (seg a 0)]) by (rewrite E1; destruct (bytes_eqb _ _), b; done).
    rewrite E2 in H. apply IH in H as (l' & Hl' & -> & Hb & ->). cbn [map existsb]. rewrite orb_assoc.
    destruct HR as [(HP & -> & ->)|(-> & m' & Hm' & Hkey & HP & ->)].
    + exists l'. split; [done|]. split; [done|]. split; [by constructor|done].
    + exists (m' :: l'). split; [apply compact_members_all; constructor; [done|by apply compact_members_all]|].
      split; [cbn [map items_text]; by rewrite <- !(assoc_L (++))|].
      split; [unfold member_pair; cbn [map]; rewrite Hkey; by constructor|]. by rewrite andb_false_r.
Qed.

Lemma runs_exact_round m pre post first found : good_member m -> c = pre ++ member_text m ++ post -> value_end_byte post ->
  (length pre + length (member_text m) < length c)%nat ->
  (sure = true -> bytes_eqb (m_key m) (seg a 0) = true -> top_of_kind LQL_MUTATION_REMOVE a = false -> is_Some (applied 1 (m_value m))) ->
  runs c (emit_round [a] (length c) (first, found) (length pre))
    (fun '(st, next) out => next = (length pre + length (member_text m))%nat /\ top_round m (first, found) st out).
Proof.
  intros Hm Hc Hpost Hlt Hok. pose proof (member_at_intro c m pre post Hc) as Hat.
  assert (Hkey : reads c (lql_flat_eq_key_equals (length pre) (length c) (seg a 0)) (fun r => r = bytes_eqb (m_key m) (seg a 0))).
  { eapply (compares_equals c (seg a 0) (length c)); [apply Hm|rewrite Hc; unfold member_text; by rewrite <- (assoc_L (++))|].
    unfold member_text in Hlt. rewrite length_app in Hlt. lia. }
  unfold emit_round, lql_flat_eq_mutation_find_action. cbn [find_loop]. rewrite exact_top.
  eapply runs_after_read with (P := fun r => r = if bytes_eqb (m_key m) (seg a 0) then Some (0%nat, a) else None).
  { eapply reads_bind; [exact Hkey|]. intros b ->. destruct (bytes_eqb _ _); by apply reads_ret. }
  intros action ->. eapply runs_after_read; [eapply reads_member; [exact Hm|exact Hc|exact Hpost|lia]|].
  cbn beta. intros [ke ve] [= -> ->]. unfold top_round. cbn [fst snd]. destruct (bytes_eqb (m_key m) (seg a 0)) eqn:Ek.
  - eapply runs_bind; [eapply runs_exact_member; [exact Hat|exact Hm|exact Ek|auto]|].
    intros st o Ho. apply runs_ret. split; [done|]. by rewrite app_nil_r.
  - apply runs_comma. eapply runs_bind; [apply (runs_copy c (member_text m)), Hat|]. intros _ ? ->. apply runs_ret.
    split; [done|]. split; [done|]. right. split; [done|]. exists m. split; [done|]. split; [done|].
    split; [unfold top_member; by rewrite Ek|]. cbn. by rewrite !app_nil_r.
Qed.

(** The member that is made when none has the key. *)
Lemma runs_exact_missing first b :
  runs c (missing_loop [a] first [b] 0 [a]) (fun _ out => exists l, compact_members l /\
    out = items_text first (map member_text l) /\
    if is_kind a LQL_MUTATION_REMOVE then l = [] else made a 0 b l).
Proof.
  destruct exact_alone as [Ecount Eonly]. cbn [missing_loop]. unfold skips_missing.
  assert (Hwild : lql_flat_eq_mutation_nonrecursive_wildcard a = false).
  { pose proof (exact_suffix a Ha 0) as H. unfold lql_flat_eq_mutation_suffix_has_wildcard in H. by rewrite drop_0 in H. }
  rewrite Hwild, Ecount. cbn [nth orb andb Nat.leb Nat.ltb]. unfold made. rewrite (exact_suffix a Ha), !orb_false_r.
  assert (Hnil : runs c (mret first) (fun (_ : bool) out => exists l, compact_members l /\
    out = items_text first (map member_text l) /\ l = [])) by (apply runs_ret; exists []; split_and!; try done; constructor).
  destruct b; cbn [orb].
  { eapply runs_weaken, Hnil. intros _ o (l & H1 & H2 & ->). exists []. split; [done|]. split; [done|]. by destruct (is_kind a _). }
  destruct (is_kind a LQL_MUTATION_REMOVE) eqn:Erm; [exact Hnil|].
  apply bool_decide_eq_false in Erm as Hrm. pose proof (exact_leaf Hrm) as Hleaf.
  unfold emit_missing. cbv zeta. rewrite Ecount, Eonly. cbn [Nat.eqb andb].
  eapply runs_bind with (P := fun st out => exists m x, good_member m /\ m_key m = seg a 0 /\ leaf a x /\
    m_value m = nest (drop 1 (segments a)) x /\ out = items_text first [member_text m]).
  - eapply runs_bind; [apply (runs_new_member c first (seg a 0) _ (fun v => exists x, leaf a x /\ v = nest (drop 1 (segments a)) x))|].
    + apply good_seg, exact_usable, Ha.
    + assert (Hset : is_kind a LQL_MUTATION_SET || is_kind a LQL_MUTATION_INCREMENT = true).
      { unfold is_kind in *. destruct (action_kind a); done. }
      rewrite Hset. cbn [andb]. destruct (Nat.ltb_spec 1 (segment_count a)); [apply runs_chain; [apply Ha|done|done]|].
      rewrite drop_ge by (unfold segment_count in *; lia).
      destruct (is_kind a LQL_MUTATION_INCREMENT) eqn:Ei.
      * apply bool_decide_eq_true in Ei. eapply runs_one_of, leaf_increment; [|apply Ha|done|done]. intros v Hv. by exists v.
      * rewrite orb_false_r in Hset. apply bool_decide_eq_true in Hset.
        eapply runs_one_of, leaf_value; [|apply Ha|done|done]. intros v Hv. by exists v.
    + intros _ o (m & Hm & Hk & (x & Hx & Ex) & ->). apply runs_ret. exists m, x. by rewrite app_nil_r.
  - intros [first' found'] o1 (m & x & Hm & Hk & Hx & Ex & ->). apply runs_ret. rewrite app_nil_r.
    exists [m]. split; [by apply compact_members_all, Forall_singleton|]. split; [done|]. by exists m, x.
Qed.
(** The members of the record after are those of the tree. *)
Lemma applied_members ms ms' l : members_become top_member ms ms' ->
  (if is_kind a LQL_MUTATION_REMOVE then l = []
   else made a 0 (existsb (fun m => bytes_eqb (fst m) (seg a 0)) ms) l) ->
  apply_action a (JObject ms) = Some (JObject (ms' ++ map member_pair l)).
Proof.
  intros Hb Hl. unfold apply_action. unfold top_member, top_of_kind, is_kind, applied in Hb. unfold is_kind in Hl.
  destruct (action_kind a) eqn:Ek; kinds; cbn [andb] in Hb.
  - rewrite <- (drop_0 (segments a)). eapply at_path_object; try done; [|apply exact_count].
    intros x Hx. by rewrite (leaf_set x Ek Hx).
  - rewrite <- (drop_0 (segments a)). eapply at_path_object; try done; [|apply exact_count].
    intros x Hx. by apply leaf_number.
  - change (l = []) in Hl. subst l. cbn [map]. rewrite app_nil_r. f_equal. rewrite <- (drop_0 (segments a)). apply remove_path_object; [apply exact_count|].
    clear -Hb. induction Hb as [|k x y ms ms' H _ IH|k x ms ms' H _ IH]; [constructor|apply become_member|apply become_dropped]; try done;
      unfold removed_member, last_segment; rewrite Nat.eqb_sym; cbn in H |- *;
      destruct (bytes_eqb k (seg a 0)), (segment_count a =? 1)%nat; try done; try (by destruct H as (? & H' & H2); injection H2 as ->).
Qed.

(** What can be asked of a member when the record can be changed. *)
Lemma applied_member_some ms m : (sure = true -> is_Some (apply_action a (JObject ms))) -> In (member_pair m) ms ->
  bytes_eqb (m_key m) (seg a 0) = true -> sure = true -> is_Some (applied 1 (m_value m)).
Proof.
  intros Hok Hin Hk Hs. unfold apply_action, applied in *. pose proof exact_count as Hn. destruct (action_kind a); [| |done].
  - by eapply (path_member_some a _ _ 0 (JObject ms) m).
  - by eapply (path_member_some a _ _ 0 (JObject ms) m).
Qed.

Lemma runs_exact_emit ms : compact c (JObject ms) -> (sure = true -> is_Some (apply_action a (JObject ms))) ->
  runs c (lql_flat_eq_mutation_emit [a]) (fun _ out => exists x w, apply_action a (JObject ms) = Some x /\
    compact w x /\ out = w ++ [ch_nl]).
Proof.
  intros Hc Hok. destruct (compact_object_inv _ _ Hc) as (l & El & -> & Hl%compact_members_all).
  pose proof (whole_place c _ Hc) as [_ Hsits]. unfold lql_flat_eq_mutation_emit. cbn [length Nat.eqb].
  eapply runs_after_read; [apply reads_size|]. intros size ->.
  assert (Hlen : (length c <? 2)%nat = false).
  { rewrite El. unfold object_text. cbn [length]. rewrite length_app. apply Nat.ltb_ge. cbn [length]. lia. }
  rewrite Hlen. eapply runs_byte_then; [rewrite El; reflexivity|]. rewrite Z.eqb_refl. cbn [negb].
  eapply runs_bind; [by eapply silent_exact_targets|]. intros _ ? ->. apply runs_write_then.
  eapply runs_bind.
  - eapply (walk_runs c member_text top_round ch_lbrace ch_rbrace _ l); [done|done| | |].
    + change (sits c (object_text l) 0 (length c)). rewrite <- El. exact Hsits.
    + intros m _. eexists ch_quote, _. by split.
    + intros m pre post [first found] Hin Ec Hpost Hlt.
      assert (Hm : good_member m) by by apply (proj1 (List.Forall_forall _ _) Hl m).
      eapply runs_exact_round; [exact Hm|exact Ec|exact Hpost|exact Hlt|]. intros Hs Hk _. eapply applied_member_some; [exact Hok|by apply in_map|done|done].
  - intros st o1 (l1 & Hl1 & -> & Hb & ->)%top_chain. cbn [repeat orb andb].
    eapply runs_bind; [apply runs_exact_missing|]. intros b ? (l2 & Hl2 & -> & Hmade).
    eapply runs_weaken, runs_write. intros _ ? ->.
    assert (Hall : compact_members (l1 ++ l2)).
    { apply compact_members_all, list.Forall_app. by rewrite <- !compact_members_all. }
    exists (JObject (map member_pair (l1 ++ l2))), (object_text (l1 ++ l2)).
    split; [rewrite map_app; by apply applied_members|]. split; [by apply compact_object|].
    unfold object_text. rewrite map_app, items_app. cbn [andb].
    replace (bool_decide (map member_text l1 = [])) with (bool_decide (l1 = []))
      by (apply bool_decide_ext; split; [by intros ->|by intros ?%map_eq_nil]).
    cbn. by rewrite <- !(assoc_L (++)).
Qed.
End record.

(** ** The output *)

(** C17. An action with an exact path and no file value, carried out on the bytes of a record, does to its
    tree what it says: [apply_action] sets the value at the path, with new objects for
    the names that are missing, adds the delta to the number there, or takes the member
    out (an element of an array becomes [null]), and leaves every other part of the
    record as it was.  The line written is the compact text of that tree.  And when the
    spool is in memory and neither the writer nor the allocator fails, the emission
    succeeds, unless the action increments what is no number or leaves no finite one. *)
Theorem exact_path_correct a c ms s env : exact_action a -> compact c (JObject ms) -> holds c s ->
  let '(r, s', env') := stream_step [] (mutation_output [a]) s env in
  match r with
  | inl (status, _) => status <> LQL_STATUS_OK
  | inr _ => holds c s' /\ exists x w, apply_action a (JObject ms) = Some x /\ compact w x /\
      delivered env' = delivered env ++ w ++ [ch_nl]
  end /\
  (spool_file_ s = None -> writer_outcomes env = [] -> alloc_outcomes env = [] ->
   apply_action a (JObject ms) <> None -> r = inr tt).
Proof.
  intros Ha Hc Hs. unfold stream_step.
  assert (Hatomic : lql_flat_eq_mutation_program_needs_atomic_output [a] = false).
  { cbn. by rewrite (exact_value a Ha), !andb_false_r. }
  unfold mutation_output. rewrite Hatomic.
  assert (H : forall mode : Mode, (sure = true -> is_Some (apply_action a (JObject ms))) -> _) by
    (intros mode Hok; exact (runs_exact_emit c a Ha ms Hc Hok (mk_emit s None env []) ltac:(by split))).
  set (mode := bool_decide (apply_action a (JObject ms) <> None) : Mode).
  specialize (H mode ltac:(intros Hm; apply bool_decide_eq_true in Hm; by apply not_eq_None_Some)).
  destruct (lql_flat_eq_mutation_emit [a] _) as [r st]. destruct H as (L & _ & K & H). split.
  - destruct r as [[status message]|[]]; [exact L|]. destruct (H tt eq_refl) as ([Hs' _ _] & out & G & x & w & Hx & Hw & ->).
    split; [done|]. unfold grew in G. cbn in G. destruct (emit_target st); [done|]. by exists x, w.
  - intros H1 H2 H3 H4. destruct K as [[[] Hr] _]; [|by split|done]. by apply bool_decide_eq_true.
Qed.

(** A set at a path of which the record has none, and one of a removed element. *)
Definition deep_set : lql_mutation_action :=
  mk_action LQL_MUTATION_SET [bs "c"; bs "name"] (Some (bs "A\B")) false LQL_MUTATION_VALUE_STRING (S754_zero false).

Definition element_removed : lql_mutation_action := path_action LQL_MUTATION_REMOVE (S754_zero false) [bs "c"; bs "0"].

Lemma sample_applied :
  apply_action deep_set (JObject (map member_pair sample_members)) =
    Some (JObject [(bs "n", JNumber (bs "41")); (bs "c", JObject [(bs "name", JString (bs "A\B"))])]) /\
  apply_action element_removed (JObject (map member_pair sample_members)) =
    Some (JObject [(bs "n", JNumber (bs "41")); (bs "c", JArray [JNull])]) /\
  apply_action (path_action LQL_MUTATION_INCREMENT double_one [bs "c"; bs "0"]) (JObject (map member_pair sample_members)) =
    Some (JObject [(bs "n", JNumber (bs "41")); (bs "c", JObject [(bs "0", JNumber (bs "1"))])]).
Proof. vm_compute. done. Qed.

Lemma deep_set_exact : exact_action deep_set.
Proof.
  split; [|by repeat constructor|done|done].
  apply ascii_usable; try done; try (by intros _; eexists); try (repeat constructor; done). apply utf8_ascii. repeat constructor; done.
Qed.

Lemma exact_path_correct_witness :
  delivered (snd (stream_step [] (mutation_output [deep_set]) (memory_spool sample_record) calm)) =
    json_text "{'n':41,'c':{'name':'A\\B'}}" ++ [ch_nl] /\
  let '(r, s', env') := stream_step [] (mutation_output [deep_set]) (memory_spool sample_record) calm in
  match r with
  | inl (status, _) => status <> LQL_STATUS_OK
  | inr _ => holds sample_record s' /\ exists x w, apply_action deep_set (JObject (map member_pair sample_members)) = Some x /\
      compact w x /\ delivered env' = delivered calm ++ w ++ [ch_nl]
  end /\
  (spool_file_ (memory_spool sample_record) = None -> writer_outcomes calm = [] -> alloc_outcomes calm = [] ->
   apply_action deep_set (JObject (map member_pair sample_members)) <> None -> r = inr tt).
Proof.
  split; [vm_compute; reflexivity|].
  exact (exact_path_correct deep_set sample_record _ (memory_spool sample_record) calm deep_set_exact sample_compact
    (memory_holds _)).
Defined.
